(* ===== verification/_CoqProject ===== *)
-Q . S2P
Prelude.v
BlockAllocator.v
PagedSequence.v
ServingPolicies.v
RequestScheduler.v
RequestSchedulerProofs.v
PrefixIndex.v
SlotState.v
ContinuousBatcher.v
BatcherInvariant.v
BatcherSteps.v
ListEngine.v
ContinuousBatcherProofs.v
Sampling.v
Floats.v
FloatRound.v
SpecDecode.v
ModelPool.v
ChunkAllocator.v
Gguf.v
GgufProofs.v
GgufFormat.v
GgufLoad.v
UnixSocket.v
Ipc.v
Munin.v
Attach.v
Weights.v
Merging.v
Tokenizer.v
TokenizerProofs.v
TokenizerDemo.v
Auth.v
Wav.v
Xlmr.v
XlmrProofs.v
StreamFilters.v
StreamFiltersProofs.v
Safetensors.v
SafetensorsProofs.v
PromptTrim.v
Thermal.v
ThermalProofs.v
ToolCalls.v
ToolCallsProofs.v
Dequant.v
DequantProofs.v
DequantFormats.v
DequantExact.v
WeightLayouts.v
WeightLayoutsProofs.v
InferenceEngine.v
InferenceEngineProofs.v
SpeculativeDecoder.v
MtpDecoder.v
MtpDecoderProofs.v
SpeculativeDecoderProofs.v
DFlashDecoder.v
DFlashDecoderProofs.v
