(* ===== verification/Prelude.v ===== *)
(** * Verification of the MimirMind serving core

    MimirMind is an inference server for language models.  This development models
    the parts of its C++ host code that decide things - which request runs, which
    block, slot, chunk or model it gets, which token is emitted, what a file or a
    message means - and proves them correct.  Names follow the code; the comment in
    front of a definition ends with the lines it translates.

    ** The program and the files

    Serving, one process ([src/src/runtime]):
    - [ServingPolicies.v]: the stateless decisions of [serving/]
      ([ChunkedPrefillScheduler], [PreemptionPolicy], [BatchCapacityProbe]).
    - [BlockAllocator.v], [PagedSequence.v]: the pool of KV blocks
      ([PagedKvBlockAllocator]) and one request's page table over it
      ([PagedKvSequence]).  The pool is shared, so it is passed in and returned.
    - [RequestScheduler.v], [RequestSchedulerProofs.v]: the life of a request
      ([RequestScheduler]): waiting, prefill, decode, preempted, done.  It calls the
      policies and feeds the sequences.
    - [PrefixIndex.v], [SlotState.v]: the cache of token prefixes ([GdnPrefixIndex])
      and, above it, the checkpoints and prefix images of the serving slots
      ([engine/ServingSession.cpp], [SsmState]) as copies between device memories.
    - [ContinuousBatcher.v]: the worker that serves all clients
      ([serving/ContinuousBatcher]).  It calls the engine through the class [Engine].
      [BatcherInvariant.v] holds the invariant and the laws of an engine ([Lawful]),
      [BatcherSteps.v] one lemma per function of the worker,
      [ContinuousBatcherProofs.v] the theorems, [ListEngine.v] an engine that obeys
      the laws.
    - [Sampling.v]: the sampler ([compute/Sampling]) on IEEE binary32.
    - [SpecDecode.v]: prompt-lookup drafting ([spec/NGramDrafter.cpp]) and what a
      drafter is, the class [Drafter].
    - [ModelPool.v]: whole models, pinned and evicted ([serving/AttachedModelPool]).

    Serving, one session ([src/src/runtime/InferenceEngine.cpp], [src/src/runtime/engine]):
    - [InferenceEngine.v], [InferenceEngineProofs.v]: the engine of a single session:
      its KV cache, the reuse of a cached prefix, prefill, decode, verification of
      drafted rows and the rollback of recurrent state.  What a model computes is the
      class [Backend], the laws it keeps are [BackendLaws].
    - [SpeculativeDecoder.v], [SpeculativeDecoderProofs.v]: speculative decoding on that
      engine with any drafter ([spec/SpeculativeDecoder.cpp], [spec/ModelDrafter.cpp]).
    - [MtpDecoder.v], [MtpDecoderProofs.v]: decoding with a multi-token-prediction
      head ([engine/MtpDecoder.cpp]); the head is the class [NextnHead].
    - [DFlashDecoder.v], [DFlashDecoderProofs.v]: decoding with blocks of a diffusion
      drafter ([engine/DFlashDecoder.cpp]); classes [DraftRunner] and [Replay].
    - [Thermal.v], [ThermalProofs.v]: the clock governor and the fan controller
      ([runtime/thermal]).

    Files and the model daemon ([src/src/core/gguf], [src/src/core/ipc],
    [src/src/munin]):
    - [Gguf.v], [GgufProofs.v], [GgufFormat.v]: the GGUF reader, its safety, and the
      format as an encoder with the round trip.
    - [ChunkAllocator.v], [GgufLoad.v]: bump allocation in chunks and the load of a
      file's tensors into them.
    - [UnixSocket.v], [Ipc.v]: frames with descriptors over a socket, the manifest and
      the requests as JSON, chunk handles.
    - [Munin.v]: the models the daemon holds and their manifests.
    - [Attach.v]: the session of the daemon and the client of the worker.
    - [Weights.v]: the tensors a worker has, and the path from the file to them.

    Checkpoints ([src/src/core/safetensors]):
    - [Safetensors.v], [SafetensorsProofs.v]: header, shard index, reader and sharded
      model, the safety of the header, and the round trip over shards.

    Weights as numbers ([src/src/compute], [src/src/core/modelopt]):
    - [Dequant.v]: every block format the host decodes; [DequantProofs.v],
      [DequantFormats.v], [DequantExact.v]: bounds of the walk, the bit layouts, and the
      exact real value of each decoded weight.
    - [WeightLayouts.v], [WeightLayoutsProofs.v]: the re-ordered rows of Q8_0, the tiled
      block scales and the scalar decoders of NVFP4.

    Text in and out ([src/src/model], [src/src/server]):
    - [Merging.v]: merging the best adjacent pair by a queue over a linked list, which
      both encoders share, against merging in a list; [Tokenizer.v],
      [TokenizerProofs.v], [TokenizerDemo.v]: both loaders, byte-level BPE,
      SentencePiece, special tokens, decoding.
    - [Xlmr.v], [XlmrProofs.v]: the XLM-R tokenizer and its segmentation.
    - [StreamFilters.v], [StreamFiltersProofs.v]: what a generated token passes before
      it reaches a streaming client - the response cleaner, the tool-call detector, the
      UTF-8 buffer - and the loop of [ChatCompletionHandler.cpp] around them.
    - [PromptTrim.v]: dropping old messages until a prompt fits.
    - [ToolCalls.v], [ToolCallsProofs.v]: the parsers of tool calls in an answer, and
      the ladder that picks one.
    - [Auth.v]: API keys, their file, the hook in front of every request.
    - [Wav.v]: audio files in and out ([runtime/audio]).
    - [Floats.v], [FloatRound.v]: IEEE numbers from bits, conversions, and what rounding
      does to values, for the files above that compute with them.

    This file holds what they share: machine integers, exceptions, record update,
    maps, sums, counting.

    ** How the code is read

    An unsigned integer is an [N] reduced by [u32] or [u64] where the code can wrap; a
    signed one is a [Z]; a count of container elements is a [nat].  A call that can
    throw answers a [result]; where it can also leave defined behaviour (read outside
    a file, index outside a vector) it answers an [outcome] with the case [Undefined].
    A shared object is state that is passed through.  Threads interleave at locks: the
    batcher lets the clients run wherever it takes a mutex, the model pool is cut where
    it gives its mutex back, and the theorems are about all such runs.  Everything the
    outside decides - system calls, device memory, the driver, random draws, the order
    of equal elements in [std::sort] and of buckets in a hash map - is an argument.
    Interfaces are classes: [Engine], [Drafter], [Heap], [Json], [Backend],
    [NextnHead], [DraftRunner], [Replay].

    ** What is proved

    - State stays consistent: the block pool refines a map of live blocks, the page
      table and hash chain follow the tokens, the scheduler's registry, index, counters
      and pool agree, every prefix image is cached, pending or freed once, a pinned
      model is never evicted, placements in chunks never overlap, the batcher keeps its
      bounds and never duplicates or loses a request.
    - The answer is right: a greedy stream of the batcher is the stream of the same
      request served alone, whatever else is batched with it; greedy sampling answers the first
      maximum; drafting finds the longest, latest match; the schedule is the reference
      policy; the thinking budget holds.  In a single session a reused prefix cannot be
      seen in the answer, and decoding with a prediction head, with diffusion blocks or,
      on a model without recurrent state, with speculation generates the tokens of plain
      greedy decoding (requests without penalties, bias and bad words).
    - Work ends: the batcher drains and the scheduler completes every request within a
      measure computed from the requests.
    - Data survives: checkpoints and images, GGUF files, frames over a socket with any
      partial transfers, a manifest, sharded checkpoints, the key file, audio up to
      quantisation, and a worker attached to the daemon finds at each tensor's address
      the bytes of the file.  A block of quantised weights decodes to the real number its
      format defines, rounded where the code rounds; re-ordered rows decode to the same weights, and
      tiled scales are found where the offset formula says.
    - Text is right: merging by queue is greedy merging however the queue orders equal
      entries; decoding undoes encoding; the XLM-R segmentation has the best binary32
      score of those with unknowns only where no piece ends, and of all where single
      codepoints are pieces; a streamed answer is the complete answer filtered as a
      whole, its tool calls are those of the whole text, fences counted, unless one token
      holds two of them or ends just behind a fence, and a printed call is parsed back.  A trimmed
      prompt fits, and keeps what must be kept.
    - Control stays in range: probing for a card writes back only what was read, and the
      governor then sets no clock outside the limits of its card and asks for the upper
      one back at the end; no call sets the fan below its floor, and its captured speed
      and mode are put back.
    - Hostile input: opening a GGUF, safetensors or WAV file stays inside it or throws,
      the undefined cases being named; a request is judged by its own header alone.

    Where the code departs from what it says, an [Example] or lemma next to the model
    shows it on a concrete input (for instance [warm_hole_corrupts],
    [mixed_end_leaks_pin], [bias_ignored], [wrapping_offset_reads_outside],
    [long_payload_truncated], [block_number_wraps], [less_than_swallows_answer],
    [held_content_lost], [header_length_wraps], [speculation_corrupts_recurrent_state],
    [last_round_does_not_fit], [head_rows_fall_behind], [unknown_never_preferred],
    [fence_split_missed], [closing_tag_cuts], [low_speed_put_back], [array_count_wraps]).

    ** Bounds and fuel

    A loop that is not structural carries fuel, and a lemma shows it is never spent:
    the chunks of a prompt take at most one turn per token ([prefillChunks_fed]), a
    run of prefills one per slot ([good_runBatchedLoop]), evictions one per resident
    model ([makeRoom_spec]) or cached entry, decoding and speculative rounds one per
    token still allowed.  The encoders take three turns per piece of text, the walk
    over a WAV file eight bytes per turn, a field of a SentencePiece model a byte, a
    turn of the response cleaner one pending character ([loop_total]).  Decoding in a
    session and the rounds of both drafting decoders take one turn per token of the
    budget; a tool-call parser consumes a character per turn (the nested notation three
    turns per character), dropping messages one message per turn; trimming has the
    twenty rounds of the code ([rounds_run_out]).  File sizes are assumed below 2^63,
    chunks below 2^62, as any mapping is.

    ** Not modelled

    Kernels, the forward passes that queue them, their recording and replay as command
    lists or graphs, and the numeric pipelines for audio and encoders: what they compute
    is defined by device code.  The JSON, HTTP, template and grammar libraries are not
    part of the program; of the code around them the request handlers, the chat
    templates beyond what the streamed turn needs, and the grammar that constrains or
    repairs a tool call are left out.  So are the part of [ServingSession.cpp] that
    queues batched passes (its slots, checkpoints and prefix images are in
    [SlotState.v], its contract towards the batcher is [Engine]), the monitors and
    traces that only report, the loaders of whole models, and the Level Zero variant of
    the daemon.  Log lines, wall-clock statistics, command line, benches and
    diagnostics carry no logic of their own. *)

From Stdlib Require Export ZArith NArith Lia.
From stdpp Require Export base list gmap strings.

#[global] Set Default Goal Selector "!".

(** ** Machine integers

    Unsigned values ([uint8_t], [uint32_t], [uint64_t]) are [N]s kept in range
    by the wrap-around functions below; [int32_t] values are [Z]s.  Every
    operation of the code whose overflow matters writes its wrap out.
    [size_t] values that count the elements of a container are [nat]s. *)

Definition wrapU (w x : N) : N := (x mod 2 ^ w)%N.
Definition u8 : N -> N := wrapU 8.
Definition u32 : N -> N := wrapU 32.
Definition u64 : N -> N := wrapU 64.

(** [static_cast<uint32_t>] of a signed value. *)
Definition u32_of_Z (x : Z) : N := Z.to_N (x mod 2 ^ 32).

(** Two's-complement wrap of an [int32_t] result. *)
Definition s32 (x : Z) : Z :=
  let y := (x mod 2 ^ 32)%Z in if (y <? 2 ^ 31)%Z then y else (y - 2 ^ 32)%Z.

Definition in_u (w x : N) : Prop := (x < 2 ^ w)%N.
Definition in_s32 (x : Z) : Prop := (- 2 ^ 31 <= x < 2 ^ 31)%Z.

Create HintDb mm.
Create Rewrite HintDb mm.

Lemma wrapU_range w x : in_u w (wrapU w x).
Proof. unfold in_u, wrapU. apply N.mod_lt. by apply N.pow_nonzero. Qed.

Lemma wrapU_small w x : in_u w x -> wrapU w x = x.
Proof. unfold in_u, wrapU. intros. by apply N.mod_small. Qed.

Lemma wrapU_idem w x : wrapU w (wrapU w x) = wrapU w x.
Proof. apply wrapU_small, wrapU_range. Qed.

Lemma u32_range x : in_u 32 (u32 x).
Proof. apply wrapU_range. Qed.

Lemma u64_range x : in_u 64 (u64 x).
Proof. apply wrapU_range. Qed.

Lemma u32_small x : (x < 2 ^ 32)%N -> u32 x = x.
Proof. apply wrapU_small. Qed.

Lemma u64_small x : (x < 2 ^ 64)%N -> u64 x = x.
Proof. apply wrapU_small. Qed.

Lemma s32_range x : in_s32 (s32 x).
Proof.
  unfold in_s32, s32. pose proof (Z.mod_pos_bound x (2 ^ 32)).
  destruct (Z.ltb_spec (x mod 2 ^ 32) (2 ^ 31)); lia.
Qed.

Lemma s32_small x : in_s32 x -> s32 x = x.
Proof.
  unfold in_s32, s32. intros H. destruct (decide (0 <= x)%Z).
  - rewrite Z.mod_small by lia. destruct (Z.ltb_spec x (2 ^ 31)); lia.
  - rewrite <- (Z_mod_plus_full x 1). rewrite Z.mod_small by lia.
    destruct (Z.ltb_spec (x + 1 * 2 ^ 32) (2 ^ 31)); lia.
Qed.

#[export] Hint Resolve u32_range u64_range s32_range : mm.
#[export] Hint Rewrite u32_small u64_small s32_small using (unfold in_s32; lia) : mm.

(** ** Exceptions

    A C++ function that can throw returns a [result]; the exception keeps the
    type the code throws. *)

Inductive exn :=
  | InvalidArgument (what : string)
  | RuntimeError (what : string)
  | OutOfRange (what : string)
  | LengthError (what : string)
  | BadAlloc.

Inductive result (A : Type) :=
  | Ok (a : A)
  | Throw (e : exn).
Arguments Ok {A} a.
Arguments Throw {A} e.

Definition is_ok {A} (r : result A) : bool :=
  match r with Ok _ => true | Throw _ => false end.

(** ** Record update

    [r <| f := v |>] is [r] with field [f] replaced by [v]; one instance per
    field, built from the eta-expansion of the record. *)

Class FieldSetter {R T : Type} (proj : R -> T) := set_field : T -> R -> R.
Arguments set_field {R T} proj {_} _ _ /.

Notation "r <| p := v |>" := (set_field p v r)
  (at level 1, left associativity, p at level 11, v at level 200,
   format "r  <| p  :=  v |>").

Ltac build_setter eta proj :=
  let v := fresh "v" in let r := fresh "r" in
  intros v r;
  let e := eval unfold eta in (eta r) in
  match (eval pattern (proj r) in e) with
  | ?F _ => let b := eval cbv beta in (F v) in exact b
  end.

(** ** Tactics *)

(** Case analysis on every [match] and [if] of the goal and the hypotheses,
    keeping the equations. *)
Ltac split_matches :=
  repeat match goal with
  | H : context [match ?x with _ => _ end] |- _ => destruct x eqn:?; simplify_eq/=
  | |- context [match ?x with _ => _ end] => destruct x eqn:?; simplify_eq/=
  end.

(** Turn boolean comparisons into propositions. *)
Ltac bool_to_prop :=
  repeat match goal with
  | H : (_ && _)%bool = true |- _ => apply andb_true_iff in H; destruct H
  | H : (_ || _)%bool = false |- _ => apply orb_false_iff in H; destruct H
  | H : negb _ = true |- _ => apply negb_true_iff in H
  | H : negb _ = false |- _ => apply negb_false_iff in H
  | H : (_ =? _)%nat = true |- _ => apply Nat.eqb_eq in H
  | H : (_ =? _)%nat = false |- _ => apply Nat.eqb_neq in H
  | H : (_ <=? _)%nat = true |- _ => apply Nat.leb_le in H
  | H : (_ <=? _)%nat = false |- _ => apply Nat.leb_gt in H
  | H : (_ <? _)%nat = true |- _ => apply Nat.ltb_lt in H
  | H : (_ <? _)%nat = false |- _ => apply Nat.ltb_ge in H
  | H : (_ =? _)%N = true |- _ => apply N.eqb_eq in H
  | H : (_ =? _)%N = false |- _ => apply N.eqb_neq in H
  | H : (_ <=? _)%N = true |- _ => apply N.leb_le in H
  | H : (_ <=? _)%N = false |- _ => apply N.leb_gt in H
  | H : (_ <? _)%N = true |- _ => apply N.ltb_lt in H
  | H : (_ <? _)%N = false |- _ => apply N.ltb_ge in H
  | H : (_ =? _)%Z = true |- _ => apply Z.eqb_eq in H
  | H : (_ =? _)%Z = false |- _ => apply Z.eqb_neq in H
  | H : (_ <=? _)%Z = true |- _ => apply Z.leb_le in H
  | H : (_ <=? _)%Z = false |- _ => apply Z.leb_gt in H
  | H : (_ <? _)%Z = true |- _ => apply Z.ltb_lt in H
  | H : (_ <? _)%Z = false |- _ => apply Z.ltb_ge in H
  end.

(** ** Lists *)

Section Lists.
Context {A : Type}.
Implicit Types l k : list A.

Lemma length_filter_split (P : A -> Prop) `{!forall x, Decision (P x)} l :
  length (filter P l) + length (filter (fun x => ~ P x) l) = length l.
Proof.
  induction l as [|x l IH]; [done|].
  rewrite !filter_cons. repeat case_decide; simpl; try tauto; lia.
Qed.

Lemma NoDup_incl_le l k : NoDup l -> (forall x, x ∈ l -> x ∈ k) -> length l <= length k.
Proof. intros Hl Hk. by apply submseteq_length, NoDup_submseteq. Qed.

Lemma NoDup_same_length l k :
  NoDup l -> NoDup k -> (forall x, x ∈ l <-> x ∈ k) -> length l = length k.
Proof. intros. apply Permutation_length, NoDup_Permutation; auto. Qed.

Lemma list_insert_alter l i x y : l !! i = Some x -> forall j,
  <[i := y]> l !! j = if decide (i = j) then Some y else l !! j.
Proof.
  intros Hi j. case_decide as Hd; [subst|].
  - by apply list_lookup_insert_eq, (lookup_lt_Some _ _ x).
  - by apply list_lookup_insert_ne.
Qed.
End Lists.

(** A list with one position in focus. *)
Lemma insert_perm {X} (l : list X) i x y :
  l !! i = Some x -> exists k, l ≡ₚ x :: k /\ <[i := y]> l ≡ₚ y :: k.
Proof.
  intros Hi. exists (take i l ++ drop (S i) l). split.
  - rewrite <- (take_drop_middle _ _ _ Hi) at 1. by rewrite Permutation_middle.
  - rewrite insert_take_drop by (by eapply lookup_lt_Some). by rewrite Permutation_middle.
Qed.

(** [unordered_map::emplace]: an existing key keeps its value. *)
Definition emplace {K A} `{Countable K} (k : K) (v : A) (m : gmap K A) : gmap K A :=
  match m !! k with
  | None => <[k := v]> m
  | Some _ => m
  end.

Lemma emplace_fresh {K A} `{Countable K} (k : K) (v : A) (m : gmap K A) :
  m !! k = None -> emplace k v m = <[k := v]> m.
Proof. unfold emplace. by intros ->. Qed.

(** Sum of a list of integers. *)
Definition sumZ (l : list Z) : Z := foldr Z.add 0%Z l.

Lemma sumZ_app l k : sumZ (l ++ k) = (sumZ l + sumZ k)%Z.
Proof. induction l as [|x l IH]; simpl; [done|]. rewrite IH. lia. Qed.

Lemma sumZ_nonneg l : Forall (fun x => 0 <= x)%Z l -> (0 <= sumZ l)%Z.
Proof. induction 1; simpl; lia. Qed.

Lemma sumZ_perm l k : l ≡ₚ k -> sumZ l = sumZ k.
Proof. induction 1; simpl; lia. Qed.

Lemma list_sum_cons x l : list_sum (x :: l) = x + list_sum l.
Proof. done. Qed.

(** Number of elements that satisfy a test. *)
Fixpoint count_if {A} (f : A -> bool) (l : list A) : nat :=
  match l with
  | [] => 0
  | x :: l' => (if f x then 1 else 0) + count_if f l'
  end.

Lemma count_if_app {A} (f : A -> bool) l k : count_if f (l ++ k) = count_if f l + count_if f k.
Proof. induction l as [|x l IH]; simpl; [done|]. rewrite IH. lia. Qed.

Lemma count_if_perm {A} (f : A -> bool) l k : l ≡ₚ k -> count_if f l = count_if f k.
Proof. induction 1; simpl; lia. Qed.

Lemma count_if_le {A} (f : A -> bool) l : count_if f l <= length l.
Proof. induction l as [|x l IH]; simpl; [done|]. destruct (f x); lia. Qed.

Lemma count_if_insert {A} (f : A -> bool) l i x y :
  l !! i = Some x ->
  count_if f (<[i := y]> l) + (if f x then 1 else 0) =
  count_if f l + (if f y then 1 else 0).
Proof.
  intros Hi. destruct (insert_perm l i x y Hi) as (k & H1 & H2).
  rewrite (count_if_perm _ _ _ H1), (count_if_perm _ _ _ H2). simpl. lia.
Qed.

Lemma count_if_ext {A} (f g : A -> bool) l :
  (forall x, x ∈ l -> f x = g x) -> count_if f l = count_if g l.
Proof.
  induction l as [|x l IH]; intros H; simpl; [done|].
  rewrite (H x) by left. rewrite IH; [done|]. intros y Hy. apply H. by right.
Qed.

Lemma count_if_mono {A} (f g : A -> bool) l :
  (forall x, x ∈ l -> f x = true -> g x = true) -> count_if f l <= count_if g l.
Proof.
  induction l as [|x l IH]; intros H; simpl; [done|].
  assert (count_if f l <= count_if g l) by (apply IH; intros y Hy; apply H; set_solver).
  assert (f x = true -> g x = true) by (apply H; set_solver).
  destruct (f x), (g x); try lia.
Qed.

(** [omap] without duplicates names its positions. *)
Lemma NoDup_omap_inj {A B} (f : A -> option B) l i j x y z :
  NoDup (omap f l : list B) -> l !! i = Some x -> l !! j = Some y -> f x = Some z -> f y = Some z ->
  i = j.
Proof.
  assert (Hin : forall l k w, l !! k = Some w -> f w = Some z -> z ∈ (omap f l : list B)).
  { intros l' k w Hk Hw. apply list_elem_of_omap. exists w. split; [|done].
    by eapply list_elem_of_lookup_2. }
  revert i j. induction l as [|a l IH]; intros i j Hnd Hi Hj Hx Hy; [done|].
  simpl in Hnd. destruct i as [|i], j as [|j]; simplify_eq/=; [done|..].
  - rewrite Hx in Hnd. apply NoDup_cons in Hnd as [Hn _]. destruct Hn. eauto.
  - rewrite Hy in Hnd. apply NoDup_cons in Hnd as [Hn _]. destruct Hn. eauto.
  - f_equal. apply IH; [|done..]. destruct (f a); [by apply NoDup_cons in Hnd as [_ ?]|done].
Qed.

(** [alter] at a known position is [insert]. *)
Lemma alter_as_insert {A} (f : A -> A) (l : list A) i x :
  l !! i = Some x -> alter f i l = <[i := f x]> l.
Proof.
  intros Hi. apply list_eq. intros j. destruct (decide (i = j)) as [->|Hn].
  - rewrite list_lookup_alter_eq, Hi. simpl.
    symmetry. by apply list_lookup_insert_eq, (lookup_lt_Some _ _ x).
  - by rewrite list_lookup_alter_ne, list_lookup_insert_ne.
Qed.

Lemma omap_perm {A B} (f : A -> option B) (l k : list A) :
  l ≡ₚ k -> (omap f l : list B) ≡ₚ omap f k.
Proof.
  induction 1 as [|x l k _ IH|x y l|l1 l2 l3 _ IH1 _ IH2]; simpl.
  - done.
  - destruct (f x); [by rewrite IH|done].
  - destruct (f x), (f y); try done. by constructor.
  - by rewrite IH1.
Qed.

(** ** Strings *)

Lemma append_assoc (a b c : string) : (a +:+ b) +:+ c = a +:+ (b +:+ c).
Proof.
  induction a as [|x a IH]; [done|].
  change (String.String x ((a +:+ b) +:+ c) = String.String x (a +:+ (b +:+ c))). by rewrite IH.
Qed.

Lemma append_nil_r (a : string) : a +:+ EmptyString = a.
Proof. induction a as [|x a IH]; [done|]. change (String.String x (a +:+ EmptyString) = String.String x a). by rewrite IH. Qed.

Lemma length_append (s t : string) : String.length (s +:+ t) = String.length s + String.length t.
Proof. induction s as [|c s IH]; [done|]. cbn. by rewrite <- IH. Qed.

(** The pieces of a list, one after the other. *)
Definition cat (l : list string) : string := foldr String.append EmptyString l.

Lemma cat_app l l' : cat (l ++ l') = cat l +:+ cat l'.
Proof. induction l as [|x l IH]; [done|]. cbn [app cat foldr]. rewrite append_assoc. by f_equal. Qed.
