(* ===== verification/BlockAllocator.v ===== *)
(** * [PagedKvBlockAllocator]: the logical block pool of the paged KV cache

    Models [src/src/runtime/serving/PagedKvBlockAllocator.{hpp,cpp}]: block
    descriptors indexed by physical id, a LIFO free list, reference counts at
    32 bits and a 64-bit block hash.  The theorems: the pool invariant is kept
    by every operation, and every operation refines its effect on the abstract
    map from live blocks to (reference count, hash). *)

From S2P Require Import Prelude.

Module PagedKvBlockAllocator.

(** A block descriptor: reference count (0 = free) and block hash.
    [src/src/runtime/serving/PagedKvBlockAllocator.hpp:132-135 BlockDescriptor] *)
Record BlockDescriptor := mkBlock {
  refcount : N;
  hash : N;
}.

(** The allocator's fields.  [_freeList] lists the vector from its back: its
    head is [_freeList.back()], so [push_back]/[pop_back] are cons and tail.
    [src/src/runtime/serving/PagedKvBlockAllocator.hpp:137-139 PagedKvBlockAllocator] *)
Record t := mkAllocator {
  _blockSize : nat;
  _blocks : list BlockDescriptor;
  _freeList : list N;
}.

(** The sentinel returned on an exhausted pool.
    [src/src/runtime/serving/PagedKvBlockAllocator.hpp:65-66 kInvalidBlock] *)
Definition kInvalidBlock : N := (2 ^ 32 - 1)%N.

(** The constructor: rejects zero sizes, fills the free list in reverse so that
    block 0 is handed out first.
    [src/src/runtime/serving/PagedKvBlockAllocator.cpp:11-30 PagedKvBlockAllocator] *)
Definition create (numBlocks blockSize : nat) : result t :=
  if (numBlocks =? 0)%nat then
    Throw (InvalidArgument "PagedKvBlockAllocator: numBlocks must be > 0")
  else if (blockSize =? 0)%nat then
    Throw (InvalidArgument "PagedKvBlockAllocator: blockSize must be > 0")
  else Ok {|
    _blockSize := blockSize;
    _blocks := replicate numBlocks (mkBlock 0 0);
    _freeList := (fun i => u32 (N.of_nat i)) <$> seq 0 numBlocks |}.

Definition set_block (a : t) (id : N) (b : BlockDescriptor) : t :=
  mkAllocator (_blockSize a) (<[N.to_nat id := b]> (_blocks a)) (_freeList a).

(** [src/src/runtime/serving/PagedKvBlockAllocator.cpp:32-42 PagedKvBlockAllocator::allocate] *)
Definition allocate (a : t) : N * t :=
  match _freeList a with
  | [] => (kInvalidBlock, a)
  | id :: rest =>
      (id, set_block (mkAllocator (_blockSize a) (_blocks a) rest) id (mkBlock 1 0))
  end.

(** [src/src/runtime/serving/PagedKvBlockAllocator.cpp:44-50 PagedKvBlockAllocator::addRef] *)
Definition addRef (a : t) (blockId : N) : t :=
  match _blocks a !! N.to_nat blockId with
  | None => a
  | Some b =>
      if (refcount b =? 0)%N then a
      else set_block a blockId (mkBlock (u32 (refcount b + 1)) (hash b))
  end.

(** [src/src/runtime/serving/PagedKvBlockAllocator.cpp:52-60 PagedKvBlockAllocator::release] *)
Definition release (a : t) (blockId : N) : t :=
  match _blocks a !! N.to_nat blockId with
  | None => a
  | Some b =>
      if (refcount b =? 0)%N then a
      else
        let rc := (refcount b - 1)%N in
        if (rc =? 0)%N then
          let a' := set_block a blockId (mkBlock rc 0) in
          mkAllocator (_blockSize a') (_blocks a') (blockId :: _freeList a')
        else set_block a blockId (mkBlock rc (hash b))
  end.

(** [src/src/runtime/serving/PagedKvBlockAllocator.cpp:62-67 PagedKvBlockAllocator::setHash] *)
Definition setHash (a : t) (blockId h : N) : t :=
  match _blocks a !! N.to_nat blockId with
  | None => a
  | Some b =>
      if (refcount b =? 0)%N then a else set_block a blockId (mkBlock (refcount b) h)
  end.

(** [src/src/runtime/serving/PagedKvBlockAllocator.cpp:69-72 PagedKvBlockAllocator::hashOf] *)
Definition hashOf (a : t) (blockId : N) : N :=
  match _blocks a !! N.to_nat blockId with None => 0%N | Some b => hash b end.

(** [src/src/runtime/serving/PagedKvBlockAllocator.cpp:74-77 PagedKvBlockAllocator::refcountOf] *)
Definition refcountOf (a : t) (blockId : N) : N :=
  match _blocks a !! N.to_nat blockId with None => 0%N | Some b => refcount b end.

(** [src/src/runtime/serving/PagedKvBlockAllocator.hpp:124-124 numBlocksTotal] *)
Definition numBlocksTotal (a : t) : nat := length (_blocks a).

(** [src/src/runtime/serving/PagedKvBlockAllocator.hpp:125-125 numBlocksFree] *)
Definition numBlocksFree (a : t) : nat := length (_freeList a).

(** [src/src/runtime/serving/PagedKvBlockAllocator.hpp:126-128 numBlocksUsed] *)
Definition numBlocksUsed (a : t) : nat := length (_blocks a) - length (_freeList a).

(** ** The pool invariant *)

(** A block id lies on the free list exactly when its reference count is zero,
    once; free blocks carry no hash; ids and counts fit their 32 bits. *)
Record wf (a : t) : Prop := {
  wf_blockSize : 0 < _blockSize a;
  wf_size : (N.of_nat (length (_blocks a)) < 2 ^ 32)%N;
  wf_nodup : NoDup (_freeList a);
  wf_free : forall id, id ∈ _freeList a <->
    exists b, _blocks a !! N.to_nat id = Some b /\ refcount b = 0%N;
  wf_refcount : forall i b, _blocks a !! i = Some b -> (refcount b < 2 ^ 32)%N;
  wf_hash : forall i b, _blocks a !! i = Some b -> refcount b = 0%N -> hash b = 0%N;
}.

(** The ids of the live blocks. *)
Definition live (a : t) (id : N) : Prop :=
  exists b, _blocks a !! N.to_nat id = Some b /\ refcount b <> 0%N.

#[global] Instance live_dec a id : Decision (live a id).
Proof.
  unfold live. destruct (_blocks a !! N.to_nat id) as [b|] eqn:E.
  - destruct (decide (refcount b = 0%N)) as [Hz|Hz].
    + right. intros (b' & ? & ?). simplify_eq.
    + left. eauto.
  - right. intros (b' & ? & ?). simplify_eq.
Defined.

Lemma live_iff_refcountOf a id : live a id <-> refcountOf a id <> 0%N.
Proof.
  unfold live, refcountOf. destruct (_blocks a !! N.to_nat id) as [b|]; split.
  - intros (? & ? & ?). by simplify_eq.
  - eauto.
  - intros (? & ? & ?). by simplify_eq.
  - done.
Qed.

(** Updating one descriptor changes that lookup only. *)
Lemma set_block_lookup a id b b0 j :
  _blocks a !! N.to_nat id = Some b0 ->
  _blocks (set_block a id b) !! N.to_nat j =
    if decide (id = j) then Some b else _blocks a !! N.to_nat j.
Proof.
  intros H. simpl. rewrite (list_insert_alter _ _ _ _ H).
  repeat case_decide; try done; exfalso; lia.
Qed.

Lemma set_block_lookup_nat a id b b0 i :
  _blocks a !! N.to_nat id = Some b0 ->
  _blocks (set_block a id b) !! i =
    if decide (N.to_nat id = i) then Some b else _blocks a !! i.
Proof. intros H. exact (list_insert_alter _ _ _ _ H i). Qed.

(** An update that keeps a block live (or keeps it free) keeps the invariant. *)
Lemma set_block_wf a id b b0 :
  wf a -> _blocks a !! N.to_nat id = Some b0 ->
  refcount b0 <> 0%N -> refcount b <> 0%N -> (refcount b < 2 ^ 32)%N ->
  wf (set_block a id b).
Proof.
  intros [] Hb H0 H1 H2. split; simpl; try done.
  - by rewrite length_insert.
  - intros j. rewrite wf_free0.
    pose proof (set_block_lookup a id b b0 j Hb) as Hj. simpl in Hj. rewrite Hj.
    case_decide; subst; [|done]. split; intros (? & ? & ?); simplify_eq.
  - intros i b'. rewrite (list_insert_alter _ _ _ _ Hb).
    case_decide; [|eauto]. intros; by simplify_eq.
  - intros i b'. rewrite (list_insert_alter _ _ _ _ Hb).
    case_decide; [|eauto]. intros; by simplify_eq.
Qed.

Lemma create_wf n bs a :
  (N.of_nat n < 2 ^ 32)%N -> create n bs = Ok a -> wf a.
Proof.
  intros Hn Hc. unfold create in Hc. split_matches; bool_to_prop.
  assert (Hu : forall i, i < n -> u32 (N.of_nat i) = N.of_nat i).
  { intros. apply u32_small. lia. }
  split; simpl; rewrite ?length_replicate; try lia.
  - apply NoDup_fmap_2_strong; [|apply NoDup_seq].
    intros x y Hx%elem_of_seq Hy%elem_of_seq. rewrite !Hu by lia. lia.
  - intros id. rewrite list_elem_of_fmap. split.
    + intros (i & -> & Hi%elem_of_seq). exists (mkBlock 0 0).
      rewrite lookup_replicate, Hu by lia. repeat split; lia.
    + intros (b & [-> Hlt]%lookup_replicate & _). exists (N.to_nat id).
      rewrite Hu by lia. split; [lia|]. apply elem_of_seq. lia.
  - intros i b [-> _]%lookup_replicate. simpl. lia.
  - intros i b [-> _]%lookup_replicate. done.
Qed.

Lemma create_ok n bs : n <> 0 -> bs <> 0 -> exists a, create n bs = Ok a.
Proof. intros. unfold create. split_matches; bool_to_prop; try lia. eauto. Qed.

Lemma allocate_wf a : wf a -> wf (allocate a).2.
Proof.
  intros Hwf. pose proof Hwf as []. unfold allocate.
  destruct (_freeList a) as [|id rest] eqn:Hf; [done|]. simpl.
  apply NoDup_cons in wf_nodup0 as [Hni Hnd].
  destruct (proj1 (wf_free0 id)) as (b0 & Hb0 & Hz); [by left|].
  split; simpl; try done.
  - by rewrite length_insert.
  - intros j. pose proof (set_block_lookup a id (mkBlock 1 0) b0 j Hb0) as Hj.
    simpl in Hj. rewrite Hj. case_decide; subst.
    + split; [done|]. intros (? & ? & ?). by simplify_eq.
    + rewrite <- wf_free0. rewrite elem_of_cons. naive_solver.
  - intros i b'. rewrite (list_insert_alter _ _ _ _ Hb0).
    case_decide; [|eauto]. intros; simplify_eq; simpl; lia.
  - intros i b'. rewrite (list_insert_alter _ _ _ _ Hb0).
    case_decide; [|eauto]. intros; by simplify_eq.
Qed.

Lemma addRef_wf a id : wf a -> (refcountOf a id < 2 ^ 32 - 1)%N -> wf (addRef a id).
Proof.
  intros Hwf Hlt. unfold addRef, refcountOf in *.
  destruct (_blocks a !! N.to_nat id) as [b|] eqn:Hb; [|done].
  destruct (N.eqb_spec (refcount b) 0) as [|Hne]; [done|].
  eapply set_block_wf; eauto; simpl; rewrite u32_small by lia; lia.
Qed.

Lemma release_wf a id : wf a -> wf (release a id).
Proof.
  intros Hwf. pose proof Hwf as []. unfold release.
  destruct (_blocks a !! N.to_nat id) as [b|] eqn:Hb; [|done].
  destruct (N.eqb_spec (refcount b) 0) as [|Hne]; [done|].
  pose proof (wf_refcount0 _ _ Hb).
  destruct (N.eqb_spec (refcount b - 1) 0) as [Hz|Hz].
  2: { eapply set_block_wf; eauto; simpl; lia. }
  split; simpl; try done.
  - by rewrite length_insert.
  - apply NoDup_cons. split; [|done]. rewrite wf_free0. intros (? & ? & ?). by simplify_eq.
  - intros j. pose proof (set_block_lookup a id (mkBlock (refcount b - 1) 0) b j Hb) as Hj.
    simpl in Hj. rewrite Hj, elem_of_cons, wf_free0. case_decide; subst.
    + split; [eauto|by left].
    + naive_solver.
  - intros i b'. rewrite (list_insert_alter _ _ _ _ Hb).
    case_decide; [|eauto]. intros; simplify_eq; simpl; lia.
  - intros i b'. rewrite (list_insert_alter _ _ _ _ Hb).
    case_decide; [|eauto]. intros; by simplify_eq.
Qed.

Lemma setHash_wf a id h : wf a -> wf (setHash a id h).
Proof.
  intros Hwf. unfold setHash.
  destruct (_blocks a !! N.to_nat id) as [b|] eqn:Hb; [|done].
  destruct (N.eqb_spec (refcount b) 0) as [|Hne]; [done|].
  pose proof (wf_refcount _ Hwf _ _ Hb).
  eapply set_block_wf; eauto.
Qed.

#[global] Hint Resolve allocate_wf release_wf setHash_wf : mm.

(** ** Effect of each operation on the descriptors *)

Lemma allocate_none a : _freeList a = [] -> allocate a = (kInvalidBlock, a).
Proof. unfold allocate. by intros ->. Qed.

(** A successful [allocate] returns a block that was free and is now live with
    count one; every other descriptor is untouched. *)
Lemma allocate_some a id a' :
  wf a -> allocate a = (id, a') -> id <> kInvalidBlock ->
  ~ live a id /\ refcountOf a' id = 1%N /\ hashOf a' id = 0%N /\
  (forall j, j <> id -> _blocks a' !! N.to_nat j = _blocks a !! N.to_nat j) /\
  length (_blocks a') = length (_blocks a) /\ _blockSize a' = _blockSize a.
Proof.
  intros Hwf Ha Hne. unfold allocate in Ha.
  destruct (_freeList a) as [|i rest] eqn:Hf; simplify_eq/=.
  destruct (proj1 (wf_free _ Hwf id)) as (b0 & Hb0 & Hz); [rewrite Hf; by left|].
  unfold refcountOf, hashOf. simpl.
  pose proof (set_block_lookup a id (mkBlock 1 0) b0) as Hs. simpl in Hs.
  rewrite (Hs id Hb0). rewrite decide_True by done. repeat split; try done.
  - intros (b & Hb & ?). by simplify_eq.
  - intros j Hj. rewrite (Hs j Hb0). by rewrite decide_False by done.
  - by rewrite length_insert.
Qed.

(** The pool never hands out the sentinel as a real block. *)
Lemma allocate_invalid_iff a : wf a -> (allocate a).1 = kInvalidBlock <-> _freeList a = [].
Proof.
  intros Hwf. unfold allocate. destruct (_freeList a) as [|i rest] eqn:Hf; [done|].
  simpl. split; [|done]. intros ->.
  destruct (proj1 (wf_free _ Hwf kInvalidBlock)) as (b0 & Hb0 & _); [rewrite Hf; by left|].
  apply lookup_lt_Some in Hb0. pose proof (wf_size _ Hwf). unfold kInvalidBlock in *. lia.
Qed.

Lemma release_lookup a id j :
  _blocks (release a id) !! N.to_nat j =
    if decide (id = j /\ live a id) then
      Some (mkBlock (refcountOf a id - 1)
              (if (refcountOf a id - 1 =? 0)%N then 0%N else hashOf a id))
    else _blocks a !! N.to_nat j.
Proof.
  unfold release, refcountOf, hashOf.
  destruct (_blocks a !! N.to_nat id) as [b|] eqn:Hb.
  2: { rewrite decide_False; [done|]. intros [_ (? & ? & _)]. simplify_eq. }
  destruct (N.eqb_spec (refcount b) 0) as [Hz|Hz].
  { rewrite decide_False; [done|]. intros [_ (? & ? & ?)]. by simplify_eq. }
  assert (live a id) by (exists b; eauto).
  pose proof (fun b' => set_block_lookup a id b' b j Hb) as Hs. simpl in Hs.
  destruct (N.eqb_spec (refcount b - 1) 0); simpl; rewrite Hs;
    repeat case_decide; naive_solver.
Qed.

Lemma setHash_lookup a id h j :
  _blocks (setHash a id h) !! N.to_nat j =
    if decide (id = j /\ live a id) then Some (mkBlock (refcountOf a id) h)
    else _blocks a !! N.to_nat j.
Proof.
  unfold setHash, refcountOf.
  destruct (_blocks a !! N.to_nat id) as [b|] eqn:Hb.
  2: { rewrite decide_False; [done|]. intros [_ (? & ? & _)]. simplify_eq. }
  destruct (N.eqb_spec (refcount b) 0) as [Hz|Hz].
  { rewrite decide_False; [done|]. intros [_ (? & ? & ?)]. by simplify_eq. }
  assert (live a id) by (exists b; eauto).
  rewrite (set_block_lookup a id _ b j Hb). repeat case_decide; naive_solver.
Qed.

Lemma addRef_lookup a id j :
  _blocks (addRef a id) !! N.to_nat j =
    if decide (id = j /\ live a id) then
      Some (mkBlock (u32 (refcountOf a id + 1)) (hashOf a id))
    else _blocks a !! N.to_nat j.
Proof.
  unfold addRef, refcountOf, hashOf.
  destruct (_blocks a !! N.to_nat id) as [b|] eqn:Hb.
  2: { rewrite decide_False; [done|]. intros [_ (? & ? & _)]. simplify_eq. }
  destruct (N.eqb_spec (refcount b) 0) as [Hz|Hz].
  { rewrite decide_False; [done|]. intros [_ (? & ? & ?)]. by simplify_eq. }
  assert (live a id) by (exists b; eauto).
  rewrite (set_block_lookup a id _ b j Hb). repeat case_decide; naive_solver.
Qed.

Lemma length_release a id : length (_blocks (release a id)) = length (_blocks a).
Proof. unfold release. split_matches; by rewrite ?length_insert. Qed.

Lemma blockSize_release a id : _blockSize (release a id) = _blockSize a.
Proof. unfold release. by split_matches. Qed.

Lemma blockSize_setHash a id h : _blockSize (setHash a id h) = _blockSize a.
Proof. unfold setHash. by split_matches. Qed.

Lemma length_setHash a id h : length (_blocks (setHash a id h)) = length (_blocks a).
Proof. unfold setHash. split_matches; by rewrite ?length_insert. Qed.

Lemma blockSize_allocate a : _blockSize (allocate a).2 = _blockSize a.
Proof. unfold allocate. by split_matches. Qed.

(** ** Abstract specification

    Abstractly the pool is the finite map from live blocks to their reference
    count and hash, bounded by a capacity. *)

Abbreviation pool := (gmap N (N * N)).

Inductive op :=
  | OpAllocate
  | OpAddRef (id : N)
  | OpRelease (id : N)
  | OpSetHash (id h : N).

(** What a caller may rely on: [allocate] returns an unused block with count
    one, or the sentinel only when every block is in use. *)
Inductive spec_step (capacity : nat) (m : pool) : op -> option N -> pool -> Prop :=
  | SpecAllocate id :
      m !! id = None -> size m < capacity ->
      spec_step capacity m OpAllocate (Some id) (<[id := (1%N, 0%N)]> m)
  | SpecExhausted :
      size m = capacity -> spec_step capacity m OpAllocate (Some kInvalidBlock) m
  | SpecAddRef id rc h :
      m !! id = Some (rc, h) ->
      spec_step capacity m (OpAddRef id) None (<[id := ((rc + 1)%N, h)]> m)
  | SpecRelease id rc h :
      m !! id = Some (rc, h) -> (1 < rc)%N ->
      spec_step capacity m (OpRelease id) None (<[id := ((rc - 1)%N, h)]> m)
  | SpecReleaseLast id h :
      m !! id = Some (1%N, h) -> spec_step capacity m (OpRelease id) None (delete id m)
  | SpecSetHash id rc h0 h :
      m !! id = Some (rc, h0) ->
      spec_step capacity m (OpSetHash id h) None (<[id := (rc, h)]> m)
  | SpecAddRefNoop id : m !! id = None -> spec_step capacity m (OpAddRef id) None m
  | SpecReleaseNoop id : m !! id = None -> spec_step capacity m (OpRelease id) None m
  | SpecSetHashNoop id h : m !! id = None -> spec_step capacity m (OpSetHash id h) None m.

Definition run_op (a : t) (o : op) : option N * t :=
  match o with
  | OpAllocate => let '(id, a') := allocate a in (Some id, a')
  | OpAddRef id => (None, addRef a id)
  | OpRelease id => (None, release a id)
  | OpSetHash id h => (None, setHash a id h)
  end.

(** [addRef] wraps at 32 bits; a count never reaches the wrap. *)
Definition op_ok (a : t) (o : op) : Prop :=
  match o with OpAddRef id => (refcountOf a id < 2 ^ 32 - 1)%N | _ => True end.

Definition block_view (b : option BlockDescriptor) : option (N * N) :=
  b ≫= fun b => if (refcount b =? 0)%N then None else Some (refcount b, hash b).

(** The map a pool state stands for. *)
Definition repr (a : t) (m : pool) : Prop :=
  forall id, m !! id = block_view (_blocks a !! N.to_nat id).

Definition all_ids (a : t) : list N := N.of_nat <$> seq 0 (length (_blocks a)).

Lemma elem_of_all_ids a id : id ∈ all_ids a <-> N.to_nat id < length (_blocks a).
Proof.
  unfold all_ids. rewrite list_elem_of_fmap. split.
  - intros (i & -> & Hi%elem_of_seq). lia.
  - intros. exists (N.to_nat id). rewrite elem_of_seq. lia.
Qed.

Lemma NoDup_all_ids a : NoDup (all_ids a).
Proof. apply NoDup_fmap_2_strong; [|apply NoDup_seq]. intros; lia. Qed.

(** Every block is either free or live: the counters always add up. *)
Lemma free_plus_live_list a ids :
  wf a -> NoDup ids -> (forall id, id ∈ ids <-> live a id) ->
  length (_freeList a) + length ids = length (_blocks a).
Proof.
  intros Hwf Hnd Hids. replace (length (_blocks a)) with (length (all_ids a))
    by (unfold all_ids; by rewrite length_fmap, length_seq).
  rewrite <- (length_filter_split (live a) (all_ids a)), Nat.add_comm. f_equal.
  - apply NoDup_same_length; [done|by apply NoDup_filter, NoDup_all_ids|].
    intros id. rewrite Hids, list_elem_of_filter, elem_of_all_ids. split; [|by intros []].
    intros Hl. split; [done|]. destruct Hl as (b & Hb & _). by eapply lookup_lt_Some.
  - apply NoDup_same_length;
      [apply Hwf|by apply NoDup_filter, NoDup_all_ids|].
    intros id. rewrite (wf_free _ Hwf), list_elem_of_filter, elem_of_all_ids. split.
    + intros (b & Hb & Hz). split; [|eauto using lookup_lt_Some].
      intros (? & ? & ?). by simplify_eq.
    + intros [Hnl [b Hb]%lookup_lt_is_Some_2]. exists b. split; [done|].
      destruct (decide (refcount b = 0%N)); [done|]. exfalso. apply Hnl. exists b. eauto.
Qed.

Lemma repr_live a m id : repr a m -> live a id <-> is_Some (m !! id).
Proof.
  intros Hr. rewrite Hr. unfold live, block_view. clear Hr.
  destruct (_blocks a !! N.to_nat id) as [b|]; simpl.
  - destruct (N.eqb_spec (refcount b) 0); split; intros Hx; try (by destruct Hx); eauto.
    destruct Hx as (? & ? & ?). by simplify_eq.
  - split; intros Hx; [|by destruct Hx]. destruct Hx as (? & ? & ?). by simplify_eq.
Qed.

Lemma free_plus_live a m :
  wf a -> repr a m -> length (_freeList a) + size m = length (_blocks a).
Proof.
  intros Hwf Hr. rewrite <- size_dom. change (size (dom m)) with (length (elements (dom m))).
  apply free_plus_live_list; [done|apply NoDup_elements|].
  intros id. by rewrite elem_of_elements, elem_of_dom, <- (repr_live a m).
Qed.


(** A descriptor-wise update that changes one live block updates one key. *)
Lemma repr_update a a' m id b :
  repr a m ->
  (forall j, _blocks a' !! N.to_nat j =
     if decide (id = j) then Some b else _blocks a !! N.to_nat j) ->
  repr a' (match block_view (Some b) with
           | Some v => <[id := v]> m | None => delete id m end).
Proof.
  intros Hr Hl j. rewrite Hl. destruct (block_view (Some b)) eqn:Hb;
    case_decide; subst; simplify_map_eq; auto.
Qed.

Lemma block_view_live b : refcount b <> 0%N ->
  block_view (Some b) = Some (refcount b, hash b).
Proof. intros H. unfold block_view. simpl. by apply N.eqb_neq in H as ->. Qed.

Lemma allocate_refines a m :
  wf a -> repr a m ->
  exists m', spec_step (length (_blocks a)) m OpAllocate (Some (allocate a).1) m' /\
    repr (allocate a).2 m'.
Proof.
  intros Hwf Hr. pose proof (free_plus_live _ _ Hwf Hr) as Hsz.
  destruct (allocate a) as [id a'] eqn:Ha. simpl.
  destruct (decide (id = kInvalidBlock)) as [->|Hne].
  - pose proof (proj1 (allocate_invalid_iff a Hwf)) as Hinv.
    rewrite Ha in Hinv. specialize (Hinv eq_refl). rewrite Hinv in Hsz.
    rewrite allocate_none in Ha by done. simplify_eq. exists m. split; [|done].
    constructor. simpl in Hsz. lia.
  - destruct (allocate_some _ _ _ Hwf Ha Hne) as (Hnl & Hrc & Hh & Hoth & Hlen & _).
    exists (<[id := (1%N, 0%N)]> m). split.
    + constructor.
      * destruct (m !! id) eqn:Em; [|done]. exfalso. apply Hnl, (repr_live a m); eauto.
      * unfold allocate in Ha. destruct (_freeList a); simplify_eq/=. lia.
    + intros j. unfold refcountOf, hashOf in Hrc, Hh.
      destruct (decide (j = id)) as [->|Hj].
      * simplify_map_eq. destruct (_blocks a' !! N.to_nat id) as [b|]; [|done].
        rewrite block_view_live by lia. by rewrite Hrc, Hh.
      * rewrite lookup_insert_ne, Hoth by done. apply Hr.
Qed.

(** The generic case: an operation on one block that is a no-op unless it is
    live. *)
Lemma repr_lookup a m id : repr a m -> live a id ->
  m !! id = Some (refcountOf a id, hashOf a id).
Proof.
  intros Hr (b & Hb & Hne). rewrite Hr, Hb, block_view_live by done.
  unfold refcountOf, hashOf. by rewrite Hb.
Qed.

Lemma repr_not_live a m id : repr a m -> ~ live a id -> m !! id = None.
Proof. intros Hr Hn. rewrite repr_live in Hn by done. by apply eq_None_not_Some. Qed.

Lemma repr_unchanged a a' m id :
  repr a m -> ~ live a id ->
  (forall j, exists b, _blocks a' !! N.to_nat j =
     if decide (id = j /\ live a id) then Some b else _blocks a !! N.to_nat j) ->
  repr a' m.
Proof.
  intros Hr Hn Hl j. destruct (Hl j) as [b ->]. by rewrite decide_False by naive_solver.
Qed.

Lemma decide_live {B} a id j (x y : B) : live a id ->
  (if decide (id = j /\ live a id) then x else y) = if decide (id = j) then x else y.
Proof. intros. repeat case_decide; naive_solver. Qed.

(** Every operation of the pool implements its abstract step. *)
Lemma run_op_refines a m o :
  wf a -> repr a m -> op_ok a o ->
  exists m', spec_step (length (_blocks a)) m o (run_op a o).1 m' /\
    repr (run_op a o).2 m'.
Proof.
  intros Hwf Hr Hok. destruct o as [|id|id|id h]; simpl.
  { destruct (allocate_refines _ _ Hwf Hr) as (m' & ? & ?).
    destruct (allocate a). eauto. }
  all: destruct (decide (live a id)) as [Hl|Hl];
    [pose proof (repr_lookup _ _ _ Hr Hl) as Hm
    |exists m; split; [constructor; eauto using repr_not_live
      |eapply repr_unchanged; eauto; intros j; eexists;
       first [apply addRef_lookup|apply release_lookup|apply setHash_lookup]]].
  all: pose proof (proj1 (live_iff_refcountOf a id) Hl) as Hne.
  - eexists. split; [by econstructor|].
    eapply (repr_update _ _ _ id) in Hr; [|intros j; rewrite addRef_lookup; by apply decide_live].
    simpl in Hok. rewrite block_view_live in Hr; simpl in *; rewrite u32_small in * by lia; [done|lia].
  - destruct (decide (refcountOf a id = 1%N)) as [H1|H1].
    + exists (delete id m). rewrite H1 in Hm. split; [by econstructor|].
      eapply (repr_update _ _ _ id) in Hr;
        [|intros j; rewrite release_lookup; by apply decide_live].
      by rewrite H1 in Hr.
    + eexists. split; [econstructor; eauto; lia|].
      eapply (repr_update _ _ _ id) in Hr;
        [|intros j; rewrite release_lookup; by apply decide_live].
      rewrite block_view_live in Hr by (simpl; lia). simpl in Hr.
      destruct (N.eqb_spec (refcountOf a id - 1) 0); [lia|done].
  - eexists. split; [by econstructor|].
    eapply (repr_update _ _ _ id) in Hr;
      [|intros j; rewrite setHash_lookup; by apply decide_live].
    by rewrite block_view_live in Hr.
Qed.

Lemma run_op_wf a o : wf a -> op_ok a o -> wf (run_op a o).2.
Proof.
  intros Hwf Hok. destruct o as [|id|id|id h]; simpl; auto with mm.
  - pose proof (allocate_wf a Hwf). by destruct (allocate a).
  - by apply addRef_wf.
Qed.

Lemma run_op_total a o : length (_blocks (run_op a o).2) = length (_blocks a).
Proof.
  destruct o as [|id|id|id h]; simpl; rewrite ?length_release, ?length_setHash; try done.
  - unfold allocate. split_matches; by rewrite ?length_insert.
  - unfold addRef. split_matches; by rewrite ?length_insert.
Qed.

(** ** Histories *)

Fixpoint run_ops (a : t) (os : list op) : list (option N) * t :=
  match os with
  | [] => ([], a)
  | o :: os =>
      let '(r, a1) := run_op a o in
      let '(rs, a2) := run_ops a1 os in (r :: rs, a2)
  end.

Fixpoint ops_ok (a : t) (os : list op) : Prop :=
  match os with
  | [] => True
  | o :: os => op_ok a o /\ ops_ok (run_op a o).2 os
  end.

Inductive spec_trace (capacity : nat) : pool -> list op -> list (option N) -> pool -> Prop :=
  | TraceNil m : spec_trace capacity m [] [] m
  | TraceCons m o r m1 os rs m2 :
      spec_step capacity m o r m1 -> spec_trace capacity m1 os rs m2 ->
      spec_trace capacity m (o :: os) (r :: rs) m2.

Lemma run_ops_refines os : forall a m,
  wf a -> repr a m -> ops_ok a os ->
  exists m', spec_trace (length (_blocks a)) m os (run_ops a os).1 m' /\
    repr (run_ops a os).2 m' /\ wf (run_ops a os).2 /\
    length (_blocks (run_ops a os).2) = length (_blocks a).
Proof.
  induction os as [|o os IH]; intros a m Hwf Hr Hok; simpl.
  { exists m. repeat split; auto; try apply Hwf. constructor. }
  destruct Hok as [Ho Hos].
  destruct (run_op_refines a m o Hwf Hr Ho) as (m1 & Hs & Hr1).
  destruct (IH _ m1 (run_op_wf a o Hwf Ho) Hr1 Hos) as (m2 & Ht & Hr2 & Hwf2 & Hlen).
  rewrite run_op_total in *.
  destruct (run_op a o) as [r a1] eqn:E1. simpl in *.
  destruct (run_ops a1 os) as [rs a2] eqn:E2. simpl in *.
  exists m2. repeat split; auto; try apply Hwf2. econstructor; eauto.
Qed.

Lemma repr_create n bs a : create n bs = Ok a -> repr a ∅.
Proof.
  unfold create. intros H id. split_matches. rewrite lookup_empty.
  destruct (replicate n (mkBlock 0 0) !! N.to_nat id) as [b|] eqn:E; [|done].
  apply lookup_replicate in E as [-> _]. done.
Qed.

(** C8: a pool built by the constructor and driven by any sequence of
    [allocate]/[addRef]/[release]/[setHash] calls behaves as the abstract
    bounded map of live blocks: [allocate] never hands out a live block and
    reports exhaustion only when every block is in use, [release] frees exactly
    at count zero, operations on free or unknown ids do nothing, the pool
    invariant holds at the end and the free/used counters add up.  The only
    requirement is that no reference count reaches 2^32 - 1. *)
Theorem pool_refines_spec n bs a os :
  (N.of_nat n < 2 ^ 32)%N ->
  create n bs = Ok a ->
  ops_ok a os ->
  exists m, spec_trace n ∅ os (run_ops a os).1 m /\
    repr (run_ops a os).2 m /\ wf (run_ops a os).2 /\
    numBlocksUsed (run_ops a os).2 = size m /\
    numBlocksFree (run_ops a os).2 + size m = n.
Proof.
  intros Hn Hc Hok. pose proof (create_wf _ _ _ Hn Hc) as Hwf.
  assert (Hlen : length (_blocks a) = n).
  { unfold create in Hc. split_matches. apply length_replicate. }
  destruct (run_ops_refines os a ∅ Hwf (repr_create _ _ _ Hc) Hok)
    as (m & Ht & Hr & Hwf' & Hl). rewrite Hlen in *.
  exists m. pose proof (free_plus_live _ _ Hwf' Hr).
  unfold numBlocksUsed, numBlocksFree. repeat split; auto; try apply Hwf'; lia.
Qed.

Definition demo_pool : t :=
  match create 2 4 with Ok a => a | Throw _ => mkAllocator 0 [] [] end.
Definition demo_ops : list op :=
  [OpAllocate; OpAddRef 0; OpAllocate; OpAllocate; OpRelease 0; OpRelease 0;
   OpRelease 0; OpAllocate; OpSetHash 1 7].

Lemma pool_refines_spec_witness :
  (run_ops demo_pool demo_ops).1 =
    [Some 0%N; None; Some 1%N; Some kInvalidBlock; None; None; None; Some 0%N; None] /\
  exists m, spec_trace 2 ∅ demo_ops (run_ops demo_pool demo_ops).1 m /\
    repr (run_ops demo_pool demo_ops).2 m /\ wf (run_ops demo_pool demo_ops).2 /\
    numBlocksUsed (run_ops demo_pool demo_ops).2 = size m /\
    numBlocksFree (run_ops demo_pool demo_ops).2 + size m = 2.
Proof.
  split; [vm_compute; reflexivity|].
  apply (pool_refines_spec 2 4 demo_pool demo_ops).
  - vm_compute; reflexivity.
  - reflexivity.
  - vm_compute. repeat split.
Defined.

End PagedKvBlockAllocator.
