(* ===== verification/PagedSequence.v ===== *)
(** * [PagedKvSequence]: one request's page table and token history

    Models [src/src/runtime/serving/PagedKvSequence.{hpp,cpp}].  The sequence
    borrows blocks from a shared allocator, which is threaded explicitly: every
    operation takes the allocator's state and returns the new one.  The
    theorems: appending keeps the page table, the block ownership and the hash
    chain consistent; a failed append changes nothing; block hashes depend on
    the token prefix only; blocks are returned exactly once. *)

From S2P Require Import Prelude BlockAllocator.

Module A := PagedKvBlockAllocator.

(** ** Block ownership

    [owned a ids]: the live blocks of the pool are exactly [ids], each held
    once. *)
Record owned (a : A.t) (ids : list N) : Prop := {
  owned_nodup : NoDup ids;
  owned_live : forall id, id ∈ ids <-> A.live a id;
  owned_one : forall id, id ∈ ids -> A.refcountOf a id = 1%N;
}.

Lemma owned_proper a ids ids' : ids ≡ₚ ids' -> owned a ids -> owned a ids'.
Proof.
  intros Hp []. split.
  - by rewrite <- Hp.
  - intros id. by rewrite <- Hp.
  - intros id. rewrite <- Hp. auto.
Qed.

#[export] Instance owned_Proper a : Proper ((≡ₚ) ==> iff) (owned a).
Proof. intros x y Hp. split; apply owned_proper; [done|by symmetry]. Qed.

(** The pool's counters are those of the owners. *)
Lemma owned_counters a ids :
  A.wf a -> owned a ids ->
  A.numBlocksUsed a = length ids /\ A.numBlocksFree a + length ids = A.numBlocksTotal a.
Proof.
  intros Hwf []. pose proof (A.free_plus_live_list a ids Hwf owned_nodup0 owned_live0).
  unfold A.numBlocksUsed, A.numBlocksFree, A.numBlocksTotal. lia.
Qed.

Lemma owned_empty n bs a : A.create n bs = Ok a -> owned a [].
Proof.
  intros Hc. pose proof (A.repr_create _ _ _ Hc) as Hr. split.
  - constructor.
  - intros id. rewrite (A.repr_live a ∅ id Hr), lookup_empty. split.
    + intros H; inversion H.
    + intros []. done.
  - intros id H; inversion H.
Qed.

Lemma owned_allocate a ids id a' :
  A.wf a -> owned a ids -> A.allocate a = (id, a') -> id <> A.kInvalidBlock ->
  owned a' (id :: ids) /\ id ∉ ids.
Proof.
  intros Hwf [] Ha Hne.
  destruct (A.allocate_some _ _ _ Hwf Ha Hne) as (Hnl & Hrc & _ & Hoth & _).
  assert (Hrest : forall j, j <> id -> A.refcountOf a' j = A.refcountOf a j).
  { intros j Hj. unfold A.refcountOf. by rewrite Hoth. }
  assert (Hni : id ∉ ids) by (by rewrite owned_live0).
  split; [|done]. split.
  - by constructor.
  - intros j. rewrite A.live_iff_refcountOf, elem_of_cons.
    destruct (decide (j = id)) as [->|Hj]; [rewrite Hrc; naive_solver lia|].
    rewrite Hrest, <- A.live_iff_refcountOf, <- owned_live0 by done. naive_solver.
  - intros j. rewrite elem_of_cons. intros [->|Hj]; [done|].
    rewrite Hrest by (intros ->; done). auto.
Qed.

Lemma release_owned_refcount a id j :
  A.refcountOf a id = 1%N ->
  A.refcountOf (A.release a id) j = if decide (id = j) then 0%N else A.refcountOf a j.
Proof.
  intros H1. pose proof (A.release_lookup a id j) as Hl.
  assert (A.live a id) by (rewrite A.live_iff_refcountOf; lia).
  rewrite A.decide_live in Hl by done. unfold A.refcountOf in *. rewrite Hl.
  case_decide; [|done]. simpl. lia.
Qed.

Lemma owned_release a ids id :
  owned a (id :: ids) -> owned (A.release a id) ids.
Proof.
  intros []. apply NoDup_cons in owned_nodup0 as [Hni Hnd].
  assert (H1 : A.refcountOf a id = 1%N) by (apply owned_one0; by left).
  split; [done| |].
  - intros j. rewrite A.live_iff_refcountOf, release_owned_refcount by done.
    case_decide; subst; [naive_solver|].
    rewrite <- A.live_iff_refcountOf, <- owned_live0, elem_of_cons. naive_solver.
  - intros j Hj. rewrite release_owned_refcount by done.
    rewrite decide_False by (intros ->; done). apply owned_one0. by right.
Qed.

Lemma setHash_refcount a id h j : A.refcountOf (A.setHash a id h) j = A.refcountOf a j.
Proof.
  pose proof (A.setHash_lookup a id h j) as Hl. unfold A.refcountOf at 1. rewrite Hl.
  case_decide as Hd; [|done]. destruct Hd as [-> _]. done.
Qed.

Lemma owned_setHash a ids id h : owned a ids -> owned (A.setHash a id h) ids.
Proof.
  intros []. split; [done| |].
  - intros j. by rewrite A.live_iff_refcountOf, setHash_refcount, <- A.live_iff_refcountOf.
  - intros j. rewrite setHash_refcount. auto.
Qed.

Module PagedKvSequence.

(** The sequence's fields; [_allocator] says whether the pointer is non-null
    (it is nulled by a move).
    [src/src/runtime/serving/PagedKvSequence.hpp:130-132 PagedKvSequence] *)
Record t := mkSequence {
  _allocator : bool;
  _blockTable : list N;
  _tokens : list Z;
}.

(** [src/src/runtime/serving/PagedKvSequence.hpp:113-113 kFnvBasis] *)
Definition kFnvBasis : N := 0xcbf29ce484222325%N.
Definition fnvPrime : N := 0x100000001b3%N.

(** One byte of the hash loop's body. *)
Definition fnv1aByte (h byte : N) : N := u64 (N.lxor h byte * fnvPrime).

(** The four little-endian bytes of a token. *)
Definition tokenBytes (tok : Z) : list N :=
  (fun b : N => u8 (N.land (N.shiftr (u32_of_Z tok) (b * 8)) 0xFF)) <$> [0; 1; 2; 3]%N.

(** Fold the tokens, byte by byte, into the FNV-1a-64 hash seeded with [seed].
    [src/src/runtime/serving/PagedKvSequence.cpp:89-103 PagedKvSequence::fnv1aChain] *)
Definition fnv1aChain (seed : N) (data : list Z) : N :=
  fold_left (fun h tok => fold_left fnv1aByte (tokenBytes tok) h) data seed.

(** [src/src/runtime/serving/PagedKvSequence.cpp:10-12 PagedKvSequence] *)
Definition create : t := mkSequence true [] [].

(** [src/src/runtime/serving/PagedKvSequence.hpp:92-94 blockSize] *)
Definition blockSize (a : A.t) (s : t) : nat := if _allocator s then A._blockSize a else 0.

(** Store the hash of the block that the last append filled.
    [src/src/runtime/serving/PagedKvSequence.cpp:63-72 PagedKvSequence::appendToken] *)
Definition sealBlock (a : A.t) (s : t) : A.t :=
  let blkSz := A._blockSize a in
  let blockIdx := (length (_blockTable s) - 1)%nat in
  let parentHash :=
    if (blockIdx =? 0)%nat then kFnvBasis
    else match _blockTable s !! (blockIdx - 1)%nat with
         | Some p => A.hashOf a p
         | None => 0%N
         end in
  let h := fnv1aChain parentHash (take blkSz (drop (blockIdx * blkSz) (_tokens s))) in
  match _blockTable s !! blockIdx with
  | Some id => A.setHash a id h
  | None => a
  end.

(** [src/src/runtime/serving/PagedKvSequence.cpp:41-75 PagedKvSequence::appendToken] *)
Definition appendToken (a : A.t) (s : t) (tokenId : Z) : bool * A.t * t :=
  if negb (_allocator s) then (false, a, s)
  else
    let blkSz := A._blockSize a in
    let push (a : A.t) (table : list N) :=
      let s1 := mkSequence true table (_tokens s ++ [tokenId]) in
      if (length (_tokens s1) mod blkSz =? 0)%nat then (true, sealBlock a s1, s1)
      else (true, a, s1) in
    if (length (_tokens s) =? length (_blockTable s) * blkSz)%nat then
      let '(id, a1) := A.allocate a in
      if (id =? A.kInvalidBlock)%N then (false, a1, s)
      else push a1 (_blockTable s ++ [id])
    else push a (_blockTable s).

(** [src/src/runtime/serving/PagedKvSequence.cpp:83-88 PagedKvSequence::releaseAllBlocks] *)
Definition releaseAllBlocks (a : A.t) (s : t) : A.t :=
  if _allocator s then fold_left A.release (_blockTable s) a else a.

(** [src/src/runtime/serving/PagedKvSequence.cpp:77-81 PagedKvSequence::reset] *)
Definition reset (a : A.t) (s : t) : A.t * t :=
  (releaseAllBlocks a s, mkSequence (_allocator s) [] []).

(** [src/src/runtime/serving/PagedKvSequence.cpp:14-16 PagedKvSequence::~PagedKvSequence] *)
Definition destroy (a : A.t) (s : t) : A.t := releaseAllBlocks a s.

(** Move construction: (the new sequence, what is left in the source).
    [src/src/runtime/serving/PagedKvSequence.cpp:18-26 PagedKvSequence] *)
Definition moveConstruct (other : t) : t * t := (other, mkSequence false [] []).

(** Move assignment between two distinct objects.
    [src/src/runtime/serving/PagedKvSequence.cpp:28-39 PagedKvSequence::operator=] *)
Definition moveAssign (a : A.t) (this other : t) : A.t * t * t :=
  (releaseAllBlocks a this, other, mkSequence false [] []).

(** ** Well-formedness *)

(** The page table covers the token history tightly, its blocks are live and
    distinct, and every full block carries the hash of the whole prefix up to
    its end. *)
Record wf (a : A.t) (s : t) : Prop := {
  wf_bound : _allocator s = true;
  wf_cover : length (_tokens s) <= length (_blockTable s) * A._blockSize a;
  wf_tight : length (_blockTable s) * A._blockSize a < length (_tokens s) + A._blockSize a;
  wf_nodup : NoDup (_blockTable s);
  wf_live : forall id, id ∈ _blockTable s -> A.live a id;
  wf_chain : forall i id, _blockTable s !! i = Some id ->
    S i * A._blockSize a <= length (_tokens s) ->
    A.hashOf a id = fnv1aChain kFnvBasis (take (S i * A._blockSize a) (_tokens s));
}.

Lemma fnv1aChain_app seed l k :
  fnv1aChain seed (l ++ k) = fnv1aChain (fnv1aChain seed l) k.
Proof. apply fold_left_app. Qed.

(** Chaining a block onto its parent's prefix hash gives the longer prefix's
    hash. *)
Lemma fnv1aChain_extend n m (l : list Z) :
  fnv1aChain (fnv1aChain kFnvBasis (take n l)) (take m (drop n l)) =
  fnv1aChain kFnvBasis (take (n + m) l).
Proof. by rewrite <- fnv1aChain_app, take_take_drop. Qed.

Lemma empty_wf a : A.wf a -> wf a (mkSequence true [] []).
Proof.
  intros Hwf. pose proof (A.wf_blockSize _ Hwf). split; simpl; try done; try lia.
  - constructor.
  - intros id H'; inversion H'.
Qed.

Lemma create_seq_wf a : A.wf a -> wf a create.
Proof. apply empty_wf. Qed.

Lemma hashOf_setHash a id h j :
  A.hashOf (A.setHash a id h) j =
    if decide (id = j /\ A.live a id) then h else A.hashOf a j.
Proof. unfold A.hashOf at 1. rewrite A.setHash_lookup. by case_decide. Qed.

Lemma live_setHash a id h j : A.live (A.setHash a id h) j <-> A.live a j.
Proof. by rewrite !A.live_iff_refcountOf, setHash_refcount. Qed.

(** A live block's hash and count survive an allocation. *)
Lemma allocate_live a id a' j :
  A.wf a -> A.allocate a = (id, a') -> id <> A.kInvalidBlock -> A.live a j ->
  A.live a' j /\ A.hashOf a' j = A.hashOf a j.
Proof.
  intros Hwf Ha Hne Hl.
  destruct (A.allocate_some _ _ _ Hwf Ha Hne) as (Hnl & _ & _ & Hoth & _).
  assert (j <> id) by (intros ->; done).
  unfold A.live, A.hashOf in *. by rewrite Hoth.
Qed.

(** Pushing a token when the page table has room: [push] of [appendToken]. *)
Lemma seal_hashOf a s id i :
  0 < A._blockSize a -> NoDup (_blockTable s) ->
  (forall j, j ∈ _blockTable s -> A.live a j) ->
  _blockTable s !! i = Some id ->
  length (_tokens s) = length (_blockTable s) * A._blockSize a ->
  (forall i id, _blockTable s !! i = Some id -> S i < length (_blockTable s) ->
    A.hashOf a id = fnv1aChain kFnvBasis (take (S i * A._blockSize a) (_tokens s))) ->
  A.hashOf (sealBlock a s) id =
    fnv1aChain kFnvBasis (take (S i * A._blockSize a) (_tokens s)).
Proof.
  intros Hbs Hnd Hlive Hi Hlen Hch. unfold sealBlock.
  assert (Hlt : i < length (_blockTable s)) by eauto using lookup_lt_Some.
  destruct (_blockTable s !! (length (_blockTable s) - 1)) as [lst|] eqn:Hlast.
  2: { apply lookup_ge_None in Hlast. lia. }
  rewrite hashOf_setHash.
  destruct (decide (i = length (_blockTable s) - 1)) as [->|Hne].
  - simplify_eq. rewrite decide_True by (split; eauto using list_elem_of_lookup_2).
    set (k := length (_blockTable s) - 1) in *.
    destruct (Nat.eqb_spec k 0) as [->|Hk].
    + simpl. by rewrite drop_0, Nat.add_0_r.
    + destruct (_blockTable s !! (k - 1)) as [p|] eqn:Hp.
      2: { apply lookup_ge_None in Hp. lia. }
      rewrite (Hch _ _ Hp) by lia. replace (S (k - 1)) with k by lia.
      rewrite fnv1aChain_extend. f_equal. f_equal. lia.
  - rewrite decide_False. { apply Hch; [done|lia]. }
    intros [<- _]. pose proof (NoDup_lookup _ _ _ _ Hnd Hi Hlast). lia.
Qed.

Lemma blockSize_seal a s : A._blockSize (sealBlock a s) = A._blockSize a.
Proof. unfold sealBlock. destruct (_blockTable s !! _); [apply A.blockSize_setHash|done]. Qed.

Lemma seal_live a s j : A.live (sealBlock a s) j <-> A.live a j.
Proof. unfold sealBlock. destruct (_blockTable s !! _); [apply live_setHash|done]. Qed.

Lemma seal_wf a s : A.wf a -> A.wf (sealBlock a s).
Proof. intros. unfold sealBlock. destruct (_blockTable s !! _); auto with mm. Qed.

Lemma seal_owned a s ids : owned a ids -> owned (sealBlock a s) ids.
Proof. intros. unfold sealBlock. destruct (_blockTable s !! _); auto using owned_setHash. Qed.

Lemma seal_frame a s j : j ∉ _blockTable s -> A.hashOf (sealBlock a s) j = A.hashOf a j.
Proof.
  intros Hj. unfold sealBlock. destruct (_blockTable s !! _) as [id|] eqn:Hi; [|done].
  rewrite hashOf_setHash, decide_False; [done|]. intros [<- _].
  eauto using list_elem_of_lookup_2.
Qed.

(** The token push common to both branches of [appendToken]. *)
Definition pushToken (a : A.t) (s : t) (tok : Z) : A.t * t :=
  let s1 := mkSequence true (_blockTable s) (_tokens s ++ [tok]) in
  ((if (length (_tokens s1) mod A._blockSize a =? 0)%nat then sealBlock a s1 else a), s1).

Lemma push_wf a s tok :
  A.wf a ->
  length (_tokens s) < length (_blockTable s) * A._blockSize a ->
  length (_blockTable s) * A._blockSize a <= length (_tokens s) + A._blockSize a ->
  NoDup (_blockTable s) ->
  (forall id, id ∈ _blockTable s -> A.live a id) ->
  (forall i id, _blockTable s !! i = Some id ->
    S i * A._blockSize a <= length (_tokens s) ->
    A.hashOf a id = fnv1aChain kFnvBasis (take (S i * A._blockSize a) (_tokens s))) ->
  wf (pushToken a s tok).1 (pushToken a s tok).2.
Proof.
  intros Hwf Hroom Htight Hnd Hlive Hch. pose proof (A.wf_blockSize _ Hwf) as Hbs.
  set (bs := A._blockSize a) in *.
  assert (Hold : forall i id, _blockTable s !! i = Some id ->
    S i * bs <= length (_tokens s) ->
    A.hashOf a id = fnv1aChain kFnvBasis (take (S i * bs) (_tokens s ++ [tok]))).
  { intros i id Hi Hle. rewrite take_app_le by done. auto. }
  unfold pushToken. simpl. fold bs.
  assert (Hlen : length (_tokens s ++ [tok]) = S (length (_tokens s)))
    by (rewrite length_app; simpl; lia).
  destruct (Nat.eqb_spec (length (_tokens s ++ [tok]) mod bs) 0) as [Hm|Hm]; simpl.
  - assert (Hfull : length (_tokens s ++ [tok]) = length (_blockTable s) * bs).
    { rewrite Hlen in *. apply Nat.Lcm0.mod_divide in Hm as [q Hq].
      rewrite Hq in *. f_equal.
      assert (q <= length (_blockTable s)) by (apply (Nat.mul_le_mono_pos_r _ _ bs); lia).
      assert (length (_blockTable s) < S q) by (apply (Nat.mul_lt_mono_pos_r bs); lia). lia. }
    split; simpl; rewrite ?blockSize_seal; fold bs; try done; try lia.
    + intros id. rewrite seal_live. auto.
    + intros i id Hi _. apply (seal_hashOf a (mkSequence true (_blockTable s) _)); auto.
      simpl. intros j jd Hj Hlt. apply Hold; [done|]. fold bs. nia.
  - split; simpl; fold bs; try done; try lia.
    intros i id Hi Hle. apply Hold; [done|]. rewrite Hlen in *.
    destruct (decide (S i * bs = S (length (_tokens s)))) as [Heq|]; [|lia].
    exfalso. apply Hm. rewrite <- Heq. apply Nat.Div0.mod_mul.
Qed.

(** The two outcomes of [appendToken] in terms of [pushToken]. *)
Lemma append_cases a s tok :
  A.wf a -> wf a s ->
  (exists s1 a1, appendToken a s tok = (true, (pushToken a1 s1 tok).1, (pushToken a1 s1 tok).2) /\
    _tokens s1 = _tokens s /\
    ((length (_tokens s) < length (_blockTable s) * A._blockSize a /\ s1 = s /\ a1 = a) \/
     (length (_tokens s) = length (_blockTable s) * A._blockSize a /\
      exists id, A.allocate a = (id, a1) /\ id <> A.kInvalidBlock /\
        s1 = mkSequence true (_blockTable s ++ [id]) (_tokens s)))) \/
  (appendToken a s tok = (false, a, s) /\ A._freeList a = [] /\
   length (_tokens s) = length (_blockTable s) * A._blockSize a).
Proof.
  intros Hwf Hs. pose proof Hs as []. unfold appendToken. rewrite wf_bound0. simpl.
  destruct (Nat.eqb_spec (length (_tokens s)) (length (_blockTable s) * A._blockSize a)) as [He|He].
  - destruct (A.allocate a) as [id a1] eqn:Ha.
    destruct (N.eqb_spec id A.kInvalidBlock) as [->|Hne].
    + right. assert (Hn : A._freeList a = [])
        by (apply A.allocate_invalid_iff; [done|by rewrite Ha]).
      rewrite A.allocate_none in Ha by done. by simplify_eq.
    + left. exists (mkSequence true (_blockTable s ++ [id]) (_tokens s)), a1.
      assert (A._blockSize a1 = A._blockSize a) as Hb.
      { pose proof (A.blockSize_allocate a) as Hb. by rewrite Ha in Hb. }
      unfold pushToken. simpl. rewrite Hb. split; [by case_match|]. split; [done|].
      right. eauto 10.
  - left. exists s, a. unfold pushToken. simpl. split; [by case_match|]. split; [done|].
    left. repeat split. lia.
Qed.

Lemma append_pool_wf a s tok :
  A.wf a -> wf a s -> A.wf (appendToken a s tok).1.2.
Proof.
  intros Hwf Hs. destruct (append_cases a s tok Hwf Hs) as [(s1 & a1 & -> & _ & Hc)|[-> _]]; [|done].
  simpl. assert (A.wf a1).
  { destruct Hc as [(_ & _ & ->)|(_ & id & Ha & _)]; [done|].
    pose proof (A.allocate_wf a Hwf) as Hw. by rewrite Ha in Hw. }
  case_match; auto using seal_wf.
Qed.

Lemma append_wf a s tok :
  A.wf a -> wf a s -> wf (appendToken a s tok).1.2 (appendToken a s tok).2.
Proof.
  intros Hwf Hs. pose proof (A.wf_blockSize _ Hwf) as Hbs.
  destruct (append_cases a s tok Hwf Hs) as [(s1 & a1 & -> & Ht & Hc)|[-> _]]; [|done].
  simpl. destruct Hs. destruct Hc as [(Hlt & -> & ->)|(He & id & Ha & Hne & ->)].
  - apply push_wf; auto. lia.
  - pose proof (A.allocate_wf a Hwf) as Hw. rewrite Ha in Hw. simpl in Hw.
    destruct (A.allocate_some _ _ _ Hwf Ha Hne) as (Hnl & Hrc & _ & _ & _ & Hb).
    apply push_wf; simpl; rewrite ?length_app, ?Hb; simpl; auto; try lia.
    + apply NoDup_app. repeat split; [done| |by apply NoDup_singleton].
      intros x Hx ->%list_elem_of_singleton. auto.
    + intros j [Hj|Hj%list_elem_of_singleton]%elem_of_app; subst.
      * by destruct (allocate_live _ _ _ j Hwf Ha Hne (wf_live0 _ Hj)).
      * apply A.live_iff_refcountOf. lia.
    + intros i j Hi Hle. apply lookup_app_Some in Hi as [Hi|[Hi _]].
      2: { exfalso. nia. }
      assert (A.live a j) by eauto using list_elem_of_lookup_2.
      destruct (allocate_live _ _ _ j Hwf Ha Hne) as [_ ->]; [done|].
      by apply wf_chain0.
Qed.

(** ** Ownership and frame *)

Lemma append_owned a s tok rest :
  A.wf a -> wf a s -> owned a (_blockTable s ++ rest) ->
  owned (appendToken a s tok).1.2 (_blockTable (appendToken a s tok).2 ++ rest).
Proof.
  intros Hwf Hs Ho.
  destruct (append_cases a s tok Hwf Hs) as [(s1 & a1 & -> & _ & Hc)|[-> _]]; [|done].
  assert (H1 : owned a1 (_blockTable s1 ++ rest)).
  { destruct Hc as [(_ & -> & ->)|(_ & id & Ha & Hne & ->)]; [done|]. simpl.
    destruct (owned_allocate _ _ _ _ Hwf Ho Ha Hne) as [H1 _].
    revert H1. apply owned_proper. rewrite <- app_assoc. apply Permutation_middle. }
  simpl. case_match; auto using seal_owned.
Qed.

(** Appending touches no block that is live and not in the sequence's table. *)
Lemma append_frame a s tok j :
  A.wf a -> wf a s -> A.live a j -> j ∉ _blockTable s ->
  (j ∉ _blockTable (appendToken a s tok).2) /\
  A.live (appendToken a s tok).1.2 j /\
  A.hashOf (appendToken a s tok).1.2 j = A.hashOf a j.
Proof.
  intros Hwf Hs Hl Hj.
  destruct (append_cases a s tok Hwf Hs) as [(s1 & a1 & -> & _ & Hc)|[-> _]]; [|done].
  assert (H1 : (j ∉ _blockTable s1) /\ A.live a1 j /\ A.hashOf a1 j = A.hashOf a j).
  { destruct Hc as [(_ & -> & ->)|(_ & id & Ha & Hne & ->)]; [done|]. simpl.
    destruct (allocate_live _ _ _ _ Hwf Ha Hne Hl) as [Hl1 Hh1].
    destruct (A.allocate_some _ _ _ Hwf Ha Hne) as (Hnl & _).
    repeat split; auto.
    intros [?| ->%list_elem_of_singleton]%elem_of_app; done. }
  destruct H1 as (H1 & H2 & H3). simpl. repeat split; [done| |].
  - case_match; [by apply seal_live|done].
  - case_match; [by rewrite seal_frame|done].
Qed.

Lemma append_blockSize a s tok :
  A.wf a -> wf a s -> A._blockSize (appendToken a s tok).1.2 = A._blockSize a.
Proof.
  intros Hwf Hs.
  destruct (append_cases a s tok Hwf Hs) as [(s1 & a1 & -> & _ & Hc)|[-> _]]; [|done].
  assert (A._blockSize a1 = A._blockSize a).
  { destruct Hc as [(_ & _ & ->)|(_ & id & Ha & _)]; [done|].
    pose proof (A.blockSize_allocate a) as Hb. by rewrite Ha in Hb. }
  simpl. case_match; by rewrite ?blockSize_seal.
Qed.

Lemma release_list_owned ids : forall a rest,
  A.wf a -> owned a (ids ++ rest) ->
  owned (fold_left A.release ids a) rest /\ A.wf (fold_left A.release ids a).
Proof.
  induction ids as [|id ids IH]; intros a rest Hwf Ho; [done|]. simpl.
  apply IH; [by apply A.release_wf|]. by apply owned_release.
Qed.

Lemma release_list_blockSize ids : forall a,
  A._blockSize (fold_left A.release ids a) = A._blockSize a.
Proof.
  induction ids as [|id ids IH]; intros a; [done|]. simpl. by rewrite IH, A.blockSize_release.
Qed.

Lemma release_list_total ids : forall a,
  length (A._blocks (fold_left A.release ids a)) = length (A._blocks a).
Proof.
  induction ids as [|id ids IH]; intros a; [done|]. simpl. by rewrite IH, A.length_release.
Qed.

Lemma release_list_frame ids : forall a j,
  j ∉ ids -> A._blocks (fold_left A.release ids a) !! N.to_nat j = A._blocks a !! N.to_nat j.
Proof.
  induction ids as [|id ids IH]; intros a j Hj; [done|]. simpl.
  apply not_elem_of_cons in Hj as [Hj Hj']. rewrite IH by done.
  by rewrite A.release_lookup, decide_False by naive_solver.
Qed.

(** Releasing other sequences' blocks leaves this one well formed. *)
Lemma wf_release_list a s ids :
  wf a s -> (forall id, id ∈ ids -> id ∉ _blockTable s) ->
  wf (fold_left A.release ids a) s.
Proof.
  intros [] Hd.
  assert (Hf : forall j, j ∈ _blockTable s ->
    A._blocks (fold_left A.release ids a) !! N.to_nat j = A._blocks a !! N.to_nat j).
  { intros j Hj. apply release_list_frame. intros ?. by eapply Hd. }
  split; rewrite ?release_list_blockSize; auto.
  - intros id Hid. unfold A.live. rewrite Hf by done. by apply wf_live0.
  - intros i id Hi Hle. unfold A.hashOf. rewrite Hf by eauto using list_elem_of_lookup_2.
    by apply wf_chain0.
Qed.

(** Another sequence's append leaves this one well formed. *)
Lemma wf_append_other a s o tok :
  A.wf a -> wf a s -> wf a o ->
  (forall id, id ∈ _blockTable s -> id ∉ _blockTable o) ->
  wf (appendToken a o tok).1.2 s.
Proof.
  intros Hwf [] Ho Hd.
  assert (Hf : forall j, j ∈ _blockTable s ->
    A.live (appendToken a o tok).1.2 j /\
    A.hashOf (appendToken a o tok).1.2 j = A.hashOf a j).
  { intros j Hj. destruct (append_frame a o tok j) as (_ & ? & ?); auto. }
  split; rewrite ?append_blockSize; auto.
  - intros id Hid. by apply Hf.
  - intros i id Hi Hle.
    destruct (Hf id) as [_ ->]; eauto using list_elem_of_lookup_2.
Qed.

(** Append a list of tokens, stopping at the first failure (the loop of
    [RequestScheduler::feedPrefillTokens]). *)
Fixpoint appendTokens (a : A.t) (s : t) (toks : list Z) : bool * A.t * t :=
  match toks with
  | [] => (true, a, s)
  | tok :: toks =>
      match appendToken a s tok with
      | (false, a1, s1) => (false, a1, s1)
      | (true, a1, s1) => appendTokens a1 s1 toks
      end
  end.

(** A relation kept by every append is kept by appending a list. *)
Lemma appendTokens_ind (P : A.t -> t -> Prop) toks : forall a s,
  (forall a s tok, P a s -> P (appendToken a s tok).1.2 (appendToken a s tok).2) ->
  P a s -> P (appendTokens a s toks).1.2 (appendTokens a s toks).2.
Proof.
  induction toks as [|tok toks IH]; intros a s Hstep HP; [done|]. simpl.
  pose proof (Hstep a s tok HP) as H1.
  destruct (appendToken a s tok) as [[[] a1] s1]; [|done]. by apply IH.
Qed.

Lemma appendTokens_wf a s toks :
  A.wf a -> wf a s ->
  A.wf (appendTokens a s toks).1.2 /\ wf (appendTokens a s toks).1.2 (appendTokens a s toks).2.
Proof.
  intros. apply (appendTokens_ind (fun a s => A.wf a /\ wf a s)); [|done].
  intros ? ? ? []. split; [by apply append_pool_wf|by apply append_wf].
Qed.

(** A sequence being fed next to others that share its pool: everyone stays
    well formed and the blocks stay partitioned. *)
Definition system (a : A.t) (s : t) (os : list t) : Prop :=
  A.wf a /\ wf a s /\ Forall (wf a) os /\
  owned a (_blockTable s ++ concat (_blockTable <$> os)).

Lemma append_system a s os tok :
  system a s os ->
  system (appendToken a s tok).1.2 (appendToken a s tok).2 os.
Proof.
  intros (Hwf & Hs & Hos & Ho). split; [by apply append_pool_wf|].
  split; [by apply append_wf|]. split; [|by apply append_owned].
  rewrite Forall_forall in *. intros o Hin. apply wf_append_other; auto.
  intros id Hi Hi'. pose proof (owned_nodup _ _ Ho) as (_ & Hd & _)%NoDup_app.
  eapply Hd; [done|]. apply list_elem_of_In, in_concat. exists (_blockTable o).
  split; [|by apply list_elem_of_In]. apply in_map. by apply list_elem_of_In.
Qed.

Lemma appendTokens_system a s os toks :
  A.wf a -> wf a s -> Forall (wf a) os ->
  owned a (_blockTable s ++ concat (_blockTable <$> os)) ->
  system (appendTokens a s toks).1.2 (appendTokens a s toks).2 os.
Proof.
  intros. apply (appendTokens_ind (fun a s => system a s os)); [|done].
  intros. by apply append_system.
Qed.

(** Every token accepted is appended to the history, and the history's blocks
    are stable. *)
Lemma append_tokens_eq a s tok :
  A.wf a -> wf a s ->
  _tokens (appendToken a s tok).2 =
    if (appendToken a s tok).1.1 then _tokens s ++ [tok] else _tokens s.
Proof.
  intros Hwf Hs.
  destruct (append_cases a s tok Hwf Hs) as [(s1 & a1 & -> & Ht & _)|[-> _]]; [|done].
  simpl. by rewrite Ht.
Qed.

Lemma appendTokens_tokens toks : forall a s,
  A.wf a -> wf a s -> (appendTokens a s toks).1.1 = true ->
  _tokens (appendTokens a s toks).2 = _tokens s ++ toks.
Proof.
  induction toks as [|tok toks IH]; intros a s Hwf Hs Hok; simpl in *.
  { by rewrite app_nil_r. }
  pose proof (append_tokens_eq a s tok Hwf Hs) as Ht.
  pose proof (append_pool_wf a s tok Hwf Hs). pose proof (append_wf a s tok Hwf Hs).
  destruct (appendToken a s tok) as [[[] a1] s1]; [|done]. simpl in *.
  rewrite IH by done. by rewrite Ht, <- app_assoc.
Qed.

Lemma appendTokens_blockSize a s toks :
  A.wf a -> wf a s -> A._blockSize (appendTokens a s toks).1.2 = A._blockSize a.
Proof.
  intros Hwf Hs.
  apply (appendTokens_ind (fun a' s' => A.wf a' /\ wf a' s' /\ A._blockSize a' = A._blockSize a));
    [|done].
  intros a' s' tok (? & ? & <-).
  rewrite append_blockSize by done. auto using append_pool_wf, append_wf.
Qed.

(** ** Properties *)

(** C10: appending a token to a well-formed sequence whose blocks are part of
    what the pool has handed out ([rest] are the other holders' blocks) either
    succeeds - the token joins the history, the page table keeps covering it
    tightly, every full block's hash is the FNV-1a chain of the whole token
    prefix, and the pool's live blocks are exactly the sequence's plus [rest] -
    or fails with the allocator and the sequence unchanged, and only when the
    sequence stands at a block boundary and no block is free. *)
Theorem append_token_correct a s tok rest :
  A.wf a -> wf a s -> owned a (_blockTable s ++ rest) ->
  let '(ok, a', s') := appendToken a s tok in
  A.wf a' /\ wf a' s' /\ owned a' (_blockTable s' ++ rest) /\
  (forall j, j ∈ rest -> A.hashOf a' j = A.hashOf a j) /\
  _tokens s' = (if ok then _tokens s ++ [tok] else _tokens s) /\
  (ok = false -> a' = a /\ s' = s) /\
  (ok = false <-> A._freeList a = [] /\
     length (_tokens s) = length (_blockTable s) * A._blockSize a).
Proof.
  intros Hwf Hs Ho.
  pose proof (append_pool_wf a s tok Hwf Hs). pose proof (append_wf a s tok Hwf Hs).
  pose proof (append_owned a s tok rest Hwf Hs Ho).
  pose proof (append_tokens_eq a s tok Hwf Hs).
  assert (forall j, j ∈ rest -> A.hashOf (appendToken a s tok).1.2 j = A.hashOf a j).
  { intros j Hj. apply append_frame; auto.
    - apply (owned_live _ _ Ho). apply elem_of_app; by right.
    - intros Hin. pose proof (owned_nodup _ _ Ho) as (_ & Hd & _)%NoDup_app. by eapply Hd. }
  destruct (append_cases a s tok Hwf Hs) as [(s1 & a1 & Heq & Ht & Hc)|(Heq & Hfree & Hfull)];
    rewrite Heq in *; simpl in *; do 5 (split; [done|]); split; try done.
  split; [done|]. intros [Hfree Hfull].
  destruct Hc as [(? & _)|(_ & id & Ha & Hne & _)]; [lia|].
  rewrite A.allocate_none in Ha by done. by simplify_eq.
Qed.

Definition demo_alloc (n bs : nat) : A.t :=
  match A.create n bs with Ok a => a | Throw _ => A.mkAllocator 0 [] [] end.

Lemma append_token_correct_witness :
  A.wf (demo_alloc 2 2) /\
  let '(ok, a', s') := appendToken (demo_alloc 2 2) create 7 in
  A.wf a' /\ wf a' s' /\ owned a' (_blockTable s' ++ []) /\
  (forall j, j ∈ @nil N -> A.hashOf a' j = A.hashOf (demo_alloc 2 2) j) /\
  _tokens s' = (if ok then _tokens create ++ [7%Z] else _tokens create) /\
  (ok = false -> a' = demo_alloc 2 2 /\ s' = create) /\
  (ok = false <-> A._freeList (demo_alloc 2 2) = [] /\
     length (_tokens create) = length (_blockTable create) * A._blockSize (demo_alloc 2 2)).
Proof.
  assert (Hwf : A.wf (demo_alloc 2 2)) by (by apply (A.create_wf 2 2)).
  split; [done|].
  apply append_token_correct; [done|by apply create_seq_wf|by apply (owned_empty 2 2)].
Defined.

(** two sequences, on any two pools of the same block size, that were fed
    token streams sharing the first [K * blockSize] tokens hold identical block
    hashes for their first [K] blocks, namely the FNV-1a-64 chain of the shared
    prefix - whatever the physical block ids are. *)
Theorem prefix_hash_deterministic n1 n2 bs a1 a2 toks1 toks2 K :
  (N.of_nat n1 < 2 ^ 32)%N -> (N.of_nat n2 < 2 ^ 32)%N ->
  A.create n1 bs = Ok a1 -> A.create n2 bs = Ok a2 ->
  (appendTokens a1 create toks1).1.1 = true ->
  (appendTokens a2 create toks2).1.1 = true ->
  K * bs <= length toks1 -> take (K * bs) toks1 = take (K * bs) toks2 ->
  let '(_, a1', s1) := appendTokens a1 create toks1 in
  let '(_, a2', s2) := appendTokens a2 create toks2 in
  forall i, i < K -> exists b1 b2,
    _blockTable s1 !! i = Some b1 /\ _blockTable s2 !! i = Some b2 /\
    A.hashOf a1' b1 = fnv1aChain kFnvBasis (take (S i * bs) toks1) /\
    A.hashOf a2' b2 = A.hashOf a1' b1.
Proof.
  intros Hn1 Hn2 Hc1 Hc2 Hok1 Hok2 HK Htk.
  assert (Hchain : forall n a toks, (N.of_nat n < 2 ^ 32)%N -> A.create n bs = Ok a ->
    (appendTokens a create toks).1.1 = true -> K * bs <= length toks ->
    forall i, i < K -> exists b,
      _blockTable (appendTokens a create toks).2 !! i = Some b /\
      A.hashOf (appendTokens a create toks).1.2 b =
        fnv1aChain kFnvBasis (take (S i * bs) toks)).
  { intros n a toks Hn Hc Hok HKl i Hi.
    pose proof (A.create_wf _ _ _ Hn Hc) as Hwf.
    pose proof (create_seq_wf _ Hwf) as Hs.
    destruct (appendTokens_wf a create toks Hwf Hs) as [Hwf' Hs'].
    pose proof (appendTokens_tokens toks a create Hwf Hs Hok) as Ht. simpl in Ht.
    pose proof (appendTokens_blockSize a create toks Hwf Hs) as Hb.
    assert (Hbs : A._blockSize a = bs) by (unfold A.create in Hc; by split_matches).
    rewrite Hbs in Hb. pose proof (A.wf_blockSize _ Hwf). rewrite Hbs in *.
    destruct Hs'. rewrite Ht, Hb in *.
    assert (HiK : S i * bs <= K * bs) by (apply Nat.mul_le_mono_r; lia).
    destruct (lookup_lt_is_Some_2 (_blockTable (appendTokens a create toks).2) i) as [b Hib].
    { apply (Nat.mul_lt_mono_pos_r bs); simpl in *; lia. }
    exists b. split; [done|]. apply wf_chain0; [done|]. lia. }
  destruct (appendTokens a1 create toks1) as [[ok1 a1'] s1] eqn:E1.
  destruct (appendTokens a2 create toks2) as [[ok2 a2'] s2] eqn:E2.
  assert (HK2 : K * bs <= length toks2).
  { apply (f_equal length) in Htk. rewrite !length_take in Htk. lia. }
  intros i Hi.
  destruct (Hchain n1 a1 toks1 Hn1 Hc1 ltac:(by rewrite E1) HK i Hi) as (b1 & Hb1 & Hh1).
  destruct (Hchain n2 a2 toks2 Hn2 Hc2 ltac:(by rewrite E2) HK2 i Hi) as (b2 & Hb2 & Hh2).
  rewrite E1 in *. rewrite E2 in *. simpl in *. exists b1, b2. repeat split; auto.
  rewrite Hh1, Hh2. f_equal. apply (f_equal (take (bs + i * bs))) in Htk.
  rewrite !take_take in Htk. replace (min (bs + i * bs) (K * bs)) with (bs + i * bs) in Htk by nia.
  done.
Qed.

Lemma prefix_hash_deterministic_witness :
  let a1 := demo_alloc 4 2 in let a2 := demo_alloc 3 2 in
  let '(_, a1', s1) := appendTokens a1 create [5; 6; 7; -1]%Z in
  let '(_, a2', s2) := appendTokens a2 create [5; 6; 9]%Z in
  forall i, i < 1 -> exists b1 b2,
    _blockTable s1 !! i = Some b1 /\ _blockTable s2 !! i = Some b2 /\
    A.hashOf a1' b1 = fnv1aChain kFnvBasis (take (S i * 2) [5; 6; 7; -1]%Z) /\
    A.hashOf a2' b2 = A.hashOf a1' b1.
Proof.
  apply (prefix_hash_deterministic 4 3 2 (demo_alloc 4 2) (demo_alloc 3 2)
           [5; 6; 7; -1]%Z [5; 6; 9]%Z 1); try reflexivity.
  simpl; lia.
Defined.

(** Resetting returns every block of the sequence, and only those. *)
Lemma reset_owned a s rest :
  A.wf a -> wf a s -> owned a (_blockTable s ++ rest) ->
  owned (reset a s).1 rest /\ A.wf (reset a s).1 /\ wf (reset a s).1 (reset a s).2.
Proof.
  intros Hwf Hs Ho. unfold reset, releaseAllBlocks. rewrite (wf_bound _ _ Hs). simpl.
  destruct (release_list_owned _ _ _ Hwf Ho) as [Ho' Hwf'].
  split; [done|]. split; [done|]. by apply empty_wf.
Qed.

(** Moving a sequence over another one (the way the scheduler's vector
    shifts its entries) releases exactly the overwritten sequence's blocks,
    hands the source's page table over intact, and leaves a source whose
    destructor and whose further appends touch nothing: no block is leaked or
    released twice. *)
Theorem move_assign_no_leak a this other rest :
  A.wf a -> wf a this -> wf a other ->
  owned a (_blockTable this ++ _blockTable other ++ rest) ->
  let '(a', this', other') := moveAssign a this other in
  A.wf a' /\ wf a' this' /\ this' = other /\
  owned a' (_blockTable this' ++ rest) /\
  destroy a' other' = a' /\
  (forall tok, appendToken a' other' tok = (false, a', other')) /\
  owned (destroy a' this') rest.
Proof.
  intros Hwf Ht Ho Hown. unfold moveAssign.
  destruct (reset_owned _ _ _ Hwf Ht Hown) as (H1 & H2 & _). unfold reset in *. simpl in *.
  assert (H3 : wf (releaseAllBlocks a this) other).
  { unfold releaseAllBlocks in *. rewrite (wf_bound _ _ Ht) in *.
    apply wf_release_list; [done|]. intros id Hid Hid'.
    pose proof (owned_nodup _ _ Hown) as (_ & Hd & _)%NoDup_app.
    eapply Hd; [done|]. apply elem_of_app. by left. }
  do 3 (split; [done|]). split; [done|]. split; [done|]. split; [done|].
  by apply (reset_owned _ other).
Qed.

Lemma move_assign_no_leak_witness :
  let '(_, a, s1) := appendTokens (demo_alloc 4 2) create [1; 2; 3]%Z in
  let '(_, a, s2) := appendTokens a create [4]%Z in
  let '(a', this', other') := moveAssign a s1 s2 in
  A.wf a' /\ wf a' this' /\ this' = s2 /\ owned a' (_blockTable this' ++ []) /\
  destroy a' other' = a' /\
  (forall tok, appendToken a' other' tok = (false, a', other')) /\
  owned (destroy a' this') [].
Proof.
  assert (Hwf : A.wf (demo_alloc 4 2)) by (by apply (A.create_wf 4 2)).
  destruct (appendTokens_system (demo_alloc 4 2) create [] [1; 2; 3]%Z)
    as (W1 & S1 & _ & O1);
    [done|by apply create_seq_wf|done|by apply (owned_empty 4 2)|].
  destruct (appendTokens (demo_alloc 4 2) create [1; 2; 3]%Z) as [[ok a] s1].
  destruct (appendTokens_system a create [s1] [4]%Z) as (W2 & S2 & S12 & O2);
    [done|by apply create_seq_wf|by constructor|done|].
  destruct (appendTokens a create [4]%Z) as [[ok2 a2] s2].
  apply (move_assign_no_leak a2 s1 s2 []); auto.
  - by inversion S12.
  - revert O2. apply owned_proper. simpl. rewrite !app_nil_r. apply Permutation_app_comm.
Defined.

End PagedKvSequence.
