(* ===== verification/ServingPolicies.v ===== *)
(** * The stateless serving policies

    Models three pure decision classes of [src/src/runtime/serving]:
    [ChunkedPrefillScheduler] (one iteration's decode/prefill mix under a token
    budget), [PreemptionPolicy] (when to preempt, in IEEE-754 double arithmetic)
    and [BatchCapacityProbe] (the start-up batch-size estimate, in 64-bit
    [size_t] arithmetic). *)

From Stdlib Require Import SpecFloat.
From S2P Require Import Prelude.

Module ChunkedPrefillScheduler.

(** [src/src/runtime/serving/ChunkedPrefillScheduler.hpp:18-34 RequestSlice] *)
Record RequestSlice := mkSlice {
  request_id : N;
  tokens_pending : Z;
  tokens_decoded : Z;
  is_decoding : bool;
}.

(** A decode assignment is the request's id. *)
Abbreviation DecodeAssignment := N.

(** [src/src/runtime/serving/ChunkedPrefillScheduler.hpp:54-57 PrefillAssignment] *)
Record PrefillAssignment := mkPrefill {
  p_request_id : N;
  chunk_size : Z;
}.

(** [src/src/runtime/serving/ChunkedPrefillScheduler.hpp:65-72 BatchSchedule] *)
Record BatchSchedule := mkSchedule {
  decodes : list DecodeAssignment;
  prefills : list PrefillAssignment;
  total_tokens_scheduled : Z;
}.

(** The scheduler is its token budget.
    [src/src/runtime/serving/ChunkedPrefillScheduler.cpp:11-18 ChunkedPrefillScheduler] *)
Definition create (tokenBudget : Z) : result Z :=
  if (tokenBudget <=? 0)%Z then
    Throw (InvalidArgument "ChunkedPrefillScheduler: tokenBudget must be > 0")
  else Ok tokenBudget.

(** Pass 1: one token per decoding request, in input order, while budget
    remains; returns the budget left.
    [src/src/runtime/serving/ChunkedPrefillScheduler.cpp:30-35 ChunkedPrefillScheduler::schedule] *)
Fixpoint decodePass (remaining : Z) (requests : list RequestSlice) : list DecodeAssignment * Z :=
  match requests with
  | [] => ([], remaining)
  | r :: rs =>
      if (remaining <=? 0)%Z then ([], remaining)
      else if negb (is_decoding r) then decodePass remaining rs
      else
        let '(ds, rest) := decodePass (s32 (remaining - 1)) rs in
        (request_id r :: ds, rest)
  end.

(** Pass 2: fill what remains with prefill chunks, in input order.
    [src/src/runtime/serving/ChunkedPrefillScheduler.cpp:40-47 ChunkedPrefillScheduler::schedule] *)
Fixpoint prefillPass (remaining : Z) (requests : list RequestSlice) : list PrefillAssignment * Z :=
  match requests with
  | [] => ([], remaining)
  | r :: rs =>
      if (remaining <=? 0)%Z then ([], remaining)
      else if is_decoding r then prefillPass remaining rs
      else if (tokens_pending r <=? 0)%Z then prefillPass remaining rs
      else
        let chunk := Z.min remaining (tokens_pending r) in
        let '(ps, rest) := prefillPass (s32 (remaining - chunk)) rs in
        (mkPrefill (request_id r) chunk :: ps, rest)
  end.

(** [src/src/runtime/serving/ChunkedPrefillScheduler.cpp:20-51 ChunkedPrefillScheduler::schedule] *)
Definition schedule (tokenBudget : Z) (requests : list RequestSlice) : BatchSchedule :=
  let '(ds, remaining) := decodePass tokenBudget requests in
  let '(ps, remaining) := prefillPass remaining requests in
  mkSchedule ds ps (s32 (tokenBudget - remaining)).

(** ** Reference specification *)

(** The requests pass 2 considers. *)
Definition wants_prefill (r : RequestSlice) : bool :=
  negb (is_decoding r) && (0 <? tokens_pending r)%Z.

Definition decoding_ids (rs : list RequestSlice) : list N :=
  request_id <$> List.filter is_decoding rs.

(** [B] units poured over demands [ps] in order: the i-th gets what the earlier
    ones leave, at most its demand. *)
Definition water_fill (B : Z) (ps : list Z) : list Z :=
  imap (fun i p => Z.max 0 (Z.min p (B - sumZ (take i ps)))) ps.

#[global] Arguments water_fill : simpl never.

Definition poured (B : Z) (rs : list RequestSlice) : list PrefillAssignment :=
  let ws := List.filter wants_prefill rs in
  List.filter (fun p => (0 <? chunk_size p)%Z)
    (zip_with mkPrefill (request_id <$> ws) (water_fill B (tokens_pending <$> ws))).

Definition demand (rs : list RequestSlice) : Z :=
  sumZ (tokens_pending <$> List.filter wants_prefill rs).

Lemma water_fill_cons B p ps :
  water_fill B (p :: ps) = Z.max 0 (Z.min p B) :: water_fill (B - p) ps.
Proof.
  unfold water_fill. rewrite imap_cons. f_equal.
  - simpl. rewrite Z.sub_0_r. done.
  - apply imap_ext. intros i x _. simpl. do 2 f_equal. lia.
Qed.

Lemma water_fill_empty B ps : (B <= 0)%Z -> Forall (fun p => 0 < p)%Z ps ->
  water_fill B ps = replicate (length ps) 0%Z.
Proof.
  intros HB Hps. revert B HB. induction Hps as [|p ps Hp Hps IH]; intros B HB; [done|].
  rewrite water_fill_cons, IH by lia. simpl. f_equal. lia.
Qed.

Lemma wants_positive rs :
  Forall (fun p => 0 < p)%Z (tokens_pending <$> List.filter wants_prefill rs).
Proof.
  induction rs as [|r rs IH]; simpl; [constructor|].
  destruct (wants_prefill r) eqn:Hw; [|done]. constructor; [|done].
  unfold wants_prefill in Hw. by bool_to_prop.
Qed.

Lemma poured_empty B rs : (B <= 0)%Z -> poured B rs = [].
Proof.
  intros HB. unfold poured. rewrite (water_fill_empty _ _ HB (wants_positive rs)).
  rewrite length_fmap. induction (List.filter wants_prefill rs) as [|w ws IH]; [done|].
  simpl. done.
Qed.

Lemma poured_nonpos B B' rs : (B <= 0)%Z -> (B' <= 0)%Z -> poured B rs = poured B' rs.
Proof. intros. by rewrite !poured_empty. Qed.

Lemma poured_skip B r rs : wants_prefill r = false -> poured B (r :: rs) = poured B rs.
Proof. unfold poured. simpl. by intros ->. Qed.

Lemma poured_cons B r rs : wants_prefill r = true -> (0 < B)%Z ->
  poured B (r :: rs) =
    mkPrefill (request_id r) (Z.min B (tokens_pending r)) :: poured (B - tokens_pending r) rs.
Proof.
  intros Hw HB. unfold poured. simpl. rewrite Hw. cbn [fmap list_fmap]. rewrite water_fill_cons. simpl.
  unfold wants_prefill in Hw. bool_to_prop.
  destruct (Z.ltb_spec 0 (Z.max 0 (Z.min (tokens_pending r) B))); [|lia].
  f_equal. f_equal. lia.
Qed.

Lemma decoding_nonneg rs : (0 <= Z.of_nat (length (decoding_ids rs)))%Z.
Proof. lia. Qed.

Lemma demand_nonneg rs : (0 <= demand rs)%Z.
Proof.
  apply sumZ_nonneg. eapply Forall_impl; [apply wants_positive|]. simpl. lia.
Qed.

Lemma decoding_ids_cons r rs :
  decoding_ids (r :: rs) =
    if is_decoding r then request_id r :: decoding_ids rs else decoding_ids rs.
Proof. unfold decoding_ids. simpl. by destruct (is_decoding r). Qed.

Lemma decodePass_spec rs : forall rem, (0 <= rem < 2 ^ 31)%Z ->
  decodePass rem rs =
    (take (Z.to_nat rem) (decoding_ids rs),
     Z.max 0 (rem - Z.of_nat (length (decoding_ids rs)))).
Proof.
  induction rs as [|r rs IH]; intros rem Hrem; cbn [decodePass].
  { change (decoding_ids []) with (@nil N). rewrite take_nil. simpl. f_equal. lia. }
  destruct (Z.leb_spec rem 0).
  { replace rem with 0%Z by lia. rewrite take_0. f_equal. lia. }
  rewrite decoding_ids_cons. destruct (is_decoding r); cbn [negb]; [|by apply IH].
  rewrite s32_small by (unfold in_s32; lia). rewrite IH by lia.
  replace (Z.to_nat rem) with (S (Z.to_nat (rem - 1))) by lia. simpl. f_equal. lia.
Qed.

Lemma prefillPass_spec rs : forall rem, (0 <= rem < 2 ^ 31)%Z ->
  prefillPass rem rs = (poured rem rs, Z.max 0 (rem - demand rs)).
Proof.
  induction rs as [|r rs IH]; intros rem Hrem; simpl.
  { unfold demand, poured. simpl. f_equal. lia. }
  pose proof (demand_nonneg (r :: rs)). pose proof (demand_nonneg rs).
  destruct (Z.leb_spec rem 0).
  { rewrite poured_empty by lia. f_equal. lia. }
  destruct (wants_prefill r) eqn:Hw.
  - rewrite (poured_cons _ _ _ Hw) by done.
    assert (Hd : demand (r :: rs) = (tokens_pending r + demand rs)%Z)
      by (unfold demand; simpl; by rewrite Hw).
    unfold wants_prefill in Hw. bool_to_prop. rewrite H2.
    destruct (Z.leb_spec (tokens_pending r) 0); [lia|].
    rewrite s32_small by (unfold in_s32; lia). rewrite IH by lia.
    rewrite Hd. f_equal; [|lia]. f_equal.
    destruct (decide (tokens_pending r <= rem)%Z).
    + f_equal. lia.
    + apply poured_nonpos; lia.
  - rewrite (poured_skip _ _ _ Hw).
    assert (Hd : demand (r :: rs) = demand rs) by (unfold demand; simpl; by rewrite Hw).
    rewrite Hd. unfold wants_prefill in Hw.
    destruct (is_decoding r); [by apply IH|]. simpl in Hw. bool_to_prop.
    destruct (Z.leb_spec (tokens_pending r) 0); [by apply IH|lia].
Qed.

Lemma decoding_length_le rs : length (decoding_ids rs) <= length rs.
Proof. unfold decoding_ids. rewrite length_fmap. apply List.filter_length_le. Qed.

Lemma poured_sum rs : forall B, (0 <= B)%Z ->
  sumZ (chunk_size <$> poured B rs) = Z.min B (demand rs).
Proof.
  induction rs as [|r rs IH]; intros B HB.
  { unfold demand, poured. simpl. lia. }
  destruct (wants_prefill r) eqn:Hw.
  - assert (Hd : demand (r :: rs) = (tokens_pending r + demand rs)%Z)
      by (unfold demand; simpl; by rewrite Hw).
    pose proof (demand_nonneg rs). pose proof (demand_nonneg (r :: rs)).
    destruct (decide (B = 0)%Z) as [->|].
    { rewrite poured_empty by lia. simpl. lia. }
    rewrite (poured_cons _ _ _ Hw) by lia. simpl. rewrite Hd.
    unfold wants_prefill in Hw. bool_to_prop.
    destruct (decide (tokens_pending r <= B)%Z).
    + rewrite IH by lia. lia.
    + rewrite poured_empty by lia. simpl. lia.
  - rewrite (poured_skip _ _ _ Hw), IH by done. unfold demand. simpl. by rewrite Hw.
Qed.

(** The schedule in closed form. *)
Lemma schedule_eq budget rs : (0 < budget < 2 ^ 31)%Z ->
  let D := Z.of_nat (length (decoding_ids rs)) in
  schedule budget rs =
    mkSchedule (take (Z.to_nat budget) (decoding_ids rs)) (poured (Z.max 0 (budget - D)) rs)
      (Z.min budget (D + demand rs)).
Proof.
  intros Hb D. pose proof (demand_nonneg rs). unfold schedule.
  rewrite decodePass_spec, prefillPass_spec by lia.
  rewrite s32_small by (unfold in_s32; lia). f_equal. lia.
Qed.

Lemma schedule_total budget rs : (0 < budget < 2 ^ 31)%Z ->
  let s := schedule budget rs in
  total_tokens_scheduled s =
    (Z.of_nat (length (decodes s)) + sumZ (chunk_size <$> prefills s))%Z.
Proof.
  intros Hb. pose proof (demand_nonneg rs). rewrite schedule_eq by done. simpl.
  rewrite poured_sum, length_take by lia. lia.
Qed.

(** C11: the schedule of one iteration is exactly the reference policy: the
    first [budget] decoding requests, in order, one token each; then the budget
    they leave poured in order over the requests still prefilling, each getting
    at most its pending tokens; the reported total is the number of tokens
    handed out, never exceeds the budget and wastes none of it while work
    remains; no 32-bit intermediate wraps. *)
Theorem schedule_meets_policy tokenBudget budget rs :
  create tokenBudget = Ok budget -> (tokenBudget < 2 ^ 31)%Z ->
  let s := schedule budget rs in
  let D := Z.of_nat (length (decoding_ids rs)) in
  decodes s = take (Z.to_nat budget) (decoding_ids rs) /\
  prefills s = poured (Z.max 0 (budget - D)) rs /\
  total_tokens_scheduled s =
    (Z.of_nat (length (decodes s)) + sumZ (chunk_size <$> prefills s))%Z /\
  total_tokens_scheduled s = Z.min budget (D + demand rs).
Proof.
  intros Hc Hlt. unfold create in Hc. split_matches. bool_to_prop.
  pose proof (schedule_total budget rs) as Ht. rewrite schedule_eq in * by lia. simpl in *.
  split; [done|]. split; [done|]. split; [apply Ht; lia|done].
Qed.

Lemma schedule_meets_policy_witness :
  let rs := [mkSlice 1 0 4 true; mkSlice 2 9 0 false; mkSlice 3 5 0 false] in
  schedule 8 rs = mkSchedule [1%N] [mkPrefill 2 7] 8 /\
  let s := schedule 8 rs in
  let D := Z.of_nat (length (decoding_ids rs)) in
  decodes s = take (Z.to_nat 8) (decoding_ids rs) /\
  prefills s = poured (Z.max 0 (8 - D)) rs /\
  total_tokens_scheduled s =
    (Z.of_nat (length (decodes s)) + sumZ (chunk_size <$> prefills s))%Z /\
  total_tokens_scheduled s = Z.min 8 (D + demand rs).
Proof.
  split; [reflexivity|]. apply (schedule_meets_policy 8 8); [reflexivity|lia].
Defined.

(** Every prefill assignment is a positive part of one request's pending
    tokens. *)
Lemma poured_sound rs : forall B p, p ∈ poured B rs ->
  exists r, r ∈ rs /\ wants_prefill r = true /\ request_id r = p_request_id p /\
    (0 < chunk_size p <= tokens_pending r)%Z.
Proof.
  induction rs as [|r rs IH]; intros B p Hp.
  { unfold poured in Hp. simpl in Hp. by apply not_elem_of_nil in Hp. }
  destruct (decide (0 < B)%Z).
  2: { rewrite poured_empty in Hp by lia. by apply not_elem_of_nil in Hp. }
  destruct (wants_prefill r) eqn:Hw.
  - rewrite poured_cons in Hp by done. apply elem_of_cons in Hp as [->|Hp].
    + exists r. simpl. split; [by left|]. split; [done|]. split; [done|].
      unfold wants_prefill in Hw. bool_to_prop. lia.
    + destruct (IH _ _ Hp) as (r' & ? & ?). exists r'. split; [by right|done].
  - rewrite poured_skip in Hp by done.
    destruct (IH _ _ Hp) as (r' & ? & ?). exists r'. split; [by right|done].
Qed.

(** Each request gets at most one prefill assignment. *)
Lemma poured_ids rs : forall B, sublist (p_request_id <$> poured B rs) (request_id <$> rs).
Proof.
  induction rs as [|r rs IH]; intros B; [done|].
  destruct (decide (0 < B)%Z).
  2: { rewrite poured_empty by lia. apply sublist_nil_l. }
  destruct (wants_prefill r) eqn:Hw.
  - rewrite poured_cons by done. apply sublist_skip, IH.
  - rewrite poured_skip by done. apply sublist_cons, IH.
Qed.

Lemma demand_cons r rs :
  demand (r :: rs) = ((if wants_prefill r then tokens_pending r else 0) + demand rs)%Z.
Proof. unfold demand. simpl. by destruct (wants_prefill r). Qed.

End ChunkedPrefillScheduler.

Module PreemptionPolicy.

(** IEEE-754 binary64 values and operations, by their specification. *)
Abbreviation double := spec_float.
Definition double_of_size (n : N) : double := binary_normalize 53 1024 (Z.of_N n) 0 false.
Definition ddiv (x y : double) : double := SFdiv 53 1024 x y.
Definition dltb (x y : double) : bool := SFltb x y.
Definition dleb (x y : double) : bool := SFleb x y.
Definition d0 : double := S754_zero false.
Definition d1 : double := double_of_size 1.

(** The literal [0.05], rounded to nearest even: 0x1.999999999999ap-5.
    [src/src/runtime/serving/PreemptionPolicy.hpp:69-69 kDefaultFreeBlockThreshold] *)
Definition kDefaultFreeBlockThreshold : double := S754_finite false 7205759403792794 (-57).

(** [src/src/runtime/serving/PreemptionPolicy.cpp:10-18 PreemptionPolicy] *)
Definition create (freeBlockThreshold : double) : result double :=
  if negb (dleb d0 freeBlockThreshold && dleb freeBlockThreshold d1) then
    Throw (InvalidArgument "PreemptionPolicy: freeBlockThreshold must be in [0.0, 1.0]")
  else Ok freeBlockThreshold.

(** [src/src/runtime/serving/PreemptionPolicy.cpp:20-29 PreemptionPolicy::shouldPreempt] *)
Definition shouldPreempt (threshold : double) (freeBlocks totalBlocks numActive : N) : bool :=
  if (totalBlocks =? 0)%N then false
  else if (numActive <=? 1)%N then false
  else
    let freeRatio := ddiv (double_of_size freeBlocks) (double_of_size totalBlocks) in
    dltb freeRatio threshold.

(** A value that is not below zero: zero, positive, +infinity or NaN. *)
Definition nonneg (x : double) : Prop :=
  match x with
  | S754_zero s | S754_infinity s | S754_finite s _ _ => s = false
  | S754_nan => True
  end.

Lemma round_nonneg m e l : nonneg (binary_round_aux 53 1024 false m e l).
Proof.
  unfold binary_round_aux. destruct (shr_fexp 53 1024 m e l) as [mrs' e'].
  destruct (shr_fexp 53 1024 _ e' loc_Exact) as [mrs'' e''].
  destruct (shr_m mrs'') as [|p|p]; simpl; try done. by destruct (Z.leb _ _).
Qed.

Lemma double_of_size_nonneg n : nonneg (double_of_size n).
Proof.
  unfold double_of_size, binary_normalize. destruct n as [|p]; [done|]. simpl.
  unfold binary_round. case_match. apply round_nonneg.
Qed.

Lemma ddiv_nonneg x y : nonneg x -> nonneg y -> nonneg (ddiv x y).
Proof.
  unfold ddiv. destruct x as [s| s| |s m e], y as [s'| s'| |s' m' e']; simpl;
    intros; subst; try done.
  destruct (SFdiv_core_binary 53 1024 _ e _ e') as [[mz ez] lz]. apply round_nonneg.
Qed.

Lemma nonneg_not_below_zero x s : nonneg x -> dltb x (S754_zero s) = false.
Proof. unfold dltb, SFltb. destruct x; simpl; intros; subst; done. Qed.

(** The livelock and kill-switch guards of the preemption policy: with at
    most one active request, or an empty pool, preemption is never advised; a
    threshold of zero (of either sign) disables the policy for every pool state;
    and the constructor accepts a threshold only when it compares at least zero
    and at most one, so it refuses NaN. *)
Theorem preemption_guards threshold freeBlocks totalBlocks numActive :
  ((numActive <= 1)%N \/ totalBlocks = 0%N \/ (exists s, threshold = S754_zero s) ->
   shouldPreempt threshold freeBlocks totalBlocks numActive = false) /\
  (create threshold = Ok threshold <-> dleb d0 threshold = true /\ dleb threshold d1 = true) /\
  create S754_nan <> Ok S754_nan.
Proof.
  split; [|split; [|done]].
  - intros [H|[->|[s ->]]]; unfold shouldPreempt; [|done|].
    + destruct (N.eqb_spec totalBlocks 0); [done|]. by destruct (N.leb_spec numActive 1); [|lia].
    + destruct (N.eqb_spec totalBlocks 0); [done|]. destruct (N.leb_spec numActive 1); [done|].
      apply nonneg_not_below_zero, ddiv_nonneg; apply double_of_size_nonneg.
  - unfold create. destruct (dleb d0 threshold), (dleb threshold d1); simpl; naive_solver.
Qed.

End PreemptionPolicy.

Module BatchCapacityProbe.

(** The values interpolated into the estimate's one-line explanation, one
    constructor per text the code writes. *)
Inductive Reasoning :=
  | NotYetProbed
  | InsufficientData (bandwidth weight kvPerTok ctx : N)
  | BelowServingFloor (bandwidth : N)
  | VramAware (freeGiB reservePct kvPerSeqMiB kvPerTok ctx bandwidth raw batch : N)
  | BandwidthTier (bandwidth weightMiB kvPerTok ctx batch : N).

(** [src/src/runtime/serving/BatchCapacityProbe.hpp:26-35 BatchCapacityEstimate] *)
Record BatchCapacityEstimate := mkEstimate {
  e_bandwidthGBps : N;
  freeVramGB : N;
  e_weightBytes : N;
  e_kvBytesPerToken : N;
  e_maxContext : N;
  sustainableBatch : N;
  servingClassRecommended : bool;
  reasoning : Reasoning;
}.

(** [src/src/runtime/serving/BatchCapacityProbe.hpp:52-52 kDefaultMinServingBatch] *)
Definition kDefaultMinServingBatch : N := 8.
(** [src/src/runtime/serving/BatchCapacityProbe.hpp:58-58 kMaxServingBatch] *)
Definition kMaxServingBatch : N := 128.
(** [src/src/runtime/serving/BatchCapacityProbe.hpp:64-64 kMemoryReservePct] *)
Definition kMemoryReservePct : N := 50.

(** [src/src/runtime/serving/BatchCapacityProbe.cpp:10-19 BatchCapacityProbe::roundToSchedulerStep] *)
Definition roundToSchedulerStep (raw : N) : N :=
  if (128 <=? raw)%N then 128
  else if (64 <=? raw)%N then 64
  else if (32 <=? raw)%N then 32
  else if (16 <=? raw)%N then 16
  else if (8 <=? raw)%N then 8
  else if (4 <=? raw)%N then 4
  else if (2 <=? raw)%N then 2
  else 1.

(** [src/src/runtime/serving/BatchCapacityProbe.cpp:21-27 BatchCapacityProbe::estimateConservativeFallback] *)
Definition estimateConservativeFallback : BatchCapacityEstimate :=
  mkEstimate 0 0 0 0 0 1 false NotYetProbed.

(** Products are taken modulo 2^64, as [size_t] does.
    [src/src/runtime/serving/BatchCapacityProbe.cpp:29-109 BatchCapacityProbe::estimate] *)
Definition estimate (bandwidthGBps weightBytes kvBytesPerToken maxContext freeMemoryBytes : N)
  : BatchCapacityEstimate :=
  let base := mkEstimate bandwidthGBps (N.shiftr freeMemoryBytes 30) weightBytes
                kvBytesPerToken maxContext in
  if ((bandwidthGBps =? 0) || (weightBytes =? 0) || (kvBytesPerToken =? 0)
      || (maxContext =? 0))%N then
    base 1%N false (InsufficientData bandwidthGBps weightBytes kvBytesPerToken maxContext)
  else if (bandwidthGBps <? 80)%N then
    base 1%N false (BelowServingFloor bandwidthGBps)
  else if (0 <? freeMemoryBytes)%N then
    let kvPerSeq := u64 (kvBytesPerToken * maxContext) in
    let budget := (u64 (freeMemoryBytes * kMemoryReservePct) / 100)%N in
    let raw := if (0 <? kvPerSeq)%N then (budget / kvPerSeq)%N else 1%N in
    let raw := if (raw <? 1)%N then 1%N else raw in
    let raw := if (kMaxServingBatch <? raw)%N then kMaxServingBatch else raw in
    let batch := roundToSchedulerStep raw in
    base batch (kDefaultMinServingBatch <=? batch)%N
      (VramAware (N.shiftr freeMemoryBytes 30) kMemoryReservePct (N.shiftr kvPerSeq 20)
         kvBytesPerToken maxContext bandwidthGBps raw batch)
  else
    let raw := if (bandwidthGBps <? 200)%N then 4%N
               else if (bandwidthGBps <? 400)%N then 16%N else 32%N in
    let batch := roundToSchedulerStep raw in
    base batch (kDefaultMinServingBatch <=? batch)%N
      (BandwidthTier bandwidthGBps (N.shiftr weightBytes 20) kvBytesPerToken maxContext batch).

Definition scheduler_steps : list N := [1; 2; 4; 8; 16; 32; 64; 128]%N.

Lemma roundToSchedulerStep_in raw : roundToSchedulerStep raw ∈ scheduler_steps.
Proof. unfold roundToSchedulerStep. split_matches; unfold scheduler_steps; set_solver. Qed.

(** Rounds down, by less than a factor of two, except at the 128 ceiling. *)
Lemma roundToSchedulerStep_bounds raw : (1 <= raw)%N ->
  (roundToSchedulerStep raw <= raw)%N /\
  ((raw < 2 * roundToSchedulerStep raw)%N \/ roundToSchedulerStep raw = 128%N).
Proof. intros. unfold roundToSchedulerStep. split_matches; bool_to_prop; lia. Qed.

Lemma roundToSchedulerStep_pos raw : (1 <= roundToSchedulerStep raw <= 128)%N.
Proof. unfold roundToSchedulerStep. split_matches; lia. Qed.

(** the start-up estimate never over-commits memory: when the free memory
    is known and the 64-bit products do not wrap, either one sequence is served
    or all the sustainable sequences' KV pools together fit the 50% reserve of
    the free memory; the batch is always one of the scheduler's steps, is 1 below
    the 80 GB/s floor or with any missing input, and serving is recommended
    exactly from a batch of 8. *)
Theorem estimate_safe bw weight kvtok ctx free :
  (kvtok * ctx < 2 ^ 64)%N -> (free * kMemoryReservePct < 2 ^ 64)%N ->
  let e := estimate bw weight kvtok ctx free in
  sustainableBatch e ∈ scheduler_steps /\
  (servingClassRecommended e = true <-> (8 <= sustainableBatch e)%N) /\
  ((bw < 80)%N \/ weight = 0%N \/ kvtok = 0%N \/ ctx = 0%N -> sustainableBatch e = 1%N) /\
  ((0 < free)%N -> sustainableBatch e = 1%N \/
     (sustainableBatch e * (kvtok * ctx) <= free / 2)%N).
Proof.
  intros Hkv Hfree. unfold estimate.
  destruct (N.eqb_spec bw 0); [simpl; split; [set_solver|naive_solver lia]|].
  destruct (N.eqb_spec weight 0); [simpl; split; [set_solver|naive_solver lia]|].
  destruct (N.eqb_spec kvtok 0); [simpl; split; [set_solver|naive_solver lia]|].
  destruct (N.eqb_spec ctx 0); [simpl; split; [set_solver|naive_solver lia]|].
  cbn [orb]. destruct (N.ltb_spec bw 80); [simpl; split; [set_solver|naive_solver lia]|].
  destruct (N.ltb_spec 0 free); cbn [sustainableBatch servingClassRecommended].
  2: { split; [apply roundToSchedulerStep_in|]. rewrite N.leb_le.
       split; [done|]. split; [naive_solver lia|lia]. }
  split; [apply roundToSchedulerStep_in|]. rewrite N.leb_le.
  split; [done|]. split; [naive_solver lia|intros _].
  rewrite !u64_small by done. unfold kMemoryReservePct, kMaxServingBatch in *.
  assert (Hk : (0 < kvtok * ctx)%N) by nia.
  destruct (N.ltb_spec 0 (kvtok * ctx)); [|lia].
  assert (Hb : (free * 50 / 100 = free / 2)%N).
  { replace 100%N with (2 * 50)%N by done. rewrite N.Div0.div_mul_cancel_r; done. }
  rewrite Hb. set (q := (free / 2 / (kvtok * ctx))%N).
  assert (Hq : (q * (kvtok * ctx) <= free / 2)%N).
  { rewrite N.mul_comm. apply N.Div0.mul_div_le. }
  set (raw := if (128 <? _)%N then _ else _).
  assert (Hraw : (raw = 1 \/ 1 <= raw <= q)%N).
  { unfold raw. destruct (N.ltb_spec q 1), (N.ltb_spec 128 q); simpl; lia. }
  destruct Hraw as [->|Hraw]; [by left|right].
  destruct (roundToSchedulerStep_bounds raw) as [Hle _]; [lia|].
  etransitivity; [|exact Hq]. apply N.mul_le_mono_r. lia.
Qed.

Lemma estimate_safe_witness :
  let e := estimate 273 4000000000 98304 8192 100000000000 in
  sustainableBatch e = 32%N /\
  sustainableBatch e ∈ scheduler_steps /\
  (servingClassRecommended e = true <-> (8 <= sustainableBatch e)%N) /\
  ((273 < 80)%N \/ 4000000000%N = 0%N \/ 98304%N = 0%N \/ 8192%N = 0%N ->
     sustainableBatch e = 1%N) /\
  ((0 < 100000000000)%N -> sustainableBatch e = 1%N \/
     (sustainableBatch e * (98304 * 8192) <= 100000000000 / 2)%N).
Proof.
  split; [reflexivity|].
  apply (estimate_safe 273 4000000000 98304 8192 100000000000); reflexivity.
Defined.

(** Past 2^64 the product wraps and the estimate is taken from a tiny
    per-sequence size: the bound's hypothesis is needed. *)
Lemma estimate_wraps :
  sustainableBatch (estimate 273 1 (2 ^ 40) (2 ^ 24 + 1) (2 ^ 50)) = 128%N.
Proof. reflexivity. Qed.

End BatchCapacityProbe.
