(* ===== verification/RequestScheduler.v ===== *)
(** * [RequestScheduler]: the request lifecycle state machine

    Models [src/src/runtime/serving/RequestScheduler.{hpp,cpp}]: the request
    registry (a vector in admission order), the id index, the per-state
    population counters, the lifecycle transitions and the paged-KV wiring.  The
    allocator the scheduler and all its sequences point to is one shared object,
    kept in the state ([None] for a null pointer).  The proofs are in
    [RequestSchedulerProofs.v]. *)

From S2P Require Import Prelude BlockAllocator PagedSequence ServingPolicies.

Module RequestScheduler.

Module C := ChunkedPrefillScheduler.
Module S := PagedKvSequence.

(** [src/src/runtime/serving/RequestScheduler.hpp:33-39 RequestState] *)
Inductive RequestState :=
  | Waiting
  | Prefilling
  | Decoding
  | Completed
  | Preempted.

#[global] Instance RequestState_eq_dec : EqDecision RequestState.
Proof. solve_decision. Defined.

Definition all_states : list RequestState :=
  [Waiting; Prefilling; Decoding; Completed; Preempted].

(** The enumerator's value. *)
Definition state_index (s : RequestState) : nat :=
  match s with
  | Waiting => 0 | Prefilling => 1 | Decoding => 2 | Completed => 3 | Preempted => 4
  end.

(** [src/src/runtime/serving/RequestScheduler.hpp:47-92 RequestStateData] *)
Record RequestStateData := mkRequest {
  request_id : N;
  state : RequestState;
  prompt_length : Z;
  tokens_pending : Z;
  tokens_decoded : Z;
  max_tokens : Z;
  admit_seq : N;
  kv_sequence : option S.t;
  ever_preempted : bool;
}.

Definition eta_request (r : RequestStateData) : RequestStateData :=
  mkRequest (request_id r) (state r) (prompt_length r) (tokens_pending r)
    (tokens_decoded r) (max_tokens r) (admit_seq r) (kv_sequence r) (ever_preempted r).
#[global] Instance set_state : FieldSetter state := ltac:(build_setter eta_request state).
#[global] Instance set_tokens_pending : FieldSetter tokens_pending :=
  ltac:(build_setter eta_request tokens_pending).
#[global] Instance set_tokens_decoded : FieldSetter tokens_decoded :=
  ltac:(build_setter eta_request tokens_decoded).
#[global] Instance set_kv_sequence : FieldSetter kv_sequence :=
  ltac:(build_setter eta_request kv_sequence).
#[global] Instance set_ever_preempted : FieldSetter ever_preempted :=
  ltac:(build_setter eta_request ever_preempted).

(** The scheduler's fields; [_prefillScheduler] is its token budget.
    [src/src/runtime/serving/RequestScheduler.hpp:386-410 RequestScheduler] *)
Record t := mkScheduler {
  _prefillScheduler : Z;
  _maxActiveRequests : N;
  _allocator : option A.t;
  _nextRequestId : N;
  _nextAdmitSeq : N;
  _requests : list RequestStateData;
  _indexById : gmap N nat;
  _stateCount : list N;
  _totalAdmitted : N;
  _totalCompleted : N;
  _totalPreempted : N;
}.

Definition eta_scheduler (s : t) : t :=
  mkScheduler (_prefillScheduler s) (_maxActiveRequests s) (_allocator s) (_nextRequestId s)
    (_nextAdmitSeq s) (_requests s) (_indexById s) (_stateCount s) (_totalAdmitted s)
    (_totalCompleted s) (_totalPreempted s).
#[global] Instance set_allocator : FieldSetter _allocator :=
  ltac:(build_setter eta_scheduler _allocator).
#[global] Instance set_requests : FieldSetter _requests :=
  ltac:(build_setter eta_scheduler _requests).
#[global] Instance set_indexById : FieldSetter _indexById :=
  ltac:(build_setter eta_scheduler _indexById).
#[global] Instance set_stateCount : FieldSetter _stateCount :=
  ltac:(build_setter eta_scheduler _stateCount).
#[global] Instance set_totalCompleted : FieldSetter _totalCompleted :=
  ltac:(build_setter eta_scheduler _totalCompleted).
#[global] Instance set_totalPreempted : FieldSetter _totalPreempted :=
  ltac:(build_setter eta_scheduler _totalPreempted).

(** [src/src/runtime/serving/RequestScheduler.cpp:14-27 RequestScheduler] *)
Definition create (tokenBudget : Z) (maxActiveRequests : N) (allocator : option A.t)
  : result t :=
  match C.create tokenBudget with
  | Throw e => Throw e
  | Ok budget =>
      if (maxActiveRequests =? 0)%N then
        Throw (InvalidArgument "RequestScheduler: maxActiveRequests must be > 0")
      else Ok (mkScheduler budget maxActiveRequests allocator 1 1 [] ∅ [0; 0; 0; 0; 0]%N 0 0 0)
  end.

(** [++c] and [--c] on a [size_t]. *)
Definition incr (c : N) : N := u64 (c + 1).
Definition decr (c : N) : N := u64 (c + (2 ^ 64 - 1)).

(** [src/src/runtime/serving/RequestScheduler.cpp:29-53 RequestScheduler::admit] *)
Definition admitRequest (s : t) (promptLength maxTokens : Z) : N * t :=
  if ((promptLength <=? 0) || (maxTokens <=? 0))%Z then (0%N, s)
  else
    let id := _nextRequestId s in
    let r := mkRequest id Waiting promptLength promptLength 0 maxTokens (_nextAdmitSeq s)
               (match _allocator s with Some _ => Some S.create | None => None end) false in
    (id, mkScheduler (_prefillScheduler s) (_maxActiveRequests s) (_allocator s)
           (u64 (id + 1)) (u64 (_nextAdmitSeq s + 1)) (_requests s ++ [r])
           (emplace id (length (_requests s)) (_indexById s))
           (alter incr (state_index Waiting) (_stateCount s))
           (u64 (_totalAdmitted s + 1)) (_totalCompleted s) (_totalPreempted s)).

(** [setState] on a request and the counters.
    [src/src/runtime/serving/RequestScheduler.cpp:55-60 RequestScheduler::setState] *)
Definition setState (counts : list N) (r : RequestStateData) (next : RequestState)
  : list N * RequestStateData :=
  (alter incr (state_index next) (alter decr (state_index (state r)) counts),
   r <| state := next |>).

(** The loop of [rebuildIndex], from position [i].
    [src/src/runtime/serving/RequestScheduler.cpp:64-66 RequestScheduler::rebuildIndex] *)
Fixpoint rebuildIndex_from (i : nat) (rs : list RequestStateData) (index : gmap N nat) : gmap N nat :=
  match rs with
  | [] => index
  | r :: rs =>
      rebuildIndex_from (S i) rs (emplace (request_id r) i index)
  end.
(** [src/src/runtime/serving/RequestScheduler.cpp:62-67 RequestScheduler::rebuildIndex] *)
Definition rebuildIndex (rs : list RequestStateData) : gmap N nat := rebuildIndex_from 0 rs ∅.

(** The loop of [reenqueuePreempted].
    [src/src/runtime/serving/RequestScheduler.cpp:70-81 RequestScheduler::reenqueuePreempted] *)
Fixpoint reenqueue_loop (counts : list N) (rs : list RequestStateData)
  : list N * list RequestStateData :=
  match rs with
  | [] => (counts, [])
  | r :: rs =>
      let '(counts, r) :=
        if decide (state r = Preempted) then
          let '(counts, r) := setState counts r Waiting in
          (counts, r <| tokens_pending := prompt_length r |> <| tokens_decoded := 0%Z |>)
        else (counts, r) in
      let '(counts, rs) := reenqueue_loop counts rs in (counts, r :: rs)
  end.
(** [src/src/runtime/serving/RequestScheduler.cpp:69-82 RequestScheduler::reenqueuePreempted] *)
Definition reenqueuePreempted (s : t) : t :=
  let '(counts, rs) := reenqueue_loop (_stateCount s) (_requests s) in
  s <| _stateCount := counts |> <| _requests := rs |>.

(** The counter of one state. *)
Definition stateCount (s : t) (st : RequestState) : N :=
  default 0%N (_stateCount s !! state_index st).

(** [src/src/runtime/serving/RequestScheduler.cpp:242-244 RequestScheduler::numWaiting] *)
Definition numWaiting (s : t) : N := stateCount s Waiting.
(** [src/src/runtime/serving/RequestScheduler.cpp:246-249 RequestScheduler::numActive] *)
Definition numActive (s : t) : N := u64 (stateCount s Prefilling + stateCount s Decoding).
(** [src/src/runtime/serving/RequestScheduler.cpp:251-253 RequestScheduler::numCompleted] *)
Definition numCompleted (s : t) : N := stateCount s Completed.
(** [src/src/runtime/serving/RequestScheduler.cpp:255-257 RequestScheduler::numPreempted] *)
Definition numPreempted (s : t) : N := stateCount s Preempted.

(** The walk of [promoteWaitingToActive], with its break.
    [src/src/runtime/serving/RequestScheduler.cpp:88-103 RequestScheduler::promoteWaitingToActive] *)
Fixpoint promote_loop (maxActive active : N) (counts : list N) (rs : list RequestStateData)
  : list N * list RequestStateData :=
  match rs with
  | [] => (counts, [])
  | r :: rs' =>
      if (maxActive <=? active)%N then (counts, rs)
      else if decide (state r = Waiting) then
        let '(counts, r) :=
          setState counts r (if (0 <? tokens_pending r)%Z then Prefilling else Decoding) in
        let '(counts, rs') := promote_loop maxActive (incr active) counts rs' in
        (counts, r :: rs')
      else
        let '(counts, rs') := promote_loop maxActive active counts rs' in (counts, r :: rs')
  end.

(** [src/src/runtime/serving/RequestScheduler.cpp:84-103 RequestScheduler::promoteWaitingToActive] *)
Definition promoteWaitingToActive (s : t) : t :=
  let active := numActive s in
  if (_maxActiveRequests s <=? active)%N then s
  else
    let '(counts, rs) := promote_loop (_maxActiveRequests s) active (_stateCount s) (_requests s) in
    s <| _stateCount := counts |> <| _requests := rs |>.

Definition is_active (r : RequestStateData) : bool :=
  match state r with Prefilling | Decoding => true | _ => false end.

Definition slice_of (r : RequestStateData) : C.RequestSlice :=
  C.mkSlice (request_id r) (tokens_pending r) (tokens_decoded r)
    (bool_decide (state r = Decoding)).

(** [src/src/runtime/serving/RequestScheduler.cpp:105-119 RequestScheduler::snapshotActiveSlices] *)
Definition snapshotActiveSlices (s : t) : list C.RequestSlice :=
  slice_of <$> List.filter is_active (_requests s).

(** [src/src/runtime/serving/RequestScheduler.cpp:121-126 RequestScheduler::tick] *)
Definition tick (s : t) : C.BatchSchedule * t :=
  let s := promoteWaitingToActive (reenqueuePreempted s) in
  (C.schedule (_prefillScheduler s) (snapshotActiveSlices s), s).

(** The position [findMut] points to.
    [src/src/runtime/serving/RequestScheduler.cpp:264-267 RequestScheduler::findMut] *)
Definition findMut (s : t) (id : N) : option (nat * RequestStateData) :=
  match _indexById s !! id with
  | None => None
  | Some i => match _requests s !! i with Some r => Some (i, r) | None => None end
  end.

(** [src/src/runtime/serving/RequestScheduler.cpp:259-262 RequestScheduler::find] *)
Definition find (s : t) (id : N) : option RequestStateData := snd <$> findMut s id.

(** One prefill assignment of [commitProgress].
    [src/src/runtime/serving/RequestScheduler.cpp:134-143 RequestScheduler::commitProgress] *)
Definition commitPrefill (s : t) (p : C.PrefillAssignment) : t :=
  match findMut s (C.p_request_id p) with
  | None => s
  | Some (i, r) =>
      if negb (bool_decide (state r = Prefilling)) then s
      else
        let r := r <| tokens_pending := s32 (tokens_pending r - C.chunk_size p) |> in
        if (tokens_pending r <=? 0)%Z then
          let '(counts, r) := setState (_stateCount s) (r <| tokens_pending := 0%Z |>) Decoding in
          s <| _stateCount := counts |> <| _requests := <[i := r]> (_requests s) |>
        else s <| _requests := <[i := r]> (_requests s) |>
  end.

(** One decode assignment of [commitProgress].
    [src/src/runtime/serving/RequestScheduler.cpp:150-161 RequestScheduler::commitProgress] *)
Definition commitDecode (s : t) (id : N) (eos : bool) : t :=
  match findMut s id with
  | None => s
  | Some (i, r) =>
      if negb (bool_decide (state r = Decoding)) then s
      else
        let r := r <| tokens_decoded := s32 (tokens_decoded r + 1) |> in
        if eos || (max_tokens r <=? tokens_decoded r)%Z then
          let '(counts, r) := setState (_stateCount s) r Completed in
          s <| _stateCount := counts |> <| _requests := <[i := r]> (_requests s) |>
            <| _totalCompleted := u64 (_totalCompleted s + 1) |>
        else s <| _requests := <[i := r]> (_requests s) |>
  end.

Fixpoint commitDecodes (s : t) (ds : list N) (eos : list bool) : t :=
  match ds, eos with
  | d :: ds, e :: eos => commitDecodes (commitDecode s d e) ds eos
  | _, _ => s
  end.

(** [reachedEos] holds one byte per decode; a size mismatch counts as no EOS.
    [src/src/runtime/serving/RequestScheduler.cpp:128-162 RequestScheduler::commitProgress] *)
Definition commitProgress (s : t) (executed : C.BatchSchedule) (reachedEos : list N) : t :=
  let s := fold_left commitPrefill (C.prefills executed) s in
  let eosSizesMatch := (length reachedEos =? length (C.decodes executed))%nat in
  let eos :=
    if eosSizesMatch then (fun b => negb (b =? 0)%N) <$> reachedEos
    else replicate (length (C.decodes executed)) false in
  commitDecodes s (C.decodes executed) eos.

(** The scan for the newest active request: position of the running victim.
    [src/src/runtime/serving/RequestScheduler.cpp:167-174 RequestScheduler::preemptOne] *)
Fixpoint find_victim (i : nat) (rs : list RequestStateData) (victim : option (nat * RequestStateData))
  : option (nat * RequestStateData) :=
  match rs with
  | [] => victim
  | r :: rs =>
      find_victim (S i) rs
        (if negb (is_active r) then victim
         else match victim with
              | None => Some (i, r)
              | Some (_, v) => if (admit_seq v <? admit_seq r)%N then Some (i, r) else victim
              end)
  end.

(** [reset()] of a request's optional sequence, on the shared pool.
    [src/src/runtime/serving/RequestScheduler.cpp:184-186 RequestScheduler::preemptOne] *)
Definition resetKv (allocator : option A.t) (kv : option S.t) : option A.t * option S.t :=
  match allocator, kv with
  | Some a, Some q => let '(a, q) := S.reset a q in (Some a, Some q)
  | _, _ => (allocator, kv)
  end.

(** [src/src/runtime/serving/RequestScheduler.cpp:164-188 RequestScheduler::preemptOne] *)
Definition preemptOne (s : t) : N * t :=
  match find_victim 0 (_requests s) None with
  | None => (0%N, s)
  | Some (i, r) =>
      let '(counts, r) := setState (_stateCount s) r Preempted in
      let '(a, kv) := resetKv (_allocator s) (kv_sequence r) in
      let r := r <| ever_preempted := true |> <| kv_sequence := kv |> in
      (request_id r,
       s <| _allocator := a |> <| _stateCount := counts |>
         <| _requests := <[i := r]> (_requests s) |>
         <| _totalPreempted := u64 (_totalPreempted s + 1) |>)
  end.

(** Destruction of one request: its sequence returns its blocks. *)
Definition destroyKv (allocator : option A.t) (r : RequestStateData) : option A.t :=
  match allocator, kv_sequence r with
  | Some a, Some q => Some (S.destroy a q)
  | _, _ => allocator
  end.

Definition is_completed (r : RequestStateData) : bool := bool_decide (state r = Completed).

(** [drainCompleted]; [remove_if] overwrites the completed entries from the
    front and [erase] destroys the tail in order, so their sequences release
    their blocks in storage order.
    [src/src/runtime/serving/RequestScheduler.cpp:190-213 RequestScheduler::drainCompleted] *)
Definition drainCompleted (s : t) : list N * t :=
  let completed := List.filter is_completed (_requests s) in
  let kept := List.filter (fun r => negb (is_completed r)) (_requests s) in
  (request_id <$> completed,
   s <| _allocator := fold_left destroyKv completed (_allocator s) |>
     <| _requests := kept |>
     <| _stateCount := <[state_index Completed := 0%N]> (_stateCount s) |>
     <| _indexById := rebuildIndex kept |>).

(** Run a feed on the sequence of request [id]. *)
Definition feedWith (feed : A.t -> S.t -> bool * A.t * S.t) (s : t) (id : N) : bool * t :=
  match findMut s id with
  | None => (false, s)
  | Some (i, r) =>
      match _allocator s, kv_sequence r with
      | Some a, Some q =>
          let '(ok, a, q) := feed a q in
          (ok, s <| _allocator := Some a |>
                 <| _requests := <[i := r <| kv_sequence := Some q |>]> (_requests s) |>)
      | _, _ => (false, s)
      end
  end.

(** [src/src/runtime/serving/RequestScheduler.cpp:215-231 RequestScheduler::feedPrefillTokens] *)
Definition feedPrefillTokens (s : t) (id : N) (tokens : list Z) : bool * t :=
  feedWith (fun a q => S.appendTokens a q tokens) s id.

(** [src/src/runtime/serving/RequestScheduler.cpp:233-240 RequestScheduler::feedDecodeToken] *)
Definition feedDecodeToken (s : t) (id : N) (token : Z) : bool * t :=
  feedWith (fun a q => S.appendToken a q token) s id.

(** [src/src/runtime/serving/RequestScheduler.hpp:103-120 ServingMetrics] *)
Record ServingMetrics := mkMetrics {
  num_waiting : N;
  num_active : N;
  num_preempted : N;
  num_completed_current : N;
  total_admitted : N;
  total_completed : N;
  total_preempted : N;
  block_pool_total : nat;
  block_pool_free : nat;
  block_pool_used : nat;
  block_pool_utilization : PreemptionPolicy.double;
}.

(** [src/src/runtime/serving/RequestScheduler.cpp:269-289 RequestScheduler::snapshotMetrics] *)
Definition snapshotMetrics (s : t) : ServingMetrics :=
  let m := mkMetrics (numWaiting s) (numActive s) (numPreempted s) (numCompleted s)
             (_totalAdmitted s) (_totalCompleted s) (_totalPreempted s) in
  match _allocator s with
  | None => m 0 0 0 PreemptionPolicy.d0
  | Some a =>
      let total := A.numBlocksTotal a in
      let used := A.numBlocksUsed a in
      m total (A.numBlocksFree a) used
        (if (0 <? total)%nat then
           PreemptionPolicy.ddiv (PreemptionPolicy.double_of_size (N.of_nat used))
             (PreemptionPolicy.double_of_size (N.of_nat total))
         else PreemptionPolicy.d0)
  end.

(** ** Histories of calls *)

Inductive op :=
  | OpAdmit (promptLength maxTokens : Z)
  | OpTick
  | OpCommit (executed : C.BatchSchedule) (reachedEos : list N)
  | OpPreempt
  | OpDrain
  | OpFeedPrefill (id : N) (tokens : list Z)
  | OpFeedDecode (id : N) (token : Z).

Definition run_op (s : t) (o : op) : t :=
  match o with
  | OpAdmit p m => (admitRequest s p m).2
  | OpTick => (tick s).2
  | OpCommit e eos => commitProgress s e eos
  | OpPreempt => (preemptOne s).2
  | OpDrain => (drainCompleted s).2
  | OpFeedPrefill id toks => (feedPrefillTokens s id toks).2
  | OpFeedDecode id tok => (feedDecodeToken s id tok).2
  end.

(** What the caller owes: [int32_t] arguments, chunks as the prefill scheduler
    hands them out (positive), and fewer than 2^64 - 1 admissions overall. *)
Definition op_ok (s : t) (o : op) : Prop :=
  match o with
  | OpAdmit p m => in_s32 p /\ in_s32 m /\ (_nextRequestId s < 2 ^ 64 - 1)%N
  | OpCommit e _ => Forall (fun p => 0 < C.chunk_size p < 2 ^ 31)%Z (C.prefills e)
  | _ => True
  end.

Inductive reachable (budget : Z) (maxActive : N) (alloc : option A.t) : t -> Prop :=
  | ReachInit s : create budget maxActive alloc = Ok s -> reachable budget maxActive alloc s
  | ReachStep s o : reachable budget maxActive alloc s -> op_ok s o ->
      reachable budget maxActive alloc (run_op s o).

End RequestScheduler.
