(* ===== verification/RequestSchedulerProofs.v ===== *)
(** * The request scheduler: invariant and properties

    The invariant [inv] ties the registry, the id index, the per-state counters
    and the shared block pool together; every operation preserves it
    ([run_op_inv]).  The loops of the code are first shown equal to plain list
    functions ([reenq], [promote_first], [advance]); the properties about
    ticks, commits, preemption, draining and progress are stated on those. *)

From Stdlib Require Import Sorted.
From S2P Require Import Prelude BlockAllocator PagedSequence ServingPolicies RequestScheduler.

Module RequestSchedulerProofs.

Import RequestScheduler.

(** ** Counters *)

Definition count_of (st : RequestState) (rs : list RequestStateData) : N :=
  N.of_nat (length (filter (fun r => state r = st) rs)).
Definition counts_of (rs : list RequestStateData) : list N :=
  (fun st => count_of st rs) <$> all_states.

Definition fits (rs : list RequestStateData) : Prop := (N.of_nat (length rs) < 2 ^ 64)%N.

Lemma count_of_app st l k : count_of st (l ++ k) = (count_of st l + count_of st k)%N.
Proof. unfold count_of. rewrite filter_app, length_app. lia. Qed.

Lemma count_of_cons st r l :
  count_of st (r :: l) = ((if decide (state r = st) then 1 else 0) + count_of st l)%N.
Proof. unfold count_of. rewrite filter_cons. case_decide; simpl; lia. Qed.

Lemma count_of_le st rs : (count_of st rs <= N.of_nat (length rs))%N.
Proof. unfold count_of. pose proof (length_filter (fun r => state r = st) rs). lia. Qed.

Lemma decr_succ n : (n + 1 < 2 ^ 64)%N -> decr (n + 1) = n.
Proof.
  intros. unfold decr, u64, wrapU. replace (n + 1 + (2 ^ 64 - 1))%N with (n + 1 * 2 ^ 64)%N by lia.
  rewrite N.Div0.mod_add. apply N.mod_small. lia.
Qed.

Lemma incr_small n : (n + 1 < 2 ^ 64)%N -> incr n = (n + 1)%N.
Proof. intros. unfold incr. by apply u64_small. Qed.

(** [setState] keeps the counters equal to the populations. *)
Lemma setState_counts pre r post next r' :
  fits (pre ++ r :: post) -> state r' = next ->
  (setState (counts_of (pre ++ r :: post)) r next).1 = counts_of (pre ++ r' :: post).
Proof.
  intros Hf Hn. unfold fits in Hf. rewrite length_app in Hf. simpl in Hf.
  unfold setState, counts_of, all_states. cbn [fst fmap list_fmap].
  rewrite !count_of_app, !count_of_cons.
  assert (Hb : forall st, (count_of st pre + count_of st post + 1 < 2 ^ 64)%N).
  { intros st. pose proof (count_of_le st pre). pose proof (count_of_le st post). lia. }
  pose proof (Hb Waiting). pose proof (Hb Prefilling). pose proof (Hb Decoding).
  pose proof (Hb Completed). pose proof (Hb Preempted).
  assert (Hd : forall st, decr (count_of st pre + (1 + count_of st post))%N
                          = (count_of st pre + count_of st post)%N).
  { intros st. rewrite <- (decr_succ (count_of st pre + count_of st post)) by apply Hb.
    f_equal. lia. }
  assert (Hi : forall st, incr (count_of st pre + count_of st post)%N
                          = (count_of st pre + (1 + count_of st post))%N).
  { intros st. rewrite incr_small by apply Hb. lia. }
  assert (Hi' : forall st, incr (count_of st pre + (0 + count_of st post))%N
                          = (count_of st pre + (1 + count_of st post))%N).
  { intros st. rewrite incr_small by (pose proof (Hb st); lia). lia. }
  rewrite Hn. clear Hn Hb Hf. destruct (state r), next; cbn; by rewrite ?Hd, ?Hi, ?Hi'.
Qed.

Lemma setState_counts_insert rs i r next r' :
  fits rs -> rs !! i = Some r -> state r' = next ->
  (setState (counts_of rs) r next).1 = counts_of (<[i := r']> rs).
Proof.
  intros Hf Hi Hn. pose proof (lookup_lt_Some _ _ _ Hi).
  rewrite insert_take_drop by done.
  rewrite <- (take_drop_middle _ _ _ Hi) in Hf at 1 |- * at 1. by apply setState_counts.
Qed.

Lemma counts_of_same rs i r r' :
  rs !! i = Some r -> state r' = state r -> counts_of (<[i := r']> rs) = counts_of rs.
Proof.
  intros Hi Hs. pose proof (lookup_lt_Some _ _ _ Hi). rewrite insert_take_drop by done.
  rewrite <- (take_drop_middle _ _ _ Hi) at 3. unfold counts_of. apply list_fmap_ext.
  intros _ st _. rewrite !count_of_app, !count_of_cons, Hs. done.
Qed.

Lemma stateCount_counts s st :
  _stateCount s = counts_of (_requests s) -> stateCount s st = count_of st (_requests s).
Proof. intros H. unfold stateCount. rewrite H. by destruct st. Qed.

(** ** The loops as list functions *)

Definition reenq (r : RequestStateData) : RequestStateData :=
  if decide (state r = Preempted) then
    r <| state := Waiting |> <| tokens_pending := prompt_length r |> <| tokens_decoded := 0%Z |>
  else r.

Lemma reenqueue_loop_spec rs : forall pre, fits (pre ++ rs) ->
  reenqueue_loop (counts_of (pre ++ rs)) rs = (counts_of (pre ++ (reenq <$> rs)), reenq <$> rs).
Proof.
  induction rs as [|r rs IH]; intros pre Hf; [done|]. cbn [reenqueue_loop fmap list_fmap].
  assert (Hstep : forall r', fits (pre ++ [r'] ++ rs)).
  { intros r'. revert Hf. unfold fits. rewrite !length_app. simpl. lia. }
  assert (Hs : forall r', state r' = Waiting ->
    (setState (counts_of (pre ++ r :: rs)) r Waiting).1 = counts_of ((pre ++ [r']) ++ rs)).
  { intros r' Hr. rewrite <- app_assoc. by apply setState_counts. }
  unfold reenq at 1 3. case_decide as Hd.
  - rewrite (surjective_pairing (setState _ r Waiting)).
    set (r2 := (setState _ r Waiting).2 <| tokens_pending := _ |> <| tokens_decoded := _ |>).
    rewrite (Hs r2 eq_refl), IH by (rewrite <- app_assoc; apply Hstep).
    by rewrite <- app_assoc.
  - replace (pre ++ r :: rs) with ((pre ++ [r]) ++ rs) by (by rewrite <- app_assoc).
    rewrite IH by (rewrite <- app_assoc; apply Hstep). by rewrite <- app_assoc.
Qed.

(** Promotion of one request. *)
Definition promoted (r : RequestStateData) : RequestStateData :=
  r <| state := if (0 <? tokens_pending r)%Z then Prefilling else Decoding |>.

(** The first [k] waiting requests promoted. *)
Fixpoint promote_first (k : nat) (rs : list RequestStateData) : list RequestStateData :=
  match rs with
  | [] => []
  | r :: rs' =>
      if decide (state r = Waiting) then
        match k with
        | 0 => rs
        | S k => promoted r :: promote_first k rs'
        end
      else r :: promote_first k rs'
  end.

Lemma promote_first_0 rs : promote_first 0 rs = rs.
Proof. induction rs as [|r rs IH]; simpl; [done|]. case_decide; [done|]. by rewrite IH. Qed.

Lemma promote_loop_spec maxActive rs : forall active pre,
  (maxActive < 2 ^ 64)%N -> fits (pre ++ rs) -> (active <= maxActive)%N ->
  let rs' := promote_first (N.to_nat (maxActive - active)) rs in
  promote_loop maxActive active (counts_of (pre ++ rs)) rs = (counts_of (pre ++ rs'), rs').
Proof.
  induction rs as [|r rs IH]; intros active pre Hm Hf Ha; [done|]. cbn [promote_loop].
  destruct (N.leb_spec maxActive active).
  { replace (N.to_nat (maxActive - active)) with 0 by lia. by rewrite promote_first_0. }
  assert (Hstep : forall r', fits ((pre ++ [r']) ++ rs)).
  { intros r'. revert Hf. unfold fits. rewrite !length_app. simpl. lia. }
  cbn [promote_first]. case_decide as Hd.
  - destruct (N.to_nat (maxActive - active)) as [|k] eqn:Ek; [lia|].
    rewrite (surjective_pairing (setState _ r _)).
    rewrite (setState_counts pre r rs (if (0 <? tokens_pending r)%Z then Prefilling else Decoding)
      (promoted r) Hf eq_refl).
    change (pre ++ promoted r :: rs) with (pre ++ [promoted r] ++ rs).
    rewrite app_assoc, IH by (try done; unfold incr; rewrite u64_small; lia).
    unfold incr. rewrite u64_small by lia.
    replace (N.to_nat (maxActive - (active + 1))) with k by lia.
    by rewrite <- app_assoc.
  - replace (pre ++ r :: rs) with ((pre ++ [r]) ++ rs) by (by rewrite <- app_assoc).
    rewrite IH by done. by rewrite <- app_assoc.
Qed.

(** ** The sequences of the registry and the shared pool *)

Definition seqs (rs : list RequestStateData) : list S.t := omap kv_sequence rs.

(** Without a pool no request has a sequence; with one every request has a
    well-formed sequence and the pool's live blocks are exactly those of the
    sequences, each block in one sequence. *)
Definition kv_ok (allocator : option A.t) (rs : list RequestStateData) : Prop :=
  match allocator with
  | None => Forall (fun r => kv_sequence r = None) rs
  | Some a =>
      A.wf a /\ Forall (fun r => is_Some (kv_sequence r)) rs /\ Forall (S.wf a) (seqs rs) /\
      owned a (concat (S._blockTable <$> seqs rs))
  end.

Lemma concat_perm {X} (l k : list (list X)) : l ≡ₚ k -> concat l ≡ₚ concat k.
Proof.
  induction 1; simpl; [done| | |by etrans].
  - by f_equiv.
  - rewrite !app_assoc. f_equiv. apply Permutation_app_comm.
Qed.

#[global] Instance kv_ok_Proper a : Proper ((≡ₚ) ==> iff) (kv_ok a).
Proof.
  intros l k Hp. unfold kv_ok. destruct a as [a|]; [|by rewrite Hp].
  assert (Hs : seqs l ≡ₚ seqs k) by (unfold seqs; by rewrite Hp).
  assert (Ht : concat (S._blockTable <$> seqs l) ≡ₚ concat (S._blockTable <$> seqs k))
    by (apply concat_perm; by rewrite Hs).
  by rewrite Ht, Hs, Hp.
Qed.

(** One request in focus. *)
Lemma kv_ok_cons a r rs :
  kv_ok (Some a) (r :: rs) <->
  exists q, kv_sequence r = Some q /\ S.system a q (seqs rs) /\
    Forall (fun r => is_Some (kv_sequence r)) rs.
Proof.
  unfold kv_ok, S.system, seqs. cbn [omap list_omap]. rewrite Forall_cons. split.
  - intros (Hwf & [[q Hq] Hs] & Hf & Ho). rewrite Hq in *. exists q.
    apply Forall_cons in Hf as [??]. auto 10.
  - intros (q & Hq & (Hwf & Hqw & Hf & Ho) & Hs). rewrite Hq.
    split; [done|]. split; [eauto|]. split; [by constructor|done].
Qed.

(** Replace a request by one whose sequence evolved next to the others. *)
Lemma kv_ok_insert a a' rs i r r' q q' :
  kv_ok (Some a) rs -> rs !! i = Some r -> kv_sequence r = Some q -> kv_sequence r' = Some q' ->
  (forall os, S.system a q os -> S.system a' q' os) ->
  kv_ok (Some a') (<[i := r']> rs).
Proof.
  intros Hk Hi Hq Hq' Hstep. destruct (insert_perm rs i r r' Hi) as (k & Hp & Hp').
  rewrite Hp in Hk. rewrite Hp'. apply kv_ok_cons in Hk as (q0 & Hq0 & Hsys & Hs).
  simplify_eq. apply kv_ok_cons. eauto.
Qed.

(** Replace a request, keeping its sequence. *)
Lemma kv_ok_same a rs i r r' :
  kv_ok a rs -> rs !! i = Some r -> kv_sequence r' = kv_sequence r -> kv_ok a (<[i := r']> rs).
Proof.
  intros Hk Hi Hq. destruct (insert_perm rs i r r' Hi) as (k & Hp & Hp').
  rewrite Hp in Hk. rewrite Hp'. destruct a as [a|]; simpl in *.
  - apply kv_ok_cons in Hk as (q & ? & ? & ?). apply (kv_ok_cons a). exists q.
    by rewrite Hq.
  - apply Forall_cons in Hk as [??]. constructor; [by rewrite Hq|done].
Qed.

(** The pool invariant depends on the requests' sequences only. *)
Lemma kv_ok_ext a rs rs' :
  kv_sequence <$> rs' = kv_sequence <$> rs -> kv_ok a rs -> kv_ok a rs'.
Proof.
  intros Hf. assert (Hs : forall l, seqs l = omap id (kv_sequence <$> l)).
  { intros l. unfold seqs. induction l as [|r l IH]; [done|]. cbn.
    destruct (kv_sequence r); simpl; [f_equal|]; apply IH. }
  assert (Hall : forall P : option S.t -> Prop,
    Forall (fun r => P (kv_sequence r)) rs -> Forall (fun r => P (kv_sequence r)) rs').
  { intros P HP. apply (Forall_fmap kv_sequence P). rewrite Hf. by apply Forall_fmap. }
  unfold kv_ok. destruct a as [a|].
  - rewrite !Hs, Hf. intros (? & H & ?). apply (Hall is_Some) in H. auto.
  - apply (Hall (fun q => q = None)).
Qed.

Lemma reset_system a q os :
  S.system a q os -> S.system (S.reset a q).1 (S.reset a q).2 os.
Proof.
  intros (Hwf & Hq & Hos & Ho).
  destruct (S.reset_owned _ _ _ Hwf Hq Ho) as (Ho' & Hwf' & Hq').
  split; [done|]. split; [done|]. split; [|done].
  unfold S.reset, S.releaseAllBlocks in *. rewrite (S.wf_bound _ _ Hq) in *. simpl in *.
  rewrite Forall_forall in *. intros o Hin. apply S.wf_release_list; [by apply Hos|].
  intros id Hid Hid'. pose proof (owned_nodup _ _ Ho) as (_ & Hd & _)%NoDup_app.
  eapply Hd; [done|]. apply list_elem_of_In, in_concat. exists (S._blockTable o).
  split; [apply in_map|]; by apply list_elem_of_In.
Qed.

(** A fresh sequence joins. *)
Lemma kv_ok_app_fresh alloc rs r :
  kv_ok alloc rs ->
  kv_sequence r = match alloc with Some _ => Some S.create | None => None end ->
  kv_ok alloc (rs ++ [r]).
Proof.
  intros Hk Hr. rewrite <- Permutation_cons_append. destruct alloc as [a|].
  - apply kv_ok_cons. exists S.create. destruct Hk as (Hwf & Hs & Hf & Ho).
    split; [done|]. split; [|done]. split; [done|]. split; [by apply S.create_seq_wf|]. done.
  - constructor; done.
Qed.

(** Destroying some requests' sequences leaves the others' blocks. *)
Lemma kv_ok_destroy cs : forall alloc rs,
  kv_ok alloc (cs ++ rs) -> kv_ok (fold_left destroyKv cs alloc) rs.
Proof.
  induction cs as [|c cs IH]; intros alloc rs Hk; [done|]. simpl. apply IH.
  destruct alloc as [a|]; simpl in *.
  - apply kv_ok_cons in Hk as (q & Hq & Hsys & Hs). rewrite Hq.
    destruct (reset_system _ _ _ Hsys) as (? & _ & ? & ?).
    pose proof Hsys as (? & ? & ? & Ho).
    destruct (S.reset_owned _ _ _ H2 H3 Ho) as (? & ? & _). unfold S.destroy. simpl in *. auto.
  - by apply Forall_cons in Hk as [??].
Qed.

Lemma filter_partition (l : list RequestStateData) (p : RequestStateData -> bool) :
  l ≡ₚ List.filter p l ++ List.filter (fun r => negb (p r)) l.
Proof.
  induction l as [|r l IH]; [done|]. simpl. destruct (p r); simpl.
  - by f_equiv.
  - rewrite IH at 1. apply Permutation_middle.
Qed.

(** ** The id index *)

Definition index_ok (index : gmap N nat) (rs : list RequestStateData) : Prop :=
  forall id i, index !! id = Some i <-> exists r, rs !! i = Some r /\ request_id r = id.

Definition ids (rs : list RequestStateData) : list N := request_id <$> rs.

Lemma ids_lookup_inj rs i j r r' :
  NoDup (ids rs) -> rs !! i = Some r -> rs !! j = Some r' -> request_id r = request_id r' -> i = j.
Proof.
  intros Hn Hi Hj He. apply (NoDup_lookup (ids rs) i j (request_id r)); [done| |];
    unfold ids; rewrite list_lookup_fmap; [by rewrite Hi|by rewrite Hj, He].
Qed.

Lemma rebuildIndex_from_spec rs : forall pre index,
  NoDup (ids (pre ++ rs)) -> index_ok index pre ->
  index_ok (rebuildIndex_from (length pre) rs index) (pre ++ rs).
Proof.
  induction rs as [|r rs IH]; intros pre index Hn Hi; simpl; [by rewrite app_nil_r|].
  replace (pre ++ r :: rs) with ((pre ++ [r]) ++ rs) in * by (by rewrite <- app_assoc).
  replace (S (length pre)) with (length (pre ++ [r])) by (rewrite length_app; simpl; lia).
  apply IH; [done|]. clear IH.
  assert (Hfresh : index !! request_id r = None).
  { destruct (index !! request_id r) as [j|] eqn:E; [|done].
    apply Hi in E as (r' & Hj & He). pose proof (lookup_lt_Some _ _ _ Hj).
    assert (j = length pre); [|lia].
    eapply (ids_lookup_inj _ _ _ r' r Hn); [| |done].
    - by rewrite <- app_assoc, lookup_app_l.
    - rewrite <- app_assoc. by apply list_lookup_middle. }
  rewrite emplace_fresh by done. intros id i. rewrite lookup_insert_Some, (Hi id i). split.
  - intros [[<- <-]|[Hne (r' & Hr & He)]].
    + exists r. by rewrite list_lookup_middle.
    + exists r'. split; [|done]. rewrite lookup_app_l; [done|by eapply lookup_lt_Some].
  - intros (r' & Hr & <-). apply lookup_app_Some in Hr as [Hr|[Hge Hr]].
    + right. split; [|eauto]. intros He.
      assert (index !! request_id r' = Some i) by (apply Hi; eauto). congruence.
    + apply list_lookup_singleton_Some in Hr as [? <-]. left. split; [done|lia].
Qed.

Lemma rebuildIndex_spec rs : NoDup (ids rs) -> index_ok (rebuildIndex rs) rs.
Proof.
  intros Hn. apply (rebuildIndex_from_spec rs [] ∅ Hn).
  intros id i. rewrite lookup_empty, lookup_nil. naive_solver.
Qed.

Lemma index_ok_same index rs rs' : ids rs' = ids rs -> index_ok index rs -> index_ok index rs'.
Proof.
  intros He Hi id i. rewrite (Hi id i).
  assert (Hl : ids rs' !! i = ids rs !! i) by (by rewrite He).
  unfold ids in Hl. rewrite !list_lookup_fmap in Hl.
  destruct (rs !! i), (rs' !! i); simpl in *; naive_solver.
Qed.

(** ** The invariant *)

Definition req_ok (r : RequestStateData) : Prop :=
  (0 < prompt_length r < 2 ^ 31)%Z /\ (0 < max_tokens r < 2 ^ 31)%Z /\
  match state r with
  | Waiting => tokens_pending r = prompt_length r /\ tokens_decoded r = 0%Z
  | Prefilling => (0 < tokens_pending r <= prompt_length r)%Z /\ tokens_decoded r = 0%Z
  | Decoding => tokens_pending r = 0%Z /\ (0 <= tokens_decoded r < max_tokens r)%Z
  | Completed => tokens_pending r = 0%Z /\ (0 < tokens_decoded r <= max_tokens r)%Z
  | Preempted => (0 <= tokens_pending r <= prompt_length r)%Z /\
                 (0 <= tokens_decoded r < max_tokens r)%Z
  end.

(** What holds of one registered request; [next] is the next id to hand out. *)
Definition entry_ok (next : N) (r : RequestStateData) : Prop :=
  admit_seq r = request_id r /\ (0 < request_id r < next)%N /\ req_ok r.

Definition active_count (rs : list RequestStateData) : N :=
  (count_of Prefilling rs + count_of Decoding rs)%N.

(** Requests admitted and not yet completed. *)
Definition live_count (rs : list RequestStateData) : N :=
  N.of_nat (length (List.filter (fun r => negb (is_completed r)) rs)).

Lemma live_count_cons r l :
  live_count (r :: l) = ((if is_completed r then 0 else 1) + live_count l)%N.
Proof. unfold live_count. simpl. destruct (is_completed r); simpl length; lia. Qed.

Lemma live_count_app l k : live_count (l ++ k) = (live_count l + live_count k)%N.
Proof. unfold live_count. rewrite List.filter_app, length_app. lia. Qed.

Lemma live_count_insert rs i r r' :
  rs !! i = Some r ->
  (live_count (<[i := r']> rs) + (if is_completed r then 0 else 1) =
   live_count rs + (if is_completed r' then 0 else 1))%N.
Proof.
  intros Hi. rewrite insert_take_drop by (by eapply lookup_lt_Some).
  rewrite <- (take_drop_middle _ _ _ Hi) at 3.
  rewrite !live_count_app, !live_count_cons. lia.
Qed.

Lemma live_count_fmap f rs :
  (forall r, is_completed (f r) = is_completed r) -> live_count (f <$> rs) = live_count rs.
Proof.
  intros Hf. induction rs as [|r rs IH]; [done|]. cbn [fmap list_fmap].
  rewrite !live_count_cons, Hf. by f_equal.
Qed.

Record inv (s : t) : Prop := {
  inv_budget : (0 < _prefillScheduler s < 2 ^ 31)%Z;
  inv_max : (0 < _maxActiveRequests s < 2 ^ 64)%N;
  inv_next : (0 < _nextRequestId s < 2 ^ 64)%N;
  inv_seq : _nextAdmitSeq s = _nextRequestId s;
  inv_sorted : StronglySorted N.lt (ids (_requests s));
  inv_entries : Forall (entry_ok (_nextRequestId s)) (_requests s);
  inv_index : index_ok (_indexById s) (_requests s);
  inv_counts : _stateCount s = counts_of (_requests s);
  inv_active : (active_count (_requests s) <= _maxActiveRequests s)%N;
  inv_kv : kv_ok (_allocator s) (_requests s);
  inv_admitted : _nextRequestId s = (_totalAdmitted s + 1)%N;
  inv_conserved : _totalAdmitted s = (_totalCompleted s + live_count (_requests s))%N;
}.

Lemma sorted_NoDup l : StronglySorted N.lt l -> NoDup l.
Proof.
  induction 1 as [|x l Hs IH Hx]; constructor; [|done].
  intros Hin. rewrite Forall_forall in Hx. specialize (Hx _ Hin). lia.
Qed.

Lemma sorted_length l : forall n m,
  StronglySorted N.lt l -> Forall (fun x => m < x < n)%N l -> (m < n)%N ->
  (N.of_nat (length l) + m < n)%N.
Proof.
  induction l as [|x l IH]; intros n m Hs Hf Hm; simpl; [lia|].
  inversion Hs as [|? ? Hs' Hx]; subst. apply Forall_cons in Hf as [Hxn Hf].
  assert (Hl : Forall (fun y => x < y < n)%N l).
  { apply Forall_forall. intros y Hy. rewrite Forall_forall in Hx, Hf.
    split; [by apply Hx|by apply Hf]. }
  specialize (IH n x Hs' Hl). lia.
Qed.

Lemma inv_fits s : inv s -> (N.of_nat (length (_requests s)) < _nextRequestId s)%N.
Proof.
  intros []. assert (Hf : Forall (fun x => 0 < x < _nextRequestId s)%N (ids (_requests s))).
  { unfold ids. apply Forall_fmap. eapply Forall_impl; [done|]. intros r (_ & ? & _). done. }
  pose proof (sorted_length _ _ _ inv_sorted0 Hf). unfold ids in *. rewrite length_fmap in *. lia.
Qed.

Lemma inv_fits' s : inv s -> fits (_requests s).
Proof. intros H. pose proof (inv_fits s H). pose proof (inv_next s H). unfold fits. lia. Qed.

Lemma inv_nodup s : inv s -> NoDup (ids (_requests s)).
Proof. intros []. by apply sorted_NoDup. Qed.

Lemma active_count_le rs : (active_count rs <= N.of_nat (length rs))%N.
Proof.
  unfold active_count. induction rs as [|r rs IH]; [done|]. rewrite !count_of_cons.
  repeat case_decide; simpl length; try lia. congruence.
Qed.

Lemma active_count_app l k : active_count (l ++ k) = (active_count l + active_count k)%N.
Proof. unfold active_count. rewrite !count_of_app. lia. Qed.

Lemma active_count_cons r l :
  active_count (r :: l) = ((if is_active r then 1 else 0) + active_count l)%N.
Proof.
  unfold active_count, is_active. rewrite !count_of_cons. destruct (state r); simpl; lia.
Qed.

Lemma active_count_filter rs :
  N.of_nat (length (List.filter is_active rs)) = active_count rs.
Proof.
  induction rs as [|r rs IH]; [done|]. rewrite active_count_cons. simpl.
  destruct (is_active r); simpl length; lia.
Qed.

Lemma active_count_insert rs i r r' :
  rs !! i = Some r ->
  (active_count (<[i := r']> rs) + (if is_active r then 1 else 0) =
   active_count rs + (if is_active r' then 1 else 0))%N.
Proof.
  intros Hi. rewrite insert_take_drop by (by eapply lookup_lt_Some).
  rewrite <- (take_drop_middle _ _ _ Hi) at 3.
  rewrite !active_count_app, !active_count_cons. lia.
Qed.

Lemma numActive_spec s : inv s -> numActive s = active_count (_requests s).
Proof.
  intros Hi. unfold numActive. rewrite !stateCount_counts by apply Hi.
  apply u64_small. pose proof (inv_active s Hi). pose proof (inv_max s Hi).
  unfold active_count in *. lia.
Qed.

Lemma findMut_spec s id i r :
  inv s -> findMut s id = Some (i, r) <-> _requests s !! i = Some r /\ request_id r = id.
Proof.
  intros Hi. unfold findMut. pose proof (inv_index s Hi id) as Hx.
  destruct (_indexById s !! id) as [j|].
  - destruct (proj1 (Hx j) eq_refl) as (r' & Hj & He'). rewrite Hj. split.
    + intros. by simplify_eq.
    + intros [Hr He].
      assert (j = i) as -> by (eapply ids_lookup_inj; eauto using inv_nodup; congruence).
      by simplify_eq.
  - split; [done|]. intros [Hr He]. assert (None = Some i) as [=]. apply Hx. eauto.
Qed.

(** The fields no operation but [create] and [admitRequest] writes. *)
Definition frame (s s' : t) : Prop :=
  _prefillScheduler s' = _prefillScheduler s /\ _maxActiveRequests s' = _maxActiveRequests s /\
  _nextRequestId s' = _nextRequestId s /\ _nextAdmitSeq s' = _nextAdmitSeq s /\
  _totalAdmitted s' = _totalAdmitted s.

(** One request updated in place. *)
Lemma inv_insert s s' i r r' :
  inv s -> frame s s' -> _requests s !! i = Some r ->
  _requests s' = <[i := r']> (_requests s) -> _indexById s' = _indexById s ->
  request_id r' = request_id r -> admit_seq r' = admit_seq r -> req_ok r' ->
  _stateCount s' = counts_of (<[i := r']> (_requests s)) ->
  (is_active r' = true -> is_active r = true) ->
  kv_ok (_allocator s') (<[i := r']> (_requests s)) ->
  (_totalCompleted s' + (if is_completed r then 1 else 0) =
   _totalCompleted s + (if is_completed r' then 1 else 0))%N ->
  inv s'.
Proof.
  intros [] (F1 & F2 & F3 & F4 & F5) Hi Hrs Hx Hid Hseq Hok Hc Hact Hkv Htot.
  assert (Hids : ids (<[i := r']> (_requests s)) = ids (_requests s)).
  { unfold ids. rewrite list_fmap_insert, Hid. apply list_insert_id.
    by rewrite list_lookup_fmap, Hi. }
  split; rewrite ?F1, ?F2, ?F3, ?F4, ?F5, ?Hrs, ?Hids, ?Hx; try done.
  - apply Forall_insert; [done|]. rewrite Forall_lookup in inv_entries0.
    destruct (inv_entries0 _ _ Hi) as (? & ? & _). unfold entry_ok.
    rewrite Hid, Hseq. done.
  - by apply (index_ok_same _ (_requests s)).
  - pose proof (active_count_insert _ _ _ r' Hi). destruct (is_active r), (is_active r'); lia.
  - pose proof (live_count_insert _ _ _ r' Hi). destruct (is_completed r), (is_completed r'); lia.
Qed.

(** The whole registry rewritten, entry by entry. *)
Lemma inv_rewrite s s' :
  inv s -> frame s s' -> _indexById s' = _indexById s -> _allocator s' = _allocator s ->
  ids (_requests s') = ids (_requests s) ->
  kv_sequence <$> _requests s' = kv_sequence <$> _requests s ->
  Forall (entry_ok (_nextRequestId s)) (_requests s') ->
  _stateCount s' = counts_of (_requests s') ->
  (active_count (_requests s') <= _maxActiveRequests s)%N ->
  _totalCompleted s' = _totalCompleted s -> live_count (_requests s') = live_count (_requests s) ->
  inv s'.
Proof.
  intros [] (F1 & F2 & F3 & F4 & F5) Hx Ha Hids Hkv He Hc Hact Ht Hl.
  split; rewrite ?F1, ?F2, ?F3, ?F4, ?F5, ?Hids, ?Hx, ?Ha, ?Ht, ?Hl; try done.
  - by apply (index_ok_same _ (_requests s)).
  - by apply (kv_ok_ext _ (_requests s)).
Qed.

(** ** Admission *)

Lemma admit_inv s p m :
  inv s -> op_ok s (OpAdmit p m) -> inv (admitRequest s p m).2.
Proof.
  intros Hi (Hp & Hm & Hn). unfold admitRequest.
  destruct ((p <=? 0)%Z || (m <=? 0)%Z) eqn:E; [done|]. bool_to_prop.
  pose proof (inv_fits s Hi). pose proof Hi as [].
  set (r := mkRequest _ _ _ _ _ _ _ _ _).
  rewrite (u64_small (_nextRequestId s + 1)), (u64_small (_nextAdmitSeq s + 1)) by lia.
  assert (Hfresh : _indexById s !! _nextRequestId s = None).
  { destruct (_indexById s !! _) as [i|] eqn:Ei; [|done].
    apply inv_index0 in Ei as (r' & Hr & He).
    rewrite Forall_lookup in inv_entries0. destruct (inv_entries0 _ _ Hr) as (_ & ? & _). lia. }
  assert (Hsorted : StronglySorted N.lt (ids (_requests s ++ [r]))).
  { unfold ids. rewrite fmap_app. simpl.
    assert (Hlt : Forall (fun x => x < _nextRequestId s)%N (ids (_requests s))).
    { unfold ids. apply Forall_fmap. eapply Forall_impl; [done|]. intros x (_ & ? & _). simpl. lia. }
    clear -inv_sorted0 Hlt. unfold ids in *. induction inv_sorted0; simpl.
    - constructor; constructor.
    - apply Forall_cons in Hlt as [??]. constructor; [by apply IHinv_sorted0|].
      apply Forall_app. split; [done|]. by constructor. }
  split; simpl; rewrite ?(emplace_fresh _ _ _ Hfresh); try done; try lia.
  - apply Forall_app. split.
    + eapply Forall_impl; [done|]. intros x (? & ? & ?). split; [done|]. split; [lia|done].
    + constructor; [|done]. unfold entry_ok, req_ok. subst r. simpl. unfold in_s32 in *. lia.
  - intros id i. rewrite lookup_insert_Some, (inv_index0 id i). split.
    + intros [[<- <-]|[Hne (r' & Hr & He)]].
      * exists r. by rewrite list_lookup_middle.
      * exists r'. split; [|done]. rewrite lookup_app_l; [done|by eapply lookup_lt_Some].
    + intros (r' & Hr & <-). apply lookup_app_Some in Hr as [Hr|[Hge Hr]].
      * right. split; [|eauto]. rewrite Forall_lookup in inv_entries0.
        destruct (inv_entries0 _ _ Hr) as (_ & ? & _). simpl. lia.
      * apply list_lookup_singleton_Some in Hr as [? <-]. left. split; [done|lia].
  - rewrite inv_counts0. unfold counts_of, all_states. cbn [fmap list_fmap].
    rewrite !count_of_app, !count_of_cons. cbn.
    rewrite incr_small by (pose proof (count_of_le Waiting (_requests s)); lia).
    by rewrite !N.add_0_r.
  - rewrite active_count_app. change (active_count [r]) with 0%N. lia.
  - by apply kv_ok_app_fresh.
  - rewrite u64_small by lia. lia.
  - rewrite u64_small, live_count_app by lia. change (live_count [r]) with 1%N. lia.
Qed.

(** ** Ticks *)

Lemma reenqueue_spec s : inv s ->
  reenqueuePreempted s =
    s <| _stateCount := counts_of (reenq <$> _requests s) |> <| _requests := reenq <$> _requests s |>.
Proof.
  intros Hi. unfold reenqueuePreempted. rewrite (inv_counts s Hi).
  pose proof (reenqueue_loop_spec (_requests s) [] (inv_fits' s Hi)) as H. simpl in H.
  by rewrite H.
Qed.

Lemma reenq_entry n r : entry_ok n r -> entry_ok n (reenq r).
Proof.
  unfold entry_ok, reenq, req_ok. case_decide as Hd; [|done]. rewrite Hd. simpl. lia.
Qed.

Lemma reenq_active r : is_active (reenq r) = is_active r.
Proof. unfold reenq, is_active. case_decide as Hd; [|done]. simpl. by rewrite Hd. Qed.

Lemma active_count_fmap f rs :
  (forall r, is_active (f r) = is_active r) -> active_count (f <$> rs) = active_count rs.
Proof.
  intros Hf. induction rs as [|r rs IH]; [done|]. cbn [fmap list_fmap].
  rewrite !active_count_cons, Hf. by f_equal.
Qed.

Lemma reenqueue_inv s : inv s -> inv (reenqueuePreempted s).
Proof.
  intros Hi. rewrite (reenqueue_spec s Hi). apply (inv_rewrite s); try done; simpl.
  - unfold ids. rewrite <- list_fmap_compose. apply list_fmap_ext. intros _ r _. simpl.
    unfold reenq. by case_decide.
  - rewrite <- list_fmap_compose. apply list_fmap_ext. intros _ r _. simpl.
    unfold reenq. by case_decide.
  - apply Forall_fmap. eapply Forall_impl; [apply Hi|]. intros r. apply reenq_entry.
  - rewrite active_count_fmap by apply reenq_active. apply Hi.
  - apply live_count_fmap. intros r. unfold reenq, is_completed. case_decide as Hd; [|done].
    simpl. by rewrite Hd.
Qed.

Lemma promote_first_ids k rs : ids (promote_first k rs) = ids rs.
Proof.
  revert k. induction rs as [|r rs IH]; intros k; [done|]. simpl. case_decide; [|simpl; by f_equal].
  destruct k; [done|]. simpl. by f_equal.
Qed.

Lemma promote_first_kv k rs : kv_sequence <$> promote_first k rs = kv_sequence <$> rs.
Proof.
  revert k. induction rs as [|r rs IH]; intros k; [done|]. simpl. case_decide; [|simpl; by f_equal].
  destruct k; [done|]. simpl. by f_equal.
Qed.

Lemma promoted_entry n r : entry_ok n r -> state r = Waiting -> entry_ok n (promoted r).
Proof.
  intros (? & ? & H1 & H2 & H3) Hw. unfold entry_ok, req_ok, promoted. rewrite Hw in H3. simpl.
  destruct (Z.ltb_spec 0 (tokens_pending r)); lia.
Qed.

Lemma promote_first_entries n k rs :
  Forall (entry_ok n) rs -> Forall (entry_ok n) (promote_first k rs).
Proof.
  intros H. revert k. induction H as [|r rs Hr H IH]; intros k; [constructor|]. simpl.
  case_decide; [|by constructor]. destruct k; [by constructor|].
  constructor; [by apply promoted_entry|done].
Qed.

Lemma promoted_active r : is_active (promoted r) = true.
Proof. unfold promoted, is_active. simpl. by destruct (0 <? tokens_pending r)%Z. Qed.

Lemma promote_first_live k rs : live_count (promote_first k rs) = live_count rs.
Proof.
  revert k. induction rs as [|r rs IH]; intros k; [done|]. cbn [promote_first].
  case_decide as Hd; [|by rewrite !live_count_cons, IH].
  destruct k; [done|]. rewrite !live_count_cons, IH. f_equal.
  unfold is_completed, promoted. simpl. rewrite Hd. by destruct (0 <? tokens_pending r)%Z.
Qed.

(** Promotion fills the free slots, as far as there are waiting requests. *)
Lemma promote_first_active k rs :
  active_count (promote_first k rs) = (active_count rs + N.min (N.of_nat k) (count_of Waiting rs))%N.
Proof.
  revert k. induction rs as [|r rs IH]; intros k.
  { unfold active_count, count_of. simpl. lia. }
  cbn [promote_first]. rewrite (count_of_cons Waiting), (active_count_cons r).
  unfold is_active. case_decide as Hd.
  - rewrite Hd. destruct k; [rewrite active_count_cons; unfold is_active; rewrite Hd; lia|].
    rewrite active_count_cons, promoted_active, IH. lia.
  - rewrite active_count_cons, IH. unfold is_active. destruct (state r); lia.
Qed.

Definition free_slots (s : t) : nat :=
  N.to_nat (_maxActiveRequests s - active_count (_requests s)).

Lemma promote_spec s : inv s ->
  promoteWaitingToActive s =
    s <| _stateCount := counts_of (promote_first (free_slots s) (_requests s)) |>
      <| _requests := promote_first (free_slots s) (_requests s) |>.
Proof.
  intros Hi. unfold promoteWaitingToActive. rewrite (numActive_spec s Hi).
  destruct (N.leb_spec (_maxActiveRequests s) (active_count (_requests s))) as [Hle|Hlt].
  - unfold free_slots. replace (N.to_nat _) with 0 by lia. rewrite promote_first_0.
    rewrite <- (inv_counts s Hi). by destruct s.
  - pose proof (promote_loop_spec (_maxActiveRequests s) (_requests s)
      (active_count (_requests s)) [] (proj2 (inv_max s Hi)) (inv_fits' s Hi)) as H.
    cbn [app] in H. rewrite (inv_counts s Hi), H by (pose proof (inv_active s Hi); lia). done.
Qed.

Lemma promote_inv s : inv s -> inv (promoteWaitingToActive s).
Proof.
  intros Hi. rewrite (promote_spec s Hi). apply (inv_rewrite s); try done; simpl.
  - apply promote_first_ids.
  - apply promote_first_kv.
  - apply promote_first_entries, Hi.
  - rewrite promote_first_active. unfold free_slots.
    pose proof (inv_active s Hi). lia.
  - apply promote_first_live.
Qed.

(** The registry a tick leaves behind. *)
Definition ticked (s : t) : list RequestStateData :=
  promote_first (free_slots s) (reenq <$> _requests s).

Lemma tick_state s : inv s ->
  (tick s).2 = s <| _stateCount := counts_of (ticked s) |> <| _requests := ticked s |> /\
  (tick s).1 = C.schedule (_prefillScheduler s) (slice_of <$> List.filter is_active (ticked s)).
Proof.
  intros Hi. unfold tick, snapshotActiveSlices. simpl.
  pose proof (reenqueue_inv s Hi) as Hi1. rewrite (promote_spec _ Hi1).
  assert (Hs : free_slots (reenqueuePreempted s) = free_slots s).
  { rewrite (reenqueue_spec s Hi). unfold free_slots. simpl.
    by rewrite active_count_fmap by apply reenq_active. }
  rewrite Hs. rewrite (reenqueue_spec s Hi). done.
Qed.

Lemma tick_inv s : inv s -> inv (tick s).2.
Proof. intros Hi. unfold tick. simpl. by apply promote_inv, reenqueue_inv. Qed.

(** ** What a tick schedules *)

Definition active_slices (rs : list RequestStateData) : list C.RequestSlice :=
  slice_of <$> List.filter is_active rs.

Lemma elem_of_active_slices rs x :
  x ∈ active_slices rs <-> exists r, r ∈ rs /\ is_active r = true /\ x = slice_of r.
Proof.
  unfold active_slices. rewrite list_elem_of_fmap. split.
  - intros (r & -> & Hr). apply list_elem_of_In, filter_In in Hr as [Hr ?].
    exists r. by rewrite list_elem_of_In.
  - intros (r & Hr & ? & ->). exists r. split; [done|].
    apply list_elem_of_In, filter_In. by rewrite <- list_elem_of_In.
Qed.

Lemma active_slices_ids rs : sublist (C.request_id <$> active_slices rs) (ids rs).
Proof.
  unfold active_slices, ids. induction rs as [|r rs IH]; [done|]. simpl.
  destruct (is_active r); simpl; [by apply sublist_skip|by apply sublist_cons].
Qed.

Lemma sublist_NoDup {X} (l k : list X) : sublist l k -> NoDup k -> NoDup l.
Proof.
  induction 1 as [|x l k Hs IH|x l k Hs IH]; intros Hn; [done| |].
  - apply NoDup_cons in Hn as [Hx Hn]. constructor; [|auto].
    intros Hin. apply Hx. by eapply elem_of_submseteq, sublist_submseteq.
  - apply NoDup_cons in Hn as [_ Hn]. auto.
Qed.

Lemma decoding_ids_sublist l : sublist (C.decoding_ids l) (C.request_id <$> l).
Proof.
  unfold C.decoding_ids. induction l as [|x l IH]; [done|]. simpl.
  destruct (C.is_decoding x); simpl; [by apply sublist_skip|by apply sublist_cons].
Qed.

Lemma elem_of_decoding_ids l id :
  id ∈ C.decoding_ids l <-> exists x, x ∈ l /\ C.is_decoding x = true /\ C.request_id x = id.
Proof.
  unfold C.decoding_ids. rewrite list_elem_of_fmap. split.
  - intros (x & -> & Hx). apply list_elem_of_In, filter_In in Hx as [Hx ?].
    exists x. by rewrite list_elem_of_In.
  - intros (x & Hx & ? & <-). exists x. split; [done|].
    apply list_elem_of_In, filter_In. by rewrite <- list_elem_of_In.
Qed.

(** The work left in the active requests, in tokens of the next batches. *)
Lemma active_demand_pos rs next r :
  Forall (entry_ok next) rs -> r ∈ rs -> is_active r = true ->
  (0 < Z.of_nat (length (C.decoding_ids (active_slices rs))) + C.demand (active_slices rs))%Z.
Proof.
  intros Hf Hr Ha. apply list_elem_of_split in Hr as (l & k & ->).
  apply Forall_app in Hf as [_ Hf]. apply Forall_cons in Hf as [(_ & _ & Hok) _].
  assert (Hsl : active_slices (l ++ r :: k) = active_slices l ++ slice_of r :: active_slices k).
  { unfold active_slices. rewrite List.filter_app, fmap_app. simpl. by rewrite Ha. }
  rewrite Hsl. clear Hsl. induction (active_slices l) as [|x xs IH]; simpl.
  - rewrite C.decoding_ids_cons, C.demand_cons. pose proof (C.demand_nonneg (active_slices k)).
    unfold C.wants_prefill, is_active in *. simpl. unfold req_ok in Hok.
    destruct (state r); try done; simpl.
    + destruct (Z.ltb_spec 0 (tokens_pending r)); lia.
    + lia.
  - rewrite C.decoding_ids_cons, C.demand_cons.
    pose proof (C.wants_positive (x :: xs)) as Hw. simpl in Hw.
    destruct (C.wants_prefill x); [apply Forall_cons in Hw as [? _]|];
      destruct (C.is_decoding x); simpl length; lia.
Qed.

(** Promotion is first come first served. *)
Lemma promote_first_fifo k rs r r' :
  StronglySorted N.lt (ids rs) -> r ∈ promote_first k rs -> r' ∈ promote_first k rs ->
  (r ∉ rs) -> state r' = Waiting -> (request_id r < request_id r')%N.
Proof.
  revert k. induction rs as [|x rs IH]; intros k Hs Hr Hr' Hn Hw.
  { by apply not_elem_of_nil in Hr. }
  inversion Hs as [|? ? Hs' Hlt]; subst. cbn [promote_first] in *.
  apply not_elem_of_cons in Hn as [Hnx Hn]. case_decide as Hd.
  - destruct k as [|k]; [exfalso; apply elem_of_cons in Hr as [->|?]; done|].
    apply elem_of_cons in Hr as [->|Hr].
    + apply elem_of_cons in Hr' as [->|Hr'].
      { pose proof (promoted_active x) as Ha. unfold is_active in Ha. by rewrite Hw in Ha. }
      simpl. rewrite Forall_forall in Hlt. apply Hlt. rewrite <- (promote_first_ids k).
      unfold ids. by apply list_elem_of_fmap_2.
    + apply elem_of_cons in Hr' as [->|Hr'].
      { pose proof (promoted_active x) as Ha. unfold is_active in Ha. by rewrite Hw in Ha. }
      by apply (IH k).
  - apply elem_of_cons in Hr as [->|Hr]; [done|].
    apply elem_of_cons in Hr' as [->|Hr']; [done|]. by apply (IH k).
Qed.

Lemma promote_first_waiting k rs :
  count_of Waiting (promote_first k rs) = (count_of Waiting rs - N.of_nat k)%N.
Proof.
  revert k. induction rs as [|r rs IH]; intros k; [unfold count_of; simpl; lia|].
  cbn [promote_first]. case_decide as Hd.
  - destruct k as [|k]; [lia|]. rewrite !count_of_cons, IH, (decide_True _ _ Hd).
    rewrite decide_False; [lia|]. intros Hw. pose proof (promoted_active r) as Ha.
    unfold is_active in Ha. by rewrite Hw in Ha.
  - rewrite !count_of_cons, IH, decide_False by done. lia.
Qed.

(** ** Commits *)

(** One request after a prefill chunk of [c] tokens. *)
Definition prefill_step (c : Z) (r : RequestStateData) : RequestStateData :=
  if decide (state r = Prefilling) then
    if (tokens_pending r - c <=? 0)%Z then r <| tokens_pending := 0%Z |> <| state := Decoding |>
    else r <| tokens_pending := (tokens_pending r - c)%Z |>
  else r.

(** One request after a decoded token. *)
Definition decode_step (eos : bool) (r : RequestStateData) : RequestStateData :=
  if decide (state r = Decoding) then
    let r := r <| tokens_decoded := (tokens_decoded r + 1)%Z |> in
    if eos || (max_tokens r <=? tokens_decoded r)%Z then r <| state := Completed |> else r
  else r.

(** The registry with the request [id] stepped. *)
Definition step_id (id : N) (f : RequestStateData -> RequestStateData)
  (rs : list RequestStateData) : list RequestStateData :=
  (fun r => if decide (request_id r = id) then f r else r) <$> rs.

Lemma step_id_insert s id f i r :
  inv s -> findMut s id = Some (i, r) -> step_id id f (_requests s) = <[i := f r]> (_requests s).
Proof.
  intros Hi Hf. apply (findMut_spec s id i r Hi) in Hf as [Hr He].
  apply list_eq. intros j. unfold step_id. rewrite list_lookup_fmap.
  rewrite (list_insert_alter _ _ _ _ Hr). case_decide as Hd; subst.
  - rewrite Hr. simpl. by rewrite decide_True.
  - destruct (_requests s !! j) as [r'|] eqn:Hj; [|done]. simpl.
    rewrite decide_False; [done|]. intros He. apply Hd.
    eapply ids_lookup_inj; eauto using inv_nodup.
Qed.

Lemma step_id_none s id f : inv s -> findMut s id = None -> step_id id f (_requests s) = _requests s.
Proof.
  intros Hi Hf. unfold step_id. rewrite <- (list_fmap_id (_requests s)) at 2.
  apply list_fmap_ext. intros i r Hr. rewrite decide_False; [done|]. intros He.
  assert (findMut s id = Some (i, r)) by (by apply findMut_spec). congruence.
Qed.

Lemma step_id_same s id f i r :
  inv s -> findMut s id = Some (i, r) -> f r = r -> step_id id f (_requests s) = _requests s.
Proof.
  intros Hi Hf Hr. rewrite (step_id_insert s id f i r Hi Hf), Hr.
  apply list_insert_id. by apply (findMut_spec s id i r Hi) in Hf as [? _].
Qed.

Lemma inv_entry s i r : inv s -> _requests s !! i = Some r -> entry_ok (_nextRequestId s) r.
Proof. intros Hi Hr. pose proof (inv_entries s Hi) as Hf. rewrite Forall_lookup in Hf. eauto. Qed.

Lemma commitPrefill_spec s p :
  inv s -> (0 < C.chunk_size p < 2 ^ 31)%Z ->
  inv (commitPrefill s p) /\ frame s (commitPrefill s p) /\
  _allocator (commitPrefill s p) = _allocator s /\
  _requests (commitPrefill s p) =
    step_id (C.p_request_id p) (prefill_step (C.chunk_size p)) (_requests s).
Proof.
  intros Hi Hc. unfold commitPrefill.
  destruct (findMut s (C.p_request_id p)) as [[i r]|] eqn:Hf.
  2: { by rewrite (step_id_none _ _ _ Hi Hf). }
  pose proof (proj1 (findMut_spec s _ i r Hi) Hf) as [Hr _].
  destruct (inv_entry s i r Hi Hr) as (Hseq & Hid & Hp & Hm & Hst).
  case_bool_decide as Hd; cbn [negb].
  2: { rewrite (step_id_same _ _ _ _ _ Hi Hf); [done|]. unfold prefill_step. by rewrite decide_False. }
  rewrite (step_id_insert _ _ _ _ _ Hi Hf). unfold prefill_step. rewrite (decide_True _ _ Hd).
  rewrite Hd in Hst. simpl. rewrite s32_small by (unfold in_s32; lia).
  destruct (Z.leb_spec (tokens_pending r - C.chunk_size p) 0).
  - split; [|done].
    eapply (inv_insert s _ i r); eauto; try done; simpl.
    + unfold req_ok. simpl. lia.
    + rewrite (inv_counts s Hi). by apply (setState_counts_insert _ _ r Decoding); [apply inv_fits'|..].
    + unfold is_active. by rewrite Hd.
    + apply (kv_ok_same _ _ _ r); [apply Hi|done|done].
    + unfold is_completed. simpl. by rewrite Hd.
  - split; [|done]. eapply (inv_insert s _ i r); eauto; try done; simpl.
    + unfold req_ok. simpl. rewrite Hd. lia.
    + rewrite (inv_counts s Hi). by rewrite (counts_of_same _ _ r).
    + apply (kv_ok_same _ _ _ r); [apply Hi|done|done].
Qed.

Lemma completed_bound s : inv s -> (_totalCompleted s + 1 < 2 ^ 64)%N \/ live_count (_requests s) = 0%N.
Proof. intros []. destruct (decide (live_count (_requests s) = 0%N)); [by right|left; lia]. Qed.

Lemma live_count_pos rs i r : rs !! i = Some r -> is_completed r = false -> (0 < live_count rs)%N.
Proof.
  intros Hi Hc. rewrite <- (take_drop_middle _ _ _ Hi), live_count_app, live_count_cons, Hc. lia.
Qed.

Lemma commitDecode_spec s id eos :
  inv s ->
  inv (commitDecode s id eos) /\ frame s (commitDecode s id eos) /\
  _allocator (commitDecode s id eos) = _allocator s /\
  _requests (commitDecode s id eos) = step_id id (decode_step eos) (_requests s).
Proof.
  intros Hi. unfold commitDecode.
  destruct (findMut s id) as [[i r]|] eqn:Hf.
  2: { by rewrite (step_id_none _ _ _ Hi Hf). }
  pose proof (proj1 (findMut_spec s _ i r Hi) Hf) as [Hr _].
  destruct (inv_entry s i r Hi Hr) as (Hseq & Hid & Hp & Hm & Hst).
  case_bool_decide as Hd; cbn [negb].
  2: { rewrite (step_id_same _ _ _ _ _ Hi Hf); [done|]. unfold decode_step. by rewrite decide_False. }
  rewrite (step_id_insert _ _ _ _ _ Hi Hf). unfold decode_step. rewrite (decide_True _ _ Hd).
  rewrite Hd in Hst. simpl. rewrite s32_small by (unfold in_s32; lia).
  assert (Hnc : is_completed r = false) by (unfold is_completed; by rewrite Hd).
  pose proof (live_count_pos _ _ _ Hr Hnc).
  destruct (completed_bound s Hi) as [Hb|?]; [|lia].
  destruct (eos || _)%bool eqn:E.
  - split; [|done]. eapply (inv_insert s _ i r); eauto; try done; simpl.
    + unfold req_ok. simpl. lia.
    + rewrite (inv_counts s Hi). by apply (setState_counts_insert _ _ r Completed); [apply inv_fits'|..].
    + apply (kv_ok_same _ _ _ r); [apply Hi|done|done].
    + rewrite Hnc, u64_small by lia. simpl. lia.
  - bool_to_prop. split; [|done]. eapply (inv_insert s _ i r); eauto; try done; simpl.
    + unfold req_ok. simpl. rewrite Hd. lia.
    + rewrite (inv_counts s Hi). by rewrite (counts_of_same _ _ r).
    + apply (kv_ok_same _ _ _ r); [apply Hi|done|done].
Qed.

(** A commit as a list of single-request steps. *)
Definition eos_flags (executed : C.BatchSchedule) (reachedEos : list N) : list bool :=
  if (length reachedEos =? length (C.decodes executed))%nat then (fun b => negb (b =? 0)%N) <$> reachedEos
  else replicate (length (C.decodes executed)) false.

Definition commit_steps (executed : C.BatchSchedule) (reachedEos : list N)
  : list (N * (RequestStateData -> RequestStateData)) :=
  ((fun p => (C.p_request_id p, prefill_step (C.chunk_size p))) <$> C.prefills executed) ++
  zip_with (fun id e => (id, decode_step e)) (C.decodes executed) (eos_flags executed reachedEos).

(** What a list of steps does to one request. *)
Definition advance (steps : list (N * (RequestStateData -> RequestStateData)))
  (r : RequestStateData) : RequestStateData :=
  fold_left (fun r step => if decide (request_id r = step.1) then step.2 r else r) steps r.

Lemma advance_app l k r : advance (l ++ k) r = advance k (advance l r).
Proof. apply fold_left_app. Qed.

Lemma commitPrefills_spec ps : forall s,
  inv s -> Forall (fun p => 0 < C.chunk_size p < 2 ^ 31)%Z ps ->
  let s' := fold_left commitPrefill ps s in
  inv s' /\ frame s s' /\ _allocator s' = _allocator s /\
  _requests s' =
    advance ((fun p => (C.p_request_id p, prefill_step (C.chunk_size p))) <$> ps) <$> _requests s.
Proof.
  induction ps as [|p ps IH]; intros s Hi Hf; cbn [fold_left].
  { split; [done|]. split; [done|]. split; [done|]. symmetry. apply list_fmap_id. }
  apply Forall_cons in Hf as [Hp Hf].
  destruct (commitPrefill_spec s p Hi Hp) as (Hi1 & Hfr1 & Ha1 & Hr1).
  destruct (IH _ Hi1 Hf) as (Hi2 & Hfr2 & Ha2 & Hr2).
  split; [done|]. split; [unfold frame in *; intuition congruence|]. split; [congruence|].
  rewrite Hr2, Hr1. unfold step_id. by rewrite <- list_fmap_compose.
Qed.

Lemma commitDecodes_spec ds : forall s eos,
  inv s ->
  let s' := commitDecodes s ds eos in
  inv s' /\ frame s s' /\ _allocator s' = _allocator s /\
  _requests s' = advance (zip_with (fun id e => (id, decode_step e)) ds eos) <$> _requests s.
Proof.
  induction ds as [|d ds IH]; intros s [|e eos] Hi; cbn [commitDecodes];
    try (split; [done|]; split; [done|]; split; [done|]; symmetry; apply list_fmap_id).
  destruct (commitDecode_spec s d e Hi) as (Hi1 & Hfr1 & Ha1 & Hr1).
  destruct (IH _ eos Hi1) as (Hi2 & Hfr2 & Ha2 & Hr2).
  split; [done|]. split; [unfold frame in *; intuition congruence|]. split; [congruence|].
  rewrite Hr2, Hr1. unfold step_id. by rewrite <- list_fmap_compose.
Qed.

(** The commit loops are one independent update per request. *)
Lemma commit_spec s executed reachedEos :
  inv s -> op_ok s (OpCommit executed reachedEos) ->
  let s' := commitProgress s executed reachedEos in
  inv s' /\ frame s s' /\ _allocator s' = _allocator s /\
  _requests s' = advance (commit_steps executed reachedEos) <$> _requests s.
Proof.
  intros Hi Hf. unfold commitProgress, commit_steps. fold (eos_flags executed reachedEos).
  destruct (commitPrefills_spec _ s Hi Hf) as (Hi1 & Hfr1 & Ha1 & Hr1).
  destruct (commitDecodes_spec (C.decodes executed) _ (eos_flags executed reachedEos) Hi1)
    as (Hi2 & Hfr2 & Ha2 & Hr2).
  split; [done|]. split; [unfold frame in *; intuition congruence|]. split; [congruence|].
  rewrite Hr2, Hr1, <- list_fmap_compose. apply list_fmap_ext. intros _ r _. simpl.
  by rewrite advance_app.
Qed.

(** ** Preemption *)

(** The newest active request. *)
Definition newest (rs : list RequestStateData) (i : nat) (r : RequestStateData) : Prop :=
  rs !! i = Some r /\ is_active r = true /\
  forall j r', rs !! j = Some r' -> is_active r' = true -> (admit_seq r' <= admit_seq r)%N.

Lemma find_victim_app pre : forall i rs v,
  find_victim i (pre ++ rs) v = find_victim (i + length pre) rs (find_victim i pre v).
Proof.
  induction pre as [|x pre IH]; intros i rs v; cbn [find_victim app length].
  { f_equal. lia. }
  rewrite IH. f_equal. lia.
Qed.

Lemma find_victim_spec rs :
  match find_victim 0 rs None with
  | None => active_count rs = 0%N
  | Some (i, r) => newest rs i r
  end.
Proof.
  induction rs as [|r rs IH] using rev_ind; [done|].
  rewrite find_victim_app. cbn [find_victim]. rewrite active_count_app, active_count_cons.
  assert (Hone : active_count [] = 0%N) by done. rewrite Hone. clear Hone.
  assert (Hlast : (rs ++ [r]) !! (0 + length rs) = Some r) by (by rewrite list_lookup_middle).
  assert (Hsplit : forall j r', (rs ++ [r]) !! j = Some r' -> rs !! j = Some r' \/ r' = r).
  { intros j r' [?|[_ Hj]]%lookup_app_Some; [by left|].
    apply list_lookup_singleton_Some in Hj as [_ <-]. by right. }
  destruct (find_victim 0 rs None) as [[i v]|].
  - destruct IH as (Hv & Hav & Hmax).
    assert (Hi : (rs ++ [r]) !! i = Some v)
      by (rewrite lookup_app_l; [done|by eapply lookup_lt_Some]).
    destruct (is_active r) eqn:Ha; cbn [negb].
    + destruct (N.ltb_spec (admit_seq v) (admit_seq r)).
      * split; [done|]. split; [done|]. intros j r' [Hj| ->]%Hsplit Har'; [|done].
        specialize (Hmax j r' Hj Har'). lia.
      * split; [done|]. split; [done|]. intros j r' [Hj| ->]%Hsplit ?; [|done]. eauto.
    + split; [done|]. split; [done|]. intros j r' [Hj| ->]%Hsplit ?; [eauto|congruence].
  - destruct (is_active r) eqn:Ha; cbn [negb]; [|by rewrite IH].
    split; [done|]. split; [done|]. intros j r' [Hj| ->]%Hsplit Ha'; [|done].
    exfalso. apply list_elem_of_lookup_2, list_elem_of_split in Hj as (l & k & ->).
    rewrite active_count_app, active_count_cons, Ha' in IH. lia.
Qed.

(** The victim after preemption: its history is dropped. *)
Definition preempted (r : RequestStateData) : RequestStateData :=
  r <| state := Preempted |> <| ever_preempted := true |>
    <| kv_sequence := (fun q => S.mkSequence (S._allocator q) [] []) <$> kv_sequence r |>.

(** The pool after releasing a request's blocks. *)
Definition released (alloc : option A.t) (r : RequestStateData) : option A.t :=
  match alloc, kv_sequence r with
  | Some a, Some q => Some (S.releaseAllBlocks a q)
  | _, _ => alloc
  end.

Lemma resetKv_spec alloc rs i r :
  kv_ok alloc rs -> rs !! i = Some r ->
  resetKv alloc (kv_sequence r) =
    (released alloc r, (fun q => S.mkSequence (S._allocator q) [] []) <$> kv_sequence r) /\
  kv_ok (released alloc r) (<[i := preempted r]> rs).
Proof.
  intros Hk Hi. destruct alloc as [a|]; simpl.
  - destruct (insert_perm rs i r (preempted r) Hi) as (k & Hp & Hp').
    pose proof Hk as Hk'. rewrite Hp in Hk'. apply kv_ok_cons in Hk' as (q & Hq & Hsys & Hs).
    rewrite Hq. unfold S.reset. split; [done|]. 
    apply (kv_ok_insert a _ rs i r _ q (S.reset a q).2); try done.
    + unfold preempted. simpl. by rewrite Hq.
    + intros os. apply reset_system.
  - pose proof Hk as Hk'. simpl in Hk'. rewrite Forall_lookup in Hk'.
    rewrite (Hk' _ _ Hi). split; [done|]. apply (kv_ok_same None _ _ r); [done|done|].
    unfold preempted. simpl. by rewrite (Hk' _ _ Hi).
Qed.

Lemma preempt_state s :
  inv s ->
  match find_victim 0 (_requests s) None with
  | None => preemptOne s = (0%N, s)
  | Some (i, r) =>
      exists s', preemptOne s = (request_id r, s') /\ inv s' /\ frame s s' /\
        _allocator s' = released (_allocator s) r /\
        _requests s' = <[i := preempted r]> (_requests s) /\
        _totalPreempted s' = u64 (_totalPreempted s + 1) /\
        _totalCompleted s' = _totalCompleted s
  end.
Proof.
  intros Hi. pose proof (find_victim_spec (_requests s)) as Hv. unfold preemptOne.
  destruct (find_victim 0 (_requests s) None) as [[i r]|]; [|done].
  destruct Hv as (Hr & Ha & _).
  destruct (inv_entry s i r Hi Hr) as (Hseq & Hid & Hp & Hm & Hst).
  destruct (resetKv_spec _ _ _ _ (inv_kv s Hi) Hr) as [Hk Hkv].
  rewrite (surjective_pairing (setState _ _ _)). change (kv_sequence (setState _ r _).2) with (kv_sequence r).
  rewrite Hk. eexists. split; [done|]. split; [|done].
  eapply (inv_insert s _ i r (preempted r)); eauto; try done; simpl.
  - unfold req_ok, preempted. simpl. unfold is_active in Ha. destruct (state r); try done; lia.
  - rewrite (inv_counts s Hi). by apply (setState_counts_insert _ _ r Preempted); [apply inv_fits'|..].
  - unfold is_completed, is_active in *. by destruct (state r).
Qed.

(** ** Draining *)

Definition kept (s : t) : list RequestStateData :=
  List.filter (fun r => negb (is_completed r)) (_requests s).

Lemma ids_filter_sublist p rs : sublist (ids (List.filter p rs)) (ids rs).
Proof.
  unfold ids. induction rs as [|r rs IH]; [done|]. simpl.
  destruct (p r); simpl; [by apply sublist_skip|by apply sublist_cons].
Qed.

Lemma sublist_sorted l k : sublist l k -> StronglySorted N.lt k -> StronglySorted N.lt l.
Proof.
  induction 1 as [|x l k Hs IH|x l k Hs IH]; intros Hk; [done| |]; inversion Hk as [|? ? Hk' Hx]; subst.
  - constructor; [auto|]. apply Forall_forall. intros y Hy. rewrite Forall_forall in Hx.
    apply Hx. by eapply elem_of_submseteq, sublist_submseteq.
  - auto.
Qed.

Lemma kept_counts rs :
  <[state_index Completed := 0%N]> (counts_of rs) =
    counts_of (List.filter (fun r => negb (is_completed r)) rs).
Proof.
  assert (Hst : forall st, count_of st (List.filter (fun r => negb (is_completed r)) rs) =
    if decide (st = Completed) then 0%N else count_of st rs).
  { intros st. induction rs as [|r rs IH]; [by case_decide|]. cbn [List.filter].
    rewrite (count_of_cons st r rs). unfold is_completed at 1.
    case_bool_decide as Hc; cbn [negb]; rewrite ?count_of_cons, IH; repeat case_decide; simpl;
      try lia; congruence. }
  unfold counts_of, all_states. cbn [fmap list_fmap]. rewrite !Hst. done.
Qed.

Lemma filter_count_le st p rs : (count_of st (List.filter p rs) <= count_of st rs)%N.
Proof.
  induction rs as [|r rs IH]; [done|]. simpl. destruct (p r); rewrite !count_of_cons; lia.
Qed.

Lemma filter_live rs :
  live_count (List.filter (fun r => negb (is_completed r)) rs) = live_count rs.
Proof.
  induction rs as [|r rs IH]; [done|]. simpl. rewrite live_count_cons.
  destruct (is_completed r) eqn:Hr; simpl; [done|]. by rewrite live_count_cons, Hr, IH.
Qed.

Lemma drain_inv s : inv s -> inv (drainCompleted s).2.
Proof.
  intros Hi. pose proof Hi as []. unfold drainCompleted. cbn [snd]. fold (kept s).
  assert (Hsub : sublist (ids (kept s)) (ids (_requests s))) by apply ids_filter_sublist.
  assert (Hs : StronglySorted N.lt (ids (kept s))) by (by eapply sublist_sorted).
  split; simpl; try done.
  - rewrite Forall_forall in *. intros r Hr. apply inv_entries0.
    apply list_elem_of_In, filter_In in Hr as [Hr _]. by apply list_elem_of_In.
  - by apply rebuildIndex_spec, sorted_NoDup.
  - rewrite inv_counts0. apply kept_counts.
  - etrans; [|done]. unfold active_count.
    pose proof (filter_count_le Prefilling (fun r => negb (is_completed r)) (_requests s)).
    pose proof (filter_count_le Decoding (fun r => negb (is_completed r)) (_requests s)).
    unfold kept. lia.
  - apply kv_ok_destroy. by rewrite <- (filter_partition (_requests s) is_completed).
  - rewrite inv_conserved0. f_equal. unfold kept. by rewrite filter_live.
Qed.

(** ** Feeding tokens *)

Lemma feed_state s id feed :
  inv s ->
  (forall a q os, S.system a q os -> S.system (feed a q).1.2 (feed a q).2 os) ->
  inv (feedWith feed s id).2 /\ frame s (feedWith feed s id).2.
Proof.
  intros Hi Hstep. unfold feedWith. destruct (findMut s id) as [[i r]|] eqn:Hf; [|done].
  apply (findMut_spec s id i r Hi) in Hf as [Hr _].
  destruct (_allocator s) as [a|] eqn:Ha; [|done].
  destruct (kv_sequence r) as [q|] eqn:Hq; [|done].
  destruct (inv_entry s i r Hi Hr) as (Hseq & Hid & Hok).
  pose proof (fun os => Hstep a q os) as Hs. destruct (feed a q) as [[ok a'] q']. simpl in Hs.
  split; [|done]. cbn [snd].
  eapply (inv_insert s _ i r (r <| kv_sequence := Some q' |>)); eauto; try done; simpl.
  - rewrite (counts_of_same _ _ r); [apply Hi|done|done].
  - pose proof (inv_kv s Hi) as Hk. rewrite Ha in Hk.
    by apply (kv_ok_insert a _ _ i r _ q q').
Qed.

Lemma run_op_inv s o : inv s -> op_ok s o -> inv (run_op s o).
Proof.
  intros Hi Ho. destruct o; simpl.
  - by apply admit_inv.
  - by apply tick_inv.
  - by apply (commit_spec s executed reachedEos).
  - pose proof (preempt_state s Hi) as H. destruct (find_victim _ _ _) as [[i r]|].
    + by destruct H as (s' & -> & ? & _).
    + by rewrite H.
  - by apply drain_inv.
  - apply feed_state; [done|]. intros a q os (? & ? & ? & ?). by apply S.appendTokens_system.
  - apply feed_state; [done|]. intros a q os. apply S.append_system.
Qed.

Lemma create_inv budget maxActive alloc s :
  (budget < 2 ^ 31)%Z -> (maxActive < 2 ^ 64)%N -> kv_ok alloc [] ->
  create budget maxActive alloc = Ok s -> inv s.
Proof.
  intros Hb Hm Hk Hc. unfold create, C.create in Hc.
  destruct (Z.leb_spec budget 0); [done|]. destruct (N.eqb_spec maxActive 0); [done|].
  simplify_eq. split; simpl; try done; try lia.
  - constructor.
  - intros id i. rewrite lookup_empty, lookup_nil. naive_solver.
  - change (active_count []) with 0%N. lia.
Qed.

Lemma reachable_inv budget maxActive alloc s :
  (budget < 2 ^ 31)%Z -> (maxActive < 2 ^ 64)%N -> kv_ok alloc [] ->
  reachable budget maxActive alloc s -> inv s.
Proof. intros Hb Hm Hk. induction 1; eauto using create_inv, run_op_inv. Qed.

Lemma run_op_max s o :
  inv s -> op_ok s o -> _maxActiveRequests (run_op s o) = _maxActiveRequests s.
Proof.
  intros Hi Ho. destruct o; cbn [run_op].
  - unfold admitRequest. by case_match.
  - by rewrite (proj1 (tick_state s Hi)).
  - by destruct (commit_spec s executed reachedEos Hi Ho) as (_ & (_ & ? & _) & _).
  - pose proof (preempt_state s Hi) as H. destruct (find_victim _ _ _) as [[i r]|].
    + by destruct H as (s' & -> & _ & (_ & ? & _) & _).
    + by rewrite H.
  - done.
  - apply feed_state; [done|]. intros a q os (? & ? & ? & ?). by apply S.appendTokens_system.
  - apply feed_state; [done|]. intros a q os. apply S.append_system.
Qed.

Lemma reachable_max budget maxActive alloc s :
  (budget < 2 ^ 31)%Z -> (maxActive < 2 ^ 64)%N -> kv_ok alloc [] ->
  reachable budget maxActive alloc s -> _maxActiveRequests s = maxActive.
Proof.
  intros Hb Hm Hk. induction 1 as [s Hc|s o Hr IH Ho].
  - unfold create in Hc. by split_matches.
  - rewrite run_op_max; eauto using reachable_inv.
Qed.

(** ** Properties *)

Lemma live_count_split rs :
  live_count rs = (count_of Waiting rs + active_count rs + count_of Preempted rs)%N.
Proof.
  induction rs as [|r rs IH]; [done|].
  rewrite live_count_cons, active_count_cons, !count_of_cons, IH.
  unfold is_completed, is_active. destruct (state r); simpl; lia.
Qed.

Lemma active_exists rs : active_count rs <> 0%N -> exists r, r ∈ rs /\ is_active r = true.
Proof.
  induction rs as [|r rs IH]; [done|]. rewrite active_count_cons.
  destruct (is_active r) eqn:Ha; intros Hn.
  - exists r. split; [by left|done].
  - destruct IH as (r' & ? & ?); [lia|]. exists r'. split; [by right|done].
Qed.

Lemma promote_first_preempted k rs : count_of Preempted (promote_first k rs) = count_of Preempted rs.
Proof.
  revert k. induction rs as [|r rs IH]; intros k; [done|]. cbn [promote_first].
  case_decide as Hd; [|by rewrite !count_of_cons, IH].
  destruct k as [|k]; [done|]. rewrite !count_of_cons, IH, Hd. f_equal.
  rewrite !decide_False; [done|done|]. simpl. by destruct (0 <? tokens_pending r)%Z.
Qed.

Lemma reenq_live rs : live_count (reenq <$> rs) = live_count rs.
Proof.
  apply live_count_fmap. intros r. unfold reenq, is_completed. case_decide as Hd; [|done].
  simpl. by rewrite Hd.
Qed.

Lemma reenq_preempted rs : count_of Preempted (reenq <$> rs) = 0%N.
Proof.
  induction rs as [|r rs IH]; [done|]. cbn [fmap list_fmap]. rewrite count_of_cons, IH.
  rewrite decide_False; [done|]. unfold reenq. by case_decide.
Qed.

(** After a tick either nobody waits or every slot is taken; with unfinished
    requests some request is active. *)
Lemma ticked_active s : inv s ->
  (count_of Waiting (ticked s) = 0%N \/ active_count (ticked s) = _maxActiveRequests s) /\
  (live_count (_requests s) <> 0%N -> exists r, r ∈ ticked s /\ is_active r = true).
Proof.
  intros Hi. unfold ticked.
  set (k := free_slots s) in *. set (rs := reenq <$> _requests s).
  assert (Hw : count_of Waiting (promote_first k rs) = 0%N \/
    active_count (promote_first k rs) = _maxActiveRequests s).
  { rewrite promote_first_waiting, promote_first_active. subst rs k.
    rewrite active_count_fmap by apply reenq_active. unfold free_slots.
    pose proof (inv_active s Hi). lia. }
  split; [done|]. intros Hl. apply active_exists. intros Hz. apply Hl.
  rewrite <- reenq_live. fold rs. rewrite <- (promote_first_live k), live_count_split.
  rewrite promote_first_preempted, Hz. subst rs. rewrite reenq_preempted.
  pose proof (inv_max s Hi). lia.
Qed.

(** C5: whatever calls are made on a freshly built scheduler, its registry, id
    index, counters and the shared block pool stay consistent ([inv]); spelled
    out: never more active requests than the cap, every admitted request is
    either still in one of the live states or was completed, the pool's used
    blocks are exactly those of the registered requests' page tables, and no
    two requests share a block. *)
Theorem scheduler_invariant budget maxActive alloc s :
  (budget < 2 ^ 31)%Z -> (maxActive < 2 ^ 64)%N -> kv_ok alloc [] ->
  reachable budget maxActive alloc s ->
  inv s /\
  (numActive s <= maxActive)%N /\
  _totalAdmitted s = (_totalCompleted s + numWaiting s + numActive s + numPreempted s)%N /\
  forall a, _allocator s = Some a ->
    let tables := S._blockTable <$> seqs (_requests s) in
    A.numBlocksUsed a = length (concat tables) /\ NoDup (concat tables).
Proof.
  intros Hb Hm Hk Hr. pose proof (reachable_inv _ _ _ _ Hb Hm Hk Hr) as Hi.
  split; [done|]. rewrite (numActive_spec s Hi). split.
  { rewrite <- (reachable_max _ _ _ _ Hb Hm Hk Hr). apply Hi. }
  split.
  - unfold numWaiting, numPreempted. rewrite !stateCount_counts by apply Hi.
    rewrite (inv_conserved s Hi), live_count_split. unfold active_count. lia.
  - intros a Ha tables. pose proof (inv_kv s Hi) as Hkv. rewrite Ha in Hkv.
    destruct Hkv as (Hwf & _ & _ & Ho). split; [by apply owned_counters|apply Ho].
Qed.

(** The caller's obligations along a history. *)
Fixpoint ops_ok (s : t) (os : list op) : Prop :=
  match os with
  | [] => True
  | o :: os => op_ok s o /\ ops_ok (run_op s o) os
  end.

(** A concrete history: two requests on a pool of four blocks of two tokens,
    the first one fed, decoding, preempted and run again. *)
Definition demo_start : t :=
  match create 4 1 (Some (S.demo_alloc 4 2)) with Ok s => s | Throw _ =>
    mkScheduler 0 0 None 0 0 [] ∅ [] 0 0 0 end.
Definition demo_history : list op :=
  [OpAdmit 3 2; OpAdmit 5 1; OpTick; OpFeedPrefill 1 [7; 8; 9]%Z; OpPreempt; OpTick;
   OpCommit (C.mkSchedule [] [C.mkPrefill 1 3] 3) []].
Definition demo_state : t := fold_left run_op demo_history demo_start.

Lemma demo_kv : kv_ok (Some (S.demo_alloc 4 2)) [].
Proof.
  split; [by apply (A.create_wf 4 2)|]. split; [constructor|]. split; [constructor|].
  by apply (owned_empty 4 2).
Qed.

Lemma reachable_run budget maxActive alloc os : forall s,
  reachable budget maxActive alloc s -> ops_ok s os ->
  reachable budget maxActive alloc (fold_left run_op os s).
Proof.
  induction os as [|o os IH]; intros s Hr Ho; [done|]. destruct Ho. apply IH; [by apply ReachStep|done].
Qed.

Lemma demo_reachable : reachable 4 1 (Some (S.demo_alloc 4 2)) demo_state.
Proof.
  apply reachable_run; [by apply ReachInit|].
  cbn [ops_ok demo_history op_ok C.prefills]. unfold in_s32.
  repeat split; try done; repeat constructor; vm_compute; congruence.
Qed.

Lemma scheduler_invariant_witness :
  inv demo_state /\
  (numActive demo_state <= 1)%N /\
  _totalAdmitted demo_state =
    (_totalCompleted demo_state + numWaiting demo_state + numActive demo_state +
     numPreempted demo_state)%N /\
  forall a, _allocator demo_state = Some a ->
    let tables := S._blockTable <$> seqs (_requests demo_state) in
    A.numBlocksUsed a = length (concat tables) /\ NoDup (concat tables).
Proof.
  apply (scheduler_invariant 4 1 (Some (S.demo_alloc 4 2))); [done|done|apply demo_kv|].
  apply demo_reachable.
Defined.

Lemma demo_inv : inv demo_state.
Proof. by apply (reachable_inv 4 1 (Some (S.demo_alloc 4 2))), demo_reachable; [..|apply demo_kv]. Qed.

(** Each request gets at most one assignment of a tick, in its state, for
    tokens it owes. *)
Record assigned (sched : C.BatchSchedule) (rs : list RequestStateData) : Prop := {
  assigned_decodes : NoDup (C.decodes sched);
  assigned_prefills : NoDup (C.p_request_id <$> C.prefills sched);
  assigned_decoding : forall id, id ∈ C.decodes sched ->
    exists r, r ∈ rs /\ request_id r = id /\ state r = Decoding;
  assigned_prefilling : forall p, p ∈ C.prefills sched ->
    exists r, r ∈ rs /\ request_id r = C.p_request_id p /\ state r = Prefilling /\
      (0 < C.chunk_size p <= tokens_pending r)%Z;
}.

Lemma tick_assigned s : inv s -> assigned (tick s).1 (_requests (tick s).2).
Proof.
  intros Hi. pose proof (tick_inv s Hi) as Hi'. pose proof (tick_state s Hi) as [Hs' Hsched].
  fold (active_slices (ticked s)) in Hsched. rewrite C.schedule_eq in Hsched by apply Hi.
  assert (Hrs : _requests (tick s).2 = ticked s) by (by rewrite Hs').
  pose proof (inv_nodup _ Hi') as Hnd. rewrite Hrs in *.
  assert (Hids : NoDup (C.request_id <$> active_slices (ticked s)))
    by (by eapply sublist_NoDup; [apply active_slices_ids|]).
  rewrite Hsched. split; simpl.
  - eapply sublist_NoDup; [apply sublist_take|]. eapply sublist_NoDup; [apply decoding_ids_sublist|done].
  - eapply sublist_NoDup; [apply C.poured_ids|done].
  - intros id Hid. apply subseteq_take, elem_of_decoding_ids in Hid as (x & Hx & Hd & <-).
    apply elem_of_active_slices in Hx as (r & Hr & _ & ->). exists r.
    split; [done|]. split; [done|]. by apply bool_decide_eq_true in Hd.
  - intros p Hp. apply C.poured_sound in Hp as (x & Hx & Hw & Hid & Hc).
    apply elem_of_active_slices in Hx as (r & Hr & Ha & ->). exists r.
    unfold C.wants_prefill in Hw. bool_to_prop. simpl in *. apply bool_decide_eq_false in H.
    split; [done|]. split; [done|]. split; [|done]. unfold is_active in Ha. by destruct (state r).
Qed.

Lemma tick_total s : inv s ->
  (C.total_tokens_scheduled (tick s).1 <= _prefillScheduler s)%Z /\
  (live_count (_requests s) <> 0%N -> (0 < C.total_tokens_scheduled (tick s).1)%Z).
Proof.
  intros Hi. pose proof (tick_inv s Hi) as Hi'. pose proof (tick_state s Hi) as [Hs' Hsched].
  fold (active_slices (ticked s)) in Hsched. rewrite C.schedule_eq in Hsched by apply Hi.
  pose proof (inv_entries _ Hi') as Hent.
  assert (Hrs : _requests (tick s).2 = ticked s) by (by rewrite Hs'). rewrite Hrs in Hent.
  rewrite Hsched. simpl. split; [lia|]. intros Hlive.
  destruct (proj2 (ticked_active s Hi) Hlive) as (r & Hr & Ha).
  pose proof (active_demand_pos _ _ r Hent Hr Ha). pose proof (inv_budget s Hi). lia.
Qed.

(** a tick admits first come first served until the cap is reached or
    nobody waits, schedules at most one assignment per request, only for active
    requests in the matching state and only tokens they still owe, within the
    token budget, and whenever any request is unfinished the batch it returns
    is not empty. *)
Theorem tick_policy s :
  inv s ->
  let '(sched, s') := tick s in
  inv s' /\ (count_of Waiting (_requests s') = 0%N \/ numActive s' = _maxActiveRequests s') /\
  (forall r r', r ∈ _requests s' -> r' ∈ _requests s' -> is_active r = true ->
     (r ∉ _requests s) -> state r' = Waiting -> (request_id r < request_id r')%N) /\
  assigned sched (_requests s') /\
  (C.total_tokens_scheduled sched <= _prefillScheduler s)%Z /\
  (live_count (_requests s) <> 0%N -> (0 < C.total_tokens_scheduled sched)%Z).
Proof.
  intros Hi. pose proof (tick_inv s Hi) as Hi'. pose proof (tick_state s Hi) as [Hs' _].
  pose proof (tick_assigned s Hi) as Has. pose proof (tick_total s Hi) as Htot.
  destruct (tick s) as [sched s']. cbn [fst snd] in *.
  assert (Hrs : _requests s' = ticked s) by (by rewrite Hs').
  assert (Hmax : _maxActiveRequests s' = _maxActiveRequests s) by (by rewrite Hs').
  split; [done|]. split.
  { rewrite (numActive_spec s' Hi'), Hrs, Hmax. by apply ticked_active. }
  split; [|done]. rewrite Hrs. intros r r' Hr Hr' Ha Hn Hw.
  apply (promote_first_fifo (free_slots s) (reenq <$> _requests s)); [|done|done| |done].
  - pose proof (inv_sorted _ (reenqueue_inv s Hi)) as Hsort.
    by rewrite (reenqueue_spec s Hi) in Hsort.
  - intros (r0 & -> & Hin)%list_elem_of_fmap. unfold reenq in *. by case_decide.
Qed.

Lemma tick_policy_witness :
  live_count (_requests demo_state) <> 0%N /\
  let '(sched, s') := tick demo_state in
  inv s' /\ (count_of Waiting (_requests s') = 0%N \/ numActive s' = _maxActiveRequests s') /\
  (forall r r', r ∈ _requests s' -> r' ∈ _requests s' -> is_active r = true ->
     (r ∉ _requests demo_state) -> state r' = Waiting -> (request_id r < request_id r')%N) /\
  assigned sched (_requests s') /\
  (C.total_tokens_scheduled sched <= _prefillScheduler demo_state)%Z /\
  (live_count (_requests demo_state) <> 0%N -> (0 < C.total_tokens_scheduled sched)%Z).
Proof. split; [by vm_compute|]. apply (tick_policy demo_state), demo_inv. Defined.

(** *** Commits of the tick's own schedule *)

Lemma advance_notin steps r :
  request_id r ∉ fst <$> steps -> advance steps r = r.
Proof.
  induction steps as [|[id f] steps IH]; intros Hn; [done|].
  cbn [fmap list_fmap] in Hn. apply not_elem_of_cons in Hn as [Hne Hn].
  unfold advance. cbn [fold_left]. rewrite decide_False by done. by apply IH.
Qed.

Lemma advance_one steps f r :
  NoDup (fst <$> steps) -> (request_id r, f) ∈ steps -> request_id (f r) = request_id r ->
  advance steps r = f r.
Proof.
  induction steps as [|[id g] steps IH]; intros Hn Hin Hf; [by apply not_elem_of_nil in Hin|].
  cbn [fmap list_fmap] in Hn. apply NoDup_cons in Hn as [Hni Hn].
  unfold advance. cbn [fold_left]. apply elem_of_cons in Hin as [[= <- <-]|Hin].
  - rewrite decide_True by done. apply advance_notin. by rewrite Hf.
  - rewrite decide_False; [by apply IH|]. simpl. intros <-. apply Hni.
    by apply (list_elem_of_fmap_2 fst) in Hin.
Qed.

Lemma prefill_step_id c r : request_id (prefill_step c r) = request_id r.
Proof. unfold prefill_step. repeat case_match; done. Qed.

Lemma decode_step_id e r : request_id (decode_step e r) = request_id r.
Proof. unfold decode_step. repeat case_match; done. Qed.

Lemma eos_flags_length executed eos : length (eos_flags executed eos) = length (C.decodes executed).
Proof.
  unfold eos_flags. destruct (Nat.eqb_spec (length eos) (length (C.decodes executed))).
  - by rewrite length_fmap.
  - apply length_replicate.
Qed.

Lemma commit_steps_ids executed eos :
  fst <$> commit_steps executed eos =
    (C.p_request_id <$> C.prefills executed) ++ C.decodes executed.
Proof.
  unfold commit_steps. rewrite fmap_app, <- list_fmap_compose. f_equal.
  rewrite fmap_zip_with_l; [done|done|]. rewrite eos_flags_length. done.
Qed.

Lemma entry_inj rs r r' :
  NoDup (ids rs) -> r ∈ rs -> r' ∈ rs -> request_id r = request_id r' -> r = r'.
Proof.
  intros Hn [i Hi]%list_elem_of_lookup [j Hj]%list_elem_of_lookup He.
  assert (i = j) as -> by (by eapply ids_lookup_inj). congruence.
Qed.

Lemma assigned_steps_nodup sched rs eos :
  NoDup (ids rs) -> assigned sched rs -> NoDup (fst <$> commit_steps sched eos).
Proof.
  intros Hn []. rewrite commit_steps_ids. apply NoDup_app. split; [done|]. split; [|done].
  intros id Hp Hd. apply list_elem_of_fmap in Hp as (p & -> & Hp).
  destruct (assigned_prefilling0 p Hp) as (r & Hr & Hid & Hst & _).
  destruct (assigned_decoding0 _ Hd) as (r' & Hr' & Hid' & Hst').
  assert (r = r') as <- by (apply (entry_inj rs); congruence). congruence.
Qed.

Lemma assigned_op_ok s sched eos :
  inv s -> assigned sched (_requests s) -> op_ok s (OpCommit sched eos).
Proof.
  intros Hi []. simpl. apply Forall_forall. intros p Hp.
  destruct (assigned_prefilling0 p Hp) as (r & Hr & _ & Hst & Hc).
  apply list_elem_of_lookup in Hr as [i Hr]. destruct (inv_entry s i r Hi Hr) as (_ & _ & ? & ? & H).
  rewrite Hst in H. lia.
Qed.


(** What one iteration of work does to a request. *)
Inductive commit_outcome (sched : C.BatchSchedule) (eos : list N) (r : RequestStateData)
  : RequestStateData -> Prop :=
  | Prefilled c : C.mkPrefill (request_id r) c ∈ C.prefills sched -> state r = Prefilling ->
      (0 < c <= tokens_pending r)%Z ->
      commit_outcome sched eos r
        (r <| tokens_pending := (tokens_pending r - c)%Z |>
           <| state := if (c =? tokens_pending r)%Z then Decoding else Prefilling |>)
  | Decoded k b : C.decodes sched !! k = Some (request_id r) -> state r = Decoding ->
      eos_flags sched eos !! k = Some b ->
      commit_outcome sched eos r
        (r <| tokens_decoded := (tokens_decoded r + 1)%Z |>
           <| state := if b || (max_tokens r <=? tokens_decoded r + 1)%Z then Completed
                       else Decoding |>)
  | Idle : (request_id r ∉ C.decodes sched) -> (request_id r ∉ C.p_request_id <$> C.prefills sched) ->
      commit_outcome sched eos r r.

Lemma prefill_step_eq c r : state r = Prefilling -> (0 < c <= tokens_pending r)%Z ->
  prefill_step c r =
    r <| tokens_pending := (tokens_pending r - c)%Z |>
      <| state := if (c =? tokens_pending r)%Z then Decoding else Prefilling |>.
Proof.
  intros Hs Hc. unfold prefill_step. rewrite decide_True by done.
  destruct (Z.leb_spec (tokens_pending r - c) 0), (Z.eqb_spec c (tokens_pending r)); try lia.
  - subst c. by rewrite Z.sub_diag.
  - destruct r. simpl in *. by subst.
Qed.

Lemma decode_step_eq b r : state r = Decoding ->
  decode_step b r =
    r <| tokens_decoded := (tokens_decoded r + 1)%Z |>
      <| state := if b || (max_tokens r <=? tokens_decoded r + 1)%Z then Completed else Decoding |>.
Proof.
  intros Hs. unfold decode_step. rewrite decide_True by done. simpl.
  destruct (b || _)%bool; [done|]. destruct r. simpl in *. by subst.
Qed.

Lemma own_commit_outcome sched rs eos r :
  NoDup (ids rs) -> assigned sched rs -> r ∈ rs ->
  commit_outcome sched eos r (advance (commit_steps sched eos) r).
Proof.
  intros Hn Has Hr. pose proof (assigned_steps_nodup _ _ eos Hn Has) as Hnd.
  pose proof Has as []. destruct (decide (request_id r ∈ fst <$> commit_steps sched eos)) as [Hin|Hin].
  2: { rewrite advance_notin by done. rewrite commit_steps_ids in Hin.
       apply not_elem_of_app in Hin as [??]. by constructor. }
  apply list_elem_of_fmap in Hin as ([id f] & He & Hin). simpl in He.
  unfold commit_steps in Hin. apply elem_of_app in Hin as [Hin|Hin].
  - apply list_elem_of_fmap in Hin as ([pid c] & Hp & Hin). simplify_eq/=.
    destruct (assigned_prefilling0 _ Hin) as (r' & Hr' & Hid & Hst & Hc). simpl in *.
    assert (r' = r) as -> by (by apply (entry_inj rs)).
    rewrite (advance_one _ (prefill_step c)); [|done| |apply prefill_step_id].
    + rewrite prefill_step_eq by done. by constructor.
    + unfold commit_steps. apply elem_of_app. left.
      apply list_elem_of_fmap. by exists (C.mkPrefill (request_id r) c).
  - apply list_elem_of_lookup in Hin as [k Hk].
    apply lookup_zip_with_Some in Hk as (id' & b & Hf & Hd & Hb). simplify_eq/=.
    destruct (assigned_decoding0 (request_id r)) as (r' & Hr' & Hid & Hst).
    { by apply list_elem_of_lookup_2 in Hd. }
    assert (r' = r) as -> by (by apply (entry_inj rs)).
    rewrite (advance_one _ (decode_step b)); [|done| |apply decode_step_id].
    + rewrite decode_step_eq by done. by econstructor.
    + unfold commit_steps. apply elem_of_app. right. apply list_elem_of_lookup. exists k.
      apply lookup_zip_with_Some. eauto.
Qed.

(** committing the batch a tick returned advances every request exactly by
    its assignment: a prefill chunk is taken off the pending tokens and the
    request starts decoding when none are left; a decode counts one token and
    completes the request on its EOS flag or at its token limit; everyone else
    is untouched; the invariant and the pool are kept. *)
Theorem commit_own_schedule s eos :
  inv s ->
  let '(sched, s1) := tick s in
  let s2 := commitProgress s1 sched eos in
  inv s2 /\ _allocator s2 = _allocator s /\ length (_requests s2) = length (_requests s1) /\
  forall i r, _requests s1 !! i = Some r ->
    exists r', _requests s2 !! i = Some r' /\ commit_outcome sched eos r r'.
Proof.
  intros Hi. pose proof (tick_inv s Hi) as Hi'. pose proof (tick_assigned s Hi) as Has.
  pose proof (tick_state s Hi) as [Hs' _]. destruct (tick s) as [sched s1]. cbn [fst snd] in *.
  destruct (commit_spec s1 sched eos Hi' (assigned_op_ok _ _ eos Hi' Has)) as (Hi2 & _ & Ha & Hr).
  split; [done|]. split; [by rewrite Ha, Hs'|]. split; [by rewrite Hr, length_fmap|].
  intros i r Hir. exists (advance (commit_steps sched eos) r).
  rewrite Hr, list_lookup_fmap, Hir. split; [done|].
  apply (own_commit_outcome _ (_requests s1)); [by apply inv_nodup|done|].
  by eapply list_elem_of_lookup_2.
Qed.

Lemma commit_own_schedule_witness :
  let '(sched, s1) := tick demo_state in
  C.decodes sched = [1%N] /\
  let s2 := commitProgress s1 sched [1%N] in
  inv s2 /\ _allocator s2 = _allocator demo_state /\
  length (_requests s2) = length (_requests s1) /\
  forall i r, _requests s1 !! i = Some r ->
    exists r', _requests s2 !! i = Some r' /\ commit_outcome sched [1%N] r r'.
Proof.
  pose proof (commit_own_schedule demo_state [1%N] demo_inv) as H.
  assert (Hd : C.decodes (tick demo_state).1 = [1%N]) by (vm_compute; reflexivity).
  destruct (tick demo_state) as [sched s1]. split; [exact Hd|exact H].
Defined.

(** *** Progress *)

(** The iterations a request may still need. *)
Definition work (r : RequestStateData) : Z :=
  match state r with
  | Waiting | Preempted => prompt_length r + max_tokens r
  | Prefilling => tokens_pending r + max_tokens r
  | Decoding => max_tokens r - tokens_decoded r
  | Completed => 0
  end%Z.

Definition total_work (rs : list RequestStateData) : Z := sumZ (work <$> rs).

(** One iteration of the serving loop: tick, run the batch, commit it. *)
Definition serve_round (s : t) (eos : list N) : t :=
  let '(sched, s1) := tick s in commitProgress s1 sched eos.

Lemma work_pos next r : entry_ok next r ->
  (0 <= work r)%Z /\ (is_completed r = false -> 0 < work r)%Z.
Proof.
  intros (_ & _ & Hp & Hm & Hs). unfold work, is_completed. destruct (state r); split; try done; lia.
Qed.

Lemma total_work_zero next rs : Forall (entry_ok next) rs ->
  (0 <= total_work rs)%Z /\ (total_work rs = 0%Z -> live_count rs = 0%N).
Proof.
  induction 1 as [|r rs Hr Hf IH]; [done|].
  change (total_work (r :: rs)) with (work r + total_work rs)%Z. rewrite live_count_cons.
  destruct (work_pos _ _ Hr) as [Hw Hc]. split; [lia|]. intros Hz.
  destruct (is_completed r); [|specialize (Hc eq_refl); lia]. destruct IH as [? ->]; lia.
Qed.

Lemma reenq_work r : work (reenq r) = work r.
Proof. unfold reenq. case_decide as Hd; [|done]. unfold work. simpl. by rewrite Hd. Qed.

Lemma promote_first_work next k rs : Forall (entry_ok next) rs ->
  total_work (promote_first k rs) = total_work rs.
Proof.
  intros Hf. revert k. induction Hf as [|r rs Hr Hf IH]; intros k; [done|]. cbn [promote_first].
  change (total_work (r :: rs)) with (work r + total_work rs)%Z.
  case_decide as Hd.
  - destruct k as [|k]; [done|].
    change (total_work (promoted r :: promote_first k rs))
      with (work (promoted r) + total_work (promote_first k rs))%Z.
    rewrite IH. f_equal. destruct Hr as (_ & _ & Hp & _ & Hs). rewrite Hd in Hs.
    unfold work, promoted. simpl. rewrite Hd.
    destruct (Z.ltb_spec 0 (tokens_pending r)); simpl; lia.
  - change (total_work (r :: promote_first k rs)) with (work r + total_work (promote_first k rs))%Z.
    by rewrite IH.
Qed.

Lemma tick_work s : inv s -> total_work (_requests (tick s).2) = total_work (_requests s).
Proof.
  intros Hi. destruct (tick_state s Hi) as [-> _]. simpl. unfold ticked.
  rewrite (promote_first_work (_nextRequestId s)).
  - unfold total_work. rewrite <- list_fmap_compose. f_equal. apply list_fmap_ext.
    intros _ r _. apply reenq_work.
  - apply Forall_fmap. eapply Forall_impl; [apply Hi|]. intros r. apply reenq_entry.
Qed.

Lemma outcome_work next sched eos r r' :
  entry_ok next r -> commit_outcome sched eos r r' ->
  (work r' <= work r)%Z /\ (r' <> r -> work r' < work r)%Z.
Proof.
  intros (_ & _ & Hp & Hm & Hs) [c Hin Hst Hc|k b Hk Hst Hb|]; [| |done]; rewrite Hst in Hs;
    unfold work; rewrite Hst; simpl.
  - destruct (Z.eqb_spec c (tokens_pending r)); lia.
  - destruct (b || _)%bool; lia.
Qed.

Lemma sum_work_le f rs :
  (forall r, r ∈ rs -> work (f r) <= work r)%Z ->
  (total_work (f <$> rs) <= total_work rs)%Z /\
  ((exists r, r ∈ rs /\ work (f r) < work r)%Z -> (total_work (f <$> rs) < total_work rs)%Z).
Proof.
  induction rs as [|r rs IH]; intros Hle.
  { split; [done|]. intros (r & Hr & _). by apply not_elem_of_nil in Hr. }
  change (total_work (r :: rs)) with (work r + total_work rs)%Z.
  change (total_work (f <$> r :: rs)) with (work (f r) + total_work (f <$> rs))%Z.
  destruct IH as [IH1 IH2]. { intros; apply Hle. by right. }
  assert (work (f r) <= work r)%Z by (apply Hle; by left). split; [lia|].
  intros (r' & [->|Hr']%elem_of_cons & Hlt); [lia|].
  assert (total_work (f <$> rs) < total_work rs)%Z by (apply IH2; eauto). lia.
Qed.

Lemma serve_round_step s eos :
  inv s ->
  inv (serve_round s eos) /\
  (total_work (_requests (serve_round s eos)) <= total_work (_requests s))%Z /\
  (live_count (_requests s) <> 0%N ->
     (total_work (_requests (serve_round s eos)) < total_work (_requests s))%Z).
Proof.
  intros Hi. unfold serve_round. pose proof (tick_inv s Hi) as Hi'.
  pose proof (tick_assigned s Hi) as Has. pose proof (tick_work s Hi) as Hw.
  pose proof (tick_total s Hi) as [_ Hpos].
  pose proof (C.schedule_total (_prefillScheduler s) (active_slices (ticked s)) (inv_budget s Hi)) as Ht.
  pose proof (tick_state s Hi) as [_ Hsched]. fold (active_slices (ticked s)) in Hsched.
  cbv zeta in Ht. rewrite <- Hsched in Ht. clear Hsched.
  destruct (tick s) as [sched s1]. cbn [fst snd] in *.
  destruct (commit_spec s1 sched eos Hi' (assigned_op_ok _ _ eos Hi' Has)) as (Hi2 & _ & _ & Hr).
  split; [done|]. rewrite Hr, <- Hw.
  assert (Hout : forall r, r ∈ _requests s1 ->
    entry_ok (_nextRequestId s1) r /\
    commit_outcome sched eos r (advance (commit_steps sched eos) r)).
  { intros r Hin. split.
    - pose proof (inv_entries s1 Hi') as Hf. rewrite Forall_forall in Hf. by apply Hf.
    - apply (own_commit_outcome _ (_requests s1)); [by apply inv_nodup|done|done]. }
  destruct (sum_work_le (advance (commit_steps sched eos)) (_requests s1)) as [Hle Hlt].
  { intros r Hin. destruct (Hout r Hin) as [He Ho]. by apply (outcome_work _ _ _ _ _ He Ho). }
  split; [done|]. intros Hlive. apply Hlt. specialize (Hpos Hlive).
  assert (Hstep : forall r, r ∈ _requests s1 -> request_id r ∈ fst <$> commit_steps sched eos ->
    exists r, r ∈ _requests s1 /\ (work (advance (commit_steps sched eos) r) < work r)%Z).
  { intros r Hin Hid. exists r. split; [done|]. destruct (Hout r Hin) as [He Ho].
    apply (outcome_work _ _ _ _ _ He Ho). rewrite commit_steps_ids in Hid.
    apply elem_of_app in Hid. revert Ho. generalize (advance (commit_steps sched eos) r).
    intros r' Ho. destruct Ho as [c ? Hst Hc|k b ? Hst ?|Hd Hp]; [| |by destruct Hid];
      intros E; apply (f_equal (fun r => (tokens_pending r - tokens_decoded r)%Z)) in E;
      simpl in E; lia. }
  destruct Has. destruct (C.decodes sched) as [|d ds] eqn:Ed.
  - destruct (C.prefills sched) as [|p ps] eqn:Ep; [simpl in Ht; lia|].
    destruct (assigned_prefilling0 p) as (r & Hin & Hid & _); [by left|].
    apply (Hstep r Hin). rewrite commit_steps_ids, Ep, Hid. by left.
  - destruct (assigned_decoding0 d) as (r & Hin & Hid & _); [by left|].
    apply (Hstep r Hin). rewrite commit_steps_ids, Ed, Hid. apply elem_of_app. right. by left.
Qed.

(** C12: the serving loop terminates: from any consistent state, running at
    most [total_work] iterations (tick, run, commit) - whatever EOS flags the
    engine reports - completes every registered request. *)
Theorem serving_completes s eoss :
  inv s -> (total_work (_requests s) <= Z.of_nat (length eoss))%Z ->
  live_count (_requests (fold_left serve_round eoss s)) = 0%N /\
  inv (fold_left serve_round eoss s).
Proof.
  revert s. induction eoss as [|eos eoss IH]; intros s Hi Hw; cbn [fold_left length] in *.
  - destruct (total_work_zero _ _ (inv_entries s Hi)) as [Hge Hz].
    split; [apply Hz; lia|done].
  - destruct (serve_round_step s eos Hi) as (Hi' & Hle & Hlt).
    destruct (total_work_zero _ _ (inv_entries s Hi)) as [Hge Hz].
    destruct (total_work_zero _ _ (inv_entries _ Hi')) as [Hge' Hz'].
    apply IH; [done|]. destruct (decide (live_count (_requests s) = 0%N)) as [Hl|Hl].
    + assert (total_work (_requests s) = 0)%Z; [|lia].
      assert (Hzero : forall rs, live_count rs = 0%N -> total_work rs = 0%Z); [|auto].
      intros rs. induction rs as [|r rs IHr]; [done|]. rewrite live_count_cons.
      change (total_work (r :: rs)) with (work r + total_work rs)%Z.
      destruct (is_completed r) eqn:Hc; [|lia]. intros H0. rewrite IHr by lia.
      unfold is_completed in Hc. apply bool_decide_eq_true in Hc. unfold work. by rewrite Hc.
    + specialize (Hlt Hl). lia.
Qed.

Lemma serving_completes_witness :
  let eoss := replicate 8 [] in
  live_count (_requests demo_state) = 2%N /\
  live_count (_requests (fold_left serve_round eoss demo_state)) = 0%N /\
  inv (fold_left serve_round eoss demo_state).
Proof.
  split; [vm_compute; reflexivity|].
  apply (serving_completes demo_state (replicate 8 []) demo_inv). vm_compute. congruence.
Defined.

(** preemption picks the newest active request (the highest admission
    number), marks it preempted, gives exactly its blocks back to the pool and
    touches no other request; it answers 0 and changes nothing exactly when
    nothing is active. *)
Theorem preempt_one_lifo s :
  inv s ->
  let '(id, s') := preemptOne s in
  inv s' /\
  (id = 0%N <-> active_count (_requests s) = 0%N) /\
  (id = 0%N -> s' = s) /\
  (id <> 0%N -> exists i r,
     newest (_requests s) i r /\ request_id r = id /\
     _requests s' = <[i := preempted r]> (_requests s) /\
     _totalPreempted s' = u64 (_totalPreempted s + 1) /\
     forall a, _allocator s = Some a -> exists a' q,
       _allocator s' = Some a' /\ kv_sequence r = Some q /\
       A.numBlocksFree a' = A.numBlocksFree a + length (S._blockTable q)).
Proof.
  intros Hi. pose proof (preempt_state s Hi) as Hp. pose proof (find_victim_spec (_requests s)) as Hv.
  destruct (find_victim 0 (_requests s) None) as [[i r]|].
  2: { rewrite Hp. by rewrite Hv. }
  destruct Hp as (s' & -> & Hi' & Hfr & Ha & Hr & Htp & _).
  pose proof Hv as (Hir & Hact & _). destruct (inv_entry s i r Hi Hir) as (_ & Hid & _).
  split; [done|]. split.
  { split; [lia|]. intros Hz. rewrite <- (take_drop_middle _ _ _ Hir) in Hz.
    rewrite active_count_app, active_count_cons, Hact in Hz. lia. }
  split; [lia|]. intros _. exists i, r. do 4 (split; [done|]).
  intros a Has. rewrite Ha. unfold released. rewrite Has.
  pose proof (inv_kv s Hi) as Hk. pose proof (inv_kv s' Hi') as Hk'.
  rewrite Ha, Hr in Hk'. unfold released in Hk'. rewrite Has in Hk, Hk'.
  destruct (insert_perm _ i r (preempted r) Hir) as (k & Hp & Hp').
  rewrite Hp in Hk. rewrite Hp' in Hk'. apply kv_ok_cons in Hk as (q & Hq & (Hwf & _ & _ & Ho) & _).
  rewrite Hq in Hk' |- *. exists (S.releaseAllBlocks a q), q. split; [done|]. split; [done|].
  apply kv_ok_cons in Hk' as (q' & Hq' & (Hwf' & _ & _ & Ho') & _).
  unfold preempted in Hq'. simpl in Hq'. rewrite Hq in Hq'. simplify_eq/=.
  destruct (owned_counters _ _ Hwf Ho) as [_ Hc]. destruct (owned_counters _ _ Hwf' Ho') as [_ Hc'].
  assert (Htot : A.numBlocksTotal (S.releaseAllBlocks a q) = A.numBlocksTotal a).
  { unfold S.releaseAllBlocks, A.numBlocksTotal. case_match; [|done]. apply S.release_list_total. }
  rewrite length_app in Hc. lia.
Qed.

Lemma preempt_one_lifo_witness :
  (preemptOne demo_state).1 = 1%N /\
  let '(id, s') := preemptOne demo_state in
  inv s' /\
  (id = 0%N <-> active_count (_requests demo_state) = 0%N) /\
  (id = 0%N -> s' = demo_state) /\
  (id <> 0%N -> exists i r,
     newest (_requests demo_state) i r /\ request_id r = id /\
     _requests s' = <[i := preempted r]> (_requests demo_state) /\
     _totalPreempted s' = u64 (_totalPreempted demo_state + 1) /\
     forall a, _allocator demo_state = Some a -> exists a' q,
       _allocator s' = Some a' /\ kv_sequence r = Some q /\
       A.numBlocksFree a' = A.numBlocksFree a + length (S._blockTable q)).
Proof.
  split; [vm_compute; reflexivity|]. apply (preempt_one_lifo demo_state), demo_inv.
Defined.

Lemma find_spec s id r : inv s -> find s id = Some r <-> r ∈ _requests s /\ request_id r = id.
Proof.
  intros Hi. unfold find. rewrite fmap_Some, list_elem_of_lookup. split.
  - intros ([i r'] & Hf & ->). apply (findMut_spec s id i r' Hi) in Hf as [? ?]. eauto.
  - intros [[i Hr] He]. exists (i, r). split; [by apply findMut_spec|done].
Qed.

(** Draining returns the completed requests in admission order, keeps
    exactly the others - each still found by its id - and returns exactly the
    drained requests' blocks to the pool. *)
Theorem drain_completed_spec s :
  inv s ->
  let '(drained, s') := drainCompleted s in
  inv s' /\ drained = request_id <$> List.filter is_completed (_requests s) /\
  numCompleted s' = 0%N /\
  (forall id r, find s' id = Some r <-> find s id = Some r /\ state r <> Completed) /\
  forall a, _allocator s = Some a -> exists a',
    _allocator s' = Some a' /\
    A.numBlocksFree a' =
      A.numBlocksFree a +
      length (concat (S._blockTable <$> seqs (List.filter is_completed (_requests s)))).
Proof.
  intros Hi. pose proof (drain_inv s Hi) as Hi'. unfold drainCompleted in *. cbn [snd] in Hi'.
  set (s' := s <| _allocator := _ |> <| _requests := _ |> <| _stateCount := _ |>
               <| _indexById := _ |>) in *.
  split; [done|]. split; [done|]. split.
  { unfold numCompleted. rewrite stateCount_counts by apply Hi'.
    pose proof (inv_counts s' Hi') as Hc. apply (f_equal (fun l => l !! 3)) in Hc.
    simpl in Hc. rewrite (inv_counts s Hi) in Hc. simpl in Hc. by simplify_eq. }
  split.
  { intros id r. rewrite (find_spec s' id r Hi'), (find_spec s id r Hi).
    change (_requests s') with (kept s). unfold kept.
    rewrite (list_elem_of_In (List.filter _ _) r), filter_In, <- list_elem_of_In.
    unfold is_completed. rewrite negb_true_iff, bool_decide_eq_false. tauto. }
  intros a Ha. pose proof (inv_kv s Hi) as Hk. pose proof (inv_kv s' Hi') as Hk'.
  rewrite Ha in Hk. rewrite (filter_partition (_requests s) is_completed) in Hk.
  change (_allocator s') with
    (fold_left destroyKv (List.filter is_completed (_requests s)) (_allocator s)) in *.
  change (_requests s') with (kept s) in Hk'. rewrite Ha in Hk' |- *.
  assert (Hfold : forall cs a, exists a', fold_left destroyKv cs (Some a) = Some a' /\
    A.numBlocksTotal a' = A.numBlocksTotal a).
  { induction cs as [|c cs IH]; intros a0; cbn [fold_left]; [eauto|].
    unfold destroyKv at 2. destruct (kv_sequence c) as [q|]; [|apply IH].
    destruct (IH (S.destroy a0 q)) as (a' & He & Ht). exists a'. split; [done|]. rewrite Ht.
    unfold S.destroy, S.releaseAllBlocks, A.numBlocksTotal. case_match; [|done].
    apply S.release_list_total. }
  destruct (Hfold (List.filter is_completed (_requests s)) a) as (a' & He & Ht).
  exists a'. split; [done|]. rewrite He in Hk'.
  destruct Hk as (Hwf & _ & _ & Ho), Hk' as (Hwf' & _ & _ & Ho').
  destruct (owned_counters _ _ Hwf Ho) as [_ Hc]. destruct (owned_counters _ _ Hwf' Ho') as [_ Hc'].
  unfold kept, seqs in *. rewrite omap_app, fmap_app, concat_app, length_app in Hc. lia.
Qed.

Lemma drain_completed_spec_witness :
  let s := serve_round demo_state [1%N] in
  (drainCompleted s).1 = [1%N] /\
  let '(drained, s') := drainCompleted s in
  inv s' /\ drained = request_id <$> List.filter is_completed (_requests s) /\
  numCompleted s' = 0%N /\
  (forall id r, find s' id = Some r <-> find s id = Some r /\ state r <> Completed) /\
  forall a, _allocator s = Some a -> exists a',
    _allocator s' = Some a' /\
    A.numBlocksFree a' =
      A.numBlocksFree a +
      length (concat (S._blockTable <$> seqs (List.filter is_completed (_requests s)))).
Proof.
  split; [vm_compute; reflexivity|].
  apply (drain_completed_spec (serve_round demo_state [1%N])).
  apply serve_round_step, demo_inv.
Defined.

End RequestSchedulerProofs.
