(* ===== verification/PrefixIndex.v ===== *)
(** * [GdnPrefixIndex]: block-aligned token prefixes to payload ids

    Models [src/src/runtime/serving/GdnPrefixIndex.hpp], with pins and bounded
    LRU.  The three hash maps of the index are kept as they are;
    [unordered_map::at] throws on an absent key, which the invariant rules out.
    The store of device images under it is in [SlotState.v]. *)

From S2P Require Import Prelude.

Module GdnPrefixIndex.

(** [src/src/runtime/serving/GdnPrefixIndex.hpp:37-37 kNone] *)
Definition kNone : N := 0.

(** [src/src/runtime/serving/GdnPrefixIndex.hpp:136-141 Entry] *)
Record Entry := mkEntry {
  tokens : list Z;
  payload : N;
  refcount : N;
  lastUsed : N;
}.

Definition eta_entry (e : Entry) : Entry :=
  mkEntry (tokens e) (payload e) (refcount e) (lastUsed e).
#[global] Instance set_refcount : FieldSetter refcount := ltac:(build_setter eta_entry refcount).
#[global] Instance set_lastUsed : FieldSetter lastUsed := ltac:(build_setter eta_entry lastUsed).

(** [src/src/runtime/serving/GdnPrefixIndex.hpp:186-191 GdnPrefixIndex] *)
Record t := mkIndex {
  _blockSize : nat;
  _maxEntries : nat;
  _tick : N;
  _entries : gmap N Entry;
  _byHash : gmap N (list N);
  _payloadHash : gmap N N;
}.

Definition eta_index (x : t) : t :=
  mkIndex (_blockSize x) (_maxEntries x) (_tick x) (_entries x) (_byHash x) (_payloadHash x).
#[global] Instance set_tick : FieldSetter _tick := ltac:(build_setter eta_index _tick).
#[global] Instance set_entries : FieldSetter _entries := ltac:(build_setter eta_index _entries).

(** [src/src/runtime/serving/GdnPrefixIndex.hpp:42-43 GdnPrefixIndex] *)
Definition create (blockSize maxEntries : nat) : t :=
  mkIndex (if (blockSize =? 0)%nat then 512 else blockSize) maxEntries 0 ∅ ∅ ∅.

(** [src/src/runtime/serving/GdnPrefixIndex.hpp:45-49 Hit] *)
Record Hit := mkHit { found : bool; pos : nat; hit_payload : N }.
Definition no_hit : Hit := mkHit false 0 kNone.

(** [src/src/runtime/serving/GdnPrefixIndex.hpp:143-150 hashTokens] *)
Definition hashTokens (toks : list Z) : N :=
  fold_left (fun h tok => u64 (N.lxor h (u32_of_Z tok) * 1099511628211)) toks 1469598103934665603%N.

(** The scan of one bucket for an exact token match.
    [src/src/runtime/serving/GdnPrefixIndex.hpp:65-73 GdnPrefixIndex::lookup] *)
Fixpoint scan_bucket (entries : gmap N Entry) (prefix : list Z) (bucket : list N)
  : result (option N) :=
  match bucket with
  | [] => Ok None
  | pid :: bucket =>
      match entries !! pid with
      | None => Throw (OutOfRange "unordered_map::at")
      | Some e =>
          if decide (tokens e = prefix) then Ok (Some pid) else scan_bucket entries prefix bucket
      end
  end.

(** [e.lastUsed = ++_tick] on the entry of [pid]. *)
Definition touch (x : t) (pid : N) : t :=
  let tick := u64 (_tick x + 1) in
  x <| _tick := tick |> <| _entries := alter (fun e => e <| lastUsed := tick |>) pid (_entries x) |>.

(** The loop over the block-aligned prefixes, longest first; [k] blocks.
    [src/src/runtime/serving/GdnPrefixIndex.hpp:58-75 GdnPrefixIndex::lookup] *)
Fixpoint lookup_from (x : t) (prompt : list Z) (k : nat) : result (Hit * t) :=
  match k with
  | 0 => Ok (no_hit, x)
  | S k' =>
      let p := k * _blockSize x in
      match _byHash x !! hashTokens (take p prompt) with
      | None => lookup_from x prompt k'
      | Some bucket =>
          match scan_bucket (_entries x) (take p prompt) bucket with
          | Throw e => Throw e
          | Ok (Some pid) => Ok (mkHit true p pid, touch x pid)
          | Ok None => lookup_from x prompt k'
          end
      end
  end.

(** [prompt] is [None] for a null pointer.
    [src/src/runtime/serving/GdnPrefixIndex.hpp:54-76 GdnPrefixIndex::lookup] *)
Definition lookup (x : t) (prompt : option (list Z)) : result (Hit * t) :=
  match prompt with
  | None => Ok (no_hit, x)
  | Some prompt =>
      if (length prompt <? _blockSize x)%nat then Ok (no_hit, x)
      else lookup_from x prompt (length prompt / _blockSize x)
  end.

(** Swap-with-back removal of [pid] from a bucket.
    [src/src/runtime/serving/GdnPrefixIndex.hpp:157-160 GdnPrefixIndex::eraseEntry] *)
Definition bucket_remove (pid : N) (v : list N) : list N :=
  match list_find (fun x => x = pid) v with
  | None => v
  | Some (i, _) => take (length v - 1) (<[i := default 0%N (last v)]> v)
  end.

(** [src/src/runtime/serving/GdnPrefixIndex.hpp:152-166 GdnPrefixIndex::eraseEntry] *)
Definition eraseEntry (x : t) (pid : N) : t :=
  match _payloadHash x !! pid with
  | None => mkIndex (_blockSize x) (_maxEntries x) (_tick x) (delete pid (_entries x)) (_byHash x)
              (_payloadHash x)
  | Some h =>
      let byHash :=
        match _byHash x !! h with
        | None => _byHash x
        | Some v =>
            let v := bucket_remove pid v in
            if decide (v = []) then delete h (_byHash x) else <[h := v]> (_byHash x)
        end in
      mkIndex (_blockSize x) (_maxEntries x) (_tick x) (delete pid (_entries x)) byHash
        (delete pid (_payloadHash x))
  end.

(** The scan for the unpinned entry with the least [lastUsed], in the map's
    iteration order.
    [src/src/runtime/serving/GdnPrefixIndex.hpp:170-177 GdnPrefixIndex::evictIfNeeded] *)
Definition find_victim (entries : gmap N Entry) : N :=
  (fold_left (fun '(victim, best) '(pid, e) =>
     if (refcount e =? 0)%N && (lastUsed e <? best)%N then (pid, lastUsed e) else (victim, best))
     (map_to_list entries) (kNone, 2 ^ 64 - 1)%N).1.

(** The eviction loop; [fuel] bounds its iterations.
    [src/src/runtime/serving/GdnPrefixIndex.hpp:169-183 GdnPrefixIndex::evictIfNeeded] *)
Fixpoint evict_loop (fuel : nat) (x : t) (evicted : list N) : list N * t :=
  match fuel with
  | 0 => (evicted, x)
  | S fuel =>
      if ((0 <? _maxEntries x) && (_maxEntries x <? size (_entries x)))%nat then
        let victim := find_victim (_entries x) in
        if (victim =? kNone)%N then (evicted, x)
        else evict_loop fuel (eraseEntry x victim) (evicted ++ [victim])
      else (evicted, x)
  end.
(** [src/src/runtime/serving/GdnPrefixIndex.hpp:168-184 GdnPrefixIndex::evictIfNeeded] *)
Definition evictIfNeeded (x : t) (evicted : list N) : list N * t :=
  evict_loop (size (_entries x)) x evicted.

(** [tokens] holds at least [p] tokens; [None] for a null pointer.
    [src/src/runtime/serving/GdnPrefixIndex.hpp:84-111 GdnPrefixIndex::insert] *)
Definition insert (x : t) (toks : option (list Z)) (p : nat) (pid : N) (evicted : list N)
  : result (list N * t) :=
  match toks with
  | None => Ok (evicted, x)
  | Some toks =>
      if (p =? 0)%nat || negb (p mod _blockSize x =? 0)%nat || (pid =? kNone)%N ||
         bool_decide (is_Some (_entries x !! pid))
      then Ok (evicted, x)
      else
        let prefix := take p toks in
        let h := hashTokens prefix in
        let bucket := default [] (_byHash x !! h) in
        match scan_bucket (_entries x) prefix bucket with
        | Throw e => Throw e
        | Ok (Some dup) => Ok (evicted ++ [pid], touch x dup)
        | Ok None =>
            let tick := u64 (_tick x + 1) in
            let e := mkEntry prefix pid 0 tick in
            let x := mkIndex (_blockSize x) (_maxEntries x) tick (<[pid := e]> (_entries x))
                       (<[h := bucket ++ [pid]]> (_byHash x)) (emplace pid h (_payloadHash x)) in
            Ok (evictIfNeeded x evicted)
        end
  end.

(** [src/src/runtime/serving/GdnPrefixIndex.hpp:115-120 GdnPrefixIndex::acquire] *)
Definition acquire (x : t) (pid : N) : t :=
  x <| _entries := alter (fun e => e <| refcount := u64 (refcount e + 1) |>) pid (_entries x) |>.

(** [src/src/runtime/serving/GdnPrefixIndex.hpp:121-126 GdnPrefixIndex::release] *)
Definition release (x : t) (pid : N) : t :=
  match _entries x !! pid with
  | None => x
  | Some e =>
      if (0 <? refcount e)%N then
        x <| _entries := <[pid := e <| refcount := (refcount e - 1)%N |>]> (_entries x) |>
      else x
  end.

(** [src/src/runtime/serving/GdnPrefixIndex.hpp:128-128 size] *)
Definition count (x : t) : nat := size (_entries x).
(** [src/src/runtime/serving/GdnPrefixIndex.hpp:130-133 refcount] *)
Definition refcountOf (x : t) (pid : N) : N :=
  match _entries x !! pid with Some e => refcount e | None => 0%N end.

(** ** Invariant *)

Definition bucket (x : t) (h : N) : list N := default [] (_byHash x !! h).

(** [pid] holds the prefix [toks]. *)
Definition cached (x : t) (toks : list Z) (pid : N) : Prop :=
  exists e, _entries x !! pid = Some e /\ tokens e = toks.

Record entry_ok (x : t) (pid : N) (e : Entry) : Prop := {
  entry_payload : payload e = pid;
  entry_not_none : pid <> kNone;
  entry_nonempty : 0 < length (tokens e);
  entry_aligned : length (tokens e) mod _blockSize x = 0;
  entry_used : (lastUsed e <= _tick x)%N;
}.

(** The three maps agree, prefixes and access times are unique. *)
Record wf (x : t) : Prop := {
  wf_blockSize : 0 < _blockSize x;
  wf_entries : forall pid e, _entries x !! pid = Some e -> entry_ok x pid e;
  wf_bucket : forall h pid, pid ∈ bucket x h <->
    exists e, _entries x !! pid = Some e /\ hashTokens (tokens e) = h;
  wf_bucket_nodup : forall h, NoDup (bucket x h);
  wf_hash : forall pid h, _payloadHash x !! pid = Some h <->
    exists e, _entries x !! pid = Some e /\ hashTokens (tokens e) = h;
  wf_tokens : forall pid pid' e e', _entries x !! pid = Some e -> _entries x !! pid' = Some e' ->
    tokens e = tokens e' -> pid = pid';
  wf_used : forall pid pid' e e', _entries x !! pid = Some e -> _entries x !! pid' = Some e' ->
    lastUsed e = lastUsed e' -> pid = pid';
}.

(** The LRU bound. *)
Definition bounded (x : t) : Prop := _maxEntries x = 0 \/ size (_entries x) <= _maxEntries x.

Lemma create_index_wf bs m : wf (create bs m) /\ bounded (create bs m).
Proof.
  split; [|right; apply Nat.le_0_l].
  split; simpl; try (intros *; rewrite ?lookup_empty; done).
  - destruct (Nat.eqb_spec bs 0); lia.
  - intros h pid. unfold bucket. simpl. rewrite lookup_empty. simpl. rewrite elem_of_nil.
    setoid_rewrite lookup_empty. naive_solver.
  - intros h. unfold bucket. simpl. rewrite lookup_empty. constructor.
  - intros pid h. setoid_rewrite lookup_empty. naive_solver.
Qed.

(** ** Bucket scans *)

Lemma scan_bucket_spec entries prefix v :
  (forall pid, pid ∈ v -> is_Some (entries !! pid)) ->
  match scan_bucket entries prefix v with
  | Ok (Some pid) => pid ∈ v /\ exists e, entries !! pid = Some e /\ tokens e = prefix
  | Ok None => forall pid e, pid ∈ v -> entries !! pid = Some e -> tokens e <> prefix
  | Throw _ => False
  end.
Proof.
  induction v as [|pid v IH]; intros Hv; simpl.
  { intros pid e Hin. by apply not_elem_of_nil in Hin. }
  destruct (Hv pid) as [e He]; [by left|]. rewrite He. case_decide as Hd.
  { split; [by left|]. eauto. }
  assert (Hv' : forall pid, pid ∈ v -> is_Some (entries !! pid)) by (intros; apply Hv; by right).
  specialize (IH Hv'). destruct (scan_bucket entries prefix v) as [[pid'|]|]; [| |done].
  - destruct IH as [? ?]. split; [by right|done].
  - intros pid' e' [->|Hin]%elem_of_cons He'; [congruence|eauto].
Qed.

(** In a well-formed index, scanning the bucket of a prefix decides whether the
    prefix is cached - hash collisions included - and never throws. *)
Lemma scan_wf x prefix :
  wf x ->
  match scan_bucket (_entries x) prefix (bucket x (hashTokens prefix)) with
  | Ok (Some pid) => cached x prefix pid
  | Ok None => forall pid, ~ cached x prefix pid
  | Throw _ => False
  end.
Proof.
  intros []. pose proof (scan_bucket_spec (_entries x) prefix (bucket x (hashTokens prefix))) as H.
  assert (Hv : forall pid, pid ∈ bucket x (hashTokens prefix) -> is_Some (_entries x !! pid)).
  { intros pid Hin. apply wf_bucket0 in Hin as (? & ? & _). eauto. }
  specialize (H Hv). destruct (scan_bucket _ _ _) as [[pid|]|]; [by apply H| |done].
  intros pid (e & He & Ht). apply (H pid e); [|done|done].
  apply wf_bucket0. exists e. by rewrite Ht.
Qed.

Lemma scan_empty_bucket x prefix :
  wf x -> _byHash x !! hashTokens prefix = None -> forall pid, ~ cached x prefix pid.
Proof.
  intros [] Hb pid (e & He & Ht). assert (Hin : pid ∈ bucket x (hashTokens prefix)).
  { apply wf_bucket0. exists e. by rewrite Ht. }
  unfold bucket in Hin. rewrite Hb in Hin. by apply not_elem_of_nil in Hin.
Qed.

(** ** Preservation *)

(** An update of the entries that keeps keys, tokens and payloads. *)
Lemma wf_entries_change x x' :
  wf x -> _blockSize x' = _blockSize x -> _byHash x' = _byHash x ->
  _payloadHash x' = _payloadHash x ->
  (forall pid, match _entries x !! pid, _entries x' !! pid with
     | Some e, Some e' => tokens e' = tokens e /\ payload e' = payload e /\ (lastUsed e' <= _tick x')%N
     | None, None => True
     | _, _ => False
     end) ->
  (forall pid pid' e e', _entries x' !! pid = Some e -> _entries x' !! pid' = Some e' ->
    lastUsed e = lastUsed e' -> pid = pid') ->
  wf x'.
Proof.
  intros [] Hb Hh Hp He Hu.
  assert (Hold : forall pid e', _entries x' !! pid = Some e' -> exists e,
    _entries x !! pid = Some e /\ tokens e' = tokens e /\ payload e' = payload e /\
    (lastUsed e' <= _tick x')%N).
  { intros pid e' He'. specialize (He pid). rewrite He' in He.
    destruct (_entries x !! pid) as [e|]; [|done]. eauto. }
  assert (Hiff : forall pid h, (exists e, _entries x' !! pid = Some e /\ hashTokens (tokens e) = h) <->
    (exists e, _entries x !! pid = Some e /\ hashTokens (tokens e) = h)).
  { intros pid h. specialize (He pid).
    destruct (_entries x !! pid) as [e|], (_entries x' !! pid) as [e'|]; try done.
    destruct He as (Ht & _). split; intros (? & ? & <-); simplify_eq; [exists e|exists e']; by rewrite Ht. }
  split.
  - by rewrite Hb.
  - intros pid e' He'. destruct (Hold pid e' He') as (e & Hx & Ht & Hpl & Hle).
    destruct (wf_entries0 _ _ Hx). split; rewrite ?Ht, ?Hpl, ?Hb; done.
  - intros h pid. unfold bucket. rewrite Hh, Hiff. apply wf_bucket0.
  - intros h. unfold bucket. rewrite Hh. apply wf_bucket_nodup0.
  - intros pid h. rewrite Hp, Hiff. apply wf_hash0.
  - intros pid pid' e e' H1 H2 Ht. apply Hold in H1 as (e1 & ? & ? & _).
    apply Hold in H2 as (e2 & ? & ? & _). eapply wf_tokens0; [done|done|congruence].
  - done.
Qed.

Lemma touch_wf x pid : wf x -> (_tick x < 2 ^ 64 - 1)%N -> wf (touch x pid).
Proof.
  intros Hwf Ht. pose proof (wf_entries x Hwf) as He. pose proof (wf_used x Hwf) as Hu.
  unfold touch. rewrite u64_small by lia.
  assert (Hl : forall p, alter (fun e => e <| lastUsed := (_tick x + 1)%N |>) pid (_entries x) !! p =
    (if decide (p = pid) then fun e => e <| lastUsed := (_tick x + 1)%N |> else id) <$> _entries x !! p).
  { intros p. case_decide as Hd; [subst; by rewrite lookup_alter_eq|].
    rewrite lookup_alter_ne by done. by destruct (_entries x !! p). }
  eapply wf_entries_change; try done; simpl.
  - intros p. rewrite Hl. destruct (_entries x !! p) as [e|] eqn:Hp; simpl; [|done].
    pose proof (entry_used _ _ _ (He p e Hp)). case_decide; simpl; (split; [done|split; [done|lia]]).
  - intros p p' e e'. rewrite !Hl.
    destruct (_entries x !! p) as [e1|] eqn:H1; [|done].
    destruct (_entries x !! p') as [e2|] eqn:H2; [|done].
    pose proof (entry_used _ _ _ (He p e1 H1)). pose proof (entry_used _ _ _ (He p' e2 H2)).
    simpl. intros [= <-] [= <-]. repeat case_decide; simpl; subst; try done; try lia.
    intros. by apply (Hu p p' e1 e2).
Qed.

Lemma touch_size x pid : size (_entries (touch x pid)) = size (_entries x).
Proof. unfold touch. simpl. rewrite <- !size_dom. by rewrite dom_alter_L. Qed.

Lemma bucket_remove_perm pid v : pid ∈ v -> NoDup v -> v ≡ₚ pid :: bucket_remove pid v.
Proof.
  intros Hin Hnd. unfold bucket_remove.
  destruct (list_find (fun x => x = pid) v) as [[i y]|] eqn:Hf.
  2: { apply list_find_None in Hf. rewrite Forall_forall in Hf. by destruct (Hf pid Hin). }
  apply list_find_Some in Hf as (Hi & -> & _).
  destruct v as [|z l] using rev_ind; [done|]. clear IHl.
  rewrite last_snoc, length_app. simpl. replace (length l + 1 - 1) with (length l) by lia.
  apply lookup_app_Some in Hi as [Hi|[Hge Hi]].
  - rewrite insert_app_l by (by eapply lookup_lt_Some).
    rewrite take_app_le by (rewrite length_insert; lia).
    rewrite take_ge by (rewrite length_insert; lia).
    destruct (insert_perm l i pid z Hi) as (k & Hp & ->).
    rewrite Hp. rewrite <- app_comm_cons. f_equiv. rewrite <- Permutation_cons_append. done.
  - apply list_lookup_singleton_Some in Hi as [Hi ->].
    replace i with (length l + 0) by lia. rewrite insert_app_r. simpl.
    rewrite take_app_length. by rewrite <- Permutation_cons_append.
Qed.

Lemma erase_entries x pid : _entries (eraseEntry x pid) = delete pid (_entries x).
Proof. unfold eraseEntry. by destruct (_payloadHash x !! pid). Qed.

Lemma erase_frame x pid :
  _blockSize (eraseEntry x pid) = _blockSize x /\ _maxEntries (eraseEntry x pid) = _maxEntries x /\
  _tick (eraseEntry x pid) = _tick x.
Proof. unfold eraseEntry. by destruct (_payloadHash x !! pid). Qed.

(** Erasing takes [pid] out of its bucket and leaves the others alone. *)
Lemma erase_bucket x pid h : wf x -> is_Some (_entries x !! pid) ->
  (forall q, q ∈ bucket (eraseEntry x pid) h <-> q ∈ bucket x h /\ q <> pid) /\
  NoDup (bucket (eraseEntry x pid) h).
Proof.
  intros Hwf [e He]. pose proof (proj2 (wf_hash x Hwf pid (hashTokens (tokens e)))) as Hh.
  specialize (Hh ltac:(eauto)). remember (hashTokens (tokens e)) as h0 eqn:Hdef.
  assert (Hin : pid ∈ bucket x h0) by (apply (wf_bucket x Hwf); eauto).
  pose proof (wf_bucket_nodup x Hwf h) as Hnd.
  unfold eraseEntry. rewrite Hh. unfold bucket at 1 3. simpl.
  destruct (_byHash x !! h0) as [v|] eqn:Hv.
  2: { unfold bucket in Hin. rewrite Hv in Hin. by apply not_elem_of_nil in Hin. }
  assert (Hb0 : bucket x h0 = v) by (unfold bucket; by rewrite Hv).
  assert (Hl : default [] ((if decide (bucket_remove pid v = []) then delete h0 (_byHash x)
    else <[h0 := bucket_remove pid v]> (_byHash x)) !! h) =
    if decide (h = h0) then bucket_remove pid v else bucket x h).
  { case_decide as Hd; case_decide as Hh0; rewrite ?Hh0.
    - by rewrite lookup_delete_eq, Hd.
    - by rewrite lookup_delete_ne.
    - by rewrite lookup_insert_eq.
    - by rewrite lookup_insert_ne. }
  rewrite Hl. destruct (decide (h = h0)) as [->|Hd].
  - rewrite Hb0 in *. pose proof (bucket_remove_perm pid v Hin Hnd) as Hp.
    rewrite Hp in Hnd. apply NoDup_cons in Hnd as [Hni Hnd']. split; [|done].
    intros q. assert (Hq : q ∈ v <-> q ∈ pid :: bucket_remove pid v) by (by rewrite <- Hp).
    rewrite Hq, elem_of_cons. naive_solver.
  - split; [|done]. intros q. split; [|by intros []]. intros Hq. split; [done|]. intros ->.
    apply (wf_bucket x Hwf) in Hq as (e' & He' & <-). by simplify_eq.
Qed.

Lemma erase_wf x pid : wf x -> is_Some (_entries x !! pid) -> wf (eraseEntry x pid).
Proof.
  intros Hwf Hp. pose proof (fun h => erase_bucket x pid h Hwf Hp) as Hb.
  destruct (erase_frame x pid) as (F1 & F2 & F3). pose proof Hwf as [].
  assert (Hex : forall q h, (exists e, _entries (eraseEntry x pid) !! q = Some e /\
      hashTokens (tokens e) = h) <->
    (exists e, _entries x !! q = Some e /\ hashTokens (tokens e) = h) /\ q <> pid).
  { intros q h. rewrite erase_entries. setoid_rewrite lookup_delete_Some. naive_solver. }
  split.
  - by rewrite F1.
  - intros q e Hq. rewrite erase_entries in Hq. apply lookup_delete_Some in Hq as [_ Hq].
    destruct (wf_entries0 q e Hq). split; rewrite ?F1, ?F3; done.
  - intros h q. rewrite Hex. destruct (Hb h) as [-> _]. by rewrite wf_bucket0.
  - intros h. apply (Hb h).
  - intros q h. rewrite Hex. rewrite <- wf_hash0. destruct Hp as [e He].
    assert (_payloadHash x !! pid = Some (hashTokens (tokens e))) as Hh
      by (apply wf_hash0; eauto).
    unfold eraseEntry. rewrite Hh. simpl. rewrite lookup_delete_Some. naive_solver.
  - intros q q' e e'. rewrite !erase_entries, !lookup_delete_Some. naive_solver.
  - intros q q' e e'. rewrite !erase_entries, !lookup_delete_Some. naive_solver.
Qed.

(** A new entry under a fresh id and a new prefix. *)
Definition add (x : t) (prefix : list Z) (pid : N) : t :=
  let h := hashTokens prefix in
  let tick := u64 (_tick x + 1) in
  mkIndex (_blockSize x) (_maxEntries x) tick (<[pid := mkEntry prefix pid 0 tick]> (_entries x))
    (<[h := bucket x h ++ [pid]]> (_byHash x)) (emplace pid h (_payloadHash x)).

Lemma add_wf x prefix pid :
  wf x -> _entries x !! pid = None -> pid <> kNone -> (forall q, ~ cached x prefix q) ->
  0 < length prefix -> length prefix mod _blockSize x = 0 -> (_tick x < 2 ^ 64 - 1)%N ->
  wf (add x prefix pid).
Proof.
  intros Hwf Hnew Hne Hnc Hlen Hal Ht. pose proof Hwf as [].
  unfold add. rewrite u64_small by lia.
  assert (Hph : _payloadHash x !! pid = None).
  { destruct (_payloadHash x !! pid) as [h|] eqn:E; [|done].
    apply wf_hash0 in E as (e & ? & _). congruence. }
  rewrite (emplace_fresh _ _ _ Hph).
  set (e0 := mkEntry prefix pid 0 _). set (x' := mkIndex _ _ _ _ _ _).
  assert (Hbk : forall h, bucket x' h =
    if decide (h = hashTokens prefix) then bucket x h ++ [pid] else bucket x h).
  { intros h. unfold bucket, x'. simpl. case_decide; subst.
    - by rewrite lookup_insert_eq.
    - by rewrite lookup_insert_ne. }
  assert (Hlk : forall q e, _entries x' !! q = Some e <->
    (q = pid /\ e = e0) \/ (q <> pid /\ _entries x !! q = Some e)).
  { intros q e. unfold x'. simpl. rewrite lookup_insert_Some. naive_solver. }
  assert (Hex : forall q h, (exists e, _entries x' !! q = Some e /\ hashTokens (tokens e) = h) <->
    (q = pid /\ h = hashTokens prefix) \/
    (exists e, _entries x !! q = Some e /\ hashTokens (tokens e) = h)).
  { intros q h. setoid_rewrite Hlk. split.
    - intros (e & [[-> ->]|[? ?]] & Hh); eauto.
    - intros [[-> ->]|(e & He & Hh)]; [by exists e0; eauto|].
      exists e. split; [|done]. right. split; [congruence|done]. }
  split.
  - done.
  - intros q e He. apply Hlk in He as [[-> ->]|[? He]].
    + by split.
    + destruct (wf_entries0 q e He). split; try done. simpl. lia.
  - intros h q. rewrite Hex, Hbk. rewrite <- wf_bucket0. case_decide as Hd.
    + rewrite elem_of_app, list_elem_of_singleton. naive_solver.
    + naive_solver.
  - intros h. rewrite Hbk. case_decide as Hd; [|done]. apply NoDup_app. split; [done|].
    split; [|by apply NoDup_singleton].
    intros q Hq ->%list_elem_of_singleton. apply wf_bucket0 in Hq as (e & ? & _). congruence.
  - intros q h. rewrite Hex. unfold x'. simpl. rewrite lookup_insert_Some, wf_hash0.
    split; [naive_solver|]. intros [[-> ->]|(e & He & Hh)]; [by left|right].
    split; [congruence|eauto].
  - intros q q' e e' [[-> ->]|[? H1]]%Hlk [[-> ->]|[? H2]]%Hlk Htk.
    + done.
    + exfalso. apply (Hnc q'). exists e'. by rewrite <- Htk.
    + exfalso. apply (Hnc q). exists e. by rewrite Htk.
    + eauto.
  - intros q q' e e' [[-> ->]|[? H1]]%Hlk [[-> ->]|[? H2]]%Hlk Htk.
    + done.
    + pose proof (entry_used _ _ _ (wf_entries0 q' e' H2)). simpl in Htk. lia.
    + pose proof (entry_used _ _ _ (wf_entries0 q e H1)). simpl in Htk. lia.
    + eauto.
Qed.

(** ** Eviction *)

Definition victim_step (acc : N * N) (pe : N * Entry) : N * N :=
  if (refcount pe.2 =? 0)%N && (lastUsed pe.2 <? acc.2)%N then (pe.1, lastUsed pe.2) else acc.

Lemma find_victim_eq entries :
  find_victim entries = (fold_left victim_step (map_to_list entries) (kNone, 2 ^ 64 - 1)%N).1.
Proof.
  unfold find_victim. f_equal. generalize (map_to_list entries) as l. intros l.
  generalize (kNone, 2 ^ 64 - 1)%N as acc.
  induction l as [|[pid e] l IH]; intros [v b]; [done|]. cbn [fold_left]. by rewrite IH.
Qed.

Lemma victim_fold_spec l : forall acc,
  let r := fold_left victim_step l acc in
  (r.2 <= acc.2)%N /\
  (r = acc \/ exists e, (r.1, e) ∈ l /\ refcount e = 0%N /\ lastUsed e = r.2) /\
  (forall pid e, (pid, e) ∈ l -> refcount e = 0%N -> (r.2 <= lastUsed e)%N).
Proof.
  induction l as [|[p e] l IH]; intros acc r.
  { split; [done|]. split; [by left|]. intros pid e Hin. by apply not_elem_of_nil in Hin. }
  specialize (IH (victim_step acc (p, e))). cbn [fold_left] in r. fold r in IH.
  destruct IH as (H1 & H2 & H3).
  assert (Hs : (victim_step acc (p, e)).2 = (if (refcount e =? 0)%N then N.min acc.2 (lastUsed e) else acc.2) /\
    (victim_step acc (p, e) = acc \/ victim_step acc (p, e) = (p, lastUsed e) /\ refcount e = 0%N)).
  { unfold victim_step. simpl. destruct (N.eqb_spec (refcount e) 0); simpl; [|by auto].
    destruct (N.ltb_spec (lastUsed e) acc.2); simpl; split; auto; lia. }
  destruct Hs as [Hs Hcase].
  split; [destruct (refcount e =? 0)%N; lia|]. split.
  - destruct H2 as [Heq|(e' & Hin & Hr & Hl)].
    + destruct Hcase as [Ha|[Ha Hr]]; [left; congruence|]. right. exists e.
      rewrite Heq, Ha. simpl. split; [by left|done].
    + right. exists e'. split; [by right|done].
  - intros pid e' [[= <- <-]|Hin]%elem_of_cons Hr; [|eauto].
    rewrite Hr in Hs. simpl in Hs. lia.
Qed.

(** The victim is the unpinned entry used least recently. *)
Lemma find_lru_victim_spec x : wf x -> (_tick x < 2 ^ 64 - 1)%N ->
  (exists pid e, _entries x !! pid = Some e /\ refcount e = 0%N) ->
  exists e, _entries x !! find_victim (_entries x) = Some e /\ refcount e = 0%N /\
    find_victim (_entries x) <> kNone /\
    forall pid e', _entries x !! pid = Some e' -> refcount e' = 0%N -> (lastUsed e <= lastUsed e')%N.
Proof.
  intros Hwf Ht (p0 & e0 & He0 & Hr0). rewrite find_victim_eq.
  destruct (victim_fold_spec (map_to_list (_entries x)) (kNone, 2 ^ 64 - 1)%N) as (H1 & H2 & H3).
  set (r := fold_left _ _ _) in *.
  assert (Hin0 : (p0, e0) ∈ map_to_list (_entries x)) by (by apply elem_of_map_to_list).
  destruct H2 as [Heq|(e & Hin & Hr & Hl)].
  - specialize (H3 _ _ Hin0 Hr0). rewrite Heq in H3. simpl in H3.
    pose proof (entry_used _ _ _ (wf_entries x Hwf _ _ He0)). lia.
  - apply elem_of_map_to_list in Hin. exists e. split; [done|]. split; [done|].
    split; [by eapply entry_not_none, wf_entries|].
    intros pid e' He' Hr'. rewrite Hl. eapply H3; [|done]. by apply elem_of_map_to_list.
Qed.

(** One insertion over the cap evicts exactly one entry. *)
Lemma evictIfNeeded_spec x evicted :
  wf x -> (_tick x < 2 ^ 64 - 1)%N ->
  (exists pid e, _entries x !! pid = Some e /\ refcount e = 0%N) ->
  (_maxEntries x = 0 \/ size (_entries x) <= S (_maxEntries x)) ->
  evictIfNeeded x evicted =
    if decide (_maxEntries x = 0 \/ size (_entries x) <= _maxEntries x) then (evicted, x)
    else (evicted ++ [find_victim (_entries x)], eraseEntry x (find_victim (_entries x))).
Proof.
  intros Hwf Ht Hex Hsz. pose proof (find_lru_victim_spec x Hwf Ht Hex) as (e & He & Hr & Hne & _).
  assert (Hpos : size (_entries x) <> 0).
  { intros Hz%map_size_empty_inv. rewrite Hz in He. by rewrite lookup_empty in He. }
  unfold evictIfNeeded. destruct (size (_entries x)) as [|n] eqn:Hn; [done|]. cbn [evict_loop].
  rewrite Hn. case_decide as Hd.
  - destruct (Nat.ltb_spec 0 (_maxEntries x)), (Nat.ltb_spec (_maxEntries x) (S n)); simpl;
      try done; lia.
  - destruct (Nat.ltb_spec 0 (_maxEntries x)), (Nat.ltb_spec (_maxEntries x) (S n)); simpl; try lia.
    apply N.eqb_neq in Hne as ->.
    assert (Hs : size (_entries (eraseEntry x (find_victim (_entries x)))) = n).
    { rewrite erase_entries, map_size_delete_Some by eauto. lia. }
    destruct n as [|n]; [done|]. cbn [evict_loop]. rewrite Hs.
    destruct (erase_frame x (find_victim (_entries x))) as (_ & -> & _).
    destruct (Nat.ltb_spec (_maxEntries x) (S n)); [lia|]. by rewrite andb_false_r.
Qed.

(** ** Lookups and insertions *)

(** A cached block-aligned prefix of [prompt], [p] tokens long. *)
Definition aligned (x : t) (prompt : list Z) (p : nat) : Prop :=
  0 < p <= length prompt /\ p mod _blockSize x = 0.

(** What a lookup may change: access times only. *)
Definition same_content (x x' : t) : Prop :=
  _blockSize x' = _blockSize x /\ _maxEntries x' = _maxEntries x /\
  (forall pid, (fun e => (tokens e, payload e, refcount e)) <$> _entries x' !! pid =
               (fun e => (tokens e, payload e, refcount e)) <$> _entries x !! pid).

Lemma touch_same x pid : same_content x (touch x pid).
Proof.
  split; [done|]. split; [done|]. intros q. unfold touch. simpl.
  destruct (decide (q = pid)) as [->|Hq].
  - rewrite lookup_alter_eq. by destruct (_entries x !! pid).
  - by rewrite lookup_alter_ne.
Qed.

Lemma same_content_cached x x' toks pid :
  same_content x x' -> cached x' toks pid <-> cached x toks pid.
Proof.
  intros (_ & _ & H). specialize (H pid). unfold cached.
  destruct (_entries x !! pid), (_entries x' !! pid); simplify_eq/=; naive_solver.
Qed.

Lemma same_content_pinned x x' pid : same_content x x' -> refcountOf x' pid = refcountOf x pid.
Proof.
  intros (_ & _ & H). specialize (H pid). unfold refcountOf.
  destruct (_entries x !! pid), (_entries x' !! pid); by simplify_eq/=.
Qed.

Lemma lookup_from_spec x prompt k :
  wf x -> (_tick x < 2 ^ 64 - 1)%N ->
  match lookup_from x prompt k with
  | Throw _ => False
  | Ok (hit, x') =>
      wf x' /\ same_content x x' /\ (_tick x' <= _tick x + 1)%N /\
      (if found hit then
         exists j, 0 < j <= k /\ pos hit = j * _blockSize x /\
           cached x (take (pos hit) prompt) (hit_payload hit) /\
           forall i pid, j < i <= k -> ~ cached x (take (i * _blockSize x) prompt) pid
       else forall i pid, 0 < i <= k -> ~ cached x (take (i * _blockSize x) prompt) pid)
  end.
Proof.
  intros Hwf Ht. induction k as [|k IH].
  { simpl. split; [done|]. split; [by split|]. split; [lia|]. intros; lia. }
  cbn [lookup_from]. set (prefix := take (S k * _blockSize x) prompt) in *.
  assert (Hnext : (forall pid, ~ cached x prefix pid) ->
    match lookup_from x prompt k with
    | Throw _ => False
    | Ok (hit, x') =>
        wf x' /\ same_content x x' /\ (_tick x' <= _tick x + 1)%N /\
        (if found hit then
           exists j, 0 < j <= S k /\ pos hit = j * _blockSize x /\
             cached x (take (pos hit) prompt) (hit_payload hit) /\
             forall i pid, j < i <= S k -> ~ cached x (take (i * _blockSize x) prompt) pid
         else forall i pid, 0 < i <= S k -> ~ cached x (take (i * _blockSize x) prompt) pid)
    end).
  { intros Hn. destruct (lookup_from x prompt k) as [[hit x']|]; [|done].
    destruct IH as (H1 & H2 & H3 & H4). split; [done|]. split; [done|]. split; [done|].
    assert (Hext : forall i pid, i <= S k ->
      (i <= k -> ~ cached x (take (i * _blockSize x) prompt) pid) ->
      ~ cached x (take (i * _blockSize x) prompt) pid).
    { intros i pid Hi Hle. destruct (decide (i = S k)) as [->|]; [apply Hn|apply Hle; lia]. }
    destruct (found hit).
    - destruct H4 as (j & Hj & Hp & Hc & Hmax). exists j. split; [lia|]. split; [done|].
      split; [done|]. intros i pid Hi. apply Hext; [lia|]. intros. apply Hmax. lia.
    - intros i pid Hi. apply Hext; [lia|]. intros. apply H4. lia. }
  destruct (_byHash x !! hashTokens prefix) as [v|] eqn:Hb.
  2: { apply Hnext. intros pid. by apply scan_empty_bucket. }
  pose proof (scan_wf x prefix Hwf) as Hs. unfold bucket in Hs. rewrite Hb in Hs. simpl in Hs.
  destruct (scan_bucket _ _ _) as [[pid|]|]; [|by apply Hnext|done].
  split; [by apply touch_wf|]. split; [apply touch_same|]. split.
  { unfold touch. simpl. rewrite u64_small by lia. lia. }
  cbn [found pos hit_payload]. exists (S k). split; [lia|]. split; [done|]. split; [done|]. intros; lia.
Qed.

Lemma aligned_blocks x prompt p :
  wf x -> aligned x prompt p <->
  exists i, 0 < i <= length prompt / _blockSize x /\ p = i * _blockSize x.
Proof.
  intros Hwf. pose proof (wf_blockSize x Hwf) as Hbs. unfold aligned. split.
  - intros [Hp Hm]. exists (p / _blockSize x).
    pose proof (Nat.div_mod_eq p (_blockSize x)). split; [|lia]. split.
    + apply Nat.div_str_pos. split; [done|]. apply Nat.nlt_ge. intros Hlt.
      rewrite Nat.mod_small in Hm by done. lia.
    + apply Nat.Div0.div_le_mono. lia.
  - intros (i & Hi & ->). pose proof (Nat.Div0.mul_div_le (length prompt) (_blockSize x)).
    split; [nia|]. apply Nat.Div0.mod_mul.
Qed.

(** The longest block-aligned prefix cached token for token, hash collisions
    notwithstanding. *)
Lemma lookup_spec x prompt :
  wf x -> (_tick x < 2 ^ 64 - 1)%N ->
  exists hit x', lookup x (Some prompt) = Ok (hit, x') /\ wf x' /\ same_content x x' /\
    if found hit then
      aligned x prompt (pos hit) /\ cached x (take (pos hit) prompt) (hit_payload hit) /\
      forall p pid, aligned x prompt p -> cached x (take p prompt) pid -> p <= pos hit
    else forall p pid, aligned x prompt p -> ~ cached x (take p prompt) pid.
Proof.
  intros Hwf Ht. pose proof (fun p => aligned_blocks x prompt p Hwf) as Hal. unfold lookup.
  destruct (Nat.ltb_spec (length prompt) (_blockSize x)).
  { exists no_hit, x. do 2 (split; [done|]). split; [by split|]. simpl.
    intros p pid (i & Hi & ->)%Hal. rewrite Nat.div_small in Hi by done. lia. }
  pose proof (lookup_from_spec x prompt (length prompt / _blockSize x) Hwf Ht) as Hs.
  destruct (lookup_from _ _ _) as [[hit x']|]; [|done]. exists hit, x'.
  destruct Hs as (H1 & H2 & _ & H4). do 3 (split; [done|]). destruct (found hit).
  - destruct H4 as (j & Hj & Hp & Hc & Hmax). split; [apply Hal; eauto|]. split; [done|].
    intros p pid (i & Hi & ->)%Hal Hc'. rewrite Hp. apply Nat.mul_le_mono_r.
    destruct (decide (i <= j)); [done|]. exfalso. apply (Hmax i pid); [lia|done].
  - intros p pid (i & Hi & ->)%Hal. by apply H4.
Qed.

(** One insertion: a duplicate prefix bounces the new payload, a new one is
    cached, and over the cap one unpinned, least recently used payload goes. *)
Lemma insert_spec x toks p pid evicted :
  wf x -> bounded x -> (_tick x + 1 < 2 ^ 64 - 1)%N ->
  aligned x toks p -> pid <> kNone -> _entries x !! pid = None ->
  let prefix := take p toks in
  exists ev x', insert x (Some toks) p pid evicted = Ok (evicted ++ ev, x') /\
    wf x' /\ bounded x' /\
    (forall q toks', (0 < refcountOf x q)%N -> cached x toks' q -> cached x' toks' q) /\
    ((ev = [pid] /\ same_content x x' /\ exists q, cached x prefix q) \/
     (ev = [] /\ (forall q toks', cached x' toks' q <-> cached x toks' q \/ (q = pid /\ toks' = prefix))) \/
     exists v e, ev = [v] /\ _entries (add x prefix pid) !! v = Some e /\ refcount e = 0%N /\
       (forall q e', _entries (add x prefix pid) !! q = Some e' -> refcount e' = 0%N ->
          (lastUsed e <= lastUsed e')%N) /\
       (forall q toks', cached x' toks' q <->
          (cached x toks' q \/ (q = pid /\ toks' = prefix)) /\ q <> v)).
Proof.
  intros Hwf Hcap Ht [Hp Hal] Hne Hnew prefix. unfold insert. fold prefix.
  rewrite (proj2 (Nat.eqb_neq p 0)), Hal, (proj2 (N.eqb_neq _ _) Hne), Hnew by lia. simpl.
  change (default [] (_byHash x !! hashTokens prefix)) with (bucket x (hashTokens prefix)).
  pose proof (scan_wf x prefix Hwf) as Hs.
  destruct (scan_bucket _ _ _) as [[dup|]|]; [| |done].
  { exists [pid], (touch x dup). split; [done|]. split; [apply touch_wf; [done|lia]|].
    split; [unfold bounded; rewrite touch_size; done|]. pose proof (touch_same x dup) as Hsm. split.
    - intros q toks' _. by apply same_content_cached.
    - left. eauto. }
  assert (Hlen : length prefix = p) by (unfold prefix; rewrite length_take; lia).
  fold (add x prefix pid).
  assert (Hadd : wf (add x prefix pid)) by (apply add_wf; rewrite ?Hlen; try done; lia).
  assert (Hlk : forall q, _entries (add x prefix pid) !! q =
    if decide (q = pid) then Some (mkEntry prefix pid 0 (u64 (_tick x + 1))) else _entries x !! q).
  { intros q. unfold add. simpl. destruct (decide (q = pid)) as [->|?].
    - by rewrite lookup_insert_eq.
    - by rewrite lookup_insert_ne. }
  assert (Hcached : forall q toks', cached (add x prefix pid) toks' q <->
    cached x toks' q \/ (q = pid /\ toks' = prefix)).
  { intros q toks'. unfold cached. rewrite Hlk. destruct (decide (q = pid)) as [->|Hd]; [|naive_solver].
    rewrite Hnew. naive_solver. }
  assert (Hsize : size (_entries (add x prefix pid)) = S (size (_entries x)))
    by (unfold add; simpl; by rewrite map_size_insert_None).
  assert (Htick : (_tick (add x prefix pid) < 2 ^ 64 - 1)%N)
    by (unfold add; simpl; rewrite u64_small; lia).
  assert (Hex : exists q e, _entries (add x prefix pid) !! q = Some e /\ refcount e = 0%N).
  { exists pid. eexists. rewrite Hlk, decide_True by done. done. }
  rewrite evictIfNeeded_spec; [|done|done|done|].
  2: { rewrite Hsize. unfold bounded in Hcap. simpl. lia. }
  case_decide as Hd.
  { exists [], (add x prefix pid). rewrite app_nil_r. do 2 (split; [done|]). split; [exact Hd|]. split.
    - intros q toks' _ Hc. apply Hcached. by left.
    - right. left. done. }
  destruct (find_lru_victim_spec _ Hadd Htick Hex) as (e & He & Hr & _ & Hmin).
  set (v := find_victim _) in *. exists [v], (eraseEntry (add x prefix pid) v).
  assert (Hc' : forall q toks', cached (eraseEntry (add x prefix pid) v) toks' q <->
    (cached x toks' q \/ (q = pid /\ toks' = prefix)) /\ q <> v).
  { intros q toks'. rewrite <- Hcached. unfold cached. rewrite erase_entries.
    setoid_rewrite lookup_delete_Some. naive_solver. }
  split; [done|]. split; [by apply erase_wf|]. split.
  { right. rewrite erase_entries, map_size_delete_Some, Hsize by eauto. simpl.
    destruct (erase_frame (add x prefix pid) v) as (_ & -> & _). unfold bounded in Hcap.
    simpl in *. lia. }
  split.
  - intros q toks' Hpin Hc. apply Hc'. split; [by left|]. intros ->.
    rewrite Hlk in He. unfold refcountOf in Hpin. case_decide as Hv; [by rewrite Hv, Hnew in Hpin|].
    rewrite He, Hr in Hpin. lia.
  - right. right. exists v, e. done.
Qed.

(** ** Histories of calls *)

Inductive op :=
  | OpLookup (prompt : list Z)
  | OpInsert (toks : list Z) (p : nat) (pid : N)
  | OpAcquire (pid : N)
  | OpRelease (pid : N).

(** The payloads a call reports as evicted, and the new index. *)
Definition run_op (x : t) (o : op) : result (list N * t) :=
  match o with
  | OpLookup prompt =>
      match lookup x (Some prompt) with Ok (_, x) => Ok ([], x) | Throw e => Throw e end
  | OpInsert toks p pid => insert x (Some toks) p pid []
  | OpAcquire pid => Ok ([], acquire x pid)
  | OpRelease pid => Ok ([], release x pid)
  end.

Fixpoint run_ops (x : t) (os : list op) : result (list N * t) :=
  match os with
  | [] => Ok ([], x)
  | o :: os =>
      match run_op x o with
      | Throw e => Throw e
      | Ok (ev, x) =>
          match run_ops x os with Throw e => Throw e | Ok (ev', x) => Ok (ev ++ ev', x) end
      end
  end.

(** The payloads the caller hands over. *)
Definition offered (os : list op) : list N :=
  omap (fun o => match o with OpInsert _ _ pid => Some pid | _ => None end) os.

(** Insertions at block boundaries within the tokens, under real ids. *)
Definition op_ok (bs : nat) (o : op) : Prop :=
  match o with
  | OpInsert toks p pid => 0 < p <= length toks /\ p mod bs = 0 /\ pid <> kNone
  | _ => True
  end.

Definition payloads (x : t) : list N := elements (dom (_entries x) : gset N).

Lemma elem_of_payloads x q : q ∈ payloads x <-> exists toks, cached x toks q.
Proof.
  unfold payloads, cached. rewrite elem_of_elements, elem_of_dom. split.
  - intros [e He]. eauto.
  - intros (_ & e & He & _). eauto.
Qed.

Lemma payloads_nodup x : NoDup (payloads x).
Proof. unfold payloads. apply NoDup_elements. Qed.

Lemma payloads_same x x' : same_content x x' -> payloads x' ≡ₚ payloads x.
Proof.
  intros Hs. apply NoDup_Permutation; [apply payloads_nodup..|]. intros q.
  rewrite !elem_of_payloads. by setoid_rewrite (same_content_cached x x' _ q Hs).
Qed.

Lemma payloads_size x x' : payloads x' ≡ₚ payloads x -> size (_entries x') = size (_entries x).
Proof.
  intros Hp%Permutation_length. unfold payloads in Hp.
  rewrite <- (size_dom (D:=gset N) (_entries x')), <- (size_dom (D:=gset N) (_entries x)). exact Hp.
Qed.

(** An update of one entry's reference count. *)
Lemma recount_wf x pid f :
  (forall e, tokens (f e) = tokens e /\ payload (f e) = payload e /\ lastUsed (f e) = lastUsed e) ->
  wf x ->
  let x' := x <| _entries := alter f pid (_entries x) |> in
  wf x' /\ (bounded x -> bounded x') /\ payloads x' ≡ₚ payloads x /\
  (forall q toks, cached x toks q -> cached x' toks q).
Proof.
  intros Hf Hwf x'.
  assert (Hl : forall q, _entries x' !! q = (if decide (q = pid) then f else id) <$> _entries x !! q).
  { intros q. unfold x'. simpl. destruct (decide (q = pid)) as [->|Hq].
    - by rewrite lookup_alter_eq.
    - rewrite lookup_alter_ne by done. by destruct (_entries x !! q). }
  assert (Hfi : forall q e, let e' := (if decide (q = pid) then f else id) e in
    tokens e' = tokens e /\ payload e' = payload e /\ lastUsed e' = lastUsed e).
  { intros q e. simpl. case_decide; [apply Hf|done]. }
  assert (Hdom : dom (_entries x') =@{gset N} dom (_entries x)) by (unfold x'; simpl; by rewrite dom_alter_L).
  split.
  { eapply wf_entries_change; try done.
    - intros q. rewrite Hl. destruct (_entries x !! q) as [e|] eqn:He; simpl; [|done].
      destruct (Hfi q e) as (-> & -> & ->). split; [done|]. split; [done|].
      by apply (entry_used _ _ _ (wf_entries x Hwf _ _ He)).
    - intros q q' e e'. rewrite !Hl.
      destruct (_entries x !! q) as [e1|] eqn:H1; [|done].
      destruct (_entries x !! q') as [e2|] eqn:H2; [|done].
      intros [= <-] [= <-]. destruct (Hfi q e1) as (_ & _ & ->). destruct (Hfi q' e2) as (_ & _ & ->).
      by apply (wf_used x Hwf). }
  assert (Hpl : payloads x' ≡ₚ payloads x) by (unfold payloads; by rewrite Hdom).
  split. { unfold bounded. by rewrite (payloads_size _ _ Hpl). }
  split; [done|].
  intros q toks (e & He & Ht). unfold cached. rewrite Hl, He. eexists. split; [done|].
  by destruct (Hfi q e) as (-> & _).
Qed.

Lemma release_alter x pid :
  release x pid = x <| _entries := alter (fun e => if (0 <? refcount e)%N
                       then e <| refcount := (refcount e - 1)%N |> else e) pid (_entries x) |>.
Proof.
  unfold release. destruct (_entries x !! pid) as [e|] eqn:He.
  - assert (Ha : forall f, alter f pid (_entries x) = <[pid := f e]> (_entries x)).
    { intros f. apply map_eq. intros q. destruct (decide (q = pid)) as [->|].
      - by rewrite lookup_alter_eq, lookup_insert_eq, He.
      - by rewrite lookup_alter_ne, lookup_insert_ne by done. }
    rewrite Ha. destruct (0 <? refcount e)%N; [done|].
    rewrite insert_id by done. by destruct x.
  - assert (Ha : forall f, alter f pid (_entries x) = _entries x).
    { intros f. apply map_eq. intros q. destruct (decide (q = pid)) as [->|].
      - by rewrite lookup_alter_eq, He.
      - by rewrite lookup_alter_ne by done. }
    rewrite Ha. by destruct x.
Qed.

Lemma lookup_op_spec x prompt :
  wf x -> (_tick x < 2 ^ 64 - 1)%N ->
  exists hit x', lookup x (Some prompt) = Ok (hit, x') /\ wf x' /\ same_content x x' /\
    (_tick x' <= _tick x + 1)%N.
Proof.
  intros Hwf Ht. unfold lookup. destruct (length prompt <? _blockSize x)%nat.
  - exists no_hit, x. split; [done|]. split; [done|]. split; [by split|lia].
  - pose proof (lookup_from_spec x prompt (length prompt / _blockSize x) Hwf Ht) as Hs.
    destruct (lookup_from _ _ _) as [[hit x']|]; [|done]. exists hit, x'. tauto.
Qed.

Lemma evict_loop_frame n : forall y ev,
  _blockSize (evict_loop n y ev).2 = _blockSize y /\ _tick (evict_loop n y ev).2 = _tick y.
Proof.
  induction n as [|n IH]; intros y ev; [done|]. cbn [evict_loop].
  destruct (_ && _)%bool; [|done]. case_match; [done|].
  rewrite !(proj1 (IH _ _)), !(proj2 (IH _ _)).
  destruct (erase_frame y (find_victim (_entries y))) as (-> & _ & ->). done.
Qed.

Lemma insert_frame x toks p pid ev0 ev x' :
  (_tick x + 1 < 2 ^ 64)%N -> insert x toks p pid ev0 = Ok (ev, x') ->
  _blockSize x' = _blockSize x /\ (_tick x' <= _tick x + 1)%N.
Proof.
  intros Ht. unfold insert. destruct toks as [toks|]; [|intros; simplify_eq; split; [done|lia]].
  case_match; [intros; simplify_eq; split; [done|lia]|].
  destruct (scan_bucket _ _ _) as [[dup|]|]; intros Hi; simplify_eq.
  - unfold touch. simpl. rewrite u64_small by lia. done.
  - unfold evictIfNeeded in Hi. apply (f_equal snd) in Hi. cbn [snd] in Hi. rewrite <- Hi.
    match goal with |- context [evict_loop ?n ?y _] =>
      destruct (evict_loop_frame n y ev0) as [-> ->] end.
    simpl. rewrite u64_small by lia. done.
Qed.

(** One call: no exception, invariant and bound kept, payloads accounted for,
    pinned entries kept. *)
Lemma run_op_spec x o :
  wf x -> bounded x -> (_tick x + 1 < 2 ^ 64 - 1)%N -> op_ok (_blockSize x) o ->
  (forall pid, pid ∈ offered [o] -> pid ∉ payloads x) ->
  exists ev x', run_op x o = Ok (ev, x') /\ wf x' /\ bounded x' /\
    _blockSize x' = _blockSize x /\ (_tick x' <= _tick x + 1)%N /\
    offered [o] ++ payloads x ≡ₚ ev ++ payloads x' /\
    (forall q toks, (0 < refcountOf x q)%N -> cached x toks q -> cached x' toks q).
Proof.
  intros Hwf Hb Ht Ho Hfresh. destruct o as [prompt|toks p pid|pid|pid];
    cbn [op_ok run_op offered omap list_omap app] in *.
  - destruct (lookup_op_spec x prompt Hwf ltac:(lia)) as (hit & x' & -> & Hwf' & Hs & Ht').
exists [], x'.
    do 2 (split; [done|]). pose proof Hs as (Hbs & Hm & He). split.
    { unfold bounded. by rewrite Hm, (payloads_size _ _ (payloads_same _ _ Hs)). }
    split; [done|]. split; [done|]. split; [by rewrite (payloads_same _ _ Hs)|].
    intros q toks _ Hc. by apply (same_content_cached x x').
  - destruct Ho as (Hp & Hal & Hne).
    assert (Hnew : _entries x !! pid = None).
    { destruct (_entries x !! pid) as [e|] eqn:He; [|done]. destruct (Hfresh pid); [by left|].
      apply elem_of_payloads. exists (tokens e), e. done. }
    destruct (insert_spec x toks p pid [] Hwf Hb Ht (conj Hp Hal) Hne Hnew)
      as (ev & x' & Hi & Hwf' & Hb' & Hpin & Hcase). rewrite app_nil_l in Hi.
    exists ev, x'. split; [done|]. split; [done|]. split; [done|].
    destruct (insert_frame x _ _ _ _ _ _ ltac:(lia) Hi) as [? ?]. split; [done|]. split; [done|]. split; [|done].
    destruct Hcase as [(-> & Hs & _)|[(-> & Hc)|(v & e & -> & He & _ & _ & Hc)]]; simpl.
    + by rewrite (payloads_same _ _ Hs).
    + apply NoDup_Permutation.
      * constructor; [|apply payloads_nodup]. apply Hfresh. by left.
      * apply payloads_nodup.
      * intros q. rewrite elem_of_cons, !elem_of_payloads. setoid_rewrite Hc. naive_solver.
    + assert (Hv : v = pid \/ v ∈ payloads x).
      { unfold add in He. simpl in He. apply lookup_insert_Some in He as [[<- _]|[_ He]]; [by left|].
        right. apply elem_of_payloads. exists (tokens e), e. done. }
      apply NoDup_Permutation.
      * constructor; [|apply payloads_nodup]. apply Hfresh. by left.
      * constructor; [|apply payloads_nodup]. rewrite elem_of_payloads. setoid_rewrite Hc. naive_solver.
      * intros q. rewrite !elem_of_cons, !elem_of_payloads. setoid_rewrite Hc.
        rewrite elem_of_payloads in Hv. destruct (decide (q = v)); naive_solver.
  - exists [], (acquire x pid). split; [done|].
    destruct (recount_wf x pid (fun e => e <| refcount := u64 (refcount e + 1) |>)) as (? & ? & Hp & ?);
      [done|done|]. split; [done|]. split; [auto|]. split; [done|]. split; [simpl; lia|].
    split; [simpl; by rewrite Hp|auto].
  - exists [], (release x pid). split; [done|]. rewrite release_alter.
    destruct (recount_wf x pid (fun e => if (0 <? refcount e)%N
                       then e <| refcount := (refcount e - 1)%N |> else e)) as (? & ? & Hp & ?);
      [intros e; by case_match|done|]. split; [done|]. split; [auto|]. split; [done|].
    split; [simpl; lia|]. split; [simpl; by rewrite Hp|auto].
Qed.

Lemma offered_app l k : offered (l ++ k) = offered l ++ offered k.
Proof. apply omap_app. Qed.

Lemma run_ops_spec os : forall x,
  wf x -> bounded x -> (_tick x + N.of_nat (length os) < 2 ^ 64 - 2)%N ->
  Forall (op_ok (_blockSize x)) os -> NoDup (offered os) ->
  (forall pid, pid ∈ offered os -> pid ∉ payloads x) ->
  exists ev x', run_ops x os = Ok (ev, x') /\ wf x' /\ bounded x' /\
    _blockSize x' = _blockSize x /\ (_tick x' <= _tick x + N.of_nat (length os))%N /\
    offered os ++ payloads x ≡ₚ ev ++ payloads x'.
Proof.
  induction os as [|o os IH]; intros x Hwf Hb Ht Hok Hnd Hfresh.
  { exists [], x. do 4 (split; [done|]). split; [simpl; lia|done]. }
  apply Forall_cons in Hok as [Ho Hok]. cbn [length] in Ht.
  assert (Hoff : offered (o :: os) = offered [o] ++ offered os)
    by apply (offered_app [o] os).
  rewrite Hoff in *. apply NoDup_app in Hnd as (Hnd1 & Hdisj & Hnd2).
  destruct (run_op_spec x o Hwf Hb ltac:(lia) Ho) as (ev & x1 & Hr & Hwf1 & Hb1 & Hbs & Ht1 & Hp & _).
  { intros pid Hin. apply Hfresh. apply elem_of_app. by left. }
  destruct (IH x1) as (ev' & x' & Hr' & Hwf' & Hb' & Hbs' & Ht' & Hp'); try done.
  - lia.
  - by rewrite Hbs.
  - intros pid Hin Hx1. assert (Hin1 : pid ∈ offered [o] ++ payloads x).
    { rewrite Hp. apply elem_of_app. by right. }
    apply elem_of_app in Hin1 as [Hin1|Hin1]; [by eapply Hdisj|].
    apply (Hfresh pid); [|done]. apply elem_of_app. by right.
  - exists (ev ++ ev'), x'. cbn [run_ops length]. rewrite Hr, Hr'. do 3 (split; [done|]).
    split; [congruence|]. split; [lia|].
    rewrite <- (app_assoc ev), <- Hp', (Permutation_app_comm (offered [o])), <- app_assoc, Hp.
    rewrite !app_assoc. f_equiv. apply Permutation_app_comm.
Qed.

(** along any history of lookups, insertions, pins and unpins on a fresh
    index (fewer than 2^64 - 2 calls, every payload id handed over once) no call
    throws, the maps stay consistent and within the LRU cap, every payload ever
    handed over is either still cached or was reported evicted exactly once,
    and no call drops an entry that is pinned. *)
Theorem index_history_accounting blockSize maxEntries os :
  let x0 := create blockSize maxEntries in
  (N.of_nat (length os) < 2 ^ 64 - 2)%N -> Forall (op_ok (_blockSize x0)) os ->
  NoDup (offered os) ->
  exists ev x, run_ops x0 os = Ok (ev, x) /\ wf x /\ bounded x /\
    offered os ≡ₚ ev ++ payloads x /\
    forall os1 o os2, os = os1 ++ o :: os2 -> exists ev1 x1 ev2 x2,
      run_ops x0 os1 = Ok (ev1, x1) /\ run_op x1 o = Ok (ev2, x2) /\
      forall q toks, (0 < refcountOf x1 q)%N -> cached x1 toks q -> cached x2 toks q.
Proof.
  intros x0 Hlen Hok Hnd. destruct (create_index_wf blockSize maxEntries) as [Hwf Hb]. fold x0 in Hwf, Hb.
  assert (Hempty : payloads x0 = []) by done.
  destruct (run_ops_spec os x0 Hwf Hb) as (ev & x & Hr & Hwf' & Hb' & _ & _ & Hp); try done.
  { intros pid _. rewrite Hempty. apply not_elem_of_nil. }
  rewrite Hempty, app_nil_r in Hp. exists ev, x. do 4 (split; [done|]).
  intros os1 o os2 ->. rewrite offered_app in Hnd. apply Forall_app in Hok as [Hok1 Hok2].
  apply Forall_cons in Hok2 as [Ho _]. rewrite length_app in Hlen. simpl length in Hlen.
  apply NoDup_app in Hnd as (Hnd1 & Hdisj & _).
  destruct (run_ops_spec os1 x0 Hwf Hb) as (ev1 & x1 & Hr1 & Hwf1 & Hb1 & Hbs1 & Ht1 & Hp1); try done.
  { simpl. lia. }
  { intros pid _. rewrite Hempty. apply not_elem_of_nil. }
  destruct (run_op_spec x1 o) as (ev2 & x2 & Hr2 & _ & _ & _ & _ & _ & Hpin); try done.
  - simpl in Ht1. lia.
  - by rewrite Hbs1.
  - intros pid Hin Hx1. apply (Hdisj pid).
    + rewrite Hempty, app_nil_r in Hp1. rewrite Hp1. apply elem_of_app. by right.
    + change (o :: os2) with ([o] ++ os2). rewrite offered_app. apply elem_of_app. by left.
  - exists ev1, x1, ev2, x2. done.
Qed.

(** Two-token blocks, room for one entry: the second insertion evicts the
    first, unless it is pinned. *)
Definition demo_index_ops : list op :=
  [OpInsert [1; 2; 3]%Z 2 7; OpAcquire 7; OpInsert [4; 5]%Z 2 8; OpRelease 7;
   OpInsert [1; 2; 3; 4]%Z 4 9; OpLookup [1; 2; 3; 4; 5]%Z].

Lemma index_history_accounting_witness :
  (exists x, run_ops (create 2 1) demo_index_ops = Ok ([8; 7]%N, x)) /\
  let x0 := create 2 1 in
  exists ev x, run_ops x0 demo_index_ops = Ok (ev, x) /\ wf x /\ bounded x /\
    offered demo_index_ops ≡ₚ ev ++ payloads x /\
    forall os1 o os2, demo_index_ops = os1 ++ o :: os2 -> exists ev1 x1 ev2 x2,
      run_ops x0 os1 = Ok (ev1, x1) /\ run_op x1 o = Ok (ev2, x2) /\
      forall q toks, (0 < refcountOf x1 q)%N -> cached x1 toks q -> cached x2 toks q.
Proof.
  split; [eexists; vm_compute; reflexivity|].
  apply (index_history_accounting 2 1 demo_index_ops).
  - vm_compute. reflexivity.
  - repeat constructor; simpl; try done; lia.
  - by apply (bool_decide_unpack _).
Defined.

End GdnPrefixIndex.
