(* ===== verification/SlotState.v ===== *)
(** * Device slabs, slot checkpoints and prefix images

    Models the host code that moves recurrent state and KV rows between serving
    slots: [SsmState] and [PagedKvPool] as addressable memories,
    [SlotSsmCheckpointRing] (one slot's ring of interior checkpoints) and the
    cross-slot prefix store of [ServingSession] on top of [GdnPrefixIndex].
    [appendMemoryCopy] is a range copy; copies run in the order they are queued,
    as on the single compute stream the code uses.  Cell contents are an
    abstract type [V]. *)

From Stdlib Require Import Sorted.
From S2P Require Import Prelude PrefixIndex.

(** ** Memories and range copies *)

Section Memory.
Context {V : Type}.

Definition mem : Type := nat -> V.

(** [appendMemoryCopy(dst + d, src + s, n)]. *)
Definition copy (dst : mem) (d : nat) (src : mem) (s n : nat) : mem :=
  fun i => if (d <=? i)%nat && (i <? d + n)%nat then src (s + (i - d)) else dst i.

Lemma copy_in dst d src s n j : j < n -> copy dst d src s n (d + j) = src (s + j).
Proof.
  intros Hj. unfold copy.
  destruct (Nat.leb_spec d (d + j)), (Nat.ltb_spec (d + j) (d + n)); try lia. simpl.
  f_equal. lia.
Qed.

Lemma copy_out dst d src s n i : i < d \/ d + n <= i -> copy dst d src s n i = dst i.
Proof.
  intros Hi. unfold copy. destruct (Nat.leb_spec d i), (Nat.ltb_spec i (d + n)); try done. lia.
Qed.
End Memory.
Arguments mem : clear implicits.

(** ** Recurrent state *)

Module SsmState.

(** The recurrent slab of [nSeq] sequences: per layer [nSeq] slices of
    [stateElems] and [convStateElems] cells.
    [src/src/runtime/SsmState.hpp:79-85 SsmState] *)
Record t (V : Type) := mkSsm {
  _stateElems : nat;
  _convStateElems : nat;
  _nSeq : nat;
  _state : mem V;
  _convState : mem V;
}.
#[global] Arguments mkSsm {V} _ _ _ _ _.
#[global] Arguments _stateElems {V} _.
#[global] Arguments _convStateElems {V} _.
#[global] Arguments _nSeq {V} _.
#[global] Arguments _state {V} _.
#[global] Arguments _convState {V} _.

(** [src/src/runtime/SsmState.hpp:73-73 stateLayerStride] *)
Definition stateLayerStride {V} (s : t V) : nat := _nSeq s * _stateElems s.
(** [src/src/runtime/SsmState.hpp:74-74 convStateLayerStride] *)
Definition convStateLayerStride {V} (s : t V) : nat := _nSeq s * _convStateElems s.

End SsmState.

(** [src/src/model/LlmConfig.hpp:353-356 isRecurrentLayer] *)
Definition isRecurrentLayer (recurrentLayerPattern : list bool) (blockIdx : nat) : bool :=
  default false (recurrentLayerPattern !! blockIdx).

(** ** Dense packing of the recurrent layers *)

Section Packing.
Context {V : Type}.
Variables (isRec : nat -> bool) (stride elems slot : nat).

(** The copy-out loop over the layers: recurrent ones go to consecutive dense
    positions, starting at the [r]-th.
    [src/src/runtime/engine/ServingSession.cpp:173-185 SlotSsmCheckpointRing::capture] *)
Fixpoint packLayers (layers : list nat) (r : nat) (dst src : mem V) : mem V :=
  match layers with
  | [] => dst
  | L :: layers =>
      if negb (isRec L) then packLayers layers r dst src
      else packLayers layers (S r) (copy dst (r * elems) src (L * stride + slot * elems) elems) src
  end.

(** The copy-in loop, back into the live slab.
    [src/src/runtime/engine/ServingSession.cpp:226-236 SlotSsmCheckpointRing::restore] *)
Fixpoint unpackLayers (layers : list nat) (r : nat) (dst src : mem V) : mem V :=
  match layers with
  | [] => dst
  | L :: layers =>
      if negb (isRec L) then unpackLayers layers r dst src
      else unpackLayers layers (S r) (copy dst (L * stride + slot * elems) src (r * elems) elems) src
  end.

Lemma packLayers_frame layers src i : forall r dst,
  i < r * elems -> packLayers layers r dst src i = dst i.
Proof.
  induction layers as [|L layers IH]; intros r dst Hi; simpl; [done|].
  destruct (isRec L); simpl; [|by apply IH]. rewrite IH by lia. apply copy_out. lia.
Qed.

Lemma packLayers_spec layers src : forall r dst q L j,
  List.filter isRec layers !! q = Some L -> j < elems ->
  packLayers layers r dst src ((r + q) * elems + j) = src (L * stride + slot * elems + j).
Proof.
  induction layers as [|M layers IH]; intros r dst q L j Hq Hj; simpl in *; [done|].
  destruct (isRec M); simpl in *; [|by apply IH].
  destruct q as [|q]; simpl in Hq; simplify_eq.
  - rewrite packLayers_frame by lia. rewrite Nat.add_0_r. by apply copy_in.
  - replace (r + S q) with (S r + q) by lia. by apply IH.
Qed.

(** Cell [i] belongs to the slot's slice of layer [L]. *)
Definition in_slice (L i : nat) : Prop :=
  L * stride + slot * elems <= i < L * stride + slot * elems + elems.

Lemma slice_disjoint L M i : slot * elems + elems <= stride -> in_slice L i -> in_slice M i -> L = M.
Proof. unfold in_slice. intros Hs HL HM. nia. Qed.

Lemma unpackLayers_frame layers src i : forall r dst,
  (forall L, L ∈ layers -> isRec L = true -> ~ in_slice L i) ->
  unpackLayers layers r dst src i = dst i.
Proof.
  induction layers as [|L layers IH]; intros r dst Hi; simpl; [done|].
  assert (Hi' : forall L, L ∈ layers -> isRec L = true -> ~ in_slice L i)
    by (intros; apply Hi; [by right|done]).
  destruct (isRec L) eqn:HL; simpl; [|by apply IH].
  rewrite IH by done. apply copy_out.
  assert (~ in_slice L i) as Hn by (apply Hi; [by left|done]). unfold in_slice in Hn. lia.
Qed.

Lemma unpackLayers_spec layers src : slot * elems + elems <= stride -> forall r dst q L j,
  NoDup layers -> List.filter isRec layers !! q = Some L -> j < elems ->
  unpackLayers layers r dst src (L * stride + slot * elems + j) = src ((r + q) * elems + j).
Proof.
  intros Hst. induction layers as [|M layers IH]; intros r dst q L j Hnd Hq Hj; simpl in *; [done|].
  apply NoDup_cons in Hnd as [HM Hnd]. destruct (isRec M) eqn:EM; simpl in *; [|by apply IH].
  destruct q as [|q]; simpl in Hq; simplify_eq.
  - rewrite unpackLayers_frame.
    + rewrite Nat.add_0_r. by apply copy_in.
    + intros L' HL' _ Hin. assert (L' = L) as ->; [|done].
      apply (slice_disjoint L' L (L * stride + slot * elems + j)); [done|done|].
      unfold in_slice. lia.
  - replace (r + S q) with (S r + q) by lia. by apply IH.
Qed.
End Packing.
#[global] Arguments packLayers : simpl never.
#[global] Arguments unpackLayers : simpl never.

(** Packing one slot and unpacking into another (or the same one) moves exactly
    the recurrent layers' slices. *)
Lemma pack_unpack {V} isRec stride elems slot slot' n (dst live src : mem V) :
  slot' * elems + elems <= stride ->
  let img := packLayers isRec stride elems slot (seq 0 n) 0 dst src in
  let live' := unpackLayers isRec stride elems slot' (seq 0 n) 0 live img in
  (forall L j, L < n -> isRec L = true -> j < elems ->
     live' (L * stride + slot' * elems + j) = src (L * stride + slot * elems + j)) /\
  (forall i, (forall L, L < n -> isRec L = true -> ~ in_slice stride elems slot' L i) ->
     live' i = live i).
Proof.
  intros Hst img live'. split.
  - intros L j HL HR Hj.
    assert (Hin : L ∈ List.filter isRec (seq 0 n)).
    { apply list_elem_of_In, filter_In. split; [|done]. apply list_elem_of_In, elem_of_seq. lia. }
    apply list_elem_of_lookup in Hin as [q Hq]. unfold live'.
    rewrite (unpackLayers_spec _ _ _ _ _ _ Hst 0 live q L j) by (try done; apply NoDup_seq).
    unfold img. by apply packLayers_spec.
  - intros i Hi. apply unpackLayers_frame. intros L HL. apply Hi.
    apply elem_of_seq in HL. lia.
Qed.

(** ** One slot's checkpoints *)

Module SlotSsmCheckpointRing.

(** The three vectors of a ring are parallel.
    [src/src/runtime/engine/ServingSession.cpp:131-136 Ring] *)
Record Ring (V : Type) := mkRing {
  pos : list nat;
  state : list (mem V);
  conv : list (mem V);
}.
#[global] Arguments mkRing {V} _ _ _.
#[global] Arguments pos {V} _.
#[global] Arguments state {V} _.
#[global] Arguments conv {V} _.

(** The ring of each slot. *)
Abbreviation t V := (list (Ring V)).

(** [src/src/runtime/engine/ServingSession.cpp:137-137 kMaxPerSlot] *)
Definition kMaxPerSlot : nat := 8.
#[global] Arguments kMaxPerSlot : simpl never.

Section Ring.
Context {V : Type}.
(** What a fresh device allocation holds. *)
Variable fresh : mem V.

(** The rings, allocated on the first capture.
    [src/src/runtime/engine/ServingSession.cpp:146-148 SlotSsmCheckpointRing::capture] *)
Definition slots_for (slots : t V) (maxBatch : nat) : t V :=
  match slots with [] => replicate maxBatch (mkRing [] [] []) | _ => slots end.

(** [slot] is one of the [maxBatch] slots (the code indexes the vector
    unchecked).
    [src/src/runtime/engine/ServingSession.cpp:139-189 SlotSsmCheckpointRing::capture] *)
Definition capture (slots : t V) (slot p maxBatch blockCount : nat) (ssm : SsmState.t V)
  (isRec : nat -> bool) : t V :=
  alter (fun ring =>
    let full := (kMaxPerSlot <=? length (pos ring))%nat in
    let sBuf := if full then default fresh (head (state ring)) else fresh in
    let cBuf := if full then default fresh (head (conv ring)) else fresh in
    let ring := if full then mkRing (tail (pos ring)) (tail (state ring)) (tail (conv ring))
                else ring in
    let sImg := packLayers isRec (SsmState.stateLayerStride ssm) (SsmState._stateElems ssm) slot
                  (seq 0 blockCount) 0 sBuf (SsmState._state ssm) in
    let cImg := packLayers isRec (SsmState.convStateLayerStride ssm) (SsmState._convStateElems ssm)
                  slot (seq 0 blockCount) 0 cBuf (SsmState._convState ssm) in
    mkRing (pos ring ++ [p]) (state ring ++ [sImg]) (conv ring ++ [cImg])) slot (slots_for slots maxBatch).

(** [src/src/runtime/engine/ServingSession.cpp:191-202 SlotSsmCheckpointRing::bestPos] *)
Definition bestPos (slots : t V) (slot lcp : nat) : nat :=
  match slots !! slot with
  | None => 0
  | Some ring =>
      fold_left (fun best p => if (p <=? lcp)%nat && (best <? p)%nat then p else best) (pos ring) 0
  end.

(** [src/src/runtime/engine/ServingSession.cpp:204-237 SlotSsmCheckpointRing::restore] *)
Definition restore (slots : t V) (slot p blockCount : nat) (ssm : SsmState.t V)
  (isRec : nat -> bool) : SsmState.t V :=
  match slots !! slot with
  | None => ssm
  | Some ring =>
      match list_find (fun q => q = p) (pos ring) with
      | None => ssm
      | Some (idx, _) =>
          match state ring !! idx, conv ring !! idx with
          | Some sImg, Some cImg =>
              SsmState.mkSsm (SsmState._stateElems ssm) (SsmState._convStateElems ssm)
                (SsmState._nSeq ssm)
                (unpackLayers isRec (SsmState.stateLayerStride ssm) (SsmState._stateElems ssm) slot
                   (seq 0 blockCount) 0 (SsmState._state ssm) sImg)
                (unpackLayers isRec (SsmState.convStateLayerStride ssm)
                   (SsmState._convStateElems ssm) slot
                   (seq 0 blockCount) 0 (SsmState._convState ssm) cImg)
          | _, _ => ssm
          end
      end
  end.

(** The backward loop of [prune]: [k] entries left to look at. *)
Fixpoint prune_loop (k keepMaxPos : nat) (ring : Ring V) : Ring V :=
  match k with
  | 0 => ring
  | S k =>
      prune_loop k keepMaxPos
        (if (keepMaxPos <? default 0 (pos ring !! k))%nat then
           mkRing (delete k (pos ring)) (delete k (state ring)) (delete k (conv ring))
         else ring)
  end.

(** [src/src/runtime/engine/ServingSession.cpp:239-251 SlotSsmCheckpointRing::prune] *)
Definition prune (slots : t V) (slot keepMaxPos : nat) : t V :=
  alter (fun ring => prune_loop (length (pos ring)) keepMaxPos ring) slot slots.

(** [src/src/runtime/engine/ServingSession.cpp:253-261 SlotSsmCheckpointRing::clear] *)
Definition clear (slots : t V) (slot : nat) : t V := alter (fun _ => mkRing [] [] []) slot slots.

(** ** Ring invariant *)

(** A ring as one list of checkpoints. *)
Definition rows_ring (rows : list (nat * (mem V * mem V))) : Ring V :=
  mkRing rows.*1 (fst <$> rows.*2) (snd <$> rows.*2).

(** Ascending positions, at most [kMaxPerSlot] of them. *)
Definition ring_ok (ring : Ring V) : Prop :=
  exists rows, ring = rows_ring rows /\ StronglySorted lt rows.*1 /\
    Forall (fun p => 0 < p) rows.*1 /\ length rows <= kMaxPerSlot.

Lemma fmap_delete {A B} (f : A -> B) (l : list A) i : f <$> delete i l = delete i (f <$> l).
Proof.
  revert i. induction l as [|x l IH]; intros [|i]; try done. cbn. f_equal. apply IH.
Qed.

Lemma rows_delete rows k :
  mkRing (delete k rows.*1) (delete k (fst <$> rows.*2)) (delete k (snd <$> rows.*2)) =
  rows_ring (delete k rows).
Proof. unfold rows_ring. by rewrite !fmap_delete. Qed.

Lemma prune_loop_rows k keep : forall rows, k <= length rows ->
  prune_loop k keep (rows_ring rows) =
    rows_ring (filter (fun row => row.1 <= keep) (take k rows) ++ drop k rows).
Proof.
  induction k as [|k IH]; intros rows Hk; cbn [prune_loop]; [by rewrite drop_0|].
  destruct (lookup_lt_is_Some_2 rows k) as [row Hrow]; [lia|].
  assert (Hp : default 0 (pos (rows_ring rows) !! k) = row.1)
    by (unfold rows_ring; simpl; by rewrite list_lookup_fmap, Hrow).
  rewrite Hp, (take_S_r _ _ _ Hrow), filter_app, filter_cons, filter_nil.
  destruct (Nat.ltb_spec keep row.1) as [Hlt|Hge].
  - rewrite decide_False by lia. cbn [pos state conv rows_ring].
    rewrite rows_delete, IH by (rewrite length_delete by done; lia).
    rewrite app_nil_r, delete_take_drop, take_app_le, take_take, drop_app_ge;
      rewrite ?length_take; try lia.
    replace (k `min` k) with k by lia. replace (k - k `min` length rows) with 0 by lia.
    by rewrite drop_0.
  - rewrite decide_True by lia. rewrite IH by lia.
    rewrite (drop_S _ _ _ Hrow), <- app_assoc. done.
Qed.

Lemma sorted_filter (P : nat * (mem V * mem V) -> Prop) `{!forall x, Decision (P x)} rows :
  StronglySorted lt rows.*1 -> StronglySorted lt (filter P rows).*1.
Proof.
  induction rows as [|row rows IH]; intros Hs; [done|].
  inversion Hs as [|? ? Hs' Hx]; subst. rewrite filter_cons. case_decide; [|by apply IH].
  constructor; [by apply IH|]. apply Forall_forall. intros y Hy.
  apply list_elem_of_fmap in Hy as (row' & -> & [_ Hin]%list_elem_of_filter).
  rewrite Forall_forall in Hx. apply Hx. by apply (list_elem_of_fmap_2 fst).
Qed.

(** Pruning keeps exactly the checkpoints up to [keep], in order. *)
Lemma prune_ring_ok keep ring :
  ring_ok ring ->
  let ring' := prune_loop (length (pos ring)) keep ring in
  ring_ok ring' /\ pos ring' = filter (fun p => p <= keep) (pos ring).
Proof.
  intros (rows & -> & Hs & Hp & Hl). cbn [pos rows_ring]. rewrite length_fmap.
  rewrite prune_loop_rows by done. rewrite take_ge, drop_ge, app_nil_r by done. split.
  - eexists. split; [done|]. split; [by apply sorted_filter|]. split.
    + apply Forall_forall. intros x Hx.
      apply list_elem_of_fmap in Hx as (row & -> & [_ Hin]%list_elem_of_filter).
      rewrite Forall_forall in Hp. apply Hp. by apply (list_elem_of_fmap_2 fst).
    + etrans; [apply length_filter|done].
  - cbn [pos rows_ring]. clear. induction rows as [|row rows IH]; [done|].
    rewrite filter_cons. cbn [fmap list_fmap]. rewrite filter_cons.
    repeat case_decide; try done. cbn [fmap list_fmap]. by f_equal.
Qed.

(** What [bestPos] computes: the largest checkpoint not past [lcp]. *)
Lemma bestPos_spec (ring : Ring V) lcp :
  Forall (fun p => 0 < p) (pos ring) ->
  let b := fold_left (fun best p => if (p <=? lcp)%nat && (best <? p)%nat then p else best)
             (pos ring) 0 in
  b <= lcp /\ (b = 0 \/ b ∈ pos ring) /\ forall p, p ∈ pos ring -> p <= lcp -> p <= b.
Proof.
  intros _ b. subst b. generalize (pos ring) as l. intros l.
  assert (Hgen : forall (l : list nat) b0, b0 <= lcp ->
    let b := fold_left (fun best p => if (p <=? lcp)%nat && (best <? p)%nat then p else best) l b0 in
    b0 <= b <= lcp /\ (b = b0 \/ b ∈ l) /\ forall p, p ∈ l -> p <= lcp -> p <= b).
  { clear l. induction l as [|x l IH]; intros b0 Hb; cbn [fold_left].
    { split; [done|]. split; [by left|]. intros p Hp. by apply not_elem_of_nil in Hp. }
    set (b1 := if (x <=? lcp)%nat && (b0 <? x)%nat then x else b0).
    assert (Hb1 : b0 <= b1 <= lcp /\ (b1 = b0 \/ b1 = x) /\ (x <= lcp -> x <= b1)).
    { unfold b1. destruct (Nat.leb_spec x lcp), (Nat.ltb_spec b0 x); simpl; lia. }
    destruct Hb1 as (H1 & H2 & H3). destruct (IH b1) as (H4 & H5 & H6); [lia|].
    split; [lia|]. split.
    - destruct H5 as [H5|H5]; [|right; by right].
      destruct H2 as [H2|H2]; [left; congruence|]. right. rewrite H5, H2. by left.
    - intros p [->|Hp]%elem_of_cons Hle; [|by apply H6]. specialize (H3 Hle). lia. }
  destruct (Hgen l 0) as (H1 & H2 & H3); [lia|]. split; [lia|]. done.
Qed.

Lemma find_last (l : list nat) p :
  Forall (fun q => q < p) l -> list_find (fun q => q = p) (l ++ [p]) = Some (length l, p).
Proof.
  intros Hl. apply list_find_Some. split; [by rewrite list_lookup_middle|]. split; [done|].
  intros j y Hj Hlt. rewrite lookup_app_l in Hj by done. rewrite Forall_lookup in Hl.
  specialize (Hl _ _ Hj). simpl in Hl. lia.
Qed.

(** Restoring slices of slot [slot] of one slab from another. *)
Definition slot_restored (isRec : nat -> bool) (blockCount slot : nat)
  (src live live' : SsmState.t V) : Prop :=
  (forall L j, L < blockCount -> isRec L = true -> j < SsmState._stateElems src ->
     let i := L * SsmState.stateLayerStride src + slot * SsmState._stateElems src + j in
     SsmState._state live' i = SsmState._state src i) /\
  (forall L j, L < blockCount -> isRec L = true -> j < SsmState._convStateElems src ->
     let i := L * SsmState.convStateLayerStride src + slot * SsmState._convStateElems src + j in
     SsmState._convState live' i = SsmState._convState src i) /\
  (forall i, (forall L, L < blockCount -> isRec L = true ->
       ~ in_slice (SsmState.stateLayerStride src) (SsmState._stateElems src) slot L i) ->
     SsmState._state live' i = SsmState._state live i) /\
  (forall i, (forall L, L < blockCount -> isRec L = true ->
       ~ in_slice (SsmState.convStateLayerStride src) (SsmState._convStateElems src) slot L i) ->
     SsmState._convState live' i = SsmState._convState live i).

Definition same_dims (s s' : SsmState.t V) : Prop :=
  SsmState._stateElems s' = SsmState._stateElems s /\
  SsmState._convStateElems s' = SsmState._convStateElems s /\
  SsmState._nSeq s' = SsmState._nSeq s.

(** The entries kept before the new one. *)
Lemma capture_ring slots slot p maxBatch blockCount ssm isRec ring :
  slots_for slots maxBatch !! slot = Some ring -> ring_ok ring -> Forall (fun q => q < p) (pos ring) ->
  0 < p ->
  exists rows sBuf cBuf,
    let sImg := packLayers isRec (SsmState.stateLayerStride ssm) (SsmState._stateElems ssm) slot
                  (seq 0 blockCount) 0 sBuf (SsmState._state ssm) in
    let cImg := packLayers isRec (SsmState.convStateLayerStride ssm) (SsmState._convStateElems ssm)
                  slot (seq 0 blockCount) 0 cBuf (SsmState._convState ssm) in
    capture slots slot p maxBatch blockCount ssm isRec !! slot =
      Some (rows_ring (rows ++ [(p, (sImg, cImg))])) /\
    Forall (fun q => q < p) rows.*1 /\
    ring_ok (rows_ring (rows ++ [(p, (sImg, cImg))])).
Proof.
  intros Hring (rows & -> & Hs & Hpos & Hl) Hlt Hp. cbn [pos rows_ring] in Hlt.
  unfold capture. rewrite list_lookup_alter_eq, Hring. cbv zeta. cbn [fmap option_fmap option_map].
  assert (Hok : forall rows sImg cImg, StronglySorted lt rows.*1 -> Forall (fun p => 0 < p) rows.*1 ->
    Forall (fun q => q < p) rows.*1 -> length rows < kMaxPerSlot ->
    ring_ok (rows_ring (rows ++ [(p, (sImg, cImg))]))).
  { intros rows' sImg cImg Hs' Hp' Hlt' Hl'. eexists. split; [done|].
    rewrite fmap_app, length_app. simpl. split; [|split; [|lia]].
    - clear -Hs' Hlt'. induction Hs' as [|x l Hs IH Hx]; simpl; [repeat constructor|].
      apply Forall_cons in Hlt' as [? ?]. constructor; [by apply IH|].
      apply Forall_app. split; [done|]. by constructor.
    - apply Forall_app. split; [done|]. by constructor. }
  assert (Hlen : length (pos (rows_ring rows)) = length rows) by apply length_fmap.
  rewrite Hlen. destruct (Nat.leb_spec kMaxPerSlot (length rows)) as [Hfull|Hroom].
  - destruct rows as [|row rows]; [unfold kMaxPerSlot in Hfull; simpl in Hfull; lia|].
    exists rows, row.2.1, row.2.2. cbn [fmap list_fmap length] in *.
    inversion Hs; subst. apply Forall_cons in Hlt as [_ Hlt]. apply Forall_cons in Hpos as [_ Hpos].
    split; [|split; [done|apply Hok; try done; lia]].
    unfold rows_ring. by rewrite !fmap_app.
  - exists rows, fresh, fresh. split; [|split; [done|by apply Hok]].
    unfold rows_ring. by rewrite !fmap_app.
Qed.

End Ring.

(** capturing a checkpoint of a slot at a new, later position and
    restoring it after any amount of further computation puts exactly that
    slot's recurrent layers back to what they were - the dense packing of
    recurrent layers included - and touches no other cell of the slab; the ring
    stays ascending and bounded, and [bestPos] then finds that position for any
    prompt sharing at least that prefix. *)
Theorem checkpoint_roundtrip {V} (fresh : mem V) slots slot p maxBatch blockCount ssm live isRec ring lcp :
  slots_for slots maxBatch !! slot = Some ring -> ring_ok ring ->
  Forall (fun q => q < p) (pos ring) -> 0 < p -> slot < SsmState._nSeq ssm -> same_dims ssm live ->
  let slots' := capture fresh slots slot p maxBatch blockCount ssm isRec in
  (exists ring', slots' !! slot = Some ring' /\ ring_ok ring') /\
  (p <= lcp -> bestPos slots' slot lcp = p) /\
  slot_restored isRec blockCount slot ssm live (restore slots' slot p blockCount live isRec).
Proof.
  intros Hring Hok Hlt Hp Hslot (D1 & D2 & D3) slots'.
  destruct (capture_ring fresh slots slot p maxBatch blockCount ssm isRec ring Hring Hok Hlt Hp)
    as (rows & sBuf & cBuf & Hcap & Hrows & Hok'). fold slots' in Hcap.
  split; [eauto|]. split.
  - intros Hle. unfold bestPos. rewrite Hcap.
    match type of Hcap with _ = Some (rows_ring (rows ++ [(p, ?im)])) => set (imgs := im) in * end.
    destruct (bestPos_spec (rows_ring (rows ++ [(p, imgs)])) lcp) as (H1 & H2 & H3).
    { destruct Hok' as (r & -> & _ & ? & _). done. }
    assert (Hin : p ∈ pos (rows_ring (rows ++ [(p, imgs)]))).
    { cbn [pos rows_ring]. rewrite fmap_app, elem_of_app. right. by left. }
    match goal with |- ?fold = p => generalize dependent fold end. intros b H1 H2 H3.
    specialize (H3 p Hin Hle). destruct H2 as [->|H2]; [lia|].
    cbn [pos rows_ring] in H2. rewrite fmap_app, elem_of_app in H2.
    destruct H2 as [H2|H2%list_elem_of_singleton]; [|done].
    rewrite Forall_forall in Hrows. specialize (Hrows _ H2). simpl in *. lia.
  - unfold restore. rewrite Hcap. cbn [pos state conv rows_ring].
    rewrite !fmap_app. cbn [fmap list_fmap fst snd]. rewrite find_last by done.
    rewrite length_fmap, !list_lookup_middle by (by rewrite !length_fmap).
    unfold SsmState.stateLayerStride, SsmState.convStateLayerStride. rewrite D1, D2, D3.
    unfold slot_restored, SsmState.stateLayerStride, SsmState.convStateLayerStride. simpl.
    split; [|split; [|split]]; [| |apply pack_unpack; nia|apply pack_unpack; nia];
      intros L j HL HR Hj; apply pack_unpack; try done; nia.
Qed.

Definition demo_ssm : SsmState.t nat := SsmState.mkSsm 2 1 3 (fun i => i) (fun i => 10 * i).
Definition demo_live : SsmState.t nat := SsmState.mkSsm 2 1 3 (fun _ => 0) (fun _ => 0).
Definition demo_rec (L : nat) : bool := (L =? 1)%nat.

Lemma checkpoint_roundtrip_witness :
  let slots := @nil (Ring nat) in
  slots_for slots 3 !! 2 = Some (mkRing [] [] []) /\
  let slots' := capture (fun _ => 99) slots 2 512 3 2 demo_ssm demo_rec in
  (exists ring', slots' !! 2 = Some ring' /\ ring_ok ring') /\
  (512 <= 700 -> bestPos slots' 2 700 = 512) /\
  slot_restored demo_rec 2 2 demo_ssm demo_live (restore slots' 2 512 2 demo_live demo_rec).
Proof.
  split; [reflexivity|].
  apply (checkpoint_roundtrip (fun _ => 99) [] 2 512 3 2 demo_ssm demo_live demo_rec
           (mkRing [] [] []) 700); try done; try (simpl; lia).
  exists []. split; [reflexivity|]. split; [constructor|]. split; [constructor|]. simpl. lia.
Defined.

End SlotSsmCheckpointRing.

(** ** The cross-slot prefix store *)

Module CrossSlotPrefixStore.

Module I := GdnPrefixIndex.

(** A device image of a prefix.
    [src/src/runtime/engine/ServingSession.cpp:320-325 PrefixImage] *)
Record PrefixImage {V : Type} := mkImage {
  state : mem V;
  conv : mem V;
  kv : mem V;
  pos : nat;
}.
Arguments PrefixImage : clear implicits.
#[global] Arguments mkImage {V} _ _ _ _.

(** The paged pool as far as the store uses it: per-layer key and value
    memories, with [elemBytes], [blockSize] and [slotElems]. *)
Record Pool {V : Type} := mkPool {
  numLayers : nat;
  slotElems : nat;
  elemBytes : nat;
  blockSize : nat;
  keyPool : nat -> mem V;
  valuePool : nat -> mem V;
}.
Arguments Pool : clear implicits.
#[global] Arguments mkPool {V} _ _ _ _ _ _.

(** The serving state the store uses ([mtpPoolLayer] is [None] for the
    [numeric_limits::max()] marker).
    [src/src/runtime/engine/ServingSession.cpp:326-337 CrossSlotPrefixStore] *)
Record t {V : Type} := mkState {
  maxContext : nat;
  blocksPerSeq : nat;
  blockCount : nat;
  mtpPoolLayer : option nat;
  ssm : option (SsmState.t V);
  pool : option (Pool V);
  xslot : bool;
  prefixIndex : option I.t;
  prefixImages : gmap N (PrefixImage V);
  nextPayloadId : N;
  pendingFree : list (PrefixImage V);
}.
Arguments t : clear implicits.
#[global] Arguments mkState {V} _ _ _ _ _ _ _ _ _ _ _.

Section Store.
Context {V : Type}.
Variable isRec : nat -> bool.
(** What fresh device allocations hold. *)
Variable fresh : mem V.

(** [src/src/runtime/engine/ServingSession.cpp:2641-2643 nFullAttn] *)
Definition nFullAttn (st : t V) (p : Pool V) : nat :=
  match mtpPoolLayer st with None => numLayers p | Some l => l end.

(** The KV rows of all full-attention layers, copied out of a slot's block run
    starting at byte [start], [n] bytes per memory.
    [src/src/runtime/engine/ServingSession.cpp:2651-2660 ServingSession::snapshotSlotToPrefixImage] *)
Fixpoint packKv (layers : list nat) (start n : nat) (dst : mem V) (p : Pool V) : mem V :=
  match layers with
  | [] => dst
  | L :: layers =>
      let dst := copy dst ((L * 2 + 0) * n) (keyPool p L) start n in
      let dst := copy dst ((L * 2 + 1) * n) (valuePool p L) start n in
      packKv layers start n dst p
  end.

(** A per-layer memory replaced. *)
Definition upd (L : nat) (m : mem V) (f : nat -> mem V) : nat -> mem V :=
  fun M => if (M =? L)%nat then m else f M.

(** The KV rows copied back in.
    [src/src/runtime/engine/ServingSession.cpp:2748-2757 ServingSession::restorePrefixImageToSlot] *)
Fixpoint unpackKv (layers : list nat) (start n : nat) (p : Pool V) (src : mem V) : Pool V :=
  match layers with
  | [] => p
  | L :: layers =>
      let p := mkPool (numLayers p) (slotElems p) (elemBytes p) (blockSize p)
                 (upd L (copy (keyPool p L) start src ((L * 2 + 0) * n) n) (keyPool p))
                 (upd L (copy (valuePool p L) start src ((L * 2 + 1) * n) n) (valuePool p)) in
      unpackKv layers start n p src
  end.

(** First byte of a slot's block run; bytes of [pos] positions. *)
Definition startByte (st : t V) (p : Pool V) (slot : nat) : nat :=
  slot * blocksPerSeq st * blockSize p * slotElems p * elemBytes p.
Definition kvBytes (p : Pool V) (pos : nat) : nat := pos * slotElems p * elemBytes p.

(** The image copied out of a slot: recurrent slices, then KV rows [0,pos).
    [src/src/runtime/engine/ServingSession.cpp:2608-2660 ServingSession::snapshotSlotToPrefixImage] *)
Definition captureImage (st : t V) (m : SsmState.t V) (p : Pool V) (slot ps : nat) : PrefixImage V :=
  mkImage
    (packLayers isRec (SsmState.stateLayerStride m) (SsmState._stateElems m) slot
       (seq 0 (blockCount st)) 0 fresh (SsmState._state m))
    (packLayers isRec (SsmState.convStateLayerStride m) (SsmState._convStateElems m) slot
       (seq 0 (blockCount st)) 0 fresh (SsmState._convState m))
    (packKv (seq 0 (nFullAttn st p)) (startByte st p slot) (kvBytes p ps) fresh p)
    ps.

(** Move the evicted victims' images to the deferred frees; reports whether
    [pid] itself bounced.
    [src/src/runtime/engine/ServingSession.cpp:2673-2680 ServingSession::snapshotSlotToPrefixImage] *)
Fixpoint take_evicted (pid : N) (evicted : list N) (images : gmap N (PrefixImage V))
  (pending : list (PrefixImage V)) : bool * gmap N (PrefixImage V) * list (PrefixImage V) :=
  match evicted with
  | [] => (false, images, pending)
  | e :: evicted =>
      if (e =? pid)%N then
        let '(_, images, pending) := take_evicted pid evicted images pending in
        (true, images, pending)
      else
        match images !! e with
        | None => take_evicted pid evicted images pending
        | Some img => take_evicted pid evicted (delete e images) (pending ++ [img])
        end
  end.

(** The store part of the state updated. *)
Definition with_store (st : t V) (index : I.t) (images : gmap N (PrefixImage V)) (next : N)
  (pending : list (PrefixImage V)) : t V :=
  mkState (maxContext st) (blocksPerSeq st) (blockCount st) (mtpPoolLayer st) (ssm st) (pool st)
    (xslot st) (Some index) images next pending.

(** [slot] is a physical slot; [tokens] is [None] for a null pointer.
    [src/src/runtime/engine/ServingSession.cpp:2596-2687 ServingSession::snapshotSlotToPrefixImage] *)
Definition snapshotSlotToPrefixImage (st : t V) (slot ps : nat) (tokens : option (list Z))
  : result (N * t V) :=
  match ssm st, pool st, prefixIndex st, tokens with
  | Some m, Some p, Some index, Some toks =>
      if negb (xslot st) || (ps =? 0)%nat then Ok (I.kNone, st)
      else if negb (ps mod I._blockSize index =? 0)%nat || (maxContext st <? ps)%nat then
        Ok (I.kNone, st)
      else
        let img := captureImage st m p slot ps in
        let pid := nextPayloadId st in
        match I.insert index (Some toks) ps pid [] with
        | Throw e => Throw e
        | Ok (evicted, index) =>
            let '(ourIdBounced, images, pending) :=
              take_evicted pid evicted (prefixImages st) (pendingFree st) in
            let next := u64 (pid + 1) in
            if (ourIdBounced : bool) then
              Ok (I.kNone, with_store st index images next (pending ++ [img]))
            else Ok (pid, with_store st index (emplace pid img images) next pending)
        end
  | _, _, _, _ => Ok (I.kNone, st)
  end.

(** (found, position, payload).
    [src/src/runtime/engine/ServingSession.cpp:2689-2704 ServingSession::lookupPrefixImage] *)
Definition lookupPrefixImage (st : t V) (prompt : option (list Z))
  : result (bool * nat * N * t V) :=
  match prefixIndex st with
  | None => Ok (false, 0, I.kNone, st)
  | Some index =>
      if negb (xslot st) then Ok (false, 0, I.kNone, st)
      else
        match I.lookup index prompt with
        | Throw e => Throw e
        | Ok (hit, index) =>
            let st := with_store st index (prefixImages st) (nextPayloadId st) (pendingFree st) in
            if negb (I.found hit) || bool_decide (prefixImages st !! I.hit_payload hit = None) then
              Ok (false, 0, I.kNone, st)
            else Ok (true, I.pos hit, I.hit_payload hit, st)
        end
  end.

(** The slab and pool of slot [slot] after copying an image in.
    [src/src/runtime/engine/ServingSession.cpp:2717-2757 ServingSession::restorePrefixImageToSlot] *)
Definition restoreImage (st : t V) (m : SsmState.t V) (p : Pool V) (slot : nat)
  (img : PrefixImage V) : SsmState.t V * Pool V :=
  (SsmState.mkSsm (SsmState._stateElems m) (SsmState._convStateElems m) (SsmState._nSeq m)
     (unpackLayers isRec (SsmState.stateLayerStride m) (SsmState._stateElems m) slot
        (seq 0 (blockCount st)) 0 (SsmState._state m) (state img))
     (unpackLayers isRec (SsmState.convStateLayerStride m) (SsmState._convStateElems m) slot
        (seq 0 (blockCount st)) 0 (SsmState._convState m) (conv img)),
   unpackKv (seq 0 (nFullAttn st p)) (startByte st p slot) (kvBytes p (pos img)) p (kv img)).

(** [src/src/runtime/engine/ServingSession.cpp:2706-2759 ServingSession::restorePrefixImageToSlot] *)
Definition restorePrefixImageToSlot (st : t V) (slot : nat) (payload : N) : bool * t V :=
  match ssm st, pool st with
  | Some m, Some p =>
      if negb (xslot st) then (false, st)
      else
        match prefixImages st !! payload with
        | None => (false, st)
        | Some img =>
            let '(m, p) := restoreImage st m p slot img in
            (true, mkState (maxContext st) (blocksPerSeq st) (blockCount st) (mtpPoolLayer st)
                     (Some m) (Some p) (xslot st) (prefixIndex st) (prefixImages st)
                     (nextPayloadId st) (pendingFree st))
        end
  | _, _ => (false, st)
  end.

(** [src/src/runtime/engine/ServingSession.cpp:2761-2765 ServingSession::acquirePrefixImage] *)
Definition acquirePrefixImage (st : t V) (payload : N) : t V :=
  match prefixIndex st with
  | Some index =>
      if xslot st then
        with_store st (I.acquire index payload) (prefixImages st) (nextPayloadId st) (pendingFree st)
      else st
  | None => st
  end.

(** [src/src/runtime/engine/ServingSession.cpp:2767-2771 ServingSession::releasePrefixImage] *)
Definition releasePrefixImage (st : t V) (payload : N) : t V :=
  match prefixIndex st with
  | Some index =>
      if xslot st then
        with_store st (I.release index payload) (prefixImages st) (nextPayloadId st) (pendingFree st)
      else st
  | None => st
  end.

(** After a flush, the pending images are destroyed.
    [src/src/runtime/engine/ServingSession.cpp:2777-2789 ServingSession::drainPrefixImageFrees] *)
Definition drainPrefixImageFrees (st : t V) : t V :=
  match pendingFree st with
  | [] => st
  | _ => mkState (maxContext st) (blocksPerSeq st) (blockCount st) (mtpPoolLayer st) (ssm st)
           (pool st) (xslot st) (prefixIndex st) (prefixImages st) (nextPayloadId st) []
  end.

(** ** KV copies *)





End Store.


(** ** Store invariant *)

(** The images held are exactly the payloads the index knows, under ids below
    the next one. *)
Record store_ok {V} (st : t V) (index : I.t) : Prop := {
  ok_index : prefixIndex st = Some index;
  ok_wf : I.wf index;
  ok_bounded : I.bounded index;
  ok_images : forall pid, is_Some (prefixImages st !! pid) <-> pid ∈ I.payloads index;
  ok_pos : forall pid img toks, prefixImages st !! pid = Some img -> I.cached index toks pid ->
    pos img = length toks;
  ok_next : (0 < nextPayloadId st)%N;
  ok_fresh : forall pid, pid ∈ I.payloads index -> (pid < nextPayloadId st)%N;
}.

(** The images alive: cached or waiting to be freed. *)
Definition live_images {V} (st : t V) : nat := size (prefixImages st) + length (pendingFree st).

(** A snapshot that the guards let through. *)
Definition snapshot_valid {V} (st : t V) (index : I.t) (ps : nat) (toks : list Z) : Prop :=
  xslot st = true /\ 0 < ps <= length toks /\ ps mod I._blockSize index = 0 /\ ps <= maxContext st.

(** The new image bounced: only the deferred frees grow. *)
Lemma bounced_ok {V} (st : t V) index index' img :
  store_ok st index -> I.wf index' -> I.bounded index' ->
  (forall q tk, I.cached index' tk q <-> I.cached index tk q) ->
  let st' := with_store st index' (prefixImages st) (nextPayloadId st + 1)%N (pendingFree st ++ [img]) in
  store_ok st' index' /\ live_images st' = S (live_images st).
Proof.
  intros [] Hwf' Hb' Hc st'. split.
  - split; simpl; try done; try lia.
    + intros q. rewrite ok_images0, !I.elem_of_payloads. by setoid_rewrite Hc.
    + intros q im tk Hq Hq'. eapply ok_pos0; [done|]. by apply Hc.
    + intros q Hq%I.elem_of_payloads. setoid_rewrite Hc in Hq.
      apply I.elem_of_payloads, ok_fresh0 in Hq. lia.
  - unfold live_images. simpl. rewrite length_app. simpl. lia.
Qed.

(** The images left when the victim [v], if any, is taken out. *)
Definition without {V} (v : option N) (images : gmap N (PrefixImage V)) : gmap N (PrefixImage V) :=
  match v with Some v => delete v images | None => images end.
Definition victim_images {V} (v : option N) (images : gmap N (PrefixImage V)) : list (PrefixImage V) :=
  match v with Some v => match images !! v with Some i => [i] | None => [] end | None => [] end.

Lemma without_lookup {V} v (images : gmap N (PrefixImage V)) q i :
  without v images !! q = Some i <-> images !! q = Some i /\ v <> Some q.
Proof.
  destruct v as [v|]; simpl; [|naive_solver]. rewrite lookup_delete_Some. naive_solver.
Qed.

(** The new image is cached, one victim possibly queued for the free. *)
Lemma added_ok {V} (st : t V) index index' img prefix v :
  store_ok st index -> I.wf index' -> I.bounded index' -> pos img = length prefix ->
  (match v with Some v => v ∈ I.payloads index | None => True end) ->
  (forall q tk, I.cached index' tk q <->
     (I.cached index tk q \/ (q = nextPayloadId st /\ tk = prefix)) /\ v <> Some q) ->
  let st' := with_store st index' (emplace (nextPayloadId st) img (without v (prefixImages st)))
               (nextPayloadId st + 1)%N (pendingFree st ++ victim_images v (prefixImages st)) in
  store_ok st' index' /\ live_images st' = S (live_images st) /\
  prefixImages st' !! nextPayloadId st = Some img /\ I.cached index' prefix (nextPayloadId st).
Proof.
  intros [] Hwf' Hb' Hpos Hv Hc st'. set (pid := nextPayloadId st) in *.
  assert (Hnew : forall tk, ~ I.cached index tk pid).
  { intros tk Hk. assert (pid ∈ I.payloads index) as Hin%ok_fresh0
      by (apply I.elem_of_payloads; eauto). unfold pid in Hin. lia. }
  assert (Hvp : v <> Some pid).
  { intros ->. apply I.elem_of_payloads in Hv as [tk Hk]. by eapply Hnew. }
  assert (Himg : without v (prefixImages st) !! pid = None).
  { apply eq_None_not_Some. intros [i [Hi _]%without_lookup].
    assert (pid ∈ I.payloads index) as [tk Hk]%I.elem_of_payloads
      by (apply ok_images0; eauto). by eapply Hnew. }
  assert (Hemp : emplace pid img (without v (prefixImages st)) =
    <[pid := img]> (without v (prefixImages st))) by (by apply emplace_fresh).
  assert (Hlk : forall q i, prefixImages st' !! q = Some i <->
    (q = pid /\ i = img) \/ (prefixImages st !! q = Some i /\ v <> Some q /\ q <> pid)).
  { intros q i. unfold st'. simpl. fold pid. rewrite Hemp, lookup_insert_Some, without_lookup.
    naive_solver. }
  split; [|split; [|split]].
  - split; simpl; try done; try lia.
    + intros q. change (is_Some (prefixImages st' !! q) <-> q ∈ I.payloads index').
      rewrite I.elem_of_payloads. unfold is_Some. setoid_rewrite Hlk. setoid_rewrite Hc.
      assert (Hq : is_Some (prefixImages st !! q) <-> exists tk, I.cached index tk q)
        by (rewrite ok_images0; apply I.elem_of_payloads).
      destruct (decide (q = pid)) as [->|Hne].
      * split; [intros _; exists prefix; auto|intros _; eauto].
      * split.
        -- intros (i & [[? _]|(Hi & Hvq & _)]); [done|].
           destruct (proj1 Hq) as [tk Hk]; eauto.
        -- intros (tk & [[Hk|[? _]] Hvq]); [|done]. destruct (proj2 Hq (ex_intro _ tk Hk)) as [i Hi].
           exists i. by right.
    + intros q i tk Hi [[Hk|[-> ->]] _]%Hc.
      * apply (Hlk q i) in Hi as [[-> _]|(Hi & _)]; [by destruct (Hnew tk)|by eapply ok_pos0].
      * apply (Hlk pid i) in Hi as [[_ ->]|(_ & _ & ?)]; done.
    + intros q [tk [[Hk|[-> _]] _]%Hc]%I.elem_of_payloads; [|fold pid; lia].
      assert (q ∈ I.payloads index) as Hin%ok_fresh0 by (apply I.elem_of_payloads; eauto).
      fold pid in Hin |- *. lia.
  - unfold live_images. simpl. fold pid. rewrite Hemp, map_size_insert_None, length_app by done.
    destruct v as [v|]; simpl; [|lia]. apply ok_images0 in Hv as [i Hi].
    rewrite Hi, map_size_delete_Some by eauto. simpl.
    assert (size (prefixImages st) <> 0); [|lia].
    intros Hz%map_size_empty_inv. by rewrite Hz, lookup_empty in Hi.
  - apply Hlk. by left.
  - apply Hc. split; [by right|done].
Qed.

(** A snapshot that passes the guards: its image is cached under the returned id,
    or - for a duplicate prefix, or a store full of pinned entries - queued for
    the deferred free with 0 returned. *)
Lemma snapshot_spec {V} isRec (fresh : mem V) st index m p slot ps toks :
  store_ok st index -> ssm st = Some m -> pool st = Some p -> snapshot_valid st index ps toks ->
  (I._tick index + 1 < 2 ^ 64 - 1)%N -> (nextPayloadId st + 1 < 2 ^ 64)%N ->
  let img := captureImage isRec fresh st m p slot ps in
  exists pid index' images pending,
    let st' := with_store st index' images (nextPayloadId st + 1)%N pending in
    snapshotSlotToPrefixImage isRec fresh st slot ps (Some toks) = Ok (pid, st') /\
    store_ok st' index' /\ live_images st' = S (live_images st) /\
    (if decide (pid = I.kNone) then img ∈ pending
     else images !! pid = Some img /\ I.cached index' (take ps toks) pid) /\
    (forall q toks', (0 < I.refcountOf index q)%N -> I.cached index toks' q ->
       I.cached index' toks' q) /\
    (forall q i toks', images !! q = Some i -> I.cached index' toks' q ->
       (prefixImages st !! q = Some i /\ I.cached index toks' q) \/ (i = img /\ toks' = take ps toks)) /\
    I._blockSize index' = I._blockSize index /\ (I._tick index' <= I._tick index + 1)%N.
Proof.
  intros Hok Hm Hp (Hx & Hps & Hal & Hmax) Ht Hn img. pose proof Hok as [].
  assert (Hnew : forall tk, ~ I.cached index tk (nextPayloadId st)).
  { intros tk Hk. assert (nextPayloadId st ∈ I.payloads index) as Hin%ok_fresh0
      by (apply I.elem_of_payloads; eauto). lia. }
  assert (Hnew' : I._entries index !! nextPayloadId st = None).
  { destruct (I._entries index !! nextPayloadId st) as [e|] eqn:He; [|done].
    destruct (Hnew (I.tokens e)). by exists e. }
  assert (Hne : nextPayloadId st <> I.kNone) by (unfold I.kNone; lia).
  assert (Hlen : pos img = length (take ps toks)) by (simpl; rewrite length_take; lia).
  destruct (I.insert_spec index toks ps (nextPayloadId st) [] ok_wf0 ok_bounded0 Ht
    (conj Hps Hal) Hne Hnew') as (ev & index' & Hi & Hwf' & Hb' & Hpin & Hcase). rewrite app_nil_l in Hi.
  destruct (I.insert_frame index _ _ _ _ _ _ ltac:(lia) Hi) as [Hbs Htk].
  unfold snapshotSlotToPrefixImage. rewrite Hm, Hp, ok_index0, Hx.
  rewrite (proj2 (Nat.eqb_neq ps 0)), (proj2 (Nat.eqb_eq _ _) Hal), (proj2 (Nat.ltb_ge _ _) Hmax) by lia.
  cbn [negb orb]. fold img. rewrite Hi, u64_small by done.
  match goal with |- ?G => assert (Hbounce :
    (forall q tk, I.cached index' tk q <-> I.cached index tk q) -> ev = [nextPayloadId st] -> G) end.
  { intros Hc Hev. destruct (bounced_ok st index index' img Hok Hwf' Hb' Hc) as [Hok' Hlive].
    exists I.kNone, index', (prefixImages st), (pendingFree st ++ [img]). subst ev.
    cbn [take_evicted]. rewrite N.eqb_refl. split; [done|]. split; [done|]. split; [done|].
    rewrite decide_True by done. split; [apply elem_of_app; right; by left|]. split; [done|].
    split; [|done]. intros q i tk Hq Hk%Hc. by left. }
  match goal with |- ?G => assert (Hadd : forall v,
    (match v with Some v => v ∈ I.payloads index | None => True end) ->
    (forall q tk, I.cached index' tk q <->
       (I.cached index tk q \/ (q = nextPayloadId st /\ tk = take ps toks)) /\ v <> Some q) ->
    ev = match v with Some v => [v] | None => [] end -> G) end.
  { intros v Hv Hc Hev.
    destruct (added_ok st index index' img (take ps toks) v Hok Hwf' Hb' Hlen Hv Hc)
      as (Hok' & Hlive & Himg & Hcache).
    exists (nextPayloadId st), index', (emplace (nextPayloadId st) img (without v (prefixImages st))),
      (pendingFree st ++ victim_images v (prefixImages st)).
    split.
    { subst ev. destruct v as [v|]; cbn [take_evicted]; [|by rewrite app_nil_r].
      rewrite (proj2 (N.eqb_neq v (nextPayloadId st))).
      - simpl. destruct (prefixImages st !! v) as [i|] eqn:Hvi; [done|].
        by rewrite app_nil_r, (delete_id _ _ Hvi).
      - intros ->. apply I.elem_of_payloads in Hv as [tk Hk]. by eapply Hnew. }
    do 2 (split; [done|]). rewrite decide_False by done. split; [done|]. split; [done|].
    split; [|done]. intros q i tk Hq [[Hk|[-> ->]] _]%Hc.
    - left. split; [|done]. unfold emplace in Hq.
      destruct (without v (prefixImages st) !! nextPayloadId st); [by apply without_lookup in Hq as [? _]|].
      apply lookup_insert_Some in Hq as [[<- _]|[_ Hq]]; [by destruct (Hnew tk)|].
      by apply without_lookup in Hq as [? _].
    - right. simpl in Himg. split; congruence. }
  destruct Hcase as [(-> & Hs & _)|[(-> & Hc)|(v & e & -> & He & _ & _ & Hc)]].
  - apply Hbounce; [|done]. intros q tk. by apply I.same_content_cached.
  - apply (Hadd None); [done| |done]. intros q tk. rewrite Hc. naive_solver.
  - destruct (decide (v = nextPayloadId st)) as [->|Hv].
    + apply Hbounce; [|done]. intros q tk. rewrite Hc. split; [naive_solver|].
      intros Hq. split; [by left|]. intros ->. by destruct (Hnew tk).
    + apply (Hadd (Some v)); [| |done].
      * unfold I.add in He. simpl in He. apply lookup_insert_Some in He as [[? _]|[_ He]]; [done|].
        apply I.elem_of_payloads. exists (I.tokens e), e. done.
      * intros q tk. rewrite Hc. naive_solver.
Qed.

(** A small store: one slot of two layers, two-token blocks, one image. *)
Definition demo_pool : Pool nat :=
  mkPool 1 1 2 2 (fun L i => 100 * L + i) (fun L i => 1000 + 100 * L + i).
Definition demo_store : t nat :=
  mkState 4 2 2 None (Some SlotSsmCheckpointRing.demo_ssm) (Some demo_pool) true
    (Some (I.create 2 1)) ∅ 1 [].
Definition demo_snapshot (ps : nat) (toks : list Z) (st : t nat) : t nat :=
  match snapshotSlotToPrefixImage SlotSsmCheckpointRing.demo_rec (fun _ => 0) st 1 ps (Some toks) with
  | Ok (_, st) => st | Throw _ => st end.

Lemma demo_store_ok : store_ok demo_store (I.create 2 1).
Proof.
  destruct (I.create_index_wf 2 1) as [Hwf Hb]. split; try done.
  - intros pid. split; [intros [? Hi]; simpl in Hi; by rewrite lookup_empty in Hi|].
    intros Hin. by apply not_elem_of_nil in Hin.
  - intros pid Hin. by apply not_elem_of_nil in Hin.
Qed.

Lemma demo_snapshot_ok : exists index, store_ok (demo_snapshot 2 [5; 6; 7]%Z demo_store) index /\
  (I._tick index <= 1)%N.
Proof.
  destruct (snapshot_spec SlotSsmCheckpointRing.demo_rec (fun _ => 0) demo_store (I.create 2 1)
    SlotSsmCheckpointRing.demo_ssm demo_pool 1 2 [5; 6; 7]%Z demo_store_ok)
    as (pid & index & images & pending & Hs & Hok & _ & _ & _ & _ & _ & Ht); try done.
  { split; [reflexivity|]. split; [simpl; lia|]. split; [reflexivity|]. simpl. lia. }
  exists index. unfold demo_snapshot. by rewrite Hs.
Qed.


(** ** Histories of the store *)

Inductive op :=
  | OpSnapshot (slot ps : nat) (toks : list Z)
  | OpLookup (prompt : list Z)
  | OpAcquire (pid : N)
  | OpRelease (pid : N)
  | OpDrain.

(** How many images the call destroys, and the new state. *)
Definition run_op {V} isRec (fresh : mem V) (st : t V) (o : op) : result (nat * t V) :=
  match o with
  | OpSnapshot slot ps toks =>
      match snapshotSlotToPrefixImage isRec fresh st slot ps (Some toks) with
      | Ok (_, st) => Ok (0, st) | Throw e => Throw e end
  | OpLookup prompt =>
      match lookupPrefixImage st (Some prompt) with
      | Ok (_, _, _, st) => Ok (0, st) | Throw e => Throw e end
  | OpAcquire pid => Ok (0, acquirePrefixImage st pid)
  | OpRelease pid => Ok (0, releasePrefixImage st pid)
  | OpDrain => Ok (length (pendingFree st), drainPrefixImageFrees st)
  end.

Fixpoint run_ops {V} isRec (fresh : mem V) (st : t V) (os : list op) : result (nat * t V) :=
  match os with
  | [] => Ok (0, st)
  | o :: os =>
      match run_op isRec fresh st o with
      | Throw e => Throw e
      | Ok (freed, st) =>
          match run_ops isRec fresh st os with
          | Throw e => Throw e | Ok (freed', st) => Ok (freed + freed', st) end
      end
  end.

Definition snapshots (os : list op) : nat :=
  length (List.filter (fun o => match o with OpSnapshot _ _ _ => true | _ => false end) os).

(** Snapshots at a block boundary within the context. *)
Definition op_ok (maxContext bs : nat) (o : op) : Prop :=
  match o with
  | OpSnapshot _ ps toks => 0 < ps <= length toks /\ ps mod bs = 0 /\ ps <= maxContext
  | _ => True
  end.

(** Every cached image is one a snapshot took, of the tokens it is filed
    under. *)
Definition images_from {V} isRec (fresh : mem V) (st0 st : t V) m p index (os : list op) : Prop :=
  forall q img toks', prefixImages st !! q = Some img -> I.cached index toks' q ->
    exists slot ps toks, OpSnapshot slot ps toks ∈ os /\ toks' = take ps toks /\
      img = captureImage isRec fresh st0 m p slot ps.

(** The parts of the state the store never writes. *)
Definition same_engine {V} (st st' : t V) : Prop :=
  maxContext st' = maxContext st /\ blocksPerSeq st' = blocksPerSeq st /\
  blockCount st' = blockCount st /\ mtpPoolLayer st' = mtpPoolLayer st /\ ssm st' = ssm st /\
  pool st' = pool st /\ xslot st' = xslot st.

Lemma same_engine_capture {V} isRec (fresh : mem V) st st' m p slot ps :
  same_engine st st' ->
  captureImage isRec fresh st' m p slot ps = captureImage isRec fresh st m p slot ps.
Proof.
  intros (_ & H2 & H3 & H4 & _). unfold captureImage, nFullAttn, startByte. by rewrite H2, H3, H4.
Qed.

(** The index replaced by one with the same content. *)
Lemma store_same_content {V} (st : t V) index index' :
  store_ok st index -> I.wf index' -> I.bounded index' -> I.payloads index' ≡ₚ I.payloads index ->
  (forall q tk, I.cached index' tk q -> I.cached index tk q) ->
  store_ok (with_store st index' (prefixImages st) (nextPayloadId st) (pendingFree st)) index'.
Proof.
  intros [] Hwf' Hb' Hp Hc. split; simpl; try done.
  - intros q. by rewrite Hp.
  - intros q img tk Hq Hq'. eapply ok_pos0; [done|]. auto.
  - intros q. rewrite Hp. auto.
Qed.

Lemma touched_ok {V} (st : t V) index index' :
  store_ok st index -> I.wf index' -> I.same_content index index' ->
  store_ok (with_store st index' (prefixImages st) (nextPayloadId st) (pendingFree st)) index'.
Proof.
  intros Hok Hwf' Hs. pose proof (I.payloads_same _ _ Hs) as Hp. pose proof Hok as [].
  apply (store_same_content st index); try done.
  - unfold I.bounded in *. rewrite (I.payloads_size _ _ Hp). by destruct Hs as (_ & -> & _).
  - intros q tk Hk. by apply (I.same_content_cached index index').
Qed.

Lemma recount_cached x pid f q tk :
  (forall e, I.tokens (f e) = I.tokens e) ->
  I.cached (x <| I._entries := alter f pid (I._entries x) |>) tk q -> I.cached x tk q.
Proof.
  intros Hf (e & He & Ht). unfold I.cached. simpl in He.
  destruct (decide (q = pid)) as [->|Hq].
  - rewrite lookup_alter_eq in He. destruct (I._entries x !! pid) as [e0|]; simplify_eq/=.
    exists e0. split; [done|]. by rewrite Hf.
  - rewrite lookup_alter_ne in He by done. eauto.
Qed.

Lemma pin_ok {V} (st : t V) index pid (pin : bool) :
  store_ok st index ->
  let index' := if pin then I.acquire index pid else I.release index pid in
  store_ok (with_store st index' (prefixImages st) (nextPayloadId st) (pendingFree st)) index' /\
  I._blockSize index' = I._blockSize index /\ I._tick index' = I._tick index /\
  (forall q tk, I.cached index' tk q -> I.cached index tk q).
Proof.
  intros Hok index'. pose proof Hok as [].
  assert (Hx : exists f, (forall e, I.tokens (f e) = I.tokens e /\ I.payload (f e) = I.payload e /\
    I.lastUsed (f e) = I.lastUsed e) /\ index' = index <| I._entries := alter f pid (I._entries index) |>).
  { destruct pin; unfold index'.
    - eexists. split; [|reflexivity]. done.
    - rewrite I.release_alter. eexists. split; [|reflexivity]. intros e. simpl. by case_match. }
  destruct Hx as (f & Hf & Heq). rewrite Heq.
  destruct (I.recount_wf index pid f Hf ok_wf0) as (Hwf' & Hb' & Hp & _).
  assert (Hc : forall q tk, I.cached (index <| I._entries := alter f pid (I._entries index) |>) tk q ->
    I.cached index tk q) by (intros q tk; apply recount_cached; intros e; apply Hf).
  split; [|done]. apply (store_same_content st index); auto.
Qed.

(** C16: looking a prompt up never throws, moves nothing but access times, and
    finds an image exactly when some block-aligned prefix of the prompt is
    cached; the image it then names is present, holds the longest such prefix,
    and that prefix equals the prompt's token for token - a hash collision never
    serves a wrong prefix. *)
Theorem prefix_lookup_exact {V} (st : t V) index prompt :
  store_ok st index -> xslot st = true -> (I._tick index < 2 ^ 64 - 1)%N ->
  exists found ps pid st' index',
    lookupPrefixImage st (Some prompt) = Ok (found, ps, pid, st') /\
    store_ok st' index' /\ I.same_content index index' /\ prefixImages st' = prefixImages st /\
    (found = true <-> exists p q, I.aligned index prompt p /\ I.cached index (take p prompt) q) /\
    (found = true ->
       I.aligned index prompt ps /\ I.cached index (take ps prompt) pid /\
       (exists img, prefixImages st' !! pid = Some img /\ pos img = ps) /\
       forall p q, I.aligned index prompt p -> I.cached index (take p prompt) q -> p <= ps).
Proof.
  intros Hst Hx Ht. pose proof Hst as [].
  destruct (I.lookup_spec index prompt ok_wf0 Ht) as (hit & index' & Hl & Hwf' & Hs & Hc).
  pose proof (touched_ok st index index' Hst Hwf' Hs) as Hok.
  unfold lookupPrefixImage. rewrite ok_index0, Hx, Hl. cbn [negb].
  destruct (I.found hit) eqn:Hf; cbn [negb orb].
  - destruct Hc as (Hal & Hca & Hmax).
    assert (Hin : is_Some (prefixImages st !! I.hit_payload hit))
      by (apply ok_images0, I.elem_of_payloads; eauto).
    destruct Hin as [img Himg]. rewrite (bool_decide_eq_false_2 (prefixImages st !! I.hit_payload hit = None)) by congruence.
    eexists true, _, _, _, index'. do 4 (split; [done|]). split; [naive_solver|]. intros _.
    do 2 (split; [done|]). split; [|done]. exists img. split; [done|].
    rewrite (ok_pos0 _ _ _ Himg Hca), length_take. destruct Hal. lia.
  - eexists false, _, _, _, index'. do 4 (split; [done|]). split; [|done].
    split; [done|]. intros (p & q & Hal & Hca). by destruct (Hc p q Hal).
Qed.

Lemma prefix_lookup_exact_witness :
  let st := demo_snapshot 2 [5; 6; 7]%Z demo_store in
  let prompt := [5; 6; 9]%Z in
  (exists st', lookupPrefixImage st (Some prompt) = Ok (true, 2, 1%N, st')) /\
  exists index found ps pid st' index',
    lookupPrefixImage st (Some prompt) = Ok (found, ps, pid, st') /\
    store_ok st' index' /\ I.same_content index index' /\ prefixImages st' = prefixImages st /\
    (found = true <-> exists p q, I.aligned index prompt p /\ I.cached index (take p prompt) q) /\
    (found = true ->
       I.aligned index prompt ps /\ I.cached index (take ps prompt) pid /\
       (exists img, prefixImages st' !! pid = Some img /\ pos img = ps) /\
       forall p q, I.aligned index prompt p -> I.cached index (take p prompt) q -> p <= ps).
Proof.
  intros st prompt. split; [eexists; vm_compute; reflexivity|].
  destruct demo_snapshot_ok as (index & Hok & Ht). exists index.
  apply (prefix_lookup_exact st index prompt Hok); [reflexivity|lia].
Defined.

Lemma store_lookup_op_spec {V} (st : t V) index prompt :
  store_ok st index -> xslot st = true -> (I._tick index < 2 ^ 64 - 1)%N ->
  exists found ps pid index', 
    lookupPrefixImage st (Some prompt) =
      Ok (found, ps, pid, with_store st index' (prefixImages st) (nextPayloadId st) (pendingFree st)) /\
    store_ok (with_store st index' (prefixImages st) (nextPayloadId st) (pendingFree st)) index' /\
    I.same_content index index' /\ (I._tick index' <= I._tick index + 1)%N.
Proof.
  intros Hok Hx Ht. pose proof Hok as [].
  assert (Hl : exists hit index', I.lookup index (Some prompt) = Ok (hit, index') /\ I.wf index' /\
    I.same_content index index' /\ (I._tick index' <= I._tick index + 1)%N) by (by apply I.lookup_op_spec).
  destruct Hl as (hit & index' & Hl & Hwf' & Hs & Ht').
  pose proof (touched_ok st index index' Hok Hwf' Hs) as Hok'.
  unfold lookupPrefixImage. rewrite ok_index0, Hx, Hl. cbn [negb].
  destruct (negb (I.found hit) || _); eauto 10.
Qed.

(** One call on the store. *)
Lemma store_run_op_spec {V} isRec (fresh : mem V) st index m p o :
  store_ok st index -> ssm st = Some m -> pool st = Some p -> xslot st = true ->
  (I._tick index + 1 < 2 ^ 64 - 1)%N -> (nextPayloadId st + 1 < 2 ^ 64)%N ->
  op_ok (maxContext st) (I._blockSize index) o ->
  exists freed st' index', run_op isRec fresh st o = Ok (freed, st') /\ store_ok st' index' /\
    same_engine st st' /\ live_images st' + freed = live_images st + snapshots [o] /\
    I._blockSize index' = I._blockSize index /\ (I._tick index' <= I._tick index + 1)%N /\
    (nextPayloadId st' <= nextPayloadId st + 1)%N /\
    (forall q img toks', prefixImages st' !! q = Some img -> I.cached index' toks' q ->
       (prefixImages st !! q = Some img /\ I.cached index toks' q) \/
       exists slot ps toks, o = OpSnapshot slot ps toks /\ toks' = take ps toks /\
         img = captureImage isRec fresh st m p slot ps).
Proof.
  intros Hok Hm Hp Hx Ht Hn Ho. destruct o as [slot ps toks|prompt|pid|pid|]; cbn [run_op op_ok] in *.
  - destruct (snapshot_spec isRec fresh st index m p slot ps toks Hok Hm Hp (conj Hx Ho) Ht Hn)
      as (pid & index' & images & pending & Hs & Hok' & Hl & _ & _ & Hfrom & Hbs & Htk).
    rewrite Hs. eexists 0, _, index'. split; [done|]. split; [done|]. split; [done|].
    split; [rewrite Hl; unfold snapshots; simpl; lia|]. do 2 (split; [done|]).
    split; [simpl; lia|]. intros q i tk Hq Hk. destruct (Hfrom q i tk Hq Hk) as [?|[-> ->]]; [by left|].
    right. eauto 10.
  - destruct (store_lookup_op_spec st index prompt Hok Hx ltac:(lia))
      as (found & ps & pid & index' & -> & Hok' & Hs & Htk).
    eexists 0, _, index'. split; [done|]. split; [done|]. split; [done|].
    split; [unfold snapshots, live_images; simpl; lia|]. split; [apply Hs|]. split; [done|].
    split; [simpl; lia|]. intros q i tk Hq Hk. left. split; [done|].
    by apply (I.same_content_cached index index').
  - destruct (pin_ok st index pid true Hok) as (Hok' & Hbs & Htk & Hc).
    eexists 0, _, _. split; [done|]. unfold acquirePrefixImage. rewrite (ok_index _ _ Hok), Hx.
    split; [done|]. split; [done|]. split; [unfold snapshots, live_images; simpl; lia|].
    split; [done|]. split; [simpl in *; lia|]. split; [simpl; lia|]. intros q i tk Hq Hk. left. auto.
  - destruct (pin_ok st index pid false Hok) as (Hok' & Hbs & Htk & Hc).
    eexists 0, _, _. split; [done|]. unfold releasePrefixImage. rewrite (ok_index _ _ Hok), Hx.
    split; [done|]. split; [done|]. split; [unfold snapshots, live_images; simpl; lia|].
    split; [done|]. split; [simpl in *; lia|]. split; [simpl; lia|]. intros q i tk Hq Hk. left. auto.
  - eexists _, _, index. split; [done|]. unfold drainPrefixImageFrees, live_images, snapshots.
    destruct (pendingFree st) as [|i l] eqn:Hpend; simpl.
    + rewrite Hpend. simpl. split; [done|]. split; [done|]. split; [lia|]. split; [done|].
      split; [lia|]. split; [lia|]. intros; by left.
    + split; [by destruct Hok|]. split; [done|]. split; [lia|]. split; [done|]. split; [lia|].
      split; [lia|]. intros; by left.
Qed.

Lemma store_run_ops_spec {V} isRec (fresh : mem V) os : forall st index m p,
  store_ok st index -> ssm st = Some m -> pool st = Some p -> xslot st = true ->
  (I._tick index + N.of_nat (length os) < 2 ^ 64 - 1)%N ->
  (nextPayloadId st + N.of_nat (length os) < 2 ^ 64)%N ->
  Forall (op_ok (maxContext st) (I._blockSize index)) os ->
  exists freed st' index', run_ops isRec fresh st os = Ok (freed, st') /\ store_ok st' index' /\
    same_engine st st' /\ live_images st' + freed = live_images st + snapshots os /\
    (forall q img toks', prefixImages st' !! q = Some img -> I.cached index' toks' q ->
       (prefixImages st !! q = Some img /\ I.cached index toks' q) \/
       exists slot ps toks, OpSnapshot slot ps toks ∈ os /\ toks' = take ps toks /\
         img = captureImage isRec fresh st m p slot ps).
Proof.
  induction os as [|o os IH]; intros st index m p Hok Hm Hp Hx Ht Hn Hos.
  { exists 0, st, index. split; [done|]. split; [done|]. split; [done|].
    split; [unfold snapshots; simpl; lia|]. intros; by left. }
  apply Forall_cons in Hos as [Ho Hos]. cbn [length] in *.
  destruct (store_run_op_spec isRec fresh st index m p o Hok Hm Hp Hx ltac:(lia) ltac:(lia) Ho)
    as (freed & st1 & index1 & Hr & Hok1 & Hse & Hl & Hbs & Ht1 & Hn1 & Hfrom).
  pose proof Hse as (E1 & E2 & E3 & E4 & E5 & E6 & E7).
  assert (Hos1 : Forall (op_ok (maxContext st1) (I._blockSize index1)) os) by (by rewrite E1, Hbs).
  destruct (IH st1 index1 m p Hok1 ltac:(congruence) ltac:(congruence) ltac:(congruence) ltac:(lia)
    ltac:(lia) Hos1) as (freed' & st' & index' & Hr' & Hok' & Hse' & Hl' & Hfrom').
  exists (freed + freed'), st', index'. cbn [run_ops]. rewrite Hr, Hr'. split; [done|].
  split; [done|]. split; [unfold same_engine in *; intuition congruence|]. split.
  { unfold snapshots in *. change (o :: os) with ([o] ++ os). rewrite List.filter_app, length_app. lia. }
  intros q img tk Hq Hk. destruct (Hfrom' q img tk Hq Hk) as [[Hq1 Hk1]|(sl & ps & toks & Hin & He & Hi)].
  - destruct (Hfrom q img tk Hq1 Hk1) as [?|(sl & ps & toks & -> & He & Hi)]; [by left|].
    right. exists sl, ps, toks. split; [by left|done].
  - right. exists sl, ps, toks. split; [by right|]. split; [done|]. rewrite Hi.
    by apply same_engine_capture.
Qed.

(** C9: along any history of snapshots, lookups, pins, unpins and deferred
    frees on a fresh store, no call throws, images and index entries stay in
    step, every image ever captured is cached, queued for the free or already
    freed - none is lost or freed twice - and every cached image holds what was
    captured for exactly the tokens it is filed under. *)
Theorem store_history {V} isRec (fresh : mem V) st bs maxEntries m p os :
  st = mkState (maxContext st) (blocksPerSeq st) (blockCount st) (mtpPoolLayer st) (Some m) (Some p)
         true (Some (I.create bs maxEntries)) ∅ 1 [] ->
  (N.of_nat (length os) < 2 ^ 64 - 2)%N ->
  Forall (op_ok (maxContext st) (I._blockSize (I.create bs maxEntries))) os ->
  exists freed st' index', run_ops isRec fresh st os = Ok (freed, st') /\ store_ok st' index' /\
    live_images st' + freed = snapshots os /\
    images_from isRec fresh st st' m p index' os.
Proof.
  intros Hst Hlen Hos. destruct (I.create_index_wf bs maxEntries) as [Hwf Hb].
  pose proof (f_equal ssm Hst) as Hm. pose proof (f_equal pool Hst) as Hp.
  pose proof (f_equal xslot Hst) as Hx. pose proof (f_equal nextPayloadId Hst) as Hn.
  pose proof (f_equal prefixImages Hst) as Him. pose proof (f_equal prefixIndex Hst) as Hix.
  pose proof (f_equal pendingFree Hst) as Hpf. clear Hst. simpl in *.
  assert (Hok : store_ok st (I.create bs maxEntries)).
  { split; rewrite ?Him, ?Hn; try done.
    - intros q. rewrite lookup_empty. split; [by intros []|].
      intros Hin. by apply not_elem_of_nil in Hin.
    - intros q Hin. by apply not_elem_of_nil in Hin. }
  destruct (store_run_ops_spec isRec fresh os st (I.create bs maxEntries) m p Hok Hm Hp Hx)
    as (freed & st' & index' & Hr & Hok' & _ & Hl & Hfrom); [simpl; lia|rewrite Hn; lia|done|].
  exists freed, st', index'. split; [done|]. split; [done|]. split.
  - unfold live_images in Hl at 2. rewrite Him, Hpf in Hl. simpl in Hl. done.
  - intros q img tk Hq Hk. destruct (Hfrom q img tk Hq Hk) as [[Hq' _]|?]; [|done].
    by rewrite Him, lookup_empty in Hq'.
Qed.

Definition demo_store_ops : list op :=
  [OpSnapshot 1 2 [5; 6; 7]%Z; OpSnapshot 0 2 [5; 6]%Z; OpAcquire 1; OpSnapshot 2 2 [8; 9]%Z;
   OpRelease 1; OpDrain; OpSnapshot 2 4 [5; 6; 7; 8]%Z; OpLookup [5; 6; 7; 8; 9]%Z].

Lemma store_history_witness :
  let isRec := SlotSsmCheckpointRing.demo_rec in
  exists freed st' index',
    run_ops isRec (fun _ => 0) demo_store demo_store_ops = Ok (freed, st') /\
    store_ok st' index' /\ live_images st' + freed = 4 /\
    images_from isRec (fun _ => 0) demo_store st' SlotSsmCheckpointRing.demo_ssm demo_pool index'
      demo_store_ops.
Proof.
  apply (store_history SlotSsmCheckpointRing.demo_rec (fun _ => 0) demo_store 2 1
           SlotSsmCheckpointRing.demo_ssm demo_pool demo_store_ops); [reflexivity|reflexivity|].
  repeat constructor; simpl; try lia.
Defined.

End CrossSlotPrefixStore.
