(* ===== verification/ContinuousBatcher.v ===== *)
(** * [ContinuousBatcher]: the continuous-batching worker

    Models [src/src/runtime/serving/ContinuousBatcher.{hpp,cpp}]: admission
    ([submit], the per-tenant cap, the warm / cross-slot / cold admission
    passes), eager chunked prefill, batched ragged prefill, the mixed step, the
    decode step, the thinking budget and retirement.

    - The engine is the typeclass [Engine]: the serving calls of
      [InferenceEngine.hpp] as operations on an abstract engine state.  The laws
      the engine documents are in [BatcherInvariant.v]; [ListEngine.v] is an
      instance that satisfies them.
    - A [ServingRequest] is shared between threads, so requests live in a store
      ([reqs], indexed by handle) and slots and queue entries hold handles.
    - The worker releases [_mtx] during forwards, and [cancel] takes only the
      request's own mutex.  Every place where the worker takes [_mtx] is
      [lock_mtx], and every place where it reads a [cancelled] flag is preceded
      by [lock_req]; both let the client threads run first.  What the clients do
      there is read from two scripts in the state, and theorems quantify over
      all scripts, hence over all interleavings at lock granularity.
    - [size_t] counters are [nat]; [SIZE_MAX] as "no slot" is [None].  The
      wall-clock fields ([admitAt], [prefillMs]) and log lines are left out. *)

From S2P Require Import Prelude.

(** ** The engine *)

(** One row of a decode step.
    [src/src/runtime/InferenceEngine.hpp:468-473 ServingSlotStep] *)
Record ServingSlotStep := mkStep {
  st_slot : nat;
  st_token : Z;
  st_pos : nat;
  st_seqStart : bool;
}.

(** The serving calls the batcher makes.  A call that can throw returns a
    [result]; a call that fills [outTokens] and [outLp] returns the rows. *)
Class Engine := {
  State : Type;
  SamplingParams : Type;
  ToolConstraint : Type;
  TokenLogprobs : Type;
  noLogprobs : TokenLogprobs;
  stepServing : list ServingSlotStep -> State -> result (list (Z * TokenLogprobs)) * State;
  prefillSlot : nat -> list Z -> nat -> bool -> State -> result (Z * TokenLogprobs) * State;
  prefillSlotsBatched :
    nat -> list (list Z) -> list nat -> State -> result (list (Z * TokenLogprobs)) * State;
  captureSlotSsmCkpt : nat -> nat -> State -> State;
  slotCkptBestPos : State -> nat -> nat -> nat;
  restoreSlotSsmCkptAtPos : nat -> nat -> State -> State;
  pruneSlotSsmCkpts : nat -> nat -> State -> State;
  clearSlotSsmCkpts : nat -> State -> State;
  snapshotSlotToPrefixImage : nat -> nat -> list Z -> State -> State;
  lookupPrefixImage : list Z -> State -> option (nat * N) * State;
  restorePrefixImageToSlot : nat -> N -> State -> bool * State;
  acquirePrefixImage : N -> State -> State;
  releasePrefixImage : N -> State -> State;
  drainPrefixImageFrees : State -> State;
  setServingSlotSampling : nat -> SamplingParams -> list Z -> State -> State;
  setServingSlotToolConstraint : nat -> option ToolConstraint -> State -> State;
}.

(** [std::exception::what]. *)
Definition what (e : exn) : string :=
  match e with
  | InvalidArgument w | RuntimeError w | OutOfRange w | LengthError w => w
  | BadAlloc => "std::bad_alloc"
  end.

Module ContinuousBatcher.

(** A slot of a prefill run with the prompt and handle read under the lock. *)
Abbreviation Snapshot := (nat * (list Z * option nat))%type.

Section Batcher.
Context {EN : Engine}.

(** ** Data *)

(** [src/src/runtime/serving/ContinuousBatcher.hpp:58-99 ServingRequest] *)
Record ServingRequest := mkServingRequest {
  tokens : list Z;
  logprobs : list TokenLogprobs;
  done : bool;
  cancelled : bool;
  overloaded : bool;
  tenantQuotaExceeded : bool;
  error : string;
  tenantId : string;
  promptTokens : nat;
  cachedTokens : nat;
  prefilledTokens : nat;
  prefillSet : bool;
}.

Definition eta_sreq (r : ServingRequest) : ServingRequest :=
  mkServingRequest (tokens r) (logprobs r) (done r) (cancelled r) (overloaded r)
    (tenantQuotaExceeded r) (error r) (tenantId r) (promptTokens r) (cachedTokens r)
    (prefilledTokens r) (prefillSet r).
#[global] Instance set_tokens : FieldSetter tokens := ltac:(build_setter eta_sreq tokens).
#[global] Instance set_logprobs : FieldSetter logprobs := ltac:(build_setter eta_sreq logprobs).
#[global] Instance set_done : FieldSetter done := ltac:(build_setter eta_sreq done).
#[global] Instance set_cancelled : FieldSetter cancelled := ltac:(build_setter eta_sreq cancelled).
#[global] Instance set_overloaded : FieldSetter overloaded :=
  ltac:(build_setter eta_sreq overloaded).
#[global] Instance set_quota : FieldSetter tenantQuotaExceeded :=
  ltac:(build_setter eta_sreq tenantQuotaExceeded).
#[global] Instance set_error : FieldSetter error := ltac:(build_setter eta_sreq error).
#[global] Instance set_promptTokens : FieldSetter promptTokens :=
  ltac:(build_setter eta_sreq promptTokens).
#[global] Instance set_cachedTokens : FieldSetter cachedTokens :=
  ltac:(build_setter eta_sreq cachedTokens).
#[global] Instance set_prefilledTokens : FieldSetter prefilledTokens :=
  ltac:(build_setter eta_sreq prefilledTokens).
#[global] Instance set_prefillSet : FieldSetter prefillSet :=
  ltac:(build_setter eta_sreq prefillSet).

(** [std::make_shared<ServingRequest>()] with the tenant label set. *)
Definition newRequest (tenant : string) : ServingRequest :=
  mkServingRequest [] [] false false false false EmptyString tenant 0 0 0 false.

(** A queued request; [p_req] is its handle.
    [src/src/runtime/serving/ContinuousBatcher.hpp:210-217 Pending] *)
Record Pending := mkPending {
  p_req : nat;
  p_prompt : list Z;
  p_maxNew : nat;
  p_stopIds : list Z;
  p_sampling : SamplingParams;
  p_constraint : option ToolConstraint;
}.

(** A physical slot.
    [src/src/runtime/serving/ContinuousBatcher.hpp:219-269 Slot] *)
Record Slot := mkSlot {
  occupied : bool;
  req : option nat;
  prompt : list Z;
  promptLen : nat;
  pos : nat;
  lastTok : Z;
  maxNew : nat;
  produced : nat;
  stopIds : list Z;
  prefillPos : nat;
  resident : bool;
  residentTokens : list Z;
  residentTick : N;
  prefillStart : nat;
  xslotPayload : N;
  thinkOpen : bool;
  reasoningTokens : nat;
  forcing : bool;
  forceIdx : nat;
}.

Definition eta_slot (s : Slot) : Slot :=
  mkSlot (occupied s) (req s) (prompt s) (promptLen s) (pos s) (lastTok s) (maxNew s)
    (produced s) (stopIds s) (prefillPos s) (resident s) (residentTokens s)
    (residentTick s) (prefillStart s) (xslotPayload s) (thinkOpen s)
    (reasoningTokens s) (forcing s) (forceIdx s).
#[global] Instance set_occupied : FieldSetter occupied := ltac:(build_setter eta_slot occupied).
#[global] Instance set_req : FieldSetter req := ltac:(build_setter eta_slot req).
#[global] Instance set_prompt : FieldSetter prompt := ltac:(build_setter eta_slot prompt).
#[global] Instance set_promptLen : FieldSetter promptLen :=
  ltac:(build_setter eta_slot promptLen).
#[global] Instance set_pos : FieldSetter pos := ltac:(build_setter eta_slot pos).
#[global] Instance set_lastTok : FieldSetter lastTok := ltac:(build_setter eta_slot lastTok).
#[global] Instance set_maxNew : FieldSetter maxNew := ltac:(build_setter eta_slot maxNew).
#[global] Instance set_produced : FieldSetter produced := ltac:(build_setter eta_slot produced).
#[global] Instance set_stopIds : FieldSetter stopIds := ltac:(build_setter eta_slot stopIds).
#[global] Instance set_prefillPos : FieldSetter prefillPos :=
  ltac:(build_setter eta_slot prefillPos).
#[global] Instance set_resident : FieldSetter resident := ltac:(build_setter eta_slot resident).
#[global] Instance set_residentTokens : FieldSetter residentTokens :=
  ltac:(build_setter eta_slot residentTokens).
#[global] Instance set_residentTick : FieldSetter residentTick :=
  ltac:(build_setter eta_slot residentTick).
#[global] Instance set_prefillStart : FieldSetter prefillStart :=
  ltac:(build_setter eta_slot prefillStart).
#[global] Instance set_xslotPayload : FieldSetter xslotPayload :=
  ltac:(build_setter eta_slot xslotPayload).
#[global] Instance set_thinkOpen : FieldSetter thinkOpen :=
  ltac:(build_setter eta_slot thinkOpen).
#[global] Instance set_reasoningTokens : FieldSetter reasoningTokens :=
  ltac:(build_setter eta_slot reasoningTokens).
#[global] Instance set_forcing : FieldSetter forcing := ltac:(build_setter eta_slot forcing).
#[global] Instance set_forceIdx : FieldSetter forceIdx := ltac:(build_setter eta_slot forceIdx).

(** A default-constructed [Slot].
    [src/src/runtime/serving/ContinuousBatcher.hpp:219-269 Slot] *)
Definition emptySlot : Slot :=
  mkSlot false None [] 0 0 0 0 0 [] 0 false [] 0 0 0 false 0 false 0.

(** The members fixed at construction.
    [src/src/runtime/serving/ContinuousBatcher.hpp:365-466 ContinuousBatcher] *)
Record Config := mkConfig {
  _maxBatch : nat;
  _maxContext : nat;
  _eosId : Z;
  _maxInflight : nat;
  _maxInflightPerTenant : nat;
  _prefillChunk : nat;
  _admitPerIter : nat;
  _warmSlot : bool;
  _xslot : bool;
  _mixedBatchPrefill : bool;
  _prefillMaxRows : nat;
  _mixedStep : bool;
  _mixedStepPressureGate : bool;
  _thinkBudget : nat;
  _thinkStartId : Z;
  _thinkEndId : Z;
  _thinkForceSeq : list Z;
}.

(** ** Construction *)

(** What the constructor asks the engine. *)
Record EngineInfo := mkInfo {
  servingPrefillChunk : nat;
  servingPrefillMaxRows : nat;
  backendNeedsSsmScratch : bool;
  architecture : string;
  findToken : string -> Z;
  encode : string -> list Z;
}.

(** The value of a decimal digit. *)
Definition digit (a : Ascii.ascii) : option Z :=
  let n := Z.of_nat (Ascii.nat_of_ascii a) in
  if (48 <=? n)%Z && (n <=? 57)%Z then Some (n - 48)%Z else None.

Definition isSpace (a : Ascii.ascii) : bool :=
  let n := Ascii.nat_of_ascii a in (n =? 32) || ((9 <=? n) && (n <=? 13)).

Fixpoint digits (acc : Z) (s : string) : Z :=
  match s with
  | String a s' => match digit a with Some d => digits (10 * acc + d) s' | None => acc end
  | EmptyString => acc
  end.

(** [strtol(s, nullptr, 10)] and [atol(s)]: blanks, a sign, the longest run of
    digits, saturating at the bounds of [long]. *)
Fixpoint strtol (s : string) : Z :=
  match s with
  | EmptyString => 0
  | String a s' =>
      if isSpace a then strtol s'
      else if (Ascii.nat_of_ascii a =? 45) then Z.max (- 2 ^ 63) (- digits 0 s')
      else if (Ascii.nat_of_ascii a =? 43) then Z.min (2 ^ 63 - 1) (digits 0 s')
      else Z.min (2 ^ 63 - 1) (digits 0 s)
  end.

(** A flag variable: unset keeps the default, otherwise it must be [1]. *)
Definition flag (v : option string) (dflt : bool) : bool :=
  match v with Some x => String.eqb x "1" | None => dflt end.

(** The forced transition of the thinking budget.
    [src/src/runtime/serving/ContinuousBatcher.cpp:146-159 ContinuousBatcher] *)
Definition forceSequence (info : EngineInfo) (msg : option string) : list Z :=
  let dflt := "

I have enough information now; I will give the final answer.
" in
  encode info (match msg with Some m => m | None => dflt end)
    ++ [findToken info "</think>"] ++ encode info "

".

(** The members the constructor computes from its arguments, the engine and the
    environment; [None] when it throws.
    [src/src/runtime/serving/ContinuousBatcher.cpp:36-159 ContinuousBatcher] *)
Definition create (getenv : string -> option string) (info : EngineInfo)
    (maxBatch maxContext : nat) (eosId : Z) (maxInflight maxInflightPerTenant : nat)
    : result Config :=
  if (maxBatch =? 0) || (maxContext =? 0) then
    Throw (RuntimeError "ContinuousBatcher: maxBatch/maxContext > 0")
  else
    let chunk := servingPrefillChunk info in
    let admitPerIter :=
      match getenv "MIMIRMIND_PREFILL_ADMIT_PER_ITER" with
      | Some ap => Z.to_nat (strtol ap)
      | None => 0
      end in
    let rows := servingPrefillMaxRows info in
    let noRows := rows =? 0 in
    let qwen4 := String.eqb (architecture info) "qwen4_exp" in
    let ssm := backendNeedsSsmScratch info && (0 <? chunk) in
    let optOut := fun v =>
      match getenv v with Some x => (0 <? strtol x)%Z && ssm | None => ssm end in
    let thinkStart := findToken info "<think>" in
    let thinkEnd := findToken info "</think>" in
    let budget :=
      match getenv "MIMIRMIND_THINKING_TOKEN_BUDGET" with
      | Some tb => if (0 <=? thinkStart)%Z && (0 <=? thinkEnd)%Z then Z.to_nat (strtol tb) else 0
      | None => 0
      end in
    Ok (mkConfig maxBatch maxContext eosId (Nat.max maxInflight maxBatch)
          maxInflightPerTenant chunk admitPerIter
          (optOut "MIMIRMIND_GDN_PREFIX_CKPT") (optOut "MIMIRMIND_GDN_XSLOT")
          (flag (getenv "MIMIRMIND_PREFILL_MIXED_BATCH") false && negb noRows && negb qwen4)
          rows
          (flag (getenv "MIMIRMIND_MIXED_STEP") true && negb noRows && negb qwen4)
          (flag (getenv "MIMIRMIND_MIXED_STEP_PRESSURE") true)
          budget thinkStart thinkEnd
          (if 0 <? budget
           then forceSequence info (getenv "MIMIRMIND_THINKING_BUDGET_MSG") else [])).

(** What the client threads do at a lock point; [EStop] is the destructor
    clearing [_running]. *)
Inductive Event :=
  | ESubmit (prompt : list Z) (maxNew : nat) (stopIds : list Z) (tenant : string)
            (sampling : SamplingParams) (constraint : option ToolConstraint)
  | ECancel (handle : nat)
  | EStop.

(** The batcher's mutable state with the request store, the engine, the client
    scripts for the [_mtx] and the [req->mtx] lock points, and the history
    variable [submitted]: entry [h] is what handle [h] asked for. *)
Record t := mkBatcher {
  _slots : list Slot;
  _waiting : list Pending;
  _warmTick : N;
  _running : bool;
  reqs : list ServingRequest;
  engine : State;
  script_mtx : list (list Event);
  script_req : list (list nat);
  submitted : list Pending;
}.

Definition eta_batcher (b : t) : t :=
  mkBatcher (_slots b) (_waiting b) (_warmTick b) (_running b) (reqs b) (engine b)
    (script_mtx b) (script_req b) (submitted b).
#[global] Instance set_slots : FieldSetter _slots := ltac:(build_setter eta_batcher _slots).
#[global] Instance set_waiting : FieldSetter _waiting :=
  ltac:(build_setter eta_batcher _waiting).
#[global] Instance set_warmTick : FieldSetter _warmTick :=
  ltac:(build_setter eta_batcher _warmTick).
#[global] Instance set_running : FieldSetter _running :=
  ltac:(build_setter eta_batcher _running).
#[global] Instance set_reqs : FieldSetter reqs := ltac:(build_setter eta_batcher reqs).
#[global] Instance set_engine : FieldSetter engine := ltac:(build_setter eta_batcher engine).
#[global] Instance set_script_mtx : FieldSetter script_mtx :=
  ltac:(build_setter eta_batcher script_mtx).
#[global] Instance set_script_req : FieldSetter script_req :=
  ltac:(build_setter eta_batcher script_req).
#[global] Instance set_submitted : FieldSetter submitted :=
  ltac:(build_setter eta_batcher submitted).

(** The worker's initial state, before its first turn.
    [src/src/runtime/serving/ContinuousBatcher.cpp:161-163 ContinuousBatcher] *)
Definition start (c : Config) (e : State) (script_mtx : list (list Event))
    (script_req : list (list nat)) : t :=
  mkBatcher (replicate (_maxBatch c) emptySlot) [] 0 true [] e script_mtx script_req [].

(** ** Accessors *)

Definition slot (b : t) (i : nat) : Slot := nth i (_slots b) emptySlot.
Definition upd_slot (i : nat) (f : Slot -> Slot) (b : t) : t :=
  b <| _slots := alter f i (_slots b) |>.
Definition upd_req (h : nat) (f : ServingRequest -> ServingRequest) (b : t) : t :=
  b <| reqs := alter f h (reqs b) |>.
Definition upd_engine (f : State -> State) (b : t) : t := b <| engine := f (engine b) |>.
Definition request (b : t) (h : nat) : ServingRequest := nth h (reqs b) (newRequest EmptyString).

(** The slot's shared pointer, dereferenced. *)
Definition upd_slot_req (i : nat) (f : ServingRequest -> ServingRequest) (b : t) : t :=
  match req (slot b i) with Some h => upd_req h f b | None => b end.
Definition slot_cancelled (b : t) (i : nat) : bool :=
  match req (slot b i) with Some h => cancelled (request b h) | None => false end.

(** ** Requests *)

(** What a blocked [waitAll] returns once it wakes up: [None] while it still
    waits.
    [src/src/runtime/serving/ContinuousBatcher.cpp:20-24 ServingRequest::waitAll] *)
Definition waitAll (r : ServingRequest) : option (list Z) :=
  if done r then Some (tokens r) else None.

(** What a blocked [waitToken] returns: [None] while it waits, [Some (Some tok)]
    for [true] with [out = tok], [Some None] for [false].
    [src/src/runtime/serving/ContinuousBatcher.cpp:26-34 ServingRequest::waitToken] *)
Definition waitToken (r : ServingRequest) (next : nat) : option (option Z) :=
  if (next <? length (tokens r)) || done r then
    if next <? length (tokens r) then Some (tokens r !! next) else Some None
  else None.

(** [finish] of [workerLoop] and [failReq] of [runMixedStep].
    [src/src/runtime/serving/ContinuousBatcher.cpp:960-966 finish] *)
Definition finish (err : string) (r : ServingRequest) : ServingRequest :=
  let r := if String.eqb err EmptyString then r else r <| error := err |> in
  r <| done := true |>.

(** ** Thinking budget *)

(** [src/src/runtime/serving/ContinuousBatcher.cpp:187-189 isStop] *)
Definition isStop (tok : Z) (s : Slot) : bool := existsb (Z.eqb tok) (stopIds s).

(** The last [<think>] and [</think>] positions seen from index [k] on.
    [src/src/runtime/serving/ContinuousBatcher.cpp:202-210 initThinkState] *)
Fixpoint lastThink (c : Config) (k : Z) (p : list Z) (lastStart lastEnd : Z) : Z * Z :=
  match p with
  | [] => (lastStart, lastEnd)
  | x :: p' =>
      if (x =? _thinkStartId c)%Z then lastThink c (k + 1) p' k lastEnd
      else if (x =? _thinkEndId c)%Z then lastThink c (k + 1) p' lastStart k
      else lastThink c (k + 1) p' lastStart lastEnd
  end.

(** [src/src/runtime/serving/ContinuousBatcher.cpp:191-212 initThinkState] *)
Definition initThinkState (c : Config) (s : Slot) : Slot :=
  let s := s <| reasoningTokens := 0 |> <| thinkOpen := false |>
             <| forcing := false |> <| forceIdx := 0 |> in
  if (_thinkBudget c =? 0) || (_thinkStartId c <? 0)%Z || (_thinkEndId c <? 0)%Z then s
  else
    let '(lastStart, lastEnd) := lastThink c 0 (prompt s) (-1) (-1) in
    s <| thinkOpen := (0 <=? lastStart)%Z && (lastEnd <? lastStart)%Z |>.

(** The forced token at the cursor, and the end of the forced sequence.
    [src/src/runtime/serving/ContinuousBatcher.cpp:219-223 applyThinkBudget] *)
Definition forceNext (c : Config) (s : Slot) : Slot * Z :=
  let tok := nth (forceIdx s) (_thinkForceSeq c) 0%Z in
  let s := s <| forceIdx := S (forceIdx s) |> in
  if length (_thinkForceSeq c) <=? forceIdx s
  then (s <| forcing := false |> <| thinkOpen := false |>, tok)
  else (s, tok).

(** [src/src/runtime/serving/ContinuousBatcher.cpp:214-252 applyThinkBudget] *)
Definition applyThinkBudget (c : Config) (s : Slot) (tok : Z) : Slot * Z :=
  if forcing s then forceNext c s
  else if negb (thinkOpen s) then (s, tok)
  else if (tok =? _thinkEndId c)%Z then (s <| thinkOpen := false |>, tok)
  else
    let s := s <| reasoningTokens := S (reasoningTokens s) |> in
    if _thinkBudget c <=? reasoningTokens s then
      match _thinkForceSeq c with
      | [] => (s <| thinkOpen := false |>, _thinkEndId c)
      | _ => forceNext c (s <| forcing := true |> <| forceIdx := 0 |>)
      end
    else (s, tok).

(** ** Occupancy *)

(** [src/src/runtime/serving/ContinuousBatcher.cpp:455-462 activeSlots] *)
Definition activeSlots (b : t) : nat := count_if occupied (_slots b).

(** [src/src/runtime/serving/ContinuousBatcher.cpp:464-467 queueDepth] *)
Definition queueDepth (b : t) : nat := length (_waiting b).

(** [src/src/runtime/serving/ContinuousBatcher.cpp:446-453 inflight] *)
Definition inflight (b : t) : nat := length (_waiting b) + activeSlots b.

(** [src/src/runtime/serving/ContinuousBatcher.hpp:185-185 atCapacity] *)
Definition atCapacity (c : Config) (b : t) : bool := _maxInflight c <=? inflight b.

(** [src/src/runtime/serving/ContinuousBatcher.cpp:469-478 kvTokensInUse] *)
Definition kvTokensInUse (b : t) : nat :=
  list_sum (map (fun s => if occupied s then pos s else 0) (_slots b)).

(** [src/src/runtime/serving/ContinuousBatcher.cpp:480-501 countTenantLocked] *)
Definition countTenantLocked (b : t) (tenant : string) : nat :=
  if String.eqb tenant EmptyString then 0
  else
    count_if (fun p => String.eqb (tenantId (request b (p_req p))) tenant) (_waiting b) +
    count_if (fun s => occupied s &&
                match req s with
                | Some h => String.eqb (tenantId (request b h)) tenant
                | None => false
                end) (_slots b).

(** [src/src/runtime/serving/ContinuousBatcher.cpp:503-507 inflightForTenant] *)
Definition inflightForTenant (b : t) (tenant : string) : nat := countTenantLocked b tenant.

(** [src/src/runtime/serving/ContinuousBatcher.cpp:509-514 atCapacityForTenant] *)
Definition atCapacityForTenant (c : Config) (b : t) (tenant : string) : bool :=
  if (_maxInflightPerTenant c =? 0) || String.eqb tenant EmptyString then false
  else _maxInflightPerTenant c <=? inflightForTenant b tenant.

(** ** Client calls *)

(** The rejection [submit] decides on, applied to the fresh handle; [None] when
    the request is accepted.
    [src/src/runtime/serving/ContinuousBatcher.cpp:374-432 submit] *)
Definition submitReject (c : Config) (b : t) (prompt : list Z) (r : ServingRequest)
    : option ServingRequest :=
  if length prompt =? 0 then
    Some (r <| error := "empty prompt" |> <| done := true |>)
  else if _maxContext c <=? length prompt then
    Some (r <| error := "prompt exceeds serving maxContext" |> <| done := true |>)
  else if negb (_running b) then
    Some (r <| error := "batcher stopped" |> <| done := true |> <| cancelled := true |>)
  else if _maxInflight c <=? inflight b then
    Some (r <| error := "server overloaded: request queue full" |>
            <| overloaded := true |> <| done := true |>)
  else if (0 <? _maxInflightPerTenant c) && negb (String.eqb (tenantId r) EmptyString)
          && (_maxInflightPerTenant c <=? countTenantLocked b (tenantId r)) then
    Some (r <| error := "tenant quota exceeded: too many concurrent requests for this key" |>
            <| tenantQuotaExceeded := true |> <| done := true |>)
  else None.

(** The handle is the index of the new entry of the request store.
    [src/src/runtime/serving/ContinuousBatcher.cpp:367-444 submit] *)
Definition submit (c : Config) (prompt : list Z) (maxNew : nat) (stopIds : list Z)
    (tenant : string) (sampling : SamplingParams) (constraint : option ToolConstraint)
    (b : t) : t :=
  let h := length (reqs b) in
  let p := mkPending h prompt maxNew stopIds sampling constraint in
  let r := newRequest tenant in
  let b' := b <| submitted := submitted b ++ [p] |> in
  match submitReject c b prompt r with
  | Some r' => b' <| reqs := reqs b ++ [r'] |>
  | None => b' <| reqs := reqs b ++ [r] |> <| _waiting := _waiting b ++ [p] |>
  end.

(** [src/src/runtime/serving/ContinuousBatcher.cpp:516-523 cancel] *)
Definition cancel (h : nat) (b : t) : t := upd_req h (fun r => r <| cancelled := true |>) b.

Definition clientEvent (c : Config) (b : t) (ev : Event) : t :=
  match ev with
  | ESubmit p n st tn sp tc => submit c p n st tn sp tc b
  | ECancel h => cancel h b
  | EStop => b <| _running := false |>
  end.

(** The worker takes [_mtx]: the clients that got it first have run. *)
Definition lock_mtx (c : Config) (b : t) : t :=
  match script_mtx b with
  | [] => b
  | evs :: rest => fold_left (clientEvent c) evs (b <| script_mtx := rest |>)
  end.

(** The worker takes a request's [mtx]: only [cancel] can have run in between. *)
Definition lock_req (b : t) : t :=
  match script_req b with
  | [] => b
  | hs :: rest => fold_left (fun b h => cancel h b) hs (b <| script_req := rest |>)
  end.

(** ** Slots *)

(** [src/src/runtime/serving/ContinuousBatcher.cpp:254-284 retireSlot] *)
Definition retireSlot (c : Config) (i : nat) (keepWarm : bool) (b : t) : t :=
  let payload := xslotPayload (slot b i) in
  let b := upd_slot i (fun s => s <| occupied := false |> <| req := None |>
                                  <| prefillStart := 0 |>) b in
  let b := if (payload =? 0)%N then b
           else upd_slot i (fun s => s <| xslotPayload := 0%N |>)
                  (upd_engine (releasePrefixImage payload) b) in
  if keepWarm && _warmSlot c && negb (length (residentTokens (slot b i)) =? 0) then
    let tick := u64 (_warmTick b + 1) in
    upd_slot i (fun s => s <| resident := true |> <| residentTick := tick |>)
      (b <| _warmTick := tick |>)
  else
    upd_engine (clearSlotSsmCkpts i)
      (upd_slot i (fun s => s <| prompt := [] |> <| residentTokens := [] |>
                              <| resident := false |>) b).

(** The failure path that retires a slot without [retireSlot].
    [src/src/runtime/serving/ContinuousBatcher.cpp:611-613 prefillSlotAdmitted] *)
Definition dropSlot (i : nat) (b : t) : t :=
  upd_slot i (fun s => s <| occupied := false |> <| req := None |> <| prompt := [] |>) b.

(** The token longest common prefix.
    [src/src/runtime/serving/ContinuousBatcher.cpp:310-314 findWarmSlot] *)
Fixpoint lcp (a b : list Z) : nat :=
  match a, b with
  | x :: a', y :: b' => if (x =? y)%Z then S (lcp a' b') else 0
  | _, _ => 0
  end.

(** One candidate of the scan: [best] is the chosen slot, its checkpoint
    position and its tick.
    [src/src/runtime/serving/ContinuousBatcher.cpp:303-330 findWarmSlot] *)
Definition warmCandidate (b : t) (p : list Z) (best : option nat * nat * N) (i : nat)
    : option nat * nat * N :=
  let '(_, bestPos, bestTick) := best in
  let s := slot b i in
  if negb (resident s) || occupied s then best
  else
    let l := lcp (residentTokens s) p in
    if (l =? 0) || (length p <=? l) then best
    else
      let ckpt := slotCkptBestPos (engine b) i l in
      if (ckpt =? 0) || (length p <=? ckpt) then best
      else if (bestPos <? ckpt) || ((ckpt =? bestPos) && (bestTick <? residentTick s)%N)
      then (Some i, ckpt, residentTick s) else best.

(** [src/src/runtime/serving/ContinuousBatcher.cpp:286-339 findWarmSlot] *)
Definition findWarmSlot (c : Config) (b : t) (p : list Z) : option nat * nat :=
  if negb (_warmSlot c) || (length p =? 0) then (None, 0)
  else
    let '(best, bestPos, _) :=
      fold_left (warmCandidate b p) (seq 0 (length (_slots b))) (None, 0, 0%N) in
    (best, bestPos).

(** One slot of the scan: the lowest cold free slot, and the least recently used
    resident free one with its tick.
    [src/src/runtime/serving/ContinuousBatcher.cpp:350-360 pickColdSlot] *)
Definition coldCandidate (b : t) (acc : option nat * option nat * N) (i : nat)
    : option nat * option nat * N :=
  let '(nonResident, lruResident, lruTick) := acc in
  let s := slot b i in
  if occupied s then acc
  else if negb (resident s) then
    (match nonResident with None => Some i | Some _ => nonResident end, lruResident, lruTick)
  else if (residentTick s <? lruTick)%N then (nonResident, Some i, residentTick s)
  else acc.

(** [src/src/runtime/serving/ContinuousBatcher.cpp:341-365 pickColdSlot] *)
Definition pickColdSlot (b : t) : option nat :=
  let '(nonResident, lruResident, _) :=
    fold_left (coldCandidate b) (seq 0 (length (_slots b))) (None, None, (2 ^ 64 - 1)%N) in
  match nonResident with Some i => Some i | None => lruResident end.

(** ** Admission *)

(** The members every admission pass sets on the chosen slot.
    [src/src/runtime/serving/ContinuousBatcher.cpp:1303-1316 admitCrossSlots] *)
Definition admitInto (c : Config) (p : Pending) (start : nat) (payload : N) (s : Slot) : Slot :=
  let s := s <| occupied := true |> <| resident := false |> <| xslotPayload := payload |>
             <| req := Some (p_req p) |> <| prompt := p_prompt p |>
             <| promptLen := length (p_prompt p) |> in
  (initThinkState c s) <| pos := 0 |> <| lastTok := 0%Z |> <| maxNew := p_maxNew p |>
    <| produced := 0 |> <| stopIds := p_stopIds p |> <| prefillPos := 0 |>
    <| prefillStart := start |>.

(** [setServingSlotSampling] and [setServingSlotToolConstraint].
    [src/src/runtime/serving/ContinuousBatcher.cpp:1318-1320 admitCrossSlots] *)
Definition configureSlot (i : nat) (p : Pending) (e : State) : State :=
  setServingSlotToolConstraint i (p_constraint p)
    (setServingSlotSampling i (p_sampling p) (p_prompt p) e).

(** The per-iteration admission cap.
    [src/src/runtime/serving/ContinuousBatcher.cpp:1342-1342 admitColdSlots] *)
Definition admitCapReached (c : Config) (admitted : nat) : bool :=
  negb (_admitPerIter c =? 0) && (_admitPerIter c <=? admitted).

(** A slot that got a request for eager prefill joins [toPrefill].
    [src/src/runtime/serving/ContinuousBatcher.cpp:1395-1397 admitColdSlots] *)
Definition pushPrefill (cond : bool) (i : nat) (toPrefill : list nat) : list nat :=
  if cond then toPrefill ++ [i] else toPrefill.

(** The body of the warm pass for one queue entry and its slot.
    [src/src/runtime/serving/ContinuousBatcher.cpp:1234-1267 admitWarmSlots] *)
Definition admitWarmInto (c : Config) (p : Pending) (ws reusePos : nat) (b : t) : t :=
  let l := lcp (residentTokens (slot b ws)) (p_prompt p) in
  upd_engine (configureSlot ws p)
    (upd_slot ws (admitInto c p reusePos 0)
      (upd_engine (pruneSlotSsmCkpts ws l) b)).

(** The queue is walked with the entries passed over in [kept].
    [src/src/runtime/serving/ContinuousBatcher.cpp:1222-1274 admitWarmSlots] *)
Fixpoint admitWarmLoop (c : Config) (kept rest : list Pending) (admitted : nat)
    (toPrefill : list nat) (b : t) : nat * list nat * t :=
  match rest with
  | [] => (admitted, toPrefill, b <| _waiting := kept |>)
  | p :: rest' =>
      if admitCapReached c admitted then
        (admitted, toPrefill, b <| _waiting := kept ++ rest |>)
      else
        match findWarmSlot c b (p_prompt p) with
        | (None, _) => admitWarmLoop c (kept ++ [p]) rest' admitted toPrefill b
        | (Some ws, reusePos) =>
            admitWarmLoop c kept rest' (S admitted)
              (pushPrefill ((0 <? _prefillChunk c) && (reusePos <? length (p_prompt p)))
                 ws toPrefill)
              (admitWarmInto c p ws reusePos b)
        end
  end.

(** [src/src/runtime/serving/ContinuousBatcher.cpp:1222-1225 admitWarmSlots] *)
Definition admitWarmSlots (c : Config) (admitted : nat) (toPrefill : list nat) (b : t)
    : nat * list nat * t :=
  if _warmSlot c then admitWarmLoop c [] (_waiting b) admitted toPrefill b
  else (admitted, toPrefill, b).

(** The body of the cross-slot pass after a restored image.
    [src/src/runtime/serving/ContinuousBatcher.cpp:1300-1329 admitCrossSlots] *)
Definition admitCrossInto (c : Config) (p : Pending) (i xpos : nat) (xpid : N) (b : t) : t :=
  upd_engine (configureSlot i p)
    (upd_slot i (admitInto c p xpos xpid)
      (upd_engine (fun e => clearSlotSsmCkpts i (acquirePrefixImage xpid e)) b)).

(** [src/src/runtime/serving/ContinuousBatcher.cpp:1276-1336 admitCrossSlots] *)
Fixpoint admitCrossLoop (c : Config) (kept rest : list Pending) (admitted : nat)
    (toPrefill : list nat) (b : t) : nat * list nat * t :=
  match rest with
  | [] => (admitted, toPrefill, b <| _waiting := kept |>)
  | p :: rest' =>
      if admitCapReached c admitted then
        (admitted, toPrefill, b <| _waiting := kept ++ rest |>)
      else
        let '(hit, e) := lookupPrefixImage (p_prompt p) (engine b) in
        let b := b <| engine := e |> in
        match hit with
        | None => admitCrossLoop c (kept ++ [p]) rest' admitted toPrefill b
        | Some (xpos, xpid) =>
            if (xpos =? 0) || (length (p_prompt p) <=? xpos) then
              admitCrossLoop c (kept ++ [p]) rest' admitted toPrefill b
            else
              match pickColdSlot b with
              | None => (admitted, toPrefill, b <| _waiting := kept ++ rest |>)
              | Some i =>
                  let '(ok, e) := restorePrefixImageToSlot i xpid (engine b) in
                  let b := b <| engine := e |> in
                  if ok then
                    admitCrossLoop c kept rest' (S admitted)
                      (pushPrefill ((0 <? _prefillChunk c) && (xpos <? length (p_prompt p)))
                         i toPrefill)
                      (admitCrossInto c p i xpos xpid b)
                  else admitCrossLoop c (kept ++ [p]) rest' admitted toPrefill b
              end
        end
  end.

(** [src/src/runtime/serving/ContinuousBatcher.cpp:1276-1279 admitCrossSlots] *)
Definition admitCrossSlots (c : Config) (admitted : nat) (toPrefill : list nat) (b : t)
    : nat * list nat * t :=
  if _xslot c then admitCrossLoop c [] (_waiting b) admitted toPrefill b
  else (admitted, toPrefill, b).

(** [src/src/runtime/serving/ContinuousBatcher.cpp:1353-1384 admitColdSlots] *)
Definition admitColdInto (c : Config) (p : Pending) (i : nat) (b : t) : t :=
  upd_engine (configureSlot i p)
    (upd_engine (clearSlotSsmCkpts i)
      (upd_slot i (fun s => (admitInto c p 0 0 s) <| residentTokens := [] |>) b)).

(** [src/src/runtime/serving/ContinuousBatcher.cpp:1393-1394 eagerPrefill] *)
Definition eagerPrefill (c : Config) (prefillPressure : bool) : bool :=
  negb (_mixedStep c) || (_mixedStepPressureGate c && negb prefillPressure).

(** [src/src/runtime/serving/ContinuousBatcher.cpp:1338-1400 admitColdSlots] *)
Fixpoint admitColdLoop (c : Config) (rest : list Pending) (prefillPressure : bool)
    (admitted : nat) (toPrefill : list nat) (b : t) : nat * list nat * t :=
  match rest with
  | [] => (admitted, toPrefill, b <| _waiting := [] |>)
  | p :: rest' =>
      if admitCapReached c admitted then (admitted, toPrefill, b <| _waiting := rest |>)
      else
        match pickColdSlot b with
        | None => (admitted, toPrefill, b <| _waiting := rest |>)
        | Some i =>
            admitColdLoop c rest' prefillPressure (S admitted)
              (pushPrefill ((0 <? _prefillChunk c) && (0 <? length (p_prompt p))
                            && eagerPrefill c prefillPressure) i toPrefill)
              (admitColdInto c p i b)
        end
  end.

(** [src/src/runtime/serving/ContinuousBatcher.cpp:1338-1341 admitColdSlots] *)
Definition admitColdSlots (c : Config) (prefillPressure : bool) (admitted : nat)
    (toPrefill : list nat) (b : t) : nat * list nat * t :=
  admitColdLoop c (_waiting b) prefillPressure admitted toPrefill b.

(** ** Eager prefill *)

(** The stop conditions of a generated token.
    [src/src/runtime/serving/ContinuousBatcher.cpp:1196-1198 workerLoop] *)
Definition stopCond (c : Config) (tok : Z) (s : Slot) (ctxFull : bool) : bool :=
  ((0 <=? _eosId c)%Z && (tok =? _eosId c)%Z) || isStop tok s
  || (maxNew s <=? produced s) || ctxFull.

(** [src/src/runtime/serving/ContinuousBatcher.cpp:628-695 commitPrefilledSlot] *)
Definition commitPrefilledSlot (c : Config) (i : nat) (r : option nat)
    (first : Z * TokenLogprobs) (b : t) : t :=
  let b := lock_mtx c b in
  let s := slot b i in
  if negb (occupied s) || negb (bool_decide (req s = r)) then b
  else
    let '(s, firstTok) := applyThinkBudget c s (fst first) in
    let s := s <| pos := promptLen s |> <| prefillPos := promptLen s |>
               <| lastTok := firstTok |> <| produced := 1 |> in
    let s := if _warmSlot c then s <| residentTokens := prompt s |> else s in
    let b := lock_req (upd_slot i (fun _ => s) b) in
    let cancelled := slot_cancelled b i in
    let b := upd_slot_req i (fun q =>
      let q := q <| promptTokens := promptLen s |> <| cachedTokens := prefillStart s |>
                 <| prefilledTokens := promptLen s - prefillStart s |>
                 <| prefillSet := true |> in
      if cancelled then q
      else q <| tokens := tokens q ++ [firstTok] |>
             <| logprobs := logprobs q ++ [snd first] |>) b in
    let ctxFull := _maxContext c <=? pos s + 1 in
    if cancelled || stopCond c firstTok s ctxFull then
      retireSlot c i (negb cancelled) (upd_slot_req i (fun q => q <| done := true |>) b)
    else b.

(** The chunk loop; [fuel] is the prompt length, one unit per chunk.
    [src/src/runtime/serving/ContinuousBatcher.cpp:562-600 prefillSlotAdmitted] *)
Fixpoint prefillChunks (fuel : nat) (c : Config) (i : nat) (prompt : list Z)
    (xslotDeepest p : nat) (first : Z * TokenLogprobs) (e : State)
    : result (Z * TokenLogprobs) * State :=
  match fuel with
  | 0 => (Ok first, e)
  | S fuel' =>
      if p <? length prompt then
        let n := Nat.min (_prefillChunk c) (length prompt - p) in
        let last := p + n =? length prompt in
        match prefillSlot i (take n (drop p prompt)) p last e with
        | (Throw ex, e) => (Throw ex, e)
        | (Ok tk, e) =>
            let e := if _warmSlot c then captureSlotSsmCkpt i (p + n) e else e in
            let e := if _xslot c && (p + n =? xslotDeepest) && (0 <? xslotDeepest)
                     then snapshotSlotToPrefixImage i xslotDeepest prompt e else e in
            prefillChunks fuel' c i prompt xslotDeepest (p + _prefillChunk c)
              (if last then tk else first) e
        end
      else (Ok first, e)
  end.

(** A failed prefill ends its request only.
    [src/src/runtime/serving/ContinuousBatcher.cpp:721-737 failSlot] *)
Definition failSlot (c : Config) (i : nat) (r : option nat) (msg : string) (b : t) : t :=
  let b := lock_mtx c b in
  let s := slot b i in
  if occupied s && bool_decide (req s = r) then
    dropSlot i (upd_slot_req i (fun q => q <| error := msg |> <| done := true |>) b)
  else b.

(** [src/src/runtime/serving/ContinuousBatcher.cpp:525-626 prefillSlotAdmitted] *)
Definition prefillSlotAdmitted (c : Config) (i : nat) (b : t) : t :=
  let b := lock_mtx c b in
  let s := slot b i in
  if negb (occupied s) then b
  else
    let L := length (prompt s) in
    let start := prefillStart s in
    if (L =? 0) || (L <=? start) then b
    else
      let b := if 0 <? start then upd_engine (restoreSlotSsmCkptAtPos i start) b else b in
      let xslotDeepest :=
        if _xslot c && (0 <? _prefillChunk c)
        then (L / _prefillChunk c) * _prefillChunk c else 0 in
      match prefillChunks L c i (prompt s) xslotDeepest start ((-1)%Z, noLogprobs) (engine b)
      with
      | (Throw ex, e) =>
          failSlot c i (req s) ("prefill failed: " +:+ what ex) (b <| engine := e |>)
      | (Ok first, e) =>
          let b := b <| engine := e |> in
          let b := if _xslot c then upd_engine drainPrefixImageFrees b else b in
          commitPrefilledSlot c i (req s) first b
      end.

(** [src/src/runtime/serving/ContinuousBatcher.cpp:706-717 prefillSlotRunBatched] *)
Definition snapshotRun (b : t) (run : list nat) : list Snapshot :=
  map (fun i => let s := slot b i in
         (i, if occupied s then (prompt s, req s) else ([], None))) run.

(** The contiguous batch that fits the token budget, and what is left.
    [src/src/runtime/serving/ContinuousBatcher.cpp:759-771 prefillSlotRunBatched] *)
Fixpoint packBatch (c : Config) (tokBudget : nat) (run : list Snapshot)
    : list Snapshot * list Snapshot :=
  match run with
  | (i, (pr, Some r)) :: run' =>
      if (length pr =? 0) || (_prefillMaxRows c <? length pr)
         || (_prefillMaxRows c <? tokBudget + length pr)
      then ([], run)
      else
        let '(batch, rest) := packBatch c (tokBudget + length pr) run' in
        ((i, (pr, Some r)) :: batch, rest)
  | _ => ([], run)
  end.

(** [src/src/runtime/serving/ContinuousBatcher.cpp:785-790 prefillSlotRunBatched] *)
Definition commitBatch (c : Config) (batch : list Snapshot)
    (outs : list (Z * TokenLogprobs)) (b : t) : t :=
  fold_left (fun b '(k, (i, (_, r))) =>
    commitPrefilledSlot c i r (nth k outs ((-1)%Z, noLogprobs)) b)
    (imap pair batch) b.

(** [src/src/runtime/serving/ContinuousBatcher.cpp:779-783 prefillSlotRunBatched] *)
Definition failBatch (c : Config) (batch : list Snapshot) (msg : string) (b : t) : t :=
  fold_left (fun b '(i, (_, r)) => failSlot c i r msg b) batch b.

(** The packing loop; [fuel] is the length of the run, one unit per turn.
    [src/src/runtime/serving/ContinuousBatcher.cpp:745-792 prefillSlotRunBatched] *)
Fixpoint runBatchedLoop (fuel : nat) (c : Config) (run : list Snapshot) (b : t) : t :=
  match fuel, run with
  | S fuel', (i, (pr, r)) :: run' =>
      if negb (bool_decide (is_Some r)) || (length pr =? 0) then runBatchedLoop fuel' c run' b
      else if _prefillMaxRows c <? length pr then
        runBatchedLoop fuel' c run' (prefillSlotAdmitted c i b)
      else
        let '(batch, rest) := packBatch c 0 run in
        let b :=
          match prefillSlotsBatched i (map (fun x => fst (snd x)) batch)
                  (map (fun _ => 0) batch) (engine b) with
          | (Throw ex, e) =>
              failBatch c batch ("prefill failed: " +:+ what ex) (b <| engine := e |>)
          | (Ok outs, e) => commitBatch c batch outs (b <| engine := e |>)
          end in
        runBatchedLoop fuel' c rest b
  | _, _ => b
  end.

(** [src/src/runtime/serving/ContinuousBatcher.cpp:697-793 prefillSlotRunBatched] *)
Definition prefillSlotRunBatched (c : Config) (run : list nat) (b : t) : t :=
  if length run =? 0 then b
  else
    let b := lock_mtx c b in
    runBatchedLoop (length run) c (snapshotRun b run) b.

(** ** Mixed step *)

(** The smallest prefix that covers every occupied slot.
    [src/src/runtime/serving/ContinuousBatcher.cpp:1037-1039 workerLoop] *)
Fixpoint activePrefix (slots : list Slot) : nat :=
  match slots with
  | [] => 0
  | s :: slots' =>
      let n := activePrefix slots' in
      if (0 <? n) || occupied s then S n else 0
  end.

(** One slot's share of a mixed forward.
    [src/src/runtime/serving/ContinuousBatcher.cpp:827-833 runMixedStep] *)
Record Row := mkRow {
  chunk : list Z;
  startPos : nat;
  rowReq : option nat;
  prefilling : bool;
  finishesPrefill : bool;
  newPrefillPos : nat;
}.

(** The rows of the active prefix, with the rows left for prefill chunks.
    [src/src/runtime/serving/ContinuousBatcher.cpp:841-867 runMixedStep] *)
Fixpoint mixedRows (c : Config) (slots : list Slot) (extraBudget : nat) : list Row :=
  match slots with
  | [] => []
  | s :: slots' =>
      if negb (occupied s) then
        mkRow [0%Z] 0 None false false 0 :: mixedRows c slots' extraBudget
      else if prefillPos s <? promptLen s then
        let remain := promptLen s - prefillPos s in
        let want := Nat.min (_prefillChunk c) remain in
        let taken := Nat.min (want - 1) extraBudget in
        let n := 1 + taken in
        mkRow (take n (drop (prefillPos s) (prompt s))) (prefillPos s) (req s) true
          (prefillPos s + n =? promptLen s) (prefillPos s + n)
        :: mixedRows c slots' (extraBudget - taken)
      else
        mkRow [lastTok s] (pos s) (req s) false false 0 :: mixedRows c slots' extraBudget
  end.

(** The token of one row handed to its slot.
    [src/src/runtime/serving/ContinuousBatcher.cpp:893-951 runMixedStep] *)
Definition mixedCommit (c : Config) (i : nat) (row : Row) (out : Z * TokenLogprobs)
    (b : t) (freedSlot : bool) : t * bool :=
  let s := slot b i in
  if negb (occupied s) || negb (bool_decide (req s = rowReq row)) then (b, freedSlot)
  else
    let b := lock_req b in
    if slot_cancelled b i then (dropSlot i (upd_slot_req i (finish EmptyString) b), true)
    else if prefilling row && negb (finishesPrefill row) then
      (upd_slot i (fun s => s <| prefillPos := newPrefillPos row |>) b, freedSlot)
    else
      let s := if prefilling row
               then s <| prefillPos := newPrefillPos row |> <| pos := promptLen s |>
               else s in
      let decodeAdvance := negb (prefilling row) in
      let '(s, tk) := applyThinkBudget c s (fst out) in
      let b := upd_slot_req i (fun q => q <| tokens := tokens q ++ [tk] |>
                                          <| logprobs := logprobs q ++ [snd out] |>) b in
      let s := s <| lastTok := tk |> <| produced := S (produced s) |> in
      let ctxFull := if decodeAdvance then _maxContext c <=? pos s + 2
                     else _maxContext c <=? pos s + 1 in
      if stopCond c tk s ctxFull then
        (dropSlot i (upd_slot_req i (fun q => q <| done := true |>)
                       (upd_slot i (fun _ => s) b)), true)
      else
        (upd_slot i (fun _ => if decodeAdvance then s <| pos := S (pos s) |> else s) b,
         freedSlot).

(** A failed forward ends every active request.
    [src/src/runtime/serving/ContinuousBatcher.cpp:878-885 runMixedStep] *)
Definition failActive (msg : string) (drop : nat -> t -> t) (n : nat) (b : t) : t :=
  fold_left (fun b i =>
    if occupied (slot b i) then drop i (upd_slot_req i (finish msg) b) else b)
    (seq 0 n) b.

(** [src/src/runtime/serving/ContinuousBatcher.cpp:795-892 runMixedStep] *)
Definition runMixedStep (c : Config) (b : t) : t * bool :=
  let b := lock_mtx c b in
  let nActive := activePrefix (_slots b) in
  if nActive =? 0 then (b, false)
  else
    let rows := mixedRows c (take nActive (_slots b))
                  (if nActive <? _prefillMaxRows c then _prefillMaxRows c - nActive else 0) in
    match prefillSlotsBatched 0 (map chunk rows) (map startPos rows) (engine b) with
    | (Throw ex, e) =>
        let b := lock_mtx c (b <| engine := e |>) in
        (failActive ("mixed step failed: " +:+ what ex) dropSlot nActive b, true)
    | (Ok outs, e) =>
        let b := lock_mtx c (b <| engine := e |>) in
        fold_left (fun '(b, freed) '(i, row) =>
          mixedCommit c i row (nth i outs ((-1)%Z, noLogprobs)) b freed)
          (imap pair rows) (b, false)
    end.

(** ** Worker loop *)

(** [src/src/runtime/serving/ContinuousBatcher.cpp:977-993 workerLoop] *)
Definition shutdown (b : t) : t :=
  let stop := fun q => finish "batcher stopped" (q <| cancelled := true |>) in
  let b := fold_left (fun b p => upd_req (p_req p) stop b) (_waiting b) b in
  let b := b <| _waiting := [] |> in
  fold_left (fun b i =>
    if occupied (slot b i) then
      upd_slot i (fun s => s <| occupied := false |> <| req := None |>)
        (upd_slot_req i stop b)
    else b) (seq 0 (length (_slots b))) b.

(** [src/src/runtime/serving/ContinuousBatcher.cpp:1004-1011 workerLoop] *)
Definition prefillPressureOf (c : Config) (b : t) : bool :=
  if _mixedStep c && _mixedStepPressureGate c
  then count_if (fun s => negb (occupied s)) (_slots b) <? length (_waiting b)
  else true.

(** The maximal contiguous runs of [toPrefill].
    [src/src/runtime/serving/ContinuousBatcher.cpp:1063-1073 workerLoop] *)
Fixpoint contiguousRuns (l : list nat) : list (list nat) :=
  match l with
  | [] => []
  | x :: l' =>
      match contiguousRuns l' with
      | (y :: r) :: rs => if y =? x + 1 then (x :: y :: r) :: rs else [x] :: (y :: r) :: rs
      | rs => [x] :: rs
      end
  end.

(** [src/src/runtime/serving/ContinuousBatcher.cpp:1059-1078 workerLoop] *)
Definition runPrefills (c : Config) (toPrefill : list nat) (b : t) : t :=
  if _mixedBatchPrefill c || _mixedStep c
  then fold_left (fun b run => prefillSlotRunBatched c run b) (contiguousRuns toPrefill) b
  else fold_left (fun b i => prefillSlotAdmitted c i b) toPrefill b.

(** [src/src/runtime/serving/ContinuousBatcher.cpp:1087-1097 workerLoop] *)
Definition anyPrefilling (b : t) : bool :=
  existsb (fun s => occupied s && (prefillPos s <? promptLen s)) (_slots b).

(** [src/src/runtime/serving/ContinuousBatcher.cpp:1120-1132 workerLoop] *)
Definition stepOf (i : nat) (s : Slot) : ServingSlotStep :=
  if occupied s then
    mkStep i (if pos s <? promptLen s then nth (pos s) (prompt s) 0%Z else lastTok s)
      (pos s) (pos s =? 0)
  else mkStep i 0 0 true.

(** [src/src/runtime/serving/ContinuousBatcher.cpp:1158-1214 workerLoop] *)
Definition decodeCommit (c : Config) (i : nat) (out : Z * TokenLogprobs) (b : t) : t :=
  let s := slot b i in
  if negb (occupied s) then b
  else
    let b := lock_req b in
    if slot_cancelled b i then retireSlot c i false (upd_slot_req i (finish EmptyString) b)
    else if promptLen s <=? pos s + 1 then
      let '(s, tk) := applyThinkBudget c s (fst out) in
      let b := upd_slot_req i (fun q => q <| tokens := tokens q ++ [tk] |>
                                          <| logprobs := logprobs q ++ [snd out] |>) b in
      let s := s <| lastTok := tk |> <| produced := S (produced s) |> in
      if stopCond c tk s (_maxContext c <=? pos s + 2) then
        retireSlot c i true (upd_slot_req i (fun q => q <| done := true |>)
                               (upd_slot i (fun _ => s) b))
      else upd_slot i (fun _ => s <| pos := S (pos s) |>) b
    else upd_slot i (fun s => s <| pos := S (pos s) |>) b.

(** [src/src/runtime/serving/ContinuousBatcher.cpp:1109-1218 workerLoop] *)
Definition decodeStep (c : Config) (b : t) : t :=
  let b := lock_mtx c b in
  let nActive := activePrefix (_slots b) in
  if nActive =? 0 then b
  else
    match stepServing (imap stepOf (take nActive (_slots b))) (engine b) with
    | (Throw ex, e) =>
        let b := lock_mtx c (b <| engine := e |>) in
        failActive ("stepServing failed: " +:+ what ex)
          (fun i => upd_slot i (fun s => s <| occupied := false |> <| req := None |>))
          nActive b
    | (Ok outs, e) =>
        let b := lock_mtx c (b <| engine := e |>) in
        fold_left (fun b i => decodeCommit c i (nth i outs (0%Z, noLogprobs)) b)
          (seq 0 nActive) b
    end.

(** The admission critical section, with the slots to prefill eagerly.
    [src/src/runtime/serving/ContinuousBatcher.cpp:1004-1035 workerLoop] *)
Definition admission (c : Config) (b : t) : list nat * t :=
  let prefillPressure := prefillPressureOf c b in
  let '(admitted, toPrefill, b) := admitWarmSlots c 0 [] b in
  let '(admitted, toPrefill, b) := admitCrossSlots c admitted toPrefill b in
  let '(_, toPrefill, b) := admitColdSlots c prefillPressure admitted toPrefill b in
  (toPrefill, b).

(** One turn of the loop: [None] when the worker returns.  The idle wait ends
    the turn; the next one starts at the lock the wait re-acquires.
    [src/src/runtime/serving/ContinuousBatcher.cpp:971-1107 workerLoop] *)
Definition workerIteration (c : Config) (b : t) : bool * t :=
  let b := lock_mtx c b in
  if negb (_running b) then (false, shutdown b)
  else
    let '(toPrefill, b) := admission c b in
    if activePrefix (_slots b) =? 0 then (true, b)
    else
      let b := runPrefills c toPrefill b in
      if _mixedStep c then
        let b := lock_mtx c b in
        if anyPrefilling b then (true, fst (runMixedStep c b))
        else (true, decodeStep c b)
      else (true, decodeStep c b).

(** [n] turns of the loop, fewer when the worker returns.
    [src/src/runtime/serving/ContinuousBatcher.cpp:956-976 workerLoop] *)
Fixpoint workerLoop (n : nat) (c : Config) (b : t) : t :=
  match n with
  | 0 => b
  | S n' =>
      let '(running, b) := workerIteration c b in
      if running then workerLoop n' c b else b
  end.
End Batcher.
End ContinuousBatcher.
