(* ===== verification/BatcherInvariant.v ===== *)
(** * The continuous batcher: specification and invariant

    The reference a request is compared with ([ref]: the same request served
    alone), what the batcher relies on from its engine ([Lawful]), and the
    invariant [inv] of the batcher's state with the lemmas every operation's
    preservation proof goes through: one slot and its request change
    ([inv_update]), a queued request gets a slot ([inv_admit]), clients run
    ([inv_lock]). *)

From S2P Require Import Prelude ContinuousBatcher.

Module BatcherInvariant.
Export ContinuousBatcher.

(** A property of an occupied slot, its submission and its request. *)
Abbreviation slot_prop := (State -> nat -> Slot -> Pending -> ServingRequest -> Prop).

(** What the engine laws talk about.  [holds e i l]: slot [i]'s KV rows
    [0, |l|) and recurrent state are those of feeding [l] from the start;
    [greedyIn e i]: the slot's sampling is greedy, unpenalised and
    unconstrained; [next l] is the greedy token after [l]; [engine_ok]: every
    stored prefix image is the image of its key and no slot holds an interior
    checkpoint. *)
Class EngineView {EN : Engine} := {
  holds : State -> nat -> list Z -> Prop;
  greedyIn : State -> nat -> Prop;
  isGreedy : SamplingParams -> option ToolConstraint -> bool;
  next : list Z -> Z;
  engine_ok : State -> Prop;
}.

Section Laws.
Context {EN : Engine} {EV : EngineView}.

(** Slot [i] keeps what it holds. *)
Definition same_slot (e e' : State) (i : nat) : Prop :=
  (forall l, holds e i l -> holds e' i l) /\ (greedyIn e i -> greedyIn e' i).

(** The call keeps every slot. *)
Definition keeps (f : State -> State) : Prop :=
  forall e, engine_ok e -> engine_ok (f e) /\ forall i, same_slot e (f e) i.

(** Slot [i] is ready to be fed at position [p] behind [l]: a feed at position 0
    resets the slot. *)
Definition fedBy (e : State) (i p : nat) (l : list Z) : Prop :=
  length l = p /\ (p = 0 \/ holds e i l).

(** The serving contract of [InferenceEngine.hpp]. *)
Record Lawful : Prop := {
  law_step : forall steps e r e',
    stepServing steps e = (r, e') -> engine_ok e ->
    (forall i st, steps !! i = Some st -> st_slot st = i /\ st_seqStart st = (st_pos st =? 0)) ->
    engine_ok e' /\
    (forall i, greedyIn e i -> greedyIn e' i) /\
    match r with
    | Throw _ => True
    | Ok outs =>
        (forall i, length steps <= i -> same_slot e e' i) /\
        (forall i st l, steps !! i = Some st -> fedBy e i (st_pos st) l ->
          holds e' i (l ++ [st_token st]) /\
          (greedyIn e i -> exists lp, outs !! i = Some (next (l ++ [st_token st]), lp)))
    end;
  law_prefill : forall i chunk p last e r e',
    prefillSlot i chunk p last e = (r, e') -> engine_ok e -> chunk <> [] ->
    engine_ok e' /\ (greedyIn e i -> greedyIn e' i) /\
    (forall j, j <> i -> same_slot e e' j) /\
    match r with
    | Throw _ => True
    | Ok tk =>
        forall l, fedBy e i p l ->
          holds e' i (l ++ chunk) /\
          (last = true -> greedyIn e i -> fst tk = next (l ++ chunk))
    end;
  law_batched : forall i0 chunks starts e r e',
    prefillSlotsBatched i0 chunks starts e = (r, e') -> engine_ok e ->
    length starts = length chunks -> Forall (fun ch => ch <> []) chunks ->
    engine_ok e' /\ (forall i, greedyIn e i -> greedyIn e' i) /\
    (forall i, i < i0 \/ i0 + length chunks <= i -> same_slot e e' i) /\
    match r with
    | Throw _ => True
    | Ok outs =>
        forall k ch p l, chunks !! k = Some ch -> starts !! k = Some p ->
          fedBy e (i0 + k) p l ->
          holds e' (i0 + k) (l ++ ch) /\
          (greedyIn e (i0 + k) -> exists lp, outs !! k = Some (next (l ++ ch), lp))
    end;
  law_restoreCkpt : forall i p, keeps (restoreSlotSsmCkptAtPos i p);
  law_prune : forall i p, keeps (pruneSlotSsmCkpts i p);
  law_clear : forall i, keeps (clearSlotSsmCkpts i);
  law_acquire : forall k, keeps (acquirePrefixImage k);
  law_release : forall k, keeps (releasePrefixImage k);
  law_drain : keeps drainPrefixImageFrees;
  law_snapshot : forall i p l e,
    engine_ok e -> p <= length l -> holds e i (take p l) ->
    engine_ok (snapshotSlotToPrefixImage i p l e) /\
    forall j, same_slot e (snapshotSlotToPrefixImage i p l e) j;
  law_lookup : forall l e hit e',
    lookupPrefixImage l e = (hit, e') -> engine_ok e ->
    engine_ok e' /\ (forall j, same_slot e e' j) /\
    forall p k i e'', hit = Some (p, k) -> restorePrefixImageToSlot i k e' = (true, e'') ->
      holds e'' i (take p l);
  law_restore : forall i k e ok e',
    restorePrefixImageToSlot i k e = (ok, e') -> engine_ok e ->
    engine_ok e' /\ forall j, j <> i -> same_slot e e' j;
  law_configure : forall i sp tc l e,
    engine_ok e ->
    let e' := setServingSlotToolConstraint i tc (setServingSlotSampling i sp l e) in
    engine_ok e' /\ (forall j l', holds e j l' -> holds e' j l') /\
    (forall j, j <> i -> greedyIn e j -> greedyIn e' j) /\
    (isGreedy sp tc = true -> greedyIn e' i);
}.

(** ** The reference: a request served alone *)

(** The first [n] tokens of a request and the thinking-budget state behind them:
    the greedy token after everything fed so far, passed through the thinking
    budget, fed back. *)
Fixpoint ref (c : Config) (p : Pending) (n : nat) : list Z * Slot :=
  match n with
  | 0 => ([], initThinkState c (emptySlot <| prompt := p_prompt p |>))
  | S k =>
      let '(out, s) := ref c p k in
      let '(s, tk) := applyThinkBudget c s (next (p_prompt p ++ out)) in
      (out ++ [tk], s)
  end.

(** The request ends after the tokens [out]: end of sequence, stop id, token
    budget, or a full context. *)
Definition stopNow (c : Config) (p : Pending) (out : list Z) : bool :=
  match last out with
  | None => false
  | Some tk =>
      ((0 <=? _eosId c)%Z && (tk =? _eosId c)%Z) || existsb (Z.eqb tk) (p_stopIds p)
      || (p_maxNew p <=? length out) || (_maxContext c <=? length (p_prompt p) + length out)
  end.

Definition greedy (p : Pending) : bool := isGreedy (p_sampling p) (p_constraint p).

(** The engine keeps its contract and no slot is kept warm. *)
Definition track (c : Config) : Prop := Lawful /\ _warmSlot c = false.

(** [out] is a stream the request may have produced so far. *)
Definition stream_prefix (c : Config) (p : Pending) (out : list Z) : Prop :=
  (track c -> greedy p = true -> out = fst (ref c p (length out))) /\
  (forall k, k < length out -> stopNow c p (take k out) = false).

(** ** Invariant *)

(** What a finished request looks like: its stream is right and it ended
    because a stop condition held, unless it was cancelled or failed. *)
Definition fin_ok (c : Config) (p : Pending) (r : ServingRequest) : Prop :=
  stream_prefix c p (tokens r) /\
  (cancelled r = true \/ error r <> EmptyString \/ stopNow c p (tokens r) = true).

Definition handle_of (s : Slot) : option nat := if occupied s then req s else None.

(** The handles in flight: queued, then running. *)
Definition live (b : t) : list nat := map p_req (_waiting b) ++ omap handle_of (_slots b).

Definition queued (c : Config) (b : t) (p : Pending) : Prop :=
  submitted b !! p_req p = Some p /\
  exists r, reqs b !! p_req p = Some r /\ done r = false /\ error r = EmptyString /\
    tokens r = [] /\ 0 < length (p_prompt p) < _maxContext c.

(** The slot serves the submission [p]. *)
Definition serves (c : Config) (s : Slot) (p : Pending) : Prop :=
  req s = Some (p_req p) /\ prompt s = p_prompt p /\ promptLen s = length (p_prompt p) /\
  maxNew s = p_maxNew p /\ stopIds s = p_stopIds p /\
  0 < length (p_prompt p) < _maxContext c.

Definition running (c : Config) (b : t) (s : Slot) (p : Pending) (r : ServingRequest) : Prop :=
  submitted b !! p_req p = Some p /\ reqs b !! p_req p = Some r /\ serves c s p /\
  done r = false /\ error r = EmptyString.

(** It survives engine calls that keep the slot, and a [cancel]. *)
Definition stable (c : Config) (Q : slot_prop) : Prop :=
  (forall e e' i s p r, (track c -> same_slot e e' i) -> Q e i s p r -> Q e' i s p r) /\
  (forall e i s p r, Q e i s p r -> Q e i s p (r <| cancelled := true |>)).

Record inv (c : Config) (Q : slot_prop) (b : t) : Prop := {
  inv_len : length (_slots b) = _maxBatch c;
  inv_sub_len : length (submitted b) = length (reqs b);
  inv_sub : forall h p, submitted b !! h = Some p -> p_req p = h;
  inv_wait : forall p, p ∈ _waiting b -> queued c b p;
  inv_slot : forall i s, _slots b !! i = Some s -> occupied s = true ->
    exists p r, running c b s p r /\ Q (engine b) i s p r;
  inv_nodup : NoDup (live b);
  inv_live : forall h r, reqs b !! h = Some r -> done r = false -> h ∈ live b;
  inv_fin : forall h p r, submitted b !! h = Some p -> reqs b !! h = Some r ->
    done r = true -> fin_ok c p r;
  inv_lp : forall h r, reqs b !! h = Some r -> length (tokens r) = length (logprobs r);
  inv_cap : length (live b) <= _maxInflight c;
  inv_tenant : 0 < _maxInflightPerTenant c -> forall tn, tn <> EmptyString ->
    count_if (fun h => String.eqb (tenantId (request b h)) tn) (live b)
      <= _maxInflightPerTenant c;
  inv_eng : track c -> engine_ok (engine b);
}.

(** ** Live handles *)

Lemma live_waiting b p : p ∈ _waiting b -> p_req p ∈ live b.
Proof. intros Hp. apply elem_of_app. left. by apply list_elem_of_fmap_2. Qed.

Lemma live_slot b i s h :
  _slots b !! i = Some s -> occupied s = true -> req s = Some h -> h ∈ live b.
Proof.
  intros Hi Ho Hr. apply elem_of_app. right. apply list_elem_of_omap. exists s. split.
  - by eapply list_elem_of_lookup_2.
  - unfold handle_of. by rewrite Ho.
Qed.

Lemma live_inv b h :
  h ∈ live b ->
  (exists p, p ∈ _waiting b /\ p_req p = h) \/
  (exists i s, _slots b !! i = Some s /\ occupied s = true /\ req s = Some h).
Proof.
  intros [H|H]%elem_of_app.
  - left. apply list_elem_of_fmap in H as (p & -> & Hp). eauto.
  - right. apply list_elem_of_omap in H as (s & Hs & Hh).
    apply list_elem_of_lookup in Hs as [i Hi]. unfold handle_of in Hh.
    destruct (occupied s) eqn:?; [eauto|done].
Qed.

(** Two running slots never share a request, and none is also queued. *)
Lemma live_slot_inj b i j s s' h :
  NoDup (live b) -> _slots b !! i = Some s -> _slots b !! j = Some s' ->
  handle_of s = Some h -> handle_of s' = Some h -> i = j.
Proof.
  intros Hnd Hi Hj H1 H2. apply NoDup_app in Hnd as (_ & _ & Hnd).
  eapply NoDup_omap_inj; eauto.
Qed.

Lemma live_slot_not_waiting b i s h p :
  NoDup (live b) -> _slots b !! i = Some s -> handle_of s = Some h -> p ∈ _waiting b ->
  p_req p <> h.
Proof.
  intros Hnd Hi Hh Hp <-. apply NoDup_app in Hnd as (_ & Hnd & _).
  apply (Hnd (p_req p)); [by apply list_elem_of_fmap_2|].
  apply list_elem_of_omap. exists s. split; [by eapply list_elem_of_lookup_2|done].
Qed.

Lemma live_focus b i s : _slots b !! i = Some s -> exists rest, forall b' s',
  _slots b' = <[i := s']> (_slots b) -> _waiting b' = _waiting b ->
  live b ≡ₚ option_list (handle_of s) ++ rest /\
  live b' ≡ₚ option_list (handle_of s') ++ rest.
Proof.
  intros Hi. destruct (insert_perm _ i s s Hi) as (k & Hk & _).
  exists (map p_req (_waiting b) ++ omap handle_of k). intros b' s' Hs Hw.
  unfold live. rewrite Hs, Hw.
  assert (Hk' : <[i := s']> (_slots b) ≡ₚ s' :: k).
  { destruct (insert_perm _ i s s' Hi) as (k' & Hk1 & Hk2). rewrite Hk2. f_equiv.
    rewrite Hk in Hk1. by apply Permutation_cons_inv in Hk1. }
  rewrite (omap_perm _ _ _ Hk), (omap_perm _ _ _ Hk'). simpl. clear Hk Hk'. split.
  - destruct (handle_of s); simpl; [by rewrite Permutation_middle|done].
  - destruct (handle_of s'); simpl; [by rewrite Permutation_middle|done].
Qed.

(** A count over distinct handles only looks at the requests named. *)
Lemma tenant_count_ext b b' l tn :
  (forall h, h ∈ l -> tenantId (request b' h) = tenantId (request b h)) ->
  count_if (fun h => String.eqb (tenantId (request b' h)) tn) l =
  count_if (fun h => String.eqb (tenantId (request b h)) tn) l.
Proof. intros H. apply count_if_ext. intros h Hh. by rewrite H. Qed.

(** ** Preservation *)

Lemma request_lookup b h r : reqs b !! h = Some r -> request b h = r.
Proof. intros H. unfold request. by apply nth_lookup_Some. Qed.

Lemma slot_lookup b i s : _slots b !! i = Some s -> slot b i = s.
Proof. intros H. unfold slot. by apply nth_lookup_Some. Qed.

(** A slot and its request change: the slot keeps serving the request, or it is
    freed and the request is done. *)
Lemma inv_update c Q Q' b b' i s s' p r r' :
  inv c Q b -> _slots b !! i = Some s -> occupied s = true -> running c b s p r ->
  _slots b' = <[i := s']> (_slots b) -> reqs b' = <[p_req p := r']> (reqs b) ->
  _waiting b' = _waiting b -> submitted b' = submitted b ->
  (track c -> engine_ok (engine b')) ->
  (forall j s p r, j <> i -> Q (engine b) j s p r -> Q' (engine b') j s p r) ->
  tenantId r' = tenantId r -> length (tokens r') = length (logprobs r') ->
  (if occupied s'
   then serves c s' p /\ done r' = false /\ error r' = EmptyString /\ Q' (engine b') i s' p r'
   else done r' = true /\ fin_ok c p r') ->
  inv c Q' b'.
Proof.
  intros Hinv Hi Ho Hrun Hs Hr Hw Hsub Heng HQ Htn Hlp Hs'.
  destruct Hrun as (Hp & Hrq & Hsv & Hd & He).
  assert (Hh : handle_of s = Some (p_req p)) by (unfold handle_of; rewrite Ho; apply Hsv).
  assert (Hil : i < length (_slots b)) by by eapply lookup_lt_Some.
  assert (Hpl : p_req p < length (reqs b)) by by eapply lookup_lt_Some.
  destruct (live_focus b i s Hi) as (rest & Hfoc). destruct (Hfoc b' s' Hs Hw) as [Hl Hl'].
  rewrite Hh in Hl. simpl in Hl.
  pose proof (inv_nodup _ _ _ Hinv) as Hnd. rewrite Hl in Hnd.
  apply NoDup_cons in Hnd as [Hnotin Hnd].
  assert (Hlive' : live b' ≡ₚ (if occupied s' then [p_req p] else []) ++ rest).
  { rewrite Hl'. unfold handle_of. destruct (occupied s'); [|done].
    destruct Hs' as [(-> & _) _]. done. }
  assert (Hoth : forall h, h <> p_req p -> reqs b' !! h = reqs b !! h).
  { intros h Hne. rewrite Hr. by apply list_lookup_insert_ne. }
  assert (Hself : reqs b' !! p_req p = Some r') by (rewrite Hr; by apply list_lookup_insert_eq).
  assert (Hten : forall h, tenantId (request b' h) = tenantId (request b h)).
  { intros h. destruct (decide (h = p_req p)) as [->|Hne].
    - by rewrite (request_lookup _ _ _ Hself), (request_lookup _ _ _ Hrq).
    - unfold request. rewrite !nth_lookup. by rewrite Hoth. }
  split.
  - rewrite Hs, length_insert. apply Hinv.
  - rewrite Hsub, Hr, length_insert. apply Hinv.
  - rewrite Hsub. apply Hinv.
  - intros q Hq. rewrite Hw in Hq. destruct (inv_wait _ _ _ Hinv q Hq) as (Hq1 & rq & Hq2 & Hq3).
    split; [by rewrite Hsub|]. exists rq. split; [|done]. rewrite Hoth; [done|].
    eapply live_slot_not_waiting; [apply Hinv|done..].
  - intros j sj Hj Hoj. rewrite Hs in Hj. destruct (decide (i = j)) as [<-|Hne].
    + rewrite list_lookup_insert_eq in Hj by done. injection Hj as <-. rewrite Hoj in Hs'.
      destruct Hs' as (? & ? & ? & ?). exists p, r'. split; [|done].
      split; [by rewrite Hsub|]. done.
    + rewrite list_lookup_insert_ne in Hj by done.
      destruct (inv_slot _ _ _ Hinv j sj Hj Hoj) as (pj & rj & (Hj1 & Hj2 & Hj3) & HQj).
      exists pj, rj. split; [|by apply HQ]. split; [by rewrite Hsub|]. split; [|done].
      rewrite Hoth; [done|]. intros Heq. apply Hne.
      eapply (live_slot_inj b i j); [apply Hinv|done..|].
      unfold handle_of. rewrite Hoj, <- Heq. apply Hj3.
  - rewrite Hlive'. destruct (occupied s'); simpl; [by apply NoDup_cons|done].
  - intros h rh Hlk Hdn. rewrite Hlive'. destruct (decide (h = p_req p)) as [->|Hne].
    + rewrite Hself in Hlk. injection Hlk as <-. destruct (occupied s'); [set_solver|].
      destruct Hs' as [? _]. congruence.
    + rewrite Hoth in Hlk by done. pose proof (inv_live _ _ _ Hinv h rh Hlk Hdn) as Hin.
      rewrite Hl in Hin. set_solver.
  - intros h ph rh H1 H2 H3. rewrite Hsub in H1. destruct (decide (h = p_req p)) as [->|Hne].
    + rewrite Hself in H2. injection H2 as <-. assert (ph = p) by congruence. subst ph.
      destruct (occupied s'); [|by apply Hs']. destruct Hs' as (_ & ? & _). congruence.
    + rewrite Hoth in H2 by done. by eapply Hinv.
  - intros h rh Hlk. destruct (decide (h = p_req p)) as [->|Hne].
    + rewrite Hself in Hlk. by injection Hlk as <-.
    + rewrite Hoth in Hlk by done. by eapply Hinv.
  - pose proof (inv_cap _ _ _ Hinv) as Hc. rewrite Hl in Hc. rewrite Hlive'.
    destruct (occupied s'); simpl in *; lia.
  - intros Hpos tn Htn'. pose proof (inv_tenant _ _ _ Hinv Hpos tn Htn') as Hc.
    rewrite (tenant_count_ext b b') by done.
    rewrite (count_if_perm _ _ _ Hlive'). rewrite (count_if_perm _ _ _ Hl) in Hc.
    destruct (occupied s'); simpl in *; lia.
  - done.
Qed.

(** Only the engine or the view of the slots changes. *)
Lemma inv_view c Q Q' b b' :
  inv c Q b -> _slots b' = _slots b -> reqs b' = reqs b -> _waiting b' = _waiting b ->
  submitted b' = submitted b -> (track c -> engine_ok (engine b')) ->
  (forall i s p r, _slots b !! i = Some s -> occupied s = true -> running c b s p r ->
    Q (engine b) i s p r -> Q' (engine b') i s p r) ->
  inv c Q' b'.
Proof.
  intros Hinv Hs Hr Hw Hsub Heng HQ.
  assert (Hl : live b' = live b) by (unfold live; by rewrite Hs, Hw).
  assert (Ht : forall h, request b' h = request b h) by (intros h; unfold request; by rewrite Hr).
  destruct Hinv. split; rewrite ?Hl, ?Hs, ?Hr, ?Hw, ?Hsub; try done.
  - intros q Hq. unfold queued. rewrite Hr, Hsub. by apply inv_wait0.
  - intros i s Hi Ho. destruct (inv_slot0 i s Hi Ho) as (q & r & Hrun & Hq). exists q, r.
    split; [|by eapply HQ]. unfold running. by rewrite Hr, Hsub.
  - intros Hpos tn Htn. erewrite count_if_ext; [by apply inv_tenant0|].
    intros h _. simpl. by rewrite Ht.
Qed.

(** A queued request moves into a free slot. *)
Lemma inv_admit c Q Q' b b' kept p rest i s s' :
  inv c Q b -> _waiting b = kept ++ p :: rest ->
  _slots b !! i = Some s -> occupied s = false ->
  _slots b' = <[i := s']> (_slots b) -> reqs b' = reqs b ->
  _waiting b' = kept ++ rest -> submitted b' = submitted b ->
  (track c -> engine_ok (engine b')) ->
  (forall j s p r, _slots b !! j = Some s -> occupied s = true -> j <> i ->
    Q (engine b) j s p r -> Q' (engine b') j s p r) ->
  occupied s' = true -> serves c s' p ->
  (forall r, done r = false -> error r = EmptyString -> tokens r = [] ->
    Q' (engine b') i s' p r) ->
  inv c Q' b'.
Proof.
  intros Hinv Hw Hi Ho Hs Hr Hw' Hsub Heng HQ Ho' Hsv Hs'.
  assert (Hil : i < length (_slots b)) by by eapply lookup_lt_Some.
  destruct (inv_wait _ _ _ Hinv p) as (Hp1 & r & Hp2 & Hp3 & Hp4 & Hp5 & Hp6);
    [rewrite Hw; set_solver|].
  assert (Hl : live b' ≡ₚ live b).
  { destruct (insert_perm _ i s s' Hi) as (k & Hk1 & Hk2). unfold live.
    rewrite Hw', Hw, Hs, (omap_perm _ _ _ Hk1), (omap_perm _ _ _ Hk2).
    assert (Hh : handle_of s = None) by (unfold handle_of; by rewrite Ho).
    assert (Hh' : handle_of s' = Some (p_req p)) by (unfold handle_of; rewrite Ho'; apply Hsv).
    simpl. rewrite Hh, Hh', !map_app. simpl. rewrite <- !app_assoc. simpl. clear.
    rewrite <- !Permutation_middle. done. }
  assert (Ht : forall h, request b' h = request b h) by (intros h; unfold request; by rewrite Hr).
  destruct Hinv. split; rewrite ?Hr, ?Hsub; try done.
  - by rewrite Hs, length_insert.
  - intros q Hq. unfold queued. rewrite Hr, Hsub. apply inv_wait0. rewrite Hw.
    rewrite Hw' in Hq. set_solver.
  - intros j sj Hj Hoj. unfold running. rewrite Hr, Hsub. rewrite Hs in Hj.
    destruct (decide (i = j)) as [<-|Hne].
    + rewrite list_lookup_insert_eq in Hj by done. injection Hj as <-. exists p, r.
      split; [done|by apply Hs'].
    + rewrite list_lookup_insert_ne in Hj by done.
      destruct (inv_slot0 j sj Hj Hoj) as (q & rq & Hq & HQj). exists q, rq.
      split; [done|]. eapply HQ; eauto.
  - by rewrite Hl.
  - intros h rh H1 H2. rewrite Hl. eauto.
  - by rewrite Hl.
  - intros Hpos tn Htn. rewrite (count_if_perm _ _ _ Hl).
    erewrite count_if_ext; [by apply inv_tenant0|]. intros h _. simpl. by rewrite Ht.
Qed.

(** ** Clients *)

Lemma cancel_lookup h b k :
  reqs (cancel h b) !! k =
  (if decide (h = k) then (fun r => r <| cancelled := true |>) <$> reqs b !! k
   else reqs b !! k).
Proof.
  unfold cancel, upd_req. cbn [reqs set_field set_reqs]. case_decide as Hd.
  - subst. apply list_lookup_alter_eq.
  - by apply list_lookup_alter_ne.
Qed.

(** [fin_ok] and the slot properties do not depend on when a cancel arrives. *)
Lemma inv_cancel c Q b h : stable c Q -> inv c Q b -> inv c Q (cancel h b).
Proof.
  intros [_ HQ] Hinv.
  assert (Hlk : forall k r, reqs (cancel h b) !! k = Some r -> exists r0,
      reqs b !! k = Some r0 /\ (r = r0 \/ r = r0 <| cancelled := true |>)).
  { intros k r Hk. rewrite cancel_lookup in Hk. case_decide; [|by eauto].
    destruct (reqs b !! k) as [r0|]; [|done]. injection Hk as <-. eauto. }
  assert (Hlk' : forall k r0, reqs b !! k = Some r0 -> exists r,
      reqs (cancel h b) !! k = Some r /\ (r = r0 \/ r = r0 <| cancelled := true |>)).
  { intros k r0 Hk. rewrite cancel_lookup. case_decide; [|by eauto]. rewrite Hk. simpl. eauto. }
  assert (Ht : forall k, tenantId (request (cancel h b) k) = tenantId (request b k)).
  { intros k. unfold request. rewrite !nth_lookup. destruct (reqs b !! k) as [r0|] eqn:Hk.
    - destruct (Hlk' k r0 Hk) as (r & -> & [->| ->]); done.
    - destruct (reqs (cancel h b) !! k) as [r|] eqn:Hk'; [|done].
      destruct (Hlk k r Hk') as (r0 & Hr0 & _). congruence. }
  assert (Hlen : length (reqs (cancel h b)) = length (reqs b)) by apply length_alter.
  assert (Hl : live (cancel h b) = live b) by done.
  destruct Hinv. split; rewrite ?Hlen, ?Hl; try done.
  - intros p Hp. destruct (inv_wait0 p Hp) as (H1 & r & H2 & H3 & H4 & H5 & H6).
    split; [done|]. destruct (Hlk' _ _ H2) as (r' & H2' & Hr'). exists r'.
    destruct Hr' as [->| ->]; done.
  - intros i s Hi Ho. destruct (inv_slot0 i s Hi Ho) as (p & r & (H1 & H2 & H3 & H4 & H5) & H6).
    destruct (Hlk' _ _ H2) as (r' & H2' & Hr'). exists p, r'.
    split; [split; [done|]|]; destruct Hr' as [->| ->]; try done. by apply HQ.
  - intros k r Hk Hd. destruct (Hlk k r Hk) as (r0 & Hr0 & Hr).
    apply (inv_live0 k r0 Hr0). by destruct Hr as [->| ->].
  - intros k p r Hp Hk Hd. destruct (Hlk k r Hk) as (r0 & Hr0 & [->| ->]); [eauto|].
    destruct (inv_fin0 k p r0 Hp Hr0 Hd) as [H1 H2]. split; [done|]. by left.
  - intros k r Hk. destruct (Hlk k r Hk) as (r0 & Hr0 & Hr). specialize (inv_lp0 k r0 Hr0).
    by destruct Hr as [->| ->].
  - intros Hpos tn Htn. erewrite count_if_ext; [by apply inv_tenant0|].
    intros k _. simpl. by rewrite Ht.
Qed.

Lemma live_length c Q b : inv c Q b -> length (live b) = inflight b.
Proof.
  intros Hinv. unfold live, inflight, activeSlots. rewrite length_app, length_map. f_equal.
  assert (Hs : forall s, s ∈ _slots b -> occupied s = true -> is_Some (req s)).
  { intros s [i Hi]%list_elem_of_lookup Ho.
    destruct (inv_slot _ _ _ Hinv i s Hi Ho) as (p & r & (_ & _ & (-> & _) & _) & _). eauto. }
  induction (_slots b) as [|s l IH]; simpl; [done|]. unfold handle_of at 1.
  destruct (occupied s) eqn:Ho.
  - destruct (Hs s ltac:(set_solver) Ho) as [h ->]. simpl. f_equal. apply IH. set_solver.
  - apply IH. set_solver.
Qed.

Lemma live_tenant c Q b tn : inv c Q b -> tn <> EmptyString ->
  count_if (fun h => String.eqb (tenantId (request b h)) tn) (live b) =
  countTenantLocked b tn.
Proof.
  intros Hinv Htn. unfold live, countTenantLocked.
  destruct (String.eqb_spec tn EmptyString); [done|]. rewrite count_if_app. f_equal.
  - induction (_waiting b) as [|p l IH]; simpl; [done|]. by rewrite IH.
  - induction (_slots b) as [|s l IH]; simpl; [done|]. unfold handle_of at 1.
    destruct (occupied s); [|exact IH]. destruct (req s); [|exact IH].
    exact (f_equal (Nat.add _) IH).
Qed.

Lemma submitReject_done c b p r r' :
  submitReject c b p r = Some r' ->
  done r' = true /\ error r' <> EmptyString /\ tokens r' = tokens r /\
  logprobs r' = logprobs r /\ tenantId r' = tenantId r.
Proof. unfold submitReject. intros H. split_matches; done. Qed.

Lemma submitReject_None c b p r :
  submitReject c b p r = None ->
  0 < length p < _maxContext c /\ inflight b < _maxInflight c /\
  (0 < _maxInflightPerTenant c -> tenantId r <> EmptyString ->
    countTenantLocked b (tenantId r) < _maxInflightPerTenant c).
Proof.
  unfold submitReject. intros H. split_matches. bool_to_prop. split; [lia|]. split; [done|].
  intros Hpos Ht. apply andb_false_iff in Heqb4 as [H4|H4]; bool_to_prop; [|done].
  apply andb_false_iff in H4 as [H4|H4]; bool_to_prop; [lia|].
  apply String.eqb_eq in H4. done.
Qed.

(** Appending a request leaves the others as they are. *)
Lemma request_app b b' r h :
  reqs b' = reqs b ++ [r] -> h < length (reqs b) -> request b' h = request b h.
Proof. intros Hr Hh. unfold request. by rewrite Hr, app_nth1. Qed.

Lemma live_bound c Q b h : inv c Q b -> h ∈ live b -> h < length (reqs b).
Proof.
  intros Hinv [(p & Hp & <-)|(i & s & Hi & Ho & Hr)]%live_inv.
  - destruct (inv_wait _ _ _ Hinv p Hp) as (_ & r & H & _). by eapply lookup_lt_Some.
  - destruct (inv_slot _ _ _ Hinv i s Hi Ho) as (p & r & (_ & H & (H' & _) & _) & _).
    rewrite H' in Hr. injection Hr as <-. by eapply lookup_lt_Some.
Qed.

(** The store grows by one request, queued or already done. *)
Lemma inv_append c Q b b' p r (acc : bool) :
  inv c Q b -> p_req p = length (reqs b) -> tokens r = [] -> logprobs r = [] ->
  _slots b' = _slots b -> reqs b' = reqs b ++ [r] -> submitted b' = submitted b ++ [p] ->
  _waiting b' = (if acc then _waiting b ++ [p] else _waiting b) -> engine b' = engine b ->
  (if acc then
     done r = false /\ error r = EmptyString /\ 0 < length (p_prompt p) < _maxContext c /\
     inflight b < _maxInflight c /\
     (0 < _maxInflightPerTenant c -> tenantId r <> EmptyString ->
       countTenantLocked b (tenantId r) < _maxInflightPerTenant c)
   else done r = true /\ error r <> EmptyString) ->
  inv c Q b'.
Proof.
  intros Hinv Hp Htk Hlg Hs Hr Hsub Hw He Hacc.
  assert (Hl : live b' ≡ₚ (if acc then [p_req p] else []) ++ live b).
  { unfold live. rewrite Hs, Hw. destruct acc; simpl; [|done].
    rewrite map_app, <- app_assoc. simpl. by rewrite <- Permutation_middle. }
  assert (Hfresh : p_req p ∉ live b).
  { intros Hin. pose proof (live_bound _ _ _ _ Hinv Hin). lia. }
  assert (Hold : forall h x, reqs b !! h = Some x -> reqs b' !! h = Some x).
  { intros h x Hx. rewrite Hr. by apply lookup_app_l_Some. }
  assert (Hsold : forall h x, submitted b !! h = Some x -> submitted b' !! h = Some x).
  { intros h x Hx. rewrite Hsub. by apply lookup_app_l_Some. }
  pose proof (inv_sub_len _ _ _ Hinv) as Hlen.
  assert (Hnewr : reqs b' !! p_req p = Some r) by (rewrite Hr, Hp; by apply list_lookup_middle).
  assert (Hnews : submitted b' !! p_req p = Some p).
  { rewrite Hsub, Hp, <- Hlen. by apply list_lookup_middle. }
  assert (Hcases : forall h x, reqs b' !! h = Some x ->
      reqs b !! h = Some x \/ (h = p_req p /\ x = r)).
  { intros h x Hx. rewrite Hr in Hx. apply lookup_app_Some in Hx as [Hx|[Hge Hx]]; [by left|].
    apply list_lookup_singleton_Some in Hx as [Hx ->]. right. split; [lia|done]. }
  assert (Hcases' : forall h x, submitted b' !! h = Some x ->
      submitted b !! h = Some x \/ (h = p_req p /\ x = p)).
  { intros h x Hx. rewrite Hsub in Hx. apply lookup_app_Some in Hx as [Hx|[Hge Hx]]; [by left|].
    apply list_lookup_singleton_Some in Hx as [Hx ->]. right. split; [lia|done]. }
  assert (Hcount : forall tn, tn <> EmptyString ->
      count_if (fun h => String.eqb (tenantId (request b' h)) tn) (live b) =
      countTenantLocked b tn).
  { intros tn Htn. erewrite count_if_ext; [by eapply live_tenant|]. intros h Hh. simpl.
    erewrite request_app; [done|done|]. eapply live_bound; eauto. }
  pose proof (live_length _ _ _ Hinv) as Hin.
  pose proof (fun tn => live_tenant c Q b tn Hinv) as Hlt. destruct Hinv. split.
  - by rewrite Hs.
  - rewrite Hsub, Hr, !length_app. simpl. lia.
  - intros h x Hx. destruct (Hcases' h x Hx) as [Hx'|[-> ->]]; eauto.
  - intros q Hq. assert (Hq' : q ∈ _waiting b \/ (acc = true /\ q = p)).
    { rewrite Hw in Hq. destruct acc; [|by left]. set_solver. }
    destruct Hq' as [Hq'|[-> ->]].
    + destruct (inv_wait0 q Hq') as (H1 & x & H2 & H3). split; [eauto|]. exists x. eauto.
    + destruct Hacc as (H1 & H2 & H3 & _). split; [done|]. exists r. done.
  - intros i s Hi Ho. rewrite Hs in Hi.
    destruct (inv_slot0 i s Hi Ho) as (q & x & (H1 & H2 & H3) & H4). exists q, x. rewrite He.
    split; [|done]. split; [eauto|]. split; [eauto|done].
  - rewrite Hl. destruct acc; simpl; [by apply NoDup_cons|done].
  - intros h x Hx Hd. rewrite Hl. destruct (Hcases h x Hx) as [Hx'|[-> ->]].
    + pose proof (inv_live0 h x Hx' Hd). set_solver.
    + destruct acc; [set_solver|]. destruct Hacc. congruence.
  - intros h q x Hq Hx Hd. destruct (Hcases h x Hx) as [Hx'|[-> ->]].
    + destruct (Hcases' h q Hq) as [Hq'|[-> ->]]; [eauto|].
      apply lookup_lt_Some in Hx'. lia.
    + destruct acc; [destruct Hacc; congruence|]. destruct Hacc as [_ Hacc].
      split; [|by right; left]. rewrite Htk. split; [done|]. simpl. lia.
  - intros h x Hx. destruct (Hcases h x Hx) as [Hx'|[-> ->]]; [eauto|]. by rewrite Htk, Hlg.
  - rewrite Hl. destruct acc; simpl; [|lia]. destruct Hacc as (_ & _ & _ & Hacc & _). lia.
  - intros Hpos tn Htn. rewrite (count_if_perm _ _ _ Hl).
    assert (Hb : count_if (fun h => String.eqb (tenantId (request b' h)) tn) (live b)
                   <= _maxInflightPerTenant c).
    { rewrite Hcount, <- Hlt by done. by apply inv_tenant0. }
    destruct acc; [|done]. simpl. rewrite (request_lookup _ _ _ Hnewr).
    destruct (String.eqb_spec (tenantId r) tn) as [Heq|]; [|done].
    rewrite Hcount by done. destruct Hacc as (_ & _ & _ & _ & Hacc). rewrite <- Heq in *.
    specialize (Hacc Hpos Htn). lia.
  - by rewrite He.
Qed.

Lemma inv_submit c Q b p n st tn sp tc : inv c Q b -> inv c Q (submit c p n st tn sp tc b).
Proof.
  intros Hinv. unfold submit. destruct (submitReject c b p (newRequest tn)) as [r'|] eqn:Hrej.
  - apply submitReject_done in Hrej as (H1 & H2 & H3 & H4 & _).
    eapply (inv_append c Q b _ (mkPending (length (reqs b)) p n st sp tc) r' false); done.
  - apply submitReject_None in Hrej.
    eapply (inv_append c Q b _ (mkPending (length (reqs b)) p n st sp tc) (newRequest tn) true);
      done.
Qed.

Lemma inv_client c Q b ev : stable c Q -> inv c Q b -> inv c Q (clientEvent c b ev).
Proof.
  intros HQ Hinv. destruct ev as [p n st tn sp tc|h|]; simpl.
  - by apply inv_submit.
  - by apply inv_cancel.
  - by apply (inv_view c Q Q b); try done; apply Hinv.
Qed.

(** ** Progress *)

(** What a request keeps across any number of steps: its stream only grows, and
    once done it never changes. *)
Definition req_le (r r' : ServingRequest) : Prop :=
  tokens r `prefix_of` tokens r' /\
  (done r = true -> done r' = true /\ tokens r' = tokens r /\ error r' = error r) /\
  (cancelled r = true -> cancelled r' = true).

#[export] Instance req_le_preorder : PreOrder req_le.
Proof.
  split.
  - intros r. by repeat split.
  - intros r1 r2 r3 (H1 & H2 & H3) (H4 & H5 & H6). split; [by etrans|]. split; [|by auto].
    intros Hd. destruct (H2 Hd) as (Hd2 & Ht2 & He2). destruct (H5 Hd2) as (Hd3 & Ht3 & He3).
    split; [done|]. split; congruence.
Qed.

(** The steps left: a running slot has one per position it may still take, a
    queued request one more than a fresh slot. *)
Definition slot_work (c : Config) (s : Slot) : nat :=
  if occupied s then _maxContext c - Nat.max (pos s) (prefillPos s) else 0.

Definition work (c : Config) (b : t) : nat :=
  length (_waiting b) * (_maxContext c + 1) + list_sum (map (slot_work c) (_slots b)).

(** No client event is pending. *)
Definition quiet (b : t) : Prop := script_mtx b = [] /\ script_req b = [].

(** The recency clock has room for every completion still to come, and no slot
    is ahead of it. *)
Definition tick_ok (c : Config) (b : t) : Prop :=
  (_warmTick b + N.of_nat (work c b) < 2 ^ 64 - 1)%N /\
  forall s, s ∈ _slots b -> (residentTick s <= _warmTick b)%N.

(** [b] comes after [b0]; without client events at least [d] steps of work are
    gone. *)
Record evolves (c : Config) (d : nat) (b0 b : t) : Prop := {
  ev_sub : submitted b0 `prefix_of` submitted b;
  ev_req : forall h r, reqs b0 !! h = Some r -> exists r', reqs b !! h = Some r' /\ req_le r r';
  ev_run : _running b0 = false -> _running b = false;
  ev_quiet : quiet b0 -> quiet b /\ _running b = _running b0 /\ work c b + d <= work c b0;
  ev_tick : quiet b0 -> tick_ok c b0 -> tick_ok c b;
}.

Definition good (c : Config) (Q : slot_prop) (d : nat) (b0 b : t) : Prop :=
  inv c Q b /\ evolves c d b0 b.

Lemma good_refl c Q b : inv c Q b -> good c Q 0 b b.
Proof.
  intros H. split; [done|]. split; try done.
  - intros h r Hr. exists r. done.
  - intros Hq. split; [done|]. split; [done|lia].
Qed.

Lemma evolves_trans c d d' d'' b0 b1 b2 :
  evolves c d b0 b1 -> evolves c d' b1 b2 -> d'' <= d + d' -> evolves c d'' b0 b2.
Proof.
  intros [H1 H2 H3 H4 H5] [K1 K2 K3 K4 K5] Hd. split.
  - by etrans.
  - intros h r Hr. destruct (H2 h r Hr) as (r1 & Hr1 & Hle1).
    destruct (K2 h r1 Hr1) as (r2 & Hr2 & Hle2). exists r2. split; [done|by etrans].
  - auto.
  - intros Hq. destruct (H4 Hq) as (Hq1 & Hrun1 & Hw1). destruct (K4 Hq1) as (Hq2 & Hrun2 & Hw2).
    split; [done|]. split; [congruence|lia].
  - intros Hq Ht. destruct (H4 Hq) as (Hq1 & _). auto.
Qed.

Lemma good_weaken c Q d d' b0 b : good c Q d b0 b -> d' <= d -> good c Q d' b0 b.
Proof.
  intros [H1 [H2 H3 H4 H5 H6]] Hd. split; [done|]. split; try done. intros Hq.
  destruct (H5 Hq) as (? & ? & ?). split; [done|]. split; [done|lia].
Qed.

Lemma list_sum_insert f (l : list Slot) i s s' :
  l !! i = Some s ->
  list_sum (map f (<[i := s']> l)) + f s = list_sum (map f l) + f s'.
Proof.
  revert i. induction l as [|x l IH]; intros [|i] Hi; try done.
  - injection Hi as ->. simpl. lia.
  - simpl in *. specialize (IH i Hi). unfold list_sum in *. lia.
Qed.

(** The same slots, queue and requests, whatever happens to the engine. *)
Lemma evolves_same c d b0 b b' :
  evolves c d b0 b -> _slots b' = _slots b -> reqs b' = reqs b -> _waiting b' = _waiting b ->
  submitted b' = submitted b -> script_mtx b' = script_mtx b ->
  script_req b' = script_req b -> _running b' = _running b -> _warmTick b' = _warmTick b ->
  evolves c d b0 b'.
Proof.
  intros [H1 H2 H3 H4 H5] Hs Hr Hw Hsub Hm Hq Hrun Hti. split.
  - by rewrite Hsub.
  - by rewrite Hr.
  - by rewrite Hrun.
  - unfold quiet, work in *. by rewrite Hm, Hq, Hs, Hw, Hrun.
  - unfold tick_ok, work in *. by rewrite Hti, Hs, Hw.
Qed.

Lemma good_view c Q Q' d b0 b b' :
  good c Q d b0 b -> _slots b' = _slots b -> reqs b' = reqs b -> _waiting b' = _waiting b ->
  submitted b' = submitted b -> script_mtx b' = script_mtx b ->
  script_req b' = script_req b -> _running b' = _running b -> _warmTick b' = _warmTick b ->
  (track c -> engine_ok (engine b')) ->
  (forall i s p r, _slots b !! i = Some s -> occupied s = true -> running c b s p r ->
    Q (engine b) i s p r -> Q' (engine b') i s p r) ->
  good c Q' d b0 b'.
Proof.
  intros [H1 H2] **. split; [by eapply inv_view|by eapply evolves_same].
Qed.

(** How one slot's change may move the recency clock: not at all, or one tick,
    stamped on the slot it frees. *)
Definition tick_step (b b' : t) (s s' : Slot) : Prop :=
  (_warmTick b' = _warmTick b /\ residentTick s' = residentTick s) \/
  (occupied s' = false /\ _warmTick b' = u64 (_warmTick b + 1) /\
   residentTick s' = _warmTick b').

Lemma tick_ok_step c b b' i s s' g :
  tick_ok c b -> _slots b !! i = Some s -> _slots b' = <[i := s']> (_slots b) ->
  tick_step b b' s s' -> (occupied s' = false -> 0 < g) -> work c b' + g <= work c b ->
  tick_ok c b'.
Proof.
  intros [T1 T2] Hi Hs Ht Hg Hw.
  assert (Hle : (_warmTick b <= _warmTick b')%N /\
      (_warmTick b' + N.of_nat (work c b') <= _warmTick b + N.of_nat (work c b))%N /\
      (residentTick s' <= _warmTick b')%N).
  { destruct Ht as [[-> ->]|(Ho & Hw' & Hr)].
    - split; [done|]. split; [lia|]. apply T2. by eapply list_elem_of_lookup_2.
    - specialize (Hg Ho). rewrite u64_small in Hw' by lia. rewrite Hr, Hw'. lia. }
  destruct Hle as (L1 & L2 & L3). split; [lia|]. intros x Hx. rewrite Hs in Hx.
  apply list_elem_of_lookup in Hx as [j Hj]. destruct (decide (i = j)) as [->|Hne].
  - rewrite list_lookup_insert_eq in Hj by by eapply lookup_lt_Some.
    by injection Hj as <-.
  - rewrite list_lookup_insert_ne in Hj by done. etrans; [|exact L1]. apply T2.
    by eapply list_elem_of_lookup_2.
Qed.

Lemma good_update c Q Q' d g b0 b b' i s s' p r r' :
  good c Q d b0 b -> _slots b !! i = Some s -> occupied s = true -> running c b s p r ->
  _slots b' = <[i := s']> (_slots b) -> reqs b' = <[p_req p := r']> (reqs b) ->
  _waiting b' = _waiting b -> submitted b' = submitted b ->
  script_mtx b' = script_mtx b -> script_req b' = script_req b -> _running b' = _running b ->
  (track c -> engine_ok (engine b')) ->
  (forall j s p r, j <> i -> Q (engine b) j s p r -> Q' (engine b') j s p r) ->
  tenantId r' = tenantId r -> length (tokens r') = length (logprobs r') ->
  (if occupied s'
   then serves c s' p /\ done r' = false /\ error r' = EmptyString /\ Q' (engine b') i s' p r'
   else done r' = true /\ fin_ok c p r') ->
  tokens r `prefix_of` tokens r' -> (cancelled r = true -> cancelled r' = true) ->
  slot_work c s' + g <= slot_work c s ->
  tick_step b b' s s' -> (occupied s' = false -> 0 < g) ->
  good c Q' (d + g) b0 b'.
Proof.
  intros [Hinv [H1 H2 H3 H4 H5]] Hi Ho Hrun Hs Hr Hw Hsub Hm Hq Hrn ? ? ? ? ? Htk Hc Hwk Hts Hg.
  assert (Hwb : work c b' + g <= work c b).
  { unfold work. rewrite Hw, Hs. pose proof (list_sum_insert (slot_work c) _ i s s' Hi). lia. }
  split.
  - by eapply (inv_update c Q Q' b b').
  - split.
    + by rewrite Hsub.
    + intros h x Hx. destruct (H2 h x Hx) as (y & Hy & Hle). rewrite Hr.
      destruct Hrun as (_ & Hp & _ & Hd & _).
      destruct (decide (p_req p = h)) as [<-|Hne].
      * exists r'. split; [apply list_lookup_insert_eq; by eapply lookup_lt_Some|].
        assert (y = r) by congruence. subst y. destruct Hle as (L1 & L2 & L3).
        split; [by etrans|]. split; [|by auto]. intros Hdx. destruct (L2 Hdx). congruence.
      * exists y. split; [by rewrite list_lookup_insert_ne|done].
    + by rewrite Hrn.
    + intros Hqq. destruct (H4 Hqq) as ((Hq1 & Hq2) & Hrun' & Hwork).
      split; [by split; rewrite ?Hm, ?Hq|]. split; [by rewrite Hrn|]. lia.
    + intros Hqq Ht. by eapply tick_ok_step; [apply H5|..].
Qed.

Lemma good_admit c Q Q' d b0 b b' kept p rest i s s' :
  good c Q d b0 b -> _waiting b = kept ++ p :: rest ->
  _slots b !! i = Some s -> occupied s = false ->
  _slots b' = <[i := s']> (_slots b) -> reqs b' = reqs b ->
  _waiting b' = kept ++ rest -> submitted b' = submitted b ->
  script_mtx b' = script_mtx b -> script_req b' = script_req b -> _running b' = _running b ->
  _warmTick b' = _warmTick b -> residentTick s' = residentTick s ->
  (track c -> engine_ok (engine b')) ->
  (forall j s p r, _slots b !! j = Some s -> occupied s = true -> j <> i ->
    Q (engine b) j s p r -> Q' (engine b') j s p r) ->
  occupied s' = true -> serves c s' p ->
  (forall r, done r = false -> error r = EmptyString -> tokens r = [] ->
    Q' (engine b') i s' p r) ->
  good c Q' (S d) b0 b'.
Proof.
  intros [Hinv [H1 H2 H3 H4 H5]] Hw Hi Ho Hs Hr Hw' Hsub Hm Hq Hrn Hti Hrt ? ? Ho' **.
  assert (Hwb : work c b' + 1 <= work c b).
  { unfold work. rewrite Hw', Hs, Hw.
    pose proof (list_sum_insert (slot_work c) _ i s s' Hi) as Hsum.
    assert (slot_work c s = 0) by (unfold slot_work; by rewrite Ho).
    assert (slot_work c s' <= _maxContext c) by (unfold slot_work; destruct (occupied s'); lia).
    rewrite !length_app. simpl. lia. }
  split.
  - by eapply (inv_admit c Q Q' b b').
  - split.
    + by rewrite Hsub.
    + by rewrite Hr.
    + by rewrite Hrn.
    + intros Hqq. destruct (H4 Hqq) as ((Hq1 & Hq2) & Hrun' & Hwork).
      split; [by split; rewrite ?Hm, ?Hq|]. split; [by rewrite Hrn|]. lia.
    + intros Hqq Ht. eapply (tick_ok_step c b b' i s s' 1); try done; [by apply H5|by left|].
      intros; lia.
Qed.

(** ** Lock points *)

Lemma client_fields c b ev :
  _slots (clientEvent c b ev) = _slots b /\ engine (clientEvent c b ev) = engine b /\
  script_mtx (clientEvent c b ev) = script_mtx b /\
  script_req (clientEvent c b ev) = script_req b /\
  (_running b = false -> _running (clientEvent c b ev) = false).
Proof.
  destruct ev; simpl; try done. unfold submit. by destruct (submitReject _ _ _ _).
Qed.

Lemma client_reqs c b ev :
  submitted b `prefix_of` submitted (clientEvent c b ev) /\
  forall h r, reqs b !! h = Some r ->
    exists r', reqs (clientEvent c b ev) !! h = Some r' /\ req_le r r'.
Proof.
  destruct ev as [p n st tn sp tc|k|]; cbn [clientEvent].
  - unfold submit. destruct (submitReject _ _ _ _); cbn; split; try (by eexists);
      intros h r' Hr; exists r'; (split; [by apply lookup_app_l_Some|done]).
  - split; [done|]. intros h r Hr. rewrite cancel_lookup. case_decide.
    + rewrite Hr. simpl. eexists. split; [done|]. by repeat split.
    + by exists r.
  - split; [done|]. intros h r Hr. by exists r.
Qed.

Lemma clients_good c Q evs : stable c Q -> forall b, inv c Q b ->
  let b' := fold_left (clientEvent c) evs b in
  inv c Q b' /\ _slots b' = _slots b /\ engine b' = engine b /\
  script_mtx b' = script_mtx b /\ script_req b' = script_req b /\
  (_running b = false -> _running b' = false) /\
  submitted b `prefix_of` submitted b' /\
  (forall h r, reqs b !! h = Some r -> exists r', reqs b' !! h = Some r' /\ req_le r r').
Proof.
  intros HQ. induction evs as [|ev evs IH]; intros b Hinv; simpl.
  - do 7 (split; [done|]). intros h r Hr. by exists r.
  - destruct (client_fields c b ev) as (F1 & F2 & F3 & F4 & F5).
    destruct (client_reqs c b ev) as [F6 F7].
    destruct (IH (clientEvent c b ev) (inv_client c Q b ev HQ Hinv))
      as (G1 & G2 & G3 & G4 & G5 & G6 & G7 & G8).
    split; [done|]. rewrite G2, G3, G4, G5. do 4 (split; [done|]). split; [by auto|].
    split; [by etrans|]. intros h r Hr. destruct (F7 h r Hr) as (r1 & Hr1 & L1).
    destruct (G8 h r1 Hr1) as (r2 & Hr2 & L2). exists r2. split; [done|by etrans].
Qed.

Lemma good_lock c Q d b0 b : stable c Q -> good c Q d b0 b ->
  good c Q d b0 (lock_mtx c b) /\ _slots (lock_mtx c b) = _slots b /\
  engine (lock_mtx c b) = engine b.
Proof.
  intros HQ [Hinv Hev]. unfold lock_mtx. destruct (script_mtx b) as [|evs rest] eqn:Hsc; [done|].
  destruct (clients_good c Q evs HQ (b <| script_mtx := rest |>))
    as (G1 & G2 & G3 & G4 & G5 & G6 & G7 & G8).
  { apply (inv_view c Q Q b); try done. apply Hinv. }
  split; [|done]. split; [done|]. eapply (evolves_trans c d 0); [done| |lia].
  split; [done|done|done|..]; intros [Hq _]; by rewrite Hsc in Hq.
Qed.

Lemma lock_req_as_clients c b : lock_req b =
  match script_req b with
  | [] => b
  | hs :: rest => fold_left (clientEvent c) (map ECancel hs) (b <| script_req := rest |>)
  end.
Proof.
  unfold lock_req. destruct (script_req b) as [|hs rest]; [done|].
  generalize (b <| script_req := rest |>). induction hs as [|h hs IH]; intros x; simpl; [done|].
  apply IH.
Qed.

Lemma good_lock_req c Q d b0 b : stable c Q -> good c Q d b0 b ->
  good c Q d b0 (lock_req b) /\ _slots (lock_req b) = _slots b /\
  engine (lock_req b) = engine b.
Proof.
  intros HQ [Hinv Hev]. rewrite (lock_req_as_clients c).
  destruct (script_req b) as [|hs rest] eqn:Hsc; [done|].
  destruct (clients_good c Q (map ECancel hs) HQ (b <| script_req := rest |>))
    as (G1 & G2 & G3 & G4 & G5 & G6 & G7 & G8).
  { apply (inv_view c Q Q b); try done. apply Hinv. }
  split; [|done]. split; [done|]. eapply (evolves_trans c d 0); [done| |lia].
  split; [done|done|done|..]; intros [_ Hq]; by rewrite Hsc in Hq.
Qed.
End Laws.
End BatcherInvariant.
