(* ===== verification/BatcherSteps.v ===== *)
(** * The continuous batcher: every step keeps the invariant

    The phases of a running slot ([phase]) and, for each function of the worker,
    that it keeps the invariant, keeps every stream equal to its reference and
    makes progress.  The theorems about the whole worker are in
    [ContinuousBatcherProofs.v]. *)

From S2P Require Import Prelude ContinuousBatcher BatcherInvariant.

Module BatcherSteps.
Export BatcherInvariant.

Section Steps.
Context {EN : Engine} {EV : EngineView}.

(** ** Thinking state and streams *)

(** The thinking-budget members of a slot. *)
Definition think (s : Slot) : bool * nat * bool * nat :=
  (thinkOpen s, reasoningTokens s, forcing s, forceIdx s).

(** [s] with the thinking-budget members of [s']. *)
Definition with_think (s s' : Slot) : Slot :=
  mkSlot (occupied s) (req s) (prompt s) (promptLen s) (pos s) (lastTok s) (maxNew s)
    (produced s) (stopIds s) (prefillPos s) (resident s) (residentTokens s)
    (residentTick s) (prefillStart s) (xslotPayload s) (thinkOpen s')
    (reasoningTokens s') (forcing s') (forceIdx s').

Lemma with_think_self s : s = with_think s s.
Proof. by destruct s. Qed.

Lemma with_think_trans s1 s2 s3 :
  s2 = with_think s1 s2 -> s3 = with_think s2 s3 -> s3 = with_think s1 s3.
Proof. intros -> H. rewrite H at 1. reflexivity. Qed.

Lemma with_thinkOpen s x : s <| thinkOpen := x |> = with_think s (s <| thinkOpen := x |>).
Proof. done. Qed.
Lemma with_reasoning s x :
  s <| reasoningTokens := x |> = with_think s (s <| reasoningTokens := x |>).
Proof. done. Qed.
Lemma with_forcing s x : s <| forcing := x |> = with_think s (s <| forcing := x |>).
Proof. done. Qed.
Lemma with_forceIdx s x : s <| forceIdx := x |> = with_think s (s <| forceIdx := x |>).
Proof. done. Qed.

Ltac think_only :=
  first [ apply with_think_self | apply with_thinkOpen | apply with_reasoning
        | apply with_forcing | apply with_forceIdx
        | eapply with_think_trans;
          [|first [apply with_thinkOpen | apply with_reasoning | apply with_forcing
                  | apply with_forceIdx]]; think_only ].

Lemma forceNext_with_think c s : fst (forceNext c s) = with_think s (fst (forceNext c s)).
Proof. unfold forceNext. destruct (_ <=? _); cbn [fst]; think_only. Qed.

Lemma apply_with_think c s tk :
  fst (applyThinkBudget c s tk) = with_think s (fst (applyThinkBudget c s tk)).
Proof.
  unfold applyThinkBudget. destruct (forcing s); [apply forceNext_with_think|].
  destruct (negb _); [think_only|]. destruct (_ =? _)%Z; [think_only|].
  destruct (_ <=? _); [|think_only]. destruct (_thinkForceSeq c); [think_only|].
  eapply with_think_trans; [|apply forceNext_with_think]. think_only.
Qed.

Lemma apply_think c s1 s2 tk :
  think s1 = think s2 ->
  snd (applyThinkBudget c s1 tk) = snd (applyThinkBudget c s2 tk) /\
  think (fst (applyThinkBudget c s1 tk)) = think (fst (applyThinkBudget c s2 tk)).
Proof.
  unfold think. intros H. destruct s1, s2. cbn in H. simplify_eq.
  unfold applyThinkBudget, forceNext. cbn. repeat case_match; done.
Qed.

Lemma init_think c s s' : prompt s = prompt s' ->
  think (initThinkState c s) = think (initThinkState c s').
Proof. intros H. unfold initThinkState. cbn. rewrite H. repeat case_match; done. Qed.

Definition stream_ok (c : Config) (p : Pending) (s : Slot) (r : ServingRequest) : Prop :=
  track c -> greedy p = true ->
  tokens r = fst (ref c p (length (tokens r))) /\
  think s = think (snd (ref c p (length (tokens r)))).

(** The next token extends the reference stream. *)
Lemma emit c p s r raw s' tk s'' r' :
  stream_ok c p s r ->
  (track c -> greedy p = true -> raw = next (p_prompt p ++ tokens r)) ->
  applyThinkBudget c s raw = (s', tk) -> think s'' = think s' ->
  tokens r' = tokens r ++ [tk] -> stream_ok c p s'' r'.
Proof.
  intros Hs Hraw Ha Hth Hr Htr Hg. destruct (Hs Htr Hg) as [Ht Hk].
  rewrite Hr, length_app, Nat.add_1_r. simpl.
  destruct (ref c p (length (tokens r))) as [out s0]. simpl in *.
  destruct (apply_think c s s0 raw Hk) as [E1 E2]. rewrite Ha in E1, E2. simpl in E1, E2.
  rewrite <- Ht, <- (Hraw Htr Hg).
  destruct (applyThinkBudget c s0 raw) as [s1 tk1]. simpl in *. subst tk1.
  split; [done|congruence].
Qed.

(** No stop condition held so far. *)
Definition nostop (c : Config) (p : Pending) (out : list Z) : Prop :=
  forall k, k <= length out -> stopNow c p (take k out) = false.

Lemma nostop_nil c p : nostop c p [].
Proof. intros k _. by destruct k. Qed.

Lemma nostop_snoc c p out tk :
  nostop c p out -> stopNow c p (out ++ [tk]) = false -> nostop c p (out ++ [tk]).
Proof.
  intros H1 H2 k Hk. rewrite length_app in Hk. simpl in Hk.
  destruct (decide (k <= length out)).
  - rewrite take_app_le by done. auto.
  - by rewrite take_ge by (rewrite length_app; simpl; lia).
Qed.

(** The stop test of the three commit sites. *)
Lemma stop_agrees c s p out tk full :
  serves c s p -> produced s = S (length out) ->
  full = (_maxContext c <=? promptLen s + S (length out)) ->
  stopCond c tk s full = stopNow c p (out ++ [tk]).
Proof.
  intros (_ & _ & Hl & Hm & Hst & _) Hp ->. unfold stopCond, stopNow, isStop.
  rewrite last_snoc, length_app, Hp, Hl, Hm, Hst. simpl. by rewrite Nat.add_1_r.
Qed.

Lemma fin_ok_stop c p s r out tk :
  stream_ok c p s r -> tokens r = out ++ [tk] -> nostop c p out ->
  cancelled r = true \/ error r <> EmptyString \/ stopNow c p (out ++ [tk]) = true ->
  fin_ok c p r.
Proof.
  intros Hs Hr Hn Hc. split; [|by rewrite Hr]. split.
  - intros Htr Hg. by apply Hs.
  - rewrite Hr, length_app. simpl. intros k Hk. rewrite take_app_le by lia. apply Hn. lia.
Qed.

Lemma fin_ok_ended c p s r :
  stream_ok c p s r -> nostop c p (tokens r) ->
  cancelled r = true \/ error r <> EmptyString -> fin_ok c p r.
Proof.
  intros Hs Hn Hc. split; [|tauto]. split.
  - intros Htr Hg. by apply Hs.
  - intros k Hk. apply Hn. lia.
Qed.

(** ** Phases *)

(** The engine has the tokens [l] of the slot (vacuously when there are none:
    the first feed resets it). *)
Definition fed (c : Config) (e : State) (i : nat) (l : list Z) : Prop :=
  track c -> l = [] \/ holds e i l.

Lemma fed_fedBy c e i l p : fed c e i l -> track c -> length l = p -> fedBy e i p l.
Proof.
  intros H Htr <-. split; [done|]. destruct (H Htr) as [->|Hh]; [by left|by right].
Qed.

(** What a running slot may be doing.  [pend]: the slots admitted for eager
    prefill and not prefilled yet. *)
Inductive phase (c : Config) (pend : list nat) (e : State) (i : nat) (s : Slot)
    (p : Pending) (r : ServingRequest) : Prop :=
  | Eager :
      i ∈ pend -> 0 < _prefillChunk c -> pos s = 0 -> prefillPos s = 0 -> tokens r = [] ->
      prefillStart s < promptLen s -> fed c e i (take (prefillStart s) (prompt s)) ->
      phase c pend e i s p r
  | Ingest :
      i ∉ pend -> _mixedStep c = false -> pos s < promptLen s -> prefillPos s = 0 ->
      produced s = 0 -> tokens r = [] -> fed c e i (take (pos s) (prompt s)) ->
      phase c pend e i s p r
  | Mixed :
      i ∉ pend -> _mixedStep c = true -> pos s = 0 -> prefillPos s < promptLen s ->
      produced s = 0 -> tokens r = [] -> fed c e i (take (prefillPos s) (prompt s)) ->
      phase c pend e i s p r
  | Decode out :
      i ∉ pend -> tokens r = out ++ [lastTok s] -> produced s = S (length out) ->
      pos s = promptLen s + length out -> prefillPos s <= promptLen s ->
      (_mixedStep c = true -> prefillPos s = promptLen s) -> nostop c p (tokens r) ->
      fed c e i (prompt s ++ out) -> phase c pend e i s p r.

Definition greedy_ok (c : Config) (e : State) (i : nat) (p : Pending) : Prop :=
  track c -> greedy p = true -> greedyIn e i.

(** A running slot between two steps of the worker. *)
Definition settled (c : Config) (pend : list nat) : slot_prop := fun e i s p r =>
  phase c pend e i s p r /\ stream_ok c p s r /\ greedy_ok c e i p.

(** A slot whose whole prompt is fed and whose first token is known. *)
Definition ready (c : Config) (rq : option nat) (first : Z * TokenLogprobs) : slot_prop :=
  fun e i s p r =>
  rq = Some (p_req p) /\ pos s = 0 /\ prefillPos s = 0 /\ tokens r = [] /\
  (track c -> holds e i (p_prompt p)) /\
  (track c -> greedy p = true -> fst first = next (p_prompt p)) /\
  stream_ok c p s r /\ greedy_ok c e i p.

Lemma fed_same c e e' i l :
  (track c -> same_slot e e' i) -> fed c e i l -> fed c e' i l.
Proof. intros Hs H Htr. destruct (H Htr) as [->|Hh]; [by left|right]. by apply Hs. Qed.

Lemma greedy_same c e e' i p :
  (track c -> same_slot e e' i) -> greedy_ok c e i p -> greedy_ok c e' i p.
Proof. intros Hs H Htr Hg. apply (Hs Htr). by apply H. Qed.

Lemma stable_settled c pend : stable c (settled c pend).
Proof.
  split.
  - intros e e' i s p r Hs (Hp & Hst & Hg). split; [|split; [done|by eapply greedy_same]].
    destruct Hp; [eapply Eager|eapply Ingest|eapply Mixed|eapply Decode]; eauto using fed_same.
  - intros e i s p r (Hp & Hst & Hg). split; [|done].
    destruct Hp; [eapply Eager|eapply Ingest|eapply Mixed|eapply Decode]; eauto.
Qed.

(** The slot property that is [R] at the slots of [D] and [Q] elsewhere. *)
Definition at_slots (D : nat -> Prop) (R Q : slot_prop) : slot_prop := fun e i s p r =>
  (D i -> R e i s p r) /\ (~ D i -> Q e i s p r).

Lemma stable_at c D R Q : stable c R -> stable c Q -> stable c (at_slots D R Q).
Proof.
  intros [R1 R2] [Q1 Q2]. split.
  - intros e e' i s p r Hs [H1 H2]. split; intros Hi; eauto.
  - intros e i s p r [H1 H2]. split; intros Hi; eauto.
Qed.

Lemma stable_ready c rq first : stable c (ready c rq first).
Proof.
  split.
  - intros e e' i s p r Hs (H1 & H2 & H3 & H4 & H5 & H6 & H7 & H8).
    do 4 (split; [done|]). split; [intros Htr; by apply Hs, H5|]. split; [done|].
    split; [done|by eapply greedy_same].
  - intros e i s p r H. exact H.
Qed.

(** ** Retirement *)

Lemma upd_slot_at b i f s : _slots b !! i = Some s ->
  upd_slot i f b = b <| _slots := <[i := f s]> (_slots b) |>.
Proof. intros Hi. unfold upd_slot. by rewrite (alter_as_insert _ _ _ _ Hi). Qed.

Lemma upd_slot_req_at b i f s h r :
  _slots b !! i = Some s -> req s = Some h -> reqs b !! h = Some r ->
  upd_slot_req i f b = b <| reqs := <[h := f r]> (reqs b) |>.
Proof.
  intros Hi Hh Hr. unfold upd_slot_req. rewrite (slot_lookup _ _ _ Hi), Hh.
  unfold upd_req. by rewrite (alter_as_insert _ _ _ _ Hr).
Qed.

(** [b'] differs from [b] by one slot and its request. *)
Record changed (b b' : t) (i h : nat) (s' : Slot) (r' : ServingRequest) : Prop := {
  ch_slots : _slots b' = <[i := s']> (_slots b);
  ch_reqs : reqs b' = <[h := r']> (reqs b);
  ch_waiting : _waiting b' = _waiting b;
  ch_submitted : submitted b' = submitted b;
  ch_mtx : script_mtx b' = script_mtx b;
  ch_req : script_req b' = script_req b;
  ch_running : _running b' = _running b;
  ch_tick : forall s, _slots b !! i = Some s -> tick_step b b' s s';
}.

Definition keeps_engine (c : Config) (b b' : t) : Prop :=
  track c -> engine_ok (engine b) ->
  engine_ok (engine b') /\ forall j, same_slot (engine b) (engine b') j.

(** What [retireSlot] and the two shortcuts beside it have in common. *)
Definition frees (c : Config) (drop : nat -> t -> t) : Prop :=
  forall b i s h r, _slots b !! i = Some s -> reqs b !! h = Some r ->
  exists s', occupied s' = false /\ changed b (drop i b) i h s' r /\
    keeps_engine c b (drop i b).

Lemma same_slot_refl e i : same_slot e e i.
Proof. by split. Qed.

Lemma same_slot_trans e1 e2 e3 i : same_slot e1 e2 i -> same_slot e2 e3 i -> same_slot e1 e3 i.
Proof. intros [A B] [C D]. split; auto. Qed.

Lemma insert_self {A} (l : list A) i x : l !! i = Some x -> l = <[i := x]> l.
Proof. intros H. symmetry. by apply list_insert_id. Qed.

Lemma frees_upd c f :
  (forall s, occupied (f s) = false) -> (forall s, residentTick (f s) = residentTick s) ->
  frees c (fun i => upd_slot i f).
Proof.
  intros Hf Hk b i s h r Hi Hr. exists (f s). split; [done|]. rewrite (upd_slot_at _ _ _ _ Hi).
  split; [split; cbn; try done; [by apply insert_self|]|].
  - intros s1 Hs1. left. split; [done|]. cbn. assert (s1 = s) as -> by congruence. apply Hk.
  - intros _ He. split; [done|]. intros j. apply same_slot_refl.
Qed.

Lemma frees_drop c : frees c dropSlot.
Proof. by apply frees_upd. Qed.

Lemma frees_retire c keepWarm : frees c (fun i => retireSlot c i keepWarm).
Proof.
  intros b i s h r Hi Hr. unfold retireSlot. rewrite (slot_lookup _ _ _ Hi).
  rewrite (upd_slot_at _ _ _ _ Hi).
  set (s1 := s <| occupied := false |> <| req := None |> <| prefillStart := 0 |>).
  set (b1 := b <| _slots := <[i := s1]> (_slots b) |>).
  assert (Hil : i < length (_slots b)) by by eapply lookup_lt_Some.
  assert (Hself : reqs b = <[h := r]> (reqs b)) by by apply insert_self.
  match goal with |- context [set_field _warmTick _ ?B] => set (b2 := B) end.
  assert (H2 : exists s2, occupied s2 = false /\ residentTick s2 = residentTick s /\
      _slots b2 = <[i := s2]> (_slots b) /\ reqs b2 = reqs b /\ _waiting b2 = _waiting b /\
      submitted b2 = submitted b /\ script_mtx b2 = script_mtx b /\
      script_req b2 = script_req b /\ _running b2 = _running b /\ _warmTick b2 = _warmTick b /\
      keeps_engine c b b2).
  { subst b2. destruct (_ =? 0)%N.
    - exists s1. do 10 (split; [done|]). intros _ He. split; [done|].
      intros j. apply same_slot_refl.
    - unfold upd_slot, upd_engine. cbn.
      rewrite (alter_as_insert _ _ _ s1), list_insert_insert_eq
        by (cbn; by apply list_lookup_insert_eq).
      exists (s1 <| xslotPayload := 0%N |>). do 10 (split; [done|]).
      intros [Hl _] He. by apply (law_release Hl). }
  destruct H2 as (s2 & Ho2 & Hr2 & E1 & E2 & E3 & E4 & E5 & E6 & E7 & E8 & He2). clearbody b2.
  assert (Hi2 : _slots b2 !! i = Some s2) by (rewrite E1; by apply list_lookup_insert_eq).
  case_match.
  - unfold upd_slot. cbn. rewrite (alter_as_insert _ _ _ _ Hi2), E1, list_insert_insert_eq.
    exists (s2 <| resident := true |> <| residentTick := u64 (_warmTick b2 + 1) |>).
    split; [done|]. split; [|done]. split; cbn; try congruence.
    intros x _. right. split; [done|]. by rewrite E8.
  - unfold upd_slot, upd_engine. cbn.
    rewrite (alter_as_insert _ _ _ _ Hi2), E1, list_insert_insert_eq.
    exists (s2 <| prompt := [] |> <| residentTokens := [] |> <| resident := false |>).
    split; [done|]. split.
    + split; cbn; try congruence. intros x Hx. left. split; [done|]. cbn. congruence.
    + intros Htr He. destruct (He2 Htr He) as [He3 Hs3]. destruct Htr as [Hl _].
      destruct (law_clear Hl i _ He3) as [He4 Hs4]. split; [done|]. intros j.
      by eapply same_slot_trans.
Qed.

(** ** One slot changes *)

Lemma changed_slot b i f s h r :
  _slots b !! i = Some s -> reqs b !! h = Some r -> residentTick (f s) = residentTick s ->
  changed b (upd_slot i f b) i h (f s) r.
Proof.
  intros Hi Hr Ht. rewrite (upd_slot_at _ _ _ _ Hi). split; cbn; try done; [by apply insert_self|].
  intros s1 Hs1. left. split; [done|]. congruence.
Qed.

Lemma changed_req b i f s h r :
  _slots b !! i = Some s -> req s = Some h -> reqs b !! h = Some r ->
  changed b (upd_slot_req i f b) i h s (f r).
Proof.
  intros Hi Hh Hr. rewrite (upd_slot_req_at _ _ _ _ _ _ Hi Hh Hr).
  split; cbn; try done; [by apply insert_self|].
  intros s1 Hs1. left. split; [done|]. congruence.
Qed.

Lemma changed_look b b' i h s r s' r' :
  changed b b' i h s' r' -> _slots b !! i = Some s -> reqs b !! h = Some r ->
  _slots b' !! i = Some s' /\ reqs b' !! h = Some r'.
Proof.
  intros [H1 H2 _ _ _ _ _ _] Hi Hr. rewrite H1, H2.
  split; apply list_lookup_insert_eq; by eapply lookup_lt_Some.
Qed.

Lemma changed_trans b b' b'' i h s' r' s'' r'' :
  changed b b' i h s' r' -> occupied s' = true -> changed b' b'' i h s'' r'' ->
  changed b b'' i h s'' r''.
Proof.
  intros [A1 A2 A3 A4 A5 A6 A7 A8] Ho [B1 B2 B3 B4 B5 B6 B7 B8].
  split; try congruence.
  - by rewrite B1, A1, list_insert_insert_eq.
  - by rewrite B2, A2, list_insert_insert_eq.
  - intros s Hi. destruct (A8 s Hi) as [[T1 T2]|[? _]]; [|congruence].
    assert (Hi' : _slots b' !! i = Some s').
    { rewrite A1. apply list_lookup_insert_eq. by eapply lookup_lt_Some. }
    destruct (B8 s' Hi') as [[U1 U2]|(U1 & U2 & U3)].
    + left. split; congruence.
    + right. split; [done|]. split; congruence.
Qed.

Lemma good_change c Q Q' d g b0 b b' i s s' p r r' :
  good c Q d b0 b -> stable c Q -> _slots b !! i = Some s -> occupied s = true ->
  running c b s p r -> changed b b' i (p_req p) s' r' -> keeps_engine c b b' ->
  (forall e j s p r, j <> i -> Q e j s p r -> Q' e j s p r) ->
  tenantId r' = tenantId r -> length (tokens r') = length (logprobs r') ->
  (if occupied s'
   then serves c s' p /\ done r' = false /\ error r' = EmptyString /\ Q' (engine b') i s' p r'
   else done r' = true /\ fin_ok c p r') ->
  tokens r `prefix_of` tokens r' -> (cancelled r = true -> cancelled r' = true) ->
  slot_work c s' + g <= slot_work c s -> (occupied s' = false -> 0 < g) ->
  good c Q' (d + g) b0 b'.
Proof.
  intros Hg [HQ _] Hi Ho Hrun [C1 C2 C3 C4 C5 C6 C7 C8] Hk HQQ **.
  assert (Heng : track c -> engine_ok (engine b)) by apply Hg.
  eapply (good_update c Q Q' d g b0 b b'); try done.
  - intros Htr. by apply Hk, Heng.
  - intros j sj pj rj Hne Hj. apply HQQ; [done|]. eapply HQ; [|done].
    intros Htr. by apply Hk, Heng.
  - by apply C8.
Qed.

Lemma keeps_engine_same c b b' : engine b' = engine b -> keeps_engine c b b'.
Proof. intros H _ He. rewrite H. split; [done|]. intros j. apply same_slot_refl. Qed.

(** A request ends and its slot is freed. *)
Lemma good_finish c Q Q' d b0 b drop i s p r s' r' b' :
  good c Q d b0 b -> stable c Q -> _slots b !! i = Some s -> occupied s = true ->
  running c b s p r -> frees c drop -> changed b b' i (p_req p) s' r' ->
  occupied s' = true -> engine b' = engine b ->
  (forall e j s p r, j <> i -> Q e j s p r -> Q' e j s p r) ->
  tenantId r' = tenantId r -> length (tokens r') = length (logprobs r') ->
  done r' = true -> fin_ok c p r' ->
  tokens r `prefix_of` tokens r' -> (cancelled r = true -> cancelled r' = true) ->
  0 < slot_work c s ->
  good c Q' (d + 1) b0 (drop i b').
Proof.
  intros Hg HQ Hi Ho Hrun Hf Hch Ho' He HQQ **.
  destruct (changed_look _ _ _ _ _ _ _ _ Hch Hi (proj1 (proj2 Hrun))) as [Hi' Hr'].
  destruct (Hf b' i s' (p_req p) r' Hi' Hr') as (s'' & Ho'' & Hch' & Hk).
  eapply (good_change c Q Q' d 1 b0 b _ i s s'' p r r'); try done.
  - by eapply changed_trans.
  - intros Htr. unfold keeps_engine in Hk. rewrite He in Hk. by apply Hk.
  - by rewrite Ho''.
  - unfold slot_work at 1. by rewrite Ho''.
  - intros; lia.
Qed.

(** ** Committing a prefilled slot *)

Lemma occupied_slot b i : occupied (slot b i) = true -> _slots b !! i = Some (slot b i).
Proof.
  unfold slot. rewrite nth_lookup. by destruct (_slots b !! i).
Qed.

Lemma lock_req_upd_slot b i f : lock_req (upd_slot i f b) = upd_slot i f (lock_req b).
Proof.
  assert (H : forall hs x, fold_left (fun b h => cancel h b) hs (upd_slot i f x) =
      upd_slot i f (fold_left (fun b h => cancel h b) hs x)).
  { induction hs as [|h hs IH]; intros x; simpl; [done|]. apply (IH (cancel h x)). }
  unfold lock_req. change (script_req (upd_slot i f b)) with (script_req b).
  destruct (script_req b) as [|hs rest]; [done|]. by rewrite <- H.
Qed.

(** The slot after the commit's assignments. *)
Definition committed (c : Config) (s : Slot) (tok : Z) : Slot :=
  let '(s, firstTok) := applyThinkBudget c s tok in
  let s := s <| pos := promptLen s |> <| prefillPos := promptLen s |>
             <| lastTok := firstTok |> <| produced := 1 |> in
  if _warmSlot c then s <| residentTokens := prompt s |> else s.

Lemma committed_facts c s tok s1 tk :
  applyThinkBudget c s tok = (s1, tk) ->
  let s3 := committed c s tok in
  occupied s3 = occupied s /\ req s3 = req s /\ prompt s3 = prompt s /\
  promptLen s3 = promptLen s /\ maxNew s3 = maxNew s /\ stopIds s3 = stopIds s /\
  pos s3 = promptLen s /\ prefillPos s3 = promptLen s /\ produced s3 = 1 /\ lastTok s3 = tk /\
  think s3 = think s1 /\ residentTick s3 = residentTick s.
Proof.
  intros Ha. pose proof (apply_with_think c s tok) as Hw. unfold committed.
  rewrite Ha in *. cbn [fst] in Hw. rewrite Hw. by destruct (_warmSlot c).
Qed.

Lemma serves_same c s s' p :
  serves c s p -> req s' = req s -> prompt s' = prompt s -> promptLen s' = promptLen s ->
  maxNew s' = maxNew s -> stopIds s' = stopIds s -> serves c s' p.
Proof. unfold serves. intros H -> -> -> -> ->. exact H. Qed.

(** A slot property that a step at slot [i] does not care about. *)
Definition elsewhere (i : nat) (Q Q' : slot_prop) : Prop :=
  forall e j s p r, j <> i -> Q e j s p r -> Q' e j s p r.

(** A slot that is settled whatever is pending elsewhere may stay. *)
Definition accepts (c : Config) (i : nat) (Q' : slot_prop) : Prop :=
  forall e s p r, (forall pend, i ∉ pend -> settled c pend e i s p r) -> Q' e i s p r.

Lemma good_skip c Q Q' d b0 b i :
  good c Q d b0 b -> stable c Q -> elsewhere i Q Q' ->
  (forall s, _slots b !! i = Some s -> occupied s = false) -> good c Q' d b0 b.
Proof.
  intros Hg HQ He Hi. eapply good_view; try done; [apply Hg|].
  intros j s p r Hj Ho _. apply He. intros ->. by rewrite (Hi s Hj) in Ho.
Qed.

Lemma running_alive c Q b i s :
  inv c Q b -> _slots b !! i = Some s -> occupied s = true ->
  exists p r, running c b s p r /\ Q (engine b) i s p r /\ request b (p_req p) = r /\
    slot_cancelled b i = cancelled r /\ length (tokens r) = length (logprobs r).
Proof.
  intros Hinv Hi Ho. destruct (inv_slot _ _ _ Hinv i s Hi Ho) as (p & r & Hrun & HQ).
  exists p, r. pose proof Hrun as (_ & Hr & (Hq & _) & _).
  assert (Hreq : request b (p_req p) = r) by by apply request_lookup.
  split; [done|]. split; [done|]. split; [done|]. split; [|by eapply Hinv].
  unfold slot_cancelled. by rewrite (slot_lookup _ _ _ Hi), Hq, Hreq.
Qed.

(** The telemetry and the first token written to the request. *)
Definition commit_request (c : Config) (s : Slot) (cncl : bool) (tk : Z) (lp : TokenLogprobs)
    (q : ServingRequest) : ServingRequest :=
  let q := q <| promptTokens := promptLen s |> <| cachedTokens := prefillStart s |>
             <| prefilledTokens := promptLen s - prefillStart s |> <| prefillSet := true |> in
  if cncl then q
  else q <| tokens := tokens q ++ [tk] |> <| logprobs := logprobs q ++ [lp] |>.

Lemma commit_request_facts c s cncl tk lp q :
  let q' := commit_request c s cncl tk lp q in
  tenantId q' = tenantId q /\ done q' = done q /\ error q' = error q /\
  cancelled q' = cancelled q /\
  tokens q' = tokens q ++ (if cncl then [] else [tk]) /\
  logprobs q' = logprobs q ++ (if cncl then [] else [lp]).
Proof. unfold commit_request. destruct cncl; cbn; by rewrite ?app_nil_r. Qed.

Lemma commit_unfold c i rq first b :
  commitPrefilledSlot c i rq first b =
  let b := lock_mtx c b in
  if negb (occupied (slot b i)) || negb (bool_decide (req (slot b i) = rq)) then b
  else
    let s := committed c (slot b i) (fst first) in
    let b := lock_req (upd_slot i (fun _ => s) b) in
    let cncl := slot_cancelled b i in
    let b := upd_slot_req i (commit_request c s cncl (lastTok s) (snd first)) b in
    if cncl || stopCond c (lastTok s) s (_maxContext c <=? pos s + 1) then
      retireSlot c i (negb cncl) (upd_slot_req i (fun q => q <| done := true |>) b)
    else b.
Proof.
  unfold commitPrefilledSlot, committed. cbn zeta.
  destruct (negb _ || negb _); [done|].
  destruct (applyThinkBudget c (slot (lock_mtx c b) i) (fst first)) as [s1 tk].
  by destruct (_warmSlot c).
Qed.

Lemma good_commit c Q Q' d b0 b i rq first :
  stable c Q -> good c Q d b0 b ->
  (forall e s p r, Q e i s p r -> ready c rq first e i s p r) ->
  elsewhere i Q Q' -> accepts c i Q' ->
  good c Q' d b0 (commitPrefilledSlot c i rq first b).
Proof.
  intros HQ Hg Hready Helse Hacc. rewrite commit_unfold. cbn zeta.
  destruct (good_lock c Q d b0 b HQ Hg) as (Hg1 & _ & _). set (b1 := lock_mtx c b) in *.
  destruct (occupied (slot b1 i)) eqn:Ho; cbn [negb orb]; cycle 1.
  { apply (good_skip c Q Q' d b0 b1 i); try done. intros s Hi.
    by rewrite (slot_lookup _ _ _ Hi) in Ho. }
  pose proof (occupied_slot _ _ Ho) as Hi. set (s := slot b1 i) in *.
  rewrite lock_req_upd_slot. set (b2 := lock_req b1).
  destruct (good_lock_req c Q d b0 b1 HQ Hg1) as (Hg2 & Hs2 & _). fold b2 in Hg2, Hs2.
  assert (Hi2 : _slots b2 !! i = Some s) by by rewrite Hs2.
  destruct (running_alive c Q b2 i s (proj1 Hg2) Hi2 Ho)
    as (p & r & Hrun & HQi & Hreq & Hcan & Hlp).
  pose proof (Hready _ _ _ _ HQi) as (-> & Hpos & Hpp & Htk & Hholds & Hout & Hstr & Hgr).
  pose proof Hrun as (Hsub & Hr & Hsv & Hdn & Her). pose proof Hsv as (Hrq & Hpr & Hpl & _).
  destruct (applyThinkBudget c s (fst first)) as [s1 tk] eqn:Ha.
  pose proof (committed_facts c s (fst first) s1 tk Ha) as
    (F1 & F2 & F3 & F4 & F5 & F6 & F7 & F8 & F9 & F10 & F11 & F12).
  set (s3 := committed c s (fst first)) in *.
  rewrite bool_decide_eq_true_2 by (by rewrite Hrq). cbn [negb].
  pose proof (changed_slot b2 i (fun _ => s3) s (p_req p) r Hi2 Hr F12) as Hc3.
  set (b3 := upd_slot i (fun _ => s3) b2) in *.
  destruct (changed_look _ _ _ _ _ _ _ _ Hc3 Hi2 Hr) as [Hi3 Hr3].
  assert (Hcan3 : slot_cancelled b3 i = cancelled r).
  { unfold slot_cancelled. rewrite (slot_lookup _ _ _ Hi3), F2, Hrq.
    by rewrite (request_lookup _ _ _ Hr3). }
  rewrite Hcan3.
  pose proof (changed_req b3 i (commit_request c s3 (cancelled r) (lastTok s3) (snd first)) s3
    (p_req p) r Hi3 (eq_trans F2 Hrq) Hr3) as Hc4.
  set (g := commit_request c s3 (cancelled r) (lastTok s3) (snd first)) in *.
  pose proof (commit_request_facts c s3 (cancelled r) (lastTok s3) (snd first) r) as
    (G1 & G2 & G3 & G4 & G5 & G6). fold g in G1, G2, G3, G4, G5, G6.
  clearbody g.
  set (b4 := upd_slot_req i g b3) in *.
  pose proof (changed_trans _ _ _ _ _ _ _ _ _ Hc3 (eq_trans F1 Ho) Hc4) as Hc24.
  destruct (changed_look _ _ _ _ _ _ _ _ Hc24 Hi2 Hr) as [Hi4 Hr4].
  assert (He4 : engine b4 = engine b2).
  { unfold b4, upd_slot_req. by destruct (req (slot b3 i)). }
  assert (Hsv3 : serves c s3 p) by by eapply serves_same.
  assert (Hlp' : length (tokens (g r)) = length (logprobs (g r))).
  { rewrite G5, G6, !length_app, Hlp. by destruct (cancelled r). }
  assert (Hpre : tokens r `prefix_of` tokens (g r)) by (rewrite G5; by eexists).
  assert (Hwk : pos s3 < _maxContext c) by (rewrite F7, Hpl; apply Hsv).
  assert (Hstr' : cancelled r = false -> stream_ok c p s3 (g r)).
  { intros Hc. eapply (emit c p s r (fst first) s1 tk); try done.
    - intros Htr Hgd. rewrite Htk, app_nil_r. by apply Hout.
    - by rewrite G5, Hc, F10. }
  assert (Hstop : cancelled r = false ->
      stopCond c (lastTok s3) s3 (_maxContext c <=? pos s3 + 1) = stopNow c p (tokens (g r))).
  { intros Hc. rewrite G5, Htk, Hc. apply stop_agrees; [done|by rewrite F9|].
    cbn [length]. by rewrite F7, F4. }
  assert (Hw0 : 0 < slot_work c s).
  { unfold slot_work. rewrite Ho, Hpos, Hpp. cbn [Nat.max]. lia. }
  destruct (cancelled r || stopCond c (lastTok s3) s3 (_maxContext c <=? pos s3 + 1)) eqn:Hst.
  - assert (Hc5 : changed b2 (upd_slot_req i (fun q => q <| done := true |>) b4) i (p_req p) s3
        ((g r) <| done := true |>)).
    { eapply changed_trans; [exact Hc24|by rewrite F1|].
      apply (changed_req b4 i (fun q => q <| done := true |>) s3 _ (g r)); [done|by rewrite F2|done]. }
    eapply good_weaken; [|apply Nat.le_add_r with (m := 1)].
    eapply (good_finish c Q Q' d b0 b2 (fun i => retireSlot c i (negb (cancelled r))) i s p r s3
      ((g r) <| done := true |>)); try done.
    + apply frees_retire.
    + by rewrite F1.
    + unfold upd_slot_req. by destruct (req (slot b4 i)).
    + destruct (cancelled r) eqn:Hc.
      * eapply (fin_ok_ended c p s).
        -- intros Htr Hgd. cbn. rewrite G5, app_nil_r. by apply Hstr.
        -- cbn. rewrite G5, app_nil_r, Htk. apply nostop_nil.
        -- left. cbn. by rewrite G4.
      * eapply (fin_ok_stop c p s3 _ [] tk); cbn.
        -- by apply Hstr'.
        -- by rewrite G5, Htk, F10.
        -- apply nostop_nil.
        -- right; right. rewrite (Hstop eq_refl) in Hst. cbn [orb] in Hst.
           by rewrite G5, Htk, F10 in Hst.
    + cbn. by rewrite G4.
  - apply orb_false_iff in Hst as [Hc Hst]. rewrite (Hstop Hc) in Hst.
    rewrite <- (Nat.add_0_r d).
    eapply (good_change c Q Q' d 0 b0 b2 b4 i s s3 p r (g r)); try done.
    + by apply keeps_engine_same.
    + rewrite F1, Ho. split; [done|]. split; [by rewrite G2|]. split; [by rewrite G3|].
      apply Hacc. intros pend Hp. split; [|split; [by apply Hstr'|]].
      * eapply Decode with (out := []); cbn [length].
        -- done.
        -- by rewrite G5, Htk, Hc.
        -- done.
        -- rewrite F7, F4. lia.
        -- by rewrite F8, F4.
        -- intros _. by rewrite F8, F4.
        -- rewrite G5, Htk, Hc in Hst |- *. apply (nostop_snoc c p []); [apply nostop_nil|done].
        -- rewrite app_nil_r, F3, Hpr, He4. intros Htr. right. by apply Hholds.
      * by rewrite He4.
    + by rewrite G4.
    + unfold slot_work. rewrite F1, Ho, F7, F8. lia.
    + by rewrite F1, Ho.
Qed.

(** ** Failed prefills *)

(** A running slot that may be retired at any time. *)
Definition endable (c : Config) (s : Slot) (p : Pending) (r : ServingRequest) : Prop :=
  stream_ok c p s r /\ nostop c p (tokens r) /\ Nat.max (pos s) (prefillPos s) < _maxContext c.

Lemma endable_work c s p r : endable c s p r -> occupied s = true -> 0 < slot_work c s.
Proof. intros (_ & _ & H) Ho. unfold slot_work. rewrite Ho. lia. Qed.

Lemma nostop_room c p out tk :
  nostop c p (out ++ [tk]) -> length (p_prompt p) + length out + 1 < _maxContext c.
Proof.
  intros H. specialize (H (length (out ++ [tk])) (le_n _)). rewrite firstn_all in H.
  unfold stopNow in H. rewrite last_snoc, length_app in H. bool_to_prop. simpl in *. lia.
Qed.

Lemma settled_endable c pend e i s p r :
  settled c pend e i s p r -> serves c s p -> endable c s p r.
Proof.
  intros (Hp & Hs & _) (_ & _ & Hl & _ & _ & Hlen). split; [done|].
  destruct Hp as [_ _ H1 H2 H3 H4 _|_ _ H1 H2 _ H3 _|_ _ H1 H2 _ H3 _
                 |out _ H1 H2 H3 H4 _ H5 _]; rewrite ?H3.
  - split; [apply nostop_nil|lia].
  - split; [apply nostop_nil|lia].
  - split; [apply nostop_nil|lia].
  - split; [done|]. rewrite H1 in H5. apply nostop_room in H5. lia.
Qed.

Lemma good_fail c Q Q' d b0 b i rq msg :
  stable c Q -> good c Q d b0 b -> msg <> EmptyString ->
  (forall e s p r, Q e i s p r -> serves c s p -> rq = Some (p_req p) /\ endable c s p r) ->
  elsewhere i Q Q' -> good c Q' d b0 (failSlot c i rq msg b).
Proof.
  intros HQ Hg Hmsg Hend Helse. unfold failSlot.
  destruct (good_lock c Q d b0 b HQ Hg) as (Hg1 & _ & _). set (b1 := lock_mtx c b) in *.
  destruct (occupied (slot b1 i)) eqn:Ho; cbn [andb]; cycle 1.
  { apply (good_skip c Q Q' d b0 b1 i); try done. intros s Hi.
    by rewrite (slot_lookup _ _ _ Hi) in Ho. }
  pose proof (occupied_slot _ _ Ho) as Hi. set (s := slot b1 i) in *.
  destruct (running_alive c Q b1 i s (proj1 Hg1) Hi Ho)
    as (p & r & Hrun & HQi & Hreq & Hcan & Hlp).
  pose proof Hrun as (Hsub & Hr & Hsv & Hdn & Her).
  destruct (Hend _ _ _ _ HQi Hsv) as [-> Hen].
  rewrite bool_decide_eq_true_2 by apply Hsv.
  eapply good_weaken; [|apply Nat.le_add_r with (m := 1)].
  eapply (good_finish c Q Q' d b0 b1 dropSlot i s p r s (r <| error := msg |> <| done := true |>));
    try done.
  - apply frees_drop.
  - apply (changed_req b1 i (fun q => q <| error := msg |> <| done := true |>)); [done|apply Hsv|done].
  - unfold upd_slot_req. by destruct (req (slot b1 i)).
  - eapply (fin_ok_ended c p s); [apply Hen|apply Hen|]. by right.
  - eapply endable_work; [exact Hen|done].
Qed.

(** ** Eager prefill *)

(** A slot admitted for eager prefill. *)
Definition awaiting (c : Config) : slot_prop := fun e i s p r =>
  0 < _prefillChunk c /\ pos s = 0 /\ prefillPos s = 0 /\ tokens r = [] /\
  prefillStart s < promptLen s /\ fed c e i (take (prefillStart s) (prompt s)) /\
  stream_ok c p s r /\ greedy_ok c e i p.

Lemma settled_awaiting c pend e i s p r :
  settled c pend e i s p r -> i ∈ pend -> awaiting c e i s p r.
Proof. intros (Hp & Hs & Hg) Hi. by destruct Hp. Qed.

Lemma awaiting_endable c e i s p r :
  awaiting c e i s p r -> serves c s p -> endable c s p r.
Proof.
  intros (_ & H1 & H2 & H3 & _ & _ & H4 & _) (_ & _ & _ & _ & _ & H5). split; [done|].
  rewrite H3. split; [apply nostop_nil|]. lia.
Qed.

(** The chunk loop feeds exactly the prompt: the fuel suffices. *)
Lemma prefillChunks_fed c i prompt xd fuel : track c -> 0 < _prefillChunk c ->
  forall p first e r e',
  p < length prompt -> length prompt - p <= fuel ->
  prefillChunks fuel c i prompt xd p first e = (r, e') ->
  engine_ok e -> fedBy e i p (take p prompt) ->
  engine_ok e' /\ (forall j, j <> i -> same_slot e e' j) /\
  (greedyIn e i -> greedyIn e' i) /\
  match r with
  | Throw _ => True
  | Ok tk => holds e' i prompt /\ (greedyIn e i -> fst tk = next prompt)
  end.
Proof.
  intros [Hlaw Hwarm] HC. induction fuel as [|fuel IH]; intros p first e r e' Hp Hf; [lia|].
  simpl. destruct (Nat.ltb_spec p (length prompt)) as [_|]; [|lia].
  set (n := Nat.min (_prefillChunk c) (length prompt - p)).
  set (last := p + n =? length prompt).
  destruct (prefillSlot i (take n (drop p prompt)) p last e) as [[tk|ex] e1] eqn:Hpf;
    intros Hres Heng Hfed.
  all: destruct (law_prefill Hlaw _ _ _ _ _ _ _ Hpf Heng) as (E1 & G1 & F1 & K1).
  all: try (intros H0; apply (f_equal length) in H0; rewrite length_take, length_drop in H0;
            simpl in H0; lia).
  2: by injection Hres as <- <-.
  destruct (K1 _ Hfed) as [Hh Hn].
  assert (Hcat : take p prompt ++ take n (drop p prompt) = take (p + n) prompt)
    by by rewrite take_take_drop.
  rewrite Hcat in Hh, Hn. rewrite Hwarm in Hres. set (snap := _ && _ && _) in Hres.
  set (e2 := if snap then _ else _) in Hres.
  assert (H2 : engine_ok e2 /\ forall j, same_slot e1 e2 j).
  { subst e2. destruct snap eqn:Hs; [|split; [done|]; intros j; apply same_slot_refl].
    subst snap. bool_to_prop. subst xd. apply (law_snapshot Hlaw); [done|lia|done]. }
  destruct H2 as [E2 S2].
  destruct (Nat.ltb_spec (p + n) (length prompt)) as [Hlt|Hge].
  - assert (Hlast : last = false) by (apply Nat.eqb_neq; lia). rewrite Hlast in Hres.
    assert (Hn' : n = _prefillChunk c) by lia.
    destruct (IH (p + _prefillChunk c) first e2 r e') as (E3 & S3 & G3 & K3); try done; try lia.
    { rewrite <- Hn'. split; [rewrite length_take; lia|]. right. by apply S2. }
    split; [done|]. split; [|split].
    + intros j Hj. eapply same_slot_trans; [by apply F1|].
      eapply same_slot_trans; [by apply S2|by apply S3].
    + intros Hg. by apply G3, S2, G1.
    + destruct r; [|done]. destruct K3 as [K4 K5]. split; [done|].
      intros Hg. by apply K5, S2, G1.
  - assert (Hlast : last = true) by (apply Nat.eqb_eq; lia). rewrite Hlast in Hres, Hn.
    assert (Hfin : prefillChunks fuel c i prompt xd (p + _prefillChunk c) tk e2 = (Ok tk, e2)).
    { destruct fuel; simpl; [done|].
      by destruct (Nat.ltb_spec (p + _prefillChunk c) (length prompt)); [lia|]. }
    rewrite Hfin in Hres. injection Hres as <- <-.
    assert (Hall : take (p + n) prompt = prompt) by (apply take_ge; lia).
    rewrite Hall in Hh, Hn. split; [done|]. split; [|split].
    + intros j Hj. eapply same_slot_trans; [by apply F1|apply S2].
    + intros Hg. by apply S2, G1.
    + split; [by apply S2|]. intros Hg. by apply Hn.
Qed.

Lemma prefix_message msg : "prefill failed: " +:+ msg <> EmptyString.
Proof. done. Qed.

(** The slot of an eager prefill after its forwards. *)
Lemma good_forwarded c Q Q' d b0 b e' i :
  good c Q d b0 b -> stable c Q -> elsewhere i Q Q' ->
  (track c -> engine_ok e' /\ forall j, j <> i -> same_slot (engine b) e' j) ->
  (forall s p r, _slots b !! i = Some s -> occupied s = true -> running c b s p r ->
    Q (engine b) i s p r -> Q' e' i s p r) ->
  good c Q' d b0 (b <| engine := e' |>).
Proof.
  intros Hg [HQ _] He Hk Hi. eapply good_view; try done.
  - intros Htr. by apply Hk.
  - intros j s p r Hj Ho Hrun Hq. destruct (decide (j = i)) as [->|Hne]; [by apply Hi|].
    apply He; [done|]. eapply HQ; [|done]. intros Htr. by apply Hk.
Qed.

Lemma keeps_elim c f b :
  track c -> keeps f -> engine_ok (engine b) ->
  engine_ok (f (engine b)) /\ forall j, same_slot (engine b) (f (engine b)) j.
Proof. intros _ H He. by apply H. Qed.

(** An engine call that keeps every slot. *)
Lemma good_keeps c Q d b0 b f : good c Q d b0 b -> stable c Q ->
  (Lawful -> keeps f) -> good c Q d b0 (upd_engine f b).
Proof.
  intros Hg [HQ _] Hk. assert (Heng : track c -> engine_ok (engine b)) by apply Hg.
  eapply good_view; try done.
  - intros Htr. apply (Hk (proj1 Htr)). by apply Heng.
  - intros j s p r _ _ _. apply HQ. intros Htr. apply (Hk (proj1 Htr)). by apply Heng.
Qed.

Lemma good_prefillSlotAdmitted c Q Q' d b0 b i :
  stable c Q -> good c Q d b0 b ->
  (forall e s p r, Q e i s p r -> awaiting c e i s p r) ->
  elsewhere i Q Q' -> accepts c i Q' ->
  good c Q' d b0 (prefillSlotAdmitted c i b).
Proof.
  intros HQ Hg Haw Helse Hacc. unfold prefillSlotAdmitted.
  destruct (good_lock c Q d b0 b HQ Hg) as (Hg1 & _ & _). set (b1 := lock_mtx c b) in *.
  destruct (occupied (slot b1 i)) eqn:Ho; cbn [negb]; cycle 1.
  { apply (good_skip c Q Q' d b0 b1 i); try done. intros s Hi.
    by rewrite (slot_lookup _ _ _ Hi) in Ho. }
  pose proof (occupied_slot _ _ Ho) as Hi. set (s := slot b1 i) in *.
  destruct (running_alive c Q b1 i s (proj1 Hg1) Hi Ho) as (p & r & Hrun & HQi & _).
  pose proof Hrun as (_ & _ & Hsv & _). pose proof Hsv as (Hrq & Hpr & Hpl & _ & _ & Hlen).
  pose proof (Haw _ _ _ _ HQi) as (HC & _ & _ & _ & Hst & _).
  destruct (Nat.eqb_spec (length (prompt s)) 0) as [H0|_]; [rewrite Hpr in H0; lia|].
  destruct (Nat.leb_spec (length (prompt s)) (prefillStart s)) as [H0|_];
    [rewrite Hpr, <- Hpl in H0; lia|]. cbn [orb].
  set (b2 := if 0 <? prefillStart s then _ else b1).
  assert (Hg2 : good c Q d b0 b2 /\ _slots b2 = _slots b1).
  { subst b2. destruct (0 <? _); [|done]. split; [|done]. apply good_keeps; try done.
    intros Hl. apply (law_restoreCkpt Hl). }
  destruct Hg2 as [Hg2 Hs2]. assert (Hi2 : _slots b2 !! i = Some s) by by rewrite Hs2.
  match goal with |- context [prefillChunks ?f _ _ _ ?x _ _ _] => set (xd := x) end.
  destruct (prefillChunks _ c i (prompt s) xd _ _ (engine b2)) as [res e'] eqn:Hpf.
  assert (HQ2 : Q (engine b2) i s p r).
  { subst b2. destruct (0 <? _); [|done].
    assert (Hk : good c Q d b0 (upd_engine (restoreSlotSsmCkptAtPos i (prefillStart s)) b1))
      by (apply good_keeps; try done; intros Hl; apply (law_restoreCkpt Hl)).
    destruct (inv_slot _ _ _ (proj1 Hk) i s Hi Ho) as (p' & r' & (A1 & A2 & (A3 & _) & _) & A4).
    assert (p_req p' = p_req p) as Heq by congruence. destruct Hrun as (B1 & B2 & _).
    cbn [submitted reqs upd_engine set_field set_engine] in A1, A2. rewrite Heq in A1, A2.
    by replace p with p' by congruence; replace r with r' by congruence. }
  assert (Hfed : track c -> engine_ok e' /\ (forall j, j <> i -> same_slot (engine b2) e' j) /\
      (greedyIn (engine b2) i -> greedyIn e' i) /\
      match res with
      | Throw _ => True
      | Ok tk => holds e' i (p_prompt p) /\
          (greedyIn (engine b2) i -> fst tk = next (p_prompt p))
      end).
  { intros Htr. pose proof (Haw _ _ _ _ HQ2) as (_ & _ & _ & _ & _ & Hf & _).
    rewrite <- Hpr. apply (prefillChunks_fed c i (prompt s) xd (length (prompt s)) Htr HC
      (prefillStart s) ((-1)%Z, noLogprobs) (engine b2) res e'); [rewrite Hpr, <- Hpl; done|lia|done|by apply Hg2|].
    eapply fed_fedBy; [exact Hf|done|]. rewrite length_take, Hpr, <- Hpl. lia. }
  destruct res as [first|ex].
  - set (Qr := at_slots (eq i) (ready c (req s) first) Q).
    assert (Hgr : good c Qr d b0 (b2 <| engine := e' |>)).
    { apply (good_forwarded c Q Qr d b0 b2 e' i); try done.
      - intros Htr. by destruct (Hfed Htr) as (A & B & _).
      - intros s' p' r' Hi' _ Hrun' Hq'. split; [intros _|done].
        assert (s' = s) by congruence. subst s'.
        assert (Heq : p_req p' = p_req p) by (destruct Hrun' as (_ & _ & (A & _) & _); congruence).
        assert (p' = p) as ->.
        { assert (submitted b2 = submitted b1) as Hsb by (subst b2; by destruct (0 <? _)).
          destruct Hrun' as (A & _), Hrun as (B & _). rewrite Hsb, Heq in A. congruence. }
        destruct (Haw _ _ _ _ Hq') as (_ & A1 & A2 & A3 & _ & _ & A4 & A5).
        do 4 (split; [done|]). split; [intros Htr; by apply (Hfed Htr)|]. split.
        + intros Htr Hgd. apply (Hfed Htr). by apply A5.
        + split; [done|]. intros Htr Hgd. apply (Hfed Htr). by apply A5. }
    assert (HQr : stable c Qr) by (apply stable_at; [apply stable_ready|done]).
    set (b3 := if _xslot c then _ else _).
    assert (Hg3 : good c Qr d b0 b3).
    { subst b3. destruct (_xslot c); [|done]. apply good_keeps; try done.
      intros Hl. apply (law_drain Hl). }
    apply (good_commit c Qr Q' d b0 b3 i (req s) first); try done.
    + intros e s' p' r' [H _]. by apply H.
    + intros e j s' p' r' Hne [_ H]. apply Helse; [done|]. apply H. by intros ->.
  - set (Qf := at_slots (eq i) (fun _ _ s' p' r' =>
        req s = Some (p_req p') /\ endable c s' p' r') Q).
    assert (Hgf : good c Qf d b0 (b2 <| engine := e' |>)).
    { apply (good_forwarded c Q Qf d b0 b2 e' i); try done.
      - intros Htr. by destruct (Hfed Htr) as (A & B & _).
      - intros s' p' r' Hi' _ (_ & _ & Hsv' & _) Hq'. split; [intros _|done].
        assert (s' = s) by congruence. subst s'. split; [apply Hsv'|].
        eapply awaiting_endable; [by apply Haw|done]. }
    apply (good_fail c Qf Q' d b0 _ i); try done.
    + apply stable_at; [|done]. split; [done|]. intros e j s' p' r' [A B]. exact (conj A B).
    + intros e s' p' r' [H _] _. by apply H.
    + intros e j s' p' r' Hne [_ H]. apply Helse; [done|]. apply H. by intros ->.
Qed.

(** ** Sequences of per-slot steps *)

(** The entries of [l] are still to be handled, each at its slot [key x], where
    [R x] holds; the other slots are done. *)
Definition todo {A} (key : A -> nat) (R : A -> slot_prop) (l : list A) (Q' : slot_prop)
    : slot_prop := fun e j s p r =>
  (forall x, x ∈ l -> key x = j -> R x e j s p r) /\
  ((forall x, x ∈ l -> key x <> j) -> Q' e j s p r).

Lemma stable_todo {A} c (key : A -> nat) R l Q' :
  (forall x, x ∈ l -> stable c (R x)) -> stable c Q' -> stable c (todo key R l Q').
Proof.
  intros HR [Q1 Q2]. split.
  - intros e e' i s p r Hs [H1 H2]. split; [|eauto]. intros x Hx Hk.
    destruct (HR x Hx) as [R1 _]. eauto.
  - intros e i s p r [H1 H2]. split; [|eauto]. intros x Hx Hk.
    destruct (HR x Hx) as [_ R2]. eauto.
Qed.

(** The contract of a step that handles the slot of [x]. *)
Definition handles {A} (c : Config) (key : A -> nat) (R : A -> slot_prop) (f : A -> t -> t)
    (x : A) : Prop :=
  forall Q Q' d b0 b, stable c Q -> good c Q d b0 b ->
  (forall e s p r, Q e (key x) s p r -> R x e (key x) s p r) ->
  elsewhere (key x) Q Q' -> accepts c (key x) Q' -> good c Q' d b0 (f x b).

Lemma good_fold {A} c (key : A -> nat) (R : A -> slot_prop) (f : A -> t -> t) l :
  forall Q' d b0 b,
  (forall x, x ∈ l -> stable c (R x) /\ handles c key R f x /\ accepts c (key x) Q') ->
  stable c Q' -> NoDup (map key l) ->
  good c (todo key R l Q') d b0 b -> good c Q' d b0 (fold_left (fun b x => f x b) l b).
Proof.
  induction l as [|x l IH]; intros Q' d b0 b Hl HQ' Hnd Hg; simpl.
  { eapply good_view; try done; [apply Hg|]. intros i s p r _ _ _ [_ H]. apply H. set_solver. }
  apply NoDup_cons in Hnd as [Hx Hnd].
  assert (Hl' : forall y, y ∈ l -> stable c (R y) /\ handles c key R f y /\ accepts c (key y) Q')
    by (intros y Hy; apply Hl; by right).
  destruct (Hl x ltac:(by left)) as (HR & Hf & Ha). apply IH; [done..|].
  apply (Hf (todo key R (x :: l) Q')); try done.
  - apply stable_todo; [|done]. intros y Hy. by apply Hl.
  - intros e s p r [H _]. apply H; [by left|done].
  - intros e j s p r Hne [H1 H2]. split.
    + intros y Hy. apply H1. by right.
    + intros H. apply H2. intros y [->|Hy]%elem_of_cons; [done|by apply H].
  - intros e s p r Hs. split; [|intros _; by apply Ha]. intros y Hy Hk.
    destruct Hx. rewrite <- Hk. by apply list_elem_of_fmap_2.
Qed.

Lemma handles_prefill c i : handles c id (fun _ => awaiting c) (fun i => prefillSlotAdmitted c i) i.
Proof. intros Q Q' d b0 b HQ Hg HR He Ha. by eapply good_prefillSlotAdmitted. Qed.

Lemma stable_awaiting c : stable c (awaiting c).
Proof.
  split.
  - intros e e' i s p r Hs (H1 & H2 & H3 & H4 & H5 & H6 & H7 & H8).
    do 5 (split; [done|]). split; [by eapply fed_same|]. split; [done|by eapply greedy_same].
  - intros e i s p r H. exact H.
Qed.

Lemma settled_drop c pend pend' e i s p r :
  settled c pend e i s p r -> i ∉ pend -> i ∉ pend' -> settled c pend' e i s p r.
Proof.
  intros (Hp & H) Hi Hi'. split; [|done].
  destruct Hp; [done|eapply Ingest|eapply Mixed|eapply Decode]; eauto.
Qed.

Lemma settled_keep c pend pend' e i s p r :
  settled c pend e i s p r -> i ∈ pend -> i ∈ pend' -> settled c pend' e i s p r.
Proof. intros (Hp & H) Hi Hi'. split; [|done]. destruct Hp; [eapply Eager|..]; done. Qed.

Lemma settled_change c pend pend' e i s p r :
  settled c pend e i s p r -> (i ∈ pend <-> i ∈ pend') -> settled c pend' e i s p r.
Proof.
  intros H Hi. destruct (decide (i ∈ pend)).
  - eapply settled_keep; naive_solver.
  - eapply settled_drop; naive_solver.
Qed.

Lemma accepts_settled c i pend : i ∉ pend -> accepts c i (settled c pend).
Proof. intros Hi e s p r H. by apply H. Qed.

Lemma good_settled_perm c pend pend' d b0 b :
  (forall i, i ∈ pend <-> i ∈ pend') -> good c (settled c pend) d b0 b ->
  good c (settled c pend') d b0 b.
Proof.
  intros Hp Hg. eapply good_view; try done; [apply Hg|]. intros i s p r _ _ _ H.
  by eapply settled_change.
Qed.

(** Eager prefill one slot at a time. *)
Lemma good_prefill_each c l rest d b0 b :
  NoDup (l ++ rest) -> good c (settled c (l ++ rest)) d b0 b ->
  good c (settled c rest) d b0 (fold_left (fun b i => prefillSlotAdmitted c i b) l b).
Proof.
  intros Hnd Hg. apply NoDup_app in Hnd as (Hnd & Hdis & _).
  apply (good_fold c id (fun _ => awaiting c) (fun i b => prefillSlotAdmitted c i b)).
  - intros i Hi. split; [apply stable_awaiting|]. split; [apply handles_prefill|].
    apply accepts_settled. by apply Hdis.
  - apply stable_settled.
  - by rewrite map_id.
  - eapply good_view; try done; [apply Hg|]. intros i s p r _ _ _ H. split.
    + intros j Hj <-. eapply settled_awaiting; [done|]. set_solver.
    + intros Hj. eapply settled_change; [done|].
      assert (i ∉ l) by (intros Hi; by apply (Hj i)). set_solver.
Qed.

(** ** Batched prefill *)

Definition snap_prompt (x : Snapshot) : list Z := fst (snd x).
Definition snap_req (x : Snapshot) : option nat := snd (snd x).

(** The packed batch is a prefix of the run, in full, within the row budget. *)
Lemma packBatch_spec c run : forall n batch rest,
  packBatch c n run = (batch, rest) ->
  run = batch ++ rest /\
  Forall (fun x => snap_prompt x <> []) batch /\
  (n <= _prefillMaxRows c ->
   n + list_sum (map (fun x => length (snap_prompt x)) batch) <= _prefillMaxRows c).
Proof.
  induction run as [|(i & pr & rq) run IH]; intros n batch rest H; simpl in H.
  { injection H as <- <-. split; [done|]. split; [done|]. simpl. lia. }
  destruct rq as [r|]; [|injection H as <- <-; split; [done|]; split; [done|]; simpl; lia].
  destruct (_ || _ || _) eqn:Hfit.
  { injection H as <- <-. split; [done|]. split; [done|]. simpl. lia. }
  apply orb_false_iff in Hfit as [[Hf1 Hf2]%orb_false_iff Hf3]. bool_to_prop. destruct (packBatch c (n + length pr) run) as [ba re] eqn:Hpk.
  injection H as <- <-. destruct (IH _ _ _ Hpk) as (-> & H1 & H2). split; [done|].
  split; [constructor; [|done]; cbn; by intros ->|]. intros Hn. simpl.
  unfold snap_prompt at 1. simpl. specialize (H2 ltac:(lia)). lia.
Qed.

(** A first entry that fits alone is always packed. *)
Lemma packBatch_first c i pr r run :
  length pr <> 0 -> length pr <= _prefillMaxRows c ->
  exists batch rest, packBatch c 0 ((i, (pr, Some r)) :: run) = ((i, (pr, Some r)) :: batch, rest).
Proof.
  intros H1 H2. simpl. destruct (Nat.eqb_spec (length pr) 0); [done|].
  destruct (Nat.ltb_spec (_prefillMaxRows c) (length pr)); [lia|]. simpl.
  destruct (packBatch c (length pr) run) as [ba re]. eauto.
Qed.

(** The slots of [run] are as they were when the snapshot was taken. *)
Definition snapped (c : Config) (run : list Snapshot) (pend : list nat) : slot_prop :=
  fun e i s p r => settled c pend e i s p r /\
    forall pr rq, (i, (pr, rq)) ∈ run -> pr = prompt s /\ rq = req s.

Lemma stable_snapped c run pend : stable c (snapped c run pend).
Proof.
  destruct (stable_settled c pend) as [K1 K2]. split.
  - intros e e' i s p r Hs [H1 H2]. split; [by eapply K1|done].
  - intros e i s p r [H1 H2]. split; [by apply K2|done].
Qed.

(** Handling a part of the run that is over leaves the rest as it was. *)
Lemma snapped_rest c done_ rest pend e i s p r :
  snapped c (done_ ++ rest) (map fst (done_ ++ rest) ++ pend) e i s p r ->
  i ∉ map fst done_ -> snapped c rest (map fst rest ++ pend) e i s p r.
Proof.
  intros [H1 H2] Hi. split.
  - eapply settled_change; [done|]. rewrite map_app. set_solver.
  - intros pr rq Hin. apply H2. set_solver.
Qed.

Lemma accepts_snapped c run pend i :
  i ∉ map fst run ++ pend -> accepts c i (snapped c run (map fst run ++ pend)).
Proof.
  intros Hi e s p r H. split; [by apply H|]. intros pr rq Hin. destruct Hi.
  apply elem_of_app. left. apply list_elem_of_fmap. by exists (i, (pr, rq)).
Qed.

Lemma handles_commit c (outs : list (Z * TokenLogprobs)) x :
  handles c (fun x : nat * Snapshot => fst (snd x))
    (fun x => ready c (snap_req (snd x)) (nth (fst x) outs ((-1)%Z, noLogprobs)))
    (fun x b => let '(k, (i, (_, r))) := x in
       commitPrefilledSlot c i r (nth k outs ((-1)%Z, noLogprobs)) b) x.
Proof.
  destruct x as (k & i & pr & rq). intros Q Q' d b0 b HQ Hg HR He Ha. by eapply good_commit.
Qed.

Definition failing (c : Config) (rq : option nat) : slot_prop := fun _ _ s p r =>
  rq = Some (p_req p) /\ endable c s p r.

Lemma stable_failing c rq : stable c (failing c rq).
Proof. split; [done|]. intros e i s p r [H1 H2]. exact (conj H1 H2). Qed.

Lemma handles_fail c msg x : msg <> EmptyString ->
  handles c fst (fun x : Snapshot => failing c (snap_req x))
    (fun x b => let '(i, (_, r)) := x in failSlot c i r msg b) x.
Proof.
  intros Hmsg. destruct x as (i & pr & rq). intros Q Q' d b0 b HQ Hg HR He _.
  eapply good_fail; try done. intros e s p r Hq _. by apply (HR e s p r).
Qed.

Lemma imap_pair_snd {A} (l : list A) : map snd (imap pair l) = l.
Proof.
  assert (H : forall f : nat -> nat, map snd (imap (fun n x => (f n, x)) l) = l).
  { induction l as [|x l IH]; intros f; simpl; [done|]. f_equal. apply (IH (fun n => f (S n))). }
  apply (H id).
Qed.

Lemma imap_pair_elem {A} (l : list A) k x : (k, x) ∈ imap pair l <-> l !! k = Some x.
Proof.
  split.
  - intros [i Hi]%list_elem_of_lookup. rewrite list_lookup_imap in Hi.
    destruct (l !! i) eqn:Hl; [|done]. by injection Hi as -> ->.
  - intros H. apply list_elem_of_lookup. exists k. by rewrite list_lookup_imap, H.
Qed.

Lemma good_commitBatch c batch outs Q' d b0 b :
  stable c Q' -> NoDup (map fst batch) -> (forall i, i ∈ map fst batch -> accepts c i Q') ->
  good c (todo (fun x : nat * Snapshot => fst (snd x))
            (fun x => ready c (snap_req (snd x)) (nth (fst x) outs ((-1)%Z, noLogprobs)))
            (imap pair batch) Q') d b0 b ->
  good c Q' d b0 (commitBatch c batch outs b).
Proof.
  intros HQ' Hnd Ha Hg. unfold commitBatch.
  assert (Hm : map (fun x : nat * Snapshot => fst (snd x)) (imap pair batch) = map fst batch).
  { rewrite <- (imap_pair_snd batch) at 2. symmetry. apply map_map. }
  apply (good_fold c (fun x : nat * Snapshot => fst (snd x))
    (fun x => ready c (snap_req (snd x)) (nth (fst x) outs ((-1)%Z, noLogprobs)))
    (fun x b => let '(k, (i, (_, r))) := x in
       commitPrefilledSlot c i r (nth k outs ((-1)%Z, noLogprobs)) b)); try done.
  - intros x Hx. split; [apply stable_ready|]. split; [apply handles_commit|].
    apply Ha. rewrite <- Hm.
    by apply (list_elem_of_fmap_2 (fun x : nat * Snapshot => fst (snd x))).
  - rewrite <- Hm in Hnd. exact Hnd.
Qed.

Lemma good_failBatch c batch msg Q' d b0 b :
  msg <> EmptyString -> stable c Q' -> NoDup (map fst batch) ->
  (forall i, i ∈ map fst batch -> accepts c i Q') ->
  good c (todo fst (fun x : Snapshot => failing c (snap_req x)) batch Q') d b0 b ->
  good c Q' d b0 (failBatch c batch msg b).
Proof.
  intros Hmsg HQ' Hnd Ha Hg. unfold failBatch.
  apply (good_fold c fst (fun x : Snapshot => failing c (snap_req x))
    (fun x b => let '(i, (_, r)) := x in failSlot c i r msg b)); try done.
  intros x Hx. split; [apply stable_failing|]. split; [by apply handles_fail|].
  apply Ha. by apply (list_elem_of_fmap_2 fst).
Qed.

(** What the ragged forward of a batch leaves at the batch's slots and
    elsewhere. *)
Lemma batch_forward c i0 batch e res e' : track c ->
  prefillSlotsBatched i0 (map snap_prompt batch) (map (fun _ => 0) batch) e = (res, e') ->
  engine_ok e -> Forall (fun x => snap_prompt x <> []) batch ->
  map fst batch = seq i0 (length batch) ->
  engine_ok e' /\ (forall i, i ∉ map fst batch -> same_slot e e' i) /\
  match res with
  | Throw _ => True
  | Ok outs => forall k i pr rq, batch !! k = Some (i, (pr, rq)) ->
      holds e' i pr /\
      (greedyIn e i -> greedyIn e' i /\ fst (nth k outs ((-1)%Z, noLogprobs)) = next pr)
  end.
Proof.
  intros [Hlaw _] Hb He Hne Hseq.
  destruct (law_batched Hlaw _ _ _ _ _ _ Hb He) as (E1 & G1 & F1 & K1).
  { by rewrite !length_map. }
  { by apply Forall_map. }
  split; [done|]. rewrite length_map in F1. split.
  { intros i Hi. apply F1. rewrite Hseq, elem_of_seq in Hi. lia. }
  destruct res as [outs|]; [|done]. intros k i pr rq Hk.
  assert (Hi : i = i0 + k).
  { assert (Hf : map fst batch !! k = Some i) by (by rewrite list_lookup_fmap, Hk).
    rewrite Hseq in Hf. apply lookup_seq in Hf. lia. }
  subst i. destruct (K1 k pr 0 []) as [H1 H2].
  - by rewrite list_lookup_fmap, Hk.
  - by rewrite list_lookup_fmap, Hk.
  - split; [done|by left].
  - split; [done|]. intros Hg. split; [by apply G1|]. destruct (H2 Hg) as [lp Hlp].
    by rewrite (nth_lookup_Some _ _ _ _ Hlp).
Qed.

Lemma good_batch c i0 batch rest pend d b0 b : batch <> [] ->
  good c (snapped c (batch ++ rest) (map fst (batch ++ rest) ++ pend)) d b0 b ->
  NoDup (map fst (batch ++ rest) ++ pend) -> map fst batch = seq i0 (length batch) ->
  Forall (fun x => snap_prompt x <> []) batch ->
  good c (snapped c rest (map fst rest ++ pend)) d b0
    (match prefillSlotsBatched i0 (map snap_prompt batch) (map (fun _ => 0) batch) (engine b) with
     | (Throw ex, e) => failBatch c batch ("prefill failed: " +:+ what ex) (b <| engine := e |>)
     | (Ok outs, e) => commitBatch c batch outs (b <| engine := e |>)
     end).
Proof.
  intros Hb0 Hg Hnd Hseq Hne.
  destruct (prefillSlotsBatched _ _ _ (engine b)) as [res e'] eqn:Hb.
  assert (Hfw : track c -> _) by
    (intros Htr; exact (batch_forward c i0 batch _ res e' Htr Hb (inv_eng _ _ _ (proj1 Hg) Htr)
                          Hne Hseq)).
  rewrite map_app, <- app_assoc in Hnd. apply NoDup_app in Hnd as (Hnd1 & Hdis & Hnd2).
  assert (Hacc : forall i, i ∈ map fst batch ->
      accepts c i (snapped c rest (map fst rest ++ pend))).
  { intros i Hi. apply accepts_snapped. by apply Hdis. }
  destruct (stable_snapped c rest (map fst rest ++ pend)) as [K1 _].
  assert (Hrest : forall i s p r,
      snapped c (batch ++ rest) (map fst (batch ++ rest) ++ pend) (engine b) i s p r ->
      i ∉ map fst batch -> snapped c rest (map fst rest ++ pend) e' i s p r).
  { intros i s p r Hq Hi. eapply K1; [|by eapply snapped_rest]. intros Htr. by apply Hfw. }
  destruct res as [outs|ex].
  - apply good_commitBatch; [apply stable_snapped|done|done|].
    eapply good_view; try done; [intros Htr; by apply Hfw|].
    intros i s p r _ _ Hrun Hq. split.
    + intros (k & i' & pr & rq) Hk Hi'. simpl in Hi'. subst i'.
      apply imap_pair_elem in Hk.
      assert (Hin : (i, (pr, rq)) ∈ batch) by by eapply list_elem_of_lookup_2.
      destruct Hq as [Hst Hsn]. destruct (Hsn pr rq ltac:(set_solver)) as [-> ->].
      assert (Hip : i ∈ map fst batch) by (by apply (list_elem_of_fmap_2 fst _ _ Hin)).
      destruct (settled_awaiting _ _ _ _ _ _ _ Hst ltac:(set_solver))
        as (_ & A1 & A2 & A3 & _ & _ & A4 & A5).
      destruct Hrun as (_ & _ & (B1 & B2 & _) & _). cbn [fst snd snap_req].
      do 4 (split; [done|]). split; [|split; [|split; [done|]]].
      * intros Htr. rewrite <- B2. by eapply (Hfw Htr).
      * intros Htr Hgd. rewrite <- B2. eapply (Hfw Htr); [exact Hk|]. by apply A5.
      * intros Htr Hgd. eapply (Hfw Htr); [exact Hk|]. by apply A5.
    + intros Hall. apply Hrest; [done|]. intros Hi.
      apply list_elem_of_fmap in Hi as ((i' & x) & -> & Hin).
      apply list_elem_of_lookup in Hin as [k Hk].
      apply (Hall (k, (i', x))); [by apply imap_pair_elem|done].
  - apply good_failBatch; [done|apply stable_snapped|done|done|].
    eapply good_view; try done; [intros Htr; by apply Hfw|].
    intros i s p r _ _ Hrun Hq. split.
    + intros (i' & pr & rq) Hin Hi'. simpl in Hi'. subst i'.
      destruct Hq as [Hst Hsn]. destruct (Hsn pr rq ltac:(set_solver)) as [-> ->].
      destruct Hrun as (_ & _ & Hsv & _). split; [apply Hsv|]. by eapply settled_endable.
    + intros Hall. apply Hrest; [done|]. intros Hi.
      apply list_elem_of_fmap in Hi as ((i' & x) & -> & Hin). by apply (Hall (i', x)).
Qed.

Lemma good_runBatchedLoop c pend fuel : forall run i0 d b0 b,
  length run <= fuel -> map fst run = seq i0 (length run) ->
  NoDup (map fst run ++ pend) ->
  good c (snapped c run (map fst run ++ pend)) d b0 b ->
  good c (settled c pend) d b0 (runBatchedLoop fuel c run b).
Proof.
  induction fuel as [|fuel IH]; intros run i0 d b0 b Hf Hseq Hnd Hg.
  { destruct run; [|simpl in Hf; lia]. eapply good_view; try done; [apply Hg|].
    by intros i s p r _ _ _ [H _]. }
  destruct run as [|(i & pr & rq) run]; cbn [runBatchedLoop].
  { eapply good_view; try done; [apply Hg|]. by intros i s p r _ _ _ [H _]. }
  simpl in Hf, Hseq. injection Hseq as Hi Hseq. subst i0.
  assert (Hnd' := Hnd). simpl in Hnd'. apply NoDup_cons in Hnd' as [Hni Hnd'].
  assert (Helse : elsewhere i (snapped c ((i, (pr, rq)) :: run) (i :: map fst run ++ pend))
      (snapped c run (map fst run ++ pend))).
  { intros e j s p r Hne Hq.
    apply (snapped_rest c [(i, (pr, rq))] run pend e j s p r Hq). simpl. set_solver. }
  destruct (negb (bool_decide (is_Some rq)) || (length pr =? 0)) eqn:Hskip.
  { apply (IH run (S i)); [lia|done|done|]. eapply good_skip; [exact Hg|apply stable_snapped|done|].
    intros s Hs. destruct (occupied s) eqn:Ho; [|done].
    destruct (inv_slot _ _ _ (proj1 Hg) i s Hs Ho) as (p & r & (_ & _ & Hsv & _) & _ & Hsn).
    destruct (Hsn pr rq ltac:(by left)) as [-> ->].
    destruct Hsv as (E1 & E2 & _ & _ & _ & Hl). rewrite E1, E2 in Hskip.
    rewrite bool_decide_eq_true_2 in Hskip by eauto. simpl in Hskip. bool_to_prop. lia. }
  apply orb_false_iff in Hskip as [Hrq Hlen]. apply negb_false_iff, bool_decide_eq_true in Hrq.
  destruct Hrq as [h ->]. apply Nat.eqb_neq in Hlen.
  destruct (Nat.ltb_spec (_prefillMaxRows c) (length pr)) as [Hbig|Hfit].
  { apply (IH run (S i)); [lia|done|done|].
    eapply good_prefillSlotAdmitted; [apply stable_snapped|exact Hg| |done|].
    - intros e s p r [Hst _]. eapply settled_awaiting; [done|]. by left.
    - by apply accepts_snapped. }
  destruct (packBatch_first c i pr h run Hlen Hfit) as (batch & rest & Hpk).
  rewrite Hpk. destruct (packBatch_spec _ _ _ _ _ Hpk) as (Heq & Hne & _).
  injection Heq as Heq. subst run.
  assert (Hsb : map fst batch = seq (S i) (length batch)).
  { rewrite map_app, length_app, seq_app in Hseq.
    by apply app_inj_1 in Hseq as [? _]; [|by rewrite length_map, length_seq]. }
  assert (Hsr : map fst rest = seq (S i + length batch) (length rest)).
  { rewrite map_app, length_app, seq_app in Hseq.
    by apply app_inj_1 in Hseq as [_ ?]; [|by rewrite length_map, length_seq]. }
  rewrite length_app in Hf.
  apply (IH rest (S i + length batch)); [lia|done| |].
  { rewrite map_app, <- app_assoc in Hnd'. by apply NoDup_app in Hnd' as (_ & _ & ?). }
  apply (good_batch c i ((i, (pr, Some h)) :: batch) rest pend d b0 b); try done.
  simpl. by rewrite Hsb.
Qed.

Lemma snapshotRun_fst b run : map fst (snapshotRun b run) = run.
Proof. unfold snapshotRun. rewrite map_map. simpl. apply map_id. Qed.

Lemma good_prefillSlotRunBatched c run i0 pend d b0 b :
  run = seq i0 (length run) -> NoDup (run ++ pend) ->
  good c (settled c (run ++ pend)) d b0 b ->
  good c (settled c pend) d b0 (prefillSlotRunBatched c run b).
Proof.
  intros Hseq Hnd Hg. unfold prefillSlotRunBatched.
  destruct (Nat.eqb_spec (length run) 0) as [H0|_].
  { destruct run; [done|simpl in H0; lia]. }
  destruct (good_lock c _ d b0 b (stable_settled c (run ++ pend)) Hg) as (Hg1 & _ & _).
  set (b1 := lock_mtx c b) in *.
  assert (Hl : length (snapshotRun b1 run) = length run) by apply length_map.
  apply (good_runBatchedLoop c pend _ _ i0); rewrite ?snapshotRun_fst, ?Hl; try done.
  eapply good_view; try done; [apply Hg1|]. intros i s p r Hi Ho Hrun Hst. split; [done|].
  intros pr rq Hin. unfold snapshotRun in Hin.
  apply list_elem_of_fmap in Hin as (j & Hj & _). injection Hj as <- Hj.
  rewrite (slot_lookup _ _ _ Hi), Ho in Hj. by injection Hj as <- <-.
Qed.

(** ** The prefill pass *)

Lemma contiguousRuns_spec l :
  concat (contiguousRuns l) = l /\
  Forall (fun run => exists i0, run = seq i0 (length run)) (contiguousRuns l).
Proof.
  induction l as [|x l [IH1 IH2]]; [done|]. simpl.
  destruct (contiguousRuns l) as [|[|y r] rs]; simpl in *.
  - subst l. split; [done|]. constructor; [by exists x|done].
  - split; [by rewrite <- IH1|]. constructor; [by exists x|done].
  - apply Forall_cons in IH2 as [[i0 Hi0] IH2]. simpl in Hi0. injection Hi0 as -> Hi0.
    destruct (Nat.eqb_spec i0 (x + 1)) as [->|]; simpl.
    + split; [by rewrite <- IH1|]. constructor; [|done]. exists x. simpl. do 2 f_equal; [lia|].
      rewrite Hi0 at 1. f_equal. lia.
    + split; [by rewrite <- IH1|]. constructor; [by exists x|]. constructor; [|done].
      exists i0. simpl. by f_equal.
Qed.

Lemma good_prefill_runs c runs pend : forall d b0 b,
  Forall (fun run => exists i0, run = seq i0 (length run)) runs ->
  NoDup (concat runs ++ pend) -> good c (settled c (concat runs ++ pend)) d b0 b ->
  good c (settled c pend) d b0 (fold_left (fun b run => prefillSlotRunBatched c run b) runs b).
Proof.
  induction runs as [|run runs IH]; intros d b0 b Hr Hnd Hg; [done|].
  apply Forall_cons in Hr as [[i0 Hi0] Hr]. simpl in *. rewrite <- app_assoc in Hnd, Hg.
  apply IH; [done| |].
  - by apply NoDup_app in Hnd as (_ & _ & ?).
  - by eapply good_prefillSlotRunBatched.
Qed.

Lemma good_runPrefills c l d b0 b : NoDup l ->
  good c (settled c l) d b0 b -> good c (settled c []) d b0 (runPrefills c l b).
Proof.
  intros Hnd Hg. unfold runPrefills. destruct (_ || _).
  - destruct (contiguousRuns_spec l) as [H1 H2].
    apply good_prefill_runs; [done|by rewrite H1, app_nil_r|by rewrite H1, app_nil_r].
  - apply good_prefill_each; by rewrite app_nil_r.
Qed.

(** ** Choosing slots *)

(** What the constructor guarantees about a configuration, given that an engine
    with a mixed-row budget has chunked prefill. *)
Record wf_config (c : Config) : Prop := {
  wf_batch : 0 < _maxBatch c;
  wf_inflight : _maxBatch c <= _maxInflight c;
  wf_mixed : _mixedStep c = true -> 0 < _prefillChunk c /\ 0 < _prefillMaxRows c;
}.

(** A slot that can be given away. *)
Definition free_at (b : t) (i : nat) : Prop :=
  exists s, _slots b !! i = Some s /\ occupied s = false.

Lemma slot_in_range b i s : i < length (_slots b) -> slot b i = s -> _slots b !! i = Some s.
Proof.
  intros Hi <-. unfold slot. destruct (_slots b !! i) as [x|] eqn:H.
  - by rewrite (nth_lookup_Some _ _ _ _ H).
  - apply lookup_ge_None in H. lia.
Qed.

Lemma warm_scan b p l : forall best bestPos bestTick,
  (forall i, best = Some i -> free_at b i /\ 0 < bestPos < length p) ->
  Forall (fun i => i < length (_slots b)) l ->
  let '(best', bestPos', _) := fold_left (warmCandidate b p) l (best, bestPos, bestTick) in
  forall i, best' = Some i -> free_at b i /\ 0 < bestPos' < length p.
Proof.
  induction l as [|j l IH]; intros best bestPos bestTick Hb Hl; [exact Hb|].
  apply Forall_cons in Hl as [Hj Hl]. cbn [fold_left].
  assert (Hs : let '(b1, p1, _) := warmCandidate b p (best, bestPos, bestTick) j in
      forall i, b1 = Some i -> free_at b i /\ 0 < p1 < length p).
  { unfold warmCandidate. cbn zeta.
    destruct (negb (resident (slot b j)) || occupied (slot b j)) eqn:H1; [exact Hb|].
    set (l' := lcp _ _). destruct ((l' =? 0) || (length p <=? l')); [exact Hb|].
    set (k := slotCkptBestPos _ _ _).
    destruct ((k =? 0) || (length p <=? k)) eqn:H2; [exact Hb|].
    destruct ((bestPos <? k) || _); [|exact Hb]. intros i [= <-].
    apply orb_false_iff in H1 as [_ H1]. apply orb_false_iff in H2 as [H2 H3]. bool_to_prop.
    split; [|lia]. exists (slot b j). split; [by apply slot_in_range|done]. }
  destruct (warmCandidate b p (best, bestPos, bestTick) j) as [[b1 p1] t1]. by apply IH.
Qed.

(** The warm slot found is resident, free, and resumes strictly inside the
    prompt. *)
Lemma findWarmSlot_spec c b p i start :
  findWarmSlot c b p = (Some i, start) -> free_at b i /\ 0 < start < length p.
Proof.
  unfold findWarmSlot. destruct (_ || _); [done|].
  pose proof (warm_scan b p (seq 0 (length (_slots b))) None 0 0%N) as H.
  destruct (fold_left _ _ _) as [[best pos'] tick]. intros [= -> ->]. apply H; [done| |done].
  apply Forall_forall. intros j Hj. apply elem_of_seq in Hj. lia.
Qed.

Lemma cold_scan b l : forall nr lru tick,
  (forall i, nr = Some i \/ lru = Some i -> free_at b i) ->
  Forall (fun i => i < length (_slots b)) l ->
  let '(nr', lru', _) := fold_left (coldCandidate b) l (nr, lru, tick) in
  (forall i, nr' = Some i \/ lru' = Some i -> free_at b i) /\
  (nr' = None -> lru' = None -> nr = None /\ lru = None /\
   forall i, i ∈ l -> occupied (slot b i) = false -> (tick <= residentTick (slot b i))%N).
Proof.
  induction l as [|j l IH]; intros nr lru tick Hb Hl.
  { split; [done|]. intros -> ->. split; [done|]. split; [done|]. set_solver. }
  apply Forall_cons in Hl as [Hj Hl]. cbn [fold_left].
  assert (Hself : occupied (slot b j) = false -> free_at b j).
  { intros Ho. exists (slot b j). split; [by apply slot_in_range|done]. }
  assert (Hstep : exists nr1 lru1 tick1, coldCandidate b (nr, lru, tick) j = (nr1, lru1, tick1) /\
    (forall i, nr1 = Some i \/ lru1 = Some i -> free_at b i) /\
    (nr1 = None -> lru1 = None -> nr = None /\ lru = None /\ tick1 = tick /\
     (occupied (slot b j) = false -> (tick <= residentTick (slot b j))%N))).
  { unfold coldCandidate. destruct (occupied (slot b j)) eqn:Ho.
    { exists nr, lru, tick. done. }
    destruct (negb (resident (slot b j))).
    { eexists _, lru, tick. split; [done|]. split; [|by destruct nr].
      intros i [H|H]; [|by apply Hb; right]. destruct nr; [by apply Hb; left|].
      injection H as <-. by apply Hself. }
    destruct (N.ltb_spec (residentTick (slot b j)) tick).
    { eexists nr, _, _. split; [done|]. split; [|done].
      intros i [H'|[= <-]]; [by apply Hb; left|by apply Hself]. }
    exists nr, lru, tick. done. }
  destruct Hstep as (nr1 & lru1 & tick1 & -> & Hb1 & Hn1).
  specialize (IH nr1 lru1 tick1 Hb1 Hl). destruct (fold_left _ _ _) as [[nr' lru'] tick'].
  destruct IH as [IH1 IH2]. split; [done|]. intros H1 H2.
  destruct (IH2 H1 H2) as (A & B & C). destruct (Hn1 A B) as (A' & B' & -> & D).
  split; [done|]. split; [done|]. intros i [->|Hi]%elem_of_cons; [done|by apply C].
Qed.

Lemma pickColdSlot_Some b i : pickColdSlot b = Some i -> free_at b i.
Proof.
  unfold pickColdSlot.
  pose proof (cold_scan b (seq 0 (length (_slots b))) None None (2 ^ 64 - 1)%N) as H.
  destruct (fold_left _ _ _) as [[nr lru] tick]. intros Hi. apply H.
  - by intros j [?|?].
  - apply Forall_forall. intros j Hj. apply elem_of_seq in Hj. lia.
  - destruct nr; [by left|by right].
Qed.

(** Unless the recency clock has saturated, a free slot is always found. *)
Lemma pickColdSlot_None b i :
  pickColdSlot b = None -> free_at b i -> (2 ^ 64 - 1 <= residentTick (slot b i))%N.
Proof.
  unfold pickColdSlot. intros Hn (s & Hi & Ho).
  pose proof (cold_scan b (seq 0 (length (_slots b))) None None (2 ^ 64 - 1)%N) as H.
  destruct (fold_left _ _ _) as [[nr lru] tick]. destruct nr; [done|].
  destruct H as [_ H].
  - by intros j [?|?].
  - apply Forall_forall. intros j Hj. apply elem_of_seq in Hj. lia.
  - destruct (H eq_refl Hn) as (_ & _ & H'). apply H'.
    + apply elem_of_seq. apply lookup_lt_Some in Hi. lia.
    + by rewrite (slot_lookup _ _ _ Hi).
Qed.

(** ** Admission *)

(** The slot [s'] a request [p] gets in place of [s]. *)
Definition fresh_slot (c : Config) (p : Pending) (start : nat) (s s' : Slot) : Prop :=
  occupied s' = true /\ req s' = Some (p_req p) /\ prompt s' = p_prompt p /\
  promptLen s' = length (p_prompt p) /\ maxNew s' = p_maxNew p /\ stopIds s' = p_stopIds p /\
  pos s' = 0 /\ produced s' = 0 /\ prefillPos s' = 0 /\ prefillStart s' = start /\
  residentTick s' = residentTick s /\ think s' = think (snd (ref c p 0)).

Lemma admitInto_fresh c p start payload s : fresh_slot c p start s (admitInto c p start payload s).
Proof.
  unfold fresh_slot, admitInto. cbv zeta.
  set (s1 := s <| occupied := true |> <| resident := false |> <| xslotPayload := payload |>
               <| req := Some (p_req p) |> <| prompt := p_prompt p |>
               <| promptLen := length (p_prompt p) |>).
  assert (Hi : initThinkState c s1 = with_think s1 (initThinkState c s1)).
  { unfold initThinkState. destruct (_ || _ || _); [think_only|].
    destruct (lastThink _ _ _ _ _). think_only. }
  assert (Ht : think (initThinkState c s1) = think (snd (ref c p 0)))
    by (apply init_think; reflexivity).
  revert Hi Ht. generalize (initThinkState c s1). intros s2 -> Ht.
  repeat (split; [reflexivity|]). exact Ht.
Qed.

Lemma fresh_clear c p start s s' l :
  fresh_slot c p start s s' -> fresh_slot c p start s (s' <| residentTokens := l |>).
Proof. intros H. exact H. Qed.

(** The state of an admission pass: [n] requests admitted since [b0], the slots
    [tp] among them to prefill eagerly. *)
Definition admitted_ok (c : Config) (b0 : t) (x : nat * list nat * t) : Prop :=
  let '(n, tp, b) := x in
  good c (settled c tp) n b0 b /\ NoDup tp /\
  (forall i, i ∈ tp -> occupied (slot b i) = true) /\
  (n = 0 -> tp = [] /\ _slots b = _slots b0 /\ _waiting b = _waiting b0).

(** The phase of a freshly admitted slot. *)
Lemma admitted_settled c tp e i s0 s p r start (push : bool) :
  fresh_slot c p start s0 s -> start < length (p_prompt p) -> i ∉ tp ->
  (push = true -> 0 < _prefillChunk c) ->
  (push = false -> _prefillChunk c = 0 \/ _mixedStep c = true) ->
  (_mixedStep c = true -> 0 < _prefillChunk c) -> tokens r = [] ->
  fed c e i (take start (p_prompt p)) -> greedy_ok c e i p ->
  settled c (pushPrefill push i tp) e i s p r.
Proof.
  intros (Ho & Hq & Hpr & Hpl & _ & _ & Hpos & Hpd & Hpp & Hps & _ & Hth) Hst Hi Hpush Hno Hmx
    Htk Hfed Hgr.
  split; [|split; [|done]].
  - destruct push; simpl.
    + apply Eager; try done; [set_solver|by apply Hpush|lia|]. by rewrite Hps, Hpr.
    + assert (H0 : fed c e i []) by (intros _; by left).
      destruct (_mixedStep c) eqn:Hm.
      * apply Mixed; try done; [lia|]. by rewrite Hpp.
      * apply Ingest; try done; [lia|]. by rewrite Hpos.
  - intros _ _. by rewrite Htk.
Qed.

(** One admission: [b'] is [b] with [p] moved from the queue to the free slot
    [i]. *)
Lemma admit_one c b0 n tp b b' kept p rest i s s' start push : wf_config c ->
  admitted_ok c b0 (n, tp, b <| _waiting := kept ++ p :: rest |>) ->
  _slots b !! i = Some s -> occupied s = false -> fresh_slot c p start s s' ->
  start < length (p_prompt p) -> (push = true -> 0 < _prefillChunk c) ->
  (push = false -> _prefillChunk c = 0 \/ _mixedStep c = true) ->
  _slots b' = <[i := s']> (_slots b) -> reqs b' = reqs b -> submitted b' = submitted b ->
  script_mtx b' = script_mtx b -> script_req b' = script_req b -> _running b' = _running b ->
  _warmTick b' = _warmTick b ->
  (track c -> engine_ok (engine b) ->
    engine_ok (engine b') /\ (forall j, j <> i -> same_slot (engine b) (engine b') j) /\
    (start = 0 \/ holds (engine b') i (take start (p_prompt p))) /\
    (greedy p = true -> greedyIn (engine b') i)) ->
  admitted_ok c b0 (S n, pushPrefill push i tp, b' <| _waiting := kept ++ rest |>).
Proof.
  intros Hwf (Hg & Hnd & Hocc & _) Hi Ho Hf Hst Hpush Hno Hs Hr Hsub Hm Hq Hrn Htk Hen.
  assert (Hni : i ∉ tp).
  { intros Hin. specialize (Hocc i Hin).
    change (occupied (slot b i) = true) in Hocc. rewrite (slot_lookup _ _ _ Hi) in Hocc.
    congruence. }
  assert (Heng : track c -> engine_ok (engine b)) by apply Hg.
  pose proof (inv_wait _ _ _ (proj1 Hg) p ltac:(cbn; set_solver)) as (_ & _ & _ & _ & _ & _ & Hlen).
  split; [|split; [|split; [|done]]].
  - eapply (good_admit c (settled c tp) (settled c (pushPrefill push i tp)) n b0
      (b <| _waiting := kept ++ p :: rest |>) _ kept p rest i s s'); try done.
    + apply Hf.
    + intros Htr. apply Hen; [done|by apply Heng].
    + intros j sj pj rj Hj Hoj Hne Hsj. eapply settled_change.
      * eapply (proj1 (stable_settled c tp)); [|done]. intros Htr. by apply Hen, Hne; [|apply Heng].
      * destruct push; simpl; set_solver.
    + apply Hf.
    + destruct Hf as (_ & F1 & F2 & F3 & F4 & F5 & _). done.
    + intros r _ _ Hrt. eapply admitted_settled; try done.
      * intros Hmx. by apply Hwf.
      * intros Htr. destruct (Hen Htr (Heng Htr)) as (_ & _ & [->|H] & _); [by left|by right].
      * intros Htr Hgd. by apply (Hen Htr (Heng Htr)).
  - destruct push; simpl; [|done]. apply NoDup_app. split; [done|]. split; [set_solver|].
    apply NoDup_singleton.
  - intros j Hj.
    assert (Hlk : slot (b' <| _waiting := kept ++ rest |>) j = if decide (i = j) then s' else slot b j).
    { unfold slot. cbn. rewrite Hs, !nth_lookup. case_decide as Hd; [subst|].
      - by rewrite list_lookup_insert_eq by by eapply lookup_lt_Some.
      - by rewrite list_lookup_insert_ne. }
    rewrite Hlk. case_decide as Hd; [apply Hf|]. apply Hocc.
    destruct push; simpl in Hj; set_solver.
Qed.

Lemma good_admitWarmLoop c b0 : wf_config c -> _warmSlot c = true ->
  forall rest kept n tp b,
  admitted_ok c b0 (n, tp, b <| _waiting := kept ++ rest |>) ->
  admitted_ok c b0 (admitWarmLoop c kept rest n tp b).
Proof.
  intros Hwf Hwarm. induction rest as [|p rest IH]; intros kept n tp b H; cbn [admitWarmLoop].
  { by rewrite app_nil_r in H. }
  destruct (admitCapReached c n); [done|].
  destruct (findWarmSlot c b (p_prompt p)) as [[ws|] start] eqn:Hf; cycle 1.
  { apply IH. by rewrite <- app_assoc. }
  apply findWarmSlot_spec in Hf as ((s & Hi & Ho) & Hst). apply IH.
  eapply (admit_one c b0 n tp b _ kept p rest ws s (admitInto c p start 0%N s) start); try done.
  - apply admitInto_fresh.
  - lia.
  - intros Hp. bool_to_prop. lia.
  - intros Hp. left. apply andb_false_iff in Hp as [Hp|Hp]; bool_to_prop; lia.
  - by apply (alter_as_insert (admitInto c p start 0%N)).
  - intros [_ Htr]. congruence.
Qed.

(** The engine changes only at slots that are not running. *)
Lemma admitted_engine c b0 n tp b w e' :
  admitted_ok c b0 (n, tp, b <| _waiting := w |>) ->
  (track c -> engine_ok (engine b) -> engine_ok e' /\
    forall j s, _slots b !! j = Some s -> occupied s = true -> same_slot (engine b) e' j) ->
  admitted_ok c b0 (n, tp, (b <| engine := e' |>) <| _waiting := w |>).
Proof.
  intros (Hg & H) He. split; [|done]. assert (Heng : track c -> engine_ok (engine b)) by apply Hg.
  eapply good_view; try done.
  - intros Htr. by apply He, Heng.
  - intros i s p r Hi Ho _ Hs. eapply (proj1 (stable_settled c tp)); [|done].
    intros Htr. by eapply He; [|apply Heng| |].
Qed.

Lemma law_configure' c i p e : track c -> engine_ok e ->
  engine_ok (configureSlot i p e) /\ (forall j l, holds e j l -> holds (configureSlot i p e) j l) /\
  (forall j, j <> i -> same_slot e (configureSlot i p e) j) /\
  (greedy p = true -> greedyIn (configureSlot i p e) i).
Proof.
  intros [Hl _] He.
  destruct (law_configure Hl i (p_sampling p) (p_constraint p) (p_prompt p) e He) as (A & B & C & D).
  split; [done|]. split; [done|]. split; [|done]. intros j Hj. split; [apply B|by apply C].
Qed.

Lemma good_admitCrossLoop c b0 : wf_config c ->
  forall rest kept n tp b,
  admitted_ok c b0 (n, tp, b <| _waiting := kept ++ rest |>) ->
  admitted_ok c b0 (admitCrossLoop c kept rest n tp b).
Proof.
  intros Hwf. induction rest as [|p rest IH]; intros kept n tp b H; cbn [admitCrossLoop].
  { by rewrite app_nil_r in H. }
  destruct (admitCapReached c n); [done|].
  destruct (lookupPrefixImage (p_prompt p) (engine b)) as [hit e1] eqn:Hlk.
  assert (H1 : admitted_ok c b0 (n, tp, (b <| engine := e1 |>) <| _waiting := kept ++ p :: rest |>)).
  { apply admitted_engine; [done|]. intros [Hl _] He.
    destruct (law_lookup Hl _ _ _ _ Hlk He) as (A & B & _). split; [done|]. intros; apply B. }
  assert (Hskip : forall e, admitted_ok c b0
      (n, tp, (b <| engine := e |>) <| _waiting := kept ++ p :: rest |>) ->
      admitted_ok c b0 (admitCrossLoop c (kept ++ [p]) rest n tp (b <| engine := e |>))).
  { intros e He. apply IH. by rewrite <- app_assoc. }
  destruct hit as [[xpos xpid]|]; [|by apply Hskip].
  destruct ((xpos =? 0) || (length (p_prompt p) <=? xpos)) eqn:Hx; [by apply Hskip|].
  apply orb_false_iff in Hx as [Hx1 Hx2]. bool_to_prop.
  destruct (pickColdSlot (b <| engine := e1 |>)) as [i|] eqn:Hpick; [|exact H1].
  apply pickColdSlot_Some in Hpick as (s & Hi & Ho).
  cbn [engine set_field set_engine].
  destruct (restorePrefixImageToSlot i xpid e1) as [ok e2] eqn:Hrs.
  assert (H2 : admitted_ok c b0 (n, tp, (b <| engine := e2 |>) <| _waiting := kept ++ p :: rest |>)).
  { change (b <| engine := e2 |>) with ((b <| engine := e1 |>) <| engine := e2 |>).
    apply admitted_engine; [done|]. intros [Hl _] He.
    destruct (law_restore Hl _ _ _ _ _ Hrs He) as (A & B). split; [done|].
    intros j sj Hj Hoj. apply B. intros ->. cbn in Hj, Hi. congruence. }
  destruct ok; [|by apply Hskip].
  apply IH.
  eapply (admit_one c b0 n tp (b <| engine := e2 |>) _ kept p rest i s
            (admitInto c p xpos xpid s) xpos); try done.
  - apply admitInto_fresh.
  - intros Hp. bool_to_prop. lia.
  - intros Hp. left. apply andb_false_iff in Hp as [Hp|Hp]; bool_to_prop; lia.
  - by apply (alter_as_insert (admitInto c p xpos xpid)).
  - intros Htr He2. cbn [engine set_field set_engine] in He2 |- *.
    assert (He0 : engine_ok (engine b)) by by apply (proj1 H).
    pose proof Htr as [Hl _]. destruct (law_lookup Hl _ _ _ _ Hlk He0) as (_ & _ & Hh).
    specialize (Hh xpos xpid i e2 eq_refl Hrs).
    destruct (law_acquire Hl xpid e2 He2) as [A1 A2].
    destruct (law_clear Hl i _ A1) as [B1 B2].
    destruct (law_configure' c i p _ Htr B1) as (C1 & C2 & C3 & C4).
    split; [done|]. split; [|split; [|done]].
    + intros j Hj. eapply same_slot_trans; [apply A2|].
      eapply same_slot_trans; [apply B2|by apply C3].
    + right. by apply C2, B2, A2.
Qed.

Lemma good_admitColdLoop c b0 pressure : wf_config c ->
  forall rest n tp b,
  admitted_ok c b0 (n, tp, b <| _waiting := rest |>) ->
  admitted_ok c b0 (admitColdLoop c rest pressure n tp b).
Proof.
  intros Hwf. induction rest as [|p rest IH]; intros n tp b H; cbn [admitColdLoop]; [done|].
  destruct (admitCapReached c n); [done|].
  destruct (pickColdSlot b) as [i|] eqn:Hpick; [|done].
  apply pickColdSlot_Some in Hpick as (s & Hi & Ho).
  pose proof (inv_wait _ _ _ (proj1 (proj1 H)) p ltac:(cbn; set_solver))
    as (_ & _ & _ & _ & _ & _ & Hlen).
  apply IH.
  eapply (admit_one c b0 n tp b _ [] p rest i s
            ((admitInto c p 0 0%N s) <| residentTokens := [] |>) 0); try done.
  - apply fresh_clear, admitInto_fresh.
  - lia.
  - intros Hp. bool_to_prop. lia.
  - intros Hp. unfold eagerPrefill in Hp.
    apply andb_false_iff in Hp as [Hp|Hp].
    + apply andb_false_iff in Hp as [Hp|Hp]; bool_to_prop; [left; lia|lia].
    + right. bool_to_prop. done.
  - by apply (alter_as_insert (fun s => (admitInto c p 0 0%N s) <| residentTokens := [] |>)).
  - intros Htr He. pose proof Htr as [Hl _].
    destruct (law_clear Hl i _ He) as [B1 B2].
    destruct (law_configure' c i p _ Htr B1) as (C1 & C2 & C3 & C4).
    split; [done|]. split; [|split; [by left|done]].
    intros j Hj. eapply same_slot_trans; [apply B2|by apply C3].
Qed.

Lemma pickColdSlot_slots b b' : _slots b' = _slots b -> pickColdSlot b' = pickColdSlot b.
Proof. intros H. unfold pickColdSlot, coldCandidate, slot. by rewrite H. Qed.

Lemma admitColdLoop_count c pressure rest : forall n tp b,
  n <= fst (fst (admitColdLoop c rest pressure n tp b)) /\
  (fst (fst (admitColdLoop c rest pressure n tp b)) = 0 -> rest = [] \/ pickColdSlot b = None).
Proof.
  induction rest as [|p rest IH]; intros n tp b; cbn [admitColdLoop]; [split; [done|by left]|].
  destruct (admitCapReached c n) eqn:Hcap.
  { split; [done|]. simpl. intros ->. unfold admitCapReached in Hcap. bool_to_prop. lia. }
  destruct (pickColdSlot b) as [i|] eqn:Hp; [|split; [done|by right]].
  match goal with |- context [admitColdLoop c rest pressure (S n) ?x ?y] =>
    destruct (IH (S n) x y) as [H1 H2] end.
  split; [lia|]. intros H. rewrite H in H1. lia.
Qed.

(** The whole admission section. *)
Lemma good_admission c b : wf_config c -> inv c (settled c []) b ->
  let '(tp, b') := admission c b in
  exists n, good c (settled c tp) n b b' /\ NoDup tp /\
    (n = 0 -> tp = [] /\ _slots b' = _slots b /\
              (_waiting b = [] \/ pickColdSlot b = None)).
Proof.
  intros Hwf Hinv. unfold admission.
  assert (H0 : admitted_ok c b (0, [], b)).
  { split; [by apply good_refl|]. split; [constructor|]. split; [set_solver|done]. }
  assert (Heta : forall x : t, x <| _waiting := _waiting x |> = x) by by intros [].
  assert (H1 : admitted_ok c b (admitWarmSlots c 0 [] b)).
  { unfold admitWarmSlots. destruct (_warmSlot c) eqn:Hw; [|done].
    apply good_admitWarmLoop; try done. simpl app. by rewrite Heta. }
  destruct (admitWarmSlots c 0 [] b) as [[n1 tp1] b1].
  assert (H2 : admitted_ok c b (admitCrossSlots c n1 tp1 b1)).
  { unfold admitCrossSlots. destruct (_xslot c); [|done].
    apply good_admitCrossLoop; try done. simpl app. by rewrite Heta. }
  destruct (admitCrossSlots c n1 tp1 b1) as [[n2 tp2] b2].
  pose proof (admitColdLoop_count c (prefillPressureOf c b) (_waiting b2) n2 tp2 b2) as [H4 H5].
  assert (H3 : admitted_ok c b (admitColdSlots c (prefillPressureOf c b) n2 tp2 b2)).
  { unfold admitColdSlots. apply good_admitColdLoop; try done. by rewrite Heta. }
  unfold admitColdSlots in *.
  destruct (admitColdLoop c (_waiting b2) _ n2 tp2 b2) as [[n3 tp3] b3]. cbn [fst] in H4, H5.
  destruct H3 as (G1 & G2 & _ & G4). exists n3. split; [done|]. split; [done|].
  intros ->. destruct (G4 eq_refl) as (-> & G5 & _). split; [done|]. split; [done|].
  assert (n2 = 0) as -> by lia. destruct H2 as (_ & _ & _ & H2).
  destruct (H2 eq_refl) as (_ & Hs & Hw). rewrite <- Hw, <- (pickColdSlot_slots _ _ Hs).
  by apply H5.
Qed.

(** ** Emitting a token *)

(** [s0] is [s] with its positions moved. *)
Definition moved (s s0 : Slot) : Prop :=
  occupied s0 = occupied s /\ req s0 = req s /\ prompt s0 = prompt s /\
  promptLen s0 = promptLen s /\ maxNew s0 = maxNew s /\ stopIds s0 = stopIds s /\
  residentTick s0 = residentTick s /\ produced s0 = produced s /\ think s0 = think s.

(** The slot after a token: [s1] with the token as its last one. *)
Definition after_token (s1 : Slot) (tk : Z) : Slot :=
  s1 <| lastTok := tk |> <| produced := S (produced s1) |>.

Lemma after_token_facts c s0 raw s1 tk :
  applyThinkBudget c s0 raw = (s1, tk) ->
  let s2 := after_token s1 tk in
  occupied s2 = occupied s0 /\ req s2 = req s0 /\ prompt s2 = prompt s0 /\
  promptLen s2 = promptLen s0 /\ maxNew s2 = maxNew s0 /\ stopIds s2 = stopIds s0 /\
  residentTick s2 = residentTick s0 /\ produced s2 = S (produced s0) /\ lastTok s2 = tk /\
  pos s2 = pos s0 /\ prefillPos s2 = prefillPos s0 /\ think s2 = think s1.
Proof.
  intros Ha. pose proof (apply_with_think c s0 raw) as Hw. rewrite Ha in Hw. cbn [fst] in Hw.
  rewrite Hw. done.
Qed.

Definition push_token (tk : Z) (lp : TokenLogprobs) (q : ServingRequest) : ServingRequest :=
  q <| tokens := tokens q ++ [tk] |> <| logprobs := logprobs q ++ [lp] |>.

(** The common end of the decode step and the mixed step for one slot: the token
    goes out, then the slot is freed or moves to [s3]. *)
Lemma good_emit c Q Q' d b0 b i s p r s0 raw lp s1 tk full s3 drop :
  stable c Q -> good c Q d b0 b -> _slots b !! i = Some s -> occupied s = true ->
  running c b s p r -> length (tokens r) = length (logprobs r) ->
  moved s s0 -> produced s = length (tokens r) -> nostop c p (tokens r) -> stream_ok c p s r ->
  (track c -> greedy p = true -> raw = next (p_prompt p ++ tokens r)) ->
  applyThinkBudget c s0 raw = (s1, tk) ->
  full = (_maxContext c <=? promptLen s + S (length (tokens r))) ->
  frees c drop -> 0 < slot_work c s -> elsewhere i Q Q' -> accepts c i Q' ->
  (track c -> holds (engine b) i (p_prompt p ++ tokens r)) -> greedy_ok c (engine b) i p ->
  moved (after_token s1 tk) s3 -> lastTok s3 = tk -> pos s3 = promptLen s + length (tokens r) ->
  prefillPos s3 <= promptLen s -> (_mixedStep c = true -> prefillPos s3 = promptLen s) ->
  Nat.max (pos s) (prefillPos s) < pos s3 ->
  good c Q' (d + 1) b0
    (let b := upd_slot_req i (push_token tk lp) b in
     if stopCond c tk (after_token s1 tk) full
     then drop i (upd_slot_req i (fun q => q <| done := true |>)
                    (upd_slot i (fun _ => after_token s1 tk) b))
     else upd_slot i (fun _ => s3) b).
Proof.
  intros HQ Hg Hi Ho Hrun Hlp Hm0 Hpd Hns Hstr Hraw Ha Hfull Hfr Hwk Helse Hacc Hh Hgr Hm3
    Hl3 Hp3 Hpp3 Hmx Hadv.
  pose proof (after_token_facts c s0 raw s1 tk Ha) as
    (F1 & F2 & F3 & F4 & F5 & F6 & F7 & F8 & F9 & F10 & F11 & F12).
  destruct Hm0 as (M1 & M2 & M3 & M4 & M5 & M6 & M7 & M8 & M9).
  set (s2 := after_token s1 tk) in *. clearbody s2.
  pose proof Hrun as (Hsub & Hr & Hsv & Hdn & Her). pose proof Hsv as (Hrq & Hpr & Hpl & _).
  assert (Hsv2 : serves c s2 p) by (eapply serves_same; [exact Hsv|..]; congruence).
  set (r1 := push_token tk lp r).
  assert (Hstr2 : stream_ok c p s2 r1).
  { eapply (emit c p s0 r raw); [|exact Hraw|exact Ha|exact F12|done].
    intros Htr Hgd. rewrite M9. by apply Hstr. }
  assert (Hstop : stopCond c tk s2 full = stopNow c p (tokens r ++ [tk])).
  { apply stop_agrees; [done|congruence|]. rewrite Hfull. f_equal. congruence. }
  cbv zeta. rewrite Hstop.
  pose proof (changed_req b i (push_token tk lp) s _ r Hi Hrq Hr) as Hc1. fold r1 in Hc1.
  set (b1 := upd_slot_req i (push_token tk lp) b) in *.
  destruct (changed_look _ _ _ _ _ _ _ _ Hc1 Hi Hr) as [Hi1 Hr1].
  assert (He1 : engine b1 = engine b) by (unfold b1, upd_slot_req; by destruct (req (slot b i))).
  assert (Hlp1 : length (tokens r1) = length (logprobs r1)).
  { unfold r1, push_token. cbn. rewrite !length_app. simpl. lia. }
  assert (Hpre : tokens r `prefix_of` tokens r1) by by eexists.
  destruct (stopNow c p (tokens r ++ [tk])) eqn:Hst.
  - assert (Hc2 : changed b1 (upd_slot i (fun _ => s2) b1) i (p_req p) s2 r1)
      by (apply (changed_slot b1 i (fun _ => s2)  s); [done|done|congruence]).
    pose proof (changed_trans _ _ _ _ _ _ _ _ _ Hc1 Ho Hc2) as Hc3.
    destruct (changed_look _ _ _ _ _ _ _ _ Hc3 Hi Hr) as [Hi3 Hr3].
    pose proof (changed_req _ i (fun q => q <| done := true |>) s2 (p_req p) r1 Hi3
      ltac:(congruence) Hr3) as Hc4.
    assert (Ho2 : occupied s2 = true) by congruence.
    pose proof (changed_trans _ _ _ _ _ _ _ _ _ Hc3 Ho2 Hc4) as Hc5.
    eapply (good_finish c Q Q' d b0 b drop i s p r s2 (r1 <| done := true |>)); try done.
    + rewrite <- He1. unfold upd_slot_req. by destruct (req (slot (upd_slot _ _ _) i)).
    + eapply (fin_ok_stop c p s2 _ (tokens r) tk); [exact Hstr2|done|done|]. right. by right.
  - destruct Hm3 as (N1 & N2 & N3 & N4 & N5 & N6 & N7 & N8 & N9).
    assert (Hc2 : changed b1 (upd_slot i (fun _ => s3) b1) i (p_req p) s3 r1)
      by (apply (changed_slot b1 i (fun _ => s3) s); [done|done|congruence]).
    pose proof (changed_trans _ _ _ _ _ _ _ _ _ Hc1 Ho Hc2) as Hc3.
    assert (Ho3 : occupied s3 = true) by congruence.
    assert (Hroom : pos s3 < _maxContext c).
    { pose proof (nostop_room c p (tokens r) tk (nostop_snoc _ _ _ _ Hns Hst)). lia. }
    eapply (good_change c Q Q' d 1 b0 b _ i s s3 p r r1); try done.
    + by apply keeps_engine_same.
    + rewrite Ho3. split; [eapply serves_same; [exact Hsv|..]; congruence|].
      split; [done|]. split; [done|]. apply Hacc. intros pend Hp.
      split; [|split].
      * eapply (Decode c pend _ i s3 p r1 (tokens r)); try congruence.
        -- unfold r1, push_token. cbn. by rewrite Hl3.
        -- intros Hm. rewrite (Hmx Hm). congruence.
        -- by apply nostop_snoc.
        -- intros Htr. right. cbn. rewrite He1, N3, F3, M3, Hpr. by apply Hh.
      * intros Htr Hgd. destruct (Hstr2 Htr Hgd) as [A B]. split; [exact A|]. by rewrite N9.
      * cbn. by rewrite He1.
    + unfold slot_work. rewrite Ho3, Ho. lia.
    + intros; lia.
Qed.

(** A handled slot that was running is one step of progress. *)
Definition advances {A} (c : Config) (key : A -> nat) (R : A -> slot_prop) (f : A -> t -> t)
    (x : A) : Prop :=
  forall Q Q' d b0 b, stable c Q -> good c Q d b0 b ->
  (forall e s p r, Q e (key x) s p r -> R x e (key x) s p r) ->
  elsewhere (key x) Q Q' -> accepts c (key x) Q' ->
  good c Q' (d + (if occupied (slot b (key x)) then 1 else 0)) b0 (f x b) /\
  (occupied (slot b (key x)) = false -> f x b = b).

Lemma advances_handles {A} c (key : A -> nat) R f x : advances c key R f x -> handles c key R f x.
Proof.
  intros H Q Q' d b0 b HQ Hg HR He Ha. destruct (H Q Q' d b0 b HQ Hg HR He Ha) as [H1 _].
  eapply good_weaken; [done|lia].
Qed.

Lemma good_fold_advance {A} c (key : A -> nat) (R : A -> slot_prop) (f : A -> t -> t) l :
  forall Q' d b0 b,
  (forall x, x ∈ l -> stable c (R x) /\ advances c key R f x /\ accepts c (key x) Q') ->
  stable c Q' -> NoDup (map key l) ->
  good c (todo key R l Q') d b0 b ->
  (exists x, x ∈ l /\ occupied (slot b (key x)) = true) ->
  good c Q' (d + 1) b0 (fold_left (fun b x => f x b) l b).
Proof.
  induction l as [|x l IH]; intros Q' d b0 b Hl HQ' Hnd Hg (y & Hy & Hoy); [set_solver|].
  simpl in Hnd. apply NoDup_cons in Hnd as [Hx Hnd].
  assert (Hl' : forall y, y ∈ l -> stable c (R y) /\ advances c key R f y /\ accepts c (key y) Q')
    by (intros z Hz; apply Hl; by right).
  destruct (Hl x ltac:(by left)) as (HR & Hf & Ha). cbn [fold_left].
  destruct (Hf (todo key R (x :: l) Q') (todo key R l Q') d b0 b) as [Hg1 Hsame]; try done.
  - apply stable_todo; [|done]. intros z Hz. by apply Hl.
  - intros e s p r [H _]. apply H; [by left|done].
  - intros e j s p r Hne [H1 H2]. split.
    + intros z Hz. apply H1. by right.
    + intros H. apply H2. intros z [->|Hz]%elem_of_cons; [done|by apply H].
  - intros e s p r Hs. split; [|intros _; by apply Ha]. intros z Hz Hk.
    destruct Hx. rewrite <- Hk. by apply list_elem_of_fmap_2.
  - destruct (occupied (slot b (key x))) eqn:Hox.
    + apply (good_fold c key R f); try done. intros z Hz. destruct (Hl' z Hz) as (A1 & A2 & A3).
      split; [done|]. split; [by apply advances_handles|done].
    + rewrite Nat.add_0_r in Hg1. rewrite (Hsame eq_refl) in Hg1 |- *.
      apply (IH Q'); try done. exists y. split; [|done].
      apply elem_of_cons in Hy as [->|Hy]; [congruence|done].
Qed.

(** ** Decode step *)

(** A slot after a decode forward whose row for it was [out]: everything up to
    its position is fed. *)
Definition stepped (c : Config) (out : Z * TokenLogprobs) : slot_prop := fun e i s p r =>
  produced s = length (tokens r) /\ nostop c p (tokens r) /\ prefillPos s <= promptLen s /\
  (tokens r = [] /\ pos s < promptLen s /\ prefillPos s = 0 /\ _mixedStep c = false \/
   pos s + 1 = promptLen s + length (tokens r) /\ promptLen s <= pos s /\
   (_mixedStep c = true -> prefillPos s = promptLen s)) /\
  (track c -> holds e i (take (S (pos s)) (p_prompt p ++ tokens r)) /\
    (greedy p = true -> fst out = next (take (S (pos s)) (p_prompt p ++ tokens r)))) /\
  stream_ok c p s r /\ greedy_ok c e i p.

Lemma stable_stepped c out : stable c (stepped c out).
Proof.
  split.
  - intros e e' i s p r Hs (H1 & H2 & H3 & H4 & H5 & H6 & H7).
    do 4 (split; [done|]). split; [|split; [done|by eapply greedy_same]].
    intros Htr. destruct (H5 Htr). split; [|done]. by apply Hs.
  - intros e i s p r H. exact H.
Qed.

(** A cancelled request is dropped at its next commit. *)
Lemma good_cancelled c Q Q' d b0 b i s p r drop :
  stable c Q -> good c Q d b0 b -> _slots b !! i = Some s -> occupied s = true ->
  running c b s p r -> endable c s p r -> length (tokens r) = length (logprobs r) ->
  cancelled r = true -> frees c drop -> elsewhere i Q Q' ->
  good c Q' (d + 1) b0 (drop i (upd_slot_req i (finish EmptyString) b)).
Proof.
  intros HQ Hg Hi Ho Hrun Hend Hlp Hcan Hfr Helse.
  pose proof Hrun as (_ & Hr & (Hrq & _) & _).
  eapply (good_finish c Q Q' d b0 b drop i s p r s (finish EmptyString r)); try done.
  - by apply changed_req.
  - unfold upd_slot_req. by destruct (req (slot b i)).
  - eapply (fin_ok_ended c p s); [apply Hend|apply Hend|]. by left.
  - by eapply endable_work.
Qed.

Lemma stepped_endable c out e i s p r :
  stepped c out e i s p r -> serves c s p -> endable c s p r.
Proof.
  intros (_ & Hn & Hpp & Hph & _ & Hs & _) (_ & _ & Hl & _ & _ & Hlen).
  split; [done|]. split; [done|]. destruct Hph as [(_ & H1 & H2 & _)|(H1 & H2 & _)]; [lia|].
  destruct (tokens r) as [|x l _] eqn:Ht using rev_ind; [simpl in H1; lia|].
  apply nostop_room in Hn. rewrite length_app in H1. simpl in H1. lia.
Qed.

Lemma decodeCommit_unfold c i out b :
  decodeCommit c i out b =
  if negb (occupied (slot b i)) then b
  else
    let s := slot b i in
    let b := lock_req b in
    if slot_cancelled b i then retireSlot c i false (upd_slot_req i (finish EmptyString) b)
    else if promptLen s <=? pos s + 1 then
      let s1 := fst (applyThinkBudget c s (fst out)) in
      let tk := snd (applyThinkBudget c s (fst out)) in
      let b := upd_slot_req i (push_token tk (snd out)) b in
      if stopCond c tk (after_token s1 tk) (_maxContext c <=? pos (after_token s1 tk) + 2)
      then retireSlot c i true (upd_slot_req i (fun q => q <| done := true |>)
                                  (upd_slot i (fun _ => after_token s1 tk) b))
      else upd_slot i (fun _ => (after_token s1 tk) <| pos := S (pos (after_token s1 tk)) |>) b
    else upd_slot i (fun s => s <| pos := S (pos s) |>) b.
Proof.
  unfold decodeCommit. cbv zeta. destruct (negb _); [done|]. destruct (slot_cancelled _ _); [done|].
  destruct (_ <=? _); [|done].
  by destruct (applyThinkBudget c (slot b i) (fst out)) as [s1 tk].
Qed.

Lemma advances_decode c out i :
  advances c id (fun i => stepped c (out i)) (fun i => decodeCommit c i (out i)) i.
Proof.
  intros Q Q' d b0 b HQ Hg HR Helse Hacc. unfold id in *. rewrite decodeCommit_unfold.
  destruct (occupied (slot b i)) eqn:Ho; cbn [negb]; cycle 1.
  { split; [|done]. rewrite Nat.add_0_r. eapply (good_skip c Q Q' d b0 b i); try done.
    intros s Hi. by rewrite (slot_lookup _ _ _ Hi) in Ho. }
  split; [|done]. pose proof (occupied_slot _ _ Ho) as Hi0. set (s := slot b i) in *. cbv zeta.
  destruct (good_lock_req c Q d b0 b HQ Hg) as (Hg1 & Hs1 & _). set (b1 := lock_req b) in *.
  assert (Hi : _slots b1 !! i = Some s) by by rewrite Hs1.
  destruct (running_alive c Q b1 i s (proj1 Hg1) Hi Ho)
    as (p & r & Hrun & HQi & _ & Hcan & Hlp).
  pose proof (HR _ _ _ _ HQi) as Hst. pose proof Hrun as (_ & _ & Hsv & _).
  pose proof (stepped_endable _ _ _ _ _ _ _ Hst Hsv) as Hend. rewrite Hcan.
  destruct (cancelled r) eqn:Hc.
  { by eapply (good_cancelled c Q Q' d b0 b1 i s p r (fun i => retireSlot c i false));
      [..|apply frees_retire|]. }
  pose proof Hsv as (Hrq & Hpr & Hpl & _ & _ & Hlen).
  destruct Hst as (Hpd & Hns & Hpp & Hph & Hh & Hstr & Hgr).
  pose proof (endable_work c s p r Hend Ho) as Hwk.
  destruct (Nat.leb_spec (promptLen s) (pos s + 1)) as [Hgen|Hgen].
  - assert (Hpos : pos s + 1 = promptLen s + length (tokens r) /\ prefillPos s <= pos s /\
        (_mixedStep c = true -> prefillPos s = promptLen s)).
    { destruct Hph as [(-> & A1 & A2 & A3)|(A1 & A2 & A3)]; simpl.
      - split; [lia|]. split; [lia|]. congruence.
      - split; [done|]. split; [lia|done]. }
    destruct Hpos as (Hpos & Hppos & Hmx).
    assert (Htake : take (S (pos s)) (p_prompt p ++ tokens r) = p_prompt p ++ tokens r)
      by (apply take_ge; rewrite length_app; lia).
    rewrite Htake in Hh.
    destruct (applyThinkBudget c s (fst (out i))) as [s1 tk] eqn:Ha. cbn [fst snd].
    pose proof (after_token_facts c s _ s1 tk Ha) as
      (_ & _ & _ & _ & _ & _ & _ & _ & F9 & F10 & F11 & _).
    apply (good_emit c Q Q' d b0 b1 i s p r s (fst (out i)) (snd (out i)) s1 tk _
      ((after_token s1 tk) <| pos := S (pos (after_token s1 tk)) |>)
      (fun i => retireSlot c i true)); try done.
    + intros Htr. by apply Hh.
    + rewrite F10. f_equal. lia.
    + apply frees_retire.
    + intros Htr. by apply Hh.
    + cbn [pos set_field set_pos]. rewrite F10. lia.
    + cbn [prefillPos set_field set_pos]. by rewrite F11.
    + cbn [prefillPos set_field set_pos]. by rewrite F11.
    + cbn [pos set_field set_pos]. rewrite F10. lia.
  - destruct Hph as [(Htk & A1 & A2 & A3)|(A1 & A2 & _)]; [|lia].
    eapply (good_change c Q Q' d 1 b0 b1 _ i s (s <| pos := S (pos s) |>) p r r); try done.
    + by apply (changed_slot b1 i (fun s => s <| pos := S (pos s) |>) s (p_req p) r Hi (proj1 (proj2 Hrun))).
    + change (occupied (s <| pos := S (pos s) |>)) with (occupied s). rewrite Ho. split; [done|].
      destruct Hrun as (_ & _ & _ & Hdn & Her). split; [done|]. split; [done|].
      apply Hacc. intros pend Hp. split; [|by split].
      apply Ingest; try done; cbn.
      * lia.
      * by rewrite Hpd, Htk.
      * intros Htr. right. rewrite Hpr. rewrite Htk, app_nil_r in Hh. by apply Hh.
    + unfold slot_work. cbn. rewrite Ho. lia.
    + cbn. congruence.
Qed.

Lemma activePrefix_spec l :
  activePrefix l <= length l /\
  (forall i s, l !! i = Some s -> occupied s = true -> i < activePrefix l) /\
  (0 < activePrefix l -> exists s, l !! (activePrefix l - 1) = Some s /\ occupied s = true).
Proof.
  induction l as [|s l (IH1 & IH2 & IH3)]; simpl; [split; [done|split; [done|lia]]|].
  destruct (Nat.ltb_spec 0 (activePrefix l)) as [Hpos|Hz]; simpl.
  - split; [lia|]. split.
    + intros [|i] x Hi Ho; [lia|]. specialize (IH2 i x Hi Ho). lia.
    + intros _. destruct (IH3 Hpos) as (x & Hx & Ho). exists x. split; [|done].
      rewrite Nat.sub_0_r. by replace (activePrefix l) with (S (activePrefix l - 1)) by lia.
  - destruct (occupied s) eqn:Hos.
    + split; [lia|]. split.
      * intros [|i] x Hi Ho; [lia|]. specialize (IH2 i x Hi Ho). lia.
      * intros _. exists s. split; [|done]. simpl. by replace (activePrefix l) with 0 by lia.
    + split; [lia|]. split; [|lia].
      intros [|i] x Hi Ho; [simpl in Hi; congruence|]. specialize (IH2 i x Hi Ho). lia.
Qed.

(** What every abnormal end does to a request. *)
Definition ends (g : ServingRequest -> ServingRequest) : Prop :=
  forall r, done (g r) = true /\ tokens (g r) = tokens r /\ logprobs (g r) = logprobs r /\
    tenantId (g r) = tenantId r /\ (cancelled r = true -> cancelled (g r) = true) /\
    (cancelled (g r) = true \/ error (g r) <> EmptyString).

(** A failed forward and the shutdown end every running request. *)
Lemma advances_end c g drop i : ends g -> frees c drop ->
  advances c id (fun _ _ _ s p r => endable c s p r)
    (fun i b => if occupied (slot b i) then drop i (upd_slot_req i g b) else b) i.
Proof.
  intros He Hfr Q Q' d b0 b HQ Hg HR Helse Hacc. unfold id in *.
  destruct (occupied (slot b i)) eqn:Ho; cycle 1.
  { split; [|done]. rewrite Nat.add_0_r. eapply (good_skip c Q Q' d b0 b i); try done.
    intros s Hi. by rewrite (slot_lookup _ _ _ Hi) in Ho. }
  split; [|done]. pose proof (occupied_slot _ _ Ho) as Hi. set (s := slot b i) in *.
  destruct (running_alive c Q b i s (proj1 Hg) Hi Ho) as (p & r & Hrun & HQi & _ & _ & Hlp).
  pose proof (HR _ _ _ _ HQi) as Hend. pose proof Hrun as (_ & Hr & (Hrq & _) & _).
  destruct (He r) as (E1 & E2 & E3 & E4 & E5 & E6).
  eapply (good_finish c Q Q' d b0 b drop i s p r s (g r)); try done.
  - by apply changed_req.
  - unfold upd_slot_req. by destruct (req (slot b i)).
  - by rewrite E2, E3.
  - eapply (fin_ok_ended c p s); [|rewrite E2; apply Hend|done].
    intros Htr Hgd. rewrite E2. by apply Hend.
  - by rewrite E2.
  - by eapply endable_work.
Qed.

Lemma ends_finish msg : msg <> EmptyString -> ends (finish msg).
Proof.
  intros Hmsg r. unfold finish. destruct (String.eqb_spec msg EmptyString); [done|].
  repeat (split; [done|]). by right.
Qed.

Lemma stable_endable c : stable c (fun _ _ s p r => endable c s p r).
Proof. split; [done|]. intros e i s p r H. exact H. Qed.

Lemma good_failActive c Q d b0 b msg drop :
  msg <> EmptyString -> frees c drop ->
  good c Q d b0 b -> (forall e i s p r, Q e i s p r -> serves c s p -> endable c s p r) ->
  0 < activePrefix (_slots b) ->
  good c (settled c []) (d + 1) b0 (failActive msg drop (activePrefix (_slots b)) b).
Proof.
  intros Hmsg Hfr Hg Hend Hpos. apply ends_finish in Hmsg.
  destruct (activePrefix_spec (_slots b)) as (A1 & A2 & A3). set (n := activePrefix _) in *.
  unfold failActive. apply (good_fold_advance c id (fun _ _ _ s p r => endable c s p r)
    (fun i b => if occupied (slot b i) then drop i (upd_slot_req i (finish msg) b) else b)).
  - intros i _. split; [apply stable_endable|]. split; [by apply advances_end|].
    apply accepts_settled. set_solver.
  - apply stable_settled.
  - rewrite map_id. apply NoDup_seq.
  - eapply good_view; try done; [apply Hg|]. intros i s p r Hi Ho (_ & _ & Hsv & _) Hq. split.
    + intros _ _ _. by eapply Hend.
    + intros Hall. exfalso. apply (Hall i); [|done]. apply elem_of_seq.
      specialize (A2 i s Hi Ho). lia.
  - destruct (A3 Hpos) as (s & Hs & Ho). exists (n - 1). split; [apply elem_of_seq; lia|].
    unfold id. by rewrite (slot_lookup _ _ _ Hs).
Qed.

(** The decode forward advances every running slot by its step. *)
Lemma decode_forward c e e' slots outs i s p r :
  stepServing (imap stepOf (take (activePrefix slots) slots)) e = (Ok outs, e') ->
  (track c -> engine_ok e) -> slots !! i = Some s -> occupied s = true ->
  i < activePrefix slots -> (_mixedStep c = true -> promptLen s <= prefillPos s) ->
  serves c s p -> settled c [] e i s p r -> stepped c (nth i outs (0%Z, noLogprobs)) e' i s p r.
Proof.
  intros Hst He Hi Ho Hlt Hmx Hsv (Hph & Hstr & Hgr).
  pose proof Hsv as (_ & Hpr & Hpl & _).
  assert (Hlaw : track c -> (forall i, greedyIn e i -> greedyIn e' i) /\
    forall i st l, imap stepOf (take (activePrefix slots) slots) !! i = Some st ->
      fedBy e i (st_pos st) l -> holds e' i (l ++ [st_token st]) /\
      (greedyIn e i -> exists lp, outs !! i = Some (next (l ++ [st_token st]), lp))).
  { intros Htr. destruct (law_step (proj1 Htr) _ _ _ _ Hst (He Htr)) as (_ & G1 & _ & K1); [|done].
    intros j st Hj. rewrite list_lookup_imap in Hj.
    destruct (take _ slots !! j) as [x|]; [|done]. injection Hj as <-. unfold stepOf.
    destruct (occupied x); [|done]. by destruct (pos x). }
  assert (Hrow : imap stepOf (take (activePrefix slots) slots) !! i = Some (stepOf i s)).
  { rewrite list_lookup_imap, lookup_take_lt by done. by rewrite Hi. }
  assert (Hfeed : forall l tok, fed c e i l -> length l = pos s -> st_token (stepOf i s) = tok ->
      track c -> holds e' i (l ++ [tok]) /\
      (greedy p = true -> fst (nth i outs (0%Z, noLogprobs)) = next (l ++ [tok]))).
  { intros l tok Hf Hl <- Htr. destruct (proj2 (Hlaw Htr) i _ l Hrow) as [H1 H2].
    - unfold stepOf. rewrite Ho. cbn [st_pos]. by eapply fed_fedBy.
    - split; [done|]. intros Hgd. destruct (H2 (Hgr Htr Hgd)) as [lp Hlp].
      by rewrite (nth_lookup_Some _ _ _ _ Hlp). }
  assert (Hgr' : greedy_ok c e' i p) by (intros Htr Hgd; by apply (Hlaw Htr), Hgr).
  destruct Hph as [H1|_ Hm H2 H3 H4 H5 Hf|_ H1 H2 H3|out _ H1 H2 H3 H4 H5 H6 Hf].
  - set_solver.
  - split; [by rewrite H4, H5|]. rewrite H5. split; [apply nostop_nil|]. split; [lia|].
    split; [by left|]. split; [|done]. rewrite app_nil_r, <- Hpr.
    assert (Hlook : is_Some (prompt s !! pos s)) by (apply lookup_lt_is_Some; by rewrite Hpr, <- Hpl).
    destruct Hlook as [tok Htok]. rewrite (take_S_r _ _ _ Htok).
    apply Hfeed; [done|rewrite length_take, Hpr, <- Hpl; lia|].
    unfold stepOf. rewrite Ho. cbn [st_token]. destruct (Nat.ltb_spec (pos s) (promptLen s)); [|lia].
    by apply nth_lookup_Some.
  - specialize (Hmx H1). lia.
  - split; [by rewrite H2, H1, length_app, Nat.add_1_r|]. split; [done|]. split; [done|].
    split; [right; rewrite H1, length_app; simpl; split; [lia|split; [lia|done]]|].
    split; [|done].
    rewrite take_ge by (rewrite H1, !length_app; simpl; lia).
    rewrite H1, app_assoc, <- Hpr. apply Hfeed; [done|rewrite length_app, Hpr, <- Hpl; lia|].
    unfold stepOf. rewrite Ho. cbn [st_token]. by destruct (Nat.ltb_spec (pos s) (promptLen s)); [lia|].
Qed.

Lemma good_decodeStep c d b0 b :
  good c (settled c []) d b0 b -> (_mixedStep c = true -> anyPrefilling b = false) ->
  good c (settled c []) (d + Nat.min 1 (activePrefix (_slots b))) b0 (decodeStep c b).
Proof.
  intros Hg Hmx. unfold decodeStep.
  destruct (good_lock c _ d b0 b (stable_settled c []) Hg) as (Hg1 & Hs1 & _).
  set (b1 := lock_mtx c b) in *. rewrite <- Hs1.
  destruct (activePrefix_spec (_slots b1)) as (A1 & A2 & A3).
  destruct (Nat.eqb_spec (activePrefix (_slots b1)) 0) as [Hz|Hz].
  { by rewrite Hz, Nat.add_0_r. }
  replace (Nat.min 1 (activePrefix (_slots b1))) with 1 by lia.
  destruct (stepServing _ (engine b1)) as [res e'] eqn:Hst.
  assert (Heng : track c -> engine_ok e').
  { intros Htr. eapply (law_step (proj1 Htr) _ _ _ _ Hst); [by apply Hg1|].
    intros j st Hj. rewrite list_lookup_imap in Hj.
    destruct (take _ (_slots b1) !! j) as [x|]; [|done]. injection Hj as <-. unfold stepOf.
    destruct (occupied x); [|done]. by destruct (pos x). }
  destruct res as [outs|ex].
  - set (Q1 := todo id (fun i => stepped c (nth i outs (0%Z, noLogprobs)))
                 (seq 0 (activePrefix (_slots b1))) (settled c [])).
    assert (HQ1 : stable c Q1).
    { apply stable_todo; [intros; apply stable_stepped|apply stable_settled]. }
    assert (Hg2 : good c Q1 d b0 (b1 <| engine := e' |>)).
    { eapply good_view; try done. intros i s p r Hi Ho (_ & _ & Hsv & _) Hset. split.
      - intros j Hj <-. eapply decode_forward; try done.
        + apply Hg1.
        + by eapply A2.
        + intros Hm. specialize (Hmx Hm). unfold anyPrefilling in Hmx. rewrite <- Hs1 in Hmx.
          apply not_true_iff_false in Hmx. rewrite existsb_exists in Hmx.
          apply Nat.nlt_ge. intros Hlt. apply Hmx. exists s. split.
          * by eapply list_elem_of_In, list_elem_of_lookup_2.
          * unfold id. rewrite Ho. by apply Nat.ltb_lt.
      - intros Hall. exfalso. apply (Hall i); [|done]. apply elem_of_seq.
        specialize (A2 i s Hi Ho). lia. }
    destruct (good_lock c Q1 d b0 _ HQ1 Hg2) as (Hg3 & Hs3 & _).
    apply (good_fold_advance c id (fun i => stepped c (nth i outs (0%Z, noLogprobs)))
      (fun i b => decodeCommit c i (nth i outs (0%Z, noLogprobs)) b)); try done.
    + intros i _. split; [apply stable_stepped|]. split; [apply advances_decode|].
      apply accepts_settled. set_solver.
    + apply stable_settled.
    + rewrite map_id. apply NoDup_seq.
    + destruct (A3 ltac:(lia)) as (s & Hs & Ho). exists (activePrefix (_slots b1) - 1).
      split; [apply elem_of_seq; lia|]. unfold id.
      assert (Hsl : _slots (lock_mtx c (b1 <| engine := e' |>)) !! (activePrefix (_slots b1) - 1) = Some s)
        by by rewrite Hs3.
      by rewrite (slot_lookup _ _ _ Hsl).
  - set (Q1 := fun (_ : State) (_ : nat) s p r => endable c s p r).
    assert (Hg2 : good c Q1 d b0 (b1 <| engine := e' |>)).
    { eapply good_view; try done. intros i s p r Hi Ho (_ & _ & Hsv & _) Hset.
      by eapply settled_endable. }
    destruct (good_lock c Q1 d b0 _ (stable_endable c) Hg2) as (Hg3 & Hs3 & _).
    change (_slots (b1 <| engine := e' |>)) with (_slots b1) in Hs3. rewrite <- Hs3.
    apply (good_failActive c Q1); try done.
    + by apply frees_upd.
    + rewrite Hs3. lia.
Qed.

(** ** Mixed step *)

(** A slot after a mixed forward that ran its row: everything the row covered is
    fed. *)
Definition mixed_ready (c : Config) (row : Row) (out : Z * TokenLogprobs) : slot_prop :=
  fun e i s p r =>
  produced s = length (tokens r) /\ nostop c p (tokens r) /\ prefillPos s <= promptLen s /\
  req s = rowReq row /\ _mixedStep c = true /\
  (if prefilling row then
     tokens r = [] /\ pos s = 0 /\ prefillPos s < newPrefillPos row <= promptLen s /\
     finishesPrefill row = (newPrefillPos row =? promptLen s) /\
     (track c -> holds e i (take (newPrefillPos row) (p_prompt p)) /\
       (greedy p = true -> fst out = next (take (newPrefillPos row) (p_prompt p))))
   else
     pos s + 1 = promptLen s + length (tokens r) /\ promptLen s <= pos s /\
     prefillPos s = promptLen s /\
     (track c -> holds e i (p_prompt p ++ tokens r) /\
       (greedy p = true -> fst out = next (p_prompt p ++ tokens r)))) /\
  stream_ok c p s r /\ greedy_ok c e i p.

Lemma stable_mixed_ready c row out : stable c (mixed_ready c row out).
Proof.
  split.
  - intros e e' i s p r Hs (H1 & H2 & H3 & H4 & H5 & H6 & H7 & H8).
    do 5 (split; [done|]). split; [|split; [done|by eapply greedy_same]].
    destruct (prefilling row).
    + destruct H6 as (K1 & K2 & K3 & K4 & K5). do 4 (split; [done|]).
      intros Htr. destruct (K5 Htr). split; [|done]. by apply Hs.
    + destruct H6 as (K1 & K2 & K3 & K4). do 3 (split; [done|]).
      intros Htr. destruct (K4 Htr). split; [|done]. by apply Hs.
  - intros e i s p r H. exact H.
Qed.

Lemma mixed_ready_endable c row out e i s p r :
  mixed_ready c row out e i s p r -> serves c s p -> endable c s p r.
Proof.
  intros (_ & Hn & Hpp & _ & _ & Hph & Hs & _) (_ & _ & Hl & _ & _ & Hlen).
  split; [done|]. split; [done|]. destruct (prefilling row).
  - destruct Hph as (_ & H1 & H2 & _). lia.
  - destruct Hph as (H1 & H2 & _).
    destruct (tokens r) as [|x l _] eqn:Ht using rev_ind; [simpl in H1; lia|].
    apply nostop_room in Hn. rewrite length_app in H1. simpl in H1. lia.
Qed.

(** The slot a finished in-band prefill emits its first token from. *)
Definition mixed_source (row : Row) (s : Slot) : Slot :=
  if prefilling row then s <| prefillPos := newPrefillPos row |> <| pos := promptLen s |>
  else s.

Lemma mixedCommit_unfold c i row out b freed :
  fst (mixedCommit c i row out b freed) =
  let s := slot b i in
  if negb (occupied s) || negb (bool_decide (req s = rowReq row)) then b
  else
    let b := lock_req b in
    if slot_cancelled b i then dropSlot i (upd_slot_req i (finish EmptyString) b)
    else if prefilling row && negb (finishesPrefill row) then
      upd_slot i (fun s => s <| prefillPos := newPrefillPos row |>) b
    else
      let s0 := mixed_source row s in
      let s1 := fst (applyThinkBudget c s0 (fst out)) in
      let tk := snd (applyThinkBudget c s0 (fst out)) in
      let b := upd_slot_req i (push_token tk (snd out)) b in
      let s2 := after_token s1 tk in
      if stopCond c tk s2 (if negb (prefilling row) then _maxContext c <=? pos s2 + 2
                           else _maxContext c <=? pos s2 + 1)
      then dropSlot i (upd_slot_req i (fun q => q <| done := true |>)
                         (upd_slot i (fun _ => s2) b))
      else upd_slot i (fun _ => if negb (prefilling row) then s2 <| pos := S (pos s2) |> else s2) b.
Proof.
  unfold mixedCommit, mixed_source. cbv zeta. destruct (negb _ || negb _); [done|].
  destruct (slot_cancelled _ _); [done|]. destruct (_ && _); [done|].
  destruct (applyThinkBudget c (if prefilling row then _ else _) (fst out)) as [s1 tk].
  cbn [fst snd]. unfold after_token. by destruct (stopCond _ _ _ _).
Qed.

Lemma moved_refl s : moved s s.
Proof. done. Qed.

Lemma moved_pos s n : moved s (s <| pos := n |>).
Proof. done. Qed.

Lemma moved_source row s : moved s (mixed_source row s).
Proof. unfold mixed_source. by destruct (prefilling row). Qed.

Lemma mixed_source_pos row s :
  pos (mixed_source row s) = (if prefilling row then promptLen s else pos s) /\
  prefillPos (mixed_source row s) = (if prefilling row then newPrefillPos row else prefillPos s).
Proof. unfold mixed_source. by destruct (prefilling row). Qed.

(** The emission of a mixed row, first token or decode token. *)
Lemma good_mixed_emit c Q Q' d b0 b i s p r row out :
  stable c Q -> good c Q d b0 b -> _slots b !! i = Some s -> occupied s = true ->
  running c b s p r -> length (tokens r) = length (logprobs r) ->
  mixed_ready c row out (engine b) i s p r -> prefilling row && negb (finishesPrefill row) = false ->
  elsewhere i Q Q' -> accepts c i Q' ->
  good c Q' (d + 1) b0
    (let s0 := mixed_source row s in
     let s1 := fst (applyThinkBudget c s0 (fst out)) in
     let tk := snd (applyThinkBudget c s0 (fst out)) in
     let b := upd_slot_req i (push_token tk (snd out)) b in
     let s2 := after_token s1 tk in
     if stopCond c tk s2 (if negb (prefilling row) then _maxContext c <=? pos s2 + 2
                          else _maxContext c <=? pos s2 + 1)
     then dropSlot i (upd_slot_req i (fun q => q <| done := true |>) (upd_slot i (fun _ => s2) b))
     else upd_slot i (fun _ => if negb (prefilling row) then s2 <| pos := S (pos s2) |> else s2) b).
Proof.
  intros HQ Hg Hi Ho Hrun Hlp Hm Hfin Helse Hacc.
  pose proof Hrun as (_ & _ & Hsv & _). pose proof Hsv as (_ & _ & Hpl & _ & _ & Hlen).
  pose proof (endable_work c s p r (mixed_ready_endable _ _ _ _ _ _ _ _ Hm Hsv) Ho) as Hwk.
  destruct Hm as (Hpd & Hns & Hpp & Hrq & Hmix & Hph & Hstr & Hgr).
  assert (Hnow : (track c -> holds (engine b) i (p_prompt p ++ tokens r) /\
        (greedy p = true -> fst out = next (p_prompt p ++ tokens r))) /\
      (if prefilling row then tokens r = [] /\ newPrefillPos row = promptLen s /\ pos s = 0 /\
         prefillPos s < promptLen s
       else pos s + 1 = promptLen s + length (tokens r) /\ prefillPos s = promptLen s /\
         promptLen s <= pos s)).
  { destruct (prefilling row); simpl in Hfin.
    - destruct Hph as (K1 & K2 & K3 & K4 & K5). rewrite K4 in Hfin. bool_to_prop.
      split; [|split; [done|split; [done|split; [done|lia]]]].
      rewrite K1, app_nil_r. by rewrite Hfin, Hpl, firstn_all in K5.
    - destruct Hph as (K1 & K2 & K3 & K4). done. }
  clear Hph. destruct Hnow as [Hh Hph].
  pose proof (moved_source row s) as Hmv. pose proof (mixed_source_pos row s) as [S1 S2].
  cbv zeta. set (s0 := mixed_source row s) in *.
  destruct (applyThinkBudget c s0 (fst out)) as [s1 tk] eqn:Ha. cbn [fst snd].
  pose proof (after_token_facts c s0 _ s1 tk Ha) as
    (_ & _ & _ & _ & _ & _ & _ & _ & F9 & F10 & F11 & _).
  apply (good_emit c Q Q' d b0 b i s p r s0 (fst out) (snd out) s1 tk
    (if negb (prefilling row) then _maxContext c <=? pos (after_token s1 tk) + 2
     else _maxContext c <=? pos (after_token s1 tk) + 1)
    (if negb (prefilling row) then (after_token s1 tk) <| pos := S (pos (after_token s1 tk)) |>
     else after_token s1 tk) dropSlot); try done.
  - intros Htr. by apply Hh.
  - rewrite F10, S1. destruct (prefilling row); simpl negb; cbv iota; f_equal.
    + destruct Hph as (-> & _). simpl. lia.
    + lia.
  - apply frees_drop.
  - intros Htr. by apply Hh.
  - destruct (prefilling row); cbn [negb]; [apply moved_refl|apply moved_pos].
  - by destruct (prefilling row).
  - destruct (prefilling row); cbn [negb pos set_field set_pos]; rewrite F10, S1; [|lia].
    destruct Hph as (-> & _). simpl. lia.
  - destruct (prefilling row); cbn [negb prefillPos set_field set_pos]; rewrite F11, S2; lia.
  - intros _. destruct (prefilling row); cbn [negb prefillPos set_field set_pos];
      rewrite F11, S2; lia.
  - destruct (prefilling row); cbn [negb pos set_field set_pos]; rewrite F10, S1; lia.
Qed.

Lemma advances_mixed c out (x : nat * Row) :
  advances c fst (fun x => mixed_ready c (snd x) (out (fst x)))
    (fun x b => fst (mixedCommit c (fst x) (snd x) (out (fst x)) b false)) x.
Proof.
  destruct x as [i row]. intros Q Q' d b0 b HQ Hg HR Helse Hacc. cbn [fst snd] in *.
  rewrite mixedCommit_unfold. cbv zeta.
  destruct (occupied (slot b i)) eqn:Ho; cbn [negb orb]; cycle 1.
  { split; [|done]. rewrite Nat.add_0_r. eapply (good_skip c Q Q' d b0 b i); try done.
    intros s Hi. by rewrite (slot_lookup _ _ _ Hi) in Ho. }
  split; [|done]. pose proof (occupied_slot _ _ Ho) as Hi0. set (s := slot b i) in *.
  destruct (good_lock_req c Q d b0 b HQ Hg) as (Hg1 & Hs1 & _). set (b1 := lock_req b) in *.
  assert (Hi : _slots b1 !! i = Some s) by by rewrite Hs1.
  destruct (running_alive c Q b1 i s (proj1 Hg1) Hi Ho)
    as (p & r & Hrun & HQi & _ & Hcan & Hlp).
  pose proof (HR _ _ _ _ HQi) as Hm. pose proof Hrun as (Hsub & Hr & Hsv & Hdn & Her).
  pose proof (mixed_ready_endable _ _ _ _ _ _ _ _ Hm Hsv) as Hend.
  rewrite bool_decide_eq_true_2 by apply Hm. cbn [negb]. rewrite Hcan.
  destruct (cancelled r) eqn:Hc.
  { by eapply (good_cancelled c Q Q' d b0 b1 i s p r dropSlot); [..|apply frees_drop|]. }
  destruct (prefilling row && negb (finishesPrefill row)) eqn:Hpf;
    [|by eapply (good_mixed_emit c Q Q' d b0 b1 i s p r row (out i))].
  apply andb_true_iff in Hpf as [Hpre Hnf]. apply negb_true_iff in Hnf.
  destruct Hm as (Hpd & _ & Hpp & _ & Hmix & Hph & Hstr & Hgr). rewrite Hpre in Hph.
  destruct Hph as (K1 & K2 & K3 & K4 & K5). rewrite K4 in Hnf. bool_to_prop.
  pose proof Hsv as (_ & Hpr & Hpl & _ & _ & Hlen).
  eapply (good_change c Q Q' d 1 b0 b1 _ i s (s <| prefillPos := newPrefillPos row |>) p r r);
    try done.
  - by apply (changed_slot b1 i (fun s => s <| prefillPos := newPrefillPos row |>) s).
  - change (occupied (s <| prefillPos := newPrefillPos row |>)) with (occupied s). rewrite Ho.
    split; [done|]. split; [done|]. split; [done|].
    apply Hacc. intros pend Hp. split; [|done].
    apply Mixed; try done; cbn [prefillPos promptLen prompt produced set_field set_prefillPos].
    + lia.
    + by rewrite Hpd, K1.
    + intros Htr. right. rewrite Hpr. by apply K5.
  - change (slot_work c (s <| prefillPos := newPrefillPos row |>))
      with (if occupied s then _maxContext c - Nat.max (pos s) (newPrefillPos row) else 0).
    unfold slot_work. rewrite Ho. lia.
  - change (occupied (s <| prefillPos := newPrefillPos row |>)) with (occupied s). congruence.
Qed.

(** The row a slot contributes: its next prompt chunk, at least one token of it,
    or its last token. *)
Definition row_for (s : Slot) (row : Row) : Prop :=
  if occupied s then
    rowReq row = req s /\
    if prefillPos s <? promptLen s then
      prefilling row = true /\ startPos row = prefillPos s /\
      prefillPos s < newPrefillPos row <= promptLen s /\
      chunk row = take (newPrefillPos row - prefillPos s) (drop (prefillPos s) (prompt s)) /\
      finishesPrefill row = (newPrefillPos row =? promptLen s)
    else prefilling row = false /\ startPos row = pos s /\ chunk row = [lastTok s]
  else chunk row = [0%Z].

Lemma mixedRows_spec c slots : 0 < _prefillChunk c -> forall extra,
  Forall2 row_for slots (mixedRows c slots extra).
Proof.
  intros HC. induction slots as [|s slots IH]; intros extra; cbn [mixedRows]; [constructor|].
  destruct (occupied s) eqn:Ho; cbn [negb]; cycle 1.
  { constructor; [|apply IH]. unfold row_for. by rewrite Ho. }
  destruct (Nat.ltb_spec (prefillPos s) (promptLen s)) as [Hlt|Hge].
  - constructor; [|apply IH]. unfold row_for. rewrite Ho. cbn [rowReq]. split; [done|].
    destruct (Nat.ltb_spec (prefillPos s) (promptLen s)); [|lia].
    cbn [prefilling startPos newPrefillPos chunk finishesPrefill].
    split; [done|]. split; [done|]. split; [lia|]. split; [|done]. f_equal. lia.
  - constructor; [|apply IH]. unfold row_for. rewrite Ho. split; [done|].
    by destruct (Nat.ltb_spec (prefillPos s) (promptLen s)); [lia|].
Qed.

(** The mixed forward feeds every running slot its row. *)
Lemma mixed_forward c e e' rows outs i s p r row :
  prefillSlotsBatched 0 (map chunk rows) (map startPos rows) e = (Ok outs, e') ->
  (track c -> engine_ok e) -> Forall (fun ch => ch <> []) (map chunk rows) ->
  rows !! i = Some row -> row_for s row -> occupied s = true ->
  _mixedStep c = true -> serves c s p -> settled c [] e i s p r ->
  mixed_ready c row (nth i outs ((-1)%Z, noLogprobs)) e' i s p r.
Proof.
  intros Hb He Hne Hrow Hfor Ho Hmix Hsv (Hph & Hstr & Hgr).
  pose proof Hsv as (_ & Hpr & Hpl & _). unfold row_for in Hfor. rewrite Ho in Hfor.
  destruct Hfor as [Hrq Hfor].
  assert (Hfeed : forall l, fed c e i l -> length l = startPos row -> track c ->
      holds e' i (l ++ chunk row) /\ (greedyIn e i -> greedyIn e' i) /\
      (greedy p = true -> fst (nth i outs ((-1)%Z, noLogprobs)) = next (l ++ chunk row))).
  { intros l Hf Hl Htr.
    destruct (law_batched (proj1 Htr) _ _ _ _ _ _ Hb (He Htr)) as (_ & G1 & _ & K1);
      [by rewrite !length_map|done|].
    destruct (K1 i (chunk row) (startPos row) l) as [H1 H2].
    - by rewrite list_lookup_fmap, Hrow.
    - by rewrite list_lookup_fmap, Hrow.
    - by eapply fed_fedBy.
    - split; [done|]. split; [apply G1|]. intros Hgd. destruct (H2 (Hgr Htr Hgd)) as [lp Hlp].
      by rewrite (nth_lookup_Some _ _ _ _ Hlp). }
  destruct Hph as [H1|_ Hm|_ H1 H2 H3 H4 H5 Hf|out _ H1 H2 H3 H4 H5 H6 Hf].
  - set_solver.
  - congruence.
  - destruct (Nat.ltb_spec (prefillPos s) (promptLen s)); [|lia].
    destruct Hfor as (R1 & R2 & R3 & R4 & R5).
    assert (Hcat : take (prefillPos s) (prompt s) ++ chunk row = take (newPrefillPos row) (p_prompt p)).
    { rewrite R4, take_take_drop, Hpr. f_equal. lia. }
    specialize (Hfeed _ Hf ltac:(rewrite length_take, Hpr, <- Hpl; lia)). rewrite Hcat in Hfeed.
    split; [by rewrite H4, H5|]. rewrite H5. split; [apply nostop_nil|]. split; [lia|].
    split; [done|]. split; [done|]. rewrite R1. split.
    + do 2 (split; [done|]). split; [lia|]. split; [done|].
      intros Htr. by destruct (Hfeed Htr) as (A & _ & B).
    + split; [done|]. intros Htr Hgd. by apply (Hfeed Htr), Hgr.
  - destruct (Nat.ltb_spec (prefillPos s) (promptLen s)); [specialize (H5 Hmix); lia|].
    destruct Hfor as (R1 & R2 & R3).
    specialize (Hfeed _ Hf ltac:(rewrite length_app, Hpr, <- Hpl; lia)).
    rewrite R3, <- app_assoc, <- H1, Hpr in Hfeed.
    split; [by rewrite H2, H1, length_app, Nat.add_1_r|]. split; [done|]. split; [done|].
    split; [done|]. split; [done|]. rewrite R1. split.
    + split; [rewrite H1, length_app; simpl; lia|]. split; [lia|]. split; [by apply H5|].
      intros Htr. by destruct (Hfeed Htr) as (A & _ & B).
    + split; [done|]. intros Htr Hgd. by apply (Hfeed Htr), Hgr.
Qed.

Lemma mixed_fold_fst c out (l : list (nat * Row)) : forall b freed,
  fst (fold_left (fun '(b, freed) '(i, row) => mixedCommit c i row (out i) b freed) l (b, freed)) =
  fold_left (fun b x => fst (mixedCommit c (fst x) (snd x) (out (fst x)) b false)) l b.
Proof.
  induction l as [|[i row] l IH]; intros b freed; [done|]. cbn [fold_left fst snd].
  assert (H : fst (mixedCommit c i row (out i) b freed) = fst (mixedCommit c i row (out i) b false))
    by (by rewrite !mixedCommit_unfold).
  rewrite <- H. destruct (mixedCommit c i row (out i) b freed) as [b' f']. apply IH.
Qed.

Lemma imap_pair_fst {A} (l : list A) : map fst (imap pair l) = seq 0 (length l).
Proof.
  assert (H : forall n, map fst (imap (fun k x => (n + k, x)) l) = seq n (length l)).
  { induction l as [|x l IH]; intros n; simpl; [done|]. f_equal; [lia|].
    rewrite <- (IH (S n)). f_equal. apply imap_ext. intros i y _. simpl. f_equal. lia. }
  apply (H 0).
Qed.

Lemma good_runMixedStep c d b0 b : wf_config c -> _mixedStep c = true ->
  good c (settled c []) d b0 b ->
  good c (settled c []) (d + Nat.min 1 (activePrefix (_slots b))) b0 (fst (runMixedStep c b)).
Proof.
  intros Hwf Hmix Hg. unfold runMixedStep.
  destruct (good_lock c _ d b0 b (stable_settled c []) Hg) as (Hg1 & Hs1 & _).
  set (b1 := lock_mtx c b) in *. rewrite <- Hs1.
  destruct (activePrefix_spec (_slots b1)) as (A1 & A2 & A3).
  destruct (Nat.eqb_spec (activePrefix (_slots b1)) 0) as [Hz|Hz].
  { by rewrite Hz, Nat.add_0_r. }
  replace (Nat.min 1 (activePrefix (_slots b1))) with 1 by lia.
  set (n := activePrefix (_slots b1)) in *. set (extra := if n <? _ then _ else _).
  set (rows := mixedRows c (take n (_slots b1)) extra).
  pose proof (mixedRows_spec c (take n (_slots b1)) (proj1 (wf_mixed c Hwf Hmix)) extra) as Hrows.
  fold rows in Hrows.
  assert (Hlen : length rows = n).
  { rewrite <- (Forall2_length _ _ _ Hrows), length_take. lia. }
  assert (Hsrv : forall i s, _slots b1 !! i = Some s -> occupied s = true ->
      exists p, serves c s p).
  { intros i s Hi Ho. destruct (inv_slot _ _ _ (proj1 Hg1) i s Hi Ho) as (p & r & (_ & _ & H & _) & _).
    by exists p. }
  assert (Hne : Forall (fun ch => ch <> []) (map chunk rows)).
  { apply Forall_map, Forall_lookup_2. intros i row Hi.
    destruct (Forall2_lookup_r _ _ _ _ _ Hrows Hi) as (s & Hs & Hfor).
    apply lookup_take_Some in Hs as [Hs _]. unfold row_for in Hfor.
    destruct (occupied s) eqn:Ho; [|by rewrite Hfor].
    destruct Hfor as [_ Hfor]. destruct (prefillPos s <? promptLen s); [|by destruct Hfor as (_ & _ & ->)].
    destruct Hfor as (_ & _ & H1 & -> & _).
    destruct (Hsrv i s Hs Ho) as (p & _ & Hpr & Hpl & _).
    intros H0. apply (f_equal length) in H0. rewrite length_take, length_drop, Hpr, <- Hpl in H0.
    simpl in H0. lia. }
  destruct (prefillSlotsBatched 0 _ _ (engine b1)) as [res e'] eqn:Hb.
  assert (Heng : track c -> engine_ok e').
  { intros Htr. eapply (law_batched (proj1 Htr) _ _ _ _ _ _ Hb); [by apply Hg1| |done].
    by rewrite !length_map. }
  destruct res as [outs|ex].
  - set (out := fun i => nth i outs ((-1)%Z, noLogprobs)).
    set (R := fun x : nat * Row => mixed_ready c (snd x) (out (fst x))).
    set (Q1 := todo fst R (imap pair rows) (settled c [])).
    assert (HQ1 : stable c Q1).
    { apply stable_todo; [intros; apply stable_mixed_ready|apply stable_settled]. }
    assert (Hg2 : good c Q1 d b0 (b1 <| engine := e' |>)).
    { eapply good_view; try done. intros i s p r Hi Ho (_ & _ & Hsv & _) Hset.
      assert (Hin : i < n) by by eapply A2.
      assert (Htk : take n (_slots b1) !! i = Some s) by by rewrite lookup_take_lt.
      destruct (Forall2_lookup_l _ _ _ _ _ Hrows Htk) as (row & Hrow & Hfor). split.
      - intros [j row'] Hx Hk. simpl in Hk. subst j. apply imap_pair_elem in Hx.
        assert (row' = row) as -> by congruence. unfold R. cbn [fst snd].
        eapply (mixed_forward c _ _ rows); try done. apply Hg1.
      - intros Hall. exfalso. apply (Hall (i, row)); [|done]. by apply imap_pair_elem. }
    destruct (good_lock c Q1 d b0 _ HQ1 Hg2) as (Hg3 & Hs3 & _).
    rewrite (mixed_fold_fst c out (imap pair rows)).
    apply (good_fold_advance c fst R
      (fun x b => fst (mixedCommit c (fst x) (snd x) (out (fst x)) b false))); try done.
    + intros x _. split; [apply stable_mixed_ready|]. split; [apply advances_mixed|].
      apply accepts_settled. set_solver.
    + apply stable_settled.
    + rewrite imap_pair_fst. apply NoDup_seq.
    + destruct (A3 ltac:(lia)) as (s & Hs & Ho).
      assert (Hrow : is_Some (rows !! (n - 1))) by (apply lookup_lt_is_Some; lia).
      destruct Hrow as [row Hrow]. exists (n - 1, row). split; [by apply imap_pair_elem|].
      assert (Hsl : _slots (lock_mtx c (b1 <| engine := e' |>)) !! (n - 1) = Some s)
        by by rewrite Hs3.
      cbn [fst]. by rewrite (slot_lookup _ _ _ Hsl).
  - set (Q1 := fun (_ : State) (_ : nat) s p r => endable c s p r).
    assert (Hg2 : good c Q1 d b0 (b1 <| engine := e' |>)).
    { eapply good_view; try done. intros i s p r Hi Ho (_ & _ & Hsv & _) Hset.
      by eapply settled_endable. }
    destruct (good_lock c Q1 d b0 _ (stable_endable c) Hg2) as (Hg3 & Hs3 & _).
    change (_slots (b1 <| engine := e' |>)) with (_slots b1) in Hs3. cbn [fst].
    assert (Hn : n = activePrefix (_slots (lock_mtx c (b1 <| engine := e' |>))))
      by by rewrite Hs3.
    rewrite Hn. apply (good_failActive c Q1); try done; [apply frees_drop|]. lia.
Qed.
End Steps.
End BatcherSteps.
