(* ===== verification/ListEngine.v ===== *)
(** * A concrete engine for the continuous batcher

    An executable instance of [Engine], the interface [ContinuousBatcher] calls
    its inference engine through.  A slot is its KV rows, the history its
    recurrent layers have consumed, its checkpoints and its sampling mode; the
    token after a prefix is a digest of the rows and the history.  A feed writes
    KV rows in place, so a row left behind by another request is visible, as it
    is on the device.  [list_lawful] proves the serving laws of
    [BatcherInvariant.Lawful] for it, which shows that they can hold, and the
    witnesses of the batcher's theorems run it. *)

From S2P Require Import Prelude ContinuousBatcher BatcherInvariant.

Module ListEngine.
Import BatcherInvariant.

Record Cell := mkCell {
  rows : list Z;
  rec : list Z;
  ckpts : list (nat * list Z);
  argmax : bool;
}.

Record Image := mkImage {
  img_key : N;
  img_toks : list Z;
  img_rows : list Z;
  img_rec : list Z;
  img_pins : nat;
}.

Record Dev := mkDev {
  cells : gmap nat Cell;
  images : list Image;
  nextKey : N;
}.

Definition emptyDev : Dev := mkDev ∅ [] 1%N.
Definition cell (e : Dev) (i : nat) : Cell := default (mkCell [] [] [] false) (cells e !! i).
Definition set_cell (i : nat) (x : Cell) (e : Dev) : Dev :=
  mkDev (<[i := x]> (cells e)) (images e) (nextKey e).
Definition upd_cell (i : nat) (f : Cell -> Cell) (e : Dev) : Dev := set_cell i (f (cell e i)) e.

Definition digest (l : list Z) : Z := fold_left (fun h x => (h * 31 + x + 7) mod 97)%Z l 5%Z.
(** The next token of a slot: what attention and the recurrent layers see. *)
Definition out_of (kv h : list Z) : Z := ((digest kv + 3 * digest h) mod 23)%Z.

(** Rows [p .. p+|ch|) are written, what lies behind stays. *)
Definition write_rows (p : nat) (ch kv : list Z) : list Z :=
  take p kv ++ ch ++ drop (p + length ch) kv.

Definition feed (p : nat) (ch : list Z) (x : Cell) : Cell :=
  mkCell (write_rows p ch (rows x)) (if p =? 0 then ch else rec x ++ ch) (ckpts x) (argmax x).

(** A sampled token: greedy slots take the digest, others something else. *)
Definition pick (p : nat) (x : Cell) : Z :=
  let tk := out_of (take p (rows x)) (rec x) in if argmax x then tk else (tk + 1)%Z.

(** Feeds chunk [k] to slot [i0 + k]. *)
Fixpoint feed_all (i0 : nat) (work : list (list Z * nat)) (e : Dev) : list (Z * unit) * Dev :=
  match work with
  | [] => ([], e)
  | (ch, p) :: work' =>
      let e := upd_cell i0 (feed p ch) e in
      let tk := pick (p + length ch) (cell e i0) in
      let '(outs, e) := feed_all (S i0) work' e in
      ((tk, tt) :: outs, e)
  end.

Definition best_image (l : list Z) (ims : list Image) : option Image :=
  fold_left (fun acc im =>
    if bool_decide (img_toks im `prefix_of` l) then
      match acc with
      | Some a => if length (img_toks a) <? length (img_toks im) then Some im else acc
      | None => Some im
      end
    else acc) ims None.

Definition pin (f : nat -> nat) (k : N) (e : Dev) : Dev :=
  mkDev (cells e)
    (map (fun im => if N.eqb (img_key im) k
                    then mkImage (img_key im) (img_toks im) (img_rows im) (img_rec im)
                           (f (img_pins im))
                    else im) (images e)) (nextKey e).

#[global] Instance list_engine : Engine := {
  State := Dev;
  SamplingParams := bool;
  ToolConstraint := unit;
  TokenLogprobs := unit;
  noLogprobs := tt;
  stepServing steps e :=
    let '(outs, e) := feed_all 0 (map (fun st => ([st_token st], st_pos st)) steps) e in
    (Ok outs, e);
  prefillSlot i ch p _ e :=
    let e := upd_cell i (feed p ch) e in (Ok (pick (p + length ch) (cell e i), tt), e);
  prefillSlotsBatched i0 chunks starts e :=
    let '(outs, e) := feed_all i0 (combine chunks starts) e in (Ok outs, e);
  captureSlotSsmCkpt i p e :=
    upd_cell i (fun x => mkCell (rows x) (rec x) ((p, rec x) :: ckpts x) (argmax x)) e;
  slotCkptBestPos e i p :=
    fold_left (fun acc k => if fst k <=? p then Nat.max acc (fst k) else acc)
      (ckpts (cell e i)) 0;
  restoreSlotSsmCkptAtPos i p e :=
    match find (fun k => fst k =? p) (ckpts (cell e i)) with
    | Some k => upd_cell i (fun x => mkCell (rows x) (snd k) (ckpts x) (argmax x)) e
    | None => e
    end;
  pruneSlotSsmCkpts i p e :=
    upd_cell i (fun x => mkCell (rows x) (rec x)
      (List.filter (fun k => fst k <=? p) (ckpts x)) (argmax x)) e;
  clearSlotSsmCkpts i e := upd_cell i (fun x => mkCell (rows x) (rec x) [] (argmax x)) e;
  snapshotSlotToPrefixImage i p l e :=
    mkDev (cells e)
      (images e ++ [mkImage (nextKey e) (take p l) (take p (rows (cell e i))) (rec (cell e i)) 0])
      (nextKey e + 1)%N;
  lookupPrefixImage l e :=
    (option_map (fun im => (length (img_toks im), img_key im)) (best_image l (images e)), e);
  restorePrefixImageToSlot i k e :=
    match find (fun im => N.eqb (img_key im) k) (images e) with
    | Some im =>
        (true, upd_cell i (fun x => mkCell (write_rows 0 (img_rows im) (rows x)) (img_rec im)
                                      (ckpts x) (argmax x)) e)
    | None => (false, e)
    end;
  acquirePrefixImage k e := pin S k e;
  releasePrefixImage k e := pin pred k e;
  drainPrefixImageFrees e := e;
  setServingSlotSampling i sp _ e :=
    upd_cell i (fun x => mkCell (rows x) (rec x) (ckpts x) sp) e;
  setServingSlotToolConstraint i tc e :=
    match tc with
    | None => e
    | Some _ => upd_cell i (fun x => mkCell (rows x) (rec x) (ckpts x) false) e
    end;
}.

(** The images carry the state of their token prefix under distinct keys, and no
    slot has a checkpoint. *)
Record dev_ok (e : Dev) : Prop := {
  dev_ckpts : forall i, ckpts (cell e i) = [];
  dev_images : forall im, im ∈ images e ->
    img_rows im = img_toks im /\ img_rec im = img_toks im /\ (img_key im < nextKey e)%N;
  dev_keys : NoDup (map img_key (images e));
}.

#[global] Instance list_view : EngineView := {
  holds e i l := take (length l) (rows (cell e i)) = l /\ rec (cell e i) = l;
  greedyIn e i := argmax (cell e i) = true;
  isGreedy sp tc := sp && bool_decide (tc = None);
  next l := out_of l l;
  engine_ok := dev_ok;
}.

(** ** The laws *)

Lemma cell_set i j x e : cell (set_cell i x e) j = if decide (i = j) then x else cell e j.
Proof.
  unfold cell, set_cell. cbn [cells]. case_decide as Hd; [subst j|].
  - by rewrite lookup_insert_eq.
  - by rewrite lookup_insert_ne.
Qed.

Lemma cell_upd i j f e :
  cell (upd_cell i f e) j = if decide (i = j) then f (cell e i) else cell e j.
Proof. apply cell_set. Qed.

(** A change of slots that leaves checkpoints empty keeps the device well formed. *)
Lemma dev_ok_upd e i f :
  dev_ok e -> (forall x, ckpts x = [] -> ckpts (f x) = []) -> dev_ok (upd_cell i f e).
Proof.
  intros [H1 H2 H3] Hf. split; [|done..]. intros j. rewrite cell_upd. case_decide; [|done].
  by apply Hf.
Qed.

Lemma write_rows_take p ch kv :
  p <= length kv -> take (p + length ch) (write_rows p ch kv) = take p kv ++ ch.
Proof.
  intros Hp. unfold write_rows. rewrite app_assoc, take_app_le.
  - apply take_ge. rewrite length_app, length_take. lia.
  - rewrite length_app, length_take. lia.
Qed.

(** Feeding behind [l] gives the state of [l ++ ch]. *)
Lemma feed_holds p ch x l :
  length l = p -> (p = 0 \/ (take (length l) (rows x) = l /\ rec x = l)) ->
  take (length (l ++ ch)) (rows (feed p ch x)) = l ++ ch /\ rec (feed p ch x) = l ++ ch.
Proof.
  intros Hl H. unfold feed. cbn [rows rec]. rewrite length_app.
  destruct H as [->|[Hr Hh]].
  - apply nil_length_inv in Hl as ->. split; [|done].
    apply (write_rows_take 0). lia.
  - split.
    + rewrite Hl, write_rows_take; [by rewrite <- Hl, Hr|].
      rewrite <- Hl, <- Hr at 1. rewrite length_take. lia.
    + destruct (Nat.eqb_spec p 0) as [->|]; [|by rewrite Hh].
      apply nil_length_inv in Hl as ->. done.
Qed.

Lemma pick_greedy p x l :
  length l = p -> argmax x = true -> take (length l) (rows x) = l -> rec x = l ->
  pick p x = out_of l l.
Proof. intros <- Ha Hr Hh. unfold pick. by rewrite Ha, Hr, Hh. Qed.

Lemma feed_one e i p ch l :
  fedBy e i p l ->
  let e' := upd_cell i (feed p ch) e in
  holds e' i (l ++ ch) /\
  (argmax (cell e i) = true -> pick (p + length ch) (cell e' i) = out_of (l ++ ch) (l ++ ch)).
Proof.
  intros [Hl Hf]. cbn zeta. destruct (feed_holds p ch (cell e i) l Hl Hf) as [H1 H2].
  unfold holds. cbn [list_view]. rewrite cell_upd, decide_True by done. split; [done|].
  intros Ha. apply pick_greedy; [rewrite length_app; lia|done..].
Qed.

Lemma feed_all_spec work : forall i0 e outs e',
  feed_all i0 work e = (outs, e') -> dev_ok e ->
  dev_ok e' /\ (forall i, argmax (cell e i) = true -> argmax (cell e' i) = true) /\
  (forall i, i < i0 \/ i0 + length work <= i -> same_slot e e' i) /\
  forall k ch p l, work !! k = Some (ch, p) -> fedBy e (i0 + k) p l ->
    holds e' (i0 + k) (l ++ ch) /\
    (greedyIn e (i0 + k) -> exists lp, outs !! k = Some (next (l ++ ch), lp)).
Proof.
  induction work as [|[ch0 p0] work IH]; intros i0 e outs e' Hf Hok; simpl in Hf.
  { injection Hf as <- <-. split; [done|]. split; [done|]. by split. }
  set (e1 := upd_cell i0 (feed p0 ch0) e) in *.
  destruct (feed_all (S i0) work e1) as [outs' e2] eqn:Hrec. injection Hf as <- <-.
  assert (Hok1 : dev_ok e1) by by apply dev_ok_upd.
  assert (H1 : forall i, i <> i0 -> same_slot e e1 i).
  { intros i Hi. unfold same_slot, holds, greedyIn, e1. cbn [list_view].
    by rewrite cell_upd, decide_False by congruence. }
  assert (Ha1 : forall i, argmax (cell e i) = true -> argmax (cell e1 i) = true).
  { intros i Ha. unfold e1. rewrite cell_upd. case_decide; [by subst|done]. }
  destruct (IH (S i0) e1 outs' e2 Hrec Hok1) as (R1 & R2 & R3 & R4).
  assert (Hi0 : same_slot e1 e2 i0) by (apply R3; left; lia).
  split; [done|]. split; [auto|]. split.
  - intros i Hi. destruct (H1 i) as [A1 A2]; [simpl in Hi; lia|].
    destruct (R3 i) as [B1 B2]; [simpl in Hi; lia|]. split; auto.
  - intros [|k] ch p l Hk Hfed.
    + simpl in Hk. injection Hk as <- <-. rewrite Nat.add_0_r in *.
      destruct (feed_one e i0 p0 ch0 l Hfed) as [F1 F2]. split; [by apply Hi0|].
      intros Ha. exists tt. simpl. by rewrite <- F2.
    + destruct (H1 (i0 + S k)) as [A1 A2]; [lia|]. rewrite <- Nat.add_succ_comm in *.
      destruct (R4 k ch p l) as [C1 C2]; [done| |].
      * destruct Hfed as [? [?|?]]; split; auto.
      * split; [done|]. intros Ha. apply C2. by apply A2.
Qed.

Lemma keeps_upd i f :
  (forall x, rows (f x) = rows x /\ rec (f x) = rec x /\ argmax (f x) = argmax x) ->
  (forall x, ckpts x = [] -> ckpts (f x) = []) -> keeps (upd_cell i f).
Proof.
  intros Hf Hc e Hok. split; [by apply dev_ok_upd|]. intros j.
  destruct (Hf (cell e i)) as (F1 & F2 & F3).
  unfold same_slot, holds, greedyIn. cbn [list_view]. rewrite cell_upd.
  destruct (decide (i = j)) as [<-|]; [|done]. by rewrite F1, F2, F3.
Qed.

Lemma keeps_pin f k : keeps (pin f k).
Proof.
  intros e [H1 H2 H3]. split; [|done]. split; [done|..]; unfold pin; cbn [images nextKey].
  - intros im Him. apply list_elem_of_fmap in Him as (x & -> & Hx).
    destruct (H2 x Hx) as (? & ? & ?). by destruct (N.eqb (img_key x) k).
  - rewrite map_map. erewrite map_ext; [exact H3|]. intros x. by destruct (N.eqb _ _).
Qed.

Lemma best_image_spec l ims im :
  best_image l ims = Some im -> im ∈ ims /\ img_toks im `prefix_of` l.
Proof.
  unfold best_image.
  assert (H : forall ims acc, (forall a, acc = Some a -> img_toks a `prefix_of` l) ->
    forall im, fold_left (fun acc im =>
      if bool_decide (img_toks im `prefix_of` l) then
        match acc with
        | Some a => if length (img_toks a) <? length (img_toks im) then Some im else acc
        | None => Some im
        end
      else acc) ims acc = Some im ->
    (acc = Some im \/ im ∈ ims) /\ img_toks im `prefix_of` l).
  { clear. induction ims as [|x ims IH]; intros acc Hacc im; cbn [fold_left].
    - intros ->. split; [by left|]. by apply Hacc.
    - intros H. apply IH in H as [H Hp].
      + split; [|done]. destruct H as [H|H]; [|right; by right].
        case_bool_decide; [|by left]. destruct acc as [a|].
        * destruct (_ <? _); [|by left]. injection H as ->. right. by left.
        * injection H as ->. right. by left.
      + intros a Ha. case_bool_decide; [|by apply Hacc]. destruct acc as [a'|].
        * destruct (_ <? _); [by injection Ha as <-|by apply Hacc].
        * by injection Ha as <-. }
  intros Hb. destruct (H ims None ltac:(done) im Hb) as [[?|?] ?]; done.
Qed.

Lemma find_key ims im :
  NoDup (map img_key ims) -> im ∈ ims ->
  find (fun x => N.eqb (img_key x) (img_key im)) ims = Some im.
Proof.
  induction ims as [|x ims IH]; simpl; [by rewrite elem_of_nil|].
  intros Hnd Hin. apply NoDup_cons in Hnd as [Hx Hnd]. apply elem_of_cons in Hin as [->|Hin].
  - by rewrite N.eqb_refl.
  - destruct (N.eqb_spec (img_key x) (img_key im)) as [Heq|]; [|by apply IH].
    destruct Hx. rewrite Heq. by apply list_elem_of_fmap_2.
Qed.

Lemma find_image_in ims k im :
  find (fun x => N.eqb (img_key x) k) ims = Some im -> im ∈ ims /\ img_key im = k.
Proof.
  induction ims as [|x ims IH]; simpl; [done|].
  destruct (N.eqb_spec (img_key x) k) as [<-|].
  - intros [= ->]. split; [by left|done].
  - intros H. destruct (IH H) as [? ?]. split; [by right|done].
Qed.

Lemma dev_ok_snapshot e i p l :
  dev_ok e -> take (length (take p l)) (rows (cell e i)) = take p l ->
  rec (cell e i) = take p l -> p <= length l ->
  dev_ok (snapshotSlotToPrefixImage i p l e).
Proof.
  intros [H1 H2 H3] Hr Hh Hp. split; [done|..]; cbn.
  - intros im [Him|Him]%elem_of_app; [destruct (H2 im Him) as (? & ? & ?); split_and!; [done..|lia]|].
    apply list_elem_of_singleton in Him as ->. cbn. rewrite length_take in Hr.
    replace (Nat.min p (length l)) with p in Hr by lia. split_and!; [done..|lia].
  - rewrite map_app. apply NoDup_app. split; [done|]. split.
    + intros k Hk Hk'. apply list_elem_of_singleton in Hk' as ->.
      apply list_elem_of_fmap in Hk as (im & Heq & Him). destruct (H2 im Him) as (_ & _ & Hlt).
      cbn in Heq. lia.
    + apply NoDup_singleton.
Qed.

Lemma dev_ok_restore e i k e' ok :
  restorePrefixImageToSlot i k e = (ok, e') -> dev_ok e ->
  dev_ok e' /\ (forall j, j <> i -> same_slot e e' j) /\
  (ok = true -> exists im, im ∈ images e /\ img_key im = k /\ holds e' i (img_toks im)).
Proof.
  cbn. destruct (find _ (images e)) as [im|] eqn:Hf; intros [= <- <-] Hok; cycle 1.
  { split; [done|]. split; [|done]. intros j _. split; auto. }
  destruct (find_image_in _ _ _ Hf) as [Him Hk].
  destruct (dev_images _ Hok im Him) as (R1 & R2 & _). split; [by apply dev_ok_upd|]. split.
  - intros j Hj. unfold same_slot, holds, greedyIn. cbn [list_view].
    by rewrite cell_upd, decide_False by congruence.
  - intros _. exists im. split; [done|]. split; [done|]. rewrite cell_upd, decide_True by done.
    cbn [rows rec]. split; [|done]. rewrite R1.
    apply (write_rows_take 0). lia.
Qed.

Lemma lookup_combine {A B} (l : list A) : forall (l' : list B) k a x,
  l !! k = Some a -> l' !! k = Some x -> combine l l' !! k = Some (a, x).
Proof.
  induction l as [|y l IH]; intros [|y' l'] [|k] a x Ha Hx; simplify_eq/=; [done|].
  by apply IH.
Qed.

Lemma list_lawful : Lawful.
Proof.
  split.
  - intros steps e r e' Hst Hok Hsteps. cbn in Hst.
    destruct (feed_all 0 _ e) as [outs e1] eqn:Hf. injection Hst as <- <-.
    destruct (feed_all_spec _ _ _ _ _ Hf Hok) as (F1 & F2 & F3 & F4).
    split; [done|]. split; [done|]. split.
    + intros i Hi. apply F3. rewrite length_map. lia.
    + intros i st l Hi Hfed. apply (F4 i [st_token st] (st_pos st) l); [|done].
      by rewrite list_lookup_fmap, Hi.
  - intros i ch p last e r e' Hp Hok _. cbn in Hp. injection Hp as <- <-.
    set (e1 := upd_cell i (feed p ch) e).
    assert (Hne : forall j, j <> i -> same_slot e e1 j).
    { intros j Hj. unfold same_slot, holds, greedyIn, e1. cbn [list_view].
      by rewrite cell_upd, decide_False by congruence. }
    split; [by apply dev_ok_upd|]. split; [|split; [done|]].
    + unfold greedyIn, e1. cbn [list_view]. by rewrite cell_upd, decide_True by done.
    + intros l Hfed. destruct (feed_one e i p ch l Hfed) as [G1 G2]. split; [done|].
      intros _ Ha. by apply G2.
  - intros i0 chunks starts e r e' Hb Hok Hlen _. cbn in Hb.
    destruct (feed_all i0 _ e) as [outs e1] eqn:Hf. injection Hb as <- <-.
    destruct (feed_all_spec _ _ _ _ _ Hf Hok) as (F1 & F2 & F3 & F4).
    split; [done|]. split; [done|]. split.
    + intros i Hi. apply F3. rewrite length_combine. lia.
    + intros k ch p l Hk Hp Hfed. apply (F4 k ch p l); [|done].
      by apply lookup_combine.
  - intros i p e Hok. cbn. rewrite (dev_ckpts _ Hok). simpl. split; [done|]. intros j. split; auto.
  - intros i p. apply (keeps_upd i (fun x => mkCell (rows x) (rec x)
      (List.filter (fun k => fst k <=? p) (ckpts x)) (argmax x))); [done|]. cbn. by intros x ->.
  - intros i. by apply (keeps_upd i (fun x => mkCell (rows x) (rec x) [] (argmax x))).
  - intros k. apply (keeps_pin S k).
  - intros k. apply (keeps_pin pred k).
  - intros e Hok. split; [done|]. intros j. split; auto.
  - intros i p l e Hok Hp [Hr Hh]. split; [by apply dev_ok_snapshot|]. intros j. split; auto.
  - intros l e hit e' Hl Hok. cbn in Hl. injection Hl as <- <-. split; [done|].
    split; [intros j; split; auto|]. intros p k i e'' Hhit Hre.
    destruct (best_image l (images e)) as [im|] eqn:Hb; [|done]. cbn in Hhit.
    injection Hhit as <- <-. destruct (best_image_spec _ _ _ Hb) as [Him Hpre].
    destruct (dev_ok_restore _ _ _ _ _ Hre Hok) as (_ & _ & (im' & I1 & I2 & I3)); [done|].
    assert (im' = im) as ->.
    { pose proof (find_key _ _ (dev_keys _ Hok) Him) as E1.
      pose proof (find_key _ _ (dev_keys _ Hok) I1) as E2. rewrite I2, E1 in E2. congruence. }
    destruct Hpre as [rest ->]. by rewrite take_app_length.
  - intros i k e ok e' Hre Hok. destruct (dev_ok_restore _ _ _ _ _ Hre Hok) as (R1 & R2 & _).
    done.
  - intros i sp tc l e Hok. cbn zeta. cbn [setServingSlotSampling list_engine].
    set (e1 := upd_cell i (fun x => mkCell (rows x) (rec x) (ckpts x) sp) e).
    set (e2 := setServingSlotToolConstraint i tc e1).
    assert (Hc : forall j, rows (cell e2 j) = rows (cell e j) /\ rec (cell e2 j) = rec (cell e j) /\
        (j <> i -> argmax (cell e2 j) = argmax (cell e j)) /\
        (sp && bool_decide (tc = None) = true -> argmax (cell e2 i) = true)).
    { intros j. unfold e2. destruct tc; cbn [setServingSlotToolConstraint list_engine];
        unfold e1; rewrite ?cell_upd; repeat case_decide; subst; cbn [rows rec argmax];
        split_and!; try done; intros Hsp; by destruct sp. }
    split; [|split; [|split]].
    + unfold e2. destruct tc; cbn [setServingSlotToolConstraint list_engine];
        repeat apply dev_ok_upd; done.
    + intros j l'. unfold holds. cbn [list_view]. destruct (Hc j) as (-> & -> & _). done.
    + intros j Hj. unfold greedyIn. cbn [list_view]. destruct (Hc j) as (_ & _ & H & _).
      by rewrite H.
    + unfold greedyIn, isGreedy. cbn [list_view]. by apply (Hc i).
Qed.
End ListEngine.
