(* ===== verification/ContinuousBatcherProofs.v ===== *)
(** * The continuous batcher: theorems

    One turn of the worker keeps the invariant and, while work remains, makes
    progress; hence the bounds on requests in flight, the exactness of every
    greedy stream, and the completion of everything accepted.  The file also
    holds the laws of the thinking budget and of the mixed forward's rows; the
    witnesses run [ListEngine]. *)

From S2P Require Import Prelude ContinuousBatcher BatcherInvariant BatcherSteps ListEngine.

Module ContinuousBatcherProofs.
Import BatcherSteps.

(** ** Turns of the worker *)

Section Worker.
Context {EN : Engine} {EV : EngineView}.

(** A queued request ends at shutdown. *)
Lemma good_dequeue c Q d b0 b p rest g :
  good c Q d b0 (b <| _waiting := p :: rest |>) -> ends g ->
  good c Q d b0 ((upd_req (p_req p) g b) <| _waiting := rest |>).
Proof.
  intros [Hinv [H1 H2 H3 H4 H5]] Hg.
  destruct (inv_wait _ _ _ Hinv p ltac:(by left)) as (Hp & r & Hr & Hd & He & Ht & Hlen).
  cbn in Hp, Hr. destruct (Hg r) as (E1 & E2 & E3 & E4 & E5 & E6).
  assert (Hreq : reqs (upd_req (p_req p) g b) = <[p_req p := g r]> (reqs b))
    by by apply alter_as_insert.
  assert (Hpl : p_req p < length (reqs b)) by by eapply lookup_lt_Some.
  set (b' := (upd_req (p_req p) g b) <| _waiting := rest |>).
  assert (Hself : reqs b' !! p_req p = Some (g r)) by 
    (change (reqs b') with (reqs (upd_req (p_req p) g b)); rewrite Hreq;
     by apply list_lookup_insert_eq).
  assert (Hoth : forall h, h <> p_req p -> reqs b' !! h = reqs b !! h)
    by (intros h Hne; change (reqs b') with (reqs (upd_req (p_req p) g b)); rewrite Hreq;
        by apply list_lookup_insert_ne).
  assert (Hten : forall h, tenantId (request b' h) = tenantId (request b h)).
  { intros h. destruct (decide (h = p_req p)) as [->|Hne].
    - by rewrite (request_lookup _ _ _ Hself), (request_lookup b _ _ Hr).
    - unfold request. rewrite !nth_lookup. by rewrite Hoth. }
  assert (Hl : live (b <| _waiting := p :: rest |>) = p_req p :: live b') by done.
  pose proof (inv_nodup _ _ _ Hinv) as Hnd. rewrite Hl in Hnd.
  apply NoDup_cons in Hnd as [Hni Hnd].
  split.
  - destruct Hinv. rewrite Hl in *. split; try done.
    + change (reqs b') with (reqs (upd_req (p_req p) g b)). rewrite Hreq, length_insert.
      apply inv_sub_len0.
    + intros q Hq. destruct (inv_wait0 q ltac:(by right)) as (Hq1 & rq & Hq2 & Hq3).
      split; [done|]. exists rq. split; [|done]. rewrite Hoth; [done|].
      intros Heq. destruct Hni. rewrite <- Heq. by apply live_waiting.
    + intros i s Hi Ho. destruct (inv_slot0 i s Hi Ho) as (q & rq & (Q1 & Q2 & Q3 & Q4) & Q5).
      exists q, rq. split; [|done]. split; [done|]. split; [|done]. rewrite Hoth; [done|].
      intros Heq. destruct Hni. rewrite <- Heq. eapply live_slot; [done|done|apply Q3].
    + intros h x Hx Hdx. destruct (decide (h = p_req p)) as [->|Hne]; [congruence|].
      rewrite Hoth in Hx by done. specialize (inv_live0 h x Hx Hdx). set_solver.
    + intros h q x Hq Hx Hdx. destruct (decide (h = p_req p)) as [->|Hne].
      * assert (x = g r) as -> by congruence. split; [|naive_solver]. rewrite E2, Ht.
        split; [done|]. intros k Hk. simpl in Hk. lia.
      * rewrite Hoth in Hx by done. by eapply inv_fin0.
    + intros h x Hx. destruct (decide (h = p_req p)) as [->|Hne].
      * assert (x = g r) as -> by congruence. rewrite E2, E3. by eapply inv_lp0.
      * rewrite Hoth in Hx by done. by eapply inv_lp0.
    + simpl in inv_cap0. lia.
    + intros Hpos tn Htn. rewrite (tenant_count_ext (b <| _waiting := p :: rest |>) b') by done.
      etrans; [|exact (inv_tenant0 Hpos tn Htn)]. cbn [count_if]. lia.
  - split; try done.
    + intros h x Hx. destruct (H2 h x Hx) as (y & Hy & Hle). cbn in Hy.
      destruct (decide (h = p_req p)) as [->|Hne]; [|by exists y; rewrite Hoth].
      exists (g r). split; [done|]. assert (y = r) as -> by congruence.
      destruct Hle as (L1 & L2 & L3). split; [by rewrite E2|]. split; [|auto].
      intros Hdx. destruct (L2 Hdx). congruence.
    + intros Hq. destruct (H4 Hq) as (Q1 & Q2 & Q3). split; [done|]. split; [done|].
      unfold work in *. simpl in *. lia.
    + intros Hq Htk. destruct (H5 Hq Htk) as [T1 T2]. split; [|done].
      unfold work in *. simpl in *. lia.
Qed.

(** ** Shutdown *)

Definition stopReq (q : ServingRequest) : ServingRequest :=
  finish "batcher stopped" (q <| cancelled := true |>).

Lemma ends_stop : ends stopReq.
Proof. intros r. repeat (split; [done|]). by left. Qed.

Definition freeSlot (i : nat) : t -> t :=
  upd_slot i (fun s => s <| occupied := false |> <| req := None |>).

Definition stopSlot (i : nat) (b : t) : t :=
  if occupied (slot b i) then freeSlot i (upd_slot_req i stopReq b) else b.

Lemma slot_upd_slot b i f j :
  slot (upd_slot i f b) j =
  if decide (i = j) then (if decide (i < length (_slots b)) then f (slot b i) else emptySlot)
  else slot b j.
Proof.
  unfold slot, upd_slot. change (_slots (b <| _slots := alter f i (_slots b) |>))
    with (alter f i (_slots b)). rewrite !nth_lookup. case_decide as Hd; [subst j|].
  - rewrite list_lookup_alter_eq. case_decide as Hl.
    + destruct (_slots b !! i) eqn:H; [done|]. apply lookup_ge_None in H. lia.
    + rewrite (lookup_ge_None_2 (_slots b)) by lia. done.
  - by rewrite list_lookup_alter_ne.
Qed.

Lemma stopSlot_occupied i b j :
  occupied (slot (stopSlot i b) j) = if decide (i = j) then false else occupied (slot b j).
Proof.
  unfold stopSlot. destruct (occupied (slot b i)) eqn:Ho; [|case_decide; congruence].
  unfold freeSlot. rewrite slot_upd_slot.
  assert (Hs : forall k, slot (upd_slot_req i stopReq b) k = slot b k)
    by (intros k; unfold upd_slot_req; by destruct (req (slot b i))).
  case_decide; [by case_decide|]. by rewrite Hs.
Qed.

Lemma stopSlots_occupied l : forall b j,
  occupied (slot (fold_left (fun b i => stopSlot i b) l b) j) =
  if decide (j ∈ l) then false else occupied (slot b j).
Proof.
  induction l as [|i l IH]; intros b j; cbn [fold_left].
  { by rewrite decide_False by set_solver. }
  rewrite IH, stopSlot_occupied. destruct (decide (j ∈ l)); [by rewrite decide_True by set_solver|].
  destruct (decide (i = j)); [by rewrite decide_True by set_solver|].
  by rewrite decide_False by set_solver.
Qed.

Lemma stopSlots_length l : forall b,
  length (_slots (fold_left (fun b i => stopSlot i b) l b)) = length (_slots b).
Proof.
  induction l as [|i l IH]; intros b; cbn [fold_left]; [done|]. rewrite IH.
  unfold stopSlot, freeSlot, upd_slot, upd_slot_req. destruct (occupied _); [|done].
  cbn. rewrite length_alter. by destruct (req (slot b i)).
Qed.

Lemma stopSlots_waiting l : forall b,
  _waiting (fold_left (fun b i => stopSlot i b) l b) = _waiting b.
Proof.
  induction l as [|i l IH]; intros b; cbn [fold_left]; [done|]. rewrite IH.
  unfold stopSlot, freeSlot, upd_slot, upd_slot_req. destruct (occupied _); [|done].
  cbn. by destruct (req (slot b i)).
Qed.

Lemma live_nil b : _waiting b = [] ->
  (forall i, i < length (_slots b) -> occupied (slot b i) = false) -> live b = [].
Proof.
  intros Hw Ho. unfold live. rewrite Hw. simpl.
  assert (H : forall s, s ∈ _slots b -> occupied s = false).
  { intros s [i Hi]%list_elem_of_lookup. rewrite <- (slot_lookup _ _ _ Hi). apply Ho.
    by eapply lookup_lt_Some. }
  induction (_slots b) as [|s l IH]; simpl; [done|]. unfold handle_of at 1.
  rewrite H by set_solver. apply IH; set_solver.
Qed.

Lemma good_shutdown c d b0 b :
  good c (settled c []) d b0 b ->
  good c (settled c []) d b0 (shutdown b) /\ live (shutdown b) = [].
Proof.
  intros Hg. unfold shutdown. fold stopReq.
  set (b1 := fold_left (fun b p => upd_req (p_req p) stopReq b) (_waiting b) b).
  set (b2 := b1 <| _waiting := [] |>).
  assert (Hg2 : good c (settled c []) d b0 b2).
  { assert (H : forall w x, good c (settled c []) d b0 (x <| _waiting := w |>) ->
        good c (settled c []) d b0
          ((fold_left (fun b p => upd_req (p_req p) stopReq b) w x) <| _waiting := [] |>)).
    { induction w as [|p w IH]; intros x Hx; cbn [fold_left]; [done|].
      apply IH. by apply (good_dequeue c _ d b0 x p w stopReq Hx ends_stop). }
    apply H. by destruct b. }
  change (fold_left _ (seq 0 (length (_slots b2))) b2)
    with (fold_left (fun b i => stopSlot i b) (seq 0 (length (_slots b2))) b2).
  split.
  - apply (good_fold c id (fun _ _ _ s p r => endable c s p r) stopSlot).
    + intros i _. split; [apply stable_endable|]. split.
      * apply advances_handles, (advances_end c stopReq freeSlot i ends_stop).
        by apply frees_upd.
      * apply accepts_settled. set_solver.
    + apply stable_settled.
    + rewrite map_id. apply NoDup_seq.
    + eapply good_view; try done; [apply Hg2|]. intros i s p r Hi Ho (_ & _ & Hsv & _) Hs. split.
      * intros _ _ _. by eapply settled_endable.
      * done.
  - apply live_nil; [by rewrite stopSlots_waiting|]. intros i Hi. rewrite stopSlots_length in Hi.
    rewrite stopSlots_occupied. apply decide_True. apply elem_of_seq. lia.
Qed.

(** ** One turn *)

Lemma lock_quiet c b : quiet b -> lock_mtx c b = b.
Proof. intros [H _]. unfold lock_mtx. by rewrite H. Qed.

Lemma work_zero c b : _waiting b = [] ->
  (forall i s, _slots b !! i = Some s -> occupied s = false) -> work c b = 0.
Proof.
  intros Hw Ho. unfold work. rewrite Hw. simpl.
  assert (H : forall s, s ∈ _slots b -> slot_work c s = 0).
  { intros s [i Hi]%list_elem_of_lookup. unfold slot_work. by rewrite (Ho i s Hi). }
  clear Ho Hw. induction (_slots b) as [|s l IH]; simpl; [done|].
  rewrite H by set_solver. apply IH. set_solver.
Qed.

Lemma activePrefix_zero l : activePrefix l = 0 <-> forall i s, l !! i = Some s -> occupied s = false.
Proof.
  destruct (activePrefix_spec l) as (A1 & A2 & A3). split.
  - intros Hz i s Hi. destruct (occupied s) eqn:Ho; [|done]. specialize (A2 i s Hi Ho). lia.
  - intros H. destruct (decide (activePrefix l = 0)); [done|].
    destruct (A3 ltac:(lia)) as (s & Hs & Ho). by rewrite (H _ _ Hs) in Ho.
Qed.

Lemma good_turn c b : wf_config c -> inv c (settled c []) b ->
  exists d, good c (settled c []) d b (snd (workerIteration c b)) /\
    (fst (workerIteration c b) = false -> live (snd (workerIteration c b)) = []) /\
    (quiet b -> _running b = true -> tick_ok c b ->
     fst (workerIteration c b) = true /\ (work c b = 0 \/ 0 < d)).
Proof.
  intros Hwf Hinv.
  destruct (good_lock c _ 0 b b (stable_settled c []) (good_refl c _ b Hinv)) as (Hg0 & Hs0 & _).
  unfold workerIteration. set (b1 := lock_mtx c b) in *.
  destruct (_running b1) eqn:Hrun; cbn [negb].
  2: { exists 0. cbn [fst snd]. destruct (good_shutdown c 0 b b1 Hg0) as [H1 H2].
       split; [done|]. split; [done|]. intros Hq Hr. unfold b1 in Hrun.
       rewrite (lock_quiet c b Hq) in Hrun. congruence. }
  pose proof (good_admission c b1 Hwf (proj1 Hg0)) as Hadm.
  destruct (admission c b1) as [tp b2]. destruct Hadm as (n & Hg1 & Hnd & Hz).
  assert (Hg2 : good c (settled c tp) n b b2).
  { split; [apply Hg1|]. eapply evolves_trans; [apply Hg0|apply Hg1|lia]. }
  destruct (Nat.eqb_spec (activePrefix (_slots b2)) 0) as [Hap|Hap].
  { exists n. cbn [fst snd]. pose proof (proj1 (activePrefix_zero _) Hap) as Hfree. split.
    - eapply good_view; try done; [apply Hg2|]. intros i s p r Hi Ho.
      by rewrite (Hfree i s Hi) in Ho.
    - split; [done|]. intros Hq Hr Htk. split; [done|].
      destruct n as [|n]; [|right; lia]. left. destruct (Hz eq_refl) as (_ & Hs & Hw).
      unfold b1 in *. rewrite (lock_quiet c b Hq) in *.
      assert (Hw' : _waiting b = []).
      { destruct Hw as [Hw|Hw]; [done|]. exfalso.
        pose proof (wf_batch c Hwf) as Hb. rewrite <- (inv_len _ _ _ Hinv), <- Hs in Hb.
        destruct (lookup_lt_is_Some_2 (_slots b2) 0 Hb) as [s0 Hs0'].
        pose proof (Hfree 0 s0 Hs0') as Ho. rewrite Hs in Hs0'.
        assert (Hf : free_at b 0) by by exists s0.
        pose proof (pickColdSlot_None b 0 Hw Hf) as Hmax.
        rewrite (slot_lookup _ _ _ Hs0') in Hmax.
        destruct Htk as [Htk1 Htk2]. pose proof (Htk2 s0 (list_elem_of_lookup_2 _ _ _ Hs0')).
        lia. }
      apply work_zero; [done|]. intros i s Hi. apply (Hfree i s). by rewrite Hs. }
  assert (Hg3 : good c (settled c []) n b (runPrefills c tp b2)) by by apply good_runPrefills.
  assert (Hsame : n = 0 -> runPrefills c tp b2 = b2).
  { intros ->. destruct (Hz eq_refl) as (-> & _). unfold runPrefills. by destruct (_ || _). }
  set (b3 := runPrefills c tp b2) in *.
  assert (Hfin : forall b4 b', _slots b4 = _slots b3 ->
      good c (settled c []) (n + Nat.min 1 (activePrefix (_slots b4))) b b' ->
      exists d, good c (settled c []) d b b' /\ 0 < d).
  { intros b4 b' Hs4 Hg4. eexists. split; [exact Hg4|]. destruct n as [|n]; [|lia].
    rewrite Hs4, (Hsame eq_refl). lia. }
  assert (Hend : forall b', (exists d, good c (settled c []) d b b' /\ 0 < d) ->
    exists d, good c (settled c []) d b (snd (true, b')) /\
      (fst (true, b') = false -> live (snd (true, b')) = []) /\
      (quiet b -> _running b = true -> tick_ok c b ->
       fst (true, b') = true /\ (work c b = 0 \/ 0 < d))).
  { intros b' (d & H1 & H2). exists d. split; [done|]. split; [done|]. intros _ _ _.
    split; [done|by right]. }
  destruct (_mixedStep c) eqn:Hmix; cycle 1.
  { apply Hend, (Hfin b3); [done|]. apply good_decodeStep; [done|congruence]. }
  destruct (good_lock c _ n b b3 (stable_settled c []) Hg3) as (Hg4 & Hs4 & _).
  set (b4 := lock_mtx c b3) in *.
  destruct (anyPrefilling b4) eqn:Hany.
  - apply Hend, (Hfin b4); [done|]. by apply good_runMixedStep.
  - apply Hend, (Hfin b4); [done|]. by apply good_decodeStep.
Qed.

(** Any number of turns. *)
Lemma good_loop c n : wf_config c -> forall b, inv c (settled c []) b ->
  good c (settled c []) 0 b (workerLoop n c b).
Proof.
  intros Hwf. induction n as [|n IH]; intros b Hinv; simpl; [by apply good_refl|].
  destruct (good_turn c b Hwf Hinv) as (d & Hg & _).
  destruct (workerIteration c b) as [run b']. cbn [fst snd] in Hg.
  destruct run; [|eapply good_weaken; [done|lia]].
  split; [apply IH, Hg|]. eapply evolves_trans; [apply Hg|apply IH, Hg|lia].
Qed.

Lemma inv_start c e script_mtx script_req :
  wf_config c -> (track c -> engine_ok e) ->
  inv c (settled c []) (start c e script_mtx script_req).
Proof.
  intros Hwf He. unfold start.
  assert (Hl : live (mkBatcher (replicate (_maxBatch c) emptySlot) [] 0%N true [] e script_mtx
      script_req []) = []).
  { apply live_nil; [done|]. intros i _. unfold slot. cbn [_slots].
    rewrite nth_lookup. destruct (replicate _ _ !! i) eqn:H; [|done].
    by apply lookup_replicate_1 in H as [-> _]. }
  split; rewrite ?Hl; try done.
  - apply length_replicate.
  - set_solver.
  - intros i s Hi Ho. cbn [_slots] in Hi. apply lookup_replicate_1 in Hi as [-> _]. done.
  - constructor.
  - cbn [length]. lia.
  - intros. cbn [count_if]. lia.
Qed.

(** With enough turns and no client events, everything in flight is done. *)
Lemma loop_drains c : wf_config c -> forall n b, inv c (settled c []) b -> quiet b ->
  _running b = true -> tick_ok c b -> work c b <= n ->
  live (workerLoop n c b) = [].
Proof.
  intros Hwf. induction n as [|n IH]; intros b Hinv Hq Hrun Htk Hw.
  - simpl. apply live_nil.
    + destruct (_waiting b) eqn:Hwt; [done|]. unfold work in Hw. rewrite Hwt in Hw. simpl in Hw. lia.
    + intros i Hi. destruct (occupied (slot b i)) eqn:Ho; [|done]. exfalso.
      pose proof (occupied_slot _ _ Ho) as Hs.
      destruct (inv_slot _ _ _ Hinv i _ Hs Ho) as (p & r & (_ & _ & Hsv & _) & Hset).
      pose proof (endable_work c _ _ _ (settled_endable _ _ _ _ _ _ _ Hset Hsv) Ho) as Hpos.
      unfold work in Hw. pose proof (list_sum_insert (slot_work c) _ i _ emptySlot Hs) as Hsum.
      assert (slot_work c emptySlot = 0) by done. lia.
  - simpl. destruct (good_turn c b Hwf Hinv) as (d & [Hinv' Hev] & _ & Hpr).
    destruct (Hpr Hq Hrun Htk) as [Hrt Hd].
    destruct (workerIteration c b) as [run b']. cbn [fst snd] in *. subst run.
    destruct (ev_quiet _ _ _ _ Hev Hq) as (Hq' & Hr' & Hw').
    apply IH; try done; [congruence|by apply (ev_tick _ _ _ _ Hev)|lia].
Qed.

(** Later turns only extend what earlier turns did. *)
Lemma good_later c m n : wf_config c -> forall b, inv c (settled c []) b ->
  good c (settled c []) 0 (workerLoop m c b) (workerLoop (m + n) c b).
Proof.
  intros Hwf. induction m as [|m IH]; intros b Hinv; simpl; [by apply good_loop|].
  destruct (good_turn c b Hwf Hinv) as (d & Hg & _).
  destruct (workerIteration c b) as [run b']. cbn [fst snd] in Hg.
  destruct run; [|by apply good_refl, Hg]. by apply IH, Hg.
Qed.

Lemma inv_reachable c e script_mtx script_req n :
  wf_config c -> (track c -> engine_ok e) ->
  inv c (settled c []) (workerLoop n c (start c e script_mtx script_req)).
Proof.
  intros Hwf He.
  exact (proj1 (good_loop c n Hwf _ (inv_start c e script_mtx script_req Hwf He))).
Qed.

(** A handle is in flight exactly while its request is not done. *)
Lemma live_undone c Q b h r :
  inv c Q b -> reqs b !! h = Some r -> (done r = false <-> h ∈ live b).
Proof.
  intros Hinv Hr. split; [by apply (inv_live _ _ _ Hinv)|].
  intros [(p & Hp & <-)|(i & s & Hi & Ho & Hh)]%live_inv.
  - destruct (inv_wait _ _ _ Hinv p Hp) as (_ & r' & Hr' & Hd & _). congruence.
  - destruct (inv_slot _ _ _ Hinv i s Hi Ho) as (p & r' & (_ & Hr' & Hsv & Hd & _) & _).
    destruct Hsv as [Hreq _]. congruence.
Qed.

(** [inflight] and [countTenantLocked] count the handles in flight. *)
Lemma inflight_live c Q b : inv c Q b -> inflight b = length (live b).
Proof.
  intros Hinv. unfold inflight, live, activeSlots. rewrite length_app, length_map. f_equal.
  assert (Hreq : forall s, s ∈ _slots b -> occupied s = true -> is_Some (req s)).
  { intros s [i Hi]%list_elem_of_lookup Ho.
    destruct (inv_slot _ _ _ Hinv i s Hi Ho) as (p & r & (_ & _ & (H & _) & _) & _).
    rewrite H. by exists (p_req p). }
  clear Hinv. revert Hreq. generalize (_slots b). intros l.
  induction l as [|s l IH]; intros Hreq; [done|].
  cbn [count_if omap list_omap]. rewrite IH by (intros; apply Hreq; [by right|done]).
  unfold handle_of. destruct (occupied s) eqn:Ho; [|done].
  destruct (Hreq s ltac:(by left) Ho) as [h ->]. done.
Qed.

Lemma tenant_live b tn : tn <> EmptyString ->
  countTenantLocked b tn = count_if (fun h => String.eqb (tenantId (request b h)) tn) (live b).
Proof.
  intros Hne. unfold countTenantLocked, live. rewrite count_if_app.
  destruct (String.eqb_spec tn EmptyString) as [|_]; [done|]. f_equal.
  - generalize (_waiting b). intros l. induction l as [|p l IH]; [done|]. simpl. by rewrite IH.
  - generalize (_slots b). intros l. induction l as [|s l IH]; [done|].
    cbn [count_if omap list_omap]. rewrite IH. unfold handle_of.
    destruct (occupied s), (req s); done.
Qed.

(** Every stream, of a running or a finished request, is a prefix the request
    may have produced. *)
Lemma stream_prefix_inv c b h p r :
  inv c (settled c []) b -> submitted b !! h = Some p -> reqs b !! h = Some r ->
  stream_prefix c p (tokens r).
Proof.
  intros Hinv Hp Hr. destruct (done r) eqn:Hd; [by apply (inv_fin _ _ _ Hinv h p r)|].
  pose proof (inv_live _ _ _ Hinv h r Hr Hd) as Hl.
  apply live_inv in Hl as [(q & Hq & <-)|(i & s & Hi & Ho & Hh)].
  - destruct (inv_wait _ _ _ Hinv q Hq) as (_ & r' & Hr' & _ & _ & Ht & _).
    assert (r' = r) as -> by congruence. rewrite Ht. split; [done|]. intros k Hk. simpl in Hk. lia.
  - destruct (inv_slot _ _ _ Hinv i s Hi Ho) as (q & r' & (Hq & Hr' & (Hreq & _) & _) & Hset).
    assert (h = p_req q) as -> by congruence. assert (r' = r) as -> by congruence.
    assert (q = p) as -> by congruence. destruct Hset as (Hph & Hs & _). split.
    + intros Htr Hg. by apply Hs.
    + intros k Hk. destruct Hph as [| | |? ? ? ? ? ? ? Hn]; [..|by apply Hn; lia];
        match goal with Ht : tokens r = [] |- _ => rewrite Ht in Hk; simpl in Hk; lia end.
Qed.
End Worker.

(** ** A concrete run

    Three clients on two slots with the mixed step, the cross-slot store and a
    cap of two requests per tenant; a fourth submission is over its tenant's
    quota. *)

Import ListEngine.

Definition demo : Config :=
  mkConfig 2 12 22 3 2 2 0 false true false 4 true true 0 0 0 [].

Definition demo_clients : list (list Event) :=
  [ [ESubmit [1; 2; 3; 4; 5]%Z 4 [] "a" true None; ESubmit [1; 2; 3]%Z 3 [] "a" true None;
     ESubmit [7]%Z 3 [] "a" true None];
    [ESubmit [1; 2; 9]%Z 2 [] "b" true None] ].

Lemma demo_wf : wf_config demo.
Proof. split; cbn; lia. Qed.

Lemma emptyDev_ok : dev_ok emptyDev.
Proof. split; [done|by intros im ?%elem_of_nil|constructor]. Qed.

#[local] Abbreviation demo_run n := (workerLoop n demo (start demo emptyDev demo_clients [[]])).

Definition submission (b : t) (h : nat) : Pending :=
  nth h (submitted b) (mkPending 0 [] 0 [] true None).

Lemma lookup_nth {A} (l : list A) i d : i < length l -> l !! i = Some (nth i l d).
Proof.
  intros Hi. destruct (lookup_lt_is_Some_2 _ _ Hi) as [x Hx].
  by rewrite (nth_lookup_Some _ _ _ _ Hx).
Qed.

(** ** Properties of the worker *)

(** The view of an engine that promises nothing. *)
#[local] Instance noView (EN : Engine) : EngineView | 100 := {
  holds _ _ _ := False;
  greedyIn _ _ := False;
  isGreedy _ _ := false;
  next _ := 0%Z;
  engine_ok _ := True;
}.

(** C2: Whatever the engine answers or throws and whatever the clients do at the
    worker's lock points, after any number of turns: the slot table keeps its
    size, the requests in flight stay within [_maxInflight] and each tenant's
    within [_maxInflightPerTenant], no request is queued or running twice, a
    request is in flight exactly while it is not done, it carries one logprob
    record per token, and later turns only extend its stream and never touch it
    once it is done. *)
Theorem batcher_invariant (EN : Engine) c e script_mtx script_req m n :
  wf_config c ->
  let b := workerLoop m c (start c e script_mtx script_req) in
  let b' := workerLoop (m + n) c (start c e script_mtx script_req) in
  length (_slots b) = _maxBatch c /\
  inflight b <= _maxInflight c /\
  (0 < _maxInflightPerTenant c -> forall tn, tn <> EmptyString ->
    countTenantLocked b tn <= _maxInflightPerTenant c) /\
  NoDup (live b) /\
  (forall h r, reqs b !! h = Some r ->
    (done r = false <-> h ∈ live b) /\ length (tokens r) = length (logprobs r) /\
    exists r', reqs b' !! h = Some r' /\ tokens r `prefix_of` tokens r' /\
      (done r = true -> done r' = true /\ tokens r' = tokens r /\ error r' = error r)).
Proof.
  intros Hwf b b'.
  pose proof (inv_reachable (EV := noView EN) c e script_mtx script_req m Hwf ltac:(done)) as Hinv.
  fold b in Hinv. split; [apply Hinv|]. split.
  { rewrite (inflight_live _ _ _ Hinv). apply Hinv. }
  split.
  { intros Hpos tn Htn. rewrite tenant_live by done. by apply Hinv. }
  split; [apply Hinv|]. intros h r Hr. split; [by eapply live_undone|].
  split; [by eapply Hinv|].
  destruct (good_later (EV := noView EN) c m n Hwf _
    (inv_start (EV := noView EN) c e script_mtx script_req Hwf ltac:(done))) as [_ Hev].
  destruct (ev_req _ _ _ _ Hev h r Hr) as (r' & Hr' & H1 & H2 & _). by exists r'.
Qed.

Lemma batcher_invariant_witness :
  inflight (demo_run 1) = 3 /\ countTenantLocked (demo_run 1) "a" = 2 /\
  forall r, reqs (demo_run 1) !! 0 = Some r ->
    exists r', reqs (demo_run (1 + 2)) !! 0 = Some r' /\ tokens r `prefix_of` tokens r'.
Proof.
  split; [by vm_compute|]. split; [by vm_compute|]. intros r Hr.
  destruct (batcher_invariant list_engine demo emptyDev demo_clients [[]] 1 2 demo_wf)
    as (_ & _ & _ & _ & H).
  destruct (H 0 r Hr) as (_ & _ & r' & Hr' & Hp & _). exists r'. exact (conj Hr' Hp).
Defined.

(** C1: With an engine that keeps its serving contract and no slot kept warm, a
    greedy request's stream is token for token the stream of the same request
    served alone: however it is batched, chunked, prefilled together with
    others, restored from a cross-slot prefix image or forced by the thinking
    budget, and whatever runs beside it. *)
Theorem streams_exact (EN : Engine) (EV : EngineView) c e script_mtx script_req n :
  wf_config c -> Lawful -> _warmSlot c = false -> engine_ok e ->
  let b := workerLoop n c (start c e script_mtx script_req) in
  forall h p r, submitted b !! h = Some p -> reqs b !! h = Some r -> greedy p = true ->
    tokens r = fst (ref c p (length (tokens r))).
Proof.
  intros Hwf Hlaw Hwarm He b h p r Hp Hr Hg.
  pose proof (inv_reachable c e script_mtx script_req n Hwf (fun _ => He)) as Hinv.
  by apply (stream_prefix_inv c b h p r Hinv Hp Hr).
Qed.

Lemma streams_exact_witness :
  length (tokens (request (demo_run 3) 0)) = 4 /\
  tokens (request (demo_run 3) 0) =
    fst (ref demo (submission (demo_run 3) 0) (length (tokens (request (demo_run 3) 0)))).
Proof.
  split; [vm_compute; reflexivity|].
  apply (streams_exact list_engine list_view demo emptyDev demo_clients [[]] 3 demo_wf
           list_lawful eq_refl emptyDev_ok 0).
  - apply lookup_nth, Nat.ltb_lt. vm_compute. reflexivity.
  - apply lookup_nth, Nat.ltb_lt. vm_compute. reflexivity.
  - vm_compute. reflexivity.
Defined.

(** No stream runs past a stop condition (end of sequence, stop id, token
    budget, full context), and a finished request that was neither cancelled nor
    failed ends exactly where a stop condition holds, for every engine. *)
Theorem streams_end_at_stop (EN : Engine) c e script_mtx script_req n :
  wf_config c ->
  let b := workerLoop n c (start c e script_mtx script_req) in
  forall h p r, submitted b !! h = Some p -> reqs b !! h = Some r ->
    (forall k, k < length (tokens r) -> stopNow c p (take k (tokens r)) = false) /\
    (done r = true -> cancelled r = false -> error r = EmptyString ->
      stopNow c p (tokens r) = true).
Proof.
  intros Hwf b h p r Hp Hr.
  pose proof (inv_reachable (EV := noView EN) c e script_mtx script_req n Hwf ltac:(done)) as Hinv.
  split; [by apply (stream_prefix_inv c b h p r Hinv Hp Hr)|].
  intros Hd Hc He. destruct (inv_fin _ _ _ Hinv h p r Hp Hr Hd) as [_ [H|[H|H]]]; congruence.
Qed.

Lemma streams_end_at_stop_witness :
  done (request (demo_run 3) 0) = true /\
  stopNow demo (submission (demo_run 3) 0) (tokens (request (demo_run 3) 0)) = true.
Proof.
  split; [vm_compute; reflexivity|].
  apply (streams_end_at_stop list_engine demo emptyDev demo_clients [[]] 3 demo_wf 0).
  - apply lookup_nth, Nat.ltb_lt. vm_compute. reflexivity.
  - apply lookup_nth, Nat.ltb_lt. vm_compute. reflexivity.
  - vm_compute. reflexivity.
  - vm_compute. reflexivity.
  - vm_compute. reflexivity.
Defined.

(** C6: Once the clients are quiet, the worker finishes everything in flight
    within [work] turns: nothing is queued or running any more and every request
    ever submitted is done, with a reason.  No engine answer can starve a
    request, a failing forward included. *)
Theorem serving_drains (EN : Engine) c e script_mtx script_req m n :
  wf_config c ->
  let b := workerLoop m c (start c e script_mtx script_req) in
  quiet b -> _running b = true -> tick_ok c b -> work c b <= n ->
  let b' := workerLoop n c b in
  live b' = [] /\
  forall h p r, submitted b' !! h = Some p -> reqs b' !! h = Some r ->
    done r = true /\
    (cancelled r = true \/ error r <> EmptyString \/ stopNow c p (tokens r) = true).
Proof.
  intros Hwf b Hq Hrun Htk Hw b'.
  pose proof (inv_reachable (EV := noView EN) c e script_mtx script_req m Hwf ltac:(done)) as Hinv.
  fold b in Hinv.
  pose proof (loop_drains (EV := noView EN) c Hwf n b Hinv Hq Hrun Htk Hw) as Hl.
  split; [exact Hl|]. intros h p r Hp Hr.
  pose proof (proj1 (good_loop (EV := noView EN) c n Hwf b Hinv)) as Hinv'. fold b' in Hinv'.
  assert (Hd : done r = true).
  { destruct (done r) eqn:Hd; [done|].
    apply (live_undone _ _ _ _ _ Hinv' Hr) in Hd. unfold b' in Hd. rewrite Hl in Hd.
    by apply elem_of_nil in Hd. }
  split; [done|]. by apply (inv_fin _ _ _ Hinv' h p r).
Qed.

Lemma serving_drains_witness :
  work demo (demo_run 1) = 27 /\ length (live (demo_run 1)) = 3 /\
  live (workerLoop 27 demo (demo_run 1)) = [].
Proof.
  split; [by vm_compute|]. split; [by vm_compute|].
  apply (serving_drains list_engine demo emptyDev demo_clients [[]] 1 27 demo_wf).
  - split; apply nil_length_inv; vm_compute; reflexivity.
  - vm_compute; reflexivity.
  - split; [vm_compute; reflexivity|]. intros s Hs.
    assert (H : forallb (fun s => (residentTick s <=? 0)%N) (_slots (demo_run 1)) = true)
      by (vm_compute; reflexivity).
    apply list_elem_of_In in Hs. apply (proj1 (forallb_forall _ _) H), N.leb_le in Hs.
    etrans; [exact Hs|apply N.le_0_l].
  - apply Nat.leb_le. vm_compute; reflexivity.
Defined.

(** ** Construction *)

(** The constructor throws exactly on a zero batch or context size;
    otherwise it yields the configuration every other theorem asks for: slots
    exist, the admission bound is never below the running capacity, and the mixed
    step is on only with a positive chunk and row budget.  Hypothesis: the engine
    reports a positive row budget only when it reports a positive chunk. *)
Theorem create_config getenv info maxBatch maxContext eosId maxInflight perTenant :
  (servingPrefillMaxRows info <> 0 -> servingPrefillChunk info <> 0) ->
  match create getenv info maxBatch maxContext eosId maxInflight perTenant with
  | Throw _ => maxBatch = 0 \/ maxContext = 0
  | Ok c =>
      0 < maxContext /\ wf_config c /\
      _maxBatch c = maxBatch /\ _maxContext c = maxContext /\
      _maxInflight c = Nat.max maxInflight maxBatch /\
      (0 < _thinkBudget c -> (0 <= _thinkStartId c /\ 0 <= _thinkEndId c)%Z /\
         _thinkEndId c ∈ _thinkForceSeq c) /\
      (_warmSlot c = true \/ _xslot c = true -> 0 < _prefillChunk c)
  end.
Proof.
  intros Hrows. unfold create.
  destruct (Nat.eqb_spec maxBatch 0) as [->|Hb]; cbn [orb]; [by left|].
  destruct (Nat.eqb_spec maxContext 0) as [->|Hx]; [by right|].
  cbn zeta. cbn [_maxBatch _maxContext _maxInflight _thinkBudget _thinkStartId _thinkEndId
    _thinkForceSeq _warmSlot _xslot _prefillChunk].
  split; [lia|]. split; [|split; [done|split; [done|split; [done|split]]]].
  - split; cbn [_maxBatch _maxInflight _mixedStep _prefillChunk _prefillMaxRows]; [lia..|].
    intros H. apply andb_prop in H as [H _]. apply andb_prop in H as [_ H].
    apply negb_true_iff, Nat.eqb_neq in H. specialize (Hrows H). lia.
  - intros Hpos. destruct (getenv "MIMIRMIND_THINKING_TOKEN_BUDGET"); [|by apply Nat.lt_irrefl in Hpos].
    destruct (_ && _) eqn:Hids; [|by apply Nat.lt_irrefl in Hpos].
    apply andb_prop in Hids as [H1 H2]. apply Z.leb_le in H1, H2. split; [done|].
    rewrite (proj2 (Nat.ltb_lt _ _) Hpos). unfold forceSequence.
    apply elem_of_app. right. apply elem_of_app. left. by apply list_elem_of_singleton.
  - assert (Hopt : forall v : option string,
      match v with
      | Some x => (0 <? strtol x)%Z && (backendNeedsSsmScratch info && (0 <? servingPrefillChunk info))
      | None => backendNeedsSsmScratch info && (0 <? servingPrefillChunk info)
      end = true -> 0 < servingPrefillChunk info).
    { intros v Hv. destruct v; repeat (apply andb_prop in Hv as [? Hv]); by apply Nat.ltb_lt. }
    intros [H|H]; by apply Hopt in H.
Qed.

Definition demo_info : EngineInfo :=
  mkInfo 512 2048 true "qwen35moe" (fun _ => 151668%Z) (fun _ => [1%Z]).

Lemma create_config_witness :
  exists c, create (fun _ => None) demo_info 4 4096 7 0 0 = Ok c /\ wf_config c.
Proof.
  pose proof (create_config (fun _ => None) demo_info 4 4096 7 0 0 (fun _ => Nat.neq_succ_0 511)) as H.
  destruct (create _ _ _ _ _ _ _) as [c|x]; [|by destruct H]. exists c. split; [done|apply H].
Defined.

(** ** Rows of the mixed step *)

(** What a prefilling slot asks for. *)
Definition wanted (c : Config) (s : Slot) : nat :=
  Nat.min (_prefillChunk c) (promptLen s - prefillPos s).

Definition isPrefilling {EN : Engine} (s : Slot) : bool :=
  occupied s && (prefillPos s <? promptLen s).

(** The rows of a mixed forward: every slot of the prefix gets at least one,
    in slot order, a prefilling slot a chunk of its own prompt from where it
    stands and never more than it asks for; together they take at most the extra
    budget above one row per slot, and either spend it or leave no prefill
    waiting.  A slot is marked as finishing exactly when its chunk reaches the
    end of its prompt. *)
Theorem mixed_rows_budget {EN : Engine} c slots extra :
  0 < _prefillChunk c ->
  Forall (fun s => length (prompt s) = promptLen s) slots ->
  let rows := mixedRows c slots extra in
  let total := list_sum (map (fun r => length (chunk r)) rows) in
  length rows = length slots /\
  Forall2 (fun s r =>
    1 <= length (chunk r) /\
    (occupied s = false -> chunk r = [0%Z] /\ rowReq r = None) /\
    (occupied s = true -> rowReq r = req s /\ prefilling r = isPrefilling s) /\
    (isPrefilling s = true ->
      length (chunk r) <= wanted c s /\ startPos r = prefillPos s /\
      chunk r = take (length (chunk r)) (drop (prefillPos s) (prompt s)) /\
      newPrefillPos r = prefillPos s + length (chunk r) /\
      (finishesPrefill r = true <-> newPrefillPos r = promptLen s)) /\
    (isPrefilling s = false -> length (chunk r) = 1)) slots rows /\
  total <= length slots + extra /\
  (total = length slots + extra \/
   Forall2 (fun s r => isPrefilling s = true -> length (chunk r) = wanted c s) slots rows).
Proof.
  intros HC Hpl. cbn zeta. revert extra.
  induction Hpl as [|s slots Hs Hpl IH]; intros extra.
  { split; [done|]. split; [constructor|]. split; [simpl; lia|]. right. constructor. }
  cbn [mixedRows]. unfold isPrefilling in *. destruct (occupied s) eqn:Ho; cbn [negb andb].
  2: { destruct (IH extra) as (I1 & I2 & I3 & I4). cbn [map list_sum length chunk].
       split; [by rewrite I1|]. split; [|split; [simpl in *; lia|]].
       - constructor; [|done]. rewrite Ho. cbn. repeat (split; [lia || done|]). done.
       - destruct I4 as [I4|I4]; [left; simpl in *; lia|right]. constructor; [|done]. by rewrite Ho. }
  destruct (Nat.ltb_spec (prefillPos s) (promptLen s)) as [Hlt|Hge].
  2: { destruct (IH extra) as (I1 & I2 & I3 & I4). cbn [map list_sum length chunk].
       split; [by rewrite I1|]. split; [|split; [simpl in *; lia|]].
       - constructor; [|done]. rewrite Ho. destruct (Nat.ltb_spec (prefillPos s) (promptLen s)); [lia|].
         cbn. repeat (split; [lia || done|]). done.
       - destruct I4 as [I4|I4]; [left; simpl in *; lia|right]. constructor; [|done].
         rewrite Ho. destruct (Nat.ltb_spec (prefillPos s) (promptLen s)); [lia|done]. }
  set (want := Nat.min (_prefillChunk c) (promptLen s - prefillPos s)).
  set (taken := Nat.min (want - 1) extra).
  assert (Hw : 1 <= want) by (unfold want; lia).
  assert (Hlen : length (take (1 + taken) (drop (prefillPos s) (prompt s))) = 1 + taken).
  { rewrite length_take, length_drop, Hs. unfold taken, want. lia. }
  destruct (IH (extra - taken)) as (I1 & I2 & I3 & I4).
  rewrite map_cons, list_sum_cons. cbn [length chunk]. rewrite Hlen.
  assert (Htk : taken = Nat.min (want - 1) extra) by done. clearbody taken.
  split; [by rewrite I1|]. split; [|split; [lia|]].
  - constructor; [|done]. rewrite Ho. destruct (Nat.ltb_spec (prefillPos s) (promptLen s)); [|lia].
    cbn [chunk rowReq prefilling startPos newPrefillPos finishesPrefill]. rewrite Hlen.
    split; [lia|]. split; [done|]. split; [done|]. split; [|done]. intros _.
    split; [unfold wanted; fold want; lia|]. split; [done|]. split; [done|]. split; [done|].
    apply Nat.eqb_eq.
  - destruct I4 as [I4|I4]; [left; lia|].
    destruct (decide (want - 1 <= extra)) as [Hle|Hgt].
    + right. constructor; [|done]. intros _. cbn [chunk]. rewrite Hlen. unfold wanted. fold want. lia.
    + destruct (decide (taken = extra)) as [He|]; [|lia]. left.
      assert (Hz : extra - taken = 0) by lia. rewrite Hz in *.
      assert (Hge : length slots <= list_sum (map (fun r => length (chunk r)) (mixedRows c slots 0))).
      { clear -I2. induction I2 as [|? ? ? ? [H _]]; simpl; lia. }
      lia.
Qed.

Lemma mixed_rows_budget_witness :
  let s := fun pr pp => mkSlot true (Some 0) pr (length pr) 0 0 4 0 [] pp false [] 0 0 0 false 0 false 0 in
  list_sum (map (fun r => length (chunk r))
    (mixedRows demo [s [1; 2; 3; 4]%Z 1; emptySlot; s [5]%Z 1; s [6; 7; 8]%Z 0] 1)) <= 5.
Proof.
  cbn zeta. apply (mixed_rows_budget (EN := list_engine) demo
    [mkSlot true (Some 0) [1; 2; 3; 4]%Z 4 0 0 4 0 [] 1 false [] 0 0 0 false 0 false 0; emptySlot;
     mkSlot true (Some 0) [5]%Z 1 0 0 4 0 [] 1 false [] 0 0 0 false 0 false 0;
     mkSlot true (Some 0) [6; 7; 8]%Z 3 0 0 4 0 [] 0 false [] 0 0 0 false 0 false 0] 1).
  - cbn. lia.
  - repeat constructor.
Defined.

(** ** Thinking budget *)

(** What a slot emits for a sequence of sampled tokens. *)
Fixpoint thinkRun (c : Config) (s : Slot) (raw : list Z) : list Z :=
  match raw with
  | [] => []
  | x :: raw' => let '(s, tk) := applyThinkBudget c s x in tk :: thinkRun c s raw'
  end.

(** The tokens forced once the budget is spent. *)
Definition forced (c : Config) : list Z :=
  match _thinkForceSeq c with [] => [_thinkEndId c] | l => l end.

Lemma thinkRun_closed c raw : forall s, forcing s = false -> thinkOpen s = false ->
  thinkRun c s raw = raw.
Proof.
  induction raw as [|x raw IH]; intros s Hf Ho; [done|].
  cbn [thinkRun]. unfold applyThinkBudget. rewrite Hf, Ho. cbn [negb]. by rewrite IH.
Qed.

Lemma thinkRun_forcing c raw : forall s, forcing s = true -> forceIdx s < length (_thinkForceSeq c) ->
  thinkRun c s raw =
    take (length raw) (drop (forceIdx s) (_thinkForceSeq c)) ++
    drop (length (_thinkForceSeq c) - forceIdx s) raw.
Proof.
  induction raw as [|x raw IH]; intros s Hf Hi.
  { cbn [thinkRun length]. by rewrite take_0, drop_nil. }
  cbn [thinkRun]. unfold applyThinkBudget. rewrite Hf. unfold forceNext.
  destruct (lookup_lt_is_Some_2 _ _ Hi) as [y Hy].
  rewrite (nth_lookup_Some _ _ _ _ Hy), (drop_S _ _ _ Hy).
  cbn [set_field set_forceIdx forceIdx]. set (s1 := set_forceIdx _ _).
  assert (Hs1 : forcing s1 = true /\ forceIdx s1 = S (forceIdx s)) by done.
  clearbody s1. destruct Hs1 as [Hf1 Hi1].
  destruct (Nat.leb_spec (length (_thinkForceSeq c)) (S (forceIdx s))) as [Hle|Hgt].
  - rewrite thinkRun_closed by done. cbn [length take].
    replace (length (_thinkForceSeq c) - forceIdx s) with 1 by lia.
    rewrite drop_ge by lia. by rewrite take_nil.
  - rewrite IH by (done || lia). rewrite Hi1. cbn [length take app].
    by replace (length (_thinkForceSeq c) - forceIdx s)
      with (S (length (_thinkForceSeq c) - S (forceIdx s))) by lia.
Qed.

(** The budget is spent: the forced sequence starts with this token. *)
Lemma thinkRun_spent c x raw s :
  forcing s = false -> thinkOpen s = true -> x <> _thinkEndId c ->
  _thinkBudget c <= S (reasoningTokens s) ->
  thinkRun c s (x :: raw) = take (length (x :: raw)) (forced c) ++ drop (length (forced c)) (x :: raw).
Proof.
  intros Hf Ho Hx Hb. unfold forced. cbn [thinkRun]. unfold applyThinkBudget.
  rewrite Hf, Ho. cbn [negb]. rewrite (proj2 (Z.eqb_neq _ _) Hx).
  set (s1 := s <| reasoningTokens := S (reasoningTokens s) |>).
  assert (Hs1 : forcing s1 = false /\ reasoningTokens s1 = S (reasoningTokens s)) by done.
  clearbody s1. destruct Hs1 as [Hf1 Hr1].
  rewrite Hr1, (proj2 (Nat.leb_le _ _) Hb).
  destruct (_thinkForceSeq c) as [|y l] eqn:Hq.
  { rewrite thinkRun_closed by done. cbn [length take app drop].
    by rewrite take_nil. }
  set (s2 := s1 <| forcing := true |> <| forceIdx := 0 |>).
  assert (Hs2 : forcing s2 = true /\ forceIdx s2 = 0) by done. clearbody s2.
  destruct Hs2 as [Hf2 Hi2].
  pose proof (thinkRun_forcing c (x :: raw) s2 Hf2) as H. cbn [thinkRun] in H.
  unfold applyThinkBudget in H. rewrite Hf2 in H. rewrite H; rewrite Hi2, Hq; simpl; [|lia].
  done.
Qed.

Lemma thinkRun_open c raw : forall s,
  forcing s = false -> thinkOpen s = true -> reasoningTokens s < _thinkBudget c ->
  let left := _thinkBudget c - reasoningTokens s in
  (_thinkEndId c ∈ take left raw -> thinkRun c s raw = raw) /\
  (_thinkEndId c ∉ take left raw ->
   thinkRun c s raw = take (left - 1) raw ++ take (length raw - (left - 1)) (forced c) ++
                      drop (left - 1 + length (forced c)) raw).
Proof.
  induction raw as [|x raw IH]; intros s Hf Ho Hr; cbn zeta.
  { rewrite !take_nil, drop_nil. simpl. by split. }
  destruct (decide (x = _thinkEndId c)) as [->|Hx].
  { split.
    - intros _. cbn [thinkRun]. unfold applyThinkBudget. rewrite Hf, Ho, Z.eqb_refl. cbn [negb].
      by rewrite thinkRun_closed.
    - intros H. destruct H. destruct (_thinkBudget c - reasoningTokens s) eqn:?; [lia|]. by left. }
  destruct (decide (_thinkBudget c <= S (reasoningTokens s))) as [Hs|Hs].
  { replace (_thinkBudget c - reasoningTokens s) with 1 by lia. split.
    - intros [H|H]%elem_of_cons; [congruence|]. by apply elem_of_nil in H.
    - intros _. rewrite thinkRun_spent by done. cbn [Nat.sub]. by rewrite take_0, Nat.sub_0_r. }
  assert (Hstep : exists s', thinkRun c s (x :: raw) = x :: thinkRun c s' raw /\
      forcing s' = false /\ thinkOpen s' = true /\ reasoningTokens s' = S (reasoningTokens s)).
  { exists (s <| reasoningTokens := S (reasoningTokens s) |>). cbn [thinkRun]. unfold applyThinkBudget. rewrite Hf, Ho. cbn [negb].
    rewrite (proj2 (Z.eqb_neq _ _) Hx).
    set (s1 := s <| reasoningTokens := S (reasoningTokens s) |>).
    assert (Hs1 : forcing s1 = false /\ thinkOpen s1 = true /\
      reasoningTokens s1 = S (reasoningTokens s)) by done.
    clearbody s1. destruct Hs1 as (H1 & H2 & H3). rewrite H3, (proj2 (Nat.leb_gt _ _)) by lia.
    by split_and!. }
  destruct Hstep as (s' & -> & Hf' & Ho' & Hr').
  destruct (IH s' Hf' Ho' ltac:(lia)) as [IH1 IH2]. rewrite Hr' in *.
  replace (_thinkBudget c - reasoningTokens s)
    with (S (_thinkBudget c - S (reasoningTokens s))) by lia.
  cbn [take]. split.
  - intros [H|H]%elem_of_cons; [congruence|]. by rewrite IH1.
  - intros H. rewrite IH2 by (intros ?; apply H; by right).
    destruct (_thinkBudget c - S (reasoningTokens s)) as [|k] eqn:Hk; [lia|].
    cbn [length take app]. replace (S (S k) - 1) with (S k) by lia. cbn [take app].
    f_equal. replace (S k - 1) with k by lia. done.
Qed.

Lemma lastThink_end c p : forall k a z, (_thinkStartId c <> _thinkEndId c) ->
  _thinkStartId c ∉ p -> _thinkEndId c ∉ p -> lastThink c k p a z = (a, z).
Proof.
  induction p as [|x p IH]; intros k a z Hne Hs He; [done|]. cbn [lastThink].
  apply not_elem_of_cons in Hs as [Hs1 Hs2]. apply not_elem_of_cons in He as [He1 He2].
  rewrite (proj2 (Z.eqb_neq _ _)) by congruence. rewrite (proj2 (Z.eqb_neq _ _)) by congruence.
  by apply IH.
Qed.

Lemma lastThink_app c p q : forall k a z,
  lastThink c k (p ++ q) a z =
    lastThink c (k + Z.of_nat (length p)) q (fst (lastThink c k p a z)) (snd (lastThink c k p a z)).
Proof.
  induction p as [|x p IH]; intros k a z; cbn [lastThink app length].
  - by rewrite Z.add_0_r.
  - rewrite Nat2Z.inj_succ. replace (k + Z.succ (Z.of_nat (length p)))%Z
      with (k + 1 + Z.of_nat (length p))%Z by lia.
    repeat destruct (_ =? _)%Z; apply IH.
Qed.

Lemma lastThink_bound c p : forall k a z, (z < k)%Z ->
  (snd (lastThink c k p a z) < k + Z.of_nat (length p))%Z.
Proof.
  induction p as [|x p IH]; intros k a z Hz; cbn [lastThink length]; [simpl; lia|].
  repeat destruct (_ =? _)%Z; (eapply Z.lt_le_trans; [apply IH; lia|lia]).
Qed.

(** A request whose prompt ends inside an open [<think>] block reasons for
    less than the budget: either the model closes the block within its first
    [_thinkBudget] tokens, and the stream is what it sampled, or the stream is
    what it sampled up to one token short of the budget, then the forced closing
    sequence, then again what it samples. *)
Theorem thinking_budget {EN : Engine} c pre suf s raw :
  let B := _thinkBudget c in
  0 < B -> (0 <= _thinkStartId c)%Z -> (0 <= _thinkEndId c)%Z ->
  _thinkStartId c <> _thinkEndId c ->
  prompt s = pre ++ [_thinkStartId c] ++ suf ->
  _thinkStartId c ∉ suf -> _thinkEndId c ∉ suf ->
  (_thinkEndId c ∈ take B raw -> thinkRun c (initThinkState c s) raw = raw) /\
  (_thinkEndId c ∉ take B raw ->
   thinkRun c (initThinkState c s) raw =
     take (B - 1) raw ++ take (length raw - (B - 1)) (forced c) ++
     drop (B - 1 + length (forced c)) raw).
Proof.
  intros B HB Hs He Hne Hp Hs1 Hs2.
  assert (Hinit : forcing (initThinkState c s) = false /\
      thinkOpen (initThinkState c s) = true /\ reasoningTokens (initThinkState c s) = 0).
  { unfold initThinkState. fold B.
    rewrite (proj2 (Nat.eqb_neq _ _)), !(proj2 (Z.ltb_ge _ _)) by lia. cbn [orb].
    set (s1 := _ <| forceIdx := 0 |>).
    assert (H1 : prompt s1 = prompt s /\ forcing s1 = false /\ reasoningTokens s1 = 0) by done.
    clearbody s1. destruct H1 as (H1 & H2 & H3). rewrite H1, Hp, lastThink_app.
    cbn [lastThink app]. rewrite Z.eqb_refl.
    rewrite lastThink_end by done. pose proof (lastThink_bound c pre 0 (-1) (-1) ltac:(lia)) as Hb.
    cbn. rewrite H2, H3. split; [done|]. split; [|done].
    rewrite (proj2 (Z.leb_le _ _)), (proj2 (Z.ltb_lt _ _)) by lia. done. }
  destruct Hinit as (H1 & H2 & H3).
  pose proof (thinkRun_open c raw _ H1 H2) as H. rewrite H3, Nat.sub_0_r in H. by apply H.
Qed.

(** Budget 3, closing sequence [8; 9] with [</think>] = 9. *)
Definition think_demo : Config :=
  mkConfig 1 64 2 1 0 4 0 false false false 0 false true 3 5 9 [8; 9]%Z.

Lemma thinking_budget_witness :
  thinkRun think_demo (initThinkState think_demo (emptySlot <| prompt := [1; 5; 6]%Z |>))
    [10; 11; 12; 13; 14; 15]%Z = [10; 11; 8; 9; 14; 15]%Z.
Proof.
  apply (thinking_budget (EN := list_engine) think_demo [1]%Z [6]%Z); try (cbn; lia); try done.
  - by intros [?|[]%elem_of_nil]%elem_of_cons.
  - by intros [?|[]%elem_of_nil]%elem_of_cons.
  - cbn. set_solver by lia.
Defined.

(** ** Behaviours the model shows *)

(** A decode step feeds an idle hole of the active prefix a dummy token at
    position 0, which overwrites the first KV row of the conversation that slot
    still holds for warm reuse: the third request continues the first one's
    conversation, three of its tokens are served from the slot, and its stream is
    not the one it has when served alone. *)
Definition warm_demo : Config :=
  mkConfig 2 32 (-1) 4 0 2 0 true false false 0 false true 0 0 0 [].

Definition warm_clients : list (list Event) :=
  [ESubmit [1; 2; 3]%Z 1 [] EmptyString true None; ESubmit [7; 8; 9]%Z 6 [] EmptyString true None]
  :: replicate 12 [] ++ [[ESubmit [1; 2; 3; 4]%Z 2 [] EmptyString true None]].

Example warm_hole_corrupts :
  let b := workerLoop 8 warm_demo (start warm_demo emptyDev warm_clients []) in
  (tokens (request b 2), cachedTokens (request b 2), done (request b 2)) =
    ([6; 11]%Z, 3, true) /\
  map (fun p => fst (ref warm_demo p 2)) (drop 2 (submitted b)) = [[18; 5]%Z].
Proof. split; vm_compute; reflexivity. Qed.

(** A request restored from a cross-slot prefix image that ends inside a mixed
    step never returns its pin: nothing is in flight and the image stays
    pinned. *)
Definition pin_demo : Config :=
  mkConfig 2 32 (-1) 8 0 2 0 false true false 4 true true 0 0 0 [].

Definition pin_clients : list (list Event) :=
  let long := ESubmit [7; 8; 9; 10; 11; 12; 13; 14]%Z 1 [] EmptyString true None in
  [ESubmit [1; 2; 3; 4; 5]%Z 1 [] EmptyString true None] :: replicate 4 [] ++
  [[ESubmit [1; 2; 3; 4; 5; 6]%Z 3 [] EmptyString true None]; []; []; []; [long; long; long]].

Example mixed_end_leaks_pin :
  let b := workerLoop 20 pin_demo (start pin_demo emptyDev pin_clients []) in
  length (live b) = 0 /\
  map (fun r => (done r, length (tokens r))) (reqs b) =
    [(true, 1); (true, 3); (true, 1); (true, 1); (true, 1)] /\
  map img_pins (images (engine b)) = [1; 0; 0].
Proof. split; [|split]; vm_compute; reflexivity. Qed.
End ContinuousBatcherProofs.
