(* ===== verification/Sampling.v ===== *)
(** * [Sampler]: choosing a token from a row of logits

    Models [src/src/compute/Sampling.{hpp,cpp}].  A [float] is a [spec_float] of
    the Standard Library at precision 24, exponent bound 128; sums the code keeps
    in [double] are at 53 / 1024.  The C library's [tanh] and [exp] on [float]
    are arguments ([tanhf], [expf]), as is the draw [u] of the uniform
    distribution.  [std::sort] and [std::partial_sort] leave the order of equal
    logits open: the order they produce is an argument [idx] that satisfies
    [sorts].  The RNG's seeding is not modelled. *)

From Stdlib Require Import SpecFloat.
From S2P Require Import Prelude.

Module Sampling.

(** ** Floats *)

Abbreviation f32 := spec_float.

Definition fadd (x y : f32) : f32 := SFadd 24 128 x y.
Definition fsub (x y : f32) : f32 := SFsub 24 128 x y.
Definition fmul (x y : f32) : f32 := SFmul 24 128 x y.
Definition fdiv (x y : f32) : f32 := SFdiv 24 128 x y.
Definition flt (x y : f32) : bool := SFltb x y.
Definition feq (x y : f32) : bool := SFeqb x y.
Definition f32_of_Z (n : Z) : f32 := binary_normalize 24 128 n 0 false.
Definition f0 : f32 := S754_zero false.
Definition f1 : f32 := f32_of_Z 1.
Definition negInf : f32 := S754_infinity true.

(** [static_cast] between [float] and [double]. *)
Definition reround (prec emax : Z) (x : spec_float) : spec_float :=
  match x with
  | S754_finite s m e => binary_normalize prec emax (cond_Zopp s (Zpos m)) e s
  | _ => x
  end.
Definition to_double : f32 -> spec_float := reround 53 1024.
Definition to_float : spec_float -> f32 := reround 24 128.
Definition dadd (x y : spec_float) : spec_float := SFadd 53 1024 x y.
Definition d1 : spec_float := binary_normalize 53 1024 1 0 false.

Definition is_nan (x : f32) : bool := match x with S754_nan => true | _ => false end.

(** ** Parameters *)

(** [src/src/compute/Sampling.hpp:39-113 SamplingParams] *)
Record SamplingParams := mkParams {
  temperature : f32;
  topK : nat;
  topP : f32;
  minP : f32;
  logitBias : list (Z * f32);
  badWords : list (list Z);
  frequencyPenalty : f32;
  presencePenalty : f32;
  repetitionPenalty : f32;
  penaltyWindow : N;
  finalLogitSoftcap : f32;
}.

(** The defaults: greedy, nothing else on. *)
Definition defaultParams : SamplingParams :=
  mkParams f0 0 f1 f0 [] [] f0 f0 f1 0 f0.

Definition eta_params (p : SamplingParams) : SamplingParams :=
  mkParams (temperature p) (topK p) (topP p) (minP p) (logitBias p) (badWords p)
    (frequencyPenalty p) (presencePenalty p) (repetitionPenalty p) (penaltyWindow p)
    (finalLogitSoftcap p).
#[global] Instance set_finalLogitSoftcap : FieldSetter finalLogitSoftcap :=
  ltac:(build_setter eta_params finalLogitSoftcap).

(** ** Greedy choice *)

(** The loop of [argmaxRow]: [best] is the index of [bestV], [i] the next index. *)
Fixpoint argmaxFrom (row : list f32) (i best : nat) (bestV : f32) : nat :=
  match row with
  | [] => best
  | x :: row' =>
      if flt bestV x then argmaxFrom row' (S i) i x else argmaxFrom row' (S i) best bestV
  end.

(** [src/src/compute/Sampling.cpp:15-28 argmaxRow] *)
Definition argmaxRow (row : list f32) : result nat :=
  match row with
  | [] => Throw (RuntimeError "Sampler: empty logits row")
  | x :: row' => Ok (argmaxFrom row' 1 0 x)
  end.

(** ** Logit processing *)

(** [src/src/compute/Sampling.cpp:30-35 penaltiesActive] *)
Definition penaltiesActive (p : SamplingParams) : bool :=
  (0 <? penaltyWindow p)%N &&
  (negb (feq (repetitionPenalty p) f1) || negb (feq (frequencyPenalty p) f0)
   || negb (feq (presencePenalty p) f0)).

(** The last [win] elements. *)
Definition tail_of {A} (win : nat) (l : list A) : list A := drop (length l - win) l.

(** How often token [i] occurs in the window; negative ids never match.
    [src/src/compute/Sampling.cpp:78-93 Sampler::applyPenalties] *)
Definition countIn (window : list Z) (i : nat) : nat :=
  count_if (fun t => Z.eqb t (Z.of_nat i)) window.

(** The new value of a logit that occurs [c] times in the window.
    [src/src/compute/Sampling.cpp:95-117 Sampler::applyPenalties] *)
Definition penalise (p : SamplingParams) (c : nat) (l : f32) : f32 :=
  if c =? 0 then l
  else
    let l := if negb (feq (repetitionPenalty p) f1)
             then if flt f0 l then fdiv l (repetitionPenalty p) else fmul l (repetitionPenalty p)
             else l in
    let l := if negb (feq (frequencyPenalty p) f0)
             then fsub l (fmul (frequencyPenalty p) (f32_of_Z (Z.of_nat c))) else l in
    if negb (feq (presencePenalty p) f0) then fsub l (presencePenalty p) else l.

(** [src/src/compute/Sampling.cpp:67-118 Sampler::applyPenalties] *)
Definition applyPenalties (recentTokens : list Z) (p : SamplingParams) (row : list f32)
    : list f32 :=
  match recentTokens with
  | [] => row
  | _ =>
      let n := length recentTokens in
      let window := tail_of (Nat.min (N.to_nat (penaltyWindow p)) n) recentTokens in
      imap (fun i l => penalise p (countIn window i) l) row
  end.

(** [src/src/compute/Sampling.cpp:167-175 Sampler::sample] *)
Definition applyBias (bias : list (Z * f32)) (row : list f32) : list f32 :=
  fold_left (fun row '(id, x) =>
    if (0 <=? id)%Z && (id <? Z.of_nat (length row))%Z
    then alter (fun l => fadd l x) (Z.to_nat id) row else row) bias row.

(** The tail of the history is the word without its last token.
    [src/src/compute/Sampling.cpp:184-189 Sampler::sample] *)
Definition completes (recentTokens : list Z) (word : list Z) : bool :=
  let pfx := length word - 1 in
  (pfx <=? length recentTokens) &&
  bool_decide (tail_of pfx recentTokens = take pfx word).

(** [src/src/compute/Sampling.cpp:176-197 Sampler::sample] *)
Definition applyBadWords (recentTokens : list Z) (words : list (list Z)) (row : list f32)
    : list f32 :=
  fold_left (fun row word =>
    match last word with
    | None => row
    | Some ban =>
        if completes recentTokens word && (0 <=? ban)%Z && (ban <? Z.of_nat (length row))%Z
        then <[Z.to_nat ban := negInf]> row else row
    end) words row.

Section Sample.
Variables tanhf expf : f32 -> f32.

(** [src/src/compute/Sampling.cpp:37-46 applyFinalLogitSoftcapInPlace] *)
Definition applyFinalLogitSoftcap (cap : f32) (row : list f32) : list f32 :=
  let invCap := fdiv f1 cap in
  map (fun l => fmul cap (tanhf (fmul l invCap))) row.

(** The row the choice is made on, when any processing is on.
    [src/src/compute/Sampling.cpp:153-199 Sampler::sample] *)
Definition processed (logits : list f32) (recentTokens : list Z) (p : SamplingParams)
    : list f32 :=
  let softcapOn := flt f0 (finalLogitSoftcap p) in
  let penaltyOn := penaltiesActive p && negb (length recentTokens =? 0) in
  let row := if softcapOn then applyFinalLogitSoftcap (finalLogitSoftcap p) logits else logits in
  let row := if penaltyOn then applyPenalties recentTokens p row else row in
  let row := applyBias (logitBias p) row in
  applyBadWords recentTokens (badWords p) row.

(** [temperature <= 0] or [topK == 1].
    [src/src/compute/Sampling.cpp:135-136 Sampler::sample] *)
Definition isGreedy (p : SamplingParams) : bool :=
  SFleb (temperature p) f0 || (topK p =? 1).

(** [src/src/compute/Sampling.cpp:224-230 Sampler::sample] *)
Definition keptOf (p : SamplingParams) (V : nat) : nat :=
  if (0 <? topK p) && (topK p <? V) then topK p else V.

(** What [std::sort] or [std::partial_sort] leave in [_idx]: all indices, the
    first [kept] in descending order of logit and none below a later one. *)
Definition sorts (eff : list f32) (kept : nat) (idx : list nat) : Prop :=
  idx ≡ₚ seq 0 (length eff) /\
  forall p q i j, p < q -> p < kept -> idx !! p = Some i -> idx !! q = Some j ->
    flt (nth i eff f0) (nth j eff f0) = false.

(** Sum of a list of probabilities, kept in [double]. *)
Definition dsum (l : list f32) : spec_float :=
  fold_left (fun acc x => dadd acc (to_double x)) l (S754_zero false).

(** The kept head scaled to sum to one; [None] when its mass is not positive.
    [src/src/compute/Sampling.cpp:273-286 Sampler::sample] *)
Definition renorm (probs : list f32) : option (list f32) :=
  let cum := dsum probs in
  if SFleb cum (S754_zero false) then None
  else
    let inv := to_float (SFdiv 53 1024 d1 cum) in
    Some (map (fun x => fmul x inv) probs).

(** The first index from [i] on whose probability is under the threshold.
    [src/src/compute/Sampling.cpp:267-271 Sampler::sample] *)
Fixpoint minPCut (thresh : f32) (i : nat) (probs : list f32) : nat :=
  match probs with
  | [] => i
  | x :: probs' => if flt x thresh then i else minPCut thresh (S i) probs'
  end.

(** [src/src/compute/Sampling.cpp:262-288 Sampler::sample] *)
Definition minPStep (p : SamplingParams) (probs : list f32) : option (list f32) :=
  let kept := length probs in
  if flt f0 (minP p) && (1 <? kept) then
    let thresh := fmul (minP p) (nth 0 probs f0) in
    let cut := minPCut thresh 1 (drop 1 probs) in
    if cut <? kept then renorm (take cut probs) else Some probs
  else Some probs.

(** The shortest head whose mass reaches [topP].
    [src/src/compute/Sampling.cpp:290-300 Sampler::sample] *)
Fixpoint topPCut (tp cum : spec_float) (i : nat) (probs : list f32) : nat :=
  match probs with
  | [] => i
  | x :: probs' =>
      let cum := dadd cum (to_double x) in
      if SFleb tp cum then S i else topPCut tp cum (S i) probs'
  end.

(** [src/src/compute/Sampling.cpp:289-316 Sampler::sample] *)
Definition topPStep (p : SamplingParams) (probs : list f32) : option (list f32) :=
  let kept := length probs in
  if flt f0 (topP p) && flt (topP p) f1 then
    let cut := topPCut (to_double (topP p)) (S754_zero false) 0 probs in
    if cut <? kept then renorm (take cut probs) else Some probs
  else Some probs.

(** The position the draw falls on, the last one when it falls on none.
    [src/src/compute/Sampling.cpp:317-329 Sampler::sample] *)
Fixpoint drawFrom (u cum : f32) (i : nat) (probs : list f32) : nat :=
  match probs with
  | [] => i - 1
  | x :: probs' =>
      let cum := fadd cum x in if flt u cum then i else drawFrom u cum (S i) probs'
  end.

(** [src/src/compute/Sampling.cpp:240-260 Sampler::sample] *)
Definition softmax (p : SamplingParams) (eff : list f32) (head : list nat) : option (list f32) :=
  let invT := fdiv f1 (temperature p) in
  let maxLogit := fmul (nth (nth 0 head 0) eff f0) invT in
  renorm (map (fun i => expf (fsub (fmul (nth i eff f0) invT) maxLogit)) head).

(** The stochastic branch: a position in the sorted head, then its token.
    [src/src/compute/Sampling.cpp:206-239 Sampler::sample] *)
Definition sampleFrom (p : SamplingParams) (eff : list f32) (idx : list nat) (u : f32) : nat :=
  let head := take (keptOf p (length eff)) idx in
  let pos :=
    match softmax p eff head with
    | None => 0
    | Some probs =>
        match minPStep p probs with
        | None => 0
        | Some probs =>
            match topPStep p probs with
            | None => 0
            | Some probs => drawFrom u f0 0 probs
            end
        end
    end in
  nth pos idx 0.

(** [src/src/compute/Sampling.cpp:120-204 Sampler::sample] *)
Definition sample (logits : list f32) (recentTokens : list Z) (p : SamplingParams)
    (idx : list nat) (u : f32) : result Z :=
  if length logits =? 0 then Throw (RuntimeError "Sampler::sample: empty logits")
  else
    let penaltyOn := penaltiesActive p && negb (length recentTokens =? 0) in
    let biasOn := negb (length (logitBias p) =? 0) in
    let badWordsOn := negb (length (badWords p) =? 0) in
    let greedy := isGreedy p in
    let argmax := fun row =>
      match argmaxRow row with Ok i => Ok (Z.of_nat i) | Throw e => Throw e end in
    if greedy && negb penaltyOn && negb biasOn && negb badWordsOn then argmax logits
    else
      let eff := processed logits recentTokens p in
      if greedy then argmax eff else Ok (Z.of_nat (sampleFrom p eff idx u)).
End Sample.

(** ** The order of floats *)

(** A NaN-free float as a triple whose lexicographic order is the float order. *)
Definition rank (x : f32) : Z * Z * Z :=
  match x with
  | S754_infinity true => (-2, 0, 0)
  | S754_finite true m e => (-1, - e, - Zpos m)
  | S754_zero _ | S754_nan => (0, 0, 0)
  | S754_finite false m e => (1, e, Zpos m)
  | S754_infinity false => (2, 0, 0)
  end%Z.

Definition rank_lt (a b : Z * Z * Z) : Prop :=
  let '(a1, a2, a3) := a in
  let '(b1, b2, b3) := b in
  (a1 < b1 \/ a1 = b1 /\ (a2 < b2 \/ a2 = b2 /\ a3 < b3))%Z.

Lemma flt_rank x y :
  is_nan x = false -> is_nan y = false -> flt x y = true <-> rank_lt (rank x) (rank y).
Proof.
  unfold flt, SFltb, rank_lt. intros Hx Hy.
  destruct x as [sx|[]| |[] mx ex], y as [sy|[]| |[] my ey]; try done; cbn -[Z.compare Z.opp];
    try (split; [intros; try done; lia|intros; try done; lia]).
  all: change (Pos.compare_cont Eq mx my) with (Pos.compare mx my);
    destruct (Z.compare_spec ex ey); [destruct (Pos.compare_spec mx my)|..];
    cbn [CompOpp]; split; intros; try done; lia.
Qed.

Lemma flt_false x y :
  is_nan x = false -> is_nan y = false -> flt x y = false <-> ~ rank_lt (rank x) (rank y).
Proof.
  intros Hx Hy. rewrite <- (flt_rank x y Hx Hy). destruct (flt x y); naive_solver.
Qed.

(** [y <= x < z]. *)
Lemma fle_flt x y z :
  is_nan x = false -> is_nan y = false -> is_nan z = false ->
  flt x y = false -> flt x z = true -> flt y z = true /\ flt z y = false.
Proof.
  intros Hx Hy Hz. rewrite flt_false, !flt_rank, flt_false by done.
  destruct (rank x) as [[x1 x2] x3], (rank y) as [[y1 y2] y3], (rank z) as [[z1 z2] z3].
  unfold rank_lt. lia.
Qed.

(** [z <= y <= x]. *)
Lemma fle_trans x y z :
  is_nan x = false -> is_nan y = false -> is_nan z = false ->
  flt x y = false -> flt y z = false -> flt x z = false.
Proof.
  intros Hx Hy Hz. rewrite !flt_false by done.
  destruct (rank x) as [[x1 x2] x3], (rank y) as [[y1 y2] y3], (rank z) as [[z1 z2] z3].
  unfold rank_lt. lia.
Qed.

Lemma flt_irrefl x : flt x x = false.
Proof.
  destruct (is_nan x) eqn:Hx; [by destruct x|]. apply flt_false; [done..|].
  destruct (rank x) as [[x1 x2] x3]. unfold rank_lt. lia.
Qed.

Lemma below_negInf x : flt x negInf = false.
Proof. by destruct x as [[]|[]| |[] ? ?]. Qed.

(** ** Arg max *)

(** [i] is the first position of the row no other exceeds. *)
Definition first_max (row : list f32) (i : nat) : Prop :=
  exists x, row !! i = Some x /\
    (forall j y, row !! j = Some y -> flt x y = false) /\
    (forall j y, j < i -> row !! j = Some y -> flt y x = true).

Lemma argmaxFrom_spec row : forall pre best bestV,
  Forall (fun x => is_nan x = false) (pre ++ row) -> pre !! best = Some bestV ->
  first_max pre best -> first_max (pre ++ row) (argmaxFrom row (length pre) best bestV).
Proof.
  induction row as [|x row IH]; intros pre best bestV Hn Hb Hf; cbn [argmaxFrom].
  { by rewrite app_nil_r. }
  destruct Hf as (v & Hv & H1 & H2). assert (v = bestV) as -> by congruence. clear Hv.
  assert (Hnan : forall j y, pre !! j = Some y -> is_nan y = false).
  { intros j y Hy. rewrite Forall_forall in Hn. apply Hn, elem_of_app. left.
    by eapply list_elem_of_lookup_2. }
  assert (Hx : is_nan x = false).
  { rewrite Forall_forall in Hn. apply Hn, elem_of_app. right. by left. }
  replace (S (length pre)) with (length (pre ++ [x])) by (rewrite length_app; simpl; lia).
  rewrite (cons_middle x pre row), app_assoc. rewrite cons_middle, app_assoc in Hn.
  assert (Hlast : (pre ++ [x]) !! length pre = Some x) by by rewrite lookup_app_r, Nat.sub_diag by lia.
  assert (Hsnoc : forall j y, (pre ++ [x]) !! j = Some y ->
    pre !! j = Some y \/ (j = length pre /\ y = x)).
  { intros j y Hj. apply lookup_app_Some in Hj as [Hj|[Hj1 Hj2]]; [by left|right].
    destruct (j - length pre) eqn:?; [|done]. simpl in Hj2. split; [lia|congruence]. }
  destruct (flt bestV x) eqn:Hlt.
  - apply IH; [done|done|]. exists x. split; [done|]. split.
    + intros j y Hj. destruct (Hsnoc j y Hj) as [Hj'|[-> ->]]; [|apply flt_irrefl].
      by apply (fle_flt bestV y x); eauto.
    + intros j y Hlt' Hj. destruct (Hsnoc j y Hj) as [Hj'|[-> ->]]; [|lia].
      by apply (fle_flt bestV y x); eauto.
  - apply IH; [done|by apply lookup_app_l_Some|]. exists bestV.
    split; [by apply lookup_app_l_Some|]. split.
    + intros j y Hj. destruct (Hsnoc j y Hj) as [Hj'|[-> ->]]; [by eapply H1|done].
    + intros j y Hlt' Hj. destruct (Hsnoc j y Hj) as [Hj'|[-> ->]]; [by eapply H2|].
      apply lookup_lt_Some in Hb. lia.
Qed.

Lemma argmaxRow_spec row :
  row <> [] -> Forall (fun x => is_nan x = false) row ->
  exists i, argmaxRow row = Ok i /\ first_max row i.
Proof.
  destruct row as [|x row]; [done|]. intros _ Hn. eexists. split; [done|].
  apply (argmaxFrom_spec row [x] 0 x); [done..|]. exists x. split; [done|]. split.
  - intros [|j] y Hj; [|done]. injection Hj as ->. apply flt_irrefl.
  - intros j y Hj. lia.
Qed.

Lemma first_max_lt row i : first_max row i -> i < length row.
Proof. intros (x & Hx & _). by eapply lookup_lt_Some. Qed.

(** ** Processing keeps the row's length and bans bad words *)

Lemma applyPenalties_length recent p row : length (applyPenalties recent p row) = length row.
Proof. unfold applyPenalties. destruct recent; [done|]. apply length_imap. Qed.

Lemma applyBias_length bias : forall row, length (applyBias bias row) = length row.
Proof.
  induction bias as [|[id x] bias IH]; intros row; [done|].
  change (applyBias _ row) with (applyBias bias
    (if (0 <=? id)%Z && (id <? Z.of_nat (length row))%Z
     then alter (fun l => fadd l x) (Z.to_nat id) row else row)).
  rewrite IH. destruct (_ && _); [apply length_alter|done].
Qed.

(** [i] completes a bad word. *)
Definition banned (recent : list Z) (words : list (list Z)) (i : nat) : Prop :=
  exists word, word ∈ words /\ last word = Some (Z.of_nat i) /\ completes recent word = true.

Lemma applyBadWords_spec recent words : forall row,
  length (applyBadWords recent words row) = length row /\
  forall i, i < length row ->
    (banned recent words i -> applyBadWords recent words row !! i = Some negInf) /\
    (~ banned recent words i -> applyBadWords recent words row !! i = row !! i).
Proof.
  induction words as [|word words IH]; intros row.
  { split; [done|]. intros i Hi. split; [|done]. intros (w & Hw & _). by apply elem_of_nil in Hw. }
  set (row1 := match last word with
    | None => row
    | Some ban =>
        if completes recent word && (0 <=? ban)%Z && (ban <? Z.of_nat (length row))%Z
        then <[Z.to_nat ban := negInf]> row else row
    end).
  change (applyBadWords recent (word :: words) row) with (applyBadWords recent words row1).
  assert (Hl : length row1 = length row).
  { unfold row1. destruct (last word); [|done]. destruct (_ && _); [apply length_insert|done]. }
  destruct (IH row1) as [IH1 IH2]. split; [congruence|]. intros i Hi.
  destruct (IH2 i ltac:(lia)) as [B1 B2].
  assert (Hone : (last word = Some (Z.of_nat i) /\ completes recent word = true /\
      row1 !! i = Some negInf) \/
      (~ (last word = Some (Z.of_nat i) /\ completes recent word = true) /\ row1 !! i = row !! i)).
  { unfold row1. destruct (last word) as [ban|]; [|right; naive_solver].
    destruct (completes recent word) eqn:Hc; cbn [andb]; [|right; naive_solver].
    destruct (decide (ban = Z.of_nat i)) as [->|Hne].
    - left. rewrite (proj2 (Z.leb_le _ _)), (proj2 (Z.ltb_lt _ _)) by lia. cbn [andb].
      rewrite Nat2Z.id, list_lookup_insert_eq by done. done.
    - right. split; [intros [? _]; congruence|].
      destruct (Z.leb_spec 0 ban); cbn [andb]; [|done]. destruct (_ <? _)%Z; [|done].
      apply list_lookup_insert_ne. lia. }
  assert (Hdec : {banned recent words i} + {~ banned recent words i}).
  { destruct (decide (Exists (fun w => last w = Some (Z.of_nat i) /\ completes recent w = true) words))
      as [H|H]; [left|right].
    - apply Exists_exists in H as (w & Hw & H1 & H2). by exists w.
    - intros (w & Hw & H1 & H2). apply H, Exists_exists. by exists w. }
  destruct Hdec as [Hb|Hb].
  - split; [by auto|]. intros Hnb. destruct Hnb. destruct Hb as (w & Hw & H). exists w.
    split; [by right|done].
  - rewrite B2 by done. destruct Hone as [(H1 & H2 & H3)|[H1 H2]].
    + split; [done|]. intros Hnb. destruct Hnb. exists word. split; [by left|done].
    + split; [|done]. intros (w & Hw & Hw1 & Hw2). apply elem_of_cons in Hw as [->|Hw];
        [by destruct H1|]. destruct Hb. by exists w.
Qed.

Section Results.
Variables tanhf expf : f32 -> f32.

Lemma processed_length logits recent p :
  length (processed tanhf logits recent p) = length logits.
Proof.
  unfold processed. destruct (applyBadWords_spec recent (badWords p)
    (applyBias (logitBias p) (if penaltiesActive p && negb (length recent =? 0)
      then applyPenalties recent p (if flt f0 (finalLogitSoftcap p)
        then applyFinalLogitSoftcap tanhf (finalLogitSoftcap p) logits else logits)
      else if flt f0 (finalLogitSoftcap p)
        then applyFinalLogitSoftcap tanhf (finalLogitSoftcap p) logits else logits))) as [-> _].
  rewrite applyBias_length.
  destruct (_ && _); rewrite ?applyPenalties_length;
    (destruct (flt f0 _); [apply length_map|done]).
Qed.

Lemma processed_banned logits recent p i :
  i < length logits -> banned recent (badWords p) i ->
  processed tanhf logits recent p !! i = Some negInf.
Proof.
  intros Hi Hb. pose proof (processed_length logits recent p) as Hl. unfold processed in *.
  rewrite (proj1 (applyBadWords_spec _ _ _)) in Hl.
  apply applyBadWords_spec; [lia|done].
Qed.

(** ** Heads of the sorted order *)

Lemma minPCut_bounds th l : forall i, i <= minPCut th i l <= i + length l.
Proof.
  induction l as [|x l IH]; intros i; simpl; [lia|]. destruct (flt x th); [lia|].
  specialize (IH (S i)). lia.
Qed.

Lemma topPCut_bounds tp l : forall cum i,
  i <= topPCut tp cum i l <= i + length l /\ (l <> [] -> i < topPCut tp cum i l).
Proof.
  induction l as [|x l IH]; intros cum i; simpl; [split; [lia|done]|].
  destruct (SFleb _ _); [split; [lia|intros; lia]|].
  destruct (IH (dadd cum (to_double x)) (S i)) as [H _]. split; [lia|intros; lia].
Qed.

Lemma drawFrom_bounds u l : forall cum i, i + length l <> 0 ->
  drawFrom u cum i l < i + length l.
Proof.
  induction l as [|x l IH]; intros cum i Hi; simpl in *; [lia|].
  destruct (flt u _); [lia|]. specialize (IH (fadd cum x) (S i)). lia.
Qed.

(** A step that shortens the head and keeps it non-empty. *)
Definition shortens (f : list f32 -> option (list f32)) : Prop :=
  forall l l', f l = Some l' -> l <> [] -> l' <> [] /\ length l' <= length l.

Lemma renorm_length l l' : renorm l = Some l' -> length l' = length l.
Proof. unfold renorm. destruct (SFleb _ _); [done|]. intros [= <-]. apply length_map. Qed.

Lemma cut_shortens l l' k :
  (if k <? length l then renorm (take k l) else Some l) = Some l' -> 0 < k -> l <> [] ->
  l' <> [] /\ length l' <= length l.
Proof.
  destruct (Nat.ltb_spec k (length l)); intros H' Hk Hl; [|by injection H' as <-].
  apply renorm_length in H'. rewrite length_take in H'. split; [|lia].
  intros ->. simpl in H'. lia.
Qed.

Lemma minPStep_shortens p : shortens (minPStep p).
Proof.
  intros l l' H Hl. unfold minPStep in H. destruct (_ && _) eqn:Hc; [|by injection H as <-].
  eapply cut_shortens; [exact H| |done].
  pose proof (minPCut_bounds (fmul (minP p) (nth 0 l f0)) (drop 1 l) 1). lia.
Qed.

Lemma topPStep_shortens p : shortens (topPStep p).
Proof.
  intros l l' H Hl. unfold topPStep in H. destruct (_ && _) eqn:Hc; [|by injection H as <-].
  eapply cut_shortens; [exact H| |done].
  by apply (topPCut_bounds (to_double (topP p)) l (S754_zero false) 0).
Qed.

(** The sampled token stands within the kept head. *)
Lemma sampleFrom_kept p eff idx u :
  eff <> [] -> length idx = length eff ->
  exists pos, pos < keptOf p (length eff) /\ sampleFrom expf p eff idx u = nth pos idx 0.
Proof.
  intros He Hi. unfold sampleFrom.
  assert (Hk : 0 < keptOf p (length eff) <= length eff).
  { unfold keptOf. destruct eff; [done|]. simpl.
    destruct (Nat.ltb_spec 0 (topK p)), (Nat.ltb_spec (topK p) (S (length eff))); simpl; lia. }
  set (K := keptOf p (length eff)) in *. set (head := take K idx).
  assert (Hh : length head = K) by (unfold head; rewrite length_take; lia).
  destruct (softmax expf p eff head) as [l1|] eqn:H1; [|exists 0; split; [lia|done]].
  assert (Hl1 : length l1 = K).
  { unfold softmax in H1. apply renorm_length in H1. by rewrite H1, length_map. }
  assert (Hn1 : l1 <> []) by (intros ->; simpl in Hl1; lia).
  destruct (minPStep p l1) as [l2|] eqn:H2; [|exists 0; split; [lia|done]].
  destruct (minPStep_shortens p _ _ H2 Hn1) as [Hn2 Hl2].
  destruct (topPStep p l2) as [l3|] eqn:H3; [|exists 0; split; [lia|done]].
  destruct (topPStep_shortens p _ _ H3 Hn2) as [Hn3 Hl3].
  eexists. split; [|done].
  assert (length l3 <> 0) by by destruct l3.
  pose proof (drawFrom_bounds u l3 f0 0). lia.
Qed.

Lemma count_if_seq (f : f32 -> bool) (eff : list f32) :
  count_if f eff = count_if (fun j => f (nth j eff f0)) (seq 0 (length eff)).
Proof.
  induction eff as [|x eff IH]; [done|]. cbn [length seq count_if nth]. rewrite IH. f_equal.
  rewrite <- seq_shift. generalize (seq 0 (length eff)). intros l.
  induction l as [|j l IHl]; [done|]. cbn [map count_if nth]. by rewrite IHl.
Qed.

(** Fewer than [kept] logits exceed one of the first [kept] of the order. *)
Lemma sorts_top eff kept idx pos i :
  sorts eff kept idx -> pos < kept -> idx !! pos = Some i ->
  count_if (fun y => flt (nth i eff f0) y) eff <= pos.
Proof.
  intros [Hp Hs] Hk Hi. rewrite count_if_seq, <- (count_if_perm _ _ _ Hp).
  rewrite <- (take_drop pos idx) at 1. rewrite count_if_app.
  assert (Hz : count_if (fun j => flt (nth i eff f0) (nth j eff f0)) (drop pos idx) = 0).
  { assert (H : forall j, j ∈ drop pos idx -> flt (nth i eff f0) (nth j eff f0) = false).
    { intros j Hj. apply list_elem_of_lookup in Hj as [q Hq]. rewrite lookup_drop in Hq.
      destruct q as [|q].
      - rewrite Nat.add_0_r in Hq. assert (j = i) as -> by congruence. apply flt_irrefl.
      - eapply (Hs pos (pos + S q)); [lia|done..]. }
    clear -H. induction (drop pos idx) as [|j l IH]; [done|]. cbn [count_if].
    rewrite H by by left. rewrite IH; [done|]. intros k Hk. apply H. by right. }
  rewrite Hz. pose proof (count_if_le (fun j => flt (nth i eff f0) (nth j eff f0)) (take pos idx)).
  rewrite length_take in H. lia.
Qed.

(** With a temperature of zero or [topK = 1] the sampler is deterministic: it
    answers the first index no other logit exceeds, of the raw row when nothing
    else is on and of the softcapped, penalised, biased and masked row otherwise;
    and it never completes a bad word unless every logit is masked. *)
Theorem sample_greedy logits recent p idx u :
  logits <> [] -> isGreedy p = true ->
  Forall (fun x => is_nan x = false) logits ->
  Forall (fun x => is_nan x = false) (processed tanhf logits recent p) ->
  exists i, sample tanhf expf logits recent p idx u = Ok (Z.of_nat i) /\
    first_max (if (penaltiesActive p && negb (length recent =? 0)) || negb (length (logitBias p) =? 0)
                  || negb (length (badWords p) =? 0)
               then processed tanhf logits recent p else logits) i /\
    (banned recent (badWords p) i ->
     Forall (fun x => x = negInf) (processed tanhf logits recent p)).
Proof.
  intros Hne Hg Hn1 Hn2. unfold sample. rewrite Hg.
  assert (Hl : (length logits =? 0) = false) by by destruct logits.
  rewrite Hl. cbn [andb].
  set (pen := penaltiesActive p && negb (length recent =? 0)).
  assert (Hrow : exists row, (row = processed tanhf logits recent p \/ row = logits /\ badWords p = []) /\
    (if pen || negb (length (logitBias p) =? 0) || negb (length (badWords p) =? 0)
     then processed tanhf logits recent p else logits) = row /\
    (if negb pen && negb (negb (length (logitBias p) =? 0)) && negb (negb (length (badWords p) =? 0))
     then match argmaxRow logits with Ok i => Ok (Z.of_nat i) | Throw e => Throw e end
     else match argmaxRow (processed tanhf logits recent p) with
          | Ok i => Ok (Z.of_nat i) | Throw e => Throw e end) =
    match argmaxRow row with Ok i => Ok (Z.of_nat i) | Throw e => Throw e end).
  { destruct pen, (length (logitBias p) =? 0), (Nat.eqb_spec (length (badWords p)) 0); simpl;
      (eexists; split; [|split; [done|done]]; by (left + (right; split; [|by apply nil_length_inv]))). }
  destruct Hrow as (row & Hrow & -> & ->).
  assert (Hr : row <> [] /\ Forall (fun x => is_nan x = false) row).
  { destruct Hrow as [->|[-> _]]; [|done]. split; [|done]. intros H0.
    apply (f_equal length) in H0. rewrite processed_length in H0. by destruct logits. }
  destruct (argmaxRow_spec row) as (i & -> & Hmax); [apply Hr..|].
  exists i. split; [done|]. split; [done|]. intros Hb.
  destruct Hrow as [->|[-> Hw]].
  - pose proof (first_max_lt _ _ Hmax) as Hi. rewrite processed_length in Hi.
    pose proof (processed_banned logits recent p i Hi Hb) as Hneg.
    destruct Hmax as (x & Hx & Hge & _). assert (x = negInf) as -> by congruence.
    apply Forall_lookup_2. intros j y Hj. specialize (Hge j y Hj).
    rewrite Forall_forall in Hn2. specialize (Hn2 y ltac:(by eapply list_elem_of_lookup_2)).
    by destruct y as [[]|[]| |[] ? ?].
  - destruct Hb as (w & Hin & _). rewrite Hw in Hin. by apply elem_of_nil in Hin.
Qed.

(** C17: A sampled token is always an index of the row, for every draw and every
    order the standard library may leave equal logits in; and with [topK = K] it
    is one of the [K] best: fewer than [K] logits exceed its own.  An empty row
    throws. *)
Theorem sample_in_top logits recent p idx u :
  isGreedy p = false ->
  let eff := processed tanhf logits recent p in
  sorts eff (keptOf p (length eff)) idx ->
  (logits = [] -> exists e, sample tanhf expf logits recent p idx u = Throw e) /\
  (logits <> [] ->
   exists i, sample tanhf expf logits recent p idx u = Ok (Z.of_nat i) /\ i < length logits /\
     (0 < topK p -> count_if (fun y => flt (nth i eff f0) y) eff < topK p)).
Proof.
  intros Hg eff Hs. split; [intros ->; by eexists|]. intros Hne. unfold sample. rewrite Hg.
  assert (Hl : (length logits =? 0) = false) by by destruct logits.
  rewrite Hl. cbn [andb]. fold eff.
  assert (Hel : length eff = length logits) by apply processed_length.
  assert (Hen : eff <> []) by (intros H0; rewrite H0 in Hel; by destruct logits).
  assert (Hil : length idx = length eff).
  { destruct Hs as [Hp _]. by rewrite Hp, length_seq. }
  destruct (sampleFrom_kept p eff idx u Hen Hil) as (pos & Hpos & ->).
  assert (Hk : keptOf p (length eff) <= length eff).
  { unfold keptOf. destruct (_ && _) eqn:Hc; [|done]. apply andb_prop in Hc as [_ Hc].
    apply Nat.ltb_lt in Hc. lia. }
  destruct (lookup_lt_is_Some_2 idx pos ltac:(lia)) as [i Hi].
  rewrite (nth_lookup_Some _ _ _ _ Hi). exists i. split; [done|]. split.
  - destruct Hs as [Hp _]. assert (Hin : i ∈ seq 0 (length eff)).
    { rewrite <- Hp. by eapply list_elem_of_lookup_2. }
    apply elem_of_seq in Hin. lia.
  - intros HK. pose proof (sorts_top _ _ _ _ _ Hs Hpos Hi) as Hc.
    unfold keptOf in Hpos. destruct (Nat.ltb_spec 0 (topK p)); [|lia]. cbn [andb] in Hpos.
    destruct (Nat.ltb_spec (topK p) (length eff)); lia.
Qed.
End Results.

Lemma first_max_unique row i j : first_max row i -> first_max row j -> i = j.
Proof.
  intros (x & Hx & H1 & H2) (y & Hy & H3 & H4).
  destruct (Nat.lt_trichotomy i j) as [H|[H|H]]; [|done|].
  - specialize (H4 i x H Hx). specialize (H1 j y Hy). congruence.
  - specialize (H2 j y H Hy). specialize (H3 i x Hx). congruence.
Qed.

(** ** Concrete rows *)

Definition demo_row : list f32 := map f32_of_Z [2; 9; 4; 9]%Z.

(** A repetition penalty of 3 over the last two tokens, and a two-token bad word. *)
Definition demo_params : SamplingParams :=
  mkParams f0 0 f1 f0 [(2, f32_of_Z 1)]%Z [[7; 3]]%Z f0 f0 (f32_of_Z 3) 2 f0.

Lemma sample_greedy_witness :
  sample (fun x => x) (fun x => x) demo_row [1; 7]%Z demo_params [] f0 = Ok 2%Z /\
  first_max (processed (fun x => x) demo_row [1; 7]%Z demo_params) 2.
Proof.
  destruct (sample_greedy (fun x => x) (fun x => x) demo_row [1; 7]%Z demo_params [] f0)
    as (i & Hi & Hm & _); [done|done|by repeat constructor| |].
  { apply (proj2 (Forall_forall _ _)). intros x Hx. apply list_elem_of_lookup in Hx as [j Hj].
    destruct j as [|[|[|[|j]]]]; vm_compute in Hj; simplify_eq; done. }
  assert (Hr : sample (fun x => x) (fun x => x) demo_row [1; 7]%Z demo_params [] f0 = Ok 2%Z)
    by (vm_compute; reflexivity).
  split; [exact Hr|]. rewrite Hr in Hi. injection Hi as Hi. assert (i = 2) as -> by lia.
  exact Hm.
Defined.

Definition demo_topk : SamplingParams :=
  mkParams f1 2 f1 f0 [] [] f0 f0 f1 0 f0.

Lemma sample_in_top_witness :
  exists i, sample (fun x => x) (fun _ => f1) demo_row [] demo_topk [3; 1; 2; 0] f0 = Ok (Z.of_nat i) /\
    i < 4 /\ count_if (fun y => flt (nth i demo_row f0) y) demo_row < 2.
Proof.
  assert (Hs : sorts (processed (fun x => x) demo_row [] demo_topk)
      (keptOf demo_topk (length (processed (fun x => x) demo_row [] demo_topk))) [3; 1; 2; 0]).
  { split.
    - apply (NoDup_Permutation).
      + apply (bool_decide_unpack _). vm_compute. exact I.
      + apply NoDup_seq.
      + intros x. cbn. set_solver by lia.
    - intros p q i j Hpq Hp Hi Hj. change (keptOf _ _) with 2 in Hp.
      destruct p as [|[|p]]; [..|lia]; destruct q as [|[|[|[|q]]]]; simplify_eq/=; try lia;
        vm_compute; reflexivity. }
  destruct (sample_in_top (fun x => x) (fun _ => f1) demo_row [] demo_topk [3; 1; 2; 0] f0 eq_refl Hs)
    as [_ H].
  destruct (H ltac:(done)) as (i & H1 & H2 & H3). exists i. split; [exact H1|].
  split; [exact H2|]. apply H3. cbn. lia.
Defined.

(** The draw falls past the accumulated mass when the float sum of the kept
    probabilities stays below one; the last entry of the order is then answered,
    even when it is masked: twelve equal logits, the thirteenth banned, and the
    largest [float] below one as the draw. *)
Example slop_answers_banned :
  let u := fsub f1 (binary_normalize 24 128 1 (-24) false) in
  let expf := fun x => match x with S754_infinity true => f0 | _ => f1 end in
  let p := mkParams f1 0 f1 f0 [] [[12]]%Z f0 f0 f1 0 f0 in
  sample (fun x => x) expf (replicate 13 f0) [] p (seq 0 13) u = Ok 12%Z /\ flt u f1 = true.
Proof. split; vm_compute; reflexivity. Qed.
End Sampling.
