(* ===== verification/Floats.v ===== *)
(** * Floats: bits, rounding, order

    IEEE binary32 and binary64 as [spec_float]s of the Standard Library: their bits,
    the conversions to integers the code makes, and the order of sums. *)

From Stdlib Require Import SpecFloat.
From S2P Require Import Prelude Sampling.

Module Floats.

Abbreviation f32 := spec_float.

(** The value of IEEE bits with [mw] mantissa and [ew] exponent bits. *)
Definition ieee (mw ew bits : N) : f32 :=
  let s := N.testbit bits (mw + ew) in
  let e := (N.shiftr bits mw mod 2 ^ ew)%N in
  let m := (bits mod 2 ^ mw)%N in
  let bias := (2 ^ (Z.of_N ew - 1) - 2 + Z.of_N mw)%Z in
  if (e =? 2 ^ ew - 1)%N then if (m =? 0)%N then S754_infinity s else S754_nan
  else match (if (e =? 0)%N then m else (m + 2 ^ mw)%N) with
       | N0 => S754_zero s
       | Npos p => S754_finite s p (Z.max 1 (Z.of_N e) - 1 - bias)
       end.

(** The integral part, sign and magnitude. *)
Definition magnitude (m : positive) (e : Z) : Z :=
  if (0 <=? e)%Z then (Zpos m * 2 ^ e)%Z else (Zpos m / 2 ^ (- e))%Z.

(** [static_cast<std::int32_t>] of a float: its integral part, undefined outside the
    range. *)
Definition truncate (x : f32) : option Z :=
  match x with
  | S754_zero _ => Some 0%Z
  | S754_finite s m e =>
      let z := if s then (- magnitude m e)%Z else magnitude m e in
      if ((- 2 ^ 31 <=? z) && (z <? 2 ^ 31))%Z then Some z else None
  | _ => None
  end.

(** [static_cast<std::size_t>]: the same for unsigned 64-bit numbers. *)
Definition trunc_u64 (x : f32) : option N :=
  match x with
  | S754_zero _ => Some 0%N
  | S754_finite s m e =>
      let z := if s then (- magnitude m e)%Z else magnitude m e in
      if ((0 <=? z) && (z <? 2 ^ 64))%Z then Some (Z.to_N z) else None
  | _ => None
  end.

(** [std::lround] and [std::llround]: the nearest 64-bit integer, halves away from
    zero. *)
Definition lround (x : f32) : option Z :=
  match x with
  | S754_zero _ => Some 0%Z
  | S754_finite s m e =>
      let a := if (0 <=? e)%Z then (Zpos m * 2 ^ e)%Z else ((Zpos m + 2 ^ (- e - 1)) / 2 ^ (- e))%Z in
      let z := if s then (- a)%Z else a in
      if ((- 2 ^ 63 <=? z) && (z <? 2 ^ 63))%Z then Some z else None
  | _ => None
  end.
End Floats.
