(* ===== verification/FloatRound.v ===== *)
(** * Rounding and order of floats

    What rounding to nearest, ties to even, does to the value of a float, for any
    precision: addition is the exact sum rounded, the product of floats of at least a
    half is the exact product rounded, rounding is monotone, and comparing floats
    compares their values.  Values are integers, in units of the smallest
    positive float. *)

From Stdlib Require Import SpecFloat.
From S2P Require Import Prelude.

Module FloatRound.
Open Scope Z_scope.

(** ** Rounding an integer *)

(** [M / 2^k] to the nearest integer, ties to even. *)
Definition rne (M k : Z) : Z :=
  let q := M / 2 ^ k in
  match 2 * (M mod 2 ^ k) ?= 2 ^ k with
  | Lt => q
  | Gt => q + 1
  | Eq => if Z.even q then q else q + 1
  end.

Lemma rne_0 M : rne M 0 = M.
Proof. unfold rne. rewrite Z.pow_0_r, Z.div_1_r, Z.mod_1_r. done. Qed.

Lemma pow2_pos k : 0 <= k -> 0 < 2 ^ k.
Proof. intros. by apply Z.pow_pos_nonneg. Qed.

(** The nearest: a multiple of the unit at most half a unit away. *)
Lemma rne_near M k : 0 <= k -> - 2 ^ k <= 2 * (rne M k * 2 ^ k - M) <= 2 ^ k.
Proof.
  intros Hk. pose proof (pow2_pos k Hk) as Hp. unfold rne. pose proof (Z.mod_pos_bound M (2 ^ k) Hp) as Hr.
  pose proof (Z.div_mod M (2 ^ k) ltac:(lia)) as Hd. set (q := M / 2 ^ k) in *. set (r := M mod 2 ^ k) in *.
  destruct (Z.compare_spec (2 * r) (2 ^ k)); [destruct (Z.even q)|..]; nia.
Qed.

Lemma rne_mono M M' k : 0 <= k -> M <= M' -> rne M k <= rne M' k.
Proof.
  intros Hk HM. pose proof (pow2_pos k Hk) as Hp. unfold rne.
  pose proof (Z.mod_pos_bound M (2 ^ k) Hp). pose proof (Z.mod_pos_bound M' (2 ^ k) Hp).
  pose proof (Z.div_mod M (2 ^ k) ltac:(lia)). pose proof (Z.div_mod M' (2 ^ k) ltac:(lia)).
  pose proof (Z.div_le_mono M M' (2 ^ k) Hp HM). set (q := M / 2 ^ k) in *. set (q' := M' / 2 ^ k) in *.
  set (r := M mod 2 ^ k) in *. set (r' := M' mod 2 ^ k) in *.
  destruct (Z.eq_dec q q') as [E|E].
  - rewrite E in *. assert (r <= r') by nia.
    destruct (Z.compare_spec (2 * r) (2 ^ k)), (Z.compare_spec (2 * r') (2 ^ k)); destruct (Z.even q'); lia.
  - destruct (Z.compare_spec (2 * r) (2 ^ k)), (Z.compare_spec (2 * r') (2 ^ k)); destruct (Z.even q), (Z.even q'); lia.
Qed.

(** Scaling both. *)
Lemma rne_scale M k j : 0 <= k -> 0 <= j -> rne (M * 2 ^ j) (k + j) = rne M k.
Proof.
  intros Hk Hj. pose proof (pow2_pos k Hk). pose proof (pow2_pos j Hj). unfold rne.
  rewrite Z.pow_add_r, Z.div_mul_cancel_r, Z.mul_mod_distr_r by lia.
  replace (2 * (M mod 2 ^ k * 2 ^ j) ?= 2 ^ k * 2 ^ j) with (2 * (M mod 2 ^ k) ?= 2 ^ k); [done|].
  replace (2 * (M mod 2 ^ k * 2 ^ j)) with (2 * (M mod 2 ^ k) * 2 ^ j) by lia.
  by apply Zmult_compare_compat_r, Z.lt_gt.
Qed.

Lemma rne_exact M k : 0 <= k -> rne (M * 2 ^ k) k = M.
Proof. intros Hk. rewrite <- (Z.add_0_l k) at 2. rewrite rne_scale by lia. apply rne_0. Qed.

(** ** Digits *)

Lemma digits2_pos_spec p : 2 ^ (Zpos (digits2_pos p) - 1) <= Zpos p < 2 ^ Zpos (digits2_pos p).
Proof.
  induction p as [p IH|p IH|]; cbn [digits2_pos]; [| |cbn; lia];
    rewrite Pos2Z.inj_succ; replace (Z.succ (Zpos (digits2_pos p)) - 1) with (Z.succ (Zpos (digits2_pos p) - 1)) by lia;
    rewrite !Z.pow_succ_r by lia; lia.
Qed.

Lemma digits_spec M : 0 < M -> 0 < Zdigits2 M /\ 2 ^ (Zdigits2 M - 1) <= M < 2 ^ Zdigits2 M.
Proof. destruct M as [|p|p]; try lia. intros _. cbn [Zdigits2]. split; [lia|]. apply digits2_pos_spec. Qed.

Lemma digits_unique M d : 0 < d -> 2 ^ (d - 1) <= M < 2 ^ d -> Zdigits2 M = d.
Proof.
  intros Hd HM. pose proof (pow2_pos (d - 1) ltac:(lia)). destruct (digits_spec M ltac:(lia)) as [H1 H2].
  destruct (Z.lt_total (Zdigits2 M) d) as [Hlt|[->|Hlt]]; [|done|].
  - pose proof (Z.pow_le_mono_r 2 (Zdigits2 M) (d - 1)). lia.
  - pose proof (Z.pow_le_mono_r 2 d (Zdigits2 M - 1)). lia.
Qed.

Lemma digits_scale M j : 0 < M -> 0 <= j -> Zdigits2 (M * 2 ^ j) = Zdigits2 M + j.
Proof.
  intros HM Hj. destruct (digits_spec M HM) as [H1 H2]. pose proof (pow2_pos j Hj).
  apply digits_unique; [lia|]. replace (Zdigits2 M + j - 1) with (Zdigits2 M - 1 + j) by lia.
  rewrite !Z.pow_add_r by lia. nia.
Qed.

(** ** The shift the rounding uses *)

(** A record after [n] shifts of [M]: quotient, half bit, sticky bit. *)
Definition shifted (M n : Z) (r : shr_record) : Prop :=
  exists rem, 0 <= shr_m r /\ M = shr_m r * 2 ^ n + rem /\ 0 <= rem < 2 ^ n /\
    shr_r r = (2 ^ n <=? 2 * rem) /\ shr_s r = negb ((rem =? 0) || (2 * rem =? 2 ^ n)).

Lemma shr_1_shifted M n r : 0 <= n -> shifted M n r -> shifted M (n + 1) (shr_1 r).
Proof.
  intros Hn (rem & Hm & HM & Hrem & Hr & Hs). pose proof (pow2_pos n Hn). destruct r as [m rr ss]. cbn in *. subst rr ss.
  assert (Hstep : forall q b, m = 2 * q + Z.b2z b -> 0 <= q ->
    shifted M (n + 1) (Build_shr_record q b ((2 ^ n <=? 2 * rem) || negb ((rem =? 0) || (2 * rem =? 2 ^ n))))).
  { intros q b Hq Hq0. exists (Z.b2z b * 2 ^ n + rem). cbn. rewrite Z.pow_add_r by lia.
    split; [done|]. split; [nia|]. split; [destruct b; cbn; lia|]. destruct b; cbn [Z.b2z];
      (split; [lia|]; destruct (Z.leb_spec (2 ^ n) (2 * rem)), (Z.eqb_spec rem 0), (Z.eqb_spec (2 * rem) (2 ^ n)); cbn; lia). }
  destruct m as [|[p|p|]|p]; try lia; cbn [shr_1].
  - by apply (Hstep 0 false).
  - apply (Hstep (Zpos p) true); cbn; lia.
  - apply (Hstep (Zpos p) false); cbn; lia.
  - by apply (Hstep 0 true).
Qed.

Lemma iter_pos_nat {A} (f : A -> A) p : forall x, SpecFloat.iter_pos f p x = Nat.iter (Pos.to_nat p) f x.
Proof.
  assert (Hadd : forall n m (x : A), Nat.iter (n + m) f x = Nat.iter n f (Nat.iter m f x)).
  { intros n m x. induction n as [|n IH]; [done|]. change (f (Nat.iter (n + m) f x) = f (Nat.iter n f (Nat.iter m f x))). by rewrite IH. }
  induction p as [p IH|p IH|]; intros x; cbn [SpecFloat.iter_pos]; rewrite ?IH, <- ?Hadd; [|f_equal; lia|done].
  replace (Pos.to_nat p~1) with (Pos.to_nat p + (Pos.to_nat p + 1))%nat by lia. by rewrite !Hadd.
Qed.

Lemma iter_shifted M p : 0 <= M -> shifted M (Zpos p) (SpecFloat.iter_pos shr_1 p (Build_shr_record M false false)).
Proof.
  intros HM. rewrite iter_pos_nat, <- positive_nat_Z. induction (Pos.to_nat p) as [|n IH].
  - exists 0. cbn. split; [done|]. split; [lia|done].
  - rewrite Nat2Z.inj_succ. apply shr_1_shifted; [lia|done].
Qed.

(** Rounding a shifted record. *)
Lemma shifted_rne M n r : 0 <= n -> shifted M n r -> round_nearest_even (shr_m r) (loc_of_shr_record r) = rne M n.
Proof.
  intros Hn (rem & Hm & HM & Hrem & Hr & Hs). pose proof (pow2_pos n Hn). destruct r as [m rr ss]. cbn in *. subst rr ss.
  unfold rne. assert (M / 2 ^ n = m) as -> by (symmetry; apply (Z.div_unique _ _ _ rem); lia).
  assert (M mod 2 ^ n = rem) as -> by (symmetry; apply (Z.mod_unique _ _ m); lia).
  destruct (Z.compare_spec (2 * rem) (2 ^ n)); destruct (Z.leb_spec (2 ^ n) (2 * rem)), (Z.eqb_spec rem 0),
    (Z.eqb_spec (2 * rem) (2 ^ n)); cbn; try lia; done.
Qed.

(** ** The result of rounding *)

Section Round.
Variable prec emax : Z.
Hypothesis Hprec : 0 < prec.
Hypothesis Hemax : prec < emax.
Abbreviation emin := (emin prec emax).
Abbreviation fexp := (fexp prec emax).

Lemma emin_small : emin <= emax - prec - 1.
Proof using Hprec Hemax. unfold SpecFloat.emin. lia. Qed.

(** The mantissa and exponent after one rounding shift. *)
Lemma shr_fexp_spec M e : 0 < M ->
  let k := Z.max 0 (fexp (Zdigits2 M + e) - e) in
  let '(r, e') := shr_fexp prec emax M e loc_Exact in
  shifted M k r /\ e' = e + k.
Proof using.
  intros HM k. unfold shr_fexp. cbn [shr_record_of_loc]. unfold shr.
  assert (H0 : shifted M 0 (Build_shr_record M false false)).
  { exists 0. cbn. split; [lia|]. split; [lia|done]. }
  destruct (fexp (Zdigits2 M + e) - e) as [|p|p] eqn:E; unfold k; cbn [Z.max Z.compare].
  - split; [exact H0|lia].
  - split; [apply iter_shifted; lia|done].
  - split; [exact H0|lia].
Qed.

Lemma shifted_0 M r : shifted M 0 r -> shr_m r = M.
Proof using. intros (rem & _ & HM & Hr & _). rewrite Z.pow_0_r in *. lia. Qed.

Lemma shifted_m M n r : 0 <= n -> shifted M n r -> shr_m r = M / 2 ^ n.
Proof using. intros Hn (rem & _ & HM & Hr & _). apply (Z.div_unique _ _ _ rem); lia. Qed.

(** A mantissa that carries is halved. *)
Definition norm (m e : Z) : Z * Z := if m =? 2 ^ prec then (2 ^ (prec - 1), e + 1) else (m, e).

Definition pack (s : bool) (me : Z * Z) : spec_float :=
  match fst me with
  | Z0 => S754_zero s
  | Zpos m => if snd me <=? emax - prec then S754_finite s m (snd me) else S754_infinity s
  | Zneg _ => S754_nan
  end.

Lemma rne_le_prec M k : 0 < M -> 0 <= k -> Zdigits2 M - k <= prec -> 0 <= rne M k <= 2 ^ prec.
Proof using Hprec.
  intros HM Hk Hd. destruct (digits_spec M HM) as [H1 H2]. split.
  - replace 0 with (rne 0 k); [apply rne_mono; lia|]. change 0 with (0 * 2 ^ k). by apply rne_exact.
  - rewrite <- (rne_exact (2 ^ prec) k Hk). apply rne_mono; [done|]. rewrite <- Z.pow_add_r by lia.
    pose proof (Z.pow_le_mono_r 2 (Zdigits2 M) (prec + k)). lia.
Qed.

Lemma round_aux_spec s M e : 0 < M ->
  let k := Z.max 0 (fexp (Zdigits2 M + e) - e) in
  binary_round_aux prec emax s M e loc_Exact = pack s (norm (rne M k) (e + k)).
Proof using Hprec.
  intros HM k. unfold binary_round_aux. pose proof (shr_fexp_spec M e HM) as H1. cbv zeta in H1. fold k in H1.
  destruct (shr_fexp prec emax M e loc_Exact) as [r e']. destruct H1 as [H1 ->].
  rewrite (shifted_rne M k r) by (done || lia). set (m := rne M k).
  assert (Hm : 0 <= m <= 2 ^ prec).
  { apply rne_le_prec; [done|lia|]. unfold k, SpecFloat.fexp. lia. }
  assert (He : emin <= e + k) by (unfold k, SpecFloat.fexp; lia).
  destruct (Z.eq_dec m 0) as [E0|Hm0].
  { rewrite E0. unfold shr_fexp. cbn [Zdigits2 shr_record_of_loc]. unfold shr, norm, pack.
    pose proof (pow2_pos prec ltac:(lia)). rewrite (proj2 (Z.eqb_neq 0 (2 ^ prec))) by lia. cbn [fst].
    destruct (fexp (0 + (e + k)) - (e + k)) as [|p|p]; [done| |done]. pose proof (iter_shifted 0 p ltac:(lia)) as Hi.
    apply shifted_m in Hi; [|lia]. rewrite Z.div_0_l in Hi by (apply Z.pow_nonzero; lia). by rewrite Hi. }
  pose proof (shr_fexp_spec m (e + k) ltac:(lia)) as H2. cbv zeta in H2.
  destruct (digits_spec m ltac:(lia)) as [Hd1 Hd2]. destruct (shr_fexp prec emax m (e + k) loc_Exact) as [r2 e2].
  destruct H2 as [H2 ->]. unfold norm, pack. destruct (Z.eqb_spec m (2 ^ prec)) as [Ep|Hp].
  - assert (Hd : Zdigits2 m = prec + 1).
    { apply digits_unique; [lia|]. rewrite Ep. replace (prec + 1 - 1) with prec by lia. rewrite Z.pow_add_r by lia.
      pose proof (pow2_pos prec). lia. }
    assert (Hk2 : Z.max 0 (fexp (Zdigits2 m + (e + k)) - (e + k)) = 1) by (rewrite Hd; unfold SpecFloat.fexp; lia).
    rewrite Hk2 in *. apply shifted_m in H2; [|lia]. cbn [fst snd]. rewrite H2, Ep. f_equal.
    replace (2 ^ prec) with (2 ^ (prec - 1) * 2 ^ 1) by (rewrite <- Z.pow_add_r by lia; f_equal; lia).
    rewrite Z.div_mul by done. done.
  - assert (Hd : Zdigits2 m <= prec).
    { destruct (Z.le_gt_cases (Zdigits2 m) prec); [done|]. pose proof (Z.pow_le_mono_r 2 prec (Zdigits2 m - 1)). lia. }
    assert (Hk2 : Z.max 0 (fexp (Zdigits2 m + (e + k)) - (e + k)) = 0) by (unfold SpecFloat.fexp; lia).
    rewrite Hk2 in *. apply shifted_0 in H2. cbn [fst snd]. rewrite H2, Z.add_0_r. done.
Qed.

(** ** Values *)

(** A float without a rounding step left: zero or a bounded finite number. *)
Definition fin (x : spec_float) : bool :=
  match x with S754_zero _ => true | S754_finite _ m e => bounded prec emax m e | _ => false end.

Definition val (x : spec_float) : Z :=
  match x with S754_finite s m e => cond_Zopp s (Zpos m * 2 ^ (e - emin)) | _ => 0 end.

(** Rounding a value: [Rpos] of a natural number, [R] of an integer. *)
Definition drop_bits (N : Z) : Z := Z.max 0 (Zdigits2 N - prec).
Definition Rpos (N : Z) : Z := rne N (drop_bits N) * 2 ^ drop_bits N.
Definition R (z : Z) : Z := if z <? 0 then - Rpos (- z) else Rpos z.

(** The values a float can have. *)
Definition top : Z := 2 ^ (emax - emin).

Lemma align_value p d : Zpos (Pos.iter xO p d) = Zpos p * 2 ^ Zpos d.
Proof using.
  rewrite Pos2Nat.inj_iter, <- (positive_nat_Z d). induction (Pos.to_nat d) as [|n IH]; [cbn; lia|].
  rewrite Nat2Z.inj_succ, Z.pow_succ_r by lia. cbn [nat_rect]. rewrite Pos2Z.inj_xO, IH. ring.
Qed.

Lemma drop_bits_scale M e : 0 < M -> emin <= e ->
  fexp (Zdigits2 M + e) = emin + drop_bits (M * 2 ^ (e - emin)).
Proof using. intros HM He. unfold drop_bits. rewrite digits_scale by lia. unfold SpecFloat.fexp. lia. Qed.

Lemma binary_round_spec s p e : emin <= e ->
  let N := Zpos p * 2 ^ (e - emin) in
  binary_round prec emax s p e = pack s (norm (rne N (drop_bits N)) (emin + drop_bits N)).
Proof using Hprec.
  intros He N. pose proof (drop_bits_scale (Zpos p) e ltac:(lia) He) as Hj. fold N in Hj. set (j := drop_bits N) in *.
  assert (Hj0 : 0 <= j) by (unfold j, drop_bits; lia). unfold binary_round, shl_align.
  change (Zpos (digits2_pos p)) with (Zdigits2 (Zpos p)). rewrite Hj.
  destruct (emin + j - e) as [|q|q] eqn:E.
  - rewrite round_aux_spec by lia. rewrite Hj, E. cbn [Z.max Z.compare]. rewrite Z.add_0_r. f_equal.
    assert (Hej : e = emin + j) by lia. rewrite <- Hej, rne_0. f_equal. unfold N. replace (e - emin) with j by lia.
    by rewrite rne_exact.
  - rewrite round_aux_spec by lia. rewrite Hj. replace (Z.max 0 (emin + j - e)) with (emin + j - e) by lia.
    replace (e + (emin + j - e)) with (emin + j) by lia. do 2 f_equal. unfold N.
    rewrite <- (rne_scale (Zpos p) (emin + j - e) (e - emin)) by lia. f_equal. lia.
  - assert (Hz : Zpos (Pos.iter xO p q) = Zpos p * 2 ^ (e - (emin + j))) by (rewrite align_value; do 2 f_equal; lia).
    rewrite round_aux_spec by lia. rewrite Hz, digits_scale by lia.
    replace (Zdigits2 (Zpos p) + (e - (emin + j)) + (emin + j)) with (Zdigits2 (Zpos p) + e) by lia.
    rewrite Hj. replace (Z.max 0 (emin + j - (emin + j))) with 0 by lia. rewrite rne_0, Z.add_0_r. do 2 f_equal.
    unfold N. replace (e - emin) with (e - (emin + j) + j) at 1 by lia. rewrite Z.pow_add_r, Z.mul_assoc by lia.
    by rewrite rne_exact.
Qed.

(** The rounded number in the form it is stored. *)
Lemma norm_spec N : 0 < N ->
  let '(m, e) := norm (rne N (drop_bits N)) (emin + drop_bits N) in
  0 < m < 2 ^ prec /\ emin <= e /\ (e = emin \/ 2 ^ (prec - 1) <= m) /\ m * 2 ^ (e - emin) = Rpos N.
Proof using Hprec.
  intros HN. set (j := drop_bits N). assert (Hj : 0 <= j) by (unfold j, drop_bits; lia).
  destruct (digits_spec N HN) as [Hd1 Hd2].
  assert (Hle : 0 <= rne N j <= 2 ^ prec) by (apply rne_le_prec; [done..|]; unfold j, drop_bits; lia).
  pose proof (pow2_pos (prec - 1) ltac:(lia)) as Hp1. assert (Hpp : 2 ^ prec = 2 * 2 ^ (prec - 1)) by (rewrite <- Z.pow_succ_r by lia; f_equal; lia).
  assert (Hlow : (j = 0 /\ rne N j = N) \/ 2 ^ (prec - 1) <= rne N j).
  { destruct (Z.eq_dec j 0) as [->|Hj0]; [left; split; [done|apply rne_0]|right].
    rewrite <- (rne_exact (2 ^ (prec - 1)) j Hj). apply rne_mono; [done|]. rewrite <- Z.pow_add_r by lia.
    replace (prec - 1 + j) with (Zdigits2 N - 1) by (unfold j, drop_bits in *; lia). lia. }
  unfold norm. destruct (Z.eqb_spec (rne N j) (2 ^ prec)) as [E|E].
  - split; [lia|]. split; [lia|]. split; [by right|]. unfold Rpos. fold j. rewrite E.
    replace (emin + j + 1 - emin) with (1 + j) by lia. rewrite Z.pow_add_r by lia. lia.
  - split; [destruct Hlow as [[_ Hx]|]; lia|]. split; [lia|]. split; [destruct Hlow as [[Hx _]|]; [left; lia|by right]|].
    unfold Rpos. fold j. do 2 f_equal. lia.
Qed.

(** A stored number below the top is not an infinity. *)
Lemma stored_bounded m e : 0 < m < 2 ^ prec -> emin <= e -> e = emin \/ 2 ^ (prec - 1) <= m ->
  m * 2 ^ (e - emin) < top -> bounded prec emax (Z.to_pos m) e = true.
Proof using Hprec Hemax.
  intros Hm He Hc Htop. unfold bounded, canonical_mantissa. pose proof emin_small as Hes.
  change (Zpos (digits2_pos (Z.to_pos m))) with (Zdigits2 (Zpos (Z.to_pos m))). rewrite Z2Pos.id by lia.
  destruct (digits_spec m ltac:(lia)) as [Hd1 Hd2].
  assert (Hd : Zdigits2 m <= prec).
  { destruct (Z.le_gt_cases (Zdigits2 m) prec); [done|]. pose proof (Z.pow_le_mono_r 2 prec (Zdigits2 m - 1)). lia. }
  apply andb_true_intro. split; [apply Z.eqb_eq|apply Z.leb_le].
  - unfold SpecFloat.fexp. destruct Hc as [->|Hc]; [lia|].
    assert (Zdigits2 m = prec) by (apply digits_unique; lia). lia.
  - destruct Hc as [->|Hc]; [lia|]. destruct (Z.le_gt_cases e (emax - prec)); [done|].
    assert (2 ^ (emax - emin) <= 2 ^ (prec - 1) * 2 ^ (e - emin)) by (rewrite <- Z.pow_add_r by lia; apply Z.pow_le_mono_r; lia).
    pose proof (pow2_pos (e - emin) ltac:(lia)). unfold top in Htop. nia.
Qed.

Lemma pack_value s N : 0 < N -> Rpos N < top ->
  let x := pack s (norm (rne N (drop_bits N)) (emin + drop_bits N)) in fin x = true /\ val x = cond_Zopp s (Rpos N).
Proof using Hprec Hemax.
  intros HN Htop. pose proof (norm_spec N HN) as Hn.
  destruct (norm (rne N (drop_bits N)) (emin + drop_bits N)) as [m e']. destruct Hn as (Hm & He' & Hc & Hv).
  rewrite <- Hv in Htop |- *. pose proof (stored_bounded m e' Hm He' Hc Htop) as Hb.
  unfold pack. cbn [fst snd]. destruct m as [|m|m]; try lia. pose proof Hb as Hb'. unfold bounded in Hb'.
  apply andb_prop in Hb' as [_ Hle]. rewrite Hle. split; [exact Hb|reflexivity].
Qed.

Lemma binary_round_value s p e : emin <= e -> let N := Zpos p * 2 ^ (e - emin) in
  Rpos N < top -> fin (binary_round prec emax s p e) = true /\ val (binary_round prec emax s p e) = cond_Zopp s (Rpos N).
Proof using Hprec Hemax.
  intros He N Htop. rewrite binary_round_spec by done. fold N. apply pack_value; [|done].
  unfold N. pose proof (pow2_pos (e - emin)). lia.
Qed.

(** Rounding does nothing to the value of a float. *)
Lemma bounded_stored m e : bounded prec emax m e = true ->
  emin <= e /\ Zpos m < 2 ^ prec /\ (e = emin \/ 2 ^ (prec - 1) <= Zpos m) /\ e <= emax - prec.
Proof using Hprec.
  unfold bounded, canonical_mantissa. intros H. apply andb_prop in H as [H1 H2]. apply Z.eqb_eq in H1. apply Z.leb_le in H2.
  change (Zpos (digits2_pos m)) with (Zdigits2 (Zpos m)) in H1. destruct (digits_spec (Zpos m) ltac:(lia)) as [Hd1 Hd2].
  unfold SpecFloat.fexp in H1. split; [lia|]. assert (Hd : Zdigits2 (Zpos m) <= prec) by lia.
  split; [pose proof (Z.pow_le_mono_r 2 (Zdigits2 (Zpos m)) prec); lia|]. split; [|done].
  destruct (Z.eq_dec e emin); [by left|right]. assert (Zdigits2 (Zpos m) = prec) as Hdp by lia. rewrite Hdp in Hd2. lia.
Qed.

Lemma Rpos_short M j : 0 < M < 2 ^ prec -> 0 <= j -> Rpos (M * 2 ^ j) = M * 2 ^ j.
Proof using Hprec.
  intros HM Hj. unfold Rpos, drop_bits. rewrite digits_scale by lia. destruct (digits_spec M ltac:(lia)) as [Hd1 Hd2].
  assert (Hd : Zdigits2 M <= prec).
  { destruct (Z.le_gt_cases (Zdigits2 M) prec); [done|]. pose proof (Z.pow_le_mono_r 2 prec (Zdigits2 M - 1)). lia. }
  set (k := Z.max 0 (Zdigits2 M + j - prec)). replace j with (j - k + k) by lia.
  rewrite Z.pow_add_r, Z.mul_assoc by (unfold k; lia). rewrite rne_exact by (unfold k; lia). done.
Qed.

Lemma Rpos_stored m e : bounded prec emax m e = true -> Rpos (Zpos m * 2 ^ (e - emin)) = Zpos m * 2 ^ (e - emin).
Proof using Hprec. intros H. destruct (bounded_stored m e H) as (He & Hm & _). apply Rpos_short; lia. Qed.

(** ** Rounding is monotone *)

Lemma drop_bits_mono N N' : 0 < N -> N <= N' -> drop_bits N <= drop_bits N'.
Proof using Hprec.
  intros HN H. unfold drop_bits. destruct (digits_spec N HN) as [_ H1]. destruct (digits_spec N' ltac:(lia)) as [H0 H2].
  enough (Zdigits2 N <= Zdigits2 N') by lia. destruct (Z.le_gt_cases (Zdigits2 N) (Zdigits2 N')); [done|].
  pose proof (Z.pow_le_mono_r 2 (Zdigits2 N') (Zdigits2 N - 1)). lia.
Qed.

Lemma Rpos_mono N N' : 0 < N -> N <= N' -> Rpos N <= Rpos N'.
Proof using Hprec.
  intros HN H. pose proof (drop_bits_mono N N' HN H) as Hj. unfold Rpos.
  assert (H0 : 0 <= drop_bits N) by (unfold drop_bits; lia). pose proof (pow2_pos _ H0).
  destruct (Z.eq_dec (drop_bits N) (drop_bits N')) as [E|E].
  - rewrite <- E. apply Z.mul_le_mono_nonneg_r; [lia|]. by apply rne_mono.
  - assert (Hlo : 2 ^ (prec - 1) <= rne N' (drop_bits N')).
    { rewrite <- (rne_exact (2 ^ (prec - 1)) (drop_bits N')) by lia. apply rne_mono; [lia|]. rewrite <- Z.pow_add_r by lia.
      destruct (digits_spec N' ltac:(lia)) as [_ [Hd1 _]]. replace (prec - 1 + drop_bits N') with (Zdigits2 N' - 1)
        by (unfold drop_bits in *; lia). lia. }
    assert (Hhi : rne N (drop_bits N) <= 2 ^ prec) by (apply rne_le_prec; [done..|]; unfold drop_bits; lia).
    assert (Hpow : 2 ^ prec * 2 ^ drop_bits N <= 2 ^ (prec - 1) * 2 ^ drop_bits N').
    { rewrite <- !Z.pow_add_r by lia. apply Z.pow_le_mono_r; lia. }
    pose proof (pow2_pos (drop_bits N') ltac:(lia)). nia.
Qed.

Lemma Rpos_0 : Rpos 0 = 0.
Proof using Hprec. unfold Rpos, drop_bits. cbn [Zdigits2]. replace (Z.max 0 (0 - prec)) with 0 by lia. by rewrite rne_0. Qed.

Lemma Rpos_nonneg N : 0 <= N -> 0 <= Rpos N.
Proof using Hprec.
  intros HN. destruct (Z.eq_dec N 0) as [->|]; [by rewrite Rpos_0|]. unfold Rpos.
  assert (0 <= drop_bits N) by (unfold drop_bits; lia). pose proof (pow2_pos (drop_bits N) ltac:(done)).
  destruct (rne_le_prec N (drop_bits N)); [lia|done|unfold drop_bits; lia|]. nia.
Qed.

Lemma R_opp z : R (- z) = - R z.
Proof using Hprec.
  unfold R. destruct (Z.eq_dec z 0) as [->|Hz]; [change (- 0) with 0; rewrite Z.ltb_irrefl, Rpos_0; lia|].
  destruct (Z.ltb_spec (- z) 0), (Z.ltb_spec z 0); rewrite ?Z.opp_involutive; try done; lia.
Qed.

Lemma R_mono a b : a <= b -> R a <= R b.
Proof using Hprec.
  assert (Hp : forall a b, 0 <= a -> a <= b -> Rpos a <= Rpos b).
  { intros x y Hx Hxy. destruct (Z.eq_dec x 0) as [->|]; [rewrite Rpos_0; by apply Rpos_nonneg|apply Rpos_mono; lia]. }
  intros H. unfold R. destruct (Z.ltb_spec a 0), (Z.ltb_spec b 0); try lia.
  - pose proof (Hp (- b) (- a)). lia.
  - pose proof (Rpos_nonneg (- a)). pose proof (Rpos_nonneg b). lia.
  - by apply Hp.
Qed.

(** The values of floats are fixed. *)
Lemma R_val x : fin x = true -> R (val x) = val x.
Proof using Hprec.
  destruct x as [s|s| |s m e]; try done; intros H; cbn [val]; [unfold R; rewrite Z.ltb_irrefl; apply Rpos_0|].
  pose proof (Rpos_stored m e H) as Hr. destruct (bounded_stored m e H) as (He & _).
  pose proof (pow2_pos (e - emin) ltac:(lia)). destruct s; cbn [cond_Zopp]; rewrite ?R_opp; unfold R;
    rewrite (proj2 (Z.ltb_ge _ _)) by lia; by rewrite Hr.
Qed.

(** ** Addition *)

Lemma normalize_value m e : emin <= e -> let v := m * 2 ^ (e - emin) in Z.abs (R v) < top ->
  fin (binary_normalize prec emax m e false) = true /\ val (binary_normalize prec emax m e false) = R v.
Proof using Hprec Hemax.
  intros He v Hv. pose proof (pow2_pos (e - emin) ltac:(lia)). unfold R in *. destruct m as [|p|p]; cbn [binary_normalize].
  - split; [done|]. symmetry. apply Rpos_0.
  - rewrite (proj2 (Z.ltb_ge v 0)) in Hv |- * by (unfold v; lia). apply binary_round_value; [done|]. fold v. lia.
  - rewrite (proj2 (Z.ltb_lt v 0)) in Hv |- * by (unfold v; lia).
    replace (- v) with (Zpos p * 2 ^ (e - emin)) in Hv |- * by (unfold v; lia). apply binary_round_value; [done|lia].
Qed.

Lemma shl_align_value m e ez : ez <= e -> Zpos (fst (shl_align m e ez)) = Zpos m * 2 ^ (e - ez).
Proof using.
  intros H. unfold shl_align. destruct (ez - e) as [|q|q] eqn:E; cbn [fst]; [replace (e - ez) with 0 by lia; lia|lia|].
  rewrite align_value. do 2 f_equal. lia.
Qed.

(** Below the top, the sum of floats is the rounded sum of their values. *)
Lemma add_value x y : fin x = true -> fin y = true -> Z.abs (R (val x + val y)) < top ->
  fin (SFadd prec emax x y) = true /\ val (SFadd prec emax x y) = R (val x + val y).
Proof using Hprec Hemax.
  intros Hx Hy Ht. pose proof (R_val x Hx) as Rx. pose proof (R_val y Hy) as Ry.
  destruct x as [sx|sx| |sx mx ex], y as [sy|sy| |sy my ey]; try done; cbn [SFadd].
  - split; [by destruct sx, sy|]. destruct sx, sy; symmetry; apply Rpos_0.
  - split; [done|]. change (val (S754_zero sy)) with 0. rewrite Z.add_0_r. by symmetry.
  - destruct (bounded_stored mx ex Hx) as (Hex & _). destruct (bounded_stored my ey Hy) as (Hey & _).
    set (ez := Z.min ex ey). set (S := cond_Zopp sx _ + cond_Zopp sy _).
    assert (HS : val (S754_finite sx mx ex) + val (S754_finite sy my ey) = S * 2 ^ (ez - emin)).
    { unfold S. rewrite !shl_align_value by lia. cbn [val].
      replace (ex - emin) with (ex - ez + (ez - emin)) by lia. replace (ey - emin) with (ey - ez + (ez - emin)) by lia.
      rewrite !Z.pow_add_r by lia. destruct sx, sy; cbn [cond_Zopp]; ring. }
    rewrite HS in Ht |- *. apply normalize_value; [lia|done].
Qed.

(** The difference likewise. *)
Lemma sub_add x y : fin x = true -> fin y = true -> SFsub prec emax x y = SFadd prec emax x (SFopp y).
Proof using.
  destruct x as [sx|sx| |sx mx ex], y as [sy|sy| |sy my ey]; try done; intros _ _; cbn [SFsub SFadd SFopp]; [by destruct sx, sy|].
  f_equal. destruct sx, sy; cbn [cond_Zopp negb]; lia.
Qed.

Lemma opp_value x : fin x = true -> fin (SFopp x) = true /\ val (SFopp x) = - val x.
Proof using. destruct x as [s|s| |s m e]; try done. intros H. split; [done|]. cbn. destruct s; cbn; lia. Qed.

Lemma sub_value x y : fin x = true -> fin y = true -> Z.abs (R (val x - val y)) < top ->
  fin (SFsub prec emax x y) = true /\ val (SFsub prec emax x y) = R (val x - val y).
Proof using Hprec Hemax.
  intros Hx Hy Ht. destruct (opp_value y Hy) as [Hf Hv]. rewrite sub_add by done.
  destruct (add_value x (SFopp y) Hx Hf) as [H1 H2]; rewrite Hv, Z.add_opp_r in *; done.
Qed.

(** ** Multiplication *)

Lemma round_aux_value s M e : 0 < M -> emin <= e -> prec <= Zdigits2 M -> let N := M * 2 ^ (e - emin) in
  Rpos N < top ->
  fin (binary_round_aux prec emax s M e loc_Exact) = true /\
  val (binary_round_aux prec emax s M e loc_Exact) = cond_Zopp s (Rpos N).
Proof using Hprec Hemax.
  intros HM He Hd N Htop. rewrite round_aux_spec by done. pose proof (drop_bits_scale M e HM He) as Hf. fold N in Hf.
  assert (Hdrop : drop_bits N = Zdigits2 M - prec + (e - emin)).
  { unfold drop_bits, N. rewrite digits_scale by lia. lia. }
  rewrite Hf. replace (Z.max 0 (emin + drop_bits N - e)) with (Zdigits2 M - prec) by lia.
  replace (e + (Zdigits2 M - prec)) with (emin + drop_bits N) by lia.
  rewrite <- (rne_scale M (Zdigits2 M - prec) (e - emin)) by lia. rewrite <- Hdrop. apply pack_value; [|done].
  unfold N. pose proof (pow2_pos (e - emin)). lia.
Qed.

(** The value of one. *)
Definition unity : Z := 2 ^ (- emin).

(** A float of at least a half has a full mantissa and an exponent that is not small. *)
Lemma half_normal x : emin < - prec -> fin x = true -> unity <= 2 * Z.abs (val x) ->
  exists s m e, x = S754_finite s m e /\ - prec <= e /\ 2 ^ (prec - 1) <= Zpos m.
Proof using Hprec.
  intros Hes Hx Hv. pose proof (pow2_pos (- emin) ltac:(lia)).
  destruct x as [s|s| |s m e]; try done; [unfold unity in Hv; cbn [val Z.abs] in Hv; lia|]. exists s, m, e. split; [done|].
  destruct (bounded_stored m e Hx) as (He & Hm & Hc & _).
  pose proof (pow2_pos (e - emin) ltac:(lia)) as Hp.
  assert (Hval : Z.abs (val (S754_finite s m e)) = Zpos m * 2 ^ (e - emin)) by (cbn [val]; destruct s; cbn [cond_Zopp]; lia).
  rewrite Hval in Hv. unfold unity in Hv.
  assert (- prec <= e).
  { destruct (Z.le_gt_cases (- prec) e); [done|].
    assert (2 * (2 ^ prec * 2 ^ (e - emin)) <= 2 ^ (- emin)).
    { change 2 with (2 ^ 1) at 1. rewrite <- !Z.pow_add_r by lia. apply Z.pow_le_mono_r; lia. }
    nia. }
  split; [done|]. destruct Hc as [->|]; [lia|done].
Qed.

(** The product of floats of at least a half is their exact product rounded. *)
Lemma mul_value x y : emin <= - (2 * prec) -> fin x = true -> fin y = true ->
  unity <= 2 * Z.abs (val x) -> unity <= 2 * Z.abs (val y) ->
  exists N, N * unity = val x * val y /\
    (Z.abs (R N) < top -> fin (SFmul prec emax x y) = true /\ val (SFmul prec emax x y) = R N).
Proof using Hprec Hemax.
  intros Hes Hx Hy Hhx Hhy.
  destruct (half_normal x ltac:(lia) Hx Hhx) as (sx & mx & ex & -> & Hex & Hmx).
  destruct (half_normal y ltac:(lia) Hy Hhy) as (sy & my & ey & -> & Hey & Hmy).
  pose proof (pow2_pos (- emin) ltac:(lia)) as Hu. pose proof (pow2_pos (ex + ey - emin) ltac:(lia)) as Hp.
  exists (cond_Zopp (xorb sx sy) (Zpos (mx * my) * 2 ^ (ex + ey - emin))). split.
  { unfold unity. cbn [val].
    assert (Hsplit : 2 ^ (ex - emin) * 2 ^ (ey - emin) = 2 ^ (ex + ey - emin) * 2 ^ (- emin))
      by (rewrite <- !Z.pow_add_r by lia; f_equal; lia).
    rewrite Pos2Z.inj_mul. destruct sx, sy; cbn [cond_Zopp xorb]; nia. }
  intros Ht. assert (Hd : prec <= Zdigits2 (Zpos (mx * my))).
  { destruct (digits_spec (Zpos (mx * my)) ltac:(lia)) as [Hd1 Hd2]. destruct (Z.le_gt_cases prec (Zdigits2 (Zpos (mx * my)))); [done|].
    pose proof (Z.pow_le_mono_r 2 (Zdigits2 (Zpos (mx * my))) (prec - 1)). rewrite Pos2Z.inj_mul in *. nia. }
  cbn [SFmul]. destruct (round_aux_value (xorb sx sy) (Zpos (mx * my)) (ex + ey) ltac:(lia) ltac:(lia) Hd) as [Hf Hv].
  { destruct (xorb sx sy); cbn [cond_Zopp] in Ht; rewrite ?R_opp in Ht; unfold R in Ht;
      rewrite (proj2 (Z.ltb_ge _ _)) in Ht by lia; lia. }
  split; [exact Hf|]. rewrite Hv. destruct (xorb sx sy); cbn [cond_Zopp]; rewrite ?R_opp; unfold R;
    by rewrite (proj2 (Z.ltb_ge _ _)) by lia.
Qed.

(** A float of a large value has a full mantissa and an exponent to match. *)
Lemma large_normal x a : 0 < a -> fin x = true -> 2 ^ (prec - 1 + a) <= Z.abs (val x) ->
  exists s m e, x = S754_finite s m e /\ emin + a <= e /\ 2 ^ (prec - 1) <= Zpos m.
Proof using Hprec.
  intros Ha Hx Hv. pose proof (pow2_pos (prec - 1 + a) ltac:(lia)).
  destruct x as [s|s| |s m e]; try done; [cbn [val Z.abs] in Hv; lia|]. exists s, m, e. split; [done|].
  destruct (bounded_stored m e Hx) as (He & Hm & Hc & _).
  pose proof (pow2_pos (e - emin) ltac:(lia)) as Hp.
  assert (Hval : Z.abs (val (S754_finite s m e)) = Zpos m * 2 ^ (e - emin)) by (cbn [val]; destruct s; cbn [cond_Zopp]; lia).
  rewrite Hval in Hv. assert (emin + a <= e).
  { destruct (Z.le_gt_cases (emin + a) e); [done|].
    assert (2 ^ prec * 2 ^ (e - emin) <= 2 ^ (prec - 1 + a)).
    { rewrite <- !Z.pow_add_r by lia. apply Z.pow_le_mono_r; lia. }
    nia. }
  split; [done|]. destruct Hc as [->|]; [lia|done].
Qed.

(** The product of floats that are multiples of [2^k] and [2^l], far from the smallest
    float, is the exact product rounded. *)
Lemma mul_scaled x y zx zy k l : fin x = true -> fin y = true -> val x = zx * 2 ^ k -> val y = zy * 2 ^ l ->
  prec <= k -> prec <= l -> 2 * prec - 2 - emin <= k + l -> let N := zx * zy * 2 ^ (k + l + emin) in
  Z.abs (R N) < top -> fin (SFmul prec emax x y) = true /\ val (SFmul prec emax x y) = R N.
Proof using Hprec Hemax.
  intros Hx Hy Hvx Hvy Hk Hl Hkl N Ht. pose proof (pow2_pos k ltac:(lia)) as Pk. pose proof (pow2_pos l ltac:(lia)) as Pl.
  assert (R0 : R 0 = 0) by (unfold R; rewrite Z.ltb_irrefl; apply Rpos_0).
  assert (Hzero : zx * zy = 0 -> fin (SFmul prec emax x y) = true /\ val (SFmul prec emax x y) = R N).
  { intros Hz. unfold N. rewrite Hz, Z.mul_0_l, R0.
    assert (Hxy : val x = 0 \/ val y = 0) by nia.
    destruct x as [sx|sx| |sx mx ex], y as [sy|sy| |sy my ey]; try done; exfalso;
      destruct (bounded_stored _ _ Hx) as (He & _), (bounded_stored _ _ Hy) as (He' & _);
      pose proof (pow2_pos (ex - emin) ltac:(lia)); pose proof (pow2_pos (ey - emin) ltac:(lia));
      destruct Hxy as [Hxy|Hxy]; cbn [val] in Hxy; [destruct sx|destruct sy]; cbn [cond_Zopp] in Hxy; nia. }
  destruct (Z.eq_dec (zx * zy) 0) as [Hz|Hz]; [by apply Hzero|]. clear Hzero.
  assert (Hzx : 1 <= Z.abs zx) by (destruct (Z.eq_dec zx 0) as [->|]; lia).
  assert (Hzy : 1 <= Z.abs zy) by (destruct (Z.eq_dec zy 0) as [->|]; lia).
  destruct (large_normal x (k - prec + 1) ltac:(lia) Hx) as (sx & mx & ex & -> & Hex & Hmx).
  { replace (prec - 1 + (k - prec + 1)) with k by lia. rewrite Hvx, Z.abs_mul, (Z.abs_eq (2 ^ k)) by lia. nia. }
  destruct (large_normal y (l - prec + 1) ltac:(lia) Hy) as (sy & my & ey & -> & Hey & Hmy).
  { replace (prec - 1 + (l - prec + 1)) with l by lia. rewrite Hvy, Z.abs_mul, (Z.abs_eq (2 ^ l)) by lia. nia. }
  pose proof (pow2_pos (ex + ey - emin) ltac:(lia)) as Hp.
  assert (HN : N = cond_Zopp (xorb sx sy) (Zpos (mx * my) * 2 ^ (ex + ey - emin))).
  { assert (He0 : 2 ^ (ex - emin) * 2 ^ (ey - emin) * 2 ^ (k + l + emin) = 2 ^ (ex + ey - emin) * (2 ^ k * 2 ^ l)).
    { rewrite <- !Z.pow_add_r by lia. f_equal. lia. }
    apply (Z.mul_reg_r _ _ (2 ^ k * 2 ^ l)); [nia|]. unfold N.
    transitivity (val (S754_finite sx mx ex) * val (S754_finite sy my ey) * 2 ^ (k + l + emin)); [rewrite Hvx, Hvy; ring|].
    cbn [val]. rewrite Pos2Z.inj_mul. destruct sx, sy; cbn [cond_Zopp xorb]; nia. }
  rewrite HN in *. clear HN. assert (Hd : prec <= Zdigits2 (Zpos (mx * my))).
  { destruct (digits_spec (Zpos (mx * my)) ltac:(lia)) as [Hd1 Hd2]. destruct (Z.le_gt_cases prec (Zdigits2 (Zpos (mx * my)))); [done|].
    pose proof (Z.pow_le_mono_r 2 (Zdigits2 (Zpos (mx * my))) (prec - 1)). rewrite Pos2Z.inj_mul in *. nia. }
  cbn [SFmul]. destruct (round_aux_value (xorb sx sy) (Zpos (mx * my)) (ex + ey) ltac:(lia) ltac:(lia) Hd) as [Hf Hv].
  { destruct (xorb sx sy); cbn [cond_Zopp] in Ht; rewrite ?R_opp in Ht; unfold R in Ht;
      rewrite (proj2 (Z.ltb_ge _ _)) in Ht by lia; lia. }
  split; [exact Hf|]. rewrite Hv. destruct (xorb sx sy); cbn [cond_Zopp]; rewrite ?R_opp; unfold R;
    by rewrite (proj2 (Z.ltb_ge _ _)) by lia.
Qed.

(** A number of few bits is not rounded. *)
Lemma R_short m j : Z.abs m < 2 ^ prec -> 0 <= j -> R (m * 2 ^ j) = m * 2 ^ j.
Proof using Hprec.
  intros Hm Hj. pose proof (pow2_pos j Hj). destruct (Z.eq_dec m 0) as [->|Hz]; [unfold R; cbn; apply Rpos_0|].
  unfold R. destruct (Z.ltb_spec (m * 2 ^ j) 0).
  - rewrite <- Z.mul_opp_l, Rpos_short by nia. lia.
  - rewrite Rpos_short by nia. done.
Qed.

(** ** Order *)

Lemma stored_compare m e m' e' : bounded prec emax m e = true -> bounded prec emax m' e' = true ->
  (Zpos m * 2 ^ (e - emin) ?= Zpos m' * 2 ^ (e' - emin)) = match e ?= e' with Eq => (Zpos m ?= Zpos m') | c => c end.
Proof using Hprec.
  assert (Hlt : forall m e m' e', bounded prec emax m e = true -> bounded prec emax m' e' = true -> e < e' ->
    Zpos m * 2 ^ (e - emin) < Zpos m' * 2 ^ (e' - emin)).
  { intros m1 e1 m2 e2 H1 H2 He. destruct (bounded_stored m1 e1 H1) as (He1 & Hm1 & _).
    destruct (bounded_stored m2 e2 H2) as (He2 & _ & [?|Hm2] & _); [lia|].
    assert (Hp : 2 ^ prec * 2 ^ (e1 - emin) <= 2 ^ (prec - 1) * 2 ^ (e2 - emin)).
    { rewrite <- !Z.pow_add_r by lia. apply Z.pow_le_mono_r; lia. }
    pose proof (pow2_pos (e1 - emin) ltac:(lia)). pose proof (pow2_pos (e2 - emin) ltac:(lia)). nia. }
  intros H H'. destruct (bounded_stored m e H) as (He & _). pose proof (pow2_pos (e - emin) ltac:(lia)).
  destruct (Z.compare_spec e e') as [->|Hlt'|Hgt].
  - symmetry. by apply Zmult_compare_compat_r, Z.lt_gt.
  - by apply Z.compare_lt_iff, Hlt.
  - by apply Z.compare_gt_iff, Hlt.
Qed.

Lemma ltb_value x y : fin x = true -> fin y = true -> SFltb x y = (val x <? val y).
Proof using Hprec.
  intros Hx Hy. unfold SFltb, Z.ltb.
  assert (Hpos : forall m e, bounded prec emax m e = true -> 0 < Zpos m * 2 ^ (e - emin)).
  { intros m e H. destruct (bounded_stored m e H) as (He & _). pose proof (pow2_pos (e - emin)). lia. }
  destruct x as [sx|sx| |sx mx ex], y as [sy|sy| |sy my ey]; try done; cbn [SFcompare val].
  - pose proof (Hpos my ey Hy). destruct sy; cbn [cond_Zopp]; symmetry.
    + by rewrite (proj2 (Z.compare_gt_iff _ _)) by lia.
    + by rewrite (proj2 (Z.compare_lt_iff _ _)) by lia.
  - pose proof (Hpos mx ex Hx). destruct sx; cbn [cond_Zopp]; symmetry.
    + by rewrite (proj2 (Z.compare_lt_iff _ _)) by lia.
    + by rewrite (proj2 (Z.compare_gt_iff _ _)) by lia.
  - pose proof (Hpos mx ex Hx). pose proof (Hpos my ey Hy). pose proof (stored_compare mx ex my ey Hx Hy) as Hc.
    change (Pos.compare_cont Eq mx my) with (Zpos mx ?= Zpos my).
    destruct sx, sy; cbn [cond_Zopp].
    + rewrite Z.compare_opp, (Z.compare_antisym (Zpos mx * 2 ^ (ex - emin))), Hc. by destruct (ex ?= ey), (Zpos mx ?= Zpos my).
    + by rewrite (proj2 (Z.compare_lt_iff _ _)) by lia.
    + by rewrite (proj2 (Z.compare_gt_iff _ _)) by lia.
    + rewrite Hc. by destruct (ex ?= ey).
Qed.

Lemma leb_value x y : fin x = true -> fin y = true -> SFleb x y = (val x <=? val y).
Proof using Hprec.
  intros Hx Hy. pose proof (ltb_value y x Hy Hx) as Hl. unfold SFltb in Hl. unfold SFleb.
  assert (Hc : exists c, SFcompare x y = Some c /\ SFcompare y x = Some (CompOpp c)).
  { destruct x as [sx|sx| |sx mx ex], y as [sy|sy| |sy my ey]; try done; cbn [SFcompare];
      [by exists Eq|destruct sy; eauto; by eexists..|destruct sx; by eexists|].
    change (Pos.compare_cont Eq my mx) with (Pos.compare my mx). change (Pos.compare_cont Eq mx my) with (Pos.compare mx my).
    rewrite (Z.compare_antisym ex ey), (Pos.compare_antisym mx my).
    destruct sx, sy; try (by eexists); destruct (ex ?= ey); cbn; eexists; (split; [done|]); by destruct (mx ?= my)%positive. }
  destruct Hc as (c & E1 & E2). rewrite E1. rewrite E2 in Hl. symmetry.
  destruct c; cbn in Hl |- *; symmetry in Hl; [apply Z.ltb_ge in Hl..|apply Z.ltb_lt in Hl];
    [apply Z.leb_le|apply Z.leb_le|apply Z.leb_gt]; lia.
Qed.
End Round.
Close Scope Z_scope.
End FloatRound.
