(* ===== verification/SpecDecode.v ===== *)
(** * Drafting

    Models [src/src/runtime/spec/NGramDrafter.{hpp,cpp}] (prompt lookup) and the
    interface [Drafter] the speculative decoder ([SpeculativeDecoder.v]) drafts
    through, and [GenerateParams], what a caller asks of an engine. *)

From Stdlib Require Import SpecFloat.
From S2P Require Import Prelude Sampling.

Module NGramDrafter.

(** [src/src/runtime/spec/NGramDrafter.cpp:13-23 NGramDrafter] *)
Definition create (maxK minK : nat) : result (nat * nat) :=
  if minK =? 0 then Throw (InvalidArgument "NGramDrafter: minK must be >= 1")
  else if maxK <? minK then Throw (InvalidArgument "NGramDrafter: maxK must be >= minK")
  else Ok (maxK, minK).

(** [src/src/runtime/spec/NGramDrafter.cpp:67-73 lookup] *)
Definition matchesAt (context : list Z) (k needleStart pos : nat) : bool :=
  forallb (fun i => Z.eqb (nth (pos + i) context 0%Z) (nth (needleStart + i) context 0%Z)) (seq 0 k).

(** The backward scan over the positions before [pos]; [None] when no match has a
    follow-up.
    [src/src/runtime/spec/NGramDrafter.cpp:66-87 lookup] *)
Fixpoint scan (context : list Z) (N k needleStart pos : nat) : option (list Z) :=
  match pos with
  | 0 => None
  | S pos' =>
      if negb (matchesAt context k needleStart pos') then scan context N k needleStart pos'
      else
        let followStart := pos' + k in
        if needleStart <=? followStart then scan context N k needleStart pos'
        else
          let take_ := Nat.min N (needleStart - followStart) in
          Some (take take_ (drop followStart context))
  end.

(** The sweep over needle lengths, longest first.
    [src/src/runtime/spec/NGramDrafter.cpp:57-93 lookup] *)
Fixpoint sweep (context : list Z) (N minK k : nat) : list Z :=
  match k with
  | 0 => []
  | S k' =>
      if k <? minK then []
      else
        let needleStart := length context - k in
        match scan context N k needleStart needleStart with
        | Some l => l
        | None => if k =? minK then [] else sweep context N minK k'
        end
  end.

(** [src/src/runtime/spec/NGramDrafter.cpp:38-57 lookup] *)
Definition lookup (context : list Z) (N maxK minK : nat) : list Z :=
  if (N =? 0) || (minK =? 0) || (maxK <? minK) then []
  else
    let len := length context in
    if len <? minK + 1 then [] else sweep context N minK (Nat.min maxK (len - 1)).

(** [src/src/runtime/spec/NGramDrafter.cpp:25-36 NGramDrafter::propose] *)
Definition propose (cfg : nat * nat) (context : list Z) (N : nat) : list Z :=
  if N =? 0 then [] else lookup context N (fst cfg) (snd cfg).

(** A match of the last [k] tokens at [pos] with at least one follow-up token
    before the needle. *)
Definition useful (context : list Z) (k pos : nat) : Prop :=
  pos + k < length context - k /\
  take k (drop pos context) = drop (length context - k) context.

Lemma matchesAt_spec context k pos :
  k <= length context -> pos + k <= length context ->
  matchesAt context k (length context - k) pos = true <->
  take k (drop pos context) = drop (length context - k) context.
Proof.
  intros Hk Hp. unfold matchesAt. rewrite forallb_forall. split.
  - intros H. apply list_eq_same_length with k; [rewrite length_drop; lia|
      rewrite length_take, length_drop; lia|].
    intros i x y Hi Hx Hy. rewrite lookup_take_lt, lookup_drop in Hx by done.
    rewrite lookup_drop in Hy. specialize (H i). rewrite <- list_elem_of_In, elem_of_seq in H.
    apply (nth_lookup_Some _ _ 0%Z) in Hx, Hy. rewrite Hx, Hy in H.
    apply Z.eqb_eq, H. lia.
  - intros H i Hi. rewrite <- list_elem_of_In, elem_of_seq in Hi. apply Z.eqb_eq.
    apply (f_equal (fun l => nth i l 0%Z)) in H. rewrite !nth_lookup in *.
    rewrite lookup_take_lt, !lookup_drop in H by lia. done.
Qed.

Lemma scan_spec context N k pos :
  k <= length context -> pos <= length context - k ->
  match scan context N k (length context - k) pos with
  | Some l => exists q, q < pos /\ useful context k q /\
      l = take N (take (length context - k - (q + k)) (drop (q + k) context)) /\
      forall q', q < q' < pos -> ~ useful context k q'
  | None => forall q, q < pos -> ~ useful context k q
  end.
Proof.
  intros Hk. induction pos as [|pos IH]; intros Hp; [cbn; lia|]. cbn [scan].
  destruct (matchesAt _ _ _ pos) eqn:Hm; cbn [negb].
  - apply matchesAt_spec in Hm; [|done|lia].
    destruct (Nat.leb_spec (length context - k) (pos + k)) as [Hle|Hgt].
    + assert (Hno : ~ useful context k pos) by (intros [? _]; lia).
      specialize (IH ltac:(lia)). destruct (scan _ _ _ _ pos).
      * destruct IH as (q & H1 & H2 & H3 & H4). exists q. split; [lia|]. split; [done|].
        split; [done|]. intros q' Hq'. destruct (decide (q' = pos)) as [->|]; [done|].
        apply H4. lia.
      * intros q Hq. destruct (decide (q = pos)) as [->|]; [done|]. apply IH. lia.
    + exists pos. split; [lia|]. split; [by split|]. split; [|lia]. by rewrite take_take.
  - assert (Hno : ~ useful context k pos).
    { intros [_ Hu]. apply matchesAt_spec in Hu; [congruence|done|lia]. }
    specialize (IH ltac:(lia)). destruct (scan _ _ _ _ pos).
    + destruct IH as (q & H1 & H2 & H3 & H4). exists q. split; [lia|]. split; [done|].
      split; [done|]. intros q' Hq'. destruct (decide (q' = pos)) as [->|]; [done|].
      apply H4. lia.
    + intros q Hq. destruct (decide (q = pos)) as [->|]; [done|]. apply IH. lia.
Qed.

Lemma useful_short context k pos : useful context k pos -> k < length context.
Proof. intros [H _]. lia. Qed.

(** The result of the sweep from needle length [k] down. *)
Definition swept (context : list Z) (N minK k : nat) (l : list Z) : Prop :=
  (l = [] /\ forall k' q, minK <= k' <= k -> ~ useful context k' q) \/
  exists k' q, minK <= k' <= k /\ useful context k' q /\
    l = take N (take (length context - k' - (q + k')) (drop (q + k') context)) /\
    (forall q', q < q' -> ~ useful context k' q') /\
    (forall k'' q', k' < k'' <= k -> ~ useful context k'' q').

Lemma sweep_spec context N minK k :
  0 < minK -> k < length context -> swept context N minK k (sweep context N minK k).
Proof.
  intros Hm. induction k as [|k IH]; intros Hk; cbn [sweep].
  { left. split; [done|]. intros. lia. }
  destruct (Nat.ltb_spec (S k) minK) as [Hlt|Hge].
  { left. split; [done|]. intros. lia. }
  pose proof (scan_spec context N (S k) (length context - S k) ltac:(lia) ltac:(done)) as Hs.
  assert (Hall : forall q, useful context (S k) q -> q < length context - S k).
  { intros q [H _]. lia. }
  destruct (scan _ _ _ _ _) as [l|].
  - destruct Hs as (q & _ & H2 & H3 & H4). right. exists (S k), q. split; [lia|].
    split; [done|]. split; [done|]. split; [|lia].
    intros q' Hq' Hu. apply (H4 q'); [|done]. auto.
  - assert (Hno : forall q, ~ useful context (S k) q) by (intros q Hu; by apply (Hs q); auto).
    destruct (Nat.eqb_spec (S k) minK) as [Heq|Hne].
    { left. split; [done|]. intros k' q Hk'. replace k' with (S k) by lia. apply Hno. }
    destruct (IH ltac:(lia)) as [[H1 H2]|(k' & q & H1 & H2 & H3 & H4 & H5)].
    + left. split; [done|]. intros k' q Hk'. destruct (decide (k' = S k)) as [->|]; [apply Hno|].
      apply H2. lia.
    + right. exists k', q. split; [lia|]. split; [done|]. split; [done|]. split; [done|].
      intros k'' q' Hk''. destruct (decide (k'' = S k)) as [->|]; [apply Hno|]. apply H5. lia.
Qed.

(** Prompt lookup finds exactly what it documents: among the needle lengths
    from [maxK] down to [minK] it takes the longest that occurs earlier in the
    context with a follow-up that does not run into the needle, of those
    occurrences the most recent, and drafts the tokens that followed it, at most
    [N] of them; it drafts nothing exactly when there is no such occurrence. *)
Theorem draft_lookup_spec context N maxK minK :
  0 < N -> 0 < minK <= maxK ->
  let l := lookup context N maxK minK in
  (l = [] /\ forall k q, minK <= k <= maxK -> ~ useful context k q) \/
  (l <> [] /\ length l <= N /\ exists k q, minK <= k <= maxK /\ useful context k q /\
    l = take N (take (length context - k - (q + k)) (drop (q + k) context)) /\
    (forall q', q < q' -> ~ useful context k q') /\
    (forall k' q', k < k' <= maxK -> ~ useful context k' q')).
Proof.
  intros HN Hm. unfold lookup.
  rewrite !(proj2 (Nat.eqb_neq _ _)), (proj2 (Nat.ltb_ge _ _)) by lia. cbn [orb].
  destruct (Nat.ltb_spec (length context) (minK + 1)) as [Hlt|Hge].
  { left. split; [done|]. intros k q Hk Hu. apply useful_short in Hu. lia. }
  assert (Hbig : forall k q, Nat.min maxK (length context - 1) < k -> useful context k q ->
    maxK < k).
  { intros k q Hk Hu. apply useful_short in Hu. lia. }
  destruct (sweep_spec context N minK (Nat.min maxK (length context - 1)) ltac:(lia) ltac:(lia))
    as [[H1 H2]|(k & q & H1 & H2 & H3 & H4 & H5)].
  - left. split; [done|]. intros k q Hk Hu.
    destruct (decide (k <= Nat.min maxK (length context - 1))) as [Hc|Hc].
    + apply (H2 k q); [lia|done].
    + apply (Hbig k q) in Hu; lia.
  - right. rewrite H3. split; [|split; [rewrite length_take; lia|]].
    + intros Hz. apply (f_equal length) in Hz. destruct H2 as [H2 _].
      rewrite !length_take, length_drop in Hz. simpl in Hz. lia.
    + exists k, q. split; [lia|]. split; [done|]. split; [done|]. split; [done|].
      intros k' q' Hk' Hu.
      destruct (decide (k' <= Nat.min maxK (length context - 1))) as [Hc|Hc].
      * apply (H5 k' q'); [lia|done].
      * apply (Hbig k' q') in Hu; lia.
Qed.

Lemma draft_lookup_spec_witness :
  lookup [5; 1; 2; 3; 4; 9; 1; 2; 7; 1; 2]%Z 4 3 2 = [7]%Z /\
  lookup [5; 1; 2; 3; 4; 9; 1; 2; 7; 1; 2]%Z 4 3 2 <> [] /\
  length (lookup [5; 1; 2; 3; 4; 9; 1; 2; 7; 1; 2]%Z 4 3 2) <= 4.
Proof.
  split; [vm_compute; reflexivity|].
  destruct (draft_lookup_spec [5; 1; 2; 3; 4; 9; 1; 2; 7; 1; 2]%Z 4 3 2 ltac:(lia) ltac:(lia))
    as [[H _]|(H1 & H2 & _)]; [by vm_compute in H|]. split; [exact H1|exact H2].
Defined.
End NGramDrafter.

(** ** Interfaces *)

(** [src/src/runtime/InferenceEngine.hpp:99-103 GenerateParams] *)
Record GenerateParams := mkGen {
  maxNewTokens : nat;
  sampling : Sampling.SamplingParams;
  stopIds : list Z;
}.

(** A drafter with state; both calls may throw.
    [src/src/runtime/spec/Drafter.hpp:35-56 Drafter] *)
Class Drafter := {
  DState : Type;
  propose : list Z -> nat -> Sampling.SamplingParams -> DState -> result (list Z) * DState;
  warmPrefix : list Z -> DState -> result unit * DState;
}.

(** Prompt lookup keeps nothing and never throws. *)
Definition ngramDrafter (maxK minK : nat) : Drafter := {|
  DState := unit;
  propose context N _ d := (Ok (NGramDrafter.propose (maxK, minK) context N), d);
  warmPrefix _ d := (Ok tt, d);
|}.

(** What a decode asks of its drafter: for contexts that with their drafts stay within
    [cap] tokens it answers, with at most the drafts asked for, and stays in order. *)
Record DraftsWithin {DR : Drafter} (inOrder : DState -> Prop) (cap : nat) : Prop := {
  law_propose : forall ctx N sp ds, inOrder ds -> ctx <> [] -> length ctx + N <= cap ->
    exists l ds', propose ctx N sp ds = (Ok l, ds') /\ length l <= N /\ inOrder ds';
  law_warm : forall ctx ds, inOrder ds -> ctx <> [] -> length ctx + 1 <= cap ->
    exists ds', warmPrefix ctx ds = (Ok tt, ds') /\ inOrder ds';
}.

Lemma lookup_length context N maxK minK : length (NGramDrafter.lookup context N maxK minK) <= N.
Proof.
  unfold NGramDrafter.lookup. destruct ((N =? 0) || (minK =? 0) || (maxK <? minK)); [simpl; lia|].
  cbv zeta. destruct (length context <? _); [simpl; lia|]. generalize (Nat.min maxK (length context - 1)) as k.
  induction k as [|k IH]; cbn [NGramDrafter.sweep]; [simpl; lia|].
  destruct (S k <? minK); [simpl; lia|].
  set (ns := length context - S k). assert (Hs : forall pos,
    match NGramDrafter.scan context N (S k) ns pos with Some l => length l <= N | None => True end).
  { induction pos as [|pos IHp]; cbn [NGramDrafter.scan]; [done|].
    destruct (negb _); [done|]. destruct (_ <=? _); [done|]. rewrite length_take.
    etrans; apply Nat.le_min_l. }
  specialize (Hs ns). destruct (NGramDrafter.scan _ _ _ _ _); [done|].
  destruct (S k =? minK); [simpl; lia|done].
Qed.

Lemma ngramDrafter_within maxK minK cap :
  DraftsWithin (DR := ngramDrafter maxK minK) (fun _ => True) cap.
Proof.
  split; cbn.
  - intros ctx N _ ds _ _ _. eexists _, ds. split; [done|]. split; [|done].
    unfold NGramDrafter.propose. destruct (N =? 0); [simpl; lia|]. apply lookup_length.
  - intros ctx ds _ _ _. by exists ds.
Qed.
