(* ===== verification/ModelPool.v ===== *)
(** * [AttachedModelPool]: materialise, pin and evict whole models

    Models [src/src/runtime/serving/AttachedModelPool.hpp].  A payload is its
    serial number; the factory's answer is an input of the step that returns from
    it.  Each stretch of code that runs under [_mx] is one function; the threads
    interleave between them ([step]), a wait on [_cv] may end at any time.  The
    recency clock is a 64-bit counter; [std::unordered_map] is a [gmap], its
    iteration order an argument wherever the code iterates. *)

From S2P Require Import Prelude.

Module ModelPool.

(** [src/src/runtime/serving/AttachedModelPool.hpp:230-234 Slot] *)
Record Slot := mkSlot {
  payload : nat;
  refs : nat;
  lastUsed : N;
}.

(** [src/src/runtime/serving/AttachedModelPool.hpp:246-253 AttachedModelPool] *)
Record Pool := mkPool {
  _known : gset string;
  _resident : gmap string Slot;
  _capacity : nat;
  _switching : bool;
  _clock : N;
}.

Definition eta_pool (p : Pool) : Pool :=
  mkPool (_known p) (_resident p) (_capacity p) (_switching p) (_clock p).
#[global] Instance set_resident : FieldSetter _resident := ltac:(build_setter eta_pool _resident).
#[global] Instance set_switching : FieldSetter _switching :=
  ltac:(build_setter eta_pool _switching).
#[global] Instance set_clock : FieldSetter _clock := ltac:(build_setter eta_pool _clock).

(** [src/src/runtime/serving/AttachedModelPool.hpp:109-117 AttachedModelPool] *)
Definition create (capacity : nat) (knownModelIds : list string) : Pool :=
  mkPool (list_to_set knownModelIds) ∅ (if capacity =? 0 then 1 else capacity) false 0.

(** ** Critical sections *)

(** The scan for the least recently used unpinned slot; the empty id stands for
    none, as in the code.
    [src/src/runtime/serving/AttachedModelPool.hpp:151-158 acquire] *)
Definition pickVictim (order : list (string * Slot)) : string * N :=
  fold_left (fun '(victim, oldest) '(id, s) =>
    if (refs s =? 0) && (lastUsed s <? oldest)%N then (id, lastUsed s) else (victim, oldest))
    order (EmptyString, 2 ^ 64 - 1)%N.

Definition iteration (m : gmap string Slot) : list (string * Slot) := map_to_list m.

(** How a critical section of [acquire] ends. *)
Inductive Outcome :=
  | Refused (e : exn)
  | Acquired (p : nat)
  | WaitSwitch
  | WaitRelease
  | Materialise.

(** The eviction loop, with the switch token held; the payloads it frees.
    [src/src/runtime/serving/AttachedModelPool.hpp:150-164 acquire] *)
Fixpoint makeRoom (fuel : nat) (p : Pool) (freed : list nat) : Outcome * Pool * list nat :=
  if _capacity p <=? size (_resident p) then
    match fuel with
    | 0 => (WaitRelease, p, freed)
    | S fuel' =>
        let victim := fst (pickVictim (iteration (_resident p))) in
        if String.eqb victim EmptyString then (WaitRelease, p, freed)
        else
          let freed := match _resident p !! victim with
                       | Some s => freed ++ [payload s] | None => freed end in
          makeRoom fuel' (p <| _resident := delete victim (_resident p) |>) freed
    end
  else (Materialise, p, freed).

(** [acquire] from the top of its loop to the next point where it gives up the
    lock.
    [src/src/runtime/serving/AttachedModelPool.hpp:129-148 acquire] *)
Definition acquireTop (id : string) (p : Pool) : Outcome * Pool * list nat :=
  if negb (bool_decide (id ∈ _known p)) then
    (Refused (RuntimeError ("AttachedModelPool: unknown model '" +:+ id +:+ "'")), p, [])
  else
    match _resident p !! id with
    | Some s =>
        let clock := u64 (_clock p + 1) in
        (Acquired (payload s),
         (p <| _clock := clock |>)
           <| _resident := <[id := mkSlot (payload s) (S (refs s)) clock]> (_resident p) |>, [])
    | None =>
        if _switching p then (WaitSwitch, p, [])
        else
          let p := p <| _switching := true |> in
          makeRoom (size (_resident p)) p []
    end.

(** The eviction loop once more, after a wait for a release.
    [src/src/runtime/serving/AttachedModelPool.hpp:159-162 acquire] *)
Definition acquireRetry (p : Pool) : Outcome * Pool * list nat :=
  makeRoom (size (_resident p)) p [].

(** [acquire] after the factory call: the payload, or what the factory threw (the
    empty string when it returned null).
    [src/src/runtime/serving/AttachedModelPool.hpp:178-194 acquire] *)
Definition acquireFinish (id : string) (made : nat + string) (p : Pool) : Outcome * Pool :=
  let p := p <| _switching := false |> in
  match made with
  | inr err =>
      (Refused (RuntimeError ("AttachedModelPool: materialize '" +:+ id +:+ "' failed" +:+
         (if String.eqb err EmptyString then EmptyString else ": " +:+ err))), p)
  | inl pl =>
      let clock := u64 (_clock p + 1) in
      let m := emplace id (mkSlot pl 1 clock) (_resident p) in
      (match m !! id with Some s => Acquired (payload s) | None => WaitSwitch end,
       (p <| _clock := clock |>) <| _resident := m |>)
  end.

(** [src/src/runtime/serving/AttachedModelPool.hpp:236-244 release] *)
Definition release (id : string) (p : Pool) : Pool :=
  match _resident p !! id with
  | Some s =>
      if 0 <? refs s
      then p <| _resident := <[id := mkSlot (payload s) (refs s - 1) (lastUsed s)]> (_resident p) |>
      else p
  | None => p
  end.

(** ** Threads *)

Inductive Thread :=
  | Waiting (id : string)
  | Evicting (id : string)
  | Building (id : string).

(** [live]: the handles that still pin their slot, with the payload they point
    to; [freed]: the payloads destroyed so far; [made]: the serial of the next
    payload. *)
Record World := mkWorld {
  pool : Pool;
  threads : gmap nat Thread;
  live : list (string * nat);
  freed : list nat;
  made : nat;
}.

(** What a thread is after a critical section of [acquire], and the handles it
    left behind. *)
Definition after (id : string) (o : Outcome) : option Thread * list (string * nat) :=
  match o with
  | Refused _ => (None, [])
  | Acquired p => (None, [(id, p)])
  | WaitSwitch => (Some (Waiting id), [])
  | WaitRelease => (Some (Evicting id), [])
  | Materialise => (Some (Building id), [])
  end.

Definition settle (w : World) (tid : nat) (id : string) (r : Outcome * Pool * list nat) : World :=
  let '(o, p, fr) := r in
  mkWorld p (partial_alter (fun _ => fst (after id o)) tid (threads w))
    (snd (after id o) ++ live w) (fr ++ freed w) (made w).

Inductive step (w : World) : World -> Prop :=
  | Call tid id :
      threads w !! tid = None -> step w (settle w tid id (acquireTop id (pool w)))
  | Wake tid id :
      threads w !! tid = Some (Waiting id) -> step w (settle w tid id (acquireTop id (pool w)))
  | WakeEvicting tid id :
      threads w !! tid = Some (Evicting id) -> step w (settle w tid id (acquireRetry (pool w)))
  | Built tid id :
      threads w !! tid = Some (Building id) ->
      step w (let '(o, p) := acquireFinish id (inl (made w)) (pool w) in
              settle (mkWorld (pool w) (threads w) (live w) (freed w) (S (made w))) tid id (o, p, []))
  | BuildFailed tid id err :
      threads w !! tid = Some (Building id) ->
      step w (let '(o, p) := acquireFinish id (inr err) (pool w) in settle w tid id (o, p, []))
  | Reset l1 l2 id p :
      live w = l1 ++ (id, p) :: l2 ->
      step w (mkWorld (release id (pool w)) (threads w) (l1 ++ l2) (freed w) (made w)).

Definition start (capacity : nat) (ids : list string) : World :=
  mkWorld (create capacity ids) ∅ [] [] 0.

Inductive reachable (capacity : nat) (ids : list string) : World -> Prop :=
  | reach_start : reachable capacity ids (start capacity ids)
  | reach_step w w' : reachable capacity ids w -> step w w' -> reachable capacity ids w'.

(** ** Choosing a victim *)

Lemma pickVictim_spec (order : list (string * Slot)) : forall (v0 : string) (t0 : N),
  let '(v, t) := fold_left (fun '(victim, oldest) '(id, s) =>
    if (refs s =? 0) && (lastUsed s <? oldest)%N then (id, lastUsed s) else (victim, oldest))
    order (v0, t0) in
  (t <= t0)%N /\
  ((v = v0 /\ t = t0) \/ exists s, (v, s) ∈ order /\ refs s = 0 /\ lastUsed s = t) /\
  (forall id s, (id, s) ∈ order -> refs s = 0 -> (t <= lastUsed s)%N).
Proof.
  induction order as [|[id s] order IH]; intros v0 t0; cbn [fold_left].
  { split; [done|]. split; [by left|]. by intros id s ?%elem_of_nil. }
  destruct ((refs s =? 0) && (lastUsed s <? t0)%N) eqn:Hc.
  - apply andb_prop in Hc as [Hr Hl]. apply Nat.eqb_eq in Hr. apply N.ltb_lt in Hl.
    specialize (IH id (lastUsed s)). destruct (fold_left _ order _) as [v t].
    destruct IH as (H1 & H2 & H3). split; [lia|]. split.
    + right. destruct H2 as [[-> ->]|(x & Hx & H2)]; [exists s; split; [by left|done]|].
      exists x. split; [by right|done].
    + intros i x [[= -> ->]|Hx]%elem_of_cons Hrx; [done|]. by eapply H3.
  - specialize (IH v0 t0). destruct (fold_left _ order _) as [v t].
    destruct IH as (H1 & H2 & H3). split; [done|]. split.
    + destruct H2 as [H2|(x & Hx & H2)]; [by left|right]. exists x. split; [by right|done].
    + intros i x [[= -> ->]|Hx]%elem_of_cons Hrx; [|by eapply H3].
      apply andb_false_iff in Hc as [Hc|Hc]; [by apply Nat.eqb_neq in Hc|].
      apply N.ltb_ge in Hc. lia.
Qed.

(** [v] is the least recently used unpinned slot. *)
Definition lru (m : gmap string Slot) (v : string) : Prop :=
  exists s, m !! v = Some s /\ refs s = 0 /\
    forall id x, m !! id = Some x -> refs x = 0 -> (lastUsed s <= lastUsed x)%N.

Lemma pickVictim_lru m : fst (pickVictim (iteration m)) <> EmptyString ->
  lru m (fst (pickVictim (iteration m))).
Proof.
  unfold pickVictim, iteration. intros Hne.
  pose proof (pickVictim_spec (map_to_list m) EmptyString (2 ^ 64 - 1)%N) as H.
  destruct (fold_left _ _ _) as [v t]. destruct H as (_ & H2 & H3). cbn [fst] in *.
  destruct H2 as [[-> _]|(s & Hs & Hr & Ht)]; [done|].
  apply elem_of_map_to_list in Hs. exists s. split; [done|]. split; [done|].
  intros id x Hx Hrx. rewrite Ht. eapply H3; [by apply elem_of_map_to_list|done].
Qed.

Lemma pickVictim_none m : fst (pickVictim (iteration m)) = EmptyString ->
  forall id s, m !! id = Some s -> id <> EmptyString -> refs s = 0 -> (lastUsed s < 2 ^ 64 - 1)%N ->
  exists s0, m !! EmptyString = Some s0 /\ refs s0 = 0.
Proof.
  unfold pickVictim, iteration. intros He id s Hs Hid Hr Hl.
  pose proof (pickVictim_spec (map_to_list m) EmptyString (2 ^ 64 - 1)%N) as H.
  destruct (fold_left _ _ _) as [v t]. destruct H as (_ & H2 & H3). cbn [fst] in *. subst v.
  assert (Ht : (t <= lastUsed s)%N) by (eapply H3; [by apply elem_of_map_to_list|done]).
  destruct H2 as [[_ ->]|(s0 & Hs0 & Hr0 & _)]; [lia|].
  exists s0. split; [by apply elem_of_map_to_list|done].
Qed.

(** ** Making room *)

(** [p'] is [p] without some unpinned slots, whose payloads are [fr]. *)
Definition evictedTo (p p' : Pool) (fr : list nat) : Prop :=
  _known p' = _known p /\ _capacity p' = _capacity p /\ _switching p' = _switching p /\
  _clock p' = _clock p /\ _resident p' ⊆ _resident p /\
  (forall id s, _resident p !! id = Some s -> _resident p' !! id = None -> refs s = 0) /\
  (forall x, x ∈ fr -> exists id s, _resident p !! id = Some s /\ _resident p' !! id = None /\
     payload s = x).

Lemma evictedTo_refl p : evictedTo p p [].
Proof. do 5 (split; [done|]). split; [congruence|]. by intros x ?%elem_of_nil. Qed.

Lemma makeRoom_spec p0 fuel : forall p freed,
  evictedTo p0 p freed -> size (_resident p) <= fuel -> 0 < _capacity p ->
  exists o p' fr', makeRoom fuel p freed = (o, p', fr') /\ evictedTo p0 p' fr' /\
    ((o = Materialise /\ size (_resident p') < _capacity p') \/
     (o = WaitRelease /\ _capacity p' <= size (_resident p') /\
      fst (pickVictim (iteration (_resident p'))) = EmptyString)).
Proof.
  induction fuel as [|fuel IH]; intros p freed He Hf Hc; cbn [makeRoom];
    (destruct (Nat.leb_spec (_capacity p) (size (_resident p))) as [Hle|Hgt];
     [|eexists _, _, _; (split; [done|]); (split; [done|]); left; done]); [lia|].
  destruct (String.eqb_spec (fst (pickVictim (iteration (_resident p)))) EmptyString) as [Hv|Hv].
  { eexists _, _, _. split; [done|]. split; [done|]. by right. }
  destruct (pickVictim_lru _ Hv) as (s & Hs & Hr & _). set (v := fst _) in *.
  rewrite Hs. apply IH.
  - destruct He as (H1 & H2 & H3 & H4 & H5 & H6 & H7). unfold evictedTo.
    cbn [set_field set_resident _known _capacity _switching _clock _resident].
    do 4 (split; [done|]). split; [|split].
    + etrans; [apply delete_subseteq|done].
    + intros id x Hx Hn. destruct (decide (v = id)) as [<-|Hne].
      * assert (x = s) as ->; [|done]. pose proof (lookup_weaken _ _ _ _ Hs H5). congruence.
      * rewrite lookup_delete_ne in Hn by done. by eapply H6.
    + intros x [Hx|Hx]%elem_of_app.
      * destruct (H7 x Hx) as (id & y & Hy & Hn & Hp). exists id, y. split; [done|]. split; [|done].
        destruct (decide (v = id)) as [<-|Hne]; [by apply lookup_delete_eq|].
        by rewrite lookup_delete_ne.
      * apply list_elem_of_singleton in Hx as ->. exists v, s.
        split; [by eapply lookup_weaken|]. split; [by apply lookup_delete_eq|done].
  - cbn [set_field set_resident _resident].
    rewrite map_size_delete. rewrite Hs. lia.
  - done.
Qed.

(** When the pool is full and some unpinned slot can be chosen, a miss evicts
    exactly one slot, the least recently used of the unpinned ones, and goes on to
    materialise; a pinned slot is never evicted, and when every slot is pinned
    nothing is evicted and the thread waits. *)
Theorem miss_evicts_lru p :
  0 < _capacity p -> size (_resident p) = _capacity p -> _resident p !! EmptyString = None ->
  (forall id s, _resident p !! id = Some s -> (lastUsed s < 2 ^ 64 - 1)%N) ->
  match acquireRetry p with
  | (Materialise, p', fr) => exists v s, lru (_resident p) v /\ _resident p !! v = Some s /\
      _resident p' = delete v (_resident p) /\ fr = [payload s]
  | (WaitRelease, p', fr) => p' = p /\ fr = [] /\
      forall id s, _resident p !! id = Some s -> 0 < refs s
  | _ => False
  end.
Proof.
  intros Hc Hfull Hne Hl. unfold acquireRetry.
  destruct (size (_resident p)) as [|n] eqn:Hsz; [lia|]. cbn [makeRoom].
  rewrite Hsz, (proj2 (Nat.leb_le _ _)) by lia.
  destruct (String.eqb_spec (fst (pickVictim (iteration (_resident p)))) EmptyString) as [Hv|Hv].
  - split; [done|]. split; [done|]. intros id s Hs. destruct (refs s) eqn:Hr; [|lia].
    destruct (pickVictim_none _ Hv id s Hs) as (s0 & Hs0 & _); [|done|by eapply Hl|congruence].
    intros ->. congruence.
  - pose proof (pickVictim_lru _ Hv) as Hlru. set (v := fst _) in *.
    destruct Hlru as (s & Hs & Hr & Hmin). rewrite Hs.
    assert (Hsz' : size (delete v (_resident p)) = n) by (rewrite map_size_delete, Hs; lia).
    destruct n as [|n]; cbn [makeRoom set_field set_resident _resident _capacity];
      rewrite Hsz', (proj2 (Nat.leb_gt _ _)) by lia;
      (exists v, s; split; [exists s; done|]; by rewrite app_nil_l).
Qed.

Lemma miss_evicts_lru_witness :
  let p := mkPool {["a"; "b"; "c"]} {["a" := mkSlot 0 0 4; "b" := mkSlot 1 0 3; "c" := mkSlot 2 1 2]}
             3 true 4 in
  match acquireRetry p with
  | (Materialise, p', fr) => exists v s, lru (_resident p) v /\ _resident p !! v = Some s /\
      _resident p' = delete v (_resident p) /\ fr = [payload s]
  | (WaitRelease, p', fr) => p' = p /\ fr = [] /\
      forall id s, _resident p !! id = Some s -> 0 < refs s
  | _ => False
  end.
Proof.
  apply miss_evicts_lru.
  - cbn. lia.
  - vm_compute. reflexivity.
  - vm_compute. reflexivity.
  - intros id s Hs.
    assert (H : map_Forall (fun _ s => (lastUsed s < 2 ^ 64 - 1)%N)
      ({["a" := mkSlot 0 0 4; "b" := mkSlot 1 0 3; "c" := mkSlot 2 1 2]} : gmap string Slot)).
    { apply (bool_decide_unpack _). vm_compute. exact I. }
    exact (H id s Hs).
Defined.

(** ** Invariant of the running pool *)

Definition pins (l : list (string * nat)) (id : string) : nat :=
  count_if (fun h => String.eqb (fst h) id) l.

(** The thread holds the switch token. *)
Definition switcher (th : Thread) : Prop :=
  match th with Waiting _ => False | Evicting _ | Building _ => True end.

Record winv (w : World) : Prop := {
  w_cap : 0 < _capacity (pool w) /\ size (_resident (pool w)) <= _capacity (pool w);
  w_known : forall id s, _resident (pool w) !! id = Some s -> id ∈ _known (pool w);
  w_refs : forall id s, _resident (pool w) !! id = Some s -> refs s = pins (live w) id;
  w_live : forall id p, (id, p) ∈ live w ->
    exists s, _resident (pool w) !! id = Some s /\ payload s = p;
  w_inj : forall i j s s', _resident (pool w) !! i = Some s -> _resident (pool w) !! j = Some s' ->
    payload s = payload s' -> i = j;
  w_fresh : forall id s, _resident (pool w) !! id = Some s ->
    payload s < made w /\ payload s ∉ freed w;
  w_freed : forall x, x ∈ freed w -> x < made w;
  w_token : forall i th, threads w !! i = Some th -> switcher th ->
    _switching (pool w) = true /\
    forall j th', threads w !! j = Some th' -> switcher th' -> j = i;
  w_switch : _switching (pool w) = true -> exists i th, threads w !! i = Some th /\ switcher th;
  w_evict : forall i id, threads w !! i = Some (Evicting id) ->
    id ∈ _known (pool w) /\ _resident (pool w) !! id = None;
  w_build : forall i id, threads w !! i = Some (Building id) ->
    id ∈ _known (pool w) /\ _resident (pool w) !! id = None /\
    size (_resident (pool w)) < _capacity (pool w);
}.

Lemma pins_pos l id p : (id, p) ∈ l -> 0 < pins l id.
Proof.
  unfold pins. induction l as [|h l IH]; [by intros ?%elem_of_nil|].
  intros [<-|H]%elem_of_cons; cbn [count_if fst].
  - rewrite String.eqb_refl. lia.
  - specialize (IH H). lia.
Qed.

(** Eviction keeps everything but the slots it removes. *)
Lemma winv_evicted w p' fr :
  winv w -> evictedTo (pool w) p' fr ->
  winv (mkWorld p' (threads w) (live w) (fr ++ freed w) (made w)).
Proof.
  intros Hw (E1 & E2 & E3 & E4 & E5 & E6 & E7).
  assert (Hsub : forall id s, _resident p' !! id = Some s -> _resident (pool w) !! id = Some s)
    by (intros id s H; by eapply lookup_weaken).
  destruct Hw. split; cbn [pool threads live freed made]; rewrite ?E1, ?E2, ?E3; try done.
  - split; [apply w_cap0|]. etrans; [by apply map_subseteq_size|apply w_cap0].
  - eauto.
  - eauto.
  - intros id p Hin. destruct (w_live0 id p Hin) as (s & Hs & Hp). exists s. split; [|done].
    destruct (_resident p' !! id) as [x|] eqn:Hx; [|].
    + apply Hsub in Hx. congruence.
    + pose proof (E6 id s Hs Hx). pose proof (pins_pos _ _ _ Hin). rewrite (w_refs0 id s Hs) in H. lia.
  - eauto.
  - intros id s Hs. destruct (w_fresh0 id s (Hsub _ _ Hs)) as [F1 F2]. split; [done|].
    intros [Hx|Hx]%elem_of_app; [|done]. destruct (E7 _ Hx) as (j & y & Hy & Hn & Hp).
    assert (j = id) as -> by (eapply w_inj0; eauto). congruence.
  - intros x [Hx|Hx]%elem_of_app; [|by apply w_freed0].
    destruct (E7 _ Hx) as (j & y & Hy & _ & <-). by eapply w_fresh0.
  - intros i id Hi. destruct (w_evict0 i id Hi) as [H1 H2]. split; [done|].
    destruct (_resident p' !! id) eqn:Hx; [|done]. apply Hsub in Hx. congruence.
  - intros i id Hi. destruct (w_build0 i id Hi) as (H1 & H2 & H3). split; [done|]. split.
    + destruct (_resident p' !! id) eqn:Hx; [|done]. apply Hsub in Hx. congruence.
    + eapply Nat.le_lt_trans; [by apply map_subseteq_size|done].
Qed.

(** The thread table after a critical section. *)
Lemma lookup_settled (th : option Thread) (m : gmap nat Thread) (i j : nat) :
  partial_alter (fun _ => th) i m !! j = if decide (i = j) then th else m !! j.
Proof.
  case_decide as H; [subst; by rewrite lookup_partial_alter_eq|by rewrite lookup_partial_alter_ne].
Qed.

(** A thread that does not hold the token starts to wait for it, or leaves. *)
Lemma winv_thread w tid th :
  winv w -> (forall x, threads w !! tid = Some x -> ~ switcher x) ->
  (forall x, th = Some x -> ~ switcher x) ->
  winv (mkWorld (pool w) (partial_alter (fun _ => th) tid (threads w)) (live w) (freed w) (made w)).
Proof.
  intros Hw Hold Hnew. destruct Hw. split; cbn [pool threads live freed made]; try done.
  - intros i x Hi Hsw. rewrite lookup_settled in Hi. case_decide; [by destruct (Hnew _ Hi)|].
    destruct (w_token0 i x Hi Hsw) as [H1 H2]. split; [done|].
    intros j y Hj Hy. rewrite lookup_settled in Hj. case_decide; [by destruct (Hnew _ Hj)|].
    by eapply H2.
  - intros Hs. destruct (w_switch0 Hs) as (i & x & Hi & Hx). exists i, x. split; [|done].
    rewrite lookup_settled. case_decide; [|done]. subst. by destruct (Hold x Hi).
  - intros i id Hi. rewrite lookup_settled in Hi. case_decide; [by destruct (Hnew _ Hi)|].
    by eapply w_evict0.
  - intros i id Hi. rewrite lookup_settled in Hi. case_decide; [by destruct (Hnew _ Hi)|].
    by eapply w_build0.
Qed.

(** A hit: one more pin. *)
Lemma winv_hit w id s clock :
  winv w -> _resident (pool w) !! id = Some s ->
  winv (mkWorld (((pool w) <| _clock := clock |>)
      <| _resident := <[id := mkSlot (payload s) (S (refs s)) clock]> (_resident (pool w)) |>)
    (threads w) ((id, payload s) :: live w) (freed w) (made w)).
Proof.
  intros Hw Hs. destruct Hw.
  split; cbn [pool threads live freed made set_field set_resident set_clock _resident _known _capacity
    _switching _clock]; try done.
  - split; [apply w_cap0|]. rewrite map_size_insert, Hs. cbn. apply w_cap0.
  - intros i x Hi. apply lookup_insert_Some in Hi as [[<- <-]|[_ Hi]]; eauto.
  - intros i x Hi. unfold pins. cbn [count_if fst].
    apply lookup_insert_Some in Hi as [[<- <-]|[Hne Hi]].
    + rewrite String.eqb_refl. cbn. by rewrite (w_refs0 id s Hs).
    + destruct (String.eqb_spec id i); [done|]. cbn. by apply w_refs0.
  - intros i p [[= -> ->]|Hin]%elem_of_cons.
    + eexists. rewrite lookup_insert_eq. done.
    + destruct (w_live0 i p Hin) as (x & Hx & Hp). destruct (decide (id = i)) as [<-|Hne].
      * eexists. rewrite lookup_insert_eq. split; [done|]. cbn. congruence.
      * exists x. by rewrite lookup_insert_ne.
  - intros i j x y Hi Hj Hp.
    apply lookup_insert_Some in Hi as [[<- <-]|[_ Hi]], Hj as [[<- <-]|[_ Hj]];
      cbn [payload] in Hp; eauto.
  - intros i x Hi. apply lookup_insert_Some in Hi as [[<- <-]|[_ Hi]]; cbn [payload]; eauto.
  - intros i j Hi. destruct (w_evict0 i j Hi) as [H1 H2]. split; [done|].
    rewrite lookup_insert_ne; [done|]. intros <-. congruence.
  - intros i j Hi. destruct (w_build0 i j Hi) as (H1 & H2 & H3). split; [done|]. split.
    + rewrite lookup_insert_ne; [done|]. intros <-. congruence.
    + rewrite map_size_insert, Hs. done.
Qed.

(** The thread that takes or holds the token goes on to evict or to build. *)
Lemma winv_token w tid id th :
  winv w -> id ∈ _known (pool w) -> _resident (pool w) !! id = None ->
  (forall i x, threads w !! i = Some x -> switcher x -> i = tid) ->
  (th = Evicting id \/ th = Building id /\ size (_resident (pool w)) < _capacity (pool w)) ->
  winv (mkWorld ((pool w) <| _switching := true |>) (partial_alter (fun _ => Some th) tid (threads w))
    (live w) (freed w) (made w)).
Proof.
  intros Hw Hk Hr Honly Hth. destruct Hw.
  split; cbn [pool threads live freed made set_field set_switching _resident _known _capacity _switching];
    try done.
  - intros i x Hi Hx. rewrite lookup_settled in Hi.
    assert (i = tid) as -> by (case_decide; [done|by eapply Honly]).
    split; [done|]. intros j y Hj Hy. rewrite lookup_settled in Hj. case_decide; [done|].
    by eapply Honly.
  - intros _. exists tid, th. rewrite lookup_settled, decide_True by done. split; [done|].
    by destruct Hth as [->|[-> _]].
  - intros i j Hi. rewrite lookup_settled in Hi. case_decide; [|by eapply w_evict0].
    destruct Hth as [->|[-> _]]; [|done]. by injection Hi as <-.
  - intros i j Hi. rewrite lookup_settled in Hi. case_decide; [|by eapply w_build0].
    destruct Hth as [->|[-> ?]]; [done|]. by injection Hi as <-.
Qed.

(** Making room with the token in hand. *)
Lemma winv_makeRoom w tid id p sw :
  winv w -> p = (pool w) <| _switching := true |> -> _switching (pool w) = sw ->
  id ∈ _known (pool w) -> _resident (pool w) !! id = None ->
  (forall i x, threads w !! i = Some x -> switcher x -> i = tid) ->
  winv (settle w tid id (makeRoom (size (_resident p)) p [])).
Proof.
  intros Hw -> Hsw Hk Hr Honly. set (p := (pool w) <| _switching := true |>).
  destruct (makeRoom_spec p (size (_resident p)) p [] (evictedTo_refl p) ltac:(done)
    ltac:(apply Hw)) as (o & p' & fr & -> & He & Ho).
  pose proof He as (E1 & E2 & E3 & E4 & E5 & _).
  assert (He' : evictedTo (pool w) (p' <| _switching := sw |>) fr).
  { destruct He as (A1 & A2 & A3 & A4 & A5 & A6 & A7). split; [exact A1|]. split; [exact A2|].
    split; [done|]. split; [exact A4|]. split; [exact A5|]. split; [exact A6|exact A7]. }
  pose proof (winv_evicted w _ _ Hw He') as Hw1.
  assert (Hp' : (p' <| _switching := sw |>) <| _switching := true |> = p').
  { destruct p'. cbn in E3. by rewrite E3. }
  assert (Hnone : _resident p' !! id = None).
  { destruct (_resident p' !! id) as [x|] eqn:Hx; [|done].
    pose proof (lookup_weaken _ _ _ _ Hx E5) as Hin. cbn in Hin. congruence. }
  assert (Hk' : id ∈ _known p') by by rewrite E1.
  rewrite <- Hp'. destruct Ho as [[-> Hlt]|(-> & Hle & _)]; cbn [settle after fst snd app].
  - eapply (winv_token _ tid id (Building id) Hw1); [done|done|done|by right].
  - eapply (winv_token _ tid id (Evicting id) Hw1); [done|done|done|by left].
Qed.

Lemma winv_top w tid id :
  winv w -> (forall x, threads w !! tid = Some x -> ~ switcher x) ->
  winv (settle w tid id (acquireTop id (pool w))).
Proof.
  intros Hw Hold. unfold acquireTop.
  destruct (bool_decide (id ∈ _known (pool w))) eqn:Hk; cbn [negb].
  2: { cbn [settle after fst snd app]. by apply winv_thread. }
  apply bool_decide_eq_true in Hk.
  destruct (_resident (pool w) !! id) as [s|] eqn:Hs.
  { cbn [settle after fst snd app].
    pose proof (winv_thread w tid None Hw Hold ltac:(done)) as Hw1.
    exact (winv_hit _ id s (u64 (_clock (pool w) + 1)) Hw1 Hs). }
  destruct (_switching (pool w)) eqn:Hsw.
  { cbn [settle after fst snd app]. apply winv_thread; [done|done|]. by intros x [= <-] []. }
  eapply winv_makeRoom; try done. intros i x Hi Hx.
  destruct (w_token w Hw i x Hi Hx) as [H _]. congruence.
Qed.

(** The token is handed back. *)
Lemma winv_untoken w tid :
  winv w -> (exists x, threads w !! tid = Some x /\ switcher x) ->
  winv (mkWorld ((pool w) <| _switching := false |>) (partial_alter (fun _ => None) tid (threads w))
    (live w) (freed w) (made w)).
Proof.
  intros Hw (x & Hx & Hsx).
  assert (Honly : forall j y, partial_alter (fun _ => None) tid (threads w) !! j = Some y ->
      threads w !! j = Some y /\ ~ switcher y).
  { intros j y Hj. rewrite lookup_settled in Hj. case_decide; [done|]. split; [done|]. intros Hy.
    destruct (w_token w Hw tid x Hx Hsx) as [_ H1]. by destruct H; rewrite (H1 j y Hj Hy). }
  destruct Hw.
  split; cbn [pool threads live freed made set_field set_switching _resident _known _capacity _switching];
    try done.
  - intros i y Hi Hy. destruct (Honly i y Hi) as [_ []]. done.
  - intros i id Hi. destruct (Honly i _ Hi) as [_ H]. by destruct H.
  - intros i id Hi. destruct (Honly i _ Hi) as [_ H]. by destruct H.
Qed.

Lemma winv_made w n : winv w -> made w <= n -> winv (mkWorld (pool w) (threads w) (live w) (freed w) n).
Proof.
  intros Hw Hn. destruct Hw. split; cbn [pool threads live freed made]; try done.
  - intros id s Hs. destruct (w_fresh0 id s Hs). split; [lia|done].
  - intros x Hx. specialize (w_freed0 x Hx). lia.
Qed.

(** A freshly built payload goes in, pinned once. *)
Lemma winv_insert w id n clock :
  winv w -> _resident (pool w) !! id = None -> id ∈ _known (pool w) ->
  size (_resident (pool w)) < _capacity (pool w) ->
  (forall x, x ∈ freed w -> x < n) -> made w = n ->
  (forall i th, threads w !! i = Some th -> ~ switcher th) ->
  winv (mkWorld (((pool w) <| _clock := clock |>)
      <| _resident := <[id := mkSlot n 1 clock]> (_resident (pool w)) |>)
    (threads w) ((id, n) :: live w) (freed w) (S n)).
Proof.
  intros Hw Hn Hk Hlt Hfr Hm Hth. destruct Hw.
  assert (Hpin : pins (live w) id = 0).
  { destruct (pins (live w) id) eqn:Hp; [done|]. exfalso. unfold pins in Hp.
    assert (H : exists p, (id, p) ∈ live w).
    { clear -Hp. induction (live w) as [|[j p] l IH]; [done|]. cbn [count_if fst] in Hp.
      destruct (String.eqb_spec j id) as [->|]; [exists p; by left|].
      destruct (IH Hp) as [q Hq]. exists q. by right. }
    destruct H as [p Hin]. destruct (w_live0 id p Hin) as (s & Hs & _). congruence. }
  split; cbn [pool threads live freed made set_field set_resident set_clock _resident _known _capacity
    _switching _clock]; try done.
  - split; [apply w_cap0|]. rewrite map_size_insert, Hn. cbn. lia.
  - intros i x Hi. apply lookup_insert_Some in Hi as [[<- <-]|[_ Hi]]; eauto.
  - intros i x Hi. unfold pins. cbn [count_if fst].
    apply lookup_insert_Some in Hi as [[<- <-]|[Hne Hi]].
    + rewrite String.eqb_refl. unfold pins in Hpin. rewrite Hpin. done.
    + destruct (String.eqb_spec id i); [done|]. cbn. by apply w_refs0.
  - intros i p [[= -> ->]|Hin]%elem_of_cons.
    + eexists. rewrite lookup_insert_eq. done.
    + destruct (w_live0 i p Hin) as (x & Hx & Hp). exists x. rewrite lookup_insert_ne; [done|].
      intros <-. congruence.
  - intros i j x y Hi Hj Hp.
    apply lookup_insert_Some in Hi as [[<- <-]|[_ Hi]], Hj as [[<- <-]|[_ Hj]];
      cbn [payload] in Hp; eauto.
    + destruct (w_fresh0 j y Hj). lia.
    + destruct (w_fresh0 i x Hi). lia.
  - intros i x Hi. apply lookup_insert_Some in Hi as [[<- <-]|[_ Hi]]; cbn [payload].
    + split; [lia|]. intros H. specialize (Hfr _ H). lia.
    + destruct (w_fresh0 i x Hi). split; [lia|done].
  - intros x Hx. specialize (Hfr x Hx). lia.
  - intros i j Hi. by destruct (Hth i _ Hi).
  - intros i j Hi. by destruct (Hth i _ Hi).
Qed.

Lemma winv_built w tid id :
  winv w -> threads w !! tid = Some (Building id) ->
  winv (let '(o, p) := acquireFinish id (inl (made w)) (pool w) in
        settle (mkWorld (pool w) (threads w) (live w) (freed w) (S (made w))) tid id (o, p, [])).
Proof.
  intros Hw Ht. destruct (w_build w Hw tid id Ht) as (Hk & Hn & Hlt).
  unfold acquireFinish. cbn [set_field set_switching _resident _clock].
  rewrite emplace_fresh by done. rewrite lookup_insert_eq.
  cbn [settle after fst snd app payload pool threads live freed made].
  pose proof (winv_untoken w tid Hw ltac:(by exists (Building id))) as Hw1.
  apply (winv_insert _ id (made w) (u64 (_clock (pool w) + 1)) Hw1); try done.
  - intros x Hx. by apply (w_freed w Hw).
  - intros i th Hi Hs. cbn [threads] in Hi. rewrite lookup_settled in Hi. case_decide; [done|].
    destruct (w_token w Hw tid _ Ht I) as [_ H1]. by destruct H; rewrite (H1 i th Hi Hs).
Qed.

(** A handle gives its pin back. *)
Lemma winv_release w l1 l2 id p :
  winv w -> live w = l1 ++ (id, p) :: l2 ->
  winv (mkWorld (release id (pool w)) (threads w) (l1 ++ l2) (freed w) (made w)).
Proof.
  intros Hw Hl.
  assert (Hin : forall h, h ∈ l1 ++ l2 -> h ∈ live w).
  { intros h. rewrite Hl, !elem_of_app, elem_of_cons. tauto. }
  assert (Hpins : forall i, pins (live w) i = (if String.eqb id i then 1 else 0) + pins (l1 ++ l2) i).
  { intros i. unfold pins. rewrite Hl, !count_if_app. cbn [count_if fst]. lia. }
  destruct (w_live w Hw id p) as (s & Hs & Hp); [rewrite Hl; set_solver|].
  pose proof (w_refs w Hw id s Hs) as Hr. rewrite Hpins, String.eqb_refl in Hr.
  unfold release. rewrite Hs, (proj2 (Nat.ltb_lt _ _)) by lia. destruct Hw.
  split; cbn [pool threads live freed made set_field set_resident _resident _known _capacity _switching];
    try done.
  - split; [apply w_cap0|]. rewrite map_size_insert, Hs. cbn. apply w_cap0.
  - intros i x Hi. apply lookup_insert_Some in Hi as [[<- <-]|[_ Hi]]; eauto.
  - intros i x Hi. apply lookup_insert_Some in Hi as [[<- <-]|[Hne Hi]].
    + cbn [refs]. lia.
    + rewrite (w_refs0 i x Hi), Hpins. by destruct (String.eqb_spec id i).
  - intros i q Hq. destruct (w_live0 i q (Hin _ Hq)) as (x & Hx & Hpx).
    destruct (decide (id = i)) as [<-|Hne].
    + eexists. rewrite lookup_insert_eq. split; [done|]. cbn. congruence.
    + exists x. by rewrite lookup_insert_ne.
  - intros i j x y Hi Hj Hxy.
    apply lookup_insert_Some in Hi as [[<- <-]|[_ Hi]], Hj as [[<- <-]|[_ Hj]];
      cbn [payload] in Hxy; eauto.
  - intros i x Hi. apply lookup_insert_Some in Hi as [[<- <-]|[_ Hi]]; cbn [payload]; eauto.
  - intros i j Hi. destruct (w_evict0 i j Hi) as [H1 H2]. split; [done|].
    rewrite lookup_insert_ne; [done|]. intros <-. congruence.
  - intros i j Hi. destruct (w_build0 i j Hi) as (H1 & H2 & H3). split; [done|]. split.
    + rewrite lookup_insert_ne; [done|]. intros <-. congruence.
    + rewrite map_size_insert, Hs. done.
Qed.

Lemma winv_step w w' : winv w -> step w w' -> winv w'.
Proof.
  intros Hw Hst. destruct Hst as [tid id Ht|tid id Ht|tid id Ht|tid id Ht|tid id err Ht|l1 l2 id p Hl].
  - apply winv_top; [done|]. intros x. congruence.
  - apply winv_top; [done|]. intros x. rewrite Ht. by intros [= <-] [].
  - destruct (w_evict w Hw tid id Ht) as [Hk Hn]. destruct (w_token w Hw tid _ Ht I) as [Hs Ho].
    unfold acquireRetry. eapply winv_makeRoom; try done.
    destruct (pool w). cbn in Hs. by rewrite Hs.
  - by apply winv_built.
  - cbn [acquireFinish]. cbn zeta. cbn [settle after fst snd app].
    apply (winv_untoken w tid Hw). by exists (Building id).
  - by eapply winv_release.
Qed.

Lemma winv_start capacity ids : winv (start capacity ids).
Proof.
  split; cbn [start create pool threads live freed made _resident _capacity _known _switching]; try done.
  - split; [destruct (Nat.eqb_spec capacity 0); lia|]. rewrite map_size_empty. lia.
  - intros id p H. by apply elem_of_nil in H.
  - intros x H. by apply elem_of_nil in H.
Qed.

(** ** Every payload is accounted for *)

(** The payloads a map of slots owns. *)
Definition payloads (m : gmap string Slot) : list nat := (fun x => payload x.2) <$> map_to_list m.

(** The payloads materialised so far are the resident and the destroyed ones, each
    once. *)
Definition accounted (w : World) : Prop :=
  payloads (_resident (pool w)) ++ freed w ≡ₚ seq 0 (made w).

Lemma payloads_insert m id s : m !! id = None -> payloads (<[id := s]> m) ≡ₚ payload s :: payloads m.
Proof. intros H. unfold payloads. by rewrite map_to_list_insert. Qed.

Lemma payloads_delete m id s : m !! id = Some s -> payloads m ≡ₚ payload s :: payloads (delete id m).
Proof. intros H. unfold payloads. by rewrite <- (map_to_list_delete m id s H). Qed.

Lemma payloads_update m id s s' :
  m !! id = Some s -> payload s' = payload s -> payloads (<[id := s']> m) ≡ₚ payloads m.
Proof.
  intros H Hp. rewrite <- insert_delete_eq, payloads_insert by apply lookup_delete_eq.
  by rewrite Hp, <- payloads_delete.
Qed.

Lemma makeRoom_payloads fuel : forall p fr, exists k,
  (makeRoom fuel p fr).2 = fr ++ k /\
  payloads (_resident p) ≡ₚ payloads (_resident (makeRoom fuel p fr).1.2) ++ k.
Proof.
  induction fuel as [|fuel IH]; intros p fr; cbn [makeRoom];
    (destruct (_capacity p <=? _); [|exists []; by rewrite !app_nil_r]);
    [exists []; by rewrite !app_nil_r|].
  destruct (String.eqb_spec (pickVictim (iteration (_resident p))).1 EmptyString) as [Hv|Hv];
    [exists []; by rewrite !app_nil_r|].
  destruct (pickVictim_lru _ Hv) as (s & Hs & _). set (v := fst _) in *. rewrite Hs.
  destruct (IH (p <| _resident := delete v (_resident p) |>) (fr ++ [payload s])) as (k & -> & Hk).
  exists (payload s :: k). split; [by rewrite <- app_assoc|].
  rewrite (payloads_delete _ _ _ Hs), <- Permutation_middle. by f_equiv.
Qed.

Lemma accounted_settle w tid id r : accounted w ->
  payloads (_resident (pool w)) ≡ₚ payloads (_resident r.1.2) ++ r.2 -> accounted (settle w tid id r).
Proof.
  unfold accounted. destruct r as [[o p] fr]. cbn. intros <- ->. by rewrite app_assoc.
Qed.

Lemma accounted_top w tid id : accounted w -> accounted (settle w tid id (acquireTop id (pool w))).
Proof.
  intros Ha. apply accounted_settle; [done|]. unfold acquireTop.
  destruct (negb _); [by rewrite app_nil_r|].
  destruct (_resident (pool w) !! id) as [s|] eqn:Hs.
  { rewrite app_nil_r. cbn. by rewrite (payloads_update _ _ _ _ Hs). }
  destruct (_switching (pool w)); [by rewrite app_nil_r|]. cbn zeta.
  set (q := (pool w) <| _switching := true |>). change (_resident (pool w)) with (_resident q).
  by destruct (makeRoom_payloads (size (_resident q)) q []) as (k & -> & ->).
Qed.

Lemma accounted_step w w' : winv w -> accounted w -> step w w' -> accounted w'.
Proof.
  intros Hw Ha Hst. destruct Hst as [tid id _|tid id _|tid id _|tid id Ht|tid id err _|l1 l2 id p _].
  1,2: by apply accounted_top.
  - apply accounted_settle; [done|]. unfold acquireRetry.
    destruct (makeRoom_payloads (size (_resident (pool w))) (pool w) []) as (k & Hk & Hp). by rewrite Hk.
  - destruct (w_build w Hw tid id Ht) as (_ & Hn & _). unfold acquireFinish, accounted.
    cbn [set_field set_switching _resident _clock].
    rewrite emplace_fresh, lookup_insert_eq by done. cbn. rewrite (payloads_insert _ _ _ Hn).
    pose proof (seq_S (made w) 0) as HS. cbn in HS. unfold accounted in Ha.
    rewrite HS, <- Ha. apply Permutation_cons_append.
  - cbn [acquireFinish]. cbv zeta. apply accounted_settle; [exact Ha|]. cbn. by rewrite app_nil_r.
  - unfold accounted, release. cbn [pool freed made]. destruct (_resident (pool w) !! id) as [s|] eqn:Hs; [|exact Ha].
    destruct (0 <? refs s); [|exact Ha]. cbn. by rewrite (payloads_update _ _ _ _ Hs).
Qed.

(** Every operation keeps the invariant and the two constants. *)
Lemma reachable_winv capacity ids w : reachable capacity ids w ->
  winv w /\ _capacity (pool w) = (if capacity =? 0 then 1 else capacity) /\
  _known (pool w) = list_to_set ids.
Proof.
  intros Hr.
  induction Hr as [|w w' Hr (IH1 & IH2 & IH3) Hst]; [split; [apply winv_start|done]|].
  split; [by eapply winv_step|]. rewrite <- IH2, <- IH3. clear -Hst IH1.
  assert (Htop : forall id, _capacity (snd (fst (acquireTop id (pool w)))) = _capacity (pool w) /\
      _known (snd (fst (acquireTop id (pool w)))) = _known (pool w)).
  { intros id. unfold acquireTop. destruct (negb _); [done|].
    destruct (_resident (pool w) !! id); [done|]. destruct (_switching (pool w)); [done|].
    cbn zeta. set (p := (pool w) <| _switching := true |>).
    destruct (makeRoom_spec p (size (_resident p)) p [] (evictedTo_refl p) ltac:(done)
      ltac:(apply IH1)) as (o & p' & fr & -> & (E1 & E2 & _) & _). by cbn. }
  destruct Hst as [tid id Ht|tid id Ht|tid id Ht|tid id Ht|tid id err Ht|l1 l2 id p Hl].
  - specialize (Htop id). by destruct (acquireTop id (pool w)) as [[o p] fr].
  - specialize (Htop id). by destruct (acquireTop id (pool w)) as [[o p] fr].
  - unfold acquireRetry.
    destruct (makeRoom_spec (pool w) (size (_resident (pool w))) (pool w) [] (evictedTo_refl _)
      ltac:(done) ltac:(apply IH1)) as (o & p' & fr & -> & (E1 & E2 & _) & _). by cbn.
  - done.
  - done.
  - cbn. unfold release. destruct (_resident (pool w) !! id) as [s|]; [|done].
    by destruct (0 <? refs s).
Qed.

Lemma reachable_accounted capacity ids w : reachable capacity ids w -> accounted w.
Proof.
  induction 1 as [|w w' Hr IH Hst]; [by unfold accounted|].
  eapply accounted_step; [by apply (reachable_winv capacity ids)|exact IH|exact Hst].
Qed.

(** C7: However threads that acquire, wait, build and release interleave: at
    most [capacity] models are resident and all of them known, a slot's reference
    count is the number of handles that pin it, every live handle points at the
    payload that is resident under its id, which has not been destroyed, at most one
    thread evicts or materialises at a time, and every payload the factory made is
    resident once or was destroyed once, never both. *)
Theorem pool_safe capacity ids w :
  reachable capacity ids w ->
  size (_resident (pool w)) <= Nat.max 1 capacity /\
  (forall id s, _resident (pool w) !! id = Some s ->
    id ∈ ids /\ refs s = pins (live w) id) /\
  (forall id p, (id, p) ∈ live w ->
    ~ p ∈ freed w /\ exists s, _resident (pool w) !! id = Some s /\ payload s = p) /\
  (forall i j x y, threads w !! i = Some x -> threads w !! j = Some y ->
    switcher x -> switcher y -> i = j) /\
  accounted w.
Proof.
  intros Hr. pose proof (reachable_accounted _ _ _ Hr) as Ha.
  pose proof (reachable_winv _ _ _ Hr) as H.
  destruct H as (Hw & Hc & Hk). split.
  { etrans; [apply Hw|]. rewrite Hc. destruct (Nat.eqb_spec capacity 0); lia. }
  split.
  { intros id s Hs. split; [|by apply Hw]. pose proof (w_known w Hw id s Hs) as Hin.
    rewrite Hk in Hin. by apply elem_of_list_to_set in Hin. }
  split.
  { intros id p Hin. destruct (w_live w Hw id p Hin) as (s & Hs & Hp). split; [|by exists s].
    rewrite <- Hp. by eapply w_fresh. }
  split; [|done].
  intros i j x y Hi Hj Hx Hy. symmetry. by eapply (w_token w Hw i x Hi Hx).
Qed.

(** One slot, two models: a thread materialises "a" and keeps it pinned, a second
    one wants "b" and waits for its release. *)
Lemma pool_safe_witness :
  exists w, reachable 1 ["a"; "b"] w /\ threads w !! 1 = Some (Evicting "b") /\
    live w = [("a", 0)] /\
    (forall p, ("a", p) ∈ live w -> ~ p ∈ freed w) /\ accounted w.
Proof.
  assert (H1 : reachable 1 ["a"; "b"] (settle (start 1 ["a"; "b"]) 0 "a"
      (acquireTop "a" (pool (start 1 ["a"; "b"]))))).
  { eapply reach_step; [apply reach_start|]. by apply Call. }
  set (w1 := settle _ 0 "a" _) in H1.
  assert (H2 : reachable 1 ["a"; "b"] (let '(o, p) := acquireFinish "a" (inl (made w1)) (pool w1) in
      settle (mkWorld (pool w1) (threads w1) (live w1) (freed w1) (S (made w1))) 0 "a" (o, p, []))).
  { eapply reach_step; [exact H1|]. apply Built. vm_compute. reflexivity. }
  set (w2 := let '(o, p) := _ in _) in H2.
  assert (H3 : reachable 1 ["a"; "b"] (settle w2 1 "b" (acquireTop "b" (pool w2)))).
  { eapply reach_step; [exact H2|]. apply Call. vm_compute. reflexivity. }
  exists (settle w2 1 "b" (acquireTop "b" (pool w2))). split; [exact H3|].
  split; [vm_compute; reflexivity|]. split; [vm_compute; reflexivity|].
  destruct (pool_safe _ _ _ H3) as (_ & _ & H & _ & Ha). split; [|exact Ha].
  intros p Hp. exact (proj1 (H _ _ Hp)).
Defined.

(** A model registered under the empty id is never chosen as a victim: its slot is
    unpinned, and the thread that waits for room finds none, however often it is
    woken. *)
Example empty_id_blocks_eviction :
  let p := mkPool {[EmptyString; "b"]} {[EmptyString := mkSlot 0 0 1]} 1 true 1 in
  acquireRetry p = (WaitRelease, p, []).
Proof. vm_compute. reflexivity. Qed.
End ModelPool.
