(* ===== verification/ChunkAllocator.v ===== *)
(** * Bump allocation of tensors in chunks

    Models [src/src/munin/ChunkAllocator.{hpp,cpp}] (Level Zero host memory) and
    its POSIX twin [src/src/munin/ShmChunkAllocator.{hpp,cpp}] (memfd mappings).
    The two share their placement code line by line, so it is modelled once
    ([Bump]), over the kind of chunk handle; the driver's answer to a request for a
    new chunk is an input.  Offsets and sizes are 64-bit. *)

From stdpp Require Import pretty.
From S2P Require Import Prelude.

Module Bump.
Section Bump.
(** The class name in messages, and what a chunk is known by besides its base. *)
Variable cls : string.
Variable Mem : Type.

(** [src/src/munin/ChunkAllocator.hpp:172-175 Chunk] *)
Record Chunk := mkChunk {
  mem : Mem;
  base : N;
  used : N;
}.

(** [src/src/munin/ChunkAllocator.hpp:181-184 ChunkAllocator] *)
Record t := mkAlloc {
  _chunkBytes : N;
  _chunks : list Chunk;
  _bytesUsed : N;
}.

(** [src/src/munin/ChunkAllocator.hpp:85-89 Allocation] *)
Record Allocation := mkAllocation {
  chunkIndex : N;
  chunkOffset : N;
  ptr : N;
}.

(** [src/src/munin/ChunkAllocator.hpp:161-164 Layout] *)
Record Layout := mkLayout {
  needsNewChunk : bool;
  offset : N;
}.

(** [src/src/munin/ChunkAllocator.cpp:19-24 alignUp] *)
Definition alignUp (value align : N) : N :=
  if (align <=? 1)%N then value else N.ldiff (u64 (value + align - 1)) (align - 1).

(** [src/src/munin/ChunkAllocator.cpp:28-43 ChunkAllocator] *)
Definition create (chunkBytes : N) : result t :=
  if (chunkBytes <? 4096)%N then
    Throw (RuntimeError (cls +:+ ": chunkBytes must be at least 4096 (got " +:+ pretty chunkBytes +:+ ")"))
  else if negb (chunkBytes mod 4096 =? 0)%N then
    Throw (RuntimeError (cls +:+ ": chunkBytes must be a multiple of 4096 (got "
             +:+ pretty chunkBytes +:+ ")"))
  else Ok (mkAlloc chunkBytes [] 0).

(** [src/src/munin/ChunkAllocator.cpp:83-95 layoutInsideChunk] *)
Definition layoutInsideChunk (currentUsed bytes align chunkBytes : N) : Layout :=
  let effectiveAlign := if (align <? 1)%N then 1%N else align in
  let offset := alignUp currentUsed effectiveAlign in
  if (chunkBytes <? u64 (offset + bytes))%N then mkLayout true 0 else mkLayout false offset.

(** A new chunk, or the error of the system call that failed.
    [src/src/munin/ChunkAllocator.cpp:61-81 openChunk] *)
Definition openChunk (drv : string + (Mem * N)) (a : t) : result t :=
  match drv with
  | inl err => Throw (RuntimeError (cls +:+ ": " +:+ err))
  | inr (m, b) => Ok (mkAlloc (_chunkBytes a) (_chunks a ++ [mkChunk m b 0]) (_bytesUsed a))
  end.

(** The placement in the last chunk.
    [src/src/munin/ChunkAllocator.cpp:133-141 allocate] *)
Definition place (plan : Layout) (bytes : N) (a : t) : Allocation * t :=
  match rev (_chunks a) with
  | [] => (mkAllocation 0 0 0, a)
  | current :: sealed =>
      (mkAllocation (u32 (N.of_nat (length (_chunks a) - 1))) (offset plan)
         (base current + offset plan),
       mkAlloc (_chunkBytes a)
         (rev sealed ++ [mkChunk (mem current) (base current) (u64 (offset plan + bytes))])
         (u64 (_bytesUsed a + bytes)))
  end.

Definition currentUsed (a : t) : N :=
  match last (_chunks a) with Some c => used c | None => 0%N end.

(** [drv1] and [drv2] answer the two places that can open a chunk.
    [src/src/munin/ChunkAllocator.cpp:97-142 allocate] *)
Definition allocate (drv1 drv2 : string + (Mem * N)) (bytes align : N) (a : t)
    : result Allocation * t :=
  if (bytes =? 0)%N then (Throw (RuntimeError (cls +:+ "::allocate: bytes == 0")), a)
  else if (_chunkBytes a <? bytes)%N then
    (Throw (RuntimeError (cls +:+ "::allocate: request " +:+ pretty bytes +:+
       " exceeds chunkBytes " +:+ pretty (_chunkBytes a))), a)
  else
    let effectiveAlign := if (align <? 1)%N then 64%N else align in
    let opened := match _chunks a with [] => openChunk drv1 a | _ => Ok a end in
    match opened with
    | Throw e => (Throw e, a)
    | Ok a =>
        let plan := layoutInsideChunk (currentUsed a) bytes effectiveAlign (_chunkBytes a) in
        if needsNewChunk plan then
          match openChunk drv2 a with
          | Throw e => (Throw e, a)
          | Ok a =>
              let plan := layoutInsideChunk (currentUsed a) bytes effectiveAlign (_chunkBytes a) in
              if needsNewChunk plan then
                (Throw (RuntimeError (cls +:+ ": fresh chunk cannot fit request")), a)
              else let '(al, a) := place plan bytes a in (Ok al, a)
          end
        else let '(al, a) := place plan bytes a in (Ok al, a)
    end.

(** ** Accessors *)

(** [src/src/munin/ChunkAllocator.hpp:120-122 chunkCount] *)
Definition chunkCount (a : t) : N := u32 (N.of_nat (length (_chunks a))).
(** [src/src/munin/ChunkAllocator.hpp:129-131 chunkBase] *)
Definition chunkBase (a : t) (index : N) : N :=
  match _chunks a !! N.to_nat index with Some c => base c | None => 0%N end.
(** [src/src/munin/ChunkAllocator.hpp:136-138 chunkUsedBytes] *)
Definition chunkUsedBytes (a : t) (index : N) : N :=
  match _chunks a !! N.to_nat index with Some c => used c | None => 0%N end.

(** ** Placement arithmetic *)

Lemma ldiff_sub x m : (x - m <= N.ldiff x m <= x)%N.
Proof.
  assert (H : (N.ldiff x m + N.land x m = x)%N).
  { rewrite N.add_nocarry_lxor.
    - apply N.bits_inj. intros i. rewrite N.lxor_spec, N.ldiff_spec, N.land_spec.
      destruct (N.testbit x i), (N.testbit m i); done.
    - apply N.bits_inj. intros i. rewrite !N.land_spec, N.ldiff_spec, N.bits_0.
      destruct (N.testbit x i), (N.testbit m i); done. }
  assert (H2 : (N.land x m <= m)%N).
  { assert (H3 : (N.ldiff m x + N.land m x = m)%N).
    { rewrite N.add_nocarry_lxor.
      - apply N.bits_inj. intros i. rewrite N.lxor_spec, N.ldiff_spec, N.land_spec.
        destruct (N.testbit x i), (N.testbit m i); done.
      - apply N.bits_inj. intros i. rewrite !N.land_spec, N.ldiff_spec, N.bits_0.
        destruct (N.testbit x i), (N.testbit m i); done. }
    rewrite N.land_comm. lia. }
  lia.
Qed.

(** Whatever the alignment, the placement is not below the cursor. *)
Lemma alignUp_ge v a : (v + a < 2 ^ 64)%N -> (v <= alignUp v a /\ alignUp v a < v + N.max 1 a)%N.
Proof.
  intros Hb. unfold alignUp. destruct (N.leb_spec a 1) as [Ha|Ha]; [lia|].
  rewrite u64_small by lia. pose proof (ldiff_sub (v + a - 1) (a - 1)). lia.
Qed.

(** A power of two is honoured. *)
Lemma alignUp_pow2 v k : (v + 2 ^ k < 2 ^ 64)%N -> (alignUp v (2 ^ k) mod 2 ^ k = 0)%N.
Proof.
  intros Hb. unfold alignUp. destruct (N.leb_spec (2 ^ k) 1) as [Ha|Ha].
  - assert (2 ^ k <> 0)%N by (apply N.pow_nonzero; lia).
    replace (2 ^ k)%N with 1%N by lia. apply N.mod_1_r.
  - rewrite u64_small by lia. rewrite (N.sub_1_r (2 ^ k)), <- N.ones_equiv.
    rewrite N.ldiff_ones_r, N.shiftl_mul_pow2. apply N.Div0.mod_mul.
Qed.

(** ** Invariant and allocation *)

Record wf (a : t) : Prop := {
  wf_size : (0 < _chunkBytes a < 2 ^ 62)%N;
  wf_used : Forall (fun c => used c <= _chunkBytes a)%N (_chunks a);
}.

Lemma last_rev_decomp {A} (l : list A) : l <> [] -> exists l' x, l = l' ++ [x].
Proof. intros H. destruct (exists_last H) as (l' & x & ->). by exists l', x. Qed.

(** Where an allocation goes: behind everything in its chunk. *)
Definition placed (a a' : t) (bytes : N) (al : Allocation) (i : nat) : Prop :=
  chunkIndex al = u32 (N.of_nat i) /\ i < length (_chunks a') /\
  (forall j, i < j -> _chunks a' !! j = None) /\
  (forall c, _chunks a !! i = Some c -> (used c <= chunkOffset al)%N /\
     exists c', _chunks a' !! i = Some c' /\ base c' = base c /\ mem c' = mem c) /\
  (exists c, _chunks a' !! i = Some c /\ used c = (chunkOffset al + bytes)%N /\
     ptr al = (base c + chunkOffset al)%N) /\
  (forall j c, j <> i -> _chunks a !! j = Some c -> _chunks a' !! j = Some c) /\
  (chunkOffset al + bytes <= _chunkBytes a)%N.

Lemma place_spec a0 a l c plan bytes al a' :
  _chunks a = l ++ [c] -> wf a -> _chunkBytes a = _chunkBytes a0 ->
  (forall j x, _chunks a0 !! j = Some x -> _chunks a !! j = Some x) ->
  (used c <= offset plan)%N -> (offset plan + bytes <= _chunkBytes a)%N ->
  place plan bytes a = (al, a') ->
  wf a' /\ _chunkBytes a' = _chunkBytes a0 /\ _bytesUsed a' = u64 (_bytesUsed a + bytes) /\
  chunkOffset al = offset plan /\ length (_chunks a') = length (_chunks a) /\
  placed a0 a' bytes al (length l).
Proof.
  intros Hc [Hs Hu] Hcb Hsub Hge Hfit Hp. unfold place in Hp. rewrite Hc, rev_app_distr in Hp.
  cbn [rev app] in Hp. rewrite rev_involutive in Hp. injection Hp as <- <-.
  rewrite length_app. cbn [length]. replace (length l + 1 - 1) with (length l) by lia.
  rewrite u64_small by lia. split; [|split; [done|split; [done|split; [done|split; [|]]]]].
  - split; [done|]. cbn [_chunks _chunkBytes]. rewrite Hc in Hu. apply Forall_app in Hu as [Hu _].
    apply Forall_app. split; [done|]. by constructor.
  - cbn [_chunks]. rewrite Hc, !length_app. done.
  - unfold placed. cbn [_chunks chunkIndex chunkOffset ptr _chunkBytes].
    split; [done|]. split; [rewrite length_app; simpl; lia|]. split; [|split; [|split; [|split]]].
    + intros j Hj. apply lookup_ge_None. rewrite length_app. simpl. lia.
    + intros x Hx. apply Hsub in Hx. rewrite Hc, lookup_app_r, Nat.sub_diag in Hx by lia.
      injection Hx as <-. split; [done|]. eexists. by rewrite lookup_app_r, Nat.sub_diag by lia.
    + eexists. rewrite lookup_app_r, Nat.sub_diag by lia. done.
    + intros j x Hne Hx. apply Hsub in Hx. rewrite Hc in Hx.
      destruct (decide (j < length l)) as [Hlt|Hge'].
      * rewrite lookup_app_l in Hx by done. by rewrite lookup_app_l.
      * apply lookup_lt_Some in Hx. rewrite length_app in Hx. simpl in Hx. lia.
    + lia.
Qed.

Lemma layout_spec cu bytes al cb :
  (cu + al < 2 ^ 63)%N -> (bytes <= cb < 2 ^ 62)%N -> (0 < al)%N ->
  let plan := layoutInsideChunk cu bytes al cb in
  (needsNewChunk plan = false -> (cu <= offset plan)%N /\ (offset plan + bytes <= cb)%N /\
     offset plan = alignUp cu al) /\
  (cu = 0%N -> needsNewChunk plan = false).
Proof.
  intros Hcu Hb Hal. unfold layoutInsideChunk. rewrite (proj2 (N.ltb_ge al 1)) by lia.
  pose proof (alignUp_ge cu al ltac:(lia)) as [Hge Hlt].
  rewrite u64_small by lia. split.
  - destruct (N.ltb_spec cb (alignUp cu al + bytes)); [done|]. cbn. lia.
  - intros ->. assert (Hz : alignUp 0 al = 0%N).
    { unfold alignUp. destruct (N.leb_spec al 1); [done|]. rewrite u64_small by lia.
      replace (0 + al - 1)%N with (al - 1)%N by lia. apply N.ldiff_diag. }
    rewrite Hz, (proj2 (N.ltb_ge _ _)) by lia. done.
Qed.

Lemma allocate_correct drv1 drv2 bytes align a :
  wf a -> (align < 2 ^ 62)%N ->
  let '(r, a') := allocate drv1 drv2 bytes align a in
  wf a' /\ _chunkBytes a' = _chunkBytes a /\
  match r with
  | Throw _ =>
      ((bytes = 0 \/ _chunkBytes a < bytes)%N \/ (exists e, drv1 = inl e) \/ (exists e, drv2 = inl e)) /\
      _bytesUsed a' = _bytesUsed a /\
      (forall j c, _chunks a !! j = Some c -> _chunks a' !! j = Some c)
  | Ok al =>
      (0 < bytes <= _chunkBytes a)%N /\ _bytesUsed a' = u64 (_bytesUsed a + bytes) /\
      (exists i, placed a a' bytes al i) /\
      (forall k, align = (2 ^ k)%N -> (chunkOffset al mod 2 ^ k = 0)%N)
  end.
Proof.
  intros Hw Hal. unfold allocate.
  destruct (N.eqb_spec bytes 0) as [->|Hb0]; [split; [done|]; split; [done|]; split; [by left; left|done]|].
  destruct (N.ltb_spec (_chunkBytes a) bytes) as [Hbig|Hfit];
    [split; [done|]; split; [done|]; split; [by left; right|done]|].
  set (ea := if (align <? 1)%N then 64%N else align).
  assert (Hea : (0 < ea < 2 ^ 62)%N /\ forall k, align = (2 ^ k)%N -> ea = align).
  { unfold ea. destruct (N.ltb_spec align 1); [|split; [lia|done]]. split; [lia|].
    intros k ->. pose proof (N.pow_nonzero 2 k). lia. }
  destruct Hea as [Hea Hpow].
  assert (Hopen : (exists e, drv1 = inl e /\
      (match _chunks a with [] => openChunk drv1 a | _ => Ok a end) = Throw (RuntimeError (cls +:+ ": " +:+ e))) \/
    exists a1 l c, (match _chunks a with [] => openChunk drv1 a | _ => Ok a end) = Ok a1 /\ wf a1 /\
      _chunkBytes a1 = _chunkBytes a /\ _bytesUsed a1 = _bytesUsed a /\ _chunks a1 = l ++ [c] /\
      (forall j x, _chunks a !! j = Some x -> _chunks a1 !! j = Some x)).
  { destruct (_chunks a) as [|c0 l0] eqn:Hc.
    - unfold openChunk. destruct drv1 as [e|[m b]]; [left; by exists e|]. right.
      eexists _, [], _. rewrite Hc. split; [done|]. split; [|done].
      split; [apply Hw|]. cbn. constructor; [cbn; lia|constructor].
    - right. destruct (last_rev_decomp (_chunks a)) as (l & c & Hlc); [by rewrite Hc|].
      exists a, l, c. split; [done|]. split; [done|]. split; [done|]. split; [done|].
      split; [done|]. by rewrite Hc. }
  destruct Hopen as [(e & -> & ->)|(a1 & l & c & -> & Hw1 & Hcb1 & Hbu1 & Hc1 & Hsub1)].
  { split; [done|]. split; [done|]. split; [right; left; by exists e|done]. }
  assert (Hcu : currentUsed a1 = used c) by (unfold currentUsed; by rewrite Hc1, last_snoc).
  assert (Huc : (used c <= _chunkBytes a)%N).
  { destruct Hw1 as [_ Hu]. rewrite Hc1, Hcb1 in Hu. apply Forall_app in Hu as [_ Hu].
    by apply Forall_cons_1 in Hu as [Hu _]. }
  pose proof (wf_size a Hw) as Hsz.
  rewrite Hcu, Hcb1. destruct (layout_spec (used c) bytes ea (_chunkBytes a)) as [L1 _]; [lia..|].
  set (plan := layoutInsideChunk (used c) bytes ea (_chunkBytes a)) in *.
  destruct (needsNewChunk plan) eqn:Hn; cycle 1.
  { destruct (L1 eq_refl) as (G1 & G2 & G3). destruct (place plan bytes a1) as [al a'] eqn:Hp.
    destruct (place_spec a a1 l c plan bytes al a') as (P1 & P2 & P3 & P4 & _ & P5);
      rewrite ?Hcb1; try done.
    split; [done|]. split; [done|]. split; [lia|]. split; [congruence|]. split; [by exists (length l)|].
    intros k Hk. rewrite P4, G3, (Hpow k Hk), Hk. apply alignUp_pow2. rewrite <- Hk. lia. }
  unfold openChunk. destruct drv2 as [e|[m b]].
  { split; [done|]. split; [done|]. split; [right; right; by exists e|done]. }
  set (a2 := mkAlloc (_chunkBytes a1) (_chunks a1 ++ [mkChunk m b 0]) (_bytesUsed a1)).
  assert (Hcu2 : currentUsed a2 = 0%N) by (unfold currentUsed, a2; cbn [_chunks]; by rewrite last_snoc).
  rewrite Hcu2. change (_chunkBytes a2) with (_chunkBytes a1). rewrite Hcb1.
  destruct (layout_spec 0 bytes ea (_chunkBytes a)) as [M1 M2]; [lia..|].
  set (plan2 := layoutInsideChunk 0 bytes ea (_chunkBytes a)) in *.
  rewrite (M2 eq_refl). destruct (M1 (M2 eq_refl)) as (G1 & G2 & G3).
  destruct (place plan2 bytes a2) as [al a'] eqn:Hp.
  destruct (place_spec a a2 (_chunks a1) (mkChunk m b 0) plan2 bytes al a') as (P1 & P2 & P3 & P4 & _ & P5);
    cbn [_chunks _chunkBytes a2]; rewrite ?Hcb1; try done.
  - split; [by rewrite <- Hcb1 in Hsz|]. cbn [_chunks]. apply Forall_app. split; [apply Hw1|].
    constructor; [cbn; lia|constructor].
  - intros j x Hx. apply lookup_app_l_Some. by apply Hsub1.
  - split; [done|]. split; [done|]. split; [lia|]. split; [rewrite P3; cbn; by rewrite Hbu1|].
    split; [by exists (length (_chunks a1))|].
    intros k Hk. rewrite P4, G3, (Hpow k Hk), Hk. apply alignUp_pow2. rewrite <- Hk. lia.
Qed.

(** ** When a chunk is opened, and where a request goes *)

Lemma alignUp_0 al : (al < 2 ^ 63)%N -> alignUp 0 al = 0%N.
Proof.
  intros H. unfold alignUp. destruct (N.leb_spec al 1); [done|]. rewrite u64_small by lia.
  replace (0 + al - 1)%N with (al - 1)%N by lia. apply N.ldiff_diag.
Qed.

Lemma layout_exact cu bytes al cb :
  (cu + al < 2 ^ 63)%N -> (bytes <= cb < 2 ^ 62)%N -> (0 < al)%N ->
  layoutInsideChunk cu bytes al cb =
    if (alignUp cu al + bytes <=? cb)%N then mkLayout false (alignUp cu al) else mkLayout true 0.
Proof.
  intros Hcu Hb Hal. unfold layoutInsideChunk. rewrite (proj2 (N.ltb_ge al 1)) by lia.
  pose proof (alignUp_ge cu al ltac:(lia)) as [Hge Hlt]. rewrite u64_small by lia.
  destruct (N.leb_spec (alignUp cu al + bytes) cb); [by rewrite (proj2 (N.ltb_ge _ _)) by lia|].
  by rewrite (proj2 (N.ltb_lt _ _)) by lia.
Qed.

Lemma currentUsed_le a : wf a -> (currentUsed a <= _chunkBytes a)%N.
Proof.
  intros [_ Hu]. unfold currentUsed. destruct (last (_chunks a)) as [c|] eqn:Hl; [|lia].
  apply last_Some in Hl as [l Hl]. rewrite Hl in Hu. apply Forall_app in Hu as [_ Hu].
  by apply Forall_cons_1 in Hu as [Hu _].
Qed.

(** The alignment the code works with. *)
Definition effective (align : N) : N := if (align <? 1)%N then 64%N else align.

(** The request fits behind the cursor of the last chunk. *)
Definition fitsLast (bytes align : N) (a : t) : bool :=
  negb (length (_chunks a) =? 0) && (alignUp (currentUsed a) (effective align) + bytes <=? _chunkBytes a)%N.

(** A placement in the last chunk, at [off]. *)
Definition placedAt (a a' : t) (bytes : N) (al : Allocation) (i : nat) (off : N) : Prop :=
  wf a' /\ _chunkBytes a' = _chunkBytes a /\ _bytesUsed a' = u64 (_bytesUsed a + bytes) /\
  chunkOffset al = off /\ length (_chunks a') = S i /\ placed a a' bytes al i.

Lemma place_last a bytes align : wf a -> (align < 2 ^ 62)%N -> (0 < bytes <= _chunkBytes a)%N ->
  fitsLast bytes align a = true ->
  let off := alignUp (currentUsed a) (effective align) in
  let '(al, a') := place (mkLayout false off) bytes a in
  placedAt a a' bytes al (length (_chunks a) - 1) off.
Proof.
  intros Hw Hal Hb Hf off. unfold fitsLast in Hf. apply andb_prop in Hf as [Hn Hf].
  apply negb_true_iff, Nat.eqb_neq in Hn. apply N.leb_le in Hf. fold off in Hf.
  destruct (last_rev_decomp (_chunks a)) as (l & c & Hc); [intros E; by rewrite E in Hn|].
  assert (Hcu : currentUsed a = used c) by (unfold currentUsed; by rewrite Hc, last_snoc).
  pose proof (wf_size a Hw) as Hsz. assert (Huc : (used c <= _chunkBytes a)%N).
  { pose proof (wf_used a Hw) as Hu. rewrite Hc in Hu. apply Forall_app in Hu as [_ Hu].
    by apply Forall_cons_1 in Hu as [Hu _]. }
  assert (Hea : (0 < effective align < 2 ^ 62)%N) by (unfold effective; destruct (N.ltb_spec align 1); lia).
  destruct (place (mkLayout false off) bytes a) as [al a'] eqn:Hp.
  destruct (place_spec a a l c (mkLayout false off) bytes al a') as (P1 & P2 & P3 & P4 & P5 & P6);
    [exact Hc|exact Hw|done|done| |exact Hf|exact Hp|].
  { cbn. unfold off. rewrite <- Hcu. apply alignUp_ge. rewrite Hcu. lia. }
  replace (length (_chunks a) - 1) with (length l) by (rewrite Hc, length_app; simpl; lia).
  split; [done|]. split; [done|]. split; [done|]. split; [done|]. split; [|done].
  rewrite P5, Hc, length_app. simpl. lia.
Qed.

(** The same behind a chunk just opened. *)
Lemma place_fresh a m b bytes align : wf a -> (align < 2 ^ 62)%N -> (0 < bytes <= _chunkBytes a)%N ->
  let a1 := mkAlloc (_chunkBytes a) (_chunks a ++ [mkChunk m b 0]) (_bytesUsed a) in
  layoutInsideChunk (currentUsed a1) bytes (effective align) (_chunkBytes a1) = mkLayout false 0 /\
  let '(al, a') := place (mkLayout false 0) bytes a1 in
  placedAt a a' bytes al (length (_chunks a)) 0 /\
  exists c, _chunks a' !! length (_chunks a) = Some c /\ mem c = m /\ base c = b.
Proof.
  intros Hw Hal Hb a1. pose proof (wf_size a Hw) as Hsz.
  assert (Hea : (0 < effective align < 2 ^ 62)%N) by (unfold effective; destruct (N.ltb_spec align 1); lia).
  assert (Hcu : currentUsed a1 = 0%N) by (unfold currentUsed, a1; cbn; by rewrite last_snoc).
  assert (Hw1 : wf a1).
  { split; [done|]. cbn. apply Forall_app. split; [apply Hw|]. constructor; [cbn; lia|constructor]. }
  split.
  { rewrite Hcu, layout_exact, alignUp_0 by (cbn; lia). by rewrite (proj2 (N.leb_le _ _)) by (cbn; lia). }
  destruct (place (mkLayout false 0) bytes a1) as [al a'] eqn:Hp.
  destruct (place_spec a a1 (_chunks a) (mkChunk m b 0) (mkLayout false 0) bytes al a')
    as (P1 & P2 & P3 & P4 & P5 & P6); try done; [|cbn; lia|].
  { intros j x Hx. by apply lookup_app_l_Some. }
  assert (Hl : length (_chunks a') = S (length (_chunks a))) by (rewrite P5; cbn; rewrite length_app; cbn; lia).
  split; [by repeat (split; [done|])|].
  unfold place in Hp. cbn in Hp. rewrite rev_app_distr in Hp. cbn in Hp. injection Hp as <- <-. cbn.
  rewrite rev_involutive. eexists. by rewrite lookup_app_r, Nat.sub_diag by lia.
Qed.

(** C18: An allocation, on every branch.  A size of zero or above the chunk size
    throws and changes nothing, whatever the driver would answer.  A request that
    fits behind the cursor of the last chunk goes there, at the cursor rounded up, and
    no chunk is opened.  Any other request asks the driver for one chunk: when it
    refuses, its error is thrown and nothing changes; otherwise the request lies at
    the start of that chunk.  A placement lies behind everything placed in its chunk
    before, inside the chunk, moves no other chunk's cursor and is counted; a power of
    two is rounded up to by less than itself. *)
Theorem allocate_spec drv1 drv2 bytes align a :
  wf a -> (align < 2 ^ 62)%N ->
  let off := alignUp (currentUsed a) (effective align) in
  (forall k, align = (2 ^ k)%N -> (off mod 2 ^ k = 0 /\ currentUsed a <= off < currentUsed a + 2 ^ k)%N) /\
  let '(r, a') := allocate drv1 drv2 bytes align a in
  if (bytes =? 0)%N || (_chunkBytes a <? bytes)%N then (exists what, r = Throw (RuntimeError what)) /\ a' = a
  else if fitsLast bytes align a then
    exists al, r = Ok al /\ placedAt a a' bytes al (length (_chunks a) - 1) off
  else
    match (match _chunks a with [] => drv1 | _ => drv2 end) with
    | inl e => r = Throw (RuntimeError (cls +:+ ": " +:+ e)) /\ a' = a
    | inr (m, b) =>
        exists al, r = Ok al /\ placedAt a a' bytes al (length (_chunks a)) 0 /\
        exists c, _chunks a' !! length (_chunks a) = Some c /\ mem c = m /\ base c = b
    end.
Proof.
  intros Hw Hal off. pose proof (wf_size a Hw) as Hsz. pose proof (currentUsed_le a Hw) as Hcu.
  assert (Hea : (0 < effective align < 2 ^ 62)%N) by (unfold effective; destruct (N.ltb_spec align 1); lia).
  split.
  { intros k ->. pose proof (N.pow_nonzero 2 k ltac:(done)) as Hk.
    assert (He : effective (2 ^ k) = (2 ^ k)%N) by (unfold effective; by rewrite (proj2 (N.ltb_ge _ _)) by lia).
    unfold off. rewrite He. pose proof (alignUp_ge (currentUsed a) (2 ^ k) ltac:(lia)).
    split; [apply alignUp_pow2|]; lia. }
  unfold allocate. destruct (N.eqb_spec bytes 0) as [->|Hb0]; [by split; [eexists|]|].
  destruct (N.ltb_spec (_chunkBytes a) bytes) as [Hbig|Hfit]; [by split; [eexists|]|]. cbn [orb]. fold (effective align).
  assert (Hb : (0 < bytes <= _chunkBytes a)%N) by lia.
  destruct (_chunks a) as [|c0 l0] eqn:Hc.
  { unfold fitsLast. rewrite Hc. cbn [length Nat.eqb negb andb openChunk].
    destruct drv1 as [e|[m b]]; [done|]. cbn [openChunk].
    pose proof (place_fresh a m b bytes align Hw Hal Hb) as H. cbv zeta in H. rewrite ?Hc in *. destruct H as [Hl Hp]. rewrite Hl.
    cbn [needsNewChunk]. destruct (place _ bytes _) as [al a']. by exists al. }
  rewrite layout_exact by (try done; lia).
  assert (Hf : fitsLast bytes align a = (off + bytes <=? _chunkBytes a)%N) by (unfold fitsLast; by rewrite Hc).
  rewrite Hf. fold off. destruct (off + bytes <=? _chunkBytes a)%N; cbn [needsNewChunk].
  { pose proof (place_last a bytes align Hw Hal Hb Hf) as Hp. cbv zeta in Hp. fold off in Hp.
    rewrite Hc in Hp. destruct (place _ bytes a) as [al a']. by exists al. }
  destruct drv2 as [e|[m b]]; [done|]. cbn [openChunk].
  pose proof (place_fresh a m b bytes align Hw Hal Hb) as H. cbv zeta in H. rewrite ?Hc in *. destruct H as [Hl Hp]. rewrite Hl.
  cbn [needsNewChunk]. destruct (place _ bytes _) as [al a']. by exists al.
Qed.

(** ** Histories *)

(** A request and what the driver answers where it opens a chunk. *)
Record Request := mkRequest {
  drv1 : string + (Mem * N);
  drv2 : string + (Mem * N);
  bytes : N;
  align : N;
}.

(** The placements of a sequence of requests, latest first. *)
Fixpoint run (rs : list Request) (a : t) (placements : list (Allocation * N))
    : list (Allocation * N) * t :=
  match rs with
  | [] => (placements, a)
  | r :: rs' =>
      let '(res, a) := allocate (drv1 r) (drv2 r) (bytes r) (align r) a in
      run rs' a (match res with Ok al => (al, bytes r) :: placements | Throw _ => placements end)
  end.

(** Two placements do not overlap. *)
Definition apart (x y : Allocation * N) : Prop :=
  chunkIndex (fst x) = chunkIndex (fst y) ->
  (chunkOffset (fst x) + snd x <= chunkOffset (fst y) \/
   chunkOffset (fst y) + snd y <= chunkOffset (fst x))%N.

(** Every placement lies in a chunk the allocator has, below its cursor, and its
    pointer is the chunk's base plus its offset. *)
Definition within (a : t) (x : Allocation * N) : Prop :=
  exists i c, chunkIndex (fst x) = u32 (N.of_nat i) /\ _chunks a !! i = Some c /\
    (chunkOffset (fst x) + snd x <= used c)%N /\ ptr (fst x) = (base c + chunkOffset (fst x))%N.

Lemma length_chunks_grow a a' : (forall j c, _chunks a !! j = Some c -> exists c', _chunks a' !! j = Some c') ->
  length (_chunks a) <= length (_chunks a').
Proof.
  intros H. destruct (_chunks a) as [|c0 l] eqn:Hc; [simpl; lia|]. rewrite <- Hc in *.
  destruct (lookup_lt_is_Some_2 (_chunks a) (length (_chunks a) - 1)) as [x Hx]; [rewrite Hc; simpl; lia|].
  destruct (H _ _ Hx) as [y Hy]. apply lookup_lt_Some in Hy. lia.
Qed.

Lemma placed_chunk a a' b al i j c :
  placed a a' b al i -> _chunks a !! j = Some c ->
  exists c', _chunks a' !! j = Some c' /\ (used c <= used c')%N /\ base c' = base c /\ mem c' = mem c.
Proof.
  intros (_ & _ & _ & H4 & (c' & H5 & H6 & _) & H7 & _) Hj.
  destruct (decide (j = i)) as [->|Hne].
  - exists c'. split; [done|]. destruct (H4 c Hj) as (H8 & c'' & H9 & H10).
    assert (c'' = c') as -> by congruence. split; [lia|done].
  - exists c. split; [by apply H7|done].
Qed.

Lemma allocate_chunk d1 d2 b al0 a r a' j c :
  wf a -> (al0 < 2 ^ 62)%N -> allocate d1 d2 b al0 a = (r, a') -> _chunks a !! j = Some c ->
  exists c', _chunks a' !! j = Some c' /\ (used c <= used c')%N /\ base c' = base c /\ mem c' = mem c.
Proof.
  intros Hw Hal Ha Hj. pose proof (allocate_correct d1 d2 b al0 a Hw Hal) as H. rewrite Ha in H.
  destruct H as (_ & _ & H). destruct r as [al|e].
  - destruct H as (_ & _ & (i & Hp) & _). by eapply placed_chunk.
  - destruct H as (_ & _ & H). exists c. by split; [apply H|].
Qed.

Lemma run_apart rs : forall a ps ps' a',
  wf a -> Forall (fun r => align r < 2 ^ 62)%N rs -> Forall (within a) ps ->
  ForallOrdPairs apart ps -> run rs a ps = (ps', a') -> (N.of_nat (length (_chunks a')) < 2 ^ 32)%N ->
  wf a' /\ Forall (within a') ps' /\ ForallOrdPairs apart ps' /\
  length (_chunks a) <= length (_chunks a').
Proof.
  induction rs as [|r rs IH]; intros a ps ps' a' Hw Hal Hin Hap Hrun Hlen; cbn [run] in Hrun.
  { injection Hrun as <- <-. done. }
  apply Forall_cons in Hal as [Har Hal].
  destruct (allocate (drv1 r) (drv2 r) (bytes r) (align r) a) as [res a1] eqn:Ha.
  pose proof (allocate_correct (drv1 r) (drv2 r) (bytes r) (align r) a Hw Har) as H. rewrite Ha in H.
  destruct H as (Hw1 & _ & H).
  assert (Hgrow : forall j c, _chunks a !! j = Some c ->
      exists c', _chunks a1 !! j = Some c' /\ (used c <= used c')%N /\ base c' = base c /\ mem c' = mem c).
  { intros j c. by eapply allocate_chunk. }
  assert (Hin1 : Forall (within a1) ps).
  { eapply Forall_impl; [exact Hin|]. intros x (i & c & X1 & X2 & X3 & X4).
    destruct (Hgrow i c X2) as (c' & Y1 & Y2 & Y3 & _). exists i, c'. rewrite Y3.
    split; [done|]. split; [done|]. split; [lia|done]. }
  assert (Hl1 : length (_chunks a) <= length (_chunks a1)).
  { apply length_chunks_grow. intros j c Hj. destruct (Hgrow j c Hj) as (c' & ? & _). by exists c'. }
  destruct res as [al|e].
  2: { destruct (IH _ _ _ _ Hw1 Hal Hin1 Hap Hrun Hlen) as (I1 & I2 & I3 & I4). split_and!; [done..|lia]. }
  destruct H as (Hb & _ & (i & Hpl) & _).
  pose proof Hpl as (Q1 & Q2 & Q3 & Q4 & (c & Q5 & Q6 & Q7) & _ & _).
  assert (Hlen1 : length (_chunks a1) <= length (_chunks a')).
  { clear -Hrun Hw1 Hal. revert a1 Hw1 Hrun. generalize ((al, bytes r) :: ps). 
    induction rs as [|r0 rs IH]; intros l a1 Hw1 Hrun; cbn [run] in Hrun; [by injection Hrun as <- <-|].
    apply Forall_cons in Hal as [Har Hal].
    destruct (allocate (drv1 r0) (drv2 r0) (bytes r0) (align r0) a1) as [res a2] eqn:Ha.
    etrans; [|eapply IH; [done| |exact Hrun]].
    - apply length_chunks_grow. intros j x Hj.
      destruct (allocate_chunk _ _ _ _ _ _ _ j x Hw1 Har Ha Hj) as (y & ? & _). by exists y.
    - pose proof (allocate_correct (drv1 r0) (drv2 r0) (bytes r0) (align r0) a1 Hw1 Har) as H. rewrite Ha in H. apply H. }
  assert (Hin1' : Forall (within a1) ((al, bytes r) :: ps)).
  { constructor; [|done]. exists i, c. cbn. split; [done|]. split; [done|]. split; [lia|done]. }
  assert (Hap1 : ForallOrdPairs apart ((al, bytes r) :: ps)).
  { constructor; [|done]. apply Forall_lookup_2. intros j x Hx.
    rewrite Forall_lookup in Hin. destruct (Hin j x Hx) as (k & y & X1 & X2 & X3 & _).
    intros Heq. cbn in Heq. right. rewrite Q1, X1 in Heq.
    apply lookup_lt_Some in X2 as Hk.
    rewrite !u32_small in Heq by lia. assert (k = i) as -> by lia.
    destruct (Q4 y X2) as [Q4' _]. cbn. lia. }
  destruct (IH _ _ _ _ Hw1 Hal Hin1' Hap1 Hrun Hlen) as (I1 & I2 & I3 & I4).
  split_and!; [done..|lia].
Qed.

(** Whatever the sizes, alignments and driver answers of a sequence of
    requests, no two tensors placed by the same allocator overlap, each lies below
    the cursor of a chunk the allocator owns, and no cursor passes the chunk size
    (as long as the chunk number fits 32 bits). *)
Theorem placements_disjoint chunkBytes rs a ps a' :
  create chunkBytes = Ok a -> (chunkBytes < 2 ^ 62)%N ->
  Forall (fun r => align r < 2 ^ 62)%N rs -> run rs a [] = (ps, a') ->
  (N.of_nat (length (_chunks a')) < 2 ^ 32)%N ->
  ForallOrdPairs apart ps /\ Forall (within a') ps /\
  Forall (fun c => used c <= _chunkBytes a')%N (_chunks a').
Proof.
  intros Hc Hcb Hal Hrun Hlen.
  assert (Hw : wf a).
  { unfold create in Hc. destruct (N.ltb_spec chunkBytes 4096); [done|].
    destruct (negb _); [done|]. injection Hc as <-. split; [cbn; lia|constructor]. }
  destruct (run_apart rs a [] ps a' Hw Hal) as (H1 & H2 & H3 & _); [constructor..|done|done|].
  split; [done|]. split; [done|apply H1].
Qed.
End Bump.
End Bump.

(** ** The Level Zero allocator *)

Module ChunkAllocator.

(** [src/src/munin/ChunkAllocator.cpp:28-43 ChunkAllocator] *)
Definition create : N -> result (Bump.t unit) := Bump.create "ChunkAllocator" unit.
(** [src/src/munin/ChunkAllocator.cpp:97-142 allocate] *)
Definition allocate : string + (unit * N) -> string + (unit * N) -> N -> N -> Bump.t unit ->
    result Bump.Allocation * Bump.t unit := Bump.allocate "ChunkAllocator" unit.
End ChunkAllocator.

(** ** The memfd allocator *)

Module ShmChunkAllocator.

(** [src/src/munin/ShmChunkAllocator.cpp:36-50 ShmChunkAllocator] *)
Definition create : N -> result (Bump.t Z) := Bump.create "ShmChunkAllocator" Z.

(** The three system calls of a new chunk: its memfd and base, or the error; and
    the descriptors closed on the way.
    [src/src/munin/ShmChunkAllocator.cpp:63-95 openChunk] *)
Definition openChunk (chunkBytes : N) (fd : string + Z) (truncated : option string) (mapped : string + N)
    : (string + (Z * N)) * list Z :=
  match fd with
  | inl e => (inl ("memfd_create failed: " +:+ e), [])
  | inr fd =>
      match truncated with
      | Some e => (inl ("ftruncate(chunkBytes=" +:+ pretty chunkBytes +:+ ") failed: " +:+ e), [fd])
      | None =>
          match mapped with
          | inl e => (inl ("mmap(chunkBytes=" +:+ pretty chunkBytes +:+ ") failed: " +:+ e), [fd])
          | inr b => (inr (fd, b), [])
          end
      end
  end.

(** [src/src/munin/ShmChunkAllocator.cpp:27-32 alignUp] *)
Definition alignUp : N -> N -> N := Bump.alignUp.
(** [src/src/munin/ShmChunkAllocator.cpp:97-109 layoutInsideChunk] *)
Definition layoutInsideChunk : N -> N -> N -> N -> Bump.Layout := Bump.layoutInsideChunk.
(** [src/src/munin/ShmChunkAllocator.cpp:111-155 allocate] *)
Definition allocate : string + (Z * N) -> string + (Z * N) -> N -> N -> Bump.t Z ->
    result Bump.Allocation * Bump.t Z := Bump.allocate "ShmChunkAllocator" Z.
(** [src/src/munin/ShmChunkAllocator.hpp:101-103 chunkMemfd] *)
Definition chunkMemfd (a : Bump.t Z) (index : N) : Z :=
  match Bump._chunks Z a !! N.to_nat index with Some c => Bump.mem Z c | None => (-1)%Z end.
(** [src/src/munin/ShmChunkAllocator.cpp:157-164 chunkMemfds] *)
Definition chunkMemfds (a : Bump.t Z) : list Z := map (Bump.mem Z) (Bump._chunks Z a).
(** [src/src/munin/ShmChunkAllocator.cpp:166-173 chunkMapBytes] *)
Definition chunkMapBytes (a : Bump.t Z) : list N :=
  map (fun _ => Bump._chunkBytes Z a) (Bump._chunks Z a).
(** The destructor: what it unmaps, with the length, and what it closes.
    [src/src/munin/ShmChunkAllocator.cpp:52-61 ShmChunkAllocator] *)
Definition destroy (a : Bump.t Z) : list (N * N) * list Z :=
  (omap (fun c => if (Bump.base Z c =? 0)%N then None
                  else Some (Bump.base Z c, Bump._chunkBytes Z a)) (Bump._chunks Z a),
   List.filter (fun fd => 0 <=? fd)%Z (chunkMemfds a)).
End ShmChunkAllocator.

Module ChunkWitnesses.

Definition chunk (fd : Z) (b : N) : string + (Z * N) := inr (fd, b).

(** Three tensors in chunks of 4 KiB: the third does not fit behind the others. *)
Definition demo_requests : list (Bump.Request Z) :=
  [Bump.mkRequest Z (chunk 3%Z 65536) (chunk 9%Z 0) 100 64;
   Bump.mkRequest Z (inl "no") (inl "no") 3000 64;
   Bump.mkRequest Z (inl "no") (chunk 4%Z 131072) 2000 0].

Lemma placements_disjoint_witness :
  exists a ps a', ShmChunkAllocator.create 4096 = Ok a /\
    Bump.run "ShmChunkAllocator" Z demo_requests a [] = (ps, a') /\
    map (fun x => (Bump.chunkIndex (fst x), Bump.chunkOffset (fst x), Bump.ptr (fst x))) ps =
      [(1, 0, 131072); (0, 128, 65664); (0, 0, 65536)]%N /\
    ForallOrdPairs Bump.apart ps.
Proof.
  set (a := Bump.mkAlloc Z 4096 [] 0).
  destruct (Bump.run "ShmChunkAllocator" Z demo_requests a []) as [ps a'] eqn:Hrun.
  exists a, ps, a'. split; [vm_compute; reflexivity|]. split; [done|].
  pose proof Hrun as Hv. vm_compute in Hv. injection Hv as Hps Ha'.
  split; [rewrite <- Hps; reflexivity|].
  apply (Bump.placements_disjoint "ShmChunkAllocator" Z 4096 demo_requests a ps a').
  - vm_compute. reflexivity.
  - lia.
  - repeat constructor; cbn; lia.
  - exact Hrun.
  - rewrite <- Ha'. cbn. lia.
Defined.

Lemma allocate_spec_witness :
  let a := Bump.mkAlloc Z 4096 [Bump.mkChunk Z 3%Z 65536 100] 100 in
  let '(r, a') := ShmChunkAllocator.allocate (inl "no") (inl "no") 3000 256 a in
  exists al, r = Ok al /\ al = Bump.mkAllocation 0 256 65792 /\ Bump.placedAt Z a a' 3000 al 0 256.
Proof.
  cbn zeta. destruct (Bump.allocate_spec "ShmChunkAllocator" Z (inl "no") (inl "no") 3000 256
    (Bump.mkAlloc Z 4096 [Bump.mkChunk Z 3%Z 65536 100] 100)) as [_ H].
  - split; [cbn; lia|]. repeat constructor; cbn; lia.
  - lia.
  - unfold ShmChunkAllocator.allocate. destruct (Bump.allocate _ _ _ _ _ _ _) as [r a'] eqn:Hr.
    destruct H as (al & -> & H). exists al. split; [done|]. split; [|exact H].
    vm_compute in Hr. by injection Hr as <- _.
Defined.
End ChunkWitnesses.
