(* ===== verification/Gguf.v ===== *)
(** * GGUF: the model file reader

    Models [src/src/core/gguf/GgufTypes.{hpp,cpp}], the parser of
    [src/src/core/gguf/GgufReader.{hpp,cpp}] and the mapping of
    [src/src/core/os/MappedFile.cpp].  The file is a list of bytes; a function that
    reads memory outside it, or divides by zero, is [Undefined].  Integers carry
    their 64-bit wrap; floats are their bit patterns.  Allocations whose size comes
    from the file can fail ([Heap]), the others are taken to succeed. *)

From Stdlib Require Import Ascii.
From Stdlib Require String.
From stdpp Require Import pretty.
From S2P Require Import Prelude.

(** ** Types of the format *)

(** [src/src/core/gguf/GgufTypes.hpp:13-27 GgufValueType] *)
Inductive GgufValueType :=
  | UInt8 | Int8 | UInt16 | Int16 | UInt32 | Int32 | Float32 | Bool | String | Array
  | UInt64 | Int64 | Float64
  | OtherValue (tag : N).

(** [static_cast] between the enum and its tag. *)
Definition valueType_of_tag (tag : N) : GgufValueType :=
  match tag with
  | 0 => UInt8 | 1 => Int8 | 2 => UInt16 | 3 => Int16 | 4 => UInt32 | 5 => Int32
  | 6 => Float32 | 7 => Bool | 8 => String | 9 => Array | 10 => UInt64 | 11 => Int64
  | 12 => Float64 | _ => OtherValue tag
  end%N.

Definition tag_of_valueType (t : GgufValueType) : N :=
  match t with
  | UInt8 => 0 | Int8 => 1 | UInt16 => 2 | Int16 => 3 | UInt32 => 4 | Int32 => 5
  | Float32 => 6 | Bool => 7 | String => 8 | Array => 9 | UInt64 => 10 | Int64 => 11
  | Float64 => 12 | OtherValue tag => tag
  end%N.

(** [src/src/core/gguf/GgufTypes.hpp:32-71 GgmlType] *)
Inductive GgmlType :=
  | F32 | F16 | Q4_0 | Q4_1 | Q5_0 | Q5_1 | Q8_0 | Q8_1 | Q2_K | Q3_K | Q4_K | Q5_K | Q6_K
  | Q8_K | I8 | I16 | I32 | I64 | F64 | BF16 | FP8_E4M3 | NVFP4_BLK | NVFP4_TC | Unknown
  | OtherGgml (tag : N).

Definition ggmlType_of_tag (tag : N) : GgmlType :=
  match tag with
  | 0 => F32 | 1 => F16 | 2 => Q4_0 | 3 => Q4_1 | 6 => Q5_0 | 7 => Q5_1 | 8 => Q8_0 | 9 => Q8_1
  | 10 => Q2_K | 11 => Q3_K | 12 => Q4_K | 13 => Q5_K | 14 => Q6_K | 15 => Q8_K
  | 24 => I8 | 25 => I16 | 26 => I32 | 27 => I64 | 28 => F64 | 30 => BF16
  | 40 => FP8_E4M3 | 41 => NVFP4_BLK | 42 => NVFP4_TC | 4294967295 => Unknown
  | _ => OtherGgml tag
  end%N.

Definition tag_of_ggmlType (t : GgmlType) : N :=
  match t with
  | F32 => 0 | F16 => 1 | Q4_0 => 2 | Q4_1 => 3 | Q5_0 => 6 | Q5_1 => 7 | Q8_0 => 8 | Q8_1 => 9
  | Q2_K => 10 | Q3_K => 11 | Q4_K => 12 | Q5_K => 13 | Q6_K => 14 | Q8_K => 15
  | I8 => 24 | I16 => 25 | I32 => 26 | I64 => 27 | F64 => 28 | BF16 => 30
  | FP8_E4M3 => 40 | NVFP4_BLK => 41 | NVFP4_TC => 42 | Unknown => 4294967295
  | OtherGgml tag => tag
  end%N.

(** [src/src/core/gguf/GgufTypes.hpp:73-77 GgmlTypeInfo] *)
Record GgmlTypeInfo := mkTypeInfo {
  info_name : string;
  blockSize : N;
  typeSize : N;
}.

(** [src/src/core/gguf/GgufTypes.cpp:8-43 typeInfo] *)
Definition typeInfo (t : GgmlType) : GgmlTypeInfo :=
  match t with
  | F32 => mkTypeInfo "F32" 1 4
  | F16 => mkTypeInfo "F16" 1 2
  | BF16 => mkTypeInfo "BF16" 1 2
  | F64 => mkTypeInfo "F64" 1 8
  | I8 => mkTypeInfo "I8" 1 1
  | I16 => mkTypeInfo "I16" 1 2
  | I32 => mkTypeInfo "I32" 1 4
  | I64 => mkTypeInfo "I64" 1 8
  | Q4_0 => mkTypeInfo "Q4_0" 32 18
  | Q4_1 => mkTypeInfo "Q4_1" 32 20
  | Q5_0 => mkTypeInfo "Q5_0" 32 22
  | Q5_1 => mkTypeInfo "Q5_1" 32 24
  | Q8_0 => mkTypeInfo "Q8_0" 32 34
  | Q8_1 => mkTypeInfo "Q8_1" 32 36
  | Q2_K => mkTypeInfo "Q2_K" 256 82
  | Q3_K => mkTypeInfo "Q3_K" 256 110
  | Q4_K => mkTypeInfo "Q4_K" 256 144
  | Q5_K => mkTypeInfo "Q5_K" 256 176
  | Q6_K => mkTypeInfo "Q6_K" 256 210
  | Q8_K => mkTypeInfo "Q8_K" 256 292
  | NVFP4_TC => mkTypeInfo "NVFP4_TC" 2 1
  | _ => mkTypeInfo "UNKNOWN" 0 0
  end.

(** [src/src/core/gguf/GgufTypes.cpp:64-86 valueElementWidth] *)
Definition valueElementWidth (t : GgufValueType) : N :=
  match t with
  | UInt8 | Int8 | Bool => 1
  | UInt16 | Int16 => 2
  | UInt32 | Int32 | Float32 => 4
  | UInt64 | Int64 | Float64 => 8
  | String | Array | OtherValue _ => 0
  end.

(** [src/src/core/gguf/GgufTypes.cpp:88-98 bytesForTensor] *)
Definition bytesForTensor (t : GgmlType) (nelements : N) : N :=
  let info := typeInfo t in
  if (blockSize info =? 0)%N || (typeSize info =? 0)%N then 0
  else if negb (nelements mod blockSize info =? 0)%N then 0
  else u64 (nelements / blockSize info * typeSize info).

Module GgufReader.

(** ** Data *)

(** [src/src/core/gguf/GgufReader.hpp:33-38 GgufArray] *)
Record GgufArray := mkArray {
  elementType : GgufValueType;
  count : N;
  raw : list ascii;
  strings : list string;
}.

(** [src/src/core/gguf/GgufReader.hpp:40-48 MetadataValue] *)
Inductive MetadataValue :=
  | VBool (b : bool)
  | VUInt8 (n : N) | VInt8 (z : Z)
  | VUInt16 (n : N) | VInt16 (z : Z)
  | VUInt32 (n : N) | VInt32 (z : Z)
  | VUInt64 (n : N) | VInt64 (z : Z)
  | VFloat32 (bits : N) | VFloat64 (bits : N)
  | VString (s : string)
  | VArray (a : GgufArray).

(** The side banks of quantised experts are not the reader's.
    [src/src/core/gguf/GgufReader.hpp:50-78 GgufTensor] *)
Record GgufTensor := mkTensor {
  name : string;
  type : GgmlType;
  dimensions : list N;
  nelements : N;
  nbytes : N;
  fileOffset : N;
  usmPtr : N;
  chunkIndex : N;
  chunkOffset : N;
}.

(** [src/src/core/gguf/GgufReader.hpp:156-175 GgufReader] *)
Record GgufReader := mkReader {
  _file : option (list ascii);
  _version : N;
  _alignment : N;
  _tensorDataOffset : N;
  _totalTensorBytes : N;
  _metadata : gmap string MetadataValue;
  _tensors : list GgufTensor;
  _tensorBuffers : list N;
  _chunkLoaded : bool;
}.

Definition eta_reader (r : GgufReader) : GgufReader :=
  mkReader (_file r) (_version r) (_alignment r) (_tensorDataOffset r) (_totalTensorBytes r)
    (_metadata r) (_tensors r) (_tensorBuffers r) (_chunkLoaded r).
#[global] Instance set_file : FieldSetter _file := ltac:(build_setter eta_reader _file).
#[global] Instance set_version : FieldSetter _version := ltac:(build_setter eta_reader _version).
#[global] Instance set_alignment : FieldSetter _alignment :=
  ltac:(build_setter eta_reader _alignment).
#[global] Instance set_tensorDataOffset : FieldSetter _tensorDataOffset :=
  ltac:(build_setter eta_reader _tensorDataOffset).
#[global] Instance set_totalTensorBytes : FieldSetter _totalTensorBytes :=
  ltac:(build_setter eta_reader _totalTensorBytes).
#[global] Instance set_metadata : FieldSetter _metadata :=
  ltac:(build_setter eta_reader _metadata).
#[global] Instance set_tensors : FieldSetter _tensors := ltac:(build_setter eta_reader _tensors).
#[global] Instance set_tensorBuffers : FieldSetter _tensorBuffers :=
  ltac:(build_setter eta_reader _tensorBuffers).
#[global] Instance set_chunkLoaded : FieldSetter _chunkLoaded :=
  ltac:(build_setter eta_reader _chunkLoaded).

(** A default-constructed reader. *)
Definition newReader : GgufReader := mkReader None 0 32 0 0 ∅ [] [] false.

(** ** The parser monad

    The reader under construction and the cursor survive an exception, as the
    members of the class do. *)

Inductive outcome (A : Type) :=
  | Returns (a : A)
  | Throws (e : exn)
  | Undefined.
Arguments Returns {A} a.
Arguments Throws {A} e.
Arguments Undefined {A}.

Definition obind {A B} (m : outcome A) (f : A -> outcome B) : outcome B :=
  match m with Returns a => f a | Throws e => Throws e | Undefined => Undefined end.
Notation "'obind!' x := m 'in' k" := (obind m (fun x => k))
  (at level 10, x name, m at level 100, k at level 200).

Record St := mkSt { rd : GgufReader; pos : N }.

Definition M (A : Type) : Type := St -> outcome A * St.
Definition ret {A} (a : A) : M A := fun s => (Returns a, s).
Definition throw {A} (e : exn) : M A := fun s => (Throws e, s).
Definition bind {A B} (m : M A) (f : A -> M B) : M B := fun s =>
  match m s with
  | (Returns a, s) => f a s
  | (Throws e, s) => (Throws e, s)
  | (Undefined, s) => (Undefined, s)
  end.
Definition modify (f : GgufReader -> GgufReader) : M unit := fun s =>
  (Returns tt, mkSt (f (rd s)) (pos s)).
Definition getReader : M GgufReader := fun s => (Returns (rd s), s).
Definition getPos : M N := fun s => (Returns (pos s), s).

Notation "x <- m ;; k" := (bind m (fun x => k))
  (at level 100, m at next level, right associativity).
Notation "m ;;; k" := (bind m (fun _ => k)) (at level 100, right associativity).

(** [for (i = 0; i < n; ++i)] over a local variable. *)
Fixpoint loopPos {A} (p : positive) (body : A -> M A) (a : A) : M A :=
  match p with
  | xH => body a
  | xO p => a <- loopPos p body a;; loopPos p body a
  | xI p => a <- body a;; a <- loopPos p body a;; loopPos p body a
  end.
Definition loop {A} (n : N) (body : A -> M A) (a : A) : M A :=
  match n with N0 => ret a | Npos p => loopPos p body a end.

(** ** The heap *)

(** Element sizes of the two containers that are sized from the file, and the
    requests operator new serves. *)
Class Heap := {
  sizeof_string : N;
  sizeof_tensor : N;
  grants : N -> bool;
}.

Section Parser.
Context {HP : Heap}.
Variable file : list ascii.

Definition size : N := N.of_nat (length file).

(** [vector::reserve] and [vector::resize] of an empty vector. *)
Definition reserve (n sizeof : N) (who : string) : M unit :=
  if ((2 ^ 63 - 1) / sizeof <? n)%N then throw (LengthError who)
  else if grants (n * sizeof) then ret tt else throw BadAlloc.

(** ** The cursor *)

(** Little-endian value of bytes, as [memcpy] into an integer reads them. *)
Fixpoint le (bs : list ascii) : N :=
  match bs with [] => 0 | b :: bs => N_of_ascii b + 256 * le bs end.

(** [memcpy] out of the mapping. *)
Definition memcpy (p n : N) : M (list ascii) := fun s =>
  if (p + n <=? size)%N then (Returns (take (N.to_nat n) (drop (N.to_nat p) file)), s)
  else (Undefined, s).

(** [_pos += n]. *)
Definition advance (n : N) : M unit := fun s => (Returns tt, mkSt (rd s) (u64 (pos s + n))).

(** [src/src/core/gguf/GgufReader.cpp:68-75 Cursor::require] *)
Definition require (n : N) : M unit :=
  p <- getPos;;
  if (size <? u64 (p + n))%N then
    throw (RuntimeError ("gguf: truncated read (need " +:+ pretty n +:+ " bytes at pos " +:+
      pretty p +:+ ", file_size=" +:+ pretty size +:+ ")"))
  else ret tt.

(** [src/src/core/gguf/GgufReader.cpp:59-63 Cursor::readBytes] *)
Definition readBytes (n : N) : M (list ascii) :=
  require n;;;
  p <- getPos;;
  bs <- memcpy p n;;
  advance n;;;
  ret bs.

(** [src/src/core/gguf/GgufReader.cpp:35-43 Cursor::read] *)
Definition read (width : N) : M N := bs <- readBytes width;; ret (le bs).

(** Two's complement of a [w]-bit value. *)
Definition signed (w n : N) : Z :=
  if (n <? 2 ^ (w - 1))%N then Z.of_N n else (Z.of_N n - 2 ^ Z.of_N w)%Z.

(** [src/src/core/gguf/GgufReader.cpp:45-57 Cursor::readString] *)
Definition readString : M string :=
  n <- read 8;;
  p <- getPos;;
  if (size <? n)%N || (size <? u64 (p + n))%N then
    throw (RuntimeError ("gguf: truncated string (n=" +:+ pretty n +:+ ", pos=" +:+ pretty p +:+
      ", file_size=" +:+ pretty size +:+ ")"))
  else
    bs <- memcpy p n;;
    advance n;;;
    ret (String.string_of_list_ascii bs).

(** [src/src/core/gguf/GgufReader.cpp:83-114 readArray] *)
Definition readArray : M GgufArray :=
  tag <- read 4;;
  count <- read 8;;
  let elemType := valueType_of_tag tag in
  match elemType with
  | String =>
      reserve count sizeof_string "vector::reserve";;;
      ss <- loop count (fun ss => s <- readString;; ret (ss ++ [s])) [];;
      ret (mkArray elemType count [] ss)
  | Array => throw (RuntimeError "gguf: nested arrays not supported by v3")
  | _ =>
      let width := valueElementWidth elemType in
      if (width =? 0)%N then
        throw (RuntimeError ("gguf: unknown array element type tag=" +:+ pretty tag))
      else
        let bytes := u64 (count * width) in
        reserve bytes 1 "vector::_M_default_append";;;
        if (0 <? bytes)%N then
          raw <- readBytes bytes;; ret (mkArray elemType count raw [])
        else ret (mkArray elemType count [] [])
  end.

(** [src/src/core/gguf/GgufReader.cpp:116-135 readValue] *)
Definition readValue (type : GgufValueType) : M MetadataValue :=
  match type with
  | UInt8 => n <- read 1;; ret (VUInt8 n)
  | Int8 => n <- read 1;; ret (VInt8 (signed 8 n))
  | UInt16 => n <- read 2;; ret (VUInt16 n)
  | Int16 => n <- read 2;; ret (VInt16 (signed 16 n))
  | UInt32 => n <- read 4;; ret (VUInt32 n)
  | Int32 => n <- read 4;; ret (VInt32 (signed 32 n))
  | UInt64 => n <- read 8;; ret (VUInt64 n)
  | Int64 => n <- read 8;; ret (VInt64 (signed 64 n))
  | Float32 => n <- read 4;; ret (VFloat32 n)
  | Float64 => n <- read 8;; ret (VFloat64 n)
  | Bool => n <- read 1;; ret (VBool (negb (n =? 0)%N))
  | String => s <- readString;; ret (VString s)
  | Array => a <- readArray;; ret (VArray a)
  | OtherValue tag => throw (RuntimeError ("gguf: unknown value type tag=" +:+ pretty tag))
  end.

(** ** Opening a file *)

(** What an entry [general.alignment] does to the alignment.
    [src/src/core/gguf/GgufReader.cpp:196-202 GgufReader::open] *)
Definition alignmentOf (key : string) (v : MetadataValue) (alignment : N) : N :=
  if String.eqb key "general.alignment" then
    match v with VUInt32 n | VUInt64 n => n | _ => alignment end
  else alignment.

(** One round of the metadata loop.
    [src/src/core/gguf/GgufReader.cpp:188-205 GgufReader::open] *)
Definition readMetadata : M unit :=
  key <- readString;;
  tag <- read 4;;
  v <- readValue (valueType_of_tag tag);;
  modify (fun r => r <| _alignment := alignmentOf key v (_alignment r) |>
                     <| _metadata := emplace key v (_metadata r) |>).

(** One round of the tensor loop.
    [src/src/core/gguf/GgufReader.cpp:211-248 GgufReader::open] *)
Definition readTensor : M unit :=
  name <- readString;;
  ndim <- read 4;;
  if (ndim =? 0)%N || (8 <? ndim)%N then
    throw (RuntimeError "GgufReader: implausible tensor ndim")
  else
    dn <- loop ndim (fun '(dims, nelem) => dim <- read 8;;
                       ret (dims ++ [dim], u64 (nelem * dim))) ([], 1%N);;
    tag <- read 4;;
    fileOffset <- read 8;;
    let type := ggmlType_of_tag tag in
    let nbytes := bytesForTensor type (snd dn) in
    if (nbytes =? 0)%N then
      throw (RuntimeError ("GgufReader: unsupported tensor type for " +:+ name))
    else
      modify (fun r => r <| _totalTensorBytes := u64 (_totalTensorBytes r + nbytes) |>
        <| _tensors := _tensors r ++ [mkTensor name type (fst dn) (snd dn) nbytes fileOffset 0 0 0] |>).

Definition kGgufMagic : N := 0x46554747.

(** The data section starts at the next multiple of the alignment; a zero
    alignment is a division by zero.
    [src/src/core/gguf/GgufReader.cpp:252-261 GgufReader::open] *)
Definition alignData : M unit :=
  posAfterIndex <- getPos;;
  r <- getReader;;
  if (_alignment r =? 0)%N then (fun s => (Undefined, s))
  else
    let pad := ((_alignment r - posAfterIndex mod _alignment r) mod _alignment r)%N in
    modify (fun r => r <| _tensorDataOffset := u64 (posAfterIndex + pad) |>);;;
    r <- getReader;;
    if (size <? _tensorDataOffset r)%N then
      throw (RuntimeError "GgufReader: data offset past EOF")
    else ret tt.

(** [open] once the file is mapped.
    [src/src/core/gguf/GgufReader.cpp:160-268 GgufReader::open] *)
Definition parse (path : string) : M unit :=
  magic <- read 4;;
  if negb (magic =? kGgufMagic)%N then
    throw (RuntimeError ("GgufReader: bad magic for " +:+ path))
  else
    version <- read 4;;
    modify (fun r => r <| _version := version |>);;;
    tensorCount <- read 8;;
    metadataCount <- read 8;;
    loop metadataCount (fun _ => readMetadata) tt;;;
    reserve tensorCount sizeof_tensor "vector::reserve";;;
    loop tensorCount (fun _ => readTensor) tt;;;
    alignData.
End Parser.

(** ** Mapping *)

(** The four system calls of a mapping: the error of [open], the error of
    [fstat], the bytes of the file, the error of [mmap].
    [src/src/core/os/MappedFile.cpp:20-66 MappedFile::MappedFile] *)
Definition mapFile (path : string) (opened stat : option string) (bytes : list ascii)
    (mapped : option string) : result (list ascii) :=
  match opened with
  | Some e => Throw (RuntimeError ("MappedFile: open(" +:+ path +:+ ") failed: " +:+ e))
  | None =>
      match stat with
      | Some e => Throw (RuntimeError ("MappedFile: fstat failed: " +:+ e))
      | None =>
          if length bytes =? 0 then
            Throw (RuntimeError ("MappedFile: file is empty: " +:+ path))
          else
            match mapped with
            | Some e => Throw (RuntimeError ("MappedFile: mmap failed: " +:+ e))
            | None => Ok bytes
            end
      end
  end.

(** [src/src/core/gguf/GgufReader.cpp:347-378 GgufReader::close] *)
Definition close (r : GgufReader) : GgufReader :=
  r <| _tensorBuffers := [] |> <| _chunkLoaded := false |> <| _file := None |>
    <| _tensors := [] |> <| _metadata := ∅ |> <| _version := 0%N |> <| _alignment := 32%N |>
    <| _tensorDataOffset := 0%N |> <| _totalTensorBytes := 0%N |>.

(** [src/src/core/gguf/GgufReader.cpp:155-268 GgufReader::open] *)
Definition open `{Heap} (path : string) (mapping : result (list ascii)) (r : GgufReader)
    : outcome unit * GgufReader :=
  let r := close r in
  match mapping with
  | Throw e => (Throws e, r)
  | Ok bytes =>
      let '(o, s) := parse bytes path (mkSt (r <| _file := Some bytes |>) 0) in
      (o, rd s)
  end.

(** [src/src/core/gguf/GgufReader.cpp:380-387 GgufReader::findTensor] *)
Definition findTensor (r : GgufReader) (n : string) : option GgufTensor :=
  find (fun t => String.eqb (name t) n) (_tensors r).

(** [src/src/core/gguf/GgufReader.cpp:389-392 GgufReader::findMetadata] *)
Definition findMetadata (r : GgufReader) (key : string) : option MetadataValue :=
  _metadata r !! key.
End GgufReader.
