(* ===== verification/GgufProofs.v ===== *)
(** * The GGUF reader is safe

    [open_safe]: on any bytes the parser of [Gguf.v] stays inside the file and
    leaves a consistent index, or throws; its one undefined case is a zero
    alignment.  The proof is a Hoare logic over the parser's monad. *)

From Stdlib Require Import Ascii.
From Stdlib Require String.
From S2P Require Import Prelude Gguf.
Import GgufReader.

Module GgufProofs.

(** ** The monad *)

Lemma bind_ext {A B} (m m' : M A) (f f' : A -> M B) s :
  (forall s, m s = m' s) -> (forall a s, f a s = f' a s) -> bind m f s = bind m' f' s.
Proof.
  intros Hm Hf. unfold bind. rewrite Hm. destruct (m' s) as [[a|e|] s']; [apply Hf|done|done].
Qed.

Lemma bind_assoc {A B C} (m : M A) (f : A -> M B) (g : B -> M C) s :
  bind (bind m f) g s = bind m (fun a => bind (f a) g) s.
Proof. unfold bind. by destruct (m s) as [[a|e|] s']. Qed.

(** The loop as a natural iteration. *)
Fixpoint iterM {A} (n : nat) (body : A -> M A) (a : A) : M A :=
  match n with 0 => ret a | S n => bind (body a) (iterM n body) end.

Lemma iterM_add {A} n m (body : A -> M A) : forall a s,
  iterM (n + m) body a s = bind (iterM n body a) (iterM m body) s.
Proof.
  induction n as [|n IH]; intros a s; [done|]. cbn [iterM Nat.add]. rewrite bind_assoc.
  by apply bind_ext.
Qed.

Lemma loopPos_iter {A} (body : A -> M A) p : forall a s,
  loopPos p body a s = iterM (Pos.to_nat p) body a s.
Proof.
  induction p as [p IH|p IH|]; intros a s; cbn [loopPos].
  - rewrite Pos2Nat.inj_xI. cbn [iterM]. apply bind_ext; [done|]. intros b t.
    replace (2 * Pos.to_nat p) with (Pos.to_nat p + Pos.to_nat p) by lia. rewrite iterM_add.
    by apply bind_ext.
  - rewrite Pos2Nat.inj_xO. replace (2 * Pos.to_nat p) with (Pos.to_nat p + Pos.to_nat p) by lia.
    rewrite iterM_add. by apply bind_ext.
  - change (Pos.to_nat 1) with 1. cbn [iterM]. unfold bind, ret.
    by destruct (body a s) as [[b|e|] t].
Qed.

Lemma loop_iter {A} (body : A -> M A) n a s : loop n body a s = iterM (N.to_nat n) body a s.
Proof. destruct n as [|p]; [done|]. apply loopPos_iter. Qed.

(** ** Partial correctness *)

(** From a state with [P], [m] is undefined only in states of [U], and where it
    returns, [Q] holds. *)
Definition hoare {A} (U : St -> Prop) (P : St -> Prop) (m : M A) (Q : A -> St -> Prop) : Prop :=
  forall s, P s -> match m s with
    | (Returns a, s') => Q a s'
    | (Throws _, _) => True
    | (Undefined, s') => U s'
    end.

Definition triple {A} : (St -> Prop) -> M A -> (A -> St -> Prop) -> Prop := hoare (fun _ => False).

Lemma hoare_bind {A B} U P (m : M A) (f : A -> M B) R Q :
  triple P m R -> (forall a, hoare U (R a) (f a) Q) -> hoare U P (bind m f) Q.
Proof.
  intros Hm Hf s Hs. unfold bind. specialize (Hm s Hs).
  destruct (m s) as [[a|e|] s']; [by apply Hf|done|done].
Qed.

Lemma triple_ret {A} (P : St -> Prop) (a : A) (Q : A -> St -> Prop) :
  (forall s, P s -> Q a s) -> triple P (ret a) Q.
Proof. intros H s Hs. by apply H. Qed.

Lemma triple_throw {A} P e (Q : A -> St -> Prop) : triple P (throw e) Q.
Proof. by intros s _. Qed.

Lemma triple_bind {A B} P (m : M A) (f : A -> M B) R Q :
  triple P m R -> (forall a, triple (R a) (f a) Q) -> triple P (bind m f) Q.
Proof. apply hoare_bind. Qed.

Lemma triple_modify (P : St -> Prop) f (Q : unit -> St -> Prop) :
  (forall s, P s -> Q tt (mkSt (f (rd s)) (pos s))) -> triple P (modify f) Q.
Proof. intros H s Hs. by apply H. Qed.

Lemma triple_getPos (P : St -> Prop) : triple P getPos (fun p s => P s /\ p = pos s).
Proof. by intros s Hs. Qed.

Lemma triple_if {A} P (b : bool) (m m' : M A) Q :
  (b = true -> triple P m Q) -> (b = false -> triple P m' Q) -> triple P (if b then m else m') Q.
Proof. destruct b; auto. Qed.

Lemma triple_weaken {A} (P P' : St -> Prop) (m : M A) (Q Q' : A -> St -> Prop) :
  triple P m Q -> (forall s, P' s -> P s) -> (forall a s, Q a s -> Q' a s) -> triple P' m Q'.
Proof.
  intros H HP HQ s Hs. specialize (H s (HP s Hs)).
  destruct (m s) as [[a|e|] s']; [by apply HQ|done|done].
Qed.

(** The loop rule: [I k a] after [k] rounds. *)
Lemma triple_loop {A} (I : nat -> A -> St -> Prop) n (body : A -> M A) a :
  (forall k a, triple (I k a) (body a) (I (S k))) ->
  triple (I 0 a) (loop n body a) (I (N.to_nat n)).
Proof.
  intros Hb s Hs. rewrite loop_iter.
  assert (H : forall n k a s, I k a s -> match iterM n body a s with
      | (Returns b, s') => I (k + n) b s' | (Throws _, _) => True | (Undefined, _) => False end).
  { clear -Hb. induction n as [|n IH]; intros k a s Hs; cbn [iterM].
    - by rewrite Nat.add_0_r.
    - unfold bind. specialize (Hb k a s Hs). destruct (body a s) as [[b|e|] s']; [|done|done].
      specialize (IH (S k) b s' Hb). by rewrite <- Nat.add_succ_comm. }
  apply (H (N.to_nat n) 0 a s Hs).
Qed.

(** ** Sums *)

Definition sumN (l : list N) : N := foldr N.add 0%N l.

Lemma sumN_snoc l x : sumN (l ++ [x]) = (sumN l + x)%N.
Proof. unfold sumN. induction l as [|y l IH]; cbn; [lia|]. rewrite IH. lia. Qed.

Lemma u64_add_l a b : u64 (u64 a + b) = u64 (a + b).
Proof. unfold u64, wrapU. by rewrite N.Div0.add_mod_idemp_l. Qed.

(** ** Padding *)

Lemma padding_aligned p al : (0 < al)%N -> (p < 2 ^ 63)%N -> (al < 2 ^ 64)%N ->
  let off := u64 (p + (al - p mod al) mod al) in (off mod al = 0)%N /\ (p <= off)%N.
Proof.
  intros Ha Hp Hal. pose proof (N.mod_lt p al ltac:(lia)) as Hm. pose proof (N.Div0.div_mod p al) as Hq.
  assert (Hb : (p + (al - p mod al) mod al < 2 ^ 64)%N /\ ((p + (al - p mod al) mod al) mod al = 0)%N).
  { destruct (decide (p mod al = 0)%N) as [Hz|Hz].
    - rewrite Hz, N.sub_0_r, N.Div0.mod_same, N.add_0_r. split; [lia|done].
    - rewrite (N.mod_small (al - p mod al))
        by (apply N.sub_lt; [by apply N.lt_le_incl|by apply N.neq_0_lt_0]). split.
      + destruct (N.le_gt_cases al p) as [Hle|Hgt]; [clear -Hle Hp; generalize (p mod al)%N; lia|].
        rewrite (N.mod_small p al) by exact Hgt. clear -Hgt Hal. lia.
      + replace (p + (al - p mod al))%N with ((p / al + 1) * al)%N; [apply N.Div0.mod_mul|].
        generalize dependent (p / al)%N. generalize dependent (p mod al)%N. intros m H1 H2 q ->.
        replace (al * q + m + (al - m))%N with (al * q + al)%N by (clear -H1 H2; lia). ring. }
  cbn zeta. rewrite u64_small by apply Hb. split; [apply Hb|apply N.le_add_r].
Qed.

(** ** Little-endian integers *)

Lemma le_range bs : (le bs < 2 ^ (8 * N.of_nat (length bs)))%N.
Proof.
  induction bs as [|b bs IH]; [done|]. cbn [le length].
  replace (8 * N.of_nat (S (length bs)))%N with (8 + 8 * N.of_nat (length bs))%N by lia.
  rewrite N.pow_add_r. change (2 ^ 8)%N with 256%N.
  pose proof (N_ascii_bounded b). lia.
Qed.

Lemma signed_range w n : (0 < w)%N -> (n < 2 ^ w)%N ->
  (- 2 ^ Z.of_N (w - 1) <= signed w n < 2 ^ Z.of_N (w - 1))%Z.
Proof.
  intros Hw Hn. unfold signed.
  assert (H2 : (2 ^ w = 2 * 2 ^ (w - 1))%N).
  { rewrite <- N.pow_succ_r'. f_equal. lia. }
  assert (H3 : (2 ^ Z.of_N w = 2 * 2 ^ Z.of_N (w - 1))%Z).
  { rewrite <- Z.pow_succ_r by lia. f_equal. lia. }
  assert (H4 : (Z.of_N (2 ^ (w - 1)) = 2 ^ Z.of_N (w - 1))%Z) by (rewrite N2Z.inj_pow; done).
  rewrite H3. destruct (N.ltb_spec n (2 ^ (w - 1))); lia.
Qed.

(** ** The cursor stays inside the file *)

Section Safety.
Context {HP : Heap}.
Variable file : list ascii.
Hypothesis Hsize : (size file < 2 ^ 63)%N.

(** The state with reader [r] and the cursor at [p]. *)
Definition at_ (r : GgufReader) (p : N) (s : St) : Prop :=
  rd s = r /\ pos s = p /\ (p <= size file)%N.

Lemma readBytes_triple r p n : (n < 2 ^ 63)%N ->
  triple (at_ r p) (readBytes file n)
    (fun bs s => at_ r (p + n) s /\ length bs = N.to_nat n).
Proof using Hsize.
  intros Hn [r0 p0] (Hr & Hpos & Hp). cbn [rd pos] in *. subst r0 p0. unfold readBytes, require, bind, getPos, throw, ret, memcpy, advance.
  cbn [pos rd]. rewrite u64_small by (unfold size in *; lia).
  destruct (N.ltb_spec (size file) (p + n)); [done|]. cbn [pos rd].
  rewrite (proj2 (N.leb_le _ _)) by done. cbn [pos rd].
  split; [|rewrite length_take, length_drop; unfold size in *; lia].
  unfold at_. cbn [pos rd]. rewrite u64_small by lia. done.
Qed.

Lemma read_triple r p w : (w < 2 ^ 63)%N ->
  triple (at_ r p) (read file w) (fun n s => at_ r (p + w) s /\ (n < 2 ^ (8 * w))%N).
Proof using Hsize.
  intros Hw. eapply triple_bind; [by apply readBytes_triple|]. intros bs.
  apply triple_ret; intros s [? Hl]. split; [done|]. pose proof (le_range bs).
  by rewrite Hl, N2Nat.id in *.
Qed.

(** Where the value read does not matter. *)
Lemma read_triple_any r p w : (w < 2 ^ 63)%N ->
  triple (at_ r p) (read file w) (fun _ => at_ r (p + w)).
Proof using Hsize.
  intros Hw. eapply triple_weaken; [by apply read_triple|done|]. by intros n s [? _].
Qed.

Lemma readString_triple r p :
  triple (at_ r p) (readString file) (fun str => at_ r (p + 8 + N.of_nat (String.length str))).
Proof using Hsize.
  eapply triple_bind; [by apply read_triple_any|]. intros n.
  intros [r0 p0] (Hr & Hp & Hle). cbn [rd pos] in *. subst r0 p0.
  unfold bind, getPos, throw, ret, memcpy, advance. cbn [pos rd].
  destruct (N.ltb_spec (size file) n); cbn [orb]; [done|].
  rewrite u64_small by lia. destruct (N.ltb_spec (size file) (p + 8 + n)); [done|]. cbn [pos rd].
  rewrite (proj2 (N.leb_le _ _)) by done. cbn [pos rd]. rewrite u64_small by lia.
  assert (Hlen : N.of_nat (String.length (String.string_of_list_ascii
      (take (N.to_nat n) (drop (N.to_nat (p + 8)) file)))) = n).
  { rewrite <- (String.list_ascii_of_string_of_list_ascii
      (take (N.to_nat n) (drop (N.to_nat (p + 8)) file))) at 1.
    rewrite String.string_of_list_ascii_of_string.
    assert (Hl : forall l, String.length (String.string_of_list_ascii l) = length l)
      by (induction l as [|x l IH]; [done|cbn; by rewrite IH]).
    rewrite Hl, length_take, length_drop. unfold size in *. lia. }
  rewrite Hlen. done.
Qed.

Lemma reserve_triple P n w who : triple P (reserve n w who) (fun _ s => P s /\ (n <= (2 ^ 63 - 1) / w)%N).
Proof using Type.
  unfold reserve. apply triple_if; [intros; apply triple_throw|]. intros Hn. apply N.ltb_ge in Hn.
  apply triple_if; [|intros; apply triple_throw]. intros _. apply triple_ret. by intros s Hs.
Qed.

(** What is stored of an array. *)
Definition array_ok (a : GgufArray) : Prop :=
  match elementType a with
  | String => raw a = [] /\ length (strings a) = N.to_nat (count a)
  | Array | OtherValue _ => False
  | t => strings a = [] /\ N.of_nat (length (raw a)) = u64 (count a * valueElementWidth t)
  end.

Definition value_ok (v : MetadataValue) : Prop :=
  match v with
  | VUInt8 n => n < 2 ^ 8
  | VUInt16 n => n < 2 ^ 16
  | VUInt32 n | VFloat32 n => n < 2 ^ 32
  | VUInt64 n | VFloat64 n => n < 2 ^ 64
  | VArray a => array_ok a
  | VInt8 z => (- 2 ^ 7 <= z < 2 ^ 7)%Z
  | VInt16 z => (- 2 ^ 15 <= z < 2 ^ 15)%Z
  | VInt32 z => (- 2 ^ 31 <= z < 2 ^ 31)%Z
  | VInt64 z => (- 2 ^ 63 <= z < 2 ^ 63)%Z
  | VBool _ | VString _ => True
  end%N.

Lemma readRaw_triple r p t n : (0 < valueElementWidth t)%N ->
  triple (at_ r p)
    (reserve (u64 (n * valueElementWidth t)) 1 "vector::_M_default_append";;;
     if (0 <? u64 (n * valueElementWidth t))%N then
       raw <- readBytes file (u64 (n * valueElementWidth t));; ret (mkArray t n raw [])
     else ret (mkArray t n [] []))
    (fun a s => (exists p', (p <= p')%N /\ at_ r p' s) /\ array_ok a).
Proof using Hsize.
  intros Hw. eapply triple_bind; [apply reserve_triple|]. intros [].
  set (bytes := u64 (n * valueElementWidth t)).
  assert (Hok : forall raw, N.of_nat (length raw) = bytes -> array_ok (mkArray t n raw [])).
  { intros raw Hr. unfold array_ok. cbn [elementType count strings Gguf.GgufReader.raw].
    by destruct t. }
  apply triple_if; intros Hb.
  - intros s [Hs Hle]. rewrite N.div_1_r in Hle.
    refine ((_ : triple (at_ r p) _ _) s Hs).
    eapply triple_bind; [apply readBytes_triple; lia|]. intros bs. apply triple_ret.
    intros s' [Hs' Hl]. split; [exists (p + bytes)%N; split; [lia|done]|]. apply Hok. lia.
  - apply triple_ret. intros s [Hs _]. split; [by exists p|]. apply Hok. cbn. apply N.ltb_ge in Hb. lia.
Qed.

Lemma readArray_triple r p :
  triple (at_ r p) (readArray file) (fun a s => (exists p', (p + 12 <= p')%N /\ at_ r p' s) /\ array_ok a).
Proof using Hsize.
  eapply triple_bind; [by apply read_triple_any|]. intros tag.
  eapply triple_bind; [by apply read_triple_any|]. intros n. cbn beta zeta.
  assert (Hraw : forall t, (0 < valueElementWidth t)%N ->
    triple (at_ r (p + 4 + 8))
      (reserve (u64 (n * valueElementWidth t)) 1 "vector::_M_default_append";;;
       if (0 <? u64 (n * valueElementWidth t))%N then
         raw <- readBytes file (u64 (n * valueElementWidth t));; ret (mkArray t n raw [])
       else ret (mkArray t n [] []))
      (fun a s => (exists p', (p + 12 <= p')%N /\ at_ r p' s) /\ array_ok a)).
  { intros t Ht. eapply triple_weaken; [by apply readRaw_triple|done|].
    intros a s [(p' & H1 & H2) H3]. split; [|done]. exists p'. split; [lia|done]. }
  generalize (valueType_of_tag tag). intros t. specialize (Hraw t).
  destruct t; try exact (Hraw eq_refl); try apply triple_throw.
  eapply triple_bind; [apply reserve_triple|]. intros [].
  eapply triple_bind.
  - eapply triple_weaken with
      (P := fun s => (exists p', (p + 12 <= p')%N /\ at_ r p' s) /\ length (@nil string) = 0);
      [apply (triple_loop (fun k ss s => (exists p', (p + 12 <= p')%N /\ at_ r p' s) /\ length ss = k))
      | |intros ss s Hs; exact Hs].
    + intros k ss s [(p' & Hp & Hs) Hl]. refine ((_ : triple (at_ r p') _ _) s Hs).
      eapply triple_bind; [by apply readString_triple|]. intros str. apply triple_ret.
      intros s' Hs'. split; [eexists; split; [|exact Hs']; lia|]. rewrite length_app. simpl. lia.
    + intros s [Hs _]. split; [|done]. exists (p + 4 + 8)%N. split; [lia|done].
  - intros ss. apply triple_ret. intros s [Hs Hl]. split; [done|]. by split.
Qed.

Lemma readValue_triple r p t :
  triple (at_ r p) (readValue file t) (fun v s => (exists p', (p < p')%N /\ at_ r p' s) /\ value_ok v).
Proof using Hsize.
  assert (Hr : forall w (f : N -> MetadataValue), (0 < w < 2 ^ 63)%N ->
    (forall n, (n < 2 ^ (8 * w))%N -> value_ok (f n)) ->
    triple (at_ r p) (n <- read file w;; ret (f n))
      (fun v s => (exists p', (p < p')%N /\ at_ r p' s) /\ value_ok v)).
  { intros w f Hw Hf. eapply triple_bind; [apply read_triple; lia|]. intros n. apply triple_ret.
    intros s [Hs Hn]. split; [|by apply Hf]. exists (p + w)%N. split; [lia|done]. }
  destruct t; cbn [readValue]; try (apply Hr; [lia|done]); try apply triple_throw.
  1-3: apply Hr; [lia|]; intros n Hn; by apply signed_range in Hn.
  3: { apply Hr; [lia|]; intros n Hn; by apply signed_range in Hn. }
  - eapply triple_bind; [by apply readString_triple|]. intros str. apply triple_ret.
    intros s Hs. split; [|done]. eexists. split; [|exact Hs]. lia.
  - eapply triple_bind; [by apply readArray_triple|]. intros a. apply triple_ret.
    intros s [(p' & Hp & Hs) Ha]. split; [|done]. exists p'. split; [lia|done].
Qed.

(** ** The index that parsing builds *)

Definition tensor_ok (t : GgufTensor) : Prop :=
  1 <= length (dimensions t) <= 8 /\
  nelements t = fold_left (fun e d => u64 (e * d)) (dimensions t) 1%N /\
  nbytes t = bytesForTensor (type t) (nelements t) /\ nbytes t <> 0%N /\
  usmPtr t = 0%N /\ chunkIndex t = 0%N /\ chunkOffset t = 0%N.

Record indexed (r : GgufReader) : Prop := {
  ix_file : _file r = Some file;
  ix_alignment : (_alignment r < 2 ^ 64)%N;
  ix_tensors : Forall tensor_ok (_tensors r);
  ix_total : _totalTensorBytes r = u64 (sumN (map nbytes (_tensors r)));
  ix_metadata : map_Forall (fun _ v => value_ok v) (_metadata r);
  ix_fresh : _tensorBuffers r = [] /\ _chunkLoaded r = false;
}.

(** A cursor past [lo], behind [n] tensors. *)
Definition reading (lo : N) (n : nat) (s : St) : Prop :=
  exists r p, at_ r p s /\ (lo <= p)%N /\ length (_tensors r) = n /\ indexed r.

Lemma readMetadata_triple lo n :
  triple (reading lo n) (readMetadata file) (fun _ => reading (lo + 13) n).
Proof using Hsize.
  intros s (r & p & Hs & Hp & Hn & Hix). refine ((_ : triple (at_ r p) _ _) s Hs).
  eapply triple_bind; [by apply readString_triple|]. intros key.
  eapply triple_bind; [by apply read_triple_any|]. intros tag.
  eapply triple_bind; [by apply readValue_triple|]. intros v.
  apply triple_modify. intros s' [(p' & Hp' & Hr & Hpos & Hle) Hv]. rewrite Hr.
  eexists _, p'. split; [by split|]. split; [lia|]. split; [done|].
  destruct Hix as [X1 Xa X2 X3 X4 X5]. split; [done| |done|done| |done]; cbn [_metadata _alignment].
  { change (alignmentOf key v (_alignment r) < 2 ^ 64)%N.
    unfold alignmentOf. destruct (String.eqb _ _); [|done]. destruct v; try done; unfold value_ok in Hv; lia. }
  unfold emplace. destruct (_metadata r !! key) eqn:Hk; [done|].
  by apply map_Forall_insert_2.
Qed.

Lemma readDims_triple r p n :
  triple (at_ r p)
    (loop n (fun '(dims, nelem) => dim <- read file 8;;
               ret (dims ++ [dim], u64 (nelem * dim))) ([], 1%N))
    (fun dn s => at_ r (p + 8 * n) s /\ length (fst dn) = N.to_nat n /\
       snd dn = fold_left (fun e d => u64 (e * d)) (fst dn) 1%N).
Proof using Hsize.
  eapply triple_weaken with (P := fun s => at_ r (p + 8 * N.of_nat 0) s /\ length (@nil N) = 0 /\
      1%N = fold_left (fun e d => u64 (e * d)) [] 1%N).
  - apply (triple_loop (fun k dn s => at_ r (p + 8 * N.of_nat k) s /\ length (fst dn) = k /\
       snd dn = fold_left (fun e d => u64 (e * d)) (fst dn) 1%N) n _ ([], 1%N)).
    intros k [dims nelem] s (Hs & Hl & He). cbn [fst snd] in *.
    refine ((_ : triple (at_ r (p + 8 * N.of_nat k)) _ _) s Hs).
    eapply triple_bind; [by apply read_triple_any|]. intros dim. apply triple_ret. intros s' Hs'.
    cbn [fst snd]. split; [by replace (p + 8 * N.of_nat (S k))%N with (p + 8 * N.of_nat k + 8)%N by lia|].
    split; [rewrite length_app; simpl; lia|]. rewrite fold_left_app, <- He. done.
  - intros s Hs. by rewrite N.add_0_r.
  - intros dn s (Hs & Hl & He). rewrite N2Nat.id in Hs. done.
Qed.

Lemma readTensor_triple lo n :
  triple (reading lo n) (readTensor file) (fun _ => reading (lo + 32) (S n)).
Proof using Hsize.
  intros s (r & p & Hs & Hp & Hn & Hix). refine ((_ : triple (at_ r p) _ _) s Hs).
  eapply triple_bind; [by apply readString_triple|]. intros nm.
  eapply triple_bind; [by apply read_triple_any|]. intros ndim.
  apply triple_if; [intros; apply triple_throw|]. intros Hd.
  apply orb_false_elim in Hd as [Hd1 Hd2]. apply N.eqb_neq in Hd1. apply N.ltb_ge in Hd2.
  eapply triple_bind; [apply readDims_triple|]. intros [dims nelem]. cbn [fst snd].
  intros s' (Hs' & Hl & He). revert s' Hs'. refine (_ : triple (at_ r _) _ _).
  eapply triple_bind; [by apply read_triple_any|]. intros tag.
  eapply triple_bind; [by apply read_triple_any|]. intros off. cbn zeta.
  apply triple_if; [intros; apply triple_throw|]. intros Hnb. apply N.eqb_neq in Hnb.
  apply triple_modify. intros s' (Hr & Hpos & Hle). rewrite Hr.
  eexists _, _. split; [by split; [|split; [exact Hpos|]]|]. split; [lia|].
  destruct Hix as [X1 Xa X2 X3 X4 X5]. split; [cbn; rewrite length_app; simpl; lia|].
  split; cbn; [done|done| | |done|done].
  - apply Forall_app. split; [done|]. constructor; [|done]. unfold tensor_ok. cbn.
    split; [lia|]. done.
  - rewrite X3, u64_add_l, map_app. cbn. by rewrite sumN_snoc.
Qed.

Record opened (n : nat) (lo : N) (r : GgufReader) : Prop := {
  op_indexed : indexed r;
  op_count : length (_tensors r) = n;
  op_alignment : (0 < _alignment r)%N;
  op_aligned : (_tensorDataOffset r mod _alignment r = 0)%N;
  op_bounds : (lo <= _tensorDataOffset r <= size file)%N;
}.

Lemma alignData_hoare lo n :
  hoare (fun s => _alignment (rd s) = 0%N)
    (reading lo n) (alignData file) (fun _ s => opened n lo (rd s)).
Proof using Hsize.
  intros [r p] (r' & p' & (Hr & Hp & Hle) & Hlo & Hn & Hix). cbn [rd pos] in *. subst r' p'.
  unfold alignData, bind, getPos, getReader, modify, throw, ret. cbn [rd pos].
  destruct (N.eqb_spec (_alignment r) 0) as [Hz|Hz]; [done|]. cbn [rd pos].
  set (off := u64 (p + _)). cbn -[N.ltb size off N.lt N.le].
  destruct (N.ltb_spec (size file) off); [done|].
  destruct (padding_aligned p (_alignment r)) as [H1 H2]; [lia|lia|apply Hix|]. fold off in H1, H2.
  destruct Hix as [X1 Xa X2 X3 X4 X5].
  clearbody off. split; cbn -[N.le N.lt size]; [by split|done|lia|done|].
  split; [by etrans|done].
Qed.

Lemma parse_hoare path r : indexed r -> _tensors r = [] ->
  hoare (fun s => _alignment (rd s) = 0%N) (at_ r 0) (parse file path)
    (fun _ s => exists n, opened n (24 + 32 * N.of_nat n) (rd s)).
Proof using Hsize.
  intros Hix Hts. unfold parse.
  eapply hoare_bind; [by apply read_triple_any|]. intros magic.
  destruct (negb _); [by intros s _|].
  eapply hoare_bind; [by apply read_triple_any|]. intros version.
  eapply (hoare_bind _ _ _ _ (fun _ => at_ (r <| _version := version |>) (0 + 4 + 4)));
    [apply triple_modify; intros s (Hr & Hs); by rewrite Hr|]. intros [].
  eapply hoare_bind; [by apply read_triple_any|]. intros tensorCount.
  eapply hoare_bind; [by apply read_triple_any|]. intros metadataCount.
  eapply (hoare_bind _ _ _ _ (fun _ => reading 24 0)).
  { eapply triple_weaken; [apply (triple_loop (fun _ _ => reading 24 0) metadataCount _ tt)| |by intros [] s Hs].
    - intros _ []. eapply triple_weaken; [apply readMetadata_triple|done|].
      intros [] s (r' & p & H1 & H2 & H3). exists r', p. split; [done|]. split; [lia|done].
    - intros s Hs. eexists _, _. split; [exact Hs|]. split; [lia|].
      destruct Hix as [X1 Xa X2 X3 X4 X5]. split; [|by split].
      cbn. by rewrite Hts. }
  intros []. eapply hoare_bind; [apply reserve_triple|]. intros [].
  eapply (hoare_bind _ _ _ _ (fun _ => reading (24 + 32 * tensorCount) (N.to_nat tensorCount))).
  { eapply triple_weaken;
      [apply (triple_loop (fun k _ => reading (24 + 32 * N.of_nat k) k) tensorCount _ tt)| |].
    - intros k []. eapply triple_weaken; [apply readTensor_triple|done|].
      intros [] s (r' & p & H1 & H2 & H3). exists r', p. split; [done|]. split; [lia|done].
    - by intros s [Hs _].
    - intros [] s Hs. by rewrite N2Nat.id in Hs. }
  intros []. intros s Hs. pose proof (alignData_hoare (24 + 32 * tensorCount) (N.to_nat tensorCount) s Hs) as H.
  destruct (alignData file s) as [[[]|e|] s']; [|done|done].
  exists (N.to_nat tensorCount). by rewrite N2Nat.id.
Qed.
End Safety.

Lemma open_correct (HP : Heap) path mapping r :
  (forall bytes, mapping = Ok bytes -> (size bytes < 2 ^ 63)%N) ->
  match open path mapping r with
  | (Returns tt, r') => exists bytes n, mapping = Ok bytes /\
      opened bytes n (24 + 32 * N.of_nat n) r'
  | (Throws _, _) => True
  | (Undefined, r') => _alignment r' = 0%N
  end.
Proof.
  intros Hsz. unfold open. destruct mapping as [bytes|e]; [|done].
  specialize (Hsz bytes eq_refl).
  set (r0 := (close r) <| _file := Some bytes |>).
  assert (Hix : indexed bytes r0) by (split; [done|cbn; lia|constructor|done|apply map_Forall_empty|done]).
  pose proof (parse_hoare bytes Hsz path r0 Hix eq_refl (mkSt r0 0)) as H.
  destruct (parse bytes path (mkSt r0 0)) as [[[]|e|] s']; [|done|].
  - destruct H as [n Hn]; [by split; [|split; [|lia]]|]. by exists bytes, n.
  - apply H. split; [done|]. split; [done|]. cbn. lia.
Qed.

(** ** What the index says, without the wrap *)

(** The elements an array holds. *)
Definition elements (a : GgufArray) : N :=
  match elementType a with
  | String => N.of_nat (length (strings a))
  | t => N.of_nat (length (raw a)) / valueElementWidth t
  end.

Definition product (dims : list N) : N := fold_left N.mul dims 1%N.

(** Arrays and tensors hold what they declare, unless the size they declare does not
    fit 64 bits. *)
Record declared (r : GgufReader) : Prop := {
  decl_arrays : forall key a, findMetadata r key = Some (VArray a) ->
    elements a = count a \/ (2 ^ 64 <= count a * valueElementWidth (elementType a))%N;
  decl_tensors : Forall (fun t => (product (dimensions t) < 2 ^ 64)%N ->
    nelements t = product (dimensions t)) (_tensors r);
}.

Lemma array_elements a : array_ok a ->
  elements a = count a \/ (2 ^ 64 <= count a * valueElementWidth (elementType a))%N.
Proof.
  unfold array_ok, elements. destruct (N.ltb_spec (count a * valueElementWidth (elementType a)) (2 ^ 64)) as [Hlt|];
    [|by right].
  intros H. left. destruct (elementType a) eqn:E; try done.
  all: try (destruct H as [_ H]; rewrite H, u64_small by exact Hlt; by apply N.div_mul).
  destruct H as [_ H]. by rewrite H, N2Nat.id.
Qed.

Lemma product_wraps dims : forall e e', e = u64 e' ->
  fold_left (fun e d => u64 (e * d)) dims e = u64 (fold_left N.mul dims e').
Proof.
  induction dims as [|d dims IH]; intros e e' ->; [done|]. cbn [fold_left]. apply IH.
  unfold u64, wrapU. by rewrite N.Div0.mul_mod_idemp_l.
Qed.

Lemma opened_declared file n lo r : opened file n lo r -> declared r.
Proof.
  intros [[_ _ X2 _ X4 _] _ _ _ _]. split.
  - intros key a Hk. apply array_elements. by apply (X4 key (VArray a)).
  - eapply Forall_impl; [exact X2|]. intros t (_ & Hn & _) Hlt.
    rewrite Hn, (product_wraps _ 1%N 1%N) by done. by apply u64_small.
Qed.

(** C19: Opening any file of fewer than 2^63 bytes reads no byte outside it.  It
    throws, or leaves an index in which every tensor has one to eight dimensions,
    the element count its shape and the byte size its type give it in 64-bit
    arithmetic - the product of the dimensions where that fits - and no placement;
    every array of the metadata holds the elements it declares, unless the byte size
    it declares is 2^64 or more; and the data section starts inside the file,
    aligned, behind the 24 bytes of the header and at least 32 per tensor.  The one
    undefined outcome is the division by a zero general.alignment.  (A count whose
    byte size wraps is accepted with less data than it declares:
    [array_count_wraps].) *)
Theorem open_safe (HP : Heap) path mapping r :
  (forall bytes, mapping = Ok bytes -> (size bytes < 2 ^ 63)%N) ->
  match open path mapping r with
  | (Returns tt, r') => (exists bytes n, mapping = Ok bytes /\
      opened bytes n (24 + 32 * N.of_nat n) r') /\ declared r'
  | (Throws _, _) => True
  | (Undefined, r') => _alignment r' = 0%N
  end.
Proof.
  intros Hsz. pose proof (open_correct HP path mapping r Hsz) as H.
  destruct (open path mapping r) as [[[]|e|] r']; [|done|done]. split; [done|].
  destruct H as (bytes & n & _ & H). by eapply opened_declared.
Qed.
End GgufProofs.
