(* ===== verification/GgufFormat.v ===== *)
(** * GGUF files are read back as they were written

    The format as an encoder, independent of the reader: integers little-endian,
    strings with a 64-bit length, values behind their type tag, the data section
    padded to the alignment.  [gguf_roundtrip]: opening an encoded content yields
    its metadata, its tensor index and its payload. *)

From Stdlib Require Import Ascii.
From Stdlib Require String.
From S2P Require Import Prelude Gguf GgufProofs.
Import GgufReader GgufProofs.

Module GgufFormat.

(** ** The encoder *)

Fixpoint le_bytes (w : nat) (n : N) : list ascii :=
  match w with 0 => [] | S w => ascii_of_N (n mod 256) :: le_bytes w (n / 256) end.

Definition unsigned (w : N) (z : Z) : N := Z.to_N (z mod 2 ^ Z.of_N w).

Definition enc_string (s : string) : list ascii :=
  le_bytes 8 (N.of_nat (String.length s)) ++ String.list_ascii_of_string s.

Definition enc_array (a : GgufArray) : list ascii :=
  le_bytes 4 (tag_of_valueType (elementType a)) ++ le_bytes 8 (count a) ++
  match elementType a with String => concat (map enc_string (strings a)) | _ => raw a end.

Definition enc_value (v : MetadataValue) : GgufValueType * list ascii :=
  match v with
  | VBool b => (Bool, le_bytes 1 (if b then 1 else 0))
  | VUInt8 n => (UInt8, le_bytes 1 n)
  | VInt8 z => (Int8, le_bytes 1 (unsigned 8 z))
  | VUInt16 n => (UInt16, le_bytes 2 n)
  | VInt16 z => (Int16, le_bytes 2 (unsigned 16 z))
  | VUInt32 n => (UInt32, le_bytes 4 n)
  | VInt32 z => (Int32, le_bytes 4 (unsigned 32 z))
  | VUInt64 n => (UInt64, le_bytes 8 n)
  | VInt64 z => (Int64, le_bytes 8 (unsigned 64 z))
  | VFloat32 n => (Float32, le_bytes 4 n)
  | VFloat64 n => (Float64, le_bytes 8 n)
  | VString s => (String, enc_string s)
  | VArray a => (Array, enc_array a)
  end.

Definition enc_meta (kv : string * MetadataValue) : list ascii :=
  enc_string (fst kv) ++ le_bytes 4 (tag_of_valueType (fst (enc_value (snd kv)))) ++
  snd (enc_value (snd kv)).

Definition enc_tensor (t : GgufTensor) : list ascii :=
  enc_string (name t) ++ le_bytes 4 (N.of_nat (length (dimensions t))) ++
  concat (map (le_bytes 8) (dimensions t)) ++
  le_bytes 4 (tag_of_ggmlType (type t)) ++ le_bytes 8 (fileOffset t).

(** What a file holds. *)
Record Content := mkContent {
  metas : list (string * MetadataValue);
  tens : list GgufTensor;
  payload : list ascii;
}.

(** The last entry of the right key and type counts. *)
Definition alignment (c : Content) : N :=
  fold_left (fun al kv => alignmentOf (fst kv) (snd kv) al) (metas c) 32%N.

Definition enc_index (c : Content) : list ascii :=
  le_bytes 4 kGgufMagic ++ le_bytes 4 3 ++ le_bytes 8 (N.of_nat (length (tens c))) ++
  le_bytes 8 (N.of_nat (length (metas c))) ++ concat (map enc_meta (metas c)) ++
  concat (map enc_tensor (tens c)).

Definition padding (c : Content) : N :=
  let p := N.of_nat (length (enc_index c)) in
  ((alignment c - p mod alignment c) mod alignment c)%N.

Definition enc_file (c : Content) : list ascii :=
  enc_index c ++ replicate (N.to_nat (padding c)) zero ++ payload c.

(** Values a file can hold. *)
Definition writable_value (v : MetadataValue) : Prop :=
  value_ok v /\
  match v with
  | VArray a => elementType a <> String -> (count a * valueElementWidth (elementType a) < 2 ^ 64)%N
  | _ => True
  end.

Definition writable (c : Content) : Prop :=
  Forall (fun kv => writable_value (snd kv)) (metas c) /\
  Forall (fun t => tensor_ok t /\ Forall (fun d => d < 2 ^ 64)%N (dimensions t) /\
            (fileOffset t < 2 ^ 64)%N) (tens c) /\
  (0 < alignment c)%N.

(** ** Integers *)

Lemma length_le_bytes w : forall n, length (le_bytes w n) = w.
Proof. induction w as [|w IH]; intros n; cbn; [done|by rewrite IH]. Qed.

Lemma le_le_bytes w : forall n, (n < 2 ^ (8 * N.of_nat w))%N -> le (le_bytes w n) = n.
Proof.
  induction w as [|w IH]; intros n Hn; cbn [le_bytes le].
  - change (n < 1)%N in Hn. lia.
  - replace (8 * N.of_nat (S w))%N with (8 + 8 * N.of_nat w)%N in Hn by lia.
    rewrite N.pow_add_r in Hn. change (2 ^ 8)%N with 256%N in Hn.
    rewrite IH by (apply N.Div0.div_lt_upper_bound; done).
    rewrite N_ascii_embedding by (apply N.mod_lt; done).
    rewrite N.add_comm, <- N.Div0.div_mod. done.
Qed.

Lemma unsigned_range w z : (unsigned w z < 2 ^ w)%N.
Proof.
  unfold unsigned. pose proof (Z.mod_pos_bound z (2 ^ Z.of_N w) ltac:(apply Z.pow_pos_nonneg; lia)) as H.
  apply N2Z.inj_lt. rewrite Z2N.id, N2Z.inj_pow by apply H. apply H.
Qed.

Lemma signed_unsigned w z : (0 < w)%N ->
  (- 2 ^ Z.of_N (w - 1) <= z < 2 ^ Z.of_N (w - 1))%Z -> signed w (unsigned w z) = z.
Proof.
  intros Hw Hz. unfold signed.
  assert (H2 : (2 ^ Z.of_N w = 2 * 2 ^ Z.of_N (w - 1))%Z).
  { rewrite <- Z.pow_succ_r by lia. f_equal. lia. }
  assert (H4 : (Z.of_N (2 ^ (w - 1)) = 2 ^ Z.of_N (w - 1))%Z) by (rewrite N2Z.inj_pow; done).
  pose proof (Z.mod_pos_bound z (2 ^ Z.of_N w) ltac:(apply Z.pow_pos_nonneg; lia)) as Hm.
  assert (Hu : Z.of_N (unsigned w z) = (z mod 2 ^ Z.of_N w)%Z) by (unfold unsigned; rewrite Z2N.id; lia).
  rewrite Hu. destruct (Z.leb_spec 0 z).
  - rewrite Z.mod_small in * by lia. destruct (N.ltb_spec (unsigned w z) (2 ^ (w - 1))); lia.
  - replace (z mod 2 ^ Z.of_N w)%Z with (z + 2 ^ Z.of_N w)%Z in *; [|
      rewrite <- (Z.mod_small (z + 2 ^ Z.of_N w) (2 ^ Z.of_N w)) by lia;
      rewrite <- (Z_mod_plus_full z 1 (2 ^ Z.of_N w)); f_equal; lia].
    destruct (N.ltb_spec (unsigned w z) (2 ^ (w - 1))); lia.
Qed.

(** ** Parsing a piece of the file *)

(** What the heap must serve to read [file]. *)
Definition heap_ok `{Heap} (file : list ascii) : Prop :=
  (0 < sizeof_string)%N /\ (0 < sizeof_tensor)%N /\
  ((sizeof_string + sizeof_tensor + 1) * size file < 2 ^ 63)%N /\
  forall n, (n <= (sizeof_string + sizeof_tensor + 1) * size file)%N -> grants n = true.

Section Parses.
Context {HP : Heap}.
Variable file : list ascii.
Hypothesis Hheap : heap_ok file.

(** Where the file holds [bs], [m] reads them, answers [a] and does [f] to the
    reader. *)
Definition parses {A} (m : M A) (bs : list ascii) (a : A) (f : GgufReader -> GgufReader) : Prop :=
  forall pre post s, file = pre ++ bs ++ post -> pos s = N.of_nat (length pre) ->
  m s = (Returns a, mkSt (f (rd s)) (pos s + N.of_nat (length bs))).

Lemma parses_short {A} (m : M A) bs a f :
  ((N.of_nat (length bs) <= size file)%N -> parses m bs a f) -> parses m bs a f.
Proof using Type.
  intros H pre post s Hf Hp. apply (H ltac:(unfold size; rewrite Hf, !length_app; lia) pre post s Hf Hp).
Qed.

Lemma parses_ret {A} (a : A) : parses (ret a) [] a (fun r => r).
Proof using Type. intros pre post [r p] Hf Hp. cbn. by rewrite N.add_0_r. Qed.

Lemma parses_modify f : parses (modify f) [] tt f.
Proof using Type. intros pre post [r p] Hf Hp. cbn. by rewrite N.add_0_r. Qed.

Lemma parses_bind {A B} (m : M A) (k : A -> M B) b1 b2 a b f1 f2 :
  parses m b1 a f1 -> parses (k a) b2 b f2 ->
  parses (bind m k) (b1 ++ b2) b (fun r => f2 (f1 r)).
Proof using Type.
  intros H1 H2 pre post s Hf Hp. unfold bind. rewrite <- app_assoc in Hf.
  rewrite (H1 pre (b2 ++ post) s Hf Hp).
  rewrite (H2 (pre ++ b1) post); cbn [rd pos].
  - rewrite length_app. do 2 f_equal. lia.
  - by rewrite <- app_assoc.
  - rewrite length_app. lia.
Qed.

Lemma parses_then {A B} (m : M A) (k : A -> M B) b1 b2 a b f :
  parses m b1 a (fun r => r) -> parses (k a) b2 b f -> parses (bind m k) (b1 ++ b2) b f.
Proof using Type. apply parses_bind. Qed.

(** A step that reads nothing. *)
Lemma parses_seq {A B} (m : M A) (k : A -> M B) b2 a b f2 :
  parses m [] a (fun r => r) -> parses (k a) b2 b f2 -> parses (bind m k) b2 b f2.
Proof using Type. apply parses_bind. Qed.

Lemma parses_ret_last {A B} (m : M A) (g : A -> B) bs a f :
  parses m bs a f -> parses (x <- m;; ret (g x)) bs (g a) f.
Proof using Type.
  intros H. rewrite <- (app_nil_r bs). apply (parses_bind m (fun x => ret (g x)) bs [] a (g a) f (fun r => r));
    [done|apply parses_ret].
Qed.

Lemma parses_reserve n w who : (0 < w)%N ->
  (n * w <= (sizeof_string + sizeof_tensor + 1) * size file)%N ->
  parses (reserve n w who) [] tt (fun r => r).
Proof using Hheap.
  intros Hw Hn. destruct Hheap as (H1 & H2 & H3 & H4). unfold reserve.
  rewrite (proj2 (N.ltb_ge _ _)) by (apply N.div_le_lower_bound; lia).
  rewrite H4 by done. apply parses_ret.
Qed.

Lemma parses_readBytes n bs : N.to_nat n = length bs -> parses (readBytes file n) bs bs (fun r => r).
Proof using Hheap.
  intros Hn pre post [r p] Hf Hp. cbn [pos rd] in *. destruct Hheap as (_ & _ & Hsz & _).
  assert (Hs : (p + n <= size file < 2 ^ 63)%N) by (unfold size in *; rewrite Hf, !length_app in *; lia).
  unfold readBytes, require, bind, getPos, ret, throw, memcpy, advance. cbn [pos rd].
  rewrite u64_small by lia. rewrite (proj2 (N.ltb_ge _ _)) by lia. cbn [pos rd].
  rewrite (proj2 (N.leb_le _ _)) by lia. cbn [pos rd]. rewrite u64_small by lia.
  rewrite Hp, Nat2N.id, Hf, drop_app_length, Hn, take_app_length.
  do 2 f_equal. lia.
Qed.

Lemma parses_read w n : (n < 2 ^ (8 * N.of_nat w))%N ->
  parses (read file (N.of_nat w)) (le_bytes w n) n (fun r => r).
Proof using Hheap.
  intros Hn. rewrite <- (le_le_bytes w n Hn) at 2. apply (parses_ret_last _ le).
  apply parses_readBytes. by rewrite Nat2N.id, length_le_bytes.
Qed.

Lemma length_enc_string s : length (enc_string s) = 8 + String.length s.
Proof using Type.
  unfold enc_string. rewrite length_app, length_le_bytes. f_equal.
  induction s as [|c s IH]; cbn; [done|by rewrite IH].
Qed.

Lemma parses_string s : parses (readString file) (enc_string s) s (fun r => r).
Proof using Hheap.
  apply parses_short. intros Hl. rewrite length_enc_string in Hl.
  destruct Hheap as (_ & _ & Hsz & _).
  unfold readString, enc_string. eapply parses_then; [apply (parses_read 8); cbn; lia|].
  intros pre post [r p] Hf Hp. cbn [pos rd] in *.
  assert (Hlen : length (String.list_ascii_of_string s) = String.length s)
    by (clear; induction s as [|c s IH]; cbn; [done|by rewrite IH]).
  assert (Hs : (p + N.of_nat (String.length s) <= size file < 2 ^ 63)%N)
    by (unfold size in *; rewrite Hf, !length_app in *; lia).
  unfold bind, getPos, ret, throw, memcpy, advance. cbn [pos rd].
  rewrite (proj2 (N.ltb_ge (size file) (N.of_nat (String.length s)))) by lia. cbn [orb].
  rewrite u64_small by lia. rewrite (proj2 (N.ltb_ge _ _)) by lia. cbn [pos rd].
  rewrite (proj2 (N.leb_le _ _)) by lia. cbn [pos rd]. rewrite u64_small by lia.
  rewrite Hp, !Nat2N.id, Hf, drop_app_length, <- Hlen, take_app_length.
  by rewrite String.string_of_list_ascii_of_string.
Qed.

(** A counted sequence. *)
Lemma parses_loop {X A} (enc : X -> list ascii) (step : A -> X -> A)
    (upd : X -> GgufReader -> GgufReader) (body : A -> M A) xs n : forall a,
  N.to_nat n = length xs ->
  (forall a x, x ∈ xs -> parses (body a) (enc x) (step a x) (upd x)) ->
  parses (loop n body a) (concat (map enc xs)) (fold_left step xs a)
    (fun r => fold_left (fun r x => upd x r) xs r).
Proof using Type.
  intros a Hn Hb. intros pre post s Hf Hp. rewrite loop_iter, Hn. clear n Hn.
  revert a pre s Hf Hp. induction xs as [|x xs IH]; intros a pre s Hf Hp.
  - exact (parses_ret a pre post s Hf Hp).
  - cbn [length iterM map concat fold_left] in *.
    assert (Hx : forall a0 y, y ∈ xs -> parses (body a0) (enc y) (step a0 y) (upd y))
      by (intros a0 y Hy; apply Hb; by right).
    unfold bind. rewrite <- app_assoc in Hf. rewrite (Hb a x ltac:(by left) pre _ s Hf Hp).
    rewrite (IH Hx (step a x) (pre ++ enc x)); cbn [rd pos].
    + rewrite length_app. do 2 f_equal. lia.
    + by rewrite <- app_assoc.
    + rewrite length_app. lia.
Qed.

Lemma tag_roundtrip t : (forall n, t <> OtherValue n) -> valueType_of_tag (tag_of_valueType t) = t.
Proof using Type. destruct t; try done. intros H. by destruct (H tag). Qed.

Lemma tag_range t : (forall n, t <> OtherValue n) -> (tag_of_valueType t < 2 ^ 32)%N.
Proof using Type. destruct t; try (intros; cbn; lia). intros H. by destruct (H tag). Qed.

Lemma snoc_fold {X} (xs : list X) : forall l, fold_left (fun ss s => ss ++ [s]) xs l = l ++ xs.
Proof using Type.
  induction xs as [|x xs IH]; intros l; cbn; [by rewrite app_nil_r|].
  by rewrite IH, <- app_assoc.
Qed.

Lemma fold_id {X} (xs : list X) (r : GgufReader) : fold_left (fun r _ => r) xs r = r.
Proof using Type. by induction xs. Qed.

(** [parses] up to the reader update's value. *)
Lemma parses_ext {A} (m : M A) bs a f g : (forall r, f r = g r) -> parses m bs a f -> parses m bs a g.
Proof using Type. intros Hfg H pre post s Hf Hp. rewrite (H pre post s Hf Hp). by rewrite Hfg. Qed.

Lemma length_concat_ge {X} (enc : X -> list ascii) k xs :
  (forall x, k <= length (enc x)) -> k * length xs <= length (concat (map enc xs)).
Proof using Type.
  intros H. induction xs as [|x xs IH]; cbn; [lia|]. rewrite length_app. specialize (H x). lia.
Qed.

(** A sequence of pure reads, collected. *)
Lemma parses_list {X} (enc : X -> list ascii) (rd1 : M X) xs n :
  N.to_nat n = length xs -> (forall x, x ∈ xs -> parses rd1 (enc x) x (fun r => r)) ->
  parses (loop n (fun ss => s <- rd1;; ret (ss ++ [s])) []) (concat (map enc xs)) xs (fun r => r).
Proof using Type.
  intros Hn Hx.
  eapply parses_ext; [|rewrite <- (app_nil_l xs) at 2; rewrite <- (snoc_fold xs []);
    apply (parses_loop enc (fun ss s => ss ++ [s]) (fun _ r => r)); [done|]].
  - intros r. apply fold_id.
  - intros ss x Hin. apply (parses_ret_last rd1 (fun s => ss ++ [s])). by apply Hx.
Qed.

Lemma parses_array a : writable_value (VArray a) ->
  parses (readArray file) (enc_array a) a (fun r => r).
Proof using Hheap.
  intros [Hok Hw]. cbn in Hok. apply parses_short. intros Hl. unfold enc_array in Hl.
  rewrite !length_app, !length_le_bytes in Hl. destruct Hheap as (H1 & H2 & H3 & _).
  assert (Hno : forall n, elementType a <> OtherValue n).
  { intros n E. unfold array_ok in Hok. by rewrite E in Hok. }
  assert (Hc : (count a < 2 ^ 64)%N /\ (elementType a = String -> (count a * sizeof_string <=
      (sizeof_string + sizeof_tensor + 1) * size file)%N)).
  { unfold array_ok in Hok. destruct (elementType a) eqn:E; try done.
    all: try (split; [|done]; specialize (Hw ltac:(done)); cbn in Hw; lia).
    destruct Hok as [_ Hn].
    pose proof (length_concat_ge enc_string 8 (strings a)) as Hge.
    specialize (Hge ltac:(intros x; rewrite length_enc_string; lia)).
    assert (Hcs : (count a <= size file)%N) by lia.
    split; [|intros _]; nia. }
  destruct Hc as [Hc Hcs]. unfold readArray, enc_array.
  eapply parses_then; [by apply (parses_read 4), tag_range|].
  eapply parses_then; [by apply (parses_read 8)|].
  rewrite tag_roundtrip by done. cbn zeta.
  assert (Hraw : elementType a <> String -> N.of_nat (length (raw a)) = (count a * valueElementWidth (elementType a))%N ->
    strings a = [] -> parses
      (reserve (u64 (count a * valueElementWidth (elementType a))) 1 "vector::_M_default_append";;;
       if (0 <? u64 (count a * valueElementWidth (elementType a)))%N then
         bs <- readBytes file (u64 (count a * valueElementWidth (elementType a)));;
         ret (mkArray (elementType a) (count a) bs [])
       else ret (mkArray (elementType a) (count a) [] [])) (raw a) a (fun r => r)).
  { intros Hns Hr Hs. rewrite u64_small by auto. rewrite <- Hr.
    assert (Hla : (N.of_nat (length (raw a)) <= size file)%N).
    { destruct (elementType a); try done; lia. }
    apply parses_seq with (a := tt); [apply parses_reserve; [done|nia]|].
    destruct a as [et c rw ss]. cbn in *. subst ss.
    destruct (N.ltb_spec 0 (N.of_nat (length rw))).
    - apply (parses_ret_last _ (fun bs => mkArray et c bs [])). apply parses_readBytes. lia.
    - destruct rw; [apply parses_ret|cbn in *; lia]. }
  unfold array_ok in Hok. destruct (elementType a) eqn:E; try done.
  all: try (destruct Hok as [Hs Hr]; rewrite u64_small in Hr by (apply Hw; done); by apply Hraw).
  destruct Hok as [Hr Hs]. destruct a as [et c rw ss]. cbn in *. subst et rw.
  apply parses_seq with (a := tt); [by apply parses_reserve; [..|apply Hcs]|].
  apply (parses_ret_last _ (fun ss => mkArray String c [] ss)).
  apply parses_list; [done|]. intros x _. by apply parses_string.
Qed.

Lemma parses_value v : writable_value v ->
  parses (readValue file (fst (enc_value v))) (snd (enc_value v)) v (fun r => r).
Proof using Hheap.
  intros Hv. destruct v; cbn [enc_value fst snd readValue]; destruct Hv as [Hok Hw]; cbn in Hok.
  - replace (VBool b) with (VBool (negb ((if b then 1 else 0) =? 0)%N)) by by destruct b.
    apply (parses_ret_last _ (fun n => VBool (negb (n =? 0)%N))).
    apply (parses_read 1). destruct b; cbn; lia.
  - by apply (parses_ret_last _ VUInt8), (parses_read 1).
  - rewrite <- (signed_unsigned 8 z) at 2 by done.
    apply (parses_ret_last _ (fun n => VInt8 (signed 8 n))), (parses_read 1), unsigned_range.
  - by apply (parses_ret_last _ VUInt16), (parses_read 2).
  - rewrite <- (signed_unsigned 16 z) at 2 by done.
    apply (parses_ret_last _ (fun n => VInt16 (signed 16 n))), (parses_read 2), unsigned_range.
  - by apply (parses_ret_last _ VUInt32), (parses_read 4).
  - rewrite <- (signed_unsigned 32 z) at 2 by done.
    apply (parses_ret_last _ (fun n => VInt32 (signed 32 n))), (parses_read 4), unsigned_range.
  - by apply (parses_ret_last _ VUInt64), (parses_read 8).
  - rewrite <- (signed_unsigned 64 z) at 2 by done.
    apply (parses_ret_last _ (fun n => VInt64 (signed 64 n))), (parses_read 8), unsigned_range.
  - by apply (parses_ret_last _ VFloat32), (parses_read 4).
  - by apply (parses_ret_last _ VFloat64), (parses_read 8).
  - by apply (parses_ret_last _ VString), parses_string.
  - apply (parses_ret_last _ VArray), parses_array. done.
Qed.

Lemma parses_last {A B} (m : M A) (k : A -> M B) bs a b f :
  parses m bs a (fun r => r) -> parses (k a) [] b f -> parses (bind m k) bs b f.
Proof using Type. intros H1 H2. rewrite <- (app_nil_r bs). by eapply parses_then. Qed.

Definition updMeta (kv : string * MetadataValue) (r : GgufReader) : GgufReader :=
  r <| _alignment := alignmentOf (fst kv) (snd kv) (_alignment r) |>
    <| _metadata := emplace (fst kv) (snd kv) (_metadata r) |>.

Lemma parses_meta kv : writable_value (snd kv) ->
  parses (readMetadata file) (enc_meta kv) tt (updMeta kv).
Proof using Hheap.
  intros Hv. unfold readMetadata, enc_meta.
  assert (Hno : forall n, fst (enc_value (snd kv)) <> OtherValue n) by (by destruct (snd kv)).
  eapply parses_then; [apply parses_string|].
  eapply parses_then; [by apply (parses_read 4), tag_range|].
  rewrite tag_roundtrip by done.
  eapply parses_last; [by apply parses_value|]. apply parses_modify.
Qed.

Lemma dims_fold ds : forall l n,
  fold_left (fun '(dims, nelem) dim => (dims ++ [dim], u64 (nelem * dim))) ds (l, n) =
  (l ++ ds, fold_left (fun e d => u64 (e * d)) ds n).
Proof using Type.
  induction ds as [|d ds IH]; intros l n; cbn; [by rewrite app_nil_r|].
  by rewrite IH, <- app_assoc.
Qed.

Definition updTensor (t : GgufTensor) (r : GgufReader) : GgufReader :=
  r <| _totalTensorBytes := u64 (_totalTensorBytes r + nbytes t) |>
    <| _tensors := _tensors r ++ [t] |>.

Lemma ggml_roundtrip t : (0 < blockSize (typeInfo t))%N ->
  ggmlType_of_tag (tag_of_ggmlType t) = t /\ (tag_of_ggmlType t < 2 ^ 32)%N.
Proof using Type. by destruct t. Qed.

Lemma parses_tensor t : tensor_ok t -> Forall (fun d => d < 2 ^ 64)%N (dimensions t) ->
  (fileOffset t < 2 ^ 64)%N -> parses (readTensor file) (enc_tensor t) tt (updTensor t).
Proof using Hheap.
  intros (Hd & Hne & Hnb & Hnz & Hp & Hci & Hco) Hds Hoff. unfold readTensor, enc_tensor.
  assert (Hty : (0 < blockSize (typeInfo (type t)))%N).
  { unfold bytesForTensor in Hnb. destruct (N.eqb_spec (blockSize (typeInfo (type t))) 0); [done|lia]. }
  destruct (ggml_roundtrip _ Hty) as [Ht1 Ht2].
  eapply parses_then; [apply parses_string|].
  eapply parses_then; [apply (parses_read 4); cbn; lia|].
  rewrite (proj2 (N.eqb_neq _ _)), (proj2 (N.ltb_ge _ _)) by lia. cbn [orb].
  eapply parses_then.
  { eapply parses_ext; [intros r; apply (fold_id (dimensions t))|].
    apply (parses_loop (le_bytes 8) (fun '(dims, nelem) dim => (dims ++ [dim], u64 (nelem * dim)))
             (fun _ r => r)); [by rewrite Nat2N.id|].
    intros [ds ne] d Hin. apply (parses_ret_last _ (fun dim => (ds ++ [dim], u64 (ne * dim)))).
    rewrite Forall_forall in Hds. by apply (parses_read 8), Hds. }
  rewrite dims_fold. cbn [fst snd app]. rewrite <- Hne.
  eapply parses_then; [by apply (parses_read 4)|].
  eapply parses_last; [by apply (parses_read 8)|]. rewrite Ht1, <- Hnb. cbn zeta.
  rewrite (proj2 (N.eqb_neq _ _)) by done.
  eapply parses_ext; [|apply parses_modify].
  intros r. unfold updTensor. destruct t; cbn in *. by subst.
Qed.

Lemma parses_step {A B} (m : M A) (k : A -> M B) bs a f pre post s :
  parses m bs a f -> file = pre ++ bs ++ post -> pos s = N.of_nat (length pre) ->
  bind m k s = k a (mkSt (f (rd s)) (N.of_nat (length (pre ++ bs)))).
Proof using Type.
  intros H Hf Hp. unfold bind. rewrite (H pre post s Hf Hp), length_app, Hp. do 3 f_equal. lia.
Qed.
End Parses.

(** ** The whole file *)

Lemma updMetas_spec ms : forall r,
  let r' := fold_left (fun r kv => updMeta kv r) ms r in
  _alignment r' = fold_left (fun al kv => alignmentOf (fst kv) (snd kv) al) ms (_alignment r) /\
  (forall k, _metadata r' !! k = match _metadata r !! k with
     | Some v => Some v | None => snd <$> find (fun kv => String.eqb (fst kv) k) ms end) /\
  _tensors r' = _tensors r /\ _version r' = _version r /\ _file r' = _file r /\
  _totalTensorBytes r' = _totalTensorBytes r.
Proof.
  induction ms as [|[k0 v0] ms IH]; intros r; cbn [fold_left find fst].
  { split; [done|]. split; [|done]. intros k. by destruct (_metadata r !! k). }
  destruct (IH (updMeta (k0, v0) r)) as (H1 & H2 & H3). cbn zeta in *.
  split; [exact H1|]. split; [|exact H3]. intros k. rewrite H2. cbn [updMeta fst snd].
  change (_metadata (updMeta (k0, v0) r)) with (emplace k0 v0 (_metadata r)). unfold emplace.
  destruct (_metadata r !! k0) eqn:E0; destruct (String.eqb_spec k0 k) as [->|Hne].
  - by rewrite E0.
  - done.
  - by rewrite lookup_insert_eq, E0.
  - by rewrite lookup_insert_ne.
Qed.

Lemma updTensors_spec ts : forall r,
  let r' := fold_left (fun r t => updTensor t r) ts r in
  _tensors r' = _tensors r ++ ts /\ _alignment r' = _alignment r /\ _metadata r' = _metadata r /\
  _version r' = _version r /\ _file r' = _file r.
Proof.
  induction ts as [|t ts IH]; intros r; cbn [fold_left]; [by rewrite app_nil_r|].
  destruct (IH (updTensor t r)) as (H1 & H2). cbn zeta in *.
  split; [|exact H2]. rewrite H1. cbn. by rewrite <- app_assoc.
Qed.

Section Encoded.
Context {HP : Heap}.
Variable c : Content.
Hypothesis Hw : writable c.
Hypothesis Hheap : heap_ok (enc_file c).

Lemma counts_fit : (N.of_nat (length (tens c)) * sizeof_tensor <=
    (sizeof_string + sizeof_tensor + 1) * size (enc_file c))%N /\
  (N.of_nat (length (tens c)) < 2 ^ 64)%N /\ (N.of_nat (length (metas c)) < 2 ^ 64)%N.
Proof using Hheap.
  destruct Hheap as (H1 & H2 & H3 & _).
  assert (Ht : 1 * length (tens c) <= length (concat (map enc_tensor (tens c)))).
  { apply length_concat_ge. intros t. unfold enc_tensor. rewrite length_app, length_enc_string. lia. }
  assert (Hm : 1 * length (metas c) <= length (concat (map enc_meta (metas c)))).
  { apply length_concat_ge. intros t. unfold enc_meta. rewrite length_app, length_enc_string. lia. }
  assert (Hs : length (concat (map enc_tensor (tens c))) + length (concat (map enc_meta (metas c))) <=
      length (enc_file c)).
  { unfold enc_file, enc_index. rewrite !length_app. lia. }
  unfold size in *. nia.
Qed.

(** The state behind the index. *)
Lemma parse_index path r0 :
  parse (enc_file c) path (mkSt r0 0) =
  alignData (enc_file c)
    (mkSt (fold_left (fun r t => updTensor t r) (tens c)
             (fold_left (fun r kv => updMeta kv r) (metas c) (r0 <| _version := 3%N |>)))
          (N.of_nat (length (enc_index c)))).
Proof using Hw Hheap.
  destruct Hw as (Hm & Ht & Ha). destruct counts_fit as (Hc1 & Hc2 & Hc3).
  set (b1 := le_bytes 4 kGgufMagic). set (b2 := le_bytes 4 3).
  set (b3 := le_bytes 8 (N.of_nat (length (tens c)))).
  set (b4 := le_bytes 8 (N.of_nat (length (metas c)))).
  set (b5 := concat (map enc_meta (metas c))). set (b6 := concat (map enc_tensor (tens c))).
  set (post := replicate (N.to_nat (padding c)) zero ++ payload c).
  assert (Hfile : enc_file c = b1 ++ b2 ++ b3 ++ b4 ++ b5 ++ b6 ++ post).
  { unfold enc_file, enc_index. by rewrite <- !app_assoc. }
  rewrite Forall_forall in Hm. rewrite Forall_forall in Ht. unfold parse.
  rewrite (parses_step (enc_file c) _ _ b1 kGgufMagic (fun r => r) [] (b2 ++ b3 ++ b4 ++ b5 ++ b6 ++ post));
    [|by apply (parses_read _ Hheap 4)|exact Hfile|done].
  rewrite N.eqb_refl. cbn [negb rd].
  rewrite (parses_step (enc_file c) _ _ b2 3%N (fun r => r) b1 (b3 ++ b4 ++ b5 ++ b6 ++ post));
    [|by apply (parses_read _ Hheap 4)|exact Hfile|done]. cbn [rd].
  unfold bind at 1, modify at 1. cbn [rd pos].
  rewrite (parses_step (enc_file c) _ _ b3 (N.of_nat (length (tens c))) (fun r => r) (b1 ++ b2)
      (b4 ++ b5 ++ b6 ++ post));
    [|by apply (parses_read _ Hheap 8)|by rewrite <- app_assoc|done]. cbn [rd].
  rewrite (parses_step (enc_file c) _ _ b4 (N.of_nat (length (metas c))) (fun r => r) ((b1 ++ b2) ++ b3)
      (b5 ++ b6 ++ post));
    [|by apply (parses_read _ Hheap 8)|by rewrite <- !app_assoc|done]. cbn [rd].
  rewrite (parses_step (enc_file c) _ _ b5 tt (fun r => fold_left (fun r kv => updMeta kv r) (metas c) r)
      (((b1 ++ b2) ++ b3) ++ b4) (b6 ++ post)); [| |by rewrite <- !app_assoc|done].
  2: { replace tt with (fold_left (fun _ _ => tt) (metas c) tt) at 2 by by destruct (fold_left _ _ _).
       apply (parses_loop _ enc_meta (fun _ _ => tt) updMeta); [by rewrite Nat2N.id|].
       intros [] kv Hin. by apply parses_meta, Hm. }
  cbn [rd].
  rewrite (parses_step (enc_file c) _ _ [] tt (fun r => r) ((((b1 ++ b2) ++ b3) ++ b4) ++ b5) (b6 ++ post));
    [|apply (parses_reserve _ Hheap); [apply Hheap|exact Hc1]|by rewrite <- !app_assoc|done].
  cbn [rd]. rewrite app_nil_r.
  rewrite (parses_step (enc_file c) _ _ b6 tt (fun r => fold_left (fun r t => updTensor t r) (tens c) r)
      ((((b1 ++ b2) ++ b3) ++ b4) ++ b5) post); [| |by rewrite <- !app_assoc|done].
  2: { replace tt with (fold_left (fun _ _ => tt) (tens c) tt) at 2 by by destruct (fold_left _ _ _).
       apply (parses_loop _ enc_tensor (fun _ _ => tt) updTensor); [by rewrite Nat2N.id|].
       intros [] t Hin. destruct (Ht t Hin) as (T1 & T2 & T3). by apply parses_tensor. }
  cbn [rd]. unfold enc_index. by rewrite <- !app_assoc.
Qed.
End Encoded.

(** C20: A file written after the format is read back: the alignment, the tensor
    index, the first entry of every metadata key, and behind the data offset the
    payload. *)
Theorem gguf_roundtrip (HP : Heap) c path r :
  writable c -> heap_ok (enc_file c) ->
  exists r', open path (Ok (enc_file c)) r = (Returns tt, r') /\
    _version r' = 3%N /\ _alignment r' = alignment c /\ _tensors r' = tens c /\
    (forall key, findMetadata r' key = snd <$> find (fun kv => String.eqb (fst kv) key) (metas c)) /\
    drop (N.to_nat (_tensorDataOffset r')) (enc_file c) = payload c /\
    _file r' = Some (enc_file c).
Proof.
  intros Hw Hheap. unfold open. rewrite parse_index by done.
  set (r1 := fold_left _ (metas c) _).
  destruct (updMetas_spec (metas c) (((close r) <| _file := Some (enc_file c) |>) <| _version := 3%N |>))
    as (M1 & M2 & M3 & M4 & M5 & _). fold r1 in M1, M2, M3, M4, M5.
  set (r2 := fold_left _ (tens c) r1).
  destruct (updTensors_spec (tens c) r1) as (T1 & T2 & T3 & T4 & T5). fold r2 in T1, T2, T3, T4, T5.
  assert (Hal : _alignment r2 = alignment c) by (by rewrite T2, M1).
  destruct Hw as (_ & _ & Ha). destruct Hheap as (_ & _ & Hsz & _).
  set (p := length (enc_index c)).
  assert (Hlen : length (enc_file c) = p + N.to_nat (padding c) + length (payload c)).
  { unfold enc_file. rewrite !length_app, length_replicate. unfold p. lia. }
  assert (Hoff : u64 (N.of_nat p + padding c) = (N.of_nat p + padding c)%N).
  { apply u64_small. unfold size in Hsz. lia. }
  assert (Hpad : ((alignment c - N.of_nat p mod alignment c) mod alignment c)%N = padding c) by done.
  assert (Hp : length (enc_index c) = p) by done. clearbody p.
  unfold alignData, bind, getPos, getReader, modify, throw, ret. cbn [rd pos]. rewrite Hal.
  rewrite (proj2 (N.eqb_neq _ _)) by lia. cbn [rd pos].
  rewrite Hpad, Hoff.
  change (_tensorDataOffset (r2 <| _tensorDataOffset := (N.of_nat p + padding c)%N |>))
    with (N.of_nat p + padding c)%N.
  rewrite (proj2 (N.ltb_ge (size (enc_file c)) _)) by (unfold size; rewrite Hlen; lia).
  eexists. split; [done|]. cbn -[u64 enc_file padding].
  split; [by rewrite T4, M4|]. split; [done|]. split; [by rewrite T1, M3|].
  split; [|split; [|by rewrite T5, M5]].
  - intros key. unfold findMetadata. cbn. rewrite T3, M2. done.
  - unfold enc_file. rewrite app_assoc.
    replace (N.to_nat (N.of_nat p + padding c)) with (length (enc_index c ++ replicate (N.to_nat (padding c)) zero)).
    + by rewrite drop_app_length.
    + rewrite length_app, length_replicate, Hp. lia.
Qed.

(** ** A concrete file *)

#[export] Instance demo_heap : Heap := {|
  sizeof_string := 32; sizeof_tensor := 200; grants := fun n => (n <? 2 ^ 40)%N |}.

Definition demo_tensor (nm : string) (dims : list N) (off : N) : GgufTensor :=
  mkTensor nm F32 dims (fold_left (fun e d => u64 (e * d)) dims 1%N)
    (4 * fold_left (fun e d => u64 (e * d)) dims 1%N) off 0 0 0.

Definition demo_content : Content := mkContent
  [("general.alignment", VUInt32 8); ("n_layer", VInt16 (-3));
   ("names", VArray (mkArray String 2 [] ["a"; "bc"]));
   ("scale", VArray (mkArray UInt16 2 (map ascii_of_nat [1; 2; 3; 4]) []));
   ("n_layer", VBool true)]
  [demo_tensor "w" [2; 1]%N 0; demo_tensor "b" [1]%N 8]
  (map ascii_of_nat [1; 2; 3; 4; 5; 6; 7; 8; 9; 10; 11; 12]).

Definition demo_file : list ascii := enc_file demo_content.

Lemma demo_writable : writable demo_content.
Proof.
  unfold demo_content, demo_tensor, writable, tensor_ok, writable_value.
  split; [|split; [|done]]; repeat constructor; cbn; try lia; done.
Qed.

Lemma demo_heap_ok (file : list ascii) : (size file < 2 ^ 20)%N -> heap_ok file.
Proof.
  intros Hs. unfold heap_ok. cbn [sizeof_string sizeof_tensor grants demo_heap].
  split; [lia|]. split; [lia|]. split; [lia|]. intros n Hn. apply N.ltb_lt. lia.
Qed.

Lemma gguf_roundtrip_witness : exists r',
  open "m.gguf" (Ok demo_file) newReader = (Returns tt, r') /\
  findMetadata r' "n_layer" = Some (VInt16 (-3)) /\ map name (_tensors r') = ["w"; "b"].
Proof.
  destruct (gguf_roundtrip demo_heap demo_content "m.gguf" newReader) as (r' & H1 & _ & _ & H2 & H3 & _).
  - apply demo_writable.
  - apply demo_heap_ok. vm_compute. reflexivity.
  - exists r'. split; [exact H1|]. split; [rewrite H3; reflexivity|rewrite H2; reflexivity].
Defined.

Lemma open_safe_witness : exists r' n,
  open "m.gguf" (Ok demo_file) newReader = (Returns tt, r') /\
  opened demo_file n (24 + 32 * N.of_nat n) r' /\ declared r'.
Proof.
  pose proof (open_safe demo_heap "m.gguf" (Ok demo_file) newReader) as H.
  destruct (open "m.gguf" (Ok demo_file) newReader) as [o r'] eqn:E.
  assert (Ho : o = Returns tt) by (vm_compute in E; by injection E as <- _). subst o.
  destruct H as [(bytes & n & [= <-] & Hn) Hd]; [intros bytes [= <-]; vm_compute; reflexivity|].
  exists r', n. split; [reflexivity|]. split; [exact Hn|exact Hd].
Defined.

(** An entry general.alignment of zero: a division by zero. *)
Definition zero_alignment_file : list ascii :=
  enc_index (mkContent [("general.alignment", VUInt32 0)] [] []).

Example zero_alignment_undefined :
  fst (open "m.gguf" (Ok zero_alignment_file) newReader) = Undefined.
Proof. vm_compute. reflexivity. Qed.

(** An array of 2^61 + 1 eight-byte elements is accepted with eight bytes of data,
    the product having wrapped. *)
Definition short_array : GgufArray :=
  mkArray UInt64 (2 ^ 61 + 1) (replicate 8 zero) [].

Example array_count_wraps :
  let '(o, r) := open "m.gguf" (Ok (enc_file (mkContent [("big", VArray short_array)] [] []))) newReader in
  o = Returns tt /\ findMetadata r "big" = Some (VArray short_array).
Proof. vm_compute. done. Qed.

(** The loader's own tensor type, documented as never read from a file, is. *)
Example nvfp4_tag_accepted :
  let t := mkTensor "w" NVFP4_TC [4]%N 4 2 0 0 0 0 in
  let '(o, r) := open "m.gguf" (Ok (enc_file (mkContent [] [t] []))) newReader in
  o = Returns tt /\ _tensors r = [t].
Proof. vm_compute. done. Qed.
End GgufFormat.
