(* ===== verification/GgufLoad.v ===== *)
(** * Loading the tensors of an opened file

    Models the three load paths of [GgufReader]: [loadTensors]
    ([src/src/core/gguf/GgufReader.cpp]) into device buffers,
    [loadTensorsIntoChunks] ([GgufReaderChunks.cpp]) and
    [loadTensorsIntoShmChunks] ([GgufReaderShmChunks.cpp]) into the chunks of
    [ChunkAllocator.v].  Memory is a map from addresses to bytes; the answers of the
    device and of the system calls are inputs, indexed by the allocation they
    answer. *)

From Stdlib Require Import Ascii.
From S2P Require Import Prelude Gguf GgufProofs GgufFormat ChunkAllocator.
Import GgufReader GgufProofs.

Module GgufLoad.

(** Address space. *)
Definition memory : Type := N -> ascii.

(** [memcpy] to address [p]. *)
Definition blit (m : memory) (p : N) (bs : list ascii) : memory := fun q =>
  if (p <=? q)%N then match bs !! N.to_nat (q - p) with Some b => b | None => m q end else m q.

Definition setUsmPtr (t : GgufTensor) (p : N) : GgufTensor :=
  mkTensor (name t) (type t) (dimensions t) (nelements t) (nbytes t) (fileOffset t) p
    (chunkIndex t) (chunkOffset t).

Definition setPlacement (t : GgufTensor) (a : Bump.Allocation) : GgufTensor :=
  mkTensor (name t) (type t) (dimensions t) (nelements t) (nbytes t) (fileOffset t)
    (Bump.ptr a) (Bump.chunkIndex a) (Bump.chunkOffset a).

(** The bytes of the file at [absOffset]; [None] outside it. *)
Definition fileBytes (file : list ascii) (absOffset n : N) : option (list ascii) :=
  if (absOffset + n <=? size file)%N
  then Some (take (N.to_nat n) (drop (N.to_nat absOffset) file)) else None.

Definition absOffset (r : GgufReader) (t : GgufTensor) : N := u64 (_tensorDataOffset r + fileOffset t).

(** ** Device buffers *)

(** What [ComputeOps] answers for one tensor: the buffer or the error of
    [allocate], and the error of [uploadHostBytes]. *)
Definition DeviceAnswer : Type := (exn + N) * option exn.

(** The loop of [loadTensors]: the tensors, the buffers and the uploads made.
    [src/src/core/gguf/GgufReader.cpp:295-324 GgufReader::loadTensors] *)
Fixpoint loadLoop (dev : nat -> DeviceAnswer) (r : GgufReader) (file : list ascii) (k : nat)
    (ts : list GgufTensor) : outcome unit * list GgufTensor * list N * list (N * list ascii) :=
  match ts with
  | [] => (Returns tt, [], [], [])
  | t :: ts' =>
      let off := absOffset r t in
      if (size file <? u64 (off + nbytes t))%N then
        (Throws (RuntimeError ("GgufReader::loadTensors: tensor data out of bounds for " +:+ name t)),
         ts, [], [])
      else
        match dev k with
        | (inl e, _) => (Throws e, ts, [], [])
        | (inr buf, up) =>
            match fileBytes file off (nbytes t), up with
            | None, _ => (Undefined, ts, [], [])
            | Some _, Some e => (Throws e, ts, [], [])
            | Some bs, None =>
                let '(o, ts', bufs, ups) := loadLoop dev r file (S k) ts' in
                (o, setUsmPtr t buf :: ts', buf :: bufs, (buf, bs) :: ups)
            end
        end
  end.

(** [src/src/core/gguf/GgufReader.cpp:270-342 GgufReader::loadTensors] *)
Definition loadTensors (dev : nat -> DeviceAnswer) (r : GgufReader)
    : outcome unit * GgufReader * list (N * list ascii) :=
  match _file r with
  | None => (Throws (RuntimeError "GgufReader::loadTensors: not open"), r, [])
  | Some file =>
      if _chunkLoaded r then
        (Throws (RuntimeError "GgufReader::loadTensors: reader already loaded via loadTensorsIntoChunks — mixing ownership regimes is not supported"), r, [])
      else
        match _tensorBuffers r with
        | _ :: _ => (Throws (RuntimeError "GgufReader::loadTensors: reader already loaded once — second call to loadTensors is not supported"), r, [])
        | [] =>
            let '(o, ts, bufs, ups) := loadLoop dev r file 0 (_tensors r) in
            let r := r <| _tensors := ts |> <| _tensorBuffers := bufs |> in
            (o, match o with Returns _ => r <| _file := None |> | _ => r end, ups)
        end
  end.

(** ** Chunks *)

Section Chunks.
Variable cls : string.
Variable Mem : Type.
(** The name in messages. *)
Variable who : string.

(** The system's answers where the [k]-th allocation opens a chunk. *)
Definition ChunkAnswer : Type := (string + (Mem * N)) * (string + (Mem * N)).

(** A tensor already loaded keeps its place.
    [src/src/core/gguf/GgufReaderShmChunks.cpp:53-86 GgufReader::loadTensorsIntoShmChunks] *)
Fixpoint chunkLoop (drv : nat -> ChunkAnswer) (r : GgufReader) (file : list ascii) (k : nat)
    (ts : list GgufTensor) (a : Bump.t Mem) (m : memory)
    : outcome unit * list GgufTensor * Bump.t Mem * memory :=
  match ts with
  | [] => (Returns tt, [], a, m)
  | t :: ts' =>
      if negb (usmPtr t =? 0)%N then
        let '(o, ts', a, m) := chunkLoop drv r file k ts' a m in (o, t :: ts', a, m)
      else
        let off := absOffset r t in
        if (size file <? u64 (off + nbytes t))%N then
          (Throws (RuntimeError ("GgufReader::" +:+ who +:+ ": tensor data out of bounds for " +:+ name t)),
           ts, a, m)
        else
          match Bump.allocate cls Mem (fst (drv k)) (snd (drv k)) (nbytes t) 64 a with
          | (Throw e, a) => (Throws e, ts, a, m)
          | (Ok al, a) =>
              let t := setPlacement t al in
              match fileBytes file off (nbytes t) with
              | None => (Undefined, t :: ts', a, m)
              | Some bs =>
                  let '(o, ts', a, m) := chunkLoop drv r file (S k) ts' a (blit m (usmPtr t) bs) in
                  (o, t :: ts', a, m)
              end
          end
  end.

(** [src/src/core/gguf/GgufReaderShmChunks.cpp:31-103 GgufReader::loadTensorsIntoShmChunks] *)
Definition loadIntoChunks (drv : nat -> ChunkAnswer) (r : GgufReader) (a : Bump.t Mem) (m : memory)
    : outcome unit * GgufReader * Bump.t Mem * memory :=
  match _file r with
  | None => (Throws (RuntimeError ("GgufReader::" +:+ who +:+ ": not open")), r, a, m)
  | Some file =>
      match _tensorBuffers r with
      | _ :: _ => (Throws (RuntimeError ("GgufReader::" +:+ who +:+
          ": reader already loaded via loadTensors — mixing ownership regimes is not supported")), r, a, m)
      | [] =>
          if _chunkLoaded r then (Returns tt, r, a, m)
          else
            let '(o, ts, a, m) := chunkLoop drv r file 0 (_tensors r) a m in
            let r := r <| _tensors := ts |> in
            (o, match o with Returns _ => r <| _chunkLoaded := true |> <| _file := None |> | _ => r end, a, m)
      end
  end.
End Chunks.

(** [src/src/core/gguf/GgufReaderShmChunks.cpp:31-103 GgufReader::loadTensorsIntoShmChunks] *)
Definition loadTensorsIntoShmChunks :
    (nat -> ChunkAnswer Z) -> GgufReader -> Bump.t Z -> memory ->
    outcome unit * GgufReader * Bump.t Z * memory :=
  loadIntoChunks "ShmChunkAllocator" Z "loadTensorsIntoShmChunks".

(** [src/src/core/gguf/GgufReaderChunks.cpp:29-106 GgufReader::loadTensorsIntoChunks] *)
Definition loadTensorsIntoChunks :
    (nat -> ChunkAnswer unit) -> GgufReader -> Bump.t unit -> memory ->
    outcome unit * GgufReader * Bump.t unit * memory :=
  loadIntoChunks "ChunkAllocator" unit "loadTensorsIntoChunks".

(** ** Memory *)

Lemma blit_in m p bs k b : bs !! k = Some b -> blit m p bs (p + N.of_nat k)%N = b.
Proof.
  intros Hb. unfold blit. rewrite (proj2 (N.leb_le _ _)) by lia.
  replace (N.to_nat (p + N.of_nat k - p)) with k by lia. by rewrite Hb.
Qed.

Lemma blit_out m p bs q : (q < p \/ p + N.of_nat (length bs) <= q)%N -> blit m p bs q = m q.
Proof.
  intros Hq. unfold blit. destruct (N.leb_spec p q); [|done].
  by rewrite (lookup_ge_None_2 bs) by lia.
Qed.

(** Regions that do not overlap. *)
Definition disj (x y : N * list ascii) : Prop :=
  (fst x + N.of_nat (length (snd x)) <= fst y \/ fst y + N.of_nat (length (snd y)) <= fst x)%N.

Definition blits (l : list (N * list ascii)) (m : memory) : memory :=
  fold_left (fun m x => blit m (fst x) (snd x)) l m.

Lemma blits_frame l q : forall m,
  Forall (fun x => q < fst x \/ fst x + N.of_nat (length (snd x)) <= q)%N l -> blits l m q = m q.
Proof.
  induction l as [|x l IH]; intros m H; [done|]. apply Forall_cons in H as [Hx Hl].
  cbn. unfold blits in IH. rewrite IH by done. by apply blit_out.
Qed.

(** Of non-overlapping writes each one lasts. *)
Lemma blits_read l : forall m, ForallOrdPairs disj l -> forall p bs k b,
  (p, bs) ∈ l -> bs !! k = Some b -> blits l m (p + N.of_nat k)%N = b.
Proof.
  induction l as [|x l IH]; intros m Hd p bs k b Hin Hb; [by apply not_elem_of_nil in Hin|].
  inversion Hd as [|? ? Hx Hl]; subst. apply elem_of_cons in Hin as [<-|Hin].
  - cbn. etrans; [apply blits_frame|by apply blit_in].
    eapply Forall_impl; [exact Hx|]. intros y Hy. unfold disj in Hy. cbn in Hy.
    apply lookup_lt_Some in Hb. lia.
  - cbn. by eapply IH.
Qed.

Lemma ForallOrdPairs_snoc {A} (R : A -> A -> Prop) (l : list A) (x : A) :
  ForallOrdPairs R l -> Forall (fun y => R y x) l -> ForallOrdPairs R (l ++ [x]).
Proof.
  intros Hl. induction Hl as [|y l Hy Hl IH]; intros Hx; cbn.
  - constructor; constructor.
  - apply Forall_cons in Hx as [Hyx Hx]. constructor; [|by apply IH].
    apply Forall_app. split; [done|]. by constructor.
Qed.

Lemma ForallOrdPairs_rev {A} (R : A -> A -> Prop) (l : list A) :
  (forall x y, R x y -> R y x) -> ForallOrdPairs R (rev l) -> ForallOrdPairs R l.
Proof.
  intros Hs H. rewrite <- (rev_involutive l). revert H. generalize (rev l). clear l. intros l Hl.
  induction Hl as [|y l Hy Hl IH]; cbn; [constructor|].
  apply ForallOrdPairs_snoc; [done|]. apply Forall_rev. eapply Forall_impl; [exact Hy|]. auto.
Qed.

(** ** The chunk loop as a run of the allocator *)

Section Exact.
Variable cls who : string.
Variable Mem : Type.
Variable drv : nat -> ChunkAnswer Mem.
Variable r : GgufReader.
Variable file : list ascii.
Hypothesis Hsize : (size file < 2 ^ 63)%N.

(** Offsets that do not wrap. *)
Definition nowrap (t : GgufTensor) : Prop := (_tensorDataOffset r + fileOffset t + nbytes t < 2 ^ 64)%N.

(** The tensor's bytes in the file. *)
Definition payloadOf (t : GgufTensor) : list ascii :=
  take (N.to_nat (nbytes t)) (drop (N.to_nat (_tensorDataOffset r + fileOffset t)) file).

Definition requests (k : nat) (ts : list GgufTensor) : list (Bump.Request Mem) :=
  imap (fun i t => Bump.mkRequest Mem (fst (drv (k + i))) (snd (drv (k + i))) (nbytes t) 64) ts.

(** Why a load stops. *)
Definition refusal (chunkBytes : N) (t : GgufTensor) : Prop :=
  (size file < _tensorDataOffset r + fileOffset t + nbytes t)%N \/ nbytes t = 0%N \/
  (chunkBytes < nbytes t)%N \/
  exists k e, fst (drv k) = inl e \/ snd (drv k) = inl e.

Lemma requests_cons k t ts :
  requests k (t :: ts) = Bump.mkRequest Mem (fst (drv k)) (snd (drv k)) (nbytes t) 64 :: requests (S k) ts.
Proof using Type.
  unfold requests. cbn [imap]. rewrite Nat.add_0_r. f_equal. apply imap_ext. intros i x _. cbn.
  by rewrite Nat.add_succ_r.
Qed.

Lemma chunkLoop_run ts : forall k a m ps,
  Bump.wf Mem a -> Forall (fun t => usmPtr t = 0%N /\ nowrap t) ts ->
  let '(o, ts', a', m') := chunkLoop cls Mem who drv r file k ts a m in
  match o with
  | Undefined => False
  | Throws _ => Exists (refusal (Bump._chunkBytes Mem a)) ts
  | Returns _ => exists als, length als = length ts /\
      Bump.run cls Mem (requests k ts) a ps = (rev (zip als (map nbytes ts)) ++ ps, a') /\
      ts' = zip_with setPlacement ts als /\
      m' = blits (zip (map Bump.ptr als) (map payloadOf ts)) m /\
      Forall (fun t => _tensorDataOffset r + fileOffset t + nbytes t <= size file)%N ts
  end.
Proof using Hsize.
  induction ts as [|t ts IH]; intros k a m ps Hw Hts; cbn [chunkLoop].
  { exists []. done. }
  apply Forall_cons in Hts as [[Hp Hn] Hts]. unfold nowrap in Hn.
  rewrite Hp, N.eqb_refl. cbn [negb]. unfold absOffset.
  rewrite (u64_small (_tensorDataOffset r + fileOffset t)), u64_small by lia.
  destruct (N.ltb_spec (size file) (_tensorDataOffset r + fileOffset t + nbytes t)) as [Hlt|Hle].
  { constructor. by left. }
  destruct (Bump.allocate cls Mem (fst (drv k)) (snd (drv k)) (nbytes t) 64 a) as [res a1] eqn:Ha.
  pose proof (Bump.allocate_correct cls Mem (fst (drv k)) (snd (drv k)) (nbytes t) 64 a Hw ltac:(lia)) as H.
  rewrite Ha in H. destruct H as (Hw1 & Hcb & H). destruct res as [al|e].
  2: { constructor. right. destruct H as ([[?|?]|[[e' ?]|[e' ?]]] & _); [by left|by right; left|..];
       right; right; exists k, e'; auto. }
  unfold fileBytes. cbn [nbytes setPlacement usmPtr]. rewrite (proj2 (N.leb_le _ _)) by done.
  specialize (IH (S k) a1 (blit m (Bump.ptr al) (payloadOf t)) ((al, nbytes t) :: ps) Hw1 Hts).
  rewrite Hcb in IH. unfold payloadOf in IH at 1.
  destruct (chunkLoop _ _ _ _ _ _ _ _ _ _) as [[[o ts'] a'] m'].
  destruct o as [u|e|]; [|by constructor 2|done].
  destruct IH as (als & H1 & H2 & -> & -> & H5). exists (al :: als).
  split; [by cbn; rewrite H1|]. split; [|split; [done|split; [done|by constructor]]].
  rewrite requests_cons. cbn [Bump.run Bump.drv1 Bump.drv2 Bump.bytes Bump.align]. rewrite Ha, H2.
  cbn. by rewrite <- app_assoc.
Qed.

(** The system maps chunks to disjoint address ranges. *)
Definition regions_apart (a : Bump.t Mem) : Prop :=
  forall i j c d, i <> j -> Bump._chunks Mem a !! i = Some c -> Bump._chunks Mem a !! j = Some d ->
  (Bump.base Mem c + Bump._chunkBytes Mem a <= Bump.base Mem d \/
   Bump.base Mem d + Bump._chunkBytes Mem a <= Bump.base Mem c)%N.

(** Placements that do not overlap in their chunks do not overlap in memory. *)
Lemma apart_disj a (x y : Bump.Allocation * N) bx by_ :
  Bump.wf Mem a -> (N.of_nat (length (Bump._chunks Mem a)) < 2 ^ 32)%N -> regions_apart a ->
  Bump.within Mem a x -> Bump.within Mem a y -> Bump.apart x y ->
  length bx = N.to_nat (snd x) -> length by_ = N.to_nat (snd y) ->
  disj (Bump.ptr (fst x), bx) (Bump.ptr (fst y), by_).
Proof using Hsize.
  intros Hw Hlen Hreg (i & c & Hi & Hc & Hu & Hp) (j & d & Hj & Hd & Hv & Hq) Hap Hx Hy.
  unfold disj. cbn [fst snd]. rewrite Hx, Hy, Hp, Hq, !N2Nat.id.
  destruct (decide (i = j)) as [->|Hne].
  - assert (d = c) as -> by congruence.
    destruct (Hap ltac:(congruence)); [left|right]; lia.
  - destruct Hw as [_ Hu'].
    pose proof (Forall_lookup_1 _ _ _ _ Hu' Hc). pose proof (Forall_lookup_1 _ _ _ _ Hu' Hd).
    cbn beta in *. destruct (Hreg i j c d Hne Hc Hd); [left|right]; lia.
Qed.

Lemma length_payloadOf t : (_tensorDataOffset r + fileOffset t + nbytes t <= size file)%N ->
  length (payloadOf t) = N.to_nat (nbytes t).
Proof using Hsize. intros H. unfold payloadOf. rewrite length_take, length_drop. unfold size in H. lia. Qed.

(** The writes of a load do not overlap. *)
Lemma writes_disjoint a ts als :
  Bump.wf Mem a -> (N.of_nat (length (Bump._chunks Mem a)) < 2 ^ 32)%N -> regions_apart a ->
  length als = length ts ->
  Forall (fun t => _tensorDataOffset r + fileOffset t + nbytes t <= size file)%N ts ->
  Forall (Bump.within Mem a) (zip als (map nbytes ts)) ->
  ForallOrdPairs Bump.apart (zip als (map nbytes ts)) ->
  ForallOrdPairs disj (zip (map Bump.ptr als) (map payloadOf ts)).
Proof using Hsize.
  intros Hw Hlen Hreg. revert ts. induction als as [|al als IH]; intros [|t ts] Hl Hts Hin Hap; try done;
    [constructor|].
  cbn in *. apply Forall_cons in Hts as [Ht Hts]. apply Forall_cons in Hin as [Hal Hin].
  inversion Hap as [|? ? Ha1 Ha2]; subst. constructor; [|apply IH; [lia|done..]].
  apply Forall_lookup_2. intros i [p bs] Hi.
  apply lookup_zip_Some in Hi as [Hi1 Hi2].
  rewrite list_lookup_fmap in Hi1. rewrite list_lookup_fmap in Hi2.
  destruct (als !! i) as [al'|] eqn:E1; [|done]. destruct (ts !! i) as [t'|] eqn:E2; [|done].
  cbn in Hi1, Hi2. injection Hi1 as <-. injection Hi2 as <-.
  assert (Hz : zip als (map nbytes ts) !! i = Some (al', nbytes t')).
  { apply lookup_zip_Some. split; [done|]. by rewrite list_lookup_fmap, E2. }
  apply (apart_disj a (al, nbytes t) (al', nbytes t')); try done.
  - exact (Forall_lookup_1 _ _ _ _ Hin Hz).
  - exact (Forall_lookup_1 _ _ _ _ Ha1 Hz).
  - by apply length_payloadOf.
  - apply length_payloadOf. exact (Forall_lookup_1 _ _ _ _ Hts E2).
Qed.

(** Where a loaded tensor ends up: in a chunk, with its bytes there. *)
Definition loaded (a : Bump.t Mem) (m : memory) (t t' : GgufTensor) : Prop :=
  exists al i c, t' = setPlacement t al /\ chunkIndex t' = u32 (N.of_nat i) /\
    Bump._chunks Mem a !! i = Some c /\ usmPtr t' = (Bump.base Mem c + chunkOffset t')%N /\
    (chunkOffset t' + nbytes t <= Bump.used Mem c)%N /\
    forall k, (k < nbytes t)%N ->
      Some (m (usmPtr t' + k)%N) = file !! N.to_nat (_tensorDataOffset r + fileOffset t + k).

Lemma blits_loaded a ts als m :
  length als = length ts ->
  Forall (fun t => _tensorDataOffset r + fileOffset t + nbytes t <= size file)%N ts ->
  Forall (Bump.within Mem a) (zip als (map nbytes ts)) ->
  ForallOrdPairs disj (zip (map Bump.ptr als) (map payloadOf ts)) ->
  Forall2 (loaded a (blits (zip (map Bump.ptr als) (map payloadOf ts)) m)) ts (zip_with setPlacement ts als).
Proof using Hsize.
  intros Hl Hts Hin Hd. apply Forall2_same_length_lookup_2; [rewrite length_zip_with; lia|].
  intros i t t' Ht Ht'. apply lookup_zip_with_Some in Ht' as (t0 & al & -> & Ht0 & Hal).
  rewrite Ht in Ht0. injection Ht0 as <-.
  assert (Hz : zip als (map nbytes ts) !! i = Some (al, nbytes t)).
  { apply lookup_zip_Some. split; [done|]. by rewrite list_lookup_fmap, Ht. }
  destruct (Forall_lookup_1 _ _ _ _ Hin Hz) as (j & c & H1 & H2 & H3 & H4). cbn [fst snd] in *.
  exists al, j, c. split; [done|]. split; [done|]. split; [done|]. split; [done|]. split; [done|].
  intros k Hk. cbn [usmPtr setPlacement].
  pose proof (Forall_lookup_1 _ _ _ _ Hts Ht) as Hb. cbn beta in Hb.
  assert (Hf : file !! N.to_nat (_tensorDataOffset r + fileOffset t + k) = payloadOf t !! N.to_nat k).
  { unfold payloadOf. rewrite lookup_take_lt, lookup_drop by lia. f_equal. lia. }
  rewrite Hf. destruct (payloadOf t !! N.to_nat k) as [b|] eqn:Eb.
  - f_equal. rewrite <- (N2Nat.id k). eapply blits_read; [exact Hd| |exact Eb].
    apply list_elem_of_lookup. exists i. apply lookup_zip_Some. rewrite !list_lookup_fmap, Hal, Ht. done.
  - apply lookup_ge_None in Eb. rewrite length_payloadOf in Eb by done. lia.
Qed.
End Exact.

Lemma chunk_load_correct cls who Mem (drv : nat -> ChunkAnswer Mem) r file n lo chunkBytes a m :
  (size file < 2 ^ 63)%N -> opened file n lo r -> Forall (nowrap r) (_tensors r) ->
  Bump.create cls Mem chunkBytes = Ok a -> (chunkBytes < 2 ^ 62)%N ->
  let '(o, r', a', m') := loadIntoChunks cls Mem who drv r a m in
  (N.of_nat (length (Bump._chunks Mem a')) < 2 ^ 32)%N -> regions_apart Mem a' ->
  match o with
  | Returns _ => _file r' = None /\ _chunkLoaded r' = true /\
      Forall2 (loaded Mem r file a' m') (_tensors r) (_tensors r')
  | Throws _ => _file r' = Some file /\ _chunkLoaded r' = false /\
      Exists (refusal Mem drv r file chunkBytes) (_tensors r)
  | Undefined => False
  end.
Proof.
  intros Hsz Hop Hnw Hc Hcb. destruct Hop as [[X1 _ X2 _ _ [X3 X4]] _ _ _ _].
  unfold loadIntoChunks. rewrite X1, X3, X4.
  assert (Hts : Forall (fun t => usmPtr t = 0%N /\ nowrap r t) (_tensors r)).
  { rewrite Forall_forall in X2, Hnw |- *. intros t Ht. split; [apply X2, Ht|by apply Hnw]. }
  assert (Hw : Bump.wf Mem a /\ Bump._chunkBytes Mem a = chunkBytes).
  { unfold Bump.create in Hc. destruct (N.ltb_spec chunkBytes 4096); [done|].
    destruct (negb _); [done|]. injection Hc as <-. split; [split; [cbn; lia|constructor]|done]. }
  destruct Hw as [Hw Hcb'].
  pose proof (chunkLoop_run cls who Mem drv r file Hsz (_tensors r) 0 a m [] Hw Hts) as H.
  destruct (chunkLoop _ _ _ _ _ _ _ _ _ _) as [[[o ts'] a'] m']. intros Hlen Hreg.
  destruct o as [u|e|]; [|by rewrite Hcb' in H|done].
  destruct H as (als & H1 & H2 & -> & -> & H5). rewrite app_nil_r in H2.
  destruct
    (Bump.run_apart cls Mem (requests Mem drv 0 (_tensors r)) a [] (rev (zip als (map nbytes (_tensors r)))) a' Hw) as (R1 & R2 & R3 & _);
    [|constructor|constructor|exact H2|exact Hlen|].
  { apply Forall_lookup_2. intros i x Hx. unfold requests in Hx. rewrite list_lookup_imap in Hx.
    destruct (_tensors r !! i); [|done]. injection Hx as <-. cbn. lia. }
  apply ForallOrdPairs_rev in R3; [|intros x y Hxy Heq; destruct (Hxy ltac:(done)); auto].
  apply Forall_rev in R2. rewrite rev_involutive in R2.
  split; [done|]. split; [done|]. cbn [_tensors].
  apply blits_loaded; [done..|]. eapply writes_disjoint; eauto.
Qed.

(** C21: Loading an opened file into fresh chunks copies every tensor exactly: each
    tensor keeps its description, gets a place of its own in a chunk, and the
    memory there holds its bytes of the file, untouched by the other copies; the
    file is closed.  A load that stops leaves the file open and has met a tensor
    that runs past the file or does not fit a chunk, or a refused system call.
    Hypotheses: offsets that do not wrap, and chunks mapped to disjoint addresses. *)
Theorem chunk_load_exact cls who Mem (drv : nat -> ChunkAnswer Mem) r file n lo chunkBytes a m :
  (size file < 2 ^ 63)%N -> opened file n lo r -> Forall (nowrap r) (_tensors r) ->
  Bump.create cls Mem chunkBytes = Ok a -> (chunkBytes < 2 ^ 62)%N ->
  let '(o, r', a', m') := loadIntoChunks cls Mem who drv r a m in
  (N.of_nat (length (Bump._chunks Mem a')) < 2 ^ 32)%N -> regions_apart Mem a' ->
  match o with
  | Returns _ => _file r' = None /\ _chunkLoaded r' = true /\
      Forall2 (loaded Mem r file a' m') (_tensors r) (_tensors r')
  | Throws _ => _file r' = Some file /\ _chunkLoaded r' = false /\
      Exists (refusal Mem drv r file chunkBytes) (_tensors r)
  | Undefined => False
  end.
Proof. apply chunk_load_correct. Qed.

(** ** Concrete loads *)

#[local] Existing Instance GgufFormat.demo_heap.

Definition demo_reader : GgufReader := snd (open "m.gguf" (Ok GgufFormat.demo_file) newReader).
Definition demo_drv (k : nat) : ChunkAnswer Z := (inr (3%Z, 4096%N), inr (9%Z, 65536%N)).
Definition demo_alloc : Bump.t Z := Bump.mkAlloc Z 4096 [] 0.
Definition blank : memory := fun _ => zero.

Lemma single_region cb c n : regions_apart Z (Bump.mkAlloc Z cb [c] n).
Proof. intros [|i] [|j] x y Hij Hx Hy; done. Qed.

Lemma demo_opened : exists n, opened GgufFormat.demo_file n (24 + 32 * N.of_nat n) demo_reader.
Proof.
  pose proof (open_correct GgufFormat.demo_heap "m.gguf" (Ok GgufFormat.demo_file) newReader) as H.
  assert (Hr : open "m.gguf" (Ok GgufFormat.demo_file) newReader = (Returns tt, demo_reader)).
  { unfold demo_reader. rewrite (surjective_pairing (open _ _ _)) at 1. f_equal. }
  rewrite Hr in H. destruct H as (bytes & n & [= <-] & Hn); [intros bytes [= <-]; vm_compute; reflexivity|].
  exists n. exact Hn.
Qed.

Lemma chunk_load_exact_witness :
  exists r' a' m', loadTensorsIntoShmChunks demo_drv demo_reader demo_alloc blank =
      (Returns tt, r', a', m') /\
    Forall2 (loaded Z demo_reader GgufFormat.demo_file a' m') (_tensors demo_reader) (_tensors r') /\
    List.map (fun t => (chunkIndex t, chunkOffset t)) (_tensors r') = [(0, 0); (0, 64)]%N.
Proof.
  destruct demo_opened as [n Hop].
  pose proof (chunk_load_exact "ShmChunkAllocator" "loadTensorsIntoShmChunks" Z demo_drv demo_reader
    GgufFormat.demo_file n (24 + 32 * N.of_nat n) 4096 demo_alloc blank) as H.
  unfold loadTensorsIntoShmChunks.
  destruct (loadIntoChunks "ShmChunkAllocator" Z "loadTensorsIntoShmChunks" demo_drv demo_reader
    demo_alloc blank) as [[[o r'] a'] m'] eqn:E.
  assert (Hv : (o, map (fun t => (chunkIndex t, chunkOffset t)) (_tensors r'), a') =
      (Returns tt, [(0, 0); (0, 64)]%N, Bump.mkAlloc Z 4096 [Bump.mkChunk Z 3%Z 4096 68] 12)).
  { transitivity (let '(o, r', a', _) := loadIntoChunks "ShmChunkAllocator" Z "loadTensorsIntoShmChunks"
      demo_drv demo_reader demo_alloc blank in (o, map (fun t => (chunkIndex t, chunkOffset t)) (_tensors r'), a'));
      [by rewrite E|vm_compute; reflexivity]. }
  injection Hv as -> Hp Ha. exists r', a', m'. split; [done|]. split; [|exact Hp].
  eapply H.
  - vm_compute. reflexivity.
  - exact Hop.
  - assert (Hb : forallb (fun t => _tensorDataOffset demo_reader + fileOffset t + nbytes t <? 2 ^ 64)%N
      (_tensors demo_reader) = true) by (vm_compute; reflexivity).
    apply Forall_forall. intros t Ht. apply N.ltb_lt.
    exact (proj1 (forallb_forall _ _) Hb t (proj1 (list_elem_of_In _ _) Ht)).
  - reflexivity.
  - reflexivity.
  - subst a'. cbn. lia.
  - subst a'. apply single_region.
Defined.

(** A tensor offset near 2^64 wraps past the end-of-file check, and the copy reads
    outside the file. *)
Definition wrapping_tensor : GgufTensor :=
  mkTensor "w" F32 [4]%N 4 16 (2 ^ 64 - 80) 0 0 0.

Example wrapping_offset_reads_outside :
  let '(o, r) := open "m.gguf" (Ok (GgufFormat.enc_file (GgufFormat.mkContent [] [wrapping_tensor] []))) newReader in
  o = Returns tt /\
  fst (fst (fst (loadTensorsIntoShmChunks demo_drv r demo_alloc blank))) = Undefined.
Proof. vm_compute. done. Qed.

(** A second load does not return: the first has closed the file. *)
Example second_load_throws :
  let '(o, r, a, m) := loadTensorsIntoShmChunks demo_drv demo_reader demo_alloc blank in
  o = Returns tt /\
  fst (fst (fst (loadTensorsIntoShmChunks demo_drv r a m))) =
    Throws (RuntimeError "GgufReader::loadTensorsIntoShmChunks: not open").
Proof. vm_compute. done. Qed.
End GgufLoad.
