(* ===== verification/UnixSocket.v ===== *)
(** * Frames over a Unix stream socket

    Models [src/src/core/ipc/UnixSocketFrame.{hpp,cpp}].  A socket direction is the
    sequence of bytes under way, each with the descriptors that were attached to
    it; what the kernel answers to each [sendmsg] and [recvmsg] is an input, so
    every partial transfer, interruption and failure is covered.  A call that waits
    for more than the kernel ever answers is [None]. *)

From Stdlib Require Import Ascii.
From stdpp Require Import pretty.
From S2P Require Import Prelude Gguf GgufFormat.

Module UnixSocketFrame.

(** What the kernel answers to one call: an errno, [EINTR] apart, or a count. *)
Inductive Answer :=
  | Interrupted
  | Failed (err : string)
  | Count (n : nat).

Definition Wire : Type := list (ascii * list Z).

(** [sendmsg] of [bs] with [fds]: they travel with the first byte. *)
Definition cells (bs : list ascii) (fds : list Z) : Wire :=
  match bs with [] => [] | b :: bs => (b, fds) :: map (fun b => (b, [])) bs end.

(** [src/src/core/ipc/UnixSocketFrame.hpp:21-24 Frame] *)
Record Frame := mkFrame {
  payload : list ascii;
  fds : list Z;
}.

(** [src/src/core/ipc/UnixSocketFrame.hpp:52-52 kMaxFdsPerFrame] *)
Definition kMaxFdsPerFrame : nat := 253.

(** [std::expected] with a text for the error. *)
Definition expected (A : Type) : Type := string + A.

(** [src/src/core/ipc/UnixSocketFrame.cpp:19-23 errnoTag] *)
Definition errnoTag (where_ err : string) : string := where_ +:+ ": " +:+ err.

(** [src/src/core/ipc/UnixSocketFrame.cpp:74-115 writeExactWithFds] *)
Fixpoint writeExactWithFds (script : list Answer) (src : list ascii) (fds : list Z)
    (controlAttached : bool) (w : Wire) : option (expected unit * list Answer * Wire) :=
  match src with
  | [] => Some (inr tt, script, w)
  | _ =>
      match script with
      | [] => None
      | Interrupted :: script => writeExactWithFds script src fds controlAttached w
      | Failed err :: script => Some (inl (errnoTag "sendmsg" err), script, w)
      | Count 0 :: script => Some (inl "sendmsg returned 0", script, w)
      | Count r :: script =>
          writeExactWithFds script (drop r src) fds true
            (w ++ cells (take r src) (if controlAttached then [] else fds))
      end
  end.

(** The bytes read so far, the descriptors harvested.
    [src/src/core/ipc/UnixSocketFrame.cpp:28-70 readExact] *)
Fixpoint readExact (script : list Answer) (n : nat) (dst : list ascii) (fds : list Z) (w : Wire)
    : option (expected (list ascii) * list Z * list Answer * Wire) :=
  match n with
  | 0 => Some (inr dst, fds, script, w)
  | _ =>
      match script with
      | [] => None
      | Interrupted :: script => readExact script n dst fds w
      | Failed err :: script => Some (inl (errnoTag "recvmsg" err), fds, script, w)
      | Count r :: script =>
          let got := take (Nat.min r n) w in
          match got with
          | [] => Some (inl "recvmsg: peer closed connection", fds, script, w)
          | _ =>
              readExact script (n - length got) (dst ++ map fst got) (fds ++ concat (map snd got))
                (drop (length got) w)
          end
      end
  end.

(** [src/src/core/ipc/UnixSocketFrame.cpp:119-145 UnixSocketFrame::send] *)
Definition send (script : list Answer) (payload : list ascii) (fds : list Z) (w : Wire)
    : option (expected unit * list Answer * Wire) :=
  if kMaxFdsPerFrame <? length fds then
    Some (inl ("send: fds.size()=" +:+ pretty (N.of_nat (length fds)) +:+ " exceeds SCM_MAX_FD=253"), script, w)
  else
    let lenLE := u32 (N.of_nat (length payload)) in
    match writeExactWithFds script (GgufFormat.le_bytes 4 lenLE) fds false w with
    | None => None
    | Some (inl e, script, w) => Some (inl e, script, w)
    | Some (inr _, script, w) =>
        if length payload =? 0 then Some (inr tt, script, w)
        else writeExactWithFds script payload [] false w
    end.

(** The frame, or the error with the descriptors that arrived and are dropped
    without being closed.
    [src/src/core/ipc/UnixSocketFrame.cpp:147-172 UnixSocketFrame::recv] *)
Definition recv (script : list Answer) (maxPayloadBytes : N) (w : Wire)
    : option ((string * list Z + Frame) * list Answer * Wire) :=
  match readExact script 4 [] [] w with
  | None => None
  | Some (inl e, fds, script, w) => Some (inl (e, fds), script, w)
  | Some (inr prefix, fds, script, w) =>
      let lenLE := GgufReader.le prefix in
      if (maxPayloadBytes <? lenLE)%N then
        Some (inl ("recv: frame length " +:+ pretty lenLE +:+ " exceeds max " +:+ pretty maxPayloadBytes, fds),
              script, w)
      else if (0 <? lenLE)%N then
        match readExact script (N.to_nat lenLE) [] fds w with
        | None => None
        | Some (inl e, fds, script, w) => Some (inl (e, fds), script, w)
        | Some (inr bytes, fds, script, w) => Some (inr (mkFrame bytes fds), script, w)
        end
      else Some (inr (mkFrame [] fds), script, w)
  end.

(** ** A kernel that keeps answering *)

(** The counts of a script. *)
Fixpoint progress (script : list Answer) : nat :=
  match script with [] => 0 | Count _ :: s => S (progress s) | _ :: s => progress s end.

(** No error, no zero count. *)
Definition healthy (script : list Answer) : Prop :=
  Forall (fun a => match a with Interrupted => True | Failed _ => False | Count n => 0 < n end) script.

Lemma cells_app bs bs' fds : bs <> [] -> cells (bs ++ bs') fds = cells bs fds ++ cells bs' [].
Proof.
  destruct bs as [|b bs]; [done|]. intros _. cbn. rewrite map_app. do 2 f_equal. by destruct bs'.
Qed.

Lemma length_cells bs fds : length (cells bs fds) = length bs.
Proof. destruct bs as [|b bs]; [done|]. cbn. by rewrite length_map. Qed.

Lemma fst_cells bs fds : map fst (cells bs fds) = bs.
Proof.
  destruct bs as [|b bs]; [done|]. cbn. f_equal. rewrite map_map. by rewrite map_id.
Qed.

Lemma concat_snd_nil bs : concat (map snd (cells bs ([] : list Z))) = [].
Proof. destruct bs as [|b bs]; [done|]. cbn. by induction bs. Qed.

Lemma concat_snd_cells bs fds : bs <> [] -> concat (map snd (cells bs fds)) = fds.
Proof.
  destruct bs as [|b bs]; [done|]. intros _. cbn. pose proof (concat_snd_nil (b :: bs)) as H. cbn in H.
  by rewrite H, app_nil_r.
Qed.

(** A write that the kernel does not fail is on the wire whole. *)
Lemma write_spec script : forall src fds attached w,
  healthy script -> length src <= progress script ->
  exists script', writeExactWithFds script src fds attached w =
    Some (inr tt, script', w ++ cells src (if attached then [] else fds)) /\
    healthy script' /\ progress script <= progress script' + length src.
Proof.
  induction script as [|a script IH]; intros src fds attached w Hh Hp; cbn [progress] in Hp.
  - destruct src; [|cbn in Hp; lia]. exists []. cbn. by rewrite app_nil_r.
  - destruct src as [|b src]; [exists (a :: script); cbn; rewrite app_nil_r; split; [done|]; split; [done|lia]|].
    apply Forall_cons in Hh as [Ha Hh]. destruct a as [|e|[|r]]; try (done || lia); cbn [writeExactWithFds].
    + by apply IH.
    + destruct (IH (drop (S r) (b :: src)) fds true (w ++ cells (take (S r) (b :: src)) (if attached then [] else fds)) Hh)
        as (script' & H1 & H2 & H3); [rewrite length_drop; cbn in *; lia|].
      exists script'. split; [|split; [done|rewrite length_drop in H3; cbn in *; lia]].
      cbn [drop take] in *. rewrite H1, <- app_assoc. do 3 f_equal.
      rewrite <- cells_app by done. cbn [app]. by rewrite take_drop.
Qed.

(** A read of what is there yields it and the descriptors that came with it. *)
Lemma read_spec script : forall got dst fds w,
  healthy script -> length got <= progress script ->
  exists script', readExact script (length got) dst fds (got ++ w) =
    Some (inr (dst ++ map fst got), fds ++ concat (map snd got), script', w) /\
    healthy script' /\ progress script <= progress script' + length got.
Proof.
  induction script as [|a script IH]; intros got dst fds w Hh Hp; cbn [progress] in Hp.
  - destruct got; [|cbn in Hp; lia]. exists []. cbn. by rewrite !app_nil_r.
  - destruct got as [|c got]; [exists (a :: script); cbn; rewrite !app_nil_r; split; [done|]; split; [done|lia]|].
    apply Forall_cons in Hh as [Ha Hh]. destruct a as [|e|[|r]]; try (done || lia); cbn [readExact length].
    + by apply (IH (c :: got)).
    + set (k := Nat.min (S r) (S (length got))).
      assert (Hk : 0 < k <= S (length got)) by (unfold k; lia).
      rewrite take_app_le by (cbn; lia).
      assert (Hl : length (take k (c :: got)) = k) by (rewrite length_take; cbn; lia).
      destruct (IH (drop k (c :: got)) (dst ++ map fst (take k (c :: got)))
        (fds ++ concat (map snd (take k (c :: got)))) w Hh) as (script' & H1 & H2 & H3);
        [rewrite length_drop; cbn in *; lia|].
      exists script'. split; [|split; [done|rewrite length_drop in H3; cbn in *; lia]].
      destruct (take k (c :: got)) as [|c' got'] eqn:E; [cbn in Hl; lia|]. rewrite <- E in *. rewrite Hl.
      rewrite drop_app_le by (cbn; lia).
      replace (S (length got) - k) with (length (drop k (c :: got))) by (rewrite length_drop; done).
      rewrite H1. rewrite <- !app_assoc. do 3 f_equal.
      * f_equal; f_equal.
        -- rewrite <- map_app, take_drop. done.
        -- f_equal. rewrite <- concat_app, <- map_app, take_drop. done.
Qed.

(** A frame on the wire. *)
Definition frameCells (f : Frame) : Wire :=
  cells (GgufFormat.le_bytes 4 (u32 (N.of_nat (length (payload f))))) (fds f) ++ cells (payload f) [].

(** Bytes of a frame, a bound on the calls it takes. *)
Definition cost (f : Frame) : nat := 4 + length (payload f).

Lemma send_spec script f w :
  healthy script -> cost f <= progress script -> length (fds f) <= kMaxFdsPerFrame ->
  exists script', send script (payload f) (fds f) w = Some (inr tt, script', w ++ frameCells f) /\
    healthy script' /\ progress script <= progress script' + cost f.
Proof.
  intros Hh Hp Hf. unfold send, cost in *. rewrite (proj2 (Nat.ltb_ge _ _)) by done.
  set (pre := GgufFormat.le_bytes 4 (u32 (N.of_nat (length (payload f))))).
  assert (Hl : length pre = 4) by apply GgufFormat.length_le_bytes.
  destruct (write_spec script pre (fds f) false w Hh ltac:(lia)) as (s1 & -> & H1 & H2).
  destruct (Nat.eqb_spec (length (payload f)) 0) as [Hz|Hz].
  - exists s1. unfold frameCells. fold pre. apply length_zero_iff_nil in Hz. rewrite Hz. cbn [cells].
    rewrite app_nil_r. split; [done|]. split; [done|]. cbn. lia.
  - destruct (write_spec s1 (payload f) [] false (w ++ cells pre (fds f)) H1 ltac:(lia)) as (s2 & -> & H3 & H4).
    exists s2. unfold frameCells. fold pre. rewrite app_assoc. split; [done|]. split; [done|]. lia.
Qed.

Lemma recv_spec script maxBytes f w :
  healthy script -> cost f <= progress script ->
  (N.of_nat (length (payload f)) < 2 ^ 32)%N -> (N.of_nat (length (payload f)) <= maxBytes)%N ->
  exists script', recv script maxBytes (frameCells f ++ w) = Some (inr f, script', w) /\
    healthy script' /\ progress script <= progress script' + cost f.
Proof.
  intros Hh Hp Hs Hm. unfold recv, cost in *. unfold frameCells. rewrite (u32_small (N.of_nat _)) by done.
  set (pre := GgufFormat.le_bytes 4 (N.of_nat (length (payload f)))).
  assert (Hl : length pre = 4) by apply GgufFormat.length_le_bytes.
  assert (Hne : pre <> []) by (intros E; rewrite E in Hl; done).
  rewrite <- app_assoc.
  destruct (read_spec script (cells pre (fds f)) [] [] (cells (payload f) [] ++ w) Hh)
    as (s1 & Hread & H1 & H2); [rewrite length_cells; lia|].
  rewrite length_cells, Hl in Hread, H2. rewrite Hread. cbn [app]. rewrite fst_cells, concat_snd_cells by done.
  unfold pre. rewrite GgufFormat.le_le_bytes by (cbn; lia).
  rewrite (proj2 (N.ltb_ge _ _)) by done. destruct f as [bs fs]. cbn [payload fds] in *.
  destruct (N.ltb_spec 0 (N.of_nat (length bs))) as [Hpos|Hz].
  - rewrite Nat2N.id.
    destruct (read_spec s1 (cells bs []) [] fs w H1) as (s2 & Hr2 & H3 & H4); [rewrite length_cells; lia|].
    rewrite length_cells in Hr2, H4. rewrite Hr2. cbn [app]. rewrite fst_cells, concat_snd_nil, app_nil_r.
    exists s2. split; [done|]. split; [done|]. lia.
  - destruct bs; [|cbn in Hz; lia]. exists s1. split; [done|]. split; [done|]. cbn. lia.
Qed.

(** ** Conversations *)

Fixpoint sendAll (script : list Answer) (fs : list Frame) (w : Wire)
    : option (expected unit * list Answer * Wire) :=
  match fs with
  | [] => Some (inr tt, script, w)
  | f :: fs =>
      match send script (payload f) (fds f) w with
      | Some (inr _, script, w) => sendAll script fs w
      | r => r
      end
  end.

Fixpoint recvAll (script : list Answer) (maxBytes : N) (n : nat) (w : Wire)
    : option (list Frame * Wire) :=
  match n with
  | 0 => Some ([], w)
  | S n =>
      match recv script maxBytes w with
      | Some (inr f, script, w) =>
          match recvAll script maxBytes n w with Some (fs, w) => Some (f :: fs, w) | None => None end
      | _ => None
      end
  end.

Definition costs (fs : list Frame) : nat := list_sum (map cost fs).

Lemma costs_cons f fs : costs (f :: fs) = cost f + costs fs.
Proof. done. Qed.

Lemma sendAll_spec fs : forall script w,
  healthy script -> costs fs <= progress script ->
  Forall (fun f => length (fds f) <= kMaxFdsPerFrame) fs ->
  exists script', sendAll script fs w = Some (inr tt, script', w ++ concat (map frameCells fs)).
Proof.
  induction fs as [|f fs IH]; intros script w Hh Hp Hf.
  - exists script. cbn. by rewrite app_nil_r.
  - apply Forall_cons in Hf as [Hf Hfs]. rewrite costs_cons in Hp.
    destruct (send_spec script f w Hh ltac:(lia) Hf) as (s1 & H1 & H2 & H3).
    destruct (IH s1 (w ++ frameCells f) H2 ltac:(lia) Hfs) as (s2 & H4).
    exists s2. cbn [sendAll map concat]. rewrite H1, H4. by rewrite app_assoc.
Qed.

Lemma recvAll_spec maxBytes fs : forall script w,
  healthy script -> costs fs <= progress script ->
  Forall (fun f => N.of_nat (length (payload f)) < 2 ^ 32 /\ N.of_nat (length (payload f)) <= maxBytes)%N fs ->
  recvAll script maxBytes (length fs) (concat (map frameCells fs) ++ w) = Some (fs, w).
Proof.
  induction fs as [|f fs IH]; intros script w Hh Hp Hf; [done|].
  apply Forall_cons in Hf as [[Hf1 Hf2] Hfs]. rewrite costs_cons in Hp.
  cbn [map concat length recvAll]. rewrite <- app_assoc.
  destruct (recv_spec script maxBytes f (concat (map frameCells fs) ++ w) Hh ltac:(lia) Hf1 Hf2) as (s1 & -> & H2 & H3).
  by rewrite IH by (done || lia).
Qed.

(** C22: Whatever partial transfers and interruptions the kernel answers on either
    side, a sequence of frames arrives frame by frame as it was sent: the same
    payloads with the same descriptors, in order, and nothing of what follows on
    the wire is consumed.  Hypotheses: no call fails, the kernel answers as often
    as there are bytes, at most 253 descriptors and fewer than 2^32 bytes a frame,
    within the receiver's limit. *)
Theorem frames_roundtrip sscript rscript maxBytes fs later :
  healthy sscript -> healthy rscript -> costs fs <= progress sscript -> costs fs <= progress rscript ->
  Forall (fun f => length (fds f) <= kMaxFdsPerFrame /\
    (N.of_nat (length (payload f)) < 2 ^ 32)%N /\ (N.of_nat (length (payload f)) <= maxBytes)%N) fs ->
  exists sscript' w, sendAll sscript fs [] = Some (inr tt, sscript', w) /\
    recvAll rscript maxBytes (length fs) (w ++ later) = Some (fs, later).
Proof.
  intros Hs Hr Hcs Hcr Hfs.
  destruct (sendAll_spec fs sscript [] Hs Hcs) as (s' & H); [by eapply Forall_impl; [exact Hfs|intros f (? & _)]|].
  exists s', (concat (map frameCells fs)). split; [exact H|].
  apply recvAll_spec; [done..|]. eapply Forall_impl; [exact Hfs|]. by intros f (_ & ?).
Qed.

Definition demo_frames : list Frame :=
  [mkFrame (map ascii_of_nat [1; 2; 3; 4; 5]) [7; 8]%Z; mkFrame [] []; mkFrame (map ascii_of_nat [9]) [3]%Z].
Definition demo_script : list Answer :=
  Interrupted :: Count 3 :: concat (replicate 20 [Count 1; Interrupted; Count 2]).

Lemma frames_roundtrip_witness :
  exists script' w, sendAll demo_script demo_frames [] = Some (inr tt, script', w) /\
    recvAll (rev demo_script) 16 3 (w ++ []) = Some (demo_frames, []).
Proof.
  apply (frames_roundtrip demo_script (rev demo_script) 16 demo_frames []).
  - unfold demo_script. cbn. repeat constructor.
  - unfold demo_script. cbn. repeat constructor.
  - vm_compute. lia.
  - vm_compute. lia.
  - unfold demo_frames. repeat constructor; cbn; unfold kMaxFdsPerFrame; lia.
Defined.

(** A payload of 2^32 bytes announces itself as empty: the length is cut to 32
    bits, and its bytes are read as the frames that follow. *)
Lemma long_payload_truncated sscript rscript maxBytes f :
  N.of_nat (length (payload f)) = (2 ^ 32)%N -> healthy sscript -> healthy rscript ->
  cost f <= progress sscript -> 4 <= progress rscript -> length (fds f) <= kMaxFdsPerFrame ->
  exists sscript' w rscript' rest, send sscript (payload f) (fds f) [] = Some (inr tt, sscript', w) /\
    recv rscript maxBytes w = Some (inr (mkFrame [] (fds f)), rscript', rest) /\ rest <> [].
Proof.
  intros Hlen Hs Hr Hc Hp Hf. destruct (send_spec sscript f [] Hs Hc Hf) as (s1 & H1 & _).
  destruct (recv_spec rscript maxBytes (mkFrame [] (fds f)) (cells (payload f) []) Hr) as (s2 & H2 & _);
    [done|cbn; lia|cbn; lia|].
  exists s1, (frameCells f), s2, (cells (payload f) []). split; [exact H1|]. split.
  - unfold frameCells in *. rewrite Hlen. cbn [payload fds cells] in H2. rewrite app_nil_r in H2. exact H2.
  - intros E. apply (f_equal length) in E. rewrite length_cells in E. cbn in E. rewrite E in Hlen. done.
Qed.

(** Descriptors that came with a frame the receiver refuses are dropped open. *)
Example refused_frame_leaks_descriptor :
  fst <$> (fst <$> recv (replicate 8 (Count 1)) 2 (frameCells (mkFrame (map ascii_of_nat [1; 2; 3]) [7]%Z))) =
  Some (inl ("recv: frame length 3 exceeds max 2", [7]%Z)).
Proof. vm_compute. reflexivity. Qed.
End UnixSocketFrame.
