(* ===== verification/Ipc.v ===== *)
(** * The wire of the model daemon

    Models [src/src/core/ipc/]: [TensorManifest], [WireOps], [ShmIpcExporter] and
    [ShmIpcImporter].  The JSON library is a parameter: a document is a [json]
    value, [dump] prints one (not at all where the library throws, a string that is
    not UTF-8), [parse] reads one back.  Objects keep their keys in the library's
    order; numbers other than unsigned integers are only passed through. *)

From Stdlib Require Import Ascii.
From stdpp Require Import pretty.
From S2P Require Import Prelude Gguf GgufFormat.

(** ** JSON values *)

#[warnings="-register-all"]
Inductive json :=
  | JNull
  | JBool (b : bool)
  | JUnsigned (n : N)
  | JOtherNumber (n : N)
  | JString (s : string)
  | JArray (l : list json)
  | JObject (l : list (string * json)).

(** [j[key] = v] on an object in the order of its keys. *)
Fixpoint setKey (k : string) (v : json) (l : list (string * json)) : list (string * json) :=
  match l with
  | [] => [(k, v)]
  | (k', v') :: l' =>
      match String.compare k k' with
      | Lt => (k, v) :: l
      | Eq => (k, v) :: l'
      | Gt => (k', v') :: setKey k v l'
      end
  end.

Definition mkObject (fields : list (string * json)) : json :=
  JObject (fold_left (fun o kv => setKey (fst kv) (snd kv) o) fields []).

(** [j.contains(key)], [j[key]] and [j.at(key)]. *)
Definition field (j : json) (key : string) : option json :=
  match j with JObject l => snd <$> find (fun kv => String.eqb (fst kv) key) l | _ => None end.

(** The library: printing, reading, the text of an error, and, of a number that is
    not unsigned, what an integer read makes of it (as 64 bits) and whether it is an
    integer. *)
Class Json := {
  dump : json -> option string;
  parse : string -> string + json;
  castNumber : N -> N;
  isInteger : N -> bool;
  atError : string -> string;
  typeError : string;
}.

(** [j.get<std::uint32_t>()], which takes booleans, and [j.get<std::uint64_t>()]. *)
Definition getU32 `{Json} (j : json) : string + N :=
  match j with
  | JUnsigned n => inr (u32 n)
  | JOtherNumber n => inr (u32 (castNumber n))
  | JBool b => inr (if b then 1%N else 0%N)
  | _ => inl typeError
  end.
Definition getU64 `{Json} (j : json) : string + N :=
  match j with
  | JUnsigned n => inr n
  | JOtherNumber n => inr (u64 (castNumber n))
  | _ => inl typeError
  end.
Definition getString `{Json} (j : json) : string + string :=
  match j with JString s => inr s | _ => inl typeError end.

Fixpoint getAll {A} (get : json -> string + A) (l : list json) : string + list A :=
  match l with
  | [] => inr []
  | j :: l =>
      match get j with
      | inl e => inl e
      | inr a => match getAll get l with inl e => inl e | inr r => inr (a :: r) end
      end
  end.
Definition getU64s `{Json} (j : json) : string + list N :=
  match j with JArray l => getAll getU64 l | _ => inl typeError end.

(** [j.at(key)] and a conversion. *)
Definition getAt `{Json} {A} (get : json -> string + A) (j : json) (key : string) : string + A :=
  match field j key with None => inl (atError key) | Some v => get v end.

(** Sequencing of [std::expected]. *)
Definition andThen {A B} (r : string + A) (f : A -> string + B) : string + B :=
  match r with inl e => inl e | inr a => f a end.
Notation "'let*' x := r 'in' k" := (andThen r (fun x => k))
  (at level 10, x pattern, r at level 100, k at level 200).

(** [catch (json::exception& x)] around a run of conversions. *)
Definition catching {A} (context : string) (r : string + A) : string + A :=
  match r with inl x => inl (context +:+ "field extraction failed: " +:+ x) | inr a => inr a end.

Definition require (b : bool) (msg : string) : string + unit := if b then inr tt else inl msg.
Definition isObject (j : json) : bool := match j with JObject _ => true | _ => false end.

Module TensorManifest.

(** [src/src/core/ipc/TensorManifest.hpp:26-29 ChunkDesc] *)
Record ChunkDesc := mkChunkDesc { cd_chunkIndex : N; cd_bytes : N }.

(** [src/src/core/ipc/TensorManifest.hpp:39-44 ShardDesc] *)
Record ShardDesc := mkShardDesc {
  sd_name : string; sd_chunkIndex : N; sd_chunkOffset : N; sd_bytes : N }.

(** [src/src/core/ipc/TensorManifest.hpp:54-62 ManifestEntry] *)
Record ManifestEntry := mkEntry {
  me_name : string; me_type : GgmlType; me_dims : list N; me_bytes : N;
  me_chunkIndex : N; me_chunkOffset : N }.

(** [src/src/core/ipc/TensorManifest.hpp:80-109 TensorManifest] *)
Record TensorManifest := mkManifest {
  protocolVersion : N;
  modelId : string;
  modelFingerprint : string;
  chunks : list ChunkDesc;
  format : string;
  tensors : list ManifestEntry;
  shards : list ShardDesc;
  declaredTotalSize : N;
}.

Definition kCurrentProtocolVersion : N := 2.

Definition chunkJson (c : ChunkDesc) : json :=
  mkObject [("chunk_index", JUnsigned (cd_chunkIndex c)); ("bytes", JUnsigned (cd_bytes c))].
Definition entryJson (t : ManifestEntry) : json :=
  mkObject [("name", JString (me_name t)); ("type_id", JUnsigned (tag_of_ggmlType (me_type t)));
    ("dims", JArray (map JUnsigned (me_dims t))); ("bytes", JUnsigned (me_bytes t));
    ("chunk_index", JUnsigned (me_chunkIndex t)); ("chunk_offset", JUnsigned (me_chunkOffset t))].
Definition shardJson (s : ShardDesc) : json :=
  mkObject [("name", JString (sd_name s)); ("chunk_index", JUnsigned (sd_chunkIndex s));
    ("chunk_offset", JUnsigned (sd_chunkOffset s)); ("bytes", JUnsigned (sd_bytes s))].

(** The document [toJson] prints.
    [src/src/core/ipc/TensorManifest.cpp:14-58 TensorManifest::toJson] *)
Definition document (m : TensorManifest) : json :=
  mkObject [("protocol_version", JUnsigned (protocolVersion m)); ("model_id", JString (modelId m));
    ("model_fingerprint", JString (modelFingerprint m)); ("chunks", JArray (map chunkJson (chunks m)));
    ("tensors", JArray (map entryJson (tensors m))); ("format", JString (format m));
    ("shards", JArray (map shardJson (shards m)));
    ("declared_total_size", JUnsigned (declaredTotalSize m))].

(** [src/src/core/ipc/TensorManifest.cpp:14-64 TensorManifest::toJson] *)
Definition toJson `{Json} (m : TensorManifest) : option string := dump (document m).

(** [src/src/core/ipc/TensorManifest.cpp:81-88 readField] *)
Definition readField (j : json) (key : string) : string + json :=
  match field j key with
  | None => inl ("TensorManifest: missing required field '" +:+ key +:+ "'")
  | Some v => inr v
  end.

Definition pos (what : string) (i : nat) : string :=
  "TensorManifest: " +:+ what +:+ "[" +:+ pretty (N.of_nat i) +:+ "]".

(** [src/src/core/ipc/TensorManifest.cpp:135-152 TensorManifest::fromJson] *)
Definition readChunk `{Json} (i : nat) (e : json) : string + ChunkDesc :=
  let* _ := require (isObject e) (pos "chunks" i +:+ " is not an object") in
  catching (pos "chunks" i +:+ ": ")
    (let* ci := getAt getU32 e "chunk_index" in
     let* b := getAt getU64 e "bytes" in
     inr (mkChunkDesc ci b)).

Definition checkChunk (what : string) (i : nat) (name : string) (ci : N) (nChunks : nat) : string + unit :=
  require (negb (N.of_nat nChunks <=? ci)%N)
    (pos what i +:+ " '" +:+ name +:+ "' references chunk_index=" +:+ pretty ci +:+
     " but manifest only declares " +:+ pretty (N.of_nat nChunks) +:+ " chunk(s)").

(** [src/src/core/ipc/TensorManifest.cpp:162-196 TensorManifest::fromJson] *)
Definition readEntry `{Json} (nChunks : nat) (i : nat) (e : json) : string + ManifestEntry :=
  let* _ := require (isObject e) (pos "tensors" i +:+ " is not an object") in
  let* me := catching (pos "tensors" i +:+ ": ")
    (let* nm := getAt getString e "name" in
     let* ty := getAt getU32 e "type_id" in
     let* ds := getAt getU64s e "dims" in
     let* b := getAt getU64 e "bytes" in
     let* ci := getAt getU32 e "chunk_index" in
     let* co := getAt getU64 e "chunk_offset" in
     inr (mkEntry nm (ggmlType_of_tag ty) ds b ci co)) in
  let* _ := checkChunk "tensors" i (me_name me) (me_chunkIndex me) nChunks in
  inr me.

(** [src/src/core/ipc/TensorManifest.cpp:218-245 TensorManifest::fromJson] *)
Definition readShard `{Json} (nChunks : nat) (i : nat) (e : json) : string + ShardDesc :=
  let* _ := require (isObject e) (pos "shards" i +:+ " is not an object") in
  let* sd := catching (pos "shards" i +:+ ": ")
    (let* nm := getAt getString e "name" in
     let* ci := getAt getU32 e "chunk_index" in
     let* co := getAt getU64 e "chunk_offset" in
     let* b := getAt getU64 e "bytes" in
     inr (mkShardDesc nm ci co b)) in
  let* _ := checkChunk "shards" i (sd_name sd) (sd_chunkIndex sd) nChunks in
  inr sd.

(** The loop over an array, with the index. *)
Fixpoint readAll {A} (read : nat -> json -> string + A) (i : nat) (l : list json) : string + list A :=
  match l with
  | [] => inr []
  | e :: l =>
      let* a := read i e in
      let* r := readAll read (S i) l in
      inr (a :: r)
  end.

Definition asArray (j : json) (msg : string) : string + list json :=
  match j with JArray l => inr l | _ => inl msg end.
Definition asString (j : json) (msg : string) : string + string :=
  match j with JString s => inr s | _ => inl msg end.
Definition asUnsigned (j : json) (msg : string) : string + N :=
  match j with JUnsigned n => inr n | _ => inl msg end.

(** An optional field.
    [src/src/core/ipc/TensorManifest.cpp:199-216 TensorManifest::fromJson] *)
Definition optionally {A} (j : json) (key : string) (dflt : A) (read : json -> string + A) : string + A :=
  match field j key with None => inr dflt | Some v => read v end.

(** [src/src/core/ipc/TensorManifest.cpp:66-248 TensorManifest::fromJson] *)
Definition fromJson `{Json} (s : string) : string + TensorManifest :=
  let* j := match parse s with
            | inl x => inl ("TensorManifest: JSON parse error: " +:+ x) | inr j => inr j end in
  let* _ := require (isObject j) "TensorManifest: root is not an object" in
  let* v := readField j "protocol_version" in
  let* ver := asUnsigned v "TensorManifest: protocol_version must be an unsigned integer" in
  let ver := u32 ver in
  let* _ := require (ver =? kCurrentProtocolVersion)%N
    ("TensorManifest: protocol_version=" +:+ pretty ver +:+ " does not match receiver's 2 — refusing to attach (rebuild Munin + mimirmind together)") in
  let* v := readField j "model_id" in
  let* mid := asString v "TensorManifest: model_id must be a string" in
  let* v := readField j "model_fingerprint" in
  let* fp := asString v "TensorManifest: model_fingerprint must be a string" in
  let* v := readField j "chunks" in
  let* arr := asArray v "TensorManifest: chunks must be an array" in
  let* cs := readAll readChunk 0 arr in
  let* v := readField j "tensors" in
  let* arr := asArray v "TensorManifest: tensors must be an array" in
  let* ts := readAll (readEntry (length cs)) 0 arr in
  let* fmt := optionally j "format" EmptyString
    (fun v => asString v "TensorManifest: format must be a string") in
  let* total := optionally j "declared_total_size" 0%N
    (fun v => asUnsigned v "TensorManifest: declared_total_size must be an unsigned integer") in
  let* ss := optionally j "shards" []
    (fun v => let* arr := asArray v "TensorManifest: shards must be an array" in
              readAll (readShard (length cs)) 0 arr) in
  inr (mkManifest ver mid fp cs fmt ts ss total).

(** ** What is sent is what is read *)

Definition chunk_ok (c : ChunkDesc) : Prop := (cd_chunkIndex c < 2 ^ 32)%N.
Definition entry_ok (n : nat) (t : ManifestEntry) : Prop :=
  ggmlType_of_tag (tag_of_ggmlType (me_type t)) = me_type t /\
  (tag_of_ggmlType (me_type t) < 2 ^ 32 /\ me_chunkIndex t < 2 ^ 32 /\ me_chunkIndex t < N.of_nat n)%N.
Definition shard_ok (n : nat) (s : ShardDesc) : Prop :=
  (sd_chunkIndex s < 2 ^ 32 /\ sd_chunkIndex s < N.of_nat n)%N.

(** A manifest a sender can hold: fields in range, references to its chunks. *)
Record manifest_ok (m : TensorManifest) : Prop := {
  mo_version : protocolVersion m = kCurrentProtocolVersion;
  mo_chunks : Forall chunk_ok (chunks m);
  mo_tensors : Forall (entry_ok (length (chunks m))) (tensors m);
  mo_shards : Forall (shard_ok (length (chunks m))) (shards m);
}.

Lemma getU64s_map `{Json} l : getU64s (JArray (map JUnsigned l)) = inr l.
Proof. cbn. induction l as [|n l IH]; [done|]. cbn. by rewrite IH. Qed.

(** The objects in the order of their keys. *)
Lemma chunkJson_eq c : chunkJson c =
  JObject [("bytes", JUnsigned (cd_bytes c)); ("chunk_index", JUnsigned (cd_chunkIndex c))].
Proof. reflexivity. Qed.

Lemma entryJson_eq t : entryJson t =
  JObject [("bytes", JUnsigned (me_bytes t)); ("chunk_index", JUnsigned (me_chunkIndex t));
    ("chunk_offset", JUnsigned (me_chunkOffset t)); ("dims", JArray (map JUnsigned (me_dims t)));
    ("name", JString (me_name t)); ("type_id", JUnsigned (tag_of_ggmlType (me_type t)))].
Proof. reflexivity. Qed.

Lemma shardJson_eq s : shardJson s =
  JObject [("bytes", JUnsigned (sd_bytes s)); ("chunk_index", JUnsigned (sd_chunkIndex s));
    ("chunk_offset", JUnsigned (sd_chunkOffset s)); ("name", JString (sd_name s))].
Proof. reflexivity. Qed.

Lemma document_eq m : document m =
  JObject [("chunks", JArray (map chunkJson (chunks m)));
    ("declared_total_size", JUnsigned (declaredTotalSize m)); ("format", JString (format m));
    ("model_fingerprint", JString (modelFingerprint m)); ("model_id", JString (modelId m));
    ("protocol_version", JUnsigned (protocolVersion m)); ("shards", JArray (map shardJson (shards m)));
    ("tensors", JArray (map entryJson (tensors m)))].
Proof. reflexivity. Qed.

Lemma readChunk_spec `{Json} i c : chunk_ok c -> readChunk i (chunkJson c) = inr c.
Proof. destruct c as [ci b]. unfold chunk_ok, readChunk, getAt. rewrite chunkJson_eq.
  cbn -[N.pow u32]. intros Hc. by rewrite u32_small. Qed.

Lemma readEntry_spec `{Json} n i t : entry_ok n t -> readEntry n i (entryJson t) = inr t.
Proof.
  destruct t as [nm ty ds b ci co]. unfold entry_ok. cbn [me_type me_chunkIndex]. intros (H1 & H2 & H3 & H4).
  unfold readEntry, getAt. rewrite entryJson_eq. cbn -[u32 tag_of_ggmlType ggmlType_of_tag N.leb N.pow getU64s checkChunk].
  rewrite getU64s_map. cbn -[u32 tag_of_ggmlType ggmlType_of_tag N.leb N.pow checkChunk].
  rewrite !u32_small, H1 by done. unfold checkChunk. by rewrite (proj2 (N.leb_gt _ _)).
Qed.

Lemma readShard_spec `{Json} n i s : shard_ok n s -> readShard n i (shardJson s) = inr s.
Proof.
  destruct s as [nm ci co b]. unfold shard_ok. cbn [sd_chunkIndex]. intros (H1 & H2).
  unfold readShard, getAt. rewrite shardJson_eq. cbn -[u32 N.leb N.pow checkChunk].
  rewrite u32_small by done. unfold checkChunk. cbn [sd_chunkIndex sd_name]. by rewrite (proj2 (N.leb_gt _ _)).
Qed.

Lemma readAll_spec {A} (read : nat -> json -> string + A) (print : A -> json) (P : A -> Prop) l :
  (forall i a, P a -> read i (print a) = inr a) -> Forall P l ->
  forall i, readAll read i (map print l) = inr l.
Proof.
  intros Hr Hl. induction Hl as [|a l Ha Hl IH]; intros i; [done|]. cbn. rewrite Hr by done. cbn. by rewrite IH.
Qed.

(** Reading the document back. *)
Lemma fromJson_document `{Json} m s :
  manifest_ok m -> parse s = inr (document m) -> fromJson s = inr m.
Proof.
  intros [H1 H2 H3 H4] Hp. unfold fromJson. rewrite Hp.
  destruct m as [ver mid fp cs fmt ts ss total]. cbn [protocolVersion chunks tensors shards] in *. subst ver.
  unfold readField, optionally. rewrite document_eq.
  cbn -[u32 readAll N.eqb pretty chunkJson entryJson shardJson].
  change (u32 kCurrentProtocolVersion =? kCurrentProtocolVersion)%N with true. cbn [require andThen].
  rewrite (readAll_spec readChunk chunkJson chunk_ok cs); [|apply readChunk_spec|done]. cbn [andThen].
  rewrite (readAll_spec (readEntry (length cs)) entryJson (entry_ok (length cs)) ts);
    [|apply readEntry_spec|done]. cbn [andThen].
  rewrite (readAll_spec (readShard (length cs)) shardJson (shard_ok (length cs)) ss);
    [|apply readShard_spec|done]. done.
Qed.
End TensorManifest.

(** ** Requests and answers *)

Module WireOps.

(** [src/src/core/ipc/WireOps.hpp:44-50 RequestEnvelope] *)
Record RequestEnvelope := mkRequest { op : string; modelId : string }.

(** [src/src/core/ipc/WireOps.hpp:52-57 ModelSummaryWire] *)
Record ModelSummaryWire := mkSummary {
  id : string; fingerprint : string; totalBytes : N; tensorCount : N }.

(** [src/src/core/ipc/WireOps.hpp:65-75 HealthzResponse] *)
Record HealthzResponse := mkHealthz {
  protocolVersion : N; status : string; governorOwner : string; pid : N;
  models : list ModelSummaryWire }.

(** [src/src/core/ipc/WireOps.cpp:12-45 RequestEnvelope::fromJson] *)
Definition requestFromJson `{Json} (s : string) : string + RequestEnvelope :=
  let* j := match parse s with
            | inl x => inl ("RequestEnvelope: JSON parse error: " +:+ x) | inr j => inr j end in
  let* _ := require (isObject j) "RequestEnvelope: root is not an object" in
  let* o := match field j "op" with
            | Some (JString o) => inr o
            | _ => inl "RequestEnvelope: missing required string field 'op'" end in
  match field j "modelId" with
  | None => inr (mkRequest o EmptyString)
  | Some (JString m) => inr (mkRequest o m)
  | Some _ => inl "RequestEnvelope: 'modelId' must be a string when present"
  end.

Definition summaryJson (m : ModelSummaryWire) : json :=
  mkObject [("id", JString (id m)); ("fingerprint", JString (fingerprint m));
    ("total_bytes", JUnsigned (totalBytes m)); ("tensor_count", JUnsigned (tensorCount m))].

Definition healthzDocument (r : HealthzResponse) : json :=
  mkObject [("protocol_version", JUnsigned (protocolVersion r)); ("status", JString (status r));
    ("governor_owner", JString (governorOwner r)); ("pid", JUnsigned (pid r));
    ("models", JArray (map summaryJson (models r)))].

(** [src/src/core/ipc/WireOps.cpp:47-66 HealthzResponse::toJson] *)
Definition healthzToJson `{Json} (r : HealthzResponse) : option string := dump (healthzDocument r).

Definition readSummary `{Json} (e : json) : string + ModelSummaryWire :=
  let* i := getAt getString e "id" in
  let* fp := getAt getString e "fingerprint" in
  let* tb := getAt getU64 e "total_bytes" in
  let* tc := getAt getU32 e "tensor_count" in
  inr (mkSummary i fp tb tc).

(** [src/src/core/ipc/WireOps.cpp:68-110 HealthzResponse::fromJson] *)
Definition healthzFromJson `{Json} (s : string) : string + HealthzResponse :=
  let* j := match parse s with
            | inl x => inl ("HealthzResponse: JSON parse error: " +:+ x) | inr j => inr j end in
  let* _ := require (isObject j) "HealthzResponse: root is not an object" in
  let* head := catching "HealthzResponse: "
    (let* v := getAt getU32 j "protocol_version" in
     let* st := getAt getString j "status" in
     let* go := getAt getString j "governor_owner" in
     let* p := getAt getU32 j "pid" in
     let* ms := getAt inr j "models" in
     inr (v, st, go, p, ms)) in
  let '(v, st, go, p, ms) := head in
  let* arr := match ms with
              | JArray l => inr l | _ => inl "HealthzResponse: 'models' must be an array" end in
  let* l := catching "HealthzResponse: " (getAll readSummary arr) in
  inr (mkHealthz v st go p l).

(** [src/src/core/ipc/WireOps.cpp:112-116 makeErrorJson] *)
Definition makeErrorJson `{Json} (message : string) : option string :=
  dump (mkObject [("error", JString message)]).

(** [src/src/core/ipc/WireOps.cpp:118-134 parseErrorJson] *)
Definition parseErrorJson `{Json} (s : string) : string + string :=
  let* j := match parse s with
            | inl x => inl ("parseErrorJson: JSON parse error: " +:+ x) | inr j => inr j end in
  match field j "error" with
  | Some (JString e) => inr e
  | _ => inl "parseErrorJson: no string 'error' field in envelope"
  end.
End WireOps.

(** ** Chunk handles *)

Module ShmIpc.

(** [src/src/core/ipc/IpcTransport.hpp:56-59 IpcHandle] *)
Record IpcHandle := mkHandle { bytes : list ascii; fd : Z }.

(** The first eight of the 64 bytes carry the length of the mapping.
    [src/src/core/ipc/ShmIpcExporter.cpp:15-40 ShmIpcExporter::exportChunk] *)
Definition exportChunk (memfds : list Z) (mapBytes : list N) (index : nat) : string + IpcHandle :=
  match memfds !! index, mapBytes !! index with
  | Some fd, Some mapLen =>
      if (fd <? 0)%Z then
        inl ("ShmIpcExporter: chunk[" +:+ pretty (N.of_nat index) +:+ "] has an invalid memfd")
      else inr (mkHandle (GgufFormat.le_bytes 8 mapLen ++ replicate 56 zero) fd)
  | _, _ =>
      inl ("ShmIpcExporter: chunk index " +:+ pretty (N.of_nat index) +:+ " out of range (" +:+
        pretty (N.of_nat (length memfds)) +:+ " memfd(s), " +:+ pretty (N.of_nat (length mapBytes)) +:+
        " size(s))")
  end.

(** The importer: its mappings, the descriptors it closed, what it unmapped. *)
Record Importer := mkImporter {
  _maps : gmap N N;
  closed : list Z;
  unmapped : list (N * N);
}.

(** [mm] is the kernel's answer to [mmap].
    [src/src/core/ipc/ShmIpcImporter.cpp:24-55 ShmIpcImporter::importChunk] *)
Definition importChunk (mm : string + N) (bytes : list ascii) (receivedFd : Z) (i : Importer)
    : (string + N) * Importer :=
  if (receivedFd <? 0)%Z then (inl "ShmIpcImporter: receivedFd is negative", i)
  else
    let mapLen := GgufReader.le (take 8 bytes) in
    if (mapLen =? 0)%N then (inl "ShmIpcImporter: handle declares a zero-length mapping", i)
    else
      match mm with
      | inl e => (inl ("ShmIpcImporter: mmap(len=" +:+ pretty mapLen +:+ ") failed: " +:+ e), i)
      | inr ptr =>
          (inr ptr, mkImporter (emplace ptr mapLen (_maps i)) (closed i ++ [receivedFd]) (unmapped i))
      end.

(** [src/src/core/ipc/ShmIpcImporter.cpp:57-67 ShmIpcImporter::closeChunk] *)
Definition closeChunk (ptr : N) (i : Importer) : Importer :=
  if (ptr =? 0)%N then i
  else
    match _maps i !! ptr with
    | None => i
    | Some len => mkImporter (delete ptr (_maps i)) (closed i) (unmapped i ++ [(ptr, len)])
    end.

(** [src/src/core/ipc/ShmIpcImporter.cpp:16-22 ShmIpcImporter] *)
Definition destroy (i : Importer) : Importer :=
  mkImporter ∅ (closed i) (unmapped i ++ map_to_list (_maps i)).

Lemma export_import memfds mapBytes index fd_ len ptr i :
  memfds !! index = Some fd_ -> mapBytes !! index = Some len -> (0 <= fd_)%Z -> (0 < len < 2 ^ 64)%N ->
  exists h, exportChunk memfds mapBytes index = inr h /\ fd h = fd_ /\ length (bytes h) = 64 /\
    importChunk (inr ptr) (bytes h) (fd h) i =
      (inr ptr, mkImporter (emplace ptr len (_maps i)) (closed i ++ [fd_]) (unmapped i)).
Proof.
  intros H1 H2 H3 H4. unfold exportChunk. rewrite H1, H2, (proj2 (Z.ltb_ge _ _)) by done.
  eexists. split; [done|]. split; [done|]. cbn [bytes fd].
  assert (Hl : length (GgufFormat.le_bytes 8 len) = 8) by apply GgufFormat.length_le_bytes.
  split; [rewrite length_app, Hl; done|]. unfold importChunk. rewrite (proj2 (Z.ltb_ge _ _)) by done.
  rewrite take_app_length' by done. rewrite GgufFormat.le_le_bytes by (cbn; lia).
  by rewrite (proj2 (N.eqb_neq _ _)) by lia.
Qed.
End ShmIpc.
