(* ===== verification/Munin.v ===== *)
(** * The models a daemon holds

    Models [src/src/munin/ShmLoadedModel.cpp], [src/src/munin/ShmModelStore.cpp] and
    [src/src/core/gguf/TensorFingerprint.cpp].  At start the daemon loads every
    configured model into shared chunks and keeps it under its id; its manifest says
    where each tensor or shard lies.  Files, system calls and the layout of an NVFP4
    checkpoint on disk are inputs; a descriptor is named by the file it refers to. *)

From Stdlib Require Import Ascii.
From Stdlib Require String.
From stdpp Require Import pretty.
From S2P Require Import Prelude PagedSequence Gguf GgufProofs GgufFormat ChunkAllocator GgufLoad Ipc.
Import GgufReader.

(** ** Fingerprints *)

Module Fingerprint.

(** [src/src/core/gguf/TensorFingerprint.cpp:19-25 fnvUpdate] *)
Definition fnvUpdate (h : N) (bs : list ascii) : N :=
  fold_left (fun h b => PagedKvSequence.fnv1aByte h (N_of_ascii b)) bs h.

Definition hexDigit (n : N) : ascii := if (n <? 10)%N then ascii_of_N (48 + n) else ascii_of_N (87 + n).

(** Sixteen lower-case hexadecimal digits.
    [src/src/core/gguf/TensorFingerprint.cpp:27-31 toHex64] *)
Definition toHex64 (v : N) : string :=
  String.string_of_list_ascii (map (fun i => hexDigit (N.shiftr v (4 * N.of_nat (15 - i)) mod 16)) (seq 0 16)).

Definition u64Bytes (n : N) : list ascii := GgufFormat.le_bytes 8 n.
Definition u32Bytes (n : N) : list ascii := GgufFormat.le_bytes 4 n.

(** What one tensor adds to the hash.
    [src/src/core/gguf/TensorFingerprint.cpp:53-66 tensorFingerprint] *)
Definition tensorBytes (t : GgufTensor) : list ascii :=
  String.list_ascii_of_string (name t) ++ u32Bytes (tag_of_ggmlType (type t)) ++
  u64Bytes (N.of_nat (length (dimensions t))) ++ concat (map u64Bytes (dimensions t)) ++
  u64Bytes (nbytes t) ++ u64Bytes (fileOffset t).

(** [src/src/core/gguf/TensorFingerprint.cpp:35-71 tensorFingerprint] *)
Definition tensorFingerprint (r : GgufReader) : string :=
  let h := fnvUpdate PagedKvSequence.kFnvBasis
    (u32Bytes (_version r) ++ u64Bytes (_alignment r) ++ u64Bytes (_tensorDataOffset r) ++
     u64Bytes (_totalTensorBytes r) ++ u64Bytes (N.of_nat (base.size (_metadata r))) ++
     u64Bytes (N.of_nat (length (_tensors r))) ++ concat (map tensorBytes (_tensors r))) in
  pretty (N.of_nat (length (_tensors r))) +:+ "." +:+ pretty (_totalTensorBytes r) +:+ "." +:+ toHex64 h.

(** [src/src/munin/ShmModelStore.cpp:35-44 fnv1aHex] *)
Definition fnv1aHex (s : string) : string :=
  toHex64 (fnvUpdate 1469598103934665603 (String.list_ascii_of_string s)).
End Fingerprint.

(** ** A loaded model *)

Module ShmLoadedModel.
Import TensorManifest.

(** [src/src/munin/ShmLoadedModel.hpp:33-62 ShmLoadedModel] *)
Record ShmLoadedModel := mkModel {
  id : string;
  path : string;
  fingerprint : string;
  totalBytes : N;
  chunks : option (Bump.t Z);
  reader : option GgufReader;
  isNvfp4 : bool;
  shards : list ShardDesc;
  declaredTotalSize : N;
}.

Definition chunkDescs (a : Bump.t Z) : list ChunkDesc :=
  map (fun i => mkChunkDesc (N.of_nat i) (Bump.chunkUsedBytes Z a (N.of_nat i)))
    (seq 0 (N.to_nat (Bump.chunkCount Z a))).

Definition entryOf (t : GgufTensor) : ManifestEntry :=
  mkEntry (name t) (type t) (dimensions t) (nbytes t) (chunkIndex t) (chunkOffset t).

(** [None] is a null reader dereferenced.
    [src/src/munin/ShmLoadedModel.cpp:10-53 ShmLoadedModel::buildManifest] *)
Definition buildManifest (lm : ShmLoadedModel) : option TensorManifest :=
  let cds := match chunks lm with Some a => chunkDescs a | None => [] end in
  if isNvfp4 lm then
    Some (mkManifest kCurrentProtocolVersion (id lm) (fingerprint lm) cds "nvfp4" []
            (shards lm) (declaredTotalSize lm))
  else
    match reader lm with
    | None => None
    | Some r => Some (mkManifest kCurrentProtocolVersion (id lm) (fingerprint lm) cds EmptyString
                        (map entryOf (_tensors r)) [] 0)
    end.
End ShmLoadedModel.

(** ** The store *)

Module ShmModelStore.
Import GgufLoad ShmLoadedModel.

Inductive ModelFormat := Auto | GgufFile | Nvfp4.

(** The fields of a configuration entry the store reads. *)
Record ModelEntry := mkModelEntry { e_id : string; e_path : string; e_format : ModelFormat; loadOnStart : bool }.

(** [src/src/munin/ShmModelStore.cpp:56-63 NvfpLayout] *)
Record ShardFile := mkShardFile { s_name : string; s_full : string; s_size : string + N; s_file : result (list ascii) }.

(** The world outside for one entry: whether its path is a directory, the mapped
    file, the answers where chunks open, the shards of a checkpoint with its
    declared size. *)
Record World := mkWorld {
  w_isDir : bool;
  w_file : result (list ascii);
  w_drv : nat -> ChunkAnswer Z;
  w_layout : result (list ShardFile * N);
}.

(** [src/src/munin/ShmModelStore.cpp:49-54 wantNvfp4] *)
Definition wantNvfp4 (m : ModelEntry) (w : World) : bool :=
  match e_format m with Nvfp4 => true | GgufFile => false | Auto => w_isDir w end.

(** [src/src/munin/ShmModelStore.cpp:105-108 alignUp4k] *)
Definition alignUp4k (v : N) : N := N.ldiff (u64 (v + 4096 - 1)) (4096 - 1).

(** The largest shard, or the first that cannot be measured.
    [src/src/munin/ShmModelStore.cpp:116-126 loadNvfp4Into] *)
Fixpoint maxShard (acc : N) (l : list ShardFile) : result N :=
  match l with
  | [] => Ok acc
  | s :: l =>
      match s_size s with
      | inl e => Throw (RuntimeError ("ShmModelStore: cannot stat shard '" +:+ s_full s +:+ "': " +:+ e))
      | inr n => maxShard (if (acc <? n)%N then n else acc) l
      end
  end.

(** The copy of the shards: descriptions, total, text of the fingerprint.
    [src/src/munin/ShmModelStore.cpp:131-151 loadNvfp4Into] *)
Fixpoint copyShards (drv : nat -> ChunkAnswer Z) (k : nat) (l : list ShardFile)
    (acc : list TensorManifest.ShardDesc * N * string) (a : Bump.t Z) (m : memory)
    : result (list TensorManifest.ShardDesc * N * string) * Bump.t Z * memory :=
  match l with
  | [] => (Ok acc, a, m)
  | s :: l =>
      match s_file s with
      | Throw e => (Throw e, a, m)
      | Ok bytes =>
          let n := N.of_nat (length bytes) in
          match ShmChunkAllocator.allocate (fst (drv k)) (snd (drv k)) n 64 a with
          | (Throw e, a) => (Throw e, a, m)
          | (Ok al, a) =>
              let '(sds, total, fp) := acc in
              copyShards drv (S k) l
                (sds ++ [TensorManifest.mkShardDesc (s_name s) (Bump.chunkIndex al) (Bump.chunkOffset al) n],
                 u64 (total + n), fp +:+ s_name s +:+ ":" +:+ pretty n +:+ ";")
                a (blit m (Bump.ptr al) bytes)
          end
      end
  end.

(** [src/src/munin/ShmModelStore.cpp:113-157 loadNvfp4Into] *)
Definition loadNvfp4Into (m : ModelEntry) (w : World) (mem : memory) : result ShmLoadedModel * memory :=
  match w_layout w with
  | Throw e => (Throw e, mem)
  | Ok (files, declared) =>
      match maxShard 4096 files with
      | Throw e => (Throw e, mem)
      | Ok mx =>
          match ShmChunkAllocator.create (alignUp4k mx) with
          | Throw e => (Throw e, mem)
          | Ok a =>
              match copyShards (w_drv w) 0 files ([], 0%N, EmptyString) a mem with
              | (Throw e, _, mem) => (Throw e, mem)
              | (Ok (sds, total, fp), a, mem) =>
                  (Ok (mkModel (e_id m) (e_path m)
                         ("nvfp4:" +:+ Fingerprint.fnv1aHex (fp +:+ "total:" +:+ pretty declared))
                         total (Some a) None true sds declared), mem)
              end
          end
      end
  end.

(** [src/src/munin/ShmModelStore.cpp:160-167 loadGgufInto] *)
Definition loadGgufInto `{Heap} (m : ModelEntry) (w : World) (chunkBytes : N) (mem : memory)
    : outcome ShmLoadedModel * memory :=
  match ShmChunkAllocator.create chunkBytes with
  | Throw e => (Throws e, mem)
  | Ok a =>
      match open (e_path m) (w_file w) newReader with
      | (Throws e, _) => (Throws e, mem)
      | (Undefined, _) => (Undefined, mem)
      | (Returns _, r) =>
          match loadTensorsIntoShmChunks (w_drv w) r a mem with
          | (Throws e, _, _, mem) => (Throws e, mem)
          | (Undefined, _, _, mem) => (Undefined, mem)
          | (Returns _, r, a, mem) =>
              (Returns (mkModel (e_id m) (e_path m) (Fingerprint.tensorFingerprint r)
                          (_totalTensorBytes r) (Some a) (Some r) false [] 0), mem)
          end
      end
  end.

(** [src/src/munin/ShmModelStore.hpp:66-70 ShmModelStore] *)
Definition Store : Type := gmap string ShmLoadedModel.

(** The loop of the constructor, with the number of models loaded.
    [src/src/munin/ShmModelStore.cpp:174-215 ShmModelStore::ShmModelStore] *)
Fixpoint loadModels `{Heap} (chunkBytes : N) (ms : list (ModelEntry * World)) (store : Store)
    (loaded : nat) (mem : memory) : outcome (Store * nat) * memory :=
  match ms with
  | [] => (Returns (store, loaded), mem)
  | (m, w) :: ms =>
      if negb (loadOnStart m) then loadModels chunkBytes ms store loaded mem
      else if String.eqb (e_id m) EmptyString || String.eqb (e_path m) EmptyString then
        (Throws (RuntimeError ("ShmModelStore: model entry with loadOnStart:true has empty id or path (id='"
           +:+ e_id m +:+ "', path='" +:+ e_path m +:+ "')")), mem)
      else if bool_decide (is_Some (store !! e_id m)) then
        (Throws (RuntimeError ("ShmModelStore: duplicate model id '" +:+ e_id m +:+
           "' — every loadable entry must have a unique id")), mem)
      else
        let '(o, mem) :=
          if wantNvfp4 m w then
            match loadNvfp4Into m w mem with
            | (Ok lm, mem) => (Returns lm, mem) | (Throw e, mem) => (Throws e, mem) end
          else loadGgufInto m w chunkBytes mem in
        match o with
        | Throws e => (Throws e, mem)
        | Undefined => (Undefined, mem)
        | Returns lm => loadModels chunkBytes ms (emplace (e_id m) lm store) (S loaded) mem
        end
  end.

(** [src/src/munin/ShmModelStore.cpp:171-222 ShmModelStore::ShmModelStore] *)
Definition create `{Heap} (chunkBytes : N) (ms : list (ModelEntry * World)) (mem : memory)
    : outcome Store * memory :=
  match loadModels chunkBytes ms ∅ 0 mem with
  | (Throws e, mem) => (Throws e, mem)
  | (Undefined, mem) => (Undefined, mem)
  | (Returns (store, loaded), mem) =>
      if loaded =? 0 then
        (Throws (RuntimeError "ShmModelStore: no models with loadOnStart:true in config — Munin has nothing to hold. Set at least one model to loadOnStart:true."), mem)
      else (Returns store, mem)
  end.

(** [src/src/munin/ShmModelStore.cpp:226-234 ShmModelStore::find] *)
Definition find (s : Store) (modelId : string) : option ShmLoadedModel := s !! modelId.

(** [src/src/munin/ShmModelStore.cpp:236-250 ShmModelStore::summaries] *)
Definition summaries (s : Store) : list WireOps.ModelSummaryWire :=
  map (fun kv => WireOps.mkSummary (fst kv) (fingerprint (snd kv)) (totalBytes (snd kv))
         (u32 (N.of_nat (if isNvfp4 (snd kv) then length (shards (snd kv))
                         else match reader (snd kv) with Some r => length (_tensors r) | None => 0 end))))
    (map_to_list s).
End ShmModelStore.
