(* ===== verification/Attach.v ===== *)
(** * A worker attaches to the model daemon

    Models [src/src/munin/ShmAttachSession.cpp], one connection of the daemon, and
    [src/src/core/ipc/MuninClient.cpp], the worker's end of it.  Both run over a
    [Conn]: the bytes that arrive, the bytes sent, the kernel's answers, the
    descriptors closed.  The JSON library, [mmap], [connect] and the process id are
    inputs. *)

From Stdlib Require Import Ascii.
From stdpp Require Import pretty.
From S2P Require Import Prelude Gguf GgufProofs GgufFormat ChunkAllocator GgufLoad UnixSocket Ipc Munin.
Import UnixSocketFrame.

(** ** Blocking calls on a connection *)

(** [lost] are descriptors that arrived and are neither kept nor closed. *)
Record Conn := mkConn {
  rscript : list Answer;
  sscript : list Answer;
  inw : Wire;
  outw : Wire;
  closedFds : list Z;
  lost : list Z;
}.

(** A call returns, waits for ever, ends the process (an exception in a [noexcept]
    function), or has no defined behaviour. *)
Inductive step (A : Type) :=
  | Done (a : A) (c : Conn)
  | Blocked
  | Terminated
  | Broken.
#[global] Arguments Done {A} a c.
#[global] Arguments Blocked {A}.
#[global] Arguments Terminated {A}.
#[global] Arguments Broken {A}.

Definition IO (A : Type) : Type := Conn -> step A.

Definition ret {A} (a : A) : IO A := Done a.
Definition bind {A B} (m : IO A) (f : A -> IO B) : IO B := fun c =>
  match m c with
  | Done a c => f a c
  | Blocked => Blocked
  | Terminated => Terminated
  | Broken => Broken
  end.
Declare Scope io_scope.
Notation "'let!' x := m 'in' k" := (bind m (fun x => k))
  (at level 10, x pattern, m at level 100, k at level 200) : io_scope.
#[local] Open Scope io_scope.

Definition text (bs : list ascii) : string := String.string_of_list_ascii bs.
Definition asBytes (s : string) : list ascii := String.list_ascii_of_string s.

Definition sendFrame (payload : list ascii) (fds : list Z) : IO (string + unit) := fun c =>
  match send (sscript c) payload fds (outw c) with
  | None => Blocked
  | Some (r, s, w) => Done r (mkConn (rscript c) s (inw c) w (closedFds c) (lost c))
  end.

Definition recvFrame (maxPayloadBytes : N) : IO (string + Frame) := fun c =>
  match recv (rscript c) maxPayloadBytes (inw c) with
  | None => Blocked
  | Some (inl (e, fds), s, w) => Done (inl e) (mkConn s (sscript c) w (outw c) (closedFds c) (lost c ++ fds))
  | Some (inr f, s, w) => Done (inr f) (mkConn s (sscript c) w (outw c) (closedFds c) (lost c))
  end.

Definition closeFds (fds : list Z) : IO unit := fun c =>
  Done tt (mkConn (rscript c) (sscript c) (inw c) (outw c) (closedFds c ++ fds) (lost c)).

(** A text the JSON library may refuse to print. *)
Definition orTerminate {A} (o : option A) : IO A := fun c =>
  match o with Some a => Done a c | None => Terminated end.
Definition orBroken {A} (o : option A) : IO A := fun c =>
  match o with Some a => Done a c | None => Broken end.

(** [src/src/core/ipc/UnixSocketFrame.hpp:56-56 kDefaultMaxPayload] *)
Definition kDefaultMaxPayload : N := 64 * 1024 * 1024.

(** ** The daemon's end *)

Module ShmAttachSession.
Import ShmLoadedModel.

(** [src/src/munin/ShmAttachSession.cpp:107-111 ShmAttachSession::sendErrorAndClose] *)
Definition sendErrorAndClose `{Json} (msg : string) : IO unit :=
  let! body := orTerminate (WireOps.makeErrorJson msg) in
  let! _ := sendFrame (asBytes body) [] in
  ret tt.

(** [src/src/munin/ShmAttachSession.cpp:113-136 ShmAttachSession::handleHealthz] *)
Definition handleHealthz `{Json} (pid : N) (store : ShmModelStore.Store) : IO bool :=
  let r := WireOps.mkHealthz 1 "ok" "munin" (u32 pid)
             (ShmModelStore.summaries store) in
  let! body := orTerminate (WireOps.healthzToJson r) in
  let! s := sendFrame (asBytes body) [] in
  ret (match s with inl _ => false | inr _ => true end).

(** The handles of the chunks, or the first that cannot be exported.
    [src/src/munin/ShmAttachSession.cpp:177-190 ShmAttachSession::handleAttach] *)
Fixpoint exportAll (memfds : list Z) (mapBytes : list N) (l : list nat) : string + list ShmIpc.IpcHandle :=
  match l with
  | [] => inr []
  | i :: l =>
      match ShmIpc.exportChunk memfds mapBytes i with
      | inl e => inl ("attach: ShmIpcExporter failed for chunk[" +:+ pretty (N.of_nat i) +:+ "]: " +:+ e)
      | inr h => match exportAll memfds mapBytes l with inl e => inl e | inr r => inr (h :: r) end
      end
  end.

(** [src/src/munin/ShmAttachSession.cpp:200-212 ShmAttachSession::handleAttach] *)
Fixpoint sendHandles (hs : list ShmIpc.IpcHandle) : IO bool :=
  match hs with
  | [] => ret true
  | h :: hs =>
      let! s := sendFrame (ShmIpc.bytes h) [ShmIpc.fd h] in
      match s with inl _ => ret false | inr _ => sendHandles hs end
  end.

Definition refuse `{Json} (msg : string) : IO bool := let! _ := sendErrorAndClose msg in ret false.

(** Why a model of the store cannot be attached to.
    [src/src/munin/ShmAttachSession.cpp:146-164 ShmAttachSession::handleAttach] *)
Definition inconsistent (lm : ShmLoadedModel) : option string :=
  match chunks lm with
  | None => Some ("attach: model '" +:+ id lm +:+ "' has no ShmChunkAllocator — Munin load is inconsistent")
  | Some _ =>
      if isNvfp4 lm then
        if length (shards lm) =? 0 then
          Some ("attach: NVFP4 model '" +:+ id lm +:+ "' has no shards — Munin load is inconsistent")
        else None
      else if match reader lm with None => true | Some r => length (GgufReader._tensors r) =? 0 end then
        Some ("attach: model '" +:+ id lm +:+ "' has no tensors — Munin load is inconsistent")
      else None
  end.

(** [src/src/munin/ShmAttachSession.cpp:138-225 ShmAttachSession::handleAttach] *)
Definition handleAttach `{Json} (store : ShmModelStore.Store) (modelId : string) : IO bool :=
  match ShmModelStore.find store modelId with
  | None => refuse ("attach: no model with id '" +:+ modelId +:+ "' loaded in Munin")
  | Some lm =>
      match inconsistent lm, chunks lm with
      | Some msg, _ => refuse msg
      | None, None => ret false
      | None, Some a =>
          let! manifest := orBroken (buildManifest lm) in
          let! manifestJson := orTerminate (TensorManifest.toJson manifest) in
          match exportAll (ShmChunkAllocator.chunkMemfds a) (ShmChunkAllocator.chunkMapBytes a)
                  (seq 0 (N.to_nat (Bump.chunkCount Z a))) with
          | inl msg => refuse msg
          | inr handles =>
              let! s := sendFrame (asBytes manifestJson) [] in
              match s with inl _ => ret false | inr _ => sendHandles handles end
          end
      end
  end.

(** [src/src/munin/ShmAttachSession.cpp:54-59 ShmAttachSession] *)
Definition destroy (fd : Z) : IO unit := if (0 <=? fd)%Z then closeFds [fd] else ret tt.

(** How the wait ends. *)
Inductive WaitEnd := Stopped | PeerClosed | RecvError (e : string) | Unexpected (n : nat).

(** [stop k] is the stop flag at the [k]-th turn.  A count with nothing left to read
    is the end of the stream.
    [src/src/munin/ShmAttachSession.cpp:227-255 ShmAttachSession::waitForPeerClose] *)
Fixpoint waitLoop (stop : nat -> bool) (k : nat) (script : list Answer) (w : Wire)
    : option (WaitEnd * list Answer * Wire) :=
  if stop k then Some (Stopped, script, w)
  else
    match script with
    | [] => None
    | Interrupted :: script => waitLoop stop (S k) script w
    | Failed e :: script => Some (RecvError e, script, w)
    | Count n :: script =>
        match take (Nat.min n 64) w with
        | [] => Some (PeerClosed, script, w)
        | got => Some (Unexpected (length got), script, drop (length got) w)
        end
    end.

Definition waitForPeerClose (stop : nat -> bool) : IO WaitEnd := fun c =>
  match waitLoop stop 0 (rscript c) (inw c) with
  | None => Blocked
  | Some (e, s, w) => Done e (mkConn s (sscript c) w (outw c) (closedFds c) (lost c))
  end.

(** The answer is [_attachedModelId] and how the wait ended.
    [src/src/munin/ShmAttachSession.cpp:65-105 ShmAttachSession::run] *)
Definition run `{Json} (pid : N) (store : ShmModelStore.Store) (stop : nat -> bool)
    : IO (option (string * WaitEnd)) :=
  let! req := recvFrame (64 * 1024) in
  match req with
  | inl _ => ret None
  | inr req =>
      if negb (length (fds req) =? 0) then
        let! _ := closeFds (fds req) in
        let! _ := sendErrorAndClose "request must not carry SCM_RIGHTS fds" in ret None
      else
        match WireOps.requestFromJson (text (payload req)) with
        | inl e => let! _ := sendErrorAndClose e in ret None
        | inr env =>
            if String.eqb (WireOps.op env) "healthz" then
              let! _ := handleHealthz pid store in ret None
            else if String.eqb (WireOps.op env) "attach" then
              if String.eqb (WireOps.modelId env) EmptyString then
                let! _ := sendErrorAndClose "attach: 'modelId' is required" in ret None
              else
                let! ok := handleAttach store (WireOps.modelId env) in
                if ok then
                  let! e := waitForPeerClose stop in ret (Some (WireOps.modelId env, e))
                else ret None
            else
              let! _ := sendErrorAndClose ("unknown op '" +:+ WireOps.op env +:+ "'") in ret None
        end
  end.
End ShmAttachSession.

(** ** The worker's end *)

Module MuninClient.
Import TensorManifest.

(** [src/src/core/ipc/MuninClient.hpp:46-49 AttachResult] *)
Record AttachResult := mkResult { manifest : TensorManifest; chunkBases : list N }.

(** [src/src/core/ipc/MuninClient.hpp:71-72 MuninClient] *)
Record MuninClient := mkClient { _importer : ShmIpc.Importer; _sessionFd : Z }.

(** [path_max] is the room in [sockaddr_un::sun_path]; [sock] and [conn] are the
    answers of [socket] and [connect].  With the descriptors it closed.
    [src/src/core/ipc/MuninClient.cpp:41-62 connectUnix] *)
Definition connectUnix (path_max : nat) (sock : string + Z) (conn : option string) (path : string)
    : (string + Z) * list Z :=
  if path_max <=? String.length path then (inl "MuninClient: socket path exceeds sun_path capacity", [])
  else
    match sock with
    | inl e => (inl (errnoTag "socket(AF_UNIX)" e), [])
    | inr fd =>
        match conn with
        | Some e => (inl ("MuninClient: connect(" +:+ path +:+ ") failed: " +:+ e), [fd])
        | None => (inr fd, [])
        end
    end.

(** [src/src/core/ipc/MuninClient.cpp:64-79 oneRequest] *)
Definition oneRequest (requestJson : string) : IO (string + string) :=
  let! s := sendFrame (asBytes requestJson) [] in
  match s with
  | inl e => ret (inl e)
  | inr _ =>
      let! rsp := recvFrame kDefaultMaxPayload in
      match rsp with
      | inl e => ret (inl e)
      | inr rsp =>
          if negb (length (fds rsp) =? 0) then
            let! _ := closeFds (fds rsp) in
            ret (inl "MuninClient: response carried unexpected SCM_RIGHTS fds")
          else ret (inr (text (payload rsp)))
      end
  end.

(** [src/src/core/ipc/MuninClient.cpp:87-92 MuninClient::detach] *)
Definition detach (cl : MuninClient) : IO MuninClient :=
  if (0 <=? _sessionFd cl)%Z then
    let! _ := closeFds [_sessionFd cl] in ret (mkClient (_importer cl) (-1))
  else ret cl.

Definition quote : string := String.String (ascii_of_nat 34) EmptyString.

Definition healthzRequest : string :=
  "{" +:+ quote +:+ "op" +:+ quote +:+ ":" +:+ quote +:+ "healthz" +:+ quote +:+ "}".

(** The first half of the two requests that open a connection of their own.
    [src/src/core/ipc/MuninClient.cpp:94-116 MuninClient::healthz] *)
Definition healthz `{Json} (connected : (string + Z) * list Z) : IO (string + WireOps.HealthzResponse) :=
  let! _ := closeFds (snd connected) in
  match fst connected with
  | inl e => ret (inl e)
  | inr sock =>
      let! rsp := oneRequest healthzRequest in
      let! _ := closeFds [sock] in
      match rsp with
      | inl e => ret (inl e)
      | inr rsp =>
          match WireOps.healthzFromJson rsp with
          | inr parsed => ret (inr parsed)
          | inl e =>
              match WireOps.parseErrorJson rsp with
              | inr errBody => ret (inl ("Munin healthz error: " +:+ errBody))
              | inl _ => ret (inl e)
              end
          end
      end
  end.

(** The body of the attach request; the id is not escaped.
    [src/src/core/ipc/MuninClient.cpp:148-149 MuninClient::attachOnConnectedFd] *)
Definition attachRequest (modelId : string) : string :=
  "{" +:+ quote +:+ "op" +:+ quote +:+ ":" +:+ quote +:+ "attach" +:+ quote +:+ "," +:+ quote +:+ "modelId" +:+
  quote +:+ ":" +:+ quote +:+ modelId +:+ quote +:+ "}".

(** [src/src/core/ipc/MuninClient.cpp:176-179 MuninClient::attachOnConnectedFd] *)
Definition rollback (bases : list N) (i : ShmIpc.Importer) : ShmIpc.Importer :=
  fold_left (fun i b => ShmIpc.closeChunk b i) bases i.

(** [mm i] is the kernel's answer to the [i]-th [mmap].
    [src/src/core/ipc/MuninClient.cpp:181-206 MuninClient::attachOnConnectedFd] *)
Fixpoint importLoop (mm : nat -> string + N) (n i : nat) (bases : list N) (imp : ShmIpc.Importer)
    : IO ((string + list N) * ShmIpc.Importer) :=
  match n with
  | 0 => ret (inr bases, imp)
  | S n =>
      let! frame := recvFrame 128 in
      match frame with
      | inl e => ret (inl e, rollback bases imp)
      | inr frame =>
          match fds frame with
          | [fd] =>
              if length (payload frame) =? 64 then
                match ShmIpc.importChunk (mm i) (payload frame) fd imp with
                | (inl e, imp) =>
                    let! _ := closeFds [fd] in
                    ret (inl ("MuninClient: import of chunk[" +:+ pretty (N.of_nat i) +:+ "] failed: " +:+ e),
                         rollback bases imp)
                | (inr p, imp) => importLoop mm n (S i) (bases ++ [p]) imp
                end
              else
                let! _ := closeFds [fd] in
                ret (inl ("MuninClient: chunk-handle frame[" +:+ pretty (N.of_nat i) +:+ "] has " +:+
                       pretty (N.of_nat (length (payload frame))) +:+ " payload bytes and 1 fd(s), expected 64 + 1"),
                     rollback bases imp)
          | l =>
              let! _ := closeFds l in
              ret (inl ("MuninClient: chunk-handle frame[" +:+ pretty (N.of_nat i) +:+ "] has " +:+
                     pretty (N.of_nat (length (payload frame))) +:+ " payload bytes and " +:+
                     pretty (N.of_nat (length l)) +:+ " fd(s), expected 64 + 1"),
                   rollback bases imp)
          end
      end
  end.

(** The answers to an attach request.
    [src/src/core/ipc/MuninClient.cpp:154-215 MuninClient::attachOnConnectedFd] *)
Definition receiveModel `{Json} (mm : nat -> string + N) (fd : Z) (cl : MuninClient)
    : IO ((string + AttachResult) * MuninClient) :=
  let! first := recvFrame kDefaultMaxPayload in
  match first with
  | inl e => ret (inl e, cl)
  | inr first =>
      if negb (length (fds first) =? 0) then
        let! _ := closeFds (fds first) in
        ret (inl "MuninClient: manifest frame unexpectedly carried fds", cl)
      else
        match WireOps.parseErrorJson (text (payload first)) with
        | inr errBody => ret (inl ("Munin attach error: " +:+ errBody), cl)
        | inl _ =>
            match fromJson (text (payload first)) with
            | inl e => ret (inl e, cl)
            | inr man =>
                let! r := importLoop mm (length (chunks man)) 0 [] (_importer cl) in
                match r with
                | (inl e, imp) => ret (inl e, mkClient imp (_sessionFd cl))
                | (inr bases, imp) => ret (inr (mkResult man bases), mkClient imp fd)
                end
            end
        end
  end.

(** [src/src/core/ipc/MuninClient.cpp:137-216 MuninClient::attachOnConnectedFd] *)
Definition attachOnConnectedFd `{Json} (mm : nat -> string + N) (fd : Z) (modelId : string)
    (cl : MuninClient) : IO ((string + AttachResult) * MuninClient) :=
  if (0 <=? _sessionFd cl)%Z then ret (inl "MuninClient: attach called on already-attached client", cl)
  else if String.eqb modelId EmptyString then
    ret (inl "MuninClient: attach requires a non-empty modelId", cl)
  else
    let! s := sendFrame (asBytes (attachRequest modelId)) [] in
    match s with
    | inl e => ret (inl e, cl)
    | inr _ => receiveModel mm fd cl
    end.

(** [src/src/core/ipc/MuninClient.cpp:118-135 MuninClient::attach] *)
Definition attach `{Json} (connected : (string + Z) * list Z) (mm : nat -> string + N) (modelId : string)
    (cl : MuninClient) : IO ((string + AttachResult) * MuninClient) :=
  if (0 <=? _sessionFd cl)%Z then ret (inl "MuninClient: attach called on already-attached client", cl)
  else
    let! _ := closeFds (snd connected) in
    match fst connected with
    | inl e => ret (inl e, cl)
    | inr fd =>
        let! r := attachOnConnectedFd mm fd modelId cl in
        match r with
        | (inl e, cl) => let! _ := closeFds [fd] in ret (inl e, cl)
        | r => ret r
        end
    end.
End MuninClient.

(** ** Both ends together *)

Module AttachProtocol.
Import ShmLoadedModel MuninClient.

(** What a call does to its connection when the kernel keeps answering. *)
Definition sent (c c' : Conn) (w : Wire) (n : nat) : Prop :=
  rscript c' = rscript c /\ inw c' = inw c /\ outw c' = outw c ++ w /\ closedFds c' = closedFds c /\
  lost c' = lost c /\ healthy (sscript c') /\ progress (sscript c) <= progress (sscript c') + n.

Definition received (c c' : Conn) (w : Wire) (n : nat) : Prop :=
  sscript c' = sscript c /\ inw c = w ++ inw c' /\ outw c' = outw c /\ closedFds c' = closedFds c /\
  lost c' = lost c /\ healthy (rscript c') /\ progress (rscript c) <= progress (rscript c') + n.

Lemma bind_done {A B} (m : IO A) (f : A -> IO B) c a c' : m c = Done a c' -> bind m f c = f a c'.
Proof. unfold bind. by intros ->. Qed.

Lemma sendFrame_spec f c :
  healthy (sscript c) -> cost f <= progress (sscript c) -> length (fds f) <= kMaxFdsPerFrame ->
  exists c', sendFrame (payload f) (fds f) c = Done (inr tt) c' /\ sent c c' (frameCells f) (cost f).
Proof.
  intros H1 H2 H3. destruct (send_spec _ f (outw c) H1 H2 H3) as (s' & E & H4 & H5).
  unfold sendFrame. rewrite E. eexists. split; [reflexivity|]. by repeat split.
Qed.

Lemma recvFrame_spec maxBytes f w c :
  inw c = frameCells f ++ w -> healthy (rscript c) -> cost f <= progress (rscript c) ->
  (N.of_nat (length (payload f)) < 2 ^ 32)%N -> (N.of_nat (length (payload f)) <= maxBytes)%N ->
  exists c', recvFrame maxBytes c = Done (inr f) c' /\ inw c' = w /\ received c c' (frameCells f) (cost f).
Proof.
  intros Hw H1 H2 H3 H4. destruct (recv_spec _ maxBytes f w H1 H2 H3 H4) as (s' & E & H5 & H6).
  unfold recvFrame. rewrite Hw, E. eexists. split; [reflexivity|]. split; [done|]. repeat split; done.
Qed.

Lemma sent_refl c : healthy (sscript c) -> sent c c [] 0.
Proof. intros H. unfold sent. rewrite app_nil_r. repeat split; [done|lia]. Qed.

Lemma sent_trans c1 c2 c3 w1 w2 n1 n2 :
  sent c1 c2 w1 n1 -> sent c2 c3 w2 n2 -> sent c1 c3 (w1 ++ w2) (n1 + n2).
Proof.
  intros (A1 & A2 & A3 & A4 & A5 & A6 & A7) (B1 & B2 & B3 & B4 & B5 & B6 & B7). unfold sent.
  rewrite B1, B2, B3, B4, B5, A1, A2, A3, A4, A5, <- app_assoc. repeat split; [done|lia].
Qed.

(** The frames of a model's chunks. *)
Definition handleOf (a : Bump.t Z) (c : Bump.Chunk Z) : ShmIpc.IpcHandle :=
  ShmIpc.mkHandle (GgufFormat.le_bytes 8 (Bump._chunkBytes Z a) ++ replicate 56 zero) (Bump.mem Z c).
Definition handles (a : Bump.t Z) : list ShmIpc.IpcHandle := map (handleOf a) (Bump._chunks Z a).
Definition frameOf (h : ShmIpc.IpcHandle) : Frame := mkFrame (ShmIpc.bytes h) [ShmIpc.fd h].
Definition requestFrame (modelId : string) : Frame := mkFrame (asBytes (attachRequest modelId)) [].
Definition answerFrames (a : Bump.t Z) (txt : string) : list Frame :=
  mkFrame (asBytes txt) [] :: map frameOf (handles a).

Lemma length_handle a c : length (ShmIpc.bytes (handleOf a c)) = 64.
Proof. unfold handleOf. cbn [ShmIpc.bytes]. by rewrite length_app, GgufFormat.length_le_bytes. Qed.

Lemma exportAll_spec a :
  Forall (fun c => 0 <= Bump.mem Z c)%Z (Bump._chunks Z a) -> forall l k,
  drop k (Bump._chunks Z a) = l ->
  ShmAttachSession.exportAll (ShmChunkAllocator.chunkMemfds a) (ShmChunkAllocator.chunkMapBytes a)
    (seq k (length l)) = inr (map (handleOf a) l).
Proof.
  intros Hfd l. induction l as [|c l IH]; intros k Hk; [done|].
  assert (Hc : Bump._chunks Z a !! k = Some c).
  { rewrite <- (Nat.add_0_r k), <- lookup_drop, Hk. done. }
  cbn [length seq ShmAttachSession.exportAll map]. unfold ShmIpc.exportChunk at 1.
  unfold ShmChunkAllocator.chunkMemfds at 1, ShmChunkAllocator.chunkMapBytes at 1.
  rewrite !list_lookup_fmap, Hc. cbn [fmap option_fmap option_map].
  rewrite (proj2 (Z.ltb_ge _ _)) by exact (Forall_lookup_1 _ _ _ _ Hfd Hc).
  rewrite IH; [done|]. rewrite <- (Nat.add_1_r k), <- drop_drop, Hk. done.
Qed.

Lemma sendHandles_spec hs : forall c,
  healthy (sscript c) -> costs (map frameOf hs) <= progress (sscript c) ->
  exists c', ShmAttachSession.sendHandles hs c = Done true c' /\
    sent c c' (concat (map frameCells (map frameOf hs))) (costs (map frameOf hs)).
Proof.
  induction hs as [|h hs IH]; intros c Hh Hp.
  - exists c. split; [done|]. by apply sent_refl.
  - cbn [map] in *. rewrite costs_cons in Hp.
    destruct (sendFrame_spec (frameOf h) c Hh) as (c1 & E1 & S1); [lia|cbn; unfold kMaxFdsPerFrame; lia|].
    pose proof S1 as (_ & _ & _ & _ & _ & S16 & S17).
    destruct (IH c1) as (c2 & E2 & S2); [done|lia|].
    exists c2. split; [|cbn [map concat]; rewrite costs_cons; by eapply sent_trans].
    cbn [ShmAttachSession.sendHandles]. rewrite (bind_done _ _ _ _ _ E1). exact E2.
Qed.

Lemma received_trans c1 c2 c3 w1 w2 n1 n2 :
  received c1 c2 w1 n1 -> received c2 c3 w2 n2 -> received c1 c3 (w1 ++ w2) (n1 + n2).
Proof.
  intros (A1 & A2 & A3 & A4 & A5 & A6 & A7) (B1 & B2 & B3 & B4 & B5 & B6 & B7). unfold received.
  rewrite B1, B3, B4, B5, A1, A2, A3, A4, A5, B2, <- app_assoc. repeat split; [done|lia].
Qed.

(** The mappings after chunks [i], [i + 1], ... were mapped at [base i], ... *)
Definition mapAll (base : nat -> N) (len : N) (l : list nat) (m : gmap N N) : gmap N N :=
  fold_left (fun m j => emplace (base j) len m) l m.

Lemma mapAll_other base len l : forall m p, p ∉ map base l -> mapAll base len l m !! p = m !! p.
Proof.
  induction l as [|j l IH]; intros m p Hp; [done|]. cbn [map] in Hp. apply not_elem_of_cons in Hp as [Hj Hp].
  cbn. unfold mapAll in IH. rewrite IH by done. unfold emplace. destruct (m !! base j); [done|].
  by rewrite lookup_insert_ne.
Qed.

Lemma mapAll_lookup base len l : forall m j, j ∈ l -> NoDup (map base l) ->
  Forall (fun j => m !! base j = None) l -> mapAll base len l m !! base j = Some len.
Proof.
  induction l as [|i l IH]; intros m j Hj Hnd Hf; [by apply not_elem_of_nil in Hj|].
  apply NoDup_cons in Hnd as [Hi Hnd]. apply Forall_cons in Hf as [Hf Hfs].
  apply elem_of_cons in Hj as [->|Hj]; cbn.
  - pose proof (mapAll_other base len l (emplace (base i) len m) (base i) Hi) as E. unfold mapAll in E.
    rewrite E, emplace_fresh by done. by rewrite lookup_insert_eq.
  - apply IH; [done..|]. rewrite Forall_forall in Hfs |- *. intros k Hk. rewrite emplace_fresh by done.
    rewrite lookup_insert_ne; [by apply Hfs|]. intros E. apply Hi. rewrite E. by apply list_elem_of_fmap_2.
Qed.

Lemma importChunk_spec a ch ptr imp :
  (0 <= Bump.mem Z ch)%Z -> (0 < Bump._chunkBytes Z a < 2 ^ 64)%N ->
  ShmIpc.importChunk (inr ptr) (ShmIpc.bytes (handleOf a ch)) (Bump.mem Z ch) imp =
  (inr ptr, ShmIpc.mkImporter (emplace ptr (Bump._chunkBytes Z a) (ShmIpc._maps imp))
              (ShmIpc.closed imp ++ [Bump.mem Z ch]) (ShmIpc.unmapped imp)).
Proof.
  intros H1 H2.
  destruct (ShmIpc.export_import [Bump.mem Z ch] [Bump._chunkBytes Z a] 0 _ _ ptr imp eq_refl eq_refl H1 H2)
    as (h & E & _ & _ & H).
  unfold ShmIpc.exportChunk in E. cbn in E. rewrite (proj2 (Z.ltb_ge _ _)) in E by done.
  injection E as <-. exact H.
Qed.

Lemma importLoop_spec mm base a l : forall i bases imp c w,
  inw c = concat (map frameCells (map frameOf (map (handleOf a) l))) ++ w ->
  healthy (rscript c) -> costs (map frameOf (map (handleOf a) l)) <= progress (rscript c) ->
  Forall (fun c => 0 <= Bump.mem Z c)%Z l -> (0 < Bump._chunkBytes Z a < 2 ^ 64)%N ->
  (forall j, j < length l -> mm (i + j) = inr (base (i + j))) ->
  exists c', importLoop mm (length l) i bases imp c =
      Done (inr (bases ++ map base (seq i (length l))),
        ShmIpc.mkImporter (mapAll base (Bump._chunkBytes Z a) (seq i (length l)) (ShmIpc._maps imp))
          (ShmIpc.closed imp ++ map (Bump.mem Z) l) (ShmIpc.unmapped imp)) c' /\
    inw c' = w /\ outw c' = outw c /\ closedFds c' = closedFds c /\ lost c' = lost c.
Proof.
  induction l as [|ch l IH]; intros i bases imp c w Hw Hh Hp Hfd Hb Hmm.
  - exists c. cbn. rewrite !app_nil_r. by destruct imp.
  - cbn [map concat] in Hw, Hp. rewrite costs_cons in Hp. rewrite <- app_assoc in Hw.
    apply Forall_cons in Hfd as [Hf Hfd].
    destruct (recvFrame_spec 128 _ _ c Hw Hh) as (c1 & E1 & Hw1 & _ & _ & R3 & R4 & R5 & R6 & R7); [lia|..].
    { cbn [frameOf payload]. by rewrite length_handle. }
    { cbn [frameOf payload]. by rewrite length_handle. }
    set (imp1 := ShmIpc.mkImporter (emplace (base i) (Bump._chunkBytes Z a) (ShmIpc._maps imp))
              (ShmIpc.closed imp ++ [Bump.mem Z ch]) (ShmIpc.unmapped imp)).
    destruct (IH (S i) (bases ++ [base i]) imp1 c1 w Hw1 R6) as (c2 & E2 & H1 & H2 & H3 & H4); [lia|done..| |].
    { intros j Hj. rewrite Nat.add_succ_comm. apply Hmm. cbn. lia. }
    exists c2. split; [|by rewrite H2, H3, H4].
    cbn [length importLoop]. rewrite (bind_done _ _ _ _ _ E1). cbn [frameOf fds payload].
    rewrite length_handle. cbn [Nat.eqb]. pose proof (Hmm 0 ltac:(cbn; lia)) as Hm. rewrite Nat.add_0_r in Hm.
    cbn [handleOf ShmIpc.fd]. rewrite Hm, importChunk_spec by done. fold imp1. rewrite E2.
    do 2 f_equal.
    + cbn [seq map]. by rewrite <- app_assoc.
    + unfold imp1. cbn. by rewrite <- app_assoc.
Qed.

Lemma text_asBytes s : text (asBytes s) = s.
Proof. apply String.string_of_list_ascii_of_string. Qed.

(** A model a worker can attach to: its manifest prints as [txt], its chunks have
    descriptors. *)
Record attachable `{Json} (lm : ShmLoadedModel) (a : Bump.t Z) (man : TensorManifest.TensorManifest)
    (txt : string) : Prop := {
  at_chunks : chunks lm = Some a;
  at_consistent : ShmAttachSession.inconsistent lm = None;
  at_manifest : buildManifest lm = Some man;
  at_json : TensorManifest.toJson man = Some txt;
  at_fds : Forall (fun c => 0 <= Bump.mem Z c)%Z (Bump._chunks Z a);
  at_count : (N.of_nat (length (Bump._chunks Z a)) < 2 ^ 32)%N;
}.

Lemma handleAttach_spec `{Json} store modelId lm a man txt c :
  ShmModelStore.find store modelId = Some lm -> attachable lm a man txt ->
  healthy (sscript c) -> costs (answerFrames a txt) <= progress (sscript c) ->
  exists c', ShmAttachSession.handleAttach store modelId c = Done true c' /\
    sent c c' (concat (map frameCells (answerFrames a txt))) (costs (answerFrames a txt)).
Proof.
  intros Hf [H1 H2 H3 H4 H5 H6] Hh Hp. unfold answerFrames in *. rewrite costs_cons in *.
  unfold ShmAttachSession.handleAttach. rewrite Hf, H2, H1, H3. unfold orBroken, bind at 1.
  rewrite H4. unfold orTerminate, bind at 1. unfold Bump.chunkCount. rewrite u32_small, Nat2N.id by done.
  rewrite (exportAll_spec a H5 (Bump._chunks Z a) 0) by done.
  destruct (sendFrame_spec (mkFrame (asBytes txt) []) c Hh) as (c1 & E1 & S1); [lia|cbn; lia|].
  pose proof S1 as (_ & _ & _ & _ & _ & S16 & S17).
  destruct (sendHandles_spec (handles a) c1 S16) as (c2 & E2 & S2); [lia|].
  exists c2. split; [|cbn [map concat]; by eapply sent_trans].
  cbn [payload fds] in E1. rewrite (bind_done _ _ _ _ _ E1). exact E2.
Qed.

Lemma waitLoop_end script stop : healthy script -> 0 < progress script -> forall k,
  exists e script', ShmAttachSession.waitLoop stop k script [] = Some (e, script', []) /\
    (e = ShmAttachSession.Stopped \/ e = ShmAttachSession.PeerClosed).
Proof.
  intros Hh Hp. induction script as [|x script IH]; intros k; [cbn in Hp; lia|].
  apply Forall_cons in Hh as [Hx Hh]. cbn [ShmAttachSession.waitLoop]. destruct (stop k); [eauto|].
  destruct x as [|e|n]; [by apply IH|done|]. rewrite take_nil. eauto.
Qed.

(** The request as the JSON library reads it. *)
Definition requestDoc (modelId : string) : json :=
  JObject [("modelId", JString modelId); ("op", JString "attach")].

Lemma requestFromJson_spec `{Json} modelId :
  parse (attachRequest modelId) = inr (requestDoc modelId) ->
  WireOps.requestFromJson (attachRequest modelId) = inr (WireOps.mkRequest "attach" modelId).
Proof. intros Hp. unfold WireOps.requestFromJson. rewrite Hp. reflexivity. Qed.

Lemma run_spec `{Json} pid store stop modelId lm a man txt c :
  inw c = frameCells (requestFrame modelId) ->
  healthy (rscript c) -> cost (requestFrame modelId) < progress (rscript c) ->
  (N.of_nat (length (asBytes (attachRequest modelId))) <= 65536)%N -> modelId <> EmptyString ->
  parse (attachRequest modelId) = inr (requestDoc modelId) ->
  ShmModelStore.find store modelId = Some lm -> attachable lm a man txt ->
  healthy (sscript c) -> costs (answerFrames a txt) <= progress (sscript c) ->
  exists e c', ShmAttachSession.run pid store stop c = Done (Some (modelId, e)) c' /\
    (e = ShmAttachSession.Stopped \/ e = ShmAttachSession.PeerClosed) /\
    outw c' = outw c ++ concat (map frameCells (answerFrames a txt)) /\
    closedFds c' = closedFds c /\ lost c' = lost c.
Proof.
  intros Hw Hh Hp Hl Hne Hj Hf Hat Hs Hps.
  destruct (recvFrame_spec 65536 (requestFrame modelId) [] c) as (c1 & E1 & Hw1 & R1 & R2 & R3 & R4 & R5 & R6 & R7);
    [by rewrite app_nil_r|done|lia|cbn [requestFrame payload]; lia|done|].
  destruct (handleAttach_spec store modelId lm a man txt c1 Hf Hat) as (c2 & E2 & S1 & S2 & S3 & S4 & S5 & _);
    [by rewrite R1|by rewrite R1|].
  destruct (waitLoop_end (rscript c2) stop) with (k := 0) as (e & s' & E3 & He); [by rewrite S1|rewrite S1; lia|].
  exists e. eexists. split; [|split; [exact He|]].
  - unfold ShmAttachSession.run. rewrite (bind_done _ _ _ _ _ E1). cbn [requestFrame fds payload length Nat.eqb negb].
    rewrite text_asBytes, requestFromJson_spec by done. cbn [WireOps.op WireOps.modelId].
    change (String.eqb "attach" "healthz") with false. change (String.eqb "attach" "attach") with true. cbn iota.
    rewrite (proj2 (String.eqb_neq _ _)) by done. rewrite (bind_done _ _ _ _ _ E2). cbn iota.
    unfold ShmAttachSession.waitForPeerClose, bind at 1. rewrite S2, Hw1, E3. reflexivity.
  - cbn [outw closedFds lost]. by rewrite S3, S4, S5, R3, R4, R5.
Qed.

Lemma manifest_chunks lm a man :
  chunks lm = Some a -> buildManifest lm = Some man ->
  (N.of_nat (length (Bump._chunks Z a)) < 2 ^ 32)%N ->
  length (TensorManifest.chunks man) = length (Bump._chunks Z a).
Proof.
  unfold buildManifest. intros Ha Hb Hc. rewrite Ha in Hb.
  assert (Hl : length (chunkDescs a) = length (Bump._chunks Z a)).
  { unfold chunkDescs. rewrite length_map, length_seq. unfold Bump.chunkCount. by rewrite u32_small, Nat2N.id. }
  destruct (isNvfp4 lm); [by injection Hb as <-|]. destruct (reader lm); [|done]. by injection Hb as <-.
Qed.

(** The manifest document is no error envelope. *)
Lemma parseErrorJson_manifest `{Json} man s :
  parse s = inr (TensorManifest.document man) -> exists e, WireOps.parseErrorJson s = inl e.
Proof. intros Hp. unfold WireOps.parseErrorJson. rewrite Hp, TensorManifest.document_eq. by eexists. Qed.

(** The worker's state after attaching to a model with the chunks of [a]. *)
Definition attachedClient (a : Bump.t Z) (base : nat -> N) (fd : Z) (cl : MuninClient) : MuninClient :=
  let i := _importer cl in
  mkClient (ShmIpc.mkImporter
    (mapAll base (Bump._chunkBytes Z a) (seq 0 (length (Bump._chunks Z a))) (ShmIpc._maps i))
    (ShmIpc.closed i ++ map (Bump.mem Z) (Bump._chunks Z a)) (ShmIpc.unmapped i)) fd.

Lemma client_spec `{Json} mm base fd modelId lm a man txt cl c :
  attachable lm a man txt -> TensorManifest.manifest_ok man -> parse txt = inr (TensorManifest.document man) ->
  (N.of_nat (length (asBytes txt)) <= kDefaultMaxPayload)%N -> modelId <> EmptyString ->
  (0 < Bump._chunkBytes Z a < 2 ^ 64)%N ->
  (forall j, j < length (Bump._chunks Z a) -> mm j = inr (base j)) -> (_sessionFd cl < 0)%Z ->
  healthy (sscript c) -> cost (requestFrame modelId) <= progress (sscript c) ->
  inw c = concat (map frameCells (answerFrames a txt)) ->
  healthy (rscript c) -> costs (answerFrames a txt) <= progress (rscript c) ->
  exists c', attachOnConnectedFd mm fd modelId cl c =
      Done (inr (mkResult man (map base (seq 0 (length (Bump._chunks Z a))))), attachedClient a base fd cl) c' /\
    outw c' = outw c ++ frameCells (requestFrame modelId) /\ inw c' = [] /\
    closedFds c' = closedFds c /\ lost c' = lost c.
Proof.
  intros Hat Hok Hpar Hl Hne Hcb Hmm Hsf Hs Hps Hw Hr Hpr. unfold answerFrames in *. rewrite costs_cons in *.
  pose proof (manifest_chunks lm a man (at_chunks _ _ _ _ Hat) (at_manifest _ _ _ _ Hat) (at_count _ _ _ _ Hat)) as Hlen.
  destruct (sendFrame_spec (requestFrame modelId) c Hs Hps) as (c1 & E1 & S1 & S2 & S3 & S4 & S5 & _); [cbn; lia|].
  cbn [map concat] in Hw.
  destruct (recvFrame_spec kDefaultMaxPayload (mkFrame (asBytes txt) []) (concat (map frameCells (map frameOf (handles a)))) c1)
    as (c2 & E2 & Hw2 & R1 & R2 & R3 & R4 & R5 & R6 & R7);
    [by rewrite S2|by rewrite S1|rewrite S1; lia|cbn [payload]; unfold kDefaultMaxPayload in Hl; lia|done|].
  destruct (importLoop_spec mm base a (Bump._chunks Z a) 0 [] (_importer cl) c2 [])
    as (c3 & E3 & I1 & I2 & I3 & I4); [by rewrite app_nil_r|done|rewrite S1 in R7; unfold handles in *; lia|by apply Hat|done|done|].
  destruct (parseErrorJson_manifest man txt Hpar) as [e He].
  exists c3. split; [|by rewrite I2, I3, I4, R3, R4, R5, S3, S4, S5].
  unfold attachOnConnectedFd. rewrite (proj2 (Z.leb_gt _ _)), (proj2 (String.eqb_neq _ _)) by done.
  cbn [requestFrame payload fds] in E1. rewrite (bind_done _ _ _ _ _ E1). unfold receiveModel.
  rewrite (bind_done _ _ _ _ _ E2). cbn [fds payload length Nat.eqb negb].
  rewrite text_asBytes, He, (TensorManifest.fromJson_document man txt Hok Hpar), Hlen.
  rewrite (bind_done _ _ _ _ _ E3). reflexivity.
Qed.

(** C23: A worker that asks the daemon for a model it holds gets it, whatever partial
    transfers and interruptions the kernel answers: the manifest the model has, one
    mapping per chunk in order, each of a whole chunk, every received descriptor
    closed once mapped, none lost; the daemon remembers the model and ends when the
    worker closes or it is stopped.  Both sides are stepped on the bytes the other
    one sends.  Hypotheses: the calls do not fail, the kernel answers as often as
    there are bytes, the JSON library reads back what it printed, request and
    manifest are within the limits, [mmap] answers addresses not in use. *)
Theorem attach_end_to_end `{Json} pid store stop modelId lm a man txt mm base fd cl d c :
  ShmModelStore.find store modelId = Some lm -> attachable lm a man txt ->
  TensorManifest.manifest_ok man -> modelId <> EmptyString ->
  parse (attachRequest modelId) = inr (requestDoc modelId) -> parse txt = inr (TensorManifest.document man) ->
  (N.of_nat (length (asBytes (attachRequest modelId))) <= 65536)%N ->
  (N.of_nat (length (asBytes txt)) <= kDefaultMaxPayload)%N ->
  (0 < Bump._chunkBytes Z a < 2 ^ 64)%N ->
  (forall j, j < length (Bump._chunks Z a) -> mm j = inr (base j) /\ ShmIpc._maps (_importer cl) !! base j = None) ->
  NoDup (map base (seq 0 (length (Bump._chunks Z a)))) -> (_sessionFd cl < 0)%Z ->
  healthy (rscript d) -> healthy (sscript d) -> healthy (rscript c) -> healthy (sscript c) ->
  cost (requestFrame modelId) < progress (rscript d) -> costs (answerFrames a txt) <= progress (sscript d) ->
  cost (requestFrame modelId) <= progress (sscript c) -> costs (answerFrames a txt) <= progress (rscript c) ->
  outw d = [] -> outw c = [] ->
  let request := frameCells (requestFrame modelId) in
  let answer := concat (map frameCells (answerFrames a txt)) in
  inw d = request -> inw c = answer ->
  exists e d' c' cl',
    ShmAttachSession.run pid store stop d = Done (Some (modelId, e)) d' /\
    (e = ShmAttachSession.Stopped \/ e = ShmAttachSession.PeerClosed) /\
    attachOnConnectedFd mm fd modelId cl c =
      Done (inr (mkResult man (map base (seq 0 (length (Bump._chunks Z a))))), cl') c' /\
    outw c' = request /\ outw d' = answer /\ inw c' = [] /\
    closedFds c' = closedFds c /\ lost c' = lost c /\ closedFds d' = closedFds d /\ lost d' = lost d /\
    _sessionFd cl' = fd /\
    ShmIpc.closed (_importer cl') = ShmIpc.closed (_importer cl) ++ map (Bump.mem Z) (Bump._chunks Z a) /\
    forall j, j < length (Bump._chunks Z a) ->
      ShmIpc._maps (_importer cl') !! base j = Some (Bump._chunkBytes Z a).
Proof.
  intros Hf Hat Hok Hne Hj1 Hj2 Hl1 Hl2 Hcb Hmm Hnd Hsf D1 D2 C1 C2 P1 P2 P3 P4 O1 O2 request answer W1 W2.
  destruct (run_spec pid store stop modelId lm a man txt d) as (e & d' & E1 & He & H1 & H2 & H3); [done..|].
  destruct (client_spec mm base fd modelId lm a man txt cl c) as (c' & E2 & H4 & H5 & H6 & H7); try done.
  { intros j Hj. by apply Hmm. }
  exists e, d', c', (attachedClient a base fd cl). rewrite O1 in H1. rewrite O2 in H4.
  repeat (split; [done|]). intros j Hj. cbn [attachedClient _importer ShmIpc._maps].
  apply mapAll_lookup; [apply elem_of_seq; lia|done|].
  apply Forall_forall. intros k Hk. apply elem_of_seq in Hk. apply Hmm. lia.
Qed.
End AttachProtocol.

(** ** A JSON library for concrete runs *)

(** Plain strings, unsigned numbers, arrays and objects, printed without spaces. *)
Module PlainJson.

Definition plain (s : string) : bool :=
  forallb (fun c => let n := N_of_ascii c in (32 <=? n)%N && (n <=? 126)%N && negb (n =? 34)%N && negb (n =? 92)%N)
    (asBytes s).
Definition quoted (s : string) : option string :=
  if plain s then Some (MuninClient.quote +:+ s +:+ MuninClient.quote) else None.

Definition commaed (l : list (option string)) : option string :=
  match l with
  | [] => Some EmptyString
  | s :: l => fold_left (fun acc s => match acc, s with Some a, Some b => Some (a +:+ "," +:+ b) | _, _ => None end) l s
  end.

Fixpoint print (j : json) : option string :=
  match j with
  | JNull => Some "null"
  | JBool b => Some (if b then "true" else "false")
  | JUnsigned n => Some (pretty n)
  | JOtherNumber _ => None
  | JString s => quoted s
  | JArray l => s ← commaed (map print l); Some ("[" +:+ s +:+ "]")
  | JObject l =>
      s ← commaed (map (fun kv => k ← quoted (fst kv); v ← print (snd kv); Some (k +:+ ":" +:+ v)) l);
      Some ("{" +:+ s +:+ "}")
  end.

Fixpoint untilQuote (s : string) : option (string * string) :=
  match s with
  | EmptyString => None
  | String.String c s =>
      if Ascii.eqb c (ascii_of_nat 34) then Some (EmptyString, s)
      else p ← untilQuote s; Some (String.String c (fst p), snd p)
  end.

Definition digit (c : ascii) : option N :=
  let n := N_of_ascii c in if ((48 <=? n) && (n <=? 57))%N then Some (n - 48)%N else None.
Fixpoint digits (acc : N) (s : string) : N * string :=
  match s with
  | EmptyString => (acc, s)
  | String.String c s' => match digit c with Some d => digits (acc * 10 + d) s' | None => (acc, s) end
  end.

(** After an opening bracket: the elements up to the closing one, or no more. *)
Fixpoint readJson (fuel : nat) (s : string) : option (json * string) :=
  match fuel, s with
  | S fuel, String.String c s' =>
      if Ascii.eqb c (ascii_of_nat 34) then p ← untilQuote s'; Some (JString (fst p), snd p)
      else if Ascii.eqb c "[" then
        match s' with
        | String.String "]" s' => Some (JArray [], s')
        | _ => p ← readElems fuel s'; Some (JArray (fst p), snd p)
        end
      else if Ascii.eqb c "{" then
        match s' with
        | String.String "}" s' => Some (JObject [], s')
        | _ => p ← readFields fuel s'; Some (mkObject (fst p), snd p)
        end
      else match digit c with Some _ => let p := digits 0 s in Some (JUnsigned (fst p), snd p) | None => None end
  | _, _ => None
  end
with readElems (fuel : nat) (s : string) : option (list json * string) :=
  match fuel with
  | 0 => None
  | S fuel =>
      p ← readJson fuel s;
      match snd p with
      | String.String "," s => q ← readElems fuel s; Some (fst p :: fst q, snd q)
      | String.String "]" s => Some ([fst p], s)
      | _ => None
      end
  end
with readFields (fuel : nat) (s : string) : option (list (string * json) * string) :=
  match fuel, s with
  | S fuel, String.String _ s =>
      k ← untilQuote s;
      match snd k with
      | String.String ":" s =>
          p ← readJson fuel s;
          match snd p with
          | String.String "," s => q ← readFields fuel s; Some ((fst k, fst p) :: fst q, snd q)
          | String.String "}" s => Some ([(fst k, fst p)], s)
          | _ => None
          end
      | _ => None
      end
  | _, _ => None
  end.

Definition read (s : string) : string + json :=
  match readJson (2 * String.length s) s with Some (j, EmptyString) => inr j | _ => inl "syntax error" end.

Definition plain_json : Json := {|
  dump := print; parse := read; castNumber := fun n => n; isInteger := fun _ => true;
  atError := fun k => "key '" +:+ k +:+ "' not found"; typeError := "type must be another" |}.
End PlainJson.

(** ** A concrete attach *)

Module AttachWitnesses.
Import ShmLoadedModel MuninClient AttachProtocol.
#[local] Existing Instance PlainJson.plain_json.
#[local] Existing Instance GgufFormat.demo_heap.

Definition demo_entry : ShmModelStore.ModelEntry := ShmModelStore.mkModelEntry "m" "m.gguf" ShmModelStore.Auto true.
Definition demo_world : ShmModelStore.World :=
  ShmModelStore.mkWorld false (Ok GgufFormat.demo_file) GgufLoad.demo_drv (Throw (RuntimeError EmptyString)).
Definition demo_store : ShmModelStore.Store :=
  match fst (ShmModelStore.create 4096 [(demo_entry, demo_world)] GgufLoad.blank) with
  | GgufReader.Returns s => s | _ => ∅ end.
Definition demo_man : TensorManifest.TensorManifest :=
  match ShmModelStore.find demo_store "m" with
  | Some lm => match buildManifest lm with Some m => m | None => TensorManifest.mkManifest 0 EmptyString EmptyString [] EmptyString [] [] 0 end
  | None => TensorManifest.mkManifest 0 EmptyString EmptyString [] EmptyString [] [] 0
  end.
Definition demo_txt : string := match PlainJson.print (TensorManifest.document demo_man) with Some s => s | None => EmptyString end.

Definition demo_chunks : Bump.t Z := Bump.mkAlloc Z 4096 [Bump.mkChunk Z 3%Z 4096 68] 12.
Definition many : list Answer := concat (replicate 1000 [Interrupted; Count 3]).
Definition demo_request : Wire := frameCells (requestFrame "m").
Definition demo_answer : Wire := concat (map frameCells (answerFrames demo_chunks demo_txt)).
Definition daemon_end : Conn := mkConn many many demo_request [] [] [].
Definition worker_end : Conn := mkConn many many demo_answer [] [] [].
Definition demo_client : MuninClient := mkClient (ShmIpc.mkImporter ∅ [] []) (-1).

Lemma many_healthy : healthy many.
Proof.
  unfold healthy, many. apply Forall_concat, Forall_replicate. repeat constructor; lia.
Qed.

Lemma demo_found : exists lm, ShmModelStore.find demo_store "m" = Some lm /\
  attachable lm demo_chunks demo_man demo_txt.
Proof.
  destruct (ShmModelStore.find demo_store "m") as [lm|] eqn:E; [|by vm_compute in E].
  exists lm. split; [done|].
  assert (H : Some (chunks lm, ShmAttachSession.inconsistent lm, buildManifest lm) =
    Some (Some demo_chunks, None, Some demo_man)).
  { transitivity ((fun lm => (chunks lm, ShmAttachSession.inconsistent lm, buildManifest lm)) <$>
      ShmModelStore.find demo_store "m"); [by rewrite E|vm_compute; reflexivity]. }
  injection H as H1 H2 H3. split; [exact H1|exact H2|exact H3|vm_compute; reflexivity| |].
  - constructor; [discriminate|constructor].
  - vm_compute. reflexivity.
Qed.

Lemma demo_man_ok : TensorManifest.manifest_ok demo_man.
Proof.
  assert (E1 : TensorManifest.chunks demo_man = [TensorManifest.mkChunkDesc 0 68]) by (vm_compute; reflexivity).
  assert (E2 : TensorManifest.tensors demo_man =
    [TensorManifest.mkEntry "w" F32 [2; 1]%N 8 0 0; TensorManifest.mkEntry "b" F32 [1]%N 4 0 64])
    by (vm_compute; reflexivity).
  assert (E3 : TensorManifest.shards demo_man = []) by (vm_compute; reflexivity).
  split; rewrite ?E1, ?E2, ?E3.
  - vm_compute. reflexivity.
  - constructor; [reflexivity|constructor].
  - constructor; [|constructor; [|constructor]]; repeat split.
  - constructor.
Qed.

Lemma attach_end_to_end_witness :
  exists e d' c' cl',
    ShmAttachSession.run 7 demo_store (fun _ => false) daemon_end = Done (Some ("m", e)) d' /\
    attachOnConnectedFd (fun _ => inr 65536%N) 5 "m" demo_client worker_end =
      Done (inr (mkResult demo_man [65536%N]), cl') c' /\
    outw c' = inw daemon_end /\ outw d' = inw worker_end /\
    ShmIpc._maps (_importer cl') !! 65536%N = Some 4096%N.
Proof.
  destruct demo_found as (lm & Hf & Hat).
  destruct (attach_end_to_end 7 demo_store (fun _ => false) "m" lm demo_chunks demo_man demo_txt
    (fun _ => inr 65536%N) (fun _ => 65536%N) 5 demo_client daemon_end worker_end)
    as (e & d' & c' & cl' & H1 & _ & H2 & H3 & H4 & _ & _ & _ & _ & _ & _ & _ & H5).
  - exact Hf.
  - exact Hat.
  - exact demo_man_ok.
  - discriminate.
  - vm_compute. reflexivity.
  - vm_compute. reflexivity.
  - vm_compute. discriminate.
  - vm_compute. discriminate.
  - vm_compute. split; reflexivity.
  - intros j Hj. split; reflexivity.
  - apply NoDup_singleton.
  - reflexivity.
  - exact many_healthy.
  - exact many_healthy.
  - exact many_healthy.
  - exact many_healthy.
  - apply Nat.ltb_lt. vm_compute. reflexivity.
  - apply Nat.leb_le. vm_compute. reflexivity.
  - apply Nat.leb_le. vm_compute. reflexivity.
  - apply Nat.leb_le. vm_compute. reflexivity.
  - reflexivity.
  - reflexivity.
  - reflexivity.
  - reflexivity.
  - exists e, d', c', cl'. split; [exact H1|]. split; [exact H2|]. split; [exact H3|]. split; [exact H4|].
    exact (H5 0 (Nat.lt_0_succ 0)).
Defined.
End AttachWitnesses.
