(* ===== verification/Weights.v ===== *)
(** * The weights of a model by name

    Models [src/src/core/gguf/WeightsMap.{hpp,cpp}]: the index of tensors by name,
    the index by block, and the tensors a worker makes from a manifest and the
    chunks it mapped.  Hash maps are finite maps; the order in which one is
    iterated, and whether memory for a longer vector is granted, are inputs.  The
    last part joins the loader, the manifest and this map. *)

From Stdlib Require Import Ascii.
From stdpp Require Import pretty.
From S2P Require Import Prelude Gguf GgufProofs GgufFormat ChunkAllocator GgufLoad UnixSocket Ipc Munin Attach.
Import GgufReader.

Module WeightsMap.

(** Tensor pointers are the tensors: nothing changes them after construction.
    [_byBlock] is its length and its entries.
    [src/src/core/gguf/WeightsMap.hpp:110-135 WeightsMap] *)
Record WeightsMap := mkWeights {
  _owned : list GgufTensor;
  _byName : gmap string GgufTensor;
  blocks : N;
  _byBlock : gmap N (gmap string GgufTensor);
}.

Definition indexByName (ts : list GgufTensor) : gmap string GgufTensor :=
  fold_left (fun m t => emplace (name t) t m) ts ∅.

Definition digit (c : ascii) : option N :=
  let n := N_of_ascii c in if ((48 <=? n) && (n <=? 57))%N then Some (n - 48)%N else None.

(** The digits at the front, as a [size_t], and what follows them.
    [src/src/core/gguf/WeightsMap.cpp:55-60 WeightsMap::buildBlockIndex] *)
Fixpoint scanDigits (idx : N) (sv : string) : N * string :=
  match sv with
  | EmptyString => (idx, sv)
  | String.String c sv' =>
      match digit c with Some d => scanDigits (u64 (u64 (idx * 10) + d)) sv' | None => (idx, sv) end
  end.

(** Block number and suffix of a name [blk.<idx>.<suffix>].
    [src/src/core/gguf/WeightsMap.cpp:51-65 WeightsMap::buildBlockIndex] *)
Definition blockKey (nm : string) : option (N * string) :=
  match nm with
  | String.String "b" (String.String "l" (String.String "k" (String.String "." sv))) =>
      let '(idx, rest) := scanDigits 0 sv in
      if String.length rest =? String.length sv then None
      else match rest with String.String "." suffix => Some (idx, suffix) | _ => None end
  | _ => None
  end.

Section Building.
(** What a vector of [n] block maps throws when it cannot be had, and the order of
    iteration over the index by name. *)
Variable room : N -> option exn.
Variable order : gmap string GgufTensor -> list (string * GgufTensor).

Definition BlockIndex : Type := N * gmap N (gmap string GgufTensor).

(** [src/src/core/gguf/WeightsMap.cpp:66-69 WeightsMap::buildBlockIndex] *)
Definition addBlock (idx : N) (suffix : string) (t : GgufTensor) (b : BlockIndex) : outcome BlockIndex :=
  let '(n, m) := b in
  let need := u64 (idx + 1) in
  match (if (n <=? idx)%N then
           match room need with
           | Some e => Throws e
           | None => Returns (need, filter (fun kv => (fst kv < need)%N) m)
           end
         else Returns b) with
  | Returns (n, m) =>
      if (idx <? n)%N then Returns (n, <[idx := emplace suffix t (default ∅ (m !! idx))]> m) else Undefined
  | o => o
  end.

(** [src/src/core/gguf/WeightsMap.cpp:48-71 WeightsMap::buildBlockIndex] *)
Fixpoint buildBlockIndex (l : list (string * GgufTensor)) (b : BlockIndex) : outcome BlockIndex :=
  match l with
  | [] => Returns b
  | (nm, t) :: l =>
      match blockKey nm with
      | None => buildBlockIndex l b
      | Some (idx, suffix) =>
          match addBlock idx suffix t b with Returns b => buildBlockIndex l b | o => o end
      end
  end.

Definition index (owned ts : list GgufTensor) : outcome WeightsMap :=
  let byName := indexByName ts in
  match buildBlockIndex (order byName) (0%N, ∅) with
  | Returns (n, m) => Returns (mkWeights owned byName n m)
  | Throws e => Throws e
  | Undefined => Undefined
  end.

(** [src/src/core/gguf/WeightsMap.cpp:17-25 WeightsMap::WeightsMap] *)
Definition fromReader (r : GgufReader) : outcome WeightsMap := index [] (_tensors r).

(** [src/src/core/gguf/WeightsMap.cpp:27-38 WeightsMap::WeightsMap] *)
Definition create (attachedTensors : list GgufTensor) : outcome WeightsMap :=
  index attachedTensors attachedTensors.

(** [src/src/core/gguf/WeightsMap.cpp:124-128 WeightsMap::fromOwnedTensors] *)
Definition fromOwnedTensors (tensors : list GgufTensor) : outcome WeightsMap := create tensors.

(** [src/src/core/gguf/WeightsMap.cpp:98-113 WeightsMap::fromAttachedChunked] *)
Definition attachedTensor (me : TensorManifest.ManifestEntry) (base : N) : GgufTensor :=
  mkTensor (TensorManifest.me_name me) (TensorManifest.me_type me) (TensorManifest.me_dims me)
    (fold_left (fun nel d => u64 (nel * d)) (TensorManifest.me_dims me) 1%N) (TensorManifest.me_bytes me)
    0 (u64 (base + TensorManifest.me_chunkOffset me)) (TensorManifest.me_chunkIndex me)
    (TensorManifest.me_chunkOffset me).

(** [src/src/core/gguf/WeightsMap.cpp:79-114 WeightsMap::fromAttachedChunked] *)
Fixpoint attachedTensors (i : nat) (es : list TensorManifest.ManifestEntry) (chunkBases : list N)
    : exn + list GgufTensor :=
  match es with
  | [] => inr []
  | me :: es =>
      match chunkBases !! N.to_nat (TensorManifest.me_chunkIndex me) with
      | None => inl (RuntimeError ("WeightsMap::fromAttachedChunked: tensor[" +:+ pretty (N.of_nat i) +:+ "] '" +:+
          TensorManifest.me_name me +:+ "' references chunkIndex=" +:+ pretty (TensorManifest.me_chunkIndex me) +:+
          " but only " +:+ pretty (N.of_nat (length chunkBases)) +:+ " chunk base(s) available"))
      | Some base =>
          if (base =? 0)%N then
            inl (RuntimeError ("WeightsMap::fromAttachedChunked: tensor[" +:+ pretty (N.of_nat i) +:+ "] '" +:+
              TensorManifest.me_name me +:+ "' references chunkIndex=" +:+ pretty (TensorManifest.me_chunkIndex me) +:+
              " whose base pointer is null"))
          else
            match attachedTensors (S i) es chunkBases with
            | inl e => inl e
            | inr ts => inr (attachedTensor me base :: ts)
            end
      end
  end.

(** [src/src/core/gguf/WeightsMap.cpp:73-122 WeightsMap::fromAttachedChunked] *)
Definition fromAttachedChunked (manifest : TensorManifest.TensorManifest) (chunkBases : list N)
    : outcome WeightsMap :=
  match attachedTensors 0 (TensorManifest.tensors manifest) chunkBases with
  | inl e => Throws e
  | inr owned => create owned
  end.
End Building.

(** [src/src/core/gguf/WeightsMap.cpp:130-133 WeightsMap::find] *)
Definition find (w : WeightsMap) (nm : string) : option GgufTensor := _byName w !! nm.

(** [src/src/core/gguf/WeightsMap.cpp:135-142 WeightsMap::require] *)
Definition require (w : WeightsMap) (nm : string) : result GgufTensor :=
  match find w nm with
  | Some t => Ok t
  | None => Throw (RuntimeError ("WeightsMap::require: tensor '" +:+ nm +:+ "' not in model"))
  end.

(** [src/src/core/gguf/WeightsMap.cpp:144-152 WeightsMap::findBlock] *)
Definition findBlock (w : WeightsMap) (blockIdx : N) (suffix : string) : option GgufTensor :=
  if (blocks w <=? blockIdx)%N then None else default ∅ (_byBlock w !! blockIdx) !! suffix.

(** [src/src/core/gguf/WeightsMap.cpp:40-46 WeightsMap::totalTensorBytes] *)
Definition totalTensorBytes (w : WeightsMap) : N :=
  map_fold (fun _ t total => u64 (total + nbytes t)) 0%N (_byName w).

(** [src/src/core/gguf/WeightsMap.hpp:85-85 WeightsMap::size] *)
Definition size (w : WeightsMap) : nat := base.size (_byName w).

(** [src/src/core/gguf/WeightsMap.hpp:96-96 WeightsMap::isAttached] *)
Definition isAttached (w : WeightsMap) : bool := negb (length (_owned w) =? 0).

(** ** The block index is the index by name *)

(** The name [findBlock] stands for. *)
Definition blockName (i : N) (suffix : string) : string := "blk." +:+ pretty i +:+ "." +:+ suffix.

Lemma pretty_N_go_app x : forall s t, pretty_N_go x s +:+ t = pretty_N_go x (s +:+ t).
Proof.
  induction (N.lt_wf_0 x) as [x _ IH]. intros s t. destruct (N.eq_dec x 0%N) as [->|Hx]; [by rewrite !pretty_N_go_0|].
  rewrite (pretty_N_go_step x s), (pretty_N_go_step x (s +:+ t)), IH by first [lia|apply N.div_lt; lia]. done.
Qed.

Lemma digit_pretty_char d : (d < 10)%N -> digit (pretty_N_char d) = Some d.
Proof.
  intros Hd.
  assert (d = 0 \/ d = 1 \/ d = 2 \/ d = 3 \/ d = 4 \/ d = 5 \/ d = 6 \/ d = 7 \/ d = 8 \/ d = 9)%N as Hc by lia.
  decompose [or] Hc; subst d; reflexivity.
Qed.

Lemma scanDigits_go x : (x < 2 ^ 64)%N -> forall s,
  scanDigits 0 (pretty_N_go x s) = scanDigits x s.
Proof.
  induction (N.lt_wf_0 x) as [x _ IH]. intros Hx s. destruct (N.eq_dec x 0%N) as [->|Hn]; [by rewrite pretty_N_go_0|].
  rewrite pretty_N_go_step by lia.
  assert (Hq : (x `div` 10 < x)%N) by (apply N.div_lt; lia).
  rewrite IH by lia. cbn [scanDigits]. pose proof (N.div_mod x 10 ltac:(done)) as Hdm.
  pose proof (N.mod_lt x 10 ltac:(done)) as Hm. rewrite digit_pretty_char by done.
  generalize dependent (x `div` 10)%N. generalize dependent (x `mod` 10)%N. intros d Hd q Hq Hdm.
  rewrite (u64_small (q * 10)) by lia. rewrite u64_small by lia. f_equal. lia.
Qed.

Lemma scanDigits_pretty i s : (i < 2 ^ 64)%N -> scanDigits 0 (pretty i +:+ "." +:+ s) = (i, "." +:+ s).
Proof.
  intros Hi. unfold pretty, pretty_N. destruct (decide (i = 0)%N) as [->|Hn]; [reflexivity|].
  rewrite pretty_N_go_app, scanDigits_go by done. reflexivity.
Qed.

Lemma length_pretty_pos (i : N) : 0 < String.length (pretty i).
Proof.
  destruct (pretty i) eqn:E; [|cbn; lia]. exfalso. revert E. unfold pretty, pretty_N.
  destruct (decide (i = 0)%N) as [->|Hn]; [done|]. rewrite pretty_N_go_step by lia. intros E.
  pose proof (pretty_N_go_app (i `div` 10) EmptyString (String.String (pretty_N_char (i `mod` 10)) EmptyString)) as H.
  change (EmptyString +:+ ?x) with x in H. rewrite E in H.
  by destruct (pretty_N_go (i `div` 10) EmptyString).
Qed.

Lemma blockKey_prefix sv : blockKey ("blk." +:+ sv) =
  let '(idx, rest) := scanDigits 0 sv in
  if String.length rest =? String.length sv then None
  else match rest with String.String "." suffix => Some (idx, suffix) | _ => None end.
Proof. reflexivity. Qed.

Lemma blockKey_blockName i s : (i < 2 ^ 64)%N -> blockKey (blockName i s) = Some (i, s).
Proof.
  intros Hi. unfold blockName. rewrite blockKey_prefix, scanDigits_pretty by done. rewrite (proj2 (Nat.eqb_neq _ _)); [reflexivity|].
  pose proof (length_pretty_pos i). rewrite !length_append. cbn. lia.
Qed.

(** Block names are written the way [blockName] writes them: no leading zero, no
    number beyond [size_t]. *)
Definition canonical (nm : string) : Prop := forall i s, blockKey nm = Some (i, s) -> nm = blockName i s.

(** The block index holds the block tensors of [l]. *)
Definition indexed (l : list (string * GgufTensor)) (b : BlockIndex) : Prop :=
  (forall i, is_Some (b.2 !! i) -> (i < b.1)%N) /\
  forall i s t, default ∅ (b.2 !! i) !! s = Some t <->
    exists nm, (nm, t) ∈ l /\ blockKey nm = Some (i, s).

Lemma indexed_other l nm t b : indexed l b -> blockKey nm = None -> indexed (l ++ [(nm, t)]) b.
Proof.
  intros [H1 H2] Hk. split; [done|]. intros i s t'. rewrite H2. split; intros (nm' & Hin & Hk').
  - exists nm'. split; [|done]. apply elem_of_app. by left.
  - exists nm'. split; [|done]. apply elem_of_app in Hin as [Hin|Hin]; [done|].
    apply list_elem_of_singleton in Hin. injection Hin as -> ->. by rewrite Hk in Hk'.
Qed.

Lemma indexed_add l nm t n m i s :
  indexed l (n, m) -> blockKey nm = Some (i, s) -> (i < n)%N ->
  (forall nm' t', (nm', t') ∈ l -> blockKey nm' <> Some (i, s)) ->
  indexed (l ++ [(nm, t)]) (n, <[i := emplace s t (default ∅ (m !! i))]> m).
Proof.
  intros [H1 H2] Hk Hi Hnew. cbn [fst snd] in *. split; cbn [fst snd].
  - intros j Hj. destruct (decide (i = j)) as [<-|Hne]; [done|]. rewrite lookup_insert_ne in Hj by done. by apply H1.
  - assert (Hs : default ∅ (m !! i) !! s = None).
    { destruct (default ∅ (m !! i) !! s) as [t0|] eqn:E; [|done]. apply H2 in E as (nm' & Hin & Hk').
      by apply Hnew in Hin. }
    intros j s' t'. transitivity ((exists nm', (nm', t') ∈ l /\ blockKey nm' = Some (j, s')) \/
      (j = i /\ s' = s /\ t' = t)).
    + rewrite <- H2. destruct (decide (i = j)) as [<-|Hne].
      * rewrite lookup_insert_eq. change (default ∅ (Some ?x)) with x. rewrite emplace_fresh by done.
        destruct (decide (s = s')) as [<-|Hns].
        -- rewrite lookup_insert_eq, Hs. split; [intros [= ->]; auto|by intros [|(_ & _ & ->)]].
        -- rewrite lookup_insert_ne by done. split; [auto|by intros [|(_ & -> & _)]].
      * rewrite lookup_insert_ne by done. split; [auto|by intros [|(-> & _)]].
    + split.
      * intros [(nm' & Hin & Hk')|(-> & -> & ->)].
        -- exists nm'. split; [|done]. apply elem_of_app. by left.
        -- exists nm. split; [|done]. apply elem_of_app. right. by apply list_elem_of_singleton.
      * intros (nm' & Hin & Hk'). apply elem_of_app in Hin as [Hin|Hin]; [left; eauto|].
        apply list_elem_of_singleton in Hin. injection Hin as -> ->. right. rewrite Hk in Hk'. by injection Hk' as -> ->.
Qed.

Lemma indexed_grow l n m n' : indexed l (n, m) -> (n <= n')%N -> indexed l (n', filter (fun kv => (fst kv < n')%N) m).
Proof.
  intros [H1 H2] Hn. cbn [fst snd] in *.
  assert (E : filter (fun kv : N * gmap string GgufTensor => (fst kv < n')%N) m = m).
  { apply map_filter_id. intros i x Hx. cbn. assert (i < n)%N by (apply H1; eauto). lia. }
  rewrite E. split; [|done]. intros i Hi. apply H1 in Hi. cbn in *. lia.
Qed.

Lemma scanDigits_bound sv : forall idx, (idx < 2 ^ 64)%N -> (fst (scanDigits idx sv) < 2 ^ 64)%N.
Proof.
  induction sv as [|c sv IH]; intros idx H; [done|]. cbn. destruct (digit c); [|done]. apply IH, u64_range.
Qed.

Lemma blockKey_bound nm i s : blockKey nm = Some (i, s) -> (i < 2 ^ 64)%N.
Proof.
  intros H. assert (Hp : exists sv, nm = "blk." +:+ sv).
  { unfold blockKey in H. repeat (case_match; try done). subst. by eexists. }
  destruct Hp as [sv ->]. rewrite blockKey_prefix in H.
  pose proof (scanDigits_bound sv 0 ltac:(done)) as Hb. destruct (scanDigits 0 sv) as [idx rest]. cbn in Hb.
  destruct (_ =? _); [done|]. repeat (case_match; try done). by injection H as <- _.
Qed.

Lemma addBlock_spec room l nm t b i s :
  indexed l b -> blockKey nm = Some (i, s) ->
  (forall nm' t', (nm', t') ∈ l -> blockKey nm' <> Some (i, s)) ->
  match addBlock room i s t b with
  | Returns b' => indexed (l ++ [(nm, t)]) b'
  | Throws e => exists n, room n = Some e
  | Undefined => i = (2 ^ 64 - 1)%N
  end.
Proof.
  destruct b as [n m]. intros Hb Hk Hnew. pose proof (blockKey_bound nm i s Hk) as Hi. unfold addBlock.
  destruct (N.leb_spec n i) as [Hn|Hn].
  - destruct (room (u64 (i + 1))) as [e|] eqn:Hr; [by exists (u64 (i + 1))|].
    destruct (decide (i = 2 ^ 64 - 1)%N) as [->|Hmax]; [done|].
    rewrite u64_small by lia. rewrite (proj2 (N.ltb_lt i (i + 1))) by lia.
    apply indexed_add; [apply (indexed_grow l n); [done|lia]|done|lia|done].
  - rewrite (proj2 (N.ltb_lt i n)) by done. by apply indexed_add.
Qed.

Lemma buildBlockIndex_spec room l : forall l0 b,
  indexed l0 b -> NoDup (map fst (l0 ++ l)) -> Forall (fun kv => canonical (fst kv)) (l0 ++ l) ->
  match buildBlockIndex room l b with
  | Returns b' => indexed (l0 ++ l) b'
  | Throws e => exists n, room n = Some e
  | Undefined => exists nm t s, (nm, t) ∈ l /\ blockKey nm = Some ((2 ^ 64 - 1)%N, s)
  end.
Proof.
  induction l as [|[nm t] l IH]; intros l0 b Hb Hnd Hc; cbn [buildBlockIndex]; [by rewrite app_nil_r|].
  assert (Hl : l0 ++ (nm, t) :: l = (l0 ++ [(nm, t)]) ++ l) by by rewrite <- app_assoc.
  assert (Hlater : forall b', indexed (l0 ++ [(nm, t)]) b' ->
    match buildBlockIndex room l b' with
    | Returns b'' => indexed (l0 ++ (nm, t) :: l) b''
    | Throws e => exists n, room n = Some e
    | Undefined => exists nm' t' s', (nm', t') ∈ (nm, t) :: l /\ blockKey nm' = Some ((2 ^ 64 - 1)%N, s')
    end).
  { intros b' Hb'. rewrite Hl in Hnd, Hc |- *. specialize (IH _ b' Hb' Hnd Hc).
    destruct (buildBlockIndex room l b'); [done|done|]. destruct IH as (nm' & t' & s' & Hin & Hk').
    exists nm', t', s'. split; [by right|done]. }
  destruct (blockKey nm) as [[i s]|] eqn:Hk; [|by apply Hlater, indexed_other].
  assert (Hnew : forall nm' t', (nm', t') ∈ l0 -> blockKey nm' <> Some (i, s)).
  { intros nm' t' Hin Hk'. apply Forall_app in Hc as [Hc0 Hc1]. apply Forall_cons in Hc1 as [Hc1 _].
    rewrite Forall_forall in Hc0. specialize (Hc0 _ Hin i s Hk'). specialize (Hc1 i s Hk). cbn in Hc0, Hc1.
    rewrite map_app in Hnd. apply NoDup_app in Hnd as (_ & Hnd & _). apply (Hnd nm').
    - by apply (list_elem_of_fmap_2' fst _ _ _ Hin).
    - rewrite Hc0, <- Hc1. left. }
  pose proof (addBlock_spec room l0 nm t b i s Hb Hk Hnew) as Ha.
  destruct (addBlock room i s t b) as [b'|e|]; [by apply Hlater|done|].
  exists nm, t, s. split; [by left|congruence].
Qed.

Lemma indexByName_spec ts nm t : indexByName ts !! nm = Some t -> t ∈ ts /\ name t = nm.
Proof.
  unfold indexByName. revert nm t.
  cut (forall m l0, (forall nm t, m !! nm = Some t -> t ∈ l0 /\ name t = nm) -> forall nm t,
    fold_left (fun m t => emplace (name t) t m) ts m !! nm = Some t -> t ∈ l0 ++ ts /\ name t = nm).
  { intros H nm t. by apply (H ∅ []). }
  induction ts as [|t0 ts IH]; intros m l0 Hm nm t; cbn; [rewrite app_nil_r; apply Hm|].
  intros H. apply (IH _ (l0 ++ [t0])) in H; [by rewrite <- app_assoc in H|].
  intros nm' t' H'. unfold emplace in H'. destruct (m !! name t0) eqn:E.
  - destruct (Hm nm' t' H'). split; [|done]. apply elem_of_app. by left.
  - destruct (decide (name t0 = nm')) as [<-|Hne].
    + rewrite lookup_insert_eq in H'. injection H' as <-. split; [|done]. apply elem_of_app. right. by left.
    + rewrite lookup_insert_ne in H' by done. destruct (Hm nm' t' H'). split; [|done]. apply elem_of_app. by left.
Qed.

(** Looking a tensor up by block number and suffix answers what the lookup of
    the name [blk.<number>.<suffix>] answers, in whatever order the index was built,
    for every model whose block names are written plainly.  Building the index
    fails only where memory for the vector is refused; it leaves defined behaviour
    only for a name with block number 2^64 - 1, for which the vector is resized to
    nothing. *)
Theorem find_block_by_name room order owned ts :
  (forall m, order m ≡ₚ map_to_list m) -> Forall (fun t => canonical (name t)) ts ->
  match index room order owned ts with
  | Returns w => forall i s, (i < 2 ^ 64)%N -> findBlock w i s = find w (blockName i s)
  | Throws e => exists n, room n = Some e
  | Undefined => exists t s, t ∈ ts /\ blockKey (name t) = Some ((2 ^ 64 - 1)%N, s)
  end.
Proof.
  intros Ho Hc. unfold index. set (byName := indexByName ts).
  assert (Hin : forall nm t, (nm, t) ∈ order byName <-> byName !! nm = Some t).
  { intros nm t. by rewrite Ho, elem_of_map_to_list. }
  pose proof (buildBlockIndex_spec room (order byName) [] (0%N, ∅)) as H. cbn [app] in H.
  destruct (buildBlockIndex room (order byName) (0%N, ∅)) as [[n m]|e|].
  2: apply H. 5: destruct H as (nm & t & s & Ht & Hk). 1: destruct H as [H1 H2].
  all: try (split; cbn; [intros i [x Hx]; done|intros i s t; rewrite lookup_empty; cbn;
    rewrite lookup_empty; split; [done|intros (nm & Hnm & _); by apply not_elem_of_nil in Hnm]]).
  all: try (rewrite Ho; apply NoDup_fst_map_to_list).
  all: try (apply Forall_forall; intros [nm t] Hx; apply Hin, indexByName_spec in Hx as [Hx <-];
    rewrite Forall_forall in Hc; by apply Hc).
  - intros i s Hi. unfold findBlock, find. cbn [blocks _byBlock _byName fst snd] in *.
    apply option_eq. intros t. transitivity (default ∅ (m !! i) !! s = Some t).
    + destruct (N.leb_spec n i) as [Hn|Hn]; [|done]. split; [done|].
      destruct (m !! i) as [x|] eqn:E; [|by cbn; rewrite lookup_empty].
      assert (i < n)%N by (apply H1; eauto). lia.
    + rewrite H2. split.
      * intros (nm & Hnm & Hk). apply Hin in Hnm. pose proof (indexByName_spec _ _ _ Hnm) as [Ht <-].
        rewrite Forall_forall in Hc. by rewrite <- (Hc t Ht i s Hk).
      * intros Hf. exists (blockName i s). split; [by apply Hin|by apply blockKey_blockName].
  - apply Hin, indexByName_spec in Ht as [Ht <-]. eauto.
Qed.
End WeightsMap.

(** ** From the file to the worker *)

Module AttachedModel.
Import GgufProofs GgufLoad ShmLoadedModel ShmModelStore WeightsMap.

(** The worker's mappings show the daemon's chunks. *)
Definition shares (a : Bump.t Z) (bases : list N) (m mw : memory) : Prop :=
  forall i c, Bump._chunks Z a !! i = Some c ->
  exists b, bases !! i = Some b /\ b <> 0%N /\ (b + Bump.used Z c < 2 ^ 64)%N /\
    forall o, (o < Bump.used Z c)%N -> mw (b + o)%N = m (Bump.base Z c + o)%N.

(** The tensor a worker has for the file's tensor [t]. *)
Definition arrived (r : GgufReader) (file : list ascii) (mw : memory) (t t' : GgufTensor) : Prop :=
  name t' = name t /\ type t' = type t /\ dimensions t' = dimensions t /\ nelements t' = nelements t /\
  nbytes t' = nbytes t /\
  forall k, (k < nbytes t)%N ->
    Some (mw (usmPtr t' + k)%N) = file !! N.to_nat (_tensorDataOffset r + fileOffset t + k).

(** The names a worker's map can index. *)
Definition indexable (ts : list GgufTensor) : Prop :=
  NoDup (map name ts) /\ forall t i s, t ∈ ts -> blockKey (name t) = Some (i, s) -> i <> (2 ^ 64 - 1)%N.

Lemma known_type t : typeInfo (type t) <> mkTypeInfo "UNKNOWN" 0 0 ->
  ggmlType_of_tag (tag_of_ggmlType (type t)) = type t /\ (tag_of_ggmlType (type t) < 2 ^ 32)%N.
Proof. destruct (type t); try done; split; reflexivity. Qed.

Lemma tensor_ok_type t : tensor_ok t ->
  ggmlType_of_tag (tag_of_ggmlType (type t)) = type t /\ (tag_of_ggmlType (type t) < 2 ^ 32)%N.
Proof.
  intros (_ & _ & H1 & H2 & _). apply known_type. intros E. apply H2. rewrite H1.
  unfold bytesForTensor. by rewrite E.
Qed.

Lemma loaded_entry r file a m t t' :
  tensor_ok t -> loaded Z r file a m t t' -> (N.of_nat (length (Bump._chunks Z a)) < 2 ^ 32)%N ->
  TensorManifest.entry_ok (length (Bump._chunks Z a)) (entryOf t').
Proof.
  intros Hok (al & i & c & -> & Hi & Hc & _) Hlen. apply lookup_lt_Some in Hc.
  destruct (tensor_ok_type t Hok) as [H1 H2]. unfold TensorManifest.entry_ok, entryOf.
  cbn [TensorManifest.me_type TensorManifest.me_chunkIndex] in *. rewrite Hi, u32_small by lia.
  split; [exact H1|]. split; [exact H2|]. lia.
Qed.

Lemma loaded_arrives r file a m mw bases t t' :
  tensor_ok t -> loaded Z r file a m t t' -> (N.of_nat (length (Bump._chunks Z a)) < 2 ^ 32)%N ->
  shares a bases m mw ->
  exists b, bases !! N.to_nat (chunkIndex t') = Some b /\ b <> 0%N /\
    arrived r file mw t (attachedTensor (entryOf t') b).
Proof.
  intros Hok (al & i & c & -> & Hi & Hc & Hp & Hu & Hb) Hlen Hsh.
  destruct (Hsh i c Hc) as (b & H1 & H2 & H3 & H4). pose proof (lookup_lt_Some _ _ _ Hc) as Hl.
  exists b. rewrite Hi, u32_small, Nat2N.id by lia. split; [done|]. split; [done|].
  destruct Hok as (_ & Hn & _). unfold arrived, attachedTensor, entryOf.
  cbn [name type dimensions nelements nbytes usmPtr TensorManifest.me_name TensorManifest.me_type
    TensorManifest.me_dims TensorManifest.me_bytes TensorManifest.me_chunkOffset].
  repeat (split; [first [exact (eq_sym Hn)|reflexivity]|]). intros k Hk. rewrite <- Hb by done.
  rewrite u64_small by lia. rewrite <- N.add_assoc, H4 by lia. by rewrite Hp, N.add_assoc.
Qed.

Lemma attachedTensors_spec (R : GgufTensor -> GgufTensor -> Prop) bases ts ts' :
  Forall2 (fun t t' => exists b, bases !! N.to_nat (chunkIndex t') = Some b /\ b <> 0%N /\
    R t (attachedTensor (entryOf t') b)) ts ts' -> forall i,
  exists owned, attachedTensors i (map entryOf ts') bases = inr owned /\ Forall2 R ts owned.
Proof.
  intros H. induction H as [|t t' ts ts' (b & H1 & H2 & H3) _ IH]; intros i; [by exists []|].
  destruct (IH (S i)) as (owned & E & Ho). exists (attachedTensor (entryOf t') b :: owned).
  split; [|by constructor]. cbn [map attachedTensors].
  change (TensorManifest.me_chunkIndex (entryOf t')) with (chunkIndex t'). rewrite H1.
  rewrite (proj2 (N.eqb_neq _ _)) by done. by rewrite E.
Qed.

Lemma indexByName_find ts t : NoDup (map name ts) -> t ∈ ts -> indexByName ts !! name t = Some t.
Proof.
  unfold indexByName. intros Hnd Ht.
  cut (forall m : gmap string GgufTensor, (forall t, t ∈ ts -> m !! name t = None) ->
    fold_left (fun m t => emplace (name t) t m) ts m !! name t = Some t).
  { intros H. apply H. intros t0 _. apply lookup_empty. }
  induction ts as [|t0 ts IH]; [by apply not_elem_of_nil in Ht|]. intros m Hm. cbn [map fold_left] in *.
  apply NoDup_cons in Hnd as [H0 Hnd]. rewrite emplace_fresh by (apply Hm; by left).
  assert (Hrest : forall t, t ∈ ts -> (<[name t0 := t0]> m) !! name t = None).
  { intros t1 Ht1. rewrite lookup_insert_ne; [apply Hm; by right|]. intros E. apply H0. rewrite E.
    by apply list_elem_of_fmap_2. }
  apply elem_of_cons in Ht as [->|Ht]; [|by apply IH].
  cut (forall l m, name t0 ∉ map name l ->
    fold_left (fun m t => emplace (name t) t m) l m !! name t0 = m !! name t0).
  { intros H. rewrite H by done. by rewrite lookup_insert_eq. }
  intros l. induction l as [|t1 l IHl]; intros m' Hl; [done|]. cbn [map fold_left] in *.
  apply not_elem_of_cons in Hl as [Hne Hl]. rewrite IHl by done. unfold emplace.
  destruct (m' !! name t1); [done|]. by rewrite lookup_insert_ne.
Qed.

Lemma buildBlockIndex_returns room l : (forall n, room n = None) ->
  (forall nm t i s, (nm, t) ∈ l -> blockKey nm = Some (i, s) -> i <> (2 ^ 64 - 1)%N) -> forall b,
  exists b', buildBlockIndex room l b = Returns b'.
Proof.
  intros Hr. induction l as [|[nm t] l IH]; intros Hl b; [by exists b|]. cbn [buildBlockIndex].
  assert (Hl' : forall nm t i s, (nm, t) ∈ l -> blockKey nm = Some (i, s) -> i <> (2 ^ 64 - 1)%N).
  { intros nm' t' i s Hin. apply (Hl nm' t'). by right. }
  destruct (blockKey nm) as [[i s]|] eqn:Hk; [|by apply IH]. pose proof (blockKey_bound nm i s Hk) as Hi.
  pose proof (Hl nm t i s ltac:(by left) Hk) as Hne. unfold addBlock. destruct b as [n m].
  destruct (N.leb_spec n i) as [Hn|Hn]; [rewrite Hr, u64_small by lia; rewrite (proj2 (N.ltb_lt i (i + 1))) by lia
    |rewrite (proj2 (N.ltb_lt i n)) by done]; by apply IH.
Qed.

(** What a load of a GGUF file by the daemon leaves. *)
Lemma loadGguf_spec (HP : Heap) m w chunkBytes mem lm mem' :
  (forall file, w_file w = Ok file -> (GgufReader.size file < 2 ^ 63)%N) -> (chunkBytes < 2 ^ 62)%N ->
  ShmModelStore.loadGgufInto m w chunkBytes mem = (Returns lm, mem') ->
  exists file r r' a n, w_file w = Ok file /\ open (ShmModelStore.e_path m) (w_file w) newReader = (Returns tt, r) /\
    opened file n (24 + 32 * N.of_nat n) r /\ chunks lm = Some a /\ reader lm = Some r' /\ isNvfp4 lm = false /\
    (Forall (nowrap r) (_tensors r) -> (N.of_nat (length (Bump._chunks Z a)) < 2 ^ 32)%N -> regions_apart Z a ->
     Forall2 (loaded Z r file a mem') (_tensors r) (_tensors r')).
Proof.
  intros Hsz Hcb H. unfold ShmModelStore.loadGgufInto in H.
  destruct (ShmChunkAllocator.create chunkBytes) as [a|e] eqn:Hc; [|done].
  pose proof (open_correct HP (ShmModelStore.e_path m) (w_file w) newReader Hsz) as Hop.
  destruct (open (ShmModelStore.e_path m) (w_file w) newReader) as [[[]|e|] r] eqn:Eo; try done.
  destruct Hop as (file & n & Hf & Hop).
  pose proof (chunk_load_correct "ShmChunkAllocator" "loadTensorsIntoShmChunks" Z (w_drv w) r file n
    (24 + 32 * N.of_nat n) chunkBytes a mem (Hsz _ Hf) Hop) as HL.
  unfold loadTensorsIntoShmChunks in H.
  destruct (loadIntoChunks "ShmChunkAllocator" Z "loadTensorsIntoShmChunks" (w_drv w) r a mem)
    as [[[o r'] a'] m1]. destruct o as [u|e|]; try done. injection H as <- <-.
  exists file, r, r', a', n. repeat (split; [done|]). intros Hnw Hlen Hreg.
  by destruct (HL Hnw Hc Hcb Hlen Hreg) as (_ & _ & H2).
Qed.

Lemma gguf_manifest_ok lm r' a man :
  chunks lm = Some a -> reader lm = Some r' -> isNvfp4 lm = false -> buildManifest lm = Some man ->
  (N.of_nat (length (Bump._chunks Z a)) < 2 ^ 32)%N ->
  Forall (fun t => TensorManifest.entry_ok (length (Bump._chunks Z a)) (entryOf t)) (_tensors r') ->
  TensorManifest.manifest_ok man.
Proof.
  intros H1 H2 H3 Hb Hlen Ht.
  pose proof (AttachProtocol.manifest_chunks lm a man H1 Hb Hlen) as Hl.
  unfold buildManifest in Hb. rewrite H1, H2, H3 in Hb. injection Hb as <-. cbn [TensorManifest.chunks] in Hl.
  split; cbn [TensorManifest.protocolVersion TensorManifest.chunks TensorManifest.tensors TensorManifest.shards].
  - done.
  - unfold chunkDescs, Bump.chunkCount. rewrite u32_small, Nat2N.id by done.
    apply Forall_fmap, Forall_forall. intros i Hi. apply elem_of_seq in Hi.
    cbn [compose]. unfold TensorManifest.chunk_ok. cbn. lia.
  - rewrite Hl. by apply Forall_fmap.
  - constructor.
Qed.

(** C24: A worker that attaches to a GGUF model gets the file: from the manifest of
    the loaded model and mappings of its chunks, building the weights succeeds, and
    every tensor of the file is found under its name with its type, dimensions and
    size, and at its address are exactly its bytes of the file; the manifest is one
    the wire transports.  Hypotheses: the load returned, tensor offsets do not wrap,
    names are distinct, the daemon's chunks do not overlap, the worker's mappings
    show them, memory for the block index is granted. *)
Theorem attached_weights_are_the_file (HP : Heap) m w chunkBytes mem lm mem' a bases mw room order :
  (forall file, w_file w = Ok file -> (GgufReader.size file < 2 ^ 63)%N) -> (chunkBytes < 2 ^ 62)%N ->
  ShmModelStore.loadGgufInto m w chunkBytes mem = (Returns lm, mem') -> chunks lm = Some a ->
  (forall r, open (ShmModelStore.e_path m) (w_file w) newReader = (Returns tt, r) ->
     Forall (nowrap r) (_tensors r) /\ indexable (_tensors r)) ->
  (N.of_nat (length (Bump._chunks Z a)) < 2 ^ 32)%N -> regions_apart Z a -> shares a bases mem' mw ->
  (forall n, room n = None) -> (forall m, order m ≡ₚ map_to_list m) ->
  exists file r man wm, w_file w = Ok file /\
    open (ShmModelStore.e_path m) (w_file w) newReader = (Returns tt, r) /\
    buildManifest lm = Some man /\ TensorManifest.manifest_ok man /\
    fromAttachedChunked room order man bases = Returns wm /\
    forall t, t ∈ _tensors r -> exists t', find wm (name t) = Some t' /\ arrived r file mw t t'.
Proof.
  intros Hsz Hcb HL Ha Hr Hlen Hreg Hsh Hroom Horder.
  destruct (loadGguf_spec HP m w chunkBytes mem lm mem' Hsz Hcb HL)
    as (file & r & r' & a' & n & Hf & Hop & Hopd & Ha' & Hr' & Hnv & Hld).
  assert (a' = a) as -> by congruence. destruct (Hr r Hop) as [Hnw [Hnd Hix]].
  specialize (Hld Hnw Hlen Hreg). pose proof (ix_tensors _ _ (op_indexed _ _ _ _ Hopd)) as Hok.
  assert (Hall : Forall2 (fun t t' => tensor_ok t /\ loaded Z r file a mem' t t') (_tensors r) (_tensors r')).
  { clear -Hld Hok. induction Hld; [constructor|]. apply Forall_cons in Hok as [? ?]. constructor; [done|auto]. }
  assert (Hman : exists man, buildManifest lm = Some man /\ TensorManifest.tensors man = map entryOf (_tensors r')).
  { unfold buildManifest. rewrite Ha, Hr', Hnv. by eexists. }
  destruct Hman as (man & Hman & Hts).
  destruct (attachedTensors_spec (arrived r file mw) bases (_tensors r) (_tensors r')) with (i := 0)
    as (owned & Eo & Ho).
  { eapply Forall2_impl; [exact Hall|]. intros t t' [H1 H2]. by eapply loaded_arrives. }
  assert (Hnames : map name owned = map name (_tensors r)).
  { clear -Ho. induction Ho as [|t t' l l' (E & _) _ IH]; [done|]. cbn. by rewrite E, IH. }
  destruct (buildBlockIndex_returns room (order (indexByName owned)) Hroom) with (b := (0%N, ∅ : gmap N (gmap string GgufTensor)))
    as ([bn bm] & Eb).
  { intros nm t i s Hin Hk. rewrite Horder, elem_of_map_to_list in Hin. apply indexByName_spec in Hin as [Hin <-].
    apply (list_elem_of_fmap_2 name) in Hin. change (name <$> owned) with (map name owned) in Hin.
    rewrite Hnames in Hin. apply list_elem_of_fmap in Hin as (t0 & E & Hin). rewrite E in Hk. by eapply Hix. }
  exists file, r, man, (mkWeights owned (indexByName owned) bn bm).
  split; [done|]. split; [done|]. split; [done|]. split.
  { apply (gguf_manifest_ok lm r' a man Ha Hr' Hnv Hman Hlen). apply Forall_forall. intros t' Ht'.
    apply list_elem_of_lookup in Ht' as [i Hi]. destruct (Forall2_lookup_r _ _ _ _ _ Hall Hi) as (t & _ & H1 & H2).
    by eapply loaded_entry. }
  split; [unfold fromAttachedChunked, create, index; by rewrite Hts, Eo, Eb|].
  intros t Ht. apply list_elem_of_lookup in Ht as [i Hi].
  destruct (Forall2_lookup_l _ _ _ _ _ Ho Hi) as (t' & Hi' & Harr). exists t'. split; [|done].
  destruct Harr as (E & _). rewrite <- E. unfold find. cbn [_byName].
  apply indexByName_find; [by rewrite Hnames|by eapply list_elem_of_lookup_2].
Qed.
End AttachedModel.


Module WeightsWitnesses.
Import GgufProofs GgufLoad ShmLoadedModel ShmModelStore WeightsMap AttachedModel AttachWitnesses.
#[local] Existing Instance GgufFormat.demo_heap.

Definition granted (n : N) : option exn := None.

Lemma demo_loaded : exists lm mem', loadGgufInto demo_entry demo_world 4096 blank = (Returns lm, mem') /\
  chunks lm = Some demo_chunks /\ buildManifest lm = Some demo_man.
Proof.
  destruct (loadGgufInto demo_entry demo_world 4096 blank) as [o mem'] eqn:E.
  assert (H : (match o with Returns lm => Some (chunks lm, buildManifest lm) | _ => None end) =
    Some (Some demo_chunks, Some demo_man)).
  { transitivity (match fst (loadGgufInto demo_entry demo_world 4096 blank) with
      Returns lm => Some (chunks lm, buildManifest lm) | _ => None end); [by rewrite E|vm_compute; reflexivity]. }
  destruct o as [lm|e|]; [|discriminate H|discriminate H]. injection H as H1 H2. exists lm, mem'. split; [reflexivity|]. split; [exact H1|exact H2].
Qed.

(** The worker's view: the same memory, mapped 61440 bytes higher. *)
Definition shifted (m : memory) : memory := fun p => m (p - 61440)%N.

Lemma demo_shares m : shares demo_chunks [65536%N] m (shifted m).
Proof.
  intros [|i] c Hc; [|done]. injection Hc as <-. exists 65536%N. cbn [Bump.used Bump.base].
  split; [done|]. split; [done|]. split; [done|]. intros o Ho. unfold shifted. f_equal. lia.
Qed.

Lemma demo_index_ok r : open "m.gguf" (Ok GgufFormat.demo_file) newReader = (Returns tt, r) ->
  Forall (nowrap r) (_tensors r) /\ indexable (_tensors r) /\ Forall (fun t => canonical (name t)) (_tensors r).
Proof.
  intros H. assert (E : (_tensorDataOffset r, map (fun t => (name t, fileOffset t, nbytes t)) (_tensors r)) =
    (256%N, [("w", 0%N, 8%N); ("b", 8%N, 4%N)])).
  { transitivity (let r := snd (open "m.gguf" (Ok GgufFormat.demo_file) newReader) in
      (_tensorDataOffset r, map (fun t => (name t, fileOffset t, nbytes t)) (_tensors r)));
      [by rewrite H|vm_compute; reflexivity]. }
  injection E as E0 E. destruct (_tensors r) as [|t1 [|t2 [|t3 l]]]; try discriminate E.
  injection E as N1 O1 B1 N2 O2 B2. split; [|split; [split|]].
  - repeat constructor; unfold nowrap; rewrite E0, ?O1, ?B1, ?O2, ?B2; reflexivity.
  - cbn [map]. rewrite N1, N2. by apply (bool_decide_unpack _).
  - intros t i s Ht. apply elem_of_cons in Ht as [->|Ht]; [by rewrite N1|].
    apply list_elem_of_singleton in Ht as ->. by rewrite N2.
  - constructor; [|constructor; [|constructor]]; intros i s; [by rewrite N1|by rewrite N2].
Qed.

Lemma attached_weights_are_the_file_witness :
  exists lm mem' wm r, loadGgufInto demo_entry demo_world 4096 blank = (Returns lm, mem') /\
    fromAttachedChunked granted map_to_list demo_man [65536%N] = Returns wm /\
    forall t, t ∈ _tensors r -> exists t', find wm (name t) = Some t' /\
      arrived r GgufFormat.demo_file (shifted mem') t t'.
Proof.
  destruct demo_loaded as (lm & mem' & HL & Hc & Hm).
  destruct (attached_weights_are_the_file GgufFormat.demo_heap demo_entry demo_world 4096 blank lm mem' demo_chunks
    [65536%N] (shifted mem') granted map_to_list) as (file & r & man & wm & Hf & _ & Hman & _ & Hwm & H).
  - intros file E. injection E as <-. vm_compute. reflexivity.
  - reflexivity.
  - exact HL.
  - exact Hc.
  - intros r Hr. destruct (demo_index_ok r Hr) as (H1 & H2 & _). exact (conj H1 H2).
  - reflexivity.
  - apply single_region.
  - apply demo_shares.
  - reflexivity.
  - reflexivity.
  - apply (eq_trans (eq_sym Hm)) in Hman. apply Some_inj in Hman. subst man.
    apply (f_equal (fun r => match r with Ok x => x | Throw _ => [] end)) in Hf. cbn [w_file demo_world] in Hf.
    subst file. exists lm, mem', wm, r. split; [exact HL|]. split; [exact Hwm|exact H].
Defined.

Definition demo_named (nm : string) (p : N) : GgufTensor := mkTensor nm F32 [4]%N 4 16 0 p 0 0.
Definition demo_blocks : list GgufTensor :=
  [demo_named "blk.10.attn_q.weight" 64; demo_named "token_embd.weight" 128; demo_named "blk.0.attn_q.weight" 256].

Lemma find_block_by_name_witness : exists w, index granted map_to_list [] demo_blocks = Returns w /\
  findBlock w 10 "attn_q.weight" = find w "blk.10.attn_q.weight" /\
  findBlock w 10 "attn_q.weight" = Some (demo_named "blk.10.attn_q.weight" 64).
Proof.
  pose proof (find_block_by_name granted map_to_list [] demo_blocks) as H.
  destruct (index granted map_to_list [] demo_blocks) as [w|e|] eqn:E.
  - exists w. split; [reflexivity|]. split.
    + apply (H (fun m => reflexivity _)); [|reflexivity].
      constructor; [|constructor; [|constructor; [|constructor]]]; intros i s Hk; vm_compute in Hk;
        [injection Hk as <- <-; vm_compute; reflexivity|discriminate Hk|injection Hk as <- <-; vm_compute; reflexivity].
    + transitivity (match index granted map_to_list [] demo_blocks with
        Returns w => findBlock w 10 "attn_q.weight" | _ => None end); [by rewrite E|vm_compute; reflexivity].
  - vm_compute in E. discriminate E.
  - vm_compute in E. discriminate E.
Defined.

(** A tensor named with block number 2^64 - 1 makes the vector of blocks empty and
    is then stored in it. *)
Example block_number_wraps :
  index granted map_to_list [] [demo_named "blk.18446744073709551615.x" 64] = Undefined.
Proof. vm_compute. reflexivity. Qed.

(** A number written with a leading zero is found as a block, not by the name. *)
Example leading_zero_is_block :
  match index granted map_to_list [] [demo_named "blk.07.x" 64] with
  | Returns w => findBlock w 7 "x" = Some (demo_named "blk.07.x" 64) /\ find w (blockName 7 "x") = None
  | _ => False
  end.
Proof. vm_compute. done. Qed.
End WeightsWitnesses.
