(* ===== verification/Merging.v ===== *)
(** * Merging adjacent pieces of text

    Both encoders of [src/src/model/Tokenizer.cpp] merge adjacent pieces, best pair
    first, over a doubly linked list driven by a priority queue.  This file holds
    what they share: the list, the reference they are compared with (scan for the
    best adjacent pair, leftmost among equals, merge it, repeat until none is left),
    and the lemmas that relate the two.  [cand] says what merging two pieces gives,
    if anything, [before] which of two candidates is better. *)

From S2P Require Import Prelude.

Module Merging.

(** ** The reference *)

Section Greedy.
Context {C : Type}.
Variable cand : string -> string -> option C.
Variable before : C -> C -> bool.

Definition offer (c : option C) (k : nat) (acc : option (C * nat)) : option (C * nat) :=
  match c, acc with
  | None, _ => acc
  | Some c, None => Some (c, k)
  | Some c, Some (c0, _) => if before c c0 then Some (c, k) else acc
  end.

Fixpoint pickFrom (k : nat) (l : list (option C)) (acc : option (C * nat)) : option (C * nat) :=
  match l with
  | [] => acc
  | c :: l => pickFrom (S k) l (offer c k acc)
  end.

(** The candidates of adjacent pieces. *)
Definition pairs (ws : list string) : list (option C) := zip_with cand ws (tail ws).
Definition best (ws : list string) : option (C * nat) := pickFrom 0 (pairs ws) None.

Definition mergeAt (k : nat) (ws : list string) : list string :=
  match ws !! k, ws !! S k with
  | Some a, Some b => take k ws ++ (a +:+ b) :: drop (S (S k)) ws
  | _, _ => ws
  end.

Fixpoint greedy (fuel : nat) (ws : list string) : list string :=
  match fuel with
  | 0 => ws
  | S fuel => match best ws with None => ws | Some (_, k) => greedy fuel (mergeAt k ws) end
  end.

(** Every turn merges two pieces, so as many turns as pieces are enough. *)
Definition mergeAll (ws : list string) : list string := greedy (length ws) ws.

(** The best candidate of [l] and the first of its kind. *)
Definition isBest (l : list (option C)) (c : C) (k : nat) : Prop :=
  l !! k = Some (Some c) /\
  forall k' c', l !! k' = Some (Some c') -> before c' c = false /\ (k' < k -> before c c' = true).

Lemma isBest_unique l c c' k k' : isBest l c k -> isBest l c' k' -> c = c' /\ k = k'.
Proof.
  intros [H1 H2] [H3 H4]. assert (k = k') as <-.
  { destruct (Nat.lt_total k k') as [H|[H|H]]; [|done|].
    - destruct (H4 k c H1) as [_ H5]. destruct (H2 k' c' H3) as [H6 _]. by rewrite H5 in H6.
    - destruct (H2 k' c' H3) as [_ H5]. destruct (H4 k c H1) as [H6 _]. by rewrite H5 in H6. }
  split; [congruence|done].
Qed.

(** The candidates that occur are ordered. *)
Variable ok : C -> Prop.
Hypothesis Hasym : forall x y, ok x -> ok y -> before x y = true -> before y x = false.
Hypothesis Hweak : forall x y z, ok x -> ok y -> ok z -> before x y = true -> before x z = true \/ before z y = true.

Lemma before_irrefl c : ok c -> before c c = false.
Proof using Hasym. intros Hc. destruct (before c c) eqn:E; [|done]. pose proof (Hasym c c Hc Hc E). congruence. Qed.

Definition found (l : list (option C)) (acc : option (C * nat)) : Prop :=
  match acc with None => forall k c, l !! k <> Some (Some c) | Some (c, k) => isBest l c k end.

Lemma offer_found l c acc :
  Forall (fun o => forall c, o = Some c -> ok c) (l ++ [c]) -> found l acc ->
  found (l ++ [c]) (offer c (length l) acc).
Proof using Hasym Hweak.
  intros Hok Hf. assert (Hlast : (l ++ [c]) !! length l = Some c) by (by rewrite lookup_app_r, Nat.sub_diag).
  assert (Hcase : forall k c', (l ++ [c]) !! k = Some (Some c') ->
    l !! k = Some (Some c') \/ (k = length l /\ c = Some c')).
  { intros k c' H. apply lookup_app_Some in H as [H|[Hl H]]; [by left|right].
    apply list_lookup_singleton_Some in H as [Hk ->]. split; [lia|done]. }
  assert (Hok' : forall k c', (l ++ [c]) !! k = Some (Some c') -> ok c').
  { intros k c' H. by apply (Forall_lookup_1 _ _ _ _ Hok H). }
  destruct c as [c|]; cbn [offer].
  - pose proof (Hok' _ _ Hlast) as Hc. destruct acc as [[c0 k0]|]; cbn [found] in *.
    + destruct Hf as [H1 H2]. assert (H1' : (l ++ [Some c]) !! k0 = Some (Some c0)) by by apply lookup_app_l_Some.
      pose proof (Hok' _ _ H1') as Hc0. destruct (before c c0) eqn:E; cbn [found].
      * split; [done|]. intros k' c' Hk'. pose proof (Hok' _ _ Hk') as Hc'.
        destruct (Hcase _ _ Hk') as [Hk|[-> [= ->]]]; [|split; [by apply before_irrefl|lia]].
        destruct (H2 k' c' Hk) as [H3 _]. split.
        -- destruct (before c' c) eqn:E'; [|done]. destruct (Hweak c' c c0) as [H|H]; try done; [congruence|].
           rewrite (Hasym c c0) in H by done. done.
        -- intros _. destruct (Hweak c c0 c') as [H|H]; try done. congruence.
      * split; [done|]. intros k' c' Hk'. destruct (Hcase _ _ Hk') as [Hk|[-> [= ->]]]; [by apply H2|].
        split; [done|]. apply lookup_lt_Some in H1. lia.
    + split; [done|]. intros k' c' Hk'. destruct (Hcase _ _ Hk') as [Hk|[-> [= ->]]]; [by apply Hf in Hk|].
      split; [by apply before_irrefl|lia].
  - destruct acc as [[c0 k0]|]; cbn [found] in *.
    + destruct Hf as [H1 H2]. split; [by apply lookup_app_l_Some|]. intros k' c' Hk'.
      destruct (Hcase _ _ Hk') as [Hk|[_ [=]]]. by apply H2.
    + intros k c' Hk. destruct (Hcase _ _ Hk) as [Hk'|[_ [=]]]. by apply Hf in Hk'.
Qed.

Lemma pickFrom_found l : forall pre acc,
  Forall (fun o => forall c, o = Some c -> ok c) (pre ++ l) -> found pre acc ->
  found (pre ++ l) (pickFrom (length pre) l acc).
Proof using Hasym Hweak.
  induction l as [|c l IH]; intros pre acc Hok Hf; cbn [pickFrom]; [by rewrite app_nil_r|].
  rewrite cons_middle, app_assoc in Hok |- *. replace (S (length pre)) with (length (pre ++ [c])) by (rewrite length_app; cbn; lia).
  apply IH; [done|]. apply offer_found; [by apply Forall_app in Hok as [? _]|done].
Qed.

Hypothesis Hcand : forall a b c, cand a b = Some c -> ok c.

Lemma best_found ws : found (pairs ws) (best ws).
Proof using Hasym Hweak Hcand.
  apply (pickFrom_found (pairs ws) [] None); [|intros k c H; by rewrite lookup_nil in H].
  apply Forall_lookup_2. intros k o Ho c ->. unfold pairs in Ho. apply lookup_zip_with_Some in Ho as (a & b & H & _).
  by eapply Hcand.
Qed.

Lemma best_is ws c k : isBest (pairs ws) c k -> best ws = Some (c, k).
Proof using Hasym Hweak Hcand.
  intros H. pose proof (best_found ws) as Hb. destruct (best ws) as [[c' k']|].
  - destruct (isBest_unique _ _ _ _ _ H Hb) as [-> ->]. done.
  - destruct H as [H _]. by apply Hb in H.
Qed.

Lemma best_none ws : (forall k c, pairs ws !! k <> Some (Some c)) -> best ws = None.
Proof using Hasym Hweak Hcand.
  intros H. pose proof (best_found ws) as Hb. destruct (best ws) as [[c k]|]; [|done].
  destruct Hb as [Hb _]. by apply H in Hb.
Qed.
End Greedy.

(** ** What greedy merging preserves *)

Section GreedyFacts.
Context {C : Type}.
Variable cand : string -> string -> option C.
Variable before : C -> C -> bool.

Lemma pickFrom_In l : forall k acc c k', pickFrom before k l acc = Some (c, k') ->
  acc = Some (c, k') \/ (k <= k' /\ l !! (k' - k) = Some (Some c)).
Proof using.
  induction l as [|o l IH]; intros k acc c k' H; cbn [pickFrom] in H; [by left|].
  apply IH in H as [H|[H1 H2]].
  - destruct o as [c0|]; cbn [offer] in H; [|by left]. destruct acc as [[c1 k1]|].
    + destruct (before c0 c1); [|by left]. injection H as -> ->. right. by rewrite Nat.sub_diag.
    + injection H as -> ->. right. by rewrite Nat.sub_diag.
  - right. split; [lia|]. replace (k' - k) with (S (k' - S k)) by lia. done.
Qed.

Lemma best_pair ws c k : best cand before ws = Some (c, k) ->
  exists a b, ws !! k = Some a /\ ws !! S k = Some b /\ cand a b = Some c.
Proof using.
  intros H. apply pickFrom_In in H as [H|[_ H]]; [done|]. rewrite Nat.sub_0_r in H.
  apply lookup_zip_with_Some in H as (a & b & Hc & Ha & Hb). exists a, b. split; [done|].
  split; [by destruct ws|done].
Qed.

Lemma length_mergeAt ws k a b : ws !! k = Some a -> ws !! S k = Some b -> S (length (mergeAt k ws)) = length ws.
Proof using.
  intros Ha Hb. unfold mergeAt. rewrite Ha, Hb. apply lookup_lt_Some in Hb.
  rewrite length_app, length_take. cbn [length]. rewrite length_drop. lia.
Qed.

Lemma greedy_fuel f : forall f' ws, length ws <= f -> length ws <= f' ->
  greedy cand before f ws = greedy cand before f' ws.
Proof using.
  induction f as [|f IH]; intros f' ws Hf Hf'.
  - destruct ws; [|cbn in Hf; lia]. by destruct f'.
  - destruct f' as [|f']; [destruct ws; [done|cbn in Hf'; lia]|]. cbn [greedy].
    destruct (best cand before ws) as [[c k]|] eqn:E; [|done]. apply best_pair in E as (a & b & Ha & Hb & _).
    pose proof (length_mergeAt ws k a b Ha Hb). apply IH; lia.
Qed.

Lemma mergeAll_step ws c k : best cand before ws = Some (c, k) ->
  mergeAll cand before ws = mergeAll cand before (mergeAt k ws).
Proof using.
  intros E. unfold mergeAll. pose proof (best_pair ws c k E) as (a & b & Ha & Hb & _).
  pose proof (length_mergeAt ws k a b Ha Hb) as Hl. rewrite <- Hl. cbn [greedy]. by rewrite E.
Qed.

Lemma mergeAll_done ws : best cand before ws = None -> mergeAll cand before ws = ws.
Proof using. intros E. unfold mergeAll. destruct (length ws); cbn [greedy]; [done|by rewrite E]. Qed.

(** A property of pieces that merging keeps. *)
Lemma mergeAll_Forall (P : string -> Prop) ws :
  (forall a b c, P a -> P b -> cand a b = Some c -> P (a +:+ b)) -> Forall P ws -> Forall P (mergeAll cand before ws).
Proof using.
  intros HP. unfold mergeAll. generalize (length ws) as f. intros f. revert ws.
  induction f as [|f IH]; intros ws Hws; [done|]. cbn [greedy].
  destruct (best cand before ws) as [[c k]|] eqn:E; [|done]. apply IH.
  apply best_pair in E as (a & b & Ha & Hb & Hc). unfold mergeAt. rewrite Ha, Hb.
  apply Forall_app. split; [by apply Forall_take|]. constructor; [|by apply Forall_drop].
  exact (HP a b c (Forall_lookup_1 _ _ _ _ Hws Ha) (Forall_lookup_1 _ _ _ _ Hws Hb) Hc).
Qed.

(** The text stays the same. *)
Lemma mergeAll_cat ws : cat (mergeAll cand before ws) = cat ws.
Proof using.
  unfold mergeAll. generalize (length ws) as f. intros f. revert ws.
  induction f as [|f IH]; intros ws; [done|]. cbn [greedy].
  destruct (best cand before ws) as [[c k]|] eqn:E; [|done]. rewrite IH.
  apply best_pair in E as (a & b & Ha & Hb & _). unfold mergeAt. rewrite Ha, Hb.
  rewrite <- (take_drop k ws) at 3. rewrite (drop_S _ _ _ Ha), (drop_S _ _ _ Hb).
  rewrite !cat_app. cbn [cat foldr]. by rewrite append_assoc.
Qed.
End GreedyFacts.

(** ** The linked list *)

Section Linked.
Context {A : Type}.

(** A piece; [None] ends the list on either side.
    [src/src/model/Tokenizer.cpp:542-549 Tokenizer::encodeSpm] *)
Record Node := mkNode {
  text : string;
  tag : A;
  active : bool;
  prev : option nat;
  next : option nat;
}.

(** The merge of node [i] with its right neighbour [j].
    [src/src/model/Tokenizer.cpp:633-640 Tokenizer::encodeSpm] *)
Definition mergeNodes (i j : nat) (t : A) (ns : list Node) : list Node :=
  match ns !! i, ns !! j with
  | Some l, Some r =>
      let ns := <[i := mkNode (text l +:+ text r) t (active l) (prev l) (next r)]> ns in
      let ns := <[j := mkNode (text r) (tag r) false (prev r) (next r)]> ns in
      match next r with
      | Some k => alter (fun n => mkNode (text n) (tag n) (active n) (Some i) (next n)) k ns
      | None => ns
      end
  | _, _ => ns
  end.

(** The nodes after [cur]; a list of [n] nodes is read in [n] steps. *)
Fixpoint walk (fuel : nat) (cur : option nat) (ns : list Node) : list Node :=
  match fuel, cur with
  | S fuel, Some i => match ns !! i with Some n => n :: walk fuel (next n) ns | None => [] end
  | _, _ => []
  end.

(** [live] are the indices still in the list, in reading order. *)
Record linked (ns : list Node) (live : list nat) : Prop := {
  lk_sorted : forall k k' i i', k < k' -> live !! k = Some i -> live !! k' = Some i' -> i < i';
  lk_active : forall i n, ns !! i = Some n -> active n = true <-> i ∈ live;
  lk_node : forall k i, live !! k = Some i -> is_Some (ns !! i);
  lk_next : forall k i n, live !! k = Some i -> ns !! i = Some n -> next n = live !! S k;
  lk_prev : forall k i n, live !! k = Some i -> ns !! i = Some n ->
    prev n = match k with 0 => None | S k' => live !! k' end;
}.

Definition textAt (ns : list Node) (i : nat) : string :=
  match ns !! i with Some n => text n | None => EmptyString end.
Definition texts (ns : list Node) (live : list nat) : list string := map (textAt ns) live.

Lemma lk_inj ns live k k' i : linked ns live -> live !! k = Some i -> live !! k' = Some i -> k = k'.
Proof.
  intros L H1 H2. destruct (Nat.lt_total k k') as [H|[H|H]]; [|done|].
  - pose proof (lk_sorted _ _ L k k' i i H H1 H2). lia.
  - pose proof (lk_sorted _ _ L k' k i i H H2 H1). lia.
Qed.

Lemma mergeNodes_lookup ns i j t l r m :
  ns !! i = Some l -> ns !! j = Some r -> i <> j -> (forall k, next r = Some k -> k <> i /\ k <> j) ->
  mergeNodes i j t ns !! m =
    if decide (m = i) then Some (mkNode (text l +:+ text r) t (active l) (prev l) (next r))
    else if decide (m = j) then Some (mkNode (text r) (tag r) false (prev r) (next r))
    else if decide (next r = Some m)
      then (fun n => mkNode (text n) (tag n) (active n) (Some i) (next n)) <$> ns !! m
    else ns !! m.
Proof.
  intros Hi Hj Hij Hk. unfold mergeNodes. rewrite Hi, Hj.
  set (ns2 := <[j := _]> (<[i := _]> ns)).
  assert (H2 : forall m, ns2 !! m = if decide (m = i) then Some (mkNode (text l +:+ text r) t (active l) (prev l) (next r))
    else if decide (m = j) then Some (mkNode (text r) (tag r) false (prev r) (next r)) else ns !! m).
  { intros m'. unfold ns2. destruct (decide (m' = i)) as [->|Hmi].
    - rewrite list_lookup_insert_ne by done. apply list_lookup_insert_eq. by apply lookup_lt_Some in Hi.
    - destruct (decide (m' = j)) as [->|Hmj].
      + apply list_lookup_insert_eq. rewrite length_insert. by apply lookup_lt_Some in Hj.
      + by rewrite !list_lookup_insert_ne by done. }
  clearbody ns2. destruct (next r) as [k|] eqn:En.
  - destruct (Hk k eq_refl) as [Hki Hkj]. destruct (decide (m = k)) as [->|Hmk].
    + rewrite list_lookup_alter_eq, H2. by rewrite !decide_False, decide_True by done.
    + rewrite list_lookup_alter_ne by done. rewrite H2.
      rewrite (decide_False (P := Some k = Some m)) by congruence. done.
  - rewrite H2. by rewrite (decide_False (P := None = Some m)).
Qed.

Lemma lookup_delete_cases {X} (l : list X) k m :
  delete k l !! m = if decide (m < k) then l !! m else l !! S m.
Proof. destruct (decide (m < k)); [by apply list_lookup_delete_lt|apply list_lookup_delete_ge; lia]. Qed.

Lemma mergeAt_lookup ws k a b m : ws !! k = Some a -> ws !! S k = Some b ->
  mergeAt k ws !! m = if decide (m < k) then ws !! m else if decide (m = k) then Some (a +:+ b) else ws !! S m.
Proof.
  intros Ha Hb. unfold mergeAt. rewrite Ha, Hb. pose proof (lookup_lt_Some _ _ _ Ha) as Hk.
  destruct (decide (m < k)) as [H|H]; [rewrite lookup_app_l by (rewrite length_take; lia); by apply lookup_take_lt|].
  rewrite lookup_app_r by (rewrite length_take; lia). rewrite length_take, Nat.min_l by lia.
  destruct (decide (m = k)) as [->|Hm]; [by rewrite Nat.sub_diag|].
  destruct (m - k) as [|d] eqn:E; [lia|]. change (drop (S (S k)) ws !! d = ws !! S m). rewrite lookup_drop. f_equal. lia.
Qed.

Section MergeStep.
Context (ns : list Node) (live : list nat) (k i j : nat) (t : A) (l r : Node).
Hypothesis L : linked ns live.
Hypothesis Hi : live !! k = Some i.
Hypothesis Hj : live !! S k = Some j.
Hypothesis Hl : ns !! i = Some l.
Hypothesis Hr : ns !! j = Some r.
Let ns' := mergeNodes i j t ns.
Let live' := delete (S k) live.

Lemma merge_lookup m : ns' !! m =
    if decide (m = i) then Some (mkNode (text l +:+ text r) t (active l) (prev l) (next r))
    else if decide (m = j) then Some (mkNode (text r) (tag r) false (prev r) (next r))
    else if decide (live !! S (S k) = Some m)
      then (fun n => mkNode (text n) (tag n) (active n) (Some i) (next n)) <$> ns !! m
    else ns !! m.
Proof using L Hi Hj Hl Hr.
  rewrite <- (lk_next _ _ L _ _ _ Hj Hr). apply mergeNodes_lookup; [done|done|..].
  - pose proof (lk_sorted _ _ L k (S k) i j ltac:(lia) Hi Hj). lia.
  - intros x Hx. rewrite (lk_next _ _ L _ _ _ Hj Hr) in Hx.
    pose proof (lk_sorted _ _ L k (S k) i j ltac:(lia) Hi Hj).
    pose proof (lk_sorted _ _ L (S k) (S (S k)) j x ltac:(lia) Hj Hx). lia.
Qed.

(** Where an index of [live'] was in [live]. *)
Lemma live'_lookup m x : live' !! m = Some x ->
  exists m0, live !! m0 = Some x /\ m0 <> S k /\ (m0 = m /\ m <= k \/ m0 = S m /\ k < m).
Proof using.
  unfold live'. rewrite lookup_delete_cases. destruct (decide (m < S k)); intros H; [exists m|exists (S m)]; (split; [done|lia]).
Qed.

Lemma in_live' x : x ∈ live' <-> x ∈ live /\ x <> j.
Proof using L Hj.
  rewrite !list_elem_of_lookup. split.
  - intros [m Hm]. apply live'_lookup in Hm as (m0 & H & Hne & _). split; [eauto|]. intros ->.
    by apply Hne, (lk_inj ns live _ _ j).
  - intros [[m Hm] Hne]. assert (m <> S k) by congruence. unfold live'.
    destruct (decide (m < S k)); [exists m|exists (m - 1)]; rewrite lookup_delete_cases.
    + by rewrite decide_True.
    + rewrite decide_False by lia. by replace (S (m - 1)) with m by lia.
Qed.

Lemma merge_linked : linked ns' live'.
Proof using L Hi Hj Hl Hr.
  assert (Hij : i < j) by (eapply (lk_sorted _ _ L k (S k)); [lia|done..]).
  assert (Hil : active l = true) by (apply (lk_active _ _ L _ _ Hl), list_elem_of_lookup; eauto).
  split.
  - intros m m' x x' Hlt Hx Hx'. apply live'_lookup in Hx as (m0 & H & _ & Hm).
    apply live'_lookup in Hx' as (m0' & H' & _ & Hm'). apply (lk_sorted _ _ L m0 m0'); [lia|done..].
  - intros m n Hn. rewrite merge_lookup in Hn. rewrite in_live'.
    destruct (decide (m = i)) as [->|Hmi]; [injection Hn as <-; cbn|].
    { split; [intros _|done]. split; [apply list_elem_of_lookup; eauto|lia]. }
    destruct (decide (m = j)) as [->|Hmj]; [injection Hn as <-; cbn; split; [done|by intros [_ ?]]|].
    assert (Hn0 : exists n0, ns !! m = Some n0 /\ active n = active n0).
    { destruct (decide (live !! S (S k) = Some m)); [|by eauto]. apply fmap_Some in Hn as (n0 & -> & ->). eauto. }
    destruct Hn0 as (n0 & Hn0 & ->). rewrite (lk_active _ _ L _ _ Hn0). naive_solver.
  - intros m x Hx. apply live'_lookup in Hx as (m0 & H & _). rewrite merge_lookup.
    destruct (lk_node _ _ L _ _ H) as [n0 ->]. repeat case_decide; cbn; eauto.
  - intros m x n Hx Hn. pose proof (live'_lookup _ _ Hx) as (m0 & H & Hne & Hm). rewrite merge_lookup in Hn.
    assert (Hxj : x <> j) by (intros ->; by apply Hne, (lk_inj ns live _ _ j)).
    assert (Hnext : live' !! S m = live !! S (if decide (m = k) then S k else m0)).
    { unfold live'. rewrite lookup_delete_cases. repeat case_decide; f_equal; lia. }
    rewrite Hnext. destruct (decide (x = i)) as [->|Hxi].
    + pose proof (lk_inj ns live _ _ i L Hi H) as <-. rewrite decide_True by lia. injection Hn as <-. cbn.
      apply (lk_next _ _ L (S k) j r Hj Hr).
    + assert (m0 <> k) by congruence. rewrite decide_False by lia. rewrite decide_False in Hn by done.
      destruct (decide (live !! S (S k) = Some x)); [|by apply (lk_next _ _ L m0 x)].
      apply fmap_Some in Hn as (n0 & Hn0 & ->). cbn. exact (lk_next _ _ L m0 x n0 H Hn0).
  - intros m x n Hx Hn. pose proof (live'_lookup _ _ Hx) as (m0 & H & Hne & Hm). rewrite merge_lookup in Hn.
    assert (Hxj : x <> j) by (intros ->; by apply Hne, (lk_inj ns live _ _ j)).
    assert (Hprev : match m with 0 => None | S m' => live' !! m' end =
      if decide (m = S k) then Some i else match m0 with 0 => None | S m' => live !! m' end).
    { destruct m as [|m]; [destruct Hm as [[-> _]|[_ ?]]; [done|lia]|]. unfold live'. rewrite lookup_delete_cases.
      destruct (decide (S m = S k)) as [[= ->]|Hmk]; [by rewrite decide_True by lia|].
      destruct Hm as [[-> ?]|[-> ?]]; [by rewrite decide_True by lia|by rewrite decide_False by lia]. }
    rewrite Hprev. destruct (decide (x = i)) as [->|Hxi].
    + pose proof (lk_inj ns live _ _ i L Hi H) as <-. rewrite decide_False by lia. injection Hn as <-. cbn.
      apply (lk_prev _ _ L k i l Hi Hl).
    + rewrite decide_False in Hn by done. destruct (decide (live !! S (S k) = Some x)) as [Hk|Hk].
      * pose proof (lk_inj ns live _ _ x L H Hk) as ->. rewrite decide_True by lia.
        by apply fmap_Some in Hn as (n0 & _ & ->).
      * rewrite decide_False; [by apply (lk_prev _ _ L m0 x)|]. intros ->. apply Hk.
        destruct Hm as [[-> ?]|[-> _]]; [lia|done].
Qed.

Lemma merge_texts : texts ns' live' = mergeAt k (texts ns live).
Proof using L Hi Hj Hl Hr.
  apply list_eq. intros m.
  assert (Ha : texts ns live !! k = Some (text l)) by (unfold texts; rewrite list_lookup_fmap, Hi; cbn; unfold textAt; by rewrite Hl).
  assert (Hb : texts ns live !! S k = Some (text r)) by (unfold texts; rewrite list_lookup_fmap, Hj; cbn; unfold textAt; by rewrite Hr).
  rewrite (mergeAt_lookup _ _ _ _ _ Ha Hb).
  assert (Hother : forall m0, m0 <> k -> m0 <> S k -> textAt ns' <$> live !! m0 = texts ns live !! m0).
  { intros m0 H1 H2. unfold texts. rewrite list_lookup_fmap. destruct (live !! m0) as [x|] eqn:E; [|done]. cbn. f_equal.
    unfold textAt. rewrite merge_lookup. rewrite decide_False, decide_False.
    - case_decide; [|done]. by destruct (ns !! x).
    - intros ->. by apply H2, (lk_inj ns live _ _ j).
    - intros ->. by apply H1, (lk_inj ns live _ _ i). }
  unfold texts at 1. rewrite list_lookup_fmap. unfold live'. rewrite lookup_delete_cases.
  destruct (decide (m < k)) as [H1|H1]; [rewrite decide_True by lia; apply Hother; lia|].
  destruct (decide (m = k)) as [->|H2]; [|rewrite decide_False by lia; apply Hother; lia].
  rewrite decide_True, Hi by lia. cbn. f_equal. unfold textAt. by rewrite merge_lookup, decide_True.
Qed.
End MergeStep.
End Linked.

(** ** The queue *)

Section Driven.
Context {A C : Type}.
Variable cand : string -> string -> option C.
Variable before : C -> C -> bool.
Variable ok : C -> Prop.
Hypothesis Hasym : forall x y, ok x -> ok y -> before x y = true -> before y x = false.
Hypothesis Hweak : forall x y z, ok x -> ok y -> ok z -> before x y = true -> before x z = true \/ before z y = true.
Hypothesis Hcand : forall a b c, cand a b = Some c -> ok c.

(** An entry is a candidate and the index of its left piece; [x] comes out before
    [y] if it is better, or further left among equals. *)
Definition sooner (x y : C * nat) : bool :=
  before (fst x) (fst y) || (negb (before (fst y) (fst x)) && (snd x <? snd y)).

(** What any priority queue does when its first entry is taken. *)
Definition pops (pop : list (C * nat) -> option ((C * nat) * list (C * nat))) : Prop :=
  forall h, match pop h with
            | None => h = []
            | Some (x, rest) => h ≡ₚ x :: rest /\
                (Forall (fun y => ok (fst y)) h -> Forall (fun y => sooner y x = false) h)
            end.

Definition consec (live : list nat) (i j : nat) : Prop := exists k, live !! k = Some i /\ live !! S k = Some j.

(** Every candidate of neighbours is in the queue. *)
Definition queued (ns : list (Node (A := A))) (live : list nat) (h : list (C * nat)) : Prop :=
  forall i j c, consec live i j -> cand (textAt ns i) (textAt ns j) = Some c -> (c, i) ∈ h.

Lemma pairs_lookup (ns : list (Node (A := A))) live k o :
  pairs cand (texts ns live) !! k = Some o <->
  exists i j, live !! k = Some i /\ live !! S k = Some j /\ o = cand (textAt ns i) (textAt ns j).
Proof using.
  unfold pairs, texts. rewrite lookup_zip_with_Some. split.
  - intros (a & b & -> & Ha & Hb). rewrite list_lookup_fmap in Ha.
    assert (Hb' : (textAt ns <$> live) !! S k = Some b).
    { destruct live as [|x live]; [done|]. exact Hb. }
    rewrite list_lookup_fmap in Hb'. apply fmap_Some in Ha as (i & Hi & ->). apply fmap_Some in Hb' as (j & Hj & ->).
    by exists i, j.
  - intros (i & j & Hi & Hj & ->). exists (textAt ns i), (textAt ns j). split; [done|].
    split; [by rewrite list_lookup_fmap, Hi|]. destruct live as [|x live]; [done|]. change (live !! k = Some j) in Hj. change ((textAt ns <$> live) !! k = Some (textAt ns j)).
    by rewrite list_lookup_fmap, Hj.
Qed.

Lemma top_is_best ns live h c i j k :
  linked ns live -> queued ns live h -> live !! k = Some i -> live !! S k = Some j ->
  cand (textAt ns i) (textAt ns j) = Some c -> Forall (fun y => sooner y (c, i) = false) h ->
  best cand before (texts ns live) = Some (c, k).
Proof using Hasym Hweak Hcand.
  intros L Hq Hi Hj Hc Htop. apply (best_is cand before ok Hasym Hweak Hcand). split.
  - apply pairs_lookup. exists i, j. by rewrite Hc.
  - intros k' c' Hk'. apply pairs_lookup in Hk' as (i' & j' & Hi' & Hj' & Hc').
    assert (Hin : (c', i') ∈ h) by (eapply Hq; [by exists k'|by symmetry]).
    rewrite Forall_forall in Htop. specialize (Htop _ Hin). unfold sooner in Htop. cbn [fst snd] in Htop.
    apply orb_false_elim in Htop as [H1 H2]. split; [done|]. intros Hlt.
    pose proof (lk_sorted _ _ L k' k i' i Hlt Hi' Hi) as Hii.
    destruct (before c c'); [done|]. cbn in H2. apply Nat.ltb_ge in H2. lia.
Qed.

Lemma queued_none ns live : queued ns live [] -> best cand before (texts ns live) = None.
Proof using Hasym Hweak Hcand.
  intros Hq. apply (best_none cand before ok Hasym Hweak Hcand). intros k c Hk.
  apply pairs_lookup in Hk as (i & j & Hi & Hj & Hc). symmetry in Hc.
  by apply (Hq i j c (ex_intro _ k (conj Hi Hj))), not_elem_of_nil in Hc.
Qed.

(** An entry that no neighbours stand for may be dropped. *)
Lemma queued_stale ns live h c i rest :
  queued ns live h -> h ≡ₚ (c, i) :: rest ->
  (forall j, consec live i j -> cand (textAt ns i) (textAt ns j) <> Some c) -> queued ns live rest.
Proof using.
  intros Hq Hh Hst i' j' c' Hcon Hc. pose proof (Hq i' j' c' Hcon Hc) as Hin. rewrite Hh in Hin.
  apply elem_of_cons in Hin as [[= -> ->]|Hin]; [|done]. by apply Hst in Hc.
Qed.

(** After a merge only the merged piece and its left neighbour have new candidates. *)
Lemma queued_merge ns live k i j (t : A) l r h c rest h' :
  linked ns live -> live !! k = Some i -> live !! S k = Some j -> ns !! i = Some l -> ns !! j = Some r ->
  queued ns live h -> h ≡ₚ (c, i) :: rest -> (forall x, x ∈ rest -> x ∈ h') ->
  (forall a b c', consec (delete (S k) live) a b -> a = i \/ b = i ->
     cand (textAt (mergeNodes i j t ns) a) (textAt (mergeNodes i j t ns) b) = Some c' -> (c', a) ∈ h') ->
  queued (mergeNodes i j t ns) (delete (S k) live) h'.
Proof using.
  intros L Hi Hj Hl Hr Hq Hh Hrest Hnew a b c' Hcon Hc.
  destruct (decide (a = i)) as [Ha|Ha]; [by eapply Hnew; eauto|].
  destruct (decide (b = i)) as [Hb|Hb]; [by eapply Hnew; eauto|].
  assert (Hsame : forall x, x ∈ delete (S k) live -> x <> i -> textAt (mergeNodes i j t ns) x = textAt ns x).
  { intros x Hx Hxi. apply (in_live' ns live k j L Hj) in Hx as [_ Hxj]. unfold textAt.
    rewrite (merge_lookup ns live k i j t l r L Hi Hj Hl Hr). rewrite !decide_False by done.
    case_decide; [|done]. by destruct (ns !! x). }
  destruct Hcon as (m & Hm & HSm).
  rewrite !Hsame in Hc by (try done; apply list_elem_of_lookup; eauto).
  apply Hrest. assert (Hcon : consec live a b).
  { rewrite lookup_delete_cases in Hm, HSm. exists (if decide (m < S k) then m else S m).
    destruct (decide (m < S k)) as [H|H]; [|rewrite decide_False in HSm by lia; done].
    split; [done|]. destruct (decide (S m < S k)); [done|]. assert (m = k) as -> by lia. congruence. }
  pose proof (Hq a b c' Hcon Hc) as Hin. rewrite Hh in Hin. apply elem_of_cons in Hin as [[= _ ->]|Hin]; done.
Qed.
End Driven.
End Merging.
