(* ===== verification/Tokenizer.v ===== *)
(** * The tokenizer

    Models [src/src/model/Tokenizer.{hpp,cpp}]: both ways of loading a vocabulary,
    the two encoders (byte-level BPE and SentencePiece), special tokens, decoding.
    A [std::string] is a [string] of bytes.  The parallel arrays and the segments the
    encoders link their pieces with are lists of [Merging.Node]; -1 and [SIZE_MAX]
    are [None], indices are [nat]s.  [std::priority_queue] leaves open which of its
    greatest entries it hands out: taking one is an argument.  Files and the JSON
    library are inputs. *)

From Stdlib Require Import Ascii SpecFloat.
From stdpp Require Import pretty.
From S2P Require Import Prelude Sampling Floats Gguf Ipc Merging.
Import Floats Merging.

Module Tokenizer.
Import GgufReader.

(** ** Bytes and codepoints *)

(** SentencePiece's lower one-eighth block. *)
Definition kSpaceMarker : string :=
  String.String (ascii_of_nat 226) (String.String (ascii_of_nat 150) (String.String (ascii_of_nat 129) EmptyString)).

(** [src/src/model/Tokenizer.cpp:76-82 utf8CodepointLen] *)
Definition utf8CodepointLen (c : ascii) : nat :=
  let n := N_of_ascii c in
  if (N.land n 128 =? 0)%N then 1
  else if (N.land n 224 =? 192)%N then 2
  else if (N.land n 240 =? 224)%N then 3
  else if (N.land n 248 =? 240)%N then 4
  else 1.

(** [src/src/model/Tokenizer.cpp:84-97 codepointToUtf8] *)
Definition codepointToUtf8 (cp : N) : string :=
  let push := fun n s => String.String (ascii_of_N n) s in
  if (cp <? 128)%N then push cp EmptyString
  else if (cp <? 2048)%N then
    push (N.lor 192 (N.shiftr cp 6)) (push (N.lor 128 (N.land cp 63)) EmptyString)
  else
    push (N.lor 224 (N.shiftr cp 12))
      (push (N.lor 128 (N.land (N.shiftr cp 6) 63)) (push (N.lor 128 (N.land cp 63)) EmptyString)).

(** The pairs of a byte and its codepoint, in the order of the vectors [bs], [cs].
    [src/src/model/Tokenizer.cpp:110-123 byteMap] *)
Definition byteCodes : list (nat * N) :=
  let bs := seq 33 94 ++ seq 161 12 ++ seq 174 82 in
  let rest := List.filter (fun b => negb (existsb (Nat.eqb b) bs)) (seq 0 256) in
  map (fun b => (b, N.of_nat b)) bs ++ imap (fun n b => (b, N.of_nat (256 + n))) rest.

(** [src/src/model/Tokenizer.cpp:99-135 byteMap] *)
Definition byteTable : list (nat * string) := map (fun bc => (fst bc, codepointToUtf8 (snd bc))) byteCodes.

Definition byteToUtf8 (c : ascii) : string :=
  match List.find (fun bs => fst bs =? nat_of_ascii c) byteTable with Some (_, s) => s | None => EmptyString end.
Definition utf8ToByte (s : string) : option ascii :=
  match List.find (fun bs => String.eqb (snd bs) s) byteTable with
  | Some (b, _) => Some (ascii_of_nat b)
  | None => None
  end.

(** The first [n] bytes and the rest. *)
Fixpoint splitAt (n : nat) (s : string) : string * string :=
  match n, s with
  | S n, String.String c s => let '(a, b) := splitAt n s in (String.String c a, b)
  | _, _ => (EmptyString, s)
  end.

(** The codepoints of a text, the last one cut short at its end; a turn takes at
    least a byte. *)
Fixpoint codepointsN (fuel : nat) (s : string) : list string :=
  match fuel, s with
  | S fuel, String.String c _ => let '(cp, rest) := splitAt (utf8CodepointLen c) s in cp :: codepointsN fuel rest
  | _, _ => []
  end.
Definition codepoints (s : string) : list string := codepointsN (String.length s) s.

(** [src/src/model/Tokenizer.cpp:137-154 normalizeForSpm] *)
Definition normalizeForSpm (txt : string) (addSpacePrefix : bool) : string :=
  (if addSpacePrefix then kSpaceMarker else EmptyString) +:+
  cat (map (fun c => if Ascii.eqb c " " then kSpaceMarker else String.String c EmptyString)
         (String.list_ascii_of_string txt)).

(** ** The vocabulary *)

(** [src/src/model/Tokenizer.hpp:111-115 TokenInfo] *)
Record TokenInfo := mkToken {
  ti_text : string;
  ti_score : f32;
  ti_type : Z;
}.

(** [src/src/model/Tokenizer.hpp:128-149 Tokenizer] *)
Record Tokenizer := mkTokenizer {
  _tokens : list TokenInfo;
  _byText : gmap string Z;
  _modelType : string;
  _specialTexts : list string;
  _mergesRank : gmap string Z;
  _bosId : Z;
  _eosId : Z;
  _unknownId : Z;
  _padId : Z;
  _addSpacePrefix : bool;
}.

Definition newTokenizer : Tokenizer :=
  mkTokenizer [] ∅ EmptyString [] ∅ (-1) (-1) (-1) (-1) true.

Definition eta_tokenizer (t : Tokenizer) : Tokenizer :=
  mkTokenizer (_tokens t) (_byText t) (_modelType t) (_specialTexts t) (_mergesRank t) (_bosId t)
    (_eosId t) (_unknownId t) (_padId t) (_addSpacePrefix t).
#[global] Instance set_tokens : FieldSetter _tokens := ltac:(build_setter eta_tokenizer _tokens).
#[global] Instance set_byText : FieldSetter _byText := ltac:(build_setter eta_tokenizer _byText).
#[global] Instance set_modelType : FieldSetter _modelType := ltac:(build_setter eta_tokenizer _modelType).
#[global] Instance set_specialTexts : FieldSetter _specialTexts := ltac:(build_setter eta_tokenizer _specialTexts).
#[global] Instance set_mergesRank : FieldSetter _mergesRank := ltac:(build_setter eta_tokenizer _mergesRank).
#[global] Instance set_bosId : FieldSetter _bosId := ltac:(build_setter eta_tokenizer _bosId).
#[global] Instance set_eosId : FieldSetter _eosId := ltac:(build_setter eta_tokenizer _eosId).
#[global] Instance set_unknownId : FieldSetter _unknownId := ltac:(build_setter eta_tokenizer _unknownId).
#[global] Instance set_padId : FieldSetter _padId := ltac:(build_setter eta_tokenizer _padId).
#[global] Instance set_addSpacePrefix : FieldSetter _addSpacePrefix :=
  ltac:(build_setter eta_tokenizer _addSpacePrefix).

Definition tokenAt (t : Tokenizer) (id : Z) : option TokenInfo :=
  if (id <? 0)%Z then None else _tokens t !! Z.to_nat id.

(** ** Reading metadata *)

(** [None]: not a number; [Some None]: a float outside the range.
    [src/src/model/Tokenizer.cpp:32-42 asNumeric] *)
Definition asNumeric (v : MetadataValue) : option (option Z) :=
  match v with
  | VBool b => Some (Some (if b then 1 else 0)%Z)
  | VUInt8 n | VUInt16 n | VUInt32 n | VUInt64 n => Some (Some (s32 (Z.of_N n)))
  | VInt8 z | VInt16 z | VInt32 z | VInt64 z => Some (Some (s32 z))
  | VFloat32 bits => Some (truncate (ieee 23 8 bits))
  | VFloat64 bits => Some (truncate (ieee 52 11 bits))
  | VString _ | VArray _ => None
  end.

(** [src/src/model/Tokenizer.cpp:51-59 asArray] *)
Definition asArray (v : option MetadataValue) : option GgufArray :=
  match v with Some (VArray a) => Some a | _ => None end.

(** [src/src/model/Tokenizer.cpp:61-74 readArrayElement] *)
Definition readArrayElement (arr : GgufArray) (i size : nat) (isExpected : GgufValueType -> bool) : option N :=
  if negb (isExpected (elementType arr)) then None
  else
    let off := i * size in
    if length (raw arr) <? off + size then None else Some (GgufReader.le (take size (drop off (raw arr)))).

Definition isFloat32 (t : GgufValueType) : bool := match t with Float32 => true | _ => false end.
Definition isInt32 (t : GgufValueType) : bool := match t with Int32 => true | _ => false end.
Definition isString (t : GgufValueType) : bool := match t with Gguf.String => true | _ => false end.

(** [std::sort] by a total order; equal texts are the same. *)
Fixpoint insertBy (lt : string -> string -> bool) (x : string) (l : list string) : list string :=
  match l with [] => [x] | y :: l' => if lt y x then y :: insertBy lt x l' else x :: l end.
Definition sortBy (lt : string -> string -> bool) (l : list string) : list string := foldr (insertBy lt) [] l.

(** [std::unique]. *)
Fixpoint unique (l : list string) : list string :=
  match l with
  | x :: (y :: _) as l' => if String.eqb x y then unique l' else x :: unique l'
  | l => l
  end.

Definition longerFirst (a b : string) : bool :=
  if negb (String.length a =? String.length b) then String.length b <? String.length a else String.ltb a b.

(** [src/src/model/Tokenizer.cpp:435-463 Tokenizer::buildSpecialTexts] *)
Definition buildSpecialTexts (t : Tokenizer) : Tokenizer :=
  let add := fun s => if String.eqb s EmptyString then [] else [s] in
  let marked := flat_map (fun k => if ((ti_type k =? 3) || (ti_type k =? 4))%Z then add (ti_text k) else []) (_tokens t) in
  let byId := flat_map (fun id => match tokenAt t id with Some k => add (ti_text k) | None => [] end)
    [_bosId t; _eosId t; _padId t; _unknownId t] in
  t <| _specialTexts := sortBy longerFirst (unique (sortBy String.ltb (marked ++ byId))) |>.

(** The loop over the vocabulary, from index [i].
    [src/src/model/Tokenizer.cpp:197-216 Tokenizer::loadFromGguf] *)
Fixpoint loadVocab (scoresArr typesArr : option GgufArray) (i : nat) (texts : list string) (t : Tokenizer) : Tokenizer :=
  match texts with
  | [] => t
  | txt :: texts =>
      let score := match scoresArr with
        | Some a => match readArrayElement a i 4 isFloat32 with Some b => ieee 23 8 b | None => S754_zero false end
        | None => S754_zero false end in
      let type := match typesArr with
        | Some a => match readArrayElement a i 4 isInt32 with Some b => s32 (Z.of_N b) | None => 1%Z end
        | None => 1%Z end in
      loadVocab scoresArr typesArr (S i) texts
        (t <| _byText := <[txt := s32 (Z.of_nat i)]> (_byText t) |> <| _tokens := _tokens t ++ [mkToken txt score type] |>)
  end.

(** A special id from the metadata; [None] is a float outside the range.
    [src/src/model/Tokenizer.cpp:218-224 Tokenizer::loadFromGguf] *)
Definition readSpecialId (r : GgufReader) (key : string) (dst : Z) : option Z :=
  match findMetadata r key with
  | Some v => match asNumeric v with Some n => n | None => Some dst end
  | None => Some dst
  end.

(** [src/src/model/Tokenizer.cpp:241-249 Tokenizer::loadFromGguf] *)
Definition loadMerges (r : GgufReader) (ranks : gmap string Z) : gmap string Z :=
  match asArray (findMetadata r "tokenizer.ggml.merges") with
  | Some a =>
      if isString (elementType a) then
        fold_left (fun m ks => emplace (snd ks) (s32 (Z.of_nat (fst ks))) m)
          (imap (fun i s => (i, s)) (strings a)) ranks
      else ranks
  | None => ranks
  end.

(** [src/src/model/Tokenizer.cpp:162-259 Tokenizer::loadFromGguf] *)
Definition loadFromGguf (r : GgufReader) (t : Tokenizer) : outcome unit * Tokenizer :=
  let t := match findMetadata r "tokenizer.ggml.model" with
           | Some (VString m) => t <| _modelType := m |> | _ => t end in
  match asArray (findMetadata r "tokenizer.ggml.tokens") with
  | None => (Throws (RuntimeError "Tokenizer: tokenizer.ggml.tokens missing"), t)
  | Some tokensArr =>
      if negb (isString (elementType tokensArr)) then
        (Throws (RuntimeError "Tokenizer: tokenizer.ggml.tokens missing"), t)
      else
        let t := loadVocab (asArray (findMetadata r "tokenizer.ggml.scores"))
                   (asArray (findMetadata r "tokenizer.ggml.token_type")) 0 (strings tokensArr) t in
        match readSpecialId r "tokenizer.ggml.bos_token_id" (_bosId t),
              readSpecialId r "tokenizer.ggml.eos_token_id" (_eosId t),
              readSpecialId r "tokenizer.ggml.unknown_token_id" (_unknownId t),
              readSpecialId r "tokenizer.ggml.padding_token_id" (_padId t) with
        | Some bos, Some eos, Some unk, Some pad =>
            let t := t <| _bosId := bos |> <| _eosId := eos |> <| _unknownId := unk |> <| _padId := pad |> in
            let t := match findMetadata r "tokenizer.ggml.add_space_prefix" with
                     | Some (VBool b) => t <| _addSpacePrefix := b |> | _ => t end in
            (Returns tt, buildSpecialTexts (t <| _mergesRank := loadMerges r (_mergesRank t) |>))
        | _, _, _, _ => (Undefined, t)
        end
  end.

(** *** From a HuggingFace checkpoint *)

Section HfJson.
Context `{Json}.
(** What is at a path: nothing, a file that cannot be opened, or one that reads as a
    document or throws. *)
Variable files : string -> option (option (result json)).

(** [fs::path::operator/]. *)
Definition joinPath (dir name : string) : string :=
  let n := String.length dir in
  if n =? 0 then name
  else if String.eqb (String.substring (n - 1) 1 dir) "/" then dir +:+ name else dir +:+ "/" +:+ name.

(** [src/src/model/Tokenizer.cpp:265-274 Tokenizer::loadFromHfJson] *)
Definition readJson (p : string) : result json :=
  match files p with
  | Some (Some r) => r
  | _ => Throw (RuntimeError ("Tokenizer::loadFromHfJson: cannot open " +:+ p))
  end.

(** An exception of the JSON library is written as its text. *)
Definition getS32 (j : json) : result Z :=
  match j with
  | JUnsigned n => Ok (s32 (Z.of_N n))
  | JOtherNumber n => Ok (s32 (Z.of_N (castNumber n)))
  | JBool b => Ok (if b then 1 else 0)%Z
  | _ => Throw (RuntimeError typeError)
  end.
Definition getText (j : json) : result string :=
  match j with JString s => Ok s | _ => Throw (RuntimeError typeError) end.

Definition andThen {A B} (r : result A) (f : A -> result B) : result B :=
  match r with Ok a => f a | Throw e => Throw e end.

(** [src/src/model/Tokenizer.cpp:303-310 Tokenizer::loadFromHfJson] *)
Fixpoint vocabEntries (l : list (string * json)) : result (list (Z * string)) :=
  match l with
  | [] => Ok []
  | (key, v) :: l => andThen (getS32 v) (fun id => andThen (vocabEntries l) (fun r => Ok ((id, key) :: r)))
  end.

(** [src/src/model/Tokenizer.cpp:311-328 Tokenizer::loadFromHfJson] *)
Fixpoint addedEntries (l : list json) : result (list (Z * string)) :=
  match l with
  | [] => Ok []
  | a :: l =>
      match field a "id", field a "content" with
      | Some i, Some c =>
          andThen (getS32 i) (fun id => andThen (getText c) (fun s =>
            andThen (addedEntries l) (fun r => Ok ((id, s) :: r))))
      | _, _ => addedEntries l
      end
  end.

(** [None] is an index outside the vector: a negative id.
    [src/src/model/Tokenizer.cpp:337-340 Tokenizer::loadFromHfJson] *)
Fixpoint placeEntries (l : list (Z * string)) (t : Tokenizer) : option Tokenizer :=
  match l with
  | [] => Some t
  | (id, s) :: l =>
      if (id <? 0)%Z then None
      else placeEntries l (t <| _tokens := alter (fun k => mkToken s (ti_score k) (ti_type k)) (Z.to_nat id) (_tokens t) |>
                             <| _byText := <[s := id]> (_byText t) |>)
  end.

(** The merges read so far, and what stopped the loop.
    [src/src/model/Tokenizer.cpp:359-369 Tokenizer::loadFromHfJson] *)
Fixpoint hfMerges (l : list json) (rank : Z) (ranks : gmap string Z) : option exn * gmap string Z :=
  match l with
  | [] => (None, ranks)
  | JString key :: l => hfMerges l (s32 (rank + 1)) (emplace key rank ranks)
  | JArray [a; b] :: l =>
      match andThen (getText a) (fun x => andThen (getText b) (fun y => Ok (x +:+ " " +:+ y))) with
      | Ok key => hfMerges l (s32 (rank + 1)) (emplace key rank ranks)
      | Throw e => (Some e, ranks)
      end
  | _ :: l => hfMerges l rank ranks
  end.

Definition idOrNone (t : Tokenizer) (text : string) : Z := default (-1)%Z (_byText t !! text).

(** [src/src/model/Tokenizer.cpp:382-394 Tokenizer::loadFromHfJson] *)
Definition configIds (tc : json) (t : Tokenizer) : Tokenizer :=
  let strTok := fun key => match field tc key with Some (JString s) => s | _ => EmptyString end in
  let pick := fun key dflt => if String.eqb (strTok key) EmptyString then dflt else idOrNone t (strTok key) in
  t <| _bosId := pick "bos_token" (_bosId t) |> <| _eosId := pick "eos_token" (_eosId t) |>
    <| _padId := pick "pad_token" (_padId t) |> <| _unknownId := pick "unk_token" (_unknownId t) |>.

(** [is_number_integer], booleans apart. *)
Definition integerOf (j : json) : option Z :=
  match j with
  | JUnsigned n => Some (s32 (Z.of_N n))
  | JOtherNumber n => if isInteger n then Some (s32 (Z.of_N (castNumber n))) else None
  | _ => None
  end.

(** [src/src/model/Tokenizer.cpp:398-406 Tokenizer::loadFromHfJson] *)
Definition generationEos (gc : json) (t : Tokenizer) : Tokenizer :=
  match field gc "eos_token_id" with
  | Some (JArray (j :: _)) | Some j => match integerOf j with Some id => t <| _eosId := id |> | None => t end
  | None => t
  end.

(** The special ids from the two other files.
    [src/src/model/Tokenizer.cpp:376-411 Tokenizer::loadFromHfJson] *)
Definition loadHfIds (dir : string) (t : Tokenizer) : outcome unit * Tokenizer :=
  let t := t <| _bosId := (-1)%Z |> <| _eosId := (-1)%Z |> <| _unknownId := (-1)%Z |> <| _padId := (-1)%Z |> in
  let tcPath := joinPath dir "tokenizer_config.json" in
  let gcPath := joinPath dir "generation_config.json" in
  match (if bool_decide (is_Some (files tcPath)) then andThen (readJson tcPath) (fun tc => Ok (configIds tc t)) else Ok t) with
  | Throw e => (Throws e, t)
  | Ok t =>
      match (if (_eosId t <? 0)%Z && bool_decide (is_Some (files gcPath)) then
               andThen (readJson gcPath) (fun gc => Ok (generationEos gc t)) else Ok t) with
      | Throw e => (Throws e, t)
      | Ok t => (Returns tt, buildSpecialTexts (t <| _addSpacePrefix := false |>))
      end
  end.

(** The vocabulary and the merges, from the [model] object.
    [src/src/model/Tokenizer.cpp:295-370 Tokenizer::loadFromHfJson] *)
Definition loadHfModel (tj model : json) (t : Tokenizer) : outcome unit * Tokenizer :=
  match field model "vocab" with
  | Some (JObject vocab) =>
      let added := match field tj "added_tokens" with Some (JArray l) => addedEntries l | _ => Ok [] end in
      match vocabEntries vocab, added with
      | Throw e, _ | Ok _, Throw e => (Throws e, t)
      | Ok vs, Ok as_ =>
          let entries := vs ++ as_ in
          let maxId := foldr (fun e m => Z.max (fst e) m) (-1)%Z entries in
          if (maxId <? 0)%Z then (Throws (RuntimeError "Tokenizer::loadFromHfJson: empty vocab"), t)
          else
            let t := t <| _tokens := replicate (Z.to_nat maxId + 1) (mkToken EmptyString (S754_zero false) 1) |>
                       <| _byText := ∅ |> in
            match placeEntries entries t with
            | None => (Undefined, t)
            | Some t =>
                let mark := fun ts e => alter (fun k => mkToken (ti_text k) (ti_score k) 3) (Z.to_nat (fst e)) ts in
                let t := t <| _tokens := fold_left mark as_ (_tokens t) |> <| _mergesRank := ∅ |> in
                let '(stop, ranks) := match field model "merges" with
                                      | Some (JArray l) => hfMerges l 0 ∅ | _ => (None, ∅) end in
                (match stop with Some e => Throws e | None => Returns tt end, t <| _mergesRank := ranks |>)
            end
      end
  | _ => (Throws (RuntimeError "Tokenizer::loadFromHfJson: tokenizer.json model.vocab missing"), t)
  end.

(** [src/src/model/Tokenizer.cpp:261-294 Tokenizer::loadFromHfJson] *)
Definition loadFromHfJson (checkpointDir : string) (t : Tokenizer) : outcome unit * Tokenizer :=
  match readJson (joinPath checkpointDir "tokenizer.json") with
  | Throw e => (Throws e, t)
  | Ok tj =>
      match field tj "model" with
      | Some (JObject _ as model) =>
          match (match field model "type" with Some v => getText v | None => Ok EmptyString end) with
          | Throw e => (Throws e, t)
          | Ok bpeType =>
              if negb (String.eqb bpeType "BPE") then
                (Throws (RuntimeError ("Tokenizer::loadFromHfJson: only byte-level BPE tokenizer.json is supported (model.type='"
                   +:+ bpeType +:+ "')")), t)
              else
                match loadHfModel tj model (t <| _modelType := "gpt2" |>) with
                | (Returns _, t) => loadHfIds checkpointDir t
                | r => r
                end
          end
      | _ => (Throws (RuntimeError "Tokenizer::loadFromHfJson: tokenizer.json has no 'model' object"), t)
      end
  end.
End HfJson.

(** ** Encoding *)

(** The first special, in the given order, that [rest] begins with. *)
Definition hitAt (specials : list string) (rest : string) : option string :=
  List.find (fun s => negb (String.eqb s EmptyString) && String.prefix s rest) specials.

Definition flush (run : string) : list (bool * string) :=
  if String.eqb run EmptyString then [] else [(false, run)].

(** A turn takes at least a byte.
    [src/src/model/Tokenizer.cpp:465-495 Tokenizer::splitOnSpecials] *)
Fixpoint splitN (fuel : nat) (specials : list string) (rest run : string) : list (bool * string) :=
  match fuel, rest with
  | S fuel, String.String c rest' =>
      match hitAt specials rest with
      | Some s => flush run ++ (true, s) :: splitN fuel specials (snd (splitAt (String.length s) rest)) EmptyString
      | None => splitN fuel specials rest' (run +:+ String.String c EmptyString)
      end
  | _, _ => flush run
  end.
Definition splitOnSpecials (text : string) (specials : list string) : list (bool * string) :=
  splitN (String.length text) specials text EmptyString.

(** [src/src/model/Tokenizer.cpp:865-871 Tokenizer::findToken] *)
Definition findToken (t : Tokenizer) (text : string) : Z := default (-1)%Z (_byText t !! text).

Definition withBos (t : Tokenizer) (addBos : bool) (ids : list Z) : list Z :=
  if addBos && (0 <=? _bosId t)%Z then _bosId t :: ids else ids.

(** The list of pieces both encoders start from. *)
Definition linkUp {A} (l : list (string * A)) : list (Node (A := A)) :=
  imap (fun i sa => mkNode (fst sa) (snd sa) true (if i =? 0 then None else Some (i - 1))
    (if i + 1 <? length l then Some (i + 1) else None)) l.

(** *** Byte-level BPE *)

Definition INT32_MAX : Z := 2147483647.

(** A rank of [INT32_MAX] reads as no merge.
    [src/src/model/Tokenizer.cpp:742-751 Tokenizer::encodeGpt2] *)
Definition mergeRank (t : Tokenizer) (a b : string) : option Z :=
  match _mergesRank t !! (a +:+ " " +:+ b) with
  | Some r => if (r =? INT32_MAX)%Z then None else Some r
  | None => None
  end.

Definition pairRank (t : Tokenizer) (ns : list (Node (A := unit))) (i : nat) : option Z :=
  match ns !! i with
  | Some n =>
      match next n with
      | Some j => match ns !! j with Some m => mergeRank t (text n) (text m) | None => None end
      | None => None
      end
  | None => None
  end.

Definition pushRank (t : Tokenizer) (ns : list (Node (A := unit))) (i : nat) (heap : list (Z * nat)) : list (Z * nat) :=
  match pairRank t ns i with Some r => (r, i) :: heap | None => heap end.

Section Encoders.
(** Taking the least pair (rank, index), and the greatest candidate. *)
Variable popMin : list (Z * nat) -> option ((Z * nat) * list (Z * nat)).
Variable popMax : list ((f32 * Z) * nat) -> option (((f32 * Z) * nat) * list ((f32 * Z) * nat)).

(** [None]: out of fuel.
    [src/src/model/Tokenizer.cpp:758-780 Tokenizer::encodeGpt2] *)
Fixpoint bpeLoop (fuel : nat) (t : Tokenizer) (ns : list (Node (A := unit))) (heap : list (Z * nat))
    : option (list (Node (A := unit))) :=
  match popMin heap with
  | None => Some ns
  | Some ((r, i), heap) =>
      match fuel, ns !! i with
      | S fuel, Some n =>
          match next n with
          | Some j =>
              if active n && bool_decide (pairRank t ns i = Some r) then
                let ns := mergeNodes i j tt ns in
                let heap := match prev n with Some p => pushRank t ns p heap | None => heap end in
                bpeLoop fuel t ns (pushRank t ns i heap)
              else bpeLoop fuel t ns heap
          | None => bpeLoop fuel t ns heap
          end
      | _, _ => None
      end
  end.

(** Each entry costs a turn; a merge adds at most two and there are fewer merges than
    pieces.
    [src/src/model/Tokenizer.cpp:733-789 Tokenizer::encodeGpt2] *)
Definition bpeMerge (t : Tokenizer) (word : list string) : option (list string) :=
  if 1 <? length word then
    let ns := linkUp (map (fun w => (w, tt)) word) in
    let heap := foldr (pushRank t ns) [] (rev (seq 0 (length word))) in
    ns ← bpeLoop (3 * length word) t ns heap;
    Some (map text (walk (length word) (Some 0) ns))
  else Some word.

Definition idOf (t : Tokenizer) (w : string) : Z := default (_unknownId t) (_byText t !! w).

(** [src/src/model/Tokenizer.cpp:707-814 Tokenizer::encodeGpt2] *)
Definition encodeGpt2 (t : Tokenizer) (txt : string) (addBos : bool) : option (list Z) :=
  let word := map byteToUtf8 (String.list_ascii_of_string txt) in
  word ← bpeMerge t word;
  Some (withBos t addBos (map (idOf t) word)).

(** *** SentencePiece *)

(** Score and id of the merged token.
    [src/src/model/Tokenizer.cpp:603-609 Tokenizer::encodeSpm] *)
Definition mergedToken (t : Tokenizer) (a b : string) : option (f32 * Z) :=
  match _byText t !! (a +:+ b) with
  | Some id => match _tokens t !! Z.to_nat id with Some k => Some (ti_score k, id) | None => None end
  | None => None
  end.

(** [src/src/model/Tokenizer.cpp:595-610 Tokenizer::encodeSpm] *)
Definition tryAddCandidate (t : Tokenizer) (ns : list (Node (A := Z))) (left : option nat)
    (pq : list ((f32 * Z) * nat)) : list ((f32 * Z) * nat) :=
  match left with
  | None => pq
  | Some i =>
      match ns !! i with
      | None => pq
      | Some l =>
          if negb (active l) then pq
          else
            match next l with
            | None => pq
            | Some j =>
                match ns !! j with
                | None => pq
                | Some r =>
                    if negb (active r) then pq
                    else match mergedToken t (text l) (text r) with Some c => (c, i) :: pq | None => pq end
                end
            end
      end
  end.

(** [Candidate::operator<].
    [src/src/model/Tokenizer.cpp:582-592 Tokenizer::encodeSpm] *)
Definition less (x y : (f32 * Z) * nat) : bool :=
  let '((xs, _), xl) := x in
  let '((ys, _), yl) := y in
  if negb (Sampling.feq xs ys) then Sampling.flt xs ys else yl <? xl.

(** [src/src/model/Tokenizer.cpp:617-648 Tokenizer::encodeSpm] *)
Fixpoint spmLoop (fuel : nat) (t : Tokenizer) (ns : list (Node (A := Z))) (pq : list ((f32 * Z) * nat))
    : option (list (Node (A := Z))) :=
  match popMax pq with
  | None => Some ns
  | Some (((score, cid), i), pq) =>
      match fuel, ns !! i with
      | S fuel, Some l =>
          match (if active l then next l else None) with
          | None => spmLoop fuel t ns pq
          | Some j =>
              match ns !! j with
              | None => spmLoop fuel t ns pq
              | Some r =>
                  if active r && bool_decide (_byText t !! (text l +:+ text r) = Some cid) then
                    let ns := mergeNodes i j cid ns in
                    spmLoop fuel t ns (tryAddCandidate t ns (prev l) (tryAddCandidate t ns (Some i) pq))
                  else spmLoop fuel t ns pq
              end
          end
      | _, _ => None
      end
  end.

(** [src/src/model/Tokenizer.cpp:655-658 Tokenizer::encodeSpm] *)
Definition firstActive (ns : list (Node (A := Z))) : option nat :=
  fst <$> list_find (fun n => active n = true) ns.

(** [src/src/model/Tokenizer.cpp:536-671 Tokenizer::encodeSpm] *)
Definition encodeSpm (t : Tokenizer) (txt : string) (addBos : bool) : option (list Z) :=
  let segs := map (fun cp => (cp, idOf t cp)) (codepoints (normalizeForSpm txt (_addSpacePrefix t))) in
  if length segs =? 0 then Some (withBos t addBos [])
  else
    let ns := linkUp segs in
    let pq := foldr (fun i => tryAddCandidate t ns (Some i)) [] (rev (seq 0 (length segs))) in
    ns ← spmLoop (3 * length segs) t ns pq;
    Some (withBos t addBos (map tag (walk (length segs) (firstActive ns) ns))).

(** [src/src/model/Tokenizer.cpp:424-433 Tokenizer::encode] *)
Definition encode (t : Tokenizer) (txt : string) (addBos : bool) : option (list Z) :=
  if length (_tokens t) =? 0 then Some []
  else if String.eqb (_modelType t) "gpt2" then encodeGpt2 t txt addBos
  else encodeSpm t txt addBos.

(** [src/src/model/Tokenizer.cpp:510-521 Tokenizer::encode] *)
Fixpoint encodePieces (t : Tokenizer) (pieces : list (bool * string)) : option (list Z) :=
  match pieces with
  | [] => Some []
  | (isSpecial, piece) :: pieces =>
      ids ← (if isSpecial && (0 <=? findToken t piece)%Z then Some [findToken t piece] else encode t piece false);
      rest ← encodePieces t pieces;
      Some (ids ++ rest)
  end.

(** [src/src/model/Tokenizer.cpp:497-523 Tokenizer::encode] *)
Definition encodeParsing (t : Tokenizer) (txt : string) (addBos parseSpecial : bool) : option (list Z) :=
  if negb parseSpecial then encode t txt addBos
  else if length (_tokens t) =? 0 then Some []
  else
    ids ← encodePieces t (splitOnSpecials txt (_specialTexts t));
    Some (withBos t addBos ids).
End Encoders.

(** ** Decoding *)

Definition skipped (t : Tokenizer) (skipSpecial : bool) (id : Z) : bool :=
  skipSpecial && ((id =? _bosId t) || (id =? _eosId t) || (id =? _padId t))%Z.

(** The texts of the tokens.
    [src/src/model/Tokenizer.cpp:824-834 Tokenizer::decodeGpt2] *)
Definition rawText (t : Tokenizer) (ids : list Z) (skipSpecial : bool) : string :=
  cat (map (fun id => match tokenAt t id with
                      | Some k => if skipped t skipSpecial id then EmptyString else ti_text k
                      | None => EmptyString end) ids).

Definition fromByteCodes (raw : string) : string :=
  cat (map (fun cp => match utf8ToByte cp with Some b => String.String b EmptyString | None => cp end) (codepoints raw)).

(** [src/src/model/Tokenizer.cpp:816-852 Tokenizer::decodeGpt2] *)
Definition decodeGpt2 (t : Tokenizer) (ids : list Z) (skipSpecial : bool) : string :=
  fromByteCodes (rawText t ids skipSpecial).

(** [src/src/model/Tokenizer.cpp:688-699 Tokenizer::decodeSpm] *)
Fixpoint unmark (raw : string) : string :=
  match raw with
  | EmptyString => EmptyString
  | String.String a s =>
      match s with
      | String.String b (String.String c rest) =>
          if String.eqb (String.String a (String.String b (String.String c EmptyString))) kSpaceMarker
          then String.String " " (unmark rest) else String.String a (unmark s)
      | _ => String.String a (unmark s)
      end
  end.

(** [src/src/model/Tokenizer.cpp:673-701 Tokenizer::decodeSpm] *)
Definition decodeSpm (t : Tokenizer) (ids : list Z) (skipSpecial : bool) : string := unmark (rawText t ids skipSpecial).

(** [src/src/model/Tokenizer.cpp:525-530 Tokenizer::decode] *)
Definition decode (t : Tokenizer) (ids : list Z) (skipSpecial : bool) : string :=
  if String.eqb (_modelType t) "gpt2" then decodeGpt2 t ids skipSpecial else decodeSpm t ids skipSpecial.

(** [src/src/model/Tokenizer.cpp:858-863 Tokenizer::tokenText] *)
Definition tokenText (t : Tokenizer) (id : Z) : string :=
  match tokenAt t id with Some k => ti_text k | None => EmptyString end.
End Tokenizer.
