(* ===== verification/TokenizerProofs.v ===== *)
(** * The tokenizer: theorems

    The queue-driven encoders compute the greedy merge of [Merging.v]; what is
    encoded is decoded back, for both kinds of vocabulary; the split on special
    tokens finds the longest one at every place. *)

From Stdlib Require Import Ascii SpecFloat.
From S2P Require Import Prelude Sampling Floats Gguf Merging Tokenizer.
Import Floats Merging Tokenizer.

Module TokenizerProofs.

(** ** The list both encoders start from *)

Lemma linkUp_lookup {A} (l : list (string * A)) i : linkUp l !! i =
  (fun sa => mkNode (fst sa) (snd sa) true (if i =? 0 then None else Some (i - 1))
    (if i + 1 <? length l then Some (i + 1) else None)) <$> l !! i.
Proof. unfold linkUp. by rewrite list_lookup_imap. Qed.

Lemma linkUp_linked {A} (l : list (string * A)) : linked (linkUp l) (seq 0 (length l)).
Proof.
  split.
  - intros k k' i i' Hk H1 H2. apply lookup_seq in H1 as [-> _]. apply lookup_seq in H2 as [-> _]. lia.
  - intros i n Hn. rewrite linkUp_lookup in Hn. apply fmap_Some in Hn as (sa & Hs & ->). cbn.
    apply lookup_lt_Some in Hs. split; [intros _; apply elem_of_seq; lia|done].
  - intros k i Hk. apply lookup_seq in Hk as [-> Hk]. rewrite linkUp_lookup. cbn.
    destruct (lookup_lt_is_Some_2 l k Hk) as [sa ->]. eauto.
  - intros k i n Hk Hn. apply lookup_seq in Hk as [-> Hk]. rewrite linkUp_lookup in Hn.
    apply fmap_Some in Hn as (sa & _ & ->). cbn [next]. replace (0 + k + 1) with (S k) by lia.
    destruct (Nat.ltb_spec (S k) (length l)).
    + symmetry. apply lookup_seq. lia.
    + symmetry. apply lookup_ge_None. rewrite length_seq. lia.
  - intros k i n Hk Hn. apply lookup_seq in Hk as [-> Hk]. rewrite linkUp_lookup in Hn.
    apply fmap_Some in Hn as (sa & _ & ->). cbn [prev]. destruct k as [|k]; [done|].
    cbn [Nat.eqb Nat.add]. symmetry. apply lookup_seq. lia.
Qed.

Lemma linkUp_texts {A} (l : list (string * A)) : texts (linkUp l) (seq 0 (length l)) = map fst l.
Proof.
  apply list_eq. intros k. unfold texts. rewrite !list_lookup_fmap.
  destruct (decide (k < length l)) as [Hk|Hk].
  - rewrite (lookup_seq_lt 0 (length l) k Hk). cbn. unfold textAt. rewrite linkUp_lookup.
    destruct (lookup_lt_is_Some_2 l k Hk) as [sa ->]. done.
  - rewrite !(proj2 (lookup_ge_None _ _)); [done|lia|rewrite length_seq; lia].
Qed.

Lemma length_linkUp {A} (l : list (string * A)) : length (linkUp l) = length l.
Proof. apply length_imap. Qed.

(** Reading the list. *)
Lemma walk_spec {A} (ns : list (Node (A := A))) live : linked ns live -> forall fuel k,
  length live - k <= fuel -> k <= length live ->
  walk fuel (live !! k) ns = omap (fun i => ns !! i) (drop k live).
Proof.
  intros L fuel. induction fuel as [|fuel IH]; intros k Hf Hk.
  - assert (k = length live) as -> by lia. by rewrite drop_all.
  - destruct (live !! k) as [i|] eqn:E.
    + rewrite (drop_S _ _ _ E). cbn [walk omap list_omap]. destruct (lk_node _ _ L _ _ E) as [n Hn]. rewrite Hn.
      f_equal. rewrite (lk_next _ _ L k i n E Hn). apply IH; apply lookup_lt_Some in E; lia.
    + apply lookup_ge_None in E. by rewrite drop_ge.
Qed.

Lemma walk_texts {A} (ns : list (Node (A := A))) live :
  linked ns live -> map text (omap (fun i => ns !! i) live) = texts ns live.
Proof.
  intros L. assert (H : Forall (fun i => is_Some (ns !! i)) live).
  { apply Forall_lookup_2. intros k i Hk. by eapply lk_node. }
  clear L. induction H as [|i live [n Hn] _ IH]; [done|]. cbn. unfold textAt at 1. rewrite Hn. cbn. by f_equal.
Qed.

Lemma consec_node {A} (ns : list (Node (A := A))) live i j : linked ns live -> consec live i j ->
  exists l r, ns !! i = Some l /\ ns !! j = Some r /\ active l = true /\ active r = true /\ next l = Some j /\
    textAt ns i = text l /\ textAt ns j = text r.
Proof.
  intros L (k & Hi & Hj). destruct (lk_node _ _ L _ _ Hi) as [l Hl]. destruct (lk_node _ _ L _ _ Hj) as [r Hr].
  exists l, r. split; [done|]. split; [done|].
  split; [apply (lk_active _ _ L _ _ Hl), list_elem_of_lookup; eauto|].
  split; [apply (lk_active _ _ L _ _ Hr), list_elem_of_lookup; eauto|].
  split; [by rewrite (lk_next _ _ L k i l Hi Hl)|]. unfold textAt. by rewrite Hl, Hr.
Qed.

(** An active node with a right neighbour. *)
Lemma node_consec {A} (ns : list (Node (A := A))) live i n j : linked ns live -> ns !! i = Some n ->
  active n = true -> next n = Some j -> exists k, live !! k = Some i /\ live !! S k = Some j.
Proof.
  intros L Hn Ha Hj. apply (lk_active _ _ L _ _ Hn), list_elem_of_lookup in Ha as [k Hk].
  exists k. split; [done|]. by rewrite <- (lk_next _ _ L k i n Hk Hn).
Qed.

Lemma length_mergeNodes {A} i j t (ns : list (Node (A := A))) : length (mergeNodes i j t ns) = length ns.
Proof.
  unfold mergeNodes. destruct (ns !! i) as [l|]; [|done]. destruct (ns !! j) as [r|]; [|done].
  destruct (next r); rewrite ?length_alter, !length_insert; done.
Qed.

(** ** Byte-level BPE *)

Section Bpe.
Variable t : Tokenizer.
Variable popMin : list (Z * nat) -> option ((Z * nat) * list (Z * nat)).
Hypothesis Hpop : pops Z.ltb (fun _ => True) popMin.
Abbreviation cand := (mergeRank t).

Lemma ltb_asym (x y : Z) : True -> True -> (x <? y)%Z = true -> (y <? x)%Z = false.
Proof using. intros _ _ H. apply Z.ltb_lt in H. apply Z.ltb_ge. lia. Qed.

Lemma ltb_weak (x y z : Z) : True -> True -> True -> (x <? y)%Z = true -> (x <? z)%Z = true \/ (z <? y)%Z = true.
Proof using. intros _ _ _ H. apply Z.ltb_lt in H. rewrite !Z.ltb_lt. lia. Qed.

Lemma pairRank_consec ns live i j : linked ns live -> consec live i j ->
  pairRank t ns i = cand (textAt ns i) (textAt ns j).
Proof using.
  intros L Hc. destruct (consec_node ns live i j L Hc) as (l & r & Hl & Hr & _ & _ & Hn & -> & ->).
  unfold pairRank. by rewrite Hl, Hn, Hr.
Qed.

Lemma pushRank_in ns i x h : x ∈ h -> x ∈ pushRank t ns i h.
Proof using. unfold pushRank. destruct (pairRank t ns i); [by right|done]. Qed.

Lemma pushRank_new ns i r h : pairRank t ns i = Some r -> (r, i) ∈ pushRank t ns i h.
Proof using. unfold pushRank. intros ->. left. Qed.

Lemma pushRank_range ns i n h : i < n -> Forall (fun x => snd x < n) h -> Forall (fun x => snd x < n) (pushRank t ns i h).
Proof using. unfold pushRank. destruct (pairRank t ns i); [by constructor|done]. Qed.

Lemma length_pushRank ns i h : length (pushRank t ns i h) <= S (length h).
Proof using. unfold pushRank. destruct (pairRank t ns i); cbn; lia. Qed.

(** The state of the loop: the list, the candidates of its neighbours, indices in range. *)
Definition bpeInv (ns : list (Node (A := unit))) (live : list nat) (h : list (Z * nat)) : Prop :=
  linked ns live /\ queued cand ns live h /\ Forall (fun x => snd x < length ns) h.

Lemma bpe_merge_inv ns live h k i j n r rest :
  bpeInv ns live h -> h ≡ₚ (r, i) :: rest -> live !! k = Some i -> live !! S k = Some j -> ns !! i = Some n ->
  let ns' := mergeNodes i j tt ns in
  bpeInv ns' (delete (S k) live)
    (pushRank t ns' i (match prev n with Some p => pushRank t ns' p rest | None => rest end)).
Proof using.
  intros (L & Hq & Hr) Hh Hi Hj Hn ns'. destruct (lk_node _ _ L _ _ Hj) as [m Hm].
  pose proof (merge_linked ns live k i j tt n m L Hi Hj Hn Hm) as L'. fold ns' in L'.
  split; [exact L'|]. split.
  - apply (queued_merge cand ns live k i j tt n m h r rest _ L Hi Hj Hn Hm Hq Hh).
    + intros x Hx. apply pushRank_in. destruct (prev n); [by apply pushRank_in|done].
    + fold ns'. intros a b c Hcon Hab Hc. rewrite <- (pairRank_consec ns' _ a b L' Hcon) in Hc.
      destruct Hab as [->| ->]; [by apply pushRank_new|]. apply pushRank_in.
      assert (Hp : prev n = Some a).
      { destruct Hcon as (m' & Ha & Hb). destruct (lk_node _ _ L' _ _ Hb) as [n' Hn'].
        assert (Hpn : prev n' = prev n).
        { unfold ns' in Hn'. rewrite (merge_lookup ns live k i j tt n m L Hi Hj Hn Hm), decide_True in Hn' by done.
          by injection Hn' as <-. }
        rewrite <- Hpn. by rewrite (lk_prev _ _ L' _ _ _ Hb Hn'). }
      rewrite Hp. by apply pushRank_new.
  - unfold ns' at 1. rewrite length_mergeNodes. rewrite Hh in Hr. apply Forall_cons in Hr as [Hri Hr]. cbn in Hri.
    apply pushRank_range; [done|]. destruct (prev n) as [p|] eqn:Ep; [|done]. apply pushRank_range; [|done].
    rewrite (lk_prev _ _ L k i n Hi Hn) in Ep. destruct k as [|k]; [done|].
    destruct (lk_node _ _ L _ _ Ep) as [? Hp]. by apply lookup_lt_Some in Hp.
Qed.

Lemma head_delete (live : list nat) k : head (delete (S k) live) = head live.
Proof using. by destruct live. Qed.

(** What the loop leaves of a state. *)
Definition bpeMerged (ns : list (Node (A := unit))) (live : list nat) (o : option (list (Node (A := unit)))) : Prop :=
  exists ns' live', o = Some ns' /\ linked ns' live' /\ head live' = head live /\
    length live' <= length live /\ texts ns' live' = mergeAll cand Z.ltb (texts ns live).

Lemma bpeMerged_step ns live h k i j n r rest o :
  bpeInv ns live h -> h ≡ₚ (r, i) :: rest -> Forall (fun y => sooner Z.ltb y (r, i) = false) h ->
  live !! k = Some i -> live !! S k = Some j -> ns !! i = Some n -> cand (textAt ns i) (textAt ns j) = Some r ->
  bpeMerged (mergeNodes i j tt ns) (delete (S k) live) o -> bpeMerged ns live o.
Proof using.
  intros (L & Hq & _) Hh Htop Hi Hj Hn Hb (ns' & live' & H1 & H2 & H3 & H4 & H5).
  destruct (lk_node _ _ L _ _ Hj) as [m Hm]. exists ns', live'. split; [exact H1|]. split; [done|].
  rewrite head_delete in H3. split; [done|]. split; [rewrite length_delete in H4 by eauto; lia|]. rewrite H5.
  rewrite (merge_texts ns live k i j tt n m L Hi Hj Hn Hm). symmetry. eapply mergeAll_step.
  apply (top_is_best cand Z.ltb (fun _ => True) ltb_asym ltb_weak (fun _ _ _ _ => I) ns live h r i j k L Hq Hi Hj Hb Htop).
Qed.

(** The loop ends and leaves the greedy merge. *)
Lemma bpeLoop_spec fuel : forall ns live h,
  bpeInv ns live h -> length h + 2 * length live <= fuel -> bpeMerged ns live (bpeLoop popMin fuel t ns h).
Proof using Hpop.
  induction fuel as [|fuel IH]; intros ns live h Hinv Hf; pose proof Hinv as (L & Hq & Hr); cbn [bpeLoop];
    pose proof (Hpop h) as Hp; destruct (popMin h) as [[[r i] rest]|].
  1: { destruct Hp as [Hp _]. rewrite Hp in Hf. cbn in Hf. lia. }
  1,3: subst h; exists ns, live; do 4 (split; [done|]); symmetry; apply mergeAll_done;
    by apply (queued_none cand Z.ltb (fun _ => True) ltb_asym ltb_weak (fun _ _ _ _ => I)).
  destruct Hp as [Hh Htop]. specialize (Htop ltac:(by apply Forall_forall)).
  pose proof Hr as Hr'. rewrite Hh in Hr'. apply Forall_cons in Hr' as [Hi Hrest]. cbn in Hi.
  assert (Hlen : length h = S (length rest)) by by rewrite Hh.
  destruct (lookup_lt_is_Some_2 ns i Hi) as [n Hn]. rewrite Hn.
  assert (Hstale : (forall j, consec live i j -> cand (textAt ns i) (textAt ns j) <> Some r) ->
    bpeMerged ns live (bpeLoop popMin fuel t ns rest)).
  { intros Hst. apply IH; [|lia]. split; [done|]. split; [by apply (queued_stale cand ns live h r i rest)|done]. }
  assert (Hno : forall j, consec live i j -> next n = Some j /\ active n = true).
  { intros j Hc. destruct (consec_node ns live i j L Hc) as (l & _ & Hl & _ & Ha & _ & Hx & _). split; congruence. }
  destruct (next n) as [j|] eqn:Hj; [|apply Hstale; intros j Hc; by destruct (Hno j Hc)].
  destruct (active n) eqn:Ha; cbn [andb]; [|apply Hstale; intros j' Hc; by destruct (Hno j' Hc)].
  destruct (node_consec ns live i n j L Hn Ha Hj) as (k & Hk & HSk).
  pose proof (pairRank_consec ns live i j L (ex_intro _ k (conj Hk HSk))) as Hpr. case_bool_decide as Hb.
  - rewrite Hpr in Hb. apply (bpeMerged_step ns live h k i j n r rest _ Hinv Hh Htop Hk HSk Hn Hb).
    apply IH; [by apply (bpe_merge_inv ns live h k i j n r rest)|]. set (ns' := mergeNodes i j tt ns).
    set (h' := match prev n with Some p => pushRank t ns' p rest | None => rest end).
    pose proof (length_pushRank ns' i h').
    assert (length h' <= S (length rest)) by (unfold h'; destruct (prev n); [apply length_pushRank|lia]).
    apply lookup_lt_Some in HSk. rewrite length_delete by (apply lookup_lt_is_Some; lia). lia.
  - apply Hstale. intros j' Hc Hx. apply Hb. by rewrite (pairRank_consec ns live i j' L Hc).
Qed.

(** The first heap holds every candidate. *)
Lemma pushAll_spec ns n l : Forall (fun i => i < n) l ->
  let h := foldr (pushRank t ns) [] l in
  length h <= length l /\ Forall (fun x => snd x < n) h /\
  forall i r, i ∈ l -> pairRank t ns i = Some r -> (r, i) ∈ h.
Proof using.
  intros Hl. induction Hl as [|i l Hi Hl (IH1 & IH2 & IH3)]; cbn [foldr].
  - split; [done|]. split; [constructor|]. intros i r H. by apply not_elem_of_nil in H.
  - split; [pose proof (length_pushRank ns i (foldr (pushRank t ns) [] l)); cbn [length]; lia|].
    split; [by apply pushRank_range|]. intros i' r Hin Hr. apply elem_of_cons in Hin as [->|Hin].
    + by apply pushRank_new.
    + apply pushRank_in. by apply IH3.
Qed.

Lemma bpeMerge_spec word : bpeMerge popMin t word = Some (mergeAll cand Z.ltb word).
Proof using Hpop.
  unfold bpeMerge. destruct (Nat.ltb_spec 1 (length word)) as [Hw|Hw].
  2: { f_equal. symmetry. apply mergeAll_done. unfold best, pairs. destruct word as [|w [|w' word]]; [done..|cbn in Hw; lia]. }
  set (l := map (fun w => (w, tt)) word). assert (Hl : length l = length word) by apply length_map.
  pose proof (linkUp_linked l) as L. rewrite Hl in L.
  assert (Hrng : Forall (fun i => i < length (linkUp l)) (rev (seq 0 (length word)))).
  { rewrite length_linkUp, Hl. apply Forall_rev, Forall_forall. intros i Hi. apply elem_of_seq in Hi. lia. }
  destruct (pushAll_spec (linkUp l) _ _ Hrng) as (H1 & H2 & H3). rewrite length_rev, length_seq in H1.
  destruct (bpeLoop_spec (3 * length word) (linkUp l) (seq 0 (length word)) (foldr (pushRank t (linkUp l)) [] (rev (seq 0 (length word)))))
    as (ns' & live' & E & L' & Hhd & Hle & Ht).
  { split; [done|]. split; [|done]. intros i j c Hc Hcand. rewrite <- (pairRank_consec _ _ i j L Hc) in Hcand.
    apply H3; [|done]. destruct Hc as (k & Hk & _). apply lookup_seq in Hk as [-> Hk].
    rewrite list_elem_of_In, <- in_rev, <- list_elem_of_In. apply elem_of_seq. lia. }
  { rewrite length_seq. lia. }
  rewrite E. cbn [mbind option_bind]. f_equal.
  assert (H0 : live' !! 0 = Some 0).
  { rewrite <- head_lookup, Hhd. destruct (length word); [lia|done]. }
  rewrite <- H0. rewrite length_seq in Hle.
  rewrite (walk_spec ns' live' L' (length word) 0) by lia. rewrite drop_0, (walk_texts ns' live' L'), Ht.
  rewrite <- Hl, linkUp_texts. unfold l. rewrite map_map. cbn. by rewrite map_id.
Qed.
End Bpe.

(** C26: Byte-level BPE encodes by greedy merging: however the heap orders equal
    entries, the encoder ends and answers the ids of the pieces that repeatedly
    merging the adjacent pair of lowest rank, leftmost on ties, leaves of the bytes -
    what the scan over the whole text that the heap replaces would compute. *)
Theorem gpt2_heap_is_greedy t popMin txt addBos :
  pops Z.ltb (fun _ => True) popMin ->
  encodeGpt2 popMin t txt addBos =
    Some (withBos t addBos (map (idOf t)
      (mergeAll (mergeRank t) Z.ltb (map byteToUtf8 (String.list_ascii_of_string txt))))).
Proof. intros Hpop. unfold encodeGpt2. by rewrite (bpeMerge_spec t popMin Hpop). Qed.

(** ** SentencePiece *)

(** Higher scores first. *)
Definition higher (x y : f32 * Z) : bool := Sampling.flt (fst y) (fst x).
Definition scored (x : f32 * Z) : Prop := Sampling.is_nan (fst x) = false.

(** What the queue's documentation promises: the entry taken is one no other is
    greater than, provided the order is one, which needs scores that are numbers. *)
Definition pops_greatest (popMax : list ((f32 * Z) * nat) -> option (((f32 * Z) * nat) * list ((f32 * Z) * nat))) : Prop :=
  forall h, match popMax h with
            | None => h = []
            | Some (x, rest) => h ≡ₚ x :: rest /\
                (Forall (fun y => scored (fst y)) h -> Forall (fun y => less x y = false) h)
            end.

Lemma higher_asym x y : scored x -> scored y -> higher x y = true -> higher y x = false.
Proof.
  unfold scored, higher. intros Hx Hy. rewrite Sampling.flt_rank, Sampling.flt_false by done.
  destruct (Sampling.rank (fst x)) as [[a1 a2] a3], (Sampling.rank (fst y)) as [[b1 b2] b3].
  unfold Sampling.rank_lt. lia.
Qed.

Lemma higher_weak x y z : scored x -> scored y -> scored z -> higher x y = true -> higher x z = true \/ higher z y = true.
Proof.
  unfold scored, higher. intros Hx Hy Hz. rewrite !Sampling.flt_rank by done.
  destruct (Sampling.rank (fst x)) as [[a1 a2] a3], (Sampling.rank (fst y)) as [[b1 b2] b3],
    (Sampling.rank (fst z)) as [[c1 c2] c3].
  unfold Sampling.rank_lt. lia.
Qed.

Lemma feq_flt x y : Sampling.is_nan x = false -> Sampling.is_nan y = false ->
  Sampling.feq x y = negb (Sampling.flt x y) && negb (Sampling.flt y x).
Proof.
  unfold Sampling.feq, Sampling.flt, SFeqb, SFltb. intros Hx Hy.
  destruct x as [sx|[]| |[] mx ex], y as [sy|[]| |[] my ey]; try done; cbn -[Z.compare].
  all: rewrite (Z.compare_antisym ex ey); change (Pos.compare_cont Eq mx my) with (Pos.compare mx my);
    change (Pos.compare_cont Eq my mx) with (Pos.compare my mx); rewrite (Pos.compare_antisym mx my);
    destruct (ex ?= ey)%Z, (mx ?= my)%positive; done.
Qed.

Lemma less_sooner x y : scored (fst x) -> scored (fst y) -> less x y = sooner higher y x.
Proof.
  destruct x as [[xs xi] xl], y as [[ys yi] yl]. unfold scored, less, sooner, higher. cbn [fst snd]. intros Hx Hy.
  rewrite feq_flt by done. destruct (Sampling.flt xs ys) eqn:E1; [done|]. destruct (Sampling.flt ys xs) eqn:E2; done.
Qed.

Section Spm.
Variable t : Tokenizer.
Variable popMax : list ((f32 * Z) * nat) -> option (((f32 * Z) * nat) * list ((f32 * Z) * nat)).
Hypothesis Hpop : pops_greatest popMax.
Hypothesis Hnan : Forall (fun k => Sampling.is_nan (ti_score k) = false) (_tokens t).
Abbreviation cand := (mergedToken t).

Lemma mergedToken_scored a b c : cand a b = Some c -> scored c.
Proof using Hnan.
  unfold mergedToken. destruct (_byText t !! (a +:+ b)) as [id|]; [|done].
  destruct (_tokens t !! Z.to_nat id) as [k|] eqn:E; [|done]. intros [= <-]. exact (Forall_lookup_1 _ _ _ _ Hnan E).
Qed.

(** The score of an entry is its token's. *)
Definition fits (x : (f32 * Z) * nat) : Prop :=
  exists k, _tokens t !! Z.to_nat (snd (fst x)) = Some k /\ fst (fst x) = ti_score k.

Lemma tryAdd_some ns live i j pq : linked ns live -> consec live i j ->
  tryAddCandidate t ns (Some i) pq =
    match cand (textAt ns i) (textAt ns j) with Some c => (c, i) :: pq | None => pq end.
Proof using.
  intros L Hc. destruct (consec_node ns live i j L Hc) as (l & r & Hl & Hr & Ha & Hb & Hn & -> & ->).
  cbn [tryAddCandidate]. by rewrite Hl, Ha, Hn, Hr, Hb.
Qed.

(** At most one entry is added, for the given piece, with its token's score. *)
Lemma tryAdd_cases ns left pq : tryAddCandidate t ns left pq = pq \/
  exists c i, left = Some i /\ tryAddCandidate t ns left pq = (c, i) :: pq /\ i < length ns /\ fits (c, i).
Proof using.
  destruct left as [i|]; [|by left]. cbn [tryAddCandidate]. destruct (ns !! i) as [l|] eqn:Hl; [|by left].
  destruct (negb (active l)); [by left|]. destruct (next l) as [j|]; [|by left]. destruct (ns !! j) as [r|]; [|by left].
  destruct (negb (active r)); [by left|]. destruct (cand (text l) (text r)) as [c|] eqn:E; [|by left].
  right. exists c, i. split; [done|]. split; [done|]. split; [by apply lookup_lt_Some in Hl|].
  unfold mergedToken in E. destruct (_byText t !! (text l +:+ text r)) as [id|]; [|done].
  destruct (_tokens t !! Z.to_nat id) as [k|] eqn:Ek; [|done]. injection E as <-. by exists k.
Qed.

Lemma tryAdd_in ns left x pq : x ∈ pq -> x ∈ tryAddCandidate t ns left pq.
Proof using. intros H. destruct (tryAdd_cases ns left pq) as [->|(c & i & _ & -> & _)]; [done|by right]. Qed.

Definition sound (n : nat) (pq : list ((f32 * Z) * nat)) : Prop := Forall (fun x => snd x < n /\ fits x) pq.

Lemma tryAdd_sound ns left pq : sound (length ns) pq ->
  sound (length ns) (tryAddCandidate t ns left pq) /\ length (tryAddCandidate t ns left pq) <= S (length pq).
Proof using.
  intros H. destruct (tryAdd_cases ns left pq) as [->|(c & i & _ & -> & Hi & Hf)]; [split; [done|lia]|].
  split; [by constructor|]. cbn. lia.
Qed.

Lemma sound_scored n pq : sound n pq -> Forall (fun y => scored (fst y)) pq.
Proof using Hnan.
  intros H. eapply Forall_impl; [exact H|]. intros x [_ (k & Hk & E)]. unfold scored. rewrite E. exact (Forall_lookup_1 _ _ _ _ Hnan Hk).
Qed.

(** The state of the loop; every live piece carries the id of its text. *)
Record spmInv (ns : list (Node (A := Z))) (live : list nat) (pq : list ((f32 * Z) * nat)) : Prop := {
  sp_linked : linked ns live;
  sp_queued : queued cand ns live pq;
  sp_sound : sound (length ns) pq;
  sp_tags : forall i n, i ∈ live -> ns !! i = Some n -> tag n = idOf t (text n);
}.

Lemma spm_merge_inv ns live pq k i j l score cid rest :
  spmInv ns live pq -> pq ≡ₚ ((score, cid), i) :: rest -> live !! k = Some i -> live !! S k = Some j ->
  ns !! i = Some l -> _byText t !! (textAt ns i +:+ textAt ns j) = Some cid ->
  let ns' := mergeNodes i j cid ns in
  spmInv ns' (delete (S k) live) (tryAddCandidate t ns' (prev l) (tryAddCandidate t ns' (Some i) rest)).
Proof using.
  intros [L Hq Hs Ht] Hh Hi Hj Hl Hid ns'. destruct (lk_node _ _ L _ _ Hj) as [r Hr].
  pose proof (merge_linked ns live k i j cid l r L Hi Hj Hl Hr) as L'. fold ns' in L'.
  pose proof (merge_lookup ns live k i j cid l r L Hi Hj Hl Hr) as Hlk. fold ns' in Hlk. split.
  - exact L'.
  - apply (queued_merge cand ns live k i j cid l r pq (score, cid) rest _ L Hi Hj Hl Hr Hq Hh).
    + intros x Hx. by apply tryAdd_in, tryAdd_in.
    + fold ns'. intros a b c Hcon Hab Hc. destruct Hab as [->| ->].
      * apply tryAdd_in. rewrite (tryAdd_some ns' _ i b rest L' Hcon), Hc. left.
      * assert (Hp : prev l = Some a).
        { destruct Hcon as (m & Ha & Hb). destruct (lk_node _ _ L' _ _ Hb) as [n Hn].
          pose proof (lk_prev _ _ L' _ _ _ Hb Hn) as Hpn. cbn in Hpn. rewrite Hlk, decide_True in Hn by done.
          injection Hn as <-. cbn in Hpn. by rewrite Hpn. }
        rewrite Hp, (tryAdd_some ns' _ a i _ L' Hcon), Hc. left.
  - unfold sound in Hs. rewrite Hh in Hs. apply Forall_cons in Hs as [_ Hs].
    assert (Hlen : length ns' = length ns) by apply length_mergeNodes. unfold sound in *. rewrite <- Hlen in Hs.
    destruct (tryAdd_sound ns' (Some i) rest Hs) as [H1 _].
    by destruct (tryAdd_sound ns' (prev l) _ H1) as [H2 _].
  - intros x n Hx Hn. apply (in_live' ns live k j L Hj) in Hx as [Hx Hxj]. rewrite Hlk in Hn.
    destruct (decide (x = i)) as [->|Hxi].
    + injection Hn as <-. cbn. unfold idOf. unfold textAt in Hid. rewrite Hl, Hr in Hid. by rewrite Hid.
    + rewrite decide_False in Hn by done. case_decide; [|by apply (Ht x)].
      apply fmap_Some in Hn as (n0 & Hn & ->). cbn. by apply (Ht x).
Qed.

(** What the loop leaves of a state. *)
Definition merged (ns : list (Node (A := Z))) (live : list nat) (o : option (list (Node (A := Z)))) : Prop :=
  exists ns' live', o = Some ns' /\ linked ns' live' /\ head live' = head live /\
    length live' <= length live /\ texts ns' live' = mergeAll cand higher (texts ns live) /\
    forall i n, i ∈ live' -> ns' !! i = Some n -> tag n = idOf t (text n).

Lemma merged_step ns live pq k i j l score cid rest o :
  spmInv ns live pq -> pq ≡ₚ ((score, cid), i) :: rest -> Forall (fun y => less ((score, cid), i) y = false) pq ->
  live !! k = Some i -> live !! S k = Some j -> ns !! i = Some l ->
  _byText t !! (textAt ns i +:+ textAt ns j) = Some cid ->
  merged (mergeNodes i j cid ns) (delete (S k) live) o -> merged ns live o.
Proof using Hnan.
  intros Hinv Hh Htop Hi Hj Hl Hid (ns' & live' & H1 & H2 & H3 & H4 & H5 & H6). pose proof Hinv as [L Hq Hs _].
  exists ns', live'. split; [done|]. split; [done|].
  split; [by destruct live|]. split; [rewrite length_delete in H4 by eauto; lia|]. split; [|done]. rewrite H5.
  destruct (lk_node _ _ L _ _ Hj) as [r Hr].
  rewrite (merge_texts ns live k i j cid l r L Hi Hj Hl Hr). symmetry. apply (mergeAll_step cand higher _ (score, cid) k).
  assert (Hf : fits ((score, cid), i)).
  { unfold sound in Hs. rewrite Hh in Hs. by apply Forall_cons in Hs as [[_ ?] _]. }
  destruct Hf as (kk & Hkk & Hsc). cbn in Hkk, Hsc. subst score.
  eapply (top_is_best cand higher scored higher_asym higher_weak mergedToken_scored ns live pq _ i j k L Hq Hi Hj).
  - unfold mergedToken. rewrite Hid, Hkk. reflexivity.
  - pose proof (sound_scored _ _ Hs) as Hsc. rewrite Forall_forall in Htop, Hsc |- *. intros y Hy.
    rewrite <- less_sooner; [by apply Htop| |by apply Hsc]. exact (Forall_lookup_1 _ _ _ _ Hnan Hkk).
Qed.

(** The loop ends and leaves the greedy merge, every piece with its id. *)
Lemma spmLoop_spec fuel : forall ns live pq,
  spmInv ns live pq -> length pq + 2 * length live <= fuel -> merged ns live (spmLoop popMax fuel t ns pq).
Proof using Hpop Hnan.
  induction fuel as [|fuel IH]; intros ns live pq Hinv Hf; pose proof Hinv as [L Hq Hs Htag]; cbn [spmLoop];
    pose proof (Hpop pq) as Hp; destruct (popMax pq) as [[[[score cid] i] rest]|].
  1: { destruct Hp as [Hp _]. rewrite Hp in Hf. cbn in Hf. lia. }
  1,3: subst pq; exists ns, live; do 4 (split; [done|]); split; [|done]; symmetry; apply mergeAll_done;
    by apply (queued_none cand higher scored higher_asym higher_weak mergedToken_scored).
  destruct Hp as [Hh Htop]. specialize (Htop (sound_scored _ _ Hs)).
  pose proof Hs as Hs'. unfold sound in Hs'. rewrite Hh in Hs'. apply Forall_cons in Hs' as [[Hi Hfit] Hrest]. cbn in Hi.
  assert (Hlen : length pq = S (length rest)) by by rewrite Hh.
  destruct (lookup_lt_is_Some_2 ns i Hi) as [l Hl]. rewrite Hl.
  assert (Hstale : (forall j, consec live i j -> _byText t !! (textAt ns i +:+ textAt ns j) <> Some cid) ->
    merged ns live (spmLoop popMax fuel t ns rest)).
  { intros Hst. apply IH; [|lia]. split; [done| |done|done].
    apply (queued_stale cand ns live pq (score, cid) i rest Hq Hh). intros j Hc Hx. apply (Hst j Hc).
    unfold mergedToken in Hx. destruct (_byText t !! _) as [id|]; [|done].
    destruct (_tokens t !! Z.to_nat id); [|done]. by injection Hx as _ ->. }
  assert (Hno : forall j, consec live i j -> active l = true /\ next l = Some j /\
      exists r, ns !! j = Some r /\ active r = true /\ textAt ns i = text l /\ textAt ns j = text r).
  { intros j Hc. destruct (consec_node ns live i j L Hc) as (l' & r & Hl' & Hr & Ha & Hb & Hn & H1 & H2).
    assert (l' = l) as -> by congruence. eauto 10. }
  destruct (active l) eqn:Ha; [|apply Hstale; intros j Hc; by destruct (Hno j Hc)].
  destruct (next l) as [j|] eqn:Hj; [|apply Hstale; intros j Hc; by destruct (Hno j Hc) as (_ & ? & _)].
  destruct (node_consec ns live i l j L Hl Ha Hj) as (k & Hk & HSk).
  destruct (Hno j (ex_intro _ k (conj Hk HSk))) as (_ & _ & r & Hr & Hb & Htl & Htr). rewrite Hr, Hb. cbn [andb].
  rewrite <- Htl, <- Htr. case_bool_decide as Hid.
  - pose proof (spm_merge_inv ns live pq k i j l score cid rest Hinv Hh Hk HSk Hl Hid) as Hinv'. cbn zeta in Hinv'.
    apply (merged_step ns live pq k i j l score cid rest _ Hinv Hh Htop Hk HSk Hl Hid), IH; [done|].
    unfold sound in Hrest. rewrite <- (length_mergeNodes i j cid ns) in Hrest.
    destruct (tryAdd_sound (mergeNodes i j cid ns) (Some i) rest Hrest) as [H1 H2].
    destruct (tryAdd_sound (mergeNodes i j cid ns) (prev l) _ H1) as [_ H3].
    apply lookup_lt_Some in HSk. rewrite length_delete by (apply lookup_lt_is_Some; lia). lia.
  - apply Hstale. intros j' Hc. destruct (Hno j' Hc) as (_ & Hj' & _). by assert (j' = j) as -> by congruence.
Qed.

Lemma tryAll_spec ns n l : n = length ns ->
  let pq := foldr (fun i => tryAddCandidate t ns (Some i)) [] l in
  length pq <= length l /\ sound n pq /\
  forall live i j c, linked ns live -> i ∈ l -> consec live i j -> cand (textAt ns i) (textAt ns j) = Some c -> (c, i) ∈ pq.
Proof using.
  intros ->. induction l as [|i l (IH1 & IH2 & IH3)]; cbn [foldr].
  - split; [done|]. split; [constructor|]. intros live i j c _ H. by apply not_elem_of_nil in H.
  - destruct (tryAdd_sound ns (Some i) _ IH2) as [H1 H2]. split; [cbn [length]; lia|]. split; [done|].
    intros live i' j c L Hin Hc Hcand. apply elem_of_cons in Hin as [->|Hin].
    + rewrite (tryAdd_some ns live i j _ L Hc), Hcand. left.
    + by eapply tryAdd_in, IH3.
Qed.

Lemma walk_tags ns live : linked ns live -> (forall i n, i ∈ live -> ns !! i = Some n -> tag n = idOf t (text n)) ->
  map tag (omap (fun i => ns !! i) live) = map (idOf t) (texts ns live).
Proof using.
  intros L Ht. rewrite <- (walk_texts ns live L), map_map. apply map_ext_in. intros n Hn.
  apply list_elem_of_In, list_elem_of_omap in Hn as (i & Hi & Hn). by eapply Ht.
Qed.

Lemma encodeSpm_spec txt addBos : encodeSpm popMax t txt addBos =
  Some (withBos t addBos (map (idOf t) (mergeAll cand higher (codepoints (normalizeForSpm txt (_addSpacePrefix t)))))).
Proof using Hpop Hnan.
  unfold encodeSpm. set (cps := codepoints _). set (l := map (fun cp => (cp, idOf t cp)) cps).
  assert (Hl : length l = length cps) by apply length_map.
  destruct (Nat.eqb_spec (length l) 0) as [Hz|Hz]; [rewrite Hl in Hz; by apply length_zero_iff_nil in Hz as ->|].
  pose proof (linkUp_linked l) as L.
  destruct (tryAll_spec (linkUp l) _ (rev (seq 0 (length l))) eq_refl) as (H1 & H2 & H3).
  rewrite length_rev, length_seq in H1.
  destruct (spmLoop_spec (3 * length l) (linkUp l) (seq 0 (length l))
    (foldr (fun i => tryAddCandidate t (linkUp l) (Some i)) [] (rev (seq 0 (length l)))))
    as (ns' & live' & E & L' & Hhd & Hle & Ht & Htag).
  { split; [done| |done|].
    - intros i j c Hc Hcand. eapply H3; [done| |done|done]. destruct Hc as (k & Hk & _). apply lookup_seq in Hk as [-> Hk].
      rewrite list_elem_of_In, <- in_rev, <- list_elem_of_In. apply elem_of_seq. lia.
    - intros i n _ Hn. rewrite linkUp_lookup in Hn. apply fmap_Some in Hn as (sa & Hsa & ->). cbn.
      unfold l in Hsa. rewrite list_lookup_fmap in Hsa. by apply fmap_Some in Hsa as (cp & _ & ->). }
  { rewrite length_seq. lia. }
  rewrite E. cbn [mbind option_bind]. do 2 f_equal. rewrite length_seq in Hle.
  assert (H0 : live' !! 0 = Some 0) by (rewrite <- head_lookup, Hhd; by destruct (length l)).
  assert (Hfirst : firstActive ns' = Some 0).
  { destruct (lk_node _ _ L' _ _ H0) as [n Hn]. unfold firstActive.
    assert (Ha : active n = true) by (apply (lk_active _ _ L' _ _ Hn), list_elem_of_lookup; eauto).
    destruct ns' as [|n0 ns']; [done|]. injection Hn as ->. cbn. by rewrite decide_True. }
  rewrite Hfirst, <- H0, (walk_spec ns' live' L' (length l) 0), drop_0, (walk_tags ns' live' L' Htag), Ht by lia.
  rewrite linkUp_texts. unfold l. rewrite map_map. cbn. by rewrite map_id.
Qed.
End Spm.

(** C27: SentencePiece encodes by greedy merging: with scores that are numbers, however
    the queue orders equal candidates, the encoder ends and answers the ids of the
    pieces that repeatedly merging the adjacent pair whose token scores highest,
    leftmost on ties, leaves of the codepoints. *)
Theorem spm_heap_is_greedy t popMax txt addBos :
  pops_greatest popMax -> Forall (fun k => Sampling.is_nan (ti_score k) = false) (_tokens t) ->
  encodeSpm popMax t txt addBos =
    Some (withBos t addBos (map (idOf t)
      (mergeAll (mergedToken t) higher (codepoints (normalizeForSpm txt (_addSpacePrefix t)))))).
Proof. intros Hpop Hnan. by apply encodeSpm_spec. Qed.

(** ** Codepoints *)

(** A string that is one codepoint by its first byte. *)
Definition unit_ok (u : string) : bool :=
  match u with String.String c _ => String.length u =? utf8CodepointLen c | EmptyString => false end.

Lemma splitAt_length n : forall s, String.length (snd (splitAt n s)) = String.length s - n.
Proof.
  induction n as [|n IH]; intros [|c s]; cbn; [done..|]. specialize (IH s). by destruct (splitAt n s).
Qed.

Lemma splitAt_app u y : splitAt (String.length u) (u +:+ y) = (u, y).
Proof.
  induction u as [|c u IH]; [by destruct y|]. cbn [String.length].
  change (String.String c u +:+ y) with (String.String c (u +:+ y)). cbn [splitAt]. by rewrite IH.
Qed.

Lemma utf8CodepointLen_pos c : 0 < utf8CodepointLen c.
Proof. unfold utf8CodepointLen. repeat case_match; lia. Qed.

Lemma codepoints_fuel f : forall f' s, String.length s <= f -> String.length s <= f' -> codepointsN f s = codepointsN f' s.
Proof.
  induction f as [|f IH]; intros f' s Hf Hf'.
  - destruct s; [|cbn in Hf; lia]. by destruct f'.
  - destruct s as [|c s]; [by destruct f'|]. destruct f' as [|f']; [cbn in Hf'; lia|]. cbn [codepointsN].
    pose proof (splitAt_length (utf8CodepointLen c) (String.String c s)) as Hl.
    pose proof (utf8CodepointLen_pos c) as Hpos.
    destruct (splitAt (utf8CodepointLen c) (String.String c s)) as [cp rest]. cbn [snd String.length] in *.
    f_equal. apply IH; lia.
Qed.

Lemma codepoints_cons u y : unit_ok u = true -> codepoints (u +:+ y) = u :: codepoints y.
Proof.
  destruct u as [|c u]; [done|]. intros Hu. apply Nat.eqb_eq in Hu. unfold codepoints.
  rewrite length_append. cbn [String.length Nat.add].
  change (String.String c u +:+ y) with (String.String c (u +:+ y)). cbn [codepointsN].
  change (String.String c (u +:+ y)) with (String.String c u +:+ y). rewrite <- Hu, splitAt_app. f_equal.
  apply codepoints_fuel; cbn; lia.
Qed.

Lemma codepoints_units us : Forall (fun u => unit_ok u = true) us -> codepoints (cat us) = us.
Proof. intros H. induction H as [|u us Hu _ IH]; [done|]. cbn [cat foldr]. rewrite codepoints_cons by done. by f_equal. Qed.

Lemma codepointsN_cat f : forall s, String.length s <= f -> cat (codepointsN f s) = s.
Proof.
  induction f as [|f IH]; intros s Hs; [destruct s; [done|cbn in Hs; lia]|]. destruct s as [|c s]; [done|].
  cbn [codepointsN]. pose proof (splitAt_length (utf8CodepointLen c) (String.String c s)) as Hl.
  pose proof (utf8CodepointLen_pos c) as Hpos.
  assert (Hsplit : forall n s', fst (splitAt n s') +:+ snd (splitAt n s') = s').
  { intros n. induction n as [|n IHn]; intros [|c' s']; [done..|]. cbn [splitAt]. specialize (IHn s').
    destruct (splitAt n s') as [a b]. cbn [fst snd] in *. change (String.String c' (a +:+ b) = String.String c' s'). by rewrite IHn. }
  specialize (Hsplit (utf8CodepointLen c) (String.String c s)).
  destruct (splitAt (utf8CodepointLen c) (String.String c s)) as [cp rest]. cbn [fst snd String.length cat foldr] in *.
  fold (cat (codepointsN f rest)). rewrite IH by lia. done.
Qed.

Lemma codepoints_cat s : cat (codepoints s) = s.
Proof. by apply codepointsN_cat. Qed.

Lemma all_bytes (P : ascii -> bool) : forallb (fun n => P (ascii_of_nat n)) (seq 0 256) = true -> forall c, P c = true.
Proof.
  intros H c. rewrite <- (ascii_nat_embedding c). rewrite forallb_forall in H. apply H, in_seq.
  pose proof (nat_ascii_bounded c). lia.
Qed.

Definition fromCode (cp : string) : string :=
  match utf8ToByte cp with Some b => String.String b EmptyString | None => cp end.

Lemma byte_code c : unit_ok (byteToUtf8 c) = true /\ fromCode (byteToUtf8 c) = String.String c EmptyString.
Proof.
  pose proof (all_bytes (fun c => unit_ok (byteToUtf8 c) &&
    String.eqb (fromCode (byteToUtf8 c)) (String.String c EmptyString)) ltac:(vm_compute; reflexivity) c) as H.
  apply andb_prop in H as [H1 H2]. split; [done|]. by apply String.eqb_eq.
Qed.

Definition is_ascii (c : ascii) : bool := (N_of_ascii c <? 128)%N.

(** An ASCII byte stands for itself in token texts, printable or not. *)
Lemma ascii_code c : is_ascii c = true ->
  unit_ok (String.String c EmptyString) = true /\ fromCode (String.String c EmptyString) = String.String c EmptyString.
Proof.
  intros Hc.
  pose proof (all_bytes (fun c => negb (is_ascii c) || unit_ok (String.String c EmptyString) &&
    String.eqb (fromCode (String.String c EmptyString)) (String.String c EmptyString)) ltac:(vm_compute; reflexivity) c) as H.
  cbn beta in H. rewrite Hc in H. apply andb_prop in H as [H1 H2]. split; [done|]. by apply String.eqb_eq.
Qed.

Definition chars (s : string) : list string := map (fun c => String.String c EmptyString) (String.list_ascii_of_string s).

Lemma cat_chars s : cat (chars s) = s.
Proof.
  induction s as [|c s IH]; [done|]. change (String.String c EmptyString +:+ cat (chars s) = String.String c s).
  by rewrite IH.
Qed.

Lemma cat_concat (ls : list (list string)) : cat (concat ls) = cat (map cat ls).
Proof. induction ls as [|l ls IH]; [done|]. cbn. rewrite cat_app. by rewrite IH. Qed.

(** ** Special tokens *)

Lemma prefix_split s : forall rest, String.prefix s rest = true -> exists rest', rest = s +:+ rest'.
Proof.
  induction s as [|c s IH]; intros rest H; [by exists rest|]. destruct rest as [|c' rest]; [done|]. cbn in H.
  destruct (ascii_dec c c') as [->|]; [|done]. destruct (IH rest H) as [r ->]. by exists r.
Qed.

Lemma hitAt_spec sp rest s : hitAt sp rest = Some s ->
  s ∈ sp /\ s <> EmptyString /\ exists rest', rest = s +:+ rest' /\ snd (splitAt (String.length s) rest) = rest'.
Proof.
  unfold hitAt. intros H. apply find_some in H as [Hin H]. apply andb_prop in H as [H1 H2].
  split; [by apply list_elem_of_In|]. split; [intros ->; done|]. destruct (prefix_split s rest H2) as [r ->].
  exists r. split; [done|]. by rewrite splitAt_app.
Qed.

Lemma cat_flush run l : cat (map snd (flush run ++ l)) = run +:+ cat (map snd l).
Proof. unfold flush. destruct (String.eqb_spec run EmptyString) as [->|]; [done|]. done. Qed.

(** Splitting loses nothing, and what is marked special is one of the specials. *)
Lemma splitN_spec sp f : forall rest run, String.length rest <= f ->
  cat (map snd (splitN f sp rest run)) = run +:+ rest /\
  Forall (fun p => fst p = true -> snd p ∈ sp) (splitN f sp rest run).
Proof.
  assert (Hfl : forall run, Forall (fun p => fst p = true -> snd p ∈ sp) (flush run)).
  { intros run. unfold flush. destruct (String.eqb run EmptyString); by repeat constructor. }
  assert (Hnil : forall run, cat (map snd (flush run)) = run +:+ EmptyString).
  { intros run. pose proof (cat_flush run []) as H. by rewrite app_nil_r in H. }
  induction f as [|f IH]; intros rest run Hf.
  - destruct rest; [|cbn in Hf; lia]. by split; [apply Hnil|apply Hfl].
  - destruct rest as [|c rest]; [by split; [apply Hnil|apply Hfl]|]. cbn [splitN].
    destruct (hitAt sp (String.String c rest)) as [s|] eqn:Hh.
    + destruct (hitAt_spec _ _ _ Hh) as (Hin & Hne & rest' & E & ->). rewrite E in Hf |- *.
      assert (0 < String.length s) by (destruct s; [done|cbn; lia]). rewrite length_append in Hf.
      destruct (IH rest' EmptyString ltac:(lia)) as [H1 H2]. split.
      * rewrite cat_flush. cbn [map snd cat foldr]. fold (cat (map snd (splitN f sp rest' EmptyString))). by rewrite H1.
      * apply Forall_app. split; [apply Hfl|]. by constructor.
    + cbn [String.length] in Hf. destruct (IH rest (run +:+ String.String c EmptyString) ltac:(lia)) as [H1 H2].
      split; [|done]. by rewrite H1, append_assoc.
Qed.

Lemma insertBy_in lt x y l : y ∈ insertBy lt x l <-> y = x \/ y ∈ l.
Proof.
  induction l as [|z l IH]; cbn; [by rewrite elem_of_cons|]. destruct (lt z x); rewrite !elem_of_cons; [rewrite IH|]; tauto.
Qed.

Lemma sortBy_in lt y l : y ∈ sortBy lt l <-> y ∈ l.
Proof. induction l as [|x l IH]; [done|]. cbn. by rewrite insertBy_in, IH, elem_of_cons. Qed.

Lemma unique_in y l : y ∈ unique l <-> y ∈ l.
Proof.
  induction l as [|x l IH]; [done|]. destruct l as [|z l]; [done|]. cbn [unique] in *.
  destruct (String.eqb_spec x z) as [->|Hne]; [rewrite IH, !elem_of_cons; tauto|].
  rewrite elem_of_cons, IH, !elem_of_cons. tauto.
Qed.

(** Every special text is the text of a token. *)
Lemma buildSpecialTexts_in t s : s ∈ _specialTexts (buildSpecialTexts t) -> exists k, k ∈ _tokens t /\ ti_text k = s.
Proof.
  unfold buildSpecialTexts. cbn [_specialTexts set_field]. intros H.
  apply sortBy_in, unique_in, sortBy_in, elem_of_app in H as [H|H]; apply list_elem_of_In, in_flat_map in H as (x & Hx & H).
  - exists x. split; [by apply list_elem_of_In|]. destruct ((ti_type x =? 3)%Z || (ti_type x =? 4)%Z); [|done].
    destruct (String.eqb (ti_text x) EmptyString); [done|]. by destruct H as [->|[]].
  - unfold tokenAt in H. destruct (x <? 0)%Z; [done|]. destruct (_tokens t !! Z.to_nat x) as [k|] eqn:E; [|done].
    exists k. split; [by eapply list_elem_of_lookup_2|]. destruct (String.eqb (ti_text k) EmptyString); [done|].
    by destruct H as [->|[]].
Qed.

(** ** Coherent vocabularies *)

(** The index by text points to tokens with that text; specials are in it. *)
Record coherent (t : Tokenizer) : Prop := {
  co_text : forall s id, _byText t !! s = Some id -> exists k, tokenAt t id = Some k /\ ti_text k = s;
  co_special : Forall (fun s => is_Some (_byText t !! s)) (_specialTexts t);
}.

Definition vocabInv (t : Tokenizer) : Prop :=
  (forall s id, _byText t !! s = Some id -> exists k, tokenAt t id = Some k /\ ti_text k = s) /\
  (forall k, k ∈ _tokens t -> is_Some (_byText t !! ti_text k)).

Lemma loadVocab_inv sc ty l : forall i t,
  vocabInv t -> length (_tokens t) = i -> (Z.of_nat (i + length l) < 2 ^ 31)%Z -> vocabInv (loadVocab sc ty i l t).
Proof.
  induction l as [|txt l IH]; intros i t [H1 H2] Hi Hn; [done|]. cbn [loadVocab].
  apply IH; [|cbn; rewrite length_app; cbn; lia|cbn [length] in Hn; lia].
  rewrite s32_small by (unfold in_s32; cbn [length] in Hn; lia). split; cbn [_byText _tokens set_field].
  - intros s id. destruct (decide (txt = s)) as [<-|Hne].
    + cbn. rewrite lookup_insert_eq. intros [= <-]. unfold tokenAt. cbn. rewrite (proj2 (Z.ltb_ge _ _)) by lia.
      rewrite Nat2Z.id, lookup_app_r by lia. rewrite <- Hi, Nat.sub_diag. by eexists.
    + cbn. rewrite lookup_insert_ne by done. intros Hs. destruct (H1 s id Hs) as (k & Hk & E). exists k. split; [|done].
      unfold tokenAt in *. cbn. destruct (id <? 0)%Z; [done|]. by apply lookup_app_l_Some.
  - cbn. intros k Hk. apply elem_of_app in Hk as [Hk|Hk].
    + destruct (decide (txt = ti_text k)) as [->|Hne]; [rewrite lookup_insert_eq; eauto|].
      rewrite lookup_insert_ne by done. by apply H2.
    + apply list_elem_of_singleton in Hk as ->. cbn. rewrite lookup_insert_eq. eauto.
Qed.

(** Loading from a file leaves a coherent vocabulary. *)
Lemma loadFromGguf_coherent r t :
  loadFromGguf r newTokenizer = (GgufReader.Returns tt, t) ->
  (forall a, asArray (GgufReader.findMetadata r "tokenizer.ggml.tokens") = Some a ->
     (Z.of_nat (length (GgufReader.strings a)) < 2 ^ 31)%Z) ->
  coherent t.
Proof.
  unfold loadFromGguf. intros H Hn.
  destruct (asArray (GgufReader.findMetadata r "tokenizer.ggml.tokens")) as [a|]; [|by destruct (GgufReader.findMetadata r "tokenizer.ggml.model") as [[]|]].
  specialize (Hn a eq_refl). destruct (negb (isString (GgufReader.elementType a))); [done|].
  set (t1 := loadVocab _ _ _ _ _) in H.
  assert (Hinv : vocabInv t1).
  { apply loadVocab_inv; [|by destruct (GgufReader.findMetadata r "tokenizer.ggml.model") as [[]|]|done].
    split; intros x; destruct (GgufReader.findMetadata r "tokenizer.ggml.model") as [[]|]; cbn;
      try (intros id; by rewrite lookup_empty); intros Hx; by apply not_elem_of_nil in Hx. }
  clearbody t1. destruct Hinv as [H1 H2].
  destruct (readSpecialId r "tokenizer.ggml.bos_token_id" (_bosId t1)) as [bos|]; [|done].
  destruct (readSpecialId r "tokenizer.ggml.eos_token_id" (_eosId t1)) as [eos|]; [|done].
  destruct (readSpecialId r "tokenizer.ggml.unknown_token_id" (_unknownId t1)) as [unk|]; [|done].
  destruct (readSpecialId r "tokenizer.ggml.padding_token_id" (_padId t1)) as [pad|]; [|done].
  set (t2 := match GgufReader.findMetadata r "tokenizer.ggml.add_space_prefix" with Some (GgufReader.VBool b) => _ | _ => _ end) in H.
  assert (Ht2 : _byText t2 = _byText t1 /\ _tokens t2 = _tokens t1).
  { unfold t2. by destruct (GgufReader.findMetadata r "tokenizer.ggml.add_space_prefix") as [[]|]. }
  clearbody t2. destruct Ht2 as [E1 E2]. injection H as <-. split.
  - intros s id. cbn. rewrite E1. intros Hs. destruct (H1 s id Hs) as (k & Hk & E). exists k. split; [|done].
    unfold tokenAt in *. cbn. by rewrite E2.
  - apply Forall_forall. intros s Hs. apply buildSpecialTexts_in in Hs as (k & Hk & <-). cbn in *. rewrite E1, E2 in *. by apply H2.
Qed.

Lemma rawText_ids t ws : coherent t -> Forall (fun w => is_Some (_byText t !! w)) ws ->
  rawText t (map (idOf t) ws) false = cat ws.
Proof.
  intros Hco Hws. unfold rawText. rewrite map_map. f_equal.
  induction Hws as [|w ws [id Hid] _ IH]; [done|]. cbn [map]. rewrite IH. f_equal.
  unfold idOf. rewrite Hid. change (default (_unknownId t) (Some id)) with id. destruct (co_text t Hco w id Hid) as (k & -> & <-). done.
Qed.

Lemma rawText_app t ids ids' b : rawText t (ids ++ ids') b = rawText t ids b +:+ rawText t ids' b.
Proof. unfold rawText. by rewrite map_app, cat_app. Qed.

(** ** Byte-level BPE reads back *)

(** Every byte is a token and every merge yields one. *)
Definition complete (t : Tokenizer) : Prop :=
  (forall c, is_Some (_byText t !! byteToUtf8 c)) /\
  forall a b r, _mergesRank t !! (a +:+ " " +:+ b) = Some r -> is_Some (_byText t !! (a +:+ b)).

Lemma encodeGpt2_raw t popMin popMax txt :
  pops Z.ltb (fun _ => True) popMin -> coherent t -> complete t -> _modelType t = "gpt2" ->
  exists ids, encode popMin popMax t txt false = Some ids /\
    rawText t ids false = cat (map byteToUtf8 (String.list_ascii_of_string txt)).
Proof.
  intros Hpop Hco [Hb Hm] Hg. unfold encode. rewrite Hg.
  assert (Hne : length (_tokens t) <> 0).
  { destruct (Hb zero) as [id Hid]. destruct (co_text t Hco _ id Hid) as (k & Hk & _). unfold tokenAt in Hk.
    destruct (id <? 0)%Z; [done|]. apply lookup_lt_Some in Hk. lia. }
  rewrite (proj2 (Nat.eqb_neq _ _) Hne). change (String.eqb "gpt2" "gpt2") with true. cbn iota.
  unfold encodeGpt2. rewrite (bpeMerge_spec t popMin Hpop). eexists. split; [reflexivity|].
  unfold withBos. cbn [andb]. rewrite rawText_ids; [apply mergeAll_cat|done|].
  apply mergeAll_Forall.
  - intros a b r _ _ Hr. unfold mergeRank in Hr. destruct (_mergesRank t !! (a +:+ " " +:+ b)) eqn:E; [|done]. by eapply Hm.
  - apply Forall_forall. intros w Hw. apply list_elem_of_In, in_map_iff in Hw as (c & <- & _). apply Hb.
Qed.

(** The codepoints a piece contributes. *)
Definition unitsOf (p : bool * string) : list string :=
  if fst p then chars (snd p) else map byteToUtf8 (String.list_ascii_of_string (snd p)).

Definition ascii_text (s : string) : Prop := Forall (fun c => is_ascii c = true) (String.list_ascii_of_string s).

Lemma unitsOf_spec p : (fst p = true -> ascii_text (snd p)) ->
  Forall (fun u => unit_ok u = true) (unitsOf p) /\ map fromCode (unitsOf p) = chars (snd p).
Proof.
  destruct p as [[] s]; unfold unitsOf, chars; cbn [fst snd]; intros Ha.
  - specialize (Ha eq_refl). unfold ascii_text in Ha. induction Ha as [|c l Hc _ [IH1 IH2]]; [done|].
    destruct (ascii_code c Hc) as [H1 H2]. cbn [map]. split; [by constructor|]. by rewrite H2, IH2.
  - clear Ha. induction (String.list_ascii_of_string s) as [|c l [IH1 IH2]]; [done|]. destruct (byte_code c) as [H1 H2].
    cbn [map]. split; [by constructor|]. by rewrite H2, IH2.
Qed.

Lemma encodePieces_raw t popMin popMax pieces :
  pops Z.ltb (fun _ => True) popMin -> coherent t -> complete t -> _modelType t = "gpt2" ->
  Forall (fun p => fst p = true -> snd p ∈ _specialTexts t) pieces ->
  exists ids, encodePieces popMin popMax t pieces = Some ids /\
    rawText t ids false = cat (concat (map unitsOf pieces)).
Proof.
  intros Hpop Hco Hcp Hg Hs. induction Hs as [|[b s] pieces Hp _ (ids & IH1 & IH2)]; [by exists []|].
  cbn [encodePieces map concat]. rewrite cat_app. cbn [fst snd] in Hp. destruct b.
  - pose proof (co_special t Hco) as Hsp. rewrite Forall_forall in Hsp. destruct (Hsp s (Hp eq_refl)) as [id Hid].
    destruct (co_text t Hco s id Hid) as (k & Hk & Hks).
    assert (Hft : findToken t s = id) by (unfold findToken; by rewrite Hid).
    assert (Hge : (0 <=? id)%Z = true).
    { unfold tokenAt in Hk. destruct (Z.ltb_spec id 0); [done|]. by apply Z.leb_le. }
    rewrite Hft, Hge. cbn [andb mbind option_bind]. rewrite IH1. cbn [mbind option_bind]. eexists. split; [reflexivity|].
    rewrite rawText_app, IH2. f_equal. unfold unitsOf. cbn [fst snd]. rewrite cat_chars, <- Hks.
    unfold rawText. cbn. rewrite Hk. cbn. apply append_nil_r.
  - destruct (encodeGpt2_raw t popMin popMax s Hpop Hco Hcp Hg) as (sub & E & Hsub).
    cbn [andb]. rewrite E. cbn [mbind option_bind]. rewrite IH1. cbn [mbind option_bind]. eexists.
    split; [reflexivity|]. by rewrite rawText_app, IH2, Hsub.
Qed.

Lemma pieces_units sp l : Forall ascii_text sp -> Forall (fun p => fst p = true -> snd p ∈ sp) l ->
  Forall (fun u => unit_ok u = true) (concat (map unitsOf l)) /\
  map fromCode (concat (map unitsOf l)) = concat (map (fun p => chars (snd p)) l).
Proof.
  intros Hasc H. induction H as [|p l Hp _ [IH1 IH2]]; [done|]. cbn [map concat].
  destruct (unitsOf_spec p) as [U1 U2].
  { intros Hb. rewrite Forall_forall in Hasc. by apply Hasc, Hp. }
  rewrite map_app, U2, IH2. split; [by apply Forall_app|done].
Qed.

Lemma fromByteCodes_units us : Forall (fun u => unit_ok u = true) us -> fromByteCodes (cat us) = cat (map fromCode us).
Proof. intros H. unfold fromByteCodes. by rewrite codepoints_units. Qed.

(** C28: With a byte-level BPE vocabulary loaded from a file, whatever text is encoded,
    with or without parsing special tokens, is decoded back exactly.  Hypotheses: the
    vocabulary has every byte and the result of every merge, special tokens are
    ASCII. *)
Theorem gpt2_roundtrip r t popMin popMax txt parseSpecial :
  loadFromGguf r newTokenizer = (GgufReader.Returns tt, t) ->
  (forall a, asArray (GgufReader.findMetadata r "tokenizer.ggml.tokens") = Some a ->
     (Z.of_nat (length (GgufReader.strings a)) < 2 ^ 31)%Z) ->
  _modelType t = "gpt2" -> complete t -> Forall ascii_text (_specialTexts t) ->
  pops Z.ltb (fun _ => True) popMin ->
  exists ids, encodeParsing popMin popMax t txt false parseSpecial = Some ids /\ decode t ids false = txt.
Proof.
  intros Hload Hn Hg Hcp Hasc Hpop. pose proof (loadFromGguf_coherent r t Hload Hn) as Hco.
  unfold encodeParsing, decode. rewrite Hg. change (String.eqb "gpt2" "gpt2") with true. cbn iota. unfold decodeGpt2.
  destruct parseSpecial; cbn [negb].
  - destruct (splitN_spec (_specialTexts t) (String.length txt) txt EmptyString (Nat.le_refl _)) as [H1 H2].
    destruct (encodePieces_raw t popMin popMax _ Hpop Hco Hcp Hg H2) as (ids & E & Hraw).
    destruct (pieces_units (_specialTexts t) _ Hasc H2) as [Hu1 Hu2]. unfold splitOnSpecials.
    destruct (length (_tokens t) =? 0) eqn:Ez.
    + destruct Hcp as [Hb _]. destruct (Hb zero) as [id Hid]. destruct (co_text t Hco _ id Hid) as (k & Hk & _).
      apply Nat.eqb_eq, length_zero_iff_nil in Ez. unfold tokenAt in Hk. rewrite Ez in Hk. by destruct (id <? 0)%Z.
    + rewrite E. cbn [mbind option_bind]. eexists. split; [reflexivity|]. unfold withBos. cbn [andb].
      rewrite Hraw, fromByteCodes_units, Hu2, cat_concat, map_map by done.
      rewrite (map_ext _ snd) by (intros p; apply cat_chars). exact H1.
  - destruct (encodeGpt2_raw t popMin popMax txt Hpop Hco Hcp Hg) as (ids & E & Hraw). exists ids. split; [done|].
    destruct (unitsOf_spec (false, txt)) as [U1 U2]; [done|]. unfold unitsOf in U1, U2. cbn [fst snd] in U1, U2.
    by rewrite Hraw, fromByteCodes_units, U2, cat_chars.
Qed.

(** ** SentencePiece reads back *)

(** The text of the marker does not occur. *)
Definition markerFree (s : string) : Prop := forall p q, s <> p +:+ kSpaceMarker +:+ q.

Lemma markerFree_tail c s : markerFree (String.String c s) -> markerFree s.
Proof. intros H p q ->. by apply (H (String.String c p) q). Qed.

Lemma unmark_marker s : unmark (kSpaceMarker +:+ s) = String.String " " (unmark s).
Proof. reflexivity. Qed.

Lemma unmark_cons c s : (forall r, String.String c s <> kSpaceMarker +:+ r) ->
  unmark (String.String c s) = String.String c (unmark s).
Proof.
  intros H. destruct s as [|b [|d r]]; [done|done|].
  change (unmark (String.String c (String.String b (String.String d r)))) with
    (if String.eqb (String.String c (String.String b (String.String d EmptyString))) kSpaceMarker
     then String.String " " (unmark r) else String.String c (unmark (String.String b (String.String d r)))).
  destruct (String.eqb_spec (String.String c (String.String b (String.String d EmptyString))) kSpaceMarker) as [E|]; [|done].
  exfalso. apply (H r). injection E as -> -> ->. reflexivity.
Qed.

Definition spaced (s : string) : string := normalizeForSpm s false.

Lemma spaced_cons c s : spaced (String.String c s) =
  (if Ascii.eqb c " " then kSpaceMarker else String.String c EmptyString) +:+ spaced s.
Proof. reflexivity. Qed.

(** A byte that is no first byte of a marker begins what [spaced] makes of a text only
    if it begins the text. *)
Lemma spaced_head c s r : spaced s = String.String c r -> c <> ascii_of_nat 226 ->
  exists s', s = String.String c s' /\ r = spaced s'.
Proof.
  intros H Hc. destruct s as [|c' s']; [done|]. rewrite spaced_cons in H.
  destruct (Ascii.eqb_spec c' " ") as [->|Hne].
  - injection H as Hx _. by subst c.
  - injection H as -> H. by exists s'.
Qed.

Lemma unmark_spaced s : markerFree s -> unmark (spaced s) = s.
Proof.
  induction s as [|c s IH]; intros Hf; [done|]. specialize (IH (markerFree_tail c s Hf)). rewrite spaced_cons.
  destruct (Ascii.eqb_spec c " ") as [->|Hne]; [by rewrite unmark_marker, IH|].
  change (String.String c EmptyString +:+ spaced s) with (String.String c (spaced s)). rewrite unmark_cons; [by rewrite IH|].
  intros r E. unfold kSpaceMarker in E. injection E as -> E.
  apply spaced_head in E as (s1 & -> & E); [|done]. symmetry in E. apply spaced_head in E as (s2 & -> & _); [|done].
  by apply (Hf EmptyString s2).
Qed.

Lemma unmark_normalize s b : markerFree s -> unmark (normalizeForSpm s b) = (if b then " " else EmptyString) +:+ s.
Proof.
  intros Hf. destruct b.
  - change (normalizeForSpm s true) with (kSpaceMarker +:+ spaced s). by rewrite unmark_marker, unmark_spaced.
  - by apply unmark_spaced.
Qed.

(** With a SentencePiece vocabulary loaded from a file, a text is decoded back
    exactly, behind one space if the model puts one in front.  Hypotheses: every
    codepoint of the normalised text is a token, the text has no literal marker,
    scores are numbers. *)
Theorem spm_roundtrip r t popMin popMax txt :
  loadFromGguf r newTokenizer = (GgufReader.Returns tt, t) ->
  (forall a, asArray (GgufReader.findMetadata r "tokenizer.ggml.tokens") = Some a ->
     (Z.of_nat (length (GgufReader.strings a)) < 2 ^ 31)%Z) ->
  _modelType t <> "gpt2" -> Forall (fun k => Sampling.is_nan (ti_score k) = false) (_tokens t) ->
  Forall (fun cp => is_Some (_byText t !! cp)) (codepoints (normalizeForSpm txt (_addSpacePrefix t))) ->
  markerFree txt -> pops_greatest popMax -> _tokens t <> [] ->
  exists ids, encode popMin popMax t txt false = Some ids /\
    decode t ids false = (if _addSpacePrefix t then " " else EmptyString) +:+ txt.
Proof.
  intros Hload Hn Hg Hnan Hcps Hf Hpop Hne. pose proof (loadFromGguf_coherent r t Hload Hn) as Hco.
  unfold encode, decode. rewrite (proj2 (String.eqb_neq _ _) Hg).
  destruct (Nat.eqb_spec (length (_tokens t)) 0) as [Hz|_]; [by apply length_zero_iff_nil in Hz|].
  rewrite (encodeSpm_spec t popMax Hpop Hnan). eexists. split; [reflexivity|]. unfold withBos. cbn [andb].
  unfold decodeSpm. rewrite rawText_ids; [|done|].
  - rewrite mergeAll_cat, codepoints_cat. by apply unmark_normalize.
  - apply mergeAll_Forall; [|done]. intros a b c _ _ Hc. unfold mergedToken in Hc.
    destruct (_byText t !! (a +:+ b)); [eauto|done].
Qed.
End TokenizerProofs.
