(* ===== verification/TokenizerDemo.v ===== *)
(** * The tokenizer: a queue and two vocabularies

    A queue that answers the first of the best entries, which is one of those
    [std::priority_queue] may answer, and two small vocabularies: the theorems of
    [TokenizerProofs.v] apply to them. *)

From Stdlib Require Import Ascii SpecFloat.
From S2P Require Import Prelude Sampling Floats Gguf Merging Tokenizer TokenizerProofs.
Import Floats Merging GgufReader Tokenizer TokenizerProofs.

Module TokenizerDemo.

(** ** A queue *)

Section Pop.
Context {A : Type}.
Variable better : A -> A -> bool.

Fixpoint popBest (h : list A) : option (A * list A) :=
  match h with
  | [] => None
  | x :: h =>
      match popBest h with
      | None => Some (x, h)
      | Some (y, r) => if better y x then Some (y, x :: r) else Some (x, h)
      end
  end.

Variable ok : A -> Prop.
Hypothesis Hirrefl : forall x, ok x -> better x x = false.
Hypothesis Htrans : forall x y z, ok x -> ok y -> ok z -> better x y = false -> better y z = false -> better x z = false.
Hypothesis Hasym : forall x y, ok x -> ok y -> better x y = true -> better y x = false.

Lemma popBest_spec h : match popBest h with
  | None => h = []
  | Some (x, rest) => h ≡ₚ x :: rest /\ (Forall ok h -> Forall (fun y => better y x = false) h)
  end.
Proof using Hirrefl Htrans Hasym.
  induction h as [|x h IH]; [done|]. cbn [popBest]. destruct (popBest h) as [[y r]|].
  2: { subst h. split; [done|]. intros Hok. apply Forall_cons in Hok as [Hx _]. by constructor; [apply Hirrefl|]. }
  destruct IH as [Hp Hbest]. assert (Hy : Forall ok (x :: h) -> ok x /\ ok y /\ Forall ok h).
  { intros Hok. apply Forall_cons in Hok as [Hx Hok]. split; [done|]. split; [|done].
    rewrite Hp in Hok. by apply Forall_cons in Hok as [? _]. }
  destruct (better y x) eqn:E; (split; [rewrite ?Hp; first [done|by constructor]|]); intros Hok;
    destruct (Hy Hok) as (Hx & Hoky & Hokh); specialize (Hbest Hokh).
  - constructor; [by apply Hasym|done].
  - constructor; [by apply Hirrefl|]. rewrite Forall_forall in Hbest, Hokh |- *. intros z Hz.
    apply (Htrans z y x); auto.
Qed.
End Pop.

(** The least pair of rank and index. *)
Definition popMin : list (Z * nat) -> option ((Z * nat) * list (Z * nat)) := popBest (sooner Z.ltb).
(** The greatest candidate. *)
Definition popMax : list ((f32 * Z) * nat) -> option (((f32 * Z) * nat) * list ((f32 * Z) * nat)) :=
  popBest (fun x y => less y x).

Lemma popMin_pops : pops Z.ltb (fun _ => True) popMin.
Proof.
  intros h. pose proof (popBest_spec (sooner Z.ltb) (fun _ => True)) as Hs. unfold popMin.
  assert (Hlt : forall x y, sooner Z.ltb x y = true <-> (fst x < fst y \/ fst x = fst y /\ (Z.of_nat (snd x) < Z.of_nat (snd y)))%Z).
  { intros [a i] [b j]. unfold sooner. cbn [fst snd]. rewrite orb_true_iff, andb_true_iff, negb_true_iff, Nat.ltb_lt, Z.ltb_ge, Z.ltb_lt. lia. }
  assert (Hge : forall x y, sooner Z.ltb x y = false <-> ~ (fst x < fst y \/ fst x = fst y /\ (Z.of_nat (snd x) < Z.of_nat (snd y)))%Z).
  { intros x y. rewrite <- Hlt. by destruct (sooner Z.ltb x y). }
  apply Hs; intros *; rewrite ?Hge, ?Hlt; lia.
Qed.

Lemma less_iff x y : scored (fst x) -> scored (fst y) ->
  less x y = true <->
  (Sampling.rank_lt (Sampling.rank (fst (fst x))) (Sampling.rank (fst (fst y))) \/
   ~ Sampling.rank_lt (Sampling.rank (fst (fst y))) (Sampling.rank (fst (fst x))) /\ snd y < snd x).
Proof.
  unfold scored. intros Hx Hy. rewrite less_sooner by done. unfold sooner, higher.
  rewrite <- !Sampling.flt_rank by done.
  destruct (Sampling.flt (fst (fst x)) (fst (fst y))), (Sampling.flt (fst (fst y)) (fst (fst x))); cbn [orb andb negb];
    rewrite ?Nat.ltb_lt; intuition (try discriminate; try lia).
Qed.

Lemma less_false x y : scored (fst x) -> scored (fst y) ->
  less x y = false <->
  ~ (Sampling.rank_lt (Sampling.rank (fst (fst x))) (Sampling.rank (fst (fst y))) \/
     ~ Sampling.rank_lt (Sampling.rank (fst (fst y))) (Sampling.rank (fst (fst x))) /\ snd y < snd x).
Proof. intros Hx Hy. rewrite <- less_iff by done. destruct (less x y); intuition discriminate. Qed.

Ltac by_ranks :=
  intros; repeat match goal with
    | H : less _ _ = true |- _ => apply less_iff in H; [|done..]
    | H : less _ _ = false |- _ => apply less_false in H; [|done..]
    end;
  first [apply less_iff|apply less_false]; [done..|];
  repeat match goal with x : (f32 * Z) * nat |- _ => destruct x as [[? ?] ?] end; cbn [fst snd] in *;
  repeat match goal with _ : context [Sampling.rank ?s] |- _ => destruct (Sampling.rank s) as [[? ?] ?]
    | |- context [Sampling.rank ?s] => destruct (Sampling.rank s) as [[? ?] ?] end;
  unfold Sampling.rank_lt in *; lia.

Lemma popMax_pops : pops_greatest popMax.
Proof. intros h. apply (popBest_spec (fun x y => less y x) (fun x => scored (fst x))); by_ranks. Qed.

(** ** A byte-level vocabulary *)

Definition texts_of (l : list string) : MetadataValue := VArray (mkArray Gguf.String (N.of_nat (length l)) [] l).

Definition merge_pairs : list (string * string) := [("h", "e"); ("l", "l"); ("he", "ll"); ("hell", "o")].

Definition gpt_reader : GgufReader :=
  newReader <| _metadata := list_to_map
    [("tokenizer.ggml.model", VString "gpt2");
     ("tokenizer.ggml.tokens", texts_of (map byteToUtf8 (map ascii_of_nat (seq 0 256)) ++
        map (fun ab => fst ab +:+ snd ab) merge_pairs ++ ["<|end|>"]));
     ("tokenizer.ggml.merges", texts_of (map (fun ab => fst ab +:+ " " +:+ snd ab) merge_pairs));
     ("tokenizer.ggml.eos_token_id", VUInt32 260)] |>.

Definition gpt_tokenizer : Tokenizer := snd (loadFromGguf gpt_reader newTokenizer).

Lemma loads_eq r : fst (loadFromGguf r newTokenizer) = Returns tt ->
  loadFromGguf r newTokenizer = (Returns tt, snd (loadFromGguf r newTokenizer)).
Proof. intros <-. apply surjective_pairing. Qed.

Lemma gpt_loads : loadFromGguf gpt_reader newTokenizer = (Returns tt, gpt_tokenizer).
Proof. apply loads_eq. vm_compute. reflexivity. Qed.

(** The vocabulary is small. *)
Lemma small_vocab r : match asArray (findMetadata r "tokenizer.ggml.tokens") with
    Some a => (Z.of_nat (length (strings a)) <? 2 ^ 31)%Z | None => true end = true ->
  forall a, asArray (findMetadata r "tokenizer.ggml.tokens") = Some a -> (Z.of_nat (length (strings a)) < 2 ^ 31)%Z.
Proof. intros H a Ha. rewrite Ha in H. by apply Z.ltb_lt. Qed.

(** Every way to cut a string before a space. *)
Fixpoint cuts (s : string) : list (string * string) :=
  match s with
  | EmptyString => []
  | String.String c s =>
      (if Ascii.eqb c " " then [(EmptyString, s)] else []) ++ map (fun ab => (String.String c (fst ab), snd ab)) (cuts s)
  end.

Lemma cuts_complete a b : (a, b) ∈ cuts (a +:+ " " +:+ b).
Proof.
  induction a as [|c a IH].
  - change (EmptyString +:+ " " +:+ b) with (String.String " " b). cbn [cuts]. left.
  - change (String.String c a +:+ " " +:+ b) with (String.String c (a +:+ " " +:+ b)). cbn [cuts].
    apply elem_of_app. right. rewrite list_elem_of_fmap. by exists (a, b).
Qed.

Definition known (t : Tokenizer) (s : string) : bool := bool_decide (is_Some (_byText t !! s)).

Definition completeb (t : Tokenizer) : bool :=
  forallb (fun n => known t (byteToUtf8 (ascii_of_nat n))) (seq 0 256) &&
  forallb (fun kr => forallb (fun ab => known t (fst ab +:+ snd ab)) (cuts (fst kr))) (map_to_list (_mergesRank t)).

Lemma completeb_complete t : completeb t = true -> complete t.
Proof.
  unfold completeb, known. intros H. apply andb_prop in H as [H1 H2]. rewrite forallb_forall in H1, H2. split.
  - intros c. specialize (H1 (nat_of_ascii c)). rewrite ascii_nat_embedding in H1.
    apply (bool_decide_eq_true_1 _), H1, in_seq. pose proof (nat_ascii_bounded c). lia.
  - intros a b r Hr. apply elem_of_map_to_list, list_elem_of_In in Hr. specialize (H2 _ Hr). cbn [fst] in H2.
    rewrite forallb_forall in H2. apply (bool_decide_eq_true_1 _).
    apply (H2 (a, b)), list_elem_of_In, cuts_complete.
Qed.

Lemma gpt_complete : complete gpt_tokenizer.
Proof. apply completeb_complete. vm_compute. reflexivity. Qed.

Lemma gpt_specials : _specialTexts gpt_tokenizer = ["<|end|>"].
Proof. vm_compute. reflexivity. Qed.

Lemma gpt_model : _modelType gpt_tokenizer = "gpt2".
Proof. vm_compute. reflexivity. Qed.

Lemma gpt_ascii : Forall ascii_text (_specialTexts gpt_tokenizer).
Proof. rewrite gpt_specials. repeat constructor. Qed.

Lemma gpt2_heap_is_greedy_witness : encodeGpt2 popMin gpt_tokenizer "hello lhe" false = Some [259; 32; 108; 256]%Z.
Proof. rewrite (gpt2_heap_is_greedy gpt_tokenizer popMin "hello lhe" false popMin_pops). vm_compute. reflexivity. Defined.

Lemma gpt2_roundtrip_witness : exists ids,
  encodeParsing popMin popMax gpt_tokenizer "hello <|end|>." false true = Some ids /\
  decode gpt_tokenizer ids false = "hello <|end|>.".
Proof.
  exact (gpt2_roundtrip gpt_reader gpt_tokenizer popMin popMax "hello <|end|>." true gpt_loads
    (small_vocab gpt_reader ltac:(vm_compute; reflexivity)) gpt_model gpt_complete gpt_ascii popMin_pops).
Defined.

(** ** A SentencePiece vocabulary *)

Definition le4 (n : N) : list ascii := map (fun k => ascii_of_N (N.shiftr n (8 * k))) [0; 1; 2; 3]%N.

(** The scores are -1 for the codepoints and -0.5, -0.25, -0.125 for the merged ones. *)
Definition spm_reader : GgufReader :=
  newReader <| _metadata := list_to_map
    [("tokenizer.ggml.model", VString "llama");
     ("tokenizer.ggml.tokens", texts_of [kSpaceMarker; "a"; "b"; "ab"; kSpaceMarker +:+ "a"; "ba"]);
     ("tokenizer.ggml.scores", VArray (mkArray Float32 6
        (concat (map le4 [3212836864; 3212836864; 3212836864; 3196059648; 3204448256; 3187671040]%N)) []))] |>.

Definition spm_tokenizer : Tokenizer := snd (loadFromGguf spm_reader newTokenizer).

Lemma spm_loads : loadFromGguf spm_reader newTokenizer = (Returns tt, spm_tokenizer).
Proof. apply loads_eq. vm_compute. reflexivity. Qed.

Lemma forallb_negb (l : list TokenInfo) : forallb (fun k => negb (Sampling.is_nan (ti_score k))) l = true ->
  forall k, In k l -> Sampling.is_nan (ti_score k) = false.
Proof. rewrite forallb_forall. intros H k Hk. by apply negb_true_iff, H. Qed.

Lemma forallb_known t (l : list string) : forallb (known t) l = true -> forall s, In s l -> is_Some (_byText t !! s).
Proof. rewrite forallb_forall. intros H s Hs. by apply (bool_decide_eq_true_1 _), H. Qed.

Lemma spm_scores : Forall (fun k => Sampling.is_nan (ti_score k) = false) (_tokens spm_tokenizer).
Proof. apply Forall_forall. intros k. rewrite list_elem_of_In. revert k. apply forallb_negb. vm_compute. reflexivity. Qed.

Lemma spm_heap_is_greedy_witness : encodeSpm popMax spm_tokenizer "abba" false = Some [0; 3; 5]%Z.
Proof. rewrite (spm_heap_is_greedy spm_tokenizer popMax "abba" false popMax_pops spm_scores). vm_compute. reflexivity. Defined.

Lemma spm_known : Forall (fun cp => is_Some (_byText spm_tokenizer !! cp))
  (codepoints (normalizeForSpm "ab ba" (_addSpacePrefix spm_tokenizer))).
Proof. apply Forall_forall. intros cp. rewrite list_elem_of_In. revert cp. apply forallb_known. vm_compute. reflexivity. Qed.

Lemma ascii_markerFree s : forallb is_ascii (String.list_ascii_of_string s) = true -> markerFree s.
Proof.
  intros H p q ->. revert H. induction p as [|c p IH]; [done|].
  change (String.String c p +:+ kSpaceMarker +:+ q) with (String.String c (p +:+ kSpaceMarker +:+ q)).
  cbn [String.list_ascii_of_string forallb]. intros H. apply andb_prop in H as [_ H]. by apply IH.
Qed.

Lemma spm_roundtrip_witness : exists ids,
  encode popMin popMax spm_tokenizer "ab ba" false = Some ids /\ decode spm_tokenizer ids false = " ab ba".
Proof.
  exact (spm_roundtrip spm_reader spm_tokenizer popMin popMax "ab ba" spm_loads
    (small_vocab spm_reader ltac:(vm_compute; reflexivity)) ltac:(vm_compute; discriminate) spm_scores spm_known
    (ascii_markerFree "ab ba" eq_refl) popMax_pops ltac:(vm_compute; discriminate)).
Defined.
End TokenizerDemo.
