(* ===== verification/Auth.v ===== *)
(** * API keys and the gate in front of the routes

    Models [src/src/core/security/] ([ApiKeyStore], [constantTimeEquals],
    [ScopedTenant]), the start-up of authentication in
    [src/src/mimirmind/ServeMode.cpp] and the hook of
    [src/src/server/ApiServer.cpp] that every request passes.  A file is its text;
    whether it can be written and the random bytes are arguments, and so is the
    request header the HTTP library hands over. *)

From Stdlib Require Import Ascii.
From S2P Require Import Prelude.

Module Auth.

(** ** Comparing secrets *)

(** The byte read at index [i < size ? i : 0]; [None] reads outside an empty view. *)
Definition foldedByte (s : string) (i : nat) : option N :=
  N_of_ascii <$> String.get (if i <? String.length s then i else 0) s.

(** [src/src/core/security/ConstantTimeCompare.hpp:31-44 constantTimeEquals] *)
Fixpoint foldDiff (a b : string) (ix : list nat) (diff : N) : option N :=
  match ix with
  | [] => Some diff
  | i :: ix =>
      ca ← foldedByte a i;
      cb ← foldedByte b i;
      foldDiff a b ix (N.lor diff (N.lxor ca cb))
  end.

(** [src/src/core/security/ConstantTimeCompare.hpp:25-42 constantTimeEquals] *)
Definition constantTimeEquals (a b : string) : option bool :=
  let na := N.of_nat (String.length a) in
  let nb := N.of_nat (String.length b) in
  diff ← foldDiff a b (seq 0 (Nat.max (String.length a) (String.length b))) (u32 (N.lxor na nb));
  Some (diff =? 0)%N.

(** ** The keys *)

(** [src/src/core/security/ApiKeyStore.hpp:21-26 ApiKey] *)
Record ApiKey := mkKey {
  name : string;
  key : string;
  tenantId : string;
  isAdmin : bool;
}.

#[global] Instance ApiKey_eq_dec : EqDecision ApiKey.
Proof. solve_decision. Defined.

(** Every key is compared; the last match wins.
    [src/src/core/security/ApiKeyStore.cpp:55-67 ApiKeyStore::match] *)
Fixpoint matchFrom (token : string) (keys : list ApiKey) (hit : option ApiKey) : option (option ApiKey) :=
  match keys with
  | [] => Some hit
  | k :: keys =>
      e ← constantTimeEquals token (key k);
      matchFrom token keys (if e : bool then Some k else hit)
  end.

(** [None]: a read outside a key.
    [src/src/core/security/ApiKeyStore.cpp:55-67 ApiKeyStore::match] *)
Definition matchToken (keys : list ApiKey) (token : string) : option (option ApiKey) :=
  if String.eqb token EmptyString then Some None else matchFrom token keys None.

(** *** Random keys *)

Definition kB64Url : string := "ABCDEFGHIJKLMNOPQRSTUVWXYZabcdefghijklmnopqrstuvwxyz0123456789-_".

Definition b64 (n : N) : string :=
  match String.get (N.to_nat (N.land n 63)) kB64Url with
  | Some c => String.String c EmptyString
  | None => EmptyString
  end.

(** [src/src/core/security/ApiKeyStore.cpp:26-51 base64UrlNoPad] *)
Fixpoint base64UrlNoPad (data : list N) : string :=
  match data with
  | a :: b :: c :: data =>
      let n := N.lor (N.lor (N.shiftl a 16) (N.shiftl b 8)) c in
      b64 (N.shiftr n 18) +:+ b64 (N.shiftr n 12) +:+ b64 (N.shiftr n 6) +:+ b64 n +:+ base64UrlNoPad data
  | [a; b] =>
      let n := N.lor (N.shiftl a 16) (N.shiftl b 8) in
      b64 (N.shiftr n 18) +:+ b64 (N.shiftr n 12) +:+ b64 (N.shiftr n 6)
  | [a] =>
      let n := N.shiftl a 16 in
      b64 (N.shiftr n 18) +:+ b64 (N.shiftr n 12)
  | [] => EmptyString
  end.

(** [random] is what [RAND_bytes] draws, if it succeeds.
    [src/src/core/security/ApiKeyStore.cpp:69-77 ApiKeyStore::generateKey] *)
Definition generateKey (random : option (list N)) : string :=
  match random with
  | None => EmptyString
  | Some raw => "sk-mimir-" +:+ base64UrlNoPad raw
  end.

(** *** The key file *)

(** [s.find(c)] with the texts before and behind it. *)
Fixpoint cutAt (c : ascii) (s : string) : option (string * string) :=
  match s with
  | EmptyString => None
  | String.String d s =>
      if Ascii.eqb d c then Some (EmptyString, s)
      else match cutAt c s with Some (a, b) => Some (String.String d a, b) | None => None end
  end.

Definition LF : ascii := ascii_of_nat 10.
Definition CR : ascii := ascii_of_nat 13.

(** What [std::getline] reads, line by line; [cur] is the line so far. *)
Fixpoint linesFrom (cur s : string) : list string :=
  match s with
  | EmptyString => if String.eqb cur EmptyString then [] else [cur]
  | String.String d s =>
      if Ascii.eqb d LF then cur :: linesFrom EmptyString s
      else linesFrom (cur +:+ String.String d EmptyString) s
  end.
Definition lines (s : string) : list string := linesFrom EmptyString s.

(** The line without a carriage return at its end. *)
Fixpoint dropCR (s : string) : string :=
  match s with
  | EmptyString => EmptyString
  | String.String d EmptyString => if Ascii.eqb d CR then EmptyString else s
  | String.String d s => String.String d (dropCR s)
  end.

(** The fields after the name.
    [src/src/core/security/ApiKeyStore.cpp:90-109 ApiKeyStore::loadKeyFile] *)
Definition parseFields (nm rest : string) : ApiKey :=
  let k := match cutAt ":" rest with
    | None => mkKey nm rest nm false
    | Some (ky, rest) =>
        match cutAt ":" rest with
        | None => mkKey nm ky rest false
        | Some (tenant, role) => mkKey nm ky tenant (String.eqb role "admin")
        end
    end in
  if String.eqb (tenantId k) EmptyString then mkKey (name k) (key k) (name k) (isAdmin k) else k.

(** [src/src/core/security/ApiKeyStore.cpp:84-110 ApiKeyStore::loadKeyFile] *)
Definition loadLine (line : string) : list ApiKey :=
  let line := dropCR line in
  match line with
  | EmptyString => []
  | String.String d _ =>
      if Ascii.eqb d "#" then []
      else match cutAt ":" line with
           | None => []
           | Some (nm, rest) =>
               let k := parseFields nm rest in
               if String.eqb (key k) EmptyString then [] else [k]
           end
  end.

(** A file that cannot be opened is [None].
    [src/src/core/security/ApiKeyStore.cpp:79-113 ApiKeyStore::loadKeyFile] *)
Definition loadKeyFile (file : option string) : list ApiKey :=
  match file with
  | None => []
  | Some text => concat (map loadLine (lines text))
  end.

Definition lf : string := String.String LF EmptyString.

(** [src/src/core/security/ApiKeyStore.cpp:121-125 ApiKeyStore::saveKeyFile] *)
Definition keyLine (k : ApiKey) : string :=
  name k +:+ ":" +:+ key k +:+ ":" +:+ tenantId k +:+ (if isAdmin k then ":admin" else EmptyString) +:+ lf.

(** The bytes of the em dash of the first line. *)
Definition emDash : string :=
  String.String (ascii_of_nat 226) (String.String (ascii_of_nat 128) (String.String (ascii_of_nat 148) EmptyString)).

(** [src/src/core/security/ApiKeyStore.cpp:117-125 ApiKeyStore::saveKeyFile] *)
Definition keyFileBody (keys : list ApiKey) : string :=
  "# mimirmind API keys " +:+ emDash +:+ " format: name:key:tenantId[:admin]" +:+ lf +:+
  "# Auto-generated when server.auth is enabled and no key was configured." +:+ lf +:+
  cat (map keyLine keys).

(** How a write goes: the file is not opened, some bytes get in, or all. *)
Inductive Write := CannotOpen | Cut (written : nat) | Written.

Fixpoint prefixOf (n : nat) (s : string) : string :=
  match n, s with
  | S n, String.String c s => String.String c (prefixOf n s)
  | _, _ => EmptyString
  end.

(** The answer and the file afterwards.
    [src/src/core/security/ApiKeyStore.cpp:115-140 ApiKeyStore::saveKeyFile] *)
Definition saveKeyFile (w : Write) (keys : list ApiKey) (file : option string) : bool * option string :=
  match w with
  | CannotOpen => (false, file)
  | Cut n => (false, Some (prefixOf n (keyFileBody keys)))
  | Written => (true, Some (keyFileBody keys))
  end.

(** ** Start-up *)

(** [src/src/server/ApiServer.hpp:155-158 AuthConfig] *)
Record AuthConfig := mkAuth {
  enabled : bool;
  store : list ApiKey;
}.

(** [src/src/mimirmind/ServeMode.cpp:217-242 provisionAuth] *)
Definition parseEntry (raw : string) : ApiKey :=
  match cutAt ":" raw with
  | None => mkKey "config" raw "default" false
  | Some (nm, rest) => parseFields nm rest
  end.

Definition hasKey (k : ApiKey) : bool := negb (String.eqb (key k) EmptyString).

(** The configuration and the key file afterwards.
    [src/src/mimirmind/ServeMode.cpp:198-293 provisionAuth] *)
Definition provisionAuth (on : option bool) (entries : list string) (autoGenerateKey : bool)
    (random : option (list N)) (w : Write) (file : option string) : AuthConfig * option string :=
  if negb (default true on) then (mkAuth false [], file)
  else
    let keys := List.filter hasKey (map parseEntry entries) ++ loadKeyFile file in
    if negb (length keys =? 0) then (mkAuth true keys, file)
    else if negb autoGenerateKey then (mkAuth true [], file)
    else
      let k := mkKey "auto" (generateKey random) "default" true in
      if negb (hasKey k) then (mkAuth true [], file)
      else (mkAuth true [k], snd (saveKeyFile w [k] file)).

(** ** A request *)

Fixpoint dropSpaces (s : string) : string :=
  match s with
  | String.String c s' => if Ascii.eqb c " " then dropSpaces s' else s
  | EmptyString => EmptyString
  end.

(** [src/src/server/ApiServer.cpp:51-59 bearerToken] *)
Definition bearerToken (header : string) : string :=
  if String.length header <=? 7 then EmptyString
  else if String.prefix "Bearer " header then dropSpaces (String.substring 7 (String.length header - 7) header)
  else EmptyString.

(** What a pool thread carries: tenant and privilege of the request it serves.
    [src/src/core/security/ScopedTenant.hpp:67-74 ScopedTenant] *)
Record ScopedTenant := mkScope {
  tenant : string;
  admin : bool;
}.

Inductive verdict :=
  | Routed (t : ScopedTenant)
  | Unauthorized
  | Forbidden.

(** The pre-routing hook; [None] reads outside a key.
    [src/src/server/ApiServer.cpp:244-271 installAuthHook] *)
Definition authHook (cfg : AuthConfig) (header : string) (t : ScopedTenant) : option (bool * ScopedTenant) :=
  if negb (enabled cfg) then Some (true, t)
  else
    hit ← matchToken (store cfg) (bearerToken header);
    match hit with
    | None => Some (false, mkScope EmptyString false)
    | Some k => Some (true, mkScope (tenantId k) (isAdmin k))
    end.

(** [src/src/server/ApiServer.cpp:572-579 requireAdmin] *)
Definition requireAdmin (cfg : AuthConfig) (t : ScopedTenant) : bool := negb (enabled cfg && negb (admin t)).

(** A request for an ordinary or an operator-only route. *)
Record Request := mkRequest {
  header : string;
  operatorOnly : bool;
}.

Definition serve (cfg : AuthConfig) (r : Request) (t : ScopedTenant) : option (verdict * ScopedTenant) :=
  '(through, t) ← authHook cfg (header r) t;
  Some (if (through : bool) then
          if operatorOnly r && negb (requireAdmin cfg t) then Forbidden else Routed t
        else Unauthorized, t).

(** The requests a pool thread serves, one after the other. *)
Fixpoint serveAll (cfg : AuthConfig) (rs : list Request) (t : ScopedTenant) : option (list verdict) :=
  match rs with
  | [] => Some []
  | r :: rs =>
      '(v, t) ← serve cfg r t;
      vs ← serveAll cfg rs t;
      Some (v :: vs)
  end.

(** ** Theorems *)

(** What every request should get: the last key with exactly this token decides,
    whatever the thread served before. *)
Definition keyFor (keys : list ApiKey) (token : string) : option ApiKey :=
  last (List.filter (fun k => negb (String.eqb token EmptyString) && String.eqb token (key k)) keys).

Definition verdictFor (keys : list ApiKey) (r : Request) : verdict :=
  match keyFor keys (bearerToken (header r)) with
  | None => Unauthorized
  | Some k => if operatorOnly r && negb (isAdmin k) then Forbidden else Routed (mkScope (tenantId k) (isAdmin k))
  end.

(** Shorter than 4 GiB. *)
Definition short (s : string) : Prop := (N.of_nat (String.length s) < 2 ^ 32)%N.

(** *** The comparison is equality *)

Lemma get_is_Some s : forall i, i < String.length s -> is_Some (String.get i s).
Proof. induction s as [|c s IH]; intros [|i] Hi; cbn in *; [lia..|eauto|]. apply IH. lia. Qed.

Lemma foldedByte_is_Some s i : s <> EmptyString -> is_Some (foldedByte s i).
Proof.
  intros Hs. unfold foldedByte. apply fmap_is_Some, get_is_Some. destruct (Nat.ltb_spec i (String.length s)); [done|].
  destruct s; [done|cbn; lia].
Qed.

Lemma lor_zero a b : N.lor a b = 0%N <-> a = 0%N /\ b = 0%N.
Proof. split; [apply N.lor_eq_0_iff|]. by intros [-> ->]. Qed.

Lemma foldDiff_spec a b ix : a <> EmptyString -> b <> EmptyString -> forall diff,
  exists d, foldDiff a b ix diff = Some d /\
    (d = 0%N <-> diff = 0%N /\ Forall (fun i => foldedByte a i = foldedByte b i) ix).
Proof.
  intros Ha Hb. induction ix as [|i ix IH]; intros diff; cbn [foldDiff]; [exists diff; split; [done|]; split; [by split|by intros [? _]]|].
  destruct (foldedByte_is_Some a i Ha) as [ca Hca]. destruct (foldedByte_is_Some b i Hb) as [cb Hcb].
  rewrite Hca, Hcb. cbn [mbind option_bind]. destruct (IH (N.lor diff (N.lxor ca cb))) as (d & E & Hd).
  exists d. split; [done|]. rewrite Hd, lor_zero, N.lxor_eq_0_iff, Forall_cons, Hca, Hcb.
  split; [intros [[-> ->] ?]; auto|]. intros (-> & [= ->] & ?). auto.
Qed.

Lemma get_eq a : forall b, String.length a = String.length b ->
  (forall i, i < String.length a -> String.get i a = String.get i b) -> a = b.
Proof.
  induction a as [|c a IH]; intros [|d b] Hl H; cbn in Hl; try lia; [done|].
  pose proof (H 0 ltac:(cbn; lia)) as H0. injection H0 as ->. f_equal. apply IH; [lia|].
  intros i Hi. apply (H (S i)). cbn. lia.
Qed.

Lemma same_bytes a b : String.length a = String.length b ->
  Forall (fun i => foldedByte a i = foldedByte b i) (seq 0 (String.length a)) -> a = b.
Proof.
  intros Hl H. rewrite Forall_forall in H. apply get_eq; [done|]. intros i Hi.
  specialize (H i ltac:(apply elem_of_seq; lia)). unfold foldedByte in H. rewrite <- Hl in H.
  rewrite (proj2 (Nat.ltb_lt _ _) Hi) in H. destruct (get_is_Some a i Hi) as [x Hx]. rewrite Hx in H |- *.
  destruct (String.get i b) as [y|] eqn:Hy; [|done]. injection H as H. f_equal.
  rewrite <- (ascii_N_embedding x), <- (ascii_N_embedding y). by rewrite H.
Qed.

Lemma short_lengths_differ a b : short a -> short b ->
  u32 (N.lxor (N.of_nat (String.length a)) (N.of_nat (String.length b))) = 0%N -> String.length a = String.length b.
Proof.
  unfold short, u32, wrapU. intros Ha Hb H. enough (N.of_nat (String.length a) = N.of_nat (String.length b)) by lia.
  apply N.lxor_eq, N.bits_inj. intros n. rewrite N.bits_0, <- (N.bits_0 n), <- H.
  destruct (N.lt_ge_cases n 32) as [Hn|Hn]; [by rewrite N.mod_pow2_bits_low|].
  rewrite N.mod_pow2_bits_high, N.lxor_spec by done.
  by rewrite <- (N.mod_small _ _ Ha), <- (N.mod_small _ _ Hb), !N.mod_pow2_bits_high.
Qed.

Lemma constantTimeEquals_spec a b : a <> EmptyString -> b <> EmptyString -> short a -> short b ->
  constantTimeEquals a b = Some (String.eqb a b).
Proof.
  intros Ha Hb Hsa Hsb. unfold constantTimeEquals.
  destruct (foldDiff_spec a b (seq 0 (Nat.max (String.length a) (String.length b))) Ha Hb
    (u32 (N.lxor (N.of_nat (String.length a)) (N.of_nat (String.length b))))) as (d & -> & Hd).
  cbn [mbind option_bind]. f_equal. destruct (String.eqb_spec a b) as [->|Hne].
  - apply N.eqb_eq, Hd. rewrite N.lxor_nilpotent. split; [done|]. by apply Forall_forall.
  - apply N.eqb_neq. intros H0. apply Hd in H0 as [H1 H2]. apply Hne.
    apply short_lengths_differ in H1; [|done..]. apply same_bytes; [done|]. by rewrite <- H1, Nat.max_id in H2.
Qed.

(** *** The lookup *)

(** Keys that can be compared. *)
Definition usable (k : ApiKey) : Prop := key k <> EmptyString /\ short (key k).

Lemma matchFrom_spec token keys : token <> EmptyString -> short token -> Forall usable keys -> forall hit,
  matchFrom token keys hit =
    Some (match last (List.filter (fun k => String.eqb token (key k)) keys) with Some k => Some k | None => hit end).
Proof.
  intros Ht Hs Hk. induction Hk as [|k keys [Hk1 Hk2] _ IH]; intros hit; [done|]. cbn [matchFrom List.filter].
  rewrite constantTimeEquals_spec by done. cbn [mbind option_bind]. rewrite IH. f_equal.
  destruct (String.eqb token (key k)); [|done]. rewrite last_cons. by destruct (last _).
Qed.

Lemma matchToken_spec token keys : short token -> Forall usable keys ->
  matchToken keys token = Some (keyFor keys token).
Proof.
  intros Hs Hk. unfold matchToken, keyFor. destruct (String.eqb_spec token EmptyString) as [->|Hne]; cbn [negb andb].
  - f_equal. induction keys as [|k keys IH]; [done|]. cbn. apply IH. by apply Forall_cons in Hk as [_ ?].
  - rewrite matchFrom_spec by done. f_equal. by destruct (last _).
Qed.

Lemma length_dropSpaces s : String.length (dropSpaces s) <= String.length s.
Proof. induction s as [|c s IH]; cbn; [done|]. destruct (Ascii.eqb c " "); cbn; lia. Qed.

Lemma length_substring s : forall n m, String.length (String.substring n m s) <= String.length s.
Proof.
  induction s as [|c s IH]; intros [|n] m; cbn [String.substring]; [destruct m; cbn; lia|cbn; lia| |].
  - destruct m as [|m]; cbn; [lia|]. specialize (IH 0 m). lia.
  - cbn. specialize (IH n m). lia.
Qed.

Lemma bearerToken_short h : short h -> short (bearerToken h).
Proof.
  unfold short, bearerToken. intros H. destruct (String.length h <=? 7); [done|]. destruct (String.prefix "Bearer " h); [|done].
  pose proof (length_dropSpaces (String.substring 7 (String.length h - 7) h)).
  pose proof (length_substring h 7 (String.length h - 7)). lia.
Qed.

Lemma serve_spec cfg r t : enabled cfg = true -> Forall usable (store cfg) -> short (header r) ->
  exists t', serve cfg r t = Some (verdictFor (store cfg) r, t').
Proof.
  intros He Hk Hs. unfold serve, authHook, requireAdmin, verdictFor. rewrite He. cbn [negb andb].
  rewrite matchToken_spec by (done || by apply bearerToken_short). cbn [mbind option_bind].
  destruct (keyFor (store cfg) (bearerToken (header r))) as [k|]; cbn [mbind option_bind]; [|eauto].
  eexists. cbn [admin]. rewrite negb_involutive. reflexivity.
Qed.

(** Keys that cannot be empty come out of start-up. *)
Lemma loadKeyFile_hasKey file : Forall (fun k => key k <> EmptyString) (loadKeyFile file).
Proof.
  destruct file as [text|]; [|constructor]. unfold loadKeyFile. induction (lines text) as [|l ls IH]; [constructor|].
  cbn [map concat]. apply Forall_app. split; [|done]. unfold loadLine. destruct (dropCR l) as [|c s]; [constructor|].
  destruct (Ascii.eqb c "#"); [constructor|]. destruct (cutAt ":" _) as [[nm rest]|]; [|constructor].
  destruct (String.eqb_spec (key (parseFields nm rest)) EmptyString); by repeat constructor.
Qed.

Lemma provisionAuth_hasKey on entries auto random w file :
  Forall (fun k => key k <> EmptyString) (store (fst (provisionAuth on entries auto random w file))).
Proof.
  assert (Hh : forall k, hasKey k = true -> key k <> EmptyString).
  { intros k H. unfold hasKey in H. by destruct (String.eqb_spec (key k) EmptyString). }
  unfold provisionAuth. destruct (negb (default true on)); [constructor|].
  destruct (negb (length _ =? 0)).
  - cbn. apply Forall_app. split; [|apply loadKeyFile_hasKey]. apply Forall_forall. intros k Hk.
    apply list_elem_of_In, filter_In in Hk as [_ Hk]. by apply Hh.
  - destruct (negb auto); [constructor|]. destruct (hasKey _) eqn:E; cbn; [|constructor]. constructor; [by apply Hh|constructor].
Qed.

(** C25: Once authentication is on, every request is judged by its own header alone: a
    route is reached exactly with a token equal to a stored key, as the tenant and with
    the privilege of the last such key, operator routes only with privilege, and
    nothing a pool thread served before leaks into it.  The configuration is any the
    start-up makes; keys and headers are below 4 GiB, the width of the comparison's
    length check. *)
Theorem requests_authenticated on entries auto random w file rs t :
  let cfg := fst (provisionAuth on entries auto random w file) in
  default true on = true -> Forall (fun k => short (key k)) (store cfg) -> Forall (fun r => short (header r)) rs ->
  serveAll cfg rs t = Some (map (verdictFor (store cfg)) rs).
Proof.
  intros cfg Hon Hk Hr. assert (He : enabled cfg = true).
  { unfold cfg, provisionAuth. rewrite Hon. cbn [negb]. repeat case_match; done. }
  assert (Hu : Forall usable (store cfg)).
  { pose proof (provisionAuth_hasKey on entries auto random w file) as Hne. fold cfg in Hne.
    rewrite Forall_forall in Hk, Hne |- *. split; auto. }
  clearbody cfg. revert t. induction Hr as [|r rs Hr _ IH]; intros t; [done|]. cbn [serveAll map].
  destruct (serve_spec cfg r t He Hu Hr) as [t' ->]. cbn [mbind option_bind]. by rewrite IH.
Qed.

(** *** What is written is read back *)

Fixpoint free (c : ascii) (s : string) : bool :=
  match s with EmptyString => true | String.String d s => negb (Ascii.eqb d c) && free c s end.

Lemma free_app c a b : free c (a +:+ b) = free c a && free c b.
Proof.
  induction a as [|d a IH]; [done|]. change (String.String d a +:+ b) with (String.String d (a +:+ b)). cbn [free].
  by rewrite IH, andb_assoc.
Qed.

Lemma cutAt_app c a b : free c a = true -> cutAt c (a +:+ String.String c EmptyString +:+ b) = Some (a, b).
Proof.
  change (String.String c EmptyString +:+ b) with (String.String c b). induction a as [|d a IH]; intros Hf.
  - change (EmptyString +:+ String.String c b) with (String.String c b). cbn. by rewrite Ascii.eqb_refl.
  - change (String.String d a +:+ String.String c b) with (String.String d (a +:+ String.String c b)). cbn in *.
    apply andb_prop in Hf as [Hd Hf]. apply negb_true_iff in Hd. rewrite Hd. by rewrite IH.
Qed.

Lemma cutAt_free c s : free c s = true -> cutAt c s = None.
Proof. induction s as [|d s IH]; intros Hf; [done|]. cbn in *. apply andb_prop in Hf as [Hd Hf]. apply negb_true_iff in Hd. by rewrite Hd, IH. Qed.

Lemma linesFrom_line l rest : forall cur, free LF l = true ->
  linesFrom cur (l +:+ lf +:+ rest) = (cur +:+ l) :: linesFrom EmptyString rest.
Proof.
  induction l as [|d l IH]; intros cur Hf.
  - rewrite append_nil_r. reflexivity.
  - change (String.String d l +:+ lf +:+ rest) with (String.String d (l +:+ lf +:+ rest)). cbn [linesFrom].
    cbn in Hf. apply andb_prop in Hf as [Hd Hf]. apply negb_true_iff in Hd. rewrite Hd, IH, append_assoc by done. done.
Qed.

Lemma lines_cat ls : Forall (fun l => free LF l = true) ls -> lines (cat (map (fun l => l +:+ lf) ls)) = ls.
Proof.
  intros H. induction H as [|l ls Hl _ IH]; [done|]. cbn [map cat foldr]. unfold lines. rewrite append_assoc.
  fold (cat (map (fun l => l +:+ lf) ls)). rewrite linesFrom_line by done. by f_equal.
Qed.

Lemma dropCR_app a b : b <> EmptyString -> dropCR (a +:+ b) = a +:+ dropCR b.
Proof.
  intros Hb. induction a as [|d a IH]; [done|].
  change (String.String d a +:+ b) with (String.String d (a +:+ b)).
  change (String.String d a +:+ dropCR b) with (String.String d (a +:+ dropCR b)). rewrite <- IH.
  destruct a as [|e a]; [by destruct b|done].
Qed.

Lemma dropCR_free s : free CR s = true -> dropCR s = s.
Proof.
  induction s as [|d s IH]; intros Hf; [done|]. cbn in Hf. apply andb_prop in Hf as [Hd Hf]. apply negb_true_iff in Hd.
  destruct s as [|e s]; [cbn; by rewrite Hd|]. change (dropCR (String.String d (String.String e s))) with (String.String d (dropCR (String.String e s))).
  by rewrite IH.
Qed.

Lemma dropCR_tail a b : free CR b = true -> b <> EmptyString -> dropCR (a +:+ b) = a +:+ b.
Proof. intros Hf Hb. by rewrite dropCR_app, dropCR_free. Qed.

(** Keys the format can hold. *)
Record writable (k : ApiKey) : Prop := {
  wr_name : free ":" (name k) && free LF (name k) = true;
  wr_comment : String.prefix "#" (name k) = false;
  wr_key : free ":" (key k) && free LF (key k) = true;
  wr_nonempty : key k <> EmptyString;
  wr_tenant : free ":" (tenantId k) && free LF (tenantId k) && free CR (tenantId k) = true;
  wr_default : tenantId k = EmptyString -> name k = EmptyString;
}.

(** The line of a key, without its end. *)
Definition keyText (k : ApiKey) : string :=
  name k +:+ ":" +:+ key k +:+ ":" +:+ tenantId k +:+ (if isAdmin k then ":admin" else EmptyString).

Lemma parseFields_written k : writable k ->
  parseFields (name k) (key k +:+ ":" +:+ tenantId k +:+ (if isAdmin k then ":admin" else EmptyString)) = k.
Proof.
  intros [_ _ Hk _ Ht Hd]. apply andb_prop in Hk as [Hk _]. apply andb_prop in Ht as [Ht _]. apply andb_prop in Ht as [Ht _].
  unfold parseFields. rewrite (cutAt_app ":" (key k)) by done.
  replace (cutAt ":" (tenantId k +:+ (if isAdmin k then ":admin" else EmptyString)))
    with (if isAdmin k then Some (tenantId k, "admin") else None).
  2: { destruct (isAdmin k); symmetry; [by apply (cutAt_app ":" (tenantId k) "admin")|rewrite append_nil_r; by apply cutAt_free]. }
  destruct k as [nm ky tn [|]]; cbn [name key tenantId isAdmin] in *; rewrite ?append_nil_r;
    destruct (String.eqb_spec tn EmptyString) as [->|]; rewrite ?Hd by done; done.
Qed.

Lemma loadLine_written k : writable k -> loadLine (keyText k) = [k].
Proof.
  intros Hw. pose proof Hw as [Hn Hc _ Hne Ht _]. apply andb_prop in Hn as [Hn _]. apply andb_prop in Ht as [_ Ht].
  unfold loadLine.
  assert (Hcr : dropCR (keyText k) = keyText k).
  { assert (E : keyText k = (name k +:+ ":" +:+ key k) +:+ (":" +:+ tenantId k +:+ (if isAdmin k then ":admin" else EmptyString)))
      by (unfold keyText; by rewrite !append_assoc).
    rewrite E. apply dropCR_tail; [|done]. rewrite !free_app, Ht. by destruct (isAdmin k). }
  rewrite Hcr. unfold keyText. pose proof (cutAt_app ":" (name k) (key k +:+ ":" +:+ tenantId k +:+ (if isAdmin k then ":admin" else EmptyString)) Hn) as Hcut.
  change (String.String ":" EmptyString) with ":" in Hcut. rewrite Hcut, (parseFields_written k Hw), (proj2 (String.eqb_neq _ _) Hne).
  destruct (name k) as [|c n]; [reflexivity|]. change ((if Ascii.eqb c "#" then [] else [k]) = [k]).
  destruct (Ascii.eqb_spec c "#") as [->|]; [|done]. by destruct n.
Qed.

Lemma free_keyText k : writable k -> free LF (keyText k) = true.
Proof.
  intros [Hn _ Hk _ Ht _]. apply andb_prop in Hn as [_ Hn]. apply andb_prop in Hk as [_ Hk]. apply andb_prop in Ht as [Ht _].
  apply andb_prop in Ht as [_ Ht]. unfold keyText. rewrite !free_app, Hn, Hk, Ht. by destruct (isAdmin k).
Qed.

Lemma keyFile_roundtrip keys : Forall writable keys -> loadKeyFile (Some (keyFileBody keys)) = keys.
Proof.
  intros Hw. unfold loadKeyFile.
  set (h1 := "# mimirmind API keys " +:+ emDash +:+ " format: name:key:tenantId[:admin]").
  set (h2 := "# Auto-generated when server.auth is enabled and no key was configured.").
  assert (E : keyFileBody keys = cat (map (fun l => l +:+ lf) (h1 :: h2 :: map keyText keys))).
  { unfold keyFileBody. cbn [map cat foldr]. unfold h1. rewrite !append_assoc. do 6 f_equal. rewrite map_map.
    f_equal. apply map_ext. intros k. unfold keyLine, keyText. by rewrite !append_assoc. }
  rewrite E, lines_cat.
  2: { constructor; [reflexivity|]. constructor; [reflexivity|]. apply Forall_map. eapply Forall_impl; [exact Hw|]. apply free_keyText. }
  cbn [map concat]. change (loadLine h1) with (@nil ApiKey). change (loadLine h2) with (@nil ApiKey). cbn [app].
  clear E h1 h2. induction Hw as [|k keys Hk _ IH]; [done|]. cbn [map concat]. by rewrite loadLine_written, IH.
Qed.

(** *** The generated key *)

Lemma b64_free c n : free c kB64Url = true -> free c (b64 n) = true.
Proof.
  intros Hf. unfold b64. destruct (String.get (N.to_nat (N.land n 63)) kB64Url) as [d|] eqn:E; [|done].
  cbn. rewrite andb_true_r. revert E Hf. generalize (N.to_nat (N.land n 63)). induction kB64Url as [|e s IH]; intros [|i]; cbn; try done.
  - intros [= ->] H. by apply andb_prop in H as [? _].
  - intros E H. apply andb_prop in H as [_ H]. by eapply IH.
Qed.

Lemma bearerToken_prefix c s : Ascii.eqb c " " = false ->
  bearerToken ("Bearer " +:+ String.String c s) = String.String c s.
Proof.
  intros Hc. assert (Hx : forall y, String.substring 0 (String.length y) y = y) by (intros y; induction y as [|d y IH]; cbn; by rewrite ?IH).
  assert (Hd : dropSpaces (String.String c s) = String.String c s) by (cbn; by rewrite Hc).
  unfold bearerToken. rewrite length_append. change (String.length "Bearer ") with 7.
  destruct (Nat.leb_spec (7 + String.length (String.String c s)) 7) as [H|_]; [cbn in H; lia|].
  change (String.prefix "Bearer " ("Bearer " +:+ String.String c s)) with true. cbn iota.
  replace (7 + String.length (String.String c s) - 7) with (String.length (String.String c s)) by lia.
  change (dropSpaces (String.substring 0 (String.length (String.String c s)) (String.String c s)) = String.String c s).
  by rewrite Hx, Hd.
Qed.

Lemma base64_free c data : free c kB64Url = true -> free c (base64UrlNoPad data) = true.
Proof.
  intros Hc. revert data. fix IH 1. intros [|a [|b [|d data]]]; [done| | |]; cbn [base64UrlNoPad];
    rewrite !free_app, !(b64_free c) by done; [done|done|]. apply IH.
Qed.

Lemma bootstrap_writable raw : writable (mkKey "auto" (generateKey (Some raw)) "default" true).
Proof.
  assert (Hg : forall c, free c "sk-mimir-" = true -> free c kB64Url = true -> free c (generateKey (Some raw)) = true).
  { intros c H1 H2. cbn [generateKey]. by rewrite free_app, H1, base64_free. }
  split; cbn [name key tenantId]; try reflexivity; [|done..]. by rewrite !Hg.
Qed.

(** A key file that was written is read back key for key, and so the key a first
    start generates is the one every later start accepts: the configuration and the
    file are the same again, and the key gets its bearer to every route. *)
Theorem keys_survive_restart entries raw random' w' old t op :
  List.filter hasKey (map parseEntry entries) = [] -> loadKeyFile old = [] -> short (generateKey (Some raw)) ->
  (forall keys, Forall writable keys -> loadKeyFile (snd (saveKeyFile Written keys old)) = keys) /\
  let '(cfg, file) := provisionAuth (Some true) entries true (Some raw) Written old in
  provisionAuth (Some true) entries true random' w' file = (cfg, file) /\
  serve cfg (mkRequest ("Bearer " +:+ generateKey (Some raw)) op) t =
    Some (Routed (mkScope "default" true), mkScope "default" true).
Proof.
  intros He Ho Hs. split; [intros keys Hk; by apply keyFile_roundtrip|].
  unfold provisionAuth at 1. cbn [default negb]. rewrite He, Ho. cbn [app length Nat.eqb negb].
  change (hasKey (mkKey "auto" (generateKey (Some raw)) "default" true)) with true. cbn [negb snd saveKeyFile].
  pose proof (bootstrap_writable raw) as Hw. set (k := mkKey "auto" (generateKey (Some raw)) "default" true) in *. split.
  - unfold provisionAuth. cbn [default negb]. rewrite He. cbn [app]. rewrite keyFile_roundtrip; [done|]. by constructor.
  - assert (Hb : bearerToken ("Bearer " +:+ key k) = key k) by by apply (bearerToken_prefix "s").
    unfold serve, authHook. cbn [enabled store header negb]. change (generateKey (Some raw)) with (key k) in Hs |- *.
    rewrite Hb, matchToken_spec.
    + unfold keyFor. cbn [List.filter]. rewrite String.eqb_refl. cbn [mbind option_bind].
      change (String.eqb (key k) EmptyString) with false. cbn. by rewrite andb_false_r.
    + done.
    + by constructor.
Qed.

(** *** On concrete inputs *)

Definition demo_file : string := "bob:k1:lab" +:+ lf +:+ "root:k2:ops:admin" +:+ String.String CR lf.

Lemma requests_authenticated_witness :
  serveAll (fst (provisionAuth None ["k0"] false None CannotOpen (Some demo_file)))
    [mkRequest "Bearer k2" true; mkRequest "Bearer k3" false; mkRequest "Bearer k1" true; mkRequest "Bearer  k0" false]
    (mkScope "old" true) =
  Some [Routed (mkScope "ops" true); Unauthorized; Forbidden; Routed (mkScope "default" false)].
Proof.
  rewrite requests_authenticated.
  - vm_compute. reflexivity.
  - reflexivity.
  - repeat constructor.
  - repeat constructor.
Defined.

Lemma keys_survive_restart_witness :
  let '(cfg, file) := provisionAuth (Some true) [] true (Some (map N.of_nat (seq 100 32))) Written None in
  provisionAuth (Some true) [] true None CannotOpen file = (cfg, file) /\
  serve cfg (mkRequest ("Bearer " +:+ generateKey (Some (map N.of_nat (seq 100 32)))) true) (mkScope EmptyString false) =
    Some (Routed (mkScope "default" true), mkScope "default" true).
Proof.
  exact (proj2 (keys_survive_restart [] (map N.of_nat (seq 100 32)) None CannotOpen None
    (mkScope EmptyString false) true eq_refl eq_refl ltac:(vm_compute; reflexivity))).
Defined.

(** The comparison with an empty stored key would read outside it. *)
Example empty_key_out_of_range : matchToken [mkKey "x" EmptyString "x" false] "a" = None.
Proof. reflexivity. Qed.

(** A tenant that ends in a carriage return loses it. *)
Example carriage_return_lost :
  loadKeyFile (Some (keyFileBody [mkKey "n" "k" (String.String "t" (String.String CR EmptyString)) false])) = [mkKey "n" "k" "t" false].
Proof. reflexivity. Qed.
End Auth.
