(* ===== verification/Wav.v ===== *)
(** * WAVE files

    Models [src/src/runtime/audio/WavReader.cpp] and [WavWriter.cpp].  A file is its
    bytes, an offset or size an [N]; a sample is a binary32 float, where NaNs are one
    value.  A read outside the buffer is the outcome [Undefined]. *)

From Stdlib Require Import Ascii SpecFloat.
From S2P Require Import Prelude Sampling Gguf Floats FloatRound.
Import Floats.

(** ** Machine integers and conversions *)

Definition s16 (z : Z) : Z := ((z + 2 ^ 15) mod 2 ^ 16 - 2 ^ 15)%Z.

Module WavReader.
Import GgufReader.

(** [src/src/runtime/audio/WavReader.hpp:21-29 AudioClip] *)
Record AudioClip := mkClip {
  samples : list f32;
  sampleRate : Z;
}.

Definition fail {A} (msg : string) : outcome A := Throws (RuntimeError ("WavReader: " +:+ msg)).

Section Decode.
Variable b : list ascii.
Abbreviation size := (N.of_nat (length b)).

(** The bytes at an offset, little-endian; the caller has checked the range, or not. *)
Definition bytesAt (off n : N) : outcome N :=
  if (off + n <=? size)%N then Returns (GgufReader.le (take (N.to_nat n) (drop (N.to_nat off) b))) else Undefined.

(** [src/src/runtime/audio/WavReader.cpp:27-36 readU32] *)
Definition readU32 (off : N) : outcome N :=
  if (size <? off + 4)%N then fail "truncated: 32-bit read past end of buffer" else bytesAt off 4.

(** [src/src/runtime/audio/WavReader.cpp:38-45 readU16] *)
Definition readU16 (off : N) : outcome N :=
  if (size <? off + 2)%N then fail "truncated: 16-bit read past end of buffer" else bytesAt off 2.

(** [src/src/runtime/audio/WavReader.cpp:47-52 tagIs] *)
Definition tagIs (off : N) (tag : string) : outcome bool :=
  if (size <? off + 4)%N then Returns false
  else
    obind! v := bytesAt off 4 in
    Returns (v =? GgufReader.le (String.list_ascii_of_string tag))%N.

(** [src/src/runtime/audio/WavReader.cpp:56-104 sampleToFloat] *)
Definition sampleToFloat (off fmt bits : N) : outcome f32 :=
  if (fmt =? 3)%N then
    if (bits =? 32)%N then obind! v := bytesAt off 4 in Returns (ieee 23 8 v)
    else if (bits =? 64)%N then obind! v := bytesAt off 8 in Returns (Sampling.to_float (ieee 52 11 v))
    else fail "unsupported IEEE-float bit depth (only 32/64)"
  else if (bits =? 8)%N then
    obind! p := bytesAt off 1 in
    Returns (Sampling.fdiv (Sampling.fsub (Sampling.f32_of_Z (Z.of_N p)) (Sampling.f32_of_Z 128)) (Sampling.f32_of_Z 128))
  else if (bits =? 16)%N then
    obind! v := bytesAt off 2 in
    Returns (Sampling.fdiv (Sampling.f32_of_Z (s16 (Z.of_N v))) (Sampling.f32_of_Z 32768))
  else if (bits =? 24)%N then
    obind! v := bytesAt off 3 in
    let v := if N.testbit v 23 then (Z.of_N v - 2 ^ 24)%Z else Z.of_N v in
    Returns (Sampling.fdiv (Sampling.f32_of_Z v) (Sampling.f32_of_Z 8388608))
  else if (bits =? 32)%N then
    obind! v := bytesAt off 4 in
    Returns (Sampling.fdiv (Sampling.f32_of_Z (s32 (Z.of_N v))) (Sampling.f32_of_Z 2147483648))
  else fail "unsupported PCM bit depth (only 8/16/24/32)".

(** The fields of a [fmt ] chunk. *)
Record Fmt := mkFmt {
  fmt : N;
  channels : N;
  rate : N;
  bits : N;
}.

(** [src/src/runtime/audio/WavReader.cpp:136-149 WavReader::decode] *)
Definition readFmt (payload chunkSize : N) : outcome Fmt :=
  if (chunkSize <? 16)%N || (size <? payload + 16)%N then fail "malformed 'fmt ' chunk"
  else
    obind! f := readU16 payload in
    obind! c := readU16 (payload + 2) in
    obind! r := readU32 (payload + 4) in
    obind! w := readU16 (payload + 14) in
    if (f =? 65534)%N then
      if (chunkSize <? 40)%N || (size <? payload + 26)%N then fail "malformed EXTENSIBLE 'fmt ' chunk"
      else obind! f := readU16 (payload + 24) in Returns (mkFmt f c r w)
    else Returns (mkFmt f c r w).

(** Offset and length of the data, clamped to the buffer.
    [src/src/runtime/audio/WavReader.cpp:152-158 WavReader::decode] *)
Definition dataRange (payload chunkSize : N) : N * N :=
  (payload, if (size <? payload + chunkSize)%N then (size - payload)%N else chunkSize).

(** The chunks from [off]; [Undefined] is also what running out of fuel would be.  A
    turn moves at least eight bytes on.
    [src/src/runtime/audio/WavReader.cpp:120-167 WavReader::decode] *)
Fixpoint walk (fuel : nat) (off : N) (f : option Fmt) (d : option (N * N)) : outcome (option Fmt * option (N * N)) :=
  if (off + 8 <=? size)%N then
    match fuel with
    | 0 => Undefined
    | S fuel =>
        obind! chunkSize := readU32 (off + 4) in
        let payload := (off + 8)%N in
        obind! isFmt := tagIs off "fmt " in
        obind! isData := tagIs off "data" in
        obind! f := (if isFmt : bool then obind! x := readFmt payload chunkSize in Returns (Some x) else Returns f) in
        let d := if negb isFmt && isData then Some (dataRange payload chunkSize) else d in
        let advance := u32 (8 + chunkSize + N.land chunkSize 1) in
        if (advance <? 8)%N then Returns (f, d) else walk fuel (off + advance) f d
    end
  else Returns (f, d).

(** The mean of the samples of a frame, from channel [c] on.
    [src/src/runtime/audio/WavReader.cpp:197-201 WavReader::decode] *)
Fixpoint sumFrame (n : nat) (off width fmt bits : N) (acc : f32) : outcome f32 :=
  match n with
  | 0 => Returns acc
  | S n => obind! v := sampleToFloat off fmt bits in sumFrame n (off + width) width fmt bits (Sampling.fadd acc v)
  end.

(** [src/src/runtime/audio/WavReader.cpp:195-203 WavReader::decode] *)
Fixpoint readFrames (n : nat) (off width : N) (f : Fmt) : outcome (list f32) :=
  match n with
  | 0 => Returns []
  | S n =>
      obind! acc := sumFrame (N.to_nat (channels f)) off width (fmt f) (bits f) Sampling.f0 in
      obind! rest := readFrames n (off + width * channels f) width f in
      let invCh := Sampling.fdiv Sampling.f1 (Sampling.f32_of_Z (Z.of_N (channels f))) in
      Returns (Sampling.fmul acc invCh :: rest)
  end.

(** [src/src/runtime/audio/WavReader.cpp:169-204 WavReader::decode] *)
Definition decodeData (f : option Fmt) (d : option (N * N)) : outcome AudioClip :=
  match f, d with
  | None, _ => fail "no 'fmt ' chunk found"
  | Some _, None => fail "no 'data' chunk found"
  | Some f, Some (dataOff, dataLen) =>
      if negb (fmt f =? 1)%N && negb (fmt f =? 3)%N then fail "unsupported WAV format tag (only PCM=1 and IEEE-float=3)"
      else if (channels f =? 0)%N then fail "zero channels"
      else if (rate f =? 0)%N then fail "zero sample rate"
      else if (bits f / 8 =? 0)%N then fail "zero bit depth"
      else
        let width := (bits f / 8)%N in
        obind! s := readFrames (N.to_nat (dataLen / (width * channels f))) dataOff width f in
        Returns (mkClip s (s32 (Z.of_N (rate f))))
  end.

(** [src/src/runtime/audio/WavReader.cpp:108-119 WavReader::decode] *)
Definition decode : outcome AudioClip :=
  if (size <? 12)%N then fail "too small to be a WAV (need at least a 12-byte RIFF header)"
  else
    obind! riff := tagIs 0 "RIFF" in
    if negb riff then fail "missing 'RIFF' magic"
    else
      obind! wave := tagIs 8 "WAVE" in
      if negb wave then fail "missing 'WAVE' form type"
      else
        obind! fd := walk (length b) 12 None None in
        decodeData (fst fd) (snd fd).
End Decode.

(** [None]: the file cannot be opened.
    [src/src/runtime/audio/WavReader.cpp:207-217 WavReader::decodeFile] *)
Definition decodeFile (path : string) (file : option (list ascii)) : outcome AudioClip :=
  match file with
  | None => fail ("cannot open WAV file '" +:+ path +:+ "'")
  | Some b => decode b
  end.

(** *** Resampling *)

Definition dmul (x y : spec_float) : spec_float := SFmul 53 1024 x y.
Definition ddiv (x y : spec_float) : spec_float := SFdiv 53 1024 x y.
Definition dsub (x y : spec_float) : spec_float := SFsub 53 1024 x y.
Definition double_of_Z (z : Z) : spec_float := binary_normalize 53 1024 z 0 false.

(** One output sample; [None] where the position is outside the 64-bit range.
    [src/src/runtime/audio/WavReader.cpp:248-260 WavReader::resampleTo] *)
Definition interpolate (inp : list f32) (step : spec_float) (i : nat) : option f32 :=
  let pos := dmul (double_of_Z (Z.of_nat i)) step in
  i0 ← trunc_u64 pos;
  if (N.of_nat (length inp) - 1 <=? i0)%N then last inp
  else
    let frac := dsub pos (double_of_Z (Z.of_N i0)) in
    a ← inp !! N.to_nat i0;
    b ← inp !! S (N.to_nat i0);
    Some (Sampling.fadd a (Sampling.fmul (Sampling.to_float frac) (Sampling.fsub b a))).

(** The largest number of floats a vector takes. *)
Definition max_size : Z := 2 ^ 61 - 1.

(** [src/src/runtime/audio/WavReader.cpp:219-261 WavReader::resampleTo] *)
Definition resampleTo (clip : AudioClip) (targetRate : Z) : outcome AudioClip :=
  if (targetRate <=? 0)%Z then fail "resample target rate must be positive"
  else if (sampleRate clip =? targetRate)%Z || (length (samples clip) =? 0) then Returns (mkClip (samples clip) targetRate)
  else
    let ratio := ddiv (double_of_Z targetRate) (double_of_Z (sampleRate clip)) in
    let inN := length (samples clip) in
    match lround (dmul (double_of_Z (Z.of_nat inN)) ratio) with
    | None => Undefined
    | Some r =>
        let outN := (r mod 2 ^ 64)%Z in
        if (max_size <? outN)%Z then Throws (LengthError "vector::_M_default_append")
        else if (outN =? 0)%Z then Returns (mkClip [] targetRate)
        else if inN =? 1 then Returns (mkClip (replicate (Z.to_nat outN) (default Sampling.f0 (head (samples clip)))) targetRate)
        else
          let step := ddiv (double_of_Z (Z.of_nat (inN - 1))) (double_of_Z (if (1 <? outN)%Z then outN - 1 else 1)) in
          match mapM (interpolate (samples clip) step) (seq 0 (Z.to_nat outN)) with
          | Some out => Returns (mkClip out targetRate)
          | None => Undefined
          end
    end.

(** [src/src/runtime/audio/WavReader.cpp:263-265 WavReader::decodeToMono] *)
Definition decodeToMono (wav : list ascii) (targetRate : Z) : outcome AudioClip :=
  obind! clip := decode wav in resampleTo clip targetRate.
End WavReader.

Module WavWriter.

(** [src/src/runtime/audio/WavWriter.cpp:14-18 putLE] *)
Definition putLE (value : N) (bytes : nat) : list ascii :=
  map (fun i => ascii_of_N (N.land (N.shiftr value (8 * N.of_nat i)) 255)) (seq 0 bytes).

(** [src/src/runtime/audio/WavWriter.cpp:20-25 putTag] *)
Definition putTag (tag : string) : list ascii := String.list_ascii_of_string tag.

(** [std::clamp]. *)
Definition clamp (s lo hi : f32) : f32 :=
  if Sampling.flt s lo then lo else if Sampling.flt hi s then hi else s.

(** [None]: not a number, which has no rounded value.
    [src/src/runtime/audio/WavWriter.cpp:29-32 toI16] *)
Definition toI16 (s : f32) : option Z :=
  let c := clamp s (Sampling.f32_of_Z (-1)) Sampling.f1 in
  v ← lround (Sampling.fmul c (Sampling.f32_of_Z 32767));
  Some (s16 v).

(** [src/src/runtime/audio/WavWriter.cpp:34-40 appendPcm16] *)
Definition pcm16 (v : Z) : list ascii :=
  let u := Z.to_N (v mod 2 ^ 16) in
  [ascii_of_N (N.land u 255); ascii_of_N (N.land (N.shiftr u 8) 255)].

(** [src/src/runtime/audio/WavWriter.cpp:44-50 WavWriter::encodeRawPcm16] *)
Definition encodeRawPcm16 (mono : list f32) : option (list ascii) :=
  vs ← mapM toI16 mono;
  Some (concat (map pcm16 vs)).

(** [src/src/runtime/audio/WavWriter.cpp:52-88 WavWriter::encodePcm16] *)
Definition encodePcm16 (mono : list f32) (sampleRate : Z) : option (list ascii) :=
  let rate := if (0 <? sampleRate)%Z then Z.to_N sampleRate else 24000%N in
  let blockAlign := 2%N in
  let byteRate := u32 (rate * blockAlign) in
  let dataBytes := u32 (u32 (N.of_nat (length mono)) * blockAlign) in
  data ← encodeRawPcm16 mono;
  Some (putTag "RIFF" ++ putLE (u32 (36 + dataBytes)) 4 ++ putTag "WAVE" ++
    putTag "fmt " ++ putLE 16 4 ++ putLE 1 2 ++ putLE 1 2 ++ putLE rate 4 ++ putLE byteRate 4 ++
    putLE blockAlign 2 ++ putLE 16 2 ++
    putTag "data" ++ putLE dataBytes 4 ++ data).
End WavWriter.

Module WavProofs.
Import GgufReader WavReader WavWriter.

(** ** Nothing outside the buffer is read *)

Definition defined {A} (o : outcome A) : Prop := o <> Undefined.

Lemma defined_obind {A B} (m : outcome A) (f : A -> outcome B) :
  defined m -> (forall a, m = Returns a -> defined (f a)) -> defined (obind m f).
Proof. unfold defined. destruct m; cbn; auto. Qed.

Lemma defined_fail {A} msg : defined (fail (A := A) msg).
Proof. done. Qed.
#[local] Hint Resolve defined_fail : core.

Section Safe.
Variable b : list ascii.
Abbreviation size := (N.of_nat (length b)).

Lemma bytesAt_defined off n : (off + n <= size)%N -> defined (bytesAt b off n).
Proof using. intros H. unfold bytesAt. by rewrite (proj2 (N.leb_le _ _) H). Qed.

Lemma readU32_defined off : defined (readU32 b off).
Proof using. unfold readU32. destruct (N.ltb_spec size (off + 4)); [done|]. by apply bytesAt_defined. Qed.

Lemma readU16_defined off : defined (readU16 b off).
Proof using. unfold readU16. destruct (N.ltb_spec size (off + 2)); [done|]. by apply bytesAt_defined. Qed.

Lemma tagIs_defined off tag : defined (tagIs b off tag).
Proof using.
  unfold tagIs. destruct (N.ltb_spec size (off + 4)); [done|]. apply defined_obind; [by apply bytesAt_defined|done].
Qed.

#[local] Hint Resolve readU32_defined readU16_defined tagIs_defined : core.

Lemma readFmt_defined payload n : defined (readFmt b payload n).
Proof using.
  unfold readFmt. destruct (_ || _); [done|]. do 4 (apply defined_obind; [auto|]; intros ? _).
  destruct (_ =? 65534)%N; [|done]. destruct (_ || _); [done|]. by apply defined_obind; auto.
Qed.

(** The data found lies in the buffer. *)
Definition inside (d : option (N * N)) : Prop := match d with Some (o, n) => (o + n <= size)%N | None => True end.

Lemma walk_safe fuel : forall off f d, (size <= off + 8 * N.of_nat fuel)%N -> inside d ->
  defined (walk b fuel off f d) /\ forall f' d', walk b fuel off f d = Returns (f', d') -> inside d'.
Proof using.
  induction fuel as [|fuel IH]; intros off f d Hf Hd; cbn [walk]; destruct (N.leb_spec (off + 8) size) as [Hle|Hle].
  - lia.
  - split; [done|]. by intros f' d' [= <- <-].
  - assert (Hin : forall n, inside (Some (dataRange b (off + 8) n))).
    { intros n. unfold dataRange, inside. destruct (N.ltb_spec size (off + 8 + n)); lia. }
    destruct (readU32 b (off + 4)) as [n| |] eqn:E1; [|done|by destruct (readU32_defined (off + 4))].
    destruct (tagIs b off "fmt ") as [isf| |] eqn:E2; [|done|by destruct (tagIs_defined off "fmt ")].
    destruct (tagIs b off "data") as [isd| |] eqn:E3; [|done|by destruct (tagIs_defined off "data")].
    cbn [obind]. destruct (if isf then _ else _) as [f2| |] eqn:E4; cbn [obind]; [|done|].
    2: { exfalso. destruct isf; [|done]. destruct (readFmt b (off + 8) n) eqn:E5; try done. by destruct (readFmt_defined (off + 8) n). }
    set (d2 := if negb isf && isd then _ else d). assert (Hd2 : inside d2) by (unfold d2; by destruct (negb isf && isd)).
    destruct (N.ltb_spec (u32 (8 + n + N.land n 1)) 8) as [Ha|Ha]; [split; [done|]; by intros f' d' [= <- <-]|].
    apply IH; [lia|done].
  - split; [done|]. by intros f' d' [= <- <-].
Qed.

Lemma sampleToFloat_defined off fm bt : (off + bt / 8 <= size)%N -> defined (sampleToFloat b off fm bt).
Proof using.
  intros H. unfold sampleToFloat. destruct (fm =? 3)%N;
    repeat match goal with |- context [if (bt =? ?k)%N then _ else _] =>
      destruct (N.eqb_spec bt k) as [->|_]; [apply defined_obind; [by apply bytesAt_defined|done]|] end; auto.
Qed.

Lemma sumFrame_defined fm bt n : forall off acc, (off + N.of_nat n * (bt / 8) <= size)%N ->
  defined (sumFrame b n off (bt / 8) fm bt acc).
Proof using.
  induction n as [|n IH]; intros off acc H; cbn [sumFrame]; [done|]. rewrite Nat2N.inj_succ, N.mul_succ_l in H.
  pose proof (N.le_0_l (N.of_nat n * (bt / 8))). apply defined_obind; [apply sampleToFloat_defined; lia|].
  intros v _. apply IH. lia.
Qed.

Lemma readFrames_safe f n : forall off, (off + N.of_nat n * (bits f / 8 * channels f) <= size)%N ->
  defined (readFrames b n off (bits f / 8) f) /\ forall s, readFrames b n off (bits f / 8) f = Returns s -> length s = n.
Proof using.
  induction n as [|n IH]; intros off H; cbn [readFrames]; [split; [done|by intros s [= <-]]|].
  rewrite Nat2N.inj_succ, N.mul_succ_l in H. pose proof (N.le_0_l (N.of_nat n * (bits f / 8 * channels f))).
  pose proof (sumFrame_defined (fmt f) (bits f) (N.to_nat (channels f)) off Sampling.f0) as Hs.
  rewrite N2Nat.id, (N.mul_comm (channels f)) in Hs. specialize (Hs ltac:(lia)).
  destruct (sumFrame b _ off _ _ _ _) as [acc| |]; [|done|done]. cbn [obind].
  destruct (IH (off + bits f / 8 * channels f)%N ltac:(lia)) as [H1 H2].
  destruct (readFrames b n _ _ f) as [rest| |]; [|done|done]. cbn [obind]. split; [done|].
  intros s [= <-]. cbn. by rewrite (H2 rest).
Qed.

Lemma decodeData_safe f d : inside d -> defined (decodeData b f d) /\
  forall clip, decodeData b f d = Returns clip -> length (samples clip) <= length b.
Proof using.
  intros Hd. unfold decodeData. destruct f as [f|]; [|done]. destruct d as [[o n]|]; [|done]. cbn [inside] in Hd.
  destruct (_ && _); [done|]. destruct (N.eqb_spec (channels f) 0) as [|Hc]; [done|].
  destruct (N.eqb_spec (rate f) 0) as [|_]; [done|]. destruct (N.eqb_spec (bits f / 8) 0) as [|Hw]; [done|].
  pose proof (N.Div0.mul_div_le n (bits f / 8 * channels f)) as Hq.
  assert (Hnz : (bits f / 8 * channels f)%N <> 0%N) by (intros [?|?]%N.eq_mul_0; contradiction).
  set (k := (bits f / 8 * channels f)%N) in *.
  assert (Hq' : (n / k <= n)%N) 
    by (apply N.Div0.div_le_upper_bound; rewrite <- (N.mul_1_l n) at 1; apply N.mul_le_mono_r; clear -Hnz; lia).
  destruct (readFrames_safe f (N.to_nat (n / k)) o) as [H1 H2]; [rewrite N2Nat.id, N.mul_comm; fold k; lia|].
  destruct (readFrames b _ o _ f) as [s| |]; [|done|done]. split; [done|]. intros clip [= <-]. cbn. rewrite (H2 s) by done. lia.
Qed.

Lemma decode_safe_buffer : defined (decode b) /\ forall clip, decode b = Returns clip -> length (samples clip) <= length b.
Proof using.
  unfold decode. destruct (size <? 12)%N; [done|].
  destruct (tagIs b 0 "RIFF") as [[]| |] eqn:E1; [|done|done|by destruct (tagIs_defined 0 "RIFF")]. cbn [obind negb].
  destruct (tagIs b 8 "WAVE") as [[]| |] eqn:E2; [|done|done|by destruct (tagIs_defined 8 "WAVE")]. cbn [obind negb].
  destruct (walk_safe (length b) 12 None None ltac:(lia) I) as [H1 H2].
  destruct (walk b (length b) 12 None None) as [[f d]| |]; [|done|done]. cbn [obind fst snd].
  apply decodeData_safe. by eapply H2.
Qed.
End Safe.

(** Decoding any bytes ends, reads nothing outside them, and answers an error or a
    clip with no more samples than the file has bytes. *)
Theorem wav_decode_safe b : decode b <> Undefined /\ forall clip, decode b = Returns clip -> length (samples clip) <= length b.
Proof. apply decode_safe_buffer. Qed.

(** ** What is written is read back *)

Lemma byte_value x : N_of_ascii (ascii_of_N (N.land x 255)) = (x mod 256)%N.
Proof. change 255%N with (N.ones 8). rewrite N.land_ones. apply N_ascii_embedding, N.mod_lt. done. Qed.

Lemma le_putLE_from v k : forall i,
  GgufReader.le (map (fun i => ascii_of_N (N.land (N.shiftr v (8 * N.of_nat i)) 255)) (seq i k)) =
  (N.shiftr v (8 * N.of_nat i) mod 2 ^ (8 * N.of_nat k))%N.
Proof.
  induction k as [|k IH]; intros i; cbn [seq map GgufReader.le]; [by rewrite N.mod_1_r|].
  rewrite byte_value, IH. replace (8 * N.of_nat (S k))%N with (8 + 8 * N.of_nat k)%N by lia.
  rewrite N.pow_add_r. change (2 ^ 8)%N with 256%N. rewrite N.Div0.mod_mul_r. do 3 f_equal.
  change 256%N with (2 ^ 8)%N. rewrite <- N.shiftr_div_pow2, N.shiftr_shiftr. f_equal. lia.
Qed.

Lemma le_putLE v k : (v < 2 ^ (8 * N.of_nat k))%N -> GgufReader.le (putLE v k) = v.
Proof. intros H. unfold putLE. rewrite le_putLE_from. cbn [N.of_nat N.mul]. by rewrite N.shiftr_0_r, N.mod_small. Qed.

(** Reading what was appended at the place it was appended at. *)
Lemma bytesAt_app pre x post off n : off = N.of_nat (length pre) -> n = N.of_nat (length x) ->
  bytesAt (pre ++ x ++ post) off n = Returns (GgufReader.le x).
Proof.
  intros -> ->. unfold bytesAt. rewrite !length_app, !Nat2N.id. rewrite (proj2 (N.leb_le _ _)) by lia.
  by rewrite drop_app_length, take_app_length.
Qed.

(** Reading inside a header. *)
Lemma bytesAt_header h d off n : (off + n <= N.of_nat (length h))%N ->
  bytesAt (h ++ d) off n = Returns (GgufReader.le (take (N.to_nat n) (drop (N.to_nat off) h))).
Proof.
  intros H. unfold bytesAt. rewrite length_app, (proj2 (N.leb_le _ _)) by lia.
  rewrite drop_app_le, take_app_le by (rewrite ?length_drop; lia). done.
Qed.

Lemma readU32_header h d off : (off + 4 <= N.of_nat (length h))%N ->
  readU32 (h ++ d) off = Returns (GgufReader.le (take 4 (drop (N.to_nat off) h))).
Proof. intros H. unfold readU32. rewrite length_app, (proj2 (N.ltb_ge _ _)), bytesAt_header by lia. done. Qed.

Lemma readU16_header h d off : (off + 2 <= N.of_nat (length h))%N ->
  readU16 (h ++ d) off = Returns (GgufReader.le (take 2 (drop (N.to_nat off) h))).
Proof. intros H. unfold readU16. rewrite length_app, (proj2 (N.ltb_ge _ _)), bytesAt_header by lia. done. Qed.

Lemma tagIs_header h d off tag : (off + 4 <= N.of_nat (length h))%N ->
  tagIs (h ++ d) off tag = Returns (GgufReader.le (take 4 (drop (N.to_nat off) h)) =? GgufReader.le (String.list_ascii_of_string tag))%N.
Proof. intros H. unfold tagIs. rewrite length_app, (proj2 (N.ltb_ge _ _)), bytesAt_header by lia. done. Qed.

(** *** The floats involved *)

Abbreviation fin := (FloatRound.fin 24 128).
Abbreviation val := (FloatRound.val 24 128).

Lemma fin_finite s m e : fin (S754_finite s m e) = true ->
  (-149 <= e <= 104 /\ Zpos m < 2 ^ 24 /\ (e = -149 \/ 2 ^ 23 <= Zpos m))%Z.
Proof.
  intros H. destruct (FloatRound.bounded_stored 24 128 ltac:(lia) m e H) as (H1 & H2 & H3 & H4).
  unfold emin in *. change (2 ^ (24 - 1))%Z with (2 ^ 23)%Z in H3. lia.
Qed.

(** Multiplying by one. *)
Lemma fmul_one s m e : fin (S754_finite s m e) = true ->
  Sampling.fmul (S754_finite s m e) (Sampling.fdiv Sampling.f1 (Sampling.f32_of_Z 1)) = S754_finite s m e.
Proof.
  intros H. change (Sampling.fdiv Sampling.f1 (Sampling.f32_of_Z 1)) with (S754_finite false 8388608 (-23)).
  unfold Sampling.fmul. cbn [SFmul]. rewrite xorb_false_r, FloatRound.round_aux_spec by lia.
  destruct (fin_finite s m e H) as (He & Hm & _). pose proof H as Hc. cbn [FloatRound.fin] in Hc. unfold bounded in Hc.
  apply andb_prop in Hc as [Hc Hle]. unfold canonical_mantissa in Hc. apply Z.eqb_eq in Hc.
  change (Zpos (digits2_pos m)) with (Zdigits2 (Zpos m)) in Hc.
  replace (Zpos (m * 8388608)) with (Zpos m * 2 ^ 23)%Z by lia. rewrite FloatRound.digits_scale by lia.
  replace (Zdigits2 (Zpos m) + 23 + (e + -23))%Z with (Zdigits2 (Zpos m) + e)%Z by lia. rewrite Hc.
  replace (Z.max 0 (e - (e + -23))) with 23%Z by lia. rewrite FloatRound.rne_exact by lia.
  unfold FloatRound.norm, FloatRound.pack. rewrite (proj2 (Z.eqb_neq _ _)) by lia. cbn [fst snd].
  replace (e + -23 + 23)%Z with e by lia. by rewrite Hle.
Qed.

(** Dividing by 2^15. *)
Lemma fdiv_32768 s m e : (2 ^ 23 <= Zpos m < 2 ^ 24)%Z -> (-100 <= e <= 104)%Z ->
  Sampling.fdiv (S754_finite s m e) (Sampling.f32_of_Z 32768) = S754_finite s m (e - 15).
Proof.
  intros Hm He. change (Sampling.f32_of_Z 32768) with (S754_finite false 8388608 (-8)).
  assert (Hd : Zdigits2 (Zpos m) = 24%Z) by by apply FloatRound.digits_unique.
  assert (Hd2 : Zdigits2 (2 * Zpos m) = 25%Z) by (apply FloatRound.digits_unique; lia).
  unfold Sampling.fdiv, SFdiv, SFdiv_core_binary. rewrite Hd. change (Zdigits2 8388608) with 24%Z.
  unfold fexp, emin. replace (Z.min (Z.max (24 + e - (24 + -8) - 24) (3 - 128 - 24)) (e - -8))%Z with (e - 16)%Z by lia.
  replace (e - -8 - (e - 16))%Z with 24%Z by lia. cbn iota. rewrite Z.shiftl_mul_pow2 by lia.
  assert (Hde : Z.div_eucl (Zpos m * 2 ^ 24) 8388608 = (2 * Zpos m, 0)%Z).
  { rewrite (surjective_pairing (Z.div_eucl _ _)). change (fst (Z.div_eucl (Zpos m * 2 ^ 24) 8388608)) with (Zpos m * 2 ^ 24 / 8388608)%Z.
    change (snd (Z.div_eucl (Zpos m * 2 ^ 24) 8388608)) with (Zpos m * 2 ^ 24 mod 8388608)%Z.
    replace (Zpos m * 2 ^ 24)%Z with (2 * Zpos m * 8388608)%Z by lia. by rewrite Z.div_mul, Z.mod_mul. }
  rewrite Hde. change (new_location 8388608 0) with loc_Exact. rewrite xorb_false_r, FloatRound.round_aux_spec by lia.
  rewrite Hd2. unfold fexp, emin. replace (Z.max 0 (Z.max (25 + (e - 16) - 24) (3 - 128 - 24) - (e - 16))) with 1%Z by lia.
  replace (2 * Zpos m)%Z with (Zpos m * 2 ^ 1)%Z by lia. rewrite FloatRound.rne_exact by lia.
  unfold FloatRound.norm, FloatRound.pack. rewrite (proj2 (Z.eqb_neq _ _)) by lia. cbn [fst snd].
  replace (e - 16 + 1)%Z with (e - 15)%Z by lia. rewrite (proj2 (Z.leb_le _ _)) by lia. done.
Qed.

(** The float a stored sample reads as. *)
Definition pcmValue (v : Z) : f32 := Sampling.fdiv (Sampling.f32_of_Z v) (Sampling.f32_of_Z 32768).

Lemma small_int v : v <> 0%Z -> (Z.abs v <= 2 ^ 15)%Z -> exists s m e, Sampling.f32_of_Z v = S754_finite s m e /\
  (2 ^ 23 <= Zpos m < 2 ^ 24 /\ -23 <= e <= 104)%Z /\ cond_Zopp s (Zpos m * 2 ^ (e + 149)) = (v * 2 ^ 149)%Z.
Proof.
  intros Hv Hb. assert (HR : FloatRound.R 24 (v * 2 ^ 149) = (v * 2 ^ 149)%Z).
  { unfold FloatRound.R. destruct (Z.ltb_spec (v * 2 ^ 149) 0); [|by apply FloatRound.Rpos_short; lia].
    rewrite <- Z.mul_opp_l, FloatRound.Rpos_short by lia. lia. }
  destruct (FloatRound.normalize_value 24 128 ltac:(lia) ltac:(lia) v 0) as [Hf Hval]; [done| |].
  { change (0 - emin 24 128)%Z with 149%Z. rewrite HR. unfold FloatRound.top. change (128 - emin 24 128)%Z with 277%Z. lia. }
  change (0 - emin 24 128)%Z with 149%Z in Hval. rewrite HR in Hval. fold (Sampling.f32_of_Z v) in Hf, Hval.
  destruct (Sampling.f32_of_Z v) as [s|s| |s m e]; try done; [cbn in Hval; lia|].
  destruct (fin_finite s m e Hf) as (He & Hm & Hc). cbn [FloatRound.val] in Hval.
  replace (e - emin 24 128)%Z with (e + 149)%Z in Hval by (unfold emin; lia). exists s, m, e. split; [done|].
  split; [|done]. assert (Hmag : (2 ^ 149 <= Zpos m * 2 ^ (e + 149))%Z) by (destruct s; cbn [cond_Zopp] in Hval; lia).
  assert (-23 <= e)%Z; [|lia]. destruct (Z.le_gt_cases (-23) e); [done|].
  pose proof (Z.pow_le_mono_r 2 (e + 149) 125 ltac:(lia) ltac:(lia)).
  assert (Zpos m * 2 ^ (e + 149) < 2 ^ 24 * 2 ^ 125)%Z by nia. lia.
Qed.

(** What was read is the stored number over 2^15, and averaging one channel keeps it. *)
Lemma pcmValue_spec v : (- 2 ^ 15 <= v < 2 ^ 15)%Z ->
  fin (pcmValue v) = true /\ val (pcmValue v) = (v * 2 ^ 134)%Z /\
  Sampling.fmul (Sampling.fadd Sampling.f0 (pcmValue v)) (Sampling.fdiv Sampling.f1 (Sampling.f32_of_Z 1)) = pcmValue v.
Proof.
  intros Hv. destruct (Z.eq_dec v 0%Z) as [->|Hv0]; [by vm_compute|].
  destruct (small_int v Hv0 ltac:(lia)) as (s & m & e & E & [Hm He] & Hval).
  assert (Ep : pcmValue v = S754_finite s m (e - 15)) by (unfold pcmValue; rewrite E; apply fdiv_32768; lia).
  assert (Hpow : (2 ^ (e + 149) = 2 ^ (e + 134) * 2 ^ 15)%Z) by (rewrite <- Z.pow_add_r by lia; f_equal; lia).
  assert (Hval' : cond_Zopp s (Zpos m * 2 ^ (e + 134)) = (v * 2 ^ 134)%Z).
  { rewrite Hpow in Hval. destruct s; cbn [cond_Zopp] in *; nia. }
  assert (Hf : fin (pcmValue v) = true).
  { rewrite Ep. cbn [FloatRound.fin]. rewrite <- (Pos2Z.id m). apply FloatRound.stored_bounded; try (unfold emin; lia).
    replace (e - 15 - emin 24 128)%Z with (e + 134)%Z by (unfold emin; lia). unfold FloatRound.top.
    change (128 - emin 24 128)%Z with 277%Z. destruct s; cbn [cond_Zopp] in Hval'; lia. }
  split; [done|]. split.
  - rewrite Ep. cbn [FloatRound.val]. replace (e - 15 - emin 24 128)%Z with (e + 134)%Z by (unfold emin; lia). done.
  - rewrite Ep in Hf |- *. exact (fmul_one s m (e - 15) Hf).
Qed.

Lemma s16_small v : (- 2 ^ 15 <= v < 2 ^ 15)%Z -> s16 v = v.
Proof. intros H. unfold s16. rewrite Z.mod_small by lia. lia. Qed.

Lemma le_pcm16 v : (- 2 ^ 15 <= v < 2 ^ 15)%Z -> s16 (Z.of_N (GgufReader.le (pcm16 v))) = v.
Proof.
  intros Hv. set (u := Z.to_N (v mod 2 ^ 16)). assert (Hu : (u < 2 ^ (8 * N.of_nat 2))%N).
  { unfold u. pose proof (Z.mod_pos_bound v (2 ^ 16)). change (2 ^ (8 * N.of_nat 2))%N with (Z.to_N (2 ^ 16)). lia. }
  replace (pcm16 v) with (putLE u 2) by (unfold putLE, pcm16; cbn [map seq N.of_nat N.mul]; by rewrite N.shiftr_0_r).
  rewrite (le_putLE u 2 Hu). unfold u. rewrite Z2N.id by (apply Z.mod_pos_bound; lia). unfold s16.
  rewrite Zplus_mod_idemp_l, Z.mod_small; lia.
Qed.

Lemma readFrames_pcm16 r vs : Forall (fun v => - 2 ^ 15 <= v < 2 ^ 15)%Z vs -> forall pre post,
  readFrames (pre ++ concat (map pcm16 vs) ++ post) (length vs) (N.of_nat (length pre)) 2 (mkFmt 1 1 r 16) =
  Returns (map pcmValue vs).
Proof.
  intros H. induction H as [|v vs Hv _ IH]; intros pre post; [done|]. cbn [map concat length readFrames channels fmt bits].
  change (N.to_nat 1) with 1. cbn [sumFrame]. unfold sampleToFloat. cbn [N.eqb Pos.eqb].
  rewrite <- (app_assoc (pcm16 v)), (bytesAt_app pre (pcm16 v)) by done. cbn [obind]. rewrite le_pcm16 by done.
  rewrite (app_assoc pre). replace (N.of_nat (length pre) + 2 * 1)%N with (N.of_nat (length (pre ++ pcm16 v)))
    by (rewrite length_app; cbn; lia).
  rewrite IH. cbn [obind]. f_equal. f_equal. by apply pcmValue_spec.
Qed.

(** Samples that can be written: their values as written. *)
Definition header (rate dataBytes : N) : list ascii :=
  putTag "RIFF" ++ putLE (u32 (36 + dataBytes)) 4 ++ putTag "WAVE" ++ putTag "fmt " ++ putLE 16 4 ++ putLE 1 2 ++
  putLE 1 2 ++ putLE rate 4 ++ putLE (u32 (rate * 2)) 4 ++ putLE 2 2 ++ putLE 16 2 ++ putTag "data" ++ putLE dataBytes 4.

(** Turns of the chunk walk. *)
Lemma walk_fmt b fuel off n F f d x : (off + 8 <= N.of_nat (length b))%N -> readU32 b (off + 4) = Returns n ->
  tagIs b off "fmt " = Returns true -> tagIs b off "data" = Returns x -> readFmt b (off + 8) n = Returns F ->
  (8 <= u32 (8 + n + N.land n 1))%N ->
  walk b (S fuel) off f d = walk b fuel (off + u32 (8 + n + N.land n 1)) (Some F) d.
Proof.
  intros H1 H2 H3 H4 H5 H6. cbn [walk]. rewrite (proj2 (N.leb_le _ _) H1), H2, H3, H4. cbn [obind]. rewrite H5.
  cbn [obind negb andb]. by rewrite (proj2 (N.ltb_ge _ _) H6).
Qed.

Lemma walk_data b fuel off n f d : (off + 8 <= N.of_nat (length b))%N -> readU32 b (off + 4) = Returns n ->
  tagIs b off "fmt " = Returns false -> tagIs b off "data" = Returns true ->
  (8 <= u32 (8 + n + N.land n 1))%N ->
  walk b (S fuel) off f d = walk b fuel (off + u32 (8 + n + N.land n 1)) f (Some (dataRange b (off + 8) n)).
Proof.
  intros H1 H2 H3 H4 H6. cbn [walk]. rewrite (proj2 (N.leb_le _ _) H1), H2, H3, H4. cbn [obind negb andb].
  by rewrite (proj2 (N.ltb_ge _ _) H6).
Qed.

Lemma walk_end b fuel off f d : (N.of_nat (length b) < off + 8)%N -> walk b fuel off f d = Returns (f, d).
Proof. intros H. destruct fuel; cbn [walk]; by rewrite (proj2 (N.leb_gt _ _) H). Qed.

Section Header.
Variables r n : N.
Hypothesis Hr : (r < 2 ^ 32)%N.
Hypothesis Hn : (n + 36 < 2 ^ 32)%N.
Variable data : list ascii.
Hypothesis Hd : N.of_nat (length data) = n.

Lemma header_tags : tagIs (header r n ++ data) 0 "RIFF" = Returns true /\ tagIs (header r n ++ data) 8 "WAVE" = Returns true /\
  tagIs (header r n ++ data) 12 "fmt " = Returns true /\ tagIs (header r n ++ data) 12 "data" = Returns false /\
  tagIs (header r n ++ data) 36 "fmt " = Returns false /\ tagIs (header r n ++ data) 36 "data" = Returns true.
Proof using. rewrite !tagIs_header by (clear; cbn; lia). done. Qed.

Lemma header_sizes : readU32 (header r n ++ data) (12 + 4) = Returns 16%N /\ readU32 (header r n ++ data) (36 + 4) = Returns n.
Proof using Hn.
  rewrite !readU32_header by (clear; cbn; lia). split; [done|].
  change (take 4 (drop (N.to_nat (36 + 4)) (header r n))) with (putLE n 4). by rewrite (le_putLE n 4) by (clear -Hn; cbn; lia).
Qed.

Lemma header_fmt : readFmt (header r n ++ data) (12 + 8) 16 = Returns (mkFmt 1 1 r 16).
Proof using Hr.
  unfold readFmt. change (16 <? 16)%N with false. cbn [orb]. rewrite length_app, (proj2 (N.ltb_ge _ _)) by (clear; cbn; lia).
  rewrite !readU16_header, readU32_header by (clear; cbn; lia). cbn [obind].
  change (take 4 (drop (N.to_nat (12 + 8 + 4)) (header r n))) with (putLE r 4). by rewrite (le_putLE r 4) by (clear -Hr; cbn; lia).
Qed.

Lemma walk_header : N.land n 1 = 0%N ->
  walk (header r n ++ data) (length (header r n ++ data)) 12 None None = Returns (Some (mkFmt 1 1 r 16), Some (44, n))%N.
Proof using Hr Hn Hd.
  intros Hev. destruct header_tags as (_ & _ & T1 & T2 & T3 & T4). destruct header_sizes as [S1 S2].
  assert (Hlen : length (header r n ++ data) = S (S (42 + length data))) by by rewrite length_app.
  assert (Hsz : N.of_nat (length (header r n ++ data)) = (44 + n)%N) by lia. rewrite Hlen.
  rewrite (walk_fmt _ _ _ 16 (mkFmt 1 1 r 16) _ _ false) by (done || apply header_fmt || (rewrite Hsz; lia)).
  change (12 + u32 (8 + 16 + N.land 16 1))%N with 36%N.
  assert (Hadv : u32 (8 + n + N.land n 1) = (8 + n)%N) by (rewrite Hev, N.add_0_r, u32_small; lia).
  rewrite (walk_data _ _ _ n) by (done || (rewrite ?Hadv, ?Hsz; lia)). rewrite Hadv, walk_end by (rewrite Hsz; lia).
  unfold dataRange. by rewrite Hsz, (proj2 (N.ltb_ge _ _)) by lia.
Qed.
End Header.

(** *** Quantisation *)

Definition clamped (s : f32) : f32 := clamp s (Sampling.f32_of_Z (-1)) Sampling.f1.

Lemma clamped_spec s : valid_binary 24 128 s = true -> Sampling.is_nan s = false ->
  fin (clamped s) = true /\ (Z.abs (val (clamped s)) <= 2 ^ 149)%Z.
Proof.
  intros Hv Hn. unfold clamped, clamp.
  assert (Hone : fin (Sampling.f32_of_Z (-1)) = true /\ fin Sampling.f1 = true) by (vm_compute; auto).
  assert (H1 : val (Sampling.f32_of_Z (-1)) = (- 2 ^ 149)%Z /\ val Sampling.f1 = (2 ^ 149)%Z) by (vm_compute; auto).
  destruct Hone as [Hf1 Hf2], H1 as [Hv1 Hv2].
  destruct (Sampling.flt s (Sampling.f32_of_Z (-1))) eqn:E1; [rewrite Hv1; split; [done|lia]|].
  destruct (Sampling.flt Sampling.f1 s) eqn:E2; [rewrite Hv2; split; [done|lia]|].
  assert (Hf : fin s = true) by by destruct s as [[]|[]| |[] m e].
  split; [done|]. unfold Sampling.flt in E1, E2. rewrite (FloatRound.ltb_value 24 128) in E1, E2 by (done || lia).
  apply Z.ltb_ge in E1, E2. rewrite Hv1 in E1. rewrite Hv2 in E2. lia.
Qed.

(** Rounding a finite float to an integer is off by at most a half. *)
Lemma lround_near s m e : (-158 <= e <= 30)%Z -> (Zpos m < 2 ^ 24)%Z -> exists v, lround (S754_finite s m e) = Some v /\
  (2 * Z.abs (v * 2 ^ 158 - cond_Zopp s (Zpos m * 2 ^ (e + 158))) <= 2 ^ 158)%Z.
Proof.
  intros He Hm. cbn [lround]. set (a := if (0 <=? e)%Z then _ else _).
  assert (Ha : (0 <= a < 2 ^ 55 /\ 2 * Z.abs (a * 2 ^ 158 - Zpos m * 2 ^ (e + 158)) <= 2 ^ 158)%Z).
  { unfold a. destruct (Z.leb_spec 0 e) as [H0|H0].
    - pose proof (Z.pow_le_mono_r 2 e 30 ltac:(lia) ltac:(lia)). pose proof (FloatRound.pow2_pos e H0).
      rewrite Z.pow_add_r, Z.mul_assoc, Z.sub_diag by lia. split; [nia|lia].
    - set (t := (- e)%Z). replace (- e - 1)%Z with (t - 1)%Z by lia. assert (Ht : (0 < t <= 158)%Z) by lia.
      assert (Hp : (2 ^ t = 2 * 2 ^ (t - 1))%Z) by (rewrite <- Z.pow_succ_r by lia; f_equal; lia).
      pose proof (FloatRound.pow2_pos (t - 1) ltac:(lia)) as Hp1.
      pose proof (Z.div_mod (Zpos m + 2 ^ (t - 1)) (2 ^ t) ltac:(lia)) as Hd.
      pose proof (Z.mod_pos_bound (Zpos m + 2 ^ (t - 1)) (2 ^ t) ltac:(lia)) as Hr.
      set (q := ((Zpos m + 2 ^ (t - 1)) / 2 ^ t)%Z) in *. split; [nia|].
      replace (e + 158)%Z with (158 - t)%Z by lia. pose proof (FloatRound.pow2_pos (158 - t) ltac:(lia)) as Hp2.
      assert (E158 : (2 ^ 158 = 2 ^ t * 2 ^ (158 - t))%Z) by (rewrite <- Z.pow_add_r by lia; f_equal; lia).
      rewrite E158. replace (q * (2 ^ t * 2 ^ (158 - t)) - Zpos m * 2 ^ (158 - t))%Z
        with ((q * 2 ^ t - Zpos m) * 2 ^ (158 - t))%Z by ring.
      rewrite Z.abs_mul, (Z.abs_eq (2 ^ (158 - t))) by lia. nia. }
  destruct Ha as [Ha1 Ha2]. exists (if s then (- a)%Z else a). split.
  - rewrite (proj2 (Z.leb_le _ _)), (proj2 (Z.ltb_lt _ _)) by (destruct s; lia). done.
  - destruct s; cbn [cond_Zopp]; lia.
Qed.

(** The product with 32767, exact up to a rounding. *)
Lemma scaled_near s m e : fin (S754_finite s m e) = true -> (Zpos m * 2 ^ (e + 149) <= 2 ^ 149)%Z ->
  exists v, lround (Sampling.fmul (S754_finite s m e) (Sampling.f32_of_Z 32767)) = Some v /\
    (2 * Z.abs (v * 2 ^ 158 - cond_Zopp s (Zpos m * 2 ^ (e + 149)) * 16776704) <= 2 ^ 158 + 2 ^ 149)%Z.
Proof.
  intros Hf Hmag. destruct (fin_finite s m e Hf) as (He & Hm & _).
  change (Sampling.f32_of_Z 32767) with (S754_finite false 16776704 (-9)).
  assert (He0 : (e <= 0)%Z) by (destruct (Z.le_gt_cases e 0); [done|]; pose proof (Z.pow_lt_mono_r 2 149 (e + 149)); nia).
  assert (Hme : (Zpos m <= 2 ^ (- e))%Z).
  { assert (H149 : (2 ^ 149 = 2 ^ (- e) * 2 ^ (e + 149))%Z) by (rewrite <- Z.pow_add_r by lia; f_equal; lia).
    pose proof (FloatRound.pow2_pos (e + 149) ltac:(lia)). nia. }
  unfold Sampling.fmul. cbn [SFmul]. rewrite xorb_false_r, FloatRound.round_aux_spec by lia.
  set (M := Zpos (m * 16776704)). assert (HM : M = (Zpos m * 16776704)%Z) by (unfold M; lia).
  destruct (FloatRound.digits_spec M ltac:(lia)) as [Hd0 [Hd1 Hd2]].
  assert (Hd : (Zdigits2 M <= 24 - e)%Z).
  { destruct (Z.le_gt_cases (Zdigits2 M) (24 - e)); [done|]. pose proof (Z.pow_le_mono_r 2 (24 - e) (Zdigits2 M - 1) ltac:(lia) ltac:(lia)) as Hp.
    replace (24 - e)%Z with (24 + - e)%Z in Hp by lia. rewrite Z.pow_add_r in Hp by lia. lia. }
  replace (e + -9)%Z with (e - 9)%Z by lia. set (k := Z.max 0 _).
  assert (Hk : (0 <= k /\ k <= - e /\ Zdigits2 M - k <= 24 /\ -149 <= e - 9 + k \/ k = -140 - e /\ 0 <= k /\ Zdigits2 M - k <= 24)%Z)
    by (unfold k, fexp, emin; lia).
  pose proof (FloatRound.rne_near M k ltac:(lia)) as Hnear. pose proof (FloatRound.rne_le_prec 24 ltac:(lia) M k ltac:(lia) ltac:(lia) ltac:(lia)) as Hle.
  set (m' := FloatRound.rne M k) in *.
  assert (Hclose : (2 * Z.abs (m' * 2 ^ (e - 9 + k + 158) - M * 2 ^ (e + 149)) <= 2 ^ 149)%Z).
  { replace (e - 9 + k + 158)%Z with (k + (e + 149))%Z by lia. rewrite Z.pow_add_r by lia.
    replace (m' * (2 ^ k * 2 ^ (e + 149)) - M * 2 ^ (e + 149))%Z with ((m' * 2 ^ k - M) * 2 ^ (e + 149))%Z by ring.
    pose proof (FloatRound.pow2_pos (e + 149) ltac:(lia)). rewrite Z.abs_mul, (Z.abs_eq (2 ^ (e + 149))) by lia.
    assert (2 ^ k * 2 ^ (e + 149) <= 2 ^ 149)%Z by (rewrite <- Z.pow_add_r by lia; apply Z.pow_le_mono_r; lia). nia. }
  assert (Hstored : exists m2 e2, FloatRound.norm 24 m' (e - 9 + k) = (m2, e2) /\ (0 <= m2 < 2 ^ 24 /\ -158 <= e2 <= 30)%Z /\
    (m2 * 2 ^ (e2 + 158) = m' * 2 ^ (e - 9 + k + 158))%Z).
  { unfold FloatRound.norm. destruct (Z.eqb_spec m' (2 ^ 24)) as [E|E].
    - exists (2 ^ (24 - 1))%Z, (e - 9 + k + 1)%Z. split; [done|]. split; [lia|]. rewrite E.
      replace (e - 9 + k + 1 + 158)%Z with (1 + (e - 9 + k + 158))%Z by lia. rewrite (Z.pow_add_r 2 1) by lia. lia.
    - exists m', (e - 9 + k)%Z. split; [done|]. split; [lia|done]. }
  destruct Hstored as (m2 & e2 & -> & [Hm2 He2] & Hv2). rewrite <- Hv2 in Hclose. rewrite HM in Hclose.
  unfold FloatRound.pack. cbn [fst snd]. destruct m2 as [|p|p]; [|rewrite (proj2 (Z.leb_le e2 (128 - 24))) by lia|lia].
  - exists 0%Z. split; [done|]. destruct s; cbn [cond_Zopp]; lia.
  - destruct (lround_near s p e2 He2 ltac:(lia)) as (v & -> & Hv). exists v. split; [done|].
    destruct s; cbn [cond_Zopp] in *; lia.
Qed.

Lemma toI16_near s : valid_binary 24 128 s = true -> Sampling.is_nan s = false ->
  exists v, toI16 s = Some v /\ (- 2 ^ 15 <= v < 2 ^ 15)%Z /\
    (2 * Z.abs (v * 2 ^ 134 - val (clamped s)) <= 3 * 2 ^ 134 + 2 ^ 125)%Z.
Proof.
  intros Hv Hn. destruct (clamped_spec s Hv Hn) as [Hf Hb]. unfold toI16. fold (clamped s).
  destruct (clamped s) as [b|b| |b m e]; try done.
  - exists 0%Z. change (Sampling.fmul (S754_zero b) (Sampling.f32_of_Z 32767)) with (S754_zero (xorb b false)). cbn [lround mbind option_bind].
    split; [done|]. cbn [FloatRound.val]. lia.
  - destruct (fin_finite b m e Hf) as (He & Hm & _). cbn [FloatRound.val] in Hb.
    replace (e - emin 24 128)%Z with (e + 149)%Z in Hb by (unfold emin; lia).
    pose proof (FloatRound.pow2_pos (e + 149) ltac:(lia)).
    destruct (scaled_near b m e Hf ltac:(destruct b; cbn [cond_Zopp] in Hb; lia)) as (v & -> & Hnear).
    assert (Hr : (- 2 ^ 15 <= v < 2 ^ 15)%Z) by (destruct b; cbn [cond_Zopp] in *; lia).
    exists v. cbn [mbind option_bind]. rewrite s16_small by done. split; [done|]. split; [done|].
    cbn [FloatRound.val]. replace (e - emin 24 128)%Z with (e + 149)%Z by (unfold emin; lia).
    destruct b; cbn [cond_Zopp] in *; lia.
Qed.

(** A clip that was written and read again has its sample rate and as many samples,
    each within 1.51 steps of 2^-15 of the original clamped to [-1, 1].  Hypotheses: the
    samples are floats that are numbers, and the file's 32-bit sizes can hold them. *)
Theorem wav_roundtrip mono rate :
  Forall (fun s => valid_binary 24 128 s = true /\ Sampling.is_nan s = false) mono ->
  (rate < 2 ^ 31)%Z -> (2 * Z.of_nat (length mono) + 36 < 2 ^ 32)%Z ->
  exists file out, encodePcm16 mono rate = Some file /\
    decode file = Returns (mkClip out (if (0 <? rate)%Z then rate else 24000)%Z) /\
    Forall2 (fun s d => fin d = true /\ (2 * Z.abs (val d - val (clamped s)) <= 3 * 2 ^ 134 + 2 ^ 125)%Z) mono out.
Proof.
  intros Hm Hrate Hlen.
  assert (Hq : exists vs, mapM toI16 mono = Some vs /\ Forall (fun v => - 2 ^ 15 <= v < 2 ^ 15)%Z vs /\
    Forall2 (fun s v => (2 * Z.abs (v * 2 ^ 134 - val (clamped s)) <= 3 * 2 ^ 134 + 2 ^ 125)%Z) mono vs).
  { clear Hlen. induction Hm as [|s mono [Hv Hn] _ (vs & IH1 & IH2 & IH3)]; [by exists []|].
    destruct (toI16_near s Hv Hn) as (v & E & Hr & Hb). exists (v :: vs). cbn. rewrite E. cbn. rewrite IH1. cbn.
    split; [done|]. split; by constructor. }
  destruct Hq as (vs & Evs & Hvs & Hnear). pose proof (Forall2_length _ _ _ Hnear) as Hl.
  set (r := if (0 <? rate)%Z then Z.to_N rate else 24000%N). assert (Hr : (0 < r < 2 ^ 31)%N).
  { unfold r. destruct (Z.ltb_spec 0 rate); lia. }
  set (n := N.of_nat (length mono + length mono)).
  assert (Hn : u32 (u32 (N.of_nat (length mono)) * 2) = n) by (rewrite (u32_small (N.of_nat (length mono))), u32_small by lia; unfold n; lia).
  set (data := concat (map pcm16 vs)).
  assert (Hdata : length data = length mono + length mono).
  { unfold data. rewrite Hl. clear. induction vs as [|v vs IH]; [done|]. cbn [map concat length]. rewrite length_app. cbn. lia. }
  exists (header r n ++ data), (map pcmValue vs). split; [|split].
  - unfold encodePcm16, encodeRawPcm16. rewrite Evs. cbn [mbind option_bind]. fold r. rewrite Hn. fold data.
    unfold header. by rewrite !app_assoc.
  - unfold decode. destruct (header_tags r n data) as (T1 & T2 & _). rewrite T1, T2.
    rewrite (proj2 (N.ltb_ge _ _)) by (rewrite length_app; cbn; lia). cbn [obind negb].
    assert (Hev : N.land n 1 = 0%N).
    { change 1%N with (N.ones 1). rewrite N.land_ones. unfold n. rewrite Nat2N.inj_add.
      replace (N.of_nat (length mono) + N.of_nat (length mono))%N with (N.of_nat (length mono) * 2 ^ 1)%N by lia. by apply N.Div0.mod_mul. }
    rewrite (walk_header r n) by (lia || done). cbn [obind fst snd]. unfold decodeData.
    cbn [fmt channels WavReader.rate bits N.eqb Pos.eqb negb andb]. rewrite (proj2 (N.eqb_neq _ _)) by lia.
    change (16 / 8)%N with 2%N. cbn [N.eqb]. replace (N.to_nat (n / (2 * 1))) with (length vs).
    2: { unfold n. rewrite Nat2N.inj_add. replace (N.of_nat (length mono) + N.of_nat (length mono))%N with (N.of_nat (length mono) * 2)%N by lia.
      change (2 * 1)%N with 2%N. rewrite N.div_mul by done. lia. }
    pose proof (readFrames_pcm16 r vs Hvs (header r n) []) as Hrf. rewrite app_nil_r in Hrf. fold data in Hrf.
    change (N.of_nat (length (header r n))) with 44%N in Hrf. rewrite Hrf. cbn [obind]. do 2 f_equal.
    rewrite s32_small by (unfold in_s32; lia). unfold r. destruct (Z.ltb_spec 0 rate); [apply Z2N.id; lia|done].
  - apply Forall2_fmap_r, Forall2_same_length_lookup. split; [done|]. intros i s v Hs Hv'.
    pose proof (Forall_lookup_1 _ _ _ _ Hvs Hv') as Hrng. destruct (pcmValue_spec v Hrng) as (H1 & H2 & _).
    split; [done|]. cbn beta. rewrite H2. exact (Forall2_lookup_lr _ _ _ _ _ _ Hnear Hs Hv').
Qed.

(** ** On concrete inputs *)

Definition half : f32 := S754_finite false 8388608 (-24).

Lemma wav_roundtrip_witness : exists file out, encodePcm16 [half; Sampling.f32_of_Z 2; S754_zero true] 16000 = Some file /\
  decode file = Returns (mkClip out 16000) /\
  Forall2 (fun s d => fin d = true /\ (2 * Z.abs (val d - val (clamped s)) <= 3 * 2 ^ 134 + 2 ^ 125)%Z)
    [half; Sampling.f32_of_Z 2; S754_zero true] out.
Proof.
  refine (wav_roundtrip [half; Sampling.f32_of_Z 2; S754_zero true] 16000 _ _ _).
  - repeat constructor.
  - lia.
  - cbn. lia.
Defined.

(** Full scale is not read back as full scale: it is written as 32767 and divided by
    32768. *)
Example full_scale_not_inverse : option_map decode (encodePcm16 [Sampling.f1] 16000) =
  Some (Returns (mkClip [S754_finite false 16776704 (-24)] 16000)).
Proof. vm_compute. reflexivity. Qed.

Definition wav_of (rate : N) (dataSize : N) (data : list ascii) : list ascii :=
  putTag "RIFF" ++ putLE 0 4 ++ putTag "WAVE" ++ putTag "fmt " ++ putLE 16 4 ++ putLE 1 2 ++ putLE 1 2 ++ putLE rate 4 ++
  putLE 0 4 ++ putLE 2 2 ++ putLE 16 2 ++ putTag "data" ++ putLE dataSize 4 ++ data.

(** A data chunk of unknown length, size 2^32 - 1, is not skipped: the size of the step
    wraps to 8 and the audio itself is searched for chunks. *)
Example unknown_length_rescans :
  decode (wav_of 16000 (2 ^ 32 - 1) (putTag "data" ++ putLE 2 4 ++ putLE 256 2 ++ putLE 512 2)) =
    Returns (mkClip [pcmValue 256] 16000) /\
  decode (wav_of 16000 12 (putTag "data" ++ putLE 2 4 ++ putLE 256 2 ++ putLE 512 2)) =
    Returns (mkClip (map pcmValue [24932; 24948; 2; 0; 256; 512]%Z) 16000).
Proof. split; vm_compute; reflexivity. Qed.

(** A sample rate of 2^31 or more is stored negative, and resampling asks for a vector of
    a negative size. *)
Example high_rate_negative : decode (wav_of (2 ^ 31) 2 (putLE 256 2)) = Returns (mkClip [pcmValue 256] (- 2 ^ 31)) /\
  decodeToMono (wav_of (2 ^ 32 - 2) 2 (putLE 256 2)) 16000 = Throws (LengthError "vector::_M_default_append").
Proof. split; vm_compute; reflexivity. Qed.
End WavProofs.
