(* ===== verification/Xlmr.v ===== *)
(** * The XLM-R tokenizer

    Models [src/src/model/XlmRobertaTokenizer.cpp]: reading a SentencePiece model, the
    normalisation, the Viterbi segmentation on binary32 scores and the framing of
    pairs.  A pointer moved or read past the end of the file is [Undefined]; a piece
    length above the largest string throws, as [std::string::assign] does. *)

From Stdlib Require Import Ascii SpecFloat.
From S2P Require Import Prelude Sampling Gguf Floats FloatRound Tokenizer.
Import Floats GgufReader.

Module Xlmr.

Abbreviation kMeta := Tokenizer.kSpaceMarker.

Definition kBos : Z := 0.
Definition kPad : Z := 1.
Definition kEos : Z := 2.
Definition kUnk : Z := 3.

(** [src/src/model/XlmRobertaTokenizer.hpp:64-68 Piece] *)
Record Piece := mkPiece {
  text : string;
  score : f32;
  type : Z;
}.

(** [src/src/model/XlmRobertaTokenizer.hpp:73-76 XlmRobertaTokenizer] *)
Record XlmRobertaTokenizer := mkXlmr {
  _pieces : list Piece;
  _pieceToId : gmap string Z;
  _unkSpId : Z;
  _maxPieceChars : nat;
}.

Definition newXlmr : XlmRobertaTokenizer := mkXlmr [] ∅ 0 1.

Definition fail {A} (msg : string) : outcome A := Throws (RuntimeError ("XlmRobertaTokenizer: " +:+ msg)).

(** ** Reading the model file *)

Section Load.
Variable buf : list ascii.
Abbreviation size := (N.of_nat (length buf)).

(** The value and the position behind it; [None] is a truncated or overlong number.
    Ten bytes shift past 63.
    [src/src/model/XlmRobertaTokenizer.cpp:27-42 readVarint] *)
Fixpoint varintFrom (fuel : nat) (e p shift val : N) : option (N * N) :=
  match fuel with
  | 0 => None
  | S fuel =>
      if (p <? e)%N then
        c ← buf !! N.to_nat p;
        let b := N_of_ascii c in
        let val := N.lor val (u64 (N.shiftl (N.land b 127) shift)) in
        if (N.land b 128 =? 0)%N then Some (val, p + 1)%N
        else if (63 <? shift + 7)%N then None
        else varintFrom fuel e (p + 1) (shift + 7) val
      else None
  end.

(** [src/src/model/XlmRobertaTokenizer.cpp:27-42 readVarint] *)
Definition readVarint (e p : N) : outcome (N * N) :=
  match varintFrom 10 e p 0 0 with Some r => Returns r | None => fail "truncated varint" end.

(** The cursor moved on by [n] bytes. *)
Definition advance (p n : N) : outcome N := if (p + n <=? size)%N then Returns (p + n)%N else Undefined.

Definition slice (p n : N) : list ascii := take (N.to_nat n) (drop (N.to_nat p) buf).

Definition max_string : N := 2 ^ 63 - 1.

(** The fields of one piece, up to [e]; every field takes at least a byte.
    [src/src/model/XlmRobertaTokenizer.cpp:87-111 XlmRobertaTokenizer::load] *)
Fixpoint readPiece (fuel : nat) (e p : N) (piece : Piece) : outcome Piece :=
  if (p <? e)%N then
    match fuel with
    | 0 => Undefined
    | S fuel =>
        obind! tp := readVarint e p in
        let f2 := u32 (N.shiftr (fst tp) 3) in
        let w2 := N.land (fst tp) 7 in
        let p := snd tp in
        if (f2 =? 1)%N && (w2 =? 2)%N then
          obind! lp := readVarint e p in
          if (max_string <? fst lp)%N then Throws (LengthError "basic_string::_M_replace")
          else
            obind! q := advance (snd lp) (fst lp) in
            readPiece fuel e q (mkPiece (String.string_of_list_ascii (slice (snd lp) (fst lp))) (score piece) (type piece))
        else if (f2 =? 2)%N && (w2 =? 5)%N then
          obind! q := advance p 4 in
          readPiece fuel e q (mkPiece (text piece) (ieee 23 8 (GgufReader.le (slice p 4))) (type piece))
        else if (f2 =? 3)%N && (w2 =? 0)%N then
          obind! vp := readVarint e p in
          readPiece fuel e (snd vp) (mkPiece (text piece) (score piece) (s32 (Z.of_N (fst vp))))
        else if (w2 =? 0)%N then obind! vp := readVarint e p in readPiece fuel e (snd vp) piece
        else if (w2 =? 2)%N then
          obind! lp := readVarint e p in
          obind! q := advance (snd lp) (fst lp) in readPiece fuel e q piece
        else if (w2 =? 5)%N then obind! q := advance p 4 in readPiece fuel e q piece
        else if (w2 =? 1)%N then obind! q := advance p 8 in readPiece fuel e q piece
        else fail "bad wire"
    end
  else Returns piece.

Definition newPiece : Piece := mkPiece EmptyString (S754_zero false) 1.

(** The pieces read so far survive an exception.
    [src/src/model/XlmRobertaTokenizer.cpp:71-122 XlmRobertaTokenizer::load] *)
Fixpoint readModel (fuel : nat) (p : N) (pieces : list Piece) : outcome unit * list Piece :=
  if (p <? size)%N then
    match fuel with
    | 0 => (Undefined, pieces)
    | S fuel =>
        match readVarint size p with
        | Returns (tag, p) =>
            let fn := u32 (N.shiftr tag 3) in
            let wt := N.land tag 7 in
            let move q := match q with Returns q => readModel fuel q pieces | Throws x => (Throws x, pieces) | Undefined => (Undefined, pieces) end in
            if (wt =? 2)%N then
              match readVarint size p with
              | Returns (len, p) =>
                  if (size - p <? len)%N then (fail "truncated field", pieces)
                  else if (fn =? 1)%N then
                    match readPiece (length buf) (p + len) p newPiece with
                    | Returns piece => readModel fuel (p + len) (pieces ++ [piece])
                    | Throws x => (Throws x, pieces)
                    | Undefined => (Undefined, pieces)
                    end
                  else readModel fuel (p + len) pieces
              | Throws x => (Throws x, pieces)
              | Undefined => (Undefined, pieces)
              end
            else if (wt =? 0)%N then move (obind! vp := readVarint size p in Returns (snd vp))
            else if (wt =? 5)%N then move (advance p 4)
            else if (wt =? 1)%N then move (advance p 8)
            else (fail "bad top-level wire", pieces)
        | Throws x => (Throws x, pieces)
        | Undefined => (Undefined, pieces)
        end
    end
  else (Returns tt, pieces).
End Load.

(** [src/src/model/XlmRobertaTokenizer.cpp:45-53 utf8Len] *)
Definition isLead (c : ascii) : bool := negb (N.land (N_of_ascii c) 192 =? 128)%N.
Definition utf8Len (s : string) : nat := count_if isLead (String.list_ascii_of_string s).

(** The index over all pieces, from piece [i].
    [src/src/model/XlmRobertaTokenizer.cpp:128-140 XlmRobertaTokenizer::load] *)
Fixpoint indexPieces (i : nat) (l : list Piece) (t : XlmRobertaTokenizer) : XlmRobertaTokenizer :=
  match l with
  | [] => t
  | p :: l =>
      let id := s32 (Z.of_nat i) in
      indexPieces (S i) l
        (mkXlmr (_pieces t) (emplace (text p) id (_pieceToId t)) (if (type p =? 2)%Z then id else _unkSpId t)
           (Nat.max (_maxPieceChars t) (utf8Len (text p))))
  end.

(** [None]: the file cannot be opened.
    [src/src/model/XlmRobertaTokenizer.cpp:57-141 XlmRobertaTokenizer::load] *)
Definition load (path : string) (file : option (list ascii)) (t : XlmRobertaTokenizer)
    : outcome unit * XlmRobertaTokenizer :=
  match file with
  | None => (fail ("cannot open " +:+ path), t)
  | Some buf =>
      let '(o, pieces) := readModel buf (length buf) 0 (_pieces t) in
      let t := mkXlmr pieces (_pieceToId t) (_unkSpId t) (_maxPieceChars t) in
      match o with
      | Returns _ =>
          if length pieces =? 0 then (fail "no pieces parsed", t)
          else (Returns tt, indexPieces 0 pieces (mkXlmr pieces (_pieceToId t) (_unkSpId t) 1))
      | _ => (o, t)
      end
  end.

(** ** Normalisation *)

Definition isSpace (c : ascii) : bool :=
  existsb (fun n => (N_of_ascii c =? n)%N) [32; 9; 10; 13; 12; 11]%N.

(** Runs of white space between words become one space.
    [src/src/model/XlmRobertaTokenizer.cpp:145-162 XlmRobertaTokenizer::normalize] *)
Fixpoint collapse (inWs started : bool) (s : string) : string :=
  match s with
  | EmptyString => EmptyString
  | String.String c s =>
      if isSpace c then collapse true started s
      else (if inWs && started then " " else EmptyString) +:+ String.String c (collapse false true s)
  end.

(** [src/src/model/XlmRobertaTokenizer.cpp:143-176 XlmRobertaTokenizer::normalize] *)
Definition normalize (s : string) : string := Tokenizer.normalizeForSpm (collapse false false s) true.

(** ** Segmentation *)

(** Offsets at which a codepoint begins, and the end.
    [src/src/model/XlmRobertaTokenizer.cpp:181-188 XlmRobertaTokenizer::viterbi] *)
Definition starts (norm : string) : list nat :=
  List.filter (fun i => match String.get i norm with Some c => isLead c | None => false end) (seq 0 (String.length norm))
  ++ [String.length norm].

Definition at_ (l : list nat) (i : nat) : nat := nth i l 0.

(** The codepoints [j] to [i]. *)
Definition sub (norm : string) (j i : nat) : string :=
  String.substring (at_ (starts norm) j) (at_ (starts norm) i - at_ (starts norm) j) norm.

Definition kNegInf : f32 := S754_infinity true.
Definition kUnkPenalty : f32 := Sampling.f32_of_Z (-100).

(** One entry of the three arrays. *)
Record Cell := mkCell {
  best : f32;
  backJ : nat;
  backId : Z;
}.

(** [v[id]] for an id of the index. *)
Definition index {A} (l : list A) (id : Z) : option A := if (id <? 0)%Z then None else l !! Z.to_nat id.

Section Viterbi.
Variable t : XlmRobertaTokenizer.
Variable norm : string.

(** The candidates [j], [j + 1], ... ending at [i]; [None] is a read outside a vector.
    [src/src/model/XlmRobertaTokenizer.cpp:200-216 XlmRobertaTokenizer::viterbi] *)
Fixpoint tryFrom (cells : list Cell) (i : nat) (js : list nat) (c : Cell) : option Cell :=
  match js with
  | [] => Some c
  | j :: js =>
      cj ← cells !! j;
      if Sampling.feq (best cj) kNegInf then tryFrom cells i js c
      else
        match _pieceToId t !! sub norm j i with
        | Some id =>
            p ← index (_pieces t) id;
            let sc := Sampling.fadd (best cj) (score p) in
            tryFrom cells i js (if Sampling.flt (best c) sc then mkCell sc j id else c)
        | None => tryFrom cells i js c
        end
  end.

(** [src/src/model/XlmRobertaTokenizer.cpp:198-222 XlmRobertaTokenizer::viterbi] *)
Definition cellAt (cells : list Cell) (i : nat) : option Cell :=
  let lo := if _maxPieceChars t <? i then i - _maxPieceChars t else 0 in
  c ← tryFrom cells i (seq lo (i - lo)) (mkCell kNegInf 0 (_unkSpId t));
  if Sampling.feq (best c) kNegInf then
    p ← cells !! (i - 1);
    Some (mkCell (Sampling.fadd (best p) kUnkPenalty) (i - 1) (_unkSpId t))
  else Some c.

(** The cells 0 to [n].
    [src/src/model/XlmRobertaTokenizer.cpp:190-222 XlmRobertaTokenizer::viterbi] *)
Fixpoint cellsTo (n : nat) : option (list Cell) :=
  match n with
  | 0 => Some [mkCell (S754_zero false) 0 (_unkSpId t)]
  | S n => cells ← cellsTo n; c ← cellAt cells (S n); Some (cells ++ [c])
  end.

(** The ids back from [i]; every step goes left.
    [src/src/model/XlmRobertaTokenizer.cpp:224-231 XlmRobertaTokenizer::viterbi] *)
Fixpoint backFrom (fuel : nat) (cells : list Cell) (i : nat) (ids : list Z) : option (list Z) :=
  match i, fuel with
  | 0, _ => Some ids
  | S _, 0 => None
  | S _, S fuel =>
      c ← cells !! i;
      backFrom fuel cells (backJ c) (backId c :: ids)
  end.

(** [src/src/model/XlmRobertaTokenizer.cpp:178-232 XlmRobertaTokenizer::viterbi] *)
Definition viterbi : option (list Z) :=
  let n := length (starts norm) - 1 in
  cells ← cellsTo n;
  backFrom n cells n [].
End Viterbi.

(** [src/src/model/XlmRobertaTokenizer.cpp:234-244 XlmRobertaTokenizer::encode] *)
Definition encode (t : XlmRobertaTokenizer) (s : string) : option (list Z) :=
  sp ← viterbi t (normalize s);
  Some (map (fun id => if (id =? _unkSpId t)%Z then kUnk else s32 (id + 1)) sp).

(** [src/src/model/XlmRobertaTokenizer.cpp:246-261 XlmRobertaTokenizer::encodePair] *)
Definition encodePair (t : XlmRobertaTokenizer) (query passage : string) : option (list Z) :=
  q ← encode t query;
  p ← encode t passage;
  Some (kBos :: q ++ [kEos; kEos] ++ p ++ [kEos]).

(** [src/src/model/XlmRobertaTokenizer.cpp:263-272 XlmRobertaTokenizer::encodeSingle] *)
Definition encodeSingle (t : XlmRobertaTokenizer) (s : string) : option (list Z) :=
  ids ← encode t s;
  Some (kBos :: ids ++ [kEos]).
End Xlmr.
