(* ===== verification/XlmrProofs.v ===== *)
(** * The XLM-R segmentation is optimal

    A [cut] of the normalised text is made of pieces of the vocabulary and single unknown
    codepoints; a [walk] is a cut that leaves a codepoint unknown only where no piece ends,
    which are the cuts the code looks at.  The cells of the Viterbi table hold the best
    score of any walk to their position; under [singlesCovered] no cut is better. *)

From Stdlib Require Import Ascii SpecFloat.
From S2P Require Import Prelude Sampling Gguf Floats FloatRound Tokenizer Xlmr.
Import Sampling GgufReader Xlmr.

Module XlmrProofs.

(** ** Scores *)

Abbreviation fin := (FloatRound.fin 24 128).
Abbreviation val := (FloatRound.val 24 128).
Abbreviation R := (FloatRound.R 24).

(** 2^126 in units of the smallest float: a sum of magnitude [limit] and a score of
    magnitude 2^100 round back to [limit] at most. *)
Definition limit : Z := (2 ^ 275)%Z.
Definition small : Z := (2 ^ 249)%Z.

Definition summed (x : f32) : Prop := fin x = true /\ (Z.abs (val x) <= limit)%Z.
Definition scored (x : f32) : Prop := fin x = true /\ (Z.abs (val x) <= small)%Z.

Lemma R_limit : R (limit + small) = limit.
Proof. vm_compute. reflexivity. Qed.

Lemma R_le z : (Z.abs z <= limit + small)%Z -> (Z.abs (R z) <= limit)%Z.
Proof.
  intros Hz. pose proof (FloatRound.R_mono 24 ltac:(lia) z (limit + small) ltac:(lia)) as H1.
  pose proof (FloatRound.R_mono 24 ltac:(lia) (- (limit + small)) z ltac:(lia)) as H2.
  rewrite FloatRound.R_opp in H2 by lia. rewrite R_limit in H1, H2. lia.
Qed.

Lemma fadd_value x y : summed x -> scored y ->
  summed (Sampling.fadd x y) /\ val (Sampling.fadd x y) = R (val x + val y).
Proof.
  intros [Hx Hvx] [Hy Hvy]. pose proof (R_le (val x + val y) ltac:(lia)) as Hr.
  assert (Ht : (limit < FloatRound.top 24 128)%Z) by (vm_compute; reflexivity).
  destruct (FloatRound.add_value 24 128 ltac:(lia) ltac:(lia) x y Hx Hy ltac:(lia)) as [Hf Hv].
  unfold summed, Sampling.fadd. rewrite Hv. done.
Qed.

Lemma fadd_mono x x' y : summed x -> summed x' -> scored y -> (val x <= val x')%Z ->
  (val (Sampling.fadd x y) <= val (Sampling.fadd x' y))%Z.
Proof.
  intros Hx Hx' Hy Hle. rewrite (proj2 (fadd_value x y Hx Hy)), (proj2 (fadd_value x' y Hx' Hy)).
  apply FloatRound.R_mono; lia.
Qed.

Lemma fadd_mono_r x y y' : summed x -> scored y -> scored y' -> (val y <= val y')%Z ->
  (val (Sampling.fadd x y) <= val (Sampling.fadd x y'))%Z.
Proof.
  intros Hx Hy Hy' Hle. rewrite (proj2 (fadd_value x y Hx Hy)), (proj2 (fadd_value x y' Hx Hy')).
  apply FloatRound.R_mono; lia.
Qed.

Lemma penalty_scored : scored kUnkPenalty.
Proof. split; [vm_compute; reflexivity|]. vm_compute. discriminate. Qed.

Lemma zero_summed : summed (S754_zero false).
Proof. split; [reflexivity|]. vm_compute. discriminate. Qed.

Lemma feq_summed x : summed x -> Sampling.feq x kNegInf = false.
Proof. intros [Hf _]. by destruct x as [[]|[]| |[] m e]. Qed.

Lemma flt_neg x : summed x -> Sampling.flt kNegInf x = true.
Proof. intros [Hf _]. by destruct x as [[]|[]| |[] m e]. Qed.

Lemma flt_summed x y : summed x -> summed y -> Sampling.flt x y = (val x <? val y)%Z.
Proof. intros [Hx _] [Hy _]. by apply FloatRound.ltb_value. Qed.

(** ** The index *)

(** What [load] builds: every index entry names its piece. *)
Definition coherent (t : XlmRobertaTokenizer) : Prop :=
  forall s id, _pieceToId t !! s = Some id ->
    exists p, index (_pieces t) id = Some p /\ text p = s /\ utf8Len s <= _maxPieceChars t.

Definition scoredPieces (t : XlmRobertaTokenizer) : Prop := Forall (fun p => scored (score p)) (_pieces t).

(** ** Codepoint offsets *)

Section Offsets.
Variable P : nat -> bool.

(** The offsets at or above [s] where [P] holds, and the end. *)
Abbreviation offs s k := (List.filter P (seq s k) ++ [s + k]).

Lemma offs_ge k : forall s j, j <= length (List.filter P (seq s k)) -> s <= nth j (offs s k) 0 <= s + k.
Proof using.
  induction k as [|k IH]; intros s j; cbn [seq List.filter app length].
  - intros Hj. assert (j = 0) as -> by lia. cbn. lia.
  - destruct (P s); cbn [length app]; intros Hj.
    + destruct j as [|j]; cbn [nth]; [lia|]. pose proof (IH (S s) j ltac:(lia)). replace (s + S k) with (S s + k) by lia. lia.
    + pose proof (IH (S s) j Hj). replace (s + S k) with (S s + k) by lia. lia.
Qed.

(** There are [j] of them below the [j]-th. *)
Lemma offs_count k : forall s j, j <= length (List.filter P (seq s k)) ->
  count_if P (seq s (nth j (offs s k) 0 - s)) = j.
Proof using.
  induction k as [|k IH]; intros s j; cbn [seq List.filter app length].
  - intros Hj. assert (j = 0) as -> by lia. cbn. by replace (s + 0 - s) with 0 by lia.
  - destruct (P s) eqn:HP; cbn [length app]; intros Hj.
    + destruct j as [|j]; cbn [nth]; [by replace (s - s) with 0 by lia|].
      pose proof (offs_ge k (S s) j ltac:(lia)) as Hge. replace (s + S k) with (S s + k) by lia.
      replace (nth j (offs (S s) k) 0 - s) with (S (nth j (offs (S s) k) 0 - S s)) by lia.
      cbn [seq count_if]. rewrite HP, IH by lia. done.
    + pose proof (offs_ge k (S s) j Hj) as Hge. replace (s + S k) with (S s + k) by lia.
      replace (nth j (offs (S s) k) 0 - s) with (S (nth j (offs (S s) k) 0 - S s)) by lia.
      cbn [seq count_if]. rewrite HP, IH by lia. done.
Qed.

Lemma seq_count a b : a <= b -> count_if P (seq 0 b) = count_if P (seq 0 a) + count_if P (seq a (b - a)).
Proof using. intros H. rewrite <- count_if_app. f_equal. replace b with (a + (b - a)) at 1 by lia. apply seq_app. Qed.

Lemma offs_between k j i : j <= i -> i <= length (List.filter P (seq 0 k)) ->
  nth j (offs 0 k) 0 <= nth i (offs 0 k) 0 /\
  count_if P (seq (nth j (offs 0 k) 0) (nth i (offs 0 k) 0 - nth j (offs 0 k) 0)) = i - j.
Proof using.
  intros Hji Hi. destruct (decide (j = i)) as [->|Hne]; [by rewrite !Nat.sub_diag|].
  pose proof (offs_count k 0 j ltac:(lia)) as Hj. pose proof (offs_count k 0 i ltac:(lia)) as Hc.
  set (a := nth j (offs 0 k) 0) in *. set (b := nth i (offs 0 k) 0) in *. rewrite Nat.sub_0_r in Hj, Hc.
  destruct (Nat.le_gt_cases a b) as [Hab|Hab].
  - pose proof (seq_count a b Hab). lia.
  - pose proof (seq_count b a ltac:(lia)). lia.
Qed.
End Offsets.

Lemma count_if_map {A B} (f : B -> bool) (g : A -> B) l : count_if f (map g l) = count_if (fun x => f (g x)) l.
Proof. induction l as [|x l IH]; cbn [map count_if]; [done|]. by rewrite IH. Qed.

Lemma substring_count s : forall a m, a + m <= String.length s ->
  utf8Len (String.substring a m s) =
  count_if (fun i => match String.get i s with Some c => isLead c | None => false end) (seq a m).
Proof.
  induction s as [|c s IH]; cbn [String.length].
  - intros a m H. assert (a = 0 /\ m = 0) as [-> ->] by lia. done.
  - intros [|a] m H.
    + destruct m as [|m]; [done|]. cbn [String.substring seq count_if String.get]. unfold utf8Len in *. cbn [String.list_ascii_of_string count_if].
      rewrite IH by lia. f_equal. rewrite <- seq_shift, count_if_map. done.
    + cbn [String.substring]. rewrite IH by lia. rewrite <- (seq_shift m a), count_if_map. done.
Qed.

Section Text.
Variable norm : string.
Abbreviation n := (length (starts norm) - 1).

Lemma starts_bounds j i : j <= i <= n ->
  at_ (starts norm) j <= at_ (starts norm) i <= String.length norm.
Proof using.
  unfold starts. rewrite length_app. cbn [length]. intros H. unfold at_. split; [apply offs_between; lia|apply offs_ge; lia].
Qed.

Lemma sub_length j i : j <= i <= n -> utf8Len (sub norm j i) = i - j.
Proof using.
  intros H. pose proof (starts_bounds j i H) as Hb. unfold sub. rewrite substring_count by lia.
  unfold starts in *. rewrite length_app in H. cbn [length] in H. unfold at_. apply offs_between; lia.
Qed.

Lemma starts_end : at_ (starts norm) n = String.length norm.
Proof using.
  unfold at_, starts. rewrite length_app, Nat.add_sub, app_nth2, Nat.sub_diag by lia. done.
Qed.
End Text.

Lemma substring_app s : forall a b, a + b <= String.length s ->
  String.substring 0 (a + b) s = String.substring 0 a s +:+ String.substring a b s.
Proof.
  induction s as [|c s IH]; cbn [String.length]; intros a b H; [assert (a = 0 /\ b = 0) as [-> ->] by lia; done|].
  destruct a as [|a]; [done|]. cbn [Nat.add String.substring]. change (String.String c ?x +:+ ?y) with (String.String c (x +:+ y)).
  f_equal. apply IH. lia.
Qed.

Lemma substring_all s : String.substring 0 (String.length s) s = s.
Proof. induction s as [|c s IH]; cbn [String.length String.substring]; [done|]. by rewrite IH. Qed.

(** ** Walks *)

Section Walks.
Variable t : XlmRobertaTokenizer.
Variable norm : string.
Abbreviation n := (length (starts norm) - 1).

(** [cut i segs b]: the codepoints below [i] cut into [segs], texts with their ids, of score
    [b] summed from the left; any codepoint may be unknown, at the price of the penalty. *)
Inductive cut : nat -> list (string * Z) -> f32 -> Prop :=
  | cut_start : cut 0 [] (S754_zero false)
  | cut_piece j i segs b id p :
      cut j segs b -> j < i <= n ->
      _pieceToId t !! sub norm j i = Some id -> index (_pieces t) id = Some p ->
      cut i (segs ++ [(sub norm j i, id)]) (Sampling.fadd b (score p))
  | cut_unknown i segs b :
      cut i segs b -> i < n ->
      cut (S i) (segs ++ [(sub norm i (S i), _unkSpId t)]) (Sampling.fadd b kUnkPenalty).

(** The cuts in which a codepoint is unknown only where no piece ends. *)
Inductive walk : nat -> list (string * Z) -> f32 -> Prop :=
  | walk_start : walk 0 [] (S754_zero false)
  | walk_piece j i segs b id p :
      walk j segs b -> j < i <= n ->
      _pieceToId t !! sub norm j i = Some id -> index (_pieces t) id = Some p ->
      walk i (segs ++ [(sub norm j i, id)]) (Sampling.fadd b (score p))
  | walk_unknown i segs b :
      walk i segs b -> i < n -> (forall j, j <= i -> _pieceToId t !! sub norm j (S i) = None) ->
      walk (S i) (segs ++ [(sub norm i (S i), _unkSpId t)]) (Sampling.fadd b kUnkPenalty).

Lemma walk_le i segs b : walk i segs b -> i <= n.
Proof using. destruct 1; lia. Qed.

Hypothesis Hco : coherent t.
Hypothesis Hsc : scoredPieces t.

Lemma index_scored id p : index (_pieces t) id = Some p -> scored (score p).
Proof using Hsc.
  unfold index. destruct (id <? 0)%Z; [done|]. intros H. unfold scoredPieces in Hsc. rewrite Forall_lookup in Hsc. by eapply Hsc.
Qed.
Local Hint Resolve index_scored penalty_scored zero_summed : core.

Lemma walk_summed i segs b : walk i segs b -> summed b.
Proof using Hsc. induction 1; [done|..]; apply fadd_value; eauto. Qed.

Lemma walk_cut i segs b : walk i segs b -> cut i segs b.
Proof using. induction 1; [constructor|by eapply cut_piece|by apply cut_unknown]. Qed.

Lemma cut_summed i segs b : cut i segs b -> summed b.
Proof using Hsc. induction 1; [done|..]; apply fadd_value; eauto. Qed.

(** Wherever a piece ends, the last codepoint is itself a piece that costs no more than
    the penalty. *)
Definition singlesCovered : Prop := forall j i, j <= i < n ->
  is_Some (_pieceToId t !! sub norm j (S i)) ->
  exists id p, _pieceToId t !! sub norm i (S i) = Some id /\ index (_pieces t) id = Some p /\
    Sampling.flt (score p) kUnkPenalty = false.

(** Then giving a codepoint up where a piece ends never pays. *)
Lemma cut_below i segs b : singlesCovered -> cut i segs b ->
  exists segs' b', walk i segs' b' /\ (val b <= val b')%Z.
Proof using Hsc.
  intros Hcov. induction 1 as [|j i segs b id p Hc IH Hj Hid Hp|i segs b Hc IH Hi].
  - eexists _, _. split; [constructor|done].
  - destruct IH as (segs' & b' & Hw & Hle). eexists _, _. split; [by eapply walk_piece|].
    apply fadd_mono; eauto using walk_summed, cut_summed.
  - destruct IH as (segs' & b' & Hw & Hle). pose proof (walk_summed _ _ _ Hw) as Hs'.
    pose proof (fadd_mono _ _ kUnkPenalty (cut_summed _ _ _ Hc) Hs' penalty_scored Hle) as Hle1.
    destruct (decide (Exists (fun j => is_Some (_pieceToId t !! sub norm j (S i))) (seq 0 (S i)))) as [He|Hn].
    + apply Exists_exists in He as (j & Hj & Hpj). apply elem_of_seq in Hj.
      destruct (Hcov j i ltac:(lia) Hpj) as (id & p & Hid & Hp & Hf).
      eexists _, _. split; [eapply (walk_piece i (S i)); [done|lia|done|done]|].
      pose proof (index_scored _ _ Hp) as Hsp.
      assert (Hf' : (val kUnkPenalty <= val (score p))%Z).
      { apply Z.ltb_ge. rewrite <- Hf. symmetry.
        apply FloatRound.ltb_value; [lia|apply Hsp|apply penalty_scored]. }
      pose proof (fadd_mono_r b' _ _ Hs' penalty_scored Hsp Hf'). lia.
    + eexists _, _. split; [apply walk_unknown; [done|done|]|done]. intros j Hj.
      destruct (_pieceToId t !! sub norm j (S i)) eqn:Hid; [|done]. destruct Hn.
      apply Exists_exists. exists j. rewrite elem_of_seq. split; [lia|by eexists].
Qed.

(** A cell holds a walk no other walk to its position exceeds. *)
Definition optimal (i : nat) (b : f32) : Prop :=
  forall segs b', walk i segs b' -> (val b' <= val b)%Z.

Definition cellOk (cells : list Cell) (i : nat) (c : Cell) : Prop :=
  summed (best c) /\ optimal i (best c) /\
  (i = 0 \/ exists cj, backJ c < i /\ cells !! backJ c = Some cj /\
  forall segs, walk (backJ c) segs (best cj) -> walk i (segs ++ [(sub norm (backJ c) i, backId c)]) (best c)).

Definition tableOk (cells : list Cell) : Prop :=
  (exists c, cells !! 0 = Some c /\ best c = S754_zero false) /\ forall i c, cells !! i = Some c -> cellOk cells i c.

(** A candidate for position [i]: a piece from a filled position. *)
Definition candidate (cells : list Cell) (i : nat) (js : list nat) (c : Cell) : Prop :=
  exists j cj id p, j ∈ js /\ cells !! j = Some cj /\ _pieceToId t !! sub norm j i = Some id /\
  index (_pieces t) id = Some p /\ c = mkCell (Sampling.fadd (best cj) (score p)) j id.

Lemma keep_better (c d : Cell) : best c = kNegInf \/ summed (best c) -> summed (best d) ->
  let c1 := if Sampling.flt (best c) (best d) then d else c in
  summed (best c1) /\ (val (best d) <= val (best c1))%Z /\
  (summed (best c) -> (val (best c) <= val (best c1))%Z) /\ (c1 = c \/ c1 = d).
Proof using.
  intros [Hc|Hc] Hd c1; unfold c1.
  - rewrite Hc, flt_neg by done. split; [done|]. split; [lia|]. split; [by intros []|by right].
  - rewrite flt_summed by done. destruct (Z.ltb_spec (val (best c)) (val (best d)));
      (split; [done|]; split; [lia|]; split; [lia|auto]).
Qed.

(** The scan keeps the best of what it starts with and its candidates. *)
Lemma tryFrom_spec cells i js : forall c,
  (forall j, j ∈ js -> exists cj, cells !! j = Some cj /\ summed (best cj)) ->
  best c = kNegInf \/ summed (best c) ->
  exists c', tryFrom t norm cells i js c = Some c' /\ (c' = c \/ candidate cells i js c') /\
  (best c' = kNegInf \/ summed (best c')) /\
  (summed (best c) -> summed (best c') /\ (val (best c) <= val (best c'))%Z) /\
  (forall d, candidate cells i js d -> summed (best c') /\ (val (best d) <= val (best c'))%Z).
Proof using Hco Hsc.
  induction js as [|j js IH]; intros c Hjs Hc; cbn [tryFrom].
  { exists c. split; [done|]. split; [by left|]. split; [done|]. split; [done|].
    intros d (j & cj & id & p & Hin & _). by apply elem_of_nil in Hin. }
  destruct (Hjs j ltac:(left)) as (cj & Hj & Hsj). rewrite Hj. cbn. rewrite feq_summed by done.
  assert (Hrest : forall k, k ∈ js -> exists ck, cells !! k = Some ck /\ summed (best ck)) by (intros k Hk; apply Hjs; by right).
  assert (Hweak : forall d, candidate cells i js d -> candidate cells i (j :: js) d).
  { intros d (k & ck & id & p & Hin & H). exists k, ck, id, p. split; [by right|done]. }
  destruct (_pieceToId t !! sub norm j i) as [id|] eqn:Hid.
  - destruct (Hco _ _ Hid) as (p & Hp & _). rewrite Hp. cbn.
    set (d := mkCell (Sampling.fadd (best cj) (score p)) j id).
    assert (Hd : summed (best d)) by (apply fadd_value; eauto).
    assert (Hcd : candidate cells i (j :: js) d) by (exists j, cj, id, p; split; [left|done]).
    change (Sampling.fadd (best cj) (score p)) with (best d) at 1.
    set (c1 := if Sampling.flt (best c) (best d) then d else c).
    pose proof (keep_better c d Hc Hd) as H1. fold c1 in H1.
    destruct H1 as (Hs1 & Hd1 & Hc1 & Hor). destruct (IH c1 Hrest ltac:(by right)) as (c' & Hr & Hc' & Hs' & Hmono & Hall).
    destruct (Hmono Hs1) as [Hs2 Hle]. exists c'. split; [done|]. split; [|split; [done|split]].
    + destruct Hc' as [->|Hc']; [destruct Hor as [->| ->]; [by left|by right]|right; by apply Hweak].
    + intros Hc0. split; [done|]. specialize (Hc1 Hc0). lia.
    + intros e (k & ck & id' & p' & Hin & Hk & Hid' & Hp' & ->). split; [done|].
      apply elem_of_cons in Hin as [->|Hin].
      * simplify_eq. change (best (mkCell _ _ _)) with (best d). lia.
      * destruct (Hall (mkCell (Sampling.fadd (best ck) (score p')) k id')); [by exists k, ck, id', p'|done].
  - destruct (IH c Hrest Hc) as (c' & Hr & Hc' & Hs' & Hmono & Hall). exists c'. split; [done|].
    split; [destruct Hc' as [->|Hc']; [by left|right; by apply Hweak]|]. split; [done|]. split; [done|].
    intros e (k & ck & id' & p' & Hin & Hk & Hid' & Hp' & ->).
    apply elem_of_cons in Hin as [->|Hin]; [congruence|]. apply Hall. by exists k, ck, id', p'.
Qed.
(** Every piece that ends at [i] begins in the window the scan visits. *)
Lemma window j i id : j < i <= n -> _pieceToId t !! sub norm j i = Some id ->
  j ∈ seq (if _maxPieceChars t <? i then i - _maxPieceChars t else 0)
        (i - (if _maxPieceChars t <? i then i - _maxPieceChars t else 0)).
Proof using Hco.
  intros Hj Hid. destruct (Hco _ _ Hid) as (p & _ & _ & Hlen). rewrite sub_length in Hlen by lia.
  apply list_elem_of_In, in_seq. destruct (Nat.ltb_spec (_maxPieceChars t) i); lia.
Qed.

Lemma cells_filled (cells : list Cell) i (js : list nat) : tableOk cells -> length cells = i -> (forall j, j ∈ js -> j < i) ->
  forall j, j ∈ js -> exists cj, cells !! j = Some cj /\ summed (best cj).
Proof using.
  intros [_ Hall] Hlen Hjs j Hj. destruct (lookup_lt_is_Some_2 cells j) as [cj Hc]; [rewrite Hlen; by apply Hjs|].
  exists cj. split; [done|]. by apply (Hall j cj Hc).
Qed.

(** Walks to [i] come from a candidate, or are unknown when there is none. *)
Lemma walk_candidate cells i segs b : tableOk cells -> length cells = i -> walk i segs b -> 0 < i ->
  (exists j d, j < i /\ candidate cells i [j] d /\ (val b <= val (best d))%Z) \/
  (exists c, cells !! (i - 1) = Some c /\ (val b <= val (Sampling.fadd (best c) kUnkPenalty))%Z /\
    forall j, j < i -> _pieceToId t !! sub norm j i = None).
Proof using Hsc.
  intros [_ Hall] Hlen Hw Hi. destruct Hw as [|j i segs b id p Hw Hj Hid Hp|i segs b Hw Hn Hno]; [lia|left|right].
  - destruct (lookup_lt_is_Some_2 cells j ltac:(lia)) as [cj Hc]. destruct (Hall j cj Hc) as (Hs & Ho & _).
    exists j, (mkCell (Sampling.fadd (best cj) (score p)) j id). split; [lia|].
    split; [exists j, cj, id, p; by repeat split; [left|..]|]. apply fadd_mono; eauto using walk_summed.
  - destruct (lookup_lt_is_Some_2 cells i ltac:(lia)) as [cj Hc]. destruct (Hall i cj Hc) as (Hs & Ho & _).
    exists cj. rewrite Nat.sub_succ, Nat.sub_0_r. split; [done|]. split; [apply fadd_mono; eauto using walk_summed|].
    intros j Hj. apply Hno. lia.
Qed.

Lemma candidate_window cells i (js : list nat) j d :
  (forall j id, j < i -> _pieceToId t !! sub norm j i = Some id -> j ∈ js) -> j < i -> candidate cells i [j] d -> candidate cells i js d.
Proof using.
  intros Hwin Hj (k & ck & id & p & Hin & Hk & Hid & Hr). apply list_elem_of_singleton in Hin as ->.
  exists j, ck, id, p. split; [by apply (Hwin j id)|done].
Qed.

(** A position where no piece ends. *)
Lemma unknown_ok cells i cp : tableOk cells -> length cells = i -> 0 < i <= n -> cells !! (i - 1) = Some cp ->
  (forall j d, j < i -> ~ candidate cells i [j] d) ->
  cellOk cells i (mkCell (Sampling.fadd (best cp) kUnkPenalty) (i - 1) (_unkSpId t)).
Proof using Hco Hsc.
  intros Htab Hlen Hi Hp Hno. destruct (proj2 Htab _ _ Hp) as (Hsp & Hop & _). split; [by apply fadd_value|]. split.
  - intros segs b Hw. destruct (walk_candidate cells i segs b Htab Hlen Hw ltac:(lia)) as [(j & d & Hj & Hd & _)|(c & Hc' & Hle & _)].
    + by destruct (Hno j d Hj).
    + cbn [best]. congruence.
  - right. exists cp. cbn [best backJ backId]. split; [lia|]. split; [done|]. intros segs Hw.
    destruct i as [|i]; [lia|]. rewrite Nat.sub_succ, Nat.sub_0_r in *. apply walk_unknown; [done|lia|]. intros j Hj.
    destruct (_pieceToId t !! sub norm j (S i)) as [id|] eqn:Hid; [|done]. destruct (Hco _ _ Hid) as (p & Hp' & _).
    destruct (lookup_lt_is_Some_2 cells j ltac:(lia)) as [cj Hcj].
    destruct (Hno j (mkCell (Sampling.fadd (best cj) (score p)) j id)); [lia|]. exists j, cj, id, p. by split; [left|].
Qed.

(** A position with a candidate: the best one. *)
Lemma piece_ok cells i (js : list nat) c : tableOk cells -> length cells = i -> 0 < i <= n ->
  (forall j, j ∈ js -> j < i) -> (forall j id, j < i -> _pieceToId t !! sub norm j i = Some id -> j ∈ js) ->
  candidate cells i js c -> summed (best c) -> (forall d, candidate cells i js d -> (val (best d) <= val (best c))%Z) ->
  cellOk cells i c.
Proof using Hco Hsc.
  intros Htab Hlen Hi Hjs Hwin (j & cj & id & p & Hin & Hcj & Hid & Hp & ->) Hs Hall. pose proof (Hjs j Hin) as Hj.
  split; [done|]. split.
  - intros segs b Hw. destruct (walk_candidate cells i segs b Htab Hlen Hw ltac:(lia)) as [(k & d & Hk & Hd & Hle)|(cp & Hcp & Hle & Hno)].
    + pose proof (Hall d (candidate_window cells i js k d Hwin Hk Hd)). lia.
    + rewrite Hno in Hid by done. done.
  - right. exists cj. cbn [best backJ backId]. split; [lia|]. split; [done|]. intros segs Hw. by eapply walk_piece; [done|lia|..].
Qed.

Lemma cellAt_ok cells i : tableOk cells -> length cells = i -> 0 < i <= n ->
  exists c, cellAt t norm cells i = Some c /\ cellOk cells i c.
Proof using Hco Hsc.
  intros Htab Hlen Hi. assert (Hwin := fun j id (H : j < i) => window j i id (conj H (proj2 Hi))). unfold cellAt.
  set (lo := if _maxPieceChars t <? i then i - _maxPieceChars t else 0) in *. set (js := seq lo (i - lo)) in *.
  assert (Hjs : forall j, j ∈ js -> j < i) by (intros j Hj; apply list_elem_of_In, in_seq in Hj; lia).
  destruct (tryFrom_spec cells i js (mkCell kNegInf 0 (_unkSpId t)) (cells_filled cells i js Htab Hlen Hjs) ltac:(by left))
    as (c & Hc & Hor & Hs & _ & Hall). rewrite Hc. cbn. destruct Hor as [-> |Hor].
  - change (Sampling.feq _ _) with true. cbv iota. destruct (lookup_lt_is_Some_2 cells (i - 1) ltac:(lia)) as [cp Hp].
    rewrite Hp. cbn. eexists. split; [done|]. apply unknown_ok; try done. intros j d Hj Hd.
    destruct (Hall d (candidate_window cells i js j d Hwin Hj Hd)) as [[Hf _] _]. done.
  - destruct (Hall c Hor) as [Hsum _]. rewrite feq_summed by done. exists c. split; [done|].
    apply (piece_ok cells i js); try done. intros d Hd. by apply Hall.
Qed.

Lemma cellOk_app cells k i c : cellOk cells i c -> cellOk (cells ++ k) i c.
Proof using.
  intros (Hs & Ho & Hb). split; [done|]. split; [done|]. destruct Hb as [?|(cj & Hj & Hcj & Hw)]; [by left|right].
  exists cj. split; [done|]. split; [by apply lookup_app_l_Some|done].
Qed.

Lemma cellsTo_ok m : m <= n -> exists cells, cellsTo t norm m = Some cells /\ length cells = S m /\ tableOk cells.
Proof using Hco Hsc.
  induction m as [|m IH]; intros Hm; cbn [cellsTo].
  - eexists. split; [done|]. split; [done|]. split; [by eexists|]. intros [|i] c [= <-]. split; [done|]. split; [|by left].
    intros segs b Hw. inversion Hw; subst; [done|lia].
  - destruct IH as (cells & Hc & Hlen & Htab); [lia|]. rewrite Hc. cbn [mbind option_bind].
    destruct (cellAt_ok cells (S m) Htab Hlen ltac:(lia)) as (c & Hat & Hok). rewrite Hat. cbn [mbind option_bind]. eexists. split; [done|].
    split; [rewrite length_app; cbn; lia|]. destruct Htab as [(c0 & H0 & Hb) Hall]. split.
    + exists c0. split; [by apply lookup_app_l_Some|done].
    + intros i c' Hi. apply lookup_app_Some in Hi as [Hi|[Hge Hi]]; [by apply cellOk_app, Hall|].
      rewrite Hlen in Hge, Hi. destruct (i - S m) as [|k] eqn:Ek; [|done]. injection Hi as <-.
      replace i with (S m) by lia. by apply cellOk_app.
Qed.

(** Following the back pointers from [i] spells the ids of a walk to [i]. *)
Lemma backFrom_walk cells : tableOk cells -> forall i fuel, i <= fuel -> forall c ids, cells !! i = Some c ->
  exists segs, backFrom fuel cells i ids = Some (map snd segs ++ ids) /\ walk i segs (best c).
Proof using.
  intros [(c0 & H0 & Hb0) Hall] i. induction i as [i IH] using lt_wf_ind. intros fuel Hf c ids Hc. destruct i as [|i].
  - exists []. split; [by destruct fuel|]. rewrite H0 in Hc. injection Hc as <-. rewrite Hb0. constructor.
  - destruct fuel as [|fuel]; [lia|]. cbn [backFrom]. rewrite Hc. cbn.
    destruct (Hall _ _ Hc) as (_ & _ & [?|(cj & Hj & Hcj & Hw)]); [done|].
    destruct (IH (backJ c) Hj fuel ltac:(lia) cj (backId c :: ids) Hcj) as (segs & Hr & Hws).
    eexists. split; [|by apply Hw]. rewrite Hr, map_app, <- app_assoc. done.
Qed.

Lemma walk_text i segs b : at_ (starts norm) 0 = 0 -> walk i segs b ->
  cat (map fst segs) = String.substring 0 (at_ (starts norm) i) norm.
Proof using.
  intros H0. assert (Hsub : forall j i, j < i <= n ->
    String.substring 0 (at_ (starts norm) j) norm +:+ sub norm j i = String.substring 0 (at_ (starts norm) i) norm).
  { intros j k Hk. pose proof (starts_bounds norm j k ltac:(lia)). unfold sub. rewrite <- substring_app by lia. f_equal. lia. }
  induction 1; rewrite ?map_app, ?cat_app, ?IHwalk; cbn [map fst cat foldr]; rewrite ?append_nil_r.
  - rewrite H0. by destruct norm.
  - apply Hsub. done.
  - apply Hsub. lia.
Qed.
End Walks.

(** ** Loading *)

Lemma index_nat {A} (l : list A) i : (Z.of_nat i < 2 ^ 31)%Z -> index l (s32 (Z.of_nat i)) = l !! i.
Proof.
  intros Hi. rewrite s32_small by (unfold in_s32; lia). unfold index. rewrite (proj2 (Z.ltb_ge _ _)) by lia. by rewrite Nat2Z.id.
Qed.

Lemma indexPieces_pieces l : forall i t, _pieces (indexPieces i l t) = _pieces t.
Proof. induction l as [|p l IH]; intros i t; cbn [indexPieces]; [done|]. by rewrite IH. Qed.

Lemma indexPieces_coherent l : forall i t, drop i (_pieces t) = l -> (Z.of_nat (length (_pieces t)) <= 2 ^ 31)%Z ->
  coherent t -> coherent (indexPieces i l t).
Proof.
  induction l as [|p l IH]; intros i t Hl Hlen Hco; cbn [indexPieces]; [done|].
  assert (Hi : _pieces t !! i = Some p) by (rewrite <- (Nat.add_0_r i), <- lookup_drop, Hl; done).
  pose proof (lookup_lt_Some _ _ _ Hi) as Hlt. apply IH; cbn; [|done|].
  { rewrite <- (Nat.add_1_r i), <- drop_drop, Hl. done. }
  intros s id. cbn. unfold emplace. intros Hs. destruct (_pieceToId t !! text p) as [old|] eqn:Hold.
  - destruct (Hco s id Hs) as (q & Hq & Ht & Hle). exists q. split; [done|]. split; [done|]. lia.
  - destruct (decide (s = text p)) as [->|Hne].
    + rewrite lookup_insert_eq in Hs. injection Hs as <-. exists p. rewrite index_nat by lia. split; [done|]. split; [done|]. lia.
    + rewrite lookup_insert_ne in Hs by done. destruct (Hco s id Hs) as (q & Hq & Ht & Hle). exists q. split; [done|]. split; [done|]. lia.
Qed.

(** A file read into a fresh tokenizer leaves a coherent index. *)
Lemma load_coherent path file t : load path file newXlmr = (Returns tt, t) -> (Z.of_nat (length (_pieces t)) <= 2 ^ 31)%Z -> coherent t.
Proof.
  unfold load. destruct file as [buf|]; [|done]. destruct (readModel buf (length buf) 0 (_pieces newXlmr)) as [o pieces].
  destruct o as [u|e|]; try done. cbn [_pieces _pieceToId _unkSpId _maxPieceChars newXlmr].
  destruct (length pieces =? 0); [done|]. intros [= <-]. rewrite indexPieces_pieces. intros Hlen.
  apply indexPieces_coherent; [done|done|]. intros s id. cbn. by rewrite lookup_empty.
Qed.

Lemma normalize_starts s : at_ (starts (normalize s)) 0 = 0.
Proof. reflexivity. Qed.

Abbreviation final s := (length (starts (normalize s)) - 1).

(** C29: With a model file loaded into a fresh tokenizer, fewer than 2^31 pieces and scores of
    magnitude at most 2^100, [encode] always returns.  Its ids spell a cut of the normalised
    text into pieces of the vocabulary and single unknown codepoints; no cut that leaves a
    codepoint unknown only where no piece ends has a larger score; and when wherever a piece
    ends the last codepoint is a piece of its own of score -100 or better, no cut at all has
    one.  All sums are binary32, from the left.  (For other vocabularies the code is not the
    Unigram maximum its header promises: [unknown_never_preferred].) *)
Theorem viterbi_optimal path file t s :
  load path file newXlmr = (Returns tt, t) -> (Z.of_nat (length (_pieces t)) <= 2 ^ 31)%Z -> scoredPieces t ->
  exists segs b,
    encode t s = Some (map (fun seg => if (snd seg =? _unkSpId t)%Z then kUnk else s32 (snd seg + 1)) segs) /\
    cat (map fst segs) = normalize s /\
    walk t (normalize s) (final s) segs b /\
    (forall segs' b', walk t (normalize s) (final s) segs' b' -> Sampling.flt b b' = false) /\
    (singlesCovered t (normalize s) -> cut t (normalize s) (final s) segs b /\
     forall segs' b', cut t (normalize s) (final s) segs' b' -> Sampling.flt b b' = false).
Proof.
  intros Hload Hlen Hsc. pose proof (load_coherent _ _ _ Hload Hlen) as Hco.
  destruct (cellsTo_ok t (normalize s) Hco Hsc (final s) ltac:(lia)) as (cells & Hc & Hl & Htab).
  destruct (lookup_lt_is_Some_2 cells (final s) ltac:(lia)) as [c Hcell].
  destruct (backFrom_walk t (normalize s) cells Htab (final s) (final s) ltac:(lia) c [] Hcell) as (segs & Hb & Hw).
  exists segs, (best c). destruct (proj2 Htab _ _ Hcell) as (Hs & Ho & _).
  split; [|split; [|split; [done|split; [|intros Hcov; split; [by apply walk_cut|]]]]].
  - unfold encode, viterbi. rewrite Hc. cbn [mbind option_bind]. rewrite Hb. cbn [mbind option_bind]. by rewrite app_nil_r, map_map.
  - rewrite (walk_text t (normalize s) _ _ _ (normalize_starts s) Hw), starts_end. apply substring_all.
  - intros segs' b' Hw'. rewrite flt_summed by (done || by eapply walk_summed). apply Z.ltb_ge. by eapply Ho.
  - intros segs' b' Hcut. destruct (cut_below _ _ Hsc _ _ _ Hcov Hcut) as (segs2 & b2 & Hw2 & Hle).
    rewrite flt_summed by (done || by eapply cut_summed). apply Z.ltb_ge. specialize (Ho _ _ Hw2). lia.
Qed.

(** ** A small model *)

Definition bytes (l : list N) : list ascii := map ascii_of_N l.

(** A piece as a SentencePiece model stores it: text, score bits and type. *)
Definition pieceBytes (txt : list N) (bits : list N) (ty : N) : list ascii :=
  let body := 10%N :: N.of_nat (length txt) :: txt ++ 21%N :: bits ++ [24; ty]%N in
  bytes (10%N :: N.of_nat (length body) :: body).

(** [<unk>]; the meta symbol with [a], -1; [b], -2; the meta symbol alone, -1.5; [ab], -1;
    [a], -3. *)
Definition demoFile : list ascii :=
  pieceBytes [60; 117; 110; 107; 62]%N [0; 0; 0; 0]%N 2 ++ pieceBytes [226; 150; 129; 97]%N [0; 0; 128; 191]%N 1 ++
  pieceBytes [98]%N [0; 0; 0; 192]%N 1 ++ pieceBytes [226; 150; 129]%N [0; 0; 192; 191]%N 1 ++ pieceBytes [97; 98]%N [0; 0; 128; 191]%N 1 ++
  pieceBytes [97]%N [0; 0; 64; 192]%N 1.

Definition demo : XlmRobertaTokenizer := snd (load "sp.model" (Some demoFile) newXlmr).

Example demo_loads : load "sp.model" (Some demoFile) newXlmr = (Returns tt, demo).
Proof. vm_compute. reflexivity. Qed.

(** The best cut is the meta symbol and [ab], although the meta symbol with [a] scores higher;
    [z] is unknown. *)
Example demo_ids : encodePair demo " ab" "z" = Some [0; 4; 5; 2; 2; 4; 3; 2]%Z.
Proof. vm_compute. reflexivity. Qed.

(** A piece whose length leaves the file is read past its end. *)
Example piece_overread : fst (load "sp.model" (Some (bytes [10; 2; 10; 127]%N)) newXlmr) = Undefined.
Proof. vm_compute. reflexivity. Qed.

Lemma demo_scored : scoredPieces demo.
Proof.
  assert (H : forallb (fun p => fin (score p) && (Z.abs (val (score p)) <=? small)%Z) (_pieces demo) = true) by (vm_compute; reflexivity).
  apply Forall_forall. intros p Hp. rewrite forallb_forall in H. apply list_elem_of_In in Hp. specialize (H p Hp).
  apply andb_prop in H as [Hf Hv]. split; [done|]. by apply Z.leb_le.
Qed.

Lemma demo_covered : singlesCovered demo (normalize "ab").
Proof.
  intros j i Hj _. assert (Hn : length (starts (normalize "ab")) - 1 = 3) by (vm_compute; reflexivity).
  rewrite Hn in Hj. destruct i as [|[|[|i]]]; [| | |lia].
  all: eexists _, _; (split; [vm_compute; reflexivity|]); (split; [vm_compute; reflexivity|]); vm_compute; reflexivity.
Qed.

Lemma viterbi_optimal_witness :
  load "sp.model" (Some demoFile) newXlmr = (Returns tt, demo) /\
  exists segs b, encode demo "ab" = Some (map (fun seg => if (snd seg =? _unkSpId demo)%Z then kUnk else s32 (snd seg + 1)) segs) /\
    cat (map fst segs) = normalize "ab" /\ walk demo (normalize "ab") (final "ab") segs b /\
    forall segs' b', cut demo (normalize "ab") (final "ab") segs' b' -> Sampling.flt b b' = false.
Proof.
  split; [exact demo_loads|].
  destruct (viterbi_optimal "sp.model" (Some demoFile) demo "ab") as (segs & b & H1 & H2 & H3 & _ & H5).
  - exact demo_loads.
  - vm_compute. discriminate.
  - exact demo_scored.
  - exists segs, b. split; [exact H1|]. split; [exact H2|]. split; [exact H3|].
    exact (proj2 (H5 demo_covered)).
Defined.

(** [<unk>]; the meta symbol, -1.5; [ab], -1; [bc], -5. *)
Definition gapFile : list ascii :=
  pieceBytes [60; 117; 110; 107; 62]%N [0; 0; 0; 0]%N 2 ++ pieceBytes [226; 150; 129]%N [0; 0; 192; 191]%N 1 ++
  pieceBytes [97; 98]%N [0; 0; 128; 191]%N 1 ++ pieceBytes [98; 99]%N [0; 0; 160; 192]%N 1.

Definition gap : XlmRobertaTokenizer := snd (load "sp.model" (Some gapFile) newXlmr).

(** The code gives a codepoint up only where no piece ends: [abc] becomes the meta symbol, an
    unknown [a] and [bc], score -106.5, although the meta symbol, [ab] and an unknown [c]
    score -102.5. *)
Example unknown_never_preferred :
  encode gap "abc" = Some [2; 3; 4]%Z /\
  exists segs b segs' b',
    map snd segs = [1; 0; 3]%Z /\ cut gap (normalize "abc") (final "abc") segs b /\
    map snd segs' = [1; 2; 0]%Z /\ cut gap (normalize "abc") (final "abc") segs' b' /\
    Sampling.flt b b' = true.
Proof.
  split; [vm_compute; reflexivity|].
  assert (Hn : length (starts (normalize "abc")) - 1 = 4) by (vm_compute; reflexivity).
  assert (Hcut1 := cut_piece gap (normalize "abc") 0 1 _ _ 1 _ (cut_start _ _) ltac:(rewrite Hn; lia)
    ltac:(vm_compute; reflexivity) ltac:(vm_compute; reflexivity)).
  eexists _, _, _, _. split; [|split; [|split; [|split]]].
  2: { eapply (cut_piece gap (normalize "abc") 2 4); [apply cut_unknown; [exact Hcut1|lia]|lia|..];
       vm_compute; reflexivity. }
  3: { eapply (cut_unknown gap (normalize "abc") 3); [|lia].
       eapply (cut_piece gap (normalize "abc") 1 3); [exact Hcut1|lia|..]; vm_compute; reflexivity. }
  all: vm_compute; reflexivity.
Qed.

End XlmrProofs.
