(* ===== verification/StreamFilters.v ===== *)
(** * Filters of the streamed answer

    Models what a decoded token passes before it reaches a client:
    [src/src/model/ResponseCleaner.cpp] separates reasoning from answer,
    [src/src/model/ToolCallStreamDetector.cpp] holds tool calls back, and
    [SseEncoder::utf8IncompleteTailStart] keeps codepoints whole.  Also
    [ChatTemplate::cleanResponse], which separates a complete answer.  A text is the
    list of its bytes. *)

From Stdlib Require Import Ascii.
From S2P Require Import Prelude.

Module StreamText.

Abbreviation text := (list ascii).
Abbreviation lit := String.list_ascii_of_string.

(** [s] begins with [p]. *)
Definition starts (p s : text) : bool := bool_decide (take (length p) s = p).

(** [std::string::find]. *)
Fixpoint find (p s : text) : option nat :=
  if starts p s then Some 0
  else match s with [] => None | _ :: s => S <$> find p s end.

Definition findFrom (p s : text) (pos : nat) : option nat :=
  if pos <=? length s then (fun i => pos + i) <$> find p (drop pos s) else None.

(** [std::string::rfind] of one character. *)
Fixpoint rfindChar (c : ascii) (s : text) : option nat :=
  match s with
  | [] => None
  | d :: s => match rfindChar c s with Some i => Some (S i) | None => if Ascii.eqb d c then Some 0 else None end
  end.

Definition newline : ascii := ascii_of_nat 10.

(** [src/src/model/ResponseCleaner.cpp:15-17 isAsciiWs] *)
Definition isAsciiWs (c : ascii) : bool :=
  Ascii.eqb c newline || Ascii.eqb c " " || Ascii.eqb c (ascii_of_nat 9) || Ascii.eqb c (ascii_of_nat 13).

Fixpoint skipWhile (f : ascii -> bool) (s : text) : text :=
  match s with
  | [] => []
  | c :: s' => if f c then skipWhile f s' else s
  end.
End StreamText.
Import StreamText.

Module ChatTemplate.

(** [src/src/model/ChatTemplate.hpp:62-72 ChatTemplate::Style] *)
Inductive Style := QwenChatML | Gemma3 | Gemma4 | Llama3.

#[global] Instance Style_eq_dec : EqDecision Style.
Proof. solve_decision. Defined.

Definition kThinkEnd : text := lit "</think>".
Definition kGemma4ChannelStart : text := lit "<|channel>".
Definition kGemma4ChannelEnd : text := lit "<channel|>".

(** The characters both strips drop around a marker. *)
Definition blank (c : ascii) : bool := Ascii.eqb c newline || Ascii.eqb c " " || Ascii.eqb c (ascii_of_nat 9).

(** [src/src/model/ChatTemplate.cpp:278-288 stripLeading] *)
Definition stripLeading (s needle : text) : bool * text :=
  if starts needle s then (true, skipWhile blank (drop (length needle) s)) else (false, s).

Definition dropBack (s : text) : text := rev (skipWhile blank (rev s)).

(** [src/src/model/ChatTemplate.cpp:291-307 stripTrailing] *)
Definition stripTrailing (s needle : text) : text :=
  let s := dropBack s in
  if length s <? length needle then s
  else
    let offset := length s - length needle in
    if starts needle (drop offset s) then dropBack (take offset s) else s.

(** The answer and the reasoning, if any was found.
    [src/src/model/ChatTemplate.cpp:311-387 ChatTemplate::cleanResponse] *)
Definition cleanResponse (style : Style) (out : text) (thinkPreOpened : bool) : text * option text :=
  match style with
  | QwenChatML =>
      match find kThinkEnd out with
      | Some e => (skipWhile isAsciiWs (drop (e + length kThinkEnd) out), Some (take e out))
      | None => if thinkPreOpened then ([], Some out) else (out, None)
      end
  | Gemma3 => (stripTrailing out (lit "<end_of_turn>"), None)
  | Gemma4 =>
      let '(out, reasoning) :=
        match stripLeading out kGemma4ChannelStart with
        | (true, out) =>
            match find kGemma4ChannelEnd out with
            | Some e => (skipWhile blank (drop (e + length kGemma4ChannelEnd) out), Some (take e out))
            | None => (skipWhile blank out, None)
            end
        | (false, out) => (out, None)
        end in
      (stripTrailing out (lit "<turn|>"), reasoning)
  | Llama3 => (stripTrailing out (lit "<|eot_id|>"), None)
  end.
End ChatTemplate.
Import ChatTemplate.

Module ResponseCleaner.

(** [src/src/model/ResponseCleaner.cpp:27-32 ThinkOpen] *)
Record ThinkOpen := mkOpen {
  o_pos : nat;
  o_len : nat;
  o_close : text;
}.

Definition kSuf : text := lit "_start".

(** The scan for a pseudo opener from [scan] on, [best] being the real one.
    [src/src/model/ResponseCleaner.cpp:39-62 findThinkOpen] *)
Fixpoint scanOpen (fuel : nat) (s : text) (scan : nat) (best : option ThinkOpen) : option ThinkOpen :=
  match fuel with
  | 0 => best
  | S fuel =>
      match findFrom (lit "<|") s scan with
      | None => best
      | Some p =>
          match findFrom (lit "|>") s (p + 2) with
          | None => best
          | Some gt =>
              let content := take (gt - (p + 2)) (drop (p + 2) s) in
              let stem := length content - length kSuf in
              if (length kSuf <? length content) && bool_decide (drop stem content = kSuf) then
                let word := take stem content in
                if bool_decide (word = lit "im") then scanOpen fuel s (gt + 2) best
                else if match best with None => true | Some b => p <? o_pos b end
                then Some (mkOpen p (gt + 2 - p) (lit "<|" ++ word ++ lit "_end|>"))
                else best
              else scanOpen fuel s (p + 2) best
          end
      end
  end.

(** Every turn moves the scan on by two at least.
    [src/src/model/ResponseCleaner.cpp:34-64 findThinkOpen] *)
Definition findThinkOpen (s : text) : option ThinkOpen :=
  scanOpen (length s) s 0 ((fun t => mkOpen t 7 kThinkEnd) <$> find (lit "<think>") s).

(** [src/src/model/ResponseCleaner.cpp:69-74 safeEmitLen] *)
Definition safeEmitLen (s : text) : nat :=
  match rfindChar "<" s with
  | None => length s
  | Some lt => match findFrom [">"%char] s lt with Some _ => length s | None => lt end
  end.

(** [src/src/model/ResponseCleaner.hpp:105-105 ThinkPhase] *)
Inductive ThinkPhase := InThink | Done.

(** [src/src/model/ResponseCleaner.hpp:110-125 ResponseCleaner] *)
Record ResponseCleaner := mkCleaner {
  _style : Style;
  _channelStartId : Z;
  _channelEndId : Z;
  _inChannel : bool;
  _stripLeading : bool;
  _inRoleHeader : bool;
  _thinkPhase : ThinkPhase;
  _pending : text;
  _thinkClose : text;
}.

(** [src/src/model/ResponseCleaner.cpp:78-91 ResponseCleaner::ResponseCleaner] *)
Definition create (style : Style) (channelStartId channelEndId : Z) : ResponseCleaner :=
  mkCleaner style channelStartId channelEndId false false false
    (if bool_decide (style = QwenChatML) && (0 <=? channelStartId)%Z then InThink else Done) [] kThinkEnd.

(** The tokenizer answers ids, -1 for a text that is no token.
    [src/src/model/ResponseCleaner.hpp:56-77 ResponseCleaner::forStyle] *)
Definition forStyle (style : Style) (findToken : string -> Z) : ResponseCleaner :=
  match style with
  | Gemma4 => create style (findToken "<|channel>"%string) (findToken "<channel|>"%string)
  | _ => create style (findToken "<think>"%string) (-1)
  end.

Definition setChannel (inChannel strip : bool) (c : ResponseCleaner) : ResponseCleaner :=
  mkCleaner (_style c) (_channelStartId c) (_channelEndId c) inChannel strip (_inRoleHeader c) (_thinkPhase c) (_pending c) (_thinkClose c).

(** Whether the text is answer content, the text and the reasoning.
    [src/src/model/ResponseCleaner.cpp:108-147 ResponseCleaner::feedGemma4] *)
Definition feedGemma4 (tokenId : Z) (txt : text) (c : ResponseCleaner) : (bool * text * text) * ResponseCleaner :=
  if (0 <=? _channelStartId c)%Z && (tokenId =? _channelStartId c)%Z then
    ((false, txt, []), setChannel true (_stripLeading c) c)
  else if _inChannel c && (0 <=? _channelEndId c)%Z && (tokenId =? _channelEndId c)%Z then
    ((false, txt, []), setChannel false true c)
  else if _inChannel c then ((false, [], txt), c)
  else if _stripLeading c then
    match skipWhile isAsciiWs txt with
    | [] => ((false, txt, []), c)
    | rest => ((true, rest, []), setChannel (_inChannel c) false c)
    end
  else ((match txt with [] => false | _ => true end, txt, []), c).

(** What the loop of [feedQwenThink] changes. *)
Record Loop := mkLoop {
  strip : bool;
  header : bool;
  phase : ThinkPhase;
  pend : text;
  close : text;
  emit : text;
  think : text;
}.

(** One turn and whether there is another.
    [src/src/model/ResponseCleaner.cpp:166-252 ResponseCleaner::feedQwenThink] *)
Definition turn (l : Loop) : bool * Loop :=
  match phase l with
  | InThink =>
      match find (close l) (pend l) with
      | None =>
          let hold := length (close l) - 1 in
          if hold <? length (pend l) then
            let n := length (pend l) - hold in
            (false, mkLoop (strip l) (header l) InThink (drop n (pend l)) (close l) (emit l) (think l ++ take n (pend l)))
          else (false, l)
      | Some e =>
          (true, mkLoop true (header l) Done (drop (e + length (close l)) (pend l)) kThinkEnd (emit l) (think l ++ take e (pend l)))
      end
  | Done =>
      let p := if strip l then skipWhile isAsciiWs (pend l) else pend l in
      if strip l && match p with [] => true | _ => false end then
        (false, mkLoop true (header l) Done [] (close l) (emit l) (think l))
      else if header l then
        match find [newline] p with
        | None => (false, mkLoop false true Done [] (close l) (emit l) (think l))
        | Some nl => (true, mkLoop true false Done (drop (nl + 1) p) (close l) (emit l) (think l))
        end
      else
        match find (lit "<|im_start|>") p with
        | Some rh =>
            let e := emit l ++ take rh p in
            let p := drop rh p in
            match find [newline] p with
            | None => (false, mkLoop false true Done [] (close l) e (think l))
            | Some nl => (true, mkLoop true false Done (drop (nl + 1) p) (close l) e (think l))
            end
        | None =>
            match findThinkOpen p with
            | None =>
                let safe := safeEmitLen p in
                (false, mkLoop false false Done (drop safe p) (close l) (emit l ++ take safe p) (think l))
            | Some o =>
                (true, mkLoop false false InThink (drop (o_pos o + o_len o) p) (o_close o) (emit l ++ take (o_pos o) p) (think l))
            end
        end
  end.

(** [src/src/model/ResponseCleaner.cpp:166-252 ResponseCleaner::feedQwenThink] *)
Fixpoint loop (fuel : nat) (l : Loop) : option Loop :=
  match turn l with
  | (false, l) => Some l
  | (true, l) => match fuel with 0 => None | S fuel => loop fuel l end
  end.

(** Complete [<|...|>] literals, from offset [p].
    [src/src/model/ResponseCleaner.cpp:260-265 ResponseCleaner::feedQwenThink] *)
Fixpoint scrub (fuel : nat) (s : text) (p : nat) : text :=
  match fuel with
  | 0 => s
  | S fuel =>
      match findFrom (lit "<|") s p with
      | None => s
      | Some p =>
          match findFrom (lit "|>") s (p + 2) with
          | None => s
          | Some gt => scrub fuel (take p s ++ drop (gt + 2) s) p
          end
      end
  end.

(** Every turn but the last takes a character from the pending text.
    [src/src/model/ResponseCleaner.cpp:155-270 ResponseCleaner::feedQwenThink] *)
Definition feedQwenThink (txt : text) (c : ResponseCleaner) : option ((bool * text * text) * ResponseCleaner) :=
  let pending := _pending c ++ txt in
  l ← loop (length pending) (mkLoop (_stripLeading c) (_inRoleHeader c) (_thinkPhase c) pending (_thinkClose c) [] []);
  let out := scrub (length (emit l)) (emit l) 0 in
  Some ((match out with [] => false | _ => true end, out, think l),
        mkCleaner (_style c) (_channelStartId c) (_channelEndId c) (_inChannel c) (strip l) (header l) (phase l) (pend l) (close l)).

(** [src/src/model/ResponseCleaner.cpp:93-104 ResponseCleaner::feed] *)
Definition feed (tokenId : Z) (txt : text) (c : ResponseCleaner) : option ((bool * text * text) * ResponseCleaner) :=
  match _style c with
  | Gemma4 => Some (feedGemma4 tokenId txt c)
  | QwenChatML => feedQwenThink txt c
  | _ => Some ((match txt with [] => false | _ => true end, txt, []), c)
  end.
End ResponseCleaner.

Module ToolCallStreamDetector.

Definition kQwenOpen : text := lit "<tool_call>".
Definition kQwenClose : text := lit "</tool_call>".
Definition kGemmaOpen : text := lit "<|tool_call>".
Definition kGemmaClose : text := lit "<tool_call|>".
Definition kBareOpen : text := lit "<function=".
Definition kBareClose : text := lit "</function>".
Definition kFence : text := lit "```".

(** [src/src/model/ToolCallStreamDetector.cpp:20-26 openMarkerFor] *)
Definition openMarkerFor (style : Style) : text :=
  match style with QwenChatML => kQwenOpen | Gemma4 => kGemmaOpen | _ => [] end.

(** [src/src/model/ToolCallStreamDetector.cpp:28-34 closeMarkerFor] *)
Definition closeMarkerFor (style : Style) : text :=
  match style with QwenChatML => kQwenClose | Gemma4 => kGemmaClose | _ => [] end.

(** [src/src/model/ToolCallStreamDetector.hpp:104-104 State] *)
Inductive State := PassThrough | Buffering | Completed.

(** [src/src/model/ToolCallStreamDetector.hpp:106-129 ToolCallStreamDetector] *)
Record ToolCallStreamDetector := mkDetector {
  _open : text;
  _close : text;
  _openBare : text;
  _closeBare : text;
  _bare : bool;
  _inFence : bool;
  _swallowDangling : bool;
  _active : bool;
  _state : State;
  _pending : text;
  _buffer : text;
  _trailingAfterClose : text;
}.

(** [src/src/model/ToolCallStreamDetector.cpp:38-57 ToolCallStreamDetector::ToolCallStreamDetector] *)
Definition create (style : Style) (enabled : bool) (forcedOpener : text) : ToolCallStreamDetector :=
  let bare := bool_decide (style = QwenChatML) in
  let active := enabled && match openMarkerFor style with [] => false | _ => true end in
  let forced := active && match forcedOpener with [] => false | _ => true end in
  mkDetector (openMarkerFor style) (closeMarkerFor style)
    (if bare then kBareOpen else []) (if bare then kBareClose else [])
    false false false active (if forced then Buffering else PassThrough) []
    (if forced then forcedOpener else []) [].

(** The detector over its dynamic part. *)
Definition with_ (d : ToolCallStreamDetector) (bare fence swallow : bool) (st : State) (pending buffer trailing : text) :=
  mkDetector (_open d) (_close d) (_openBare d) (_closeBare d) bare fence swallow (_active d) st pending buffer trailing.

(** Fence parity after a text that was emitted; a fence is three characters.
    [src/src/model/ToolCallStreamDetector.cpp:67-73 ToolCallStreamDetector::feed] *)
Fixpoint updateFence (fuel : nat) (flushed : text) (inFence : bool) : bool :=
  match fuel with
  | 0 => inFence
  | S fuel =>
      match find kFence flushed with
      | None => inFence
      | Some p => updateFence fuel (drop (p + length kFence) flushed) (negb inFence)
      end
  end.

(** Parity at [pos], counting fences that begin at [p] or later.
    [src/src/model/ToolCallStreamDetector.cpp:111-123 ToolCallStreamDetector::feed] *)
Fixpoint fencedAt (fuel : nat) (pending : text) (pos p : nat) (f : bool) : bool :=
  match fuel with
  | 0 => f
  | S fuel =>
      if p <? pos then
        match findFrom kFence pending p with
        | None => f
        | Some q => if pos <=? q then f else fencedAt fuel pending pos (q + length kFence) (negb f)
        end
      else f
  end.

(** The first opener outside a fence, from [q].
    [src/src/model/ToolCallStreamDetector.cpp:124-131 ToolCallStreamDetector::feed] *)
Fixpoint bareFrom (fuel : nat) (openBare pending : text) (inFence : bool) (q : nat) : option nat :=
  match fuel with
  | 0 => None
  | S fuel =>
      match findFrom openBare pending q with
      | None => None
      | Some q =>
          if negb (fencedAt (length pending) pending q 0 inFence) then Some q
          else bareFrom fuel openBare pending inFence (q + 1)
      end
  end.

(** The text after leading white space, and how much that was. *)
Definition afterWs (s : text) : nat * text := let rest := skipWhile isAsciiWs s in (length s - length rest, rest).

(** The pending text and whether to keep waiting; [None] holds it.
    [src/src/model/ToolCallStreamDetector.cpp:82-103 ToolCallStreamDetector::feed] *)
Definition swallow (pending : text) : option text :=
  let '(ws, rest) := afterWs pending in
  if length rest <? length kQwenClose then
    if starts rest kQwenClose then None else Some pending
  else if starts kQwenClose rest then Some (drop (ws + length kQwenClose) pending)
  else Some pending.

(** [std::min] of offsets, where [None] is [npos]. *)
Definition minPos (a b : option nat) : option nat :=
  match a, b with
  | Some a, Some b => Some (Nat.min a b)
  | Some a, None => Some a
  | None, b => b
  end.

(** The buffer with the call from its opener on: closed or not.
    [src/src/model/ToolCallStreamDetector.cpp:161-178 ToolCallStreamDetector::feed] *)
Definition tryClose (d : ToolCallStreamDetector) : bool * ToolCallStreamDetector :=
  let closeMarker := if _bare d then _closeBare d else _close d in
  match find closeMarker (_buffer d) with
  | None => (false, d)
  | Some e =>
      let afterClose := e + length closeMarker in
      let '(buffer, trailing) :=
        if afterClose <? length (_buffer d) then (take afterClose (_buffer d), drop afterClose (_buffer d))
        else (_buffer d, _trailingAfterClose d) in
      (true, with_ d (_bare d) (_inFence d) (if _bare d then true else _swallowDangling d) Completed (_pending d) buffer trailing)
  end.

(** The scan of the pending text for an opener, [sw] being what is left of the swallowing.
    [src/src/model/ToolCallStreamDetector.cpp:105-155 ToolCallStreamDetector::feed] *)
Definition scan (d : ToolCallStreamDetector) (sw : bool) (pending : text) : (bool * text) * ToolCallStreamDetector :=
  let open := find (_open d) pending in
  let openBare := match _openBare d with [] => None | _ => bareFrom (S (length pending)) (_openBare d) pending (_inFence d) 0 end in
  match minPos open openBare with
  | None =>
      let holdBack := Nat.max (length (_open d)) (length (_openBare d)) - 1 in
      if holdBack <? length pending then
        let n := length pending - holdBack in
        let out := take n pending in
        ((false, out), with_ d (_bare d) (updateFence (length out) out (_inFence d)) sw PassThrough (drop n pending) (_buffer d) (_trailingAfterClose d))
      else ((false, []), with_ d (_bare d) (_inFence d) sw PassThrough pending (_buffer d) (_trailingAfterClose d))
  | Some hit =>
      let bare := bool_decide (openBare = Some hit) && negb (bool_decide (open = Some hit)) in
      let out := take hit pending in
      let '(done, d) :=
        tryClose (with_ d bare (updateFence (length out) out (_inFence d)) sw Buffering [] (drop hit pending) (_trailingAfterClose d)) in
      ((done, out), d)
  end.

(** Whether a block was completed, and what is left of the text.
    [src/src/model/ToolCallStreamDetector.cpp:59-179 ToolCallStreamDetector::feed] *)
Definition feed (txt : text) (d : ToolCallStreamDetector) : (bool * text) * ToolCallStreamDetector :=
  if negb (_active d) then ((false, txt), d)
  else
    match _state d with
    | Completed => ((false, txt), d)
    | Buffering =>
        let '(done, d) :=
          tryClose (with_ d (_bare d) (_inFence d) (_swallowDangling d) Buffering (_pending d) (_buffer d ++ txt) (_trailingAfterClose d)) in
        ((done, []), d)
    | PassThrough =>
        let pending := _pending d ++ txt in
        if _swallowDangling d then
          match swallow pending with
          | None => ((false, []), with_ d (_bare d) (_inFence d) true PassThrough pending (_buffer d) (_trailingAfterClose d))
          | Some pending => scan d false pending
          end
        else scan d false pending
    end.

(** [src/src/model/ToolCallStreamDetector.cpp:181-186 ToolCallStreamDetector::closeOnStop] *)
Definition closeOnStop (d : ToolCallStreamDetector) : ToolCallStreamDetector :=
  if negb (_active d) then d
  else
    match _state d with
    | Buffering => with_ d (_bare d) (_inFence d) (_swallowDangling d) Completed (_pending d) (_buffer d) (_trailingAfterClose d)
    | _ => d
    end.

(** [src/src/model/ToolCallStreamDetector.hpp:76-76 ToolCallStreamDetector::buffering] *)
Definition buffering (d : ToolCallStreamDetector) : bool := match _state d with Buffering => true | _ => false end.

(** [src/src/model/ToolCallStreamDetector.cpp:188-196 ToolCallStreamDetector::reset] *)
Definition reset (d : ToolCallStreamDetector) : ToolCallStreamDetector :=
  match _trailingAfterClose d with
  | [] => with_ d false (_inFence d) (_swallowDangling d) PassThrough (_pending d) [] []
  | trailing => with_ d false (_inFence d) (_swallowDangling d) PassThrough trailing [] []
  end.

(** [src/src/model/ToolCallStreamDetector.cpp:198-219 ToolCallStreamDetector::takePendingFlush] *)
Definition takePendingFlush (d : ToolCallStreamDetector) : text * ToolCallStreamDetector :=
  let '(sw, pending) :=
    match _swallowDangling d, _pending d with
    | true, _ :: _ =>
        let '(ws, rest) := afterWs (_pending d) in
        let n := Nat.min (length rest) (length kQwenClose) in
        (false, if (0 <? n) && bool_decide (take n rest = take n kQwenClose) then drop (ws + n) (_pending d) else _pending d)
    | sw, p => (sw, p)
    end in
  (pending, with_ d (_bare d) (_inFence d) sw (_state d) [] (_buffer d) (_trailingAfterClose d)).

(** ** The stream of one turn *)

(** What leaves the detector: visible text, or a call and whether it was bare. *)
Inductive event :=
  | Content (s : text)
  | Call (s : text) (bare : bool).

(** One token of answer text, as the handler drives the detector: it feeds the text,
    hands a completed call on and resets.  Everything else the handler does with a
    token is [ChatStream.onToken], which moves the detector in the same way
    ([ChatStreamProofs.onToken_drives]).
    [src/src/server/ChatCompletionHandler.cpp:1638-1695 ChatCompletionHandler::runStreamSession] *)
Definition onText (txt : text) (d : ToolCallStreamDetector) : list event * ToolCallStreamDetector :=
  let '((done, out), d) := feed txt d in
  if done then ([Content out; Call (_buffer d) (_bare d)], reset d) else ([Content out], d).

Fixpoint onTexts (txts : list text) (d : ToolCallStreamDetector) : list event * ToolCallStreamDetector :=
  match txts with
  | [] => ([], d)
  | t :: txts =>
      let '(ev, d) := onText t d in
      let '(ev', d) := onTexts txts d in (ev ++ ev', d)
  end.

(** The end of generation; a stop token in a call ends it in the same way
    ([ChatStream.closeCall], [ChatStream.settle]).
    [src/src/server/ChatCompletionHandler.cpp:1921-1928 ChatCompletionHandler::runStreamSession] *)
Definition finish (d : ToolCallStreamDetector) : list event :=
  let '(ev, d) :=
    if buffering d then let d := closeOnStop d in ([Call (_buffer d) (_bare d)], reset d) else ([], d) in
  ev ++ [Content (fst (takePendingFlush d))].

Definition stream (d : ToolCallStreamDetector) (txts : list text) : list event :=
  let '(ev, d) := onTexts txts d in ev ++ finish d.
End ToolCallStreamDetector.

Module SseEncoder.

Definition isCont (c : ascii) : bool := (N.land (N_of_ascii c) 192 =? 128)%N.

(** How many trailing bytes are continuations, three at most.
    [src/src/server/SseEncoder.cpp:168-176 SseEncoder::utf8IncompleteTailStart] *)
Fixpoint contSeen (limit : nat) (back : text) : nat :=
  match limit, back with
  | S limit, c :: back => if isCont c then S (contSeen limit back) else 0
  | _, _ => 0
  end.

(** Continuation bytes after a lead byte; [None] is no lead byte. *)
Definition expectedCont (lead : ascii) : option nat :=
  let n := N_of_ascii lead in
  if (N.land n 128 =? 0)%N then Some 0
  else if (N.land n 224 =? 192)%N then Some 1
  else if (N.land n 240 =? 224)%N then Some 2
  else if (N.land n 248 =? 240)%N then Some 3
  else None.

(** [src/src/server/SseEncoder.cpp:165-195 SseEncoder::utf8IncompleteTailStart] *)
Definition utf8IncompleteTailStart (s : text) : nat :=
  match s with
  | [] => 0
  | _ =>
      let seen := contSeen 3 (rev s) in
      let i := length s - seen in
      match i, s !! (i - 1) with
      | S _, Some lead =>
          match expectedCont lead with
          | None => length s
          | Some e => if e <=? seen then length s else i - 1
          end
      | _, _ => length s
      end
  end.

(** A delta joins the held bytes; what is complete goes out. *)
Definition pushUtf8 (pending txt : text) : text * text :=
  let p := pending ++ txt in
  let cut := utf8IncompleteTailStart p in
  (take cut p, drop cut p).
End SseEncoder.

(** ** A streamed turn *)

Module ChatStream.
Import SseEncoder.
Abbreviation Cleaner := ResponseCleaner.ResponseCleaner.
Abbreviation Detector := ToolCallStreamDetector.ToolCallStreamDetector.

(** Of [ChatStreamState], what the text of a turn passes through.
    [src/src/server/ChatStreamState.hpp:32-94 ChatStreamState] *)
Record ChatStreamState := mkState {
  cleaner : Cleaner;
  toolCallsEnabled : bool;
  toolCallDetector : Detector;
  anyToolCallEmitted : bool;
  contentHoldActive : bool;
  firstContentSeen : bool;
  heldContent : text;
  utf8Pending : text;
  reasoningPending : text;
}.

(** What is written to the client. *)
Inductive chunk :=
  | ContentChunk (s : text)
  | ReasoningChunk (s : text)
  | ToolCallChunk (block : text).

(** [src/src/server/ChatStreamState.hpp:106-132 ChatStreamState::ChatStreamState] *)
Definition makeCleaner (style : Style) (findToken : string -> Z) (preserveThinking thinkPreClosed : bool) : Cleaner :=
  if preserveThinking || (bool_decide (style = QwenChatML) && thinkPreClosed) then ResponseCleaner.create style (-1) (-1)
  else ResponseCleaner.forStyle style findToken.

(** [src/src/server/ChatCompletionHandler.cpp:1409-1441 ChatCompletionHandler::handleStream] *)
Definition newState (style : Style) (findToken : string -> Z) (preserveThinking thinkPreClosed enabled : bool) (forcedOpener : text) : ChatStreamState :=
  mkState (makeCleaner style findToken preserveThinking thinkPreClosed) enabled
    (ToolCallStreamDetector.create style enabled forcedOpener) false false false [] [] [].

Section Turn.
(** Token ids that end the turn, the text of a token, how many calls the parsers of the
    model find in a block, and what the fallback parsers make of held content. *)
Variable isStop : Z -> bool.
Variable decode : Z -> text.
Variable callsIn : text -> bool -> nat.
Variable resolveHeld : text -> list chunk.

Definition nonempty (s : text) : bool := match s with [] => false | _ => true end.
Definition optional (k : text -> chunk) (s : text) : list chunk := if nonempty s then [k s] else [].

(** [src/src/server/ChatCompletionHandler.cpp:1489-1536 ChatCompletionHandler::runStreamSession] *)
Definition emitToolCallBlock (block : text) (st : ChatStreamState) : list chunk * ChatStreamState :=
  let bare := starts (lit "<function=") block in
  match callsIn block bare with
  | 0 => (if bare then [ContentChunk block] else [], st)
  | n => (repeat (ToolCallChunk block) n,
          mkState (cleaner st) (toolCallsEnabled st) (toolCallDetector st) true (contentHoldActive st) (firstContentSeen st)
            (heldContent st) (utf8Pending st) (reasoningPending st))
  end.

Definition setDetector (d : Detector) (st : ChatStreamState) : ChatStreamState :=
  mkState (cleaner st) (toolCallsEnabled st) d (anyToolCallEmitted st) (contentHoldActive st) (firstContentSeen st)
    (heldContent st) (utf8Pending st) (reasoningPending st).

(** An open call at a stop token or at the end of the turn.
    [src/src/server/ChatCompletionHandler.cpp:1580-1587 ChatCompletionHandler::runStreamSession] *)
Definition closeCall (st : ChatStreamState) : list chunk * ChatStreamState :=
  if toolCallsEnabled st && ToolCallStreamDetector.buffering (toolCallDetector st) then
    let d := ToolCallStreamDetector.closeOnStop (toolCallDetector st) in
    let '(out, st) := emitToolCallBlock (ToolCallStreamDetector._buffer d) (setDetector d st) in
    (out, setDetector (ToolCallStreamDetector.reset d) st)
  else ([], st).

(** Whether content is held, decided at the first visible character.
    [src/src/server/ChatCompletionHandler.cpp:1640-1654 ChatCompletionHandler::runStreamSession] *)
Definition decideHold (txt : text) (st : ChatStreamState) : text * ChatStreamState :=
  let '(hold, seen) :=
    if nonempty txt && toolCallsEnabled st && negb (firstContentSeen st) then
      match skipWhile isAsciiWs txt with
      | [] => (contentHoldActive st, firstContentSeen st)
      | c :: _ => (Ascii.eqb c "<", true)
      end
    else (contentHoldActive st, firstContentSeen st) in
  let holding h := mkState (cleaner st) (toolCallsEnabled st) (toolCallDetector st) (anyToolCallEmitted st) hold seen h
    (utf8Pending st) (reasoningPending st) in
  if nonempty txt && hold then ([], holding (heldContent st ++ txt)) else (txt, holding (heldContent st)).

(** Bytes join a buffer when there are any; whole codepoints leave it. *)
Definition push (pending txt : text) : text * text := if nonempty txt then pushUtf8 pending txt else ([], pending).

Definition setCleaner (c : Cleaner) (reasoning : text) (st : ChatStreamState) : ChatStreamState :=
  mkState c (toolCallsEnabled st) (toolCallDetector st) (anyToolCallEmitted st) (contentHoldActive st) (firstContentSeen st)
    (heldContent st) (utf8Pending st) reasoning.

Definition setUtf8 (pending : text) (st : ChatStreamState) : ChatStreamState :=
  mkState (cleaner st) (toolCallsEnabled st) (toolCallDetector st) (anyToolCallEmitted st) (contentHoldActive st) (firstContentSeen st)
    (heldContent st) pending (reasoningPending st).

Definition clearHeld (hold : bool) (st : ChatStreamState) : ChatStreamState :=
  mkState (cleaner st) (toolCallsEnabled st) (toolCallDetector st) (anyToolCallEmitted st) hold (firstContentSeen st)
    [] (utf8Pending st) (reasoningPending st).

(** One generated token, the client taking every chunk; [None] only if the cleaner fails.
    [src/src/server/ChatCompletionHandler.cpp:1572-1698 ChatCompletionHandler::runStreamSession] *)
Definition onToken (id : Z) (st : ChatStreamState) : option (list chunk * ChatStreamState) :=
  if isStop id then Some (closeCall st)
  else if negb (nonempty (decode id)) then Some ([], st)
  else
    '((hasContent, txt, reasoning), c) ← ResponseCleaner.feed id (decode id) (cleaner st);
    let '(rout, rpending) := push (reasoningPending st) reasoning in
    let st := setCleaner c rpending st in
    let rchunks := optional ReasoningChunk rout in
    if negb hasContent then Some (rchunks, st)
    else
      let '((completed, txt), d) :=
        if toolCallsEnabled st then ToolCallStreamDetector.feed txt (toolCallDetector st) else ((false, txt), toolCallDetector st) in
      let '(txt, st) := decideHold txt (setDetector d st) in
      let '(out, pending) := push (utf8Pending st) txt in
      let st := setUtf8 pending st in
      let cchunks := optional ContentChunk out in
      if completed then
        let held := optional ContentChunk (heldContent st) in
        let '(calls, st) := emitToolCallBlock (ToolCallStreamDetector._buffer (toolCallDetector st)) (clearHeld false st) in
        Some (rchunks ++ cchunks ++ held ++ calls, setDetector (ToolCallStreamDetector.reset (toolCallDetector st)) st)
      else Some (rchunks ++ cchunks, st).

Fixpoint onTokens (ids : list Z) (st : ChatStreamState) : option (list chunk * ChatStreamState) :=
  match ids with
  | [] => Some ([], st)
  | id :: ids =>
      '(out, st) ← onToken id st;
      '(outs, st) ← onTokens ids st;
      Some (out ++ outs, st)
  end.

(** The open call, the text held against a split opener, and the held content.
    [src/src/server/ChatCompletionHandler.cpp:1921-1948 ChatCompletionHandler::runStreamSession] *)
Definition settle (st : ChatStreamState) : list chunk * ChatStreamState :=
  let '(calls, st) := closeCall st in
  let st :=
    if toolCallsEnabled st then
      let '(t, d) := ToolCallStreamDetector.takePendingFlush (toolCallDetector st) in
      setUtf8 (utf8Pending st ++ t) (setDetector d st)
    else st in
  if toolCallsEnabled st && negb (anyToolCallEmitted st) && (contentHoldActive st || nonempty (heldContent st)) then
    (calls ++ resolveHeld (heldContent st ++ utf8Pending st), setUtf8 [] (clearHeld (contentHoldActive st) st))
  else (calls, st).

(** [src/src/server/ChatCompletionHandler.cpp:2078-2099 ChatCompletionHandler::runStreamSession] *)
Definition flush (st : ChatStreamState) : list chunk :=
  optional ReasoningChunk (reasoningPending st) ++ optional ContentChunk (utf8Pending st).

(** What a turn writes between its first chunk and its finish reason. *)
Definition turn (ids : list Z) (st : ChatStreamState) : option (list chunk) :=
  '(outs, st) ← onTokens ids st;
  let '(out, st) := settle st in
  Some (outs ++ out ++ flush st).
End Turn.
End ChatStream.
