(* ===== verification/StreamFiltersProofs.v ===== *)
(** * What the stream filters promise

    Tool calls are cut out of the answer, code fences minded, the same way however it is
    split into tokens (with two disclosed limits);
    reasoning and answer are separated as the filter for complete answers does; and
    what is emitted never ends within a codepoint. *)

From Stdlib Require Import Ascii.
From S2P Require Import Prelude StreamFilters.
Import StreamText ChatTemplate.

(** ** Searching *)

Module StreamSearch.

Lemma starts_spec p s : starts p s = true <-> exists t, s = p ++ t.
Proof.
  unfold starts. rewrite bool_decide_eq_true. split.
  - intros H. exists (drop (length p) s). rewrite <- H at 1. by rewrite take_drop.
  - intros [t ->]. by rewrite take_app_length.
Qed.

Lemma starts_length p s : starts p s = true -> length p <= length s.
Proof. rewrite starts_spec. intros [t ->]. rewrite length_app. lia. Qed.

Lemma starts_app p s t : starts p s = true -> starts p (s ++ t) = true.
Proof. rewrite !starts_spec. intros [u ->]. exists (u ++ t). by rewrite app_assoc. Qed.

Lemma starts_app_inv p s t : length p <= length s -> starts p (s ++ t) = true -> starts p s = true.
Proof.
  intros Hl. unfold starts. rewrite !bool_decide_eq_true. by rewrite take_app_le.
Qed.

(** [p] occurs at [i]. *)
Definition occurs (p s : text) (i : nat) : Prop := i <= length s /\ starts p (drop i s) = true.

Lemma occurs_0 p s : occurs p s 0 <-> starts p s = true.
Proof. unfold occurs. cbn. split; [by intros [_ H]|split; [lia|done]]. Qed.

Lemma occurs_S p c s i : occurs p (c :: s) (S i) <-> occurs p s i.
Proof. unfold occurs. cbn [length drop]. split; intros [H ?]; (split; [lia|done]). Qed.

Lemma occurs_bound p s i : occurs p s i -> i + length p <= length s.
Proof. intros [Hi Hs]. apply starts_length in Hs. rewrite length_drop in Hs. lia. Qed.

Lemma occurs_drop p s k i : k <= length s -> occurs p (drop k s) i <-> occurs p s (k + i).
Proof. intros Hk. unfold occurs. rewrite length_drop, drop_drop. split; intros [H ?]; (split; [lia|done]). Qed.

Lemma occurs_app p s t i : occurs p s i -> occurs p (s ++ t) i.
Proof.
  intros [Hi Hs]. split; [rewrite length_app; lia|]. rewrite drop_app_le by done. by apply starts_app.
Qed.

Lemma occurs_app_inv p s t i : i + length p <= length s -> occurs p (s ++ t) i -> occurs p s i.
Proof.
  intros Hi [_ Hs]. rewrite drop_app_le in Hs by lia. split; [lia|]. eapply starts_app_inv; [|exact Hs]. rewrite length_drop. lia.
Qed.

Lemma find_cases p s :
  match find p s with
  | Some i => occurs p s i /\ forall j, j < i -> ~ occurs p s j
  | None => forall j, ~ occurs p s j
  end.
Proof.
  induction s as [|c s IH]; cbn [find].
  - destruct (starts p []) eqn:E; [split; [by apply occurs_0|lia]|]. intros j [Hj Hs]. destruct j; [|cbn in Hj; lia]. cbn in Hs. congruence.
  - destruct (starts p (c :: s)) eqn:E; [split; [by apply occurs_0|lia]|].
    destruct (find p s) as [i|]; cbn [fmap option_fmap option_map].
    + destruct IH as [Ho Hj]. split; [by apply occurs_S|]. intros [|j] Hlt; [rewrite occurs_0; congruence|]. rewrite occurs_S. apply Hj. lia.
    + intros [|j]; [rewrite occurs_0; congruence|]. by rewrite occurs_S.
Qed.

Lemma find_Some p s i : find p s = Some i <-> occurs p s i /\ forall j, j < i -> ~ occurs p s j.
Proof.
  pose proof (find_cases p s) as H. destruct (find p s) as [k|]; split.
  - by intros [= ->].
  - intros [Ho Hj]. destruct H as [Hk Hl]. destruct (Nat.lt_trichotomy i k) as [Hlt|[->|Hlt]]; [by destruct (Hl i)|done|by destruct (Hj k)].
  - done.
  - intros [Ho _]. by destruct (H i).
Qed.

Lemma find_None p s : find p s = None <-> forall i, ~ occurs p s i.
Proof.
  pose proof (find_cases p s) as H. destruct (find p s) as [k|]; [|by split]. split; [done|]. intros Hn. by destruct (Hn k), H.
Qed.

Lemma find_app p s t i : find p s = Some i -> find p (s ++ t) = Some i.
Proof.
  rewrite !find_Some. intros [Ho Hj]. split; [by apply occurs_app|]. intros j Hlt Hoj.
  apply (Hj j Hlt), (occurs_app_inv p s t); [|done]. pose proof (occurs_bound p s i Ho). lia.
Qed.

(** A match that the longer text has and the shorter has not ends beyond the shorter. *)
Lemma find_beyond p s t i : find p s = None -> find p (s ++ t) = Some i -> length s < i + length p.
Proof.
  rewrite find_None, find_Some. intros Hn [Ho _]. destruct (Nat.le_gt_cases (i + length p) (length s)); [|lia].
  destruct (Hn i). by eapply occurs_app_inv.
Qed.

Lemma find_drop_None p s k : find p s = None -> find p (drop k s) = None.
Proof.
  rewrite !find_None. intros H i Ho. destruct (Nat.le_gt_cases k (length s)).
  - apply (H (k + i)). by apply occurs_drop.
  - rewrite drop_ge in Ho by lia. apply (H (length s)). destruct Ho as [Hi Ho]. assert (i = 0) as -> by (cbn in Hi; lia).
    split; [done|]. by rewrite drop_all.
Qed.

Lemma find_take_None p s k : find p s = None -> find p (take k s) = None.
Proof.
  rewrite !find_None. intros H i Ho. apply (H i). rewrite <- (take_drop k s). by apply occurs_app.
Qed.

(** Skipping [k] characters where [p] does not begin. *)
Lemma find_shift p s k : k <= length s -> (forall j, j < k -> ~ occurs p s j) -> find p s = (fun i => k + i) <$> find p (drop k s).
Proof.
  intros Hk Hno. pose proof (find_cases p (drop k s)) as H. destruct (find p (drop k s)) as [i|]; cbn [fmap option_fmap option_map].
  - destruct H as [Ho Hj]. apply find_Some. split; [by apply occurs_drop|]. intros j Hlt.
    destruct (Nat.lt_ge_cases j k); [by apply Hno|]. replace j with (k + (j - k)) by lia. rewrite <- occurs_drop by done. apply Hj. lia.
  - apply find_None. intros j Ho. destruct (Nat.lt_ge_cases j k); [by apply (Hno j)|]. apply (H (j - k)).
    apply occurs_drop; [done|]. by replace (k + (j - k)) with j by lia.
Qed.

Lemma findFrom_find p s k : k <= length s -> findFrom p s k = (fun i => k + i) <$> find p (drop k s).
Proof. intros Hk. unfold findFrom. by rewrite (proj2 (Nat.leb_le _ _)). Qed.

Lemma findFrom_None p s k : find p s = None -> findFrom p s k = None.
Proof. intros H. unfold findFrom. destruct (k <=? length s); [|done]. by rewrite find_drop_None. Qed.

Lemma skipWhile_suffix f s : exists k, skipWhile f s = drop k s /\ k <= length s.
Proof.
  induction s as [|c s [k [IH Hk]]]; cbn [skipWhile]; [by exists 0|].
  destruct (f c); [exists (S k); cbn; split; [done|lia]|exists 0; split; [done|cbn; lia]].
Qed.
End StreamSearch.
Import StreamSearch.

(** ** Tool calls *)

Module ToolCallSplit.
Import ToolCallStreamDetector.

(** Within a code fence behind [s], [f] telling whether it was before: every
    three backticks switch. *)
Fixpoint parity (s : text) (f : bool) : bool :=
  match s with
  | [] => f
  | _ :: r => if starts kFence s then match r with _ :: _ :: r' => parity r' (negb f) | _ => f end else parity r f
  end.

(** Where a bare opener counts: outside a code fence. *)
Definition bareAt (f : bool) (s : text) (q : nat) : bool := starts kBareOpen (drop q s) && negb (parity (take q s) f).

Definition bareOpen (style : Style) (f : bool) (s : text) : option nat :=
  match style with QwenChatML => List.find (bareAt f s) (seq 0 (length s)) | _ => None end.

Lemma list_find_app {A} (P : A -> bool) l k :
  List.find P (l ++ k) = match List.find P l with Some x => Some x | None => List.find P k end.
Proof. induction l as [|x l IH]; [done|]. cbn. by destruct (P x). Qed.

Lemma first_cases (P : nat -> bool) n :
  match List.find P (seq 0 n) with
  | Some q => q < n /\ P q = true /\ forall j, j < q -> P j = false
  | None => forall j, j < n -> P j = false
  end.
Proof.
  induction n as [|n IH]; [cbn; lia|]. rewrite seq_S, list_find_app. destruct (List.find P (seq 0 n)) as [q|].
  - destruct IH as (? & ? & ?). split; [lia|done].
  - cbn. destruct (P n) eqn:E; [by split; [lia|split]|]. intros j Hj. destruct (decide (j = n)) as [->|]; [done|]. apply IH. lia.
Qed.

Lemma bareAt_true f s q : bareAt f s q = true <-> starts kBareOpen (drop q s) = true /\ parity (take q s) f = false.
Proof. unfold bareAt. rewrite andb_true_iff, negb_true_iff. done. Qed.

Lemma bareAt_occurs f s q : bareAt f s q = true -> occurs kBareOpen s q.
Proof.
  rewrite bareAt_true. intros [H _]. split; [|done]. destruct (Nat.le_gt_cases q (length s)); [done|].
  rewrite drop_ge in H by lia. done.
Qed.

Lemma bareOpen_Some f s q : bareOpen QwenChatML f s = Some q <-> bareAt f s q = true /\ forall j, j < q -> bareAt f s j = false.
Proof.
  cbn [bareOpen]. pose proof (first_cases (bareAt f s) (length s)) as H. destruct (List.find _ _) as [k|]; split.
  - intros [= <-]. by destruct H as (_ & ? & ?).
  - intros [Hq Hj]. destruct H as (_ & Hk & Hl). destruct (Nat.lt_trichotomy q k) as [Hlt|[->|Hlt]]; [|done|].
    + specialize (Hl q Hlt). congruence.
    + specialize (Hj k Hlt). congruence.
  - done.
  - intros [Hq _]. pose proof (bareAt_occurs _ _ _ Hq) as Ho. apply occurs_bound in Ho. change (length kBareOpen) with 10 in Ho.
    rewrite H in Hq by lia. done.
Qed.

Lemma bareOpen_None f s : bareOpen QwenChatML f s = None <-> forall j, bareAt f s j = false.
Proof.
  split.
  - cbn [bareOpen]. intros E j. pose proof (first_cases (bareAt f s) (length s)) as H. rewrite E in H.
    destruct (bareAt f s j) eqn:Ej; [|done]. pose proof (bareAt_occurs _ _ _ Ej) as Ho. apply occurs_bound in Ho.
    change (length kBareOpen) with 10 in Ho. rewrite H in Ej by lia. done.
  - intros H. destruct (bareOpen QwenChatML f s) as [q|] eqn:E; [|done]. apply bareOpen_Some in E as [E _]. by rewrite H in E.
Qed.

(** ** Counting fences *)

Lemma parity_cons c r f : starts kFence (c :: r) = false -> parity (c :: r) f = parity r f.
Proof. intros H. cbn [parity]. by rewrite H. Qed.

Lemma parity_fence s f : parity (kFence ++ s) f = parity s (negb f).
Proof. cbn [app kFence lit String.list_ascii_of_string parity]. done. Qed.

Lemma parity_find s f :
  parity s f = match find kFence s with None => f | Some i => parity (drop (i + length kFence) s) (negb f) end.
Proof.
  induction s as [|c r IH]; [done|]. cbn [find]. destruct (starts kFence (c :: r)) eqn:E.
  - apply starts_spec in E as [t Et]. rewrite Et, parity_fence. done.
  - rewrite parity_cons, IH by done. destruct (find kFence r); done.
Qed.

Lemma updateFence_parity n : forall s f, length s <= n -> updateFence n s f = parity s f.
Proof.
  induction n as [|n IH]; intros s f Hn.
  - destruct s; [done|cbn in Hn; lia].
  - cbn [updateFence]. rewrite parity_find. destruct (find kFence s) as [i|] eqn:E; [|done]. rewrite IH; [done|].
    apply find_Some in E as [Ho _]. apply occurs_bound in Ho. change (length kFence) with 3 in *. rewrite length_drop. lia.
Qed.

(** No fence of [s] lies across the place [n]. *)
Definition straddled (s : text) (n : nat) : bool :=
  existsb (fun i => (i <? n) && (n <? i + length kFence) && starts kFence (drop i s)) (seq 0 (length s)).

Lemma straddled_false s n : straddled s n = false <-> forall i, i < n -> n < i + 3 -> starts kFence (drop i s) = false.
Proof.
  unfold straddled. rewrite <- not_true_iff_false, existsb_exists. change (length kFence) with 3. split.
  - intros H i H1 H2. apply not_true_iff_false. intros Hs. apply H. exists i.
    rewrite !andb_true_iff, !Nat.ltb_lt. split; [|done]. apply in_seq. apply starts_length in Hs. rewrite length_drop in Hs.
    change (length kFence) with 3 in Hs. lia.
  - intros H (i & _ & Hi). rewrite !andb_true_iff, !Nat.ltb_lt in Hi. destruct Hi as [[H1 H2] Hs]. by rewrite H in Hs.
Qed.

Lemma straddled_0 s : straddled s 0 = false.
Proof. apply straddled_false. lia. Qed.

Lemma straddled_tl c s n : straddled (c :: s) (S n) = false -> straddled s n = false.
Proof. rewrite !straddled_false. intros H i H1 H2. apply (H (S i)); lia. Qed.

Lemma straddled_take s n k : straddled s n = false -> straddled (take k s) n = false.
Proof.
  rewrite !straddled_false. intros H i H1 H2. specialize (H i H1 H2). apply not_true_iff_false. intros Hs.
  apply not_true_iff_false in H. apply H. rewrite <- (take_drop k s) at 1.
  destruct (Nat.le_gt_cases i (length (take k s))) as [Hi|Hi].
  - rewrite drop_app_le by done. by apply starts_app.
  - rewrite drop_ge in Hs by lia. done.
Qed.

Lemma straddled_app s t n : n + 2 <= length s -> straddled s n = false -> straddled (s ++ t) n = false.
Proof.
  intros Hn. rewrite !straddled_false. intros H i H1 H2. specialize (H i H1 H2). apply not_true_iff_false. intros Hs.
  apply not_true_iff_false in H. apply H. rewrite drop_app_le in Hs by lia. eapply starts_app_inv; [|exact Hs].
  rewrite length_drop. change (length kFence) with 3. lia.
Qed.

Lemma straddled_drop s n k : k <= n -> straddled s n = false -> straddled (drop k s) (n - k) = false.
Proof.
  intros Hk. rewrite !straddled_false. intros H i H1 H2. rewrite drop_drop. apply H; lia.
Qed.

(** Fences can be counted on either side of a place they do not lie across. *)
Lemma parity_split s : forall n f, straddled s n = false -> parity s f = parity (drop n s) (parity (take n s) f).
Proof.
  induction s as [s IH] using (induction_ltof1 _ (@length ascii)); unfold ltof in IH. intros n f Hn.
  destruct s as [|c r]; [by rewrite drop_nil, take_nil|]. destruct n as [|n]; [done|].
  destruct (starts kFence (c :: r)) eqn:E.
  - apply starts_spec in E as [t Et]. rewrite Et in *.
    assert (Hn3 : 3 <= S n). { destruct (Nat.le_gt_cases 3 (S n)); [done|]. rewrite straddled_false in Hn. by specialize (Hn 0 ltac:(lia) ltac:(lia)). }
    destruct n as [|[|n]]; [lia..|]. rewrite parity_fence.
    change (take (S (S (S n))) (kFence ++ t)) with (kFence ++ take n t). change (drop (S (S (S n))) (kFence ++ t)) with (drop n t).
    rewrite parity_fence. apply IH; [cbn; lia|]. by do 3 apply straddled_tl in Hn.
  - cbn [take drop]. rewrite parity_cons by done. rewrite parity_cons.
    + apply IH; [cbn; lia|]. by apply straddled_tl in Hn.
    + apply not_true_iff_false. intros Hs. apply not_true_iff_false in E. apply E. apply starts_spec in Hs as [u Hu].
      apply starts_spec. exists (u ++ drop n r). rewrite app_assoc, <- Hu. cbn. by rewrite take_drop.
Qed.

Lemma parity_cut s n j f : straddled s n = false -> parity (take (n + j) s) f = parity (take j (drop n s)) (parity (take n s) f).
Proof.
  intros Hn. rewrite (parity_split _ n) by (by apply straddled_take).
  rewrite take_take, Nat.min_l by lia. by rewrite take_drop_commute.
Qed.

(** ** The detector counts as the reference does *)

(** A fence that begins before an opener ends before it. *)
Lemma fence_before s q pos : starts kFence (drop q s) = true -> occurs kBareOpen s pos -> q < pos -> q + 3 <= pos.
Proof.
  intros Hq [_ Hp] Hlt. apply starts_spec in Hq as [u Hu]. apply starts_spec in Hp as [v Hv].
  destruct (Nat.le_gt_cases (q + 3) pos); [done|]. exfalso.
  replace pos with (q + (pos - q)) in Hv by lia. rewrite <- drop_drop, Hu in Hv.
  assert (pos - q = 1 \/ pos - q = 2) as [E|E] by lia; rewrite E in Hv; discriminate Hv.
Qed.

Lemma find_before s m : occurs kBareOpen s m ->
  find kFence (take m s) = match find kFence s with Some i => if m <=? i then None else Some i | None => None end.
Proof.
  intros Hm. destruct (find kFence s) as [i|] eqn:E; [|by apply find_take_None]. apply find_Some in E as [Ho Hj].
  destruct (Nat.leb_spec m i) as [Hle|Hlt].
  - apply find_None. intros j Hoj. pose proof (occurs_bound _ _ _ Hoj) as Hb. rewrite length_take in Hb. change (length kFence) with 3 in Hb.
    apply (Hj j); [lia|]. rewrite <- (take_drop m s). by apply occurs_app.
  - pose proof (fence_before s i m (proj2 Ho) Hm Hlt) as H3. apply find_Some. split.
    + apply (occurs_app_inv _ _ (drop m s)); [|by rewrite take_drop]. rewrite length_take. destruct Hm as [? _]. change (length kFence) with 3. lia.
    + intros j Hjl Hoj. apply (Hj j Hjl). rewrite <- (take_drop m s). by apply occurs_app.
Qed.

Lemma fencedAt_parity s pos : occurs kBareOpen s pos -> forall fuel p f, p <= pos -> pos - p <= fuel ->
  fencedAt fuel s pos p f = parity (take (pos - p) (drop p s)) f.
Proof.
  intros Ho. pose proof (proj1 Ho) as Hlen. induction fuel as [|fuel IH]; intros p f Hp Hf.
  - replace (pos - p) with 0 by lia. done.
  - cbn [fencedAt]. destruct (Nat.ltb_spec p pos) as [Hlt|Hge]; [|by replace (pos - p) with 0 by lia].
    assert (Hos : occurs kBareOpen (drop p s) (pos - p)) by (apply occurs_drop; [lia|by replace (p + (pos - p)) with pos by lia]).
    rewrite findFrom_find by lia. rewrite parity_find, (find_before _ _ Hos).
    destruct (find kFence (drop p s)) as [i|] eqn:E; cbn [fmap option_fmap option_map]; [|done].
    destruct (Nat.leb_spec pos (p + i)) as [H1|H1]; [by rewrite (proj2 (Nat.leb_le _ _)) by lia|].
    rewrite (proj2 (Nat.leb_gt _ _)) by lia. apply find_Some in E as [Hi _].
    pose proof (fence_before _ _ _ (proj2 Hi) Hos ltac:(lia)). change (length kFence) with 3. rewrite IH by lia.
    rewrite skipn_firstn_comm, drop_drop. f_equal. f_equal; [lia|f_equal; lia].
Qed.

Lemma bareFrom_cases s f : forall fuel q0, length s < fuel + q0 ->
  match bareFrom fuel kBareOpen s f q0 with
  | Some q => q0 <= q /\ bareAt f s q = true /\ forall j, q0 <= j -> j < q -> bareAt f s j = false
  | None => forall j, q0 <= j -> bareAt f s j = false
  end.
Proof.
  assert (Hno : forall q0, length s < q0 -> forall j, q0 <= j -> bareAt f s j = false).
  { intros q0 H j Hj. destruct (bareAt f s j) eqn:E; [|done]. apply bareAt_occurs in E as [? _]. lia. }
  induction fuel as [|fuel IH]; intros q0 Hf; cbn [bareFrom]; [by apply Hno|].
  destruct (Nat.le_gt_cases q0 (length s)) as [Hq0|Hq0].
  2:{ unfold findFrom. rewrite (proj2 (Nat.leb_gt _ _)) by lia. by apply Hno. }
  rewrite findFrom_find by done. pose proof (find_cases kBareOpen (drop q0 s)) as Hc.
  assert (Hskip : forall j, q0 <= j -> ~ occurs kBareOpen (drop q0 s) (j - q0) -> bareAt f s j = false).
  { intros j Hj Hn. destruct (bareAt f s j) eqn:E; [|done]. destruct Hn. apply bareAt_occurs in E. apply occurs_drop; [done|].
    by replace (q0 + (j - q0)) with j by lia. }
  destruct (find kBareOpen (drop q0 s)) as [i|]; cbn [fmap option_fmap option_map].
  2:{ intros j Hj. by apply Hskip. }
  destruct Hc as [Ho Hj]. apply occurs_drop in Ho; [|done].
  rewrite (fencedAt_parity s (q0 + i) Ho) by (destruct Ho; lia). rewrite drop_0, Nat.sub_0_r.
  assert (Hat : bareAt f s (q0 + i) = negb (parity (take (q0 + i) s) f)) by (unfold bareAt; by rewrite (proj2 Ho)).
  assert (Hbelow : forall j, q0 <= j -> j < q0 + i -> bareAt f s j = false) by (intros j H1 H2; apply Hskip; [done|]; apply Hj; lia).
  destruct (negb (parity (take (q0 + i) s) f)) eqn:En.
  - split; [lia|done].
  - specialize (IH (q0 + i + 1) ltac:(lia)). destruct (bareFrom fuel kBareOpen s f (q0 + i + 1)) as [q|].
    + destruct IH as (H1 & H2 & H3). split; [lia|]. split; [done|]. intros j Hj1 Hj2.
      destruct (Nat.lt_trichotomy j (q0 + i)) as [?|[->|?]]; [by apply Hbelow|done|apply H3; lia].
    + intros j Hj1. destruct (Nat.lt_trichotomy j (q0 + i)) as [?|[->|?]]; [by apply Hbelow|done|apply IH; lia].
Qed.

Lemma bareFrom_bareOpen s f : bareFrom (S (length s)) kBareOpen s f 0 = bareOpen QwenChatML f s.
Proof.
  pose proof (bareFrom_cases s f (S (length s)) 0 ltac:(lia)) as H. destruct (bareFrom _ _ _ _ _) as [q|]; symmetry.
  - destruct H as (_ & ? & H). apply bareOpen_Some. split; [done|]. intros j ?. apply H; lia.
  - apply bareOpen_None. intros j. apply H. lia.
Qed.

(** ** White space and the dangling closer *)

Lemma afterWs_spec s : exists w, s = w ++ snd (afterWs s) /\ fst (afterWs s) = length w /\ Forall (fun c => isAsciiWs c = true) w /\
  (forall c r, snd (afterWs s) = c :: r -> isAsciiWs c = false).
Proof.
  unfold afterWs. cbn [fst snd]. induction s as [|c s (w & Hs & Hl & Hw & Hr)]; cbn [skipWhile length].
  - by exists [].
  - destruct (isAsciiWs c) eqn:E.
    + exists (c :: w). cbn [app length]. rewrite <- Hs. pose proof (f_equal length Hs) as Hlen. rewrite length_app in Hlen.
      split; [done|]. split; [lia|]. split; [by constructor|done].
    + exists []. split; [done|]. split; [cbn; lia|]. split; [done|]. by intros ? ? [= <- <-].
Qed.

Lemma afterWs_app s t c r : snd (afterWs s) = c :: r -> afterWs (s ++ t) = (fst (afterWs s), snd (afterWs s) ++ t).
Proof.
  unfold afterWs. cbn [fst snd]. intros H.
  assert (Hskip : skipWhile isAsciiWs (s ++ t) = skipWhile isAsciiWs s ++ t).
  { induction s as [|d s IH]; [done|]. cbn [skipWhile app] in *. destruct (isAsciiWs d); [by apply IH|done]. }
  rewrite Hskip, !length_app. f_equal. lia.
Qed.

Lemma starts_prefix p s : length s < length p -> starts p s = false.
Proof. intros H. destruct (starts p s) eqn:E; [|done]. apply starts_length in E. lia. Qed.

Lemma starts_cmp p s t : length s < length p -> starts s p = false -> starts p (s ++ t) = false.
Proof.
  intros Hl Hn. destruct (starts p (s ++ t)) eqn:E; [|done]. apply starts_spec in E as [u E]. enough (starts s p = true) by congruence.
  unfold starts. apply bool_decide_eq_true. pose proof (f_equal (take (length s)) E) as H.
  rewrite take_app_length, take_app_le in H by lia. done.
Qed.

Lemma starts_cmp' p s t : length s < length p -> starts s p = false -> starts (s ++ t) p = false.
Proof.
  intros Hl Hn. destruct (starts (s ++ t) p) eqn:E; [|done]. apply starts_spec in E as [u E]. enough (starts s p = true) by congruence.
  apply starts_spec. exists (t ++ u). by rewrite app_assoc.
Qed.


(** ** The reference

    It works on the whole text: the first opener and whether it is a bare one, the
    call up to its closer, and on from there. *)

Definition opener (style : Style) (f : bool) (s : text) : option (nat * bool) :=
  let o := find (openMarkerFor style) s in
  let b := bareOpen style f s in
  (fun h => (h, bool_decide (b = Some h) && negb (bool_decide (o = Some h)))) <$> minPos o b.

Definition closer (style : Style) (bare : bool) : text := if bare then kBareClose else closeMarkerFor style.

(** The text without one closer that follows a bare call, or the start of one at the end. *)
Definition dangling (s : text) : text :=
  let '(ws, rest) := afterWs s in
  if starts kQwenClose rest then drop (ws + length kQwenClose) s
  else match rest with [] => s | _ => if starts rest kQwenClose then [] else s end.

(** The text up to the first call, then each call with the text behind it; [f] tells
    whether the text begins within a fence, and what a call holds is no fence. *)
Fixpoint splitN (fuel : nat) (style : Style) (f sw : bool) (s : text) : text * list (text * bool * text) :=
  match fuel with
  | 0 => (s, [])
  | S fuel =>
      let s := if sw then dangling s else s in
      match opener style f s with
      | None => (s, [])
      | Some (h, b) =>
          let body := drop h s in
          (take h s,
           match find (closer style b) body with
           | None => [(body, b, [])]
           | Some e =>
               let n := e + length (closer style b) in
               let '(t, calls) := splitN fuel style (parity (take h s) f) b (drop n body) in (take n body, b, t) :: calls
           end)
      end
  end.

Definition splitCalls (style : Style) (f sw : bool) (s : text) := splitN (S (length s)) style f sw s.

(** A call and what follows it. *)
Definition callAnd (style : Style) (f b : bool) (body : text) : list (text * bool * text) :=
  match find (closer style b) body with
  | None => [(body, b, [])]
  | Some e =>
      let n := e + length (closer style b) in
      let '(t, calls) := splitCalls style f b (drop n body) in (take n body, b, t) :: calls
  end.

(** What was passed on, consecutive texts being one. *)
Definition view1 (e : event) (v : text * list (text * bool * text)) : text * list (text * bool * text) :=
  match e with
  | Content s => (s ++ fst v, snd v)
  | Call s bare => ([], (s, bare, fst v) :: snd v)
  end.
Definition view (ev : list event) : text * list (text * bool * text) := foldr view1 ([], []) ev.

(** ** What is asked of the tokens *)

(** No token ends eleven or twelve characters behind the beginning of a fence: ten are
    held back for an opener, so that the fence would be passed on in two parts. *)
Fixpoint fencesWhole (s : text) (txts : list text) : bool :=
  match txts with
  | [] => true
  | t :: txts => negb (straddled (s ++ t) (length (s ++ t) - 10)) && fencesWhole (s ++ t) txts
  end.

(** An opener behind the end of a marker, in one token. *)
Definition crowded (style : Style) (t : text) : bool :=
  existsb (fun h =>
    (starts (openMarkerFor style) (drop h t) || match style with QwenChatML => starts kBareOpen (drop h t) | _ => false end) &&
    existsb (Ascii.eqb ">") (take h t)) (seq 0 (length t)).

(** ** Lemmas of the reference *)

Abbreviation dialect style := (style = QwenChatML \/ style = Gemma4).
Abbreviation plain := (Forall (fun c : ascii => c <> "`"%char)).

Lemma plain_no_fence s k : plain (take k s) -> forall i, i < k -> starts kFence (drop i s) = false.
Proof.
  intros H i Hi. apply not_true_iff_false. intros Hs. apply starts_spec in Hs as [u Hu].
  assert (Hl : s !! i = Some "`"%char) by (replace i with (i + 0) by lia; by rewrite <- lookup_drop, Hu).
  assert (Ht : take k s !! i = Some "`"%char) by (by rewrite lookup_take_lt).
  rewrite Forall_lookup in H. by apply (H _ _ Ht).
Qed.

Lemma plain_straddled s k : plain (take k s) -> straddled s k = false.
Proof. intros H. apply straddled_false. intros i Hi _. by apply (plain_no_fence s k). Qed.

Lemma plain_parity s f : plain s -> parity s f = f.
Proof.
  intros H. rewrite parity_find. assert (Hn : find kFence s = None).
  { apply find_None. intros i Ho. pose proof (occurs_bound _ _ _ Ho) as Hb. change (length kFence) with 3 in Hb.
    destruct Ho as [_ Ho]. rewrite (plain_no_fence s (length s)) in Ho; [done|by rewrite take_ge|lia]. }
  by rewrite Hn.
Qed.

Lemma plain_close : plain kQwenClose.
Proof. unfold kQwenClose. cbn. repeat (constructor; [discriminate|]). constructor. Qed.

Lemma dangling_suffix s : exists k, dangling s = drop k s /\ plain (take k s).
Proof.
  unfold dangling. destruct (afterWs_spec s) as (w & Hs & Hl & Hw & _). destruct (afterWs s) as [ws rest]. cbn [fst snd] in *.
  assert (Hpw : plain w) by (eapply Forall_impl; [exact Hw|]; intros c Hc ->; done). subst ws.
  destruct (starts kQwenClose rest) eqn:E.
  - apply starts_spec in E as [t ->]. exists (length w + length kQwenClose). split; [done|].
    rewrite Hs, app_assoc, <- length_app, take_app_length. apply Forall_app. split; [done|exact plain_close].
  - destruct rest as [|c r]; [by exists 0|]. destruct (starts (c :: r) kQwenClose) eqn:E2; [|by exists 0].
    exists (length s). rewrite drop_all, take_ge by lia. split; [done|]. rewrite Hs. apply Forall_app. split; [done|].
    apply starts_spec in E2 as [t E2]. pose proof plain_close as Hq. rewrite E2 in Hq. apply Forall_app in Hq as [Hq _]. exact Hq.
Qed.

Lemma dangling_length s : length (dangling s) <= length s.
Proof. destruct (dangling_suffix s) as (k & -> & _). rewrite length_drop. lia. Qed.

Lemma closer_pos style b : dialect style -> 0 < length (closer style b).
Proof. intros [-> | ->]; destruct b; cbn; lia. Qed.

Lemma splitN_fuel style : dialect style -> forall n m f sw s, length s < n -> length s < m ->
  splitN n style f sw s = splitN m style f sw s.
Proof.
  intros Hst. induction n as [|n IH]; intros [|m] f sw s Hn Hm; try lia. cbn [splitN].
  set (s' := if sw then dangling s else s). assert (Hs : length s' <= length s) by (unfold s'; destruct sw; [apply dangling_length|done]).
  destruct (opener style f s') as [[h b]|]; [|done]. f_equal. destruct (find (closer style b) (drop h s')) as [e|] eqn:E; [|done].
  apply find_Some in E as [Ho _]. apply occurs_bound in Ho. pose proof (closer_pos style b Hst).
  rewrite (IH m _ b (drop (e + length (closer style b)) (drop h s'))); [done|rewrite !length_drop in *; lia..].
Qed.

Lemma splitCalls_eq style f sw s : dialect style ->
  splitCalls style f sw s =
  let s := if sw then dangling s else s in
  match opener style f s with None => (s, []) | Some (h, b) => (take h s, callAnd style (parity (take h s) f) b (drop h s)) end.
Proof.
  intros Hst. unfold splitCalls at 1. cbn [splitN]. set (s' := if sw then dangling s else s).
  assert (Hs : length s' <= length s) by (unfold s'; destruct sw; [apply dangling_length|done]).
  cbn zeta. destruct (opener style f s') as [[h b]|]; [|done]. f_equal. unfold callAnd, splitCalls.
  destruct (find (closer style b) (drop h s')) as [e|] eqn:E; [|done].
  apply find_Some in E as [Ho _]. apply occurs_bound in Ho. pose proof (closer_pos style b Hst).
  erewrite splitN_fuel; [reflexivity|done|rewrite !length_drop in *; lia..].
Qed.

(** Fences count in the Qwen dialect alone. *)
Lemma splitN_gemma n : forall f f' sw s, splitN n Gemma4 f sw s = splitN n Gemma4 f' sw s.
Proof.
  induction n as [|n IH]; intros f f' sw s; [done|]. cbn [splitN]. change (opener Gemma4 f) with (opener Gemma4 f').
  destruct (opener Gemma4 f' _) as [[h b]|]; [|done]. f_equal. destruct (find _ _); [|done]. by rewrite (IH _ (parity (take h (if sw then dangling s else s)) f')).
Qed.

Lemma callAnd_fence style f f' b body : dialect style -> (style = QwenChatML -> f = f') -> callAnd style f b body = callAnd style f' b body.
Proof.
  intros [-> | ->] H; [by rewrite H|]. unfold callAnd, splitCalls. destruct (find _ body); [|done]. by rewrite (splitN_gemma _ f f').
Qed.

(** ** Openers *)

Lemma kinds_differ s i : occurs kQwenOpen s i -> occurs kBareOpen s i -> False.
Proof.
  intros [_ H1] [_ H2]. apply starts_spec in H1 as [t H1]. apply starts_spec in H2 as [u H2]. rewrite H1 in H2. done.
Qed.

Lemma opener_None style f s : opener style f s = None <-> find (openMarkerFor style) s = None /\ bareOpen style f s = None.
Proof. unfold opener. destruct (find (openMarkerFor style) s), (bareOpen style f s); cbn; naive_solver. Qed.

Lemma bareAt_app f s t q : bareAt f s q = true -> bareAt f (s ++ t) q = true.
Proof.
  intros H. pose proof (occurs_bound _ _ _ (bareAt_occurs _ _ _ H)) as Hb. apply bareAt_true in H as [H1 H2]. apply bareAt_true.
  rewrite drop_app_le, take_app_le by lia. split; [by apply starts_app|done].
Qed.

Lemma bareAt_app_inv f s t q : q + 10 <= length s -> bareAt f (s ++ t) q = true -> bareAt f s q = true.
Proof.
  intros Hl. rewrite !bareAt_true, take_app_le, drop_app_le by lia. intros [H1 H2]. split; [|done].
  eapply starts_app_inv; [|exact H1]. rewrite length_drop. change (length kBareOpen) with 10. lia.
Qed.

Lemma bareAt_drop f s k q : straddled s k = false -> bareAt (parity (take k s) f) (drop k s) q = bareAt f s (k + q).
Proof. intros H. unfold bareAt. by rewrite drop_drop, (parity_cut _ _ _ _ H). Qed.

Lemma opener_drop style f s k : dialect style -> (style = QwenChatML -> straddled s k = false) ->
  opener style f s = None -> opener style (parity (take k s) f) (drop k s) = None.
Proof.
  intros Hst Hk. rewrite !opener_None. intros [H1 H2]. split; [by apply find_drop_None|].
  destruct Hst as [-> | ->]; [|done]. rewrite bareOpen_None in *. intros j. by rewrite bareAt_drop by auto.
Qed.

Lemma bareOpen_app f s t q : bareOpen QwenChatML f s = Some q -> bareOpen QwenChatML f (s ++ t) = Some q.
Proof.
  rewrite !bareOpen_Some. intros [H1 H2]. split; [by apply bareAt_app|]. intros j Hj. apply not_true_iff_false. intros Ha.
  pose proof (occurs_bound _ _ _ (bareAt_occurs _ _ _ H1)) as Hb. change (length kBareOpen) with 10 in Hb.
  apply bareAt_app_inv in Ha; [|lia]. by rewrite H2 in Ha.
Qed.

Lemma bareOpen_beyond f s t q : bareOpen QwenChatML f s = None -> bareOpen QwenChatML f (s ++ t) = Some q ->
  length s < q + 10 /\ occurs kBareOpen (s ++ t) q.
Proof.
  rewrite bareOpen_None, bareOpen_Some. intros Hn [H _]. split; [|by eapply bareAt_occurs].
  destruct (Nat.le_gt_cases (q + 10) (length s)) as [Hl|]; [|lia]. apply bareAt_app_inv in H; [|done]. by rewrite Hn in H.
Qed.

(** An opener that is complete stays the first one. *)
Lemma opener_app style f s t h b : dialect style -> opener style f s = Some (h, b) -> opener style f (s ++ t) = Some (h, b).
Proof.
  intros [-> | ->]; unfold opener; cbn [openMarkerFor].
  2:{ cbn [bareOpen]. destruct (find kGemmaOpen s) as [o|] eqn:E; cbn [minPos fmap option_fmap option_map]; [|done]. rewrite (find_app _ _ t _ E). done. }
  destruct (find kQwenOpen s) as [o|] eqn:Eo, (bareOpen QwenChatML f s) as [q|] eqn:Eb; cbn [minPos fmap option_fmap option_map];
    rewrite ?(find_app _ _ t _ Eo), ?(bareOpen_app _ _ t _ Eb); try done; intros [= <- <-].
  - destruct (bareOpen QwenChatML f (s ++ t)) as [q|] eqn:Eq; [|done]. destruct (bareOpen_beyond _ _ _ _ Eb Eq) as [Hq _].
    apply find_Some in Eo as [Ho _]. apply occurs_bound in Ho. change (length kQwenOpen) with 11 in Ho.
    cbn. rewrite Nat.min_l by lia. do 2 f_equal. rewrite !bool_decide_eq_false_2 by (intros [=]; lia). done.
  - destruct (find kQwenOpen (s ++ t)) as [o|] eqn:Eq; [|done]. pose proof (find_beyond _ _ _ _ Eo Eq) as Hq.
    pose proof (bareOpen_app _ _ t _ Eb) as Eb'. apply bareOpen_Some in Eb' as [Hb' _]. apply bareAt_occurs in Hb'. apply find_Some in Eq as [Ho' _].
    assert (o <> q) by (intros ->; by eapply kinds_differ).
    apply bareOpen_Some in Eb as [Hb _]. apply bareAt_occurs, occurs_bound in Hb. change (length kQwenOpen) with 11 in Hq. change (length kBareOpen) with 10 in Hb.
    cbn. rewrite Nat.min_r by lia. do 2 f_equal. rewrite !(bool_decide_eq_true_2 (Some q = Some q)) by done.
    rewrite !bool_decide_eq_false_2 by (try done; intros [=]; lia). done.
Qed.

Lemma decide_shift n (a b : nat) : bool_decide (Some (n + a) = Some (n + b)) = bool_decide (Some a = Some b).
Proof. apply bool_decide_ext. split; intros [= ?]; f_equal; lia. Qed.

(** The most that is held back: one less than the longest opener. *)
Definition hold (style : Style) : nat := Nat.max (length (openMarkerFor style)) (match style with QwenChatML => length kBareOpen | _ => 0 end) - 1.

Lemma bareOpen_shift f s t n : bareOpen QwenChatML f s = None -> n + 10 <= length s -> straddled s n = false ->
  bareOpen QwenChatML f (s ++ t) = (fun i => n + i) <$> bareOpen QwenChatML (parity (take n s) f) (drop n s ++ t).
Proof.
  intros Hn Hl Hs. assert (Hs' : straddled (s ++ t) n = false) by (apply straddled_app; [lia|done]).
  rewrite <- (drop_app_le s t n), <- (take_app_le s t n) by lia.
  assert (Hno : forall j, j < n -> bareAt f (s ++ t) j = false).
  { intros j Hj. apply not_true_iff_false. intros Ha. apply bareAt_app_inv in Ha; [|lia]. rewrite bareOpen_None in Hn. by rewrite Hn in Ha. }
  destruct (bareOpen QwenChatML _ (drop n (s ++ t))) as [q|] eqn:E; cbn [fmap option_fmap option_map].
  - apply bareOpen_Some in E as [Hq Hj]. rewrite bareAt_drop in Hq by done. apply bareOpen_Some. split; [done|]. intros j Hjq.
    destruct (Nat.lt_ge_cases j n); [by apply Hno|]. specialize (Hj (j - n) ltac:(lia)). rewrite bareAt_drop in Hj by done.
    by replace (n + (j - n)) with j in Hj by lia.
  - rewrite bareOpen_None in E. apply bareOpen_None. intros j. destruct (Nat.lt_ge_cases j n); [by apply Hno|].
    specialize (E (j - n)). rewrite bareAt_drop in E by done. by replace (n + (j - n)) with j in E by lia.
Qed.

Lemma opener_shift style f s t n : dialect style -> opener style f s = None -> n + hold style <= length s ->
  (style = QwenChatML -> straddled s n = false) ->
  opener style f (s ++ t) = (fun hb => (n + fst hb, snd hb)) <$> opener style (parity (take n s) f) (drop n s ++ t).
Proof.
  intros Hst Hn Hl Hs. apply opener_None in Hn as [H1 H2].
  assert (Hsh : find (openMarkerFor style) (s ++ t) = (fun i => n + i) <$> find (openMarkerFor style) (drop n s ++ t)).
  { rewrite <- drop_app_le by lia. apply find_shift; [rewrite length_app; lia|]. intros j Hj Ho. rewrite find_None in H1. apply (H1 j).
    apply (occurs_app_inv _ s t); [|done]. destruct Hst as [-> | ->]; cbn in *; lia. }
  assert (Hb : bareOpen style f (s ++ t) = (fun i => n + i) <$> bareOpen style (parity (take n s) f) (drop n s ++ t)).
  { destruct Hst as [-> | ->]; [|done]. apply bareOpen_shift; [done|exact Hl|by apply Hs]. }
  unfold opener. rewrite Hsh, Hb. destruct (find (openMarkerFor style) (drop n s ++ t)) as [o|], (bareOpen style (parity (take n s) f) (drop n s ++ t)) as [q|];
    cbn [fmap option_fmap option_map minPos fst snd]; rewrite ?Nat.add_min_distr_l, ?decide_shift; done.
Qed.

(** What was decided about a dangling closer stays decided. *)
Lemma swallow_Some p p' t : swallow p = Some p' -> dangling (p ++ t) = p' ++ t /\ exists k, k <= length p /\ p' = drop k p /\ plain (take k p).
Proof.
  unfold swallow, dangling. destruct (afterWs_spec p) as (w & Hp & Hw & Hws & _). destruct (afterWs p) as [ws rest] eqn:E. cbn [fst snd] in *.
  destruct (Nat.ltb_spec (length rest) (length kQwenClose)) as [Hl|Hl].
  - destruct (starts rest kQwenClose) eqn:Er; [done|]. intros [= <-]. destruct rest as [|c r]; [done|].
    rewrite (afterWs_app p t c r) by (by rewrite E). rewrite E. cbn [fst snd]. rewrite starts_cmp by done.
    rewrite starts_cmp' by done. split; [done|exists 0; split; [lia|by split]].
  - assert (exists c r, rest = c :: r) as (c & r & Hr) by (destruct rest; [cbn in Hl; lia|by eexists _, _]).
    rewrite (afterWs_app p t c r) by (by rewrite E). rewrite E. cbn [fst snd].
    pose proof (f_equal length Hp) as Hlen. rewrite length_app in Hlen.
    destruct (starts kQwenClose rest) eqn:Er; intros [= <-].
    + rewrite (starts_app _ _ t Er). rewrite drop_app_le by lia. split; [done|]. exists (ws + length kQwenClose). split; [lia|]. split; [done|].
      apply starts_spec in Er as [u Hu]. rewrite Hp, Hw, Hu, app_assoc, <- length_app, take_app_length. apply Forall_app.
      split; [|exact plain_close]. eapply Forall_impl; [exact Hws|]. intros x Hx ->. done.
    + assert (Hf : starts kQwenClose (rest ++ t) = false).
      { destruct (starts kQwenClose (rest ++ t)) eqn:E2; [|done]. apply starts_app_inv in E2; [congruence|done]. }
      rewrite Hf. split; [|exists 0; split; [lia|by split]]. subst rest. cbn [app].
      destruct (starts (c :: r ++ t) kQwenClose) eqn:E3; [|done]. pose proof (starts_length _ _ E3) as Hl3. cbn [length] in Hl3, Hl.
      rewrite length_app in Hl3. assert (t = []) as -> by (destruct t; [done|cbn [length] in Hl3; lia]). rewrite app_nil_r in *.
      apply starts_spec in E3 as [u E3]. assert (u = []) as -> by (pose proof (f_equal length E3) as E4; rewrite length_app in E4; destruct u; [done|cbn [length] in *; lia]).
      rewrite app_nil_r in E3. rewrite <- E3 in Er. unfold starts in Er. rewrite take_ge in Er by lia. by rewrite bool_decide_eq_true_2 in Er.
Qed.

(** A held text has no opener in it. *)
Lemma find_skipWs p s : (match p with c :: _ => isAsciiWs c = false | [] => False end) ->
  find p (skipWhile isAsciiWs s) = None -> find p s = None.
Proof.
  intros Hp. induction s as [|c s IH]; cbn [skipWhile]; [done|]. destruct (isAsciiWs c) eqn:E; [|done].
  intros H. specialize (IH H). cbn [find]. destruct (starts p (c :: s)) eqn:Es; [|by rewrite IH].
  apply starts_spec in Es as [t Es]. destruct p as [|d p]; [done|]. injection Es as -> _. congruence.
Qed.

Lemma bareOpen_no_marker f s : find kBareOpen s = None -> bareOpen QwenChatML f s = None.
Proof.
  rewrite find_None, bareOpen_None. intros H j. apply not_true_iff_false. intros Ha. by apply (H j), (bareAt_occurs f).
Qed.

Lemma swallow_None f p : swallow p = None -> opener QwenChatML f p = None.
Proof.
  unfold swallow, afterWs. set (rest := skipWhile isAsciiWs p). intros H.
  assert (Hr : starts rest kQwenClose = true).
  { destruct (length rest <? length kQwenClose); [by destruct (starts rest kQwenClose)|by destruct (starts kQwenClose rest)]. }
  apply starts_spec in Hr as [t Ht]. apply opener_None.
  assert (Hf : forall q, find q kQwenClose = None -> find q rest = None).
  { intros q Hq. rewrite Ht in Hq. rewrite find_None in Hq. apply find_None. intros i Ho. apply (Hq i). by apply occurs_app. }
  split; [|apply bareOpen_no_marker]; (apply find_skipWs; [done|]; apply Hf; reflexivity).
Qed.

Lemma flush_dangling d : fst (takePendingFlush d) = if _swallowDangling d then dangling (_pending d) else _pending d.
Proof.
  unfold takePendingFlush. destruct (_swallowDangling d); [|done]. destruct (_pending d) as [|c p] eqn:Ep; [done|].
  unfold dangling. destruct (afterWs_spec (c :: p)) as (w & Hp & Hw & _ & _). destruct (afterWs (c :: p)) as [ws rest]. cbn [fst snd] in *.
  pose proof (f_equal length Hp) as Hlen. rewrite length_app in Hlen. destruct (Nat.le_gt_cases (length kQwenClose) (length rest)) as [Hl|Hl].
  - rewrite Nat.min_r by done. change (0 <? length kQwenClose) with true. rewrite (take_ge kQwenClose) by done.
    unfold starts at 1. cbn [andb]. destruct (bool_decide_reflect (take (length kQwenClose) rest = kQwenClose)) as [E|E]; [done|].
    destruct rest as [|x r]; [done|]. destruct (starts (x :: r) kQwenClose) eqn:Es; [|done].
    apply starts_spec in Es as [u Hu]. assert (u = []) as -> by (pose proof (f_equal length Hu) as E4; rewrite length_app in E4; destruct u; [done|cbn [length] in *; lia]).
    rewrite app_nil_r in Hu. by rewrite Hu, take_ge in E by lia.
  - rewrite Nat.min_l by lia. rewrite (starts_prefix kQwenClose rest) by done. rewrite take_ge by done.
    destruct rest as [|x r]; [done|]. change (0 <? length (x :: r)) with true. cbn [andb]. unfold starts.
    rewrite (bool_decide_ext (x :: r = take (length (x :: r)) kQwenClose) (take (length (x :: r)) kQwenClose = x :: r)) by done.
    destruct (bool_decide _); [|done]. apply drop_ge. lia.
Qed.

(** ** Tokens *)

Lemma fencesWhole_drop txts : forall s k, k <= length s -> fencesWhole s txts = true -> fencesWhole (drop k s) txts = true.
Proof.
  induction txts as [|t txts IH]; intros s k Hk; [done|]. cbn [fencesWhole]. rewrite !andb_true_iff, !negb_true_iff. intros [H1 H2].
  rewrite <- drop_app_le by done. split; [|apply IH; [rewrite length_app; lia|done]]. rewrite length_drop.
  destruct (Nat.le_gt_cases k (length (s ++ t) - 10)) as [Hc|Hc].
  - replace (length (s ++ t) - k - 10) with (length (s ++ t) - 10 - k) by lia. by apply straddled_drop.
  - replace (length (s ++ t) - k - 10) with 0 by lia. apply straddled_0.
Qed.

(** Behind a [>] in such a token there is no opener. *)
Lemma crowded_clean style f a u : dialect style -> crowded style (a ++ ">"%char :: u) = false -> opener style f u = None.
Proof.
  intros Hst Hc. unfold crowded in Hc. apply not_true_iff_false in Hc. rewrite existsb_exists in Hc.
  assert (Hno : forall i p, i <= length u -> 0 < length p -> starts p (drop i u) = true ->
    (p = openMarkerFor style \/ style = QwenChatML /\ p = kBareOpen) -> False).
  { intros i p Hi Hp Hs Hm. apply Hc. exists (length a + S i). split.
    - apply in_seq. apply starts_length in Hs. rewrite length_app, length_drop in *. cbn [length]. lia.
    - rewrite drop_app_ge, take_app_ge by lia. replace (length a + S i - length a) with (S i) by lia. cbn [drop take].
      apply andb_true_iff. split.
      + apply orb_true_iff. destruct Hm as [-> |[-> ->]]; [by left|by right].
      + rewrite existsb_app. cbn. by rewrite orb_true_r. }
  apply opener_None. split.
  - apply find_None. intros i [Hi Ho]. apply (Hno i (openMarkerFor style)); try done; [|by left]. destruct Hst as [-> | ->]; cbn; lia.
  - destruct Hst as [-> | ->]; [|done]. apply bareOpen_no_marker, find_None. intros i [Hi Ho].
    apply (Hno i kBareOpen); try done; [cbn; lia|by right].
Qed.

(** Nothing behind a closer that a token completes is an opener. *)
Lemma closer_clean style f b p t e : dialect style -> crowded style t = false -> occurs (closer style b) (p ++ t) e ->
  length p < e + length (closer style b) -> opener style f (drop (e + length (closer style b)) (p ++ t)) = None.
Proof.
  intros Hst Hc [_ Ho] Hl. set (n := e + length (closer style b)) in *.
  assert (Hx : exists x, closer style b = x ++ [">"%char]).
  { destruct Hst as [-> | ->], b; cbn [closer closeMarkerFor]; [exists (lit "</function")|exists (lit "</tool_call")|exists (lit "</function")|exists (lit "<tool_call|")]; done. }
  destruct Hx as [x Hx]. apply starts_spec in Ho as [u Hu].
  assert (Hdn : drop n (p ++ t) = u) by (unfold n; by rewrite <- drop_drop, Hu, drop_app_length).
  assert (Hd1 : drop (n - 1) (p ++ t) = ">"%char :: u).
  { unfold n. rewrite Hx in *. rewrite length_app in *. cbn [length] in *. replace (e + (length x + 1) - 1) with (e + length x) by lia.
    rewrite <- drop_drop, Hu, <- app_assoc, drop_app_length. done. }
  rewrite Hdn. apply (crowded_clean style f (take (n - 1 - length p) t) u Hst).
  rewrite drop_app_ge in Hd1 by lia. rewrite <- Hd1, take_drop. done.
Qed.

Section Split.
Variable style : Style.
Hypothesis Hstyle : dialect style.

Definition markers (d : ToolCallStreamDetector) : Prop :=
  _active d = true /\ _open d = openMarkerFor style /\ _close d = closeMarkerFor style /\
  _openBare d = (match style with QwenChatML => kBareOpen | _ => [] end) /\
  _closeBare d = (match style with QwenChatML => kBareClose | _ => [] end) /\
  (style = Gemma4 -> _bare d = false).

(** Between tokens, with [txts] to come. *)
Definition ready (d : ToolCallStreamDetector) (txts : list text) : Prop :=
  markers d /\ _trailingAfterClose d = [] /\
  match _state d with
  | PassThrough =>
      opener style (_inFence d) (_pending d) = None /\ (style = QwenChatML -> fencesWhole (_pending d) txts = true) /\
      (style = Gemma4 -> _swallowDangling d = false)
  | Buffering =>
      _pending d = [] /\ _swallowDangling d = false /\ find (closer style (_bare d)) (_buffer d) = None /\
      (style = QwenChatML -> fencesWhole (_buffer d) txts = true)
  | Completed => False
  end.

(** What the detector still has to tell. *)
Definition value (d : ToolCallStreamDetector) (rest : text) : text * list (text * bool * text) :=
  match _state d with
  | PassThrough => splitCalls style (_inFence d) (_swallowDangling d) (_pending d ++ rest)
  | _ => ([], callAnd style (_inFence d) (_bare d) (_buffer d ++ rest))
  end.

Lemma value_finish d : ready d [] -> value d [] = view (finish d).
Proof using Hstyle.
  intros (_ & Ht & Hs). unfold value, finish, buffering. destruct (_state d) eqn:E; [| |done].
  - destruct Hs as [Ho _]. cbn [app view foldr view1 fst snd]. rewrite flush_dangling, !app_nil_r, splitCalls_eq by done. cbn zeta.
    assert (Hn : opener style (_inFence d) (if _swallowDangling d then dangling (_pending d) else _pending d) = None).
    { destruct (_swallowDangling d); [|done]. destruct (dangling_suffix (_pending d)) as (k & -> & Hk).
      rewrite <- (plain_parity _ (_inFence d) Hk). apply opener_drop; [done| |done]. intros _. by apply plain_straddled. }
    by rewrite Hn.
  - destruct Hs as (Hp & Hw & Hc & _). unfold callAnd. rewrite app_nil_r, Hc.
    assert (Hd : reset (closeOnStop d) = with_ d false (_inFence d) false PassThrough [] [] [] \/ _active d = false).
    { unfold closeOnStop. destruct (_active d); [left|by right]. cbn [negb]. rewrite E. unfold reset. cbn. rewrite Ht, Hp, Hw. done. }
    assert (Hbuf : _buffer (closeOnStop d) = _buffer d /\ _bare (closeOnStop d) = _bare d).
    { unfold closeOnStop. destruct (_active d); cbn [negb]; [by rewrite E|done]. }
    destruct Hbuf as [-> ->]. cbn [app view foldr view1 fst snd]. rewrite flush_dangling.
    assert (Hfl : (if _swallowDangling (reset (closeOnStop d)) then dangling (_pending (reset (closeOnStop d))) else _pending (reset (closeOnStop d))) = []).
    { destruct Hd as [-> |Ha]; [done|]. unfold closeOnStop. rewrite Ha. cbn [negb]. unfold reset. rewrite Ht. cbn. by rewrite Hw, Hp. }
    by rewrite Hfl.
Qed.

Lemma closer_marker d : markers d -> (if _bare d then _closeBare d else _close d) = closer style (_bare d).
Proof using Hstyle.
  intros (_ & _ & Hc & _ & Hcb & Hg). unfold closer. destruct (_bare d) eqn:Eb; [|done].
  destruct Hstyle as [Hq|Hq]; [by rewrite Hcb, Hq|by specialize (Hg Hq)].
Qed.

Lemma tryClose_spec d : markers d -> _trailingAfterClose d = [] ->
  tryClose d =
  match find (closer style (_bare d)) (_buffer d) with
  | None => (false, d)
  | Some e =>
      let n := e + length (closer style (_bare d)) in
      (true, with_ d (_bare d) (_inFence d) (if _bare d then true else _swallowDangling d) Completed (_pending d)
        (take n (_buffer d)) (drop n (_buffer d)))
  end.
Proof using Hstyle.
  intros Hm Ht. unfold tryClose. rewrite (closer_marker d Hm). destruct (find _ (_buffer d)) as [e|] eqn:E; [|done].
  cbn zeta. destruct (Nat.ltb_spec (e + length (closer style (_bare d))) (length (_buffer d))); [done|].
  by rewrite take_ge, drop_ge, Ht by done.
Qed.

Lemma callAnd_app f b body rest e : find (closer style b) body = Some e ->
  let n := e + length (closer style b) in
  callAnd style f b (body ++ rest) =
  let '(t, calls) := splitCalls style f b (drop n body ++ rest) in (take n body, b, t) :: calls.
Proof using.
  intros E n. unfold callAnd. rewrite (find_app _ _ rest _ E). fold n. apply find_Some in E as [Ho _]. apply occurs_bound in Ho.
  by rewrite take_app_le, drop_app_le by (unfold n; lia).
Qed.

Lemma markers_with d b f sw st p buf tr : markers d -> (style = Gemma4 -> b = false) -> markers (with_ d b f sw st p buf tr).
Proof using. unfold markers. cbn. naive_solver. Qed.

(** The call is closed: what follows it is pending. *)
Lemma closed_value d txts e : markers d -> _state d = Buffering -> _pending d = [] -> _swallowDangling d = false ->
  find (closer style (_bare d)) (_buffer d) = Some e ->
  opener style (_inFence d) (drop (e + length (closer style (_bare d))) (_buffer d)) = None ->
  (style = QwenChatML -> fencesWhole (_buffer d) txts = true) ->
  let n := e + length (closer style (_bare d)) in
  let d' := reset (with_ d (_bare d) (_inFence d) (if _bare d then true else _swallowDangling d) Completed (_pending d)
    (take n (_buffer d)) (drop n (_buffer d))) in
  ready d' txts /\ callAnd style (_inFence d) (_bare d) (_buffer d ++ concat txts) = snd (view1 (Call (take n (_buffer d)) (_bare d)) (value d' (concat txts))).
Proof using Hstyle.
  intros Hm Hst Hp Hw E Ho Hf n d'. fold n in Ho.
  assert (Hd : d' = with_ d false (_inFence d) (_bare d) PassThrough (drop n (_buffer d)) [] []).
  { unfold d', reset. cbn [_trailingAfterClose with_ _pending]. rewrite Hp, Hw. destruct (drop n (_buffer d)), (_bare d); done. }
  assert (Hn : n <= length (_buffer d)) by (pose proof (find_cases (closer style (_bare d)) (_buffer d)) as Hc; rewrite E in Hc; by apply occurs_bound, Hc).
  split.
  - rewrite Hd. split; [by apply markers_with|]. split; [done|]. cbn. split; [done|].
    split; [|intros Hq; cbn; by apply Hm]. intros Hq. apply fencesWhole_drop; [done|by apply Hf].
  - rewrite (callAnd_app _ _ _ (concat txts) e E). fold n. rewrite Hd. unfold value, view1. cbn [_state _swallowDangling _pending _inFence with_ fst snd].
    by destruct (splitCalls style (_inFence d) (_bare d) (drop n (_buffer d) ++ concat txts)).
Qed.

(** A token inside a call. *)
Lemma onText_call d t txts : ready d (t :: txts) -> _state d = Buffering -> crowded style t = false ->
  let '(ev, d') := onText t d in ready d' txts /\ value d (t ++ concat txts) = foldr view1 (value d' (concat txts)) ev.
Proof using Hstyle.
  intros (Hm & Ht & Hs) Hst Hno. rewrite Hst in Hs. destruct Hs as (Hp & Hw & Hc & Hf).
  unfold onText, feed. rewrite (proj1 Hm), Hst. cbn [negb].
  set (d1 := with_ d (_bare d) (_inFence d) (_swallowDangling d) Buffering (_pending d) (_buffer d ++ t) (_trailingAfterClose d)).
  assert (Hm1 : markers d1) by (apply markers_with; [done|apply Hm]).
  assert (Hf1 : style = QwenChatML -> fencesWhole (_buffer d1) txts = true).
  { intros Hq. specialize (Hf Hq). cbn [fencesWhole] in Hf. by apply andb_true_iff in Hf as [_ ?]. }
  rewrite (tryClose_spec d1 Hm1 Ht). unfold value at 1. rewrite Hst. rewrite app_assoc. change (_buffer d ++ t) with (_buffer d1).
  change (_bare d) with (_bare d1). change (_inFence d) with (_inFence d1).
  destruct (find (closer style (_bare d1)) (_buffer d1)) as [e|] eqn:E; cbn zeta.
  - pose proof (find_beyond _ _ _ _ Hc E) as Hb. change (_bare d) with (_bare d1) in Hb.
    destruct (closed_value d1 txts e Hm1 eq_refl Hp Hw E) as [Hr Hv]; [|done|].
    { apply closer_clean; [done|done| |done]. by apply find_Some in E as [? _]. }
    split; [exact Hr|]. rewrite Hv. done.
  - split; [|done]. split; [done|]. split; [done|]. cbn. by split.
Qed.

(** ** A token outside a call *)

Definition marker (b : bool) : text := if b then kBareOpen else openMarkerFor style.

(** The opener that was found, and that it counts. *)
Lemma opener_at f s h b : opener style f s = Some (h, b) ->
  occurs (marker b) s h /\ (b = true -> style = QwenChatML /\ bareAt f s h = true).
Proof using Hstyle.
  unfold opener, marker. destruct (find (openMarkerFor style) s) as [o|] eqn:Eo, (bareOpen style f s) as [q|] eqn:Eb;
    cbn [minPos fmap option_fmap option_map]; try done; intros [= <- <-].
  - assert (Hq : style = QwenChatML /\ bareAt f s q = true) by (destruct Hstyle as [Hq|Hq]; rewrite Hq in *; [split; [done|by apply bareOpen_Some in Eb as [? _]]|done]).
    destruct Hq as [Hq Hb]. pose proof (bareAt_occurs _ _ _ Hb) as Hob. apply find_Some in Eo as [Eo _]. destruct (Nat.min_spec o q) as [[Hlt ->]|[Hle ->]].
    + rewrite bool_decide_eq_false_2 by (intros [=]; lia). done.
    + rewrite (bool_decide_eq_true_2 (Some q = Some q)) by done. destruct (bool_decide_reflect (Some o = Some q)) as [[= ->]|]; done.
  - split; [by apply find_Some in Eo as [? _]|done].
  - assert (Hq : style = QwenChatML /\ bareAt f s q = true) by (destruct Hstyle as [Hq|Hq]; rewrite Hq in *; [split; [done|by apply bareOpen_Some in Eb as [? _]]|done]).
    rewrite bool_decide_eq_true_2 by done. cbn [andb negb bool_decide]. split; [by eapply bareAt_occurs, Hq|done].
Qed.

Lemma opener_gemma f s h b : opener style f s = Some (h, b) -> style = Gemma4 -> b = false.
Proof using Hstyle. intros Ho Hg. apply opener_at in Ho as [_ Ho]. destruct b; [|done]. destruct (Ho eq_refl). congruence. Qed.

Lemma closer_longer b : (style = Gemma4 -> b = false) -> length (marker b) <= length (closer style b).
Proof using Hstyle. intros Hb. destruct Hstyle as [Hq|Hq]; [|rewrite (Hb Hq)]; rewrite ?Hq; unfold marker, closer; rewrite Hq; try destruct b; cbn; lia. Qed.

(** An opener that the longer text has and the shorter has not ends beyond the shorter. *)
Lemma opener_beyond f p t k h b : opener style f p = None -> k <= length (p ++ t) -> plain (take k (p ++ t)) ->
  opener style f (drop k (p ++ t)) = Some (h, b) -> length p < k + h + length (marker b).
Proof using Hstyle.
  intros Hp Hkl Hk Ho. apply opener_at in Ho as [Ho Hb]. apply opener_None in Hp as [H1 H2].
  destruct (Nat.le_gt_cases (k + h + length (marker b)) (length p)) as [Hle|]; [|lia]. exfalso. destruct b; cbn [marker] in *.
  - destruct (Hb eq_refl) as [Hq Ha]. rewrite Hq in H2. rewrite bareOpen_None in H2.
    rewrite <- (plain_parity _ f Hk), bareAt_drop in Ha by (by apply plain_straddled).
    apply bareAt_app_inv in Ha; [by rewrite H2 in Ha|exact Hle].
  - rewrite find_None in H1. apply (H1 (k + h)). apply occurs_drop in Ho; [|done]. by eapply occurs_app_inv.
Qed.

Lemma bareOpen_spec d s : markers d ->
  match _openBare d with [] => None | _ => bareFrom (S (length s)) (_openBare d) s (_inFence d) 0 end = bareOpen style (_inFence d) s.
Proof using Hstyle.
  intros (_ & _ & _ & Ho & _). rewrite Ho. destruct Hstyle as [Hq|Hq]; rewrite Hq; [|done]. apply bareFrom_bareOpen.
Qed.

Lemma hold_spec d : markers d -> Nat.max (length (_open d)) (length (_openBare d)) - 1 = hold style.
Proof using Hstyle. intros (_ & Ho & _ & Hb & _). rewrite Ho, Hb. destruct Hstyle as [-> | ->]; done. Qed.

(** Where a call is found. *)
Lemma scan_hit d s txts h b : markers d -> _trailingAfterClose d = [] -> opener style (_inFence d) s = Some (h, b) ->
  (style = QwenChatML -> fencesWhole s txts = true) ->
  (forall e, find (closer style b) (drop h s) = Some e ->
     opener style (parity (take h s) (_inFence d)) (drop (e + length (closer style b)) (drop h s)) = None) ->
  let '(done, d') := tryClose (with_ d b (parity (take h s) (_inFence d)) false Buffering [] (drop h s) (_trailingAfterClose d)) in
  let ev := if done then [Content (take h s); Call (_buffer d') (_bare d')] else [Content (take h s)] in
  let d'' := if done then reset d' else d' in
  ready d'' txts /\ splitCalls style (_inFence d) false (s ++ concat txts) = foldr view1 (value d'' (concat txts)) ev.
Proof using Hstyle.
  intros Hm Ht Hop Hf Htail. destruct (opener_at _ _ _ _ Hop) as [Hoc _].
  pose proof (opener_gemma _ _ _ _ Hop) as Hbg.
  set (d1 := with_ d b (parity (take h s) (_inFence d)) false Buffering [] (drop h s) (_trailingAfterClose d)).
  assert (Hm1 : markers d1) by (by apply markers_with). assert (Hh : h <= length s) by (by destruct Hoc).
  assert (Hf1 : style = QwenChatML -> fencesWhole (_buffer d1) txts = true) by (intros Hq; apply fencesWhole_drop; [done|by apply Hf]).
  rewrite (tryClose_spec d1 Hm1 Ht). rewrite splitCalls_eq by done. cbn zeta. rewrite (opener_app style _ s (concat txts) h b Hstyle Hop).
  rewrite take_app_le, drop_app_le by done. change (drop h s) with (_buffer d1) in Htail |- *.
  change (parity (take h s) (_inFence d)) with (_inFence d1) in Htail |- *. change b with (_bare d1) in Htail |- *. destruct (find (closer style (_bare d1)) (_buffer d1)) as [e|] eqn:E; cbn zeta.
  - destruct (closed_value d1 txts e Hm1 eq_refl eq_refl eq_refl E) as [Hr Hv]; [by apply Htail|done|].
    split; [exact Hr|]. rewrite Hv. cbn [foldr view1 fst snd]. by rewrite app_nil_r.
  - cbn [foldr view1 fst snd]. split; [done|]. unfold value. cbn [_state d1 with_ fst snd]. by rewrite app_nil_r.
Qed.

(** What is passed on while none was found. *)
Lemma scan_flush d s txts n : markers d -> _trailingAfterClose d = [] -> opener style (_inFence d) s = None ->
  n + hold style <= length s -> (style = QwenChatML -> straddled s n = false /\ fencesWhole s txts = true) ->
  let d' := with_ d (_bare d) (parity (take n s) (_inFence d)) false PassThrough (drop n s) (_buffer d) (_trailingAfterClose d) in
  ready d' txts /\ splitCalls style (_inFence d) false (s ++ concat txts) = foldr view1 (value d' (concat txts)) [Content (take n s)].
Proof using Hstyle.
  intros Hm Ht Hop Hn Hf d'. assert (Hstr : style = QwenChatML -> straddled s n = false) by (intros Hq; by apply Hf). split.
  - split; [apply markers_with; [done|apply Hm]|]. split; [done|]. cbn [_state with_ _pending _inFence d']. split; [by apply opener_drop|].
    split; [|done]. intros Hq. apply fencesWhole_drop; [lia|by apply Hf].
  - cbn [foldr view1 fst snd]. unfold value. cbn [_state with_ _pending _swallowDangling _inFence d']. rewrite !splitCalls_eq by done. cbn zeta.
    rewrite (opener_shift style _ s (concat txts) n Hstyle Hop Hn Hstr). rewrite <- (drop_app_le s (concat txts) n) by lia.
    rewrite <- (take_app_le s (concat txts) n) by lia.
    destruct (opener style _ (drop n (s ++ concat txts))) as [[h b]|]; cbn [fmap option_fmap option_map fst snd]; [|by rewrite take_drop].
    rewrite drop_drop, take_take_drop. f_equal. apply callAnd_fence; [done|]. intros Hq. apply parity_cut.
    apply straddled_app; [|by apply Hstr]. rewrite Hq in Hn. cbn in Hn. lia.
Qed.

Lemma scan_value d s txts : markers d -> _trailingAfterClose d = [] ->
  (style = QwenChatML -> straddled s (length s - 10) = false /\ fencesWhole s txts = true) ->
  (forall h b e, opener style (_inFence d) s = Some (h, b) -> find (closer style b) (drop h s) = Some e ->
     opener style (parity (take h s) (_inFence d)) (drop (e + length (closer style b)) (drop h s)) = None) ->
  let '((done, out), d') := scan d false s in
  let ev := if done then [Content out; Call (_buffer d') (_bare d')] else [Content out] in
  let d'' := if done then reset d' else d' in
  ready d'' txts /\ splitCalls style (_inFence d) false (s ++ concat txts) = foldr view1 (value d'' (concat txts)) ev.
Proof using Hstyle.
  intros Hm Ht Hf Htail. unfold scan. rewrite bareOpen_spec by done. rewrite hold_spec by done. rewrite (proj1 (proj2 Hm)).
  assert (Hop : opener style (_inFence d) s = (fun h => (h, bool_decide (bareOpen style (_inFence d) s = Some h) && negb (bool_decide (find (openMarkerFor style) s = Some h))))
    <$> minPos (find (openMarkerFor style) s) (bareOpen style (_inFence d) s)) by reflexivity.
  destruct (minPos _ _) as [h|] eqn:Emin; cbn [fmap option_fmap option_map] in Hop; cbn zeta; rewrite ?updateFence_parity by done.
  - pose proof (scan_hit d s txts h _ Hm Ht Hop (fun Hq => proj2 (Hf Hq)) (fun e => Htail h _ e Hop)) as H.
    destruct (tryClose _) as [[] d']; exact H.
  - destruct (Nat.ltb_spec (hold style) (length s)) as [Hl|Hl]; cbn zeta.
    + apply scan_flush; try done; [lia|]. intros Hq. rewrite Hq. by apply Hf.
    + split; [|unfold value; cbn [_state with_ _pending _swallowDangling _inFence foldr view1 fst snd app]; by destruct (splitCalls style _ false (s ++ concat txts))].
      split; [apply markers_with; [done|apply Hm]|]. split; [done|]. cbn [_state with_ _pending _inFence]. split; [done|]. split; [|done]. intros Hq. by apply Hf.
Qed.

(** One token: what the detector tells now and later is what it had to tell. *)
Lemma onText_value d t txts : ready d (t :: txts) -> crowded style t = false ->
  let '(ev, d') := onText t d in ready d' txts /\ value d (t ++ concat txts) = foldr view1 (value d' (concat txts)) ev.
Proof using Hstyle.
  intros Hready Hno. destruct (_state d) eqn:Hst; [|by apply onText_call|by destruct Hready as (_ & _ & H); rewrite Hst in H].
  destruct Hready as (Hm & Ht & Hs). rewrite Hst in Hs. destruct Hs as (Hp & Hf & Hg).
  assert (Hf' : style = QwenChatML -> straddled (_pending d ++ t) (length (_pending d ++ t) - 10) = false /\ fencesWhole (_pending d ++ t) txts = true).
  { intros Hq. specialize (Hf Hq). cbn [fencesWhole] in Hf. by rewrite andb_true_iff, negb_true_iff in Hf. }
  unfold onText, feed. rewrite (proj1 Hm), Hst. cbn [negb]. unfold value at 1. rewrite Hst, app_assoc.
  assert (Hscan : forall k, k <= length (_pending d ++ t) -> plain (take k (_pending d ++ t)) ->
    let '((done, out), d') := scan d false (drop k (_pending d ++ t)) in
    let ev := if done then [Content out; Call (_buffer d') (_bare d')] else [Content out] in
    let d'' := if done then reset d' else d' in
    ready d'' txts /\ splitCalls style (_inFence d) false (drop k (_pending d ++ t) ++ concat txts) = foldr view1 (value d'' (concat txts)) ev).
  { intros k Hk Hpl. apply scan_value; try done.
    - intros Hq. destruct (Hf' Hq) as [H1 H2]. split; [|by apply fencesWhole_drop]. rewrite length_drop.
      destruct (Nat.le_gt_cases k (length (_pending d ++ t) - 10)) as [Hc|Hc].
      + replace (length (_pending d ++ t) - k - 10) with (length (_pending d ++ t) - 10 - k) by lia. by apply straddled_drop.
      + replace (length (_pending d ++ t) - k - 10) with 0 by lia. apply straddled_0.
    - intros h b e Ho He. pose proof (opener_beyond _ _ _ _ _ _ Hp Hk Hpl Ho) as Hb. pose proof (closer_longer b (opener_gemma _ _ _ _ Ho)) as Hc.
      apply opener_at in Ho as [[Hh _] _]. apply find_Some in He as [He _]. rewrite !drop_drop in *. apply occurs_drop in He; [|rewrite length_drop in Hh; lia].
      replace (k + (h + (e + length (closer style b)))) with (k + h + e + length (closer style b)) by lia. apply closer_clean; [done|done|done|lia]. }
  destruct (_swallowDangling d) eqn:Hsw.
  - destruct (swallow (_pending d ++ t)) as [p'|] eqn:Esw.
    + destruct (swallow_Some _ _ (concat txts) Esw) as [Hd (k & Hk & -> & Hpl)]. specialize (Hscan k Hk Hpl).
      destruct (scan d false (drop k (_pending d ++ t))) as [[[] out] d']; cbn zeta in *; destruct Hscan as [Hr Hv]; (split; [exact Hr|]);
        rewrite <- Hv, !splitCalls_eq, Hd by done; done.
    + cbn zeta. split.
      * split; [apply markers_with; [done|apply Hm]|]. split; [done|]. cbn. split; [|split; [intros Hq; by apply Hf'|intros Hq; specialize (Hg Hq); congruence]].
        destruct Hstyle as [->|Hq]; [by apply swallow_None|specialize (Hg Hq); congruence].
      * unfold value. cbn [_state with_ _pending _swallowDangling _inFence foldr view1 fst snd app]. by destruct (splitCalls style _ true _).
  - specialize (Hscan 0 ltac:(lia) ltac:(done)). rewrite drop_0 in Hscan.
    destruct (scan d false (_pending d ++ t)) as [[[] out] d']; exact Hscan.
Qed.

Lemma stream_value txts : forall d, ready d txts -> Forall (fun t => crowded style t = false) txts ->
  value d (concat txts) = view (stream d txts).
Proof using Hstyle.
  induction txts as [|t txts IH]; intros d Hr Hno.
  - unfold stream. cbn [onTexts app]. by apply value_finish.
  - apply Forall_cons in Hno as [Ht Hno]. cbn [concat] in *. pose proof (onText_value d t txts Hr Ht) as H.
    unfold stream. cbn [onTexts]. destruct (onText t d) as [ev d']. destruct H as [Hr' ->]. specialize (IH d' Hr' Hno). unfold stream in IH.
    destruct (onTexts txts d') as [ev' d'']. rewrite IH. unfold view. by rewrite <- app_assoc, !foldr_app.
Qed.

Lemma create_ready forced txts : find (closeMarkerFor style) forced = None -> (style = QwenChatML -> fencesWhole forced txts = true) ->
  ready (create style true forced) txts /\ forall s,
  value (create style true forced) s = match forced with [] => splitCalls style false false s | _ => ([], callAnd style false false (forced ++ s)) end.
Proof using Hstyle.
  intros Hc Hf. assert (Hm : markers (create style true forced)) by (unfold markers; destruct Hstyle as [-> | ->]; by repeat split).
  assert (Ho : opener style false [] = None) by (destruct Hstyle as [-> | ->]; done).
  assert (Hst : _state (create style true forced) = (match forced with [] => PassThrough | _ => Buffering end)
    /\ _buffer (create style true forced) = forced).
  { unfold create. cbn [_state _buffer]. destruct Hstyle as [-> | ->]; by destruct forced. }
  destruct Hst as [Hst Hb]. unfold ready, value. rewrite Hst. destruct forced as [|c forced].
  - split; [|done]. split; [done|]. split; [done|]. split; [done|]. split; [exact Hf|done].
  - rewrite Hb. split; [|done]. split; [done|]. split; [done|]. split; [done|]. split; [done|]. split; [done|exact Hf].
Qed.
End Split.

(** C30: In both dialects, and with whatever text a forced call begins, what the detector
    passes on as text and hands over as calls is what the reference finds in the whole
    answer, code fences included: a bare opener within a fence opens nothing, fences
    are counted outside calls, and the closer that dangles behind a bare call is
    swallowed once.  So it makes no difference how the answer is cut into tokens, as
    long as no token has an opener behind a [>] ([second_call_is_text] shows what happens
    else) and, in the Qwen dialect, none ends eleven or twelve characters behind the
    beginning of a fence ([fence_split_missed]).  The forced text holds no closer.  The
    handler moves the detector in this way ([ChatStreamProofs.onToken_drives]); that it
    holds an answer that begins with [<], and the parsing of the calls, come after. *)
Theorem calls_independent_of_tokens style forced txts :
  style = QwenChatML \/ style = Gemma4 ->
  find (closeMarkerFor style) forced = None ->
  (style = QwenChatML -> fencesWhole forced txts = true) ->
  Forall (fun t => crowded style t = false) txts ->
  view (stream (create style true forced) txts) =
  match forced with
  | [] => splitCalls style false false (concat txts)
  | _ => ([], callAnd style false false (forced ++ concat txts))
  end.
Proof.
  intros Hst Hc Hf Hno. destruct (create_ready style Hst forced txts Hc Hf) as [Hr Hv].
  by rewrite <- (stream_value style Hst txts _ Hr Hno), Hv.
Qed.

(** A documented call within a fence, then a bare call split into tokens, its dangling
    closer swallowed, and a second one. *)
Definition demoTexts : list text :=
  map lit ["So: ```"; "<fun"; "ction=g>1</function>"; " is how"; "```"; ", a call. <func"; "tion=f>1</function"; ">"; " </tool_"; "call> and "; "<tool_call>{}</tool_call>!"]%string.

Lemma calls_independent_of_tokens_witness :
  splitCalls QwenChatML false false (concat demoTexts) =
    (lit "So: ```<function=g>1</function> is how```, a call. ",
     [(lit "<function=f>1</function>", true, lit " and "); (lit "<tool_call>{}</tool_call>", false, lit "!")]) /\
  view (stream (create QwenChatML true []) demoTexts) = splitCalls QwenChatML false false (concat demoTexts) /\
  view (stream (create QwenChatML true (lit "<tool_call>")) demoTexts) =
    ([], callAnd QwenChatML false false (lit "<tool_call>" ++ concat demoTexts)).
Proof.
  split; [vm_compute; reflexivity|]. split.
  - apply (calls_independent_of_tokens QwenChatML [] demoTexts);
      [by left|reflexivity|intros _; vm_compute; reflexivity|repeat constructor].
  - apply (calls_independent_of_tokens QwenChatML (lit "<tool_call>") demoTexts);
      [by left|reflexivity|intros _; vm_compute; reflexivity|repeat constructor].
Defined.

(** A fence that is cut by what has been passed on is missed, so that the same text in
    one token and in three is read differently. *)
Example fence_split_missed :
  let head := lit "ab``" in let mid := lit "` an exam" ++ lit "p" in let tail := lit "le <function=f>1</function> ```" in
  view (stream (create QwenChatML true []) [head ++ mid ++ tail]) = (head ++ mid ++ tail, []) /\
  snd (view (stream (create QwenChatML true []) [head; mid; tail])) = [(lit "<function=f>1</function>", true, lit " ```")] /\
  fencesWhole [] [head; mid; tail] = false.
Proof. vm_compute. repeat split. Qed.

(** Two calls in one token: the second is passed on as text. *)
Example second_call_is_text :
  let t := lit "<|tool_call>a<tool_call|><|tool_call>b<tool_call|>" in
  view (stream (create Gemma4 true []) [t]) = ([], [(lit "<|tool_call>a<tool_call|>", false, lit "<|tool_call>b<tool_call|>")]) /\
  crowded Gemma4 t = true.
Proof. vm_compute. split; reflexivity. Qed.
End ToolCallSplit.

(** ** Reasoning and answer *)

Module CleanerProofs.
Import ResponseCleaner.

(** The answer and the reasoning of a whole turn. *)
Fixpoint feeds (toks : list (Z * text)) (c : ResponseCleaner) : option (text * text) :=
  match toks with
  | [] => Some ([], [])
  | (id, t) :: toks =>
      '((_, out, th), c) ← feed id t c;
      '(a, r) ← feeds toks c;
      Some (out ++ a, th ++ r)
  end.

(** ** Every turn but the last takes a character *)

Lemma skipWhile_length f s : length (skipWhile f s) <= length s.
Proof. destruct (skipWhile_suffix f s) as (k & -> & _). rewrite length_drop. lia. Qed.

Lemma findFrom_Some p s k i : findFrom p s k = Some i -> k <= i /\ i + length p <= length s /\ k <= length s.
Proof.
  unfold findFrom. destruct (Nat.leb_spec k (length s)); [|done]. destruct (find p (drop k s)) as [j|] eqn:E; [|done].
  intros [= <-]. apply find_Some in E as [Ho _]. apply occurs_bound in Ho. rewrite length_drop in Ho. lia.
Qed.

Definition opens (s : text) (o : ThinkOpen) : Prop :=
  o_pos o + o_len o <= length s /\ 0 < o_len o /\ 0 < length (o_close o).

Lemma scanOpen_ok s n : forall scan best, (forall o, best = Some o -> opens s o) -> forall o, scanOpen n s scan best = Some o -> opens s o.
Proof.
  induction n as [|n IH]; intros scan best Hb o; cbn [scanOpen]; [by apply Hb|].
  destruct (findFrom (lit "<|") s scan) as [p|] eqn:Ep; [|by apply Hb].
  destruct (findFrom (lit "|>") s (p + 2)) as [gt|] eqn:Eg; [|by apply Hb]. cbn zeta.
  destruct (_ && _); [|by apply IH]. destruct (bool_decide _); [by apply IH|].
  destruct (match best with None => true | Some b => p <? o_pos b end); [|by apply Hb].
  intros [= <-]. apply findFrom_Some in Ep, Eg. cbn in Eg. unfold opens. cbn. lia.
Qed.

Lemma findThinkOpen_ok s o : findThinkOpen s = Some o -> opens s o.
Proof.
  unfold findThinkOpen. apply scanOpen_ok. intros o'. destruct (find (lit "<think>") s) as [t|] eqn:E; [|done]. intros [= <-].
  apply find_Some in E as [Ho _]. apply occurs_bound in Ho. cbn in Ho. unfold opens. cbn. lia.
Qed.

Definition closable (l : Loop) : Prop := 0 < length (close l).

Lemma find_drop_length p s e : find p s = Some e -> 0 < length p -> length (drop (e + length p) s) < length s.
Proof. intros E Hp. apply find_Some in E as [Ho _]. apply occurs_bound in Ho. rewrite length_drop. lia. Qed.

Lemma turn_shrinks l : closable l ->
  closable (snd (turn l)) /\ (fst (turn l) = true -> length (pend (snd (turn l))) < length (pend l)).
Proof.
  unfold closable, turn. intros Hc. destruct (phase l).
  - destruct (find (close l) (pend l)) as [e|] eqn:E; cbn zeta.
    + cbn. split; [lia|]. intros _. by apply find_drop_length.
    + destruct (_ <? _); cbn; split; done || lia.
  - set (p := if strip l then skipWhile isAsciiWs (pend l) else pend l).
    assert (Hp : length p <= length (pend l)) by (unfold p; destruct (strip l); [apply skipWhile_length|done]).
    destruct (_ && _); [by cbn; split|]. destruct (header l).
    + destruct (find [newline] p) as [nl|] eqn:E; cbn; (split; [done|]); [|done]. intros _.
      pose proof (find_drop_length _ _ _ E ltac:(cbn; lia)) as H. cbn in H. lia.
    + destruct (find (lit "<|im_start|>") p) as [rh|]; cbn zeta.
      * destruct (find [newline] (drop rh p)) as [nl|] eqn:E; cbn; (split; [done|]); [|done]. intros _.
        pose proof (find_drop_length _ _ _ E ltac:(cbn; lia)) as H. cbn in H. rewrite !length_drop in *. lia.
      * destruct (findThinkOpen p) as [o|] eqn:E; cbn; [|by split]. apply findThinkOpen_ok in E as (H1 & H2 & H3).
        split; [done|]. intros _. rewrite length_drop. lia.
Qed.

Lemma loop_total fuel : forall l, closable l -> length (pend l) <= fuel -> exists l', loop fuel l = Some l' /\ closable l'.
Proof.
  induction fuel as [|fuel IH]; intros l Hc Hf; cbn [loop]; destruct (turn_shrinks l Hc) as [Hc' Hs];
    destruct (turn l) as [[] l']; cbn [fst snd] in *; try (by eexists).
  - specialize (Hs eq_refl). lia.
  - apply IH; [done|]. specialize (Hs eq_refl). lia.
Qed.

(** The filter answers for every token, whatever came before. *)
Lemma feed_total id t c : 0 < length (_thinkClose c) -> exists r c', feed id t c = Some (r, c') /\ 0 < length (_thinkClose c').
Proof.
  intros Hc. unfold feed. destruct (_style c); try (by eexists _, _).
  - unfold feedQwenThink. cbn zeta.
    destruct (loop_total (length (_pending c ++ t)) (mkLoop (_stripLeading c) (_inRoleHeader c) (_thinkPhase c) (_pending c ++ t) (_thinkClose c) [] []))
      as (l & -> & Hl); [done|done|]. by eexists _, _.
  - eexists _, _. split; [by rewrite <- surjective_pairing|]. unfold feedGemma4. repeat case_match; done.
Qed.

(** ** An answer without markup *)

Definition plain (s : text) : Prop := Forall (fun c => c <> "<"%char) s.

Lemma find_plain p s : plain s -> hd_error p = Some "<"%char -> find p s = None.
Proof.
  intros Hs Hp. destruct p as [|d p]; [done|]. injection Hp as ->. apply find_None. intros i [Hi Ho]. apply starts_spec in Ho as [u Ho].
  assert (Hin : "<"%char ∈ drop i s) by (rewrite Ho; left). apply (proj1 (Forall_forall _ _) Hs "<"%char); [|done].
  rewrite <- (take_drop i s). apply elem_of_app. by right.
Qed.

Lemma rfind_plain s : plain s -> rfindChar "<" s = None.
Proof.
  induction 1 as [|c s Hc _ IH]; cbn [rfindChar]; [done|]. rewrite IH. by rewrite (proj2 (Ascii.eqb_neq c "<"%char)).
Qed.

Lemma plain_drop s k : plain s -> plain (drop k s).
Proof. apply Forall_drop. Qed.

Lemma turn_plain strip0 p cl em th : plain p ->
  turn (mkLoop strip0 false Done p cl em th) =
  let q := if strip0 then skipWhile isAsciiWs p else p in
  (false, mkLoop (strip0 && match q with [] => true | _ => false end) false Done [] cl (em ++ q) th).
Proof.
  intros Hp. unfold turn. cbn [phase strip pend header close emit think]. cbn zeta.
  set (q := if strip0 then skipWhile isAsciiWs p else p).
  assert (Hq : plain q) by (unfold q; destruct strip0; [destruct (skipWhile_suffix isAsciiWs p) as (k & -> & _); by apply plain_drop|done]).
  destruct (strip0 && match q with [] => true | _ => false end) eqn:E.
  { apply andb_prop in E as [-> E]. destruct q; [|done]. by rewrite app_nil_r. }
  rewrite (find_plain (lit "<|im_start|>") q Hq) by done. unfold findThinkOpen. rewrite (find_plain (lit "<think>") q Hq) by done. cbn [fmap option_fmap option_map].
  assert (Hs : scanOpen (length q) q 0 None = None).
  { destruct (length q); cbn [scanOpen]; [done|]. by rewrite (findFrom_None _ q 0 (find_plain (lit "<|") q Hq eq_refl)). }
  rewrite Hs. unfold safeEmitLen. rewrite (rfind_plain q Hq), take_ge, drop_ge by done. done.
Qed.

Lemma scrub_plain n s : plain s -> scrub n s 0 = s.
Proof. intros Hs. destruct n; cbn [scrub]; [done|]. by rewrite (findFrom_None _ s 0 (find_plain (lit "<|") s Hs eq_refl)). Qed.

(** ** One token at a time *)

(** In the answer. *)
Definition answering (c : ResponseCleaner) : Prop :=
  _style c = QwenChatML /\ _thinkPhase c = Done /\ _inRoleHeader c = false /\ _pending c = [].

Definition ahead (st : bool) (s : text) : text := if st then skipWhile isAsciiWs s else s.

Lemma ahead_app st t s : ahead st (t ++ s) = ahead st t ++ ahead (st && match ahead st t with [] => true | _ => false end) s.
Proof.
  destruct st; cbn [ahead andb]; [|done]. induction t as [|c t IH]; cbn [skipWhile app]; [done|]. by destruct (isAsciiWs c).
Qed.

Lemma feed_answer id t c : answering c -> plain t ->
  exists b c', feed id t c = Some ((b, ahead (_stripLeading c) t, []), c') /\ answering c' /\
    _stripLeading c' = _stripLeading c && match ahead (_stripLeading c) t with [] => true | _ => false end.
Proof.
  intros (Hs & Hph & Hh & Hp) Ht. unfold feed. rewrite Hs. unfold feedQwenThink. rewrite Hph, Hh, Hp. cbn [app]. cbn zeta.
  assert (Hl : forall n l, turn l = (false, snd (turn l)) -> loop n l = Some (snd (turn l))) by (intros n l E; destruct n; cbn [loop]; by rewrite E).
  rewrite Hl; rewrite turn_plain by done; [|done]. cbn zeta. cbn [snd emit think strip header phase pend close app].
  assert (Hq : plain (ahead (_stripLeading c) t)).
  { unfold ahead. destruct (_stripLeading c); [destruct (skipWhile_suffix isAsciiWs t) as (k & -> & _); by apply plain_drop|done]. }
  change (if _stripLeading c then skipWhile isAsciiWs t else t) with (ahead (_stripLeading c) t). cbn [mbind option_bind emit think strip header phase pend close].
  rewrite (scrub_plain _ _ Hq). by eexists _, _.
Qed.

Lemma feeds_answer toks : forall c, answering c -> plain (concat (map snd toks)) ->
  feeds toks c = Some (ahead (_stripLeading c) (concat (map snd toks)), []).
Proof.
  induction toks as [|[id t] toks IH]; intros c Hc Hp; cbn [feeds map concat snd]; [by destruct (_stripLeading c)|].
  cbn [map concat snd] in Hp. apply Forall_app in Hp as [Ht Hp].
  destruct (feed_answer id t c Hc Ht) as (b & c' & -> & Hc' & Hst). cbn [mbind option_bind]. rewrite (IH c' Hc' Hp), Hst. cbn [mbind option_bind].
  by rewrite ahead_app.
Qed.

(** Inside the reasoning. *)
Definition thinking (c : ResponseCleaner) : Prop :=
  _style c = QwenChatML /\ _thinkPhase c = InThink /\ _inRoleHeader c = false /\ _stripLeading c = false /\
  _thinkClose c = kThinkEnd /\ find kThinkEnd (_pending c) = None.

Lemma feed_thinking id t c rest e : thinking c -> find kThinkEnd (_pending c ++ t ++ rest) = Some e ->
  plain (drop (e + length kThinkEnd) (_pending c ++ t ++ rest)) ->
  exists b out th c', feed id t c = Some ((b, out, th), c') /\
    ((thinking c' /\ out = [] /\ exists e', find kThinkEnd (_pending c' ++ rest) = Some e' /\
       take e (_pending c ++ t ++ rest) = th ++ take e' (_pending c' ++ rest) /\
       drop (e + length kThinkEnd) (_pending c ++ t ++ rest) = drop (e' + length kThinkEnd) (_pending c' ++ rest)) \/
     (answering c' /\ th = take e (_pending c ++ t ++ rest) /\
       skipWhile isAsciiWs (drop (e + length kThinkEnd) (_pending c ++ t ++ rest)) = out ++ ahead (_stripLeading c') rest /\ plain rest)).
Proof.
  intros (Hs & Hph & Hh & Hst & Hc & Hn) He Hpl. rewrite app_assoc in He, Hpl |- *. set (p := _pending c ++ t) in *.
  unfold feed. rewrite Hs. unfold feedQwenThink. rewrite Hph, Hh, Hst, Hc. fold p. cbn zeta.
  destruct (find kThinkEnd p) as [e'|] eqn:E.
  - pose proof (find_app _ _ rest _ E) as E2. assert (e' = e) as -> by congruence.
    assert (Hb : e + length kThinkEnd <= length p) by (apply find_Some in E as [Ho _]; by apply occurs_bound).
    set (l1 := mkLoop true false Done (drop (e + length kThinkEnd) p) kThinkEnd [] (take e p)).
    assert (Ht1 : turn (mkLoop false false InThink p kThinkEnd [] []) = (true, l1)).
    { unfold turn. cbn [phase pend close]. by rewrite E. }
    assert (Hlen : exists n, length p = S n) by (destruct p as [|x p0]; [cbn in Hb; lia|by eexists]). destruct Hlen as [n Hlen].
    rewrite drop_app_le in Hpl by done. apply Forall_app in Hpl as [Hpl Hrest].
    assert (Hloop : loop (length p) (mkLoop false false InThink p kThinkEnd [] []) = Some (snd (turn l1))).
    { rewrite Hlen. cbn [loop]. rewrite Ht1. unfold l1. destruct n; cbn [loop]; by rewrite turn_plain. }
    rewrite Hloop. unfold l1. rewrite turn_plain by done. cbn zeta.
    cbn [snd mbind option_bind emit think strip header phase pend close app andb].
    set (q := skipWhile isAsciiWs (drop (e + length kThinkEnd) p)). assert (Hq : plain q).
    { unfold q. destruct (skipWhile_suffix isAsciiWs (drop (e + length kThinkEnd) p)) as (k & -> & _). by apply plain_drop. }
    rewrite (scrub_plain _ _ Hq). eexists _, _, _, _. split; [done|right]. split; [done|].
    split; [by rewrite take_app_le by lia|]. split; [|done]. cbn [_stripLeading].
    rewrite drop_app_le by done. apply (ahead_app true).
  - pose proof (find_beyond _ _ _ _ E He) as Hb. set (n := length p - (length kThinkEnd - 1)).
    assert (Hloop : loop (length p) (mkLoop false false InThink p kThinkEnd [] []) = Some (mkLoop false false InThink (drop n p) kThinkEnd [] (take n p))).
    { assert (Hturn : turn (mkLoop false false InThink p kThinkEnd [] []) = (false, mkLoop false false InThink (drop n p) kThinkEnd [] (take n p))).
      { unfold turn. cbn [phase pend close strip header emit think]. rewrite E. cbn zeta.
        destruct (Nat.ltb_spec (length kThinkEnd - 1) (length p)); [done|]. assert (n = 0) as -> by (unfold n; lia). by rewrite drop_0. }
      destruct (length p); cbn [loop]; by rewrite Hturn. }
    rewrite Hloop. cbn [mbind option_bind emit think strip header phase pend close]. eexists _, _, _, _. split; [done|left].
    split; [repeat split; try done; by apply find_drop_None|]. split; [done|]. cbn [_pending].
    assert (Hne : n <= e) by (change (length kThinkEnd) with 8 in Hb; unfold n; change (length kThinkEnd) with 8; lia).
    assert (Hsh : find kThinkEnd (p ++ rest) = (fun i => n + i) <$> find kThinkEnd (drop n (p ++ rest))).
    { apply find_shift; [rewrite length_app; unfold n; lia|]. apply find_Some in He as [_ Hj]. intros j Hlt. apply Hj. lia. }
    rewrite He in Hsh. rewrite drop_app_le in Hsh by (unfold n; lia).
    destruct (find kThinkEnd (drop n p ++ rest)) as [e'|]; [|done]. injection Hsh as ->. exists e'. split; [done|].
    rewrite <- (drop_app_le p rest n) by (unfold n; lia). rewrite <- (take_app_le p rest n) by (unfold n; lia).
    rewrite take_take_drop, drop_drop. split; [done|]. f_equal. lia.
Qed.

Lemma feeds_thinking toks : forall c e, thinking c -> let s := _pending c ++ concat (map snd toks) in
  find kThinkEnd s = Some e -> plain (drop (e + length kThinkEnd) s) ->
  feeds toks c = Some (skipWhile isAsciiWs (drop (e + length kThinkEnd) s), take e s).
Proof.
  induction toks as [|[id t] toks IH]; intros c e Hc s; unfold s; cbn [map concat snd feeds].
  - rewrite app_nil_r. destruct Hc as (_ & _ & _ & _ & _ & ->). done.
  - intros He Hp. destruct (feed_thinking id t c _ e Hc He Hp) as (b & out & th & c' & -> & H). cbn [mbind option_bind].
    destruct H as [(Hc' & -> & e' & He' & Ht & Hd)|(Hc' & -> & Hout & Hpl)].
    + rewrite (IH c' e' Hc' He') by (by rewrite <- Hd). cbn [mbind option_bind app]. by rewrite Ht, Hd.
    + rewrite (feeds_answer toks c' Hc' Hpl). cbn [mbind option_bind]. by rewrite Hout, app_nil_r.
Qed.

(** A Qwen answer without further markup, streamed in whatever tokens, is separated as
    [cleanResponse] separates the complete one: the reasoning before the closer when the
    prompt opened it, and the answer behind, or everything as answer when it did not. *)
Lemma cleaner_agrees thinkId endId toks :
  let c := create QwenChatML thinkId endId in
  let s := concat (map snd toks) in
  (if (0 <=? thinkId)%Z then exists e, find kThinkEnd s = Some e /\ plain (drop (e + length kThinkEnd) s) else plain s) ->
  feeds toks c =
    Some (fst (cleanResponse QwenChatML s (0 <=? thinkId)%Z), default [] (snd (cleanResponse QwenChatML s (0 <=? thinkId)%Z))).
Proof.
  cbn zeta. unfold cleanResponse. destruct (0 <=? thinkId)%Z eqn:Ei.
  - intros (e & He & Hp). rewrite He. cbn [fst snd]. apply (feeds_thinking toks (create QwenChatML thinkId endId) e); try done.
    unfold thinking, create. rewrite Ei. cbn. done.
  - intros Hp. rewrite (find_plain kThinkEnd) by done. rewrite feeds_answer; [|unfold answering, create; rewrite Ei; done|done].
    unfold create. cbn. done.
Qed.

(** Reasoning and answer in tokens that cut the closer. *)
Definition demoTokens : list (Z * text) :=
  [(1%Z, lit "two plus"); (2%Z, lit " two</th"); (3%Z, lit "ink>
"); (4%Z, lit "
4")].

Example cleaner_demo :
  feeds demoTokens (create QwenChatML 7 (-1)) = Some (lit "4", lit "two plus two").
Proof.
  change (Some (lit "4", lit "two plus two")) with
    (Some (fst (cleanResponse QwenChatML (concat (map snd demoTokens)) (0 <=? 7)%Z),
      default [] (snd (cleanResponse QwenChatML (concat (map snd demoTokens)) (0 <=? 7)%Z)))).
  apply (cleaner_agrees 7 (-1) demoTokens). exists 12. split; [reflexivity|].
  vm_compute. repeat constructor; discriminate.
Qed.

(** A [<] that no [>] follows keeps the rest of the answer back, and nothing fetches it when the
    turn ends. *)
Example less_than_swallows_answer :
  feeds [(1%Z, lit "if a"); (2%Z, lit " <"); (3%Z, lit " b then stop")] (create QwenChatML (-1) (-1)) = Some (lit "if a ", []).
Proof. vm_compute. reflexivity. Qed.

(** Reasoning that is cut off loses its last seven characters, where [cleanResponse] keeps them. *)
Example cut_reasoning_loses_tail :
  feeds [(1%Z, lit "so the answer is 42")] (create QwenChatML 7 (-1)) = Some ([], lit "so the answe") /\
  cleanResponse QwenChatML (lit "so the answer is 42") true = ([], Some (lit "so the answer is 42")).
Proof. vm_compute. split; reflexivity. Qed.
End CleanerProofs.

(** ** Whole codepoints *)

Module Utf8Proofs.
Import SseEncoder.

(** A lead byte with its continuations, again and again. *)
Inductive wellFormed : text -> Prop :=
  | wf_nil : wellFormed []
  | wf_cons lead conts s :
      expectedCont lead = Some (length conts) -> Forall (fun c => isCont c = true) conts -> wellFormed s ->
      wellFormed (lead :: conts ++ s).

Lemma lead_not_cont c n : expectedCont c = Some n -> isCont c = false /\ n <= 3.
Proof. destruct c as [[] [] [] [] [] [] [] []]; vm_compute; intros [=]; subst; split; (done || lia). Qed.

(** A codepoint cut short. *)
Definition partial (b : text) : Prop :=
  b = [] \/ exists lead conts n, b = lead :: conts /\ expectedCont lead = Some n /\ length conts < n /\ Forall (fun c => isCont c = true) conts.

Lemma utf8_prefix_split s : wellFormed s -> forall p rest, s = p ++ rest ->
  exists a b, p = a ++ b /\ wellFormed a /\ partial b /\ wellFormed (b ++ rest).
Proof.
  induction 1 as [|lead conts s Hl Hc Hs IH]; intros p rest Hp.
  - apply (eq_sym) in Hp. apply app_nil in Hp as [-> ->]. exists [], []. repeat constructor.
  - destruct p as [|x p].
    { exists [], []. split; [done|]. split; [constructor|]. split; [by left|]. cbn [app] in *. rewrite <- Hp. by constructor. }
    injection Hp as -> Hp. destruct (Nat.le_gt_cases (length conts) (length p)) as [Hle|Hgt].
    + assert (exists q, p = conts ++ q /\ s = q ++ rest) as (q & -> & ->).
      { exists (drop (length conts) p). split.
        - rewrite <- (take_drop (length conts) p) at 1. f_equal. apply (f_equal (take (length conts))) in Hp.
          rewrite take_app_length, take_app_le in Hp by done. done.
        - apply (f_equal (drop (length conts))) in Hp. rewrite drop_app_length, drop_app_le in Hp by done. done. }
      destruct (IH q rest eq_refl) as (a & b & -> & Ha & Hb & Hr). exists (x :: conts ++ a), b.
      split; [cbn; by rewrite app_assoc|]. split; [by constructor|done].
    + exists [], (x :: p). split; [done|]. split; [constructor|].
      split; [|change ((x :: p) ++ rest) with (x :: (p ++ rest)); rewrite <- Hp; by constructor].
      right. exists x, p, (length conts). split; [done|]. split; [done|]. split; [done|].
      apply (f_equal (take (length p))) in Hp. rewrite take_app_le, take_app_length in Hp by lia. rewrite <- Hp. by apply Forall_take.
Qed.

Lemma last_codepoint s : wellFormed s -> s <> [] -> exists a lead conts, s = a ++ lead :: conts /\
  expectedCont lead = Some (length conts) /\ Forall (fun c => isCont c = true) conts.
Proof.
  induction 1 as [|lead conts s Hl Hc Hs IH]; [done|]. intros _. destruct s as [|x s].
  - exists [], lead, conts. by rewrite app_nil_r.
  - destruct IH as (a & l & cs & -> & Hcs); [done|]. exists (lead :: conts ++ a), l, cs. split; [cbn; by rewrite <- app_assoc|done].
Qed.

Lemma contSeen_spec conts lead r : Forall (fun c => isCont c = true) conts -> isCont lead = false ->
  forall k, contSeen k (conts ++ lead :: r) = Nat.min k (length conts).
Proof.
  intros Hc Hl. induction Hc as [|c conts Hc _ IH]; intros [|k]; cbn [contSeen app length]; try done; [by rewrite Hl|].
  rewrite Hc, IH. done.
Qed.

(** The last lead byte decides. *)
Lemma tail_start a lead conts n : expectedCont lead = Some n -> Forall (fun c => isCont c = true) conts -> length conts <= n ->
  utf8IncompleteTailStart (a ++ lead :: conts) = if n <=? length conts then length (a ++ lead :: conts) else length a.
Proof.
  intros He Hc Hn. destruct (lead_not_cont lead n He) as [Hl Hn3].
  assert (Hseen : contSeen 3 (rev (a ++ lead :: conts)) = length conts).
  { rewrite rev_app_distr. cbn [rev]. rewrite <- app_assoc. cbn [app]. rewrite contSeen_spec; [|by apply Forall_rev|done].
    rewrite length_rev. lia. }
  unfold utf8IncompleteTailStart. destruct (a ++ lead :: conts) as [|x s0] eqn:Es; [by destruct a|]. rewrite <- Es in *. rewrite Hseen. cbn zeta.
  assert (Hi : length (a ++ lead :: conts) - length conts = S (length a)) by (rewrite length_app; cbn; lia).
  rewrite Hi. cbn [Nat.sub]. rewrite Nat.sub_0_r, list_lookup_middle by done. by rewrite He.
Qed.

Lemma tail_start_split a b : wellFormed a -> partial b -> utf8IncompleteTailStart (a ++ b) = length a.
Proof.
  intros Ha [->|(lead & conts & n & -> & He & Hlt & Hc)].
  - rewrite app_nil_r. destruct a as [|x a]; [done|]. destruct (last_codepoint _ Ha) as (a' & l & cs & Hs & He & Hc); [done|].
    rewrite Hs, (tail_start a' l cs (length cs)) by done. by rewrite Nat.leb_refl.
  - rewrite (tail_start a lead conts n) by (done || lia). by rewrite (proj2 (Nat.leb_gt _ _)).
Qed.

(** The pieces that go out, and what is held at the end. *)
Fixpoint pushes (pending : text) (deltas : list text) : list text * text :=
  match deltas with
  | [] => ([], pending)
  | t :: deltas =>
      let '(out, pending) := pushUtf8 pending t in
      let '(outs, pending) := pushes pending deltas in (out :: outs, pending)
  end.

Lemma wellFormed_inv x l : wellFormed (x :: l) -> exists conts s, l = conts ++ s /\ expectedCont x = Some (length conts) /\
  Forall (fun c => isCont c = true) conts /\ wellFormed s.
Proof. inversion 1; subst. by eexists _, _. Qed.

(** Well-formed text cut at an ASCII character is well-formed on both sides. *)
Lemma ascii_lead c : (N_of_ascii c <? 128)%N = true -> expectedCont c = Some 0 /\ isCont c = false.
Proof. destruct c as [[] [] [] [] [] [] [] []]; vm_compute; by intros [=]. Qed.

Lemma wellFormed_tail c s : (N_of_ascii c <? 128)%N = true -> wellFormed (c :: s) -> wellFormed s.
Proof.
  intros Hc Hw. destruct (ascii_lead c Hc) as [He _]. destruct (wellFormed_inv _ _ Hw) as (conts & s' & -> & He' & _ & Hs').
  rewrite He in He'. by destruct conts.
Qed.

Lemma wellFormed_cut r c s : (N_of_ascii c <? 128)%N = true -> wellFormed (r ++ c :: s) -> wellFormed r /\ wellFormed (c :: s).
Proof.
  intros Hc Hw. destruct (utf8_prefix_split _ Hw r (c :: s) eq_refl) as (a & b & -> & Ha & Hb & Hr).
  destruct Hb as [->|(lead & conts & n & -> & He & Hlt & Hcs)]; [by rewrite app_nil_r|exfalso].
  change (wellFormed (lead :: (conts ++ c :: s))) in Hr. destruct (wellFormed_inv _ _ Hr) as (cs' & s' & E & He' & Hcs' & _). rewrite He in He'. injection He' as ->.
  pose proof (f_equal (fun l => l !! length conts) E) as Hl. cbn beta in Hl. rewrite list_lookup_middle in Hl by done.
  rewrite lookup_app_l in Hl by done. rewrite Forall_lookup in Hcs'. pose proof (Hcs' _ _ (eq_sym Hl)) as Hcc.
  destruct (ascii_lead c Hc) as [_ Hn]. congruence.
Qed.

Lemma wellFormed_app_ascii p s : Forall (fun c => (N_of_ascii c <? 128)%N = true) p -> wellFormed (p ++ s) -> wellFormed s.
Proof. induction 1 as [|c p Hc _ IH]; cbn [app]; [done|]. intros Hw. by apply IH, (wellFormed_tail c). Qed.

Lemma wellFormed_app_ascii_front p s : Forall (fun c => (N_of_ascii c <? 128)%N = true) p -> wellFormed s -> wellFormed (p ++ s).
Proof.
  induction 1 as [|c p Hc _ IH]; cbn [app]; [done|]. intros Hw. apply (wf_cons c []); [by apply ascii_lead|constructor|by apply IH].
Qed.

Lemma wellFormed_skip s : wellFormed s -> wellFormed (skipWhile isAsciiWs s).
Proof.
  intros Hw. destruct (ToolCallSplit.afterWs_spec s) as (w & Hs & _ & Hf & _). cbn [snd ToolCallStreamDetector.afterWs] in Hs.
  rewrite Hs in Hw. revert Hw. apply wellFormed_app_ascii. eapply Forall_impl; [exact Hf|]. intros c.
  destruct c as [[] [] [] [] [] [] [] []]; vm_compute; by intros [=].
Qed.

(** One delta. *)
Lemma push_whole pending t rest : partial pending -> wellFormed (pending ++ t ++ rest) ->
  let '(out, pending') := pushUtf8 pending t in
  pending ++ t = out ++ pending' /\ wellFormed out /\ partial pending' /\ wellFormed (pending' ++ rest).
Proof.
  intros Hp Hw. rewrite app_assoc in Hw. destruct (utf8_prefix_split _ Hw _ _ eq_refl) as (a & b & Hab & Ha & Hb & Hr).
  unfold pushUtf8. by rewrite Hab, (tail_start_split a b Ha Hb), take_app_length, drop_app_length.
Qed.

Lemma partial_wellFormed b : partial b -> wellFormed b -> b = [].
Proof.
  intros [->|(lead & conts & n & -> & He & Hlt & _)] Hw; [done|]. inversion Hw as [|lead' conts' s' He' _ _ E]; subst.
  rewrite He in He'. injection He' as ->. rewrite length_app in Hlt. lia.
Qed.

Lemma pushes_whole deltas : forall pending, partial pending -> wellFormed (pending ++ concat deltas) ->
  let '(outs, held) := pushes pending deltas in
  concat outs ++ held = pending ++ concat deltas /\ Forall wellFormed outs /\ held = [].
Proof.
  induction deltas as [|t deltas IH]; intros pending Hp Hw; cbn [pushes concat] in *.
  - rewrite app_nil_r in *. split; [done|]. split; [constructor|by apply partial_wellFormed].
  - pose proof (push_whole pending t (concat deltas) Hp Hw) as H. destruct (pushUtf8 pending t) as [out p']. destruct H as (Hc & Ho & Hp' & Hr).
    specialize (IH p' Hp' Hr). destruct (pushes p' deltas) as [outs held]. destruct IH as (Hcs & Hf & Hh).
    cbn [concat]. split; [|by split; [constructor|]]. by rewrite <- app_assoc, Hcs, app_assoc, <- Hc, <- app_assoc.
Qed.

(** Deltas that together are well-formed UTF-8, however they cut its codepoints, go out
    complete and as pieces that are well-formed each, and nothing is held at the end. *)
Lemma codepoints_stay_whole deltas : wellFormed (concat deltas) ->
  let '(outs, held) := pushes [] deltas in concat outs = concat deltas /\ Forall wellFormed outs /\ held = [].
Proof.
  intros Hw. pose proof (pushes_whole deltas [] ltac:(by left) Hw) as H. destruct (pushes [] deltas) as [outs held].
  destruct H as (Hc & Hf & ->). by rewrite app_nil_r in Hc.
Qed.

(** A euro sign and an emoji, cut within. *)
Definition demoDeltas : list text :=
  map (map ascii_of_nat) [[53; 226; 130]; [172; 32; 240]; [159; 153]; [130; 33]].

Example codepoints_demo :
  pushes [] demoDeltas =
    (map (map ascii_of_nat) [[53]; [226; 130; 172; 32]; []; [240; 159; 153; 130; 33]], []) /\
  let '(outs, held) := pushes [] demoDeltas in concat outs = concat demoDeltas /\ Forall wellFormed outs /\ held = [].
Proof.
  split; [vm_compute; reflexivity|]. apply (codepoints_stay_whole demoDeltas). cbn [concat demoDeltas map app].
  apply (wf_cons _ []); [reflexivity|constructor|]. apply (wf_cons _ [_; _]); [reflexivity|by repeat constructor|].
  apply (wf_cons _ []); [reflexivity|constructor|]. apply (wf_cons _ [_; _; _]); [reflexivity|by repeat constructor|].
  apply (wf_cons _ []); [reflexivity|constructor|]. constructor.
Qed.
End Utf8Proofs.

(** ** A whole turn *)

Module ChatStreamProofs.
Import ChatStream CleanerProofs Utf8Proofs.

Definition contents (l : list chunk) : text := concat (map (fun c => match c with ContentChunk s => s | _ => [] end) l).
Definition reasonings (l : list chunk) : text := concat (map (fun c => match c with ReasoningChunk s => s | _ => [] end) l).

(** Text chunks of whole codepoints, and no call. *)
Definition textChunk (c : chunk) : Prop :=
  match c with ContentChunk s | ReasoningChunk s => s <> [] /\ wellFormed s | ToolCallChunk _ => False end.

Lemma contents_app a b : contents (a ++ b) = contents a ++ contents b.
Proof. unfold contents. by rewrite map_app, concat_app. Qed.

Lemma reasonings_app a b : reasonings (a ++ b) = reasonings a ++ reasonings b.
Proof. unfold reasonings. by rewrite map_app, concat_app. Qed.

Lemma optional_content s : contents (optional ContentChunk s) = s /\ reasonings (optional ContentChunk s) = [].
Proof. unfold optional, contents, reasonings. destruct s; cbn; by rewrite ?app_nil_r. Qed.

Lemma optional_reasoning s : contents (optional ReasoningChunk s) = [] /\ reasonings (optional ReasoningChunk s) = s.
Proof. unfold optional, contents, reasonings. destruct s; cbn; by rewrite ?app_nil_r. Qed.

Lemma optional_text k s : (k = ContentChunk \/ k = ReasoningChunk) -> wellFormed s -> Forall textChunk (optional k s).
Proof. intros Hk Hs. unfold optional. destruct s; cbn [nonempty]; [constructor|]. constructor; [|constructor]. by destruct Hk as [-> | ->]. Qed.

Lemma push_step pending t rest : partial pending -> wellFormed (pending ++ t ++ rest) ->
  let '(out, pending') := push pending t in
  pending ++ t = out ++ pending' /\ wellFormed out /\ partial pending' /\ wellFormed (pending' ++ rest).
Proof.
  intros Hp Hw. unfold push. destruct t as [|c t]; cbn [nonempty]; [|by apply push_whole]. rewrite app_nil_r. split; [done|]. split; [constructor|done].
Qed.

Lemma feed_qwen id t c has out th c' : ResponseCleaner._style c = QwenChatML -> ResponseCleaner.feed id t c = Some ((has, out, th), c') ->
  has = nonempty out /\ ResponseCleaner._style c' = QwenChatML.
Proof.
  intros Hs. unfold ResponseCleaner.feed. rewrite Hs. unfold ResponseCleaner.feedQwenThink. cbn zeta. destruct (ResponseCleaner.loop _ _) as [l|]; cbn [mbind option_bind]; [|done].
  intros [= <- <- <- <-]. split; [by destruct (ResponseCleaner.scrub _ _ _)|done].
Qed.

Section Turn.
Variable isStop : Z -> bool.
Variable decode : Z -> text.
Variable callsIn : text -> bool -> nat.
Variable resolveHeld : text -> list chunk.

(** The tokens whose text reaches the cleaner. *)
Definition visible (ids : list Z) : list (Z * text) :=
  map (fun id => (id, decode id)) (List.filter (fun id => negb (isStop id) && nonempty (decode id)) ids).

Definition answerText (ids : list Z) : text := concat (map decode (List.filter (fun id => negb (isStop id)) ids)).

Lemma visible_text ids : concat (map snd (visible ids)) = answerText ids.
Proof using.
  unfold visible, answerText. induction ids as [|id ids IH]; cbn [List.filter]; [done|].
  destruct (isStop id); cbn [negb andb]; [done|]. destruct (decode id) eqn:E; cbn [nonempty map concat snd]; by rewrite ?E, IH.
Qed.

(** Without tools the turn is the cleaner, then whole codepoints. *)
Lemma onTokens_plain ids : forall st a r,
  toolCallsEnabled st = false -> contentHoldActive st = false -> ResponseCleaner._style (cleaner st) = QwenChatML ->
  feeds (visible ids) (cleaner st) = Some (a, r) ->
  partial (utf8Pending st) -> partial (reasoningPending st) -> wellFormed (utf8Pending st ++ a) -> wellFormed (reasoningPending st ++ r) ->
  exists chunks st', onTokens isStop decode callsIn ids st = Some (chunks, st') /\ toolCallsEnabled st' = false /\
    utf8Pending st ++ a = contents chunks /\ reasoningPending st ++ r = reasonings chunks /\ Forall textChunk chunks /\
    utf8Pending st' = [] /\ reasoningPending st' = [].
Proof using.
  induction ids as [|id ids IH]; intros st a r Ht Hh Hs Hf Hu Hp Hwu Hwp; cbn [onTokens].
  { injection Hf as <- <-. rewrite !app_nil_r in *. rewrite (partial_wellFormed _ Hu Hwu), (partial_wellFormed _ Hp Hwp).
    eexists _, _. split; [done|]. repeat split; try done; [by apply partial_wellFormed..]. }
  unfold onToken. unfold visible in Hf. cbn [List.filter] in Hf. destruct (isStop id); cbn [negb andb] in Hf.
  { unfold closeCall. rewrite Ht. cbn [andb mbind option_bind]. destruct (IH st a r) as (ch & st' & -> & H); try done. by eexists _, _. }
  destruct (nonempty (decode id)); cbn [negb map] in Hf |- *.
  2:{ cbn [mbind option_bind]. destruct (IH st a r) as (ch & st' & -> & H); try done. by eexists _, _. }
  cbn [feeds] in Hf. destruct (ResponseCleaner.feed id (decode id) (cleaner st)) as [[[[has out] th] c']|] eqn:Ef; [|done]. cbn [mbind option_bind] in Hf |- *.
  destruct (feeds _ c') as [[a' r']|] eqn:Efs; [|done]. injection Hf as <- <-.
  destruct (feed_qwen _ _ _ _ _ _ _ Hs Ef) as [-> Hs'].
  pose proof (push_step _ _ _ Hp Hwp) as Hpr. destruct (push (reasoningPending st) th) as [rout rp]. destruct Hpr as (Er & Hwr & Hrp & Hwr').
  pose proof (push_step _ _ _ Hu Hwu) as Hpu. destruct out as [|x out]; cbn [nonempty negb].
  - cbn [push nonempty] in Hpu. destruct Hpu as (_ & _ & _ & Hwu').
    destruct (IH (setCleaner c' rp st) a' r') as (ch & st' & Hon & Ht' & Hcu & Hcr & Hfc & Hend); try done.
    cbn [mbind option_bind]. rewrite Hon. cbn [mbind option_bind]. eexists _, _. split; [done|]. split; [done|].
    rewrite contents_app, reasonings_app. destruct (optional_reasoning rout) as [-> ->]. rewrite <- Hcu, <- Hcr. cbn [app utf8Pending reasoningPending setCleaner].
    split; [done|]. split; [by rewrite !app_assoc, Er|]. split; [|done]. apply Forall_app. split; [apply optional_text; [by right|done]|done].
  - change (toolCallsEnabled (setCleaner c' rp st)) with (toolCallsEnabled st). rewrite Ht.
    unfold decideHold. cbn [toolCallsEnabled setDetector setCleaner contentHoldActive nonempty andb]. rewrite Ht, Hh. cbn [andb utf8Pending].
    destruct (push (utf8Pending st) (x :: out)) as [o up] eqn:Epush. destruct Hpu as (Eu & Hwo & Hup & Hwu').
    cbn [utf8Pending setDetector setCleaner]. rewrite Epush.
    match goal with |- context [setUtf8 up ?s0] => set (s1 := setUtf8 up s0) end.
    destruct (IH s1 a' r') as (ch & st' & Hon & Ht' & Hcu & Hcr & Hfc & Hend); try done.
    cbn [mbind option_bind]. rewrite Hon. cbn [mbind option_bind]. eexists _, _. split; [done|]. split; [done|].
    rewrite !contents_app, !reasonings_app. destruct (optional_reasoning rout) as [-> ->], (optional_content o) as [-> ->].
    rewrite <- Hcu, <- Hcr, app_nil_r. change (utf8Pending s1) with up. change (reasoningPending s1) with rp.
    split; [by rewrite (app_assoc (utf8Pending st)), Eu, <- app_assoc|]. split; [by rewrite (app_assoc (reasoningPending st)), Er, <- app_assoc|]. split; [|done].
    apply Forall_app. split; [|done]. apply Forall_app. split; apply optional_text; [by right|done|by left|done].
Qed.

Lemma decideHold_keeps txt st txt' st' : decideHold txt st = (txt', st') ->
  toolCallDetector st' = toolCallDetector st /\ toolCallsEnabled st' = toolCallsEnabled st.
Proof using.
  unfold decideHold. destruct (if _ && _ && _ then _ else _) as [hold seen]. by destruct (nonempty txt && hold); intros [= _ <-].
Qed.

Lemma emitToolCallBlock_keeps block st out st' : emitToolCallBlock callsIn block st = (out, st') ->
  toolCallDetector st' = toolCallDetector st /\ toolCallsEnabled st' = toolCallsEnabled st.
Proof using. unfold emitToolCallBlock. by destruct (callsIn block _); intros [= _ <-]. Qed.

(** With tools a token moves the detector as [ToolCallStreamDetector.onText] does on what the
    cleaner makes of it, whatever is held back for the client meanwhile. *)
Lemma onToken_drives id st out st' : toolCallsEnabled st = true -> isStop id = false -> nonempty (decode id) = true ->
  onToken isStop decode callsIn id st = Some (out, st') ->
  toolCallsEnabled st' = true /\
  exists has txt reasoning c, ResponseCleaner.feed id (decode id) (cleaner st) = Some ((has, txt, reasoning), c) /\
    toolCallDetector st' = if has : bool then snd (ToolCallStreamDetector.onText txt (toolCallDetector st)) else toolCallDetector st.
Proof using.
  intros Ht Hs Hn. unfold onToken. rewrite Hs, Hn. cbn [negb].
  destruct (ResponseCleaner.feed id (decode id) (cleaner st)) as [[[[has txt] th] c]|]; [|done]. cbn [mbind option_bind].
  destruct (push (reasoningPending st) th) as [rout rp]. destruct has; cbn [negb]; [|intros [= _ <-]; split; [done|by exists false, txt, th, c]].
  change (toolCallsEnabled (setCleaner c rp st)) with (toolCallsEnabled st). rewrite Ht.
  change (toolCallDetector (setCleaner c rp st)) with (toolCallDetector st).
  unfold ToolCallStreamDetector.onText at 1. intros H. split; [|exists true, txt, th, c; split; [done|]]; revert H; unfold ToolCallStreamDetector.onText;
    destruct (ToolCallStreamDetector.feed txt (toolCallDetector st)) as [[done txt'] d];
    destruct (decideHold txt' (setDetector d (setCleaner c rp st))) as [txt2 st2] eqn:Eh; apply decideHold_keeps in Eh as [Eh1 Eh2]; cbn in Eh1, Eh2;
    destruct (push (utf8Pending st2) txt2) as [o up]; destruct done; try (intros [= _ <-]; cbn; congruence);
    destruct (emitToolCallBlock _ _ _) as [calls st3] eqn:Ee; apply emitToolCallBlock_keeps in Ee as [Ee1 Ee2]; cbn in Ee1, Ee2;
    intros [= _ <-]; cbn; congruence.
Qed.

Lemma turn_plain_state st a r ids :
  toolCallsEnabled st = false -> contentHoldActive st = false -> ResponseCleaner._style (cleaner st) = QwenChatML ->
  feeds (visible ids) (cleaner st) = Some (a, r) -> utf8Pending st = [] -> reasoningPending st = [] -> wellFormed a -> wellFormed r ->
  exists chunks, turn isStop decode callsIn resolveHeld ids st = Some chunks /\
    contents chunks = a /\ reasonings chunks = r /\ Forall textChunk chunks.
Proof using.
  intros Ht Hh Hs Hf Hu Hp Ha Hr.
  destruct (onTokens_plain ids st a r) as (ch & st' & Hon & Ht' & Hcu & Hcr & Hfc & Hue & Hpe); rewrite ?Hu, ?Hp; try done; try (by left).
  unfold turn. rewrite Hon. cbn [mbind option_bind]. unfold settle, closeCall.
  repeat (rewrite Ht'; cbn [andb]; cbv beta iota zeta). unfold flush. rewrite Hue, Hpe. eexists. split; [done|]. cbn [app optional nonempty]. rewrite app_nil_r.
  rewrite <- Hcu, <- Hcr, Hu, Hp. done.
Qed.
End Turn.

(** Without tools, a Qwen turn streamed token by token gives the client what the filter for
    complete answers makes of the whole text, answer and reasoning, in pieces that are
    whole codepoints and none of them empty; tokens that stop the turn show no text.
    Hypotheses: the text is well-formed UTF-8, and its answer holds no [<]. *)
Theorem streamed_answer_whole isStop decode callsIn resolveHeld findToken preClosed ids :
  let thinkOn := negb preClosed && (0 <=? findToken "<think>"%string)%Z in
  let s := answerText isStop decode ids in
  wellFormed s ->
  (if thinkOn then exists e, find kThinkEnd s = Some e /\ plain (drop (e + length kThinkEnd) s) else plain s) ->
  exists chunks,
    turn isStop decode callsIn resolveHeld ids (newState QwenChatML findToken false preClosed false []) = Some chunks /\
    contents chunks = fst (cleanResponse QwenChatML s thinkOn) /\
    reasonings chunks = default [] (snd (cleanResponse QwenChatML s thinkOn)) /\
    Forall textChunk chunks.
Proof.
  intros thinkOn s Hw Hpl. set (st := newState QwenChatML findToken false preClosed false []).
  assert (Hcl : exists i, cleaner st = ResponseCleaner.create QwenChatML i (-1) /\ (0 <=? i)%Z = thinkOn).
  { unfold st, thinkOn. destruct preClosed; [by exists (-1)%Z|by eexists]. }
  destruct Hcl as (i & Hcl & Hi).
  assert (Hf : feeds (visible isStop decode ids) (cleaner st) =
    Some (fst (cleanResponse QwenChatML s thinkOn), default [] (snd (cleanResponse QwenChatML s thinkOn)))).
  { rewrite Hcl, <- Hi. unfold s. rewrite <- visible_text. apply cleaner_agrees. rewrite visible_text. fold s. by rewrite Hi. }
  apply turn_plain_state; try done; [by rewrite Hcl| |]; unfold cleanResponse; destruct (find kThinkEnd s) as [e|] eqn:He.
  - cbn [fst]. apply wellFormed_skip. apply find_Some in He as [[_ Ho] _]. apply starts_spec in Ho as [t Ho].
    rewrite <- (take_drop e s), Ho in Hw. apply (wellFormed_cut (take e s) "<"%char) in Hw as [_ Hw]; [|done].
    rewrite <- drop_drop, Ho. change (drop (length kThinkEnd) (kThinkEnd ++ t)) with t. revert Hw. apply (wellFormed_app_ascii kThinkEnd). repeat constructor.
  - destruct thinkOn; cbn [fst]; [constructor|done].
  - cbn [snd default]. apply find_Some in He as [[_ Ho] _]. apply starts_spec in Ho as [t Ho].
    rewrite <- (take_drop e s), Ho in Hw. by apply (wellFormed_cut (take e s) "<"%char) in Hw as [Hw _].
  - destruct thinkOn; cbn [snd default]; [done|constructor].
Qed.

(** Four tokens and a stop token: the closer and an emoji are cut. *)
Definition demoDecode (id : Z) : text :=
  nth (Z.to_nat id) [lit "a plan</th"; lit "ink>" ++ [newline; ascii_of_nat 240; ascii_of_nat 159]; [ascii_of_nat 153; ascii_of_nat 130]; lit " done"; lit "<stop>"] [].

Definition demoFind (s : string) : Z := if String.eqb s "<think>" then 9 else -1.

Definition demoTurn (ids : list Z) : option (list chunk) :=
  turn (fun id => (id =? 4)%Z) demoDecode (fun _ _ => 0) (fun _ => []) ids (newState QwenChatML demoFind false false false []).

Example demo_turn : demoTurn [0; 1; 2; 3; 4]%Z =
  Some [ReasoningChunk (lit "a p"); ReasoningChunk (lit "lan"); ContentChunk (map ascii_of_nat [240; 159; 153; 130]); ContentChunk (lit " done")].
Proof. vm_compute. reflexivity. Qed.

Lemma streamed_answer_whole_witness :
  exists chunks, demoTurn [0; 1; 2; 3; 4]%Z = Some chunks /\
    contents chunks = map ascii_of_nat [240; 159; 153; 130] ++ lit " done" /\ reasonings chunks = lit "a plan" /\ Forall textChunk chunks.
Proof.
  apply (streamed_answer_whole (fun id => (id =? 4)%Z) demoDecode (fun _ _ => 0) (fun _ => []) demoFind false [0; 1; 2; 3; 4]%Z).
  - apply (wellFormed_app_ascii_front (lit "a plan</think>" ++ [newline])); [repeat constructor|].
    apply (wf_cons _ [_; _; _]); [reflexivity|by repeat constructor|]. apply (wellFormed_app_ascii_front (lit " done") []); [repeat constructor|constructor].
  - exists 6. split; [reflexivity|]. vm_compute. repeat constructor; discriminate.
Defined.

(** Content held because it began with [<] is dropped when a call is closed by a stop token and
    parsed: the client gets the call alone. *)
Example held_content_lost :
  turn (fun id => (id =? 3)%Z)
    (fun id => nth (Z.to_nat id) [lit "<b>Looking it up.</b> One moment"; lit "<|tool_call>"; lit "call:f{}"] [])
    (fun _ _ => 1) (fun s => [ContentChunk s]) [0; 1; 2; 3]%Z (newState Gemma4 (fun _ => (-1)%Z) false false true [])
  = Some [ToolCallChunk (lit "<|tool_call>call:f{}")].
Proof. vm_compute. reflexivity. Qed.
End ChatStreamProofs.
