(* ===== verification/Safetensors.v ===== *)
(** * Safetensors checkpoints

    Models [src/src/core/safetensors/]: the element types, the header, the shard index,
    the reader of one file and the model over all shards.  A file is its bytes; the
    JSON library is that of Ipc.v, a mapped file is an input.  A read outside the
    buffer is [Undefined]. *)

From Stdlib Require Import Ascii.
From stdpp Require Import pretty.
From S2P Require Import Prelude Gguf Ipc.
Import GgufReader.

(** ** Element types *)

Module SafetensorsDtype.

(** [src/src/core/safetensors/SafetensorsDtype.hpp:26-39 SafetensorsDtype] *)
Inductive SafetensorsDtype :=
  | F32 | F16 | BF16 | F8_E4M3 | F8_E5M2 | U8 | I8 | I16 | I32 | I64 | BOOL | Unknown.

#[global] Instance SafetensorsDtype_eq_dec : EqDecision SafetensorsDtype.
Proof. solve_decision. Defined.

Definition named : list (string * SafetensorsDtype) :=
  [("F32", F32); ("F16", F16); ("BF16", BF16); ("F8_E4M3", F8_E4M3); ("F8_E5M2", F8_E5M2); ("U8", U8);
   ("I8", I8); ("I16", I16); ("I32", I32); ("I64", I64); ("BOOL", BOOL)]%string.

(** [src/src/core/safetensors/SafetensorsDtype.cpp:8-21 dtypeFromString] *)
Definition dtypeFromString (s : string) : SafetensorsDtype :=
  default Unknown (snd <$> List.find (fun nd => String.eqb (fst nd) s) named).

(** [src/src/core/safetensors/SafetensorsDtype.cpp:23-39 dtypeWidth] *)
Definition dtypeWidth (d : SafetensorsDtype) : N :=
  match d with
  | F32 => 4 | F16 => 2 | BF16 => 2 | F8_E4M3 => 1 | F8_E5M2 => 1 | U8 => 1
  | I8 => 1 | I16 => 2 | I32 => 4 | I64 => 8 | BOOL => 1 | Unknown => 0
  end.

(** [src/src/core/safetensors/SafetensorsDtype.cpp:41-57 dtypeName] *)
Definition dtypeName (d : SafetensorsDtype) : string :=
  match d with
  | F32 => "F32" | F16 => "F16" | BF16 => "BF16" | F8_E4M3 => "F8_E4M3" | F8_E5M2 => "F8_E5M2" | U8 => "U8"
  | I8 => "I8" | I16 => "I16" | I32 => "I32" | I64 => "I64" | BOOL => "BOOL" | Unknown => "UNKNOWN"
  end.
End SafetensorsDtype.
Import SafetensorsDtype.

(** ** The header *)

Module SafetensorsHeader.

(** [src/src/core/safetensors/SafetensorsHeader.hpp:21-29 SafetensorsTensor] *)
Record SafetensorsTensor := mkTensor {
  t_name : string;
  t_dtype : SafetensorsDtype;
  t_shape : list N;
  t_nelements : N;
  t_nbytes : N;
  t_dataBegin : N;
  t_dataEnd : N;
}.

(** [src/src/core/safetensors/SafetensorsHeader.hpp:32-36 ParsedSafetensorsHeader] *)
Record ParsedSafetensorsHeader := mkParsed {
  p_tensors : list SafetensorsTensor;
  p_metadata : gmap string string;
  p_dataOffset : N;
}.

(** [src/src/core/safetensors/SafetensorsHeader.cpp:18-20 fail] *)
Definition fail {A} (msg : string) : outcome A := Throws (RuntimeError ("safetensors: " +:+ msg)).

(** [src/src/core/safetensors/SafetensorsHeader.cpp:24-29 asUint] *)
Definition asUint (v : json) (what : string) : outcome N :=
  match v with JUnsigned n => Returns n | _ => fail (what +:+ " is not an unsigned integer") end.

(** [src/src/core/safetensors/SafetensorsHeader.cpp:72-77 parseSafetensorsHeader] *)
Fixpoint readMetadata (l : list (string * json)) (meta : gmap string string) : outcome (gmap string string) :=
  match l with
  | [] => Returns meta
  | (mk, mv) :: l =>
      match mv with
      | JString s => readMetadata l (emplace mk s meta)
      | _ => fail ("__metadata__[" +:+ mk +:+ "] is not a string")
      end
  end.

(** The dimensions and their product, which wraps.
    [src/src/core/safetensors/SafetensorsHeader.cpp:104-112 parseSafetensorsHeader] *)
Fixpoint readShape (l : list json) (shape : list N) (nelements : N) : outcome (list N * N) :=
  match l with
  | [] => Returns (shape, nelements)
  | dim :: l => obind! d := asUint dim "shape dimension" in readShape l (shape ++ [d]) (u64 (nelements * d))
  end.

(** [src/src/core/safetensors/SafetensorsHeader.cpp:81-139 parseSafetensorsHeader] *)
Definition readTensor (dataOffset regionSize : N) (name : string) (spec : json) : outcome SafetensorsTensor :=
  let tensor := "tensor '" +:+ name +:+ "' " in
  if negb (isObject spec) then fail (tensor +:+ "entry is not an object")
  else
    match field spec "dtype", field spec "shape", field spec "data_offsets" with
    | Some dtypeVal, Some shapeVal, Some off =>
        match dtypeVal with
        | JString ds =>
            let dtype := dtypeFromString ds in
            if bool_decide (dtype = Unknown) then fail (tensor +:+ "has unsupported dtype '" +:+ ds +:+ "'")
            else
              match shapeVal with
              | JArray dims =>
                  obind! sn := readShape dims [] 1%N in
                  match off with
                  | JArray [b; e] =>
                      obind! begin := asUint b "data_offsets begin" in
                      obind! last := asUint e "data_offsets end" in
                      if (last <? begin)%N then fail (tensor +:+ "data_offsets begin > end")
                      else if (regionSize <? last)%N then
                        fail (tensor +:+ "data_offsets end " +:+ pretty last +:+ " exceeds data region " +:+ pretty regionSize)
                      else
                        let nbytes := (last - begin)%N in
                        let expect := u64 (snd sn * dtypeWidth dtype) in
                        if negb (nbytes =? expect)%N then
                          fail (tensor +:+ "byte length " +:+ pretty nbytes +:+ " != dtype-width x elements " +:+ pretty expect)
                        else Returns (mkTensor name dtype (fst sn) (snd sn) nbytes (u64 (dataOffset + begin)) (u64 (dataOffset + last)))
                  | _ => fail (tensor +:+ "data_offsets is not a [begin,end] pair")
                  end
              | _ => fail (tensor +:+ "shape is not an array")
              end
        | _ => fail (tensor +:+ "dtype is not a string")
        end
    | _, _, _ => fail (tensor +:+ "missing dtype/shape/data_offsets")
    end.

(** [src/src/core/safetensors/SafetensorsHeader.cpp:64-140 parseSafetensorsHeader] *)
Fixpoint readEntries (dataOffset regionSize : N) (l : list (string * json)) (out : ParsedSafetensorsHeader) : outcome ParsedSafetensorsHeader :=
  match l with
  | [] => Returns out
  | (name, spec) :: l =>
      if String.eqb name "__metadata__" then
        match spec with
        | JObject fields =>
            obind! meta := readMetadata fields (p_metadata out) in
            readEntries dataOffset regionSize l (mkParsed (p_tensors out) meta (p_dataOffset out))
        | _ => fail "__metadata__ is not an object"
        end
      else
        obind! t := readTensor dataOffset regionSize name spec in
        readEntries dataOffset regionSize l (mkParsed (p_tensors out ++ [t]) (p_metadata out) (p_dataOffset out))
  end.

(** [src/src/core/safetensors/SafetensorsHeader.cpp:146-150 parseSafetensorsHeader] *)
Fixpoint duplicate (l : list SafetensorsTensor) : option string :=
  match l with
  | a :: (b :: _) as l' => if String.eqb (t_name a) (t_name b) then Some (t_name b) else duplicate l'
  | _ => None
  end.

(** Eight bytes of length, the JSON text, the data; the length plus eight wraps.
    [src/src/core/safetensors/SafetensorsHeader.cpp:33-153 parseSafetensorsHeader] *)
Definition parseSafetensorsHeader `{Json} (file : list ascii) : outcome ParsedSafetensorsHeader :=
  let size := N.of_nat (length file) in
  if (size <? 8)%N then fail "file smaller than 8-byte header-length prefix"
  else
    let headerLen := GgufReader.le (take 8 file) in
    let dataOffset := u64 (8 + headerLen) in
    if (headerLen =? 0)%N then fail "header length is zero"
    else if (size <? dataOffset)%N then
      fail ("header length " +:+ pretty headerLen +:+ " exceeds file size " +:+ pretty size)
    else if (size <? 8 + headerLen)%N then Undefined
    else
      match Ipc.parse (String.string_of_list_ascii (take (N.to_nat headerLen) (drop 8 file))) with
      | inl _ => fail "header is not valid JSON"
      | inr (JObject fields) =>
          obind! out := readEntries dataOffset (size - dataOffset) fields (mkParsed [] ∅ dataOffset) in
          match duplicate (p_tensors out) with
          | Some name => fail ("duplicate tensor name '" +:+ name +:+ "'")
          | None => Returns out
          end
      | inr _ => fail "header JSON is not an object"
      end.
End SafetensorsHeader.
Import SafetensorsHeader.

(** ** The shard index *)

Module SafetensorsIndex.

(** The map in the order of its keys.
    [src/src/core/safetensors/SafetensorsIndex.hpp:16-28 SafetensorsIndex] *)
Record SafetensorsIndex := mkIndex {
  weightMap : list (string * string);
  totalSize : N;
}.

(** [src/src/core/safetensors/SafetensorsIndex.cpp:15-17 fail] *)
Definition fail {A} (msg : string) : outcome A := Throws (RuntimeError ("safetensors index: " +:+ msg)).

(** A [std::set] of strings: ascending, without repeats. *)
Fixpoint insertName (s : string) (l : list string) : list string :=
  match l with
  | [] => [s]
  | s' :: l' =>
      match String.compare s s' with
      | Lt => s :: l
      | Eq => l
      | Gt => s' :: insertName s l'
      end
  end.

(** [src/src/core/safetensors/SafetensorsIndex.cpp:21-27 SafetensorsIndex::shardFiles] *)
Definition shardFiles (i : SafetensorsIndex) : list string :=
  fold_left (fun uniq ns => insertName (snd ns) uniq) (weightMap i) [].

(** An object's keys are distinct, so every one is new to the map.
    [src/src/core/safetensors/SafetensorsIndex.cpp:48-53 parseSafetensorsIndex] *)
Fixpoint readWeightMap (l : list (string * json)) (m : list (string * string)) : outcome (list (string * string)) :=
  match l with
  | [] => Returns m
  | (name, shard) :: l =>
      match shard with
      | JString s => readWeightMap l (m ++ [(name, s)])
      | _ => fail ("weight_map['" +:+ name +:+ "'] is not a string")
      end
  end.

(** [src/src/core/safetensors/SafetensorsIndex.cpp:58-67 parseSafetensorsIndex] *)
Definition readTotalSize (j : json) : outcome N :=
  match field j "metadata" with
  | Some (JObject meta) =>
      match field (JObject meta) "total_size" with
      | Some (JUnsigned n) => Returns n
      | Some _ => fail "metadata.total_size is not an unsigned integer"
      | None => Returns 0%N
      end
  | _ => Returns 0%N
  end.

(** [src/src/core/safetensors/SafetensorsIndex.cpp:29-70 parseSafetensorsIndex] *)
Definition parseSafetensorsIndex `{Json} (jsonText : string) : outcome SafetensorsIndex :=
  match Ipc.parse jsonText with
  | inl _ => fail "not valid JSON"
  | inr j =>
      if negb (isObject j) then fail "top level is not an object"
      else
        match field j "weight_map" with
        | None => fail "missing 'weight_map'"
        | Some (JObject wm) =>
            obind! m := readWeightMap wm [] in
            match m with
            | [] => fail "'weight_map' is empty"
            | _ => obind! total := readTotalSize j in Returns (mkIndex m total)
            end
        | Some _ => fail "'weight_map' is not an object"
        end
  end.
End SafetensorsIndex.
Import SafetensorsIndex.

(** ** One file *)

Module SafetensorsReader.

(** The mapping of a file, or bytes of somebody else.
    [src/src/core/safetensors/SafetensorsReader.hpp:123-129 SafetensorsReader] *)
Record SafetensorsReader := mkReader {
  _file : option (string * list ascii);
  _external : list ascii;
  _externalName : string;
  _tensors : list SafetensorsTensor;
  _index : gmap string nat;
  _metadata : gmap string string;
  _dataOffset : N;
}.

Definition newReader : SafetensorsReader := mkReader None [] EmptyString [] ∅ ∅ 0.

(** [src/src/core/safetensors/SafetensorsReader.hpp:61-63 SafetensorsReader::isOpen] *)
Definition isOpen (r : SafetensorsReader) : bool :=
  match _file r with Some _ => true | None => match _external r with [] => false | _ => true end end.

(** [src/src/core/safetensors/SafetensorsReader.hpp:64-66 SafetensorsReader::path] *)
Definition path (r : SafetensorsReader) : string :=
  match _external r with [] => match _file r with Some f => fst f | None => EmptyString end | _ => _externalName r end.

(** [src/src/core/safetensors/SafetensorsReader.hpp:119-121 SafetensorsReader::allBytes] *)
Definition allBytes (r : SafetensorsReader) : list ascii :=
  match _external r with [] => match _file r with Some f => snd f | None => [] end | b => b end.

(** [src/src/core/safetensors/SafetensorsReader.cpp:49-57 SafetensorsReader::close] *)
Definition close (r : SafetensorsReader) : SafetensorsReader := newReader.

(** The first tensor of every name. *)
Definition indexOf (l : list SafetensorsTensor) : gmap string nat :=
  fold_left (fun m it => emplace (t_name (snd it)) (fst it) m) (zip (seq 0 (length l)) l) ∅.

(** [mapped] is what mapping the file answers: its bytes, never none, or an exception.
    [src/src/core/safetensors/SafetensorsReader.cpp:10-26 SafetensorsReader::open] *)
Definition open `{Json} (p : string) (mapped : exn + list ascii) (r : SafetensorsReader) : outcome unit * SafetensorsReader :=
  match mapped with
  | inl e => (Throws e, close r)
  | inr bytes =>
      let r := mkReader (Some (p, bytes)) [] EmptyString [] ∅ ∅ 0 in
      match parseSafetensorsHeader bytes with
      | Returns parsed => (Returns tt, mkReader (Some (p, bytes)) [] EmptyString (p_tensors parsed) (indexOf (p_tensors parsed)) (p_metadata parsed) (p_dataOffset parsed))
      | Throws e => (Throws e, r)
      | Undefined => (Undefined, r)
      end
  end.

(** [src/src/core/safetensors/SafetensorsReader.cpp:28-49 SafetensorsReader::openBytes] *)
Definition openBytes `{Json} (bytes : list ascii) (sourceName : string) (r : SafetensorsReader) : outcome unit * SafetensorsReader :=
  match parseSafetensorsHeader bytes with
  | Returns parsed => (Returns tt, mkReader None bytes sourceName (p_tensors parsed) (indexOf (p_tensors parsed)) (p_metadata parsed) (p_dataOffset parsed))
  | Throws e => (Throws e, close r)
  | Undefined => (Undefined, close r)
  end.

(** The place of the tensor; [None] inside is an index past the vector, which a stale index
    can hold between a mutation and [rebuildIndex].
    [src/src/core/safetensors/SafetensorsReader.cpp:59-67 SafetensorsReader::find] *)
Definition find (name : string) (r : SafetensorsReader) : option nat := _index r !! name.

Definition tensorAt (r : SafetensorsReader) (i : nat) : option SafetensorsTensor := _tensors r !! i.

(** [src/src/core/safetensors/SafetensorsReader.cpp:69-76 SafetensorsReader::tensorBytes] *)
Definition tensorBytes (t : SafetensorsTensor) (r : SafetensorsReader) : list ascii :=
  let whole := allBytes r in
  if (N.of_nat (length whole) <? t_dataEnd t)%N || (t_dataEnd t <? t_dataBegin t)%N then []
  else take (N.to_nat (t_nbytes t)) (drop (N.to_nat (t_dataBegin t)) whole).

Definition setTensors (ts : list SafetensorsTensor) (r : SafetensorsReader) : SafetensorsReader :=
  mkReader (_file r) (_external r) (_externalName r) ts (_index r) (_metadata r) (_dataOffset r).

Definition setIndex (ix : gmap string nat) (r : SafetensorsReader) : SafetensorsReader :=
  mkReader (_file r) (_external r) (_externalName r) (_tensors r) ix (_metadata r) (_dataOffset r).

(** [src/src/core/safetensors/SafetensorsReader.cpp:137-142 SafetensorsReader::rebuildIndex] *)
Definition rebuildIndex (r : SafetensorsReader) : SafetensorsReader := setIndex (indexOf (_tensors r)) r.

Definition rename (fn : string -> string) (t : SafetensorsTensor) : SafetensorsTensor :=
  mkTensor (fn (t_name t)) (t_dtype t) (t_shape t) (t_nelements t) (t_nbytes t) (t_dataBegin t) (t_dataEnd t).

(** [src/src/core/safetensors/SafetensorsReader.cpp:78-85 SafetensorsReader::renameTensors] *)
Definition renameTensors (fn : string -> string) (r : SafetensorsReader) : SafetensorsReader :=
  rebuildIndex (setTensors (map (rename fn) (_tensors r)) r).

(** [src/src/core/safetensors/SafetensorsReader.cpp:87-113 SafetensorsReader::addDerivedRowSlice] *)
Definition addDerivedRowSlice (src newName : string) (rowBegin rowCount : N) (r : SafetensorsReader) : outcome bool * SafetensorsReader :=
  match find src r with
  | None => (Returns false, r)
  | Some i =>
      match tensorAt r i with
      | None => (Undefined, r)
      | Some s =>
          match t_shape s with
          | [] => (Returns false, r)
          | rows :: dims =>
              if (rows =? 0)%N then (Returns false, r)
              else if (rows <? u64 (rowBegin + rowCount))%N || (rowCount =? 0)%N || negb (t_nbytes s mod rows =? 0)%N
                || negb (t_nelements s mod rows =? 0)%N then (Returns false, r)
              else
                let bytesPerRow := (t_nbytes s / rows)%N in
                let elemsPerRow := (t_nelements s / rows)%N in
                let nbytes := u64 (bytesPerRow * rowCount) in
                let dataBegin := u64 (t_dataBegin s + u64 (bytesPerRow * rowBegin)) in
                let d := mkTensor newName (t_dtype s) (rowCount :: dims) (u64 (elemsPerRow * rowCount)) nbytes dataBegin (u64 (dataBegin + nbytes)) in
                (Returns true, setTensors (_tensors r ++ [d]) r)
          end
      end
  end.

(** [src/src/core/safetensors/SafetensorsReader.cpp:115-125 SafetensorsReader::duplicateTensorAs] *)
Definition duplicateTensorAs (src newName : string) (r : SafetensorsReader) : outcome bool * SafetensorsReader :=
  match find src r with
  | None => (Returns false, r)
  | Some i =>
      match tensorAt r i with
      | None => (Undefined, r)
      | Some s => (Returns true, setTensors (_tensors r ++ [rename (fun _ => newName) s]) r)
      end
  end.

(** [std::vector::erase] of the first tensor of that name. *)
Fixpoint eraseFirst (name : string) (l : list SafetensorsTensor) : option (list SafetensorsTensor) :=
  match l with
  | [] => None
  | t :: l => if String.eqb (t_name t) name then Some l else (fun l => t :: l) <$> eraseFirst name l
  end.

(** [src/src/core/safetensors/SafetensorsReader.cpp:127-135 SafetensorsReader::removeTensor] *)
Definition removeTensor (name : string) (r : SafetensorsReader) : bool * SafetensorsReader :=
  match eraseFirst name (_tensors r) with Some l => (true, setTensors l r) | None => (false, r) end.
End SafetensorsReader.

(** ** The checkpoint *)

Module SafetensorsModel.
Import SafetensorsReader.

(** [_flat] points at tensors of the shards: shard and place.
    [src/src/core/safetensors/SafetensorsModel.hpp:123-127 SafetensorsModel] *)
Record SafetensorsModel := mkModel {
  _shards : list SafetensorsReader;
  _tensorToShard : gmap string nat;
  _flat : list (nat * nat);
  _totalSize : N;
  _byteOverrides : gmap string (list ascii);
}.

Definition newModel : SafetensorsModel := mkModel [] ∅ [] 0 ∅.

(** [src/src/core/safetensors/SafetensorsModel.cpp:19-21 fail] *)
Definition fail {A} (msg : string) : outcome A := Throws (RuntimeError ("safetensors model: " +:+ msg)).

(** [src/src/core/safetensors/SafetensorsModel.cpp:132-137 SafetensorsModel::close] *)
Definition close (m : SafetensorsModel) : SafetensorsModel := mkModel [] ∅ [] 0 (_byteOverrides m).

(** Shard, place and name of every tensor. *)
Definition entries (shards : list SafetensorsReader) : list (nat * nat * string) :=
  concat (imap (fun s r => imap (fun i t => (s, i, t_name t)) (_tensors r)) shards).

(** Up to the first name that is there already.
    [src/src/core/safetensors/SafetensorsModel.cpp:117-130 SafetensorsModel::reindex] *)
Fixpoint indexEntries (l : list (nat * nat * string)) (ix : gmap string nat) (flat : list (nat * nat))
    : outcome unit * (gmap string nat * list (nat * nat)) :=
  match l with
  | [] => (Returns tt, (ix, flat))
  | (s, i, name) :: l =>
      match ix !! name with
      | Some _ => (fail ("tensor '" +:+ name +:+ "' appears in more than one shard"), (ix, flat))
      | None => indexEntries l (<[name := s]> ix) (flat ++ [(s, i)])
      end
  end.

(** [src/src/core/safetensors/SafetensorsModel.cpp:117-130 SafetensorsModel::reindex] *)
Definition reindex (m : SafetensorsModel) : outcome unit * SafetensorsModel :=
  let '(o, (ix, flat)) := indexEntries (entries (_shards m)) ∅ [] in
  (o, mkModel (_shards m) ix flat (_totalSize m) (_byteOverrides m)).

Definition setShards (l : list SafetensorsReader) (m : SafetensorsModel) : SafetensorsModel :=
  mkModel l (_tensorToShard m) (_flat m) (_totalSize m) (_byteOverrides m).

Definition setTotal (n : N) (m : SafetensorsModel) : SafetensorsModel :=
  mkModel (_shards m) (_tensorToShard m) (_flat m) n (_byteOverrides m).

Definition after {A} (r : outcome A * SafetensorsModel) (k : A -> SafetensorsModel -> outcome unit * SafetensorsModel) : outcome unit * SafetensorsModel :=
  match r with (Returns a, m) => k a m | (Throws e, m) => (Throws e, m) | (Undefined, m) => (Undefined, m) end.

Section Open.
Context `{Json}.

(** What mapping a path answers, and whether it is a directory or a file. *)
Variable mapped : string -> exn + list ascii.
Variable isDirectory isRegularFile : string -> bool.
(** [fs::path] joined to a name. *)
Variable join : string -> string -> string.

(** A shard that throws stays behind, closed or half open.
    [src/src/core/safetensors/SafetensorsModel.cpp:66-70 SafetensorsModel::openFromShards] *)
Fixpoint openImages (shards : list (string * list ascii)) (m : SafetensorsModel) : outcome unit * SafetensorsModel :=
  match shards with
  | [] => (Returns tt, m)
  | (name, bytes) :: shards =>
      let '(o, r) := openBytes bytes name newReader in
      after (o, setShards (_shards m ++ [r]) m) (fun _ m => openImages shards m)
  end.

(** [src/src/core/safetensors/SafetensorsModel.cpp:58-74 SafetensorsModel::openFromShards] *)
Definition openFromShards (shards : list (string * list ascii)) (declaredTotalSize : N) (m : SafetensorsModel) : outcome unit * SafetensorsModel :=
  let m := close m in
  match shards with
  | [] => (fail "openFromShards: no shards provided", m)
  | _ => after (openImages shards m) (fun _ m => reindex (setTotal declaredTotalSize m))
  end.

(** [src/src/core/safetensors/SafetensorsModel.cpp:76-81 SafetensorsModel::openSingle] *)
Definition openSingle (file : string) (m : SafetensorsModel) : outcome unit * SafetensorsModel :=
  let '(o, r) := open file (mapped file) newReader in
  after (o, setShards (_shards m ++ [r]) m) (fun _ m => (Returns tt, setTotal 0 m)).

(** [src/src/core/safetensors/SafetensorsModel.cpp:92-98 SafetensorsModel::openSharded] *)
Fixpoint openFiles (dir : string) (files : list string) (m : SafetensorsModel) : outcome unit * SafetensorsModel :=
  match files with
  | [] => (Returns tt, m)
  | f :: files =>
      let '(o, r) := open (join dir f) (mapped (join dir f)) newReader in
      after (o, setShards (_shards m ++ [r]) m) (fun _ m => openFiles dir files m)
  end.

(** The slot of a shard file, the position of its name.
    [src/src/core/safetensors/SafetensorsModel.cpp:100-112 SafetensorsModel::openSharded] *)
Fixpoint checkMap (files : list string) (l : list (string * string)) (shards : list SafetensorsReader) : outcome unit :=
  match l with
  | [] => Returns tt
  | (name, shardName) :: l =>
      match list_find (fun f => f = shardName) files with
      | None => fail ("weight-map references unknown shard '" +:+ shardName +:+ "'")
      | Some (slot, _) =>
          match shards !! slot with
          | None => Undefined
          | Some r =>
              match find name r with
              | None => fail ("tensor '" +:+ name +:+ "' promised in shard '" +:+ shardName +:+ "' but not found there")
              | Some _ => checkMap files l shards
              end
          end
      end
  end.

(** [src/src/core/safetensors/SafetensorsModel.cpp:83-115 SafetensorsModel::openSharded] *)
Definition openSharded (dir indexFile : string) (m : SafetensorsModel) : outcome unit * SafetensorsModel :=
  match mapped indexFile with
  | inl e => (Throws e, m)
  | inr bytes =>
      after (parseSafetensorsIndex (String.string_of_list_ascii bytes), m) (fun index m =>
        let files := shardFiles index in
        after (openFiles dir files m) (fun _ m =>
          after (checkMap files (weightMap index) (_shards m), m) (fun _ m => (Returns tt, setTotal (totalSize index) m))))
  end.

(** [src/src/core/safetensors/SafetensorsModel.cpp:32-56 SafetensorsModel::open] *)
Definition openPath (p : string) (m : SafetensorsModel) : outcome unit * SafetensorsModel :=
  let m := close m in
  let indexPath := join p "model.safetensors.index.json" in
  let singlePath := join p "model.safetensors" in
  after
    (if isDirectory p then
       if isRegularFile indexPath then openSharded p indexPath m
       else if isRegularFile singlePath then openSingle singlePath m
       else (fail ("directory '" +:+ p +:+ "' has neither model.safetensors.index.json nor model.safetensors"), m)
     else if isRegularFile p then openSingle p m
     else (fail ("path '" +:+ p +:+ "' is not a file or directory"), m))
    (fun _ m => reindex m).
End Open.

(** Shard and place of a tensor.
    [src/src/core/safetensors/SafetensorsModel.cpp:139-145 SafetensorsModel::find] *)
Definition findTensor (name : string) (m : SafetensorsModel) : option (nat * nat) :=
  s ← _tensorToShard m !! name; r ← _shards m !! s; i ← find name r; Some (s, i).

(** [None] is a stale index.
    [src/src/core/safetensors/SafetensorsModel.cpp:147-163 SafetensorsModel::tensorBytes] *)
Definition modelBytes (name : string) (m : SafetensorsModel) : option (list ascii) :=
  match _byteOverrides m !! name with
  | Some b => Some b
  | None =>
      match _tensorToShard m !! name with
      | None => Some []
      | Some s =>
          r ← _shards m !! s;
          match find name r with
          | None => Some []
          | Some i => t ← tensorAt r i; Some (tensorBytes t r)
          end
      end
  end.

(** [src/src/core/safetensors/SafetensorsModel.cpp:165-171 SafetensorsModel::normalizeNames] *)
Definition normalizeNames (fn : string -> string) (m : SafetensorsModel) : outcome unit * SafetensorsModel :=
  reindex (setShards (map (renameTensors fn) (_shards m)) m).

(** [src/src/core/safetensors/SafetensorsModel.cpp:173-176 SafetensorsModel::overrideTensorBytes] *)
Definition overrideTensorBytes (name : string) (bytes : list ascii) (m : SafetensorsModel) : SafetensorsModel :=
  mkModel (_shards m) (_tensorToShard m) (_flat m) (_totalSize m) (<[name := bytes]> (_byteOverrides m)).

Definition onShard {A} (none : A) (src : string) (f : SafetensorsReader -> outcome A * SafetensorsReader) (m : SafetensorsModel) : outcome A * SafetensorsModel :=
  match _tensorToShard m !! src with
  | None => (Returns none, m)
  | Some s =>
      match _shards m !! s with
      | None => (Undefined, m)
      | Some r => let '(o, r) := f r in (o, setShards (<[s := r]> (_shards m)) m)
      end
  end.

(** [src/src/core/safetensors/SafetensorsModel.cpp:178-187 SafetensorsModel::deriveRowSlice] *)
Definition deriveRowSlice (src newName : string) (rowBegin rowCount : N) : SafetensorsModel -> outcome bool * SafetensorsModel :=
  onShard false src (addDerivedRowSlice src newName rowBegin rowCount).

(** [src/src/core/safetensors/SafetensorsModel.cpp:189-196 SafetensorsModel::duplicateTensorAs] *)
Definition duplicateModelTensor (src newName : string) : SafetensorsModel -> outcome bool * SafetensorsModel :=
  onShard false src (duplicateTensorAs src newName).

(** [src/src/core/safetensors/SafetensorsModel.cpp:198-204 SafetensorsModel::removeTensor] *)
Definition removeModelTensor (name : string) : SafetensorsModel -> outcome bool * SafetensorsModel :=
  onShard false name (fun r => let '(b, r) := removeTensor name r in (Returns b, r)).

(** [src/src/core/safetensors/SafetensorsModel.cpp:206-211 SafetensorsModel::rebuildIndexes] *)
Definition rebuildIndexes (m : SafetensorsModel) : outcome unit * SafetensorsModel :=
  reindex (setShards (map rebuildIndex (_shards m)) m).
End SafetensorsModel.
