(* ===== verification/SafetensorsProofs.v ===== *)
(** * What is read of a safetensors checkpoint

    Reading a header stays within the file and yields tensors inside it; a checkpoint
    written after the format, in as many shards as one likes, is read back tensor for
    tensor; and a derived tensor views exactly its rows. *)

From Stdlib Require Import Ascii.
From S2P Require Import Prelude Gguf GgufFormat Ipc Attach Safetensors.
Import GgufReader GgufFormat SafetensorsDtype SafetensorsHeader.

(** ** Any file *)

Module SafetensorsHeaderProofs.

(** A tensor inside a file of [size] bytes, behind [off]. *)
Definition inside (size off : N) (t : SafetensorsTensor) : Prop :=
  (off <= t_dataBegin t)%N /\ (t_dataBegin t + t_nbytes t = t_dataEnd t)%N /\ (t_dataEnd t <= size)%N /\
  t_nbytes t = u64 (t_nelements t * dtypeWidth (t_dtype t)) /\ t_dtype t <> Unknown.

Lemma obind_returns {A B} (m : outcome A) (f : A -> outcome B) b : obind m f = Returns b -> exists a, m = Returns a /\ f a = Returns b.
Proof. destruct m; try done. by eexists. Qed.

Lemma obind_defined {A B} (m : outcome A) (f : A -> outcome B) : m <> Undefined -> (forall a, f a <> Undefined) -> obind m f <> Undefined.
Proof. destruct m; cbn; [intros _ H; apply H|done|done]. Qed.

Lemma readMetadata_defined l : forall meta, readMetadata l meta <> Undefined.
Proof. induction l as [|[k v] l IH]; intros meta; cbn [readMetadata]; [done|]. by destruct v. Qed.

Lemma readShape_defined l : forall sh n, readShape l sh n <> Undefined.
Proof.
  induction l as [|d l IH]; intros sh n; cbn [readShape]; [done|]. apply obind_defined; [by destruct d|intros a; apply IH].
Qed.

Lemma asUint_defined v what : asUint v what <> Undefined.
Proof. by destruct v. Qed.

Lemma readTensor_defined off size name spec : readTensor off size name spec <> Undefined.
Proof.
  unfold readTensor. cbn zeta. destruct (negb (isObject spec)); [done|].
  destruct (field spec "dtype") as [dt|], (field spec "shape") as [sh|], (field spec "data_offsets") as [o|]; try done.
  destruct dt; try done. destruct (bool_decide _); [done|]. destruct sh; try done.
  apply obind_defined; [apply readShape_defined|]. intros [shape n]. destruct o as [| | | | |[|b [|e []]]|]; try done.
  apply obind_defined; [apply asUint_defined|]. intros begin. apply obind_defined; [apply asUint_defined|]. intros last.
  destruct (last <? begin)%N; [done|]. destruct (size <? last)%N; [done|]. by destruct (negb _).
Qed.

Lemma readTensor_inside off region name spec t : (off + region < 2 ^ 64)%N ->
  readTensor off region name spec = Returns t -> inside (off + region) off t /\ t_name t = name.
Proof.
  intros Hsz. unfold readTensor. cbn zeta. destruct (negb (isObject spec)); [done|].
  destruct (field spec "dtype") as [dt|], (field spec "shape") as [sh|], (field spec "data_offsets") as [o|]; try done.
  destruct dt; try done. case_bool_decide as Hd; [done|]. destruct sh; try done.
  intros (sn & _ & H)%obind_returns. destruct o as [| | | | |[|b [|e []]]|]; try done.
  apply obind_returns in H as (begin & _ & H). apply obind_returns in H as (last & _ & H).
  destruct (N.ltb_spec last begin); [done|]. destruct (N.ltb_spec region last); [done|].
  destruct (N.eqb_spec (last - begin) (u64 (snd sn * dtypeWidth (dtypeFromString s)))) as [He|]; [|done]. injection H as <-.
  unfold inside. cbn. rewrite !u64_small by lia. repeat split; try lia; done.
Qed.

Lemma readEntries_defined off region l : forall out, readEntries off region l out <> Undefined.
Proof.
  induction l as [|[name spec] l IH]; intros out; cbn [readEntries]; [done|]. destruct (String.eqb name "__metadata__").
  - destruct spec; try done. apply obind_defined; [apply readMetadata_defined|intros a; apply IH].
  - apply obind_defined; [apply readTensor_defined|intros a; apply IH].
Qed.

Lemma readEntries_inside off region l : (off + region < 2 ^ 64)%N -> forall out p, readEntries off region l out = Returns p ->
  Forall (inside (off + region) off) (p_tensors out) -> Forall (inside (off + region) off) (p_tensors p) /\ p_dataOffset p = p_dataOffset out.
Proof.
  intros Hsz. induction l as [|[name spec] l IH]; intros out p; cbn [readEntries]; [by intros [= <-]|].
  destruct (String.eqb name "__metadata__").
  - destruct spec; try done. intros (meta & _ & H)%obind_returns Hf. by apply IH in H.
  - intros (t & Ht & H)%obind_returns Hf. apply readTensor_inside in Ht as [Ht _]; [|done].
    apply IH in H; [done|]. cbn. apply Forall_app. by split; [|constructor].
Qed.

Definition headerLength (file : list ascii) : N := le (take 8 file).

(** Whatever the file and whatever the JSON library reads in it, parsing the header reads
    nothing outside the file unless its length field is within eight of 2^64, where the sum
    wraps; and every tensor it answers lies behind the header and inside the file, with
    the bytes its type and element count ask for. *)
Theorem header_safe `{Json} file : (N.of_nat (length file) < 2 ^ 64)%N ->
  (parseSafetensorsHeader file = Undefined -> (2 ^ 64 <= 8 + headerLength file)%N) /\
  forall p, parseSafetensorsHeader file = Returns p ->
    p_dataOffset p = (8 + headerLength file)%N /\
    Forall (inside (N.of_nat (length file)) (p_dataOffset p)) (p_tensors p).
Proof.
  intros Hsz. unfold parseSafetensorsHeader, headerLength. cbn zeta. set (size := N.of_nat (length file)) in *. set (hl := le (take 8 file)).
  destruct (N.ltb_spec size 8); [done|]. destruct (N.eqb_spec hl 0); [done|].
  destruct (N.ltb_spec size (u64 (8 + hl))) as [|Hoff]; [done|]. destruct (N.ltb_spec size (8 + hl)) as [Hw|Hin].
  { split; [|done]. intros _. destruct (N.le_gt_cases (2 ^ 64) (8 + hl)); [done|]. rewrite u64_small in Hoff by done. lia. }
  rewrite u64_small by lia. destruct (Ipc.parse _) as [|[]]; try done. split.
  - intros Hu. exfalso. revert Hu. apply obind_defined; [apply readEntries_defined|]. intros a. by destruct (duplicate (p_tensors a)).
  - intros p (out & Ho & Hp)%obind_returns. apply readEntries_inside in Ho as [Hf Hd]; [|lia|constructor].
    destruct (duplicate (p_tensors out)); [done|]. injection Hp as <-. cbn in Hd. rewrite Hd. split; [done|].
    by replace (8 + hl + (size - (8 + hl)))%N with size in Hf by lia.
Qed.
End SafetensorsHeaderProofs.

(** ** A written checkpoint *)

Module SafetensorsFormat.
Import SafetensorsReader SafetensorsModel.

Record Entry := mkEntry {
  e_name : string;
  e_dtype : SafetensorsDtype;
  e_shape : list N;
  e_data : list ascii;
}.

Definition product (l : list N) : N := fold_left N.mul l 1%N.

Definition okEntry (e : Entry) : Prop :=
  e_dtype e <> Unknown /\ e_name e <> "__metadata__"%string /\
  (product (e_shape e) * dtypeWidth (e_dtype e))%N = N.of_nat (length (e_data e)).

(** The header of tensors whose data follow one another from [off] on. *)
Definition spec (off : N) (e : Entry) : json :=
  JObject [("data_offsets", JArray [JUnsigned off; JUnsigned (off + N.of_nat (length (e_data e)))]);
    ("dtype", JString (dtypeName (e_dtype e))); ("shape", JArray (map JUnsigned (e_shape e)))]%string.

Fixpoint fields (off : N) (es : list Entry) : list (string * json) :=
  match es with
  | [] => []
  | e :: es => (e_name e, spec off e) :: fields (off + N.of_nat (length (e_data e))) es
  end.

Definition headerDoc (es : list Entry) : json := JObject (fields 0 es).
Definition payload (es : list Entry) : list ascii := concat (map e_data es).

(** The file with header text [txt]. *)
Definition fileOf (txt : string) (es : list Entry) : list ascii :=
  le_bytes 8 (N.of_nat (String.length txt)) ++ String.list_ascii_of_string txt ++ payload es.

Definition tensorOf (base off : N) (e : Entry) : SafetensorsTensor :=
  mkTensor (e_name e) (e_dtype e) (e_shape e) (product (e_shape e)) (N.of_nat (length (e_data e)))
    (base + off) (base + off + N.of_nat (length (e_data e))).

Fixpoint tensorsOf (base off : N) (es : list Entry) : list SafetensorsTensor :=
  match es with
  | [] => []
  | e :: es => tensorOf base off e :: tensorsOf base (off + N.of_nat (length (e_data e))) es
  end.

Lemma dtype_roundtrip d : d <> Unknown -> dtypeFromString (dtypeName d) = d.
Proof. by destruct d. Qed.

Lemma fold_mul l : forall a, fold_left N.mul l a = (a * product l)%N.
Proof.
  unfold product. induction l as [|d l IH]; intros a; cbn [fold_left]; [lia|]. rewrite IH, (IH (1 * d)%N). lia.
Qed.

Lemma readShape_spec dims : forall sh n, (n < 2 ^ 64)%N -> readShape (map JUnsigned dims) sh n = Returns (sh ++ dims, u64 (n * product dims)).
Proof.
  induction dims as [|d dims IH]; intros sh n Hn; cbn [map readShape].
  - rewrite app_nil_r. unfold product. cbn [fold_left]. by rewrite N.mul_1_r, u64_small.
  - cbn [asUint obind]. rewrite IH by apply u64_range. rewrite <- app_assoc. cbn [app]. do 2 f_equal.
    unfold product at 2. cbn [fold_left]. rewrite fold_mul. unfold u64, wrapU. rewrite N.Div0.mul_mod_idemp_l. f_equal. lia.
Qed.

Lemma readTensor_spec base region off e : okEntry e -> (base + region < 2 ^ 64)%N -> (off + N.of_nat (length (e_data e)) <= region)%N ->
  readTensor base region (e_name e) (spec off e) = Returns (tensorOf base off e).
Proof.
  intros (Hd & _ & Hp) Hsz Hoff. unfold readTensor, spec. cbn zeta.
  change (field _ "dtype") with (Some (JString (dtypeName (e_dtype e)))).
  change (field _ "shape") with (Some (JArray (map JUnsigned (e_shape e)))).
  change (field _ "data_offsets") with (Some (JArray [JUnsigned off; JUnsigned (off + N.of_nat (length (e_data e)))])).
  cbn [isObject negb]. rewrite dtype_roundtrip by done. rewrite bool_decide_eq_false_2 by done.
  rewrite readShape_spec by lia. cbn [obind fst snd asUint app]. rewrite N.mul_1_l.
  assert (Hw : (1 <= dtypeWidth (e_dtype e))%N) by (destruct (e_dtype e); cbn; (done || lia)).
  assert (Hn : (product (e_shape e) < 2 ^ 64)%N) by nia.
  rewrite (proj2 (N.ltb_ge _ _)) by lia. rewrite (proj2 (N.ltb_ge _ _)) by lia.
  rewrite (u64_small (product _)), Hp, u64_small by lia.
  replace (off + N.of_nat (length (e_data e)) - off)%N with (N.of_nat (length (e_data e))) by lia.
  rewrite N.eqb_refl. cbn [negb]. unfold tensorOf. rewrite !u64_small by lia. do 2 f_equal. lia.
Qed.

Lemma readEntries_spec base region es : Forall okEntry es -> (base + region < 2 ^ 64)%N -> forall off out,
  (off + N.of_nat (length (payload es)) <= region)%N ->
  readEntries base region (fields off es) out =
    Returns (mkParsed (p_tensors out ++ tensorsOf base off es) (p_metadata out) (p_dataOffset out)).
Proof.
  intros Hok Hsz. induction Hok as [|e es He _ IH]; intros off out Hoff; cbn [fields readEntries tensorsOf].
  - rewrite app_nil_r. by destruct out.
  - unfold payload in Hoff. cbn [map concat] in Hoff. rewrite length_app in Hoff. fold (payload es) in Hoff.
    pose proof He as (_ & Hnm & _). rewrite (proj2 (String.eqb_neq _ _)) by done.
    rewrite readTensor_spec by (done || lia). cbn [obind]. rewrite IH by lia. cbn [p_tensors p_metadata p_dataOffset]. by rewrite <- app_assoc.
Qed.

Lemma tensorsOf_names base es : forall off, map t_name (tensorsOf base off es) = map e_name es.
Proof. induction es as [|e es IH]; intros off; cbn [tensorsOf map]; [done|]. by rewrite IH. Qed.

Lemma duplicate_None l : NoDup (map t_name l) -> duplicate l = None.
Proof.
  induction l as [|a [|b l] IH]; cbn [map duplicate]; [done..|]. intros H. apply NoDup_cons in H as [Hn H].
  rewrite (proj2 (String.eqb_neq _ _)); [by apply IH|]. intros E. apply Hn. rewrite E. left.
Qed.

Lemma length_list_ascii s : length (String.list_ascii_of_string s) = String.length s.
Proof. induction s as [|c s IH]; cbn; [done|by rewrite IH]. Qed.

Definition dataStart (txt : string) : N := 8 + N.of_nat (String.length txt).

(** The header of a written file, whatever text the library reads as it. *)
Lemma parse_file `{Json} txt es : Ipc.parse txt = inr (headerDoc es) -> Forall okEntry es -> NoDup (map e_name es) ->
  txt <> EmptyString -> (N.of_nat (length (fileOf txt es)) < 2 ^ 64)%N ->
  parseSafetensorsHeader (fileOf txt es) = Returns (mkParsed (tensorsOf (dataStart txt) 0 es) ∅ (dataStart txt)).
Proof.
  intros Hparse Hok Hnd Hne Hsz. assert (Hlen : length (fileOf txt es) = 8 + (String.length txt + length (payload es))).
  { unfold fileOf. rewrite !length_app, length_le_bytes. f_equal. f_equal. apply length_list_ascii. }
  unfold parseSafetensorsHeader. cbn zeta. rewrite (proj2 (N.ltb_ge _ _)) by lia.
  assert (Htake : take 8 (fileOf txt es) = le_bytes 8 (N.of_nat (String.length txt))) by (unfold fileOf; by rewrite take_app_length' by (symmetry; apply length_le_bytes)).
  rewrite Htake, le_le_bytes by (cbn; lia). assert (0 < String.length txt) by (destruct txt; [done|cbn; lia]).
  rewrite (proj2 (N.eqb_neq _ _)) by lia. rewrite u64_small by lia. rewrite (proj2 (N.ltb_ge _ _)) by lia.
  assert (Htxt : String.string_of_list_ascii (take (N.to_nat (N.of_nat (String.length txt))) (drop 8 (fileOf txt es))) = txt).
  { unfold fileOf. rewrite drop_app_length' by (symmetry; apply length_le_bytes). rewrite Nat2N.id, take_app_length' by (symmetry; apply length_list_ascii).
    apply String.string_of_list_ascii_of_string. }
  rewrite Htxt, Hparse. unfold headerDoc. rewrite readEntries_spec by (done || lia). cbn [obind p_tensors app p_metadata p_dataOffset].
  by rewrite duplicate_None by (by rewrite tensorsOf_names).
Qed.
(** ** Where a name is found *)

Lemma indexOf_from l : forall k m name i, fold_left (fun m it => emplace (t_name (snd it)) (fst it) m) (zip (seq k (length l)) l) m !! name = Some i <->
  m !! name = Some i \/ m !! name = None /\ exists j t, i = k + j /\ l !! j = Some t /\ t_name t = name /\ forall j' t', j' < j -> l !! j' = Some t' -> t_name t' <> name.
Proof.
  induction l as [|t l IH]; intros k m name i; cbn [length seq zip fold_left fst snd].
  - split; [by left|]. intros [H|(_ & j & t & _ & H & _)]; [done|by rewrite lookup_nil in H].
  - cbn [zip_with fold_left fst snd]. rewrite IH. unfold emplace. destruct (decide (t_name t = name)) as [<-|Hne].
    + destruct (m !! t_name t) as [i0|] eqn:E.
      * rewrite E. split; [intros [H|[H _]]; [by left|done]|intros [H|[H _]]; [by left|done]].
      * rewrite lookup_insert_eq. split.
        -- intros [[= <-]|[? _]]; [|done]. right. split; [done|]. exists 0, t. split; [lia|]. split; [done|]. split; [done|]. intros j' t' Hj'. lia.
        -- intros [H|(_ & j & t' & -> & Hj & Hn & Hmin)]; [done|]. left. destruct j as [|j]; [by rewrite Nat.add_0_r|].
           by destruct (Hmin 0 t ltac:(lia) eq_refl).
    + assert (Hm : (match m !! t_name t with Some _ => m | None => <[t_name t:=k]> m end) !! name = m !! name).
      { destruct (m !! t_name t); [done|]. by rewrite lookup_insert_ne. }
      rewrite Hm. split; (intros [H|(H & j & t' & Hi & Hj & Hn & Hmin)]; [by left|right; split; [done|]]).
      * exists (S j), t'. split; [lia|]. split; [done|]. split; [done|]. intros [|j'] t'' Hlt; [by intros [= <-]|]. cbn. apply Hmin. lia.
      * destruct j as [|j]; [injection Hj as ->; done|]. exists j, t'. split; [lia|]. split; [done|]. split; [done|].
        intros j' t'' Hlt. apply (Hmin (S j')). lia.
Qed.

(** The first tensor of the name. *)
Lemma indexOf_spec l name i : indexOf l !! name = Some i <->
  exists t, l !! i = Some t /\ t_name t = name /\ forall j t', j < i -> l !! j = Some t' -> t_name t' <> name.
Proof.
  unfold indexOf. rewrite indexOf_from, lookup_empty. split.
  - intros [?|(_ & j & t & -> & H)]; [done|]. by exists t.
  - intros (t & H). right. split; [done|]. by exists i, t.
Qed.

Lemma entries_spec shards s i name : (s, i, name) ∈ entries shards <->
  exists r t, shards !! s = Some r /\ _tensors r !! i = Some t /\ t_name t = name.
Proof.
  unfold entries. rewrite list_elem_of_In, in_concat. setoid_rewrite <- list_elem_of_In. split.
  - intros (l & Hl & Hin). apply elem_of_lookup_imap_1 in Hl as (s' & r & -> & Hr).
    apply elem_of_lookup_imap_1 in Hin as (i' & t & [= <- <- ->] & Ht). by exists r, t.
  - intros (r & t & Hr & Ht & <-). eexists. split; [by eapply elem_of_lookup_imap_2|]. by apply (elem_of_lookup_imap_2 (fun i t => (s, i, t_name t))).
Qed.

Lemma indexEntries_spec l : forall ix flat, NoDup (map snd l) -> (forall e, e ∈ l -> ix !! snd e = None) ->
  exists ix' flat', indexEntries l ix flat = (Returns tt, (ix', flat')) /\
    (forall name s, ix' !! name = Some s <-> ix !! name = Some s \/ exists i, (s, i, name) ∈ l) /\
    flat' = flat ++ map fst l.
Proof.
  induction l as [|[[s i] name] l IH]; intros ix flat Hnd Hnew; cbn [indexEntries map].
  - exists ix, flat. rewrite app_nil_r. split; [done|]. split; [|done]. intros name s. split; [by left|].
    intros [?|(i & Hi)]; [done|by apply elem_of_nil in Hi].
  - cbn [map snd] in Hnd. apply NoDup_cons in Hnd as [Hn Hnd]. rewrite (Hnew (s, i, name) ltac:(left) : ix !! name = None).
    destruct (IH (<[name := s]> ix) (flat ++ [(s, i)]) Hnd) as (ix' & flat' & -> & Hix & Hfl).
    { intros e He. rewrite lookup_insert_ne; [by apply Hnew; right|]. intros ->. apply Hn.
      apply list_elem_of_In, in_map, list_elem_of_In. done. }
    exists ix', flat'. split; [done|]. split; [|rewrite Hfl; cbn [fst]; by rewrite <- app_assoc].
    intros name' s'. rewrite Hix. split.
    + intros [H|(i' & H)]; [|right; exists i'; by right]. destruct (decide (name' = name)) as [->|Hne].
      * rewrite lookup_insert_eq in H. injection H as <-. right. exists i. left.
      * rewrite lookup_insert_ne in H by done. by left.
    + intros [H|(i' & H)].
      * left. rewrite lookup_insert_ne; [done|]. intros ->. by rewrite (Hnew (s, i, name') ltac:(left) : ix !! name' = None) in H.
      * apply elem_of_cons in H as [[= -> -> ->]|H]; [left; apply lookup_insert_eq|right; by exists i'].
Qed.

(** ** A checkpoint in shards *)

(** A shard: its file name, the text of its header, its tensors. *)
Record Shard := mkShard {
  s_file : string;
  s_txt : string;
  s_entries : list Entry;
}.

Definition image (s : Shard) : string * list ascii := (s_file s, fileOf (s_txt s) (s_entries s)).

Definition okShard `{Json} (s : Shard) : Prop :=
  Ipc.parse (s_txt s) = inr (headerDoc (s_entries s)) /\ s_txt s <> EmptyString /\ Forall okEntry (s_entries s) /\
  (N.of_nat (length (fileOf (s_txt s) (s_entries s))) < 2 ^ 64)%N.

Definition allEntries (shards : list Shard) : list Entry := concat (map s_entries shards).

Definition readerOf (s : Shard) : SafetensorsReader :=
  let ts := tensorsOf (dataStart (s_txt s)) 0 (s_entries s) in
  mkReader None (snd (image s)) (s_file s) ts (indexOf ts) ∅ (dataStart (s_txt s)).

Lemma openImages_spec `{Json} shards : forall m, Forall okShard shards -> NoDup (map e_name (allEntries shards)) ->
  openImages (map image shards) m = (Returns tt, setShards (_shards m ++ map readerOf shards) m).
Proof.
  induction shards as [|s shards IH]; intros m Hok Hnd; cbn [map openImages].
  - rewrite app_nil_r. by destruct m.
  - apply Forall_cons in Hok as [(Hp & Hne & He & Hsz) Hok]. unfold allEntries in Hnd. cbn [map concat] in Hnd.
    rewrite map_app in Hnd. apply NoDup_app in Hnd as (Hnd1 & _ & Hnd2). unfold image at 1, openBytes.
    rewrite (parse_file (s_txt s) (s_entries s)) by done. cbn [p_tensors p_metadata p_dataOffset after].
    rewrite IH by done. cbn [setShards _shards]. rewrite <- app_assoc. done.
Qed.

Lemma tensorsOf_lookup base es : forall off i, tensorsOf base off es !! i =
  (fun e => tensorOf base (off + N.of_nat (length (payload (take i es)))) e) <$> es !! i.
Proof.
  induction es as [|e es IH]; intros off [|i]; cbn [tensorsOf]; try done.
  - change ((e :: es) !! 0) with (Some e). cbn [take]. unfold payload. cbn. by rewrite N.add_0_r.
  - change ((e :: es) !! S i) with (es !! i). change ((?x :: ?l) !! S i) with (l !! i). rewrite IH. cbn [take]. unfold payload. cbn [map concat].
    rewrite length_app, Nat2N.inj_add, N.add_assoc. done.
Qed.

(** The bytes of a written tensor. *)
Lemma written_bytes s i e : s_entries s !! i = Some e ->
  tensorBytes (tensorOf (dataStart (s_txt s)) (N.of_nat (length (payload (take i (s_entries s))))) e) (readerOf s) = e_data e.
Proof.
  intros Hi. unfold tensorBytes, tensorOf. cbn [t_dataEnd t_dataBegin t_nbytes].
  assert (Hall : allBytes (readerOf s) = fileOf (s_txt s) (s_entries s)).
  { unfold allBytes, readerOf, image. cbn [_external _file snd]. by destruct (fileOf (s_txt s) (s_entries s)). }
  rewrite Hall. assert (Hpay : payload (s_entries s) = payload (take i (s_entries s)) ++ e_data e ++ payload (drop (S i) (s_entries s))).
  { unfold payload. rewrite <- (take_drop_middle _ _ _ Hi) at 1. by rewrite map_app, concat_app. }
  assert (Hfile : fileOf (s_txt s) (s_entries s) =
    (le_bytes 8 (N.of_nat (String.length (s_txt s))) ++ String.list_ascii_of_string (s_txt s) ++ payload (take i (s_entries s))) ++
    e_data e ++ payload (drop (S i) (s_entries s))) by (unfold fileOf; by rewrite Hpay, <- !app_assoc).
  assert (Hpre : length (le_bytes 8 (N.of_nat (String.length (s_txt s))) ++ String.list_ascii_of_string (s_txt s) ++ payload (take i (s_entries s))) =
    N.to_nat (dataStart (s_txt s) + N.of_nat (length (payload (take i (s_entries s)))))).
  { rewrite !length_app, length_le_bytes, length_list_ascii. unfold dataStart. lia. }
  rewrite Hfile. rewrite (proj2 (N.ltb_ge _ _)) by (rewrite !length_app in *; lia). rewrite (proj2 (N.ltb_ge _ _)) by lia. cbn [orb].
  rewrite drop_app_length' by done. rewrite Nat2N.id. by apply take_app_length.
Qed.

Lemma map_lookup {A B} (f : A -> B) l i : map f l !! i = f <$> l !! i.
Proof. apply list_lookup_fmap. Qed.

Lemma entries_names shards : forall k, map snd (concat (imap (fun s r => imap (fun i t => (k + s, i, t_name t)) (_tensors r)) (map readerOf shards))) =
  map e_name (allEntries shards).
Proof.
  induction shards as [|s shards IH]; intros k; cbn [map imap concat]; [done|]. unfold allEntries. cbn [map concat].
  rewrite !map_app. f_equal.
  - rewrite <- (tensorsOf_names (dataStart (s_txt s)) (s_entries s) 0). cbn [readerOf _tensors]. generalize (tensorsOf (dataStart (s_txt s)) 0 (s_entries s)).
    intros l. apply list_eq. intros i. rewrite !map_lookup, list_lookup_imap. by destruct (l !! i).
  - fold (allEntries shards). rewrite <- (IH (S k)). do 2 f_equal. apply imap_ext. intros i r _. apply imap_ext. intros j t _. do 2 f_equal. cbn. lia.
Qed.

Lemma readers_NoDup shards : NoDup (map e_name (allEntries shards)) -> NoDup (map snd (entries (map readerOf shards))).
Proof. intros H. by rewrite <- (entries_names shards 0) in H. Qed.

(** A name of a shard is found at its own place. *)
Lemma find_written s i e : NoDup (map e_name (s_entries s)) -> s_entries s !! i = Some e -> find (e_name e) (readerOf s) = Some i.
Proof.
  intros Hnd Hi. unfold find. cbn [_index readerOf]. apply indexOf_spec.
  exists (tensorOf (dataStart (s_txt s)) (0 + N.of_nat (length (payload (take i (s_entries s))))) e).
  rewrite tensorsOf_lookup, Hi. split; [done|]. split; [done|]. intros j t' Hj. rewrite tensorsOf_lookup.
  destruct (s_entries s !! j) as [e'|] eqn:Ej; [|done]. intros [= <-]. cbn [tensorOf t_name]. intros He.
  assert (i = j); [|lia]. apply (NoDup_lookup _ i j (e_name e) Hnd); rewrite map_lookup; [by rewrite Hi|by rewrite Ej, <- He].
Qed.

Lemma shard_NoDup shards k s : shards !! k = Some s -> NoDup (map e_name (allEntries shards)) -> NoDup (map e_name (s_entries s)).
Proof.
  intros Hk. unfold allEntries. rewrite <- (take_drop_middle _ _ _ Hk), map_app, concat_app, map_app. cbn [map concat].
  rewrite map_app. intros (_ & _ & H)%NoDup_app. by apply NoDup_app in H as (H & _ & _).
Qed.

(** C31: A checkpoint written as any number of shards in the safetensors format, the header texts being
    whatever the JSON library reads as those headers, opens without error, and every tensor
    is found in its shard with its type, shape and exactly its bytes; no other name is found. *)
Theorem shards_roundtrip `{Json} shards total m0 :
  shards <> [] -> Forall okShard shards -> NoDup (map e_name (allEntries shards)) -> _byteOverrides m0 = ∅ ->
  exists m, openFromShards (map image shards) total m0 = (Returns tt, m) /\ _totalSize m = total /\
    (forall k s i e, shards !! k = Some s -> s_entries s !! i = Some e ->
      modelBytes (e_name e) m = Some (e_data e) /\ findTensor (e_name e) m = Some (k, i) /\
      exists r t, _shards m !! k = Some r /\ tensorAt r i = Some t /\ t_dtype t = e_dtype e /\ t_shape t = e_shape e) /\
    (forall name, name ∉ map e_name (allEntries shards) -> findTensor name m = None).
Proof.
  intros Hne Hok Hnd Hov. pose proof (readers_NoDup shards Hnd) as Hrnd.
  destruct (indexEntries_spec (entries (map readerOf shards)) ∅ [] Hrnd) as (ix & flat & Hix & Hspec & _); [intros e _; apply lookup_empty|].
  exists (mkModel (map readerOf shards) ix flat total ∅). split; [|split; [done|split]].
  - unfold openFromShards. destruct (map image shards) as [|im ims] eqn:E; [by destruct shards|]. rewrite <- E, openImages_spec by done.
    cbn [after SafetensorsModel.close setShards _shards app]. unfold reindex, setTotal. cbn [_shards _totalSize _byteOverrides].
    cbn [_shards setShards _byteOverrides SafetensorsModel.close]. rewrite Hix, Hov. done.
  - intros k s i e Hk Hi. pose proof (shard_NoDup shards k s Hk Hnd) as Hsnd. pose proof (find_written s i e Hsnd Hi) as Hfind.
    assert (Hr : map readerOf shards !! k = Some (readerOf s)) by (rewrite map_lookup; by rewrite Hk).
    assert (Ht : tensorAt (readerOf s) i = Some (tensorOf (dataStart (s_txt s)) (N.of_nat (length (payload (take i (s_entries s))))) e)).
    { unfold tensorAt. cbn [_tensors readerOf]. rewrite tensorsOf_lookup, Hi. done. }
    assert (Hs : ix !! e_name e = Some k).
    { apply Hspec. right. exists i. apply entries_spec. eexists _, _. split; [exact Hr|]. split; [exact Ht|done]. }
    split; [|split].
    + unfold modelBytes. cbn [_byteOverrides _tensorToShard _shards]. rewrite lookup_empty, Hs, Hr. cbn [mbind option_bind].
      rewrite Hfind, Ht. cbn [mbind option_bind]. by rewrite written_bytes.
    + unfold findTensor. cbn [_tensorToShard _shards]. rewrite Hs. cbn [mbind option_bind]. rewrite Hr. cbn [mbind option_bind]. by rewrite Hfind.
    + eexists _, _. split; [exact Hr|]. split; [exact Ht|done].
  - intros name Hname. unfold findTensor. cbn [_tensorToShard]. destruct (ix !! name) as [s|] eqn:E; [|done].
    exfalso. apply Hspec in E as [E|(i & E)]; [by rewrite lookup_empty in E|]. apply Hname. rewrite <- (entries_names shards 0).
    apply list_elem_of_In, in_map_iff. exists (s, i, name). split; [done|]. apply list_elem_of_In. exact E.
Qed.

(** ** A derived row slice *)

(** In a tensor that lies in its file, a slice of rows inside it is accepted when the rows divide its
    bytes and elements evenly, and the new tensor views exactly the bytes of those rows.
    Hypothesis: the sum of the two row numbers does not wrap. *)
Theorem row_slice_exact src newName rowBegin rowCount r i s rows dims off :
  find src r = Some i -> tensorAt r i = Some s -> t_shape s = rows :: dims ->
  SafetensorsHeaderProofs.inside (N.of_nat (length (allBytes r))) off s -> (N.of_nat (length (allBytes r)) < 2 ^ 64)%N ->
  (rowBegin + rowCount < 2 ^ 64)%N ->
  let even := negb (rows =? 0)%N && (t_nbytes s mod rows =? 0)%N && (t_nelements s mod rows =? 0)%N in
  let '(o, r') := addDerivedRowSlice src newName rowBegin rowCount r in
  if even && (rowBegin + rowCount <=? rows)%N && negb (rowCount =? 0)%N then
    exists d, o = Returns true /\ _tensors r' = _tensors r ++ [d] /\ t_name d = newName /\ t_shape d = rowCount :: dims /\
      tensorBytes d r' =
        take (N.to_nat (t_nbytes s / rows * rowCount)) (drop (N.to_nat (t_nbytes s / rows * rowBegin)) (tensorBytes s r))
  else o = Returns false /\ r' = r.
Proof.
  intros Hf Ht Hsh (Hoff & Hnb & Hend & _ & _) Hsz Hw even. unfold addDerivedRowSlice. rewrite Hf, Ht, Hsh. unfold even.
  destruct (N.eqb_spec rows 0) as [E0|Hr0]; cbn [negb andb]; [done|]. rewrite u64_small by done.
  destruct (N.ltb_spec rows (rowBegin + rowCount)) as [Hlt|Hge]; cbn [orb].
  { rewrite (proj2 (N.leb_gt _ _)) by done. by rewrite !andb_false_r. }
  rewrite (proj2 (N.leb_le _ _)) by done. rewrite andb_true_r. destruct (N.eqb_spec rowCount 0) as [Ec|Hc]; cbn [orb negb]; [by rewrite andb_false_r|].
  rewrite andb_true_r. destruct (N.eqb_spec (t_nbytes s mod rows) 0) as [Hm1|]; cbn [orb negb andb]; [|done].
  destruct (N.eqb_spec (t_nelements s mod rows) 0) as [Hm2|]; cbn [negb]; [|done].
  set (bpr := (t_nbytes s / rows)%N). assert (Hbpr : t_nbytes s = (rows * bpr)%N) by (unfold bpr; pose proof (N.div_mod (t_nbytes s) rows Hr0); lia).
  assert (Hb1 : (bpr * rowBegin + bpr * rowCount <= t_nbytes s)%N) by nia.
  rewrite (u64_small (bpr * rowCount)), (u64_small (bpr * rowBegin)), (u64_small (t_dataBegin s + _)), (u64_small (t_dataBegin s + _ + _)) by lia.
  eexists. split; [done|]. split; [done|]. split; [done|]. split; [done|].
  unfold tensorBytes. cbn [t_dataEnd t_dataBegin t_nbytes]. change (allBytes (setTensors _ r)) with (allBytes r).
  rewrite !(proj2 (N.ltb_ge _ _)) by lia. cbn [orb].
  rewrite skipn_firstn_comm, drop_drop, firstn_firstn. f_equal; [lia|]. f_equal. lia.
Qed.
End SafetensorsFormat.

(** ** A concrete checkpoint *)

Module SafetensorsWitnesses.
Import SafetensorsReader SafetensorsModel SafetensorsFormat SafetensorsHeaderProofs.
#[local] Existing Instance PlainJson.plain_json.

Definition bytes (l : list N) : list ascii := map ascii_of_N l.

Definition shardOf (file : string) (es : list Entry) : Shard :=
  mkShard file (default EmptyString (dump (headerDoc es))) es.

Definition demoShards : list Shard :=
  [shardOf "model-1.safetensors"
     [mkEntry "a.weight" BF16 [3; 2]%N (bytes [1; 2; 3; 4; 5; 6; 7; 8; 9; 10; 11; 12]%N); mkEntry "empty" F32 [0; 7]%N []];
   shardOf "model-2.safetensors" [mkEntry "scalar" U8 [] (bytes [42]%N)]].

Lemma demo_okShards : Forall okShard demoShards.
Proof.
  repeat constructor; try discriminate; try (vm_compute; reflexivity).
Qed.

Lemma demo_names : NoDup (map e_name (allEntries demoShards)).
Proof. apply (bool_decide_unpack _). vm_compute. exact I. Qed.

Lemma header_safe_witness : let file := snd (image (shardOf "f" [mkEntry "scalar" U8 [] (bytes [42]%N)])) in
  (N.of_nat (length file) < 2 ^ 64)%N /\
  (parseSafetensorsHeader file = Undefined -> (2 ^ 64 <= 8 + headerLength file)%N).
Proof.
  cbn zeta. split; [vm_compute; reflexivity|].
  apply (header_safe (snd (image (shardOf "f" [mkEntry "scalar" U8 [] (bytes [42]%N)])))). vm_compute. reflexivity.
Defined.

Lemma shards_roundtrip_witness : exists m,
  openFromShards (map image demoShards) 25 newModel = (Returns tt, m) /\
  modelBytes "scalar" m = Some (bytes [42]%N) /\ findTensor "b.weight" m = None.
Proof.
  destruct (shards_roundtrip demoShards 25 newModel) as (m & Ho & _ & Hb & Hn);
    [discriminate|exact demo_okShards|exact demo_names|reflexivity|].
  exists m. split; [exact Ho|]. split.
  - apply (Hb 1 (shardOf "model-2.safetensors" [mkEntry "scalar" U8 [] (bytes [42]%N)]) 0 (mkEntry "scalar" U8 [] (bytes [42]%N))); reflexivity.
  - apply Hn. apply (bool_decide_unpack _). vm_compute. exact I.
Defined.

Definition demoReader : SafetensorsReader := readerOf (shardOf "f" [mkEntry "a.weight" BF16 [3; 2]%N (bytes [1; 2; 3; 4; 5; 6; 7; 8; 9; 10; 11; 12]%N)]).

Lemma row_slice_exact_witness : exists d,
  fst (addDerivedRowSlice "a.weight" "tail" 1 2 demoReader) = Returns true /\
  tensorBytes d (snd (addDerivedRowSlice "a.weight" "tail" 1 2 demoReader)) = bytes [5; 6; 7; 8; 9; 10; 11; 12]%N.
Proof.
  pose (t := default (mkTensor EmptyString U8 [] 0 0 0 0) (tensorAt demoReader 0)).
  pose proof (row_slice_exact "a.weight" "tail" 1 2 demoReader 0 t 3 [2%N] (t_dataBegin t)) as H.
  destruct (addDerivedRowSlice "a.weight" "tail" 1 2 demoReader) as [o r'].
  destruct H as (d & -> & _ & _ & _ & Hb);
    [vm_compute; reflexivity|vm_compute; reflexivity|vm_compute; reflexivity| |vm_compute; reflexivity|vm_compute; reflexivity|].
  - unfold inside. split; [vm_compute; discriminate|]. split; [vm_compute; reflexivity|]. split; [vm_compute; discriminate|]. split; [vm_compute; reflexivity|vm_compute; discriminate].
  - exists d. cbn [fst snd]. split; [reflexivity|]. rewrite Hb. vm_compute. reflexivity.
Defined.

(** A length of 2^64 - 8 puts the header in front of the file. *)
Example header_length_wraps : parseSafetensorsHeader (bytes (248 :: replicate 7 255)%N) = Undefined.
Proof. vm_compute. reflexivity. Qed.

(** Dimensions whose product wraps to the element count of the data are accepted. *)
Example element_count_wraps :
  let fields :=  [("w", JObject [("data_offsets", JArray [JUnsigned 0; JUnsigned 0]); ("dtype", JString "U8");
    ("shape", JArray [JUnsigned (2 ^ 32); JUnsigned (2 ^ 32)])])]%string in
  match readEntries 100 0 fields (mkParsed [] ∅ 100) with
  | Returns p => map (fun t => (t_shape t, t_nelements t)) (p_tensors p) | _ => [] end = [([2 ^ 32; 2 ^ 32], 0)]%N.
Proof. vm_compute. reflexivity. Qed.

(** Row numbers whose sum wraps are accepted: the derived tensor begins before its source. *)
Example row_numbers_wrap :
  match addDerivedRowSlice "a.weight" "w" (2 ^ 64 - 1) 2 demoReader with
  | (Returns true, r) => (fun d => t_dataBegin d) <$> last (_tensors r)
  | _ => None
  end = (fun t => (t_dataBegin t - 4)%N) <$> tensorAt demoReader 0.
Proof. vm_compute. reflexivity. Qed.

(** Bytes put over a tensor stay when another checkpoint is opened. *)
Example override_survives_close :
  let m := overrideTensorBytes "scalar" (bytes [7]%N) newModel in
  modelBytes "scalar" (snd (openFromShards (map image demoShards) 25 m)) = Some (bytes [7]%N).
Proof. vm_compute. reflexivity. Qed.
End SafetensorsWitnesses.
