(* ===== verification/PromptTrim.v ===== *)
(** * Prompt trimming

    Models [src/src/server/PromptTrimmer.cpp]: oldest messages are dropped in batches
    until the prompt fits the context of the engine, the output limit is cut to what
    the prompt leaves, and the report becomes headers and fields of [usage].
    [ChatTemplate::encode] with the style, tools and switches of the request is the
    argument [encode] of the trimmer: the theorems hold for every rendering. *)

From Stdlib Require Import Ascii.
From stdpp Require Import pretty.
From S2P Require Import Prelude Gguf GgufFormat Ipc.

Module PromptTrimmer.

(** [src/src/model/ChatTemplate.hpp:21-26 ChatRole] *)
Inductive ChatRole := System | User | Assistant | Tool.

#[global] Instance ChatRole_eq_dec : EqDecision ChatRole.
Proof. solve_decision. Defined.

(** [src/src/model/ToolCall.hpp:31-35 ToolCall] *)
Record ToolCall := mkCall { tc_id : string; tc_name : string; tc_argumentsJson : string }.

(** [src/src/model/ChatTemplate.hpp:34-45 ChatMessage] *)
Record ChatMessage := mkMessage {
  role : ChatRole;
  content : string;
  toolCalls : list ToolCall;
  toolCallId : string;
}.

(** [src/src/server/PromptTrimmer.hpp:28-42 TrimReport] *)
Record TrimReport := mkReport {
  droppedMessages : N;
  originalPromptTokens : N;
  effectivePromptTokens : N;
  maxNewClampedFrom : N;
  maxNewClampedTo : N;
  contextExtrapolated : bool;
  contextExtrapolatedBy : N;
}.

Definition emptyReport : TrimReport := mkReport 0 0 0 0 0 false 0.

(** [src/src/server/PromptTrimmer.hpp:37-41 TrimReport::fired] *)
Definition fired (r : TrimReport) : bool :=
  (0 <? droppedMessages r)%N || (0 <? maxNewClampedFrom r)%N || contextExtrapolated r.

Definition kCapSlack : N := 4.
Definition kTrimIterLimit : nat := 20.

Definition size {A} (l : list A) : N := N.of_nat (length l).
Definition strSize (s : string) : N := N.of_nat (String.length s).

(** ** One batch *)

(** The last user message, searched backwards.
    [src/src/server/PromptTrimmer.cpp:58-64 PromptTrimmer::applyPromptTrim] *)
Fixpoint lastUserFrom (n : nat) (msgs : list ChatMessage) : option nat :=
  match n with
  | O => None
  | S i => match msgs !! i with
           | Some m => if decide (role m = User) then Some i else lastUserFrom i msgs
           | None => lastUserFrom i msgs
           end
  end.

Definition lastUserIdx (msgs : list ChatMessage) : option nat := lastUserFrom (length msgs) msgs.

(** The earliest message that is neither a system message nor the one at [keep].
    [src/src/server/PromptTrimmer.cpp:66-72 PromptTrimmer::applyPromptTrim] *)
Fixpoint dropFrom (i : nat) (keep : option nat) (msgs : list ChatMessage) : option nat :=
  match msgs with
  | [] => None
  | m :: msgs =>
      if decide (role m = System) then dropFrom (S i) keep msgs
      else if decide (Some i = keep) then dropFrom (S i) keep msgs
      else Some i
  end.

Definition dropIdx (msgs : list ChatMessage) : option nat := dropFrom 0 (lastUserIdx msgs) msgs.

(** [src/src/server/PromptTrimmer.cpp:77-80 PromptTrimmer::applyPromptTrim] *)
Definition messageBytes (m : ChatMessage) : N :=
  foldl (fun b call => u64 (b + u64 (strSize (tc_name call) + strSize (tc_argumentsJson call))))
    (u64 (strSize (content m))) (toolCalls m).

(** The messages left, the report's counter and [droppedAny]; no answer without fuel.
    [src/src/server/PromptTrimmer.cpp:54-85 PromptTrimmer::applyPromptTrim] *)
Fixpoint dropBatch (fuel : nat) (overflow freed : N) (msgs : list ChatMessage) (dropped : N) (droppedAny : bool)
    : option (list ChatMessage * N * bool) :=
  if (freed <? overflow)%N then
    match dropIdx msgs with
    | None => Some (msgs, dropped, droppedAny)
    | Some i =>
        match fuel with
        | O => None
        | S fuel =>
            let bytes := default 0%N (messageBytes <$> msgs !! i) in
            dropBatch fuel overflow (u64 (freed + u64 (bytes / 4 + 16))) (delete i msgs) (u64 (dropped + 1)) true
        end
    end
  else Some (msgs, dropped, droppedAny).

(** ** The trimmer *)

Section trim.
Context (encode : list ChatMessage -> list Z).

(** [src/src/server/PromptTrimmer.cpp:47-98 PromptTrimmer::applyPromptTrim] *)
Fixpoint trimLoop (iter : nat) (maxContextTokens : N) (msgs : list ChatMessage) (promptIds : list Z) (dropped : N)
    : option (list ChatMessage * list Z * N) :=
  match iter with
  | O => Some (msgs, promptIds, dropped)
  | S iter =>
      if (u64 (size promptIds + kCapSlack + 1) <=? maxContextTokens)%N then Some (msgs, promptIds, dropped)
      else
        let overflow := u64 (u64 (size promptIds + kCapSlack + 1) + (2 ^ 64 - maxContextTokens)) in
        batch ← dropBatch (length msgs) overflow 0 msgs dropped false;
        let '(msgs, dropped, droppedAny) := batch in
        if (droppedAny : bool) then trimLoop iter maxContextTokens msgs (encode msgs) dropped
        else Some (msgs, promptIds, dropped)
  end.

(** What the caller sees after the call: its four in-out arguments and the report. *)
Record Trimmed := mkTrimmed {
  accepted : bool;
  messages : list ChatMessage;
  prompt : list Z;
  maxNew : N;
  report : TrimReport;
  errorMessage : string;
}.

(** [src/src/server/PromptTrimmer.cpp:104-110 PromptTrimmer::applyPromptTrim] *)
Definition tooLong (Tp dropped maxContextTokens : N) : string :=
  "prompt too long: " +:+ pretty Tp +:+ " tokens after trimming " +:+ pretty dropped +:+
  " message(s) + slack " +:+ pretty kCapSlack +:+ " does not fit context budget " +:+ pretty maxContextTokens +:+
  " — raise runtime.maxContextTokens or shorten the last user message".

(** [src/src/server/PromptTrimmer.cpp:16-130 PromptTrimmer::applyPromptTrim] *)
Definition applyPromptTrim (msgs : list ChatMessage) (promptIds : list Z)
    (maxNewTokens maxContextTokens modelContextLength : N) (r : TrimReport) (err : string) : option Trimmed :=
  let original := size promptIds in
  looped ← trimLoop kTrimIterLimit maxContextTokens msgs promptIds (droppedMessages r);
  let '(msgs, promptIds, dropped) := looped in
  let Tp := size promptIds in
  if (maxContextTokens <? u64 (Tp + kCapSlack + 1))%N then
    Some (mkTrimmed false msgs promptIds maxNewTokens
            (mkReport dropped original (effectivePromptTokens r) (maxNewClampedFrom r) (maxNewClampedTo r)
               (contextExtrapolated r) (contextExtrapolatedBy r))
            (tooLong Tp dropped maxContextTokens))
  else
    let clamp := (maxContextTokens <? u64 (Tp + maxNewTokens + kCapSlack))%N in
    let newMax := u64 (maxContextTokens + (2 ^ 64 - u64 (Tp + kCapSlack))) in
    let beyond := (0 <? modelContextLength)%N && (modelContextLength <? Tp)%N in
    Some (mkTrimmed true msgs promptIds (if clamp then newMax else maxNewTokens)
            (mkReport dropped original Tp
               (if clamp then maxNewTokens else maxNewClampedFrom r)
               (if clamp then newMax else maxNewClampedTo r)
               (if beyond then true else contextExtrapolated r)
               (if beyond then (Tp - modelContextLength)%N else contextExtrapolatedBy r))
            err).
End trim.

(** [src/src/server/PromptTrimmer.cpp:132-146 PromptTrimmer::attachTrimHeaders] *)
Definition attachTrimHeaders (res : list (string * string)) (r : TrimReport) : list (string * string) :=
  let res := if (0 <? droppedMessages r)%N
             then res ++ [("x-mimirmind-dropped-messages", pretty (droppedMessages r))] else res in
  let res := if (0 <? maxNewClampedFrom r)%N
             then res ++ [("x-mimirmind-max-new-clamped",
                           pretty (maxNewClampedFrom r) +:+ "->" +:+ pretty (maxNewClampedTo r))] else res in
  if contextExtrapolated r
  then res ++ [("x-mimirmind-context-extrapolated-by", pretty (contextExtrapolatedBy r))] else res.

(** [src/src/server/PromptTrimmer.cpp:148-160 PromptTrimmer::attachTrimUsage] *)
Definition attachTrimUsage (usage : list (string * json)) (r : TrimReport) : list (string * json) :=
  let usage := if (0 <? droppedMessages r)%N
               then setKey "mimirmind_original_prompt_tokens" (JUnsigned (originalPromptTokens r))
                      (setKey "mimirmind_dropped_messages" (JUnsigned (droppedMessages r)) usage) else usage in
  let usage := if (0 <? maxNewClampedFrom r)%N
               then setKey "mimirmind_max_new_clamped_to" (JUnsigned (maxNewClampedTo r))
                      (setKey "mimirmind_max_new_clamped_from" (JUnsigned (maxNewClampedFrom r)) usage) else usage in
  if contextExtrapolated r
  then setKey "mimirmind_context_extrapolated_by" (JUnsigned (contextExtrapolatedBy r)) usage else usage.

(** The tokenizer's [encode] without the BOS token is the argument.
    [src/src/server/PromptTrimmer.cpp:162-181 PromptTrimmer::extendStopIds] *)
Definition extendStopIds (encode : string -> list Z) (strings : list string) (stopIds : list Z) : list Z :=
  foldl (fun stopIds s =>
    if String.eqb s EmptyString then stopIds
    else match encode s with
         | [] => stopIds
         | id :: _ => if bool_decide (id ∈ stopIds) then stopIds else stopIds ++ [id]
         end) stopIds strings.

(** ** Reference: which messages a trimming keeps *)

(** Marked: the system messages and the last user message. *)
Definition hasUser (msgs : list ChatMessage) : bool := existsb (fun m => bool_decide (role m = User)) msgs.

Definition essential (m : ChatMessage) (rest : list ChatMessage) : bool :=
  bool_decide (role m = System) || bool_decide (role m = User) && negb (hasUser rest).

(** [msgs] without the first [k] messages that are not essential. *)
Fixpoint dropOldest (k : nat) (msgs : list ChatMessage) : list ChatMessage :=
  match msgs with
  | [] => []
  | m :: msgs =>
      if essential m msgs then m :: dropOldest k msgs
      else match k with O => m :: msgs | S k => dropOldest k msgs end
  end.

(** Those that may be dropped. *)
Fixpoint droppable (msgs : list ChatMessage) : nat :=
  match msgs with
  | [] => 0
  | m :: msgs => (if essential m msgs then 0 else 1) + droppable msgs
  end.

(** ** Lemmas *)

Lemma dropOldest_0 msgs : dropOldest 0 msgs = msgs.
Proof. induction msgs as [|m msgs IH]; cbn; [done|]. by destruct (essential m msgs); rewrite ?IH. Qed.

Lemma hasUser_dropOldest k msgs : hasUser (dropOldest k msgs) = hasUser msgs.
Proof.
  revert k. induction msgs as [|m msgs IH]; intros k; cbn; [done|].
  destruct (essential m msgs) eqn:He; cbn; [by rewrite IH|]. destruct k as [|k]; [done|].
  rewrite IH. unfold essential in He. unfold hasUser in *.
  destruct (bool_decide (role m = System)), (bool_decide (role m = User)); cbn in *; try done.
  by destruct (existsb _ msgs).
Qed.

Lemma dropOldest_add j k msgs : dropOldest j (dropOldest k msgs) = dropOldest (k + j) msgs.
Proof.
  revert k. induction msgs as [|m msgs IH]; intros k; cbn; [done|].
  destruct (essential m msgs) eqn:He.
  - cbn. unfold essential. rewrite hasUser_dropOldest. fold (essential m msgs). by rewrite He, IH.
  - destruct k as [|k]; cbn; [by rewrite He|]. by apply IH.
Qed.

Lemma droppable_dropOldest k msgs : droppable (dropOldest k msgs) = droppable msgs - k.
Proof.
  revert k. induction msgs as [|m msgs IH]; intros k; cbn; [done|].
  destruct (essential m msgs) eqn:He.
  - cbn. unfold essential. rewrite hasUser_dropOldest. fold (essential m msgs). by rewrite He, IH.
  - destruct k as [|k]; cbn; [by rewrite He|]. rewrite IH. lia.
Qed.

Lemma droppable_le msgs : droppable msgs <= length msgs.
Proof. induction msgs as [|m msgs IH]; cbn; [done|]. destruct (essential m msgs); lia. Qed.

Lemma lastUserFrom_cons n m msgs : lastUserFrom (S n) (m :: msgs) =
  match lastUserFrom n msgs with
  | Some i => Some (S i)
  | None => if decide (role m = User) then Some 0 else None
  end.
Proof.
  induction n as [|n IH]; [cbn; by destruct (decide _)|].
  transitivity (match msgs !! n with
    | Some m' => if decide (role m' = User) then Some (S n) else lastUserFrom (S n) (m :: msgs)
    | None => lastUserFrom (S n) (m :: msgs) end); [done|].
  rewrite IH. cbn [lastUserFrom]. destruct (msgs !! n) as [m'|]; [|done]. by destruct (decide (role m' = User)).
Qed.

Lemma lastUserIdx_cons m msgs : lastUserIdx (m :: msgs) =
  match lastUserIdx msgs with
  | Some i => Some (S i)
  | None => if decide (role m = User) then Some 0 else None
  end.
Proof. apply lastUserFrom_cons. Qed.

Lemma hasUser_lastUserIdx msgs : hasUser msgs = bool_decide (is_Some (lastUserIdx msgs)).
Proof.
  induction msgs as [|m msgs IH]; [done|].
  rewrite lastUserIdx_cons. cbn. fold (hasUser msgs). rewrite IH.
  destruct (lastUserIdx msgs) as [i|]; cbn; [by rewrite orb_true_r|]. rewrite orb_false_r.
  by destruct (decide (role m = User)) as [Hm|Hm]; [rewrite bool_decide_true|rewrite bool_decide_false].
Qed.

Lemma dropFrom_S i keep msgs : dropFrom (S i) (S <$> keep) msgs = S <$> dropFrom i keep msgs.
Proof.
  revert i. induction msgs as [|m msgs IH]; intros i; cbn; [done|].
  destruct (decide (role m = System)); [apply IH|].
  destruct (decide (Some i = keep)) as [<-|Hn]; cbn.
  - rewrite decide_True by done. apply (IH (S i)).
  - rewrite decide_False; [done|]. destruct keep as [j|]; cbn; congruence.
Qed.

Lemma dropFrom_skip i j msgs : j < i -> dropFrom i (Some j) msgs = dropFrom i None msgs.
Proof.
  revert i. induction msgs as [|m msgs IH]; intros i Hj; cbn; [done|].
  destruct (decide (role m = System)); [apply IH; lia|]. by rewrite !decide_False by (congruence || (intros [= ->]; lia)).
Qed.

(** One drop is the reference's. *)
Lemma dropIdx_spec msgs :
  match dropIdx msgs with
  | Some i => delete i msgs = dropOldest 1 msgs /\ 0 < droppable msgs
  | None => droppable msgs = 0
  end.
Proof.
  induction msgs as [|m msgs IH]; [done|].
  assert (Hess : essential m msgs = bool_decide (role m = System) ||
    bool_decide (role m = User) && negb (bool_decide (is_Some (lastUserIdx msgs)))).
  { unfold essential. by rewrite hasUser_lastUserIdx. }
  assert (Hrest : (if essential m msgs then dropIdx (m :: msgs) = S <$> dropIdx msgs else dropIdx (m :: msgs) = Some 0)).
  { rewrite Hess. unfold dropIdx. rewrite lastUserIdx_cons. cbn [dropFrom].
    destruct (decide (role m = System)) as [Hs|Hs].
    - rewrite (bool_decide_true _ Hs). cbn [orb]. rewrite Hs, decide_False by done.
      destruct (lastUserIdx msgs) as [n|]; [apply (dropFrom_S 0 (Some n))|apply (dropFrom_S 0 None)].
    - rewrite (bool_decide_false _ Hs). cbn [orb].
      destruct (decide (role m = User)) as [Hu|Hu].
      + rewrite (bool_decide_true _ Hu). destruct (lastUserIdx msgs); cbn; [done|].
        rewrite dropFrom_skip by lia. apply (dropFrom_S 0 None).
      + rewrite (bool_decide_false _ Hu). by destruct (lastUserIdx msgs). }
  cbn [droppable dropOldest]. destruct (essential m msgs).
  - rewrite Hrest. destruct (dropIdx msgs) as [i|]; cbn; [|done]. destruct IH as [IH ?]. by rewrite <- IH.
  - rewrite Hrest. cbn. split; [by rewrite dropOldest_0|lia].
Qed.

Ltac small := change (2 ^ 64)%N with 18446744073709551616%N in *; change (2 ^ 63)%N with 9223372036854775808%N in *; change (2 ^ 62)%N with 4611686018427387904%N in *; unfold size, kCapSlack in *; lia.

Lemma dropBatch_spec fuel overflow freed msgs dropped any : droppable msgs <= fuel ->
  (dropped + N.of_nat (droppable msgs) < 2 ^ 64)%N ->
  exists k, k <= droppable msgs /\
    dropBatch fuel overflow freed msgs dropped any =
      Some (dropOldest k msgs, (dropped + N.of_nat k)%N, if k =? 0 then any else true) /\
    ((freed < overflow)%N -> k = 0 -> droppable msgs = 0).
Proof.
  revert freed msgs dropped any. induction fuel as [|fuel IH]; intros freed msgs dropped any Hf Hd;
    cbn [dropBatch]; pose proof (dropIdx_spec msgs) as Hi;
    (destruct (N.ltb_spec freed overflow); [|exists 0; rewrite dropOldest_0, N.add_0_r; split_and!; [lia|done|intros; lia]]);
    destruct (dropIdx msgs) as [i|]; try (exists 0; rewrite dropOldest_0, N.add_0_r; split_and!; [lia|done|done]).
  - destruct Hi. lia.
  - destruct Hi as [-> Hpos]. cbv zeta.
    rewrite (u64_small (dropped + 1)) by small.
    destruct (IH (u64 (freed + u64 (default 0%N (messageBytes <$> msgs !! i) / 4 + 16))) (dropOldest 1 msgs)
      (dropped + 1)%N true) as (k & Hk & -> & _).
    { rewrite droppable_dropOldest. lia. }
    { rewrite droppable_dropOldest. small. }
    rewrite droppable_dropOldest in Hk. exists (S k). split_and!; [lia| |lia].
    rewrite dropOldest_add. cbn [Nat.eqb Nat.add]. f_equal. f_equal; [f_equal; lia|]. by destruct (k =? 0).
Qed.

(** ** The whole trimming *)

Section correctness.
Context (encode : list ChatMessage -> list Z).
Context (encode_small : forall msgs, (size (encode msgs) < 2 ^ 62)%N).

(** The prompt, the slack and one token of output. *)
Definition fits (maxContextTokens : N) (ids : list Z) : Prop := (size ids + 5 <= maxContextTokens)%N.

#[local] Instance fits_dec c ids : Decision (fits c ids) := decide (_ <= _)%N.

Lemma fits_check c ids : (size ids < 2 ^ 62)%N ->
  (u64 (size ids + kCapSlack + 1) <=? c)%N = bool_decide (fits c ids).
Proof.
  intros Hs. rewrite u64_small by small. apply eq_true_iff_eq. rewrite N.leb_le, bool_decide_eq_true.
  unfold fits, kCapSlack. lia.
Qed.

Lemma trimLoop_spec iter c msgs ids dropped : (size ids < 2 ^ 62)%N -> (c < 2 ^ 64)%N ->
  (dropped + N.of_nat (droppable msgs) < 2 ^ 64)%N ->
  exists k ids', k <= droppable msgs /\
    trimLoop encode iter c msgs ids dropped = Some (dropOldest k msgs, ids', (dropped + N.of_nat k)%N) /\
    ids' = (if k =? 0 then ids else encode (dropOldest k msgs)) /\
    (fits c ids -> k = 0) /\ (fits c ids' \/ k = droppable msgs \/ iter <= k).
Proof.
  revert msgs ids dropped. induction iter as [|iter IH]; intros msgs ids dropped Hs Hc Hd; cbn [trimLoop].
  { exists 0, ids. rewrite dropOldest_0, N.add_0_r. split_and!; [lia|done..|]. right. right. lia. }
  rewrite fits_check by done. case_bool_decide as Hfit.
  { exists 0, ids. rewrite dropOldest_0, N.add_0_r. split_and!; [lia|done..|by left]. }
  destruct (dropBatch_spec (length msgs)
    (u64 (u64 (size ids + kCapSlack + 1) + (2 ^ 64 - c))) 0 msgs dropped false (droppable_le msgs) Hd)
    as (k & Hk & -> & Hnone). cbn [mbind option_bind].
  destruct k as [|k]; cbn [Nat.eqb].
  - exists 0, ids. rewrite dropOldest_0, N.add_0_r. split_and!; [lia|done..|].
    right. left. symmetry. apply Hnone; [|done]. unfold fits in Hfit. rewrite (u64_small (_ + _ + 1)) by small.
    replace (size ids + kCapSlack + 1 + (2 ^ 64 - c))%N with ((size ids + kCapSlack + 1 - c) + 1 * 2 ^ 64)%N by small.
    unfold u64, wrapU. rewrite N.Div0.mod_add. fold (wrapU 64 (size ids + kCapSlack + 1 - c)).
    rewrite wrapU_small by (unfold in_u; small). unfold kCapSlack. lia.
  - destruct (IH (dropOldest (S k) msgs) (encode (dropOldest (S k) msgs)) (dropped + N.of_nat (S k))%N)
      as (j & ids' & Hj & -> & -> & _ & Hend); [done..| |].
    { rewrite droppable_dropOldest. lia. }
    rewrite droppable_dropOldest in Hj, Hend. rewrite !dropOldest_add in *.
    eexists (S k + j), _. split_and!; [lia|f_equal; f_equal; lia| |done|].
    + cbn [Nat.add Nat.eqb]. destruct j; [by rewrite Nat.add_0_r|done].
    + destruct Hend as [?|[?|?]]; [by left|right; left; lia|right; right; lia].
Qed.

(** C32: Trimming always answers.  A prompt that fits is left alone; otherwise exactly
    the oldest messages that are neither system messages nor the last user message go,
    and the prompt is the rendering of the rest.  The request is accepted exactly if the
    prompt then leaves room for the slack and one token, and the output limit is cut to
    what is left, never to nothing and never raised; a refused request has nothing left
    to drop or went through the twenty rounds. *)
Theorem prompt_trim_exact msgs ids maxNewTokens c native :
  (size ids < 2 ^ 62)%N -> (size msgs < 2 ^ 63)%N -> (maxNewTokens < 2 ^ 63)%N -> (c < 2 ^ 64)%N ->
  exists k t, applyPromptTrim encode msgs ids maxNewTokens c native emptyReport EmptyString = Some t /\
    k <= droppable msgs /\ messages t = dropOldest k msgs /\
    prompt t = (if k =? 0 then ids else encode (messages t)) /\ (fits c ids -> k = 0) /\
    droppedMessages (report t) = N.of_nat k /\ originalPromptTokens (report t) = size ids /\
    (accepted t = true <-> fits c (prompt t)) /\
    (accepted t = true -> maxNew t = N.min maxNewTokens (c - size (prompt t) - 4) /\
       (fired (report t) = false <->
          k = 0 /\ maxNew t = maxNewTokens /\ (native = 0 \/ size (prompt t) <= native)%N)) /\
    (accepted t = false -> k = droppable msgs \/ 20 <= k).
Proof.
  intros Hs Hm Hn Hc.
  pose proof (droppable_le msgs) as Hle.
  destruct (trimLoop_spec kTrimIterLimit c msgs ids 0 Hs Hc) as (k & ids' & Hk & Hloop & Hids & Hfit & Hend); [small|].
  assert (Hs' : (size ids' < 2 ^ 62)%N) by (subst ids'; destruct (k =? 0); [done|apply encode_small]).
  unfold applyPromptTrim. cbn [droppedMessages emptyReport]. rewrite Hloop. cbn [mbind option_bind]. rewrite N.add_0_l.
  rewrite N.ltb_antisym, fits_check by done. case_bool_decide as Hfits; cbn [negb];
    (eexists k, _; split; [done|]); cbn [accepted prompt messages report droppedMessages maxNew]; split_and!; try done.
  - intros _. rewrite (u64_small (_ + maxNewTokens + _)), (u64_small (size ids' + kCapSlack)) by small.
    unfold fits in Hfits.
    replace (c + (2 ^ 64 - (size ids' + kCapSlack)))%N with ((c - size ids' - 4) + 1 * 2 ^ 64)%N by small.
    assert (Hw : u64 (c - size ids' - 4 + 1 * 2 ^ 64) = (c - size ids' - 4)%N).
    { unfold u64, wrapU. rewrite N.Div0.mod_add. apply (u64_small (c - size ids' - 4)). small. }
    rewrite Hw. unfold fired. cbn. unfold kCapSlack.
    destruct (N.ltb_spec c (size ids' + maxNewTokens + 4)); cbn; split; [lia| |lia|].
    + destruct (N.ltb_spec 0 maxNewTokens); [|lia]. rewrite orb_true_r. cbn. split; [done|lia].
    + rewrite orb_false_r. destruct (N.ltb_spec 0 (N.of_nat k)), (N.ltb_spec 0 native), (N.ltb_spec native (size ids'));
        cbn; split; intros ?; try done; lia.
  - intros _. destruct Hend as [?|?]; [done|]. unfold kTrimIterLimit in *. tauto.
Qed.
End correctness.

(** A conversation of one-token messages, one of which has to go. *)
Definition one (r : ChatRole) : ChatMessage := mkMessage r "ok" [] EmptyString.
Definition encodeOnes (msgs : list ChatMessage) : list Z := take 1000 (map (fun _ => 7%Z) msgs).
Definition talk (n : nat) : list ChatMessage := one System :: repeat (one Assistant) n ++ [one User; one Tool].

Lemma prompt_trim_exact_witness :
  exists k t, applyPromptTrim encodeOnes (talk 8) (encodeOnes (talk 8)) 100 15 9 emptyReport EmptyString = Some t /\
    k = 1 /\ messages t = talk 7 /\ accepted t = true /\ maxNew t = 1%N /\ contextExtrapolatedBy (report t) = 1%N.
Proof.
  destruct (prompt_trim_exact encodeOnes) with
    (msgs := talk 8) (ids := encodeOnes (talk 8)) (maxNewTokens := 100%N) (c := 15%N) (native := 9%N)
    as (k & t & Ht & _ & _ & _ & _ & Hk & _); [|vm_compute; reflexivity..|].
  { intros msgs. unfold encodeOnes, size. rewrite length_take. change (2 ^ 62)%N with 4611686018427387904%N. lia. }
  exists k, t. split; [exact Ht|]. revert Ht. vm_compute. intros [= <-]. cbn in Hk. split_and!; [lia|done..].
Defined.

(** Twenty rounds can be too few: the estimate of sixteen tokens and more for a message
    that renders to two stops each round early, and the request is refused although
    dropping the rest would have made it fit. *)
Definition encodeTwos (msgs : list ChatMessage) : list Z := msgs ≫= fun _ => [1; 2]%Z.

Example rounds_run_out : exists t,
  applyPromptTrim encodeTwos (repeat (one Assistant) 300 ++ [one User]) (encodeTwos (repeat (one Assistant) 300 ++ [one User]))
    16 20 0 emptyReport EmptyString = Some t /\ accepted t = false /\ 0 < droppable (messages t) /\
  fits 20 (encodeTwos (dropOldest (droppable (messages t)) (messages t))).
Proof. eexists. split; [vm_compute; reflexivity|]. vm_compute. repeat split; lia || done. Qed.

End PromptTrimmer.
