(* ===== verification/Thermal.v ===== *)
(** * Thermal control

    Models [src/src/runtime/thermal/]: [GpuClockGovernor] (the cap on the GPU clock
    follows the package temperature) and [FanController], over sysfs.  The kernel is a
    parameter: what a file holds and whether it opens for writing may depend on
    everything done before, so a cap that is written need not be read back.  Every
    access is recorded, and the theorems speak of what was written.  The governor's
    trace file of ticks is left out. *)

From Stdlib Require Import Ascii SpecFloat.
From stdpp Require Import pretty.
From S2P Require Import Prelude Sampling Floats.

Module Sysfs.

(** What the process did with files so far, the latest last. *)
Inductive Access :=
  | Read (path : string)
  | Asked (path : string)
  | Refused (path : string)
  | Write (path value : string).

#[global] Instance Access_eq_dec : EqDecision Access.
Proof. solve_decision. Defined.

(** The kernel: the text of a file that opens for reading, and the answers to opening
    for writing and to [access(W_OK)]. *)
Class Kernel := {
  contents : list Access -> string -> option string;
  opens : list Access -> string -> bool;
  accessible : list Access -> string -> bool;
}.

Definition IO (A : Type) : Type := list Access -> A * list Access.
Definition ret {A} (a : A) : IO A := fun h => (a, h).
Definition bind {A B} (m : IO A) (f : A -> IO B) : IO B := fun h => let '(a, h) := m h in f a h.
Notation "'io!' x := m 'in' k" := (bind m (fun x => k))
  (at level 10, x name, m at level 100, k at level 200).

Section sysfs.
Context `{Kernel}.

Definition readFile (path : string) : IO (option string) := fun h => (contents h path, h ++ [Read path]).

Definition openWrite (path value : string) : IO bool := fun h =>
  if opens h path then (true, h ++ [Write path value]) else (false, h ++ [Refused path]).

(** ** [operator>>] of integers *)

Definition isSpace (c : ascii) : bool := let n := nat_of_ascii c in (n =? 32) || (9 <=? n) && (n <=? 13).
Definition digit (c : ascii) : option N :=
  let n := nat_of_ascii c in if (48 <=? n) && (n <=? 57) then Some (N.of_nat (n - 48)) else None.

Fixpoint skipSpace (s : string) : string :=
  match s with String c s' => if isSpace c then skipSpace s' else s | EmptyString => s end.

Fixpoint decimal (acc : option N) (s : string) : option N :=
  match s with
  | String c s' => match digit c with Some d => decimal (Some (10 * default 0 acc + d)%N) s' | None => acc end
  | EmptyString => acc
  end.

(** Sign and magnitude; [None] without digits. *)
Definition number (s : string) : option (bool * N) :=
  match s with
  | String c s' =>
      if Ascii.eqb c "-" then (fun n => (true, n)) <$> decimal None s'
      else if Ascii.eqb c "+" then (fun n => (false, n)) <$> decimal None s'
      else (fun n => (false, n)) <$> decimal None s
  | EmptyString => None
  end.

(** The value of the variable after the extraction: itself at the end of the text, zero
    where no number starts, the nearest bound out of range. *)
Definition extractU32 (v : N) (s : string) : N :=
  match skipSpace s with
  | EmptyString => v
  | s => match number s with
         | None => 0
         | Some (neg, n) => if (n <? 2 ^ 32)%N then (if neg then u32 (2 ^ 32 - n) else n) else (2 ^ 32 - 1)%N
         end
  end.

Definition extractS32 (v : Z) (s : string) : Z :=
  match skipSpace s with
  | EmptyString => v
  | s => match number s with
         | None => 0
         | Some (neg, n) => let z := if neg then (- Z.of_N n)%Z else Z.of_N n in
                            Z.max (- 2 ^ 31) (Z.min (2 ^ 31 - 1) z)
         end
  end.

(** The same in both controllers.
    [src/src/runtime/thermal/GpuClockGovernor.cpp:20-23 fileExists] *)
Definition fileExists (path : string) : IO bool := io! c := readFile path in ret (bool_decide (is_Some c)).
End sysfs.
End Sysfs.
Import Sysfs.

Module GpuClockGovernor.
Import Floats Sampling.
Section governor.
Context `{Kernel}.

(** [src/src/runtime/thermal/GpuClockGovernor.cpp:25-38 writeFreq] *)
Definition writeFreq (path : string) (mhz : N) : IO bool := openWrite path (pretty mhz).

(** [src/src/runtime/thermal/GpuClockGovernor.cpp:62-70 GpuClockGovernor::readFreqFile] *)
Definition readFreqFile (path : string) : IO N :=
  io! c := readFile path in ret (match c with None => 0%N | Some s => extractU32 0 s end).

Definition kGainUpMhzPerC : f32 := f32_of_Z 10.
Definition kGainDownMhzPerC : f32 := f32_of_Z 100.
Definition kDeadbandC : f32 := fdiv f1 (f32_of_Z 2).
Definition kDefaultTargetTempC : f32 := f32_of_Z 72.
Definition kAdaptiveUpSlope : f32 := f32_of_Z 5.
Definition kAdaptiveUpMaxMhzPerC : f32 := f32_of_Z 100.
Definition kOvershootLatchC : f32 := f32_of_Z 1.
Definition kOvershootReleaseC : f32 := f32_of_Z 3.

(** [src/src/runtime/thermal/GpuClockGovernor.hpp:182-201 GpuClockGovernor] *)
Record GpuClockGovernor := mkGovernor {
  _cardPath : string;
  _unavailableReason : string;
  _rp0Mhz : N;
  _rpnMhz : N;
  _currentCap : N;
  _targetTempC : f32;
  _available : bool;
  _adaptiveUp : bool;
  _overshootLatched : bool;
  _pinned : bool;
  _pinnedMhz : N;
  _pinIntent : string;
  _pinRawEnv : string;
}.

Definition setCap (cap : N) (g : GpuClockGovernor) : GpuClockGovernor :=
  mkGovernor (_cardPath g) (_unavailableReason g) (_rp0Mhz g) (_rpnMhz g) cap (_targetTempC g) (_available g)
    (_adaptiveUp g) (_overshootLatched g) (_pinned g) (_pinnedMhz g) (_pinIntent g) (_pinRawEnv g).
Definition setLatch (l : bool) (g : GpuClockGovernor) : GpuClockGovernor :=
  mkGovernor (_cardPath g) (_unavailableReason g) (_rp0Mhz g) (_rpnMhz g) (_currentCap g) (_targetTempC g)
    (_available g) (_adaptiveUp g) l (_pinned g) (_pinnedMhz g) (_pinIntent g) (_pinRawEnv g).

(** [src/src/runtime/thermal/GpuClockGovernor.hpp:72-72 GpuClockGovernor::setTargetTempC] *)
Definition setTargetTempC (c : f32) (g : GpuClockGovernor) : GpuClockGovernor :=
  mkGovernor (_cardPath g) (_unavailableReason g) (_rp0Mhz g) (_rpnMhz g) (_currentCap g) c (_available g)
    (_adaptiveUp g) (_overshootLatched g) (_pinned g) (_pinnedMhz g) (_pinIntent g) (_pinRawEnv g).

Definition maxPath (base : string) : string := base +:+ "/gt_max_freq_mhz".

(** One card: its limits and the cap read back, if it will do.
    [src/src/runtime/thermal/GpuClockGovernor.cpp:78-106 GpuClockGovernor::probe] *)
Definition probeCard (base : string) : IO (option (N * N * N)) :=
  io! e1 := fileExists (maxPath base) in
  if negb e1 then ret None else
  io! e2 := fileExists (base +:+ "/gt_RP0_freq_mhz") in
  if negb e2 then ret None else
  io! e3 := fileExists (base +:+ "/gt_RPn_freq_mhz") in
  if negb e3 then ret None else
  io! rp0 := readFreqFile (base +:+ "/gt_RP0_freq_mhz") in
  io! rpn := readFreqFile (base +:+ "/gt_RPn_freq_mhz") in
  io! cur := readFreqFile (maxPath base) in
  if (rp0 =? 0)%N || (rpn =? 0)%N || (cur =? 0)%N then ret None else
  io! writable := writeFreq (maxPath base) cur in
  if negb writable then ret None else
  io! verified := readFreqFile (maxPath base) in
  if (verified =? 0)%N then ret None else ret (Some (rp0, rpn, verified)).

(** Cards [i] to 15.
    [src/src/runtime/thermal/GpuClockGovernor.cpp:72-119 GpuClockGovernor::probe] *)
Fixpoint probe (sysfsRoot : string) (cards : list nat) (g : GpuClockGovernor) : IO GpuClockGovernor :=
  match cards with
  | [] => ret (mkGovernor (_cardPath g)
      "no /sys/class/drm/card* found with writable gt_max_freq_mhz — check LXC + Docker mount config (see doc/setup-ct.md)"
      (_rp0Mhz g) (_rpnMhz g) (_currentCap g) (_targetTempC g) (_available g) (_adaptiveUp g) (_overshootLatched g)
      (_pinned g) (_pinnedMhz g) (_pinIntent g) (_pinRawEnv g))
  | i :: cards =>
      let base := sysfsRoot +:+ "/card" +:+ pretty (N.of_nat i) in
      io! card := probeCard base in
      match card with
      | None => probe sysfsRoot cards g
      | Some (rp0, rpn, verified) =>
          ret (mkGovernor base (_unavailableReason g) rp0 rpn verified (_targetTempC g) true (_adaptiveUp g)
            (_overshootLatched g) (_pinned g) (_pinnedMhz g) (_pinIntent g) (_pinRawEnv g))
      end
  end.

(** [env] is [MIMIRMIND_GOVERNOR_ADAPTIVE_UP].
    [src/src/runtime/thermal/GpuClockGovernor.cpp:42-53 GpuClockGovernor::GpuClockGovernor] *)
Definition create (env : option string) (sysfsRoot : string) : IO GpuClockGovernor :=
  let off := match env with Some v => bool_decide (v ∈ ["off"; "0"; "false"; "no"]) | None => false end in
  probe sysfsRoot (seq 0 16)
    (mkGovernor EmptyString EmptyString 0 0 0 kDefaultTargetTempC false (negb off) false false 0 EmptyString EmptyString).

(** [src/src/runtime/thermal/GpuClockGovernor.cpp:55-60 GpuClockGovernor::~GpuClockGovernor] *)
Definition destroy (g : GpuClockGovernor) : IO unit :=
  if _available g then io! _ := writeFreq (maxPath (_cardPath g)) (_rp0Mhz g) in ret tt else ret tt.

(** [std::clamp], whose bounds must be in order. *)
Definition clamp (v lo hi : Z) : Z := if (v <? lo)%Z then lo else if (hi <? v)%Z then hi else v.

(** [src/src/runtime/thermal/GpuClockGovernor.cpp:121-129 GpuClockGovernor::setMaxFreqMhz] *)
Definition setMaxFreqMhz (mhz : N) (g : GpuClockGovernor) : IO (N * GpuClockGovernor) :=
  if negb (_available g) then ret (0%N, g)
  else
    let mhz := Z.to_N (clamp (Z.of_N mhz) (Z.of_N (_rpnMhz g)) (Z.of_N (_rp0Mhz g))) in
    io! _ := writeFreq (maxPath (_cardPath g)) mhz in
    io! cap := readFreqFile (maxPath (_cardPath g)) in
    ret (cap, setCap cap g).

(** [src/src/runtime/thermal/GpuClockGovernor.cpp:131-139 GpuClockGovernor::pin] *)
Definition pin (mhz : N) (intent rawEnv : string) (g : GpuClockGovernor) : IO (N * GpuClockGovernor) :=
  io! r := setMaxFreqMhz mhz g in
  let '(cap, g) := r in
  ret (cap, mkGovernor (_cardPath g) (_unavailableReason g) (_rp0Mhz g) (_rpnMhz g) (_currentCap g) (_targetTempC g)
    (_available g) (_adaptiveUp g) (_overshootLatched g) true cap intent rawEnv).

Definition fclamp (v lo hi : f32) : f32 := if flt v lo then lo else if flt hi v then hi else v.

(** [src/src/runtime/thermal/GpuClockGovernor.cpp:141-147 GpuClockGovernor::adaptiveUpGainMhzPerC] *)
Definition adaptiveUpGainMhzPerC (headroomC : f32) : f32 :=
  let headroomC := if flt headroomC f0 then f0 else headroomC in
  fclamp (fmul headroomC kAdaptiveUpSlope) kGainUpMhzPerC kAdaptiveUpMaxMhzPerC.

(** The overshoot watchdog.
    [src/src/runtime/thermal/GpuClockGovernor.cpp:155-165 GpuClockGovernor::adjustForTemp] *)
Definition watchdog (error : f32) (latched : bool) : bool :=
  if flt kOvershootLatchC error then true else if flt error (SFopp kOvershootReleaseC) then false else latched.

(** [src/src/runtime/thermal/GpuClockGovernor.cpp:172-182 GpuClockGovernor::adjustForTemp] *)
Definition gainFor (error : f32) (g : GpuClockGovernor) : f32 :=
  if flt f0 error then kGainDownMhzPerC
  else if _adaptiveUp g && negb (_overshootLatched g) then adaptiveUpGainMhzPerC (SFopp error)
  else kGainUpMhzPerC.

(** No answer where the conversion of the change to an integer is undefined.
    [src/src/runtime/thermal/GpuClockGovernor.cpp:149-191 GpuClockGovernor::adjustForTemp] *)
Definition adjustForTemp (current_temp_c : f32) (g : GpuClockGovernor) : option (IO (N * GpuClockGovernor)) :=
  if negb (_available g) then Some (ret (0%N, g))
  else
    let error := fsub current_temp_c (_targetTempC g) in
    let g := setLatch (watchdog error (_overshootLatched g)) g in
    if SFleb (SFopp kDeadbandC) error && SFleb error kDeadbandC then Some (ret (_currentCap g, g))
    else
      delta ← truncate (fmul (SFopp error) (gainFor error g));
      let target := (Z.of_N (_currentCap g) + delta)%Z in
      let clamped := u32_of_Z (clamp target (Z.of_N (_rpnMhz g)) (Z.of_N (_rp0Mhz g))) in
      Some (setMaxFreqMhz clamped g).

(** Without the trace file; [reading] is the monitor's package temperature.
    [src/src/runtime/thermal/GpuClockGovernor.cpp:193-203 GpuClockGovernor::tick] *)
Definition tick (reading : option f32) (g : GpuClockGovernor) : option (IO (N * GpuClockGovernor)) :=
  if negb (_available g) then Some (ret (0%N, g))
  else match reading with
       | None => Some (ret (_currentCap g, g))
       | Some temp => adjustForTemp temp g
       end.

(** The calls a client can make. *)
Inductive Call :=
  | SetTarget (c : f32)
  | SetMax (mhz : N)
  | Pin (mhz : N) (intent rawEnv : string)
  | Tick (reading : option f32).

Definition call (c : Call) (g : GpuClockGovernor) : option (IO GpuClockGovernor) :=
  match c with
  | SetTarget t => Some (ret (setTargetTempC t g))
  | SetMax mhz => Some (io! r := setMaxFreqMhz mhz g in ret (snd r))
  | Pin mhz intent raw => Some (io! r := pin mhz intent raw g in ret (snd r))
  | Tick reading => (fun m => io! r := m in ret (snd r)) <$> tick reading g
  end.

Fixpoint calls (cs : list Call) (g : GpuClockGovernor) (h : list Access) : option (GpuClockGovernor * list Access) :=
  match cs with
  | [] => Some (g, h)
  | c :: cs => m ← call c g; let '(g, h) := (m : IO GpuClockGovernor) h in calls cs g h
  end.
End governor.
End GpuClockGovernor.

Module FanController.
Section fan.
Context `{Kernel}.

(** [src/src/runtime/thermal/FanController.cpp:20-22 isWritable] *)
Definition isWritable (path : string) : IO bool := fun h => (accessible h path, h ++ [Asked path]).

(** [src/src/runtime/thermal/FanController.cpp:27-35 readIntFile] *)
Definition readIntFile (path : string) : IO Z :=
  io! c := readFile path in ret (match c with None => (-1)%Z | Some s => extractS32 (-1) s end).

(** [std::getline]. *)
Fixpoint firstLine (s : string) : string :=
  match s with
  | EmptyString => EmptyString
  | String c s => if nat_of_ascii c =? 10 then EmptyString else String c (firstLine s)
  end.

(** The back of [s] without newlines, blanks and returns. *)
Fixpoint trimBack (s : string) : string :=
  match s with
  | EmptyString => EmptyString
  | String c s =>
      match trimBack s with
      | EmptyString => let n := nat_of_ascii c in
                       if (n =? 10) || (n =? 32) || (n =? 13) then EmptyString else String c EmptyString
      | s => String c s
      end
  end.

(** [src/src/runtime/thermal/FanController.cpp:37-48 readTrimmed] *)
Definition readTrimmed (path : string) : IO string :=
  io! c := readFile path in ret (match c with None => EmptyString | Some s => trimBack (firstLine s) end).

Definition showZ (z : Z) : string := if (z <? 0)%Z then "-" +:+ pretty (Z.to_N (- z)) else pretty (Z.to_N z).

(** [src/src/runtime/thermal/FanController.cpp:53-61 writeInt] *)
Definition writeInt (path : string) (value : Z) : IO bool := openWrite path (showZ value).

Definition kAbsoluteMinPwm : N := 32.
Definition kDefaultMinSafePwm : N := 64.
Definition kDefaultBoostPwm : N := 255.

(** [src/src/runtime/thermal/FanController.hpp:129-144 FanController] *)
Record FanController := mkFan {
  _chipPath : string;
  _chipName : string;
  _pwmPath : string;
  _pwmEnablePath : string;
  _fanInputPath : string;
  _unavailableReason : string;
  _originalPwm : N;
  _originalEnableMode : Z;
  _boostPwm : N;
  _minSafePwm : N;
  _available : bool;
  _boostActive : bool;
}.

Definition newFan : FanController :=
  mkFan EmptyString EmptyString EmptyString EmptyString EmptyString EmptyString 0 (-1)
    kDefaultBoostPwm kDefaultMinSafePwm false false.

Definition withLimits (boost minSafe : N) (f : FanController) : FanController :=
  mkFan (_chipPath f) (_chipName f) (_pwmPath f) (_pwmEnablePath f) (_fanInputPath f) (_unavailableReason f)
    (_originalPwm f) (_originalEnableMode f) boost minSafe (_available f) (_boostActive f).
Definition withActive (b : bool) (f : FanController) : FanController :=
  mkFan (_chipPath f) (_chipName f) (_pwmPath f) (_pwmEnablePath f) (_fanInputPath f) (_unavailableReason f)
    (_originalPwm f) (_originalEnableMode f) (_boostPwm f) (_minSafePwm f) (_available f) b.

(** The first sensor that turns, else the last that exists.
    [src/src/runtime/thermal/FanController.cpp:107-117 FanController::probe] *)
Fixpoint findFan (base : string) (fs : list nat) (candidate : option string) : IO (option string) :=
  match fs with
  | [] => ret candidate
  | f :: fs =>
      let p := base +:+ "/fan" +:+ pretty (N.of_nat f) +:+ "_input" in
      io! e := fileExists p in
      if negb e then findFan base fs candidate else
      io! rpm := readIntFile p in
      if (0 <? rpm)%Z then ret (Some p) else findFan base fs (Some p)
  end.

(** [src/src/runtime/thermal/FanController.cpp:122-135 FanController::probe] *)
Fixpoint findPwm (base : string) (ps : list nat) : IO (option (string * string)) :=
  match ps with
  | [] => ret None
  | p :: ps =>
      let pwm := base +:+ "/pwm" +:+ pretty (N.of_nat p) in
      let pwmEnable := pwm +:+ "_enable" in
      io! e1 := fileExists pwm in
      if negb e1 then findPwm base ps else
      io! e2 := fileExists pwmEnable in
      if negb e2 then findPwm base ps else
      io! w1 := isWritable pwm in
      if negb w1 then findPwm base ps else
      io! w2 := isWritable pwmEnable in
      if negb w2 then findPwm base ps else ret (Some (pwm, pwmEnable))
  end.

(** One chip.
    [src/src/runtime/thermal/FanController.cpp:88-155 FanController::probe] *)
Definition probeChip (base : string) : IO (option FanController) :=
  io! e := fileExists (base +:+ "/name") in
  if negb e then ret None else
  io! chipName := readTrimmed (base +:+ "/name") in
  if String.eqb chipName EmptyString then ret None else
  io! fan := findFan base (seq 1 8) None in
  match fan with
  | None => ret None
  | Some fanInput =>
      io! pair := findPwm base (seq 1 8) in
      match pair with
      | None => ret None
      | Some (pwm, pwmEnable) =>
          io! origPwm := readIntFile pwm in
          io! origEnable := readIntFile pwmEnable in
          if (origPwm <? 0)%Z || (255 <? origPwm)%Z || (origEnable <? 0)%Z then ret None
          else ret (Some (mkFan base chipName pwm pwmEnable fanInput EmptyString (Z.to_N origPwm) origEnable
                            kDefaultBoostPwm kDefaultMinSafePwm true false))
      end
  end.

(** [src/src/runtime/thermal/FanController.cpp:83-162 FanController::probe] *)
Fixpoint probe (sysfsRoot : string) (chips : list nat) : IO FanController :=
  match chips with
  | [] => ret (mkFan EmptyString EmptyString EmptyString EmptyString EmptyString
      "no /sys/class/hwmon/hwmon* found with fan_input + writable pwm/pwm_enable — check container caps (SYS_ADMIN or rw bind mount on /sys/class/hwmon), and BIOS fan mode (must permit software override)"
      0 (-1) kDefaultBoostPwm kDefaultMinSafePwm false false)
  | i :: chips =>
      io! chip := probeChip (sysfsRoot +:+ "/hwmon" +:+ pretty (N.of_nat i)) in
      match chip with Some f => ret f | None => probe sysfsRoot chips end
  end.

(** [src/src/runtime/thermal/FanController.cpp:65-67 FanController::FanController] *)
Definition create (sysfsRoot : string) : IO FanController := probe sysfsRoot (seq 0 16).

(** [src/src/runtime/thermal/FanController.cpp:69-81 FanController::~FanController] *)
Definition destroy (f : FanController) : IO unit :=
  if negb (_available f) then ret tt else
  io! _ := (if negb (String.eqb (_pwmPath f) EmptyString) && (0 <? _originalPwm f)%N
            then writeInt (_pwmPath f) (Z.of_N (_originalPwm f)) else ret false) in
  io! _ := (if negb (String.eqb (_pwmEnablePath f) EmptyString) && (0 <=? _originalEnableMode f)%Z
            then writeInt (_pwmEnablePath f) (_originalEnableMode f) else ret false) in
  ret tt.

(** [src/src/runtime/thermal/FanController.cpp:164-169 FanController::currentPwm] *)
Definition currentPwm (f : FanController) : IO N :=
  if negb (_available f) then ret 0%N else
  io! v := readIntFile (_pwmPath f) in
  ret (if (v <? 0)%Z || (255 <? v)%Z then 0%N else Z.to_N v).

(** [src/src/runtime/thermal/FanController.cpp:171-175 FanController::currentFanRpm] *)
Definition currentFanRpm (f : FanController) : IO N :=
  if negb (_available f) then ret 0%N else
  io! v := readIntFile (_fanInputPath f) in ret (if (v <=? 0)%Z then 0%N else Z.to_N v).

(** [src/src/runtime/thermal/FanController.cpp:177-180 FanController::currentEnableMode] *)
Definition currentEnableMode (f : FanController) : IO Z :=
  if negb (_available f) then ret (-1)%Z else readIntFile (_pwmEnablePath f).

(** [src/src/runtime/thermal/FanController.cpp:182-184 FanController::setBoostPwm] *)
Definition setBoostPwm (v : N) (f : FanController) : FanController :=
  withLimits (N.max v kAbsoluteMinPwm) (_minSafePwm f) f.

(** [src/src/runtime/thermal/FanController.cpp:186-188 FanController::setMinSafePwm] *)
Definition setMinSafePwm (v : N) (f : FanController) : FanController :=
  withLimits (_boostPwm f) (if (v <? kAbsoluteMinPwm)%N then kAbsoluteMinPwm else if (200 <? v)%N then 200%N else v) f.

(** [src/src/runtime/thermal/FanController.cpp:190-200 FanController::boost] *)
Definition boost (f : FanController) : IO (N * FanController) :=
  if negb (_available f) then ret (0%N, f) else
  io! _ := writeInt (_pwmEnablePath f) 1 in
  io! _ := writeInt (_pwmPath f) (Z.of_N (_boostPwm f)) in
  let f := withActive true f in
  io! v := currentPwm f in ret (v, f).

(** [src/src/runtime/thermal/FanController.cpp:202-208 FanController::releaseToAuto] *)
Definition releaseToAuto (f : FanController) : IO FanController :=
  if negb (_available f) then ret f else
  io! _ := writeInt (_pwmEnablePath f) (_originalEnableMode f) in ret (withActive false f).

(** [src/src/runtime/thermal/FanController.cpp:221-230 FanController::setPwmRaw] *)
Definition setPwmRaw (value : N) (f : FanController) : IO (N * FanController) :=
  if negb (_available f) then ret (0%N, f) else
  let clamped := N.max value (_minSafePwm f) in
  io! _ := writeInt (_pwmEnablePath f) 1 in
  io! _ := writeInt (_pwmPath f) (Z.of_N clamped) in
  let f := withActive (_boostPwm f <=? clamped)%N f in
  io! v := currentPwm f in ret (v, f).

(** The raw value of a percentage.
    [src/src/runtime/thermal/FanController.cpp:214-218 FanController::setPwmPercent] *)
Definition rawOf (percent : N) : N := u8 (wrapU 16 (u32 (u32 (N.min percent 100 * 255) + 50) / 100)).

(** [src/src/runtime/thermal/FanController.cpp:210-219 FanController::setPwmPercent] *)
Definition setPwmPercent (percent : N) (f : FanController) : IO (N * FanController) :=
  if negb (_available f) then ret (0%N, f) else setPwmRaw (rawOf percent) f.

(** The calls of a client; the arguments are bytes. *)
Inductive Call :=
  | SetBoost (v : N)
  | SetMinSafe (v : N)
  | Boost
  | Release
  | Percent (p : N)
  | Raw (v : N).

Definition call (c : Call) (f : FanController) : IO FanController :=
  match c with
  | SetBoost v => ret (setBoostPwm v f)
  | SetMinSafe v => ret (setMinSafePwm v f)
  | Boost => io! r := boost f in ret (snd r)
  | Release => releaseToAuto f
  | Percent p => io! r := setPwmPercent p f in ret (snd r)
  | Raw v => io! r := setPwmRaw v f in ret (snd r)
  end.

Fixpoint calls (cs : list Call) (f : FanController) : IO FanController :=
  match cs with [] => ret f | c :: cs => io! f := call c f in calls cs f end.
End fan.
End FanController.
