(* ===== verification/ThermalProofs.v ===== *)
(** * Thermal control: theorems

    The governor's step on any temperature, what it may write while it looks for a card
    and along any history of calls, and the same for the fan with its floor. *)

From Stdlib Require Import SpecFloat.
From stdpp Require Import pretty.
From S2P Require Import Prelude Sampling Floats FloatRound Thermal.
Import Sysfs.

Module Degrees.
Import Sampling.
Open Scope Z_scope.

Abbreviation fin := (FloatRound.fin 24 128).
Abbreviation val := (FloatRound.val 24 128).
Abbreviation R := (FloatRound.R 24).

(** One degree, or one megahertz, as the value of a float. *)
Definition deg : Z := 2 ^ 149.

(** A temperature of at most half a million degrees. *)
Definition sane (t : f32) : Prop := fin t = true /\ Z.abs (val t) <= 2 ^ 19 * deg.

Lemma deg_pos : 0 < deg.
Proof. vm_compute. reflexivity. Qed.

(** Rounding keeps a bound that is itself a float. *)
Lemma rounded_le z b : R b = b -> z <= b -> R z <= b.
Proof. intros Hb H. rewrite <- Hb. by apply FloatRound.R_mono. Qed.

Lemma rounded_ge z b : R b = b -> b <= z -> b <= R z.
Proof. intros Hb H. rewrite <- Hb at 1. by apply FloatRound.R_mono. Qed.

Lemma rounded_opp z : R (- z) = - R z.
Proof. by apply FloatRound.R_opp. Qed.

(** Conversion to an integer drops the fraction. *)
Lemma truncate_value x : fin x = true -> Z.abs (val x) < 2 ^ 31 * deg ->
  Floats.truncate x = Some (Z.quot (val x) deg).
Proof.
  destruct x as [s|s| |s m e]; try done; intros Hx Hv.
  destruct (FloatRound.bounded_stored 24 128 ltac:(lia) m e Hx) as (He & _).
  change (SpecFloat.emin 24 128) with (-149) in *. cbn [val FloatRound.val] in *.
  change (SpecFloat.emin 24 128) with (-149) in *. replace (e - -149) with (e + 149) in * by lia.
  assert (Hmag : Floats.magnitude m e = Zpos m * 2 ^ (e + 149) / deg).
  { unfold Floats.magnitude, deg. destruct (Z.leb_spec 0 e).
    - rewrite Z.pow_add_r, Z.mul_assoc by lia. by rewrite Z.div_mul.
    - assert (Hd : 2 ^ 149 = 2 ^ (e + 149) * 2 ^ (- e)) by (rewrite <- Z.pow_add_r by lia; f_equal; lia).
      rewrite Hd, (Z.mul_comm (Zpos m)), Z.div_mul_cancel_l; [done|apply Z.pow_nonzero; lia..]. }
  assert (Hq : Z.quot (cond_Zopp s (Zpos m * 2 ^ (e + 149))) deg = if s then - Floats.magnitude m e else Floats.magnitude m e).
  { rewrite Hmag. pose proof deg_pos. pose proof (FloatRound.pow2_pos (e + 149) ltac:(lia)).
    destruct s; cbn [cond_Zopp]; [rewrite Z.quot_opp_l by lia; f_equal|]; apply Z.quot_div_nonneg; lia. }
  unfold Floats.truncate. rewrite Hq. cbv zeta.
  assert (Hlt : Floats.magnitude m e < 2 ^ 31).
  { rewrite Hmag. apply Z.div_lt_upper_bound; [apply deg_pos|]. destruct s; cbn [cond_Zopp] in Hv; lia. }
  assert (0 <= Floats.magnitude m e).
  { rewrite Hmag. apply Z.div_pos; [|apply deg_pos]. pose proof (FloatRound.pow2_pos (e + 149) ltac:(lia)). lia. }
  rewrite (proj2 (Z.leb_le _ _)), (proj2 (Z.ltb_lt _ _)); [done|destruct s; lia..].
Qed.

(** The difference of two temperatures. *)
Lemma fsub_sane x y : sane x -> sane y ->
  fin (fsub x y) = true /\ val (fsub x y) = R (val x - val y) /\ Z.abs (val (fsub x y)) <= 2 ^ 20 * deg.
Proof.
  intros [Hx Hvx] [Hy Hvy]. pose proof deg_pos.
  assert (Hr : Z.abs (R (val x - val y)) <= 2 ^ 20 * deg).
  { pose proof (rounded_le (val x - val y) (2 ^ 20 * deg) ltac:(vm_compute; reflexivity) ltac:(lia)).
    pose proof (rounded_ge (val x - val y) (- (2 ^ 20 * deg)) ltac:(vm_compute; reflexivity) ltac:(lia)). lia. }
  assert (Ht : 2 ^ 20 * deg < FloatRound.top 24 128) by (vm_compute; reflexivity).
  destruct (FloatRound.sub_value 24 128 ltac:(lia) ltac:(lia) x y Hx Hy ltac:(lia)) as [Hf Hv].
  unfold fsub. rewrite Hv. done.
Qed.

(** A product with a gain between ten and a hundred. *)
Lemma gain_product x g : fin x = true -> fin g = true -> deg <= 2 * Z.abs (val x) -> Z.abs (val x) <= 2 ^ 20 * deg ->
  10 * deg <= val g <= 100 * deg ->
  exists N, N * deg = val x * val g /\ fin (fmul x g) = true /\ val (fmul x g) = R N /\
    Z.abs (R N) < 2 ^ 31 * deg.
Proof.
  intros Hx Hg Hh Hb Hgb. pose proof deg_pos.
  destruct (FloatRound.mul_value 24 128 ltac:(lia) ltac:(lia) x g ltac:(done) Hx Hg) as (N & HN & Hmul).
  { exact Hh. } { change (FloatRound.unity 24 128) with deg. lia. }
  change (FloatRound.unity 24 128) with deg in HN. exists N. split; [done|].
  assert (HNb : Z.abs N <= 2 ^ 27 * deg) by nia.
  pose proof (rounded_le N (2 ^ 27 * deg) ltac:(vm_compute; reflexivity) ltac:(lia)).
  pose proof (rounded_ge N (- (2 ^ 27 * deg)) ltac:(vm_compute; reflexivity) ltac:(lia)).
  assert (Ht : 2 ^ 27 * deg < FloatRound.top 24 128) by (vm_compute; reflexivity).
  destruct Hmul as [Hf Hv]; [lia|]. split; [done|]. split; [done|]. lia.
Qed.
Close Scope Z_scope.
End Degrees.
Import Degrees.

Module GovernorProofs.
Import Sampling GpuClockGovernor.
Open Scope Z_scope.

(** ** The step *)

Lemma constants :
  (fin kDeadbandC = true /\ 2 * val kDeadbandC = deg) /\
  (fin kGainUpMhzPerC = true /\ val kGainUpMhzPerC = 10 * deg) /\
  (fin kGainDownMhzPerC = true /\ val kGainDownMhzPerC = 100 * deg) /\
  (fin kAdaptiveUpSlope = true /\ val kAdaptiveUpSlope = 5 * deg) /\
  (fin kOvershootLatchC = true /\ val kOvershootLatchC = deg) /\
  (fin kOvershootReleaseC = true /\ val kOvershootReleaseC = 3 * deg) /\
  (fin f0 = true /\ val f0 = 0).
Proof. vm_compute. tauto. Qed.

(** The gain upwards is between the creep and the down-gain. *)
Lemma adaptive_range h : fin h = true -> deg < 2 * val h -> val h <= 2 ^ 20 * deg ->
  fin (adaptiveUpGainMhzPerC h) = true /\ 10 * deg <= val (adaptiveUpGainMhzPerC h) <= 100 * deg.
Proof.
  intros Hh Hlow Hhigh. destruct constants as (_ & [Fu Vu] & [Fd Vd] & [Fs Vs] & _ & _ & F0 & V0). pose proof deg_pos.
  unfold adaptiveUpGainMhzPerC, flt. rewrite (FloatRound.ltb_value 24 128) by done.
  rewrite V0, (proj2 (Z.ltb_ge _ _)) by lia. change kAdaptiveUpMaxMhzPerC with kGainDownMhzPerC.
  destruct (FloatRound.mul_value 24 128 ltac:(lia) ltac:(lia) h kAdaptiveUpSlope ltac:(done) Hh Fs) as (N & HN & Hmul).
  { change (FloatRound.unity 24 128) with deg. lia. } { change (FloatRound.unity 24 128) with deg. lia. }
  change (FloatRound.unity 24 128) with deg in HN. rewrite Vs in HN.
  assert (HN5 : N = 5 * val h) by nia. subst N.
  pose proof (rounded_le (5 * val h) (2 ^ 23 * deg) ltac:(vm_compute; reflexivity) ltac:(lia)).
  pose proof (rounded_ge (5 * val h) 0 ltac:(vm_compute; reflexivity) ltac:(lia)).
  assert (Ht : 2 ^ 23 * deg < FloatRound.top 24 128) by (vm_compute; reflexivity).
  destruct Hmul as [Hf Hv]; [lia|]. unfold fclamp, flt. fold (fmul h kAdaptiveUpSlope) in *.
  rewrite !(FloatRound.ltb_value 24 128) by done. rewrite Vu, Vd.
  destruct (Z.ltb_spec (val (fmul h kAdaptiveUpSlope)) (10 * deg)); [split; [done|lia]|].
  destruct (Z.ltb_spec (100 * deg) (val (fmul h kAdaptiveUpSlope))); [split; [done|lia]|]. split; [done|lia].
Qed.

(** The error of a reading, in degrees, as the code rounds it. *)
Definition errorOf (g : GpuClockGovernor) (t : f32) : Z := R (val t - val (_targetTempC g)).

(** The watchdog on that error: set above one degree, released three below. *)
Definition latchOf (E : Z) (latched : bool) : bool :=
  if deg <? E then true else if E <? - (3 * deg) then false else latched.

(** What the cap moves by. *)
Definition moves (adaptive latched : bool) (E delta : Z) : Prop :=
  (deg < 2 * E -> delta = - (R (100 * E) / deg) /\ delta <= -50) /\
  (2 * E < - deg -> 5 <= delta <= R (100 * - E) / deg /\
    (adaptive = false \/ latched = true -> delta = R (10 * - E) / deg) /\ (latched = true -> delta <= 30)).

Lemma quot_neg a : 0 <= a -> Z.quot (- a) deg = - (a / deg).
Proof. intros Ha. pose proof deg_pos. rewrite Z.quot_opp_l by lia. f_equal. apply Z.quot_div_nonneg; lia. Qed.

Lemma step_down E : deg < 2 * E -> - (R (100 * E) / deg) <= -50.
Proof.
  intros H. pose proof deg_pos. pose proof (rounded_ge (100 * E) (50 * deg) ltac:(vm_compute; reflexivity) ltac:(lia)).
  pose proof (Z.div_le_lower_bound (R (100 * E)) deg 50). lia.
Qed.

Lemma step_up N E : 2 * E < - deg -> 10 * - E <= N <= 100 * - E -> 5 <= R N / deg <= R (100 * - E) / deg.
Proof.
  intros H HN. pose proof deg_pos. pose proof (rounded_ge N (5 * deg) ltac:(vm_compute; reflexivity) ltac:(lia)).
  split; [apply Z.div_le_lower_bound; lia|]. apply Z.div_le_mono; [done|]. apply FloatRound.R_mono; lia.
Qed.

Lemma creep E : - (3 * deg) <= E -> R (10 * - E) / deg <= 30.
Proof.
  intros H. pose proof deg_pos. pose proof (rounded_le (10 * - E) (30 * deg) ltac:(vm_compute; reflexivity) ltac:(lia)).
  apply Z.div_le_upper_bound; lia.
Qed.

(** The change the controller computes outside the deadband. *)
Lemma delta_spec g error : fin error = true -> let E := val error in
  Z.abs E <= 2 ^ 20 * deg -> deg < 2 * Z.abs E -> (_overshootLatched g = true -> - (3 * deg) <= E) ->
  exists delta, Floats.truncate (fmul (SFopp error) (gainFor error g)) = Some delta /\
    moves (_adaptiveUp g) (_overshootLatched g) E delta /\ Z.abs delta < 2 ^ 31.
Proof.
  intros Hf E Hb Hout Hl. destruct constants as (_ & [Fu Vu] & [Fd Vd] & _ & _ & _ & F0 & V0).
  pose proof deg_pos. destruct (FloatRound.opp_value 24 128 error Hf) as [Fo Vo]. fold E in Vo.
  set (gain := gainFor error g).
  assert (Hg : fin gain = true /\ 10 * deg <= val gain <= 100 * deg /\ (deg < 2 * E -> val gain = 100 * deg) /\
    (2 * E < - deg -> _adaptiveUp g = false \/ _overshootLatched g = true -> val gain = 10 * deg)).
  { unfold gain, gainFor, flt. rewrite (FloatRound.ltb_value 24 128) by done. rewrite V0. fold E.
    destruct (Z.ltb_spec 0 E); [rewrite Vd; split_and!; [done|lia..]|].
    destruct (_adaptiveUp g && negb (_overshootLatched g)) eqn:Ea; [|rewrite Vu; split_and!; [done|lia..]].
    apply andb_prop in Ea as [Ea Eb]. apply negb_true_iff in Eb.
    destruct (adaptive_range (SFopp error) Fo) as [Ha1 Ha2]; [lia..|]. split_and!; [done|lia..|].
    intros _ [?|?]; congruence. }
  destruct Hg as (Fg & Rg & Hdown & Hup).
  destruct (gain_product (SFopp error) gain Fo Fg) as (N & HN & Fm & Vm & Bm); [lia..|].
  rewrite Vo in HN. exists (Z.quot (R N) deg). rewrite truncate_value, Vm by (rewrite ?Vm; done). split; [done|].
  assert (Hq : Z.abs (Z.quot (R N) deg) < 2 ^ 31).
  { rewrite <- Z.quot_abs, (Z.abs_eq deg), Z.quot_div_nonneg by lia. apply Z.div_lt_upper_bound; lia. }
  split; [|done]. split; intros HE.
  - assert (HN' : N = - (100 * E)) by (rewrite Hdown in HN by done; nia). rewrite HN', rounded_opp.
    pose proof (rounded_ge (100 * E) 0 ltac:(vm_compute; reflexivity) ltac:(lia)). rewrite quot_neg by done.
    split; [done|]. by apply step_down.
  - assert (HN' : 10 * - E <= N <= 100 * - E) by nia.
    pose proof (rounded_ge N 0 ltac:(vm_compute; reflexivity) ltac:(lia)). rewrite Z.quot_div_nonneg by lia.
    split; [by apply step_up|].
    assert (Hcreep : _adaptiveUp g = false \/ _overshootLatched g = true -> N = 10 * - E).
    { intros Hx. rewrite (Hup HE Hx) in HN. nia. }
    split; [intros Hx; by rewrite (Hcreep Hx)|]. intros Hx. rewrite Hcreep by tauto. apply creep, Hl, Hx.
Qed.

Section governor.
Context `{Kernel}.

Lemma clamp_spec v lo hi : lo <= hi -> clamp v lo hi = Z.max lo (Z.min hi v).
Proof. intros Hle. unfold clamp. destruct (Z.ltb_spec v lo), (Z.ltb_spec hi v); lia. Qed.

Lemma flags error : fin error = true -> let E := val error in
  (forall l, watchdog error l = latchOf E l) /\
  (SFleb (SFopp kDeadbandC) error && SFleb error kDeadbandC = (2 * Z.abs E <=? deg)).
Proof.
  intros Hf E. destruct constants as ([Fb Vb] & _ & _ & _ & [Fl Vl] & [Fr Vr] & _).
  destruct (FloatRound.opp_value 24 128 kDeadbandC Fb) as [Fob Vob].
  destruct (FloatRound.opp_value 24 128 kOvershootReleaseC Fr) as [For Vor]. split.
  - intros l. unfold watchdog, latchOf, flt. rewrite !(FloatRound.ltb_value 24 128) by done. by rewrite Vl, Vor, Vr.
  - rewrite !(FloatRound.leb_value 24 128) by done. rewrite Vob. fold E. apply eq_true_iff_eq.
    rewrite andb_true_iff, !Z.leb_le. lia.
Qed.

(** The clock asked for when the change is [delta]. *)
Definition asked (g : GpuClockGovernor) (delta : Z) : N :=
  Z.to_N (Z.max (Z.of_N (_rpnMhz g)) (Z.min (Z.of_N (_rp0Mhz g)) (Z.of_N (_currentCap g) + delta))).

Definition limited (g : GpuClockGovernor) : Prop := (_rpnMhz g <= _rp0Mhz g < 2 ^ 32)%N.

Lemma adjust_shape g t : _available g = true -> limited g -> sane t -> sane (_targetTempC g) ->
  let E := errorOf g t in
  let g' := setLatch (latchOf E (_overshootLatched g)) g in
  if 2 * Z.abs E <=? deg then adjustForTemp t g = Some (ret (_currentCap g, g'))
  else exists delta, moves (_adaptiveUp g) (_overshootLatched g') E delta /\
    adjustForTemp t g = Some (setMaxFreqMhz (asked g delta) g').
Proof.
  intros Ha Hl Ht Hg E g'. destruct (fsub_sane t (_targetTempC g) Ht Hg) as (Hf & Hv & Hb).
  fold (errorOf g t) in Hv. fold E in Hv. destruct (flags _ Hf) as [Hw Hband]. rewrite Hv in Hw, Hband, Hb.
  unfold adjustForTemp. rewrite Ha. cbn [negb]. cbv zeta. rewrite Hband, Hw. fold g'.
  destruct (Z.leb_spec (2 * Z.abs E) deg) as [Hin|Hout]; [done|].
  destruct (delta_spec g' (fsub t (_targetTempC g)) Hf) as (delta & -> & Hm & Hd).
  { by rewrite Hv. } { by rewrite Hv. }
  { rewrite Hv. cbn. unfold latchOf. pose proof deg_pos.
    destruct (Z.ltb_spec deg E), (Z.ltb_spec E (- (3 * deg))); lia || done. }
  exists delta. split; [by rewrite Hv in Hm|]. cbn [mbind option_bind]. unfold limited in Hl.
  f_equal. f_equal. cbn. unfold u32_of_Z, asked. rewrite clamp_spec by lia. f_equal. apply Z.mod_small. lia.
Qed.

(** C33: One controller step on any sane temperature, with the rounding of floats.  The
    watchdog latches above one degree over the target and releases three below.  Within
    half a degree nothing is touched.  Above, the cap goes down by the error times a
    hundred, at least 50 MHz; below, it goes up by 5 MHz at least and by the error times
    a hundred at most, ten while latched or without the adaptive gain, and never more
    than 30 MHz while latched.  What is asked of the kernel lies between the limits of
    the card, and the cap is what is read back. *)
Theorem adjust_controls g t h : _available g = true -> limited g -> sane t -> sane (_targetTempC g) ->
  let E := errorOf g t in
  let latched := latchOf E (_overshootLatched g) in
  exists m, adjustForTemp t g = Some m /\
    (2 * Z.abs E <= deg -> m h = ((_currentCap g, setLatch latched g), h)) /\
    (deg < 2 * Z.abs E -> exists delta, moves (_adaptiveUp g) latched E delta /\
       (_rpnMhz g <= asked g delta <= _rp0Mhz g)%N /\
       let '(_, h1) := writeFreq (maxPath (_cardPath g)) (asked g delta) h in
       let '(cap, h2) := readFreqFile (maxPath (_cardPath g)) h1 in
       m h = ((cap, setCap cap (setLatch latched g)), h2)).
Proof.
  intros Ha Hl Ht Hg E latched. pose proof (adjust_shape g t Ha Hl Ht Hg) as Hs. cbv zeta in Hs. fold E latched in Hs.
  destruct (Z.leb_spec (2 * Z.abs E) deg); [eexists; split; [exact Hs|]; split; [done|lia]|]. destruct Hs as (delta & Hm & ->).
  eexists. split; [done|]. split; [lia|]. intros _. exists delta. split; [done|]. unfold limited in Hl.
  assert (Hok : (_rpnMhz g <= asked g delta <= _rp0Mhz g)%N) by (unfold asked; lia). split; [done|].
  unfold setMaxFreqMhz. cbn [_available _rp0Mhz _rpnMhz _cardPath setLatch]. rewrite Ha. cbn [negb].
  rewrite clamp_spec, Z.min_r, Z.max_r, N2Z.id by lia.
  unfold bind, ret. destruct (writeFreq _ _ h) as [b h1]. by destruct (readFreqFile _ h1).
Qed.

(** ** Histories *)

Definition saneCall (c : Call) : Prop :=
  match c with SetTarget t | Tick (Some t) => sane t | _ => True end.

(** What may happen to files: the governor's own one is set within the limits. *)
Definition allowed (g : GpuClockGovernor) (a : Access) : Prop :=
  match a with
  | Write p v => p = maxPath (_cardPath g) /\
      exists n, v = pretty n /\ (_rpnMhz g <= n <= _rp0Mhz g)%N
  | _ => True
  end.

(** The card and its limits stay. *)
Definition same_card (g g' : GpuClockGovernor) : Prop :=
  _cardPath g' = _cardPath g /\ _rp0Mhz g' = _rp0Mhz g /\ _rpnMhz g' = _rpnMhz g /\ _available g' = _available g.

Definition ready (g : GpuClockGovernor) : Prop :=
  sane (_targetTempC g) /\ (_available g = true -> limited g).

Definition confined (g : GpuClockGovernor) (h : list Access) (r : GpuClockGovernor * list Access) : Prop :=
  same_card g r.1 /\ sane (_targetTempC r.1) /\
  exists l, r.2 = h ++ l /\ Forall (allowed g) l /\ (_available g = false -> l = []).

Lemma confined_refl g h g' : same_card g g' -> sane (_targetTempC g') -> confined g h (g', h).
Proof. intros Hs Ht. split; [done|]. split; [done|]. exists []. by rewrite app_nil_r. Qed.

Lemma setMax_confined n g h : ready g ->
  let '((_, g'), h') := setMaxFreqMhz n g h in confined g h (g', h').
Proof.
  intros [Hs Hr]. unfold setMaxFreqMhz. destruct (_available g) eqn:Ha; cbn [negb]; [|by apply confined_refl].
  specialize (Hr eq_refl). unfold bind, ret, writeFreq, openWrite, readFreqFile, readFile, limited in *.
  rewrite clamp_spec by lia. set (mhz := Z.to_N _).
  assert (Hok : (_rpnMhz g <= mhz <= _rp0Mhz g)%N) by lia.
  destruct (opens h (maxPath (_cardPath g))); cbn; (split; [done|]); (split; [done|]); eexists [_; _];
    rewrite <- app_assoc; (split; [done|]); (split; [|congruence]); (apply Forall_cons; split; [|by apply Forall_singleton]); cbn;
    [split; [done|by eexists]|done].
Qed.

Lemma tick_confined reading g h : ready g -> match reading with Some t => sane t | None => True end ->
  exists m, tick reading g = Some m /\ let '((_, g'), h') := m h in confined g h (g', h').
Proof.
  intros Hr Ht. unfold tick. destruct (_available g) eqn:Ha; cbn [negb];
    [|eexists; split; [done|]; apply confined_refl; [done|apply Hr]].
  destruct reading as [t|]; [|eexists; split; [done|]; apply confined_refl; [done|apply Hr]].
  pose proof (adjust_shape g t Ha (proj2 Hr Ha) Ht (proj1 Hr)) as Hs. cbv zeta in Hs.
  destruct (_ <=? _); [rewrite Hs; eexists; split; [done|]; apply confined_refl; [done|apply Hr]|].
  destruct Hs as (delta & _ & ->). eexists. split; [done|].
  by apply (setMax_confined _ (setLatch (latchOf (errorOf g t) (_overshootLatched g)) g)).
Qed.

Lemma call_confined c g h : ready g -> saneCall c -> exists m, call c g = Some m /\ confined g h (m h).
Proof.
  intros Hr Hc. destruct c as [t|n|n intent raw|reading]; cbn [call].
  - eexists. split; [done|]. by apply confined_refl.
  - eexists. split; [done|]. unfold bind, ret. pose proof (setMax_confined n g h Hr).
    by destruct (setMaxFreqMhz n g h) as [[? ?] ?].
  - eexists. split; [done|]. unfold pin, bind, ret. pose proof (setMax_confined n g h Hr) as Hx.
    by destruct (setMaxFreqMhz n g h) as [[? ?] ?].
  - destruct (tick_confined reading g h Hr) as (m & -> & Hm); [by destruct reading|]. eexists. split; [done|].
    unfold bind, ret. by destruct (m h) as [[? ?] ?].
Qed.

Lemma allowed_same g g' l : same_card g g' -> Forall (allowed g') l -> Forall (allowed g) l.
Proof.
  intros (Hc & H0 & Hn & _) Hl. eapply Forall_impl; [exact Hl|].
  intros [p|p|p|p v]; cbn; [done..|]. by rewrite Hc, H0, Hn.
Qed.

Lemma calls_confined cs : forall g h, ready g -> Forall saneCall cs ->
  exists r, calls cs g h = Some r /\ confined g h r.
Proof.
  induction cs as [|c cs IH]; intros g h Hr Hcs; cbn [calls].
  { eexists. split; [done|]. apply confined_refl; [done|apply Hr]. }
  apply Forall_cons in Hcs as [Hc Hcs]. destruct (call_confined c g h Hr Hc) as (m & -> & Hm).
  cbn [mbind option_bind]. destruct (m h) as [g1 h1]. destruct Hm as (Hsame & Hs1 & l & Hl & Hok & Hnone). cbn in *.
  pose proof Hsame as (Hc1 & H01 & Hn1 & Ha1).
  destruct (IH g1 h1) as (r & -> & (Hsame' & Hs' & l' & Hl' & Hok' & Hnone')).
  { split; [done|]. intros Hx. unfold limited. rewrite Hn1, H01. apply (proj2 Hr). congruence. } { done. }
  eexists. split; [done|]. split; [|split; [done|]].
  - destruct Hsame' as (Hc2 & H02 & Hn2 & Ha2). unfold same_card. by rewrite Hc2, H02, Hn2, Ha2.
  - exists (l ++ l'). subst h1. rewrite app_assoc. split; [done|]. split.
    + apply Forall_app. split; [done|]. by eapply allowed_same.
    + intros Hx. rewrite Hnone, Hnone' by congruence. done.
Qed.

(** ** From the probe to the destructor *)

Lemma decimal_bound v s : (v < 2 ^ 32)%N -> (extractU32 v s < 2 ^ 32)%N.
Proof.
  intros Hv. unfold extractU32. destruct (skipSpace s) as [|c s']; [done|].
  destruct (number _) as [[neg n]|]; [|done]. destruct (N.ltb_spec n (2 ^ 32)); [|done].
  destruct neg; [apply u32_range|done].
Qed.

Lemma probeCard_limits base h : match (probeCard base h).1 with Some (rp0, _, _) => (rp0 < 2 ^ 32)%N | None => True end.
Proof.
  unfold probeCard, bind, ret, fileExists, readFreqFile, readFile, writeFreq, openWrite, bind, ret.
  repeat (cbn [fst]; case_match; simplify_eq/=; try done); by apply decimal_bound.
Qed.

(** The number in a file after the accesses [h]; zero without one. *)
Definition numberAt (h : list Access) (path : string) : N :=
  match contents h path with None => 0%N | Some s => extractU32 0 s end.

Definition cardBase (root : string) (i : nat) : string := root +:+ "/card" +:+ pretty (N.of_nat i).

(** A write of the number that was read from the file just before. *)
Definition echo (h : list Access) (path value : string) : Prop :=
  exists k, h = k ++ [Read path] /\ numberAt k path <> 0%N /\ value = pretty (numberAt k path).

(** What looking for a card does after the accesses [h]: it writes caps of cards only, and
    to each what it holds. *)
Fixpoint probing (root : string) (h l : list Access) : Prop :=
  match l with
  | [] => True
  | a :: l =>
      match a with
      | Write p v => (exists i, (i < 16)%nat /\ p = maxPath (cardBase root i)) /\ echo h p v
      | _ => True
      end /\ probing root (h ++ [a]) l
  end.

Lemma probing_app root l1 : forall h l2, probing root h l1 -> probing root (h ++ l1) l2 ->
  probing root h (l1 ++ l2).
Proof.
  induction l1 as [|a l1 IH]; intros h l2 H1 H2; [by rewrite app_nil_r in H2|].
  destruct H1 as [Ha H1]. split; [done|]. apply IH; [done|]. by rewrite <- app_assoc.
Qed.

(** The last accesses before a card is taken, and the numbers they gave. *)
Definition taken (base : string) (h : list Access) (rp0 rpn cap : N) (l : list Access) : Prop :=
  exists k cur, l = k ++ [Read (base +:+ "/gt_RP0_freq_mhz"); Read (base +:+ "/gt_RPn_freq_mhz");
                          Read (maxPath base); Write (maxPath base) (pretty cur); Read (maxPath base)] /\
    let h1 := h ++ k in
    let h2 := h1 ++ [Read (base +:+ "/gt_RP0_freq_mhz")] in
    let h3 := h2 ++ [Read (base +:+ "/gt_RPn_freq_mhz")] in
    rp0 = numberAt h1 (base +:+ "/gt_RP0_freq_mhz") /\ rpn = numberAt h2 (base +:+ "/gt_RPn_freq_mhz") /\
    cur = numberAt h3 (maxPath base) /\
    cap = numberAt (h3 ++ [Read (maxPath base); Write (maxPath base) (pretty cur)]) (maxPath base).

Lemma readFreqFile_at p h : readFreqFile p h = (numberAt h p, h ++ [Read p]).
Proof. reflexivity. Qed.

Lemma fileExists_at p h : exists b, fileExists p h = (b, h ++ [Read p]).
Proof. by eexists. Qed.

Lemma probing_reads root h ps : probing root h (map Read ps).
Proof. revert h. induction ps as [|p ps IH]; intros h; [done|]. by split. Qed.

Lemma probeCard_accesses root i h : (i < 16)%nat -> exists l,
  (probeCard (cardBase root i) h).2 = h ++ l /\ probing root h l /\
  match (probeCard (cardBase root i) h).1 with
  | Some (rp0, rpn, cap) => taken (cardBase root i) h rp0 rpn cap l
  | None => True
  end.
Proof.
  intros Hi. set (base := cardBase root i). unfold probeCard, bind.
  set (P0 := base +:+ "/gt_RP0_freq_mhz"). set (Pn := base +:+ "/gt_RPn_freq_mhz"). set (Pm := maxPath base).
  assert (Hreads : forall ps, exists l, h ++ map Read ps = h ++ l /\ probing root h l /\ True)
    by (intros ps; eexists; split; [done|]; split; [apply probing_reads|done]).
  destruct (fileExists_at Pm h) as [b1 ->]. destruct b1; cbn [negb]; [|apply (Hreads [_])].
  destruct (fileExists_at P0 (h ++ [Read Pm])) as [b2 ->]. rewrite <- app_assoc. cbn [app].
  destruct b2; cbn [negb]; [|apply (Hreads [_; _])].
  destruct (fileExists_at Pn (h ++ [Read Pm; Read P0])) as [b3 ->]. rewrite <- app_assoc. cbn [app].
  destruct b3; cbn [negb]; [|apply (Hreads [_; _; _])]. rewrite !readFreqFile_at.
  set (h1 := h ++ [Read Pm; Read P0; Read Pn]). set (h2 := h1 ++ [Read P0]). set (h3 := h2 ++ [Read Pn]).
  assert (Hh : h3 ++ [Read Pm] = h ++ map Read [Pm; P0; Pn; P0; Pn; Pm]) by (unfold h3, h2, h1; rewrite <- !app_assoc; done).
  destruct ((_ =? 0)%N || _ || _) eqn:Hz; [rewrite Hh; apply Hreads|].
  apply orb_false_elim in Hz as [_ Hz]. apply N.eqb_neq in Hz. unfold writeFreq, openWrite.
  set (cur := numberAt h3 Pm) in *.
  assert (Hw : forall l, probing root h (map Read [Pm; P0; Pn; P0; Pn; Pm] ++ Write Pm (pretty cur) :: map Read l)).
  { intros l. apply probing_app; [apply probing_reads|]. rewrite <- Hh. split; [|apply probing_reads].
    split; [by exists i|]. by exists h3. }
  destruct (opens _ _); cbn [negb].
  - rewrite readFreqFile_at. rewrite Hh, <- !app_assoc.
    assert (Hg : forall (r : option (N * N * N)), (match r with Some (rp0, rpn, cap) =>
        rp0 = numberAt h1 P0 /\ rpn = numberAt h2 Pn /\ cap = numberAt (h3 ++ [Read Pm; Write Pm (pretty cur)]) Pm | None => True end) ->
      exists l, h ++ map Read [Pm; P0; Pn; P0; Pn; Pm] ++ [Write Pm (pretty cur)] ++ [Read Pm] = h ++ l /\
        probing root h l /\ match r with Some (rp0, rpn, cap) => taken base h rp0 rpn cap l | None => True end).
    { intros r Hr. eexists. split; [done|]. split; [apply (Hw [Pm])|]. destruct r as [[[rp0 rpn] cap]|]; [|done].
      destruct Hr as (-> & -> & ->). exists [Read Pm; Read P0; Read Pn], cur. by split_and!. }
    destruct (_ =? 0)%N; apply Hg; [done|]. split_and!; [done..|]. f_equal.
    change (map Read _ ++ [Write Pm (pretty cur)]) with ([Read Pm; Read P0; Read Pn] ++ [Read P0] ++ [Read Pn] ++ [Read Pm; Write Pm (pretty cur)]).
    unfold h3, h2, h1. by rewrite <- !app_assoc.
  - cbn [snd]. rewrite Hh, <- app_assoc. eexists. split; [done|]. split; [|done]. apply probing_app; [apply probing_reads|done].
Qed.

(** The card found, with its limits and its cap as they were read. *)
Definition foundCard (root : string) (h0 : list Access) (l : list Access) (g : GpuClockGovernor) : Prop :=
  exists i k l', (i < 16)%nat /\ _cardPath g = cardBase root i /\ l = k ++ l' /\
    taken (cardBase root i) (h0 ++ k) (_rp0Mhz g) (_rpnMhz g) (_currentCap g) l'.

Lemma probe_accesses root cards : forall g h, _available g = false -> Forall (fun i => (i < 16)%nat) cards ->
  exists l, (probe root cards g h).2 = h ++ l /\ probing root h l /\
    (_available (probe root cards g h).1 = true -> foundCard root h l (probe root cards g h).1).
Proof.
  induction cards as [|i cards IH]; intros g h Ha Hc.
  { exists []. rewrite app_nil_r. split; [done|]. split; [done|]. cbn. congruence. }
  apply Forall_cons in Hc as [Hi Hc]. destruct (probeCard_accesses root i h Hi) as (l & Hl & Hp & Ht).
  cbn [probe]. unfold bind. fold (cardBase root i). destruct (probeCard (cardBase root i) h) as [r h1]. cbn in Hl, Ht. subst h1.
  destruct r as [[[rp0 rpn] verified]|].
  - exists l. split; [done|]. split; [done|]. intros _. exists i, [], l. rewrite app_nil_r. by split_and!.
  - destruct (IH g (h ++ l) Ha Hc) as (l' & -> & Hp' & Hf). exists (l ++ l'). rewrite app_assoc. split; [done|].
    split; [by apply probing_app|]. intros Hav. destruct (Hf Hav) as (j & k & l2 & Hj & Hb & -> & Ht2).
    exists j, (l ++ k), l2. rewrite <- !app_assoc in *. by split_and!.
Qed.

Lemma probe_ready root cards : forall g h, _available g = false -> sane (_targetTempC g) ->
  let g' := (probe root cards g h).1 in
  sane (_targetTempC g') /\ (_rp0Mhz g' < 2 ^ 32)%N \/ _available g' = false /\ sane (_targetTempC g').
Proof.
  induction cards as [|i cards IH]; intros g h Ha Hs; [by right|].
  cbn [probe]. cbv zeta. unfold bind.
  pose proof (probeCard_limits (root +:+ "/card" +:+ pretty (N.of_nat i)) h) as Hp.
  destruct (probeCard _ h) as [[[[rp0 rpn] verified]|] h1]; [left; cbn [fst] in Hp; by split|by apply IH].
Qed.

Lemma default_sane : sane kDefaultTargetTempC.
Proof. split; [vm_compute; reflexivity|]. vm_compute. discriminate. Qed.

(** C34: The governor from its constructor to its destructor, whatever the kernel answers.
    The constructor writes to caps of the cards 0 to 15 only, and to each the number it
    has just read from it (also to a card it then passes over, and whatever the limits
    of the card: it is the test whether the file can be written); the card it takes has
    the limits and the cap read from it last.  From then on any calls with sane
    temperatures have a result; without a usable card they touch no file; with one, the
    only file written is the cap of that card, always with a value between its limits.
    The destructor asks for the upper limit back.  Hypothesis: the card reports a lower
    limit not above its upper one, without which [std::clamp] is undefined. *)
Theorem governor_confined env root h0 cs g h :
  create env root h0 = (g, h) -> (_available g = true -> (_rpnMhz g <= _rp0Mhz g)%N) -> Forall saneCall cs ->
  (exists l, h = h0 ++ l /\ probing root h0 l /\ (_available g = true -> foundCard root h0 l g)) /\
  exists g' h', calls cs g h = Some (g', h') /\ same_card g g' /\
    (exists l, h' = h ++ l /\ Forall (allowed g) l /\ (_available g = false -> l = [])) /\
    (destroy g' h').2 =
      (if _available g
       then h' ++ [if opens h' (maxPath (_cardPath g)) then Write (maxPath (_cardPath g)) (pretty (_rp0Mhz g))
                   else Refused (maxPath (_cardPath g))]
       else h').
Proof.
  intros Hc Hlim Hcs. unfold create in Hc.
  set (g0 := mkGovernor _ _ _ _ _ _ _ _ _ _ _ _ _) in Hc.
  pose proof (probe_ready root (seq 0 16) g0 h0 eq_refl default_sane) as Hp.
  destruct (probe_accesses root (seq 0 16) g0 h0 eq_refl) as (l0 & Hl0 & Hw0 & Hf0).
  { apply Forall_forall. intros i Hi. apply elem_of_seq in Hi. lia. }
  rewrite Hc in Hp, Hl0, Hf0. cbn [fst snd] in Hp, Hl0, Hf0. split; [by exists l0|]. clear Hl0 Hw0 Hf0.
  destruct (calls_confined cs g h) as ([g' h'] & -> & Hsame & Hs & Hl); [|done|].
  { destruct Hp as [[? ?]|[? ?]]; (split; [done|]); intros Ha; [split; [by apply Hlim|done]|congruence]. }
  exists g', h'. split; [done|]. split; [done|]. split; [done|]. destruct Hsame as (Hc' & H0' & _ & Ha').
  cbn in Hc', H0', Ha'. unfold destroy. rewrite Ha'. destruct (_available g); [|done].
  unfold bind, ret, writeFreq, openWrite. rewrite Hc', H0'. by destruct (opens h' _).
Qed.
End governor.

(** ** A card that takes every value *)

Definition lastWrite (path : string) (h : list Access) : option string :=
  foldl (fun v a => match a with Write p w => if String.eqb p path then Some w else v | _ => v end) None h.

Definition card0 : Kernel := {|
  contents h p :=
    if String.eqb p "/drm/card0/gt_max_freq_mhz" then Some (default "2200"%string (lastWrite p h))
    else if String.eqb p "/drm/card0/gt_RP0_freq_mhz" then Some "2200"%string
    else if String.eqb p "/drm/card0/gt_RPn_freq_mhz" then Some "300"%string else None;
  opens h p := String.eqb p "/drm/card0/gt_max_freq_mhz";
  accessible h p := false;
|}.

Definition heat : list Call := [Tick (Some (f32_of_Z 80)); Tick None; Tick (Some (f32_of_Z 70)); SetMax 9000; Pin 100 "rpn" "rpn"].

Lemma sane_of_Z n : sane (f32_of_Z n) <-> fin (f32_of_Z n) = true /\ (Z.abs (val (f32_of_Z n)) <=? 2 ^ 19 * deg) = true.
Proof. unfold sane. by rewrite Z.leb_le. Qed.

Definition written (h : list Access) : list string :=
  omap (fun a => match a with Write _ v => Some v | _ => None end) h.

Lemma governor_confined_witness : exists g h g' h',
  @create card0 None "/drm" [] = (g, h) /\ @calls card0 heat g h = Some (g', h') /\
  written (drop (length h) h') = ["1400"; "1420"; "2200"; "300"]%string.
Proof.
  assert (Hw : (fun r => written (drop (length (@create card0 None "/drm" []).2) r.2)) <$>
    @calls card0 heat (@create card0 None "/drm" []).1 (@create card0 None "/drm" []).2 = Some ["1400"; "1420"; "2200"; "300"]%string)
    by (vm_compute; reflexivity).
  assert (Hr : (_rpnMhz (@create card0 None "/drm" []).1 <= _rp0Mhz (@create card0 None "/drm" []).1)%N)
    by (vm_compute; discriminate).
  destruct (@create card0 None "/drm" []) as [g h] eqn:E.
  destruct (@governor_confined card0 None "/drm" [] heat g h E) as (_ & g' & h' & Hc & _); [done|..].
  { repeat apply Forall_cons_2; try apply Forall_nil_2; cbn; try done; apply sane_of_Z; vm_compute; by split. }
  cbn [fst snd] in Hw. rewrite Hc in Hw. exists g, h, g', h'. split_and!; [done..|]. by injection Hw.
Defined.

Definition started : GpuClockGovernor := (@create card0 None "/drm" []).1.

Lemma adjust_controls_witness : exists m,
  @adjustForTemp card0 (f32_of_Z 80) started = Some m /\
  ((m []).1.1, _overshootLatched (m []).1.2) = (1400%N, true).
Proof.
  assert (Hv : (fun m => ((m []).1.1, _overshootLatched (m []).1.2)) <$> @adjustForTemp card0 (f32_of_Z 80) started =
    Some (1400%N, true)) by (vm_compute; reflexivity).
  destruct (@adjust_controls card0 started (f32_of_Z 80) []) as (m & Hm & _).
  - vm_compute. reflexivity.
  - split; [vm_compute; discriminate|vm_compute; reflexivity].
  - apply sane_of_Z. split; vm_compute; reflexivity.
  - apply default_sane.
  - rewrite Hm in Hv. exists m. split; [exact Hm|]. by injection Hv as Hc Ho; rewrite Hc, Ho.
Defined.
Close Scope Z_scope.
End GovernorProofs.

Module FanProofs.
Import FanController.

Section fan.
Context `{Kernel}.

Definition byteCall (c : Call) : Prop :=
  match c with SetBoost v | SetMinSafe v | Percent v | Raw v => (v < 256)%N | _ => True end.

(** What may be written: speeds from the absolute floor on, and the modes manual and
    original. *)
Definition allowed (f : FanController) (a : Access) : Prop :=
  match a with
  | Write p v =>
      (p = _pwmPath f /\ exists n, v = showZ (Z.of_N n) /\ (kAbsoluteMinPwm <= n <= 255)%N) \/
      (p = _pwmEnablePath f /\ (v = showZ 1 \/ v = showZ (_originalEnableMode f)))
  | _ => True
  end.

Definition same_fan (f f' : FanController) : Prop :=
  _pwmPath f' = _pwmPath f /\ _pwmEnablePath f' = _pwmEnablePath f /\ _originalPwm f' = _originalPwm f /\
  _originalEnableMode f' = _originalEnableMode f /\ _available f' = _available f.

(** The two limits of the operator stay above the absolute floor. *)
Definition ready (f : FanController) : Prop :=
  (kAbsoluteMinPwm <= _boostPwm f <= 255 /\ kAbsoluteMinPwm <= _minSafePwm f <= 200)%N.

Definition confined (f : FanController) (h : list Access) (r : FanController * list Access) : Prop :=
  same_fan f r.1 /\ ready r.1 /\
  exists l, r.2 = h ++ l /\ Forall (allowed f) l /\ (_available f = false -> l = []).

Lemma confined_pure f h f' : same_fan f f' -> ready f' -> confined f h (f', h).
Proof. intros Hs Hr. split; [done|]. split; [done|]. exists []. by rewrite app_nil_r. Qed.

Lemma rawOf_spec p : (p < 256)%N ->
  (rawOf p <= 255)%N /\ (Z.abs (100 * Z.of_N (rawOf p) - 255 * Z.min 100 (Z.of_N p)) <= 50)%Z.
Proof.
  intros Hp. unfold rawOf. assert (Hq : Z.of_N (N.min p 100) = Z.min 100 (Z.of_N p)) by lia.
  rewrite <- Hq. generalize (N.min p 100) (N.le_min_r p 100). clear Hq. intros q Hq.
  rewrite (u32_small (q * 255)), (u32_small (q * 255 + 50)) by lia.
  assert ((q * 255 + 50) / 100 < 256)%N by (apply N.Div0.div_lt_upper_bound; lia).
  unfold u8. rewrite (wrapU_small 16) by (unfold in_u; lia). rewrite (wrapU_small 8) by (unfold in_u; lia).
  split; [lia|]. pose proof (N.div_mod (q * 255 + 50) 100 ltac:(done)) as Hd.
  pose proof (N.mod_lt (q * 255 + 50) 100 ltac:(done)) as Hm. revert Hd Hm.
  generalize ((q * 255 + 50) / 100)%N ((q * 255 + 50) mod 100)%N. lia.
Qed.

Definition attempt (h : list Access) (p v : string) : Access := if opens h p then Write p v else Refused p.

Lemma openWrite_attempt h p v : openWrite p v h = (opens h p, h ++ [attempt h p v]).
Proof. unfold openWrite, attempt. by destruct (opens h p). Qed.

Lemma attempt_allowed f h p v : allowed f (Write p v) -> allowed f (attempt h p v).
Proof. unfold attempt. by destruct (opens h p). Qed.

(** Setting a speed: manual mode first, then the speed, then the read-back. *)
Lemma drive_confined f g h n : ready f -> _available f = true -> (kAbsoluteMinPwm <= n <= 255)%N ->
  same_fan f g -> ready g ->
  confined f h (g, ((h ++ [attempt h (_pwmEnablePath f) (showZ 1)]) ++
    [attempt (h ++ [attempt h (_pwmEnablePath f) (showZ 1)]) (_pwmPath f) (showZ (Z.of_N n))]) ++ [Read (_pwmPath f)]).
Proof.
  intros Hr Ha Hn Hs Hg. split; [done|]. split; [done|]. eexists [_; _; _]. rewrite <- !app_assoc. split; [done|].
  split; [|congruence]. apply Forall_cons. split; [apply attempt_allowed; right; cbn; tauto|].
  apply Forall_cons. split; [apply attempt_allowed; left; eauto|]. by apply Forall_singleton.
Qed.

Lemma currentPwm_access f h : _available f = true -> (currentPwm f h).2 = h ++ [Read (_pwmPath f)].
Proof. intros Ha. unfold currentPwm. by rewrite Ha. Qed.

Lemma raw_confined v f h : ready f -> (v < 256)%N -> confined f h (let '((_, f'), h') := setPwmRaw v f h in (f', h')).
Proof.
  intros Hr Hv. unfold setPwmRaw. destruct (_available f) eqn:Ha; cbn [negb]; [|by apply confined_pure].
  unfold bind, ret, writeInt. rewrite !openWrite_attempt. cbn [fst snd].
  pose proof (currentPwm_access (withActive (_boostPwm f <=? N.max v (_minSafePwm f))%N f)
    ((h ++ [attempt h (_pwmEnablePath f) (showZ 1)]) ++
    [attempt (h ++ [attempt h (_pwmEnablePath f) (showZ 1)]) (_pwmPath f) (showZ (Z.of_N (N.max v (_minSafePwm f))))]) Ha) as Hc.
  destruct (currentPwm _ _) as [c h1]. cbn in Hc. subst h1. unfold ready, kAbsoluteMinPwm in *.
  apply drive_confined; unfold ready, kAbsoluteMinPwm; cbn; try done; lia.
Qed.

Lemma boost_confined f h : ready f -> confined f h (let '((_, f'), h') := boost f h in (f', h')).
Proof.
  intros Hr. unfold boost. destruct (_available f) eqn:Ha; cbn [negb]; [|by apply confined_pure].
  unfold bind, ret, writeInt. rewrite !openWrite_attempt. cbn [fst snd].
  pose proof (currentPwm_access (withActive true f)
    ((h ++ [attempt h (_pwmEnablePath f) (showZ 1)]) ++
    [attempt (h ++ [attempt h (_pwmEnablePath f) (showZ 1)]) (_pwmPath f) (showZ (Z.of_N (_boostPwm f)))]) Ha) as Hc.
  destruct (currentPwm _ _) as [c h1]. cbn in Hc. subst h1. unfold ready, kAbsoluteMinPwm in *.
  apply drive_confined; unfold ready, kAbsoluteMinPwm; cbn; try done; lia.
Qed.

Lemma fan_call_confined c f h : ready f -> byteCall c -> confined f h (call c f h).
Proof.
  intros Hr Hc. destruct c as [v|v| | |p|v]; cbn [call byteCall] in *.
  - apply confined_pure; [done|]. unfold ready, setBoostPwm, kAbsoluteMinPwm in *. cbn. lia.
  - apply confined_pure; [done|]. unfold ready, setMinSafePwm, kAbsoluteMinPwm in *. cbn.
    destruct (N.ltb_spec v 32), (N.ltb_spec 200 v); lia.
  - unfold bind, ret. pose proof (boost_confined f h Hr). by destruct (boost f h) as [[? ?] ?].
  - unfold releaseToAuto. destruct (_available f) eqn:Ha; cbn [negb]; [|by apply confined_pure].
    unfold bind, ret, writeInt. rewrite openWrite_attempt. split; [done|]. split; [done|].
    eexists. split; [done|]. split; [|congruence]. apply Forall_singleton, attempt_allowed. right. cbn. tauto.
  - unfold bind, ret, setPwmPercent. pose proof (raw_confined (rawOf p) f h Hr) as Hx.
    destruct (_available f) eqn:Ha; cbn [negb]; [|by apply confined_pure].
    destruct (rawOf_spec p Hc) as [Hb _]. specialize (Hx ltac:(lia)). by destruct (setPwmRaw (rawOf p) f h) as [[? ?] ?].
  - unfold bind, ret. pose proof (raw_confined v f h Hr Hc). by destruct (setPwmRaw v f h) as [[? ?] ?].
Qed.

Lemma allowed_same_fan f f' l : same_fan f f' -> Forall (allowed f') l -> Forall (allowed f) l.
Proof.
  intros (Hp & He & _ & Ho & _) Hl. eapply Forall_impl; [exact Hl|].
  intros [p|p|p|p v]; cbn; [done..|]. by rewrite Hp, He, Ho.
Qed.

Lemma calls_confined_fan cs : forall f h, ready f -> Forall byteCall cs -> confined f h (calls cs f h).
Proof.
  induction cs as [|c cs IH]; intros f h Hr Hcs; cbn [calls]; [by apply confined_pure|].
  apply Forall_cons in Hcs as [Hc Hcs]. destruct (fan_call_confined c f h Hr Hc) as (Hs & Hr1 & l & Hl & Hok & Hno).
  unfold bind. destruct (call c f h) as [f1 h1]. cbn in *.
  destruct (IH f1 h1 Hr1 Hcs) as (Hs' & Hr' & l' & Hl' & Hok' & Hno'). destruct (calls cs f1 h1) as [f2 h2]. cbn in *.
  assert (Hall : Forall (allowed f) l') by (by eapply allowed_same_fan).
  destruct Hs as (E1 & E2 & E3 & E4 & E5), Hs' as (F1 & F2 & F3 & F4 & F5).
  split; [by repeat split; cbn; congruence|]. split; [done|]. exists (l ++ l'). subst. rewrite app_assoc.
  split; [done|]. split; [by apply Forall_app|]. intros Hx. rewrite Hno, Hno' by congruence. done.
Qed.

(** ** From the probe to the destructor *)

Lemma append_nonempty a c b : a +:+ String c b <> EmptyString.
Proof. by destruct a. Qed.

Lemma findPwm_named base ps : forall h, match (findPwm base ps h).1 with Some (_, e) => e <> EmptyString | None => True end.
Proof.
  induction ps as [|p ps IH]; intros h; [done|]. cbn [findPwm]. unfold bind, ret.
  destruct (fileExists _ h) as [[] h1]; cbn [negb]; [|apply IH]. destruct (fileExists _ h1) as [[] h2]; cbn [negb]; [|apply IH].
  destruct (isWritable _ h2) as [[] h3]; cbn [negb]; [|apply IH]. destruct (isWritable _ h3) as [[] h4]; cbn [negb fst]; [|apply IH].
  apply append_nonempty.
Qed.

(** What the probe finds: the two limits are the defaults, the captured values can be
    restored. *)
Definition captured (f : FanController) : Prop :=
  _boostPwm f = kDefaultBoostPwm /\ _minSafePwm f = kDefaultMinSafePwm /\
  (_available f = true -> (_originalPwm f <= 255)%N /\ (0 <= _originalEnableMode f)%Z /\ _pwmEnablePath f <> EmptyString).

Lemma probeChip_captured base h : match (probeChip base h).1 with Some f => captured f | None => True end.
Proof.
  unfold probeChip, bind, ret. destruct (fileExists _ h) as [[|] h1]; cbn [negb]; [|done].
  destruct (readTrimmed _ h1) as [nm h2]. destruct (String.eqb nm EmptyString); [exact I|]. destruct (findFan _ _ _ h2) as [[fan|] h3]; [|done].
  pose proof (findPwm_named base (seq 1 8) h3) as Hn. destruct (findPwm base (seq 1 8) h3) as [[[pwm pe]|] h4]; [|done].
  destruct (readIntFile pwm h4) as [op h5]. destruct (readIntFile pe h5) as [oe h6].
  destruct ((op <? 0)%Z || (255 <? op)%Z || (oe <? 0)%Z) eqn:E; [exact I|]. cbn in *.
  apply orb_false_elim in E as [E1 E2]. apply orb_false_elim in E1 as [E1 E3].
  apply Z.ltb_ge in E1, E2, E3. split_and!; [done|done|]. intros _. cbn. split_and!; [lia|lia|done].
Qed.

Lemma probe_captured root chips : forall h, captured (probe root chips h).1.
Proof.
  induction chips as [|i chips IH]; intros h; [by split_and!|]. cbn [probe]. unfold bind.
  pose proof (probeChip_captured (root +:+ "/hwmon" +:+ pretty (N.of_nat i)) h) as Hp.
  by destruct (probeChip _ h) as [[f|] h1]; [|apply IH].
Qed.

(** The number in a file after the accesses [h], -1 without one. *)
Definition intAt (h : list Access) (path : string) : Z :=
  match contents h path with None => (-1)%Z | Some s => extractS32 (-1) s end.

Definition noWrite (a : Access) : Prop := match a with Write _ _ | Refused _ => False | _ => True end.

(** Looking for a fan writes nothing, and ends with reading the speed and the mode of the
    fan it takes, which are kept as they were read. *)
Definition probed (h : list Access) (r : option FanController * list Access) : Prop :=
  exists l, r.2 = h ++ l /\ Forall noWrite l /\
  match r.1 with
  | Some f => _available f = true -> exists k,
      l = k ++ [Read (_pwmPath f); Read (_pwmEnablePath f)] /\
      Z.of_N (_originalPwm f) = intAt (h ++ k) (_pwmPath f) /\
      _originalEnableMode f = intAt (h ++ k ++ [Read (_pwmPath f)]) (_pwmEnablePath f)
  | None => True
  end.

Definition quiet {A} (m : IO A) : Prop := forall h, exists l, (m h).2 = h ++ l /\ Forall noWrite l.

Lemma quiet_ret {A} (a : A) : quiet (ret a).
Proof. intros h. exists []. by rewrite app_nil_r. Qed.

Lemma quiet_bind {A B} (m : IO A) (f : A -> IO B) : quiet m -> (forall a, quiet (f a)) -> quiet (bind m f).
Proof.
  intros Hm Hf h. destruct (Hm h) as (l & Hl & Hq). unfold bind. destruct (m h) as [a h1]. cbn in Hl. subst h1.
  destruct (Hf a (h ++ l)) as (l' & -> & Hq'). exists (l ++ l'). rewrite app_assoc. split; [done|]. by apply Forall_app.
Qed.

Lemma quiet_read p : quiet (readFile p).
Proof. intros h. exists [Read p]. split; [done|]. by apply Forall_singleton. Qed.

Lemma quiet_asked p : quiet (isWritable p).
Proof. intros h. exists [Asked p]. split; [done|]. by apply Forall_singleton. Qed.

Lemma quiet_exists p : quiet (fileExists p).
Proof. apply quiet_bind; [apply quiet_read|]. intros c. apply quiet_ret. Qed.

Lemma quiet_int p : quiet (readIntFile p).
Proof. apply quiet_bind; [apply quiet_read|]. intros c. apply quiet_ret. Qed.
Local Hint Resolve quiet_ret quiet_read quiet_asked quiet_exists quiet_int : core.

Lemma quiet_findFan base fs : forall c, quiet (findFan base fs c).
Proof.
  induction fs as [|f fs IH]; intros c; cbn [findFan]; [done|]. apply quiet_bind; [done|]. intros [|]; cbn [negb]; [|done].
  apply quiet_bind; [done|]. intros rpm. by destruct (0 <? rpm)%Z.
Qed.

Lemma quiet_findPwm base ps : quiet (findPwm base ps).
Proof.
  induction ps as [|q ps IH]; cbn [findPwm]; [done|].
  repeat (apply quiet_bind; [done|]; intros [|]; cbn [negb]; [|done]). done.
Qed.

Lemma probed_app {f} h l h' : Forall noWrite l -> probed (h ++ l) (f, h') -> probed h (f, h').
Proof.
  intros Hl (l' & Hl' & Hq & Hf). cbn in Hl', Hf. subst h'. exists (l ++ l'). cbn. rewrite app_assoc.
  split; [done|]. split; [by apply Forall_app|]. destruct f as [f|]; [|done]. intros Ha. destruct (Hf Ha) as (k & -> & H1 & H2).
  exists (l ++ k). rewrite <- !app_assoc in *. done.
Qed.

Lemma probed_quiet {A} (m : IO A) (k : A -> IO (option FanController)) : quiet m ->
  (forall a h, probed h (k a h)) -> forall h, probed h (bind m k h).
Proof.
  intros Hm Hk h. destruct (Hm h) as (l & Hl & Hq). unfold bind. destruct (m h) as [a h1]. cbn in Hl. subst h1.
  specialize (Hk a (h ++ l)). destruct (k a (h ++ l)) as [f h']. by eapply probed_app.
Qed.

Lemma probed_none h : probed h (None, h).
Proof. exists []. by rewrite app_nil_r. Qed.
Local Hint Resolve quiet_findFan quiet_findPwm probed_none : core.

Lemma probeChip_probed base : forall h, probed h (probeChip base h).
Proof.
  unfold probeChip. apply probed_quiet; [done|]. intros [|] h0; cbn [negb]; [|done]. revert h0.
  apply probed_quiet; [apply quiet_bind; eauto|]. intros nm h0. destruct (String.eqb nm _); [done|]. revert h0.
  apply probed_quiet; [done|]. intros [fan|] h0; [|done]. revert h0.
  apply probed_quiet; [done|]. intros [[pwm pe]|] h; [|done]. unfold bind, readIntFile, readFile, ret. cbn.
  fold (intAt h pwm) (intAt (h ++ [Read pwm]) pe).
  exists [Read pwm; Read pe]. destruct ((intAt h pwm <? 0)%Z || _ || _) eqn:E; cbn; rewrite <- app_assoc.
  - split; [done|]. split; [repeat constructor|done].
  - split; [done|]. split; [repeat constructor|]. intros _. exists []. rewrite app_nil_r.
    apply orb_false_elim in E as [E _]. apply orb_false_elim in E as [E _]. apply Z.ltb_ge in E.
    split; [done|]. split; [lia|done].
Qed.

(** What the constructor did: it only looked, and it kept what it read. *)
Definition foundFan (h0 h : list Access) (f : FanController) : Prop :=
  probed h0 (Some f, h).

Lemma probe_found root chips : forall h, foundFan h (probe root chips h).2 (probe root chips h).1.
Proof.
  induction chips as [|i chips IH]; intros h.
  { exists []. rewrite app_nil_r. split; [done|]. split; [done|]. cbn. congruence. }
  cbn [probe]. unfold bind. pose proof (probeChip_probed (root +:+ "/hwmon" +:+ pretty (N.of_nat i)) h) as Hp.
  destruct (probeChip _ h) as [[f|] h1]; [exact Hp|]. destruct Hp as (l & Hl & Hq & _). cbn in Hl. subst h1.
  specialize (IH (h ++ l)). unfold foundFan in *. by eapply probed_app.
Qed.

(** C35: The fan from the controller's constructor to its destructor, whatever the kernel
    answers.  The constructor writes nothing and keeps the speed and the mode it reads
    last from the fan it takes.  Whatever byte a client then passes, also as a limit, its
    calls write no speed below the absolute floor of 32 and nothing but the speed and the
    mode (manual or captured) of that fan; without one no file is touched.  The
    destructor puts the captured speed back as it was read - no floor applies to it
    ([low_speed_put_back]) - unless that was zero, and then the captured mode. *)
Theorem fan_confined root h0 cs f h : create root h0 = (f, h) -> Forall byteCall cs ->
  foundFan h0 h f /\
  let '(f', h') := calls cs f h in
  (exists l, h' = h ++ l /\ Forall (allowed f) l /\ (_available f = false -> l = [])) /\
  (destroy f' h').2 =
    (if _available f then
       let speed := if (0 <? _originalPwm f)%N && negb (String.eqb (_pwmPath f) EmptyString)
                    then [attempt h' (_pwmPath f) (showZ (Z.of_N (_originalPwm f)))] else [] in
       h' ++ speed ++ [attempt (h' ++ speed) (_pwmEnablePath f) (showZ (_originalEnableMode f))]
     else h').
Proof.
  intros Hc Hcs. pose proof (probe_captured root (seq 0 16) h0) as Hp.
  pose proof (probe_found root (seq 0 16) h0) as Hfd. unfold create in Hc. rewrite Hc in Hp, Hfd. cbn in Hp, Hfd.
  split; [exact Hfd|]. clear Hfd. destruct Hp as (Hb & Hm & Hav).
  assert (Hr : ready f) by (unfold ready; rewrite Hb, Hm; done).
  pose proof (calls_confined_fan cs f h Hr Hcs) as (Hs & _ & l & Hl & Hok & Hno).
  destruct (calls cs f h) as [f' h']. cbn [fst snd] in *. split; [by exists l|]. clear Hl Hok Hno.
  destruct Hs as (E1 & E2 & E3 & E4 & E5). unfold destroy. rewrite E1, E2, E3, E4, E5.
  destruct (_available f); [|done]. destruct (Hav eq_refl) as (_ & Hmode & Hname). cbn [negb].
  rewrite (proj2 (String.eqb_neq _ _) Hname), (proj2 (Z.leb_le _ _) Hmode). cbn [negb andb].
  rewrite (andb_comm (negb _)). unfold bind, ret, writeInt.
  destruct ((0 <? _originalPwm f)%N && _); rewrite !openWrite_attempt; cbn; [by rewrite <- app_assoc|by rewrite app_nil_r].
Qed.
End fan.

(** A chip with one fan, which holds [speed] and whose files take every value. *)
Definition chipAt (speed : string) : Kernel := {|
  contents h p :=
    if String.eqb p "/hwmon3/name" then Some "nct6798"%string
    else if String.eqb p "/hwmon3/fan2_input" then Some "900"%string
    else if String.eqb p "/hwmon3/pwm1" then Some (default speed (GovernorProofs.lastWrite p h))
    else if String.eqb p "/hwmon3/pwm1_enable" then Some (default "5"%string (GovernorProofs.lastWrite p h)) else None;
  opens h p := true;
  accessible h p := true;
|}.

Definition chip3 : Kernel := chipAt "90".

Definition abuse : list Call := [SetMinSafe 0; SetBoost 3; Raw 0; Percent 10; Boost; Percent 200; Release].

Lemma fan_confined_witness :
  let '(f, h) := @create chip3 EmptyString [] in
  let '(f', h') := @calls chip3 abuse f h in
  (exists l, h' = h ++ l /\ Forall (allowed f) l) /\
  GovernorProofs.written (@destroy chip3 f' h').2 =
    ["1"; "32"; "1"; "32"; "1"; "32"; "1"; "255"; "5"; "90"; "5"]%string.
Proof.
  destruct (@create chip3 EmptyString []) as [f h] eqn:E.
  pose proof (@fan_confined chip3 EmptyString [] abuse f h E) as Hf.
  assert (Hb : Forall byteCall abuse) by (repeat (apply Forall_cons_2; [cbn; done || lia|]); by apply Forall_nil_2).
  specialize (Hf Hb).
  assert (Hw : (let '(f', h') := @calls chip3 abuse (@create chip3 EmptyString []).1 (@create chip3 EmptyString []).2 in
    GovernorProofs.written (@destroy chip3 f' h').2) = ["1"; "32"; "1"; "32"; "1"; "32"; "1"; "255"; "5"; "90"; "5"]%string)
    by (vm_compute; reflexivity).
  rewrite E in Hw. cbn [fst snd] in Hw. destruct (@calls chip3 abuse f h) as [f' h'].
  destruct Hf as [_ [(l & Hl & Hok & _) _]]. split; [by exists l|exact Hw].
Defined.

(** A captured speed below the floor is put back below it, still in manual mode. *)
Example low_speed_put_back :
  let '(f, h) := @create (chipAt "5") EmptyString [] in
  let '(f', h') := @calls (chipAt "5") [Raw 0] f h in
  GovernorProofs.written (@destroy (chipAt "5") f' h').2 = ["1"; "64"; "5"; "5"]%string.
Proof. vm_compute. reflexivity. Qed.

(** A file whose text is no number reads as zero, not as the failure value. *)
Example text_reads_as_zero : extractS32 (-1) "n/a" = 0%Z /\ extractS32 (-1) EmptyString = (-1)%Z.
Proof. by split. Qed.
End FanProofs.
