(* ===== verification/ToolCalls.v ===== *)
(** * Tool calls in a model's answer

    Models [src/src/model/ToolCallParser.cpp] and the ladders over it in
    [src/src/server/ToolCallExtractor.cpp], [QwenToolParser], [GemmaToolParser] and
    [ToolCallParserRegistry], with the renderings of a call in
    [src/src/model/chat/QwenChatEncoder.cpp] and [GemmaChatEncoder.cpp].  A text is the
    list of its bytes.  The JSON library is a parameter, and [std::stod] with the
    number of characters it used; [std::stoll] is written out.  Loops whose progress is
    not structural take fuel, and answer [None] without it. *)

From Stdlib Require Import Ascii SpecFloat.
From stdpp Require Import pretty.
From S2P Require Import Prelude StreamFilters.
Import StreamText.

Module ToolJson.

(** A document; an object is in the library's order, by key. *)
#[warnings="-register-all"]
Inductive json :=
  | JNull
  | JBool (b : bool)
  | JInt (z : Z)
  | JFloat (d : spec_float)
  | JStr (s : text)
  | JArr (l : list json)
  | JObj (l : list (text * json)).

(** Bytes in order, as [std::string] compares. *)
Fixpoint compareText (a b : text) : comparison :=
  match a, b with
  | [], [] => Eq
  | [], _ => Lt
  | _, [] => Gt
  | x :: a, y :: b => match nat_of_ascii x ?= nat_of_ascii y with Eq => compareText a b | c => c end
  end.

(** [obj[key] = v]. *)
Fixpoint setKey (k : text) (v : json) (l : list (text * json)) : list (text * json) :=
  match l with
  | [] => [(k, v)]
  | (k', v') :: l' =>
      match compareText k k' with
      | Lt => (k, v) :: l
      | Eq => (k, v) :: l'
      | Gt => (k', v') :: setKey k v l'
      end
  end.

Fixpoint lookupKey (k : text) (l : list (text * json)) : option json :=
  match l with [] => None | (k', v) :: l => if bool_decide (k = k') then Some v else lookupKey k l end.

(** [j.contains(key)] with [j[key]]: nothing unless [j] is an object. *)
Definition field (j : json) (key : text) : option json :=
  match j with JObj l => lookupKey key l | _ => None end.

(** The library: [parse] without exceptions, [dump] that replaces invalid UTF-8, [dump]
    that throws, [std::to_string] of a double, and [std::stod]. *)
Class Json := {
  parse : text -> option json;
  dump : json -> text;
  dumpStrict : json -> option text;
  showFloat : spec_float -> text;
  stod : text -> option (spec_float * nat);
}.

(** ** Integers *)

Definition digit (c : ascii) : option Z :=
  let n := nat_of_ascii c in if (48 <=? n) && (n <=? 57) then Some (Z.of_nat (n - 48)) else None.

Definition isSpace (c : ascii) : bool := let n := nat_of_ascii c in (n =? 32) || (9 <=? n) && (n <=? 13).

(** The digits at the front: their value and number. *)
Fixpoint digits (acc : Z) (n : nat) (s : text) : Z * nat :=
  match s with
  | c :: s' => match digit c with Some d => digits (10 * acc + d)%Z (S n) s' | None => (acc, n) end
  | [] => (acc, n)
  end.

(** [std::stoll]: the number in front and the characters used; nothing where it throws. *)
Definition stoll (s : text) : option (Z * nat) :=
  let rest := skipWhile isSpace s in
  let skipped := length s - length rest in
  let '(neg, signed, ds) :=
    match rest with
    | c :: ds => if Ascii.eqb c "-" then (true, 1, ds) else if Ascii.eqb c "+" then (false, 1, ds) else (false, 0, rest)
    | [] => (false, 0, [])
    end in
  let '(v, n) := digits 0 0 ds in
  let z := if (neg : bool) then (- v)%Z else v in
  if (n =? 0) || (z <? - 2 ^ 63)%Z || (2 ^ 63 <=? z)%Z then None else Some (z, skipped + signed + n).

(** [std::to_string] of an integer. *)
Definition showInt (z : Z) : text :=
  if (z <? 0)%Z then "-"%char :: lit (pretty (Z.to_N (- z))) else lit (pretty (Z.to_N z)).
End ToolJson.
Import ToolJson.

Module ToolCallParser.

(** [src/src/model/ToolCall.hpp:17-20 ToolSpec] *)
Record ToolSpec := mkSpec { s_name : text; s_toolJson : text }.

(** [src/src/model/ToolCall.hpp:31-35 ToolCall] *)
Record ToolCall := mkCall { c_id : text; c_name : text; c_argumentsJson : text }.

Definition kOpen : text := lit "<tool_call>".
Definition kClose : text := lit "</tool_call>".
Definition kGOpen : text := lit "<|tool_call>".
Definition kGClose : text := lit "<tool_call|>".
Definition quote : ascii := ascii_of_nat 34.
Definition kGQuote : text := lit "<|" ++ [quote] ++ lit "|>".

(** [src/src/model/ToolCallParser.cpp:29-36 trimws] *)
Definition trimws (v : text) : text := rev (skipWhile isAsciiWs (rev (skipWhile isAsciiWs v))).

(** [s.substr(a, b - a)]. *)
Definition sub (s : text) (a b : nat) : text := take (b - a) (drop a s).

(** The same where [b] may lie before [a]: the count wraps and takes in the rest. *)
Definition span (s : text) (a b : nat) : text := if a <=? b then sub s a b else drop a s.

(** ["call_" + std::to_string(n)]. *)
Definition callId (n : nat) : text := lit "call_" ++ lit (pretty (N.of_nat n)).

Definition isChar (n : nat) (c : ascii) : bool := nat_of_ascii c =? n.

Section parser.
Context `{Json}.

(** ** Gemma's argument language *)

(** A value and the position behind it; an exception; or no fuel. *)
Definition Parsed : Type := option (option (json * nat)).
Definition threw : Parsed := Some None.
Definition ok (v : json) (i : nat) : Parsed := Some (Some (v, i)).

(** [src/src/model/ToolCallParser.cpp:46-51 GemmaValParser::skipws] *)
Definition skipws (s : text) (i : nat) : nat := i + (length (drop i s) - length (skipWhile isAsciiWs (drop i s))).

(** The characters up to the first that [f] holds for. *)
Definition until (f : ascii -> bool) (s : text) (i : nat) : nat :=
  i + (length (drop i s) - length (skipWhile (fun c => negb (f c)) (drop i s))).

(** [src/src/model/ToolCallParser.cpp:68-77 GemmaValParser::gstring] *)
Definition gstring (s : text) (i : nat) : Parsed :=
  let i := i + length kGQuote in
  match findFrom kGQuote s i with
  | None => threw
  | Some e => ok (JStr (sub s i e)) (e + length kGQuote)
  end.

(** [src/src/model/ToolCallParser.cpp:82-91 GemmaValParser::dquote] *)
Fixpoint dquoteLoop (s : text) (i : nat) (out : text) : option (text * nat) :=
  match s with
  | [] => None
  | c :: s' =>
      if Ascii.eqb c quote then Some (out, S i)
      else match s' with
           | d :: s'' => if Ascii.eqb c "\" then dquoteLoop s'' (i + 2) (out ++ [d]) else dquoteLoop s' (S i) (out ++ [c])
           | [] => None
           end
  end.

(** [src/src/model/ToolCallParser.cpp:79-96 GemmaValParser::dquote] *)
Definition dquote (s : text) (i : nat) : Parsed :=
  match dquoteLoop (drop (S i) s) (S i) [] with None => threw | Some (out, i) => ok (JStr out) i end.

(** [src/src/model/ToolCallParser.cpp:136-150 GemmaValParser::scalar] *)
Definition scalar (s : text) (i : nat) : Parsed :=
  let e := until (fun c => Ascii.eqb c "," || Ascii.eqb c "}" || Ascii.eqb c "]") s i in
  let tok := trimws (sub s i e) in
  if existsb (fun c => Ascii.eqb c "." || Ascii.eqb c "e" || Ascii.eqb c "E") tok
  then ok (match stod tok with Some (d, _) => JFloat d | None => JStr tok end) e
  else ok (match stoll tok with Some (z, _) => JInt z | None => JStr tok end) e.

Definition at_ (s : text) (i : nat) (c : ascii) : bool :=
  match s !! i with Some d => Ascii.eqb d c | None => false end.

(** [src/src/model/ToolCallParser.cpp:98-134 GemmaValParser] *)
Fixpoint value (fuel : nat) (s : text) (i : nat) : Parsed :=
  match fuel with
  | O => None
  | S fuel =>
      let i := skipws s i in
      if starts kGQuote (drop i s) then gstring s i
      else if at_ s i quote then dquote s i
      else if at_ s i "{" then object fuel s i
      else if at_ s i "[" then array fuel s i
      else if starts (lit "true") (drop i s) then ok (JBool true) (i + 4)
      else if starts (lit "false") (drop i s) then ok (JBool false) (i + 5)
      else scalar s i
  end
with object (fuel : nat) (s : text) (i : nat) : Parsed :=
  match fuel with
  | O => None
  | S fuel =>
      let i := skipws s (S i) in
      if at_ s i "}" then ok (JObj []) (S i) else members fuel s i []
  end
with members (fuel : nat) (s : text) (i : nat) (obj : list (text * json)) : Parsed :=
  match fuel with
  | O => None
  | S fuel =>
      let ks := skipws s i in
      let i := until (fun c => Ascii.eqb c ":" || Ascii.eqb c "}") s ks in
      let key := trimws (sub s ks i) in
      if negb (at_ s i ":") then threw
      else match value fuel s (S i) with
           | Some (Some (v, i)) =>
               let obj := setKey key v obj in
               let i := skipws s i in
               if at_ s i "," then members fuel s (S i) obj
               else if at_ s i "}" then ok (JObj obj) (S i) else threw
           | r => r
           end
  end
with array (fuel : nat) (s : text) (i : nat) : Parsed :=
  match fuel with
  | O => None
  | S fuel =>
      let i := skipws s (S i) in
      if at_ s i "]" then ok (JArr []) (S i) else elements fuel s i []
  end
with elements (fuel : nat) (s : text) (i : nat) (arr : list json) : Parsed :=
  match fuel with
  | O => None
  | S fuel =>
      match value fuel s i with
      | Some (Some (v, i)) =>
          let arr := arr ++ [v] in
          let i := skipws s i in
          if at_ s i "," then elements fuel s (S i) arr
          else if at_ s i "]" then ok (JArr arr) (S i) else threw
      | r => r
      end
  end.

(** Enough for any text: three calls for each character. *)
Definition dslFuel (s : text) : nat := 3 * length s + 6.

(** One block: nothing unless it is [call:NAME{...}].
    [src/src/model/ToolCallParser.cpp:811-840 ToolCallParser::parseGemma] *)
Definition gemmaBlock (body : text) (n : nat) : option (option ToolCall) :=
  let p := length body - length (skipWhile isSpace body) in
  let kCall := lit "call:" in
  if negb (starts kCall (drop p body)) then Some None
  else
    let nameStart := p + length kCall in
    let p := until (Ascii.eqb "{") body nameStart in
    let name := trimws (sub body nameStart p) in
    if bool_decide (name = []) || negb (at_ body p "{") then Some None
    else match object (dslFuel body) body p with
         | None => None
         | Some None => Some None
         | Some (Some (args, _)) => Some (Some (mkCall (callId n) name (dump args)))
         end.

(** ** The blocks of a text *)

(** What each parser that goes from marker to marker does; [block] reads one body, with
    the number of calls so far.
    [src/src/model/ToolCallParser.cpp:241-284 ToolCallParser::parseQwen] *)
Fixpoint blocks (fuel : nat) (op cl : text) (block : text -> nat -> option (option ToolCall)) (s : text) (pos : nat)
    (calls : list ToolCall) : option (list ToolCall) :=
  match fuel with
  | O => None
  | S fuel =>
      match findFrom op s pos with
      | None => Some calls
      | Some open =>
          let bodyStart := open + length op in
          let close := findFrom cl s bodyStart in
          let bodyEnd := default (length s) close in
          call ← block (sub s bodyStart bodyEnd) (length calls);
          let calls := match call with Some c => calls ++ [c] | None => calls end in
          match close with
          | None => Some calls
          | Some c => blocks fuel op cl block s (c + length cl) calls
          end
      end
  end.

(** [src/src/model/ToolCallParser.cpp:796-849 ToolCallParser::parseGemma] *)
Definition parseGemma (s : text) : option (list ToolCall) := blocks (S (length s)) kGOpen kGClose gemmaBlock s 0 [].

(** [src/src/model/ToolCallParser.cpp:792-794 ToolCallParser::looksLikeGemmaToolCall] *)
Definition looksLikeGemmaToolCall (s : text) : bool := bool_decide (is_Some (find kGOpen s)).

(** ** The Hermes format *)

(** The depth of braces outside strings, and whether a string is open.
    [src/src/model/ToolCallParser.cpp:162-178 parseWithBraceRepair] *)
Fixpoint braces (s : text) (depth : Z) (inStr esc : bool) : Z * bool :=
  match s with
  | [] => (depth, inStr)
  | c :: s =>
      if inStr then
        if esc then braces s depth true false
        else if Ascii.eqb c "\" then braces s depth true true
        else if Ascii.eqb c quote then braces s depth false false
        else braces s depth true false
      else if Ascii.eqb c quote then braces s depth true esc
      else if Ascii.eqb c "{" then braces s (depth + 1) false esc
      else if Ascii.eqb c "}" then braces s (depth - 1) false esc
      else braces s depth false esc
  end.

(** [src/src/model/ToolCallParser.cpp:157-185 parseWithBraceRepair] *)
Definition parseWithBraceRepair (body : text) : option json :=
  match parse body with
  | Some j => Some j
  | None =>
      let '(depth, inStr) := braces body 0 false false in
      if inStr || (depth <=? 0)%Z || (4 <? depth)%Z then None
      else parse (trimws body ++ repeat "}"%char (Z.to_nat depth))
  end.

(** [src/src/model/ToolCallParser.cpp:218-230 argumentsToString] *)
Definition argumentsToString (args : json) : text :=
  match args with
  | JStr s => s
  | JObj _ | JArr _ => dump args
  | _ => lit "{}"
  end.

(** The call of an object with a string under [name]; [accept] is the name gate.
    [src/src/model/ToolCallParser.cpp:260-273 ToolCallParser::parseQwen] *)
Definition objectCall (accept : text -> bool) (j : option json) (n : nat) : option ToolCall :=
  match j with
  | Some (JObj l) =>
      match lookupKey (lit "name") l with
      | Some (JStr name) =>
          if accept name
          then Some (mkCall (callId n) name
                 (match lookupKey (lit "arguments") l with Some a => argumentsToString a | None => lit "{}" end))
          else None
      | _ => None
      end
  | _ => None
  end.

(** [src/src/model/ToolCallParser.cpp:238-285 ToolCallParser::parseQwen] *)
Definition parseQwen (s : text) : option (list ToolCall) :=
  blocks (S (length s)) kOpen kClose (fun body n => Some (objectCall (fun _ => true) (parseWithBraceRepair body) n)) s 0 [].

(** [src/src/model/ToolCallParser.cpp:234-236 ToolCallParser::looksLikeQwenToolCall] *)
Definition looksLikeQwenToolCall (s : text) : bool := bool_decide (is_Some (find kOpen s)).

(** ** The XML format *)

Definition kFunc : text := lit "<function=".
Definition kFuncEnd : text := lit "</function>".
Definition kParam : text := lit "<parameter=".
Definition kParamEnd : text := lit "</parameter>".

(** [src/src/model/ToolCallParser.cpp:190-213 coerceXmlParamValue] *)
Definition coerceXmlParamValue (raw type : text) : json :=
  if bool_decide (type = []) || bool_decide (type = lit "string") then JStr raw
  else
    let t := trimws raw in
    if bool_decide (type = lit "integer") then match stoll t with Some (z, _) => JInt z | None => JStr raw end
    else if bool_decide (type = lit "number") then match stod t with Some (d, _) => JFloat d | None => JStr raw end
    else if bool_decide (type = lit "boolean")
    then (if bool_decide (t = lit "true") then JBool true
          else if bool_decide (t = lit "false") then JBool false else JStr raw)
    else match parse t with Some v => v | None => JStr raw end.

(** [j[key]] where every level has to be an object. *)
Definition propertiesOf (tool : json) : option json :=
  f ← field tool (lit "function"); p ← field f (lit "parameters"); field p (lit "properties").

(** [src/src/model/ToolCallParser.cpp:294-320 paramTypeFor] *)
Fixpoint paramTypeFor (specs : list ToolSpec) (fn key : text) : text :=
  match specs with
  | [] => []
  | spec :: specs =>
      if negb (bool_decide (s_name spec = fn)) then paramTypeFor specs fn key
      else match (tool ← parse (s_toolJson spec); props ← propertiesOf tool; k ← field props key; field k (lit "type")) with
           | Some (JStr t) => t
           | _ => []
           end
  end.

(** [src/src/model/ToolCallParser.cpp:325-333 stripFrame] *)
Definition stripFrame (v : text) : text :=
  let v := match v with c :: v' => if Ascii.eqb c newline then v' else v | [] => [] end in
  match rev v with c :: w => if Ascii.eqb c newline then rev w else v | [] => [] end.

(** [src/src/model/ToolCallParser.cpp:358-389 parseFunctionSpan] *)
Fixpoint parameters (fuel : nat) (scope : text) (specs : list ToolSpec) (name : text) (paramsEnd p : nat)
    (args : list (text * json)) : option (list (text * json)) :=
  match fuel with
  | O => None
  | S fuel =>
      match findFrom kParam scope p with
      | None => Some args
      | Some ps =>
          if paramsEnd <=? ps then Some args
          else
            let ks := ps + length kParam in
            match findFrom (lit ">") scope ks with
            | None => Some args
            | Some ke =>
                let key := trimws (sub scope ks ke) in
                let vs := S ke in
                let '(ve, next) :=
                  match findFrom kParamEnd scope vs with
                  | Some ve => if ve <=? paramsEnd then (ve, ve + length kParamEnd)
                               else let ve := Nat.min paramsEnd (default paramsEnd (findFrom kParam scope vs)) in (ve, ve)
                  | None => let ve := Nat.min paramsEnd (default paramsEnd (findFrom kParam scope vs)) in (ve, ve)
                  end in
                let args := if bool_decide (key = []) then args
                            else setKey key (coerceXmlParamValue (stripFrame (span scope vs ve)) (paramTypeFor specs name key)) args in
                parameters fuel scope specs name paramsEnd next args
            end
      end
  end.

(** The call without its id and the position behind it.
    [src/src/model/ToolCallParser.cpp:340-397 parseFunctionSpan] *)
Definition parseFunctionSpan (scope : text) (fn : nat) (specs : list ToolSpec) : option (option (ToolCall * nat)) :=
  let nameStart := fn + length kFunc in
  match findFrom (lit ">") scope nameStart with
  | None => Some None
  | Some nameEnd =>
      let name := trimws (sub scope nameStart nameEnd) in
      if bool_decide (name = []) then Some None
      else
        let p := S nameEnd in
        let funcEnd := findFrom kFuncEnd scope p in
        let paramsEnd := default (length scope) funcEnd in
        args ← parameters (S (length scope)) scope specs name paramsEnd p [];
        Some (Some (mkCall [] name (dump (JObj args)),
                    match funcEnd with Some e => e + length kFuncEnd | None => length scope end))
  end.

Definition withId (n : nat) (c : ToolCall) : ToolCall := mkCall (callId n) (c_name c) (c_argumentsJson c).

(** [src/src/model/ToolCallParser.cpp:452-461 ToolCallParser::parseQwenXml] *)
Definition xmlBlock (specs : list ToolSpec) (body : text) (n : nat) : option (option ToolCall) :=
  match find kFunc body with
  | None => Some None
  | Some fn => option_map (option_map (fun x => withId n (fst x))) (parseFunctionSpan body fn specs)
  end.

(** [src/src/model/ToolCallParser.cpp:435-471 ToolCallParser::parseQwenXml] *)
Definition parseQwenXml (s : text) (specs : list ToolSpec) : option (list ToolCall) :=
  blocks (S (length s)) kOpen kClose (xmlBlock specs) s 0 [].

(** [src/src/model/ToolCallParser.cpp:473-487 ToolCallParser::looksLikeBareQwenXmlCall] *)
Fixpoint bareCallFrom (fuel : nat) (s : text) (specs : list ToolSpec) (fn : option nat) : option bool :=
  match fn, fuel with
  | None, _ => Some false
  | _, O => None
  | Some fn, S fuel =>
      let after := drop (fn + length kFunc) s in
      if existsb (fun spec => negb (bool_decide (s_name spec = [])) && starts (s_name spec) after) specs then Some true
      else bareCallFrom fuel s specs (findFrom kFunc s (fn + length kFunc))
  end.

Definition looksLikeBareQwenXmlCall (s : text) (specs : list ToolSpec) : option bool :=
  bareCallFrom (length s) s specs (find kFunc s).

Definition offered (specs : list ToolSpec) (name : text) : bool := existsb (fun spec => bool_decide (s_name spec = name)) specs.

Definition fence : text := lit "```".

(** [src/src/model/ToolCallParser.cpp:401-420 fencedRanges] *)
Fixpoint fencedRanges (fuel : nat) (s : text) (pos : nat) : option (list (nat * nat)) :=
  match fuel with
  | O => None
  | S fuel =>
      match findFrom fence s pos with
      | None => Some []
      | Some open =>
          match findFrom fence s (open + 3) with
          | None => Some [(open, length s)]
          | Some close => rest ← fencedRanges fuel s (close + 3); Some ((open, close + 3) :: rest)
          end
      end
  end.

(** [src/src/model/ToolCallParser.cpp:422-431 insideRange] *)
Definition insideRange (ranges : list (nat * nat)) (pos : nat) : bool :=
  existsb (fun r => (fst r <=? pos) && (pos <? snd r)) ranges.

(** [src/src/model/ToolCallParser.cpp:733-753 ToolCallParser::parseQwenXmlBare] *)
Fixpoint bareLoop (fuel : nat) (s : text) (specs : list ToolSpec) (fences : list (nat * nat)) (pos : nat)
    (calls : list ToolCall) : option (list ToolCall) :=
  match fuel with
  | O => None
  | S fuel =>
      match findFrom kFunc s pos with
      | None => Some calls
      | Some fn =>
          if insideRange fences fn then bareLoop fuel s specs fences (fn + length kFunc) calls
          else
            match parseFunctionSpan s fn specs with
            | None => None
            | Some (Some (c, spanEnd)) =>
                if offered specs (c_name c) then bareLoop fuel s specs fences spanEnd (calls ++ [withId (length calls) c])
                else bareLoop fuel s specs fences (fn + length kFunc) calls
            | Some None => bareLoop fuel s specs fences (fn + length kFunc) calls
            end
      end
  end.

(** [src/src/model/ToolCallParser.cpp:718-756 ToolCallParser::parseQwenXmlBare] *)
Definition parseQwenXmlBare (s : text) (specs : list ToolSpec) : option (list ToolCall) :=
  fences ← fencedRanges (S (length s)) s 0;
  bareLoop (S (length s)) s specs fences 0 [].

(** ** Damaged markup *)

(** [src/src/model/ToolCallParser.cpp:679-685 ToolCallParser::parseQwenXmlNoisy] *)
Fixpoint eraseAll (fuel : nat) (m s : text) (p : nat) : option text :=
  match findFrom m s p, fuel with
  | None, _ => Some s
  | Some _, O => None
  | Some p, S fuel => eraseAll fuel m (take p s ++ drop (p + length m) s) p
  end.

(** [src/src/model/ToolCallParser.cpp:689-699 ToolCallParser::parseQwenXmlNoisy] *)
Fixpoint repair (fuel : nat) (marker s : text) (p : nat) : option text :=
  match findFrom marker s p, fuel with
  | None, _ => Some s
  | Some _, O => None
  | Some p, S fuel =>
      if negb (at_ s (p - 1) "<") || (p =? 0) then repair fuel marker (take p s ++ "<"%char :: drop p s) (p + 1 + length marker)
      else repair fuel marker s (p + length marker)
  end.

(** [src/src/model/ToolCallParser.cpp:675-716 ToolCallParser::parseQwenXmlNoisy] *)
Definition parseQwenXmlNoisy (s : text) (specs : list ToolSpec) : option (list ToolCall) :=
  s ← eraseAll (length s) (lit "<|im_start|>") s 0;
  s ← eraseAll (length s) (lit "<|im_end|>") s 0;
  s ← eraseAll (length s) (lit "<|endoftext|>") s 0;
  s ← repair (length s) (lit "function=") s 0;
  s ← repair (length s) (lit "parameter=") s 0;
  calls ← parseQwenXml s specs;
  Some (filter (fun c => offered specs (c_name c) = true) calls).

Definition toLower (c : ascii) : ascii :=
  let n := nat_of_ascii c in if (65 <=? n) && (n <=? 90) then ascii_of_nat (n + 32) else c.

(** [src/src/model/ToolCallParser.cpp:767-787 ToolCallParser::looksLikeToolMarkupSalad] *)
Definition saladAt (s : text) (i : nat) : bool :=
  at_ s i "<" &&
  match findFrom (lit ">") s (S i) with
  | None => false
  | Some close =>
      (close - i <=? 64) &&
      (let low := map toLower (sub s (S i) close) in
       existsb (fun w => bool_decide (is_Some (find (lit w) low))) ["tool"; "invoke"; "function"]%string)
  end.

(** [src/src/model/ToolCallParser.cpp:758-790 ToolCallParser::looksLikeToolMarkupSalad] *)
Definition looksLikeToolMarkupSalad (s : text) : bool := existsb (saladAt s) (seq 0 (length s)).

(** ** Bare JSON *)

(** The matching brace of the one at the front, from position [j] on.
    [src/src/model/ToolCallParser.cpp:889-907 ToolCallParser::parseBareJson] *)
Fixpoint closing (s : text) (j depth : nat) (inStr esc : bool) : option nat :=
  match s with
  | [] => None
  | c :: s =>
      if inStr then
        if esc then closing s (S j) depth true false
        else if Ascii.eqb c "\" then closing s (S j) depth true true
        else if Ascii.eqb c quote then closing s (S j) depth false false
        else closing s (S j) depth true false
      else if Ascii.eqb c quote then closing s (S j) depth true esc
      else if Ascii.eqb c "{" then closing s (S j) (S depth) false esc
      else if Ascii.eqb c "}" then (if depth - 1 =? 0 then Some j else closing s (S j) (depth - 1) false esc)
      else closing s (S j) depth false esc
  end.

(** [src/src/model/ToolCallParser.cpp:881-928 ToolCallParser::parseBareJson] *)
Fixpoint bareJsonLoop (fuel : nat) (s : text) (known : text -> bool) (i : nat) (calls : list ToolCall) : option (list ToolCall) :=
  match fuel with
  | O => None
  | S fuel =>
      if length s <=? i then Some calls
      else match findFrom (lit "{") s i with
           | None => Some calls
           | Some open =>
               match closing (drop open s) open 0 false false with
               | None => Some calls
               | Some closeIdx =>
                   let calls := match objectCall known (parse (sub s open (S closeIdx))) (length calls) with
                                | Some c => calls ++ [c]
                                | None => calls
                                end in
                   bareJsonLoop fuel s known (S closeIdx) calls
               end
           end
  end.

(** [src/src/model/ToolCallParser.cpp:865-931 ToolCallParser::parseBareJson] *)
Definition parseBareJson (s : text) (knownNames : list text) : option (list ToolCall) :=
  bareJsonLoop (S (length s)) s (fun n => existsb (fun k => bool_decide (k = n)) knownNames) 0 [].

(** [src/src/model/ToolCallParser.cpp:851-863 ToolCallParser::looksLikeBareJsonToolCall] *)
Definition looksLikeBareJsonToolCall (s : text) (knownNames : list text) : bool :=
  bool_decide (is_Some (find ([quote] ++ lit "name" ++ [quote]) s)) &&
  existsb (fun n => negb (bool_decide (n = [])) && bool_decide (is_Some (find n s))) knownNames.

(** ** Python calls *)

(** [src/src/model/ToolCallParser.cpp:493-513 orderedParams] *)
Fixpoint orderedParams (specs : list ToolSpec) (name : text) : list text :=
  match specs with
  | [] => []
  | spec :: specs =>
      if bool_decide (s_name spec = name)
      then match parse (s_toolJson spec) ≫= propertiesOf with
           | Some (JObj props) => map fst props
           | _ => orderedParams specs name
           end
      else orderedParams specs name
  end.

Definition isQuote (c : ascii) : bool := Ascii.eqb c quote || isChar 39 c.
Definition opens (c : ascii) : bool := Ascii.eqb c "(" || Ascii.eqb c "[" || Ascii.eqb c "{".
Definition closes (c : ascii) : bool := Ascii.eqb c ")" || Ascii.eqb c "]" || Ascii.eqb c "}".

(** [q] is the quote of an open string, [esc] holds behind a backslash in it.
    [src/src/model/ToolCallParser.cpp:516-537 splitTopLevel] *)
Fixpoint splitTopLevel (s : text) (cur : text) (depth : nat) (q : option ascii) (esc : bool) : list text :=
  match s with
  | [] => [cur]
  | c :: s =>
      match q with
      | Some d =>
          if esc then splitTopLevel s (cur ++ [c]) depth q false
          else if Ascii.eqb c "\" then splitTopLevel s (cur ++ [c]) depth q true
          else if Ascii.eqb c d then splitTopLevel s (cur ++ [c]) depth None false
          else splitTopLevel s (cur ++ [c]) depth q false
      | None =>
          if isQuote c then splitTopLevel s (cur ++ [c]) depth (Some c) false
          else if opens c then splitTopLevel s (cur ++ [c]) (S depth) None false
          else if closes c then splitTopLevel s (cur ++ [c]) (depth - 1) None false
          else if Ascii.eqb c "," && (depth =? 0) then cur :: splitTopLevel s [] depth None false
          else splitTopLevel s (cur ++ [c]) depth None false
      end
  end.

(** The inside of a string literal.
    [src/src/model/ToolCallParser.cpp:545-554 parsePyValue] *)
Fixpoint unescape (s : text) : text :=
  match s with
  | [] => []
  | c :: s' =>
      match s' with
      | n :: s'' =>
          if Ascii.eqb c "\"
          then (if Ascii.eqb n "n" then newline else if Ascii.eqb n "t" then ascii_of_nat 9
                else if Ascii.eqb n "r" then ascii_of_nat 13 else n) :: unescape s''
          else c :: unescape s'
      | [] => [c]
      end
  end.

Definition has (c : ascii) (s : text) : bool := existsb (Ascii.eqb c) s.

(** [src/src/model/ToolCallParser.cpp:540-581 parsePyValue] *)
Definition parsePyValue (raw : text) : json :=
  let v := trimws raw in
  let fallback :=
    if has "." v || has "e" v || has "E" v
    then match stod v with Some (d, used) => if used =? length v then JFloat d else JStr v | None => JStr v end
    else match stoll v with Some (n, used) => if used =? length v then JInt n else JStr v | None => JStr v end in
  match v with
  | f :: _ :: _ =>
      if isQuote f && bool_decide (last v = Some f) then JStr (unescape (take (length v - 2) (drop 1 v)))
      else if bool_decide (v = lit "true") || bool_decide (v = lit "True") then JBool true
      else if bool_decide (v = lit "false") || bool_decide (v = lit "False") then JBool false
      else if bool_decide (v = lit "None") || bool_decide (v = lit "null") then JNull
      else if Ascii.eqb f "[" || Ascii.eqb f "{" then match parse v with Some j => j | None => fallback end
      else fallback
  | [f] => if Ascii.eqb f "[" || Ascii.eqb f "{" then match parse v with Some j => j | None => fallback end else fallback
  | [] => fallback
  end.

(** The closing parenthesis of the call that starts at the front, from position [i] on.
    [src/src/model/ToolCallParser.cpp:609-623 ToolCallParser::parseToolCodeCall] *)
Fixpoint parenEnd (s : text) (i depth : nat) (q : option ascii) (esc : bool) : option nat :=
  match s with
  | [] => None
  | c :: s =>
      match q with
      | Some d =>
          if esc then parenEnd s (S i) depth q false
          else if Ascii.eqb c "\" then parenEnd s (S i) depth q true
          else if Ascii.eqb c d then parenEnd s (S i) depth None false
          else parenEnd s (S i) depth q false
      | None =>
          if isQuote c then parenEnd s (S i) depth (Some c) false
          else if Ascii.eqb c "(" then parenEnd s (S i) (S depth) None false
          else if Ascii.eqb c ")" then (if depth - 1 =? 0 then Some i else parenEnd s (S i) (depth - 1) None false)
          else parenEnd s (S i) depth None false
      end
  end.

(** The equals sign of a keyword argument; [prev] is the character before.
    [src/src/model/ToolCallParser.cpp:633-649 ToolCallParser::parseToolCodeCall] *)
Fixpoint kwargEq (s : text) (j : nat) (prev q : option ascii) (esc : bool) : option nat :=
  match s with
  | [] => None
  | c :: s =>
      match q with
      | Some d =>
          if esc then kwargEq s (S j) (Some c) q false
          else if Ascii.eqb c "\" then kwargEq s (S j) (Some c) q true
          else if Ascii.eqb c d then kwargEq s (S j) (Some c) None false
          else kwargEq s (S j) (Some c) q false
      | None =>
          if isQuote c then kwargEq s (S j) (Some c) (Some c) false
          else if Ascii.eqb c "=" && match s with n :: _ => negb (Ascii.eqb n "=") | [] => true end &&
                  match prev with
                  | Some p => negb (Ascii.eqb p "!") && negb (Ascii.eqb p "<") && negb (Ascii.eqb p ">")
                  | None => true
                  end
          then Some j
          else if opens c then None
          else kwargEq s (S j) (Some c) None false
      end
  end.

(** [src/src/model/ToolCallParser.cpp:626-661 ToolCallParser::parseToolCodeCall] *)
Fixpoint pyArgs (parts : list text) (ordered : list text) (posIdx : nat) (args : list (text * json)) : list (text * json) :=
  match parts with
  | [] => args
  | part :: parts =>
      let a := trimws part in
      if bool_decide (a = []) then pyArgs parts ordered posIdx args
      else
        let '(key, val, posIdx) :=
          match kwargEq a 0 None None false with
          | Some eq => (trimws (take eq a), drop (S eq) a, posIdx)
          | None => (default (lit "arg" ++ lit (pretty (N.of_nat posIdx))) (ordered !! posIdx), a, S posIdx)
          end in
        pyArgs parts ordered posIdx (if bool_decide (key = []) then args else setKey key (parsePyValue val) args)
  end.

Definition isAlnum (c : ascii) : bool :=
  let n := nat_of_ascii c in (48 <=? n) && (n <=? 57) || (65 <=? n) && (n <=? 90) || (97 <=? n) && (n <=? 122).

(** The first call of one tool.
    [src/src/model/ToolCallParser.cpp:598-669 ToolCallParser::parseToolCodeCall] *)
Fixpoint pyCall (fuel : nat) (s : text) (specs : list ToolSpec) (name : text) (p : nat) : option (option ToolCall) :=
  match fuel with
  | O => None
  | S fuel =>
      match findFrom name s p with
      | None => Some None
      | Some p =>
          let after := p + length name in
          if match p with O => false | S p' => match s !! p' with Some c => isAlnum c || Ascii.eqb c "_" || Ascii.eqb c "." | None => false end end
          then pyCall fuel s specs name after
          else
            let q := until (fun c => negb (Ascii.eqb c " " || isChar 9 c)) s after in
            if negb (at_ s q "(") then pyCall fuel s specs name after
            else match parenEnd (drop q s) q 0 None false with
                 | None => pyCall fuel s specs name after
                 | Some e =>
                     let args := pyArgs (splitTopLevel (sub s (S q) e) [] 0 None false) (orderedParams specs name) 0 [] in
                     Some (Some (mkCall (callId 0) name (dump (JObj args))))
                 end
      end
  end.

(** [all] are the offered tools, [specs] those still to be tried.
    [src/src/model/ToolCallParser.cpp:585-673 ToolCallParser::parseToolCodeCall] *)
Fixpoint parseToolCodeCall (s : text) (all specs : list ToolSpec) : option (list ToolCall) :=
  match specs with
  | [] => Some []
  | spec :: specs =>
      if bool_decide (s_name spec = []) then parseToolCodeCall s all specs
      else match pyCall (S (length s)) s all (s_name spec) 0 with
           | None => None
           | Some (Some c) => Some [c]
           | Some None => parseToolCodeCall s all specs
           end
  end.
End parser.
End ToolCallParser.
Import ToolCallParser.

Module ToolCallExtractor.
Section extractor.
Context `{Json}.

(** [src/src/model/ChatTemplate.hpp:83-94 ChatTemplate::ToolFormat] *)
Inductive ToolFormat := HermesJson | QwenXml.

#[global] Instance ToolFormat_eq_dec : EqDecision ToolFormat.
Proof. solve_decision. Defined.

(** The calls and whether the last resort found them.
    [src/src/server/ToolCallExtractor.cpp:12-43 ToolCallExtractor::parseQwenDialects] *)
Definition parseQwenDialects (block : text) (toolFormat : ToolFormat) (toolSpecs : list ToolSpec) (tryNoisy : bool)
    : option (list ToolCall * bool) :=
  let xml := parseQwenXml block toolSpecs in
  let hermes := parseQwen block in
  calls ← (if decide (toolFormat = QwenXml) then xml else hermes);
  calls ← (match calls with [] => if decide (toolFormat = QwenXml) then hermes else xml | _ => Some calls end);
  match calls with
  | [] => if (tryNoisy : bool)
          then noisy ← parseQwenXmlNoisy block toolSpecs; Some (noisy, match noisy with [] => false | _ => true end)
          else Some ([], false)
  | _ => Some (calls, false)
  end.

(** [src/src/server/ToolCallExtractor.cpp:45-62 ToolCallExtractor::extractBlock] *)
Definition extractBlock (block : text) (style : ChatTemplate.Style) (toolFormat : ToolFormat) (toolSpecs : list ToolSpec)
    (bare : bool) : option (list ToolCall) :=
  if decide (style = ChatTemplate.Gemma4) then parseGemma block
  else if bare then parseQwenXmlBare block toolSpecs
  else fst <$> parseQwenDialects block toolFormat toolSpecs (negb bare).

(** The calls and whether they came from a tool_code fence.
    [src/src/server/ToolCallExtractor.cpp:64-98 ToolCallExtractor::extractBareFallbacks] *)
Definition extractBareFallbacks (s : text) (toolSpecs : list ToolSpec) : option (list ToolCall * bool) :=
  looks ← looksLikeBareQwenXmlCall s toolSpecs;
  calls ← (if (looks : bool) then parseQwenXmlBare s toolSpecs else Some []);
  let toolNames := map s_name toolSpecs in
  calls ← (match calls with
           | [] => if looksLikeBareJsonToolCall s toolNames then parseBareJson s toolNames else Some []
           | _ => Some calls
           end);
  match calls with
  | [] => calls ← parseToolCodeCall s toolSpecs toolSpecs; Some (calls, match calls with [] => false | _ => true end)
  | _ => Some (calls, false)
  end.

(** [src/src/server/ToolCallExtractor.cpp:100-104 ToolCallExtractor::parseCanonicalXml] *)
Definition parseCanonicalXml (s : text) (toolSpecs : list ToolSpec) : option (list ToolCall) := parseQwenXml s toolSpecs.

(** [src/src/server/IToolCallParser.hpp:30-43 ToolCallExtraction] *)
Record ToolCallExtraction := mkExtraction {
  calls : list ToolCall;
  usedNoisy : bool;
  fromToolCode : bool;
  sawToolMarkup : bool;
}.

(** [src/src/server/QwenToolParser.cpp:19-38 QwenToolParser::extract] *)
Definition qwenExtract (format : ToolFormat) (s : text) (tools : list ToolSpec) : option ToolCallExtraction :=
  if looksLikeQwenToolCall s
  then r ← parseQwenDialects s format tools true; Some (mkExtraction (fst r) (snd r) false true)
  else r ← extractBareFallbacks s tools; Some (mkExtraction (fst r) false (snd r) false).

(** [src/src/server/GemmaToolParser.cpp:16-25 GemmaToolParser::extract] *)
Definition gemmaExtract (s : text) : option ToolCallExtraction :=
  if looksLikeGemmaToolCall s
  then calls ← parseGemma s; Some (mkExtraction calls false false true)
  else Some (mkExtraction [] false false false).

(** ** The registry *)

Inductive Parser := Qwen (format : ToolFormat) | Gemma.

(** [src/src/server/ToolCallParserRegistry.cpp:12-21 ToolCallParserRegistry::ToolCallParserRegistry] *)
Definition parsers : list (string * Parser) :=
  [("qwen3-coder-xml", Qwen QwenXml); ("hermes", Qwen HermesJson); ("gemma", Gemma)]%string.

(** [src/src/server/ToolCallParserRegistry.cpp:28-35 ToolCallParserRegistry::get] *)
Definition get (name : string) : option Parser := snd <$> List.find (fun p => String.eqb (fst p) name) parsers.

Definition lower (s : string) : string := String.string_of_list_ascii (map toLower (lit s)).

(** No answer where it throws.
    [src/src/model/ChatTemplate.cpp:70-104 ChatTemplate::detectFromArch] *)
Definition detectFromArch (architecture : string) : option ChatTemplate.Style :=
  let arch := lower architecture in
  if String.prefix "qwen" arch then Some ChatTemplate.QwenChatML
  else if String.eqb arch "kolibri1" then Some ChatTemplate.QwenChatML
  else if String.eqb arch "gemma2" || String.eqb arch "gemma3" then Some ChatTemplate.Gemma3
  else if String.eqb arch "gemma4" then Some ChatTemplate.Gemma4
  else if String.eqb arch "llama" then Some ChatTemplate.Llama3
  else None.

(** [src/src/model/ChatTemplate.cpp:106-117 ChatTemplate::toolFormatFromArch] *)
Definition toolFormatFromArch (architecture : string) : ToolFormat :=
  let arch := lower architecture in
  if String.prefix "qwen35" arch || String.prefix "qwen4" arch || String.prefix "qwen3next" arch then QwenXml else HermesJson.

(** [src/src/server/ToolCallParserRegistry.cpp:37-68 ToolCallParserRegistry::resolve] *)
Definition resolve (configName architecture : string) : option Parser :=
  if negb (String.eqb configName EmptyString) then get configName
  else match detectFromArch architecture with
       | None => None
       | Some ChatTemplate.Gemma4 => get "gemma"
       | Some ChatTemplate.QwenChatML =>
           if decide (toolFormatFromArch architecture = QwenXml) then get "qwen3-coder-xml" else get "hermes"
       | Some _ => None
       end.

(** The call through the interface.
    [src/src/server/IToolCallParser.hpp:61-63 IToolCallParser::extract] *)
Definition extract (p : Parser) (s : text) (tools : list ToolSpec) : option ToolCallExtraction :=
  match p with Qwen format => qwenExtract format s tools | Gemma => gemmaExtract s end.
End extractor.
End ToolCallExtractor.

Module ToolCallRendering.
Section rendering.
Context `{Json}.

(** The text of an argument.
    [src/src/model/chat/QwenChatEncoder.cpp:41-41 renderQwenXmlCall] *)
Definition shown (v : json) : option text := match v with JStr s => Some s | v => dumpStrict v end.

Fixpoint renderParams (args : list (text * json)) : option text :=
  match args with
  | [] => Some []
  | (key, v) :: args =>
      t ← shown v;
      rest ← renderParams args;
      Some (kParam ++ key ++ lit ">" ++ [newline] ++ t ++ [newline] ++ kParamEnd ++ [newline] ++ rest)
  end.

(** Not at all where printing throws.
    [src/src/model/chat/QwenChatEncoder.cpp:33-47 renderQwenXmlCall] *)
Definition renderQwenXmlCall (call : ToolCall) : option text :=
  body ← (match parse (c_argumentsJson call) with Some (JObj args) => renderParams args | _ => Some [] end);
  Some (kOpen ++ [newline] ++ kFunc ++ c_name call ++ lit ">" ++ [newline] ++ body ++
        kFuncEnd ++ [newline] ++ kClose).

(** [src/src/model/chat/GemmaChatEncoder.cpp:171-207 gemmaDslValue] *)
Fixpoint gemmaDslValue (v : json) : text :=
  match v with
  | JStr s => kGQuote ++ s ++ kGQuote
  | JBool b => lit (if b then "true" else "false")
  | JInt z => showInt z
  | JFloat d => showFloat d
  | JArr l =>
      lit "[" ++ (fix go (first : bool) (l : list json) : text :=
        match l with
        | [] => []
        | e :: l => (if first then [] else lit ",") ++ gemmaDslValue e ++ go false l
        end) true l ++ lit "]"
  | JObj l =>
      lit "{" ++ (fix go (first : bool) (l : list (text * json)) : text :=
        match l with
        | [] => []
        | (k, e) :: l => (if first then [] else lit ",") ++ k ++ lit ":" ++ gemmaDslValue e ++ go false l
        end) true l ++ lit "}"
  | JNull => kGQuote ++ kGQuote
  end.

(** [src/src/model/chat/GemmaChatEncoder.cpp:271-277 gemmaRenderCallArgs] *)
Definition gemmaRenderCallArgs (argsJson : text) : text :=
  match parse argsJson with Some (JObj l) => gemmaDslValue (JObj l) | _ => lit "{}" end.

(** The markup of one call of an assistant turn.
    [src/src/model/chat/GemmaChatEncoder.cpp:341-347 encodeGemma4Tools] *)
Definition gemmaRenderCall (call : ToolCall) : text :=
  kGOpen ++ lit "call:" ++ c_name call ++ gemmaRenderCallArgs (c_argumentsJson call) ++ kGClose.
End rendering.
End ToolCallRendering.
