(* ===== verification/ToolCallsProofs.v ===== *)
(** * Tool calls: theorems

    Every parser answers on every text, what it lets through is numbered and, without
    the model's own envelope, named after an offered tool; calls rendered into a prompt
    are read back. *)

From Stdlib Require Import Ascii SpecFloat Sorted.
From stdpp Require Import pretty.
From S2P Require Import Prelude StreamFilters StreamFiltersProofs ToolCalls.
Import StreamText StreamSearch ToolJson ToolCallParser ToolCallExtractor.

Module ToolCallTotal.
Import CleanerProofs(findFrom_Some).

(** ** Positions *)

Section total.
Context `{Json}.

(** Calls that satisfy [Q] with their position. *)
Definition numbered (Q : nat -> ToolCall -> Prop) (l : list ToolCall) : Prop := forall i c, l !! i = Some c -> Q i c.

Lemma numbered_nil Q : numbered Q [].
Proof. intros i c Hi. by rewrite lookup_nil in Hi. Qed.

Lemma numbered_snoc Q l c : numbered Q l -> Q (length l) c -> numbered Q (l ++ [c]).
Proof.
  intros Hl Hc i d Hi. apply lookup_app_Some in Hi as [Hi|[Hle Hi]]; [by apply Hl|].
  apply list_lookup_singleton_Some in Hi as [Hz <-]. by replace i with (length l) by lia.
Qed.

(** What a reader of one block has to do. *)
Definition reads (Q : nat -> ToolCall -> Prop) (block : text -> nat -> option (option ToolCall)) : Prop :=
  forall b n, exists r, block b n = Some r /\ forall c, r = Some c -> Q n c.

Lemma blocks_total Q op cl block s fuel : forall pos calls, reads Q block -> 0 < length op ->
  length s < fuel + pos -> pos <= length s -> numbered Q calls ->
  exists calls', blocks fuel op cl block s pos calls = Some calls' /\ numbered Q calls'.
Proof.
  induction fuel as [|fuel IH]; intros pos calls Hb Hop Hf Hpos Hq; [lia|]. cbn [blocks].
  destruct (findFrom op s pos) as [open|] eqn:Eo; [|by exists calls]. apply findFrom_Some in Eo as (Ho1 & Ho2 & _).
  set (close := findFrom cl s (open + length op)).
  destruct (Hb (sub s (open + length op) (default (length s) close)) (length calls)) as (r & -> & Hr).
  cbn [mbind option_bind]. set (calls1 := match r with Some c => calls ++ [c] | None => calls end).
  assert (Hq1 : numbered Q calls1).
  { unfold calls1. destruct r as [c|]; [|done]. apply numbered_snoc; [done|]. by apply Hr. }
  destruct close as [c|] eqn:Ec; [|by exists calls1]. apply findFrom_Some in Ec as (Hc1 & Hc2 & _).
  apply IH; [done..|lia|lia|done].
Qed.

(** ** The argument language *)

Definition good (i : nat) (r : Parsed) : Prop :=
  match r with None => False | Some None => True | Some (Some (_, j)) => i <= j end.

Lemma until_le f s i : i <= until f s i.
Proof. unfold until. lia. Qed.

Lemma skipws_le s i : i <= skipws s i.
Proof. unfold skipws. lia. Qed.

Lemma at_lt s i c : at_ s i c = true -> i < length s.
Proof. unfold at_. destruct (s !! i) as [d|] eqn:E; [|done]. intros _. by eapply lookup_lt_Some. Qed.

Lemma dquoteLoop_le s : forall i out o j, dquoteLoop s i out = Some (o, j) -> i <= j.
Proof.
  induction s as [s IH] using (induction_ltof1 _ (@length _)). intros i out o j. unfold ltof in IH.
  destruct s as [|c s]; [done|]. cbn [dquoteLoop]. destruct (Ascii.eqb c quote); [intros [= <- <-]; lia|].
  destruct s as [|d s]; [done|]. destruct (Ascii.eqb c "\").
  - intros Hd. apply IH in Hd; [lia|cbn; lia].
  - intros Hd. apply IH in Hd; [lia|cbn; lia].
Qed.

Lemma leaves_good s i : good i (gstring s i) /\ good i (dquote s i) /\ good i (scalar s i).
Proof.
  split_and!.
  - unfold gstring. destruct (findFrom _ _ _) as [e|] eqn:E; [|done]. apply findFrom_Some in E. cbn in *. lia.
  - unfold dquote. destruct (dquoteLoop _ _ _) as [[o j]|] eqn:E; [|done]. apply dquoteLoop_le in E. cbn. lia.
  - unfold scalar. destruct (existsb _ _); apply until_le.
Qed.

Lemma good_le i j r : i <= j -> good j r -> good i r.
Proof. destruct r as [[[v k]|]|]; cbn; lia. Qed.

Lemma dsl_total s fuel :
  (forall i, 3 * (length s - i) + 1 <= fuel -> good i (value fuel s i)) /\
  (forall i, i < length s -> 3 * (length s - i) <= fuel -> good i (object fuel s i)) /\
  (forall i obj, 3 * (length s - i) + 2 <= fuel -> good i (members fuel s i obj)) /\
  (forall i, i < length s -> 3 * (length s - i) <= fuel -> good i (array fuel s i)) /\
  (forall i arr, 3 * (length s - i) + 2 <= fuel -> good i (elements fuel s i arr)).
Proof.
  induction fuel as [|fuel (IHv & IHo & IHm & IHa & IHe)]; [split_and!; intros; lia|]. split_and!.
  - intros i Hi. cbn [value]. pose proof (skipws_le s i). set (j := skipws s i) in *.
    apply (good_le i j); [done|]. destruct (leaves_good s j) as (H1 & H2 & H3).
    destruct (starts kGQuote _); [done|]. destruct (at_ s j quote); [done|].
    destruct (at_ s j "{") eqn:E1; [apply at_lt in E1; apply IHo; lia|].
    destruct (at_ s j "[") eqn:E2; [apply at_lt in E2; apply IHa; lia|].
    destruct (starts (lit "true") _); [cbn; lia|]. by destruct (starts (lit "false") _); [cbn; lia|].
  - intros i Hi Hf. cbn [object]. pose proof (skipws_le s (S i)). set (j := skipws s (S i)) in *.
    apply (good_le i j); [lia|]. destruct (at_ s j "}"); [cbn; lia|]. apply IHm. lia.
  - intros i obj Hf. cbn [members]. pose proof (skipws_le s i). set (ks := skipws s i) in *.
    set (j := until _ s ks). assert (ks <= j) by apply until_le.
    destruct (at_ s j ":") eqn:Ec; cbn [negb]; [|done]. apply at_lt in Ec.
    pose proof (IHv (S j) ltac:(lia)) as Hv. destruct (value fuel s (S j)) as [[[v k]|]|]; [|done|done]. cbn [good] in Hv.
    pose proof (skipws_le s k). set (l := skipws s k) in *.
    destruct (at_ s l ",") eqn:E1; [apply at_lt in E1; apply (good_le i (S l)); [lia|]; apply IHm; lia|].
    destruct (at_ s l "}"); [cbn; lia|done].
  - intros i Hi Hf. cbn [array]. pose proof (skipws_le s (S i)). set (j := skipws s (S i)) in *.
    apply (good_le i j); [lia|]. destruct (at_ s j "]"); [cbn; lia|]. apply IHe. lia.
  - intros i arr Hf. cbn [elements]. pose proof (IHv i ltac:(lia)) as Hv.
    destruct (value fuel s i) as [[[v k]|]|]; [|done|done]. cbn [good] in Hv.
    pose proof (skipws_le s k). set (l := skipws s k) in *.
    destruct (at_ s l ",") eqn:E1; [apply at_lt in E1; apply (good_le i (S l)); [lia|]; apply IHe; lia|].
    destruct (at_ s l "]"); [cbn; lia|done].
Qed.

(** ** The blocks *)

Definition isId (n : nat) (c : ToolCall) : Prop := c_id c = callId n.

Lemma gemma_reads : reads isId gemmaBlock.
Proof.
  intros b n. unfold gemmaBlock. destruct (starts _ _); cbn [negb]; [|by eexists].
  destruct (bool_decide _); cbn [orb]; [by eexists|].
  set (p := until _ _ _). destruct (at_ b p "{") eqn:E; cbn [negb]; [|by eexists]. apply at_lt in E.
  pose proof (dsl_total b (dslFuel b)) as (_ & Ho & _). specialize (Ho p E ltac:(unfold dslFuel; lia)).
  destruct (object _ b p) as [[[v j]|]|]; [|by eexists|done]. eexists. split; [done|]. by intros c [= <-].
Qed.

Lemma objectCall_id accept j n c : objectCall accept j n = Some c -> isId n c /\ accept (c_name c) = true.
Proof.
  unfold objectCall. destruct j as [[]|]; try done. destruct (lookupKey _ _) as [[]|]; try done.
  destruct (accept _) eqn:E; [|done]. by intros [= <-].
Qed.

Lemma hermes_reads : reads isId (fun body n => Some (objectCall (fun _ => true) (parseWithBraceRepair body) n)).
Proof. intros b n. eexists. split; [done|]. intros c Hc. by apply objectCall_id in Hc as [? _]. Qed.

Lemma parameters_total scope specs name paramsEnd fuel : forall p args,
  length scope < fuel + p -> p <= length scope -> paramsEnd <= length scope ->
  exists args', parameters fuel scope specs name paramsEnd p args = Some args'.
Proof.
  induction fuel as [|fuel IH]; intros p args Hf Hp Hend; [lia|]. cbn [parameters].
  destruct (findFrom kParam scope p) as [ps|] eqn:Eps; [|by eexists]. apply findFrom_Some in Eps as (Hp1 & Hp2 & _).
  destruct (Nat.leb_spec paramsEnd ps); [by eexists|].
  destruct (findFrom (lit ">") scope (ps + length kParam)) as [ke|] eqn:Eke; [|by eexists].
  apply findFrom_Some in Eke as (Hk1 & Hk2 & _). change (length (lit ">")) with 1 in Hk2.
  assert (Hnext : forall ve', ve' = Nat.min paramsEnd (default paramsEnd (findFrom kParam scope (S ke))) -> ps < ve' <= length scope).
  { intros ve' ->. destruct (findFrom kParam scope (S ke)) as [x|] eqn:Ex; cbn [default from_option id]; [|unfold id; lia].
    apply findFrom_Some in Ex. unfold id. lia. }
  cbv zeta. destruct (findFrom kParamEnd scope (S ke)) as [ve|] eqn:Eve.
  - apply findFrom_Some in Eve as (Hv1 & Hv2 & _). destruct (Nat.leb_spec ve paramsEnd).
    + apply IH; lia.
    + destruct (Hnext _ eq_refl). apply IH; lia.
  - destruct (Hnext _ eq_refl). apply IH; lia.
Qed.

Lemma span_total scope fn specs : fn + length kFunc <= length scope ->
  exists r, parseFunctionSpan scope fn specs = Some r /\ forall c e, r = Some (c, e) -> fn < e <= length scope.
Proof.
  intros Hfn. unfold parseFunctionSpan. destruct (findFrom (lit ">") _ _) as [ne|] eqn:En; [|by eexists].
  apply findFrom_Some in En as (Hn1 & Hn2 & _). change (length (lit ">")) with 1 in Hn2.
  destruct (bool_decide _); [by eexists|]. change (length kFunc) with 10 in *.
  destruct (findFrom kFuncEnd scope (S ne)) as [fe|] eqn:Ef; cbn [default from_option]; unfold id.
  - apply findFrom_Some in Ef as (Hf1 & Hf2 & _). change (length kFuncEnd) with 11 in *.
    destruct (parameters_total scope specs (trimws (sub scope (fn + 10) ne)) fe (S (length scope)) (S ne) [])
      as (args & ->); [lia..|]. eexists. split; [done|]. intros c e [= _ <-]. lia.
  - destruct (parameters_total scope specs (trimws (sub scope (fn + 10) ne)) (length scope) (S (length scope)) (S ne) [])
      as (args & ->); [lia..|]. eexists. split; [done|]. intros c e [= _ <-]. lia.
Qed.

Lemma find_bound p s i : find p s = Some i -> i + length p <= length s.
Proof. intros Hf. apply find_Some in Hf as [Ho _]. by apply occurs_bound in Ho. Qed.

Lemma xml_reads specs : reads isId (xmlBlock specs).
Proof.
  intros b n. unfold xmlBlock. destruct (find kFunc b) as [fn|] eqn:E; [|by eexists].
  destruct (span_total b fn specs (find_bound _ _ _ E)) as (r & -> & _). cbn [option_map]. eexists. split; [done|].
  intros c. by destruct r as [[d e]|]; intros [= <-].
Qed.

(** ** The fallbacks *)

Definition isOffered (specs : list ToolSpec) (c : ToolCall) : Prop := exists spec, spec ∈ specs /\ s_name spec = c_name c.

Lemma offered_spec specs c : offered specs (c_name c) = true -> isOffered specs c.
Proof.
  unfold offered. rewrite existsb_exists. intros (spec & Hin & Hn). exists spec.
  rewrite list_elem_of_In. split; [done|]. by apply bool_decide_eq_true in Hn.
Qed.

Definition gated (specs : list ToolSpec) (n : nat) (c : ToolCall) : Prop := isId n c /\ isOffered specs c.

Lemma bareCallFrom_total s specs fuel : forall fn, (forall i, fn = Some i -> i + length kFunc <= length s /\ length s < fuel + i) ->
  exists b, bareCallFrom fuel s specs fn = Some b.
Proof.
  induction fuel as [|fuel IH]; intros [fn|] Hfn; cbn [bareCallFrom]; try by eexists.
  - destruct (Hfn fn eq_refl). lia.
  - destruct (existsb _ specs); [by eexists|]. apply IH. intros i Hi. apply findFrom_Some in Hi.
    destruct (Hfn fn eq_refl). change (length kFunc) with 10 in *. lia.
Qed.

Lemma looks_total s specs : exists b, looksLikeBareQwenXmlCall s specs = Some b.
Proof.
  unfold looksLikeBareQwenXmlCall. destruct (find kFunc s) as [i|] eqn:E; [|by destruct (length s); eexists].
  apply find_bound in E. change (length kFunc) with 10 in E. destruct (length s) as [|n] eqn:El; [lia|].
  cbn [bareCallFrom]. destruct (existsb _ specs); [by eexists|]. apply bareCallFrom_total. intros j Hj.
  apply findFrom_Some in Hj. change (length kFunc) with 10 in *. lia.
Qed.

Lemma fenced_total s fuel : forall pos, length s < fuel + pos -> pos <= length s -> exists r, fencedRanges fuel s pos = Some r.
Proof.
  induction fuel as [|fuel IH]; intros pos Hf Hp; [lia|]. cbn [fencedRanges].
  destruct (findFrom fence s pos) as [o|] eqn:Eo; [|by eexists]. apply findFrom_Some in Eo. change (length fence) with 3 in Eo.
  destruct (findFrom fence s (o + 3)) as [c|] eqn:Ec; [|by eexists]. apply findFrom_Some in Ec. change (length fence) with 3 in Ec.
  destruct (IH (c + 3)) as (r & ->); [lia..|]. by eexists.
Qed.

Lemma bareLoop_total s specs fences fuel : forall pos calls, length s < fuel + pos -> pos <= length s ->
  numbered (gated specs) calls ->
  exists calls', bareLoop fuel s specs fences pos calls = Some calls' /\ numbered (gated specs) calls'.
Proof.
  induction fuel as [|fuel IH]; intros pos calls Hf Hp Hq; [lia|]. cbn [bareLoop].
  destruct (findFrom kFunc s pos) as [fn|] eqn:E; [|by eexists]. apply findFrom_Some in E as (H1 & H2 & _).
  assert (Hnext : forall l, numbered (gated specs) l -> exists calls', bareLoop fuel s specs fences (fn + length kFunc) l = Some calls' /\
    numbered (gated specs) calls') by (intros l Hl; change (length kFunc) with 10 in *; apply IH; [lia..|done]).
  destruct (insideRange fences fn); [by apply Hnext|].
  destruct (span_total s fn specs H2) as (r & -> & Hr). destruct r as [[c e]|]; [|by apply Hnext].
  destruct (offered specs (c_name c)) eqn:Eo; [|by apply Hnext]. destruct (Hr c e eq_refl).
  apply IH; [lia..|]. apply numbered_snoc; [done|]. split; [done|]. by apply offered_spec in Eo.
Qed.

Lemma bare_total s specs : exists l, parseQwenXmlBare s specs = Some l /\ numbered (gated specs) l.
Proof.
  unfold parseQwenXmlBare. destruct (fenced_total s (S (length s)) 0) as (f & ->); [lia..|]. cbn [mbind option_bind].
  apply bareLoop_total; [lia..|]. apply numbered_nil.
Qed.

Lemma eraseAll_total m fuel : 0 < length m -> forall s p, length s <= fuel -> exists t, eraseAll fuel m s p = Some t.
Proof.
  intros Hm. induction fuel as [|fuel IH]; intros s p Hf; cbn [eraseAll];
    destruct (findFrom m s p) as [q|] eqn:E; try by eexists.
  - apply findFrom_Some in E. lia.
  - apply findFrom_Some in E. apply IH. rewrite length_app, length_take, length_drop. lia.
Qed.

Lemma repair_total m fuel : 0 < length m -> forall s p, length s <= fuel + p -> exists t, repair fuel m s p = Some t.
Proof.
  intros Hm. induction fuel as [|fuel IH]; intros s p Hf; cbn [repair];
    destruct (findFrom m s p) as [q|] eqn:E; try by eexists.
  - apply findFrom_Some in E. lia.
  - apply findFrom_Some in E. destruct (negb _ || _); apply IH; [|lia].
    rewrite length_app, length_take. cbn [length]. rewrite length_drop. lia.
Qed.

Lemma xml_total s specs : exists l, parseQwenXml s specs = Some l /\ numbered isId l.
Proof. apply blocks_total; [apply xml_reads|cbn; lia|lia|lia|apply numbered_nil]. Qed.

Lemma hermes_total s : exists l, parseQwen s = Some l /\ numbered isId l.
Proof. apply blocks_total; [apply hermes_reads|cbn; lia|lia|lia|apply numbered_nil]. Qed.

Lemma gemma_total s : exists l, parseGemma s = Some l /\ numbered isId l.
Proof. apply blocks_total; [apply gemma_reads|cbn; lia|lia|lia|apply numbered_nil]. Qed.

Lemma callId_inj m n : callId m = callId n -> m = n.
Proof.
  unfold callId. intros Heq. apply app_inv_head in Heq.
  apply (f_equal String.string_of_list_ascii) in Heq. rewrite !String.string_of_list_ascii_of_string in Heq.
  apply (inj pretty) in Heq. lia.
Qed.

Lemma ids_distinct l : numbered isId l -> NoDup (map c_id l).
Proof.
  intros Hl. apply NoDup_alt. intros i j x Hi Hj. rewrite list_lookup_fmap in Hi, Hj.
  destruct (l !! i) as [c|] eqn:Ec; [|done]. destruct (l !! j) as [d|] eqn:Ed; [|done]. cbn in Hi, Hj.
  pose proof (Hl i c Ec) as H1. pose proof (Hl j d Ed) as H2. unfold isId in *. apply callId_inj. congruence.
Qed.

Lemma noisy_total s specs : exists l, parseQwenXmlNoisy s specs = Some l /\ NoDup (map c_id l) /\ Forall (isOffered specs) l.
Proof.
  unfold parseQwenXmlNoisy.
  destruct (eraseAll_total (lit "<|im_start|>") (length s) ltac:(cbn; lia) s 0 (le_n _)) as (s1 & ->). cbn [mbind option_bind].
  destruct (eraseAll_total (lit "<|im_end|>") (length s1) ltac:(cbn; lia) s1 0 (le_n _)) as (s2 & ->). cbn [mbind option_bind].
  destruct (eraseAll_total (lit "<|endoftext|>") (length s2) ltac:(cbn; lia) s2 0 (le_n _)) as (s3 & ->). cbn [mbind option_bind].
  destruct (repair_total (lit "function=") (length s3) ltac:(cbn; lia) s3 0 ltac:(lia)) as (s4 & ->). cbn [mbind option_bind].
  destruct (repair_total (lit "parameter=") (length s4) ltac:(cbn; lia) s4 0 ltac:(lia)) as (s5 & ->). cbn [mbind option_bind].
  destruct (xml_total s5 specs) as (l & -> & Hl). cbn [mbind option_bind]. eexists. split; [done|]. split.
  - apply ids_distinct in Hl. clear -Hl. induction l as [|c l IH]; [done|]. cbn in Hl. apply NoDup_cons in Hl as [Hn Hl].
    rewrite filter_cons. destruct (decide _); [|by apply IH]. cbn. apply NoDup_cons. split; [|by apply IH].
    intros Hin. apply Hn. apply list_elem_of_fmap in Hin as (d & -> & Hd). apply list_elem_of_filter in Hd as [_ Hd].
    by apply list_elem_of_fmap_2.
  - apply Forall_forall. intros c Hc. apply list_elem_of_filter in Hc as [Hc _]. by apply offered_spec.
Qed.

Lemma closing_le s : forall j depth a b k, closing s j depth a b = Some k -> j <= k < j + length s.
Proof.
  induction s as [|c s IH]; intros j depth a b k; cbn [closing length]; [done|].
  assert (Hs : forall d a b, closing s (S j) d a b = Some k -> j <= k < j + S (length s)) by (intros d x y Hc; apply IH in Hc; lia).
  repeat (case_match; try apply Hs). intros [= <-]. lia.
Qed.

Lemma bareJson_total s names fuel : forall i calls, length s < fuel + i -> i <= length s ->
  numbered (gated names) calls ->
  exists l, bareJsonLoop fuel s (fun n => existsb (fun k => bool_decide (k = n)) (map s_name names)) i calls = Some l /\
    numbered (gated names) l.
Proof.
  induction fuel as [|fuel IH]; intros i calls Hf Hi Hq; [lia|]; cbn [bareJsonLoop].
  destruct (Nat.leb_spec (length s) i); [by eexists|].
  destruct (findFrom (lit "{") s i) as [o|] eqn:Eo; [|by eexists]. apply findFrom_Some in Eo as (Ho1 & Ho2 & _).
  destruct (closing (drop o s) o 0 false false) as [k|] eqn:Ek; [|by eexists]. apply closing_le in Ek.
  rewrite length_drop in Ek. apply IH; [lia..|].
  destruct (objectCall _ _ _) as [c|] eqn:Ec; [|done]. apply objectCall_id in Ec as [Hid Hk].
  apply numbered_snoc; [done|]. split; [done|]. apply existsb_exists in Hk as (n & Hn & Heq).
  apply bool_decide_eq_true in Heq. apply in_map_iff in Hn as (spec & Hs & Hin). exists spec.
  rewrite list_elem_of_In. split; [done|]. congruence.
Qed.

Lemma pyCall_total s specs name fuel : 0 < length name -> forall p, length s < fuel + p -> p <= length s ->
  exists r, pyCall fuel s specs name p = Some r /\ forall c, r = Some c -> c_id c = callId 0 /\ c_name c = name.
Proof.
  intros Hn. induction fuel as [|fuel IH]; intros p Hf Hp; [lia|]. cbn [pyCall].
  destruct (findFrom name s p) as [q|] eqn:E; [|by eexists]. apply findFrom_Some in E as (H1 & H2 & _).
  assert (Hnext : exists r, pyCall fuel s specs name (q + length name) = Some r /\
    forall c, r = Some c -> c_id c = callId 0 /\ c_name c = name) by (apply IH; lia).
  match goal with |- context [if ?b then _ else _] => destruct b end; [exact Hnext|].
  destruct (negb _); [exact Hnext|]. destruct (parenEnd _ _ _ _ _) as [e|]; [|exact Hnext].
  eexists. split; [done|]. by intros c [= <-].
Qed.

Lemma toolCode_total s all : forall specs, exists l, parseToolCodeCall s all specs = Some l /\ length l <= 1 /\ Forall (isOffered specs) l.
Proof.
  induction specs as [|spec specs IH]; cbn [parseToolCodeCall]; [exists []; split_and!; [done|cbn; lia|constructor]|].
  assert (Hnext : exists l, parseToolCodeCall s all specs = Some l /\ length l <= 1 /\ Forall (isOffered (spec :: specs)) l).
  { destruct IH as (l & -> & Hl & Ho). exists l. split_and!; [done..|]. eapply Forall_impl; [exact Ho|].
    intros c (x & Hx & Hc). exists x. split; [by right|done]. }
  destruct (bool_decide (s_name spec = [])) eqn:E; [exact Hnext|]. apply bool_decide_eq_false in E.
  destruct (pyCall_total s all (s_name spec) (S (length s)) ltac:(destruct (s_name spec); [done|cbn; lia]) 0) as (r & -> & Hr); [lia..|].
  destruct r as [c|]; [|exact Hnext]. destruct (Hr c eq_refl) as [_ Hc]. exists [c]. split_and!; [done|done|].
  apply Forall_singleton. exists spec. split; [by left|done].
Qed.

(** ** The ladders *)

Lemma numbered_gated specs l : numbered (gated specs) l -> NoDup (map c_id l) /\ Forall (isOffered specs) l.
Proof.
  intros Hl. split; [apply ids_distinct; intros i c Hi; by apply Hl|].
  apply Forall_lookup. intros i c Hi. by apply (Hl i c).
Qed.

Lemma short_distinct (l : list ToolCall) : length l <= 1 -> NoDup (map c_id l).
Proof. destruct l as [|c [|d l]]; cbn; [constructor|intros _; apply NoDup_singleton|lia]. Qed.

Lemma dialects_total s format specs noisy : exists l used, parseQwenDialects s format specs noisy = Some (l, used) /\
  NoDup (map c_id l) /\ (used = true -> noisy = true /\ l <> [] /\ Forall (isOffered specs) l).
Proof.
  unfold parseQwenDialects. destruct (xml_total s specs) as (x & Hx & Nx). destruct (hermes_total s) as (h & Hh & Nh).
  rewrite Hx, Hh. apply ids_distinct in Nx, Nh.
  destruct (noisy_total s specs) as (n & -> & Nn & On).
  destruct (decide (format = QwenXml)); cbn [mbind option_bind]; [destruct x, h|destruct h, x]; cbn [mbind option_bind];
    try (by eexists _, false); (destruct noisy; cbn [mbind option_bind]; [|by eexists _, false]);
    (eexists _, _; split; [done|]; split; [done|]; by destruct n).
Qed.

Lemma fallbacks_total s specs : exists l py, extractBareFallbacks s specs = Some (l, py) /\
  NoDup (map c_id l) /\ Forall (isOffered specs) l /\ (py = true -> length l = 1).
Proof.
  unfold extractBareFallbacks. destruct (looks_total s specs) as (b & ->). cbn [mbind option_bind].
  assert (Hb : exists l, (if b then parseQwenXmlBare s specs else Some []) = Some l /\ numbered (gated specs) l).
  { destruct b; [apply bare_total|exists []; split; [done|apply numbered_nil]]. }
  destruct Hb as (l & -> & Hl). cbn [mbind option_bind]. apply numbered_gated in Hl as [Nl Ol].
  destruct l as [|c l]; [|cbn [mbind option_bind]; by eexists _, false].
  assert (Hj : exists l, (if looksLikeBareJsonToolCall s (map s_name specs) then parseBareJson s (map s_name specs) else Some []) = Some l /\
    numbered (gated specs) l).
  { destruct (looksLikeBareJsonToolCall _ _); [|exists []; split; [done|apply numbered_nil]].
    apply bareJson_total; [lia..|apply numbered_nil]. }
  destruct Hj as (j & -> & Hj). cbn [mbind option_bind]. apply numbered_gated in Hj as [Nj Oj].
  destruct j as [|c j]; [|by eexists _, false].
  destruct (toolCode_total s specs specs) as (l & -> & Hlen & Ol'). cbn [mbind option_bind].
  eexists _, _. split; [done|]. split; [by apply short_distinct|]. split; [done|]. destruct l as [|c [|d l]]; cbn in *; [done|done|lia].
Qed.

(** C36: Extraction answers on every text, for every parser of the registry: the loops
    and the argument language always end.  The calls of one answer have distinct ids; a
    call salvaged from damaged markup, or found where the model left its envelope out,
    is named after an offered tool, and a Python call comes alone. *)
Theorem extraction_guarded p s tools :
  (exists e, extract p s tools = Some e /\ NoDup (map c_id (calls e)) /\
     (usedNoisy e = true \/ sawToolMarkup e = false -> Forall (isOffered tools) (calls e)) /\
     (usedNoisy e = true -> sawToolMarkup e = true /\ calls e <> []) /\
     (fromToolCode e = true -> length (calls e) = 1)) /\
  (forall style format bare, exists l, extractBlock s style format tools bare = Some l /\ NoDup (map c_id l) /\
     (style <> ChatTemplate.Gemma4 -> bare = true -> Forall (isOffered tools) l)).
Proof.
  split.
  - destruct p as [format|]; cbn [extract].
    + unfold qwenExtract. destruct (looksLikeQwenToolCall s).
      * destruct (dialects_total s format tools true) as (l & used & -> & Hl & Hu). cbn [mbind option_bind fst snd].
        eexists. split; [done|]. cbn. split; [done|]. split; [intros [->|]; [by apply Hu|done]|]. split; [|done].
        intros ->. split; [done|]. by apply Hu.
      * destruct (fallbacks_total s tools) as (l & py & -> & Hl & Ho & Hpy). cbn [mbind option_bind fst snd].
        by eexists.
    + unfold gemmaExtract. destruct (looksLikeGemmaToolCall s); [|eexists; split; [done|]; split; [constructor|]; by split_and!].
      destruct (gemma_total s) as (l & -> & Hl). cbn [mbind option_bind]. eexists. split; [done|].
      split; [by apply ids_distinct|]. cbn. by split; [intros [|]|].
  - intros style format bare. unfold extractBlock. destruct (decide (style = ChatTemplate.Gemma4)) as [->|Hs].
    + destruct (gemma_total s) as (l & -> & Hl). exists l. split; [done|]. split; [by apply ids_distinct|done].
    + destruct bare.
      * destruct (bare_total s tools) as (l & -> & Hl). exists l. apply numbered_gated in Hl as [? ?]. by split_and!.
      * destruct (dialects_total s format tools true) as (l & used & Hd & Hl & _). cbn [negb]. rewrite Hd. by exists l.
Qed.
End total.
End ToolCallTotal.

(** ** Finding markers in what was put together *)

Module Markers.

(** A tag: its only [<] comes first, and it has no newline. *)
Definition tag (m : text) : Prop := exists m', m = "<"%char :: m' /\ ("<"%char ∉ m') /\ newline ∉ m'.

Definition lacks (m s : text) : Prop := find m s = None.

Lemma starts_same m s : starts m (m ++ s) = true.
Proof. apply starts_spec. by exists s. Qed.

Lemma occurs_char m s i k : occurs m s i -> k < length m -> s !! (i + k) = m !! k.
Proof.
  intros [Hi Hs] Hk. apply starts_spec in Hs as [t Ht]. rewrite <- lookup_drop, Ht. by apply lookup_app_l.
Qed.

(** Nothing that begins in [A] reaches over a character that occurs at most as the
    first of the marker. *)
Lemma find_over m A c t : c ∉ tail m -> lacks m A -> find m (A ++ c :: t) = (fun i => length A + i) <$> find m (c :: t).
Proof.
  intros Hc HA. rewrite (find_shift m (A ++ c :: t) (length A)).
  - by rewrite drop_app_length.
  - rewrite length_app. lia.
  - intros j Hj Ho. destruct (Nat.le_gt_cases (j + length m) (length A)) as [Hle|Hgt].
    + apply (proj1 (find_None m A) HA j). by eapply occurs_app_inv.
    + pose proof (occurs_char m (A ++ c :: t) j (length A - j) Ho ltac:(lia)) as Hx.
      replace (j + (length A - j)) with (length A) in Hx by lia.
      rewrite list_lookup_middle in Hx by done. apply Hc. destruct m as [|d m]; [cbn in Hgt; lia|].
      destruct (length A - j) as [|k] eqn:Ek; [lia|]. cbn in Hx. by eapply list_elem_of_lookup_2.
Qed.

Lemma tag_tail m : tag m -> ("<"%char ∉ tail m) /\ newline ∉ tail m.
Proof. intros (m' & -> & ? & ?). done. Qed.

Lemma tag_newline m s : tag m -> find m (newline :: s) = S <$> find m s.
Proof. intros (m' & -> & _). reflexivity. Qed.

Lemma find_tag m A t : tag m -> lacks m A -> find m (A ++ m ++ t) = Some (length A).
Proof.
  intros Hm HA. pose proof (tag_tail m Hm) as [Ht _]. destruct Hm as (m' & -> & _).
  cbn [app]. rewrite find_over by done. cbn [find]. change ("<"%char :: m' ++ t) with (("<"%char :: m') ++ t).
  rewrite starts_same. cbn. by rewrite Nat.add_0_r.
Qed.

Lemma lacks_line m A B : tag m -> lacks m A -> lacks m B -> lacks m (A ++ newline :: B).
Proof.
  intros Hm HA HB. unfold lacks. rewrite find_over by (done || by apply tag_tail). rewrite tag_newline by done. by rewrite HB.
Qed.

Lemma lacks_newline m B : tag m -> lacks m B -> lacks m (newline :: B).
Proof. intros Hm HB. unfold lacks. rewrite tag_newline by done. by rewrite HB. Qed.

Lemma lacks_plain m s : tag m -> "<"%char ∉ s -> lacks m s.
Proof.
  intros (m' & -> & _) Hs. apply find_None. intros i Ho.
  pose proof (occurs_char ("<"%char :: m') s i 0 Ho ltac:(cbn; lia)) as Hx. rewrite Nat.add_0_r in Hx. cbn in Hx.
  apply Hs. by eapply list_elem_of_lookup_2.
Qed.

Lemma lacks_other m s : tag m -> "<"%char ∉ s -> starts m ("<"%char :: s) = false -> lacks m ("<"%char :: s).
Proof.
  intros Hm Hs Hst. unfold lacks. cbn [find]. rewrite Hst. pose proof (lacks_plain m s Hm Hs) as ->. done.
Qed.

Lemma lacks_tag_app m A t : tag m -> lacks m A -> "<"%char ∉ t -> starts m ("<"%char :: t) = false -> lacks m (A ++ "<"%char :: t).
Proof.
  intros Hm HA Ht Hs. unfold lacks. rewrite find_over by (done || by apply tag_tail). by rewrite lacks_other.
Qed.

(** The end of a tag's name. *)
Lemma find_gt k t : ">"%char ∉ k -> find (lit ">") (k ++ ">"%char :: t) = Some (length k).
Proof.
  induction k as [|c k IH]; [done|]. intros Hk. apply not_elem_of_cons in Hk as [Hc Hk]. cbn [app find].
  replace (starts (lit ">") (c :: k ++ ">"%char :: t)) with false; [by rewrite IH|]. symmetry. apply not_true_is_false. intros Hs.
  apply starts_spec in Hs as [u Hu]. cbn in Hu. congruence.
Qed.

Lemma findFrom_at m s A k i : drop k s = A -> k <= length s -> find m A = Some i -> findFrom m s k = Some (k + i).
Proof. intros <- Hk Hf. rewrite findFrom_find by done. by rewrite Hf. Qed.

(** What follows a position, after a known piece. *)
Lemma drop_piece {A} k (s p t : list A) n : drop k s = p ++ t -> n = length p -> drop (k + n) s = t.
Proof. intros Hd ->. rewrite <- drop_drop, Hd. by apply drop_app_length. Qed.

Lemma drop_bound {A} k (s p t : list A) : drop k s = p ++ t -> p <> [] -> k + length p <= length s.
Proof.
  intros Hd Hp. assert (Hl : length (drop k s) = length p + length t) by (by rewrite Hd, length_app).
  rewrite length_drop in Hl. destruct p; [done|]. cbn in *. lia.
Qed.

Lemma sub_piece (s p t : text) k : drop k s = p ++ t -> sub s k (k + length p) = p.
Proof. intros Hd. unfold sub. rewrite Hd. replace (k + length p - k) with (length p) by lia. by apply take_app_length. Qed.
End Markers.

(** ** Calls in the XML format *)

(** ** A small instance of the JSON library, to evaluate the parsers with *)

Module ToolSamples.
Definition commas (l : list text) : text := match l with [] => [] | x :: l => x ++ concat (map (fun y => lit "," ++ y) l) end.
Definition quoted (s : text) : text := quote :: s ++ [quote].

(** Texts without quotes or backslashes are printed as the library prints them. *)
Fixpoint print (j : json) : text :=
  match j with
  | JNull => lit "null"
  | JBool b => lit (if b then "true" else "false")
  | JInt z => showInt z
  | JFloat _ => lit "1.5"
  | JStr s => quoted s
  | JArr l => lit "[" ++ commas (map print l) ++ lit "]"
  | JObj l => lit "{" ++ commas (map (fun kv => quoted (fst kv) ++ lit ":" ++ print (snd kv)) l) ++ lit "}"
  end.

(** The values the samples parse. *)
Definition command : json := JObj [(lit "command", JStr (lit "ls -l")); (lit "timeout", JInt 30)].
Definition params (l : list (string * string)) : json :=
  JObj [(lit "parameters", JObj [(lit "properties", JObj (map (fun kt => (lit (fst kt), JObj [(lit "type", JStr (lit (snd kt)))])) l))])].
Definition bashTool : json := JObj [(lit "function", params [("command", "string"); ("timeout", "integer")])].
(** The schema declares path before content; the library keeps keys sorted. *)
Definition writeTool : json := JObj [(lit "function", params [("content", "string"); ("path", "string")])].

Definition null_call : json := JObj [(lit "a", JNull)].

(** One argument of every type. *)
Definition half3 : spec_float := S754_finite false 3 (-1).
Definition edit : list (text * json) :=
  [(lit "at", JInt (-3)); (lit "dry", JBool true); (lit "lines", JArr [JInt 1; JStr (lit "b")]); (lit "path", JStr (lit "a b"));
   (lit "ratio", JFloat half3); (lit "where", JObj [(lit "k", JNull)])].
Definition editTool : json := JObj [(lit "function", params [("at", "integer"); ("dry", "boolean"); ("lines", "array");
  ("path", "string"); ("ratio", "number"); ("where", "object")])].

Definition sample : Json := {|
  parse := fun s => List.find (fun j => bool_decide (print j = s))
    ([command; bashTool; writeTool; null_call; editTool; JObj edit] ++ map snd edit);
  dump := print;
  dumpStrict := fun j => Some (print j);
  showFloat := fun _ => lit "1.5";
  stod := fun s => if bool_decide (s = lit "1.5") then Some (half3, 3) else None;
|}.

Definition tools : list ToolSpec := [mkSpec (lit "bash") (print bashTool); mkSpec (lit "write_file") (print writeTool);
  mkSpec (lit "edit") (print editTool)].
End ToolSamples.

(** ** Integers are read back *)
Module ShownIntegers.

Lemma digit_char d : (d < 10)%N -> digit (pretty_N_char d) = Some (Z.of_N d).
Proof.
  intros Hd. assert (d = 0 \/ d = 1 \/ d = 2 \/ d = 3 \/ d = 4 \/ d = 5 \/ d = 6 \/ d = 7 \/ d = 8 \/ d = 9)%N as Hc by lia.
  by repeat destruct Hc as [->|Hc]; [..|subst d].
Qed.

(** The digits of [x] in front of [s] are read as [x]. *)
Lemma digits_go x : forall s k, exists m,
  digits 0 k (lit (pretty_N_go x s)) = digits (Z.of_N x) (k + m) (lit s) /\ ((0 < x)%N -> 0 < m).
Proof.
  induction (N.lt_wf_0 x) as [x _ IH]. intros s k. destruct (N.eq_dec x 0%N) as [->|Hx].
  { exists 0. rewrite pretty_N_go_0, Nat.add_0_r. split; [done|lia]. }
  rewrite pretty_N_go_step by lia.
  destruct (IH (x / 10)%N ltac:(by apply N.div_lt; lia) (String.String (pretty_N_char (x mod 10)) s) k) as (m & -> & _).
  exists (S m). split; [|lia]. unfold lit. cbn [String.list_ascii_of_string digits].
  rewrite digit_char by (by apply N.mod_lt). f_equal; [|lia].
  pose proof (N.div_mod x 10 ltac:(done)). lia.
Qed.

Lemma digits_pretty (x : N) : exists m, digits 0 0 (lit (pretty x)) = (Z.of_N x, S m).
Proof.
  destruct (N.eq_dec x 0%N) as [->|Hx]; [by exists 0|]. destruct (digits_go x EmptyString 0) as (m & Hm & Hpos).
  unfold pretty, pretty_N. rewrite decide_False by done. rewrite Hm. destruct m; [lia|]. by exists m.
Qed.

Definition digitChar (c : ascii) : Prop := is_Some (digit c).

Lemma pretty_go_digits x : forall s, Forall digitChar (lit s) -> Forall digitChar (lit (pretty_N_go x s)).
Proof.
  induction (N.lt_wf_0 x) as [x _ IH]. intros s Hs. destruct (N.eq_dec x 0%N) as [->|Hx]; [by rewrite pretty_N_go_0|].
  rewrite pretty_N_go_step by lia. apply IH; [by apply N.div_lt; lia|]. apply Forall_cons. split; [|done].
  unfold digitChar. rewrite digit_char by (by apply N.mod_lt). by eexists.
Qed.

Lemma pretty_digits (x : N) : Forall digitChar (lit (pretty x)).
Proof.
  destruct (N.eq_dec x 0%N) as [->|Hx].
  { apply Forall_cons. split; [by eexists|by apply Forall_nil]. }
  unfold pretty, pretty_N. rewrite decide_False by done. by apply pretty_go_digits.
Qed.

Lemma digit_solid c : digitChar c -> isAsciiWs c = false /\ isSpace c = false /\ Ascii.eqb c "-" = false /\ Ascii.eqb c "+" = false.
Proof. destruct c as [[] [] [] [] [] [] [] []]; intros [d Hd]; try done; by vm_compute in Hd. Qed.

Lemma skipWhile_solid f (s : text) : match s with c :: _ => f c = false | [] => True end -> skipWhile f s = s.
Proof. destruct s as [|c s]; [done|]. intros Hc. cbn [skipWhile]. by rewrite Hc. Qed.

(** A text that neither begins nor ends with space. *)
Lemma trimws_solid (s : text) : Forall (fun c => isAsciiWs c = false) s -> trimws s = s.
Proof.
  intros Hs. unfold trimws. rewrite (skipWhile_solid _ s) by (by destruct Hs).
  rewrite skipWhile_solid, rev_involutive; [done|]. apply Forall_rev in Hs. by destruct Hs.
Qed.

Lemma showInt_solid z : Forall (fun c => isAsciiWs c = false) (showInt z).
Proof.
  unfold showInt. destruct (z <? 0)%Z; [apply Forall_cons; split; [done|]|];
    (eapply Forall_impl; [apply pretty_digits|]; intros c Hc; by apply digit_solid).
Qed.

(** [std::stoll] of [std::to_string]. *)
Lemma stoll_showInt z : (- 2 ^ 63 <= z < 2 ^ 63)%Z -> exists n, stoll (showInt z) = Some (z, n).
Proof.
  intros Hz. unfold stoll, showInt. destruct (Z.ltb_spec z 0) as [Hneg|Hpos].
  - rewrite skipWhile_solid by done. change (Ascii.eqb "-" "-") with true. cbv iota beta.
    destruct (digits_pretty (Z.to_N (- z))) as [m ->]. replace (- Z.of_N (Z.to_N (- z)))%Z with z by lia.
    rewrite (proj2 (Nat.eqb_neq _ _)), (proj2 (Z.ltb_ge _ _)), (proj2 (Z.leb_gt _ _)) by lia. by eexists.
  - destruct (digits_pretty (Z.to_N z)) as [m Hm]. pose proof (pretty_digits (Z.to_N z)) as Hd.
    destruct (lit (pretty (Z.to_N z))) as [|c ds] eqn:E; [done|]. apply Forall_cons in Hd as [Hc _].
    apply digit_solid in Hc as (_ & Hsp & H1 & H2). rewrite skipWhile_solid by done. rewrite H1, H2, Hm.
    replace (Z.of_N (Z.to_N z)) with z by lia.
    rewrite (proj2 (Nat.eqb_neq _ _)), (proj2 (Z.ltb_ge _ _)), (proj2 (Z.leb_gt _ _)) by lia. by eexists.
Qed.
End ShownIntegers.

Module XmlRoundtrip.
Import Markers ToolCallTotal ToolCallRendering.

Lemma tags : tag kFunc /\ tag kFuncEnd /\ tag kParam /\ tag kParamEnd /\ tag kOpen /\ tag kClose.
Proof.
  assert (Ht : forall m, match m with c :: m' => Ascii.eqb c "<" && forallb (fun c => negb (Ascii.eqb c "<") && negb (Ascii.eqb c newline)) m' | [] => false end = true -> tag m).
  { intros [|c m]; [done|]. intros Hb. apply andb_prop in Hb as [Hc Hm]. apply Ascii.eqb_eq in Hc as ->. exists m. split; [done|].
    rewrite forallb_forall in Hm. split; intros Hin; apply list_elem_of_In, Hm in Hin; by cbn in Hin. }
  split_and!; apply Ht; vm_compute; reflexivity.
Qed.

Section xml.
Context `{Json}.

(** A name that a tag can carry. *)
Definition plainName (n : text) : Prop := n <> [] /\ trimws n = n /\ ("<"%char ∉ n) /\ ">"%char ∉ n.

(** An argument, with its text, that no closing tag cuts. *)
Definition plainArg (kv : text * json) (t : text) : Prop :=
  plainName (fst kv) /\ shown (snd kv) = Some t /\ lacks kParamEnd t /\ lacks kFuncEnd t /\ lacks kClose t.

Lemma renderParams_plain args ts body : Forall2 plainArg args ts -> renderParams args = Some body ->
  forall m, m = kFuncEnd \/ m = kClose -> lacks m body.
Proof.
  intros Hargs. revert body. induction Hargs as [|[k v] t args ts Hkv _ IH]; intros body; cbn [renderParams].
  - by intros [= <-] m [->| ->].
  - destruct Hkv as ((_ & _ & Hlt & _) & Hs & _ & Hf & Hc). cbn [fst snd] in *. rewrite Hs. cbn [mbind option_bind].
    destruct (renderParams args) as [rest|]; [|done]. cbn [mbind option_bind]. intros Hb m Hm. apply (inj Some) in Hb as <-.
    destruct tags as (_ & T1 & _ & _ & _ & T2). assert (Tm : tag m) by (by destruct Hm as [->| ->]).
    assert (Hopen : lacks m (kParam ++ k ++ lit ">")).
    { change (kParam ++ k ++ lit ">") with ("<"%char :: (lit "parameter=" ++ k ++ lit ">")). apply lacks_other; [done| |].
      - rewrite !not_elem_of_app. split; [|split; [done|]]; apply (bool_decide_unpack _); by vm_compute.
      - by destruct Hm as [->| ->]. }
    assert (Hend : lacks m kParamEnd) by (by destruct Hm as [->| ->]).
    rewrite (app_assoc k), (app_assoc kParam). apply lacks_line; [done..|].
    apply lacks_line; [done|by destruct Hm as [->| ->]|]. apply lacks_line; [done..|]. by apply IH.
Qed.

Lemma stripFrame_framed t : stripFrame (newline :: t ++ [newline]) = t.
Proof.
  unfold stripFrame. rewrite Ascii.eqb_refl. rewrite rev_app_distr. cbn [rev app]. by rewrite Ascii.eqb_refl, rev_involutive.
Qed.

(** The arguments as they are read. *)
Definition readArgs (specs : list ToolSpec) (name : text) (args : list (text * json)) (ts : list text) (acc : list (text * json)) :=
  foldl (fun acc kt => setKey (fst (fst kt)) (coerceXmlParamValue (snd kt) (paramTypeFor specs name (fst (fst kt)))) acc) acc (zip args ts).

Lemma parameters_read specs name scope args ts : Forall2 plainArg args ts -> forall fuel body p acc,
  renderParams args = Some body -> drop p scope = newline :: body ++ kFuncEnd ++ [newline] -> length args < fuel ->
  parameters fuel scope specs name (p + S (length body)) p acc = Some (readArgs specs name args ts acc).
Proof.
  destruct tags as (_ & _ & T3 & T4 & _). 
  intros Hargs. induction Hargs as [|[k v] t args ts Hkv _ IH]; intros [|fuel] body p acc Hb Hd Hf; try (cbn in Hf; lia);
    cbn [parameters renderParams] in *.
  - injection Hb as <-. assert (Hp : p <= length scope) by (apply (drop_bound p scope [newline]) in Hd; [cbn in Hd; lia|done]).
    rewrite findFrom_find by done. rewrite Hd. done.
  - destruct Hkv as ((Hne & Htrim & Hlt & Hgt) & Hs & Hpe & _ & _). cbn [fst snd] in *. rewrite Hs in Hb. cbn [mbind option_bind] in Hb.
    destruct (renderParams args) as [rest|] eqn:Er; [|done]. cbn [mbind option_bind] in Hb. apply (inj Some) in Hb as <-.
    set (after := newline :: rest ++ kFuncEnd ++ [newline]) in *.
    assert (Hd0 : drop p scope = [newline] ++ kParam ++ k ++ lit ">" ++ newline :: t ++ newline :: kParamEnd ++ after).
    { rewrite Hd. unfold after. by rewrite <- !app_assoc. }
    clear Hd. pose proof (drop_bound _ _ _ _ Hd0 ltac:(done)) as Hp. cbn [length] in Hp.
    pose proof (drop_piece _ _ _ _ _ Hd0 eq_refl) as Hd1. pose proof (drop_bound _ _ _ _ Hd1 ltac:(done)) as Hp1.
    pose proof (drop_piece _ _ _ _ _ Hd1 eq_refl) as Hd2. pose proof (drop_bound _ _ _ _ Hd2 Hne) as Hp2.
    pose proof (drop_piece _ _ _ _ _ Hd2 eq_refl) as Hd3. pose proof (drop_bound _ _ _ _ Hd3 ltac:(done)) as Hp3.
    pose proof (drop_piece _ _ _ _ _ Hd3 eq_refl) as Hd4. change (length [newline]) with 1 in *. change (length (lit ">")) with 1 in *.
    rewrite (findFrom_at kParam scope _ p 1 Hd0 ltac:(lia)).
    2: { by apply (find_tag kParam [newline]). }
    set (body := kParam ++ k ++ lit ">" ++ [newline] ++ t ++ [newline] ++ kParamEnd ++ [newline] ++ rest) in *.
    assert (Hlen : length body = length kParam + (length k + (1 + (1 + (length t + (1 + (length kParamEnd + (1 + length rest)))))))).
    { unfold body. rewrite !length_app. done. }
    destruct (Nat.leb_spec (p + S (length body)) (p + 1)); [lia|].
    rewrite (findFrom_at (lit ">") scope _ (p + 1 + length kParam) (length k) Hd2 ltac:(lia)) by (by apply find_gt).
    cbv zeta. rewrite (sub_piece scope k _ _ Hd2), Htrim.
    replace (S (p + 1 + length kParam + length k)) with (p + 1 + length kParam + length k + 1) by lia.
    set (vs := p + 1 + length kParam + length k + 1) in *.
    assert (Hd4' : drop vs scope = (newline :: t ++ [newline]) ++ kParamEnd ++ after).
    { rewrite Hd4. cbn [app]. by rewrite <- app_assoc. }
    pose proof (drop_bound _ _ _ _ Hd4' ltac:(done)) as Hp4. cbn [length] in Hp4. rewrite length_app in Hp4. cbn [length] in Hp4.
    rewrite (findFrom_at kParamEnd scope _ vs (length (newline :: t ++ [newline])) Hd4' ltac:(lia)).
    2: { apply find_tag; [done|]. apply lacks_newline; [done|]. by apply lacks_line. }
    assert (Hve : vs + length (newline :: t ++ [newline]) = vs + S (length t + 1)) by (cbn [length]; by rewrite length_app).
    destruct (Nat.leb_spec (vs + length (newline :: t ++ [newline])) (p + S (length body))); [|lia].
    rewrite bool_decide_false by done. unfold span. rewrite (proj2 (Nat.leb_le _ _)) by lia.
    rewrite (sub_piece scope _ _ _ Hd4'), stripFrame_framed.
    pose proof (drop_piece _ _ _ _ _ Hd4' eq_refl) as Hd5. pose proof (drop_piece _ _ _ _ _ Hd5 eq_refl) as Hd6.
    specialize (IH fuel rest (vs + length (newline :: t ++ [newline]) + length kParamEnd)
      (setKey k (coerceXmlParamValue t (paramTypeFor specs name k)) acc) eq_refl Hd6 ltac:(cbn in Hf; lia)).
    replace (p + S (length body)) with (vs + length (newline :: t ++ [newline]) + length kParamEnd + S (length rest)) by lia.
    exact IH.
Qed.

Lemma renderParams_length args : forall body, renderParams args = Some body -> length args <= length body.
Proof.
  induction args as [|[k v] args IH]; intros body; cbn [renderParams]; [intros [= <-]; cbn; lia|].
  destruct (shown v) as [t|]; [|done]. cbn [mbind option_bind]. destruct (renderParams args) as [rest|]; [|done].
  cbn [mbind option_bind]. intros Hb. apply (inj Some) in Hb as <-. rewrite !length_app. specialize (IH rest eq_refl).
  change (length kParam) with 11. cbn [length]. lia.
Qed.

(** What stands between the markers of a call. *)
Definition inner (name body : text) : text := newline :: kFunc ++ name ++ lit ">" ++ newline :: body ++ kFuncEnd ++ [newline].

Lemma inner_lacks name args ts body : plainName name -> Forall2 plainArg args ts -> renderParams args = Some body ->
  lacks kClose (inner name body).
Proof.
  intros (_ & _ & Hlt & _) Hargs Hb. destruct tags as (_ & _ & _ & _ & _ & T). unfold inner. apply lacks_newline; [done|].
  rewrite (app_assoc name), (app_assoc kFunc). apply lacks_line; [done| |].
  - change (kFunc ++ name ++ lit ">") with ("<"%char :: (lit "function=" ++ name ++ lit ">")). apply lacks_other; [done| |done].
    rewrite !not_elem_of_app. split; [|split; [done|]]; apply (bool_decide_unpack _); by vm_compute.
  - assert (Hp : lacks kClose body) by (eapply renderParams_plain; [exact Hargs|exact Hb|by right]).
    change (kFuncEnd ++ [newline]) with ("<"%char :: (lit "/function>" ++ [newline])). apply lacks_tag_app; [done..| |done].
    apply (bool_decide_unpack _). by vm_compute.
Qed.

Lemma block_read specs name args ts body n : plainName name -> Forall2 plainArg args ts -> renderParams args = Some body ->
  xmlBlock specs (inner name body) n = Some (Some (mkCall (callId n) name (dump (JObj (readArgs specs name args ts []))))).
Proof.
  intros (Hne & Htrim & Hlt & Hgt) Hargs Hb. destruct tags as (T0 & T1 & _). unfold xmlBlock.
  set (scope := inner name body).
  assert (Hd0 : drop 0 scope = [newline] ++ kFunc ++ name ++ lit ">" ++ newline :: body ++ kFuncEnd ++ [newline]) by done.
  rewrite (find_tag kFunc [newline] _ T0 eq_refl : find kFunc scope = Some 1).
  pose proof (drop_piece _ _ _ _ _ Hd0 eq_refl) as Hd1. pose proof (drop_piece _ _ _ _ _ Hd1 eq_refl) as Hd2.
  change (0 + length [newline]) with 1 in *.
  pose proof (drop_bound _ _ _ _ Hd2 Hne) as Hp2. pose proof (drop_piece _ _ _ _ _ Hd2 eq_refl) as Hd3.
  pose proof (drop_bound _ _ _ _ Hd3 ltac:(done)) as Hp3. pose proof (drop_piece _ _ _ _ _ Hd3 eq_refl) as Hd4.
  change (length (lit ">")) with 1 in *. unfold parseFunctionSpan.
  rewrite (findFrom_at (lit ">") scope _ (1 + length kFunc) (length name) Hd2 ltac:(lia)) by (by apply find_gt).
  cbv zeta. rewrite (sub_piece scope name _ _ Hd2), Htrim, bool_decide_false by done.
  replace (S (1 + length kFunc + length name)) with (1 + length kFunc + length name + 1) by lia.
  set (p := 1 + length kFunc + length name + 1) in *.
  change (newline :: body ++ kFuncEnd ++ [newline]) with ((newline :: body) ++ kFuncEnd ++ [newline]) in Hd4.
  pose proof (drop_bound _ _ _ _ Hd4 ltac:(done)) as Hp4. cbn [length] in Hp4.
  rewrite (findFrom_at kFuncEnd scope _ p (length (newline :: body)) Hd4 ltac:(lia)).
  2: { apply find_tag; [done|]. apply lacks_newline; [done|]. eapply renderParams_plain; [exact Hargs|exact Hb|by left]. }
  cbn [default from_option]. unfold id. cbn [length].
  pose proof (renderParams_length args body Hb).
  rewrite (parameters_read specs name scope args ts Hargs (S (length scope)) body p [] Hb Hd4) by lia.
  reflexivity.
Qed.

(** ** The whole answer *)

(** Keys in the order of the library, each once. *)
Definition sortedKeys : list (text * json) -> Prop := StronglySorted (fun a b => compareText (fst b) (fst a) = Gt).

Lemma setKey_last k v acc : Forall (fun a => compareText k (fst a) = Gt) acc -> setKey k v acc = acc ++ [(k, v)].
Proof. induction 1 as [|[k' v'] acc Hk _ IH]; [done|]. cbn [setKey fst] in *. by rewrite Hk, IH. Qed.

(** The argument as it is read back. *)
Definition readArg (specs : list ToolSpec) (name : text) (kv : text * json) : text * json :=
  (fst kv, coerceXmlParamValue (default [] (shown (snd kv))) (paramTypeFor specs name (fst kv))).

Lemma readArgs_map specs name args ts : Forall2 plainArg args ts -> sortedKeys args -> forall acc,
  Forall (fun a => Forall (fun b => compareText (fst b) (fst a) = Gt) args) acc ->
  readArgs specs name args ts acc = acc ++ map (readArg specs name) args.
Proof.
  unfold readArgs. intros Hargs. induction Hargs as [|[k v] t args ts Hkv _ IH]; intros Hs acc Hacc; [by rewrite app_nil_r|].
  apply StronglySorted_inv in Hs as [Hs Hk]. cbn [zip zip_with foldl map fst snd].
  destruct Hkv as (_ & Hsh & _). cbn [fst snd] in Hsh. unfold readArg at 1. cbn [fst snd]. rewrite Hsh. cbn [default from_option]. unfold id.
  rewrite setKey_last.
  - rewrite IH; [by rewrite <- app_assoc|done|]. apply Forall_app. split.
    + eapply Forall_impl; [exact Hacc|]. intros a Ha. by apply Forall_cons in Ha as [_ Ha].
    + by apply Forall_singleton.
  - eapply Forall_impl; [exact Hacc|]. intros a Ha. by apply Forall_cons in Ha as [Ha _].
Qed.

(** A call of the conversation with its arguments, behind some prose, and what the
    template makes of it. *)
Record Spoken := mkSpoken { prose : text; spoken : ToolCall; arguments : list (text * json); markup : text }.

Definition faithful (x : Spoken) : Prop :=
  lacks kOpen (prose x) /\ parse (c_argumentsJson (spoken x)) = Some (JObj (arguments x)) /\ sortedKeys (arguments x) /\
  plainName (c_name (spoken x)) /\ (exists ts, Forall2 plainArg (arguments x) ts) /\ renderQwenXmlCall (spoken x) = Some (markup x).

Fixpoint answerOf (l : list Spoken) (tail : text) : text :=
  match l with [] => tail | x :: l => prose x ++ markup x ++ answerOf l tail end.

Definition readCall (specs : list ToolSpec) (n : nat) (x : Spoken) : ToolCall :=
  mkCall (callId n) (c_name (spoken x)) (dump (JObj (map (readArg specs (c_name (spoken x))) (arguments x)))).

Fixpoint readCalls (specs : list ToolSpec) (n : nat) (l : list Spoken) : list ToolCall :=
  match l with [] => [] | x :: l => readCall specs n x :: readCalls specs (S n) l end.

Lemma blocks_read specs s l tail : Forall faithful l -> lacks kOpen tail -> forall fuel pos calls,
  drop pos s = answerOf l tail -> pos <= length s -> length s < fuel + pos ->
  blocks fuel kOpen kClose (xmlBlock specs) s pos calls = Some (calls ++ readCalls specs (length calls) l).
Proof.
  intros Hl Htail. destruct tags as (_ & _ & _ & _ & T4 & T5).
  induction Hl as [|x l Hx _ IH]; intros [|fuel] pos calls Hd Hp Hf; try lia; cbn [blocks answerOf readCalls] in *.
  { rewrite findFrom_find, Hd by done. unfold lacks in Htail. rewrite Htail. cbn. by rewrite app_nil_r. }
  destruct Hx as (Hprose & Hparse & Hsort & Hname & (ts & Hargs) & Hr). unfold renderQwenXmlCall in Hr. rewrite Hparse in Hr.
  destruct (renderParams (arguments x)) as [body|] eqn:Eb; [|done]. cbn [mbind option_bind] in Hr. apply (inj Some) in Hr.
  assert (Hd0 : drop pos s = prose x ++ kOpen ++ inner (c_name (spoken x)) body ++ kClose ++ answerOf l tail).
  { rewrite Hd, <- Hr. unfold inner. cbn [app]. rewrite <- !app_assoc. cbn [app]. rewrite <- !app_assoc. cbn [app]. by rewrite <- !app_assoc. }
  rewrite (findFrom_at kOpen s _ pos (length (prose x)) Hd0 Hp) by (by apply find_tag).
  pose proof (drop_piece _ _ _ _ _ Hd0 eq_refl) as Hd1. pose proof (drop_bound _ _ _ _ Hd1 ltac:(done)) as Hp1.
  pose proof (drop_piece _ _ _ _ _ Hd1 eq_refl) as Hd2. pose proof (drop_bound _ _ _ _ Hd2 ltac:(done)) as Hp2.
  pose proof (drop_piece _ _ _ _ _ Hd2 eq_refl) as Hd3. pose proof (drop_bound _ _ _ _ Hd3 ltac:(done)) as Hp3.
  pose proof (drop_piece _ _ _ _ _ Hd3 eq_refl) as Hd4.
  cbv zeta. rewrite (findFrom_at kClose s _ _ (length (inner (c_name (spoken x)) body)) Hd2 ltac:(lia)).
  2: { apply find_tag; [done|]. by eapply inner_lacks. }
  cbn [default from_option]. unfold id. rewrite (sub_piece s _ _ _ Hd2).
  rewrite (block_read specs (c_name (spoken x)) (arguments x) ts body) by done. cbn [mbind option_bind].
  rewrite (readArgs_map specs _ _ _ Hargs Hsort) by done. cbn [app].
  rewrite IH; [|done|lia|]. 
  - rewrite length_app, <- app_assoc. cbn [length app]. by replace (length calls + 1) with (S (length calls)) by lia.
  - change (length kOpen) with 11 in *. lia.
Qed.

(** ** Arguments of the declared type *)

(** A value of the type a schema declares for it; without a type, a string. *)
Definition typedArg (type : text) (v : json) : Prop :=
  match v with
  | JStr _ => type = [] \/ type = lit "string"
  | JInt z => type = lit "integer" /\ (- 2 ^ 63 <= z < 2 ^ 63)%Z
  | JFloat _ => type = lit "number"
  | JBool _ => type = lit "boolean"
  | JArr _ => type = lit "array"
  | JObj _ => type = lit "object"
  | JNull => type = lit "null"
  end.

(** What the JSON library promises for a value: booleans and integers are printed as JSON
    writes them, and the text of a number, a list or an object has no space around it and
    is read back - by [std::stod] where a number is read. *)
Definition libraryAt (v : json) : Prop := forall t, dumpStrict v = Some t ->
  match v with
  | JStr _ => True
  | JBool b => t = lit (if b then "true" else "false")
  | JInt z => t = showInt z
  | JFloat d => trimws t = t /\ exists n, stod t = Some (d, n)
  | JArr _ | JObj _ | JNull => trimws t = t /\ parse t = Some v
  end.

Lemma coerce_integer t : coerceXmlParamValue t (lit "integer") =
  match stoll (trimws t) with Some (z, _) => JInt z | None => JStr t end.
Proof. reflexivity. Qed.

Lemma coerce_number t : coerceXmlParamValue t (lit "number") =
  match stod (trimws t) with Some (d, _) => JFloat d | None => JStr t end.
Proof. reflexivity. Qed.

Lemma coerce_document type t : type ∈ [lit "array"; lit "object"; lit "null"] ->
  coerceXmlParamValue t type = match parse (trimws t) with Some v => v | None => JStr t end.
Proof. rewrite !elem_of_cons, elem_of_nil. by intros [->|[->|[->|[]]]]. Qed.

Lemma coerce_boolean (b : bool) : coerceXmlParamValue (lit (if b then "true" else "false")) (lit "boolean") = JBool b.
Proof. by destruct b. Qed.

Lemma typed_reads type v t :
  typedArg type v -> libraryAt v -> shown v = Some t -> coerceXmlParamValue t type = v.
Proof.
  intros Hty Hlib Hs. destruct v as [|b|z|d|s|l|l]; cbn [typedArg shown] in Hty, Hs.
  5: { injection Hs as <-. by destruct Hty as [-> | ->]. }
  all: specialize (Hlib t Hs); cbn in Hlib.
  - rewrite coerce_document by (rewrite Hty; set_solver). by destruct Hlib as [-> ->].
  - by rewrite Hlib, Hty, coerce_boolean.
  - destruct Hty as [-> Hz]. rewrite coerce_integer, Hlib, ShownIntegers.trimws_solid by apply ShownIntegers.showInt_solid.
    by destruct (ShownIntegers.stoll_showInt z Hz) as [n ->].
  - rewrite Hty, coerce_number. by destruct Hlib as [-> [n ->]].
  - rewrite coerce_document by (rewrite Hty; set_solver). by destruct Hlib as [-> ->].
  - rewrite coerce_document by (rewrite Hty; set_solver). by destruct Hlib as [-> ->].
Qed.

(** The calls as they went in. *)
Lemma readCalls_typed specs l : forall n, Forall faithful l ->
  Forall (fun x => Forall (fun kv => typedArg (paramTypeFor specs (c_name (spoken x)) (fst kv)) (snd kv) /\
    libraryAt (snd kv)) (arguments x)) l ->
  readCalls specs n l = imap (fun i x => mkCall (callId (n + i)) (c_name (spoken x)) (dump (JObj (arguments x)))) l.
Proof.
  induction l as [|x l IH]; intros n Hf Ht; [done|]. apply Forall_cons in Hf as [Hx Hf]. apply Forall_cons in Ht as [Hxt Ht].
  cbn [readCalls imap]. rewrite (IH (S n) Hf Ht). f_equal.
  - unfold readCall. rewrite Nat.add_0_r. do 3 f_equal. destruct Hx as (_ & _ & _ & _ & (ts & Hargs) & _).
    clear -Hargs Hxt. induction Hargs as [|[k v] t args ts Hkv _ IHa]; [done|]. apply Forall_cons in Hxt as [[Hty Hlib] Hxt].
    cbn [map]. rewrite IHa by done. f_equal. unfold readArg. cbn [fst snd] in *. destruct Hkv as (_ & Hs & _).
    cbn [fst snd] in Hs. rewrite Hs. cbn [default from_option]. unfold id. by rewrite (typed_reads _ _ _ Hty Hlib Hs).
  - apply imap_ext. intros i y _. cbv beta. unfold compose. by replace (n + S i) with (S n + i) by lia.
Qed.

(** C37: Calls the Qwen template writes into a conversation are read back by the parser
    of the same dialect: in any number, between any prose without an opening marker,
    each with its name and, for each argument, the text the template wrote, read by the
    type the tool's schema declares.  Arguments of their declared type - strings,
    64-bit integers, floating-point numbers, booleans, lists, objects, null - come out as they went in,
    if the JSON library reads what it prints ([libraryAt]).  Not covered ([faithful]):
    names or keys with angle brackets or space around them, and arguments whose text
    holds one of the closing tags, which the parser cuts there ([closing_tag_cuts]). *)
Theorem xml_calls_roundtrip specs l tail : Forall faithful l -> lacks kOpen tail ->
  parseQwenXml (answerOf l tail) specs = Some (readCalls specs 0 l) /\
  (Forall (fun x => Forall (fun kv => typedArg (paramTypeFor specs (c_name (spoken x)) (fst kv)) (snd kv) /\
      libraryAt (snd kv)) (arguments x)) l ->
   parseQwenXml (answerOf l tail) specs =
     Some (imap (fun n x => mkCall (callId n) (c_name (spoken x)) (dump (JObj (arguments x)))) l)).
Proof.
  intros Hl Ht. assert (Hr : parseQwenXml (answerOf l tail) specs = Some (readCalls specs 0 l)).
  { unfold parseQwenXml. rewrite (blocks_read specs _ l tail Hl Ht); [done|done|lia|lia]. }
  split; [done|]. intros Hc. rewrite Hr. f_equal. rewrite (readCalls_typed specs l 0 Hl Hc).
  apply imap_ext. intros i x _. by rewrite Nat.add_0_l.
Qed.

(** A check of the arguments of a call. *)
Definition plainArgb (kv : text * json) (t : text) : bool :=
  bool_decide (fst kv <> []) && bool_decide (trimws (fst kv) = fst kv) && bool_decide ("<"%char ∉ fst kv) &&
  bool_decide (">"%char ∉ fst kv) && bool_decide (shown (snd kv) = Some t) && bool_decide (find kParamEnd t = None) &&
  bool_decide (find kFuncEnd t = None) && bool_decide (find kClose t = None).

Fixpoint plainArgsb (args : list (text * json)) (ts : list text) : bool :=
  match args, ts with
  | [], [] => true
  | kv :: args, t :: ts => plainArgb kv t && plainArgsb args ts
  | _, _ => false
  end.

Lemma plainArgs_check args : forall ts, plainArgsb args ts = true -> Forall2 plainArg args ts.
Proof.
  induction args as [|kv args IH]; intros [|t ts]; cbn [plainArgsb]; try done.
  intros Hb. apply andb_prop in Hb as [Hb Hr]. constructor; [|by apply IH]. unfold plainArgb in Hb.
  rewrite !andb_true_iff, !bool_decide_eq_true in Hb. unfold plainArg, plainName, lacks. tauto.
Qed.
End xml.

(** Two calls, one with an argument of every type. *)
Lemma xml_calls_roundtrip_witness :
  let bash := mkCall (lit "call_0") (lit "bash") (ToolSamples.print ToolSamples.command) in
  let edit := mkCall (lit "call_1") (lit "edit") (ToolSamples.print (JObj ToolSamples.edit)) in
  match @renderQwenXmlCall ToolSamples.sample bash, @renderQwenXmlCall ToolSamples.sample edit with
  | Some m, Some m' =>
      @parseQwenXml ToolSamples.sample (lit "I look." ++ m ++ lit "Then." ++ m' ++ lit "Done.") ToolSamples.tools = Some [bash; edit]
  | _, _ => False
  end.
Proof.
  intros bash edit. destruct (@renderQwenXmlCall ToolSamples.sample bash) as [m|] eqn:Em; [|by vm_compute in Em].
  destruct (@renderQwenXmlCall ToolSamples.sample edit) as [m'|] eqn:Em'; [|by vm_compute in Em'].
  set (x := mkSpoken (lit "I look.") bash [(lit "command", JStr (lit "ls -l")); (lit "timeout", JInt 30)] m).
  set (y := mkSpoken (lit "Then.") edit ToolSamples.edit m').
  assert (Hx : @faithful ToolSamples.sample x).
  { split_and!; [by vm_compute|by vm_compute|repeat constructor| |exists [lit "ls -l"; lit "30"]|exact Em].
    - split_and!; [done|by vm_compute|by apply (bool_decide_unpack _)..].
    - by apply (@plainArgs_check ToolSamples.sample). }
  assert (Hy : @faithful ToolSamples.sample y).
  { split_and!; [by vm_compute|by vm_compute|repeat constructor| |
      exists (map (fun kv => default [] (@shown ToolSamples.sample (snd kv))) ToolSamples.edit)|exact Em'].
    - split_and!; [done|by vm_compute|by apply (bool_decide_unpack _)..].
    - by apply (@plainArgs_check ToolSamples.sample). }
  assert (H := @xml_calls_roundtrip ToolSamples.sample ToolSamples.tools [x; y] (lit "Done.")).
  refine (proj2 (H _ eq_refl) _); [by repeat (apply Forall_cons_2; [assumption|])|].
  repeat (apply Forall_cons_2 || apply Forall_nil_2).
  all: split; [first [by vm_compute|by right; vm_compute|by split; vm_compute]|].
  all: intros t Ht; vm_compute in Ht; injection Ht as <-; first [by vm_compute|split; [by vm_compute|by exists 3]].
Defined.
End XmlRoundtrip.

(** ** Where the code and its comments part *)
Module ToolCallFindings.
Import ToolSamples ToolCallRendering.
#[local] Existing Instance sample.

(** An argument that holds a closing tag is cut there when it is read back. *)
Example closing_tag_cuts :
  map c_argumentsJson <$>
    parseQwenXml (lit "<tool_call><function=bash><parameter=command>echo '</parameter>' now</parameter></function></tool_call>") tools =
  Some [print (JObj [(lit "command", JStr (lit "echo '"))])].
Proof. by vm_compute. Qed.

(** Positional arguments go to the parameters in the order of the library's keys. *)
Example positional_alphabetical :
  (fun l => (map c_name l, map c_argumentsJson l)) <$>
    parseToolCodeCall (lit "write_file('a.txt', 'hello')") tools tools =
  Some ([lit "write_file"], [print (JObj [(lit "content", JStr (lit "a.txt")); (lit "path", JStr (lit "hello"))])]).
Proof. by vm_compute. Qed.

(** A number is read from the front of the text, the rest is dropped. *)
Example number_prefix : coerceXmlParamValue (lit "12abc") (lit "integer") = JInt 12.
Proof. by vm_compute. Qed.

Example bare_date_number : gemmaBlock (lit "call:bash{d:2024-05-01}") 0 =
  Some (Some (mkCall (lit "call_0") (lit "bash") (print (JObj [(lit "d", JInt 2024)])))).
Proof. by vm_compute. Qed.

(** A parameter tag that closes only behind the function's end. *)
Example parameter_beyond_end :
  map c_argumentsJson <$>
    parseQwenXml (lit "<tool_call><function=bash><parameter=</function>x>y</tool_call>") [] =
  Some [print (JObj [(lit "</function", JStr (lit "x>y"))])].
Proof. by vm_compute. Qed.

(** The second sign of [==] is taken for the one of a keyword. *)
Example equality_as_keyword : kwargEq (lit "a==b") 0 None None false = Some 2.
Proof. by vm_compute. Qed.

(** Ids of dropped calls are not given again. *)
Example noisy_id_gap : map c_id <$>
  parseQwenXmlNoisy (lit "<tool_call><function=rm></function></tool_call><tool_call>function=bash></function></tool_call>") tools = Some [lit "call_1"].
Proof. by vm_compute. Qed.

(** What the Gemma template writes for null is read back as an empty string. *)
Example null_read_as_text :
  parseGemma (gemmaRenderCall (mkCall (lit "call_0") (lit "bash") (print null_call))) =
    Some [mkCall (lit "call_0") (lit "bash") (print (JObj [(lit "a", JStr [])]))].
Proof. by vm_compute. Qed.
End ToolCallFindings.
