(* ===== verification/Dequant.v ===== *)
(** * Dequantisation on the CPU

    Models [src/src/compute/Dequant.cpp], [src/src/compute/quant/*.cpp] and
    [src/src/core/modelopt/{BlockScaleSwizzle,NvFp4Reference}.cpp]: the block formats of
    a GGUF file as 32-bit floats, the split layout of Q8_0 rows, and the tiled layout of
    NVFP4 block scales.  A buffer is the list of its bytes; a byte past the end of a
    buffer, which the code never reads when sizes are right, reads as 0.  What a buffer
    holds before it is overwritten is an argument or a NaN. *)

From Stdlib Require Import Ascii SpecFloat.
From stdpp Require Import pretty.
From S2P Require Import Prelude Sampling Gguf Floats.
Import Sampling.

Module Dequant.
#[local] Open Scope N_scope.

(** ** Memory *)

(** A byte, a signed byte, and little-endian numbers at an offset. *)
Definition byteAt (p : list ascii) (i : nat) : N := match p !! i with Some c => N_of_ascii c | None => 0 end.
Definition s8 (b : N) : Z := let b := b mod 256 in if b <? 128 then Z.of_N b else (Z.of_N b - 256)%Z.
Definition u16At (p : list ascii) (i : nat) : N := byteAt p i + 256 * byteAt p (i + 1).
Definition u32At (p : list ascii) (i : nat) : N := u16At p i + 65536 * u16At p (i + 2).

(** Bits of a 32-bit float. *)
Definition floatOfBits (bits : N) : f32 := Floats.ieee 23 8 bits.

(** Writes [y[i] = v] in order. *)
Definition store (ws : list (nat * f32)) (y : list f32) : list f32 :=
  foldl (fun y w => <[fst w := snd w]> y) y ws.

Definition unwritten (n : nat) : list f32 := replicate n S754_nan.

(** ** Half floats *)

(** The shifts that bring the leading bit of a subnormal half to its place. *)
Fixpoint normalise (fuel : nat) (m : N) (e : Z) : N * Z :=
  match fuel with
  | O => (m, e)
  | S fuel => if N.land m 1024 =? 0 then normalise fuel (N.shiftl m 1) (e - 1)%Z else (m, e)
  end.

(** The lowest of ten bits needs ten shifts.
    [src/src/compute/Dequant.cpp:16-49 halfToFloat] *)
Definition halfToFloat (h : N) : f32 :=
  let sign := N.shiftl (N.land h 32768) 16 in
  let exp := N.land (N.shiftr h 10) 31 in
  let mant := N.land h 1023 in
  floatOfBits (
    if exp =? 0 then
      if mant =? 0 then sign
      else let '(m, e) := normalise 10 mant (-14) in
           N.lor (N.lor sign (N.shiftl (u32_of_Z (e + 127)) 23)) (N.shiftl (N.land m 1023) 13)
    else if exp =? 31 then N.lor (N.lor sign 2139095040) (N.shiftl mant 13)
    else N.lor (N.lor sign (N.shiftl (exp + 112) 23)) (N.shiftl mant 13)).

(** [src/src/compute/Dequant.cpp:51-56 bf16ToFloat] *)
Definition bf16ToFloat (b : N) : f32 := floatOfBits (N.shiftl b 16).

(** ** Whole blocks *)

Definition showN (n : nat) : string := pretty (N.of_nat n).

(** The shape the formats share: refuse a part of a block, then one block after the
    other, [f] writing the elements of each. *)
Definition perBlock (name : string) (blockElements blockBytes : nat) (f : list ascii -> list f32)
    (src : list ascii) (nelements : nat) : result (list f32) :=
  if negb (Nat.modulo nelements blockElements =? 0)%nat
  then Throw (RuntimeError ("dequant " +:+ name +:+ ": nelements=" +:+ showN nelements +:+
                            " is not a multiple of " +:+ showN blockElements))
  else Ok (concat (map (fun b => f (drop (b * blockBytes) src)) (seq 0 (Nat.div nelements blockElements)))).

Definition float_of_N (n : N) : f32 := f32_of_Z (Z.of_N n).

(** *** 32 elements *)

(** [src/src/compute/quant/Q8_0.cpp:205-216 Q8_0::dequantToF32] *)
Definition q8Block (block : list ascii) : list f32 :=
  let d := halfToFloat (u16At block 0) in
  map (fun l => fmul d (f32_of_Z (s8 (byteAt block (2 + l))))) (seq 0 32).

(** [src/src/compute/quant/Q8_0.cpp:194-217 Q8_0::dequantToF32] *)
Definition dequantQ8_0 : list ascii -> nat -> result (list f32) := perBlock "Q8_0" 32 34 q8Block.

Definition kHalfBlock : nat := 16.

(** [src/src/compute/quant/Q4_0.cpp:50-68 Q4_0::dequantToF32] *)
Definition q4_0Block (block : list ascii) : list f32 :=
  let d := halfToFloat (u16At block 0) in
  let q j := byteAt block (2 + j) in
  store (concat (map (fun j =>
    let x0 := (Z.of_N (N.land (q j) 15) - 8)%Z in
    let x1 := (Z.of_N (N.shiftr (q j) 4) - 8)%Z in
    [(j, fmul d (f32_of_Z x0)); ((j + kHalfBlock)%nat, fmul d (f32_of_Z x1))]) (seq 0 kHalfBlock))) (unwritten 32).

(** [src/src/compute/quant/Q4_0.cpp:36-69 Q4_0::dequantToF32] *)
Definition dequantQ4_0 : list ascii -> nat -> result (list f32) := perBlock "Q4_0" 32 18 q4_0Block.

(** [src/src/compute/quant/Q4_1.cpp:50-69 Q4_1::dequantToF32] *)
Definition q4_1Block (block : list ascii) : list f32 :=
  let d := halfToFloat (u16At block 0) in
  let m := halfToFloat (u16At block 2) in
  let q j := byteAt block (4 + j) in
  store (concat (map (fun j =>
    [(j, fadd (fmul d (float_of_N (N.land (q j) 15))) m);
     ((j + kHalfBlock)%nat, fadd (fmul d (float_of_N (N.shiftr (q j) 4))) m)]) (seq 0 kHalfBlock))) (unwritten 32).

(** [src/src/compute/quant/Q4_1.cpp:36-70 Q4_1::dequantToF32] *)
Definition dequantQ4_1 : list ascii -> nat -> result (list f32) := perBlock "Q4_1" 32 20 q4_1Block.

(** The fifth bits of elements [j] and [j + 16], in place.
    [src/src/compute/quant/Q5_0.cpp:66-67 Q5_0::dequantToF32] *)
Definition xhLo (qh : N) (j : nat) : N := N.shiftl (u8 (N.land (N.shiftr qh (N.of_nat j)) 1)) 4.

(** [src/src/compute/quant/Q5_0.cpp:68-69 Q5_0::dequantToF32] *)
Definition xhHi (qh : N) (j : nat) : N := N.shiftl (u8 (N.land (N.shiftr qh (N.of_nat (j + 16))) 1)) 4.

(** [src/src/compute/quant/Q5_0.cpp:52-80 Q5_0::dequantToF32] *)
Definition q5_0Block (block : list ascii) : list f32 :=
  let d := halfToFloat (u16At block 0) in
  let qh := u32At block 2 in
  let q j := byteAt block (6 + j) in
  store (concat (map (fun j =>
    let x0 := (Z.of_N (N.lor (N.land (q j) 15) (xhLo qh j)) - 16)%Z in
    let x1 := (Z.of_N (N.lor (N.shiftr (q j) 4) (xhHi qh j)) - 16)%Z in
    [(j, fmul d (f32_of_Z x0)); ((j + kHalfBlock)%nat, fmul d (f32_of_Z x1))]) (seq 0 kHalfBlock))) (unwritten 32).

(** [src/src/compute/quant/Q5_0.cpp:36-81 Q5_0::dequantToF32] *)
Definition dequantQ5_0 : list ascii -> nat -> result (list f32) := perBlock "Q5_0" 32 22 q5_0Block.

(** [src/src/compute/quant/Q5_1.cpp:52-84 Q5_1::dequantToF32] *)
Definition q5_1Block (block : list ascii) : list f32 :=
  let d := halfToFloat (u16At block 0) in
  let m := halfToFloat (u16At block 2) in
  let qh := u32At block 4 in
  let q j := byteAt block (8 + j) in
  store (concat (map (fun j =>
    let x0 := u8 (N.lor (N.land (q j) 15) (xhLo qh j)) in
    let x1 := u8 (N.lor (N.shiftr (q j) 4) (xhHi qh j)) in
    [(j, fadd (fmul d (float_of_N x0)) m); ((j + kHalfBlock)%nat, fadd (fmul d (float_of_N x1)) m)])
    (seq 0 kHalfBlock))) (unwritten 32).

(** [src/src/compute/quant/Q5_1.cpp:36-85 Q5_1::dequantToF32] *)
Definition dequantQ5_1 : list ascii -> nat -> result (list f32) := perBlock "Q5_1" 32 24 q5_1Block.

(** *** 256 elements *)

(** The scale and the minimum of sub-block [j]; Q5_K has the same function.
    [src/src/compute/quant/Q4K.cpp:48-61 Q4K::getScaleMinK4] *)
Definition getScaleMinK4 (j : nat) (q : nat -> N) : N * N :=
  if (j <? 4)%nat
  then (u8 (N.land (q j) 63), u8 (N.land (q (j + 4)%nat) 63))
  else (u8 (N.lor (N.land (q (j + 4)%nat) 15) (N.shiftl (N.shiftr (q (j - 4)%nat) 6) 4)),
        u8 (N.lor (N.shiftr (q (j + 4)%nat) 4) (N.shiftl (N.shiftr (q j) 6) 4))).

(** [jj] is half the loop variable [j].
    [src/src/compute/quant/Q4K.cpp:74-105 Q4K::dequantToF32] *)
Definition q4kBlock (block : list ascii) : list f32 :=
  let d := halfToFloat (u16At block 0) in
  let dmin := halfToFloat (u16At block 2) in
  let scales i := byteAt block (4 + i) in
  concat (map (fun jj =>
    let '(sLo, mLo) := getScaleMinK4 (2 * jj) scales in
    let '(sHi, mHi) := getScaleMinK4 (2 * jj + 1) scales in
    let d1 := fmul d (float_of_N sLo) in
    let m1 := fmul dmin (float_of_N mLo) in
    let d2 := fmul d (float_of_N sHi) in
    let m2 := fmul dmin (float_of_N mHi) in
    let q l := byteAt block (16 + (jj * 32 + l)) in
    map (fun l => fsub (fmul d1 (float_of_N (N.land (q l) 15))) m1) (seq 0 32) ++
    map (fun l => fsub (fmul d2 (float_of_N (N.shiftr (q l) 4))) m2) (seq 0 32)) (seq 0 4)).

(** [src/src/compute/quant/Q4K.cpp:63-106 Q4K::dequantToF32] *)
Definition dequantQ4K : list ascii -> nat -> result (list f32) := perBlock "Q4_K" 256 144 q4kBlock.

(** The masks [u1] and [u2] have moved by two bits in each round before [jj].
    [src/src/compute/quant/Q5K.cpp:73-112 Q5K::dequantToF32] *)
Definition q5kBlock (block : list ascii) : list f32 :=
  let d := halfToFloat (u16At block 0) in
  let dmin := halfToFloat (u16At block 2) in
  let scales i := byteAt block (4 + i) in
  let qh l := byteAt block (16 + l) in
  concat (map (fun jj =>
    let u1 := u8 (N.shiftl 1 (N.of_nat (2 * jj))) in
    let u2 := u8 (N.shiftl 2 (N.of_nat (2 * jj))) in
    let '(sLo, mLo) := getScaleMinK4 (2 * jj) scales in
    let '(sHi, mHi) := getScaleMinK4 (2 * jj + 1) scales in
    let d1 := fmul d (float_of_N sLo) in
    let m1 := fmul dmin (float_of_N mLo) in
    let d2 := fmul d (float_of_N sHi) in
    let m2 := fmul dmin (float_of_N mHi) in
    let q l := byteAt block (48 + (jj * 32 + l)) in
    map (fun l => let hi := if N.land (qh l) u1 =? 0 then 0 else 16 in
                  fsub (fmul d1 (float_of_N (N.land (q l) 15 + hi))) m1) (seq 0 32) ++
    map (fun l => let hi := if N.land (qh l) u2 =? 0 then 0 else 16 in
                  fsub (fmul d2 (float_of_N (N.shiftr (q l) 4 + hi))) m2) (seq 0 32)) (seq 0 4)).

(** [src/src/compute/quant/Q5K.cpp:62-113 Q5K::dequantToF32] *)
Definition dequantQ5K : list ascii -> nat -> result (list f32) := perBlock "Q5_K" 256 176 q5kBlock.

(** [y] and the pointers into the block move on by a half; two halves make the block.
    [src/src/compute/quant/Q6K.cpp:76-97 Q6K::dequantToF32] *)
Definition q6kHalf (d : f32) (ql qh : nat -> N) (sc : nat -> Z) : list f32 :=
  store (concat (map (fun l =>
    let is_ := Nat.div l 16 in
    let q1 := (s8 (N.lor (N.land (ql l) 15) (N.shiftl (N.land (N.shiftr (qh l) 0) 3) 4)) - 32)%Z in
    let q2 := (s8 (N.lor (N.land (ql (l + 32)%nat) 15) (N.shiftl (N.land (N.shiftr (qh l) 2) 3) 4)) - 32)%Z in
    let q3 := (s8 (N.lor (N.shiftr (ql l) 4) (N.shiftl (N.land (N.shiftr (qh l) 4) 3) 4)) - 32)%Z in
    let q4 := (s8 (N.lor (N.shiftr (ql (l + 32)%nat) 4) (N.shiftl (N.land (N.shiftr (qh l) 6) 3) 4)) - 32)%Z in
    [(l, fmul (fmul d (f32_of_Z (sc is_))) (f32_of_Z q1));
     ((l + 32)%nat, fmul (fmul d (f32_of_Z (sc (is_ + 2)%nat))) (f32_of_Z q2));
     ((l + 64)%nat, fmul (fmul d (f32_of_Z (sc (is_ + 4)%nat))) (f32_of_Z q3));
     ((l + 96)%nat, fmul (fmul d (f32_of_Z (sc (is_ + 6)%nat))) (f32_of_Z q4))]) (seq 0 32))) (unwritten 128).

(** [src/src/compute/quant/Q6K.cpp:59-98 Q6K::dequantToF32] *)
Definition q6kBlock (block : list ascii) : list f32 :=
  let d := halfToFloat (u16At block 208) in
  concat (map (fun half =>
    q6kHalf d (fun i => byteAt block (half * 64 + i)) (fun i => byteAt block (128 + (half * 32 + i)))
      (fun i => s8 (byteAt block (192 + (half * 8 + i))))) (seq 0 2)).

(** [src/src/compute/quant/Q6K.cpp:48-99 Q6K::dequantToF32] *)
Definition dequantQ6K : list ascii -> nat -> result (list f32) := perBlock "Q6_K" 256 210 q6kBlock.

(** The words [aux] after the unpacking, read back as bytes.
    [src/src/compute/quant/Q3K.cpp:24-37 unpackScales] *)
Definition unpackScales (packed : list ascii) (k : nat) : N :=
  let kmask1 := 50529027 in
  let kmask2 := 252645135 in
  let aux0 := u32At packed 0 in
  let aux1 := u32At packed 4 in
  let tmp := u32At packed 8 in
  let word := match Nat.div k 4 with
    | 0%nat => N.lor (N.land aux0 kmask2) (u32 (N.shiftl (N.land (N.shiftr tmp 0) kmask1) 4))
    | 1%nat => N.lor (N.land aux1 kmask2) (u32 (N.shiftl (N.land (N.shiftr tmp 2) kmask1) 4))
    | 2%nat => N.lor (N.land (N.shiftr aux0 4) kmask2) (u32 (N.shiftl (N.land (N.shiftr tmp 4) kmask1) 4))
    | _ => N.lor (N.land (N.shiftr aux1 4) kmask2) (u32 (N.shiftl (N.land (N.shiftr tmp 6) kmask1) 4))
    end in
  u8 (N.shiftr word (8 * N.of_nat (Nat.modulo k 4))).

(** The counters of the loops: [is] grows by two and [mBit] by one for each [j], [q]
    moves on by 32 bytes for each half [n].
    [src/src/compute/quant/Q3K.cpp:95-140 Q3K::dequantToF32] *)
Definition q3kBlock (block : list ascii) : list f32 :=
  let hmask i := byteAt block i in
  let scales := unpackScales (drop 96 block) in
  let d := halfToFloat (u16At block 108) in
  concat (map (fun n => concat (map (fun j =>
    let is_ := (8 * n + 2 * j)%nat in
    let mBit := N.of_nat (4 * n + j) in
    let shift := N.of_nat (2 * j) in
    let q l := byteAt block (32 + (n * 32 + l)) in
    let element dl l :=
      let lowBits := N.land (N.shiftr (q l) shift) 3 in
      let hiBit := N.land (N.shiftr (hmask l) mBit) 1 in
      fmul dl (f32_of_Z (Z.of_N lowBits - (if hiBit =? 0 then 4 else 0))) in
    let dl0 := fmul d (f32_of_Z (Z.of_N (scales is_) - 32)) in
    let dl1 := fmul d (f32_of_Z (Z.of_N (scales (is_ + 1)%nat) - 32)) in
    map (fun l => element dl0 l) (seq 0 16) ++ map (fun l => element dl1 (l + 16)%nat) (seq 0 16)) (seq 0 4)))
    (seq 0 2)).

(** [src/src/compute/quant/Q3K.cpp:84-141 Q3K::dequantToF32] *)
Definition dequantQ3K : list ascii -> nat -> result (list f32) := perBlock "Q3_K" 256 110 q3kBlock.

(** *** Unquantised *)

(** [src/src/compute/quant/Float32.cpp:38-42 Float32::dequantToF32] *)
Definition dequantFloat32 (src : list ascii) (nelements : nat) : result (list f32) :=
  Ok (map (fun i => floatOfBits (u32At src (4 * i))) (seq 0 nelements)).

(** [src/src/compute/quant/Float16.cpp:33-40 Float16::dequantToF32] *)
Definition dequantFloat16 (src : list ascii) (nelements : nat) : result (list f32) :=
  Ok (map (fun i => halfToFloat (u16At src (2 * i))) (seq 0 nelements)).

(** [src/src/compute/quant/Bfloat16.cpp:33-40 Bfloat16::dequantToF32] *)
Definition dequantBfloat16 (src : list ascii) (nelements : nat) : result (list f32) :=
  Ok (map (fun i => bf16ToFloat (u16At src (2 * i))) (seq 0 nelements)).

(** ** The registry *)

(** One format: elements and bytes of a block, and its conversion.
    [src/src/compute/QuantType.hpp:26-61 QuantType] *)
Record QuantType := mkQuant {
  blockElements : nat;
  blockBytes : nat;
  convert : list ascii -> nat -> result (list f32);
}.

(** [src/src/compute/QuantTypeRegistry.cpp:49-76 quantType] *)
Definition quantType (t : GgmlType) : option QuantType :=
  match t with
  | F32 => Some (mkQuant 1 4 dequantFloat32)
  | F16 => Some (mkQuant 1 2 dequantFloat16)
  | BF16 => Some (mkQuant 1 2 dequantBfloat16)
  | Q3_K => Some (mkQuant 256 110 dequantQ3K)
  | Q4_K => Some (mkQuant 256 144 dequantQ4K)
  | Q5_K => Some (mkQuant 256 176 dequantQ5K)
  | Q4_0 => Some (mkQuant 32 18 dequantQ4_0)
  | Q4_1 => Some (mkQuant 32 20 dequantQ4_1)
  | Q5_0 => Some (mkQuant 32 22 dequantQ5_0)
  | Q5_1 => Some (mkQuant 32 24 dequantQ5_1)
  | Q6_K => Some (mkQuant 256 210 dequantQ6K)
  | Q8_0 => Some (mkQuant 32 34 dequantQ8_0)
  | _ => None
  end.

(** [src/src/compute/Dequant.cpp:58-71 dequantToF32] *)
Definition dequantToF32 (t : GgmlType) (src : list ascii) (nelements : nat) : result (list f32) :=
  match quantType t with
  | Some qt => convert qt src nelements
  | None => Throw (RuntimeError ("dequantToF32: ggml type '" +:+ info_name (typeInfo t) +:+ "' not yet implemented"))
  end.
End Dequant.
