(* ===== verification/DequantProofs.v ===== *)
(** * Dequantisation: theorems

    Every element of every format is the float nearest the number its block spells: a
    half-precision scale times small integers, exactly, with at most the one rounding of
    the added minimum. *)

From Stdlib Require Import Ascii SpecFloat ZifyNat.
From S2P Require Import Prelude Sampling Gguf Floats FloatRound Dequant.
Import Sampling Dequant.

Ltac Zify.zify_post_hook ::= Z.to_euclidean_division_equations.

Module BitFields.
#[local] Open Scope N_scope.

(** A field above another. *)
Lemma lor_above a b k : b < 2 ^ k -> N.lor (N.shiftl a k) b = a * 2 ^ k + b.
Proof.
  intros Hb. rewrite N.shiftl_mul_pow2. apply N.bits_inj. intros i. rewrite N.lor_spec.
  destruct (N.lt_ge_cases i k) as [Hi|Hi].
  - rewrite N.mul_pow2_bits_low by done. cbn [orb].
    rewrite <- (N.mod_pow2_bits_low (a * 2 ^ k + b) k i) by done. rewrite N.add_comm, N.Div0.mod_add.
    by rewrite N.mod_small by done.
  - replace (N.testbit b i) with false.
    2: { rewrite <- (N.mod_small b (2 ^ k)) by done. by rewrite N.mod_pow2_bits_high. }
    rewrite orb_false_r, N.mul_pow2_bits_high by done. replace i with ((i - k) + k) at 2 by lia.
    rewrite <- N.div_pow2_bits. f_equal. rewrite N.div_add_l, (N.div_small b) by (try apply N.pow_nonzero; done). lia.
Qed.

Lemma lor_below a b k : b < 2 ^ k -> N.lor b (N.shiftl a k) = b + a * 2 ^ k.
Proof. intros Hb. rewrite N.lor_comm, lor_above by done. lia. Qed.

Lemma land_ones n k : N.land n (2 ^ k - 1) = n mod 2 ^ k.
Proof. rewrite <- N.land_ones. f_equal. by rewrite N.ones_equiv, N.sub_1_r. Qed.

Lemma land15 n : N.land n 15 = n mod 16. Proof. exact (land_ones n 4). Qed.
Lemma land3 n : N.land n 3 = n mod 4. Proof. exact (land_ones n 2). Qed.
Lemma land1 n : N.land n 1 = n mod 2. Proof. exact (land_ones n 1). Qed.
Lemma land63 n : N.land n 63 = n mod 64. Proof. exact (land_ones n 6). Qed.
Lemma shr4 n : N.shiftr n 4 = n / 16. Proof. exact (N.shiftr_div_pow2 n 4). Qed.
Lemma shr6 n : N.shiftr n 6 = n / 64. Proof. exact (N.shiftr_div_pow2 n 6). Qed.

Lemma byteAt_range p i : byteAt p i < 256.
Proof. unfold byteAt. destruct (p !! i); [apply N_ascii_bounded|lia]. Qed.

Lemma u16At_range p i : u16At p i < 65536.
Proof. unfold u16At. pose proof (byteAt_range p i). pose proof (byteAt_range p (i + 1)). lia. Qed.

(** One bit. *)
Lemma land_pow2 n k : N.land n (2 ^ k) = 2 ^ k * N.b2n (N.testbit n k).
Proof.
  apply N.bits_inj. intros i. rewrite N.land_spec, N.pow2_bits_eqb, N.mul_comm, <- N.shiftl_mul_pow2.
  destruct (N.eqb_spec k i) as [->|Hi].
  - rewrite N.shiftl_spec_high', N.sub_diag by done. rewrite N.b2n_bit0. by rewrite andb_true_r.
  - rewrite andb_false_r. destruct (N.lt_ge_cases i k); [by rewrite N.shiftl_spec_low|].
    rewrite N.shiftl_spec_high' by done. destruct (N.testbit n k); cbn [N.b2n]; [|by rewrite N.bits_0].
    symmetry. apply N.bits_above_log2. cbn. lia.
Qed.
End BitFields.

Module FloatValues.
Import BitFields.

Abbreviation fin := (FloatRound.fin 24 128).
Abbreviation val := (FloatRound.val 24 128).
Abbreviation R := (FloatRound.R 24).
#[local] Open Scope Z_scope.

(** ** Half floats *)

(** A half as a multiple of [2^-24], and whether it is a number. *)
Definition half (h : N) : Z :=
  let sign := Z.of_N (h / 32768 mod 2) in
  let exp := Z.of_N (h / 1024 mod 32) in
  let mant := Z.of_N (h mod 1024) in
  (if sign =? 0 then 1 else -1) * (if exp =? 0 then mant else (1024 + mant) * 2 ^ (exp - 1)).

Definition halfFinite (h : N) : Prop := (h / 1024 mod 32 <> 31)%N.

#[global] Instance halfFinite_dec h : Decision (halfFinite h).
Proof. unfold halfFinite. apply _. Defined.

Lemma float_fields (s e m : N) : (s < 2 -> 0 < e -> e < 255 -> m < 2 ^ 23 ->
  floatOfBits (s * 2 ^ 31 + e * 2 ^ 23 + m) = S754_finite (1 <=? s) (N.succ_pos (m + 2 ^ 23 - 1)) (Z.of_N e - 150))%N.
Proof.
  intros Hs He0 He Hm. unfold floatOfBits, Floats.ieee. change (23 + 8)%N with 31%N.
  rewrite N.testbit_eqb, N.shiftr_div_pow2.
  change (2 ^ 31)%N with 2147483648%N. change (2 ^ 23)%N with 8388608%N in *. change (2 ^ 8)%N with 256%N.
  replace (((s * 2147483648 + e * 8388608 + m) / 2147483648) mod 2)%N with s by lia.
  replace ((s * 2147483648 + e * 8388608 + m) / 8388608 mod 256)%N with e by lia.
  replace ((s * 2147483648 + e * 8388608 + m) mod 8388608)%N with m by lia.
  cbv zeta. rewrite (proj2 (N.eqb_neq e (256 - 1))) by lia. rewrite (proj2 (N.eqb_neq e 0)) by lia.
  destruct (m + 8388608)%N as [|p] eqn:E; [lia|]. cbn [Z.of_N]. f_equal.
  - destruct (N.eqb_spec s 1), (N.leb_spec 1 s); done || lia.
  - apply Pos2Z.inj. rewrite <- (N2Z.inj_pos (N.succ_pos _)), N.succ_pos_spec. lia.
  - change (Z.of_N 8) with 8. change (Z.of_N 23) with 23. change (2 ^ (8 - 1) - 2 + 23) with 149. lia.
Qed.

Lemma normal_value (s e m : N) : (s < 2)%N -> (0 < e)%N -> (e < 255)%N -> (m < 2 ^ 23)%N ->
  let x := floatOfBits (s * 2 ^ 31 + e * 2 ^ 23 + m) in
  fin x = true /\ val x = (if (s =? 0)%N then 1 else -1) * (2 ^ 23 + Z.of_N m) * 2 ^ (Z.of_N e - 1).
Proof.
  intros Hs He0 He Hm x. unfold x. rewrite float_fields by done. clear x.
  change (2 ^ 23)%N with 8388608%N in *. set (p := N.succ_pos (m + 8388608 - 1)).
  assert (Hp : Zpos p = 2 ^ 23 + Z.of_N m).
  { unfold p. rewrite <- N2Z.inj_pos, N.succ_pos_spec. lia. }
  assert (Hb : SpecFloat.bounded 24 128 p (Z.of_N e - 150) = true).
  { unfold SpecFloat.bounded, SpecFloat.canonical_mantissa.
    change (Zpos (digits2_pos p)) with (Zdigits2 (Zpos p)). rewrite Hp.
    rewrite (FloatRound.digits_unique (2 ^ 23 + Z.of_N m) 24) by lia. apply andb_true_intro. split.
    - apply Z.eqb_eq. unfold SpecFloat.fexp, SpecFloat.emin. lia.
    - apply Z.leb_le. lia. }
  split; [exact Hb|]. cbn [FloatRound.val]. change (SpecFloat.emin 24 128) with (-149). rewrite Hp.
  replace (Z.of_N e - 150 - -149) with (Z.of_N e - 1) by lia.
  destruct (N.leb_spec 1 s), (N.eqb_spec s 0); cbn [cond_Zopp]; lia.
Qed.

(** The subnormal halves, one by one. *)
Definition valued (x : f32) (z : Z) : bool := fin x && (val x =? z).

Lemma subnormals : forallb (fun m => forallb (fun s =>
  valued (halfToFloat (s * 32768 + N.of_nat m)) ((if (s =? 0)%N then 1 else -1) * Z.of_nat m * 2 ^ 125)) [0; 1]%N) (seq 0 1024) = true.
Proof. vm_compute. reflexivity. Qed.

Lemma halfToFloat_value h : (h < 65536)%N -> halfFinite h ->
  fin (halfToFloat h) = true /\ val (halfToFloat h) = half h * 2 ^ 125.
Proof.
  intros Hh Hf. unfold halfFinite in Hf. set (s := (h / 32768 mod 2)%N). set (e := (h / 1024 mod 32)%N) in *.
  set (m := (h mod 1024)%N). assert (Hs : (s < 2)%N) by (unfold s; lia). assert (Hm : (m < 1024)%N) by (unfold m; lia).
  assert (Hd : h = (s * 32768 + e * 1024 + m)%N) by (unfold s, e, m; lia).
  assert (Hhalf : half h = (if (s =? 0)%N then 1 else -1) * (if (e =? 0)%N then Z.of_N m else (1024 + Z.of_N m) * 2 ^ (Z.of_N e - 1))).
  { unfold half. fold s e m. destruct (N.eqb_spec s 0), (Z.eqb_spec (Z.of_N s) 0), (N.eqb_spec e 0), (Z.eqb_spec (Z.of_N e) 0); lia. }
  rewrite Hhalf. clear Hhalf. destruct (N.eqb_spec e 0) as [He|He].
  - pose proof subnormals as Hall. rewrite forallb_forall in Hall. specialize (Hall (N.to_nat m)).
    rewrite forallb_forall in Hall. specialize (Hall ltac:(apply in_seq; lia) s ltac:(destruct s as [|[]]; cbn; lia)).
    rewrite N2Nat.id in Hall. replace (s * 32768 + m)%N with h in Hall by lia. unfold valued in Hall.
    apply andb_true_iff in Hall as [Hfin Hval]. apply Z.eqb_eq in Hval. split; [done|]. rewrite Hval. f_equal. lia.
  - assert (Hbits : halfToFloat h = floatOfBits (s * 2 ^ 31 + (e + 112) * 2 ^ 23 + m * 2 ^ 13)).
    { unfold halfToFloat. f_equal. rewrite (land_pow2 h 15 : N.land h 32768 = _), N.testbit_spec', N.shiftr_div_pow2.
      rewrite (land_ones (h / 2 ^ 10) 5 : N.land _ 31 = _), (land_ones h 10 : N.land h 1023 = _).
      change ((h / 2 ^ 15) mod 2)%N with s. change ((h / 2 ^ 10) mod 2 ^ 5)%N with e. change (h mod 2 ^ 10)%N with m.
      rewrite (proj2 (N.eqb_neq e 0)) by done. rewrite (proj2 (N.eqb_neq e 31)) by done.
      replace (N.shiftl (2 ^ 15 * s) 16) with (N.shiftl s 31) by (rewrite !N.shiftl_mul_pow2; lia).
      rewrite lor_above by (rewrite N.shiftl_mul_pow2; lia). rewrite !N.shiftl_mul_pow2.
      replace (s * 2 ^ 31 + (e + 112) * 2 ^ 23)%N with ((s * 2 ^ 8 + (e + 112)) * 2 ^ 23)%N by lia.
      rewrite <- (N.shiftl_mul_pow2 (s * 2 ^ 8 + (e + 112)) 23), lor_above by lia. by rewrite !N.shiftl_mul_pow2. }
    rewrite Hbits. destruct (normal_value s (e + 112) (m * 2 ^ 13)) as [Hfin Hval]; [lia..|]. split; [exact Hfin|].
    rewrite Hval. replace (Z.of_N (e + 112) - 1) with ((Z.of_N e - 1) + 112) by lia. rewrite Z.pow_add_r by lia.
    change (2 ^ 125) with (2 ^ 13 * 2 ^ 112). change (2 ^ 23) with (1024 * 2 ^ 13). rewrite N2Z.inj_mul. change (Z.of_N (2 ^ 13)) with (2 ^ 13). ring.
Qed.
End FloatValues.

Module ExactProducts.
Import FloatValues.
#[local] Open Scope Z_scope.

(** At most [b] significant bits. *)
Definition short (b z : Z) : Prop := exists m j, 0 <= j /\ z = m * 2 ^ j /\ Z.abs m < 2 ^ b.

(** A float that is exactly [z] times [2^-24], of [a] significant bits, below [2^c]. *)
Definition scaled (a c : Z) (x : f32) (z : Z) : Prop :=
  fin x = true /\ val x = z * 2 ^ 125 /\ short a z /\ Z.abs z < 2 ^ c.

(** The float nearest [z] times [2^-24]. *)
Definition nearest (x : f32) (z : Z) : Prop := fin x = true /\ val x = R (z * 2 ^ 125).

Lemma short_R b z k : short b z -> b <= 24 -> 0 <= k -> R (z * 2 ^ k) = z * 2 ^ k.
Proof.
  intros (m & j & Hj & -> & Hm) Hb Hk. rewrite <- Z.mul_assoc, <- Z.pow_add_r by lia. apply FloatRound.R_short; try lia.
  pose proof (Z.pow_le_mono_r 2 b 24). lia.
Qed.

Lemma scaled_nearest a c x z : a <= 24 -> scaled a c x z -> nearest x z.
Proof. intros Ha (Hf & Hv & Hs & _). split; [done|]. by rewrite (short_R a). Qed.

Lemma scaled_weaken a c c' x z : scaled a c x z -> 0 <= c <= c' -> scaled a c' x z.
Proof. intros (Hf & Hv & Hs & Hz) Hc. pose proof (Z.pow_le_mono_r 2 c c'). do 3 (split; [done|]). lia. Qed.

Lemma top_value : FloatRound.top 24 128 = 2 ^ 277.
Proof. reflexivity. Qed.

Lemma below_top z c : Z.abs z < 2 ^ c -> 0 <= c <= 150 -> Z.abs (R (z * 2 ^ 125)) < FloatRound.top 24 128.
Proof.
  intros Hz Hc. rewrite top_value. assert (Hb : R (2 ^ (c + 125)) = 2 ^ (c + 125)).
  { rewrite <- (Z.mul_1_l (2 ^ (c + 125))). apply FloatRound.R_short; lia. }
  assert (Hp : 2 ^ (c + 125) = 2 ^ c * 2 ^ 125) by (apply Z.pow_add_r; lia).
  pose proof (FloatRound.R_mono 24 ltac:(lia) (z * 2 ^ 125) (2 ^ (c + 125)) ltac:(nia)) as H1.
  pose proof (FloatRound.R_mono 24 ltac:(lia) (- 2 ^ (c + 125)) (z * 2 ^ 125) ltac:(nia)) as H2.
  rewrite FloatRound.R_opp, Hb in H2 by lia. rewrite Hb in H1.
  pose proof (Z.pow_lt_mono_r 2 (c + 125) 277). lia.
Qed.

Lemma integer_value n : Z.abs n < 2 ^ 24 -> fin (f32_of_Z n) = true /\ val (f32_of_Z n) = n * 2 ^ 149.
Proof.
  intros Hn. assert (Hr : R (n * 2 ^ 149) = n * 2 ^ 149) by (apply FloatRound.R_short; lia).
  destruct (FloatRound.normalize_value 24 128 ltac:(lia) ltac:(lia) n 0) as [Hf Hv].
  - vm_compute. discriminate.
  - change (0 - SpecFloat.emin 24 128) with 149. rewrite Hr, top_value, Z.abs_mul. change (Z.abs (2 ^ 149)) with (2 ^ 149). lia.
  - change (0 - SpecFloat.emin 24 128) with 149 in Hv. rewrite Hr in Hv. done.
Qed.

Lemma scaled_half h : (h < 65536)%N -> halfFinite h -> scaled 11 40 (halfToFloat h) (half h).
Proof.
  intros Hh Hf. destruct (halfToFloat_value h Hh Hf) as [Hfin Hval]. split; [done|]. split; [done|].
  unfold halfFinite in Hf. unfold half. set (e := Z.of_N (h / 1024 mod 32)). set (m := Z.of_N (h mod 1024)).
  assert (He : 0 <= e < 31) by (unfold e; lia). assert (Hm : 0 <= m < 1024) by (unfold m; lia).
  set (sg := if Z.of_N (h / 32768 mod 2) =? 0 then 1 else -1).
  assert (Hsg : sg = 1 \/ sg = -1) by (unfold sg; destruct (_ =? 0); lia).
  destruct (Z.eqb_spec e 0).
  - split; [exists (sg * m), 0; lia|lia].
  - pose proof (Z.pow_le_mono_r 2 (e - 1) 29). split; [|change (2 ^ 40) with (2048 * 2 ^ 29); nia].
    exists (sg * (1024 + m)), (e - 1). split; [lia|]. split; lia.
Qed.

Lemma short_small b n : Z.abs n < 2 ^ b -> short b n.
Proof. exists n, 0. split; [lia|]. split; [lia|done]. Qed.

(** The least number of a two's complement has one bit. *)
Lemma short_least b n : 0 < b -> - 2 ^ b <= n < 2 ^ b -> short b n.
Proof.
  intros Hb Hn. destruct (Z.eq_dec n (- 2 ^ b)) as [->|].
  - exists (-1), b. split; [lia|]. split; [ring|]. pose proof (Z.pow_lt_mono_r 2 0 b). lia.
  - apply short_small. lia.
Qed.

Lemma short_mul a b z n : 0 <= a -> 0 <= b -> short a z -> short b n -> short (a + b) (z * n).
Proof.
  intros Ha Hb (m & j & Hj & -> & Hm) (m' & j' & Hj' & -> & Hm'). exists (m * m'), (j + j').
  split; [lia|]. split; [rewrite Z.pow_add_r by lia; ring|].
  rewrite Z.abs_mul, Z.pow_add_r by lia. apply Z.mul_lt_mono_nonneg; lia.
Qed.

Lemma scaled_mul_short a c b k x z n : scaled a c x z -> short b n -> Z.abs n < 2 ^ k ->
  0 <= a -> 0 <= b -> 0 <= c -> 0 <= k <= 24 -> a + b <= 24 -> c + k <= 100 ->
  scaled (a + b) (c + k) (fmul x (f32_of_Z n)) (z * n).
Proof.
  intros (Hf & Hv & Hs & Hz) Hn Hk Ha Hb0 Hc0 Hk0 Hb Hc. pose proof (Z.pow_le_mono_r 2 k 24 ltac:(lia) ltac:(lia)).
  assert (Hb2 : Z.abs (z * n) < 2 ^ (c + k)).
  { rewrite Z.abs_mul, Z.pow_add_r by lia. apply Z.mul_lt_mono_nonneg; lia. }
  pose proof (short_mul a b z n Ha Hb0 Hs Hn) as Hsh.
  destruct (integer_value n ltac:(lia)) as [Hfn Hvn].
  destruct (FloatRound.mul_scaled 24 128 ltac:(lia) ltac:(lia) x (f32_of_Z n) z n 125 149 Hf Hfn Hv Hvn) as [Hfp Hvp];
    [lia|lia|change (SpecFloat.emin 24 128) with (-149); lia|..].
  - apply (below_top _ (c + k)); [done|lia].
  - change (125 + 149 + SpecFloat.emin 24 128) with 125 in Hvp. rewrite (short_R (a + b)) in Hvp by (done || lia). done.
Qed.

Lemma scaled_mul a c b x z n : scaled a c x z -> Z.abs n < 2 ^ b -> 0 <= a -> 0 <= b -> 0 <= c -> a + b <= 24 -> c + b <= 100 ->
  scaled (a + b) (c + b) (fmul x (f32_of_Z n)) (z * n).
Proof. intros Hx Hn. intros. apply scaled_mul_short; try done; [by apply short_small|lia]. Qed.

Lemma scaled_add a a' c x y z w : scaled a c x z -> scaled a' c y w -> 0 <= c <= 100 ->
  nearest (fadd x y) (z + w) /\ nearest (fsub x y) (z - w).
Proof.
  intros (Hfx & Hvx & _ & Hz) (Hfy & Hvy & _ & Hw) Hc.
  assert (Hb : forall v, Z.abs v <= Z.abs z + Z.abs w -> Z.abs (R (v * 2 ^ 125)) < FloatRound.top 24 128).
  { intros v Hle. apply (below_top _ (c + 1)); [|lia]. rewrite Z.pow_add_r by lia. lia. }
  split.
  - pose proof (Hb (z + w) ltac:(lia)) as Ht. rewrite Z.mul_add_distr_r, <- Hvx, <- Hvy in Ht.
    destruct (FloatRound.add_value 24 128 ltac:(lia) ltac:(lia) x y Hfx Hfy Ht) as [Hf Hv].
    split; [exact Hf|]. unfold fadd. rewrite Hv, Hvx, Hvy. f_equal. ring.
  - pose proof (Hb (z - w) ltac:(lia)) as Ht. rewrite Z.mul_sub_distr_r, <- Hvx, <- Hvy in Ht.
    destruct (FloatRound.sub_value 24 128 ltac:(lia) ltac:(lia) x y Hfx Hfy Ht) as [Hf Hv].
    split; [exact Hf|]. unfold fsub. rewrite Hv, Hvx, Hvy. f_equal. ring.
Qed.
End ExactProducts.

(** Words of four bytes, byte by byte. *)
Module Words.
Import BitFields.

(** Operations on bits go byte by byte. *)
Lemma cat_bits (f : N -> N -> N) (g : bool -> bool -> bool) a b m n :
  (forall x y i, N.testbit (f x y) i = g (N.testbit x i) (N.testbit y i)) -> g false false = false -> (a < 256)%N -> (m < 256)%N ->
  f (a + 256 * b)%N (m + 256 * n)%N = (f a m + 256 * f b n)%N.
Proof.
  intros Hf Hg Ha Hm. assert (Hcat : forall x y, (x < 256 -> x + 256 * y = N.lor (N.shiftl y 8) x)%N).
  { intros x y Hx. rewrite (lor_above y x 8) by done. change (2 ^ 8)%N with 256%N. lia. }
  assert (Hh : forall x i, (x < 256 -> 8 <= i -> N.testbit x i = false)%N).
  { intros x i Hx Hi. rewrite <- (N.mod_small x (2 ^ 8)) by done. by apply N.mod_pow2_bits_high. }
  assert (Hs : (f a m < 256)%N).
  { replace (f a m) with (f a m mod 2 ^ 8)%N; [by apply N.mod_lt|]. apply N.bits_inj. intros i.
    destruct (N.lt_ge_cases i 8); [by apply N.mod_pow2_bits_low|]. by rewrite N.mod_pow2_bits_high, Hf, !Hh, Hg by done. }
  rewrite !Hcat by done. apply N.bits_inj. intros i. rewrite !Hf, !N.lor_spec.
  destruct (N.lt_ge_cases i 8).
  - rewrite !N.shiftl_spec_low by done. cbn [orb]. by rewrite Hf.
  - rewrite !N.shiftl_spec_high' by done. rewrite !Hf.
    rewrite (Hh a i), (Hh m i), Hg, !orb_false_r by done. done.
Qed.

Definition cat4 (a b c d : N) : N := (a + 256 * (b + 256 * (c + 256 * d)))%N.

Lemma u32At_cat p i : u32At p i = cat4 (byteAt p i) (byteAt p (i + 1)) (byteAt p (i + 2)) (byteAt p (i + 3)).
Proof. unfold u32At, u16At, cat4. replace (i + 2 + 1) with (i + 3) by lia. lia. Qed.

Lemma cat4_land a b c d k l m n : (a < 256 -> b < 256 -> c < 256 -> d < 256 -> k < 256 -> l < 256 -> m < 256 -> n < 256 ->
  N.land (cat4 a b c d) (cat4 k l m n) = cat4 (N.land a k) (N.land b l) (N.land c m) (N.land d n))%N.
Proof. intros. unfold cat4. by rewrite !(cat_bits N.land andb) by (exact N.land_spec || done). Qed.

Lemma cat4_lor a b c d k l m n : (a < 256 -> b < 256 -> c < 256 -> d < 256 -> k < 256 -> l < 256 -> m < 256 -> n < 256 ->
  N.lor (cat4 a b c d) (cat4 k l m n) = cat4 (N.lor a k) (N.lor b l) (N.lor c m) (N.lor d n))%N.
Proof. intros. unfold cat4. by rewrite !(cat_bits N.lor orb) by (exact N.lor_spec || done). Qed.

Ltac eval_pow2 :=
  repeat match goal with |- context [(2 ^ ?k)%N] => let v := eval vm_compute in (2 ^ k)%N in change (2 ^ k)%N with v end.

(** The low bits of the shifted bytes of a word. *)
Definition even_shift (s : N) : Prop := (s = 0 \/ s = 2 \/ s = 4 \/ s = 6)%N.

Lemma cat_shift x w s : (x < 256)%N -> even_shift s ->
  ((x + 256 * w) / 2 ^ s = (x / 2 ^ s + w mod 2 ^ s * 2 ^ (8 - s)) + 256 * (w / 2 ^ s))%N.
Proof. intros Hx [-> | [-> | [-> | ->]]]; eval_pow2; lia. Qed.

Lemma cat_mod x w s : even_shift s -> ((x + 256 * w) mod 2 ^ s = x mod 2 ^ s)%N.
Proof. intros [-> | [-> | [-> | ->]]]; eval_pow2; lia. Qed.

Lemma low_field x y s k : (x < 256)%N -> even_shift s -> (k + s <= 8)%N ->
  (x / 2 ^ s + y mod 2 ^ s * 2 ^ (8 - s) < 256 /\
   N.land (x / 2 ^ s + y mod 2 ^ s * 2 ^ (8 - s)) (2 ^ k - 1) = x / 2 ^ s mod 2 ^ k)%N.
Proof.
  intros Hx Hs Hk. split; [destruct Hs as [-> | [-> | [-> | ->]]]; eval_pow2; lia|].
  rewrite land_ones. replace (8 - s)%N with ((8 - s - k) + k)%N by lia. rewrite N.pow_add_r, N.mul_assoc. apply N.Div0.mod_add.
Qed.

Lemma cat4_field a b c d s k : (a < 256)%N -> (b < 256)%N -> (c < 256)%N -> (d < 256)%N -> even_shift s -> (k + s <= 8)%N ->
  (N.land (N.shiftr (cat4 a b c d) s) (cat4 (2 ^ k - 1) (2 ^ k - 1) (2 ^ k - 1) (2 ^ k - 1)) =
   cat4 (a / 2 ^ s mod 2 ^ k) (b / 2 ^ s mod 2 ^ k) (c / 2 ^ s mod 2 ^ k) (d / 2 ^ s mod 2 ^ k))%N.
Proof.
  intros Ha Hb Hc Hd Hs Hk. rewrite N.shiftr_div_pow2. unfold cat4 at 1. rewrite !cat_shift, !cat_mod by done.
  destruct (low_field a b s k Ha Hs Hk) as [Ha1 Ha2]. destruct (low_field b c s k Hb Hs Hk) as [Hb1 Hb2].
  destruct (low_field c d s k Hc Hs Hk) as [Hc1 Hc2]. destruct (low_field d 0 s k Hd Hs Hk) as [Hd1 Hd2].
  rewrite N.Div0.mod_0_l, N.mul_0_l, N.add_0_r in Hd1, Hd2.
  assert (Hc4 : forall w x y z, (w + 256 * (x + 256 * (y + 256 * z)))%N = cat4 w x y z) by done. rewrite Hc4. clear Hc4.
  assert (Hm : (2 ^ k - 1 < 256)%N).
  { clear - Hk. assert (H8 : (2 ^ k <= 256)%N) by (apply (N.pow_le_mono_r 2 k 8); lia). lia. }
  rewrite cat4_land by done. by rewrite Ha2, Hb2, Hc2, Hd2.
Qed.

(** A byte of a word of small bytes moved up by four bits. *)
Lemma cat4_up a b c d : (a < 4 -> b < 4 -> c < 4 -> d < 4 -> u32 (N.shiftl (cat4 a b c d) 4) = cat4 (16 * a) (16 * b) (16 * c) (16 * d))%N.
Proof. intros. rewrite N.shiftl_mul_pow2, u32_small; unfold cat4; lia. Qed.

Lemma cat4_byte (f : nat -> N) r : r < 4 -> (forall i, (f i < 256)%N) ->
  u8 (N.shiftr (cat4 (f 0) (f 1) (f 2) (f 3)) (8 * N.of_nat r)) = f r.
Proof.
  intros Hr Hf. pose proof (Hf 0). pose proof (Hf 1). pose proof (Hf 2). pose proof (Hf 3).
  rewrite N.shiftr_div_pow2. unfold u8, wrapU, cat4.
  destruct r as [|[|[|[|r]]]]; [..|lia]; change (8 * N.of_nat 0)%N with 0%N; change (8 * N.of_nat 1)%N with 8%N;
    change (8 * N.of_nat 2)%N with 16%N; change (8 * N.of_nat 3)%N with 24%N; eval_pow2; lia.
Qed.
End Words.
