(* ===== verification/DequantFormats.v ===== *)
(** * Dequantisation: the formats

    What each element of a block stands for, by its index and in plain arithmetic, and
    that the loops of every format write exactly these elements. *)

From Stdlib Require Import Ascii SpecFloat ZifyNat.
From S2P Require Import Prelude Sampling Gguf Floats FloatRound Dequant DequantProofs.
Import Sampling Dequant BitFields FloatValues ExactProducts Words.

Ltac Zify.zify_post_hook ::= Z.to_euclidean_division_equations.

Module BlockFormats.
#[local] Open Scope nat_scope.

(** ** The reference *)

(** [len] bits of byte [i] from bit [lo] on. *)
Definition field (p : list ascii) (i lo len : nat) : Z :=
  Z.of_N (byteAt p i / 2 ^ N.of_nat lo mod 2 ^ N.of_nat len)%N.

Definition int8 (p : list ascii) (i : nat) : Z := s8 (byteAt p i).

(** A half, unless it is infinite or no number. *)
Definition number (p : list ascii) (i : nat) : option Z :=
  let h := u16At p i in if decide (halfFinite h) then Some (half h) else None.

(** The packed 6-bit scales and minima of Q4_K and Q5_K. *)
Definition scaleK4 (p : list ascii) (j : nat) : Z :=
  if j <? 4 then field p (4 + j) 0 6 else (field p (8 + j) 0 4 + 16 * field p j 6 2)%Z.
Definition minK4 (p : list ascii) (j : nat) : Z :=
  if j <? 4 then field p (8 + j) 0 6 else (field p (8 + j) 4 4 + 16 * field p (4 + j) 6 2)%Z.

(** The packed 6-bit scales of Q3_K. *)
Definition scaleQ3 (p : list ascii) (k : nat) : Z :=
  (field p (96 + k mod 8) (4 * (k / 8)) 4 + 16 * field p (104 + k mod 4) (2 * (k / 4)) 2 - 32)%Z.

(** Element [e] of a block, in units of [2^-24]. *)
Definition element (t : GgmlType) (p : list ascii) (e : nat) : option Z :=
  match t with
  | Q8_0 => d ← number p 0; Some (d * int8 p (2 + e))%Z
  | Q4_0 => d ← number p 0; Some (d * (field p (2 + e mod 16) (4 * (e / 16)) 4 - 8))%Z
  | Q4_1 => d ← number p 0; m ← number p 2; Some (d * field p (4 + e mod 16) (4 * (e / 16)) 4 + m)%Z
  | Q5_0 => d ← number p 0;
      Some (d * (field p (6 + e mod 16) (4 * (e / 16)) 4 + 16 * field p (2 + e / 8) (e mod 8) 1 - 16))%Z
  | Q5_1 => d ← number p 0; m ← number p 2;
      Some (d * (field p (8 + e mod 16) (4 * (e / 16)) 4 + 16 * field p (4 + e / 8) (e mod 8) 1) + m)%Z
  | Q4_K => d ← number p 0; m ← number p 2;
      Some (d * scaleK4 p (e / 32) * field p (16 + 32 * (e / 64) + e mod 32) (4 * (e / 32 mod 2)) 4 - m * minK4 p (e / 32))%Z
  | Q5_K => d ← number p 0; m ← number p 2;
      Some (d * scaleK4 p (e / 32) *
              (field p (48 + 32 * (e / 64) + e mod 32) (4 * (e / 32 mod 2)) 4 + 16 * field p (16 + e mod 32) (e / 32) 1)
            - m * minK4 p (e / 32))%Z
  | Q6_K => d ← number p 208;
      let h := e / 128 in let g := e mod 128 / 32 in let l := e mod 32 in
      Some (d * int8 p (192 + e / 16) *
              (field p (64 * h + 32 * (g mod 2) + l) (4 * (g / 2)) 4 + 16 * field p (128 + 32 * h + l) (2 * g) 2 - 32))%Z
  | Q3_K => d ← number p 108;
      let h := e / 128 in let j := e mod 128 / 32 in let l := e mod 32 in
      Some (d * scaleQ3 p (e / 16) * (field p (32 + 32 * h + l) (2 * j) 2 + 4 * field p l (e / 32) 1 - 4))%Z
  | F16 => number p 0
  | _ => None
  end.

(** The formats that add a minimum round once; the others not at all. *)
Definition exactly (t : GgmlType) : bool := match t with Q4_1 | Q5_1 | Q4_K | Q5_K => false | _ => true end.

Definition meets (t : GgmlType) (x : f32) (z : Z) : Prop :=
  nearest x z /\ (exactly t = true -> val x = (z * 2 ^ 125)%Z).

(** ** Lookups in what the loops write *)

Lemma map_seq_lookup {A} (f : nat -> A) n i : i < n -> map f (seq 0 n) !! i = Some (f i).
Proof. intros Hi. rewrite list_lookup_fmap, lookup_seq_lt by done. done. Qed.

Lemma pieces_lookup {A} (F : nat -> list A) k n : 0 < k -> (forall b, b < n -> length (F b) = k) ->
  length (concat (map F (seq 0 n))) = n * k /\
  forall i, i < n * k -> concat (map F (seq 0 n)) !! i = F (i / k) !! (i mod k).
Proof.
  intros Hk. induction n as [|n IH]; intros HF; [split; [done|lia]|].
  destruct IH as [Hl Hi]; [intros; apply HF; lia|]. rewrite seq_S, map_app, concat_app. cbn [map concat Nat.add].
  rewrite app_nil_r. split; [rewrite length_app, Hl, HF by lia; lia|]. intros i Hin.
  destruct (Nat.lt_ge_cases i (n * k)) as [Hlt|Hge].
  - rewrite lookup_app_l by lia. by apply Hi.
  - rewrite lookup_app_r by lia. rewrite Hl. assert (i / k = n) as -> by (symmetry; apply (Nat.div_unique _ _ _ (i - n * k)); lia).
    f_equal. apply (Nat.mod_unique _ _ n); lia.
Qed.

Lemma halves_lookup {A} (f g : nat -> A) k e : e < 2 * k ->
  (map f (seq 0 k) ++ map g (seq 0 k)) !! e = Some (if e / k =? 0 then f (e mod k) else g (e mod k)).
Proof.
  intros He. destruct (Nat.lt_ge_cases e k).
  - rewrite lookup_app_l by (rewrite length_map, length_seq; lia). rewrite map_seq_lookup by done.
    rewrite Nat.div_small, Nat.mod_small by done. done.
  - rewrite lookup_app_r by (rewrite length_map, length_seq; lia). rewrite length_map, length_seq, map_seq_lookup by lia.
    rewrite <- (Nat.div_unique e k 1 (e - k)), <- (Nat.mod_unique e k 1 (e - k)) by lia. done.
Qed.

(** The elements [j] and [j + 16] in one step. *)
Lemma halfBlock_lookup (f g : nat -> f32) e : e < 32 ->
  store (concat (map (fun j => [(j, f j); (j + kHalfBlock, g j)]) (seq 0 kHalfBlock))) (unwritten 32) !! e =
  Some (if e / 16 =? 0 then f (e mod 16) else g (e mod 16)).
Proof. intros He. do 32 (destruct e as [|e]; [reflexivity|]). lia. Qed.

Lemma halfBlock_length (f g : nat -> f32) :
  length (store (concat (map (fun j => [(j, f j); (j + kHalfBlock, g j)]) (seq 0 kHalfBlock))) (unwritten 32)) = 32.
Proof. reflexivity. Qed.

(** ** Fields *)

Lemma low_nibble p i : Z.of_N (N.land (byteAt p i) 15) = field p i 0 4.
Proof. rewrite land15. unfold field. rewrite N.div_1_r. done. Qed.

Lemma high_nibble p i : Z.of_N (N.shiftr (byteAt p i) 4) = field p i 4 4.
Proof.
  rewrite shr4. unfold field. pose proof (byteAt_range p i). change (2 ^ N.of_nat 4)%N with 16%N.
  rewrite (N.mod_small (_ / 16)) by lia. done.
Qed.

Lemma field_range p i lo len : (0 <= field p i lo len < 2 ^ Z.of_nat len)%Z.
Proof.
  unfold field. pose proof (N.mod_lt (byteAt p i / 2 ^ N.of_nat lo) (2 ^ N.of_nat len) ltac:(by apply N.pow_nonzero)) as H.
  split; [apply N2Z.is_nonneg|]. apply N2Z.inj_lt in H. rewrite N2Z.inj_pow in H. rewrite nat_N_Z in H. exact H.
Qed.

Lemma int8_range p i : (Z.abs (int8 p i) < 2 ^ 8)%Z.
Proof. unfold int8, s8. pose proof (byteAt_range p i). destruct (N.ltb_spec (byteAt p i mod 256) 128); lia. Qed.

Lemma number_scaled p i d : number p i = Some d -> scaled 11 40 (halfToFloat (u16At p i)) d.
Proof.
  unfold number. destruct (decide _) as [Hf|]; [|done]. intros [= <-]. apply scaled_half; [apply u16At_range|done].
Qed.

Lemma exact_meets t a c x z : (a <= 24)%Z -> scaled a c x z -> meets t x z.
Proof. intros Ha H. split; [by apply (scaled_nearest a c)|]. intros _. apply H. Qed.

Lemma rounded_meets t x z : exactly t = false -> nearest x z -> meets t x z.
Proof. intros Ht H. split; [done|]. by rewrite Ht. Qed.

(** ** 32 elements *)

Ltac scale d Hd :=
  cbn [element]; match goal with |- context [number ?p ?i ≫= _] => destruct (number p i) as [d|] eqn:Hd end;
  cbn [mbind option_bind]; [apply number_scaled in Hd|done].

Lemma nibble_of p i k : k = 0 \/ k = 1 ->
  Z.of_N (if k =? 0 then N.land (byteAt p i) 15 else N.shiftr (byteAt p i) 4) = field p i (4 * k) 4.
Proof. intros [-> | ->]; [apply low_nibble|apply high_nibble]. Qed.

Lemma half_index e : e < 32 -> e / 16 = 0 \/ e / 16 = 1.
Proof. intros. lia. Qed.

Lemma q8_block p e z : e < 32 -> element Q8_0 p e = Some z -> exists x, q8Block p !! e = Some x /\ meets Q8_0 x z.
Proof.
  intros He. scale d Hd. intros Hz; apply (inj Some) in Hz as <-. eexists. split; [by apply map_seq_lookup|].
  eapply exact_meets; [|apply (scaled_mul 11 40 8); [exact Hd|apply int8_range|lia..]]. lia.
Qed.

Lemma q4_0_block p e z : e < 32 -> element Q4_0 p e = Some z -> exists x, q4_0Block p !! e = Some x /\ meets Q4_0 x z.
Proof.
  intros He. scale d Hd. intros Hz; apply (inj Some) in Hz as <-. eexists. split; [by apply halfBlock_lookup|].
  eapply exact_meets; [|].
  2: { pose proof (nibble_of p (2 + e mod 16) (e / 16) (half_index e He)) as Hn. pose proof (field_range p (2 + e mod 16) (4 * (e / 16)) 4).
       rewrite <- Hn in *. destruct (e / 16 =? 0); apply (scaled_mul 11 40 4); (exact Hd || lia). }
  lia.
Qed.

Lemma q4_1_block p e z : e < 32 -> element Q4_1 p e = Some z -> exists x, q4_1Block p !! e = Some x /\ meets Q4_1 x z.
Proof.
  intros He. scale d Hd. scale m Hm. intros Hz; apply (inj Some) in Hz as <-. eexists. split; [by apply halfBlock_lookup|].
  apply rounded_meets; [done|].
  pose proof (nibble_of p (4 + e mod 16) (e / 16) (half_index e He)) as Hn. pose proof (field_range p (4 + e mod 16) (4 * (e / 16)) 4).
  rewrite <- Hn in *. apply scaled_weaken with (c' := 44%Z) in Hm; [|lia].
  destruct (e / 16 =? 0); apply (scaled_add 15 11 44); (exact Hm || lia || (apply (scaled_mul 11 40 4); (exact Hd || lia))).
Qed.

(** The fifth bits: one 32-bit word, a bit for each element. *)
Lemma word_bit p i e : e < 32 -> Z.of_N (N.land (N.shiftr (u32At p i) (N.of_nat e)) 1) = field p (i + e / 8) (e mod 8) 1.
Proof.
  intros He. rewrite land1, N.shiftr_div_pow2. unfold field, u32At, u16At. f_equal.
  replace (i + 2 + 1) with (i + 3) by lia. pose proof (byteAt_range p i). pose proof (byteAt_range p (i + 1)).
  pose proof (byteAt_range p (i + 2)). pose proof (byteAt_range p (i + 3)).
  assert (Hb : e / 8 = 0 \/ e / 8 = 1 \/ e / 8 = 2 \/ e / 8 = 3) by lia.
  assert (Hr : e = 8 * (e / 8) + e mod 8) by (apply Nat.div_mod; lia). assert (Hm : e mod 8 < 8) by lia.
  rewrite Hr at 1. generalize dependent (e mod 8). intros r _ Hr.
  destruct Hb as [-> | [-> | [-> | ->]]]; rewrite ?Nat.add_0_r;
    do 8 (destruct r as [|r]; [cbn [Nat.mul Nat.add N.of_nat Pos.of_succ_nat Pos.succ]; simpl (2 ^ _)%N; lia|]); lia.
Qed.

Lemma five_bits low b : (low < 16 -> b < 2 -> N.lor low (N.shiftl (u8 b) 4) = low + 16 * b)%N.
Proof.
  intros Hl Hb. unfold u8. rewrite wrapU_small by (unfold in_u; cbn; lia). rewrite (lor_below _ _ 4) by done.
  change (2 ^ 4)%N with 16%N. lia.
Qed.

(** The five bits of element [e] as the loops make them. *)
Lemma quint_of p qs qh e : e < 32 ->
  let k := e / 16 in let j := e mod 16 in
  Z.of_N (if k =? 0 then N.lor (N.land (byteAt p (qs + j)) 15) (xhLo (u32At p qh) j)
          else N.lor (N.shiftr (byteAt p (qs + j)) 4) (xhHi (u32At p qh) j)) =
  (field p (qs + j) (4 * k) 4 + 16 * field p (qh + e / 8) (e mod 8) 1)%Z.
Proof.
  intros He k j. pose proof (word_bit p qh e He) as Hw. unfold xhLo, xhHi.
  pose proof (nibble_of p (qs + j) k (half_index e He)) as Hn.
  assert (Hb : forall n, (N.land (N.shiftr n (N.of_nat e)) 1 < 2)%N) by (intros; rewrite land1; by apply N.mod_lt).
  assert (Hl : (N.land (byteAt p (qs + j)) 15 < 16)%N) by (rewrite land15; by apply N.mod_lt).
  assert (Hh : (N.shiftr (byteAt p (qs + j)) 4 < 16)%N) by (rewrite shr4; pose proof (byteAt_range p (qs + j)); lia).
  destruct (half_index e He) as [Hk|Hk]; fold k in Hk; rewrite Hk in *; cbn [Nat.eqb] in *.
  - replace j with e at 2 by (unfold j, k in *; lia). rewrite five_bits by auto. rewrite <- Hn, <- Hw. lia.
  - replace (j + 16) with e by (unfold j, k in *; lia). rewrite five_bits by auto. rewrite <- Hn, <- Hw. lia.
Qed.

Lemma q5_0_block p e z : e < 32 -> element Q5_0 p e = Some z -> exists x, q5_0Block p !! e = Some x /\ meets Q5_0 x z.
Proof.
  intros He. scale d Hd. intros Hz; apply (inj Some) in Hz as <-. eexists. split; [by apply halfBlock_lookup|].
  pose proof (quint_of p 6 2 e He) as Hn. cbv zeta in Hn.
  pose proof (field_range p (6 + e mod 16) (4 * (e / 16)) 4). pose proof (field_range p (2 + e / 8) (e mod 8) 1).
  rewrite <- Hn in *. destruct (e / 16 =? 0); (eapply exact_meets; [|apply (scaled_mul 11 40 5); (exact Hd || lia)]; lia).
Qed.

Lemma q5_1_block p e z : e < 32 -> element Q5_1 p e = Some z -> exists x, q5_1Block p !! e = Some x /\ meets Q5_1 x z.
Proof.
  intros He. scale d Hd. scale m Hm. intros Hz; apply (inj Some) in Hz as <-. eexists. split; [by apply halfBlock_lookup|].
  apply rounded_meets; [done|]. pose proof (quint_of p 8 4 e He) as Hn. cbv zeta in Hn.
  pose proof (field_range p (8 + e mod 16) (4 * (e / 16)) 4). pose proof (field_range p (4 + e / 8) (e mod 8) 1).
  rewrite <- Hn in *. apply scaled_weaken with (c' := 45%Z) in Hm; [|lia].
  destruct (e / 16 =? 0); unfold float_of_N, u8; rewrite wrapU_small by (unfold in_u; change (2 ^ 8)%N with 256%N; lia);
    apply (scaled_add 16 11 45); (exact Hm || lia || (apply (scaled_mul 11 40 5); (exact Hd || lia))).
Qed.

(** ** 256 elements *)

(** The piece of [n] of length [k] an element lies in. *)
Ltac split_pairs := intros; cbv beta zeta; repeat destruct (getScaleMinK4 _ _); reflexivity.
Ltac pieces k n :=
  match goal with |- context [concat (map ?F (seq 0 n))] =>
    rewrite (proj2 (pieces_lookup F k n ltac:(lia) ltac:(split_pairs))) by lia
  end; cbv beta zeta.

(** The packed scales. *)
Lemma scale_min p j : j < 8 ->
  let sm := getScaleMinK4 j (fun i => byteAt p (4 + i)) in
  Z.of_N (fst sm) = scaleK4 p j /\ Z.of_N (snd sm) = minK4 p j /\ (fst sm < 64)%N /\ (snd sm < 64)%N.
Proof.
  intros Hj. unfold getScaleMinK4, scaleK4, minK4, field, u8. pose proof (byteAt_range p (4 + j)).
  pose proof (byteAt_range p (4 + (j + 4))). pose proof (byteAt_range p (4 + (j - 4))).
  rewrite !land63, !land15, !shr4, !shr6. rewrite ?N.div_1_r.
  destruct (Nat.ltb_spec j 4); cbn [fst snd].
  - replace (8 + j) with (4 + (j + 4)) by lia. rewrite !wrapU_small by (unfold in_u; change (2 ^ 8)%N with 256%N; lia).
     change (2 ^ N.of_nat 6)%N with 64%N. lia.
  - rewrite !(lor_below _ _ 4) by (change (2 ^ 4)%N with 16%N; lia). change (2 ^ 4)%N with 16%N.
    rewrite !wrapU_small by (unfold in_u; change (2 ^ 8)%N with 256%N; lia).
    replace (8 + j) with (4 + (j + 4)) by lia. replace (4 + (j - 4)) with j in * by lia.
    
    change (2 ^ N.of_nat 4)%N with 16%N. change (2 ^ N.of_nat 6)%N with 64%N. change (2 ^ N.of_nat 2)%N with 4%N. lia.
Qed.

(** A scale times a small integer, less a minimum. *)
Lemma affine b d m sc mn q dh mh : scaled 11 40 dh d -> scaled 11 40 mh m -> (sc < 64)%N -> (mn < 64)%N -> (q < 2 ^ Z.to_N b)%N ->
  (0 <= b <= 5)%Z ->
  nearest (fsub (fmul (fmul dh (float_of_N sc)) (float_of_N q)) (fmul mh (float_of_N mn)))
    (d * Z.of_N sc * Z.of_N q - m * Z.of_N mn).
Proof.
  intros Hd Hm Hs Hn Hq Hb. assert (Hq' : (Z.abs (Z.of_N q) < 2 ^ b)%Z).
  { apply N2Z.inj_lt in Hq. rewrite N2Z.inj_pow, Z2N.id in Hq by lia. change (Z.of_N 2) with 2%Z in Hq. lia. }
  apply (scaled_add (11 + 6 + b) (11 + 6) (40 + 6 + b)); [| |lia].
  - apply scaled_mul; [|done|lia..]. apply scaled_mul; [exact Hd|lia..].
  - apply scaled_weaken with (c := (40 + 6)%Z); [|lia]. apply scaled_mul; [exact Hm|lia..].
Qed.

Lemma q4k_block p e z : e < 256 -> element Q4_K p e = Some z -> exists x, q4kBlock p !! e = Some x /\ meets Q4_K x z.
Proof.
  intros He. scale d Hd. scale m Hm. intros Hz; apply (inj Some) in Hz as <-. unfold q4kBlock.
  pieces 64 4.
  destruct (getScaleMinK4 (2 * (e / 64)) _) as [sLo mLo] eqn:ELo. destruct (getScaleMinK4 (2 * (e / 64) + 1) _) as [sHi mHi] eqn:EHi.
  rewrite (halves_lookup _ _ 32) by lia. eexists. split; [done|]. apply rounded_meets; [done|].
  replace (e mod 64 mod 32) with (e mod 32) by lia.
  pose proof (nibble_of p (16 + 32 * (e / 64) + e mod 32) (e / 32 mod 2) ltac:(lia)) as Hq. rewrite <- Hq.
  replace (16 + (e / 64 * 32 + e mod 32)) with (16 + 32 * (e / 64) + e mod 32) by lia.
  assert (Hk : e mod 64 / 32 = e / 32 mod 2) by lia. rewrite Hk.
  destruct (Nat.eqb_spec (e / 32 mod 2) 0) as [E|E].
  - pose proof (scale_min p (2 * (e / 64)) ltac:(lia)) as (H1 & H2 & H3 & H4). cbv zeta in *. rewrite ELo in *. cbn [fst snd] in *.
    replace (e / 32) with (2 * (e / 64)) by lia. rewrite <- H1, <- H2. apply (affine 4); try done. rewrite land15. by apply N.mod_lt.
  - pose proof (scale_min p (2 * (e / 64) + 1) ltac:(lia)) as (H1 & H2 & H3 & H4). cbv zeta in *. rewrite EHi in *. cbn [fst snd] in *.
    replace (e / 32) with (2 * (e / 64) + 1) by lia. rewrite <- H1, <- H2. apply (affine 4); try done.
    rewrite shr4. pose proof (byteAt_range p (16 + 32 * (e / 64) + e mod 32)). change (2 ^ Z.to_N 4)%N with 16%N. lia.
Qed.

(** The bit a mask selects. *)
Lemma mask_bit p i k : Z.of_N (if (N.land (byteAt p i) (2 ^ N.of_nat k) =? 0)%N then 0 else 16) = (16 * field p i k 1)%Z.
Proof.
  rewrite land_pow2. unfold field. change (2 ^ N.of_nat 1)%N with 2%N. rewrite <- N.testbit_spec'.
  destruct (N.testbit _ _); cbn [N.b2n].
  - rewrite N.mul_1_r. rewrite (proj2 (N.eqb_neq _ _)); [done|by apply N.pow_nonzero].
  - rewrite N.mul_0_r. done.
Qed.

Lemma mask_low jj : jj < 4 -> u8 (N.shiftl 1 (N.of_nat (2 * jj))) = (2 ^ N.of_nat (2 * jj))%N.
Proof. intros H. do 4 (destruct jj as [|jj]; [reflexivity|]). lia. Qed.

Lemma mask_high jj : jj < 4 -> u8 (N.shiftl 2 (N.of_nat (2 * jj))) = (2 ^ N.of_nat (2 * jj + 1))%N.
Proof. intros H. do 4 (destruct jj as [|jj]; [reflexivity|]). lia. Qed.

Lemma q5k_block p e z : e < 256 -> element Q5_K p e = Some z -> exists x, q5kBlock p !! e = Some x /\ meets Q5_K x z.
Proof.
  intros He. scale d Hd. scale m Hm. intros Hz; apply (inj Some) in Hz as <-. unfold q5kBlock. pieces 64 4.
  rewrite mask_low, mask_high by lia.
  destruct (getScaleMinK4 (2 * (e / 64)) _) as [sLo mLo] eqn:ELo. destruct (getScaleMinK4 (2 * (e / 64) + 1) _) as [sHi mHi] eqn:EHi.
  rewrite (halves_lookup _ _ 32) by lia. eexists. split; [done|]. apply rounded_meets; [done|].
  replace (e mod 64 mod 32) with (e mod 32) by lia.
  pose proof (nibble_of p (48 + 32 * (e / 64) + e mod 32) (e / 32 mod 2) ltac:(lia)) as Hq.
  pose proof (field_range p (48 + 32 * (e / 64) + e mod 32) (4 * (e / 32 mod 2)) 4) as Hr. rewrite <- Hq in *.
  replace (48 + (e / 64 * 32 + e mod 32)) with (48 + 32 * (e / 64) + e mod 32) by lia.
  pose proof (mask_bit p (16 + e mod 32) (e / 32)) as Hm5. pose proof (field_range p (16 + e mod 32) (e / 32) 1) as Hf.
  rewrite <- Hm5 in *. assert (Hk : e mod 64 / 32 = e / 32 mod 2) by lia. rewrite Hk.
  destruct (Nat.eqb_spec (e / 32 mod 2) 0) as [E|E]; rewrite <- N2Z.inj_add.
  - pose proof (scale_min p (2 * (e / 64)) ltac:(lia)) as (H1 & H2 & H3 & H4). cbv zeta in *. rewrite ELo in *. cbn [fst snd] in *.
    replace (e / 32) with (2 * (e / 64)) in * by lia. rewrite <- H1, <- H2. apply (affine 5); try done. 
    change (2 ^ Z.to_N 5)%N with 32%N. destruct (_ =? 0)%N; lia.
  - pose proof (scale_min p (2 * (e / 64) + 1) ltac:(lia)) as (H1 & H2 & H3 & H4). cbv zeta in *. rewrite EHi in *. cbn [fst snd] in *.
    replace (e / 32) with (2 * (e / 64) + 1) in * by lia. rewrite <- H1, <- H2. apply (affine 5); try done.
    change (2 ^ Z.to_N 5)%N with 32%N. destruct (_ =? 0)%N; lia.
Qed.

(** The four elements of one step of Q6_K. *)
Lemma quads_lookup (f g h k : nat -> f32) e : e < 128 ->
  store (concat (map (fun l => [(l, f l); (l + 32, g l); (l + 64, h l); (l + 96, k l)]) (seq 0 32))) (unwritten 128) !! e =
  Some (match e / 32 with 0 => f | 1 => g | 2 => h | _ => k end (e mod 32)).
Proof. intros He. do 128 (destruct e as [|e]; [reflexivity|]). lia. Qed.

(** Six bits of Q6_K: the nibble and the two bits above it. *)
Lemma six_bits low b : (low < 16)%N -> (b < 4)%N -> s8 (N.lor low (N.shiftl b 4)) = (Z.of_N low + 16 * Z.of_N b)%Z.
Proof.
  intros Hl Hb. rewrite (lor_below _ _ 4) by done. change (2 ^ 4)%N with 16%N. unfold s8.
  rewrite N.mod_small by lia. destruct (N.ltb_spec (low + b * 16) 128); lia.
Qed.

Lemma two_bits p i lo : Z.of_N (N.land (N.shiftr (byteAt p i) (N.of_nat lo)) 3) = field p i lo 2.
Proof. rewrite land3, N.shiftr_div_pow2. done. Qed.

Lemma six_of p i j k lo : k = 0 \/ k = 1 ->
  s8 (N.lor (if k =? 0 then N.land (byteAt p i) 15 else N.shiftr (byteAt p i) 4)
       (N.shiftl (N.land (N.shiftr (byteAt p j) (N.of_nat lo)) 3) 4)) = (field p i (4 * k) 4 + 16 * field p j lo 2)%Z.
Proof.
  intros Hk. rewrite <- (nibble_of p i k Hk), <- two_bits. apply six_bits.
  - pose proof (byteAt_range p i). destruct (k =? 0); [rewrite land15; by apply N.mod_lt|rewrite shr4; lia].
  - rewrite land3. by apply N.mod_lt.
Qed.

(** A half times two numbers in two's complement. *)
Lemma triple b b' dh d s q : scaled 11 40 dh d -> (0 < b <= 8)%Z -> (0 < b' <= 6)%Z -> (b + b' <= 13)%Z ->
  (- 2 ^ b <= s < 2 ^ b)%Z -> (- 2 ^ b' <= q < 2 ^ b')%Z ->
  scaled (11 + b + b') (40 + (b + 1) + (b' + 1)) (fmul (fmul dh (f32_of_Z s)) (f32_of_Z q)) (d * s * q).
Proof.
  intros Hd Hb Hb' Hbb Hs Hq. assert (Hp : forall k, (0 < k)%Z -> (2 ^ (k + 1) = 2 * 2 ^ k)%Z) by (intros; rewrite Z.pow_add_r by lia; lia).
  apply scaled_mul_short; try lia; [|by apply short_least; lia|rewrite Hp by lia; lia].
  apply scaled_mul_short; try lia; [exact Hd|by apply short_least; lia|rewrite Hp by lia; lia].
Qed.

Lemma q6k_block p e z : e < 256 -> element Q6_K p e = Some z -> exists x, q6kBlock p !! e = Some x /\ meets Q6_K x z.
Proof.
  intros He. scale d Hd. intros Hz; apply (inj Some) in Hz as <-. unfold q6kBlock. pieces 128 2. unfold q6kHalf.
  rewrite quads_lookup by lia. eexists. split; [done|].
  replace (e mod 128 mod 32) with (e mod 32) by lia.
  set (g := e mod 128 / 32). assert (Hg : g < 4) by (unfold g; lia).
  set (i := 64 * (e / 128) + 32 * (g mod 2) + e mod 32). set (j := 128 + 32 * (e / 128) + e mod 32).
  pose proof (six_of p i j (g / 2) (2 * g) ltac:(lia)) as Hv.
  pose proof (field_range p i (4 * (g / 2)) 4). pose proof (field_range p j (2 * g) 2).
  assert (Hs : (- 2 ^ 7 <= int8 p (192 + e / 16) < 2 ^ 7)%Z).
  { unfold int8, s8. pose proof (byteAt_range p (192 + e / 16)). destruct (N.ltb_spec (byteAt p (192 + e / 16) mod 256) 128); lia. }
  eapply (exact_meets _ 23 _); [lia|]. rewrite <- Hv in *.
  assert (Hi : e / 128 * 64 + (e mod 32 + 32 * (g mod 2)) = i) by (unfold i; lia).
  assert (Hj : 128 + (e / 128 * 32 + e mod 32) = j) by (unfold j; lia).
  assert (Hk : 192 + (e / 128 * 8 + (e mod 32 / 16 + 2 * g)) = 192 + e / 16) by (unfold g; lia).
  fold g. clearbody i j. rewrite <- Hk in *.
  destruct g as [|[|[|[|g]]]]; [..|lia]; change (0 mod 2) with 0 in *; change (1 mod 2) with 1 in *; change (2 mod 2) with 0 in *;
    change (3 mod 2) with 1 in *; rewrite ?Nat.mul_0_r, ?Nat.mul_1_r, ?Nat.add_0_r in Hi; rewrite Hi, Hj;
    cbn [Nat.mul Nat.add] in *; rewrite ?Nat.add_0_r in *; apply (triple 7 5); (exact Hd || exact Hs || (clear; lia) || (clear - H H0 Hv; lia)).
Qed.

(** *** Q3_K *)

Lemma byteAt_drop p n i : byteAt (drop n p) i = byteAt p (n + i).
Proof. unfold byteAt. by rewrite lookup_drop. Qed.

(** A word of the unpacked scales: four nibbles and the two bits above each. *)
Lemma unpack_word p o sh t r : even_shift sh -> (4 + sh <= 8)%N -> even_shift t -> r < 4 ->
  Z.of_N (u8 (N.shiftr (N.lor (N.land (N.shiftr (u32At p o) sh) 252645135)
    (u32 (N.shiftl (N.land (N.shiftr (u32At p 8) t) 50529027) 4))) (8 * N.of_nat r))) =
  (field p (o + r) (N.to_nat sh) 4 + 16 * field p (8 + r) (N.to_nat t) 2)%Z.
Proof.
  intros Hsh Hsh8 Ht Hr. rewrite !u32At_cat.
  change 252645135%N with (cat4 (2 ^ 4 - 1) (2 ^ 4 - 1) (2 ^ 4 - 1) (2 ^ 4 - 1)).
  change 50529027%N with (cat4 (2 ^ 2 - 1) (2 ^ 2 - 1) (2 ^ 2 - 1) (2 ^ 2 - 1)).
  rewrite !cat4_field by (apply byteAt_range || done || (destruct Ht as [-> | [-> | [-> | ->]]]; lia)).
  assert (H4 : forall x, (x mod 2 ^ 2 < 4)%N) by (intros; by apply N.mod_lt).
  assert (H16 : forall x, (x mod 2 ^ 4 < 16)%N) by (intros; by apply N.mod_lt).
  rewrite cat4_up by apply H4.
  assert (Hl : forall x y, N.lor (x mod 2 ^ 4) (16 * (y mod 2 ^ 2)) = (x mod 2 ^ 4 + 16 * (y mod 2 ^ 2))%N).
  { intros x y. pose proof (lor_below (y mod 2 ^ 2) (x mod 2 ^ 4) 4 (H16 x)) as Hl. rewrite N.shiftl_mul_pow2 in Hl.
    replace (16 * (y mod 2 ^ 2))%N with (y mod 2 ^ 2 * 2 ^ 4)%N by (apply N.mul_comm). exact Hl. }
  assert (Hb : forall x, (x mod 2 ^ 4 < 256)%N) by (intros x; pose proof (H16 x); lia).
  assert (Hb' : forall x, (16 * (x mod 2 ^ 2) < 256)%N) by (intros x; pose proof (H4 x); lia).
  rewrite cat4_lor by (apply Hb || apply Hb'). rewrite !Hl.
  set (f i := (byteAt p (o + i) / 2 ^ sh mod 2 ^ 4 + 16 * (byteAt p (8 + i) / 2 ^ t mod 2 ^ 2))%N).
  assert (Hf : forall i, (f i < 256)%N) by (intros i; unfold f; pose proof (H16 (byteAt p (o + i) / 2 ^ sh)%N); pose proof (H4 (byteAt p (8 + i) / 2 ^ t)%N); lia).
  replace (byteAt p o) with (byteAt p (o + 0)) by (f_equal; lia).
  etransitivity; [exact (f_equal Z.of_N (cat4_byte f r Hr Hf))|]. unfold f, field. rewrite !N2Nat.id. change (N.of_nat 4) with 4%N. change (N.of_nat 2) with 2%N. lia.
Qed.

Lemma unpack_scale p k : k < 16 -> (Z.of_N (unpackScales (drop 96 p) k) - 32)%Z = scaleQ3 p k.
Proof.
  intros Hk. unfold scaleQ3. assert (Hf : forall i lo len, field p (96 + i) lo len = field (drop 96 p) i lo len).
  { intros. unfold field. by rewrite byteAt_drop. }
  replace (104 + k mod 4) with (96 + (8 + k mod 4)) by lia. rewrite !Hf. f_equal. unfold unpackScales.
  assert (Hr : k mod 4 < 4) by lia. assert (He : even_shift 0 /\ even_shift 2 /\ even_shift 4 /\ even_shift 6) by (unfold even_shift; lia).
  destruct He as (E0 & E2 & E4 & E6).
  assert (Hc : k / 4 = 0 \/ k / 4 = 1 \/ k / 4 = 2 \/ k / 4 = 3) by lia.
  destruct Hc as [Hc|[Hc|[Hc|Hc]]]; rewrite Hc; cbv zeta match beta.
  - rewrite <- (N.shiftr_0_r (u32At _ 0)). rewrite unpack_word by done. do 2 f_equal; lia.
  - rewrite <- (N.shiftr_0_r (u32At _ 4)). rewrite unpack_word by done. do 2 f_equal; lia.
  - rewrite unpack_word by done. do 2 f_equal; lia.
  - rewrite unpack_word by done. do 2 f_equal; lia.
Qed.

Lemma scaleQ3_range p k : (- 2 ^ 5 <= scaleQ3 p k < 2 ^ 5)%Z.
Proof.
  unfold scaleQ3. pose proof (field_range p (96 + k mod 8) (4 * (k / 8)) 4).
  pose proof (field_range p (104 + k mod 4) (2 * (k / 4)) 2). lia.
Qed.

(** Three bits of Q3_K. *)
Lemma three_bits p i l lo b :
  (Z.of_N (N.land (N.shiftr (byteAt p i) (N.of_nat lo)) 3) -
   (if (N.land (N.shiftr (byteAt p l) (N.of_nat b)) 1 =? 0)%N then 4 else 0) = field p i lo 2 + 4 * field p l b 1 - 4)%Z.
Proof.
  rewrite two_bits. assert (Hb : Z.of_N (N.land (N.shiftr (byteAt p l) (N.of_nat b)) 1) = field p l b 1).
  { rewrite land1, N.shiftr_div_pow2. done. }
  pose proof (field_range p l b 1). rewrite <- Hb in *. destruct (N.eqb_spec (N.land (N.shiftr (byteAt p l) (N.of_nat b)) 1) 0); lia.
Qed.

Lemma q3k_block p e z : e < 256 -> element Q3_K p e = Some z -> exists x, q3kBlock p !! e = Some x /\ meets Q3_K x z.
Proof.
  intros He. scale d Hd. intros Hz; apply (inj Some) in Hz as <-. unfold q3kBlock. pieces 128 2. pieces 32 4.
  rewrite (halves_lookup _ _ 16) by lia. eexists. split; [done|].
  replace (e mod 128 mod 32) with (e mod 32) by lia. set (i := 32 + 32 * (e / 128) + e mod 32). set (j := e mod 128 / 32).
  assert (Hj : 4 * (e / 128) + j = e / 32) by (unfold j; lia). rewrite Hj.
  pose proof (field_range p i (2 * j) 2). pose proof (field_range p (e mod 32) (e / 32) 1).
  assert (Hq : (- 2 ^ 2 <= field p i (2 * j) 2 + 4 * field p (e mod 32) (e / 32) 1 - 4 < 2 ^ 2)%Z) by (clear - H H0; lia).
  eapply (exact_meets _ 18 _); [clear; lia|].
  destruct (Nat.eqb_spec (e mod 32 / 16) 0) as [E|E].
  - rewrite (unpack_scale p) by lia. replace (8 * (e / 128) + 2 * j) with (e / 16) by (unfold j; lia).
    replace (e mod 32 mod 16) with (e mod 32) by lia.
    replace (32 + (e / 128 * 32 + e mod 32)) with i by (unfold i; lia). rewrite three_bits.
    apply (triple 5 2); (exact Hd || exact Hq || apply scaleQ3_range || (clear; lia)).
  - rewrite (unpack_scale p) by lia. replace (8 * (e / 128) + 2 * j + 1) with (e / 16) by (unfold j; lia).
    replace (e mod 32 mod 16 + 16) with (e mod 32) by lia.
    replace (32 + (e / 128 * 32 + e mod 32)) with i by (unfold i; lia). rewrite three_bits.
    apply (triple 5 2); (exact Hd || exact Hq || apply scaleQ3_range || (clear; lia)).
Qed.
End BlockFormats.
