(* ===== verification/DequantExact.v ===== *)
(** * Dequantisation is exact

    The converters of [src/src/compute/QuantTypeRegistry.cpp] against the reference of the
    formats, on whole tensors. *)

From Stdlib Require Import Ascii SpecFloat ZifyNat.
From S2P Require Import Prelude Sampling Gguf Floats FloatRound Dequant DequantProofs DequantFormats.
Import Sampling Dequant FloatValues ExactProducts.

Module DequantExact.
Import BlockFormats.

(** The block an element lies in, and its place there. *)
Definition blockOf (qt : QuantType) (src : list ascii) (i : nat) : list ascii := drop (i / blockElements qt * blockBytes qt) src.

(** What the converter of a format does with whole blocks. *)
Lemma perBlock_lookup name k b f src n : 0 < k -> (forall p, length (f p) = k) -> n mod k = 0 ->
  exists out, perBlock name k b f src n = Ok out /\ length out = n /\
    forall i, i < n -> out !! i = f (drop (i / k * b) src) !! (i mod k).
Proof.
  intros Hk Hf Hn. unfold perBlock. rewrite (proj2 (Nat.eqb_eq _ _) Hn). cbn [negb]. eexists. split; [done|].
  destruct (pieces_lookup (fun b0 => f (drop (b0 * b) src)) k (n / k) Hk (fun _ _ => Hf _)) as [Hl Hi].
  assert (Hnk : n / k * k = n) by (pose proof (Nat.div_mod n k ltac:(lia)); lia). rewrite Hnk in *. done.
Qed.

(** A format of blocks, converted by [f] block by block, as the reference says. *)
Definition blockwise (t : GgmlType) (qt : QuantType) : Prop := exists name f,
  convert qt = perBlock name (blockElements qt) (blockBytes qt) f /\ 0 < blockElements qt /\
  (forall p, length (f p) = blockElements qt) /\
  (forall p e z, e < blockElements qt -> element t p e = Some z -> exists x, f p !! e = Some x /\ meets t x z).

Lemma blockwise_refuses t qt src n : quantType t = Some qt -> blockwise t qt -> n mod blockElements qt <> 0 ->
  exists what, dequantToF32 t src n = Throw (RuntimeError what).
Proof.
  intros Ht (name & f & Hc & _) Hn. unfold dequantToF32. rewrite Ht, Hc. unfold perBlock.
  rewrite (proj2 (Nat.eqb_neq _ _) Hn). by eexists.
Qed.

Lemma blockwise_meets t qt src n : quantType t = Some qt -> blockwise t qt -> n mod blockElements qt = 0 ->
  exists out, dequantToF32 t src n = Ok out /\ length out = n /\
    forall i z, i < n -> element t (blockOf qt src i) (i mod blockElements qt) = Some z ->
      exists x, out !! i = Some x /\ meets t x z.
Proof.
  intros Ht (name & f & Hc & Hk & Hl & Hf) Hn. unfold dequantToF32. rewrite Ht, Hc.
  destruct (perBlock_lookup name _ (blockBytes qt) f src n Hk Hl Hn) as (out & -> & Hlen & Hout).
  exists out. split; [done|]. split; [done|]. intros i z Hi Hz. rewrite Hout by done. apply Hf; [|done]. apply Nat.mod_upper_bound. lia.
Qed.

(** One element is a block. *)
Definition elementwise (t : GgmlType) (qt : QuantType) : Prop := blockElements qt = 1 /\
  exists g, (forall src n, convert qt src n = Ok (map (g src) (seq 0 n))) /\
    forall src i z, element t (blockOf qt src i) 0 = Some z -> meets t (g src i) z.

Lemma halves_elementwise : elementwise F16 (mkQuant 1 2 dequantFloat16).
Proof.
  split; [done|]. eexists. split; [done|]. intros src i z Hz. cbv beta. unfold blockOf in Hz. cbn [blockElements blockBytes] in Hz.
  assert (Hu : u16At (drop (i / 1 * 2) src) 0 = u16At src (2 * i)).
  { unfold u16At. rewrite !byteAt_drop, Nat.div_1_r.
    replace (i * 2 + 0) with (2 * i) by lia. by replace (i * 2 + (0 + 1)) with (2 * i + 1) by lia. }
  apply number_scaled in Hz. rewrite Hu in Hz. by apply (exact_meets _ 11 40).
Qed.

Ltac blocks lem := right; eexists _, _; split; [reflexivity|]; split; [cbn; lia|]; split; [reflexivity|exact lem].

Lemma formats t qt : quantType t = Some qt -> elementwise t qt \/ blockwise t qt.
Proof.
  intros H. destruct t; try discriminate H; apply (inj Some) in H as <-.
  - left. split; [done|]. by eexists.
  - left. apply halves_elementwise.
  - blocks q4_0_block.
  - blocks q4_1_block.
  - blocks q5_0_block.
  - blocks q5_1_block.
  - blocks q8_block.
  - blocks q3k_block.
  - blocks q4k_block.
  - blocks q5k_block.
  - blocks q6k_block.
  - left. split; [done|]. by eexists.
Qed.

Lemma sizes t qt : quantType t = Some qt ->
  typeInfo t = mkTypeInfo (info_name (typeInfo t)) (N.of_nat (blockElements qt)) (N.of_nat (blockBytes qt)).
Proof. intros H. destruct t; try discriminate H; apply (inj Some) in H as <-; reflexivity. Qed.

(** C38: Every quantised format the CPU converts: a part of a block is refused; whole
    blocks give one float per element, and wherever the half-precision scales are finite
    the float is the exact number the bits of the element spell by the reference of the
    format, a scale times small integers, with no rounding at all unless a minimum is
    added, and then with one rounding to nearest of the exact sum.  The block sizes are
    those the file reader uses. *)
Theorem dequant_exact t qt src n : quantType t = Some qt ->
  typeInfo t = mkTypeInfo (info_name (typeInfo t)) (N.of_nat (blockElements qt)) (N.of_nat (blockBytes qt)) /\
  (n mod blockElements qt <> 0 -> exists what, dequantToF32 t src n = Throw (RuntimeError what)) /\
  (n mod blockElements qt = 0 -> exists out, dequantToF32 t src n = Ok out /\ length out = n /\
     forall i z, i < n -> element t (blockOf qt src i) (i mod blockElements qt) = Some z ->
       exists x, out !! i = Some x /\ nearest x z /\ (exactly t = true -> val x = z * 2 ^ 125)%Z).
Proof.
  intros Hqt. split; [by apply sizes|]. destruct (formats t qt Hqt) as [(H1 & g & Hg & Hm)|Hb].
  - rewrite H1, Nat.mod_1_r. split; [done|]. intros _. unfold dequantToF32. rewrite Hqt, Hg. eexists. split; [done|].
    split; [by rewrite length_map, length_seq|]. intros i z Hi Hz. rewrite map_seq_lookup by done. eexists. split; [done|].
    rewrite Nat.mod_1_r in Hz. by apply Hm.
  - split; [by apply blockwise_refuses|]. intros Hn. by apply blockwise_meets.
Qed.

(** A block of Q4_0 with scale 1 and every byte 0x7a: elements 2 and -1. *)
Lemma dequant_exact_witness :
  let src := ascii_of_N 0 :: ascii_of_N 60 :: replicate 16 (ascii_of_N 122) in
  match dequantToF32 Q4_0 src 32 with
  | Ok out => length out = 32 /\ exists x y, out !! 5 = Some x /\ val x = (2 * 2 ^ 149)%Z /\ out !! 20 = Some y /\ val y = (-1 * 2 ^ 149)%Z
  | Throw _ => False
  end.
Proof.
  intros src. destruct (proj2 (proj2 (dequant_exact Q4_0 _ src 32 eq_refl)) eq_refl) as (out & -> & Hl & Hout).
  split; [done|]. destruct (Hout 5 (2 * 2 ^ 24)%Z ltac:(lia) ltac:(by vm_compute)) as (x & Hx & _ & Hvx).
  destruct (Hout 20 (-1 * 2 ^ 24)%Z ltac:(lia) ltac:(by vm_compute)) as (y & Hy & _ & Hvy).
  exists x, y. split; [done|]. split; [by rewrite Hvx|]. split; [done|]. by rewrite Hvy.
Defined.
End DequantExact.
