(* ===== verification/WeightLayouts.v ===== *)
(** * Weight layouts

    Models the layouts of weights that loading rewrites: [Q8_0::quantizeRow] and the
    split rows of [src/src/compute/quant/Q8_0.cpp], the tiled block scales of
    [src/src/core/modelopt/BlockScaleSwizzle.{hpp,cpp}], and the scalar decoders of
    [src/src/core/modelopt/NvFp4Reference.cpp].  Buffers are lists of bytes that are
    overwritten in place; the sizes are those of buffers in memory, so products of them
    do not wrap. *)

From Stdlib Require Import Ascii SpecFloat.
From S2P Require Import Prelude Sampling Gguf Floats Dequant.
Import Sampling Dequant.

Module Q8Layout.

(** [memcpy] out of a buffer; into one it is [list_inserts]. *)
Definition bytes (p : list ascii) (off n : nat) : list ascii := take n (drop off p).

Definition kBlockElements : nat := 32.
Definition kBlockBytes : nat := 34.

(** [src/src/compute/quant/Q8_0.hpp:146-148 Q8_0::rowBytes] *)
Definition rowBytes (K : nat) : nat := Nat.div K kBlockElements * kBlockBytes.

(** [src/src/compute/quant/Q8_0.cpp:112-127 Q8_0::reorderRow] *)
Definition reorderRow (nativeRow : list ascii) (K : nat) (reorderedRow : list ascii) : list ascii :=
  let nblocks := Nat.div K kBlockElements in
  foldl (fun dst b =>
    let srcBlock := b * kBlockBytes in
    let dst := list_inserts (b * 2) (bytes nativeRow srcBlock 2) dst in
    list_inserts (2 * nblocks + b * 32) (bytes nativeRow (srcBlock + 2) 32) dst) reorderedRow (seq 0 nblocks).

(** [src/src/compute/quant/Q8_0.cpp:129-144 Q8_0::unreorderRow] *)
Definition unreorderRow (reorderedRow : list ascii) (K : nat) (nativeRow : list ascii) : list ascii :=
  let nblocks := Nat.div K kBlockElements in
  foldl (fun dst b =>
    let dstBlock := b * kBlockBytes in
    let dst := list_inserts dstBlock (bytes reorderedRow (b * 2) 2) dst in
    list_inserts (dstBlock + 2) (bytes reorderedRow (2 * nblocks + b * 32) 32) dst) nativeRow (seq 0 nblocks).

(** One row of a matrix, through the scratch buffer. *)
Definition rowInPlace (f : list ascii -> nat -> list ascii -> list ascii) (K n : nat) (st : list ascii * list ascii)
    : list ascii * list ascii :=
  let '(base, rowScratch) := st in
  let row := n * rowBytes K in
  let rowScratch := list_inserts 0 (bytes base row (rowBytes K)) rowScratch in
  (take row base ++ f rowScratch K (drop row base), rowScratch).

(** The matrix and what is left in the scratch buffer.
    [src/src/compute/quant/Q8_0.cpp:146-157 Q8_0::reorderMatrixInPlace] *)
Definition reorderMatrixInPlace (base : list ascii) (N K : nat) (rowScratch : list ascii) : list ascii * list ascii :=
  foldl (fun st n => rowInPlace reorderRow K n st) (base, rowScratch) (seq 0 N).

(** [src/src/compute/quant/Q8_0.cpp:159-170 Q8_0::unreorderMatrixInPlace] *)
Definition unreorderMatrixInPlace (base : list ascii) (N K : nat) (rowScratch : list ascii) : list ascii * list ascii :=
  foldl (fun st n => rowInPlace unreorderRow K n st) (base, rowScratch) (seq 0 N).

(** [src/src/compute/quant/Q8_0.cpp:172-192 Q8_0::dequantRowFromReorderedToF32] *)
Definition dequantRowFromReorderedToF32 (reorderedRow : list ascii) (K : nat) : list f32 :=
  let nblocks := Nat.div K kBlockElements in
  concat (map (fun b =>
    let d := halfToFloat (u16At reorderedRow (b * 2)) in
    map (fun l => fmul d (f32_of_Z (s8 (byteAt reorderedRow (2 * nblocks + b * kBlockElements + l))))) (seq 0 32))
    (seq 0 nblocks)).

(** ** Quantisation *)

(** The bits of a float; a NaN keeps no payload. *)
Definition bitsOfFloat (x : f32) : N :=
  let sign (s : bool) := if s then (2 ^ 31)%N else 0%N in
  match x with
  | S754_zero s => sign s
  | S754_infinity s => N.lor (sign s) 2139095040
  | S754_nan => 2143289344
  | S754_finite s m e =>
      if (Npos m <? 2 ^ 23)%N then N.lor (sign s) (Npos m)
      else N.lor (N.lor (sign s) (N.shiftl (Z.to_N (e + 150)) 23)) (Npos m - 2 ^ 23)
  end.

(** The exponent is a signed 32-bit number, the shift count is at most 24.
    [src/src/compute/quant/Q8_0.cpp:22-45 floatToHalfBits] *)
Definition floatToHalfBits (f : f32) : N :=
  let bits := bitsOfFloat f in
  let sign := N.land (N.shiftr bits 16) 32768 in
  let exp := Z.of_N (N.land (N.shiftr bits 23) 255) in
  let mant := N.land bits 8388607 in
  if (exp =? 255)%Z then N.lor (N.lor sign 31744) (if (mant =? 0)%N then 0 else 512)%N
  else
    let exp := (exp - 112)%Z in
    if (exp <=? 0)%Z then
      if (exp <? -10)%Z then sign
      else N.lor sign (N.shiftr (N.lor mant 8388608) (Z.to_N (14 - exp)))
    else if (31 <=? exp)%Z then N.lor sign 31744
    else N.lor (N.lor sign (N.shiftl (Z.to_N exp) 10)) (N.shiftr mant 13).

Definition fabs (x : f32) : f32 := SFabs x.

(** [std::max]. *)
Definition fmax (a b : f32) : f32 := if flt a b then b else a.

Section quantize.
(** What [std::lround] answers where its result is unspecified. *)
Context (unspecified : f32 -> Z).

(** [src/src/compute/quant/Q8_0.cpp:90-109 Q8_0::quantizeRow] *)
Definition quantizeBlock (srcBlock : list f32) : list ascii :=
  let absMax := foldl (fun a x => fmax a (fabs x)) f0 srcBlock in
  let scale := if flt f0 absMax then fdiv absMax (f32_of_Z 127) else f0 in
  let dHalf := floatToHalfBits scale in
  let invScale := if flt f0 scale then fdiv f1 scale else f0 in
  let qs x :=
    let y := fmul x invScale in
    let q := s32 (default (unspecified y) (Floats.lround y)) in
    let qc := Z.max (-127) (Z.min q 127) in
    ascii_of_N (Z.to_N (qc mod 256)) in
  [ascii_of_N (dHalf mod 256); ascii_of_N (dHalf / 256)] ++ map qs srcBlock.

(** [src/src/compute/quant/Q8_0.cpp:82-110 Q8_0::quantizeRow] *)
Definition quantizeRow (src : list f32) (K : nat) (dst : list ascii) : list ascii :=
  foldl (fun dst b => list_inserts (b * kBlockBytes) (quantizeBlock (take 32 (drop (b * kBlockElements) src))) dst)
    dst (seq 0 (Nat.div K kBlockElements)).
End quantize.
End Q8Layout.

Module BlockScaleSwizzle.

(** [src/src/core/modelopt/BlockScaleSwizzle.hpp:39-41 sfRowTiles] *)
Definition sfRowTiles (rows : nat) : nat := Nat.div (rows + 127) 128.

(** [src/src/core/modelopt/BlockScaleSwizzle.hpp:44-46 sfKTiles] *)
Definition sfKTiles (ksf : nat) : nat := Nat.div (ksf + 3) 4.

(** [src/src/core/modelopt/BlockScaleSwizzle.hpp:50-53 swizzledBlockScaleBytes] *)
Definition swizzledBlockScaleBytes (rows ksf : nat) : nat := 512 * sfRowTiles rows * sfKTiles ksf.

(** [src/src/core/modelopt/BlockScaleSwizzle.hpp:56-64 swizzledScaleOffset] *)
Definition swizzledScaleOffset (m s mTiles ksfTiles : nat) : nat :=
  let a_m := Nat.modulo m 128 in
  let b_m := Nat.div m 128 in
  let a_s := Nat.modulo s 4 in
  let b_s := Nat.div s 4 in
  let atomOff := Nat.modulo a_m 32 * 16 + Nat.div a_m 32 * 4 + a_s in
  atomOff + 512 * (b_s + ksfTiles * b_m).

Definition charAt (p : list ascii) (i : nat) : ascii := default zero (p !! i).

(** [src/src/core/modelopt/BlockScaleSwizzle.cpp:10-22 swizzleBlockScale] *)
Definition swizzleBlockScale (src : list ascii) (rows ksf : nat) (dst : list ascii) : list ascii :=
  let mTiles := sfRowTiles rows in
  let ksfTiles := sfKTiles ksf in
  let dst := list_inserts 0 (replicate (swizzledBlockScaleBytes rows ksf) zero) dst in
  foldl (fun dst m =>
    foldl (fun dst s => <[swizzledScaleOffset m s mTiles ksfTiles := charAt src (m * ksf + s)]> dst) dst (seq 0 ksf))
    dst (seq 0 rows).

(** [src/src/core/modelopt/BlockScaleSwizzle.hpp:92-95 moeSwizzledScaleStride] *)
Definition moeSwizzledScaleStride (rows ksf : nat) : nat := swizzledBlockScaleBytes rows ksf.

(** [src/src/core/modelopt/BlockScaleSwizzle.hpp:98-102 moeSwizzledScaleBankBytes] *)
Definition moeSwizzledScaleBankBytes (nExperts rows ksf : nat) : nat := nExperts * swizzledBlockScaleBytes rows ksf.

(** [src/src/core/modelopt/BlockScaleSwizzle.cpp:24-32 swizzleMoeBlockScales] *)
Definition swizzleMoeBlockScales (src : list ascii) (nExperts rows ksf : nat) (dst : list ascii) : list ascii :=
  let srcStride := rows * ksf in
  let dstStride := moeSwizzledScaleStride rows ksf in
  foldl (fun dst e => take (e * dstStride) dst ++ swizzleBlockScale (drop (e * srcStride) src) rows ksf (drop (e * dstStride) dst))
    dst (seq 0 nExperts).
End BlockScaleSwizzle.

Module NvFp4.
#[local] Open Scope N_scope.

(** A half, in floats. *)
Definition kMag : list f32 :=
  map (fun halves => SFldexp 24 128 (f32_of_Z halves) (-1)) [0; 1; 2; 3; 4; 6; 8; 12]%Z.

(** [src/src/core/modelopt/NvFp4Reference.cpp:11-16 e2m1ToFloat] *)
Definition e2m1ToFloat (nib : N) : f32 :=
  let v := default S754_nan (kMag !! N.to_nat (N.land nib 7)) in
  if N.land nib 8 =? 0 then v else SFopp v.

(** [src/src/core/modelopt/NvFp4Reference.cpp:18-35 e4m3ToFloat] *)
Definition e4m3ToFloat (byte : N) : f32 :=
  let s := N.land (N.shiftr byte 7) 1 in
  let e := N.land (N.shiftr byte 3) 15 in
  let m := N.land byte 7 in
  let sign := if s =? 0 then f1 else f32_of_Z (-1) in
  let eighths := fdiv (float_of_N m) (f32_of_Z 8) in
  if e =? 0 then fmul sign (SFldexp 24 128 eighths (-6))
  else if (e =? 15) && (m =? 7) then S754_nan
  else fmul sign (SFldexp 24 128 (fadd f1 eighths) (Z.of_N e - 7)).

(** The elements in the order they are written.
    [src/src/core/modelopt/NvFp4Reference.cpp:37-58 dequantNvfp4] *)
Definition dequantNvfp4 (packed blockScale : list ascii) (globalScale : f32) (rows in_ : nat) : list f32 :=
  let packedCols := Nat.div in_ 2 in
  let ksf := Nat.div in_ 16 in
  concat (map (fun r => map (fun j =>
    let byte := byteAt packed (r * packedCols + Nat.div j 2) in
    let nib := if Nat.odd j then N.shiftr byte 4 else N.land byte 15 in
    let blk := e4m3ToFloat (byteAt blockScale (r * ksf + Nat.div j 16)) in
    fmul (fmul globalScale blk) (e2m1ToFloat nib)) (seq 0 in_)) (seq 0 rows)).

(** [src/src/core/modelopt/NvFp4Reference.cpp:60-67 dequantFp8] *)
Definition dequantFp8 (weight : list ascii) (weightScale : f32) (n : nat) : list f32 :=
  map (fun i => fmul weightScale (e4m3ToFloat (byteAt weight i))) (seq 0 n).
End NvFp4.
