(* ===== verification/WeightLayoutsProofs.v ===== *)
(** * Weight layouts: theorems

    The split Q8_0 rows hold the bytes of the blocks at other places, in place and
    row by row, and are converted to the same floats; the tiled block scales hold every
    scale at a place of its own and zeros elsewhere. *)

From Stdlib Require Import Ascii SpecFloat ZifyNat.
From S2P Require Import Prelude Sampling Gguf Floats FloatRound Dequant DequantFormats WeightLayouts.
Import Sampling Dequant Q8Layout.

Ltac Zify.zify_post_hook ::= Z.to_euclidean_division_equations.

Module Q8Reorder.

(** ** Copies *)

Lemma inserts_lookup {A} (l k : list A) i j : i + length k <= length l ->
  list_inserts i k l !! j = if decide (i <= j < i + length k) then k !! (j - i) else l !! j.
Proof.
  intros Hl. destruct (decide _) as [Hj|Hj]; [apply list_lookup_inserts; lia|].
  destruct (Nat.lt_ge_cases j i); [by apply list_lookup_inserts_lt|apply list_lookup_inserts_ge; lia].
Qed.

Lemma bytes_length p off n : off + n <= length p -> length (bytes p off n) = n.
Proof. intros H. unfold bytes. rewrite length_take, length_drop. lia. Qed.

Lemma copy_lookup p off n l i j : off + n <= length p -> i + n <= length l ->
  list_inserts i (bytes p off n) l !! j = if decide (i <= j < i + n) then p !! (off + (j - i)) else l !! j.
Proof.
  intros Hp Hl. pose proof (bytes_length p off n Hp) as Hb. rewrite inserts_lookup, Hb by lia.
  destruct (decide _) as [Hj|]; [|done]. unfold bytes. rewrite lookup_take_lt by lia. by rewrite lookup_drop.
Qed.

(** ** One row *)

(** Where a byte of the split row comes from, and a byte of the native row. *)
Definition fromNative (nb j : nat) : nat :=
  if decide (j < 2 * nb) then j / 2 * 34 + j mod 2 else (j - 2 * nb) / 32 * 34 + 2 + (j - 2 * nb) mod 32.
Definition fromSplit (nb j : nat) : nat :=
  if decide (j mod 34 < 2) then j / 34 * 2 + j mod 34 else 2 * nb + j / 34 * 32 + (j mod 34 - 2).

Lemma from_bounds nb j : j < nb * 34 -> fromNative nb j < nb * 34 /\ fromSplit nb j < nb * 34.
Proof. intros Hj. unfold fromNative, fromSplit. do 2 destruct (decide _); lia. Qed.

Lemma from_inverse nb j : j < nb * 34 -> fromNative nb (fromSplit nb j) = j.
Proof.
  intros Hj. unfold fromSplit. destruct (decide (j mod 34 < 2)); unfold fromNative; destruct (decide _); lia.
Qed.

(** A row function moves the bytes by [pi] and leaves what lies behind the row. *)
Definition moves (f : list ascii -> nat -> list ascii -> list ascii) (pi : nat -> nat -> nat) : Prop :=
  forall src K dst, let nb := K / 32 in nb * 34 <= length src -> nb * 34 <= length dst ->
    length (f src K dst) = length dst /\ forall j, f src K dst !! j = if decide (j < nb * 34) then src !! pi nb j else dst !! j.

Lemma reorderRow_moves : moves reorderRow fromNative.
Proof.
  intros src K dst nb Hs Hd. unfold reorderRow. change (K / kBlockElements) with nb.
  set (step := fun (dst : list ascii) (b : nat) => _).
  assert (Hgo : forall m, m <= nb -> length (foldl step dst (seq 0 m)) = length dst /\
    forall j, foldl step dst (seq 0 m) !! j =
      if decide (j < 2 * m \/ 2 * nb <= j < 2 * nb + 32 * m) then src !! fromNative nb j else dst !! j).
  { induction m as [|m IH]; intros Hm.
    { split; [done|]. intros j. rewrite decide_False by lia. done. }
    destruct IH as [Hl Hj]; [lia|]. rewrite seq_S, foldl_snoc. cbn [Nat.add]. set (d := foldl step dst (seq 0 m)) in *.
    unfold step, kBlockBytes. split; [by rewrite !length_inserts|]. intros j.
    rewrite copy_lookup by (rewrite ?length_inserts; lia). rewrite copy_lookup by lia. rewrite Hj. unfold fromNative.
    clear Hj. destruct (decide (2 * nb + m * 32 <= j < 2 * nb + m * 32 + 32)) as [H1|H1].
    { rewrite decide_True, decide_False by lia. f_equal. lia. }
    destruct (decide (m * 2 <= j < m * 2 + 2)) as [H2|H2].
    { rewrite decide_True, decide_True by lia. f_equal. lia. }
    destruct (decide (j < 2 * m \/ _)) as [H3|H3]; [by rewrite (decide_True (P := j < 2 * S m \/ _)) by lia|].
    by rewrite (decide_False (P := j < 2 * S m \/ _)) by lia. }
  destruct (Hgo nb ltac:(lia)) as [Hl Hj]. split; [done|]. intros j. rewrite Hj.
  destruct (decide (j < nb * 34)); [by rewrite decide_True by lia|by rewrite decide_False by lia].
Qed.

Lemma unreorderRow_moves : moves unreorderRow fromSplit.
Proof.
  intros src K dst nb Hs Hd. unfold unreorderRow. change (K / kBlockElements) with nb.
  set (step := fun (dst : list ascii) (b : nat) => _).
  assert (Hgo : forall m, m <= nb -> length (foldl step dst (seq 0 m)) = length dst /\
    forall j, foldl step dst (seq 0 m) !! j = if decide (j < m * 34) then src !! fromSplit nb j else dst !! j).
  { induction m as [|m IH]; intros Hm.
    { split; [done|]. intros j. rewrite decide_False by lia. done. }
    destruct IH as [Hl Hj]; [lia|]. rewrite seq_S, foldl_snoc. cbn [Nat.add]. set (d := foldl step dst (seq 0 m)) in *.
    unfold step, kBlockBytes. split; [by rewrite !length_inserts|]. intros j.
    rewrite copy_lookup by (rewrite ?length_inserts; lia). rewrite copy_lookup by lia. rewrite Hj. unfold fromSplit.
    clear Hj. destruct (decide (m * 34 + 2 <= j < m * 34 + 2 + 32)) as [H1|H1].
    { rewrite decide_True, decide_False by lia. f_equal. lia. }
    destruct (decide (m * 34 <= j < m * 34 + 2)) as [H2|H2].
    { rewrite decide_True, decide_True by lia. f_equal. lia. }
    destruct (decide (j < m * 34)) as [H3|H3]; [by rewrite (decide_True (P := j < S m * 34)) by lia|].
    by rewrite (decide_False (P := j < S m * 34)) by lia. }
  destruct (Hgo nb ltac:(lia)) as [Hl Hj]. split; [done|exact Hj].
Qed.
(** ** The matrix *)

Lemma matrix_moves f pi K base scratch N : moves f pi -> (forall nb j, j < nb * 34 -> pi nb j < nb * 34) ->
  N * rowBytes K <= length base -> rowBytes K <= length scratch ->
  let st := foldl (fun st n => rowInPlace f K n st) (base, scratch) (seq 0 N) in
  length (fst st) = length base /\ length (snd st) = length scratch /\
  forall j, fst st !! j = if decide (j < N * rowBytes K)
    then base !! (j / rowBytes K * rowBytes K + pi (K / 32) (j mod rowBytes K)) else base !! j.
Proof.
  intros Hf Hpi. change (rowBytes K) with (K / 32 * 34). specialize (Hpi (K / 32)). set (rB := K / 32 * 34) in *.
  induction N as [|m IH]; intros HN Hs.
  { cbn. split; [done|]. split; [done|]. intros j. by rewrite decide_False by lia. }
  destruct IH as (Hl & Hls & Hj); [lia|done|]. cbv zeta. rewrite seq_S, foldl_snoc. cbn [Nat.add].
  destruct (foldl _ _ _) as [b sc]. cbn [fst snd] in *. unfold rowInPlace. change (rowBytes K) with rB. cbn [fst snd].
  set (sc' := list_inserts 0 (bytes b (m * rB) rB) sc).
  assert (Hsc : length sc' = length scratch) by (unfold sc'; by rewrite length_inserts).
  destruct (Hf sc' K (drop (m * rB) b)) as [Hfl Hfj]; [fold rB; lia|rewrite length_drop; fold rB; lia|]. fold rB in Hfl, Hfj.
  rewrite length_app, length_take, Hfl, length_drop. split; [lia|]. split; [done|]. intros j.
  destruct (Nat.lt_ge_cases j (m * rB)) as [H1|H1].
  - rewrite lookup_app_l, lookup_take_lt by (rewrite ?length_take; lia). rewrite Hj, decide_True by done.
    by rewrite decide_True by lia.
  - rewrite lookup_app_r by (rewrite length_take; lia). rewrite length_take, (Nat.min_l (m * rB)) by lia. rewrite Hfj, lookup_drop, Hj.
    destruct (decide (j - m * rB < rB)) as [H2|H2].
    + rewrite (decide_True (P := j < S m * rB)) by lia. pose proof (Hpi (j - m * rB) H2) as Hp. unfold sc'.
      rewrite copy_lookup, decide_True, Nat.sub_0_r, Hj, decide_False by lia.
      assert (j / rB = m) as -> by (symmetry; apply (Nat.div_unique _ _ _ (j - m * rB)); lia).
      assert (j mod rB = j - m * rB) as -> by (symmetry; apply (Nat.mod_unique _ _ m); lia). done.
    + rewrite (decide_False (P := j < S m * rB)), decide_False by lia. f_equal. lia.
Qed.

(** ** The same floats *)

Lemma byteAt_lookup p q i j : p !! i = q !! j -> byteAt p i = byteAt q j.
Proof. unfold byteAt. by intros ->. Qed.

Lemma row_parity src row K : (forall j, j < K / 32 * 34 -> row !! j = src !! fromNative (K / 32) j) -> K mod 32 = 0 ->
  dequantToF32 Q8_0 src K = Ok (dequantRowFromReorderedToF32 row K).
Proof.
  intros Hrow HK. unfold dequantToF32. cbn [quantType convert]. unfold dequantQ8_0, perBlock.
  rewrite (proj2 (Nat.eqb_eq _ _) HK). cbn [negb]. f_equal.
  unfold dequantRowFromReorderedToF32, kBlockElements. set (nb := K / 32) in *. f_equal. apply map_ext_in.
  intros b Hb. apply in_seq in Hb. unfold q8Block.
  assert (Hat : forall j, j < nb * 34 -> byteAt row j = byteAt src (fromNative nb j)) by (intros; by apply byteAt_lookup, Hrow).
  assert (Hd : u16At (drop (b * 34) src) 0 = u16At row (b * 2)).
  { unfold u16At. rewrite !BlockFormats.byteAt_drop, !Hat by lia. unfold fromNative. rewrite !decide_True by lia.
    do 2 f_equal; f_equal; lia. }
  rewrite Hd. apply map_ext_in. intros l Hl. apply in_seq in Hl. rewrite BlockFormats.byteAt_drop, Hat by lia.
  unfold fromNative. rewrite decide_False by lia. do 4 f_equal. lia.
Qed.

(** C39: A Q8_0 matrix split in place is converted to the same floats as before, row by
    row, and nothing behind it changes; joining it again in place gives back every byte. *)
Theorem q8_reorder_parity base N K scratch : K mod 32 = 0 -> N * rowBytes K <= length base -> rowBytes K <= length scratch ->
  let st := reorderMatrixInPlace base N K scratch in
  length (fst st) = length base /\
  (forall n, n < N -> dequantToF32 Q8_0 (drop (n * rowBytes K) base) K =
     Ok (dequantRowFromReorderedToF32 (drop (n * rowBytes K) (fst st)) K)) /\
  (forall j, N * rowBytes K <= j -> fst st !! j = base !! j) /\
  fst (unreorderMatrixInPlace (fst st) N K (snd st)) = base.
Proof.
  intros HK HN Hs st.
  destruct (matrix_moves _ _ K base scratch N reorderRow_moves (fun nb j H => proj1 (from_bounds nb j H)) HN Hs) as (Hl & Hls & Hj).
  fold (reorderMatrixInPlace base N K scratch) in Hl, Hls, Hj. fold st in Hl, Hls, Hj. split; [done|].
  change (rowBytes K) with (K / 32 * 34) in *. set (rB := K / 32 * 34) in *. split; [|split].
  - intros n Hn. apply row_parity; [|done]. fold rB. intros j Hjr. rewrite !lookup_drop, Hj, decide_True by nia.
    assert ((n * rB + j) / rB = n) as -> by (symmetry; apply (Nat.div_unique _ _ _ j); lia).
    assert ((n * rB + j) mod rB = j) as -> by (symmetry; apply (Nat.mod_unique _ _ n); lia). done.
  - intros j Hjn. by rewrite Hj, decide_False by lia.
  - destruct (matrix_moves _ _ K (fst st) (snd st) N unreorderRow_moves (fun nb j H => proj2 (from_bounds nb j H))) as (_ & _ & Hu);
      [change (rowBytes K) with rB; lia..|]. fold (unreorderMatrixInPlace (fst st) N K (snd st)) in Hu.
    change (rowBytes K) with rB in Hu. apply list_eq. intros j. rewrite Hu. destruct (decide (j < N * rB)) as [H|H]; [|by rewrite Hj, decide_False].
    assert (Hm : j mod rB < rB) by (apply Nat.mod_upper_bound; lia). pose proof (proj2 (from_bounds (K / 32) (j mod rB) Hm)) as Hb.
    fold rB in Hb. pose proof (Nat.div_mod j rB ltac:(lia)) as Hdm. set (q := j / rB) in *. set (r := j mod rB) in *.
    assert (Hq : q < N) by nia. rewrite Hj, decide_True by nia.
    assert ((q * rB + fromSplit (K / 32) r) / rB = q) as -> by (symmetry; apply (Nat.div_unique _ _ _ (fromSplit (K / 32) r)); lia).
    assert ((q * rB + fromSplit (K / 32) r) mod rB = fromSplit (K / 32) r) as -> by (symmetry; apply (Nat.mod_unique _ _ q); lia).
    rewrite from_inverse by done. f_equal. lia.
Qed.

Lemma q8_reorder_parity_witness :
  let base := replicate 34 (ascii_of_N 60) ++ replicate 36 (ascii_of_N 7) in
  let st := reorderMatrixInPlace base 2 32 (replicate 34 zero) in
  (forall n, n < 2 -> dequantToF32 Q8_0 (drop (n * 34) base) 32 = Ok (dequantRowFromReorderedToF32 (drop (n * 34) (fst st)) 32)) /\
  fst (unreorderMatrixInPlace (fst st) 2 32 (snd st)) = base.
Proof.
  intros base st. assert (Hb : length base = 70) by done.
  destruct (q8_reorder_parity base 2 32 (replicate 34 zero) eq_refl) as (_ & Hd & _ & Hu); [rewrite Hb; cbn; lia|cbn; lia|].
  split; [exact Hd|exact Hu].
Defined.
End Q8Reorder.

Module SwizzleProofs.
Import BlockScaleSwizzle.

(** ** Writes to places of their own *)

Lemma foldl_concat_map {A B C} (f : B -> A -> B) (g : C -> list A) (l : list C) b :
  foldl f b (concat (map g l)) = foldl (fun b c => foldl f b (g c)) b l.
Proof. revert b. induction l as [|c l IH]; intros b; [done|]. cbn [map concat]. rewrite foldl_app. apply IH. Qed.

Lemma foldl_map_in {A B C} (f : B -> A -> B) (g : C -> A) (l : list C) b : foldl f b (map g l) = foldl (fun b c => f b (g c)) b l.
Proof. revert b. induction l as [|c l IH]; intros b; [done|]. apply IH. Qed.

Lemma foldl_cong {A B} (f g : B -> A -> B) (l : list A) b : (forall b a, f b a = g b a) -> foldl f b l = foldl g b l.
Proof. intros H. revert b. induction l as [|a l IH]; intros b; [done|]. cbn [foldl]. by rewrite H. Qed.

Lemma writes_lookup {P A} (o : P -> nat) (v : P -> A) (ps : list P) (d : list A) :
  (forall p q, p ∈ ps -> q ∈ ps -> o p = o q -> v p = v q) -> (forall p, p ∈ ps -> o p < length d) ->
  let d' := foldl (fun d p => <[o p := v p]> d) d ps in
  length d' = length d /\ (forall p, p ∈ ps -> d' !! o p = Some (v p)) /\
  (forall k, (forall p, p ∈ ps -> o p <> k) -> d' !! k = d !! k).
Proof.
  induction ps as [|p ps IH] using rev_ind; intros Hv Ho; [split; [done|]; split; [|done]; by intros p Hp%elem_of_nil|].
  destruct IH as (Hl & Hp & Hk).
  { intros x y Hx Hy. apply Hv; apply elem_of_app; by left. }
  { intros x Hx. apply Ho, elem_of_app. by left. }
  cbv zeta. rewrite foldl_snoc. set (d1 := foldl _ d ps) in *.
  assert (Hpin : p ∈ ps ++ [p]) by (apply elem_of_app; right; apply list_elem_of_here || apply elem_of_list_here).
  split; [by rewrite length_insert|]. split.
  - intros q Hq. destruct (decide (o q = o p)) as [E|E].
    + rewrite E, list_lookup_insert_eq by (rewrite Hl; by apply Ho). f_equal. by apply Hv.
    + rewrite list_lookup_insert_ne by done. apply Hp. apply elem_of_app in Hq as [?|Hq]; [done|].
      apply list_elem_of_singleton in Hq as ->. done.
  - intros k Hne. rewrite list_lookup_insert_ne by (by apply Hne). apply Hk. intros q Hq. apply Hne, elem_of_app. by left.
Qed.

(** ** The places *)

(** The place inside a tile, and the tile. *)
Lemma offset_tile m s mT kT : s < 4 * kT ->
  let o := swizzledScaleOffset m s mT kT in
  o / 512 = s / 4 + kT * (m / 128) /\ o mod 512 = (m mod 128) mod 32 * 16 + m mod 128 / 32 * 4 + s mod 4.
Proof.
  intros Hs o. set (a := (m mod 128) mod 32 * 16 + m mod 128 / 32 * 4 + s mod 4).
  assert (Ha : a < 512) by (unfold a; clear; lia). unfold o, swizzledScaleOffset. fold a.
  split; [symmetry; apply (Nat.div_unique _ _ _ a); [exact Ha|]|symmetry; apply (Nat.mod_unique _ _ (s / 4 + kT * (m / 128))); [exact Ha|]];
    generalize (s / 4 + kT * (m / 128)); clear; lia.
Qed.

Lemma offset_inj m s m' s' mT kT : s < 4 * kT -> s' < 4 * kT ->
  swizzledScaleOffset m s mT kT = swizzledScaleOffset m' s' mT kT -> m = m' /\ s = s'.
Proof.
  intros Hs Hs' E. destruct (offset_tile m s mT kT Hs) as [Hd Hm]. destruct (offset_tile m' s' mT kT Hs') as [Hd' Hm'].
  cbv zeta in *. rewrite E in Hd, Hm. rewrite Hd' in Hd. rewrite Hm' in Hm. clear E Hd' Hm'.
  assert (Hq : s / 4 < kT) by (clear - Hs; lia). assert (Hq' : s' / 4 < kT) by (clear - Hs'; lia).
  assert (Hb : m' / 128 = m / 128 /\ s' / 4 = s / 4).
  { clear Hm. set (x := s / 4) in *. set (x' := s' / 4) in *. set (y := m / 128) in *. set (y' := m' / 128) in *.
    assert (y' = y) as ->.
    { transitivity ((x + kT * y) / kT); [rewrite <- Hd; apply (Nat.div_unique _ _ _ x'); lia|symmetry; apply (Nat.div_unique _ _ _ x); lia]. }
    split; lia. }
  destruct Hb as [Hb1 Hb2]. clear Hd Hq Hq' Hs Hs'. split; lia.
Qed.

Lemma offset_bound m s mT kT : m < 128 * mT -> s < 4 * kT -> swizzledScaleOffset m s mT kT < 512 * mT * kT.
Proof.
  intros Hm Hs. destruct (offset_tile m s mT kT Hs) as [Hd Hr]. cbv zeta in *. set (o := swizzledScaleOffset m s mT kT) in *.
  assert (Ho : o = 512 * (o / 512) + o mod 512) by (clear; lia). assert (Hr5 : o mod 512 < 512) by (clear; lia).
  assert (Hq : s / 4 < kT) by (clear - Hs; lia). assert (Hy : m / 128 < mT) by (clear - Hm; lia).
  rewrite Hd in Ho. clear Hd Hr Hm Hs. set (x := s / 4) in *. set (y := m / 128) in *. generalize dependent (o mod 512). intros r Hr Ho. nia.
Qed.

Lemma tiles_cover rows ksf : rows <= 128 * sfRowTiles rows /\ ksf <= 4 * sfKTiles ksf.
Proof. unfold sfRowTiles, sfKTiles. lia. Qed.

(** ** One tensor *)

(** The place of a scale in a tensor. *)
Definition place (rows ksf m s : nat) : nat := swizzledScaleOffset m s (sfRowTiles rows) (sfKTiles ksf).

Lemma place_bound rows ksf m s : m < rows -> s < ksf -> place rows ksf m s < swizzledBlockScaleBytes rows ksf.
Proof. intros Hm Hs. destruct (tiles_cover rows ksf). apply offset_bound; lia. Qed.

(** Whether a scale lies at [k]. *)
Definition taken (rows ksf k : nat) : bool :=
  existsb (fun m => existsb (fun s => place rows ksf m s =? k) (seq 0 ksf)) (seq 0 rows).

Lemma taken_spec rows ksf k : taken rows ksf k = true <-> exists m s, m < rows /\ s < ksf /\ place rows ksf m s = k.
Proof.
  unfold taken. rewrite existsb_exists. split.
  - intros (m & Hm & Hs). apply existsb_exists in Hs as (s & Hs & E). apply in_seq in Hm, Hs. apply Nat.eqb_eq in E. exists m, s. lia.
  - intros (m & s & Hm & Hs & E). exists m. split; [apply in_seq; lia|]. apply existsb_exists. exists s.
    split; [apply in_seq; lia|by apply Nat.eqb_eq].
Qed.

Lemma not_taken rows ksf k : taken rows ksf k = false -> forall m s, m < rows -> s < ksf -> place rows ksf m s <> k.
Proof. intros Ht m s Hm Hs E. apply not_true_iff_false in Ht. apply Ht, taken_spec. by exists m, s. Qed.

Lemma swizzle_lookup src rows ksf dst : swizzledBlockScaleBytes rows ksf <= length dst ->
  let d' := swizzleBlockScale src rows ksf dst in
  length d' = length dst /\
  (forall m s, m < rows -> s < ksf -> d' !! place rows ksf m s = Some (charAt src (m * ksf + s))) /\
  (forall k, (forall m s, m < rows -> s < ksf -> place rows ksf m s <> k) ->
     d' !! k = if decide (k < swizzledBlockScaleBytes rows ksf) then Some zero else dst !! k).
Proof.
  intros Hd. cbv zeta. unfold swizzleBlockScale. set (B := swizzledBlockScaleBytes rows ksf) in *.
  set (z := list_inserts 0 (replicate B zero) dst). assert (Hz : length z = length dst) by apply length_inserts.
  set (ps := concat (map (fun m => map (fun s => (m, s)) (seq 0 ksf)) (seq 0 rows))).
  assert (Hps : forall m s, (m, s) ∈ ps <-> m < rows /\ s < ksf).
  { intros m s. unfold ps. rewrite list_elem_of_In, in_concat. split.
    - intros (l & Hl & Hin). apply in_map_iff in Hl as (m' & <- & Hm). apply in_map_iff in Hin as (s' & [= -> ->] & Hs).
      apply in_seq in Hm, Hs. lia.
    - intros [Hm Hs]. eexists. split; [apply in_map_iff; exists m; split; [done|apply in_seq; lia]|].
      apply in_map_iff. exists s. split; [done|apply in_seq; lia]. }
  set (o := fun p : nat * nat => place rows ksf (fst p) (snd p)). set (v := fun p : nat * nat => charAt src (fst p * ksf + snd p)).
  destruct (writes_lookup o v ps z) as (Hl & Hv & Hk).
  { intros [m s] [m' s'] Hp Hq E. apply Hps in Hp, Hq. destruct (tiles_cover rows ksf).
    unfold o, place in E. cbn [fst snd] in E. apply offset_inj in E as [-> ->]; [done|lia..]. }
  { intros [m s] Hp. apply Hps in Hp as [Hm Hs]. pose proof (place_bound rows ksf m s Hm Hs) as Hp. fold B in Hp.
    change (place rows ksf m s < length z). clearbody B. lia. }
  assert (Hf : foldl (fun d p => <[o p := v p]> d) z ps =
    foldl (fun dst m => foldl (fun dst s => <[swizzledScaleOffset m s (sfRowTiles rows) (sfKTiles ksf) := charAt src (m * ksf + s)]> dst) dst (seq 0 ksf)) z (seq 0 rows)).
  { unfold ps. rewrite foldl_concat_map. apply foldl_cong. intros d m. by rewrite foldl_map_in. }
  rewrite <- Hf. split; [by rewrite Hl|]. split.
  - intros m s Hm Hs. apply (Hv (m, s)). by apply Hps.
  - intros k Hne. rewrite Hk by (intros [m s] Hp; apply Hps in Hp as [??]; by apply Hne).
    unfold z. rewrite Q8Reorder.inserts_lookup by (rewrite length_replicate; lia). rewrite length_replicate.
    destruct (decide (k < B)); [rewrite decide_True by lia|by rewrite decide_False by lia]. apply lookup_replicate_2. lia.
Qed.

(** ** The bank *)

(** The experts one after the other. *)
Lemma bank_lookup src n rows ksf dst : moeSwizzledScaleBankBytes n rows ksf <= length dst ->
  let S := moeSwizzledScaleStride rows ksf in
  let d' := swizzleMoeBlockScales src n rows ksf dst in
  length d' = length dst /\
  (forall e k, e < n -> k < S -> d' !! (e * S + k) = swizzleBlockScale (drop (e * (rows * ksf)) src) rows ksf (drop (e * S) dst) !! k) /\
  (forall k, n * S <= k -> d' !! k = dst !! k).
Proof.
  unfold moeSwizzledScaleBankBytes. intros Hd. cbv zeta. unfold swizzleMoeBlockScales, moeSwizzledScaleStride.
  set (S := swizzledBlockScaleBytes rows ksf) in *. set (step := fun (dst : list ascii) (e : nat) => _).
  induction n as [|n IH]; [split; [done|]; split; [lia|done]|]. destruct IH as (Hl & He & Hk); [lia|].
  rewrite seq_S, foldl_snoc. cbn [Nat.add]. set (d1 := foldl step dst (seq 0 n)) in *. unfold step.
  assert (Hlast : length (drop (n * S) d1) = length dst - n * S) by (rewrite length_drop; lia).
  destruct (swizzle_lookup (drop (n * (rows * ksf)) src) rows ksf (drop (n * S) d1)) as (Hsl & Hsv & Hsk); [fold S; lia|].
  fold S in Hsk. set (t := swizzleBlockScale _ rows ksf (drop (n * S) d1)) in *.
  split; [rewrite length_app, length_take, Hsl; lia|]. split.
  - intros e k Hen Hkb. destruct (decide (e = n)) as [->|].
    + rewrite lookup_app_r by (rewrite length_take; lia). rewrite length_take. replace (n * S + k - Nat.min (n * S) (length d1)) with k by lia.
      destruct (swizzle_lookup (drop (n * (rows * ksf)) src) rows ksf (drop (n * S) dst)) as (_ & Hsv' & Hsk'); [rewrite length_drop; fold S; lia|].
      fold S in Hsk'. destruct (taken rows ksf k) eqn:Ht.
      * apply taken_spec in Ht as (m & s & Hm & Hs & <-). by rewrite Hsv, Hsv'.
      * pose proof (not_taken rows ksf k Ht). by rewrite Hsk, Hsk', !decide_True.
    + rewrite lookup_app_l, lookup_take_lt by (rewrite ?length_take; nia). apply He; lia.
  - intros k Hkn. rewrite lookup_app_r by (rewrite length_take; lia). rewrite length_take, Hsk.
    + rewrite decide_False by lia. rewrite lookup_drop, Hk by lia. f_equal. lia.
    + intros m s Hm Hs E. pose proof (place_bound rows ksf m s Hm Hs) as Hp. fold S in Hp. lia.
Qed.

Lemma charAt_drop src n i : charAt (drop n src) i = charAt src (n + i).
Proof. unfold charAt. by rewrite lookup_drop. Qed.

(** C40: The bank of tiled block scales: each scale of each expert lies at a place of its
    own inside the bank, holding the byte of the row-major tensor; every other byte of
    the bank is zero, and nothing behind the bank changes. *)
Theorem swizzle_bank_exact src n rows ksf dst : moeSwizzledScaleBankBytes n rows ksf <= length dst ->
  let S := moeSwizzledScaleStride rows ksf in
  let at_ e m s := e * S + swizzledScaleOffset m s (sfRowTiles rows) (sfKTiles ksf) in
  let d' := swizzleMoeBlockScales src n rows ksf dst in
  length d' = length dst /\
  (forall e m s, e < n -> m < rows -> s < ksf ->
     at_ e m s < moeSwizzledScaleBankBytes n rows ksf /\ d' !! at_ e m s = Some (charAt src ((e * rows + m) * ksf + s)) /\
     forall e' m' s', e' < n -> m' < rows -> s' < ksf -> at_ e m s = at_ e' m' s' -> (e, m, s) = (e', m', s')) /\
  (forall k, k < moeSwizzledScaleBankBytes n rows ksf -> (forall e m s, e < n -> m < rows -> s < ksf -> at_ e m s <> k) ->
     d' !! k = Some zero) /\
  (forall k, moeSwizzledScaleBankBytes n rows ksf <= k -> d' !! k = dst !! k).
Proof.
  intros Hd S at_ d'. destruct (bank_lookup src n rows ksf dst Hd) as (Hl & He & Hk). fold d' S in Hl, He, Hk.
  change (moeSwizzledScaleBankBytes n rows ksf) with (n * S) in *.
  assert (Hp : forall m s, m < rows -> s < ksf -> place rows ksf m s < S) by apply place_bound.
  change (forall m s, m < rows -> s < ksf -> swizzledScaleOffset m s (sfRowTiles rows) (sfKTiles ksf) < S) in Hp.
  assert (Hroom : forall e, e < n -> S <= length (drop (e * S) dst)) by (intros; rewrite length_drop; nia).
  split; [done|]. split; [|split].
  - intros e m s Hen Hm Hs. pose proof (Hp m s Hm Hs). split; [unfold at_; nia|]. split.
    + unfold at_. rewrite He by done. rewrite (proj1 (proj2 (swizzle_lookup _ rows ksf _ (Hroom e Hen))) m s Hm Hs), charAt_drop.
      do 2 f_equal. lia.
    + intros e' m' s' He' Hm' Hs' E. pose proof (Hp m' s' Hm' Hs') as Hp'. unfold at_ in E.
      assert (e = e') as ->.
      { clear - E H Hp'. set (p := swizzledScaleOffset m s _ _) in *. set (p' := swizzledScaleOffset m' s' _ _) in *. clearbody p p' S.
        transitivity ((e * S + p) / S); [|rewrite E; symmetry]; [apply (Nat.div_unique _ _ _ p); lia|apply (Nat.div_unique _ _ _ p'); lia]. }
      destruct (tiles_cover rows ksf). apply Nat.add_cancel_l, offset_inj in E as [-> ->]; [done|lia..].
  - intros k Hkn Hno. assert (HS : 0 < S) by nia. pose proof (Nat.div_mod k S ltac:(lia)) as Hdm.
    pose proof (Nat.mod_upper_bound k S ltac:(lia)) as Hr. set (e := k / S) in *. set (r := k mod S) in *. assert (Hen : e < n) by nia.
    replace k with (e * S + r) by lia. rewrite He by done.
    rewrite (proj2 (proj2 (swizzle_lookup _ rows ksf _ (Hroom e Hen)))); [by rewrite decide_True|].
    intros m s Hm Hs E. apply (Hno e m s Hen Hm Hs). unfold at_. change (e * S + place rows ksf m s = k). lia.
  - exact Hk.
Qed.

(** Two experts of three rows and five scales. *)
Lemma swizzle_bank_exact_witness :
  let src := map ascii_of_nat (seq 1 30) in
  let d' := swizzleMoeBlockScales src 2 3 5 (replicate 2048 one) in
  d' !! (1 * 1024 + swizzledScaleOffset 2 4 1 2) = Some (ascii_of_nat 30) /\ d' !! 100 = Some zero.
Proof.
  intros src d'. assert (Hd : moeSwizzledScaleBankBytes 2 3 5 <= length (replicate 2048 one)) by (rewrite length_replicate; apply (bool_decide_unpack _); by vm_compute).
  destruct (swizzle_bank_exact src 2 3 5 (replicate 2048 one) Hd) as (_ & He & Hz & _). split.
  - exact (proj1 (proj2 (He 1 2 4 ltac:(lia) ltac:(lia) ltac:(lia)))).
  - apply Hz; [apply (bool_decide_unpack _); by vm_compute|]. intros e m s He' Hm Hs.
    do 2 (destruct e as [|e]; [do 3 (destruct m as [|m]; [do 5 (destruct s as [|s]; [by vm_compute|]); lia|]); lia|]). lia.
Defined.
End SwizzleProofs.

Module ScalarDecoders.
Import NvFp4.
#[local] Open Scope Z_scope.

(** What an E4M3 byte and an E2M1 nibble spell, in units of the smallest float. *)
Definition e4m3 (byte : N) : Z :=
  let s := Z.of_N (byte / 128) in let e := Z.of_N (byte / 8 mod 16) in let m := Z.of_N (byte mod 8) in
  (1 - 2 * s) * (if e =? 0 then m * 2 ^ 140 else (8 + m) * 2 ^ (e + 139)).
Definition e2m1 (nib : N) : Z :=
  let s := Z.of_N (nib / 8 mod 2) in let e := Z.of_N (nib / 2 mod 4) in let m := Z.of_N (nib mod 2) in
  (1 - 2 * s) * (if e =? 0 then m * 2 ^ 148 else (2 + m) * 2 ^ (e + 147)).

(** Both decoders are exact; only the two codes of E4M3 are no numbers. *)
Lemma decoders_exact :
  forallb (fun b => let x := e4m3ToFloat (N.of_nat b) in
    if (b mod 128 =? 127)%nat then is_nan x else FloatRound.fin 24 128 x && (FloatRound.val 24 128 x =? e4m3 (N.of_nat b))) (seq 0 256) &&
  forallb (fun b => let x := e2m1ToFloat (N.of_nat b) in
    FloatRound.fin 24 128 x && (FloatRound.val 24 128 x =? e2m1 (N.of_nat b))) (seq 0 16) = true.
Proof. vm_compute. reflexivity. Qed.

(** The conversion to half precision drops bits where rounding to nearest would carry:
    4095 becomes 4094 and not 4096. *)
Example half_truncates : FloatRound.val 24 128 (halfToFloat (floatToHalfBits (f32_of_Z 4095))) = 4094 * 2 ^ 149.
Proof. vm_compute. reflexivity. Qed.
End ScalarDecoders.
