(* ===== verification/InferenceEngine.v ===== *)
(** * The engine behind one conversation: caches, prefix reuse, generation

    Models [src/src/runtime/KvCache.hpp], the recurrent state of
    [src/src/runtime/SsmState.hpp] and the single-session paths of
    [src/src/runtime/InferenceEngine.cpp]: capacity, the multi-entry prefix cache,
    prefix reuse with its checkpoint, prefill, decode, [generate], [forwardVerify]
    and [commitVerified].

    - The forward passes are the class [Backend]: what the kernels leave in the
      caches is theirs, where it is put, what is kept and what is thrown away is the
      engine's.  [BackendLaws] is what a forward pass promises: it can be cut
      anywhere, and a model without recurrent state has none.
    - A KV cache is its memory and its length: a forward writes behind the length,
      and rows behind the length stay in memory.
    - Every operation answers a result and the engine it leaves, also when it throws.
    - Log lines, telemetry, command-list replay and graph capture are left out: they
      queue the same blocks. *)

From Stdlib Require Import SpecFloat.
From S2P Require Import Prelude Sampling SpecDecode.

Module InferenceEngine.
Import Sampling.

(** ** One sequence's KV memory *)

(** The rows written so far and how many of them count.
    [src/src/runtime/KvCache.hpp:248-265 KvCache] *)
Record KvCache (R : Type) := mkKv { kvRows : list R; kvLength : nat }.
Arguments mkKv {R} _ _.
Arguments kvRows {R} _.
Arguments kvLength {R} _.

Section Kv.
Context {R : Type}.
Implicit Types c : KvCache R.

Definition emptyKv : KvCache R := mkKv [] 0.

(** [src/src/runtime/KvCache.hpp:236-236 commit] *)
Definition commit (T : nat) c : KvCache R := mkKv (kvRows c) (kvLength c + T).

(** [src/src/runtime/KvCache.hpp:237-237 reset] *)
Definition reset c : KvCache R := mkKv (kvRows c) 0.

(** [src/src/runtime/KvCache.hpp:244-246 truncate] *)
Definition truncate (n : nat) c : KvCache R :=
  mkKv (kvRows c) (if n <=? kvLength c then n else kvLength c).

(** The rows a forward reads besides its own. *)
Definition kvPrefix c : list R := take (kvLength c) (kvRows c).

(** Rows written at the write slot; whatever lies behind them stays.
    [src/src/runtime/KvCache.cpp:191-206 writeSlotK] *)
Definition writeRows (new : list R) c : KvCache R :=
  mkKv (kvPrefix c ++ new ++ drop (kvLength c + length new) (kvRows c)) (kvLength c).
End Kv.

(** [src/src/runtime/Lcp.hpp:19-28 longestCommonPrefix] *)
Fixpoint longestCommonPrefix (a b : list Z) : nat :=
  match a, b with
  | x :: a', y :: b' => if Z.eqb x y then S (longestCommonPrefix a' b') else 0
  | _, _ => 0
  end.

(** ** The forward passes *)

(** [Row]: keys and values of one position in all layers; [Ssm]: all recurrent and
    convolution state; [Hid]: the hidden row of a position after the last block.
    [runSome n] is embedding, [prepareForward] and the first [n] blocks. *)
Class Backend := {
  Row : Type;
  Ssm : Type;
  Hid : Type;
  needsSsmScratch : bool;
  zeroSsm : Ssm;
  blockCount : nat;
  runSome : nat -> list Row -> Ssm -> list Z -> list Row * Ssm * list Hid;
  lmHead : Hid -> list f32;
}.

(** What is fixed when a model is loaded. [prefixSlotsEnv] is
    [MIMIRMIND_PREFIX_CACHE_SLOTS] read as a number, [gdnPrefixCkpt] whether
    [MIMIRMIND_GDN_PREFIX_CKPT] is positive. *)
Record EngineConfig := mkEngineConfig {
  maxContextTokens : nat;
  prefixSlotsEnv : option Z;
  gdnPrefixCkpt : bool;
  tokenizerEos : Z;
  finalLogitSoftcap : f32;
}.

Section Engine.
Context {BK : Backend}.
Variable cfg : EngineConfig.

Definition runBlocks : list Row -> Ssm -> list Z -> list Row * Ssm * list Hid := runSome blockCount.

(** [src/src/runtime/InferenceEngine.hpp:1267-1271 PrefixSlot] *)
Record PrefixSlot := mkSlot {
  slotCache : KvCache Row;
  slotTokens : list Z;
  lastUsed : N;
}.

(** [src/src/runtime/InferenceEngine.hpp:1182-1275 InferenceEngine] *)
Record State := mkState {
  kvCache : option (KvCache Row);
  cachedTokens : list Z;
  ssmState : Ssm;
  ssmSnap : Ssm;
  ssmSnapValid : bool;
  ssmSnapTokens : nat;
  prefixBackups : list PrefixSlot;
  prefixTick : N;
  activeLastUsed : N;
}.

(** An engine that has just loaded its model; [s] is what the memory holds. *)
Definition freshEngine (s : Ssm) : State := mkState None [] s s false 0 [] 0 0.

Definition eta_state (e : State) : State :=
  mkState (kvCache e) (cachedTokens e) (ssmState e) (ssmSnap e) (ssmSnapValid e)
    (ssmSnapTokens e) (prefixBackups e) (prefixTick e) (activeLastUsed e).
#[global] Instance set_kvCache : FieldSetter kvCache := ltac:(build_setter eta_state kvCache).
#[global] Instance set_cachedTokens : FieldSetter cachedTokens := ltac:(build_setter eta_state cachedTokens).
#[global] Instance set_ssmState : FieldSetter ssmState := ltac:(build_setter eta_state ssmState).
#[global] Instance set_ssmSnap : FieldSetter ssmSnap := ltac:(build_setter eta_state ssmSnap).
#[global] Instance set_ssmSnapValid : FieldSetter ssmSnapValid := ltac:(build_setter eta_state ssmSnapValid).
#[global] Instance set_ssmSnapTokens : FieldSetter ssmSnapTokens := ltac:(build_setter eta_state ssmSnapTokens).
#[global] Instance set_prefixBackups : FieldSetter prefixBackups := ltac:(build_setter eta_state prefixBackups).
#[global] Instance set_prefixTick : FieldSetter prefixTick := ltac:(build_setter eta_state prefixTick).
#[global] Instance set_activeLastUsed : FieldSetter activeLastUsed := ltac:(build_setter eta_state activeLastUsed).

(** The active cache, once there is one. *)
Definition activeCache (e : State) : KvCache Row := default emptyKv (kvCache e).

(** ** Capacity and reset *)

(** The caches are allocated on first use and never again.
    [src/src/runtime/InferenceEngine.cpp:1319-1363 ensureCapacity] *)
Definition allocateCaches (e : State) : State :=
  match kvCache e with
  | Some _ => e
  | None =>
      let slots :=
        if needsSsmScratch then 1
        else match prefixSlotsEnv cfg with
             | Some v => if (1 <? v)%Z then Z.to_nat v else 1
             | None => 1
             end in
      e <| kvCache := Some emptyKv |>
        <| prefixBackups := replicate (slots - 1) (mkSlot emptyKv [] 0) |>
  end.

(** A request that does not fit is refused.
    [src/src/runtime/InferenceEngine.cpp:1316-1394 ensureCapacity] *)
Definition ensureCapacity (Tp maxNew : nat) (e : State) : result unit * State :=
  let e := allocateCaches e in
  if maxContextTokens cfg <? Tp + maxNew + 4 then
    (Throw (RuntimeError "generate: request does not fit the KV cache"), e)
  else (Ok tt, e).

(** [src/src/runtime/InferenceEngine.cpp:1151-1165 resetCache] *)
Definition resetCache (e : State) : State :=
  e <| kvCache := option_map reset (kvCache e) |>
    <| cachedTokens := [] |>
    <| ssmSnapValid := false |>.

(** ** Forward passes on the active cache *)

(** The recurrent layers start from zero when the cache is empty, the rows go
    behind the length, and the length stays.
    [src/src/runtime/arch/Qwen3_5Backend.cpp:661-663 runLinearBlock] *)
Definition forward (nBlocks : nat) (toks : list Z) (e : State) : list Hid * State :=
  let c := activeCache e in
  let s := if kvLength c =? 0 then zeroSsm else ssmState e in
  let '(rows, s, hids) := runSome nBlocks (kvPrefix c) s toks in
  (hids, e <| kvCache := Some (writeRows rows c) |> <| ssmState := s |>).

Definition commitRows (n : nat) (e : State) : State :=
  e <| kvCache := Some (commit n (activeCache e)) |>.

(** A verify forward: the hidden rows it leaves in [xBuf].
    [src/src/runtime/InferenceEngine.cpp:2752-2833 forwardVerify] *)
Definition verifyHidden (newTokens : list Z) (e : State) : result (list Hid) * State :=
  match newTokens with
  | [] => (Ok [], e)
  | _ =>
      let curLen := kvLength (activeCache e) in
      match ensureCapacity (curLen + length newTokens) 0 e with
      | (Throw x, e) => (Throw x, e)
      | (Ok _, e) => let '(hids, e) := forward blockCount newTokens e in (Ok hids, e)
      end
  end.

(** And the logits of each of them.
    [src/src/runtime/InferenceEngine.cpp:2834-2860 forwardVerify] *)
Definition forwardVerify (newTokens : list Z) (e : State) : result (list (list f32)) * State :=
  match verifyHidden newTokens e with
  | (Throw x, e) => (Throw x, e)
  | (Ok hids, e) => (Ok (map lmHead hids), e)
  end.

(** [src/src/runtime/InferenceEngine.cpp:2862-2874 commitVerified] *)
Definition commitVerified (acceptedTokens : list Z) (e : State) : result unit * State :=
  match acceptedTokens, kvCache e with
  | [], _ => (Ok tt, e)
  | _, None => (Throw (RuntimeError "commitVerified: KV cache not allocated"), e)
  | _, Some _ =>
      (Ok tt, commitRows (length acceptedTokens) e
                <| cachedTokens := cachedTokens e ++ acceptedTokens |>)
  end.

(** ** The prefix cache *)

(** The scan over the backups: the first that shares strictly more than all before.
    [src/src/runtime/InferenceEngine.cpp:1539-1548 selectPrefixSlot] *)
Fixpoint bestBackup (promptIds : list Z) (i : nat) (bs : list PrefixSlot)
    (bestLcp : nat) (bestIdx : option nat) : option nat :=
  match bs with
  | [] => bestIdx
  | b :: bs' =>
      let l := longestCommonPrefix promptIds (slotTokens b) in
      if bestLcp <? l then bestBackup promptIds (S i) bs' l (Some i)
      else bestBackup promptIds (S i) bs' bestLcp bestIdx
  end.

(** [src/src/runtime/InferenceEngine.cpp:1575-1580 selectPrefixSlot] *)
Fixpoint leastRecent (i : nat) (bs : list PrefixSlot) (lru : nat) (used : N) : nat :=
  match bs with
  | [] => lru
  | b :: bs' =>
      if (lastUsed b <? used)%N then leastRecent (S i) bs' i (lastUsed b)
      else leastRecent (S i) bs' lru used
  end.

(** Active slot and backup [i] change places; the backup keeps the active's recency.
    [src/src/runtime/InferenceEngine.cpp:1567-1570 selectPrefixSlot] *)
Definition swapIn (i : nat) (e : State) : State :=
  match prefixBackups e !! i with
  | None => e
  | Some b =>
      e <| kvCache := Some (slotCache b) |>
        <| cachedTokens := slotTokens b |>
        <| prefixBackups :=
             <[i := mkSlot (activeCache e) (cachedTokens e) (activeLastUsed e)]> (prefixBackups e) |>
  end.

(** [src/src/runtime/InferenceEngine.cpp:1531-1590 selectPrefixSlot] *)
Definition selectPrefixSlot (promptIds : list Z) (e : State) : State :=
  if (length (prefixBackups e) =? 0) || needsSsmScratch then e
  else
    let now := u64 (prefixTick e + 1) in
    let e := e <| prefixTick := now |> in
    let activeLcp := longestCommonPrefix promptIds (cachedTokens e) in
    let continuingActive :=
      (length (cachedTokens e) =? 0) || (length (cachedTokens e) <=? activeLcp + 4) in
    let e :=
      match bestBackup promptIds 0 (prefixBackups e) activeLcp None with
      | Some i => swapIn i e
      | None =>
          if negb continuingActive then
            match prefixBackups e with
            | [] => e
            | b :: bs => swapIn (leastRecent 1 bs 0 (lastUsed b)) e
            end
          else e
      end in
    e <| activeLastUsed := now |>.

(** [src/src/runtime/InferenceEngine.hpp:1024-1029 PrefixReusePlan] *)
Record PrefixReusePlan := mkPlan { lcp : nat; ssmReuse : bool; prefillCount : nat }.

(** How many leading tokens are reused, and whether from the checkpoint.
    [src/src/runtime/InferenceEngine.cpp:1840-1865 planPrefixReuse] *)
Definition reusable (promptIds : list Z) (e : State) : nat * bool :=
  let Tp := length promptIds in
  let cached := cachedTokens e in
  if needsSsmScratch then
    if gdnPrefixCkpt cfg && ssmSnapValid e && negb (length cached =? 0) then
      let m := longestCommonPrefix promptIds cached in
      if (m =? length cached) && (m =? ssmSnapTokens e) && (1 <=? m) && (m <? Tp)
      then (m, true) else (0, false)
    else (0, false)
  else
    let l := longestCommonPrefix promptIds cached in
    (if Tp <=? l then Tp - 1 else l, false).

(** [src/src/runtime/InferenceEngine.cpp:1866-1885 planPrefixReuse] *)
Definition planPrefixReuse (promptIds : list Z) (e : State) : PrefixReusePlan * State :=
  let '(l, reuse) := reusable promptIds e in
  let e := e <| kvCache := Some (truncate l (activeCache e)) |> in
  let e := if reuse then e <| ssmState := ssmSnap e |> else e in
  (mkPlan l reuse (length promptIds - l), e).

(** ** Prefill and decode *)

(** The first block after which the client gives up, counted from 1.
    [src/src/runtime/InferenceEngine.cpp:2050-2068 runPrefill] *)
Definition cancelledAt (onProgress : option (nat -> bool)) : option nat :=
  match onProgress with
  | None => None
  | Some f => find (fun b => negb (f b)) (seq 1 blockCount)
  end.

(** The hidden rows of the suffix, [None] when the client cancelled.
    [src/src/runtime/InferenceEngine.cpp:2042-2097 runPrefill] *)
Definition runPrefill (promptIds : list Z) (plan : PrefixReusePlan)
    (onProgress : option (nat -> bool)) (e : State) : option (list Hid) * State :=
  let prefillIds := take (prefillCount plan) (drop (lcp plan) promptIds) in
  match cancelledAt onProgress with
  | Some b => let '(_, e) := forward b prefillIds e in (None, resetCache e)
  | None =>
      let '(hids, e) := forward blockCount prefillIds e in
      (Some hids, commitRows (prefillCount plan) e)
  end.

Section Decode.
Variables tanhf expf : f32 -> f32.
Variable params : GenerateParams.
Variable onToken : option (list Z -> bool).
(** What the sampler draws: for its [k]-th call the order of equal logits and the
    uniform number; the seed fixes it. *)
Variable draws : nat -> list nat * f32.

(** [src/src/runtime/InferenceEngine.cpp:2128-2138 runDecode] *)
Definition isStop (id : Z) : bool :=
  Z.eqb id (tokenizerEos cfg) || existsb (Z.eqb id) (stopIds params).

Definition keepGoing (generated : list Z) : bool :=
  match onToken with None => true | Some f => f generated end.

(** [src/src/runtime/InferenceEngine.cpp:1447-1510 sampleNext] *)
Definition sampleNext (k : nat) (hidden : Hid) (recentTokens : list Z) : result Z :=
  sample tanhf expf (lmHead hidden) recentTokens
    (set_field Sampling.finalLogitSoftcap (finalLogitSoftcap cfg) (sampling params))
    (draws k).1 (draws k).2.

(** The decode loop; [fuel] is the number of turns left, [generated] is never empty.
    The answer is [hitStop].
    [src/src/runtime/InferenceEngine.cpp:2329-2532 runDecode] *)
Fixpoint decodeLoop (fuel : nat) (generated : list Z) (nextId : Z) (aborted : bool) (e : State)
    : result (list Z * bool) * State :=
  match fuel with
  | 0 => (Ok (generated, false), e)
  | S fuel' =>
      if aborted || negb (length generated <? maxNewTokens params)
         || negb (kvLength (activeCache e) <? maxContextTokens cfg) then (Ok (generated, false), e)
      else if isStop nextId then (Ok (generated, true), e)
      else
        let '(hids, e) := forward blockCount [nextId] e in
        let e := commitRows 1 e in
        match hids with
        | [] => (Throw (RuntimeError "no hidden row"), e)
        | h :: _ =>
            match sampleNext (length generated) h generated with
            | Throw x => (Throw x, e)
            | Ok nextId =>
                let generated := generated ++ [nextId] in
                decodeLoop fuel' generated nextId (negb (keepGoing generated)) e
            end
        end
  end.

(** [src/src/runtime/InferenceEngine.cpp:2154-2167 runDecode] *)
Definition runDecode (promptIds : list Z) (hids : list Hid) (e : State)
    : result (list Z * bool) * State :=
  match last hids with
  | None => (Throw (RuntimeError "no hidden row"), e)
  | Some lastRow =>
      match sampleNext 0 lastRow promptIds with
      | Throw x => (Throw x, e)
      | Ok nextId =>
          decodeLoop (maxNewTokens params) [nextId] nextId (negb (keepGoing [nextId])) e
      end
  end.

(** What the next request may reuse.
    [src/src/runtime/InferenceEngine.cpp:1752-1787 generate] *)
Definition rememberPrefix (promptIds generated : list Z) (e : State) : State :=
  let finalLen := kvLength (activeCache e) in
  let genFromCache := if length promptIds <? finalLen then finalLen - length promptIds else 0 in
  let take_ := Nat.min genFromCache (length generated) in
  let e := e <| cachedTokens := promptIds ++ take take_ generated |> in
  if needsSsmScratch && gdnPrefixCkpt cfg then
    e <| ssmSnap := ssmState e |> <| ssmSnapValid := true |>
      <| ssmSnapTokens := length (cachedTokens e) |>
  else e.

(** [src/src/runtime/InferenceEngine.hpp:108-137 GenerateStats] *)
Record GenerateStats := mkStats {
  promptTokens : nat;
  generatedTokens : nat;
  statCachedTokens : nat;
  statHitStop : bool;
}.

(** [src/src/runtime/InferenceEngine.cpp:1620-1751 generate] *)
Definition generate (promptIds : list Z) (onProgress : option (nat -> bool)) (e : State)
    : result (list Z * GenerateStats) * State :=
  match promptIds with
  | [] => (Throw (RuntimeError "InferenceEngine::generate: empty prompt"), e)
  | _ =>
      match ensureCapacity (length promptIds) (maxNewTokens params) e with
      | (Throw x, e) => (Throw x, e)
      | (Ok _, e) =>
          let e := selectPrefixSlot promptIds e in
          let '(plan, e) := planPrefixReuse promptIds e in
          let stats := fun gen stop => mkStats (length promptIds) (length gen) (lcp plan) stop in
          match runPrefill promptIds plan onProgress e with
          | (None, e) => (Ok ([], stats [] false), e)
          | (Some hids, e) =>
              match runDecode promptIds hids e with
              | (Throw x, e) => (Throw x, resetCache e)
              | (Ok (generated, stop), e) =>
                  (Ok (generated, stats generated stop), rememberPrefix promptIds generated e)
              end
          end
      end
  end.
End Decode.
End Engine.
End InferenceEngine.
