(* ===== verification/InferenceEngineProofs.v ===== *)
(** * Prefix reuse is invisible

    [BackendLaws]: what a forward pass promises.  [Good]: every cache of an engine,
    active or parked, holds the rows of the tokens remembered for it, and a valid
    checkpoint is the recurrent state after the tokens it was taken at.  Every
    operation of [InferenceEngine.v] keeps it, and under it [generate] answers what a
    decoder without any cache answers ([refGenerate]). *)

From Stdlib Require Import SpecFloat.
From S2P Require Import Prelude Sampling SpecDecode InferenceEngine.

Module EngineProofs.
Import Sampling InferenceEngine.

Section Proofs.
Context {BK : Backend}.
Variable cfg : EngineConfig.

(** A forward pass over [a ++ b] is one over [a] and one over [b] behind it; it
    yields one row and one hidden row per token; without recurrent layers there is
    no recurrent state; the vocabulary is not empty. *)
Record BackendLaws : Prop := {
  law_rows : forall rows s l, length (runBlocks rows s l).1.1 = length l;
  law_hids : forall rows s l, length (runBlocks rows s l).2 = length l;
  law_cut : forall rows s a b,
    runBlocks rows s (a ++ b) =
      let '(r1, s1, h1) := runBlocks rows s a in
      let '(r2, s2, h2) := runBlocks (rows ++ r1) s1 b in
      (r1 ++ r2, s2, h1 ++ h2);
  law_stateless : needsSsmScratch = false -> forall s s' : Ssm, s = s';
  law_head : forall h, lmHead h <> [];
}.
Hypothesis Laws : BackendLaws.

(** ** A sequence computed from nothing *)

Definition run (l : list Z) : list Row * Ssm * list Hid := runBlocks [] zeroSsm l.
Definition rowsOf (l : list Z) : list Row := (run l).1.1.
Definition ssmOf (l : list Z) : Ssm := (run l).1.2.
Definition hidsOf (l : list Z) : list Hid := (run l).2.
Definition hidAt (l : list Z) : option Hid := last (hidsOf l).

Lemma rowsOf_length l : length (rowsOf l) = length l.
Proof using Laws. apply (law_rows Laws). Qed.

Lemma hidsOf_length l : length (hidsOf l) = length l.
Proof using Laws. apply (law_hids Laws). Qed.

Lemma run_app l m :
  run (l ++ m) = let '(r, s, h) := runBlocks (rowsOf l) (ssmOf l) m in
                 (rowsOf l ++ r, s, hidsOf l ++ h).
Proof using Laws.
  unfold run. rewrite (law_cut Laws). unfold rowsOf, ssmOf, hidsOf, run.
  destruct (runBlocks [] zeroSsm l) as [[r1 s1] h1]. done.
Qed.

Lemma rowsOf_app l m : exists r, rowsOf (l ++ m) = rowsOf l ++ r.
Proof using Laws.
  unfold rowsOf at 1. rewrite run_app. destruct (runBlocks _ _ m) as [[r s] h]. by exists r.
Qed.

Lemma hidsOf_app l m : exists h, hidsOf (l ++ m) = hidsOf l ++ h.
Proof using Laws.
  unfold hidsOf at 1. rewrite run_app. destruct (runBlocks _ _ m) as [[r s] h]. by exists h.
Qed.

(** The rows of a prefix are a prefix of the rows. *)
Lemma rowsOf_take k l : rowsOf (take k l) = take k (rowsOf l).
Proof using Laws.
  destruct (rowsOf_app (take k l) (drop k l)) as [r H]. rewrite take_drop in H. rewrite H.
  destruct (decide (k <= length l)).
  - by rewrite take_app_length' by (rewrite rowsOf_length, length_take; lia).
  - apply (f_equal length) in H. rewrite length_app, !rowsOf_length, length_take in H.
    destruct r; [|simpl in H; lia]. rewrite app_nil_r, (take_ge (rowsOf _)); [done|].
    rewrite rowsOf_length, length_take. lia.
Qed.

Lemma hidsOf_take k l : hidsOf (take k l) = take k (hidsOf l).
Proof using Laws.
  destruct (hidsOf_app (take k l) (drop k l)) as [r H]. rewrite take_drop in H. rewrite H.
  destruct (decide (k <= length l)).
  - by rewrite take_app_length' by (rewrite hidsOf_length, length_take; lia).
  - apply (f_equal length) in H. rewrite length_app, !hidsOf_length, length_take in H.
    destruct r; [|simpl in H; lia]. rewrite app_nil_r, (take_ge (hidsOf _)); [done|].
    rewrite hidsOf_length, length_take. lia.
Qed.

Lemma hidAt_lookup l : hidAt l = hidsOf l !! (length l - 1).
Proof using Laws.
  unfold hidAt. rewrite last_lookup, hidsOf_length. f_equal. lia.
Qed.

Lemma hidAt_some l : l <> [] -> exists h, hidAt l = Some h.
Proof using Laws.
  intros Hl. rewrite hidAt_lookup. apply lookup_lt_is_Some. rewrite hidsOf_length.
  destruct l; [done|simpl; lia].
Qed.

Lemma hidsOf_lookup l i : i < length l -> hidsOf l !! i = hidAt (take (S i) l).
Proof using Laws.
  intros Hi. rewrite hidAt_lookup, hidsOf_take, length_take.
  replace (Nat.min (S i) (length l) - 1) with i by lia. rewrite lookup_take_lt by lia. done.
Qed.

(** ** What a cache holds *)

Definition holds (c : KvCache Row) (toks : list Z) : Prop :=
  kvLength c = length toks /\ kvPrefix c = rowsOf toks.

Lemma holds_room c toks : holds c toks -> length toks <= length (kvRows c).
Proof using Laws.
  intros [Hl Hp]. apply (f_equal length) in Hp. unfold kvPrefix in Hp.
  rewrite length_take, rowsOf_length in Hp. lia.
Qed.

Lemma holds_empty (rows : list Row) : holds (mkKv rows 0) [].
Proof using Laws.
  split; [done|]. symmetry. apply nil_length_inv. by rewrite rowsOf_length.
Qed.

Lemma holds_truncate c toks k :
  holds c toks -> k <= length toks -> holds (truncate k c) (take k toks).
Proof using Laws.
  intros [Hl Hp] Hk. unfold holds, truncate, kvPrefix in *. cbn. rewrite Hl in *.
  rewrite (proj2 (Nat.leb_le _ _)) by lia. split; [rewrite length_take; lia|].
  rewrite rowsOf_take, <- Hp, take_take. f_equal. lia.
Qed.

(** Rows of a continuation, written behind [toks] and committed in part. *)
Lemma holds_write c toks new k :
  holds c toks -> k <= length new ->
  holds (commit k (writeRows (drop (length toks) (rowsOf (toks ++ new))) c)) (toks ++ take k new).
Proof using Laws.
  intros [Hl Hp] Hk. unfold holds, commit, writeRows, kvPrefix at 1. cbn. rewrite Hl, Hp.
  split; [rewrite length_app, length_take; lia|].
  destruct (rowsOf_app toks new) as [r Hr]. rewrite Hr.
  rewrite drop_app_length' by (by rewrite rowsOf_length).
  rewrite app_assoc, <- Hr, take_app_le.
  - rewrite <- (firstn_app_2 k toks new), rowsOf_take. done.
  - rewrite rowsOf_length, length_app. lia.
Qed.

(** ** The engine's invariant *)

Definition holdsSlot (b : PrefixSlot) : Prop := holds (slotCache b) (slotTokens b).

Record Good (e : State) : Prop := {
  good_active : holds (activeCache e) (cachedTokens e);
  good_backups : Forall holdsSlot (prefixBackups e);
  good_single : needsSsmScratch = true -> prefixBackups e = [];
  good_flag : ssmSnapValid e = true -> needsSsmScratch = true /\ gdnPrefixCkpt cfg = true;
  good_snap : ssmSnapValid e = true ->
    ssmSnapTokens e <= length (cachedTokens e) /\
    ssmSnap e = ssmOf (take (ssmSnapTokens e) (cachedTokens e));
}.

(** The recurrent state is where the next forward needs it. *)
Definition synced (toks : list Z) (e : State) : Prop :=
  toks = [] \/ needsSsmScratch = false \/ ssmState e = ssmOf toks.

Lemma good_fresh s : Good (freshEngine s).
Proof using Laws. split; cbn; [apply holds_empty|constructor|done..]. Qed.

Lemma good_reset e : Good e -> Good (resetCache e).
Proof using Laws.
  intros H. split; cbn; [|apply (good_backups _ H)|apply (good_single _ H)|done..].
  unfold activeCache, resetCache. cbn. destruct (kvCache e); apply holds_empty.
Qed.

Lemma ensureCapacity_eq Tp maxNew e :
  ensureCapacity cfg Tp maxNew e =
    (if maxContextTokens cfg <? Tp + maxNew + 4
     then Throw (RuntimeError "generate: request does not fit the KV cache") else Ok tt,
     allocateCaches cfg e).
Proof. unfold ensureCapacity. by destruct (_ <? _). Qed.

Lemma caches_allocated e : is_Some (kvCache (allocateCaches cfg e)).
Proof. unfold allocateCaches. destruct (kvCache e) eqn:Hc; cbn; by eexists. Qed.

Lemma allocate_twice e : is_Some (kvCache e) -> allocateCaches cfg e = e.
Proof. intros [c Hc]. unfold allocateCaches. by rewrite Hc. Qed.

(** Allocation changes neither what is remembered nor the active length. *)
Lemma allocate_same e :
  cachedTokens (allocateCaches cfg e) = cachedTokens e /\
  kvLength (activeCache (allocateCaches cfg e)) = kvLength (activeCache e) /\
  ssmState (allocateCaches cfg e) = ssmState e /\
  ssmSnapValid (allocateCaches cfg e) = ssmSnapValid e.
Proof. unfold allocateCaches, activeCache. by destruct (kvCache e) eqn:Hc; rewrite ?Hc. Qed.

Lemma good_allocate e : Good e -> Good (allocateCaches cfg e).
Proof using Laws.
  intros H. unfold allocateCaches. destruct (kvCache e) as [c|] eqn:Hc; [done|].
  assert (Hnil : cachedTokens e = []).
  { pose proof (good_active _ H) as [Hl _]. unfold activeCache in Hl. rewrite Hc in Hl.
    symmetry in Hl. by apply nil_length_inv in Hl. }
  split; cbn; rewrite ?Hnil; [apply holds_empty| | |apply (good_flag _ H)|].
  - apply Forall_replicate, holds_empty.
  - intros Hs. by rewrite Hs.
  - intros Hv. pose proof (good_snap _ H Hv) as Hsn. by rewrite Hnil in Hsn.
Qed.

(** ** Forward *)

Lemma forward_spec e toks new :
  holds (activeCache e) toks -> synced toks e ->
  forward blockCount new e =
    (drop (length toks) (hidsOf (toks ++ new)),
     e <| kvCache := Some (writeRows (drop (length toks) (rowsOf (toks ++ new))) (activeCache e)) |>
       <| ssmState := ssmOf (toks ++ new) |>).
Proof using Laws.
  intros [Hl Hp] Hs. unfold forward. rewrite Hl, Hp.
  assert (Hr : run (toks ++ new) = let '(r, s, h) :=
      runBlocks (rowsOf toks) (if length toks =? 0 then zeroSsm else ssmState e) new in
      (rowsOf toks ++ r, s, hidsOf toks ++ h)).
  { destruct (decide (toks = [])) as [->|Hne].
    - assert (rowsOf [] = []) as -> by (apply nil_length_inv; by rewrite rowsOf_length).
      assert (hidsOf [] = []) as -> by (apply nil_length_inv; by rewrite hidsOf_length).
      cbn. unfold run. by destruct (runBlocks [] zeroSsm new) as [[??]?].
    - rewrite (proj2 (Nat.eqb_neq _ _)) by (by destruct toks). rewrite run_app.
      destruct Hs as [Hs|[Hs|Hs]]; [done| |by rewrite Hs].
      by rewrite (law_stateless Laws Hs (ssmOf toks) (ssmState e)). }
  unfold runBlocks in Hr. destruct (runSome _ _ _ new) as [[r s] h].
  assert (rowsOf (toks ++ new) = rowsOf toks ++ r) as -> by (unfold rowsOf at 1; by rewrite Hr).
  assert (hidsOf (toks ++ new) = hidsOf toks ++ h) as -> by (unfold hidsOf at 1; by rewrite Hr).
  assert (ssmOf (toks ++ new) = s) as -> by (unfold ssmOf; by rewrite Hr).
  rewrite !drop_app_length' by (by rewrite ?hidsOf_length, ?rowsOf_length). done.
Qed.

(** ** Choosing what to reuse *)

Lemma lcp_spec a b :
  longestCommonPrefix a b <= length a /\ longestCommonPrefix a b <= length b /\
  take (longestCommonPrefix a b) a = take (longestCommonPrefix a b) b.
Proof.
  revert b. induction a as [|x a IH]; intros [|y b]; cbn; [split; [lia|]; split; [lia|done]..|].
  destruct (Z.eqb_spec x y) as [->|]; cbn; [|split; [lia|]; split; [lia|done]].
  destruct (IH b) as (H1 & H2 & H3). rewrite H3. split; [lia|]. split; [lia|done].
Qed.

Lemma good_swap i e : needsSsmScratch = false -> Good e ->
  Good (swapIn i e) /\ (is_Some (kvCache e) -> is_Some (kvCache (swapIn i e))).
Proof using Laws.
  intros Hs H. unfold swapIn. destruct (prefixBackups e !! i) as [b|] eqn:Hb; [|done].
  assert (Hbk : Forall holdsSlot (<[i:=mkSlot (activeCache e) (cachedTokens e) (activeLastUsed e)]>
    (prefixBackups e))) by (apply Forall_insert; [apply H|apply (good_active _ H)]).
  pose proof (Forall_lookup_1 _ _ _ _ (good_backups _ H) Hb) as Hh.
  split; [split; cbn|].
  - exact Hh.
  - exact Hbk.
  - congruence.
  - apply (good_flag _ H).
  - intros Hv. destruct (good_flag _ H Hv). congruence.
  - intros _. cbn. by eexists.
Qed.

Lemma good_select promptIds e : Good e ->
  Good (selectPrefixSlot promptIds e) /\
  (is_Some (kvCache e) -> is_Some (kvCache (selectPrefixSlot promptIds e))).
Proof using Laws.
  intros H. unfold selectPrefixSlot.
  destruct (_ || needsSsmScratch) eqn:Hc; [done|]. apply orb_false_elim in Hc as [_ Hs].
  set (e1 := e <| prefixTick := _ |>).
  assert (H1 : Good e1) by (split; cbn; apply H).
  assert (Hset : forall e2 t, Good e2 -> Good (e2 <| activeLastUsed := t |>))
    by (intros e2 t H2; split; cbn; apply H2).
  destruct (bestBackup _ _ _ _ _) as [i|].
  { destruct (good_swap i e1 Hs H1) as [G1 G2]. split; [by apply Hset|exact G2]. }
  destruct (negb _); [|split; [by apply Hset|done]].
  destruct (prefixBackups e1) as [|b bs]; [split; [by apply Hset|done]|].
  destruct (good_swap (leastRecent 1 bs 0 (lastUsed b)) e1 Hs H1) as [G1 G2].
  split; [by apply Hset|exact G2].
Qed.

(** An engine in the middle of a request: the active cache holds [toks], which need
    not be what is remembered. *)
Record Working (e : State) (toks : list Z) : Prop := {
  work_active : holds (activeCache e) toks;
  work_synced : synced toks e;
  work_backups : Forall holdsSlot (prefixBackups e);
  work_single : needsSsmScratch = true -> prefixBackups e = [];
  work_flag : ssmSnapValid e = true -> needsSsmScratch = true /\ gdnPrefixCkpt cfg = true;
}.

Lemma reusable_spec promptIds e l b : Good e -> promptIds <> [] ->
  reusable cfg promptIds e = (l, b) ->
  l < length promptIds /\ l <= length (cachedTokens e) /\
  take l (cachedTokens e) = take l promptIds /\
  (l = 0 \/ needsSsmScratch = false \/ b = true /\ ssmSnap e = ssmOf (take l promptIds)).
Proof using Laws.
  intros H Hp. assert (Hpl : 0 < length promptIds) by (destruct promptIds; [done|simpl; lia]).
  destruct (lcp_spec promptIds (cachedTokens e)) as (L1 & L2 & L3).
  assert (Hz : forall b', (0, b') = (l, b) -> l < length promptIds /\ l <= length (cachedTokens e) /\
    take l (cachedTokens e) = take l promptIds /\
    (l = 0 \/ needsSsmScratch = false \/ b = true /\ ssmSnap e = ssmOf (take l promptIds))).
  { intros b' [= <- _]. split; [done|]. split; [lia|]. split; [done|]. by left. }
  unfold reusable. destruct needsSsmScratch.
  - destruct (gdnPrefixCkpt cfg && ssmSnapValid e && _) eqn:Hc; [|apply Hz].
    destruct ((longestCommonPrefix _ _ =? _) && _ && _ && _) eqn:Hm; [|apply Hz]. bool_to_prop. intros [= <- <-].
    destruct (good_snap _ H) as [S1 S2]; [done|]. split; [lia|]. split; [lia|]. split; [done|].
    right. right. split; [done|]. rewrite S2, L3. by replace (ssmSnapTokens e) with
      (longestCommonPrefix promptIds (cachedTokens e)) by done.
  - intros [= <- _]. destruct (Nat.leb_spec (length promptIds) (longestCommonPrefix promptIds (cachedTokens e))).
    + split; [lia|]. split; [lia|]. split; [|right; by left].
      apply (f_equal (take (length promptIds - 1))) in L3. rewrite !take_take in L3.
      by rewrite Nat.min_l in L3 by lia.
    + split; [lia|]. split; [lia|]. split; [done|]. right; by left.
Qed.

Lemma plan_spec promptIds e : Good e -> promptIds <> [] -> exists plan e',
  planPrefixReuse cfg promptIds e = (plan, e') /\ lcp plan < length promptIds /\
  prefillCount plan = length promptIds - lcp plan /\ Working e' (take (lcp plan) promptIds).
Proof using Laws.
  intros H Hp. unfold planPrefixReuse. destruct (reusable cfg promptIds e) as [l b] eqn:Hr.
  destruct (reusable_spec _ _ _ _ H Hp Hr) as (H1 & H2 & H3 & H4).
  eexists _, _. split; [done|]. cbn. split; [done|]. split; [done|].
  pose proof (holds_truncate _ _ l (good_active _ H) H2) as Ht. rewrite H3 in Ht.
  split; [| |by destruct b; apply H..].
  - by destruct b.
  - unfold synced. destruct H4 as [->|[H4|[-> H4]]]; [by left|right; by left|by right; right].
Qed.

(** ** Forward, commit, remember *)

Lemma working_step e toks new k :
  Working e toks -> k = length new ->
  let e1 := commitRows k (forward blockCount new e).2 in
  (forward blockCount new e).1 = drop (length toks) (hidsOf (toks ++ new)) /\
  Working e1 (toks ++ new) /\ cachedTokens e1 = cachedTokens e.
Proof using Laws.
  intros H ->. rewrite (forward_spec e toks new) by apply H. cbn. split; [done|]. split; [|done].
  split; [|right; by right|apply H..].
  pose proof (holds_write _ _ new (length new) (work_active _ _ H) ltac:(done)) as Hw.
  by rewrite take_ge in Hw.
Qed.

Lemma good_working e : Good e -> synced (cachedTokens e) e -> Working e (cachedTokens e).
Proof using Laws. intros H Hs. split; [apply H|done|apply H..]. Qed.

Lemma good_reset_working e toks : Working e toks -> Good (resetCache e).
Proof using Laws.
  intros H. split; cbn; [|apply (work_backups _ _ H)|apply (work_single _ _ H)|done..].
  unfold activeCache, resetCache. cbn. destruct (kvCache e); apply holds_empty.
Qed.

(** A cancelled prefill leaves anything behind the length and is wiped. *)
Lemma good_prefill_cancelled n new e toks : Working e toks -> Good (resetCache (forward n new e).2).
Proof using Laws.
  intros H. unfold forward. destruct (runSome _ _ _ _) as [[r s] h]. cbn.
  split; cbn; [|apply (work_backups _ _ H)|apply (work_single _ _ H)|done..]. apply holds_empty.
Qed.

Lemma good_remember promptIds generated e toks :
  promptIds <> [] -> Working e (promptIds ++ take (length generated - 1) generated) ->
  toks = promptIds ++ take (length generated - 1) generated ->
  Good (rememberPrefix cfg promptIds generated e) /\
  cachedTokens (rememberPrefix cfg promptIds generated e) = toks /\
  Working (rememberPrefix cfg promptIds generated e) toks.
Proof using Laws.
  intros Hp H Ht. rewrite <- Ht in H. unfold rememberPrefix.
  destruct (work_active _ _ H) as [Hl _].
  assert (Hg : promptIds ++ take (Nat.min (if length promptIds <? kvLength (activeCache e)
      then kvLength (activeCache e) - length promptIds else 0) (length generated)) generated = toks).
  { rewrite Hl, Ht, length_app, length_take. f_equal.
    destruct (Nat.ltb_spec (length promptIds) (length promptIds + Nat.min (length generated - 1) (length generated)));
      f_equal; lia. }
  rewrite Hg. destruct (needsSsmScratch && gdnPrefixCkpt cfg) eqn:Hc.
  - apply andb_true_iff in Hc as [Hc1 Hc2].
    split; [|split; [done|]]; split; cbn; try apply H; try done.
    intros _. split; [done|]. rewrite take_ge by done.
    destruct (work_synced _ _ H) as [Hn|[Hn|Hn]]; [|congruence|done].
    rewrite Hn in Ht. symmetry in Ht. by apply app_nil in Ht as [? _].
  - assert (Hv : ssmSnapValid e = false).
    { destruct (ssmSnapValid e) eqn:Hv; [|done]. destruct (work_flag _ _ H Hv) as [V1 V2].
      by rewrite V1, V2 in Hc. }
    split; [|split; [done|]]; split; cbn; try apply H; rewrite ?Hv; done.
Qed.

(** ** The reference decoder: every row is computed from the whole sequence *)

Section Generate.
Variables tanhf expf : f32 -> f32.
Variable params : GenerateParams.
Variable onToken : option (list Z -> bool).
Variable draws : nat -> list nat * f32.
Variable promptIds : list Z.
Hypothesis Hprompt : promptIds <> [].

(** The [k]-th token, chosen from the row after [l]. *)
Definition choose (k : nat) (l recent : list Z) : result Z :=
  match hidAt l with
  | None => Throw (RuntimeError "no hidden row")
  | Some h => sampleNext cfg tanhf expf params draws k h recent
  end.

Fixpoint refLoop (fuel : nat) (gen : list Z) : result (list Z * bool) :=
  match fuel with
  | 0 => Ok (gen, false)
  | S fuel' =>
      if negb (keepGoing onToken gen) || negb (length gen <? maxNewTokens params) then Ok (gen, false)
      else if isStop cfg params (List.last gen 0%Z) then Ok (gen, true)
      else match choose (length gen) (promptIds ++ gen) gen with
           | Throw x => Throw x
           | Ok t => refLoop fuel' (gen ++ [t])
           end
  end.

Definition refGenerate : result (list Z * bool) :=
  match choose 0 promptIds promptIds with
  | Throw x => Throw x
  | Ok t => refLoop (maxNewTokens params) [t]
  end.

Lemma hids_one l x : exists h, drop (length l) (hidsOf (l ++ [x])) = [h] /\ hidAt (l ++ [x]) = Some h.
Proof using Laws.
  destruct (hidsOf_app l [x]) as [h Hh]. pose proof (hidsOf_length (l ++ [x])) as Hl.
  unfold hidAt. rewrite Hh in *. rewrite drop_app_length' by (by rewrite hidsOf_length).
  rewrite !length_app, hidsOf_length in Hl. cbn in Hl.
  destruct h as [|h [|h' hs]]; cbn in Hl; [lia| |lia]. exists h. by rewrite last_snoc.
Qed.

Hypothesis Hfits : length promptIds + maxNewTokens params + 4 <= maxContextTokens cfg.

Lemma decodeLoop_spec fuel : forall gen context nextId e,
  context ++ [nextId] = promptIds ++ gen -> Working e context -> List.last gen 0%Z = nextId ->
  gen <> [] ->
  let '(r, e') := decodeLoop cfg tanhf expf params onToken draws fuel gen nextId
                    (negb (keepGoing onToken gen)) e in
  r = refLoop fuel gen /\ exists toks, Working e' toks /\
    match r with
    | Throw _ => True
    | Ok (gen', _) => gen' <> [] /\ toks = promptIds ++ take (length gen' - 1) gen'
    end.
Proof using Laws Hfits.
  induction fuel as [|fuel IH]; intros gen context nextId e Hctx Hw Hlast Hne; cbn [decodeLoop refLoop].
  all: assert (Hpre : context = promptIds ++ take (length gen - 1) gen) by
    (destruct (exists_last Hne) as (g & x & ->); rewrite last_last in Hlast;
     rewrite app_assoc in Hctx; apply app_inj_tail in Hctx as [-> _];
     rewrite length_app, Nat.add_sub; by rewrite take_app_length).
  { split; [done|]. by exists context. }
  destruct (negb (keepGoing onToken gen)) eqn:Hk; cbn [orb]; [split; [done|]; by exists context|].
  destruct (Nat.ltb_spec (length gen) (maxNewTokens params)) as [Hlt|Hge]; cbn [negb orb];
    [|split; [done|]; by exists context].
  destruct (work_active _ _ Hw) as [Hl _]. pose proof (f_equal length Hctx) as Hlen.
  rewrite !length_app in Hlen. cbn in Hlen.
  rewrite Hl, (proj2 (Nat.ltb_lt _ _)) by lia. cbn [negb]. rewrite Hlast.
  destruct (isStop cfg params nextId); [split; [done|]; by exists context|].
  destruct (working_step e context [nextId] 1 Hw eq_refl) as (F1 & F2 & _).
  destruct (hids_one context nextId) as (h & Hh1 & Hh2).
  destruct (forward blockCount [nextId] e) as [hids e1]. cbn [fst snd] in F1, F2.
  rewrite F1, Hh1. unfold choose. rewrite <- Hctx, Hh2.
  destruct (sampleNext _ _ _ _ _ _ _ _) as [t|x]; [|split; [done|]; by eexists].
  apply (IH (gen ++ [t]) (context ++ [nextId]) t); [by rewrite Hctx, app_assoc|done|apply last_last|].
  intros Hz. by apply app_nil in Hz as [_ ?].
Qed.
End Generate.

(** What an answer says, without how much was reused. *)
Definition answer (r : result (list Z * GenerateStats)) : result (list Z * bool) :=
  match r with Throw x => Throw x | Ok (gen, st) => Ok (gen, statHitStop st) end.

(** What [generate] answers, whatever the engine remembers. *)
Definition expected tanhf expf params onToken draws promptIds onProgress : result (list Z * bool) :=
  if maxContextTokens cfg <? length promptIds + maxNewTokens params + 4 then
    Throw (RuntimeError "generate: request does not fit the KV cache")
  else match cancelledAt onProgress with
       | Some _ => Ok ([], false)
       | None => refGenerate tanhf expf params onToken draws promptIds
       end.

Lemma prefill_hids promptIds l h :
  l < length promptIds -> h = drop l (hidsOf promptIds) -> last h = hidAt promptIds.
Proof using Laws.
  intros Hl ->. unfold hidAt. rewrite !last_lookup, lookup_drop, length_drop, hidsOf_length.
  f_equal. lia.
Qed.

Lemma generate_spec tanhf expf params onToken draws promptIds onProgress e :
  Good e -> promptIds <> [] ->
  let '(r, e') := generate cfg tanhf expf params onToken draws promptIds onProgress e in
  Good e' /\ answer r = expected tanhf expf params onToken draws promptIds onProgress /\
  match r with
  | Throw _ => True
  | Ok (gen, st) => statCachedTokens st < length promptIds /\
      promptTokens st = length promptIds /\ generatedTokens st = length gen /\
      (cancelledAt onProgress = None ->
        Working e' (cachedTokens e') /\
        cachedTokens e' = promptIds ++ take (length gen - 1) gen)
  end.
Proof using Laws.
  intros H Hp. unfold generate, expected. destruct promptIds as [|p0 ps] eqn:Hps; [done|].
  rewrite <- Hps in *.
  pose proof (good_allocate e H) as C1. rewrite ensureCapacity_eq. set (e1 := allocateCaches cfg e) in *.
  destruct (Nat.ltb_spec (maxContextTokens cfg) (length promptIds + maxNewTokens params + 4)) as [|Hfit]; [done|].
  destruct (good_select promptIds e1 C1) as [S1 _].
  destruct (plan_spec promptIds _ S1 Hp) as (plan & e2 & -> & P1 & P2 & P3).
  unfold runPrefill. rewrite P2, (take_ge (drop _ _)) by (by rewrite length_drop).
  destruct (cancelledAt onProgress) as [b|] eqn:Hc.
  { pose proof (good_prefill_cancelled b (drop (lcp plan) promptIds) e2 _ P3) as Hg.
    destruct (forward b _ e2) as [hids e3]. split; [exact Hg|]. split; [done|]. cbn. done. }
  destruct (working_step e2 _ (drop (lcp plan) promptIds) (length promptIds - lcp plan) P3
    ltac:(by rewrite length_drop)) as (F1 & F2 & _).
  destruct (forward blockCount _ e2) as [hids e3]. cbn [fst snd] in F1, F2.
  rewrite take_drop in F1, F2. rewrite length_take, Nat.min_l in F1 by lia.
  unfold runDecode, refGenerate, choose. rewrite (prefill_hids promptIds _ _ P1 F1).
  destruct (hidAt_some promptIds Hp) as [h ->].
  destruct (sampleNext _ _ _ _ _ 0 h promptIds) as [t|x].
  2: { split; [by eapply good_reset_working|]. done. }
  pose proof (decodeLoop_spec tanhf expf params onToken draws promptIds ltac:(lia)
    (maxNewTokens params) [t] promptIds t _ eq_refl F2 eq_refl ltac:(done)) as HD.
  destruct (decodeLoop _ _ _ _ _ _ _ _ _ _) as [r e4]. destruct HD as (-> & toks & W & Hr).
  destruct (refLoop _ _ _ _ _ _ _ [t]) as [[gen stop]|x].
  - destruct Hr as [_ Ht]. rewrite Ht in W.
    destruct (good_remember promptIds gen e4 toks Hp W Ht) as (G1 & G2 & G3).
    split; [exact G1|]. split; [done|]. cbn [statCachedTokens promptTokens generatedTokens].
    split; [exact P1|]. split; [done|]. split; [done|]. intros _. rewrite G2. by split.
  - split; [by eapply good_reset_working|]. done.
Qed.

(** ** A service of many requests *)

(** A request with everything the outside decides about it. *)
Record Request := mkRequest {
  reqPrompt : list Z;
  reqParams : GenerateParams;
  reqOnToken : option (list Z -> bool);
  reqOnProgress : option (nat -> bool);
  reqDraws : nat -> list nat * f32;
}.

(** The requests one after the other on one engine. *)
Fixpoint serve tanhf expf (reqs : list Request) (e : State) : list (result (list Z * bool)) :=
  match reqs with
  | [] => []
  | q :: reqs' =>
      let '(r, e) := generate cfg tanhf expf (reqParams q) (reqOnToken q) (reqDraws q)
                       (reqPrompt q) (reqOnProgress q) e in
      answer r :: serve tanhf expf reqs' e
  end.

(** The answer to a request that the engine has no memory for. *)
Definition alone tanhf expf (q : Request) : result (list Z * bool) :=
  match reqPrompt q with
  | [] => Throw (RuntimeError "InferenceEngine::generate: empty prompt")
  | _ => expected tanhf expf (reqParams q) (reqOnToken q) (reqDraws q) (reqPrompt q) (reqOnProgress q)
  end.

Lemma serve_good tanhf expf reqs : forall e, Good e ->
  serve tanhf expf reqs e = map (alone tanhf expf) reqs.
Proof using Laws.
  induction reqs as [|q reqs IH]; intros e He; [done|]. cbn [serve map].
  unfold alone at 1. destruct (decide (reqPrompt q = [])) as [Hq|Hq].
  - unfold generate. rewrite Hq. cbn. f_equal. by apply IH.
  - pose proof (generate_spec tanhf expf (reqParams q) (reqOnToken q) (reqDraws q) (reqPrompt q)
      (reqOnProgress q) e He Hq) as HG.
    destruct (generate _ _ _ _ _ _ _ _ e) as [r e']. destruct HG as (G1 & -> & _).
    destruct (reqPrompt q); [done|]. f_equal. by apply IH.
Qed.
End Proofs.

(** C3: Prefix reuse is invisible: on an engine that serves any requests one after
    the other - with one or several cached conversations, with or without recurrent
    state and its checkpoint, with clients that cancel prefills or streams, with
    requests that do not fit - every answer (tokens, stop flag, exception) is the one
    of a decoder without any cache, which computes every row from the whole
    sequence.  Hypothesis: the forward passes keep [BackendLaws]. *)
Theorem prefix_reuse_invisible (BK : Backend) cfg tanhf expf reqs s :
  BackendLaws -> serve cfg tanhf expf reqs (freshEngine s) = map (alone cfg tanhf expf) reqs.
Proof. intros Laws. apply serve_good; [exact Laws|]. by apply good_fresh. Qed.

(** ** Concrete models *)

Section Stepwise.
Context {R S H : Type}.
Variable step : list R -> S -> Z -> R * S * H.

(** Token by token. *)
Fixpoint stepAll (rows : list R) (s : S) (l : list Z) : list R * S * list H :=
  match l with
  | [] => ([], s, [])
  | t :: l' =>
      let '(r, s, h) := step rows s t in
      let '(rs, s, hs) := stepAll (rows ++ [r]) s l' in
      (r :: rs, s, h :: hs)
  end.

Variable head : H -> list f32.

Definition stepBackend (recurrent : bool) (z : S) : Backend := {|
  Row := R; Ssm := S; Hid := H;
  needsSsmScratch := recurrent;
  zeroSsm := z;
  blockCount := 2;
  runSome _ := stepAll;
  lmHead := head;
|}.

Lemma stepAll_length l : forall rows s,
  length (stepAll rows s l).1.1 = length l /\ length (stepAll rows s l).2 = length l.
Proof.
  induction l as [|t l IH]; intros rows s; [done|]. cbn.
  destruct (step rows s t) as [[r s1] h]. specialize (IH (rows ++ [r]) s1).
  destruct (stepAll _ s1 l) as [[rs s2] hs]. cbn in *. lia.
Qed.

Lemma stepAll_cut a : forall rows s b,
  stepAll rows s (a ++ b) =
    let '(r1, s1, h1) := stepAll rows s a in
    let '(r2, s2, h2) := stepAll (rows ++ r1) s1 b in
    (r1 ++ r2, s2, h1 ++ h2).
Proof.
  induction a as [|t a IH]; intros rows s b; cbn.
  { rewrite app_nil_r. by destruct (stepAll rows s b) as [[??]?]. }
  destruct (step rows s t) as [[r s1] h]. rewrite IH.
  destruct (stepAll (rows ++ [r]) s1 a) as [[r1 s2] h1]. rewrite <- app_assoc. cbn.
  by destruct (stepAll (rows ++ r :: r1) s2 b) as [[??]?].
Qed.

Lemma stepBackend_laws recurrent z :
  (recurrent = false -> forall s s' : S, s = s') -> (forall h, head h <> []) ->
  BackendLaws (BK := stepBackend recurrent z).
Proof.
  intros Hs Hh. split; [intros; apply stepAll_length..| |exact Hs|exact Hh].
  intros. apply stepAll_cut.
Qed.
End Stepwise.

(** Seven tokens; the row after a sequence depends on all of it. *)
Definition demoHead (h : Z) : list f32 :=
  map (fun i => f32_of_Z (if Z.eqb i (h mod 7) then 9 else i)) [0; 1; 2; 3; 4; 5; 6]%Z.

(** Attention only: a row is its token, the hidden row weighs all rows. *)
Definition demoAttention : Backend :=
  stepBackend (fun rows (_ : unit) t =>
    (t, tt, foldl (fun acc r => 3 * acc + r + 1)%Z 0%Z (rows ++ [t]))) demoHead false tt.

(** A recurrent layer below: its state is mixed into row and hidden row. *)
Definition demoRecurrent : Backend :=
  stepBackend (fun rows s t => let s := ((5 * s + t + 1) mod 101)%Z in
    (s, s, foldl (fun acc r => 3 * acc + r + 1)%Z 0%Z (rows ++ [s]))) demoHead true 0%Z.

Lemma demoHead_nonempty h : demoHead h <> [].
Proof. done. Qed.

Lemma demoAttention_laws : BackendLaws (BK := demoAttention).
Proof. apply stepBackend_laws; [by intros _ [] []|apply demoHead_nonempty]. Qed.

Lemma demoRecurrent_laws : BackendLaws (BK := demoRecurrent).
Proof. apply stepBackend_laws; [done|apply demoHead_nonempty]. Qed.

Definition noDraws : nat -> list nat * f32 := fun _ => ([], f0).
Definition greedyRequest (prompt : list Z) (n : nat) : Request :=
  mkRequest prompt (mkGen n defaultParams []) None None noDraws.
Definition demoCfg (slots : option Z) (ckpt : bool) : EngineConfig :=
  mkEngineConfig 32 slots ckpt 6 f0.

(** Two conversations take turns, a prefill is cancelled, a request does not fit. *)
Definition demoRequests : list Request :=
  [greedyRequest [1; 2; 3] 4; greedyRequest [4; 4; 1; 2; 5; 5; 5] 3;
   mkRequest [1; 2; 3; 4] (mkGen 4 defaultParams []) None (Some (fun b => Nat.ltb b 2)) noDraws;
   greedyRequest [1; 2; 3] 40; greedyRequest [1; 2; 3] 4; greedyRequest [] 4]%Z.

Lemma prefix_reuse_invisible_witness :
  serve (BK := demoAttention) (demoCfg (Some 3%Z) false) (fun x => x) (fun x => x) demoRequests
    (freshEngine (BK := demoAttention) tt) =
  map (alone (BK := demoAttention) (demoCfg (Some 3%Z) false) (fun x => x) (fun x => x)) demoRequests /\
  serve (BK := demoRecurrent) (demoCfg None true) (fun x => x) (fun x => x) demoRequests
    (freshEngine (BK := demoRecurrent) 77%Z) =
  map (alone (BK := demoRecurrent) (demoCfg None true) (fun x => x) (fun x => x)) demoRequests.
Proof.
  split.
  - exact (prefix_reuse_invisible demoAttention (demoCfg (Some 3%Z) false) (fun x => x) (fun x => x)
      demoRequests tt demoAttention_laws).
  - exact (prefix_reuse_invisible demoRecurrent (demoCfg None true) (fun x => x) (fun x => x)
      demoRequests 77%Z demoRecurrent_laws).
Defined.

(** A turn that continues the conversation reuses all of it, also across a
    checkpoint of the recurrent state, and a parked conversation comes back. *)
Example turns_reuse :
  let gen := fun (BK : Backend) c prompt e =>
    generate (BK := BK) c (fun x => x) (fun x => x) (mkGen 3 defaultParams []) None noDraws prompt None e in
  let reused := fun (r : result (list Z * GenerateStats)) =>
    match r with Ok (_, st) => Some (statCachedTokens st) | Throw _ => None end in
  (let c := demoCfg None true in
   let '(_, e) := gen demoRecurrent c [1; 1; 1]%Z (freshEngine (BK := demoRecurrent) 7%Z) in
   let next := cachedTokens (BK := demoRecurrent) e ++ [4]%Z in
   (length next, reused (fst (gen demoRecurrent c next e)))) = (6, Some 5) /\
  (let c := demoCfg (Some 2%Z) false in
   let '(_, e) := gen demoAttention c [1; 2; 3; 1; 1]%Z (freshEngine (BK := demoAttention) tt) in
   let a := cachedTokens (BK := demoAttention) e in
   let '(r, e) := gen demoAttention c [5; 5; 5; 5]%Z e in
   (reused r, reused (fst (gen demoAttention c (a ++ [2]%Z) e)), length a)) = (Some 0, Some 7, 7).
Proof. split; vm_compute; reflexivity. Qed.
End EngineProofs.
