(* ===== verification/SpeculativeDecoder.v ===== *)
(** * Speculative decoding

    Models [src/src/runtime/spec/SpeculativeDecoder.{hpp,cpp}] - draft, verify, accept,
    recover, emit - on the engine of [InferenceEngine.v], whose [generate],
    [forwardVerify] and [commitVerified] it calls, and the drafter that runs a smaller
    model on an engine of its own ([ModelDrafter.cpp], [SpeculativeSampler.cpp]).

    The forward passes stay behind the class [Backend], the drafter behind [Drafter].
    [onToken] is a function of the tokens generated so far, its answer the client's
    wish to go on.  Wall-clock statistics and log lines are left out. *)

From Stdlib Require Import SpecFloat.
From S2P Require Import Prelude Sampling SpecDecode InferenceEngine.

Module SpeculativeDecoder.
Import Sampling InferenceEngine.

(** [src/src/runtime/spec/SpeculativeDecoder.hpp:51-60 SpeculativeDecoder::Config] *)
Record Config := mkConfig { enabled : bool; draftN : nat }.

(** ** A drafter with an engine of its own *)

Section ModelDrafter.
Context {BK : Backend}.
Variable cfg : EngineConfig.
Variables tanhf expf : f32 -> f32.
Variable draws : nat -> list nat * f32.

(** [src/src/compute/SpeculativeSampler.cpp:10-35 SpeculativeSampler::speculate] *)
Definition speculate (promptSoFar : list Z) (N : nat) (sampling : SamplingParams) (draft : State)
    : result (list Z) * State :=
  if N =? 0 then (Ok [], draft)
  else
    match generate cfg tanhf expf (mkGen N sampling []) None draws promptSoFar None draft with
    | (Throw x, draft) => (Throw x, draft)
    | (Ok (drafted, _), draft) => (Ok drafted, draft)
    end.

(** [src/src/runtime/spec/ModelDrafter.cpp:19-26 ModelDrafter::warmPrefix] *)
Definition primeDraft (promptPlusFirstToken : list Z) (draft : State) : result unit * State :=
  match generate cfg tanhf expf (mkGen 1 defaultParams []) None draws promptPlusFirstToken None draft with
  | (Throw x, draft) => (Throw x, draft)
  | (Ok _, draft) => (Ok tt, draft)
  end.

(** [src/src/runtime/spec/ModelDrafter.cpp:10-17 ModelDrafter::propose] *)
Definition modelDrafter : Drafter := {|
  DState := State;
  propose := speculate;
  warmPrefix := primeDraft;
|}.
End ModelDrafter.

(** ** Accepting drafts *)

Section Decode.
Context {BK : Backend} {DR : Drafter}.
Variable cfg : EngineConfig.
Variables tanhf expf : f32 -> f32.

(** [src/src/runtime/spec/SpeculativeDecoder.cpp:29-84 applyPenaltiesInPlace] *)
Definition applyPenaltiesInPlace (logits : list f32) (recentTokens : list Z) (p : SamplingParams)
    : list f32 :=
  if N.eqb (penaltyWindow p) 0 then logits
  else if feq (repetitionPenalty p) f1 && feq (frequencyPenalty p) f0 && feq (presencePenalty p) f0
  then logits
  else applyPenalties recentTokens p logits.

(** [src/src/runtime/spec/SpeculativeDecoder.cpp:86-99 argmaxOf] *)
Definition argmaxOf (v : list f32) : result Z :=
  match v with
  | [] => Throw (RuntimeError "SpeculativeDecoder: empty logits row")
  | x :: v' => Ok (Z.of_nat (argmaxFrom v' 1 0 x))
  end.

(** [src/src/runtime/spec/SpeculativeDecoder.cpp:106-114 applySoftcapInPlace] *)
Definition applySoftcapInPlace (logits : list f32) (cap : f32) : list f32 :=
  if SFleb cap f0 then logits else applyFinalLogitSoftcap tanhf cap logits.

(** A row as the accept check and the recovery pick see it.
    [src/src/runtime/spec/SpeculativeDecoder.cpp:354-357 runSpeculative] *)
Definition checked (p : SamplingParams) (history : list Z) (row : list f32) : list f32 :=
  applyPenaltiesInPlace (applySoftcapInPlace row (finalLogitSoftcap cfg)) history p.

(** The accept loop: how many drafts were accepted, the rows with what it wrote
    into them, the history behind the accepted ones.
    [src/src/runtime/spec/SpeculativeDecoder.cpp:352-364 runSpeculative] *)
Fixpoint acceptLoop (p : SamplingParams) (history : list Z) (rows : list (list f32))
    (drafts : list Z) : result (nat * list (list f32) * list Z) :=
  match drafts, rows with
  | d :: drafts', row :: rows' =>
      let row := checked p history row in
      match argmaxOf row with
      | Throw e => Throw e
      | Ok targetArg =>
          if Z.eqb targetArg d then
            match acceptLoop p (history ++ [d]) rows' drafts' with
            | Throw e => Throw e
            | Ok (accepted, rows', history) => Ok (S accepted, row :: rows', history)
            end
          else Ok (0, row :: rows', history)
      end
  | _, _ => Ok (0, rows, history)
  end.

Section Run.
Variable scfg : Config.
Variable params : GenerateParams.
Variable onToken : option (list Z -> bool).
Variable draws : nat -> list nat * f32.

(** The stop ids and the end of sequence, as in the engine.
    [src/src/runtime/spec/SpeculativeDecoder.cpp:191-202 runSpeculative] *)
Definition isStop (id : Z) : bool :=
  if Z.eqb id (tokenizerEos cfg) then true else existsb (Z.eqb id) (stopIds params).

Definition wantsMore (generated : list Z) : bool :=
  match onToken with None => true | Some f => f generated end.

(** The accepted tokens are handed out one by one; the rest of the round is
    dropped at a stop token or when the client gives up.
    [src/src/runtime/spec/SpeculativeDecoder.cpp:399-409 runSpeculative] *)
Fixpoint emitLoop (accepted : list Z) (generated : list Z) : list Z * bool * bool :=
  match accepted with
  | [] => (generated, false, false)
  | id :: accepted' =>
      let generated := generated ++ [id] in
      let hitStop := isStop id in
      let aborted := negb (wantsMore generated) in
      if aborted || hitStop then (generated, hitStop, aborted)
      else emitLoop accepted' generated
  end.

(** The variables of the round loop.  [context] is what the target has committed.
    [src/src/runtime/spec/SpeculativeDecoder.cpp:238-283 runSpeculative] *)
Record Round := mkRound {
  generated : list Z;
  context : list Z;
  tLast : Z;
  hitStop : bool;
  aborted : bool;
  rounds : nat;
  totalDraft : nat;
  totalAcc : nat;
}.

(** One round.
    [src/src/runtime/spec/SpeculativeDecoder.cpp:285-434 runSpeculative] *)
Definition specRound (s : Round) (e : State) (ds : DState) : result Round * State * DState :=
  let budget := maxNewTokens params - length (generated s) in
  let roundN := Nat.min (draftN scfg) (budget - 1) in
  match (if 0 <? roundN then propose (context s ++ [tLast s]) roundN (sampling params) ds
         else (Ok [], ds)) with
  | (Throw x, ds) => (Throw x, e, ds)
  | (Ok drafts, ds) =>
      match forwardVerify cfg (tLast s :: drafts) e with
      | (Throw x, e) => (Throw x, e, ds)
      | (Ok rows, e) =>
          match acceptLoop (sampling params) (generated s) rows drafts with
          | Throw x => (Throw x, e, ds)
          | Ok (accepted, rows, checkHistory) =>
              match argmaxOf (checked (sampling params) checkHistory (nth accepted rows [])) with
              | Throw x => (Throw x, e, ds)
              | Ok recoveryTok =>
                  match commitVerified (tLast s :: take accepted drafts) e with
                  | (Throw x, e) => (Throw x, e, ds)
                  | (Ok _, e) =>
                      let '(gen, stop, ab) := emitLoop (take accepted drafts) (generated s) in
                      let ctx := context s ++ [tLast s] ++ drop (length (generated s)) gen in
                      let r := mkRound gen ctx (List.last gen 0%Z) stop ab
                                 (S (rounds s)) (totalDraft s + length drafts) (totalAcc s + accepted) in
                      if ab || stop then (Ok r, e, ds)
                      else
                        let gen := gen ++ [recoveryTok] in
                        (Ok (mkRound gen ctx recoveryTok (isStop recoveryTok)
                               (negb (wantsMore gen))
                               (rounds r) (totalDraft r) (totalAcc r)), e, ds)
                  end
              end
          end
      end
  end.

(** The rounds; [fuel] bounds their number.
    [src/src/runtime/spec/SpeculativeDecoder.cpp:269-284 runSpeculative] *)
Fixpoint specLoop (fuel : nat) (s : Round) (e : State) (ds : DState) : result Round * State * DState :=
  if negb (aborted s) && (length (generated s) <? maxNewTokens params) && negb (hitStop s) then
    match fuel with
    | 0 => (Ok s, e, ds)
    | S fuel' =>
        match specRound s e ds with
        | (Throw x, e, ds) => (Throw x, e, ds)
        | (Ok s, e, ds) => specLoop fuel' s e ds
        end
    end
  else (Ok s, e, ds).

(** [src/src/runtime/spec/SpeculativeDecoder.cpp:134-146 wouldEngage] *)
Definition wouldEngage : bool :=
  if negb (enabled scfg) || (draftN scfg =? 0) then false
  else negb (flt f0 (temperature (sampling params))).

(** The fields of [GenerateStats] the decoder writes, without times.
    [src/src/runtime/InferenceEngine.hpp:109-137 GenerateStats] *)
Record Stats := mkStats {
  specPromptTokens : nat;
  specCachedTokens : nat;
  specGeneratedTokens : nat;
  specHitStop : bool;
  specDecRounds : nat;
  specDecDrafted : nat;
  specDecAccepted : nat;
}.

(** [src/src/runtime/spec/SpeculativeDecoder.cpp:167-451 runSpeculative] *)
Definition runSpeculative (promptIds : list Z) (onProgress : option (nat -> bool)) (e : State)
    (ds : DState) : result (list Z * Stats) * State * DState :=
  if length promptIds =? 0 then
    (Throw (RuntimeError "SpeculativeDecoder::generate: empty prompt"), e, ds)
  else if maxNewTokens params =? 0 then
    (Ok ([], mkStats (length promptIds) 0 0 false 0 0 0), e, ds)
  else
    match generate cfg tanhf expf (mkGen 1 (sampling params) (stopIds params)) None draws promptIds
            onProgress e with
    | (Throw x, e) => (Throw x, e, ds)
    | (Ok (firstOut, st), e) =>
        let stats := mkStats (promptTokens st) (statCachedTokens st) in
        match firstOut with
        | [] => (Ok ([], stats 0 false 0 0 0), e, ds)
        | t :: _ =>
            let aborted := negb (wantsMore [t]) in
            if aborted || isStop t then (Ok ([t], stats 1 (isStop t) 0 0 0), e, ds)
            else
              match warmPrefix (promptIds ++ [t]) ds with
              | (Throw x, ds) => (Throw x, e, ds)
              | (Ok _, ds) =>
                  match specLoop (maxNewTokens params)
                          (mkRound [t] promptIds t (isStop t) aborted 0 0 0) e ds with
                  | (Throw x, e, ds) => (Throw x, e, ds)
                  | (Ok s, e, ds) =>
                      (Ok (generated s, stats (length (generated s)) (hitStop s) (rounds s)
                                          (totalDraft s) (totalAcc s)), e, ds)
                  end
              end
        end
    end.

(** [src/src/runtime/spec/SpeculativeDecoder.cpp:148-165 generate] *)
Definition generate (promptIds : list Z) (onProgress : option (nat -> bool)) (e : State) (ds : DState)
    : result (list Z * Stats) * State * DState :=
  if negb wouldEngage then
    match generate cfg tanhf expf params onToken draws promptIds onProgress e with
    | (Throw x, e) => (Throw x, e, ds)
    | (Ok (gen, st), e) =>
        (Ok (gen, mkStats (promptTokens st) (statCachedTokens st) (generatedTokens st) (statHitStop st)
                    0 0 0), e, ds)
    end
  else runSpeculative promptIds onProgress e ds.
End Run.
End Decode.
End SpeculativeDecoder.
