(* ===== verification/MtpDecoder.v ===== *)
(** * Multi-token prediction: a draft head on the engine itself

    Models [src/src/runtime/engine/MtpDecoder.cpp] on the engine of
    [InferenceEngine.v]: the nextn head drafts from the trunk's hidden row, one trunk
    forward verifies, the accepted prefix is committed, and after a rejection the
    recurrent state is restored and the accepted prefix forwarded again.

    The head is the class [NextnHead], which may draft anything. *)

From Stdlib Require Import SpecFloat.
From S2P Require Import Prelude Sampling SpecDecode InferenceEngine InferenceEngineProofs.

Module MtpDecoder.
Import Sampling InferenceEngine.

(** One step of the nextn module ([runMtpDraftStep]): from its cached rows, a hidden
    row and the token before, its own row, its logits and the next hidden row. *)
Class NextnHead {BK : Backend} := {
  MtpRow : Type;
  mtpStep : list MtpRow -> Hid -> Z -> MtpRow * list f32 * Hid;
}.

(** The index of the first largest entry; the code reads [row[0]] unasked, so a row
    must not be empty.
    [src/src/runtime/engine/MtpDecoder.cpp:72-77 generate] *)
Definition argmaxHost (row : list f32) : Z :=
  match row with [] => 0%Z | x :: row' => Z.of_nat (argmaxFrom row' 1 0 x) end.

(** ** Accepting and emitting *)

(** [src/src/runtime/engine/MtpDecoder.cpp:152-155 generate] *)
Fixpoint acceptedCount (rows : list (list f32)) (drafts : list Z) : nat :=
  match drafts, rows with
  | d :: drafts', row :: rows' =>
      if Z.eqb (argmaxHost row) d then S (acceptedCount rows' drafts') else 0
  | _, _ => 0
  end.

Section Emit.
Variable maxNew : nat.
Variable eosId : Z.

(** [src/src/runtime/engine/MtpDecoder.cpp:98-102 generate] *)
Definition isEos (t : Z) : bool := (0 <=? eosId)%Z && Z.eqb t eosId.

(** Tokens handed out until [emit] says no: the output, whether to go on, [stop].
    [src/src/runtime/engine/MtpDecoder.cpp:184-186 generate] *)
Fixpoint emitAll (l out : list Z) : list Z * bool * bool :=
  match l with
  | [] => (out, true, false)
  | t :: l' =>
      let out := out ++ [t] in
      if isEos t then (out, false, true)
      else if length out <? maxNew then emitAll l' out else (out, false, false)
  end.
End Emit.

Section Generate.
Context {BK : Backend} {NH : NextnHead}.
Variable cfg : EngineConfig.

(** One step on the private cache.
    [src/src/runtime/engine/MtpDecoder.cpp:113-121 generate] *)
Definition headStep (h : Hid) (prev : Z) (kv : KvCache MtpRow) : list f32 * Hid * KvCache MtpRow :=
  let '(r, logits, h) := mtpStep (kvPrefix kv) h prev in
  (logits, h, commit 1 (writeRows [r] kv)).

(** The head sees the prompt: position [p] with the token at [p + 1].
    [src/src/runtime/engine/MtpDecoder.cpp:85-89 generate] *)
Fixpoint seedPrompt (hids : list Hid) (next : list Z) (kv : KvCache MtpRow) : KvCache MtpRow :=
  match hids, next with
  | h :: hids', t :: next' => let '(_, _, kv) := headStep h t kv in seedPrompt hids' next' kv
  | _, _ => kv
  end.

(** [src/src/runtime/engine/MtpDecoder.cpp:107-121 generate] *)
Fixpoint draft (K : nat) (h : Hid) (prev : Z) (kv : KvCache MtpRow) : list Z * KvCache MtpRow :=
  match K with
  | 0 => ([], kv)
  | S K' =>
      let '(logits, h, kv) := headStep h prev kv in
      let dk := argmaxHost logits in
      let '(ds, kv) := draft K' h dk kv in (dk :: ds, kv)
  end.

(** Undo a verify: recurrent state from the snapshot, cache back to its length.
    [src/src/runtime/engine/MtpDecoder.cpp:171-175 generate] *)
Definition rollback (bak : Ssm) (preKvLen : nat) (e : State) : State :=
  let e := if needsSsmScratch then e <| ssmState := bak |> else e in
  e <| kvCache := Some (truncate preKvLen (activeCache e)) |>.

(** What a decode carries from round to round. *)
Record Decode := mkDecode {
  out : list Z;
  token0 : Z;
  hidS : Hid;
  mtpKv : KvCache MtpRow;
  drafted : nat;
  accepted : nat;
}.

(** The accepted prefix becomes the engine's, and its last hidden row is kept.
    [src/src/runtime/engine/MtpDecoder.cpp:159-181 generate] *)
Definition settle (K a : nat) (vtoks : list Z) (bak : Ssm) (preKvLen : nat) (hids : list Hid)
    (h : Hid) (e : State) : result Hid * State :=
  let committed := take (a + 1) vtoks in
  if a =? K then
    match commitVerified committed e with
    | (Throw x, e) => (Throw x, e)
    | (Ok _, e) => (Ok (nth a hids h), e)
    end
  else
    match verifyHidden cfg committed (rollback bak preKvLen e) with
    | (Throw x, e) => (Throw x, e)
    | (Ok hids, e) =>
        match commitVerified committed e with
        | (Throw x, e) => (Throw x, e)
        | (Ok _, e) => (Ok (nth a hids h), e)
        end
    end.

(** One round; the answer's boolean is the wish to go on.
    [src/src/runtime/engine/MtpDecoder.cpp:104-190 generate] *)
Definition round (maxNew mtpDepth : nat) (eosId : Z) (d : Decode) (e : State)
    : result (Decode * bool) * State :=
  let K := Nat.min mtpDepth (maxNew - length (out d)) in
  let mtpPre := kvLength (mtpKv d) in
  let '(drafts, kv) := draft K (hidS d) (token0 d) (mtpKv d) in
  let vtoks := token0 d :: drafts in
  let bak := ssmState e in
  let preKvLen := kvLength (activeCache e) in
  match verifyHidden cfg vtoks e with
  | (Throw x, e) => (Throw x, e)
  | (Ok hids, e) =>
      let vlogits := map lmHead hids in
      let a := acceptedCount vlogits drafts in
      let corrected := argmaxHost (nth a vlogits []) in
      match settle K a vtoks bak preKvLen hids (hidS d) e with
      | (Throw x, e) => (Throw x, e)
      | (Ok h, e) =>
          let kv := truncate (mtpPre + a + 1) kv in
          let '(o, cont, stop) := emitAll maxNew eosId (token0 d :: take a drafts) (out d) in
          (Ok (mkDecode o corrected h kv (drafted d + K) (accepted d + a), cont), e)
      end
  end.

(** The rounds; [fuel] bounds their number.  A round that does not go on ends the
    loop, so [stop] need not be looked at again.
    [src/src/runtime/engine/MtpDecoder.cpp:104-106 generate] *)
Fixpoint rounds (fuel maxNew mtpDepth : nat) (eosId : Z) (d : Decode) (e : State)
    : result Decode * State :=
  match fuel with
  | 0 => (Ok d, e)
  | S fuel' =>
      if negb (length (out d) <? maxNew) then (Ok d, e)
      else
        match round maxNew mtpDepth eosId d e with
        | (Throw x, e) => (Throw x, e)
        | (Ok (d, cont), e) => if cont then rounds fuel' maxNew mtpDepth eosId d e else (Ok d, e)
        end
  end.

(** [available]: the backend is the right one and the head is loaded.
    [src/src/runtime/engine/MtpDecoder.cpp:18-103 generate] *)
Definition generate (available : bool) (promptIds : list Z) (maxNew mtpDepth : nat) (eosId : Z)
    (kv : KvCache MtpRow) (e : State) : result (option Decode) * State :=
  if negb available then
    (Throw (RuntimeError "generateMtp: requires CUDA qwen35moe + MTP head"), e)
  else if (length promptIds =? 0) || (maxNew =? 0) then (Ok None, e)
  else
    let mtpDepth := if mtpDepth =? 0 then 1 else mtpDepth in
    match verifyHidden cfg promptIds (resetCache e) with
    | (Throw x, e) => (Throw x, e)
    | (Ok hids, e) =>
        let kv := seedPrompt hids (List.tl promptIds) (reset kv) in
        match commitVerified promptIds e, last hids with
        | (Throw x, e), _ => (Throw x, e)
        | (Ok _, e), None => (Throw (RuntimeError "no hidden row"), e)
        | (Ok _, e), Some h =>
            match rounds maxNew maxNew mtpDepth eosId
                    (mkDecode [] (argmaxHost (lmHead h)) h kv 0 0) e with
            | (Throw x, e) => (Throw x, e)
            | (Ok d, e) => (Ok (Some d), e)
            end
        end
    end.
End Generate.
End MtpDecoder.
