(* ===== verification/MtpDecoderProofs.v ===== *)
(** * Multi-token prediction generates what plain decoding generates

    Greedy decoding fixes its tokens: [Complete] says which list that is, and at most
    one list satisfies it.  [refGenerate] (what [generate] answers) and the rounds of
    [MtpDecoder.v] both produce it, for every draft head. *)

From Stdlib Require Import SpecFloat.
From S2P Require Import Prelude Sampling SpecDecode InferenceEngine InferenceEngineProofs MtpDecoder.

Module MtpProofs.
Import Sampling InferenceEngine EngineProofs MtpDecoder.

Section Proofs.
Context {BK : Backend}.
Variable cfg : EngineConfig.
Hypothesis Laws : BackendLaws.

(** ** The greedy stream *)

Section Greedy.
Variable promptIds : list Z.
Variable maxNew : nat.
Variable eosId : Z.

(** The token the model picks after [l]. *)
Definition tok (l : list Z) : Z :=
  match hidAt l with Some h => argmaxHost (lmHead h) | None => 0%Z end.

(** [gen] follows the model behind [pre]. *)
Definition greedyFrom (pre gen : list Z) : Prop :=
  forall i t, gen !! i = Some t -> t = tok (pre ++ take i gen).

(** An unfinished and a finished stream. *)
Definition Open (gen : list Z) : Prop :=
  greedyFrom promptIds gen /\ length gen < maxNew /\ (forall t, t ∈ gen -> isEos eosId t = false).

Definition Complete (gen : list Z) : Prop :=
  greedyFrom promptIds gen /\ length gen <= maxNew /\ gen <> [] /\
  (forall i t, gen !! i = Some t -> S i < length gen -> isEos eosId t = false) /\
  (length gen = maxNew \/ isEos eosId (List.last gen 0%Z) = true).

Lemma greedy_snoc pre gen : greedyFrom pre gen -> greedyFrom pre (gen ++ [tok (pre ++ gen)]).
Proof.
  intros H i t Hi. apply lookup_app_Some in Hi as [Hi|[Hl Hi]].
  - rewrite (H i t Hi). apply lookup_lt_Some in Hi. by rewrite take_app_le by lia.
  - apply list_lookup_singleton_Some in Hi as [Hz <-].
    by rewrite take_app_length' by lia.
Qed.

Lemma greedy_prefix pre g1 g2 : greedyFrom pre g1 -> greedyFrom pre g2 ->
  forall n, n <= length g1 -> n <= length g2 -> take n g1 = take n g2.
Proof.
  intros H1 H2. induction n as [|n IH]; intros L1 L2; [done|].
  destruct (lookup_lt_is_Some_2 g1 n L1) as [x1 X1], (lookup_lt_is_Some_2 g2 n L2) as [x2 X2].
  rewrite (take_S_r _ _ _ X1), (take_S_r _ _ _ X2), (H1 _ _ X1), (H2 _ _ X2), IH by lia. done.
Qed.

(** A finished stream cannot be longer than another one. *)
Lemma complete_length g1 g2 : Complete g1 -> Complete g2 -> length g2 <= length g1.
Proof.
  intros (H1 & L1 & N1 & E1 & F1) (H2 & L2 & N2 & E2 & F2).
  destruct (decide (length g1 < length g2)) as [Hlt|]; [|lia].
  destruct F1 as [F1|F1]; [lia|]. destruct (exists_last N1) as (g & x & ->).
  rewrite last_last in F1. rewrite length_app in *. cbn in *.
  pose proof (greedy_prefix _ _ _ H1 H2 (length g + 1) ltac:(rewrite length_app; cbn; lia) ltac:(lia)) as Hp.
  rewrite take_ge in Hp by (rewrite length_app; done).
  assert (Hx : g2 !! length g = Some x).
  { rewrite <- (lookup_take_lt g2 (length g + 1)) by lia. rewrite <- Hp.
    by apply list_lookup_middle. }
  rewrite (E2 _ _ Hx) in F1 by lia. done.
Qed.

Lemma complete_unique g1 g2 : Complete g1 -> Complete g2 -> g1 = g2.
Proof.
  intros C1 C2. pose proof (complete_length _ _ C1 C2). pose proof (complete_length _ _ C2 C1).
  pose proof (greedy_prefix _ _ _ (proj1 C1) (proj1 C2) (length g1) ltac:(lia) ltac:(lia)) as Hp.
  by rewrite !take_ge in Hp by lia.
Qed.

Lemma open_nil : 0 < maxNew -> Open [].
Proof. intros Hm. split; [intros i t Hi; by rewrite lookup_nil in Hi|]. split; [done|set_solver]. Qed.

(** The next token finishes the stream or leaves it open. *)
Lemma open_snoc gen : Open gen ->
  let gen' := gen ++ [tok (promptIds ++ gen)] in
  if isEos eosId (tok (promptIds ++ gen)) then Complete gen'
  else if length gen' <? maxNew then Open gen' else Complete gen'.
Proof.
  intros (Hg & Hl & He). cbn zeta. set (t := tok _).
  pose proof (greedy_snoc _ _ Hg) as Hg'. fold t in Hg'.
  assert (Hlen : length (gen ++ [t]) = S (length gen)) by (rewrite length_app; cbn; lia).
  assert (Hmid : forall i x, (gen ++ [t]) !! i = Some x -> S i < length (gen ++ [t]) ->
    isEos eosId x = false).
  { intros i x Hi Hx. rewrite lookup_app_l in Hi by lia. apply He. by eapply list_elem_of_lookup_2. }
  assert (Hne : gen ++ [t] <> []) by (intros Hz; by rewrite Hz in Hlen).
  destruct (isEos eosId t) eqn:Ht.
  - repeat split; [done|lia|done..|]. right. by rewrite last_last.
  - destruct (Nat.ltb_spec (length (gen ++ [t])) maxNew).
    + split; [done|]. split; [done|]. intros x Hx. apply elem_of_app in Hx as [Hx|Hx]; [by apply He|].
      by apply list_elem_of_singleton in Hx as ->.
    + repeat split; [done|lia|done..|]. left. lia.
Qed.

(** ** Plain decoding *)

Section Plain.
Variables tanhf expf : f32 -> f32.
Variable params : GenerateParams.
Variable draws : nat -> list nat * f32.
Hypothesis Hparams : maxNewTokens params = maxNew /\ stopIds params = [].
Hypothesis Heos : tokenizerEos cfg = eosId /\ (0 <= eosId)%Z.
Hypothesis Hgreedy : SFleb (temperature (sampling params)) f0 = true /\
  penaltiesActive (sampling params) = false /\ logitBias (sampling params) = [] /\
  badWords (sampling params) = [].

Lemma isStop_isEos t : isStop cfg params t = isEos eosId t.
Proof using Hparams Heos.
  unfold isStop, isEos. destruct Hparams as [_ ->], Heos as [-> He].
  rewrite (proj2 (Z.leb_le _ _)) by done. cbn. by rewrite orb_false_r.
Qed.

Lemma choose_tok k l recent : l <> [] -> choose cfg tanhf expf params draws k l recent = Ok (tok l).
Proof using Laws Hgreedy.
  intros Hl. unfold choose, tok. destruct (hidAt_some Laws l Hl) as [h ->].
  pose proof (law_head Laws h) as Hh. unfold sampleNext, sample.
  destruct Hgreedy as (Ht & Hp & Hb & Hw). destruct (lmHead h) as [|x v]; [done|].
  cbn [length Nat.eqb]. set (p := set_field _ _ (sampling params)).
  assert (H1 : isGreedy p = true) by (unfold isGreedy; change (temperature p) with (temperature (sampling params)); by rewrite Ht).
  assert (H2 : penaltiesActive p = false) by done.
  assert (H3 : logitBias p = [] /\ badWords p = []) by done. clearbody p.
  destruct H3 as [-> ->]. by rewrite H1, H2.
Qed.

Hypothesis Hprompt : promptIds <> [].

(** From an open or finished stream the reference loop reaches the finished one. *)
Lemma refLoop_complete fuel : forall gen,
  gen <> [] -> (Open gen \/ Complete gen) -> maxNew <= length gen + fuel ->
  exists gen' stop, refLoop cfg tanhf expf params None draws promptIds fuel gen = Ok (gen', stop) /\
    Complete gen'.
Proof using Laws Hgreedy Hparams Heos Hprompt.
  induction fuel as [|fuel IH]; intros gen Hne Hg Hf.
  { exists gen, false. split; [done|]. destruct Hg as [(_ & ? & _)|]; [lia|done]. }
  cbn [refLoop]. unfold keepGoing. cbn [negb orb]. rewrite (proj1 Hparams).
  destruct (Nat.ltb_spec (length gen) maxNew) as [Hlt|Hge]; cbn [negb].
  2: { exists gen, false. split; [done|]. destruct Hg as [(_ & ? & _)|]; [lia|done]. }
  rewrite isStop_isEos. destruct (isEos eosId (List.last gen 0%Z)) eqn:He.
  { exists gen, true. split; [done|]. destruct Hg as [(_ & _ & Ho)|]; [|done].
    destruct (exists_last Hne) as (g & x & ->). rewrite last_last in He.
    rewrite (Ho x) in He by set_solver. done. }
  assert (Ho : Open gen).
  { destruct Hg as [|(_ & _ & _ & _ & [?|?])]; [done|lia|congruence]. }
  rewrite choose_tok by (intros Hz; by apply app_nil in Hz as [? _]).
  pose proof (open_snoc gen Ho) as Hs. cbn zeta in Hs. apply IH.
  - intros Hz. by apply app_nil in Hz as [_ ?].
  - destruct (isEos _ (tok _)); [by right|]. destruct (length _ <? _); [by left|by right].
  - rewrite length_app. cbn. lia.
Qed.

Lemma refGenerate_complete : 0 < maxNew -> exists gen stop,
  refGenerate cfg tanhf expf params None draws promptIds = Ok (gen, stop) /\ Complete gen.
Proof using Laws Hgreedy Hparams Heos Hprompt.
  intros Hm. unfold refGenerate. rewrite choose_tok by done. rewrite (proj1 Hparams).
  pose proof (open_nil Hm) as Ho.
  pose proof (open_snoc [] Ho) as Hs. cbn zeta in Hs. rewrite app_nil_r in Hs. cbn [app] in Hs.
  apply refLoop_complete; [done| |cbn; lia].
  destruct (isEos _ (tok _)); [by right|]. destruct (length _ <? _); [by left|by right].
Qed.
End Plain.
End Greedy.

(** ** The engine under the rounds *)

(** The engine has committed exactly [toks]. *)
Record Tracks (e : State) (toks : list Z) : Prop := {
  tracks_working : Working cfg e toks;
  tracks_tokens : cachedTokens e = toks;
  tracks_alloc : is_Some (kvCache e);
  tracks_snap : ssmSnapValid e = false;
}.

Lemma tracks_good e toks : Tracks e toks -> Good cfg e.
Proof using Laws.
  intros [W T _ S]. split; [rewrite T; apply W|apply W|apply W|apply W|congruence].
Qed.

Lemma verify_spec e toks new :
  Working cfg e toks -> is_Some (kvCache e) -> new <> [] ->
  length toks + length new + 4 <= maxContextTokens cfg ->
  verifyHidden cfg new e =
    (Ok (drop (length toks) (hidsOf (toks ++ new))), (forward blockCount new e).2).
Proof using Laws.
  intros W Hc Hn Hf. unfold verifyHidden. destruct new as [|t new']; [done|].
  destruct (work_active _ _ _ W) as [Hl _]. rewrite Hl. rewrite ensureCapacity_eq, (allocate_twice cfg e) by done.
  rewrite (proj2 (Nat.ltb_ge _ _)) by lia.
  pose proof (working_step cfg Laws e toks (t :: new') _ W eq_refl) as (F & _).
  destruct (forward _ _ e) as [h e1]. cbn [fst snd] in *. by rewrite F.
Qed.

Lemma commitVerified_spec e l : is_Some (kvCache e) -> l <> [] ->
  commitVerified l e = (Ok tt, commitRows (length l) e <| cachedTokens := cachedTokens e ++ l |>).
Proof. intros [c Hc] Hl. unfold commitVerified. destruct l; [done|]. by rewrite Hc. Qed.

(** Verified and committed as a whole. *)
Lemma tracks_verified e toks new :
  Tracks e toks -> new <> [] -> exists e',
    commitVerified new (forward blockCount new e).2 = (Ok tt, e') /\ Tracks e' (toks ++ new).
Proof using Laws.
  intros [W T A S] Hn. destruct (working_step cfg Laws e toks new _ W eq_refl) as (_ & F & C).
  rewrite (forward_spec Laws e toks new) in F, C |- * by apply W. cbn [fst snd] in *.
  rewrite commitVerified_spec by (done || by eexists). eexists. split; [done|].
  split; [|cbn; by rewrite T|by eexists|done].
  split; cbn; [apply (work_active _ _ _ F)|apply (work_synced _ _ _ F)|apply W..].
Qed.

(** Undoing a verify leaves what was there. *)
Lemma tracks_rollback e toks new :
  Tracks e toks ->
  Tracks (rollback (ssmState e) (kvLength (activeCache e)) (forward blockCount new e).2) toks.
Proof using Laws.
  intros [W T A S]. rewrite (forward_spec Laws e toks new) by apply W. cbn [snd].
  destruct (work_active _ _ _ W) as [Hl Hp].
  pose proof (holds_write Laws _ _ new 0 (work_active _ _ _ W) ltac:(lia)) as Hh.
  rewrite take_0, app_nil_r in Hh. set (c1 := writeRows _ _) in *.
  assert (Ht : truncate (kvLength (activeCache e)) c1 = commit 0 c1).
  { unfold truncate, commit. cbn. by rewrite Nat.leb_refl, Nat.add_0_r. }
  unfold rollback. destruct needsSsmScratch eqn:Hs.
  - split; [|done|by eexists|done].
    split; cbn; [|apply (work_synced _ _ _ W)|apply W|by intros _; apply W|by rewrite S].
    change (holds (truncate (kvLength (activeCache e)) c1) toks). by rewrite Ht.
  - split; [|done|by eexists|done].
    split; cbn; [|right; by left|apply W|congruence|by rewrite S].
    change (holds (truncate (kvLength (activeCache e)) c1) toks). by rewrite Ht.
Qed.

(** ** One round *)

Lemma nth_hid toks new i h : i < length new ->
  Some (nth i (drop (length toks) (hidsOf (toks ++ new))) h) = hidAt (toks ++ take (S i) new).
Proof using Laws.
  intros Hi. rewrite nth_lookup, lookup_drop, (hidsOf_lookup Laws) by (rewrite length_app; lia).
  replace (S (length toks + i)) with (length toks + S i) by lia. rewrite firstn_app_2.
  destruct (hidAt_some Laws (toks ++ take (S i) new)) as [x ->]; [|done].
  destruct new; [simpl in Hi; lia|]. intros Hz. by apply app_nil in Hz as [_ ?].
Qed.

Lemma settle_spec e toks new a h K :
  Tracks e toks -> new <> [] -> S K = length new -> a <= K ->
  length toks + length new + 4 <= maxContextTokens cfg ->
  exists h' e',
    settle cfg K a new (ssmState e) (kvLength (activeCache e))
      (drop (length toks) (hidsOf (toks ++ new))) h (forward blockCount new e).2 = (Ok h', e') /\
    Tracks e' (toks ++ take (a + 1) new) /\ Some h' = hidAt (toks ++ take (a + 1) new).
Proof using Laws.
  intros T Hn HK Ha Hf. unfold settle. destruct (Nat.eqb_spec a K) as [->|Hne].
  - rewrite take_ge by lia. destruct (tracks_verified e toks new T Hn) as (e' & -> & H2).
    eexists _, e'. split; [done|]. split; [done|]. rewrite nth_hid by lia. by rewrite take_ge by lia.
  - pose proof (tracks_rollback e toks new T) as T2. set (e2 := rollback _ _ _) in *.
    assert (Hc : take (a + 1) new <> []) by (destruct new; [done|by rewrite Nat.add_1_r]).
    rewrite (verify_spec e2 toks) by
      (try apply T2; try done; rewrite length_take; lia).
    destruct (tracks_verified e2 toks _ T2 Hc) as (e' & -> & H2).
    eexists _, e'. split; [done|]. split; [done|].
    rewrite nth_hid by (rewrite length_take; lia). rewrite take_take. do 3 f_equal. lia.
Qed.

Lemma acceptedCount_spec drafts : forall pre rows,
  length rows = S (length drafts) ->
  (forall i row, rows !! i = Some row -> argmaxHost row = tok (pre ++ take i drafts)) ->
  acceptedCount rows drafts <= length drafts /\
  greedyFrom pre (take (acceptedCount rows drafts) drafts).
Proof.
  induction drafts as [|d drafts IH]; intros pre rows Hl Hr.
  { destruct rows; cbn; (split; [lia|]); intros i t Hi; by rewrite lookup_nil in Hi. }
  destruct rows as [|row rows]; [done|]. cbn [acceptedCount].
  destruct (Z.eqb_spec (argmaxHost row) d) as [Hd|]; cbn [take].
  2: { split; [lia|]. intros i t Hi. by rewrite lookup_nil in Hi. }
  destruct (IH (pre ++ [d]) rows) as [H1 H2]; [by injection Hl| |].
  { intros i r Hi. rewrite (Hr (S i) r Hi). by rewrite <- app_assoc. }
  split; [cbn; lia|]. intros [|i] t Hi; cbn in Hi.
  - injection Hi as <-. rewrite <- Hd. by rewrite (Hr 0 row eq_refl), take_0.
  - rewrite (H2 i t Hi). by rewrite <- app_assoc.
Qed.

Lemma emitAll_spec promptIds maxNew eosId l : forall o,
  Open promptIds maxNew eosId o -> greedyFrom (promptIds ++ o) l ->
  let '(o', cont, stop) := emitAll maxNew eosId l o in
  if cont then o' = o ++ l /\ Open promptIds maxNew eosId o' else Complete promptIds maxNew eosId o'.
Proof.
  induction l as [|t l IH]; intros o Ho Hl; cbn [emitAll].
  { by rewrite app_nil_r. }
  assert (Ht : t = tok (promptIds ++ o)).
  { rewrite (Hl 0 t eq_refl), take_0. by rewrite app_nil_r. }
  pose proof (open_snoc promptIds maxNew eosId o Ho) as Hs. cbn zeta in Hs. rewrite <- Ht in Hs.
  destruct (isEos eosId t); [done|]. destruct (length (o ++ [t]) <? maxNew); [|done].
  specialize (IH (o ++ [t]) Hs). rewrite <- app_assoc in IH. apply IH.
  intros i x Hi. rewrite (Hl (S i) x Hi). cbn [take]. by rewrite app_assoc, <- !app_assoc.
Qed.

(** What a verify of [t0 :: drafts] decides: how many drafts the model itself would
    have picked, and its pick behind them. *)
Lemma accept_greedy toks t0 drafts :
  t0 = tok toks ->
  let rows := map lmHead (drop (length toks) (hidsOf (toks ++ t0 :: drafts))) in
  let a := acceptedCount rows drafts in
  a <= length drafts /\ greedyFrom toks (t0 :: take a drafts) /\
  argmaxHost (nth a rows []) = tok (toks ++ t0 :: take a drafts).
Proof using Laws.
  intros Ht0. cbn zeta. set (hids := drop _ _).
  assert (Hhl : length hids = S (length drafts)).
  { unfold hids. rewrite length_drop, hidsOf_length, length_app by done. cbn. lia. }
  assert (Hrows : forall i row, map lmHead hids !! i = Some row ->
      argmaxHost row = tok ((toks ++ [t0]) ++ take i drafts)).
  { intros i row Hi. rewrite list_lookup_fmap in Hi.
    destruct (hids !! i) as [h|] eqn:Hhi; [|done]. cbn in Hi. injection Hi as <-.
    pose proof (lookup_lt_Some _ _ _ Hhi) as Hlt. rewrite Hhl in Hlt.
    pose proof (nth_hid toks (t0 :: drafts) i h ltac:(cbn; lia)) as Hnth. fold hids in Hnth.
    rewrite nth_lookup, Hhi in Hnth. cbn in Hnth. unfold tok.
    rewrite <- app_assoc. cbn. by rewrite <- Hnth. }
  destruct (acceptedCount_spec drafts (toks ++ [t0]) (map lmHead hids)) as [Ha Hacc];
    [by rewrite length_map|done|].
  split; [done|]. split.
  - intros [|i] t Hi; cbn in Hi; [injection Hi as <-; by rewrite take_0, app_nil_r|].
    rewrite (Hacc i t Hi). by rewrite <- app_assoc.
  - destruct (lookup_lt_is_Some_2 (map lmHead hids) (acceptedCount (map lmHead hids) drafts)) as [row Hrow].
    { rewrite length_map. lia. }
    rewrite nth_lookup, Hrow. cbn. rewrite (Hrows _ _ Hrow). by rewrite <- app_assoc.
Qed.

Section Rounds.
Context {NH : NextnHead}.
Variable promptIds : list Z.
Variables maxNew mtpDepth : nat.
Variable eosId : Z.
Hypothesis Hfits : length promptIds + maxNew + 5 <= maxContextTokens cfg.

Lemma draft_length K : forall h prev kv,
  length (draft K h prev kv).1 = K /\ kvLength (draft K h prev kv).2 = kvLength kv + K.
Proof.
  induction K as [|K IH]; intros h prev kv; cbn; [lia|]. unfold headStep.
  destruct (mtpStep _ h prev) as [[r lg] h1].
  specialize (IH h1 (argmaxHost lg) (commit 1 (writeRows [r] kv))).
  destruct (draft K _ _ _) as [ds kv']. cbn in *. lia.
Qed.

(** Where a decode stands between two rounds. *)
Record Between (d : Decode) (e : State) : Prop := {
  btw_open : Open promptIds maxNew eosId (out d);
  btw_tracks : Tracks e (promptIds ++ out d);
  btw_next : token0 d = tok (promptIds ++ out d);
  btw_hidden : Some (hidS d) = hidAt (promptIds ++ out d);
  btw_counts : accepted d <= drafted d;
}.

Lemma round_spec d e : Between d e -> exists d' cont e',
  round cfg maxNew mtpDepth eosId d e = (Ok (d', cont), e') /\
  Good cfg e' /\ accepted d' <= drafted d' /\
  if cont then Between d' e' /\ length (out d) < length (out d')
  else Complete promptIds maxNew eosId (out d').
Proof using Laws Hfits.
  intros [Ho T Hn Hh Hc]. unfold round. set (K := Nat.min mtpDepth _).
  pose proof (draft_length K (hidS d) (token0 d) (mtpKv d)) as [Hdl _].
  destruct (draft K _ _ _) as [drafts kv]. cbn [fst] in Hdl.
  destruct Ho as (Ho1 & Ho2 & Ho3).
  assert (Hroom : length (promptIds ++ out d) + length (token0 d :: drafts) + 4 <= maxContextTokens cfg)
    by (rewrite length_app; cbn; lia).
  set (vtoks := token0 d :: drafts) in *. set (toks := promptIds ++ out d) in *.
  rewrite (verify_spec e toks vtoks) by (try apply T; done).
  set (hids := drop (length toks) (hidsOf (toks ++ vtoks))).
  destruct (accept_greedy toks (token0 d) drafts Hn) as (Ha & Hl & Hcor).
  fold vtoks hids in Ha, Hl, Hcor. set (a := acceptedCount _ drafts) in *.
  destruct (settle_spec e toks vtoks a (hidS d) K T ltac:(done) ltac:(cbn; lia) ltac:(lia) Hroom)
    as (h' & e' & Hset & T' & Hh').
  fold hids in Hset. rewrite Hset. rewrite Nat.add_1_r in T', Hh'. cbn [take] in T', Hh'.
  pose proof (emitAll_spec promptIds maxNew eosId _ (out d) (conj Ho1 (conj Ho2 Ho3)) Hl) as He.
  destruct (emitAll _ _ _ _) as [[o cont] stop].
  eexists _, cont, e'. split; [done|]. split; [by eapply tracks_good|]. cbn. split; [lia|].
  destruct cont; [|exact He]. destruct He as [-> He]. split; [|rewrite length_app; cbn; lia].
  split; cbn; rewrite ?app_assoc; fold toks; try done; lia.
Qed.

Lemma rounds_spec fuel : forall d e, Between d e -> maxNew <= length (out d) + fuel ->
  exists d' e', rounds cfg fuel maxNew mtpDepth eosId d e = (Ok d', e') /\
    Complete promptIds maxNew eosId (out d') /\ accepted d' <= drafted d' /\ Good cfg e'.
Proof using Laws Hfits.
  induction fuel as [|fuel IH]; intros d e HB Hf; pose proof (btw_open _ _ HB) as (_ & Hl & _); [lia|].
  cbn [rounds]. rewrite (proj2 (Nat.ltb_lt _ _)) by done. cbn [negb].
  destruct (round_spec d e HB) as (d' & cont & e' & -> & G & A & R). destruct cont.
  - destruct R as [R1 R2]. apply (IH d' e' R1). lia.
  - by exists d', e'.
Qed.

End Rounds.

(** The caches are allocated once. *)
Lemma verify_allocated new e :
  new <> [] -> verifyHidden cfg new (allocateCaches cfg e) = verifyHidden cfg new e.
Proof.
  intros Hn.
  unfold verifyHidden. destruct new as [|t new]; [done|]. destruct (allocate_same cfg e) as (_ & -> & _).
  by rewrite !ensureCapacity_eq, (allocate_twice _ (allocateCaches cfg e)) by apply caches_allocated.
Qed.

(** A reset engine with its caches has committed nothing. *)
Lemma tracks_reset e : Good cfg e ->
  Tracks (allocateCaches cfg (resetCache e)) [] /\ kvLength (activeCache (resetCache e)) = 0.
Proof using Laws.
  intros HG. pose proof (good_reset cfg Laws e HG) as HG1. set (e1 := resetCache e) in *.
  pose proof (good_allocate cfg Laws e1 HG1) as C1. pose proof (caches_allocated cfg e1) as C2.
  destruct (allocate_same cfg e1) as (C3 & _ & _ & C4).
  destruct (good_active _ _ HG1) as [Hl _].
  split; [|by rewrite Hl]. assert (Hn : cachedTokens (allocateCaches cfg e1) = []) by done.
  pose proof (good_working cfg Laws _ C1 ltac:(by left)) as W. rewrite Hn in W. by split.
Qed.

(** From any consistent engine. *)
Lemma generate_complete {NH : NextnHead} promptIds maxNew mtpDepth eosId kv e :
  length promptIds + maxNew + 5 <= maxContextTokens cfg -> promptIds <> [] -> 0 < maxNew ->
  Good cfg e -> exists d e',
  generate cfg true promptIds maxNew mtpDepth eosId kv e = (Ok (Some d), e') /\
  Complete promptIds maxNew eosId (out d) /\ accepted d <= drafted d /\ Good cfg e'.
Proof using Laws.
  intros Hfits Hprompt Hmax HG. unfold generate. cbn [negb].
  rewrite !(proj2 (Nat.eqb_neq _ _)) by (try lia; by destruct promptIds). cbn [orb].
  set (depth := if mtpDepth =? 0 then 1 else mtpDepth).
  destruct (tracks_reset e HG) as (T & _). rewrite <- (verify_allocated promptIds _ Hprompt).
  set (e2 := allocateCaches cfg (resetCache e)) in *.
  rewrite (verify_spec e2 [] promptIds) by (try apply T; try done; cbn; lia). cbn [app length drop].
  destruct (tracks_verified e2 [] promptIds T Hprompt) as (e3 & -> & T3). cbn [app] in T3.
  destruct (hidAt_some Laws promptIds Hprompt) as [h Hh]. rewrite drop_0.
  fold (hidAt promptIds). rewrite Hh.
  set (d0 := mkDecode _ _ _ _ _ _).
  assert (HB : Between promptIds maxNew eosId d0 e3).
  { split; cbn; rewrite ?app_nil_r; [by apply open_nil|done| |done|lia].
    unfold tok. by rewrite Hh. }
  destruct (rounds_spec promptIds maxNew depth eosId Hfits maxNew d0 e3 HB ltac:(cbn; lia))
    as (d' & e' & -> & H1 & H2 & H3).
  by exists d', e'.
Qed.
End Proofs.

(** C14: Multi-token prediction changes nothing but speed: for every draft head and
    every depth, from any engine that has served other requests, the tokens are
    those of plain greedy [generate] (again from any engine), no more drafts are
    accepted than were made, the budget holds, and the engine is left consistent for
    the next request - its cache and recurrent state hold exactly committed tokens,
    though a verify runs ahead of them.  Hypotheses: [BackendLaws], greedy sampling
    without penalties, bias or bad words, and one position more of context than
    [generate] asks for. *)
Theorem mtp_equals_plain (BK : Backend) (NH : NextnHead) cfg tanhf expf params draws promptIds
    mtpDepth kv e1 e2 :
  BackendLaws -> Good cfg e1 -> Good cfg e2 -> promptIds <> [] -> 0 < maxNewTokens params ->
  length promptIds + maxNewTokens params + 5 <= maxContextTokens cfg ->
  stopIds params = [] -> (0 <= tokenizerEos cfg)%Z ->
  SFleb (temperature (sampling params)) f0 = true -> penaltiesActive (sampling params) = false ->
  logitBias (sampling params) = [] -> badWords (sampling params) = [] ->
  exists d e1' st e2',
    MtpDecoder.generate cfg true promptIds (maxNewTokens params) mtpDepth (tokenizerEos cfg) kv e1 =
      (Ok (Some d), e1') /\
    InferenceEngine.generate cfg tanhf expf params None draws promptIds None e2 = (Ok (out d, st), e2') /\
    length (out d) <= maxNewTokens params /\ accepted d <= drafted d /\ Good cfg e1'.
Proof.
  intros Laws G1 G2 Hp Hm Hf Hs He Ht Hpen Hb Hw.
  destruct (generate_complete cfg Laws promptIds (maxNewTokens params) mtpDepth (tokenizerEos cfg) kv
    e1 Hf Hp Hm G1) as (d & e1' & H1 & H2 & H3 & H4).
  destruct (refGenerate_complete cfg Laws promptIds (maxNewTokens params) (tokenizerEos cfg) tanhf expf
    params draws (conj eq_refl Hs) (conj eq_refl He) (conj Ht (conj Hpen (conj Hb Hw))) Hp Hm)
    as (gen & stop & R1 & R2).
  rewrite (complete_unique _ _ _ _ _ R2 H2) in R1.
  pose proof (generate_spec cfg Laws tanhf expf params None draws promptIds None e2 G2 Hp) as HG.
  destruct (InferenceEngine.generate cfg tanhf expf params None draws promptIds None e2) as [r e2'].
  destruct HG as (_ & HG & _). unfold expected in HG.
  rewrite (proj2 (Nat.ltb_ge _ _)), R1 in HG by lia. destruct r as [[g st]|x]; [|done].
  injection HG as -> _. exists d, e1', st, e2'. split; [done|]. split; [done|]. split; [apply H2|done].
Qed.

(** ** Concrete runs *)

(** A head that guesses the successor of the token before. *)
Definition countingHead (BK : Backend) : NextnHead (BK := BK) := {|
  MtpRow := Z;
  mtpStep _ h t := (t, demoHead (t + 1), h);
|}.

Lemma mtp_equals_plain_witness :
  exists d e1' st e2',
    MtpDecoder.generate (BK := demoRecurrent) (NH := countingHead demoRecurrent) (demoCfg None true) true
      [1; 1; 1]%Z 5 3 6 emptyKv (freshEngine (BK := demoRecurrent) 9%Z) = (Ok (Some d), e1') /\
    InferenceEngine.generate (BK := demoRecurrent) (demoCfg None true) (fun x => x) (fun x => x)
      (mkGen 5 defaultParams []) None noDraws [1; 1; 1]%Z None (freshEngine (BK := demoRecurrent) 3%Z) =
      (Ok (out d, st), e2') /\
    length (out d) <= 5 /\ accepted d <= drafted d /\ Good (demoCfg None true) e1'.
Proof.
  exact (mtp_equals_plain demoRecurrent (countingHead demoRecurrent) (demoCfg None true)
    (fun x => x) (fun x => x) (mkGen 5 defaultParams []) noDraws [1; 1; 1]%Z 3 emptyKv
    (freshEngine (BK := demoRecurrent) 9%Z) (freshEngine (BK := demoRecurrent) 3%Z)
    demoRecurrent_laws (good_fresh _ demoRecurrent_laws _) (good_fresh _ demoRecurrent_laws _)
    ltac:(done) ltac:(cbn; lia) ltac:(cbn; lia) eq_refl ltac:(done) eq_refl eq_refl eq_refl eq_refl).
Defined.

(** A model that counts, so that the head is always right. *)
Definition demoCounting : Backend :=
  stepBackend (fun rows (_ : unit) t => (t, tt, t + 1)%Z) demoHead false tt.

Lemma demoCounting_laws : BackendLaws (BK := demoCounting).
Proof. apply stepBackend_laws; [by intros _ [] []|apply demoHead_nonempty]. Qed.

Definition countingRun (maxContext maxNew depth : nat) :=
  MtpDecoder.generate (BK := demoCounting) (NH := countingHead demoCounting)
    (mkEngineConfig maxContext None false 6 f0) true [1; 2; 3]%Z maxNew depth (-1) emptyKv
    (freshEngine (BK := demoCounting) tt).

(** The last round verifies one token more than the budget has left, so a request
    that [generate] serves is refused at the end, with all its tokens. *)
Example last_round_does_not_fit :
  (match countingRun 12 5 2 with (Throw _, _) => true | _ => false end) = true /\
  (match InferenceEngine.generate (BK := demoCounting) (mkEngineConfig 12 None false 6 f0)
           (fun x => x) (fun x => x) (mkGen 5 defaultParams []) None noDraws [1; 2; 3]%Z None
           (freshEngine (BK := demoCounting) tt) with
   | (Ok (gen, _), _) => gen | _ => [] end) = [4; 5; 6]%Z /\
  (match countingRun 13 5 2 with (Ok (Some d), _) => out d | _ => [] end) = [4; 5; 6; 0; 1]%Z.
Proof. split; [|split]; vm_compute; reflexivity. Qed.

(** The head writes one row per draft, so after a round that accepts all [K] drafts
    its cache has no row for the last of them: truncating to [K + 1] more rows than
    before does nothing, and the head falls one row behind the trunk. *)
Example head_rows_fall_behind :
  (match countingRun 32 6 2 with
   | (Ok (Some d), e) =>
       (out d, accepted d, kvLength (activeCache e), kvLength (mtpKv d))
   | _ => ([], 0, 0, 0)
   end) = ([4; 5; 6; 0; 1; 2]%Z, 4, 9, 6).
Proof. vm_compute; reflexivity. Qed.
End MtpProofs.
