(* ===== verification/SpeculativeDecoderProofs.v ===== *)
(** * Speculative decoding generates what plain decoding generates

    On the engine of [InferenceEngine.v] itself: [follows] is the greedy stream of the
    model, [generate_spec] and [verify_spec] say what the engine answers, and the rounds
    of [SpeculativeDecoder.v] walk the same stream, whatever the drafter drafts.  The
    drafter that runs a model of its own keeps [DraftsWithin] ([modelDrafter_within]).

    The examples at the end are the requests the theorem leaves out: with penalties,
    with a bias, and on a model with recurrent state the streams do differ. *)

From Stdlib Require Import SpecFloat.
From S2P Require Import Prelude Sampling SpecDecode InferenceEngine InferenceEngineProofs SpeculativeDecoder MtpDecoder MtpDecoderProofs.

Module SpecProofs.
Import Sampling InferenceEngine EngineProofs MtpProofs SpeculativeDecoder.

(** Greedy, with nothing that changes a row. *)
Definition plainSampling (cfg : EngineConfig) (p : SamplingParams) : Prop :=
  SFleb (temperature p) f0 = true /\ penaltiesActive p = false /\ logitBias p = [] /\
  badWords p = [] /\ SFleb (finalLogitSoftcap cfg) f0 = true.

(** What a drafter must keep up with: every context of the run and a token behind it. *)
Definition draftReach (params : GenerateParams) (promptIds : list Z) : nat :=
  length promptIds + maxNewTokens params + 1.

Section Agreement.
Context {BK : Backend} {DR : Drafter}.
Variable cfg : EngineConfig.
Variables tanhf expf : f32 -> f32.
Variable scfg : Config.
Variable params : GenerateParams.
Variable onToken : option (list Z -> bool).
Variable draws : nat -> list nat * f32.
Variable promptIds : list Z.
Variable inOrder : DState -> Prop.
Hypothesis Laws : BackendLaws.
Hypothesis Hns : needsSsmScratch = false.
Hypothesis Hplain : plainSampling cfg (sampling params).
Hypothesis Hprompt : promptIds <> [].

(** ** The greedy stream of the model *)

Lemma checked_plain hist row : checked cfg tanhf (sampling params) hist row = row.
Proof using Hplain.
  destruct Hplain as (_ & Hp & _ & _ & Hc). unfold checked, applySoftcapInPlace. rewrite Hc.
  unfold applyPenaltiesInPlace, penaltiesActive in *.
  destruct (N.eqb_spec (penaltyWindow (sampling params)) 0) as [|Hw]; [done|].
  rewrite (proj2 (N.ltb_lt _ _)) in Hp by lia. cbn [andb] in Hp.
  apply orb_false_elim in Hp as [Hp H3]. apply orb_false_elim in Hp as [H1 H2].
  apply negb_false_iff in H1, H2, H3. by rewrite H1, H2, H3.
Qed.

Lemma argmaxOf_head l h : hidAt l = Some h -> argmaxOf (lmHead h) = Ok (tok l).
Proof using Laws.
  intros Hh. unfold tok, MtpDecoder.argmaxHost. rewrite Hh. pose proof (law_head Laws h).
  by destruct (lmHead h).
Qed.

Lemma choose_plain k l recent :
  l <> [] -> choose cfg tanhf expf params draws k l recent = Ok (tok l).
Proof using Laws Hplain.
  destruct Hplain as (H1 & H2 & H3 & H4 & _). by apply choose_tok.
Qed.

(** The stream is over. *)
Definition ended (gen : list Z) : bool :=
  isStop cfg params (List.last gen 0%Z) || negb (wantsMore onToken gen)
  || (maxNewTokens params <=? length gen).

(** [gen'] continues [gen] token by token along the model's own choices, as long
    as the stream is not over. *)
Inductive follows (gen : list Z) : list Z -> Prop :=
  | follows_here : follows gen gen
  | follows_next gen' :
      ended gen = false -> follows (gen ++ [tok (promptIds ++ gen)]) gen' -> follows gen gen'.

Lemma follows_det gen g1 : follows gen g1 -> forall g2,
  ended g1 = true -> follows gen g2 -> ended g2 = true -> g1 = g2.
Proof using.
  induction 1 as [gen|gen g1 He _ IH]; intros g2 H1 H2 H3.
  - destruct H2; [done|congruence].
  - destruct H2 as [|g2 _ H2]; [congruence|]. by apply IH.
Qed.

Lemma follows_trans g1 g2 g3 : follows g1 g2 -> follows g2 g3 -> follows g1 g3.
Proof using. induction 1; intros; [done|]. eapply follows_next; eauto. Qed.

Lemma follows_one gen : ended gen = false -> follows gen (gen ++ [tok (promptIds ++ gen)]).
Proof using. intros H. eapply follows_next; [done|constructor]. Qed.

Lemma ended_budget gen : ended gen = false -> length gen < maxNewTokens params.
Proof using.
  unfold ended. intros He. apply orb_false_elim in He as [_ He]. by apply Nat.leb_gt.
Qed.

Lemma follows_length gen gen' : follows gen gen' ->
  length gen <= maxNewTokens params -> length gen <= length gen' <= maxNewTokens params.
Proof using.
  induction 1 as [gen|gen g1 He _ IH]; intros Hl; [lia|].
  rewrite length_app in IH. simpl in IH. apply ended_budget in He. lia.
Qed.

(** Plain decoding walks it to its end. *)
Lemma refLoop_follows fuel : forall gen, gen <> [] -> maxNewTokens params <= length gen + fuel ->
  exists gen' stop, refLoop cfg tanhf expf params onToken draws promptIds fuel gen = Ok (gen', stop) /\
    follows gen gen' /\ ended gen' = true.
Proof using Laws Hplain Hprompt.
  induction fuel as [|fuel IH]; intros gen Hne Hf; cbn [refLoop].
  { exists gen, false. split; [done|]. split; [constructor|]. unfold ended.
    rewrite (proj2 (Nat.leb_le _ _)) by lia. by rewrite orb_true_r. }
  assert (Hend : ended gen = InferenceEngine.isStop cfg params (List.last gen 0%Z) ||
      (negb (keepGoing onToken gen) || negb (length gen <? maxNewTokens params))).
  { unfold ended, isStop, InferenceEngine.isStop. rewrite Nat.ltb_antisym, negb_involutive.
    rewrite <- orb_assoc. by destruct (Z.eqb _ _). }
  destruct (negb (keepGoing onToken gen) || _) eqn:Hk.
  { exists gen, false. split; [done|]. split; [constructor|]. by rewrite Hend, orb_true_r. }
  rewrite orb_false_r in Hend. destruct (InferenceEngine.isStop _ _ _).
  { exists gen, true. split; [done|]. split; [constructor|done]. }
  rewrite choose_plain by (intros Hz; by apply app_nil in Hz as [? _]).
  destruct (IH (gen ++ [tok (promptIds ++ gen)])) as (gen' & stop & H1 & H2 & H3).
  - intros Hz. by apply app_nil in Hz as [_ ?].
  - rewrite length_app. simpl. lia.
  - exists gen', stop. split; [done|]. split; [|done]. by eapply follows_next.
Qed.

Lemma refGenerate_follows : exists gen stop,
  refGenerate cfg tanhf expf params onToken draws promptIds = Ok (gen, stop) /\
  follows [tok promptIds] gen /\ ended gen = true.
Proof using Laws Hplain Hprompt.
  unfold refGenerate. rewrite choose_plain by done. apply refLoop_follows; [done|simpl; lia].
Qed.

(** The request for the first token alone. *)
Lemma refGenerate_first :
  refGenerate cfg tanhf expf (mkGen 1 (sampling params) (stopIds params)) None draws promptIds =
    Ok ([tok promptIds], false).
Proof using Laws Hplain Hprompt.
  unfold refGenerate. destruct Hplain as (H1 & H2 & H3 & H4 & _).
  by rewrite (choose_tok cfg Laws tanhf expf (mkGen 1 (sampling params) (stopIds params))).
Qed.

(** ** The engine under a round *)

(** Verified as a whole, committed in part: without recurrent state nothing is left
    of the rest. *)
Lemma tracks_partial e toks new k :
  Tracks cfg e toks -> 0 < k <= length new -> exists e',
    commitVerified (take k new) (forward blockCount new e).2 = (Ok tt, e') /\
    Tracks cfg e' (toks ++ take k new).
Proof using Laws Hns.
  intros [W T A S] Hk. rewrite (forward_spec Laws e toks new) by apply W. cbn [snd].
  assert (Hl : length (take k new) = k) by (rewrite length_take; lia).
  rewrite commitVerified_spec by (try (by eexists); intros Hz; by rewrite Hz in Hl; simpl in Hl; lia).
  rewrite Hl. eexists. split; [done|].
  pose proof (holds_write Laws _ _ new k (work_active _ _ _ W) ltac:(lia)) as Hh.
  split; [|cbn; by rewrite T|by eexists|done].
  split; cbn; [exact Hh|right; by left|apply W|congruence|apply W].
Qed.

(** The rows of a verify are the model's own. *)
Lemma verified_rows toks new i row :
  map lmHead (drop (length toks) (hidsOf (toks ++ new))) !! i = Some row ->
  argmaxOf row = Ok (tok (toks ++ take (S i) new)).
Proof using Laws.
  rewrite list_lookup_fmap. intros Hi. destruct (_ !! i) as [h|] eqn:Hh; [|done]. cbn in Hi. injection Hi as <-.
  pose proof (lookup_lt_Some _ _ _ Hh) as Hlt.
  rewrite length_drop, hidsOf_length, length_app in Hlt by done.
  pose proof (nth_hid Laws toks new i h ltac:(lia)) as Hn. rewrite nth_lookup, Hh in Hn.
  by apply argmaxOf_head.
Qed.

Lemma acceptLoop_spec drafts : forall pre hist rows,
  length rows = S (length drafts) ->
  (forall i row, rows !! i = Some row -> argmaxOf row = Ok (tok (pre ++ take i drafts))) ->
  exists a rows' hist',
    acceptLoop cfg tanhf (sampling params) hist rows drafts = Ok (a, rows', hist') /\
    a <= length drafts /\
    (forall i, i < a -> drafts !! i = Some (tok (pre ++ take i drafts))) /\
    argmaxOf (nth a rows' []) = Ok (tok (pre ++ take a drafts)).
Proof using Hplain.
  induction drafts as [|d drafts IH]; intros pre hist rows Hl Hr.
  { destruct rows as [|row rows]; [done|]. cbn [acceptLoop]. exists 0, (row :: rows), hist.
    split; [done|]. split; [done|]. split; [intros i Hi; by apply Nat.nlt_0_r in Hi|]. by apply (Hr 0). }
  destruct rows as [|row rows]; [done|]. cbn [acceptLoop].
  assert (Hrow : argmaxOf row = Ok (tok pre)) by (rewrite (Hr 0 row eq_refl), take_0; by rewrite app_nil_r).
  rewrite checked_plain, Hrow.
  destruct (Z.eqb_spec (tok pre) d) as [Heq|Hne].
  - destruct (IH (pre ++ [d]) (hist ++ [d]) rows) as (a & rows' & hist' & H1 & H2 & H3 & H4).
    + by injection Hl.
    + intros i r Hi. rewrite (Hr (S i) r Hi). by rewrite <- app_assoc.
    + rewrite H1. exists (S a), (row :: rows'), hist'. split; [done|]. split; [simpl; lia|]. split.
      * intros [|i] Hi; [by rewrite take_0, app_nil_r, Heq|]. simpl. rewrite H3 by lia.
        by rewrite <- app_assoc.
      * simpl. rewrite H4. by rewrite <- app_assoc.
  - exists 0, (row :: rows), hist. split; [done|]. split; [lia|]. split; [intros i Hi; lia|].
    by rewrite take_0, app_nil_r.
Qed.

(** The accepted drafts, handed out until the stream is over. *)
Lemma emitLoop_spec acc : forall gen,
  (forall i, i < length acc -> acc !! i = Some (tok (promptIds ++ gen ++ take i acc))) ->
  ended gen = false -> length gen + length acc < maxNewTokens params ->
  exists k stop ab, let gen' := gen ++ take k acc in
    emitLoop cfg params onToken acc gen = (gen', stop, ab) /\ follows gen gen' /\
    (if ab || stop
     then ended gen' = true /\ length gen < length gen' /\
          stop = isStop cfg params (List.last gen' 0%Z) /\ ab = negb (wantsMore onToken gen')
     else k = length acc /\ ended gen' = false).
Proof using.
  induction acc as [|x acc IH]; intros gen Hacc He Hlen; cbn [emitLoop].
  { exists 0, false, false. cbn zeta. rewrite take_0, app_nil_r. split; [done|].
    split; [constructor|]. done. }
  assert (Hx : x = tok (promptIds ++ gen)).
  { specialize (Hacc 0 ltac:(simpl; lia)). rewrite take_0, app_nil_r in Hacc. by injection Hacc. }
  pose proof (follows_one gen He) as Hone. rewrite <- Hx in Hone. simpl in Hlen.
  destruct (negb (wantsMore onToken (gen ++ [x])) || isStop cfg params x) eqn:Hc.
  - exists 1, (isStop cfg params x), (negb (wantsMore onToken (gen ++ [x]))). cbn zeta.
    cbn [take]. rewrite take_0. split; [done|]. split; [done|]. rewrite Hc, last_last.
    split; [|split; [rewrite length_app; simpl; lia|done]].
    unfold ended. rewrite last_last. apply orb_prop in Hc as [->| ->]; [|done].
    by rewrite orb_true_r.
  - apply orb_false_elim in Hc as [Hc1 Hc2].
    destruct (IH (gen ++ [x])) as (k & stop & ab & H1 & H2 & H3).
    + intros i Hi. specialize (Hacc (S i) ltac:(simpl; lia)). cbn [take lookup list_lookup] in Hacc.
      rewrite <- app_assoc. exact Hacc.
    + unfold ended. rewrite last_last, Hc1, Hc2. cbn [orb]. apply Nat.leb_gt.
      rewrite length_app. simpl. lia.
    + rewrite length_app. simpl. lia.
    + exists (S k), stop, ab. cbn zeta in *. cbn [take].
      replace (gen ++ x :: take k acc) with ((gen ++ [x]) ++ take k acc) by by rewrite <- app_assoc.
      split; [done|]. split; [by eapply follows_trans|].
      destruct (ab || stop); [|destruct H3 as [-> H3]; by split].
      destruct H3 as (E1 & E2 & E3). split; [done|]. split; [|done].
      rewrite !length_app in *. simpl in E2. lia.
Qed.

(** ** Rounds *)

Hypothesis Hroom : length promptIds + maxNewTokens params + 4 <= maxContextTokens cfg.
Hypothesis Hdraft : DraftsWithin inOrder (draftReach params promptIds).

(** Between two rounds: the engine is consistent and, while the stream goes on, has
    committed everything but the last token. *)
Record Between (s : Round) (e : State) (ds : DState) : Prop := {
  btw_last : List.last (generated s) 0%Z = tLast s;
  btw_stop : hitStop s = isStop cfg params (tLast s);
  btw_abort : aborted s = negb (wantsMore onToken (generated s));
  btw_counts : totalAcc s <= totalDraft s;
  btw_good : Good cfg e;
  btw_order : inOrder ds;
  btw_open : ended (generated s) = false ->
    Tracks cfg e (context s) /\ context s ++ [tLast s] = promptIds ++ generated s;
}.

(** How many drafts a round asks for. *)
Definition roundN (s : Round) : nat :=
  Nat.min (draftN scfg) (maxNewTokens params - length (generated s) - 1).

(** The drafts of a round: at most one token less than the budget has left. *)
Lemma draft_spec s ds :
  inOrder ds -> length (generated s) < maxNewTokens params ->
  context s ++ [tLast s] = promptIds ++ generated s ->
  exists drafts ds',
    (if 0 <? roundN s then propose (context s ++ [tLast s]) (roundN s) (sampling params) ds
     else (Ok [], ds)) = (Ok drafts, ds') /\ inOrder ds' /\
    length (generated s) + S (length drafts) <= maxNewTokens params.
Proof using Hroom Hdraft.
  intros Ho Hlt Hctx. assert (HN : roundN s <= maxNewTokens params - length (generated s) - 1) by apply Nat.le_min_r.
  set (N := roundN s) in *. destruct (0 <? N).
  - destruct (law_propose _ _ Hdraft (context s ++ [tLast s]) N (sampling params) ds Ho) as (l & ds' & H1 & H2 & H3).
    + intros Hz. by apply app_nil in Hz as [_ ?].
    + rewrite Hctx, length_app. unfold draftReach. lia.
    + exists l, ds'. split; [done|]. split; [done|]. lia.
  - exists [], ds. split; [done|]. split; [done|]. simpl. lia.
Qed.

(** Verify and accept: the drafts the model itself would have picked, and its pick
    behind them. *)
Lemma verify_accept e toks t drafts hist :
  Tracks cfg e toks -> length toks + S (length drafts) + 4 <= maxContextTokens cfg ->
  exists rows a rows' hist',
    forwardVerify cfg (t :: drafts) e = (Ok rows, (forward blockCount (t :: drafts) e).2) /\
    acceptLoop cfg tanhf (sampling params) hist rows drafts = Ok (a, rows', hist') /\
    a <= length drafts /\
    (forall i, i < a -> drafts !! i = Some (tok ((toks ++ [t]) ++ take i drafts))) /\
    argmaxOf (nth a rows' []) = Ok (tok ((toks ++ [t]) ++ take a drafts)).
Proof using Laws Hplain Hroom.
  intros T Hf. unfold forwardVerify.
  rewrite (verify_spec cfg Laws e toks (t :: drafts)) by (try apply T; try done; simpl; lia).
  set (rows := map lmHead _).
  destruct (acceptLoop_spec drafts (toks ++ [t]) hist rows) as (a & rows' & hist' & H1 & H2 & H3 & H4).
  - unfold rows. rewrite length_map, length_drop, hidsOf_length, length_app by done. simpl. lia.
  - intros i row Hi. rewrite (verified_rows _ _ _ _ Hi). cbn [take]. by rewrite <- app_assoc.
  - by exists rows, a, rows', hist'.
Qed.

Lemma specRound_spec s e ds : Between s e ds -> ended (generated s) = false ->
  exists s' e' ds', specRound cfg tanhf scfg params onToken s e ds = (Ok s', e', ds') /\
    follows (generated s) (generated s') /\ length (generated s) < length (generated s') /\
    Between s' e' ds'.
Proof using Laws Hns Hplain Hroom Hdraft.
  intros B He. destruct (btw_open _ _ _ B He) as [T Hctx].
  pose proof (ended_budget _ He) as Hlt. unfold specRound. cbv zeta. fold (roundN s).
  destruct (draft_spec s ds (btw_order _ _ _ B) Hlt Hctx) as (drafts & ds' & -> & Ho & Hdl).
  pose proof (f_equal length Hctx) as Hcl. rewrite !length_app in Hcl. simpl in Hcl.
  destruct (verify_accept e (context s) (tLast s) drafts (generated s) T ltac:(lia))
    as (rows & a & rows' & hist' & -> & -> & Ha & Hacc & Hrec).
  rewrite checked_plain, Hrec. rewrite Hctx, <- app_assoc in Hrec |- *.
  destruct (tracks_partial e (context s) (tLast s :: drafts) (S a) T ltac:(simpl; lia)) as (e' & Hcom & T').
  cbn [take] in Hcom, T'. rewrite Hcom.
  set (acc := take a drafts) in *. set (rec := tok _) in *.
  assert (Hal : length acc = a) by (unfold acc; rewrite length_take; lia).
  destruct (emitLoop_spec acc (generated s)) as (k & stop & ab & H1 & H2 & H3).
  { intros i Hi. unfold acc. rewrite lookup_take_lt, take_take, Nat.min_l by lia.
    rewrite Hacc by lia. by rewrite Hctx, <- app_assoc. }
  { done. }
  { lia. }
  cbn zeta in H1, H2, H3. rewrite H1.
  assert (G : Good cfg e') by by eapply tracks_good.
  pose proof (btw_counts _ _ _ B). destruct (ab || stop) eqn:Hc.
  - destruct H3 as (E1 & E2 & E3 & E4). eexists _, e', ds'. split; [done|]. cbn.
    split; [done|]. split; [done|]. split; cbn; try done; [lia|congruence].
  - destruct H3 as [-> He']. rewrite take_ge in * by lia.
    eexists _, e', ds'. split; [done|]. cbn. split; [|split; [rewrite !length_app; simpl; lia|]].
    + eapply follows_trans; [exact H2|]. by apply follows_one.
    + split; cbn; try done; [apply last_last|lia|]. intros _. rewrite drop_app_length.
      split; [exact T'|]. rewrite app_assoc. f_equal.
      by rewrite app_assoc, <- Hctx, <- app_assoc.
Qed.

Lemma specLoop_follows fuel : forall s e ds,
  Between s e ds -> maxNewTokens params <= length (generated s) + fuel ->
  exists s' e' ds', specLoop cfg tanhf scfg params onToken fuel s e ds = (Ok s', e', ds') /\
    follows (generated s) (generated s') /\ ended (generated s') = true /\ Between s' e' ds'.
Proof using Laws Hns Hplain Hroom Hdraft.
  induction fuel as [|fuel IH]; intros s e ds B Hf; cbn [specLoop].
  all: assert (Hend : negb (aborted s) && (length (generated s) <? maxNewTokens params)
      && negb (hitStop s) = negb (ended (generated s))) by
    (unfold ended; rewrite (btw_abort _ _ _ B), (btw_stop _ _ _ B), (btw_last _ _ _ B);
     rewrite Nat.ltb_antisym; by destruct (wantsMore onToken _), (isStop cfg params _), (_ <=? _)).
  all: rewrite Hend; destruct (ended (generated s)) eqn:He; cbn [negb].
  1,3: exists s, e, ds; (split; [done|]); (split; [constructor|]); done.
  - apply ended_budget in He. lia.
  - destruct (specRound_spec s e ds B He) as (s1 & e1 & ds1 & -> & R1 & R2 & B1).
    destruct (IH s1 e1 ds1 B1 ltac:(lia)) as (s' & e' & ds' & I1 & I2 & I3).
    exists s', e', ds'. split; [exact I1|]. split; [|done]. by eapply follows_trans.
Qed.

(** ** Whole runs *)

(** An engine that holds tokens has its caches. *)
Lemma working_allocated e toks : Working cfg e toks -> toks <> [] -> is_Some (kvCache e).
Proof using.
  intros W Hne. destruct (work_active _ _ _ W) as [Hl _]. unfold activeCache in Hl.
  destruct (kvCache e); [by eexists|]. symmetry in Hl. by apply nil_length_inv in Hl.
Qed.

(** The request for the first token: cancelled, or answered with the model's pick. *)
Lemma first_token onProgress e : Good cfg e -> 0 < maxNewTokens params ->
  exists gen st e',
    InferenceEngine.generate cfg tanhf expf (mkGen 1 (sampling params) (stopIds params)) None draws
      promptIds onProgress e = (Ok (gen, st), e') /\ Good cfg e' /\
    match cancelledAt onProgress with
    | Some _ => gen = []
    | None => gen = [tok promptIds] /\ Tracks cfg e' promptIds
    end.
Proof using Laws Hns Hplain Hprompt Hroom.
  intros G Hm. set (p1 := mkGen 1 _ _).
  pose proof (generate_spec cfg Laws tanhf expf p1 None draws promptIds onProgress e G Hprompt) as HG.
  destruct (InferenceEngine.generate _ _ _ _ _ _ _ _ e) as [r e']. destruct HG as (G' & Hr & HW).
  unfold expected in Hr. rewrite (proj2 (Nat.ltb_ge _ _)) in Hr by (cbn; lia).
  destruct (cancelledAt onProgress) as [b|].
  - destruct r as [[gen st]|x]; [|done]. injection Hr as -> _. by exists [], st, e'.
  - unfold p1 in Hr. rewrite refGenerate_first in Hr. destruct r as [[gen st]|x]; [|done].
    injection Hr as -> _. destruct HW as (_ & _ & _ & HW). destruct (HW eq_refl) as [W1 W2].
    cbn [length Nat.sub take] in W2. rewrite app_nil_r in W2. rewrite W2 in W1.
    exists [tok promptIds], st, e'. split; [done|]. split; [done|]. split; [done|].
    split; [done|done|by eapply working_allocated|]. destruct (ssmSnapValid e') eqn:Hv; [|done].
    destruct (work_flag _ _ _ W1 Hv). congruence.
Qed.

Lemma runSpeculative_follows onProgress e ds :
  Good cfg e -> inOrder ds -> 0 < maxNewTokens params ->
  exists gen st e' ds',
    runSpeculative cfg tanhf expf scfg params onToken draws promptIds onProgress e ds =
      (Ok (gen, st), e', ds') /\ Good cfg e' /\ inOrder ds' /\
    specDecAccepted st <= specDecDrafted st /\
    match cancelledAt onProgress with
    | Some _ => gen = []
    | None => follows [tok promptIds] gen /\ ended gen = true
    end.
Proof using Laws Hns Hplain Hprompt Hroom Hdraft.
  intros G Ho Hm. unfold runSpeculative.
  rewrite !(proj2 (Nat.eqb_neq _ _)) by (try lia; by destruct promptIds).
  destruct (first_token onProgress e G Hm) as (gen & st & e1 & -> & G1 & Hg).
  destruct (cancelledAt onProgress) as [b|].
  { rewrite Hg. by eexists _, _, e1, ds. }
  destruct Hg as [-> T]. set (t := tok promptIds) in *.
  destruct (negb (wantsMore onToken [t]) || isStop cfg params t) eqn:Hc.
  { eexists _, _, e1, ds. split; [done|]. split; [done|]. split; [done|]. split; [cbn; lia|].
    split; [constructor|]. unfold ended. cbn [List.last].
    apply orb_prop in Hc as [->| ->]; [by rewrite orb_true_r|done]. }
  destruct (law_warm _ _ Hdraft (promptIds ++ [t]) ds Ho) as (ds1 & -> & Ho1).
  { intros Hz. by apply app_nil in Hz as [_ ?]. }
  { rewrite length_app. unfold draftReach. cbn. lia. }
  apply orb_false_elim in Hc as [Hc1 Hc2].
  destruct (specLoop_follows (maxNewTokens params)
    (mkRound [t] promptIds t (isStop cfg params t) (negb (wantsMore onToken [t])) 0 0 0) e1 ds1)
    as (s & e' & ds' & -> & F1 & F2 & B); [by split|cbn; lia|].
  eexists _, _, e', ds'. split; [done|]. split; [apply B|]. split; [apply B|]. split; [apply B|]. by split.
Qed.

(** What the plain engine answers to the same request. *)
Lemma generate_follows onProgress e : Good cfg e ->
  exists gen st e',
    InferenceEngine.generate cfg tanhf expf params onToken draws promptIds onProgress e =
      (Ok (gen, st), e') /\ Good cfg e' /\
    match cancelledAt onProgress with
    | Some _ => gen = []
    | None => follows [tok promptIds] gen /\ ended gen = true
    end.
Proof using Laws Hplain Hprompt Hroom.
  intros G.
  pose proof (generate_spec cfg Laws tanhf expf params onToken draws promptIds onProgress e G Hprompt) as HG.
  destruct (InferenceEngine.generate _ _ _ _ _ _ _ _ e) as [r e']. destruct HG as (G' & Hr & _).
  unfold expected in Hr. rewrite (proj2 (Nat.ltb_ge _ _)) in Hr by lia.
  destruct (cancelledAt onProgress) as [b|].
  - destruct r as [[gen st]|x]; [|done]. injection Hr as -> _. by exists [], st, e'.
  - destruct refGenerate_follows as (gen' & stop & R1 & R2). rewrite R1 in Hr.
    destruct r as [[gen st]|x]; [|done]. injection Hr as -> _. by exists gen', st, e'.
Qed.
End Agreement.

(** ** A drafter that runs a model *)

Section ModelDrafter.
Context {BK : Backend}.
Variable cfg : EngineConfig.
Variables tanhf expf : f32 -> f32.
Variable draws : nat -> list nat * f32.
Hypothesis Laws : BackendLaws.

Lemma sample_total logits recent p idx u :
  logits <> [] -> exists t, sample tanhf expf logits recent p idx u = Ok t.
Proof using.
  intros Hl. assert (Ha : forall row : list f32, length row = length logits -> exists i, argmaxRow row = Ok i).
  { intros [|x row] Hr; [by destruct logits|]. by eexists. }
  unfold sample. destruct logits as [|x l]; [done|]. cbn [length Nat.eqb].
  destruct (_ && _ && _ && _); [destruct (Ha (x :: l) eq_refl) as [i ->]; by eexists|].
  destruct (isGreedy p); [|by eexists].
  destruct (Ha (processed tanhf (x :: l) recent p)) as [i ->]; [apply processed_length|by eexists].
Qed.

Lemma refLoop_total params onToken promptIds fuel : forall gen,
  gen <> [] -> exists gen' stop,
    refLoop cfg tanhf expf params onToken draws promptIds fuel gen = Ok (gen', stop) /\
    length gen' <= Nat.max (length gen) (maxNewTokens params).
Proof using Laws.
  induction fuel as [|fuel IH]; intros gen Hne; cbn [refLoop]; [exists gen, false; split; [done|lia]|].
  destruct (negb (keepGoing onToken gen)); [exists gen, false; split; [done|lia]|].
  destruct (Nat.ltb_spec (length gen) (maxNewTokens params)); [|exists gen, false; split; [done|lia]].
  cbn [negb orb]. destruct (InferenceEngine.isStop _ _ _); [exists gen, true; split; [done|lia]|].
  unfold choose. destruct (hidAt_some Laws (promptIds ++ gen)) as [h ->].
  { intros Hz. by apply app_nil in Hz as [_ ?]. }
  destruct (sample_total (lmHead h) gen (set_field Sampling.finalLogitSoftcap
    (finalLogitSoftcap cfg) (sampling params)) (draws (length gen)).1 (draws (length gen)).2)
    as [t Ht]; [apply Laws|]. unfold sampleNext. rewrite Ht.
  destruct (IH (gen ++ [t])) as (gen' & stop & H1 & H2).
  - intros Hz. by apply app_nil in Hz as [_ ?].
  - rewrite length_app in H2. cbn in H2. exists gen', stop. split; [done|lia].
Qed.

Lemma generate_total params promptIds e :
  Good cfg e -> promptIds <> [] -> 0 < maxNewTokens params ->
  length promptIds + maxNewTokens params + 4 <= maxContextTokens cfg ->
  exists gen st e',
    InferenceEngine.generate cfg tanhf expf params None draws promptIds None e = (Ok (gen, st), e') /\
    length gen <= maxNewTokens params /\ Good cfg e'.
Proof using Laws.
  intros G Hp Hm Hf.
  pose proof (generate_spec cfg Laws tanhf expf params None draws promptIds None e G Hp) as HG.
  destruct (InferenceEngine.generate _ _ _ _ _ _ _ _ e) as [r e']. destruct HG as (G' & Hr & _).
  unfold expected in Hr. rewrite (proj2 (Nat.ltb_ge _ _)) in Hr by lia. cbn [cancelledAt] in Hr.
  unfold refGenerate, choose in Hr. destruct (hidAt_some Laws promptIds Hp) as [h Hh]. rewrite Hh in Hr.
  unfold sampleNext in Hr. destruct (sample_total (lmHead h) promptIds (set_field Sampling.finalLogitSoftcap
    (finalLogitSoftcap cfg) (sampling params)) (draws 0).1 (draws 0).2 (law_head Laws h)) as [t Ht].
  rewrite Ht in Hr.
  destruct (refLoop_total params None promptIds (maxNewTokens params) [t] ltac:(done)) as (gen & stop & R1 & R2).
  rewrite R1 in Hr. destruct r as [[g st]|x]; [|done]. injection Hr as -> _.
  exists gen, st, e'. split; [done|]. cbn in R2. split; [lia|done].
Qed.

(** The draft model answers every context that fits its own window, with any sampling,
    and its engine stays consistent. *)
Lemma modelDrafter_within cap :
  cap + 4 <= maxContextTokens cfg ->
  DraftsWithin (DR := modelDrafter cfg tanhf expf draws) (Good cfg) cap.
Proof using Laws.
  intros Hcap. split; cbn.
  - intros ctx N sp e G Hne Hl. unfold speculate. destruct (Nat.eqb_spec N 0) as [->|HN].
    { exists [], e. split; [done|]. split; [done|exact G]. }
    destruct (generate_total (mkGen N sp []) ctx e G Hne) as (gen & st & e' & -> & H1 & H2);
      [cbn; lia..|]. by exists gen, e'.
  - intros ctx e G Hne Hl. unfold primeDraft.
    destruct (generate_total (mkGen 1 defaultParams []) ctx e G Hne) as (gen & st & e' & -> & _ & H2);
      [cbn; lia..|]. by exists e'.
Qed.
End ModelDrafter.

(** C4: Speculative decoding changes nothing but speed, on a model without recurrent
    state and for a greedy request without penalties, bias, bad words and softcap: for
    every drafter that answers - prompt lookup, a draft model on an engine of its own
    ([ngramDrafter_within], [modelDrafter_within]) or any other - whatever it drafts,
    whatever the client's callbacks, and from any engine that has served other
    requests, it answers (no call into the engine throws), the tokens are those of
    plain [generate] (again from any engine), they never exceed the token budget, no
    more drafts are accepted than were made, and the engine and the drafter are left
    consistent for the next request.  Further hypotheses: [BackendLaws], and a context
    window that holds prompt, budget and the 4 positions [ensureCapacity] asks for. *)
Theorem speculative_equals_plain (BK : Backend) (DR : Drafter) cfg tanhf expf scfg params onToken
    draws promptIds onProgress inOrder e1 e2 ds :
  BackendLaws -> needsSsmScratch = false -> Good cfg e1 -> Good cfg e2 ->
  DraftsWithin inOrder (draftReach params promptIds) -> inOrder ds ->
  plainSampling cfg (sampling params) -> promptIds <> [] -> 0 < maxNewTokens params ->
  length promptIds + maxNewTokens params + 4 <= maxContextTokens cfg ->
  exists gen sst e1' ds' st e2',
    generate cfg tanhf expf scfg params onToken draws promptIds onProgress e1 ds =
      (Ok (gen, sst), e1', ds') /\
    InferenceEngine.generate cfg tanhf expf params onToken draws promptIds onProgress e2 =
      (Ok (gen, st), e2') /\
    length gen <= maxNewTokens params /\ specDecAccepted sst <= specDecDrafted sst /\
    Good cfg e1' /\ inOrder ds'.
Proof.
  intros Laws Hns G1 G2 Hd Ho Hpl Hp Hm Hf.
  destruct (generate_follows cfg tanhf expf params onToken draws promptIds Laws Hpl Hp Hf onProgress e2 G2)
    as (gen & st & e2' & HP & _ & Hg).
  assert (Hlen : length gen <= maxNewTokens params).
  { destruct (cancelledAt onProgress); [by rewrite Hg; cbn; lia|]. destruct Hg as [Hg _].
    apply follows_length in Hg; cbn in *; lia. }
  unfold generate. destruct (negb (wouldEngage scfg params)).
  - destruct (generate_follows cfg tanhf expf params onToken draws promptIds Laws Hpl Hp Hf onProgress e1 G1)
      as (gen1 & st1 & e1' & -> & G1' & Hg1).
    assert (gen1 = gen) as ->.
    { destruct (cancelledAt onProgress); [congruence|]. destruct Hg, Hg1. by eapply follows_det. }
    by eexists gen, _, e1', ds, st, e2'.
  - destruct (runSpeculative_follows cfg tanhf expf scfg params onToken draws promptIds inOrder Laws Hns
      Hpl Hp Hf Hd onProgress e1 ds G1 Ho Hm) as (gen1 & sst & e1' & ds' & -> & G1' & Ho' & Hc & Hg1).
    assert (gen1 = gen) as ->.
    { destruct (cancelledAt onProgress); [congruence|]. destruct Hg, Hg1. by eapply follows_det. }
    by exists gen, sst, e1', ds', st, e2'.
Qed.

(** ** Concrete runs *)

(** A run with an n-gram drafter and one with a draft model that is another model than
    the target's. *)
Definition demoSpecParams : GenerateParams := mkGen 9 defaultParams [].
Definition demoDraftModel : Drafter :=
  modelDrafter (BK := demoCounting) (demoCfg None false) (fun x => x) (fun x => x) noDraws.

Lemma speculative_equals_plain_witness :
  (exists gen sst e1' ds' st e2',
    generate (BK := demoCounting) (DR := ngramDrafter 3 2) (demoCfg (Some 2%Z) false) (fun x => x)
      (fun x => x) (mkConfig true 3) demoSpecParams None noDraws [0; 1; 2; 3; 4; 5; 0; 1]%Z None
      (freshEngine (BK := demoCounting) tt) tt = (Ok (gen, sst), e1', ds') /\
    InferenceEngine.generate (BK := demoCounting) (demoCfg (Some 2%Z) false) (fun x => x) (fun x => x)
      demoSpecParams None noDraws [0; 1; 2; 3; 4; 5; 0; 1]%Z None
      (freshEngine (BK := demoCounting) tt) = (Ok (gen, st), e2') /\
    length gen <= 9 /\ specDecAccepted sst <= specDecDrafted sst /\
    Good (demoCfg (Some 2%Z) false) e1' /\ True) /\
  (exists gen sst e1' ds' st e2',
    generate (BK := demoAttention) (DR := demoDraftModel) (demoCfg None false) (fun x => x)
      (fun x => x) (mkConfig true 3) demoSpecParams None noDraws [1; 2; 3]%Z None
      (freshEngine (BK := demoAttention) tt) (freshEngine (BK := demoCounting) tt) =
      (Ok (gen, sst), e1', ds') /\
    InferenceEngine.generate (BK := demoAttention) (demoCfg None false) (fun x => x) (fun x => x)
      demoSpecParams None noDraws [1; 2; 3]%Z None
      (freshEngine (BK := demoAttention) tt) = (Ok (gen, st), e2') /\
    length gen <= 9 /\ specDecAccepted sst <= specDecDrafted sst /\
    Good (demoCfg None false) e1' /\ Good (BK := demoCounting) (demoCfg None false) ds').
Proof.
  split.
  - exact (speculative_equals_plain demoCounting (ngramDrafter 3 2) (demoCfg (Some 2%Z) false)
      (fun x => x) (fun x => x) (mkConfig true 3) demoSpecParams None noDraws
      [0; 1; 2; 3; 4; 5; 0; 1]%Z None (fun _ => True) (freshEngine (BK := demoCounting) tt)
      (freshEngine (BK := demoCounting) tt) tt demoCounting_laws eq_refl
      (good_fresh _ demoCounting_laws _) (good_fresh _ demoCounting_laws _)
      (ngramDrafter_within 3 2 _) I
      (conj eq_refl (conj eq_refl (conj eq_refl (conj eq_refl eq_refl))))
      ltac:(done) ltac:(cbn; lia) ltac:(cbn; lia)).
  - exact (speculative_equals_plain demoAttention demoDraftModel (demoCfg None false)
      (fun x => x) (fun x => x) (mkConfig true 3) demoSpecParams None noDraws [1; 2; 3]%Z None
      (Good (BK := demoCounting) (demoCfg None false))
      (freshEngine (BK := demoAttention) tt) (freshEngine (BK := demoAttention) tt)
      (freshEngine (BK := demoCounting) tt) demoAttention_laws eq_refl
      (good_fresh _ demoAttention_laws _) (good_fresh _ demoAttention_laws _)
      (modelDrafter_within (BK := demoCounting) (demoCfg None false) (fun x => x) (fun x => x) noDraws
        demoCounting_laws (draftReach demoSpecParams [1; 2; 3]%Z) ltac:(cbn; lia))
      (good_fresh _ demoCounting_laws _)
      (conj eq_refl (conj eq_refl (conj eq_refl (conj eq_refl eq_refl))))
      ltac:(done) ltac:(cbn; lia) ltac:(cbn; lia)).
Defined.

(** A round that accepts one draft of two. *)
Example one_draft_accepted :
  (match generate (BK := demoCounting) (DR := ngramDrafter 3 2) (demoCfg None false) (fun x => x)
      (fun x => x) (mkConfig true 3) demoSpecParams None noDraws [0; 1; 2; 3; 9; 0; 1]%Z None
      (freshEngine (BK := demoCounting) tt) tt with
   | (Ok (gen, st), _, _) => Some (gen, specDecDrafted st, specDecAccepted st)
   | _ => None end) = Some ([2; 3; 4; 5; 6]%Z, 2, 1).
Proof. vm_compute; reflexivity. Qed.

(** ** What the theorem leaves out *)

(** A drafter that always drafts the same. *)
Definition constantDrafter (l : list Z) : Drafter := {|
  DState := unit;
  propose _ N _ d := (Ok (take N l), d);
  warmPrefix _ d := (Ok tt, d);
|}.

(** The tokens of both paths, [n] of them behind [prompt]. *)
Definition bothPaths (BK : Backend) (s : Ssm) (drafts prompt : list Z) (n : nat)
    (p : SamplingParams) : list Z * list Z :=
  (match InferenceEngine.generate (demoCfg None false) (fun x => x) (fun x => x) (mkGen n p [])
           None noDraws prompt None (freshEngine s) with
   | (Ok (gen, _), _) => gen | _ => [] end,
   match generate (DR := constantDrafter drafts) (demoCfg None false) (fun x => x) (fun x => x)
           (mkConfig true 4) (mkGen n p []) None noDraws prompt None (freshEngine s) tt with
   | (Ok (gen, _), _, _) => gen | _ => [] end).

(** A model that gives the same row whatever came before. *)
Definition demoConstant : Backend :=
  stepBackend (fun rows (_ : unit) t => (t, tt, t)) (fun _ : Z => map f32_of_Z [0; 20; 0; 0; 0; 8]%Z)
    false tt.

(** The accept check writes softcap and penalties into the rejected row, and the
    recovery pick applies them to that row again: with a repetition penalty of 2
    the model's own next token (logit 20, penalised 10) beats token 5 (logit 8),
    but penalised twice (5) it loses, so a rejected draft changes the stream. *)
Example rejected_row_penalised_twice :
  bothPaths demoConstant tt [3]%Z [0]%Z 3 (mkParams f0 0 f1 f0 [] [] f0 f0 (f32_of_Z 2) 64 f0) =
    ([1; 1; 1], [1; 5; 1])%Z.
Proof. vm_compute; reflexivity. Qed.

(** The plain path honours [logit_bias]; the speculative one, which engages for
    any greedy request, does not. *)
Example bias_ignored :
  bothPaths demoConstant tt [] [0]%Z 3
    (mkParams f0 0 f1 f0 [(4, f32_of_Z 50)]%Z [] f0 f0 f1 0 f0) = ([4; 4; 4], [4; 1; 1])%Z.
Proof. vm_compute; reflexivity. Qed.

(** The decoder engages for any model, but a rejected draft stays in the recurrent
    state: on a recurrent model it does not generate what plain decoding generates.  On
    an attention model, with the same drafts, it does. *)
Example speculation_corrupts_recurrent_state :
  (let '(plain, spec) := bothPaths demoAttention tt [3; 3]%Z [1; 1; 1]%Z 5 defaultParams in
   bool_decide (plain = spec)) = true /\
  (let '(plain, spec) := bothPaths demoRecurrent 0%Z [3; 3]%Z [1; 1; 1]%Z 5 defaultParams in
   bool_decide (plain = spec)) = false.
Proof. split; vm_compute; reflexivity. Qed.
End SpecProofs.
