(* ===== verification/DFlashDecoder.v ===== *)
(** * Block drafting: a diffusion drafter on the trunk's hidden taps

    Models [src/src/runtime/engine/DFlashDecoder.cpp] on the engine of
    [InferenceEngine.v]: every trunk forward leaves tap rows by position, the committed
    ones are copied into the drafter's context, one draft forward proposes a whole
    block, one trunk forward verifies it.  After a rejection the recurrent state is
    either recomputed ([foldMode] off) or folded from what the verify captured.

    The drafter is the class [DraftRunner], the capture and fold kernels are the class
    [Replay]; their laws are [RunnerLaws] and [ReplayLaws]. *)

From Stdlib Require Import SpecFloat.
From S2P Require Import Prelude Sampling SpecDecode InferenceEngine InferenceEngineProofs MtpDecoder MtpDecoderProofs.

Module DFlashDecoder.
Import Sampling InferenceEngine.

(** [tapOf]: what the tap layers show of a position.  [draftForward]: from the context
    rows and a block of tokens the best token at every position of the block. *)
Class DraftRunner {BK : Backend} := {
  Tap : Type;
  tapOf : Hid -> Tap;
  maskTok : Z;
  draftForward : list Tap -> list Z -> list Z;
}.

(** [capture]: what the recurrent kernels keep of a verify forward; [foldSsm s c n]:
    the state after its first [n] tokens, from the state before it. *)
Class Replay {BK : Backend} := {
  Capture : Type;
  capture : list Row -> Ssm -> list Z -> Capture;
  foldSsm : Ssm -> Capture -> nat -> Ssm;
}.

Definition RunnerLaws {BK : Backend} (DR : DraftRunner) : Prop :=
  forall ctx block, length (draftForward ctx block) = length block.

Definition ReplayLaws {BK : Backend} (RP : Replay) : Prop :=
  forall rows s l n, n <= length l ->
    foldSsm s (capture rows s l) n = (runBlocks rows s (take n l)).1.2.

(** [src/src/runtime/engine/DFlashDecoder.hpp:164-164 kMaxBlock] *)
Definition kMaxBlock : nat := 33.

Section Generate.
Context {BK : Backend} {DR : DraftRunner} {RP : Replay}.
Variable cfg : EngineConfig.
Variable foldMode : bool.

(** Rows [p0, p1) of a buffer by position, overwritten by [rows]. *)
Definition overwrite {A} (p0 : nat) (rows : list A) (buf : list A) : list A :=
  take p0 buf ++ rows ++ drop (p0 + length rows) buf.

(** The tap sinks and the drafter's context, by position.
    [src/src/runtime/engine/DFlashDecoder.hpp:136-139 DFlashDecoder] *)
Record Context := mkContext { tapSink : list Tap; ctxHidden : list Tap }.

(** [src/src/runtime/engine/DFlashDecoder.cpp:161-171 feedContext] *)
Definition feedContext (p0 p1 : nat) (c : Context) : Context :=
  mkContext (tapSink c) (overwrite p0 (take (p1 - p0) (drop p0 (tapSink c))) (ctxHidden c)).

(** A trunk forward with the taps live.
    [src/src/runtime/engine/DFlashDecoder.cpp:322-323 generate] *)
Definition tappedVerify (toks : list Z) (c : Context) (e : State)
    : result (list Hid) * Context * State :=
  let pos := kvLength (activeCache e) in
  match verifyHidden cfg toks e with
  | (Throw x, e) => (Throw x, c, e)
  | (Ok hids, e) => (Ok hids, mkContext (overwrite pos (map tapOf hids) (tapSink c)) (ctxHidden c), e)
  end.

(** [src/src/runtime/engine/DFlashDecoder.cpp:460-492 draftOneBlock] *)
Definition draftOneBlock (ctxLen : nat) (token0 : Z) (K : nat) (c : Context) : list Z :=
  take K (drop 1 (draftForward (take ctxLen (ctxHidden c)) (token0 :: replicate K maskTok))).

(** What a decode carries from round to round. *)
Record Decode := mkDecode {
  out : list Z;
  token0 : Z;
  ctxLen : nat;
  context : Context;
  drafted : nat;
  accepted : nat;
}.

(** After the verify: commit everything, fold, or undo and forward again.
    [src/src/runtime/engine/DFlashDecoder.cpp:358-397 generate] *)
Definition settle (K a : nat) (vtoks : list Z) (bak : Ssm) (cap : Capture) (preKvLen : nat)
    (c : Context) (e : State) : result unit * Context * State :=
  let committed := take (a + 1) vtoks in
  if a =? K then let '(r, e) := commitVerified committed e in (r, c, e)
  else if foldMode && needsSsmScratch then
    let e := e <| ssmState := foldSsm bak cap (a + 1) |> in
    let '(r, e) := commitVerified committed e in (r, c, e)
  else
    match tappedVerify committed c (MtpDecoder.rollback bak preKvLen e) with
    | (Throw x, c, e) => (Throw x, c, e)
    | (Ok _, c, e) => let '(r, e) := commitVerified committed e in (r, c, e)
    end.

(** One round; the answer's boolean is the wish to go on.
    [src/src/runtime/engine/DFlashDecoder.cpp:261-413 generate] *)
Definition round (maxNew draftN : nat) (eosId : Z) (d : Decode) (e : State)
    : result (Decode * bool) * State :=
  let K := Nat.min draftN (maxNew - length (out d)) in
  let drafts := draftOneBlock (ctxLen d) (token0 d) K (context d) in
  let vtoks := token0 d :: drafts in
  let bak := ssmState e in
  let cap := capture (kvPrefix (activeCache e)) bak vtoks in
  let preKvLen := kvLength (activeCache e) in
  match tappedVerify vtoks (context d) e with
  | (Throw x, _, e) => (Throw x, e)
  | (Ok hids, c, e) =>
      let vl := map lmHead hids in
      let a := MtpDecoder.acceptedCount vl drafts in
      let corrected := MtpDecoder.argmaxHost (nth a vl []) in
      match settle K a vtoks bak cap preKvLen c e with
      | (Throw x, _, e) => (Throw x, e)
      | (Ok _, c, e) =>
          let c := feedContext preKvLen (preKvLen + a + 1) c in
          let '(o, cont, stop) := MtpDecoder.emitAll maxNew eosId (token0 d :: take a drafts) (out d) in
          (Ok (mkDecode o corrected (preKvLen + a + 1) c (drafted d + K) (accepted d + a), cont), e)
      end
  end.

(** The rounds; [fuel] bounds their number.
    [src/src/runtime/engine/DFlashDecoder.cpp:261-263 generate] *)
Fixpoint rounds (fuel maxNew draftN : nat) (eosId : Z) (d : Decode) (e : State)
    : result Decode * State :=
  match fuel with
  | 0 => (Ok d, e)
  | S fuel' =>
      if negb (length (out d) <? maxNew) then (Ok d, e)
      else
        match round maxNew draftN eosId d e with
        | (Throw x, e) => (Throw x, e)
        | (Ok (d, cont), e) => if cont then rounds fuel' maxNew draftN eosId d e else (Ok d, e)
        end
  end.

(** Prompt into engine and context; the answer is the first token.
    [src/src/runtime/engine/DFlashDecoder.cpp:437-456 buildPromptContext] *)
Definition buildPromptContext (prompt : list Z) (c : Context) (e : State)
    : result Z * Context * State :=
  match tappedVerify prompt c (resetCache e) with
  | (Throw x, c, e) => (Throw x, c, e)
  | (Ok hids, c, e) =>
      match commitVerified prompt e, last hids with
      | (Throw x, e), _ => (Throw x, c, e)
      | (Ok _, e), None => (Throw (RuntimeError "no hidden row"), c, e)
      | (Ok _, e), Some h => (Ok (MtpDecoder.argmaxHost (lmHead h)), feedContext 0 (length prompt) c, e)
      end
  end.

(** The prompt goes the way of [buildPromptContext], which repeats these lines.
    [src/src/runtime/engine/DFlashDecoder.cpp:173-260 generate] *)
Definition generate (available : bool) (promptIds : list Z) (maxNew draftN : nat) (eosId : Z)
    (c : Context) (e : State) : result (option Decode) * State :=
  if negb available then (Throw (RuntimeError "generateDflash: requires CUDA qwen35moe target"), e)
  else if (length promptIds =? 0) || (maxNew =? 0) then (Ok None, e)
  else
    let draftN := if draftN =? 0 then 1 else draftN in
    let draftN := if kMaxBlock - 1 <? draftN then kMaxBlock - 1 else draftN in
    match buildPromptContext promptIds c e with
    | (Throw x, _, e) => (Throw x, e)
    | (Ok t0, c, e) =>
        match rounds maxNew maxNew draftN eosId (mkDecode [] t0 (length promptIds) c 0 0) e with
        | (Throw x, e) => (Throw x, e)
        | (Ok d, e) => (Ok (Some d), e)
        end
    end.
End Generate.
End DFlashDecoder.
