(* ===== verification/DFlashDecoderProofs.v ===== *)
(** * Block drafting generates what plain decoding generates

    The argument of [MtpDecoderProofs.v] with the drafter's context carried along:
    before every draft it holds the taps of exactly the committed tokens, although the
    verify forwards write tap rows for rejected ones, and folding the accepted prefix
    leaves the recurrent state that forwarding it again leaves. *)

From Stdlib Require Import SpecFloat.
From S2P Require Import Prelude Sampling SpecDecode InferenceEngine InferenceEngineProofs MtpDecoder MtpDecoderProofs DFlashDecoder.

Module DFlashProofs.
Import Sampling InferenceEngine EngineProofs MtpProofs DFlashDecoder.

(** ** Buffers by position *)

Lemma overwrite_take {A} p0 (rows buf : list A) k :
  p0 <= length buf -> k <= length rows ->
  take (p0 + k) (overwrite p0 rows buf) = take p0 buf ++ take k rows.
Proof.
  intros Hp Hk. unfold overwrite.
  assert (Hl : length (take p0 buf) = p0) by (rewrite length_take; lia).
  rewrite <- Hl at 1. rewrite firstn_app_2, take_app_le by done. done.
Qed.

Lemma overwrite_length {A} p0 (rows buf : list A) :
  p0 <= length buf -> p0 + length rows <= length (overwrite p0 rows buf).
Proof. intros Hp. unfold overwrite. rewrite !length_app, length_take, length_drop. lia. Qed.

Section Proofs.
Context {BK : Backend} {DR : DraftRunner} {RP : Replay}.
Variable cfg : EngineConfig.
Variable foldMode : bool.
Hypothesis Laws : BackendLaws.
Hypothesis Drafts : RunnerLaws DR.
Hypothesis Folds : ReplayLaws RP.

(** The taps of a sequence. *)
Definition taps (l : list Z) : list Tap := map tapOf (hidsOf l).

Lemma taps_length l : length (taps l) = length l.
Proof using Laws. unfold taps. by rewrite length_map, hidsOf_length. Qed.

Lemma taps_take k l : taps (take k l) = take k (taps l).
Proof using Laws. unfold taps. by rewrite hidsOf_take, firstn_map. Qed.

(** The first rows of sinks and context are the taps of [toks]. *)
Definition shows (buf : list Tap) (toks : list Z) : Prop := take (length toks) buf = taps toks.

Lemma shows_room buf toks : shows buf toks -> length toks <= length buf.
Proof using Laws.
  intros H. apply (f_equal length) in H. rewrite length_take, taps_length in H. lia.
Qed.

(** Tap rows of a continuation, written behind [toks]: a prefix of them shows. *)
Lemma shows_overwrite buf toks new k :
  shows buf toks -> k <= length new ->
  shows (overwrite (length toks) (map tapOf (drop (length toks) (hidsOf (toks ++ new)))) buf)
    (toks ++ take k new).
Proof using Laws.
  intros H Hk. pose proof (shows_room _ _ H) as Hr. unfold shows.
  assert (Hd : map tapOf (drop (length toks) (hidsOf (toks ++ new))) = drop (length toks) (taps (toks ++ new)))
    by (unfold taps; by rewrite skipn_map).
  rewrite Hd, length_app, length_take, Nat.min_l by done.
  rewrite overwrite_take by (try done; rewrite length_drop, taps_length, length_app; lia).
  rewrite H, <- (firstn_app_2 k toks new), taps_take, <- take_take_drop. f_equal.
  by rewrite <- taps_take, take_app_length.
Qed.

(** Feeding the committed rows. *)
Lemma shows_feed c toks new :
  shows (ctxHidden c) toks -> shows (tapSink c) (toks ++ new) ->
  shows (ctxHidden (feedContext (length toks) (length toks + length new) c)) (toks ++ new).
Proof using Laws.
  intros Hc Hs. pose proof (shows_room _ _ Hc) as Rc. pose proof (shows_room _ _ Hs) as Rs.
  unfold shows, feedContext in *. cbn. rewrite length_app in *.
  rewrite overwrite_take by (try done; rewrite length_take, length_drop; lia).
  rewrite take_take, Nat.min_l by lia. rewrite Hc, <- (take_app_length toks new) at 1.
  rewrite taps_take, <- Hs, take_take, Nat.min_l by lia.
  by rewrite take_take_drop.
Qed.

(** ** The engine with taps *)

Lemma tapped_spec c e toks new :
  Tracks cfg e toks -> new <> [] -> length toks + length new + 4 <= maxContextTokens cfg ->
  tappedVerify cfg new c e =
    (Ok (drop (length toks) (hidsOf (toks ++ new))),
     mkContext (overwrite (length toks) (map tapOf (drop (length toks) (hidsOf (toks ++ new))))
       (tapSink c)) (ctxHidden c),
     (forward blockCount new e).2).
Proof using Laws.
  intros T Hn Hf. unfold tappedVerify. rewrite (verify_spec cfg Laws e toks new) by (try apply T; done).
  destruct (work_active _ _ _ (tracks_working _ _ _ T)) as [-> _]. done.
Qed.

(** Folding the accepted prefix lands where forwarding it would have. *)
Lemma tracks_folded e toks new k :
  Tracks cfg e toks -> toks <> [] -> needsSsmScratch = true -> k <= length new -> take k new <> [] ->
  exists e', commitVerified (take k new)
      ((forward blockCount new e).2
        <| ssmState := foldSsm (ssmState e) (capture (kvPrefix (activeCache e)) (ssmState e) new) k |>) =
      (Ok tt, e') /\ Tracks cfg e' (toks ++ take k new).
Proof using Laws Folds.
  intros [W T A S] Hne Hs Hk Hn. rewrite (forward_spec Laws e toks new) by apply W. cbn [snd].
  rewrite commitVerified_spec by (done || by eexists). eexists. split; [done|].
  split; [|cbn; by rewrite T|by eexists|done].
  destruct (work_active _ _ _ W) as [Hl Hp].
  assert (Hsync : ssmState e = ssmOf toks).
  { destruct (work_synced _ _ _ W) as [?|[?|?]]; [done|congruence|done]. }
  split; cbn; [|right; right|apply W|apply W|by rewrite S].
  - rewrite length_take, Nat.min_l by done.
    exact (holds_write Laws _ _ new k (work_active _ _ _ W) Hk).
  - rewrite (Folds _ _ _ _ Hk), Hsync, Hp.
    assert (ssmOf (toks ++ take k new) = (runBlocks (rowsOf toks) (ssmOf toks) (take k new)).1.2) as ->;
      [|done].
    unfold ssmOf at 1. rewrite (run_app Laws). by destruct (runBlocks _ _ (take k new)) as [[??]?].
Qed.

Lemma dflash_settle e toks new a K c :
  Tracks cfg e toks -> toks <> [] -> new <> [] -> S K = length new -> a <= K ->
  length toks + length new + 4 <= maxContextTokens cfg ->
  shows (tapSink c) toks ->
  let c1 := mkContext (overwrite (length toks) (map tapOf (drop (length toks) (hidsOf (toks ++ new))))
              (tapSink c)) (ctxHidden c) in
  exists c2 e',
    settle cfg foldMode K a new (ssmState e) (capture (kvPrefix (activeCache e)) (ssmState e) new)
      (kvLength (activeCache e)) c1 (forward blockCount new e).2 = (Ok tt, c2, e') /\
    Tracks cfg e' (toks ++ take (a + 1) new) /\
    shows (tapSink c2) (toks ++ take (a + 1) new) /\ ctxHidden c2 = ctxHidden c.
Proof using Laws Folds.
  intros T Hne Hn HK Ha Hf Hc. cbn zeta.
  set (c1 := mkContext _ _). unfold settle.
  assert (Hc1 : forall k, k <= length new -> shows (tapSink c1) (toks ++ take k new)).
  { intros k Hk. by apply shows_overwrite. }
  assert (Ht : take (a + 1) new <> []) by (destruct new; [done|by rewrite Nat.add_1_r]).
  destruct (Nat.eqb_spec a K) as [->|Hne'].
  { rewrite take_ge in * by lia. destruct (tracks_verified cfg Laws e toks new T Hn) as (e' & -> & H2).
    exists c1, e'. split; [done|]. split; [done|]. split; [|done].
    specialize (Hc1 (length new) ltac:(done)). by rewrite take_ge in Hc1. }
  destruct (foldMode && needsSsmScratch) eqn:Hfm.
  { apply andb_true_iff in Hfm as [_ Hs].
    destruct (tracks_folded e toks new (a + 1) T Hne Hs ltac:(lia) Ht) as (e' & -> & H2).
    exists c1, e'. split; [done|]. split; [done|]. split; [apply Hc1; lia|done]. }
  pose proof (tracks_rollback cfg Laws e toks new T) as T2. set (e2 := MtpDecoder.rollback _ _ _) in *.
  rewrite (tapped_spec c1 e2 toks) by (try done; rewrite length_take; lia).
  destruct (tracks_verified cfg Laws e2 toks _ T2 Ht) as (e' & -> & H2).
  eexists _, e'. split; [done|]. split; [done|]. split; [|done]. cbn [tapSink].
  rewrite <- (take_ge (take (a + 1) new) (length (take (a + 1) new))) at 2 by done.
  apply shows_overwrite; [|done]. specialize (Hc1 0 ltac:(lia)). by rewrite take_0, app_nil_r in Hc1.
Qed.

(** ** Rounds *)

Lemma block_length n t0 K c : length (draftOneBlock n t0 K c) = K.
Proof using Drafts.
  unfold draftOneBlock. rewrite length_take, length_drop, Drafts. cbn. rewrite length_replicate. lia.
Qed.

Section Rounds.
Variable promptIds : list Z.
Variables maxNew draftN : nat.
Variable eosId : Z.
Hypothesis Hprompt : promptIds <> [].
Hypothesis Hfits : length promptIds + maxNew + 5 <= maxContextTokens cfg.

(** Where a decode stands between two rounds: the drafter sees the committed tokens. *)
Record Between (d : Decode) (e : State) : Prop := {
  btw_open : Open promptIds maxNew eosId (out d);
  btw_tracks : Tracks cfg e (promptIds ++ out d);
  btw_next : token0 d = tok (promptIds ++ out d);
  btw_len : ctxLen d = length (promptIds ++ out d);
  btw_sink : shows (tapSink (context d)) (promptIds ++ out d);
  btw_context : shows (ctxHidden (context d)) (promptIds ++ out d);
  btw_counts : accepted d <= drafted d;
}.

Lemma dflash_round d e : Between d e -> exists d' cont e',
  round cfg foldMode maxNew draftN eosId d e = (Ok (d', cont), e') /\
  Good cfg e' /\ accepted d' <= drafted d' /\
  (exists toks, Tracks cfg e' toks /\ ctxLen d' = length toks /\ shows (ctxHidden (context d')) toks) /\
  if cont then Between d' e' /\ length (out d) < length (out d')
  else Complete promptIds maxNew eosId (out d').
Proof using Laws Drafts Folds Hprompt Hfits.
  intros [Ho T Hn Hlen Hs Hc Hcnt]. unfold round. set (K := Nat.min draftN _).
  pose proof (block_length (ctxLen d) (token0 d) K (context d)) as Hdl.
  set (drafts := draftOneBlock _ _ K _) in *. pose proof Ho as (_ & Ho2 & _).
  set (toks := promptIds ++ out d) in *.
  assert (Hne : toks <> []) by (intros Hz; by apply app_nil in Hz as [? _]).
  assert (Hroom : length toks + length (token0 d :: drafts) + 4 <= maxContextTokens cfg)
    by (unfold toks; rewrite length_app; cbn; lia).
  destruct (accept_greedy Laws toks (token0 d) drafts Hn) as (Ha & Hl & Hcor).
  set (vtoks := token0 d :: drafts) in *.
  rewrite (tapped_spec (context d) e toks vtoks) by done.
  destruct (work_active _ _ _ (tracks_working _ _ _ T)) as [Hkv _]. 
  set (hids := drop (length toks) (hidsOf (toks ++ vtoks))) in *.
  set (a := MtpDecoder.acceptedCount _ drafts) in *.
  destruct (dflash_settle e toks vtoks a K (context d) T Hne ltac:(done) ltac:(cbn; lia) ltac:(lia) Hroom Hs)
    as (c2 & e' & Hset & T' & Hs' & Hc').
  fold hids in Hset. rewrite Hset. rewrite Hkv, <- Nat.add_assoc.
  assert (Hctx : shows (ctxHidden (feedContext (length toks) (length toks + (a + 1)) c2))
    (toks ++ take (a + 1) vtoks)).
  { replace (a + 1) with (length (take (a + 1) vtoks)) at 1 by (rewrite length_take; cbn; lia).
    apply shows_feed; [by rewrite Hc'|done]. }
  rewrite Nat.add_1_r in *. change (take (S a) vtoks) with (token0 d :: take a drafts) in *.
  pose proof (emitAll_spec promptIds maxNew eosId _ (out d) Ho Hl) as He.
  destruct (MtpDecoder.emitAll _ _ _ _) as [[o cont] stop].
  eexists _, cont, e'. split; [done|]. split; [by eapply tracks_good|]. cbn. split; [lia|].
  assert (Hlen' : length toks + S a = length (toks ++ token0 d :: take a drafts))
    by (rewrite length_app; cbn; rewrite length_take; lia).
  split; [by eexists|].
  destruct cont; [|exact He]. destruct He as [-> He]. split; [|rewrite length_app; cbn; lia].
  split; cbn; rewrite ?app_assoc; fold toks; try done; lia.
Qed.

Lemma dflash_rounds fuel : forall d e, Between d e -> maxNew <= length (out d) + fuel ->
  exists d' e', rounds cfg foldMode fuel maxNew draftN eosId d e = (Ok d', e') /\
    Complete promptIds maxNew eosId (out d') /\ accepted d' <= drafted d' /\ Good cfg e' /\
    exists toks, Tracks cfg e' toks /\ ctxLen d' = length toks /\ shows (ctxHidden (context d')) toks.
Proof using Laws Drafts Folds Hprompt Hfits.
  induction fuel as [|fuel IH]; intros d e HB Hf; pose proof (btw_open _ _ HB) as (_ & Hl & _); [lia|].
  cbn [rounds]. rewrite (proj2 (Nat.ltb_lt _ _)) by done. cbn [negb].
  destruct (dflash_round d e HB) as (d' & cont & e' & -> & G & A & X & R). destruct cont.
  - destruct R as [R1 R2]. apply (IH d' e' R1). lia.
  - by exists d', e'.
Qed.
End Rounds.

Lemma dflash_complete promptIds maxNew draftN eosId c e :
  length promptIds + maxNew + 5 <= maxContextTokens cfg -> promptIds <> [] -> 0 < maxNew ->
  Good cfg e -> exists d e',
  generate cfg foldMode true promptIds maxNew draftN eosId c e = (Ok (Some d), e') /\
  Complete promptIds maxNew eosId (out d) /\ accepted d <= drafted d /\ Good cfg e' /\
  exists toks, Tracks cfg e' toks /\ ctxLen d = length toks /\ shows (ctxHidden (context d)) toks.
Proof using Laws Drafts Folds.
  intros Hfits Hprompt Hmax HG. unfold generate. cbn [negb].
  rewrite !(proj2 (Nat.eqb_neq _ _)) by (try lia; by destruct promptIds). cbn [orb].
  set (n := if kMaxBlock - 1 <? _ then _ else _).
  destruct (tracks_reset cfg Laws e HG) as (T & Hlen).
  unfold buildPromptContext, tappedVerify at 1. rewrite <- (verify_allocated cfg promptIds _ Hprompt), Hlen.
  set (e2 := allocateCaches cfg (resetCache e)) in *.
  rewrite (verify_spec cfg Laws e2 [] promptIds) by (try apply T; try done; cbn; lia).
  cbn [app length]. rewrite drop_0.
  destruct (tracks_verified cfg Laws e2 [] promptIds T Hprompt) as (e3 & -> & T3). cbn [app] in T3.
  destruct (hidAt_some Laws promptIds Hprompt) as [h Hh].
  fold (hidAt promptIds). rewrite Hh.
  set (c1 := mkContext _ _).
  assert (Hs : shows (tapSink c1) promptIds).
  { pose proof (shows_overwrite (tapSink c) [] promptIds (length promptIds)) as H. cbn in H.
    rewrite drop_0, (take_ge promptIds) in H by done. apply H; [|done]. unfold shows, taps.
    by rewrite (nil_length_inv _ (hidsOf_length Laws [])). }
  set (d0 := mkDecode _ _ _ _ _ _).
  assert (HB : Between promptIds maxNew eosId d0 e3).
  { split; cbn; rewrite ?app_nil_r; [by apply open_nil|done| |done|exact Hs| |lia].
    - unfold tok. by rewrite Hh.
    - apply (shows_feed c1 [] promptIds); [|exact Hs]. unfold shows, taps.
      by rewrite (nil_length_inv _ (hidsOf_length Laws [])). }
  destruct (dflash_rounds promptIds maxNew n eosId Hprompt Hfits maxNew d0 e3 HB ltac:(cbn; lia))
    as (d' & e' & -> & H1 & H2 & H3).
  by exists d', e'.
Qed.
End Proofs.

(** C15: Block drafting changes nothing but speed, whether the recurrent state is
    folded or recomputed after a rejection: for every drafter and block size, from any
    engine that has served other requests, the tokens are those of plain greedy
    [generate], no more drafts are accepted than were made, and the engine is left
    consistent.  The drafter's context then holds the taps of exactly the tokens the
    engine has committed, no row of a rejected draft among them.  Hypotheses:
    [BackendLaws]; a draft forward answers one token per position; a fold is the
    forward of the accepted prefix; greedy sampling; one position more of context
    than [generate] asks for. *)
Theorem dflash_equals_plain (BK : Backend) (DR : DraftRunner) (RP : Replay) cfg foldMode tanhf expf
    params draws promptIds draftN c e1 e2 :
  BackendLaws -> RunnerLaws DR -> ReplayLaws RP ->
  Good cfg e1 -> Good cfg e2 -> promptIds <> [] -> 0 < maxNewTokens params ->
  length promptIds + maxNewTokens params + 5 <= maxContextTokens cfg ->
  stopIds params = [] -> (0 <= tokenizerEos cfg)%Z ->
  SFleb (temperature (sampling params)) f0 = true -> penaltiesActive (sampling params) = false ->
  logitBias (sampling params) = [] -> badWords (sampling params) = [] ->
  exists d e1' st e2',
    DFlashDecoder.generate cfg foldMode true promptIds (maxNewTokens params) draftN (tokenizerEos cfg)
      c e1 = (Ok (Some d), e1') /\
    InferenceEngine.generate cfg tanhf expf params None draws promptIds None e2 = (Ok (out d, st), e2') /\
    accepted d <= drafted d /\ Good cfg e1' /\
    ctxLen d = length (cachedTokens e1') /\
    take (ctxLen d) (ctxHidden (context d)) = map tapOf (hidsOf (cachedTokens e1')).
Proof.
  intros Laws Drafts Folds G1 G2 Hp Hm Hf Hs He Ht Hpen Hb Hw.
  destruct (dflash_complete cfg foldMode Laws Drafts Folds promptIds (maxNewTokens params) draftN
    (tokenizerEos cfg) c e1 Hf Hp Hm G1) as (d & e1' & H1 & H2 & H3 & H4 & toks & T & L & X).
  destruct (refGenerate_complete cfg Laws promptIds (maxNewTokens params) (tokenizerEos cfg) tanhf expf
    params draws (conj eq_refl Hs) (conj eq_refl He) (conj Ht (conj Hpen (conj Hb Hw))) Hp Hm)
    as (gen & stop & R1 & R2).
  rewrite (complete_unique _ _ _ _ _ R2 H2) in R1.
  pose proof (generate_spec cfg Laws tanhf expf params None draws promptIds None e2 G2 Hp) as HG.
  destruct (InferenceEngine.generate cfg tanhf expf params None draws promptIds None e2) as [r e2'].
  destruct HG as (_ & HG & _). unfold expected in HG.
  rewrite (proj2 (Nat.ltb_ge _ _)), R1 in HG by lia. destruct r as [[g st]|x]; [|done].
  injection HG as -> _. exists d, e1', st, e2'. rewrite (tracks_tokens _ _ _ T), L. done.
Qed.

(** ** Concrete runs *)

(** A drafter that counts on, and a replay that keeps the forward's inputs. *)
Definition countingRunner (BK : Backend) (tap : Hid -> Z) : DraftRunner (BK := BK) := {|
  Tap := Z;
  tapOf := tap;
  maskTok := 0;
  draftForward _ block := imap (fun i _ => ((hd 0 block + Z.of_nat i) mod 7)%Z) block;
|}.

Definition keepingReplay (BK : Backend) : Replay (BK := BK) := {|
  Capture := list Row * list Z;
  capture rows _ l := (rows, l);
  foldSsm s cap n := (runBlocks cap.1 s (take n cap.2)).1.2;
|}.

Lemma countingRunner_laws BK tap : RunnerLaws (countingRunner BK tap).
Proof. intros ctx block. apply length_imap. Qed.

Lemma keepingReplay_laws BK : ReplayLaws (keepingReplay BK).
Proof. done. Qed.

Lemma dflash_equals_plain_witness :
  exists d e1' st e2',
    DFlashDecoder.generate (BK := demoRecurrent) (DR := countingRunner demoRecurrent id)
      (RP := keepingReplay demoRecurrent) (demoCfg None true) true true
      [1; 1; 1]%Z 5 3 6 (mkContext [] []) (freshEngine (BK := demoRecurrent) 9%Z) = (Ok (Some d), e1') /\
    InferenceEngine.generate (BK := demoRecurrent) (demoCfg None true) (fun x => x) (fun x => x)
      (mkGen 5 defaultParams []) None noDraws [1; 1; 1]%Z None (freshEngine (BK := demoRecurrent) 3%Z) =
      (Ok (out d, st), e2') /\
    accepted d <= drafted d /\ Good (demoCfg None true) e1' /\
    ctxLen d = length (cachedTokens (BK := demoRecurrent) e1') /\
    take (ctxLen d) (ctxHidden (context d)) =
      map id (hidsOf (BK := demoRecurrent) (cachedTokens (BK := demoRecurrent) e1')).
Proof.
  exact (dflash_equals_plain demoRecurrent (countingRunner demoRecurrent id) (keepingReplay demoRecurrent)
    (demoCfg None true) true (fun x => x) (fun x => x) (mkGen 5 defaultParams []) noDraws [1; 1; 1]%Z 3
    (mkContext [] []) (freshEngine (BK := demoRecurrent) 9%Z) (freshEngine (BK := demoRecurrent) 3%Z)
    demoRecurrent_laws (countingRunner_laws _ _) (keepingReplay_laws _)
    (good_fresh _ demoRecurrent_laws _) (good_fresh _ demoRecurrent_laws _)
    ltac:(done) ltac:(cbn; lia) ltac:(cbn; lia) eq_refl ltac:(done) eq_refl eq_refl eq_refl eq_refl).
Defined.
End DFlashProofs.
